(* ===== verification/_CoqProject ===== *)
-Q . S2P
Prelude.v
Concrete.v
Durations.v
Dicts.v
Traces.v
Effects.v
Coroutines.v
Checkpoints.v
Coordinator.v
CoordinatorInvariant.v
CoordinatorSteps.v
CoordinatorSafety.v
Rows.v
Blocks.v
InputBatching.v
Delivery.v
WeightedQueue.v
BarrierAligner.v
TaskInput.v
TaskInvariant.v
TaskSteps.v
TaskCalls.v
InputBatcher.v
AlignedCut.v
Failover.v
KeyGroups.v
StateCodec.v
StateBackend.v
BackendContract.v
ManagedState.v
Windows.v
IntervalJoin.v
StateSnapshot.v
EventTime.v
ReplayWatermark.v
Partitioning.v
Graphs.v
Plans.v
LogicalGraph.v
Optimizer.v
Chaining.v
ChainTraversal.v
PhysicalGraph.v
Topology.v
BarrierSplits.v
Resizing.v
GraphExamples.v
Assignment.v
Placement.v
Reservations.v
RescaleTransaction.v
RescaleCalls.v
RescaleSafety.v
RescaleExamples.v
SqlValues.v
SqlState.v
SqlJoin.v
SqlTopN.v
SqlAggregate.v
ManagedSnapshot.v
Rescaling.v
AsyncRunner.v
