(* ===== verification/Prelude.v ===== *)
(** * A verification library for Klein, stateful stream processing on Ray

    Klein runs a dataflow program on Ray: the job manager deploys a graph of tasks, each
    task is an actor that reads batches of records from an inbox, runs an operator (or
    a chain of them) and sends the results on; keyed operators keep managed state that is
    checkpointed and redistributed when the parallelism changes; a supervisor restarts
    a job whose tasks fail.  This library models the parts of the Python package
    [src/ray/klein] that carry this logic and proves what makes them correct.  Paths are
    from the repository's root; an operation has the name of its Python method.

    ** Conventions

    - [outcome A] (this file) is a Python call: a value or one of the exception classes
      [exn]; messages are not kept.  A method that changes its object is a function of
      the state; one that raises leaves the state it had reached.  Larger components run
      in a monad: [exec S] ([Effects]) for the control plane, [op] ([ManagedState])
      for operators over a state backend.
    - Code that runs on an event loop or in actors is a step relation or a partial step
      function whose actions are the segments between two suspension points
      ([WeightedQueue], [ReplayWatermark], [AsyncRunner]); theorems hold for every
      interleaving, and liveness under weak fairness ([Traces]).  The coroutines of the
      coordinator are values of a monad ([Coroutines]) whose steps run up to the next
      [await]; its logic is rely-guarantee: an invariant of state and history holds in
      every interleaving of any number of calls if each method keeps it and tolerates
      what the others may do while it waits.
    - Python integers are [Z]; [struct] formats raise outside their width ([StateCodec]);
      a float that is a duration or an SQL value is computed with the binary64 of
      [SpecFloat]; every read of a clock is an argument.
    - Code outside the repository, and user code, is a parameter: pickle ([Serializer],
      [KeyCodec], [CanonPickle]), SHA-256 and BLAKE2b, NumPy and Arrow ([BlockLibrary]),
      key selectors, expressions, user functions, Ray.
      [Concrete] has instances of these interfaces for the examples.
    - A loop that is not structural has fuel, at least the number of its rounds: the
      length of the list it walks ([bisect], [retract_from], [drain_loop]), the number of
      windows ([Windows]), the number of restarts the policy admits ([Failover]), the
      number of vertices of a graph ([kahn], [traverse]) or of its edges ([search]).  The
      theorems state that the result is produced, so too little fuel would refute them.

    ** State ([src/ray/klein/state])

    - [KeyGroups] ([key_group_range.py]): which subtask owns which key group.  The
      formula for ranges and the formula for owners agree (C1) and the ranges tile the
      key groups, balanced (C2).
    - [StateCodec] ([state_codec.py]): byte layout of keys, values and timers; layouts
      decode, are injective, keep prefixes and the order of timestamps; values
      round-trip exactly within their width (C4).
    - [StateBackend] ([memory_state_backend.py]): every operation of the in-memory
      backend; well-formedness of all reachable states (C6), reads, time to live,
      timers, cleanup (C11), namespaces.
    - [StateSnapshot]: its snapshots, whole and by key group; round trips (C12, C13).
    - [BackendContract] ([managed_state_backend.py]): the storage contract as a class
      with an abstract specification (a map of values and a set of timers) and its laws;
      the in-memory backend refines it (C26).  Operators use the laws only.
    - [ManagedState] ([managed_state_operator.py], [timer_service.py],
      [value_state.py], [list_state.py], [keyed_state_context.py]): the monad of keyed
      operators and Hoare triples over the abstract contract.
    - [ManagedSnapshot] ([managed_state_snapshot.py]): envelopes, validation and
      redistribution: exactly when it is defined (C32), and that restoring a
      redistributed part is restoring from all the old ones (C33).  [Rescaling]
      composes snapshot, redistribution and restore (C34).

    ** Operators ([src/ray/klein/runtime/operator])

    - [Windows] (window assigners, at their offset, C27; [window_operator.py], C28),
      [IntervalJoin] ([interval_join_operator.py], C29): over any backend that meets the
      contract, and for any sequence of elements and watermarks, exactly the right results
      come out.  What is late for the join is what its code takes for late; with bounds
      that admit equal times no element on time is.
    - [Rows] ([row_kind.py], [changelog_row.py]): changelogs and the tables they build.
      [SqlValues], [SqlState]: values, their identity and order, and what the SQL
      operators share.  [SqlJoin] (C36), [SqlTopN] (C37), [SqlAggregate] (C38): the
      changelog an incremental operator puts out builds the relational result of its
      input tables.  The encoding of a row or a key depends on which of its strings are
      one object, so rows and keys carry this sharing, and these theorems assume that
      equal keys, and rows to be retracted, share alike; each file has an example of what
      happens otherwise.
    - [EventTime] ([watermark_operator.py], [input_watermark_tracker.py]): watermark
      protocol and progress (C14, C15), and the bound of the watermark operator.

    ** Tasks ([src/ray/klein/runtime/worker], [collector], [partitioning])

    - [WeightedQueue] (inbox, C20), [Blocks] ([block.py], [values.py]: columns, their
      conversion by NumPy and Arrow, slices and concatenation), [InputBatching] (what the
      batches stand for, up to these conversions, C21), [AsyncRunner] (ordered
      asynchronous computes: order and capacity, C30; progress, C31).
    - [BarrierAligner] ([_BarrierAligner] of [checkpoint_strategy.py]): counting of the
      barriers of a checkpoint over the input lanes, shared epochs and ordinary ones,
      ends of streams, aborts and changes of topology.
    - [TaskInput] ([stream_task.py], [pump.py], [AlignedCheckpointStrategy]): the inbox
      calls of the senders, the gates that close a lane behind its barrier, the pump and
      the operator's thread, as coroutines over the state of one task.
      [TaskInvariant] states what holds at every suspension point, [TaskSteps] has one
      lemma per atomic segment, [TaskCalls] and [AlignedCut] one triple per call: what a
      task registers for a checkpoint is a consistent cut of its input (C9).  The
      accumulator is met through the classes [Batcher] and [BatcherLaws], which
      [InputBatcher] discharges for [InputBatching].
    - [Partitioning]: channel topologies, the even split of a rescaling one included
      (C22), the router that checks partitioners (C23), keyed routing by the owner of the
      key group (C24) and rescaling partitioners.
    - [Delivery] (replay journal, C18; micro-batches), [ReplayWatermark]: nothing
      is acknowledged before it is delivered (C17).

    ** Plans and topology ([src/ray/klein/runtime/graph], [execution_graph])

    - [Graphs]: the loops that both graphs share, Kahn's topological order and the search
      of connected components, and what they compute.
    - [Plans] ([resources.py], [operator_spec.py], [partitioner_spec.py],
      [vertex_spec.py]): the data of a plan; the user's functions and the arguments of
      operators and partitioners are the class [Recipes].
    - [LogicalGraph] ([logical_graph.py], [logical_graph_builder.py]): validation,
      builder, capture of a pipeline, change of one parallelism.  Exactly the valid
      inputs are accepted, and the graph is canonical (C5).
    - [Optimizer] ([rules.py], [logical_optimizer.py]): the removal of unions and the
      fusion of operators into chains.  A chain is read back as the operators and edges
      it is made of; [Chaining] (one fusion) and [ChainTraversal] (the whole rule) prove
      that fusing preserves the dataflow and makes only chains that can run (C10).
    - [PhysicalGraph] ([execution_graph.py], [execution_job_vertex.py],
      [execution_job_edge.py], [execution_vertex.py]): the life cycle of a subtask,
      expansion, resizing, the barriers to align, checkpoint domains, affinity groups.
      [Topology] states what a well-formed graph is ([built]) and proves that the
      domains are the connected components (C7); [BarrierSplits] that the barrier counts
      are exact (C8) and that the acknowledgements the coordinator requires are the
      sinks a source reaches (C3); [Resizing] that every logical graph that fits deploys
      as a well-formed graph (C25), and that a resize keeps it well formed and keeps its
      actors (C16).  [GraphExamples] is a small job at which these theorems are applied.

    ** Control plane ([src/ray/klein/runtime/coordinator], [scheduler], [job_manager])

    - [Checkpoints] ([checkpoint.py], [barrier_id_generator.py],
      [checkpoint_registration.py], [sink_committable_coalescer.py]): the object of one
      checkpoint, its acknowledgements, and the combination of the transactions of a
      sink's writers.  [Dicts]: Python's ordered dictionaries.
    - [Coordinator] ([checkpoint_coordinator.py]): registration and throttling of
      checkpoints, barrier acknowledgement, the completion of a checkpoint, publication
      of metadata, the two-phase commit of sinks, notification and release of sources,
      expiry, the maintenance loop, recovery and the protocol of a rescale.  Storage,
      tasks and sinks are commands that may be answered by anything, exceptions included.
      [CoordinatorInvariant] (the invariant and what a step may change),
      [CoordinatorSteps] (one lemma per atomic segment) and [CoordinatorSafety] (one
      triple per method) lead to the safety of the two-phase commit (C39) and the
      well-formedness of every reachable state (C40).

    - [Failover]: restart strategy, deployment, teardown, restart, the supervisor, its
      health report and the permanent failure of a job, over a [platform] that may answer
      anything; the retry loop ends, and gives up only when the policy says so (C35).

    - [Assignment] ([assignment.py]): round-robin assignment of subtasks to nodes, with the
      binary64 subtraction of their resources; node pins and their change in a rescale.
    - [Placement] ([placement.py]): plans, transitions and the three strategies over a store
      of plans and a record of Ray's calls.  [Reservations] states what is relied on from
      Ray ([honest]) and proves that closing a plan, releasing subtasks and reserving new
      ones lose no placement group ([close_spec], [release_vertices_spec],
      [plan_group_vertices_spec]).
    - [RescaleTransaction] ([rescale_plan.py] and the rescale of [job_master.py]): the plan,
      the phases, and the steps of [rescale_operator] with their compensations, over a
      record of the calls of tasks and actors that may answer anything; what was sent and
      answered is kept in a log.  [RescaleCalls] is a calculus of what a step sends, and
      [RescaleSafety] proves that no task resumes before the decision is known everywhere,
      and that the job master ends with the old graph, the new one or an order to recover
      globally (C19).  [RescaleExamples] runs it.

    ** How the parts meet

    Operators call the backend through the class of [BackendContract]; [Windows],
    [IntervalJoin] and the SQL operators are hooks of [ManagedState], whose
    [process_element] binds key and time.  [KeyGroups] is used by keyed partitioning,
    by the backend, by the operators' ownership check and by redistribution, which is
    what makes C1 matter.  [InputBatching]'s records are what [Partitioning] routes.
    [Effects] is the monad of [Failover] and of the atomic segments of [Coordinator];
    [Coroutines] composes these segments into methods and methods into a system; the
    task of [TaskInput] is a second instance of it, over [WeightedQueue],
    [BarrierAligner] and any [Batcher].  The aligned barriers a task announces
    ([NotifyAligned]) and the states and transactions it registers are the calls
    [MNotifyAligned], [MRegisterSink] and the rest of [Coordinator].  The rescale of
    [RescaleTransaction] runs over the execution graph of [PhysicalGraph], the store of
    [Placement] and the control plane of [Failover]; what it asks of the coordinator are the
    methods of [Coordinator] of these names.  The graph the
    coordinator reads ([Checkpoints]) is the [coordinator_view] of the execution graph,
    whose channels are those of [Partitioning] (C22); its [barrier_splits] are the
    numbers [BarrierAligner] counts to.

    ** Not modelled

    I/O and the wire: Ray calls, RocksDB, file and catalog connectors, the dashboard and
    metrics; building and printing plans; the SQL front end (sqlglot trees).  These
    are parameters where modelled code calls them.  Not modelled yet, though they have
    logic of their own: the triggers and the storage of checkpoints, the asynchronous
    path of the pump, a task's side of a rescale and the life cycle of a task, the recovery
    of single tasks ([recovery_manager.py]) and the rewriting of Ray Serve regions
    ([serve_rewriter.py]).  Of the coordinator itself: metrics, logs, the
    dashboard, the operator state that tasks read back, the creation of the actor and the
    cancellation of its worker loop.

    ** Plan

    Next: the recovery of single tasks; a task's side of a rescale, which would discharge
    what the transaction of [RescaleTransaction] takes from its answers; the triggers of
    checkpoints. *)
From stdpp Require Export base tactics option list gmap strings sorting.
From Stdlib Require Export ZArith Lia.
From Stdlib Require Export Strings.Byte.

(** ** Scope, hint database and options of the development *)

Declare Scope klein_scope.
Delimit Scope klein_scope with klein.

Create HintDb klein discriminated.
Create Rewrite HintDb klein.
#[export] Hint Constants Opaque : klein.
#[export] Hint Variables Transparent : klein.

(** ** Python exceptions and fallible computations *)

(** The exception classes the modelled code raises.  Messages are not kept. *)
Inductive exn :=
  | ValueError
  | TypeError
  | RuntimeError
  | KeyError
  | IndexError
  | AssertionError
  | StructError
  | TimeoutError
  | DeliveryJournalCapacityError
  | SQLQueryError
  | AttributeError
  | OverflowError
  | OSError
  | DeploymentError
  | PlacementError
  | CheckpointCommitError
  | UserError (code : nat).

#[export] Instance exn_eq_dec : EqDecision exn.
Proof. solve_decision. Defined.

(** The outcome of a Python call: a value or a raised exception. *)
Inductive outcome (A : Type) :=
  | Ok (a : A)
  | Err (e : exn).
Arguments Ok {A} a.
Arguments Err {A} e.

#[export] Instance outcome_ret : MRet outcome := λ A a, Ok a.

#[export] Instance outcome_bind : MBind outcome := λ A B f m,
  match m with Ok a => f a | Err e => Err e end.

#[export] Instance outcome_fmap : FMap outcome := λ A B f m,
  match m with Ok a => Ok (f a) | Err e => Err e end.

#[export] Instance outcome_eq_dec {A} `{EqDecision A} : EqDecision (outcome A).
Proof. solve_decision. Defined.

(** [if not c: raise e]. *)
Definition require (c : bool) (e : exn) : outcome unit :=
  if c then Ok () else Err e.

Definition is_ok {A} (m : outcome A) : bool :=
  match m with Ok _ => true | Err _ => false end.

Definition of_option {A} (e : exn) (o : option A) : outcome A :=
  match o with Some a => Ok a | None => Err e end.

(** A [for] loop whose body may raise: the first exception leaves the loop. *)
Fixpoint foldM {A B} (f : B → A → outcome B) (b : B) (l : list A) : outcome B :=
  match l with
  | [] => Ok b
  | a :: l => match f b a with Ok b' => foldM f b' l | Err e => Err e end
  end.

Fixpoint mapM_outcome {A B} (f : A → outcome B) (l : list A) : outcome (list B) :=
  match l with
  | [] => Ok []
  | a :: l =>
      match f a with
      | Ok b => match mapM_outcome f l with Ok bs => Ok (b :: bs) | Err e => Err e end
      | Err e => Err e
      end
  end.

(** A dynamically typed argument the code checks with
    [isinstance(v, bool) or not isinstance(v, int)] before it uses it. *)
Inductive pyarg :=
  | AInt (z : Z)
  | ABool (b : bool)
  | AOther.

(** The integer inside the argument, if the check passes. *)
Definition arg_int (a : pyarg) : option Z :=
  match a with AInt z => Some z | _ => None end.

#[export] Instance pyarg_eq_dec : EqDecision pyarg.
Proof. solve_decision. Defined.

(** ** Bytes *)

Abbreviation bytes := (list byte).

#[export] Instance byte_eq_dec : EqDecision byte := Byte.byte_eq_dec.

#[export] Instance byte_countable : Countable byte :=
  inj_countable Byte.to_N Byte.of_N Byte.of_to_N.

Definition byte_Z (b : byte) : Z := Z.of_N (Byte.to_N b).

Definition Z_byte (z : Z) : byte := default x00 (Byte.of_N (Z.to_N z)).

(** Lexicographic order of [bytes], the order Python's [sorted] uses. *)
Fixpoint bytes_leb (a b : bytes) : bool :=
  match a, b with
  | [], _ => true
  | _ :: _, [] => false
  | x :: a, y :: b =>
      if (byte_Z x <? byte_Z y)%Z then true
      else if (byte_Z y <? byte_Z x)%Z then false
      else bytes_leb a b
  end.

Definition bytes_le (a b : bytes) : Prop := bytes_leb a b = true.

#[export] Instance bytes_le_dec a b : Decision (bytes_le a b).
Proof. unfold bytes_le. apply _. Defined.

(** [sorted] over byte strings. *)
Definition sort_bytes (l : list bytes) : list bytes := merge_sort bytes_le l.

(** [b.startswith(prefix)]. *)
Fixpoint startswith (b prefix : bytes) : bool :=
  match prefix, b with
  | [], _ => true
  | p :: ps, x :: xs => bool_decide (p = x) && startswith xs ps
  | _ :: _, [] => false
  end.

(** Big-endian digits, as [struct.pack] writes them. *)
Fixpoint be_bytes (n : nat) (z : Z) : bytes :=
  match n with
  | O => []
  | S n => Z_byte (z / 256 ^ Z.of_nat n mod 256) :: be_bytes n z
  end%Z.

Fixpoint be_Z (b : bytes) : Z :=
  match b with
  | [] => 0
  | x :: b => byte_Z x * 256 ^ Z.of_nat (length b) + be_Z b
  end%Z.

(** ** Interfaces to the code the library does not model

    A key codec stands for [encode_key] and [decode_key] of
    [src/ray/klein/state/key_encoding.py] on the keys the encoder accepts, in
    canonical form: what the state code relies on is that decoding an encoded key
    gives the key back.  A key here is what its encoding tells: pickle also writes which
    strings of a key are one object, so keys that are equal in Python but share their
    strings differently are different here (the SQL operators have this sharing as part
    of their keys). *)
Class KeyCodec (K : Type) := {
  encode_key : K → bytes;
  decode_key : bytes → outcome K;
  decode_encode_key k : decode_key (encode_key k) = Ok k
}.

(** A pickling serializer: [loads] undoes [dumps]. *)
Class Serializer (V : Type) := {
  ser_dumps : V → bytes;
  ser_loads : bytes → outcome V;
  ser_loads_dumps v : ser_loads (ser_dumps v) = Ok v
}.

(** [hashlib.blake2b] with an 8-byte digest, and [hashlib.sha256]. *)
Class Blake2b := blake2b_8 : bytes → bytes.
Class Sha256 := { sha256 : bytes → bytes; length_sha256 b : length (sha256 b) = 32%nat }.

(** ** Tactics *)

(** Case analysis on the scrutinee of a [match] or an [if] in the goal. *)
Ltac case_step :=
  match goal with
  | |- context [match ?x with _ => _ end] => destruct x eqn:?
  end.

(** The same in hypotheses. *)
Ltac case_step_in H :=
  match type of H with
  | context [match ?x with _ => _ end] => destruct x eqn:?
  end.

(** Turns the boolean comparisons of the context into propositions. *)
Ltac bool_props :=
  repeat match goal with
  | H : _ && _ = true |- _ => apply andb_true_iff in H as [? ?]
  | H : _ || _ = false |- _ => apply orb_false_iff in H as [? ?]
  | H : negb _ = true |- _ => apply negb_true_iff in H
  | H : negb _ = false |- _ => apply negb_false_iff in H
  | H : bool_decide _ = true |- _ => apply bool_decide_eq_true in H
  | H : bool_decide _ = false |- _ => apply bool_decide_eq_false in H
  | H : (_ <? _)%Z = true |- _ => apply Z.ltb_lt in H
  | H : (_ <? _)%Z = false |- _ => apply Z.ltb_ge in H
  | H : (_ <=? _)%Z = true |- _ => apply Z.leb_le in H
  | H : (_ <=? _)%Z = false |- _ => apply Z.leb_gt in H
  | H : (_ =? _)%Z = true |- _ => apply Z.eqb_eq in H
  | H : (_ =? _)%Z = false |- _ => apply Z.eqb_neq in H
  end.

(** ** The outcome monad *)

Lemma bind_Ok {A B} (a : A) (f : A → outcome B) : (Ok a ≫= f) = f a.
Proof. done. Qed.

Lemma bind_Err {A B} e (f : A → outcome B) : (Err e ≫= f) = Err e.
Proof. done. Qed.

Lemma bind_Ok_inv {A B} (m : outcome A) (f : A → outcome B) b :
  (m ≫= f) = Ok b → ∃ a, m = Ok a ∧ f a = Ok b.
Proof. destruct m; [eauto|done]. Qed.

Lemma require_Ok_inv c e u : require c e = Ok u → c = true.
Proof. by destruct c. Qed.

#[export] Hint Rewrite @bind_Ok @bind_Err : klein.

(** Decomposes a successful monadic computation in a hypothesis. *)
Ltac ok_inv :=
  repeat match goal with
  | H : (_ ≫= _) = Ok _ |- _ =>
      apply bind_Ok_inv in H as (? & ? & ?)
  | H : require _ _ = Ok _ |- _ => apply require_Ok_inv in H
  | H : Ok _ = Ok _ |- _ => injection H as H
  | H : Err _ = Ok _ |- _ => discriminate H
  end.

Lemma foldM_app {A B} (f : B → A → outcome B) b l1 l2 :
  foldM f b (l1 ++ l2) = (foldM f b l1 ≫= λ b', foldM f b' l2).
Proof.
  revert b; induction l1 as [|a l1 IH]; intros b; [done|].
  cbn. destruct (f b a); [apply IH|done].
Qed.

(** An invariant of the accumulator is kept by a loop that does not raise. *)
Lemma foldM_inv {A B} (P : B → Prop) (f : B → A → outcome B) l b b' :
  (∀ b a b', P b → a ∈ l → f b a = Ok b' → P b') →
  P b → foldM f b l = Ok b' → P b'.
Proof.
  revert b; induction l as [|a l IH]; intros b Hstep Hb Hf; cbn in Hf.
  - by simplify_eq.
  - destruct (f b a) as [b1|] eqn:E; [|done].
    eapply IH; [| |exact Hf].
    + intros b2 a2 b2' H1 H2 H3. eapply Hstep; [exact H1|by right|exact H3].
    + eapply Hstep; [exact Hb|by left|exact E].
Qed.

Lemma mapM_outcome_Ok {A B} (f : A → outcome B) l l' :
  mapM_outcome f l = Ok l' ↔ Forall2 (λ a b, f a = Ok b) l l'.
Proof.
  split.
  - revert l'; induction l as [|a l IH]; intros l' H; cbn in H.
    + simplify_eq. constructor.
    + destruct (f a) eqn:E; [|done]. destruct (mapM_outcome f l); [|done].
      simplify_eq. constructor; auto.
  - induction 1 as [|a b l l' Hab _ IH]; cbn; [done|]. by rewrite Hab, IH.
Qed.

Lemma mapM_outcome_app {A B} (f : A → outcome B) l1 l2 b1 b2 :
  mapM_outcome f l1 = Ok b1 → mapM_outcome f l2 = Ok b2 → mapM_outcome f (l1 ++ l2) = Ok (b1 ++ b2).
Proof. rewrite !mapM_outcome_Ok. apply Forall2_app. Qed.

Lemma mapM_outcome_total {A B} (f : A → outcome B) (g : A → B) l :
  (∀ a, a ∈ l → f a = Ok (g a)) → mapM_outcome f l = Ok (g <$> l).
Proof.
  intros H. apply mapM_outcome_Ok. induction l as [|a l IH]; constructor.
  - apply H. by left.
  - apply IH. intros b Hb. apply H. by right.
Qed.

Lemma mapM_outcome_exists {A B} (f : A → outcome B) l :
  (∀ a, a ∈ l → ∃ b, f a = Ok b) → ∃ bs, mapM_outcome f l = Ok bs.
Proof.
  induction l as [|a l IH]; intros Hl; [by exists []|].
  destruct (Hl a) as [b Hb]; [by left|]. destruct IH as [bs Hbs]; [intros; apply Hl; by right|].
  exists (b :: bs). cbn. by rewrite Hb, Hbs.
Qed.

(** ** Bytes *)

Lemma byte_Z_range b : (0 <= byte_Z b < 256)%Z.
Proof.
  unfold byte_Z. pose proof (Byte.to_N_bounded b). lia.
Qed.

Lemma byte_Z_inj b c : byte_Z b = byte_Z c → b = c.
Proof.
  unfold byte_Z. intros H. apply N2Z.inj in H.
  apply (inj Some). rewrite <-!Byte.of_to_N. by rewrite H.
Qed.

Lemma byte_Z_of_Z z : (0 <= z < 256)%Z → byte_Z (Z_byte z) = z.
Proof.
  intros Hz. unfold byte_Z, Z_byte.
  destruct (Byte.of_N (Z.to_N z)) as [b|] eqn:E; cbn.
  - apply Byte.to_of_N in E. lia.
  - apply Byte.of_N_None_iff in E. lia.
Qed.

#[export] Instance bytes_le_total : Total bytes_le.
Proof.
  unfold bytes_le. intros a; induction a as [|x a IH]; intros [|y b]; cbn; auto.
  destruct (Z.ltb_spec (byte_Z x) (byte_Z y)), (Z.ltb_spec (byte_Z y) (byte_Z x)); auto; lia.
Qed.

#[export] Instance bytes_le_antisymm : AntiSymm (=) bytes_le.
Proof.
  unfold bytes_le. intros a; induction a as [|x a IH]; intros [|y b]; cbn; try done.
  destruct (Z.ltb_spec (byte_Z x) (byte_Z y)), (Z.ltb_spec (byte_Z y) (byte_Z x)); try done; try lia.
  intros H1 H2. rewrite (IH b) by done. f_equal. apply byte_Z_inj. lia.
Qed.

#[export] Instance bytes_le_trans : Transitive bytes_le.
Proof.
  unfold bytes_le. intros a; induction a as [|x a IH]; intros [|y b] [|z c]; cbn; try done.
  destruct (Z.ltb_spec (byte_Z x) (byte_Z y)), (Z.ltb_spec (byte_Z y) (byte_Z x)),
    (Z.ltb_spec (byte_Z y) (byte_Z z)), (Z.ltb_spec (byte_Z z) (byte_Z y)),
    (Z.ltb_spec (byte_Z x) (byte_Z z)), (Z.ltb_spec (byte_Z z) (byte_Z x));
    try done; try lia. apply IH.
Qed.

Lemma sort_bytes_perm l : sort_bytes l ≡ₚ l.
Proof. apply merge_sort_Permutation. Qed.

Lemma sort_bytes_sorted l : StronglySorted bytes_le (sort_bytes l).
Proof. apply (StronglySorted_merge_sort _). Qed.

Lemma elem_of_sort_bytes b l : b ∈ sort_bytes l ↔ b ∈ l.
Proof. by rewrite sort_bytes_perm. Qed.

Lemma sort_bytes_proper l1 l2 : l1 ≡ₚ l2 → sort_bytes l1 = sort_bytes l2.
Proof.
  intros H. apply (StronglySorted_unique bytes_le);
    [apply sort_bytes_sorted|apply sort_bytes_sorted|].
  by rewrite !sort_bytes_perm.
Qed.

Lemma startswith_spec b p : startswith b p = true ↔ ∃ s, b = p ++ s.
Proof.
  revert b; induction p as [|x p IH]; intros b; cbn [startswith].
  - split; [by exists b|by destruct b].
  - destruct b as [|y b]; cbn [startswith]; [split; [done|by intros [? ?]]|].
    rewrite andb_true_iff, bool_decide_eq_true, IH. split.
    + intros [-> [s ->]]. by exists s.
    + intros [s H]. cbn in H. simplify_eq. split; [done|by exists s].
Qed.

Lemma length_be_bytes n z : length (be_bytes n z) = n.
Proof. induction n; cbn; congruence. Qed.

Lemma be_Z_range b : (0 <= be_Z b < 256 ^ Z.of_nat (length b))%Z.
Proof.
  induction b as [|x b IH]; cbn [be_Z length]; [lia|].
  pose proof (byte_Z_range x). rewrite Nat2Z.inj_succ, Z.pow_succ_r by lia. nia.
Qed.

Lemma be_Z_bytes_mod n z : be_Z (be_bytes n z) = (z mod 256 ^ Z.of_nat n)%Z.
Proof.
  induction n as [|n IH].
  - cbn. by rewrite Z.mod_1_r.
  - cbn [be_bytes be_Z]. rewrite IH, length_be_bytes.
    rewrite byte_Z_of_Z by (apply Z.mod_pos_bound; lia).
    rewrite Nat2Z.inj_succ, Z.pow_succ_r, (Z.mul_comm 256) by lia.
    rewrite Z.rem_mul_r by lia. lia.
Qed.

Lemma be_Z_bytes n z : (0 <= z < 256 ^ Z.of_nat n)%Z → be_Z (be_bytes n z) = z.
Proof. intros H. rewrite be_Z_bytes_mod. by apply Z.mod_small. Qed.

Lemma be_bytes_inj n x y :
  (0 <= x < 256 ^ Z.of_nat n)%Z → (0 <= y < 256 ^ Z.of_nat n)%Z →
  be_bytes n x = be_bytes n y → x = y.
Proof. intros Hx Hy H. rewrite <-(be_Z_bytes n x), <-(be_Z_bytes n y) by done. by rewrite H. Qed.

(** Byte strings that start with digits of the same width are ordered first by
    the number the digits stand for. *)
Lemma bytes_leb_digits a b s t :
  length a = length b →
  bytes_leb (a ++ s) (b ++ t) =
  if (be_Z a <? be_Z b)%Z then true
  else if (be_Z b <? be_Z a)%Z then false else bytes_leb s t.
Proof.
  revert b; induction a as [|x a IH]; intros [|y b] Hl; try done.
  cbn [app bytes_leb be_Z]. injection Hl as Hl. rewrite IH by done.
  pose proof (be_Z_range a) as Ha. pose proof (be_Z_range b) as Hb. rewrite <-Hl in *.
  set (p := (256 ^ Z.of_nat (length a))%Z) in *.
  destruct (Z.lt_trichotomy (byte_Z x) (byte_Z y)) as [Hc|[Hc|Hc]].
  - rewrite (proj2 (Z.ltb_lt _ _) Hc).
    rewrite (proj2 (Z.ltb_lt (_ * p + _) (_ * p + _))); [done|nia].
  - rewrite Hc, Z.ltb_irrefl.
    destruct (Z.ltb_spec (be_Z a) (be_Z b)), (Z.ltb_spec (be_Z b) (be_Z a)),
      (Z.ltb_spec (byte_Z y * p + be_Z a) (byte_Z y * p + be_Z b)),
      (Z.ltb_spec (byte_Z y * p + be_Z b) (byte_Z y * p + be_Z a)); lia || done.
  - rewrite (proj2 (Z.ltb_ge _ _)), (proj2 (Z.ltb_lt _ _) Hc) by lia.
    rewrite (proj2 (Z.ltb_ge (_ * p + _) (_ * p + _))) by nia.
    rewrite (proj2 (Z.ltb_lt (_ * p + _) (_ * p + _))); [done|nia].
Qed.

Lemma encode_key_inj `{KeyCodec K} (k k' : K) : encode_key k = encode_key k' → k = k'.
Proof.
  intros E. pose proof (decode_encode_key k) as Hk. rewrite E, decode_encode_key in Hk. by simplify_eq.
Qed.

(** A property that holds initially and is kept by every step holds of every
    reachable state. *)
Lemma rtc_invariant {A} (P : A → Prop) (R : relation A) x y :
  P x → (∀ y z, P y → R y z → P z) → rtc R x y → P y.
Proof. intros Hx Hs Hr. induction Hr; eauto. Qed.

(** ** Lists and maps *)

Lemma foldl_inv {A B} (P : B → Prop) (f : B → A → B) l b :
  (∀ b a, P b → a ∈ l → P (f b a)) → P b → P (foldl f b l).
Proof.
  revert b; induction l as [|a l IH]; intros b Hs Hb; cbn; [done|].
  apply IH; [|apply Hs; [done|by left]]. intros b2 a2 H1 H2. apply Hs; [exact H1|by right].
Qed.

Lemma foldl_delete_lookup `{Countable K} {A} (m : gmap K A) (l : list K) (i : K) :
  foldl (λ m k, delete k m) m l !! i = if decide (i ∈ l) then None else m !! i.
Proof.
  revert m; induction l as [|k l IH]; intros m; cbn.
  - case_decide; [by set_solver|done].
  - rewrite IH. destruct (decide (k = i)) as [->|Hne].
    + rewrite lookup_delete_eq, (decide_True (P := i ∈ i :: l)) by by left. by case_decide.
    + rewrite lookup_delete_ne by done. do 2 case_decide; set_solver.
Qed.

Lemma filter_sublist {A} (P : A → Prop) `{∀ x, Decision (P x)} l : filter P l `sublist_of` l.
Proof. induction l as [|x l IH]; [done|]. rewrite filter_cons. case_decide; by constructor. Qed.

Lemma seqZ_snoc m n : (0 <= n)%Z → seqZ m (n + 1) = seqZ m n ++ [(m + n)%Z].
Proof.
  intros Hn. by rewrite seqZ_app by lia.
Qed.

(** Filtering commutes with sorting. *)
Lemma sort_bytes_filter (P : bytes → Prop) `{∀ x, Decision (P x)} (l : list bytes) :
  sort_bytes (filter P l) = filter P (sort_bytes l).
Proof.
  apply (StronglySorted_unique bytes_le).
  - apply sort_bytes_sorted.
  - pose proof (sort_bytes_sorted l) as Hs. induction Hs as [|x l' Hs IH Hx]; [constructor|].
    rewrite filter_cons. case_decide; [|done]. constructor; [done|].
    rewrite Forall_forall in Hx |- *. intros y [_ ?]%list_elem_of_filter. auto.
  - by rewrite !sort_bytes_perm.
Qed.

Lemma forallb_True' {A} (f : A → bool) (l : list A) : forallb f l = true ↔ Forall (λ x, f x = true) l.
Proof. rewrite List.forallb_forall, Forall_forall. by setoid_rewrite list_elem_of_In. Qed.

Lemma existsb_True' {A} (f : A → bool) (l : list A) : existsb f l = true ↔ ∃ x, x ∈ l ∧ f x = true.
Proof. rewrite List.existsb_exists. by setoid_rewrite list_elem_of_In. Qed.

Lemma Forall2_elem_of_l {A B} (P : A → B → Prop) l k x :
  Forall2 P l k → x ∈ l → ∃ y, y ∈ k ∧ P x y.
Proof. induction 1 as [|a b l k Hab _ IH]; [by intros ?%not_elem_of_nil|]. set_solver. Qed.

Lemma Forall2_elem_of_r {A B} (P : A → B → Prop) l k y :
  Forall2 P l k → y ∈ k → ∃ x, x ∈ l ∧ P x y.
Proof. induction 1 as [|a b l k Hab _ IH]; [by intros ?%not_elem_of_nil|]. set_solver. Qed.

Lemma StronglySorted_sublist {A} (R : relation A) (l k : list A) :
  StronglySorted R k → l `sublist_of` k → StronglySorted R l.
Proof.
  intros Hk Hl. induction Hl as [|x l k Hl IH|x l k Hl IH]; [done| |].
  - apply StronglySorted_inv in Hk as [Hk Hx]. constructor; [auto|].
    rewrite Forall_forall in Hx |- *. intros y Hy. apply Hx. by eapply elem_of_submseteq, sublist_submseteq.
  - apply StronglySorted_inv in Hk as [Hk _]. auto.
Qed.

Lemma StronglySorted_fmap_in {A B} (R : relation A) (R' : relation B) (f : A → B) (l : list A) :
  (∀ x y, x ∈ l → y ∈ l → R x y → R' (f x) (f y)) → StronglySorted R l → StronglySorted R' (f <$> l).
Proof.
  intros Hf Hs. induction Hs as [|x l Hs IH Hx]; [constructor|]. rewrite fmap_cons. constructor.
  - apply IH. intros y z Hy Hz. apply Hf; by right.
  - rewrite Forall_forall in Hx. apply Forall_forall. intros y' (y & -> & Hy)%list_elem_of_fmap.
    apply Hf; [by left|by right|auto].
Qed.

Lemma map_to_list_fst_filter {A} (P : bytes → Prop) `{∀ x, Decision (P x)} (m : gmap bytes A) :
  (map_to_list (filter (λ kv, P kv.1) m)).*1 ≡ₚ filter P (map_to_list m).*1.
Proof.
  apply NoDup_Permutation.
  - apply NoDup_fst_map_to_list.
  - apply NoDup_filter, NoDup_fst_map_to_list.
  - intros k. rewrite list_elem_of_filter, !list_elem_of_fmap. split.
    + intros ([k' v] & -> & Hk). apply elem_of_map_to_list, map_lookup_filter_Some in Hk as [Hk ?].
      split; [done|]. exists (k', v). split; [done|]. by apply elem_of_map_to_list.
    + intros (HP & [k' v] & -> & Hk). exists (k', v). split; [done|].
      apply elem_of_map_to_list, map_lookup_filter_Some. split; [by apply elem_of_map_to_list|done].
Qed.

Lemma filter_all {A} (P : A → Prop) `{∀ x, Decision (P x)} (l : list A) :
  (∀ x, x ∈ l → P x) → filter P l = l.
Proof.
  induction l as [|x l IH]; intros Hl; [done|].
  rewrite filter_cons_True by (apply Hl; by left). f_equal. apply IH. intros y Hy. apply Hl. by right.
Qed.

Lemma filter_ext_in {A} (P Q : A → Prop) `{∀ x, Decision (P x), ∀ x, Decision (Q x)} (l : list A) :
  (∀ x, x ∈ l → P x ↔ Q x) → filter P l = filter Q l.
Proof.
  induction l as [|x l IH]; intros Hl; [done|]. rewrite !filter_cons, IH by (intros; apply Hl; by right).
  specialize (Hl x ltac:(by left)). repeat case_decide; tauto.
Qed.

Lemma NoDup_snoc {A} (l : list A) x : NoDup (l ++ [x]) ↔ NoDup l ∧ x ∉ l.
Proof.
  rewrite NoDup_app. split.
  - intros (? & Hd & _). split; [done|]. intros Hx. apply (Hd x Hx). by left.
  - intros [? ?]. split_and!; [done|set_solver|apply NoDup_singleton].
Qed.

Lemma filter_none {A} (P : A → Prop) `{∀ x, Decision (P x)} (l : list A) :
  (∀ x, x ∈ l → ¬ P x) → filter P l = [].
Proof.
  induction l as [|x l IH]; intros Hl; [done|].
  rewrite filter_cons_False by (apply Hl; by left). apply IH. intros y Hy. apply Hl. by right.
Qed.

(** Splitting a list by the value of a function, over distinct values, loses nothing. *)
Lemma filter_partition_perm {A B} `{EqDecision B} (f : A → B) (bs : list B) (l : list A) :
  NoDup bs → mjoin ((λ b, filter (λ x, f x = b) l) <$> bs) ≡ₚ filter (λ x, f x ∈ bs) l.
Proof.
  induction 1 as [|b bs Hb Hnd IH]; cbn.
  - by rewrite filter_none by (intros x _; apply not_elem_of_nil).
  - change (mjoin _) with (mjoin ((λ b, filter (λ x, f x = b) l) <$> bs)). rewrite IH. clear IH.
    induction l as [|x l IHl]; [done|]. rewrite !filter_cons. destruct (decide (f x = b)) as [<-|Hne].
    + rewrite decide_False by done. rewrite (decide_True (P := f x ∈ f x :: bs)) by (by left). cbn. by f_equiv.
    + destruct (decide (f x ∈ bs)) as [Hin|Hin].
      * rewrite (decide_True (P := f x ∈ b :: bs)) by (by right). rewrite <-Permutation_middle. by f_equiv.
      * rewrite (decide_False (P := f x ∈ b :: bs)) by (by intros [?|?]%elem_of_cons). done.
Qed.

Lemma join_fmap_bind {A B} (f : A → list B) (l : list A) : mjoin (f <$> l) = l ≫= f.
Proof. induction l as [|x l IH]; [done|]. cbn. by rewrite <-IH. Qed.

Lemma bind_bind {A B C} (f : A → list B) (g : B → list C) (l : list A) : (l ≫= f) ≫= g = l ≫= (λ x, f x ≫= g).
Proof. induction l as [|x l IH]; [done|]. cbn. by rewrite bind_app, IH. Qed.

Lemma bind_ext_in {A B} (f g : A → list B) (l : list A) : (∀ x, x ∈ l → f x = g x) → l ≫= f = l ≫= g.
Proof.
  induction l as [|x l IH]; intros Hl; [done|]. cbn. rewrite IH by (intros; apply Hl; by right). by rewrite Hl by (by left).
Qed.

Lemma filter_and {A} (P Q : A → Prop) `{∀ x, Decision (P x), ∀ x, Decision (Q x)} (l : list A) :
  filter (λ x, P x ∧ Q x) l = filter P (filter Q l).
Proof.
  induction l as [|x l IH]; [done|]. rewrite !filter_cons. destruct (decide (Q x)).
  - rewrite filter_cons. repeat case_decide; try tauto; by f_equal.
  - rewrite decide_False by tauto. done.
Qed.

Lemma omap_filter {A B} (f f' : A → option B) (P : A → Prop) (Q : B → Prop)
    `{∀ x, Decision (P x), ∀ y, Decision (Q y)} (l : list A) :
  (∀ x, x ∈ l → ∃ y, f x = Some y ∧ (P x ↔ Q y) ∧ (P x → f' x = Some y)) →
  omap f' (filter P l) = filter Q (omap f l).
Proof.
  induction l as [|x l IH]; intros Hl; [done|].
  destruct (Hl x) as (y & Hy & HPQ & Hf); [by left|].
  assert (omap f' (filter P l) = filter Q (omap f l)) as IH' by (apply IH; intros; apply Hl; by right).
  cbn [omap list_omap]. rewrite Hy, !filter_cons. destruct (decide (P x)) as [HP|HP].
  - rewrite decide_True by tauto. cbn [omap list_omap]. rewrite (Hf HP). by f_equal.
  - by rewrite decide_False by tauto.
Qed.

#[export] Hint Resolve byte_Z_range be_Z_range sort_bytes_sorted : klein.
