(* ===== verification/Concrete.v ===== *)
(** * Concrete instances of the library's interfaces

    The interfaces of the prelude ([KeyCodec], [Serializer], [Sha256], [Blake2b])
    have instances: any countable type can be written as a byte per bit of its
    number.  They are not the program's codecs; the examples of the development
    evaluate the modelled code with them. *)
From S2P Require Import Prelude.

Fixpoint positive_bytes (p : positive) : bytes :=
  match p with
  | xH => []
  | xO p => x00 :: positive_bytes p
  | xI p => x01 :: positive_bytes p
  end.

Fixpoint bytes_positive (b : bytes) : positive :=
  match b with
  | [] => xH
  | x00 :: b => xO (bytes_positive b)
  | _ :: b => xI (bytes_positive b)
  end.

Lemma bytes_positive_bytes p : bytes_positive (positive_bytes p) = p.
Proof. induction p as [p IH|p IH|]; cbn; congruence. Qed.

Definition countable_dumps `{Countable A} (a : A) : bytes := positive_bytes (encode a).

Definition countable_loads `{Countable A} (b : bytes) : outcome A :=
  of_option ValueError (decode (bytes_positive b)).

Lemma countable_loads_dumps `{Countable A} (a : A) : countable_loads (countable_dumps a) = Ok a.
Proof. unfold countable_loads, countable_dumps. by rewrite bytes_positive_bytes, decode_encode. Qed.

Definition countable_codec `{Countable A} : KeyCodec A :=
  {| encode_key := countable_dumps; decode_key := countable_loads;
     decode_encode_key := countable_loads_dumps |}.

Definition countable_serializer `{Countable A} : Serializer A :=
  {| ser_dumps := countable_dumps; ser_loads := countable_loads;
     ser_loads_dumps := countable_loads_dumps |}.

(** Digests of the right length: the first bytes of the input, padded. *)
Definition pad_digest (n : nat) (b : bytes) : bytes := take n (b ++ replicate n x00).

Lemma length_pad_digest n b : length (pad_digest n b) = n.
Proof. unfold pad_digest. rewrite length_take, length_app, length_replicate. lia. Qed.

Definition sample_sha256 : Sha256 := {| sha256 := pad_digest 32; length_sha256 := length_pad_digest 32 |}.
Definition sample_blake2b : Blake2b := pad_digest 8.

#[export] Instance pyarg_countable : Countable pyarg :=
  inj_countable'
    (λ a, match a with AInt z => inl (inl z) | ABool b => inl (inr b) | AOther => inr () end)
    (λ s, match s with inl (inl z) => AInt z | inl (inr b) => ABool b | inr _ => AOther end)
    ltac:(by intros []).

(** The instances at integer keys, namespaces and values. *)
Module Samples.
#[export] Instance z_codec : KeyCodec Z := countable_codec.
#[export] Instance z_pair_codec : KeyCodec (Z * Z) := countable_codec.
#[export] Instance z_serializer : Serializer Z := countable_serializer.
#[export] Instance z_pair_serializer : Serializer (Z * Z) := countable_serializer.
#[export] Existing Instance sample_sha256.
#[export] Existing Instance sample_blake2b.
End Samples.
