(* ===== verification/Durations.v ===== *)
(** * Durations

    [timedelta]s, and their conversion to milliseconds as the window, join and state
    code do it.  A [timedelta] is its number of microseconds; the conversion goes
    through a double, computed here with the standard library's [SpecFloat] (binary64:
    53 bits of precision, maximal exponent 1024). *)
From Stdlib Require Import Floats.SpecFloat.
From S2P Require Import Prelude.
Open Scope Z_scope.

(** A Python integer as an exact (not rounded) number. *)
Definition SF_of_Z (z : Z) : spec_float :=
  match z with
  | Z0 => S754_zero false
  | Zpos p => S754_finite false p 0
  | Zneg p => S754_finite true p 0
  end.

(** [timedelta.total_seconds]: a correctly rounded division of integers. *)
Definition total_seconds (microseconds : Z) : spec_float := SFdiv 53 1024 (SF_of_Z microseconds) (SF_of_Z 1000000).

(** [int(x)]: truncation. *)
Definition SF_int (x : spec_float) : outcome Z :=
  match x with
  | S754_zero _ => Ok 0
  | S754_finite s m e =>
      let magnitude := if 0 <=? e then Zpos m * 2 ^ e else Zpos m / 2 ^ (- e) in
      Ok (if s then - magnitude else magnitude)
  | _ => Err ValueError
  end.

(** [int(value.total_seconds() * 1000)]. *)
Definition timedelta_milliseconds (microseconds : Z) : outcome Z :=
  SF_int (SFmul 53 1024 (total_seconds microseconds) (SF_of_Z 1000)).

Definition positive_milliseconds (microseconds : Z) : outcome Z :=
  milliseconds ← timedelta_milliseconds microseconds;
  if milliseconds <=? 0 then Err ValueError else Ok milliseconds.

(** The rounding: 1001 ms are converted to 1000. *)
Example duration_loses_a_millisecond : timedelta_milliseconds 1001000 = Ok 1000 ∧ timedelta_milliseconds 1002000 = Ok 1002.
Proof. vm_compute. done. Qed.
