(* ===== verification/Dicts.v ===== *)
(** * Dictionaries in insertion order

    A Python [dict] whose order of iteration is observed: a list of entries with
    distinct keys.  Assigning to a key that is present keeps its place. *)
From S2P Require Import Prelude.

Section dict.
Context {K A : Type} `{EqDecision K}.
Implicit Types (l : list (K * A)) (k : K).

Fixpoint dict_get k l : option A :=
  match l with [] => None | (k', a) :: l => if decide (k' = k) then Some a else dict_get k l end.

Fixpoint dict_set k (a : A) l : list (K * A) :=
  match l with
  | [] => [(k, a)]
  | (k', a') :: l => if decide (k' = k) then (k, a) :: l else (k', a') :: dict_set k a l
  end.

Fixpoint dict_pop k l : list (K * A) :=
  match l with [] => [] | (k', a) :: l => if decide (k' = k) then l else (k', a) :: dict_pop k l end.

(** [d.update(e)]. *)
Definition dict_update l (entries : list (K * A)) : list (K * A) := foldl (λ l e, dict_set e.1 e.2 l) l entries.

Lemma dict_get_Some k a l : NoDup l.*1 → dict_get k l = Some a ↔ (k, a) ∈ l.
Proof.
  induction l as [|[k' a'] l IH]; cbn; [split; [done|by intros ?%not_elem_of_nil]|]. intros [Hk' Hnd]%NoDup_cons.
  rewrite elem_of_cons. case_decide as Hk.
  - subst k'. split; [intros [= ->]; by left|]. intros [[= ->]|Hin]; [done|]. exfalso. apply Hk'.
    apply list_elem_of_fmap. by exists (k, a).
  - rewrite IH by done. split; [by right|]. intros [[= -> ->]|?]; done.
Qed.

Lemma dict_get_None k l : dict_get k l = None ↔ k ∉ l.*1.
Proof.
  induction l as [|[k' a'] l IH]; cbn; [split; [intros _; apply not_elem_of_nil|done]|]. rewrite not_elem_of_cons.
  case_decide as Hk; [split; [done|by intros [? _]]|]. rewrite IH. naive_solver.
Qed.

Lemma elem_of_dict_set k a l k' a' : NoDup l.*1 → (k', a') ∈ dict_set k a l ↔ (k' = k ∧ a' = a) ∨ (k' ≠ k ∧ (k', a') ∈ l).
Proof.
  induction l as [|[k0 a0] l IH]; cbn [dict_set fmap list_fmap fst].
  - intros _. rewrite list_elem_of_singleton. split; [intros [= -> ->]; by left|]. intros [[-> ->]|[_ Hin]]; [done|].
    by apply not_elem_of_nil in Hin.
  - intros [Hk0 Hnd]%NoDup_cons. case_decide as Hk.
    + subst k0. rewrite !elem_of_cons. split.
      * intros [[= -> ->]|Hin]; [by left|]. destruct (decide (k' = k)) as [->|]; [|auto]. exfalso. apply Hk0.
        apply list_elem_of_fmap. by exists (k, a').
      * intros [[-> ->]|[Hne [[= -> ->]|Hin]]]; [by left|done|by right].
    + rewrite !elem_of_cons, IH by done. naive_solver.
Qed.

Lemma dict_set_keys k a l : k ∉ l.*1 → (dict_set k a l).*1 = l.*1 ++ [k].
Proof.
  induction l as [|[k0 a0] l IH]; cbn; [done|]. rewrite not_elem_of_cons. intros [Hne Hin].
  rewrite decide_False by done. cbn. by rewrite IH.
Qed.

Lemma NoDup_dict_set k a l : NoDup l.*1 → NoDup (dict_set k a l).*1.
Proof.
  induction l as [|[k0 a0] l IH]; cbn; [intros _; apply NoDup_singleton|]. intros [Hk0 Hnd]%NoDup_cons.
  case_decide as Hk; cbn; [subst; by constructor|]. constructor; [|by apply IH].
  intros ([k' a'] & -> & Hin)%list_elem_of_fmap. cbn in *. apply elem_of_dict_set in Hin as [[-> _]|[_ Hin]]; [done| |done].
  apply Hk0. apply list_elem_of_fmap. by exists (k', a').
Qed.

Lemma elem_of_dict_pop k l k' a' : NoDup l.*1 → (k', a') ∈ dict_pop k l ↔ k' ≠ k ∧ (k', a') ∈ l.
Proof.
  induction l as [|[k0 a0] l IH]; cbn [dict_pop fmap list_fmap fst]; [intros _; split; [by intros ?%not_elem_of_nil|tauto]|].
  intros [Hk0 Hnd]%NoDup_cons. case_decide as Hk.
  - subst k0. rewrite elem_of_cons. split; [|intros [? [[= -> ->]|?]]; done]. intros Hin. split; [|by right].
    intros ->. apply Hk0, list_elem_of_fmap. by exists (k, a').
  - rewrite !elem_of_cons, IH by done. naive_solver.
Qed.

Lemma NoDup_dict_pop k l : NoDup l.*1 → NoDup (dict_pop k l).*1.
Proof.
  induction l as [|[k0 a0] l IH]; cbn; [done|]. intros [Hk0 Hnd]%NoDup_cons. case_decide; [done|]. cbn. constructor; [|by apply IH].
  intros ([k' a'] & -> & Hin)%list_elem_of_fmap. apply elem_of_dict_pop in Hin as [_ Hin]; [|done].
  apply Hk0, list_elem_of_fmap. by exists (k', a').
Qed.

(** Membership without distinct keys. *)
Lemma dict_get_In k a l : dict_get k l = Some a → (k, a) ∈ l.
Proof.
  induction l as [|[k' a'] l IH]; cbn; [done|]. case_decide as Hk; [intros [= ->]; subst; by left|]. intros ?. right. auto.
Qed.

Lemma dict_set_In k a l : (k, a) ∈ dict_set k a l.
Proof. induction l as [|[k' a'] l IH]; cbn; [by left|]. case_decide; [by left|by right]. Qed.

Lemma dict_set_other k a k' a' l : k' ≠ k → (k', a') ∈ l → (k', a') ∈ dict_set k a l.
Proof.
  intros Hne. induction l as [|[k0 a0] l IH]; cbn; [by intros ?%not_elem_of_nil|].
  intros [[= -> ->]|Hin]%elem_of_cons; case_decide; subst; try done; [by left|by right|right; auto].
Qed.

Lemma dict_set_inv k a k' a' l : (k', a') ∈ dict_set k a l → (k' = k ∧ a' = a) ∨ (k', a') ∈ l.
Proof.
  induction l as [|[k0 a0] l IH]; cbn; [intros [= -> ->]%list_elem_of_singleton; by left|].
  case_decide as Hk; intros [[= -> ->]|Hin]%elem_of_cons; [by left|by right; right|right; by left|].
  destruct (IH Hin) as [?|?]; [by left|right; by right].
Qed.

Lemma dict_pop_inv k k' a' l : (k', a') ∈ dict_pop k l → (k', a') ∈ l.
Proof.
  induction l as [|[k0 a0] l IH]; cbn; [done|]. case_decide; [by right|].
  intros [[= -> ->]|Hin]%elem_of_cons; [by left|right; auto].
Qed.

Lemma dict_pop_other k k' a' l : k' ≠ k → (k', a') ∈ l → (k', a') ∈ dict_pop k l.
Proof.
  intros Hne. induction l as [|[k0 a0] l IH]; cbn; [done|]. intros [[= -> ->]|Hin]%elem_of_cons; case_decide; subst; try done.
  - by left.
  - right. auto.
Qed.

Lemma NoDup_dict_update l entries : NoDup l.*1 → NoDup (dict_update l entries).*1.
Proof. unfold dict_update. revert l. induction entries as [|e entries IH]; intros l Hl; cbn; [done|]. apply IH. by apply NoDup_dict_set. Qed.

(** Keys alone. *)
Lemma elem_of_dict_set_keys k a l k' : k' ∈ (dict_set k a l).*1 ↔ k' = k ∨ k' ∈ l.*1.
Proof.
  induction l as [|[k0 a0] l IH]; cbn; [by rewrite list_elem_of_singleton, elem_of_nil; tauto|].
  case_decide as Hk; cbn; rewrite !elem_of_cons; [subst; tauto|]. rewrite IH. tauto.
Qed.

Lemma elem_of_dict_pop_keys k l k' : k' ≠ k → k' ∈ l.*1 → k' ∈ (dict_pop k l).*1.
Proof.
  intros Hne ([k0 a] & -> & Hin)%list_elem_of_fmap. apply list_elem_of_fmap. exists (k0, a). split; [done|]. by apply dict_pop_other.
Qed.

Lemma elem_of_dict_update_keys l entries k : k ∈ (dict_update l entries).*1 ↔ k ∈ l.*1 ∨ k ∈ entries.*1.
Proof.
  unfold dict_update. revert l. induction entries as [|[k0 a0] entries IH]; intros l; cbn; [by rewrite elem_of_nil; tauto|].
  rewrite IH, elem_of_dict_set_keys, elem_of_cons. tauto.
Qed.

Lemma dict_update_inv l entries k a : (k, a) ∈ dict_update l entries → (k, a) ∈ l ∨ (k, a) ∈ entries.
Proof.
  unfold dict_update. revert l. induction entries as [|[k0 a0] entries IH]; intros l; cbn; [by left|].
  intros [Hin|Hin]%IH; [|right; by right]. apply dict_set_inv in Hin as [[-> ->]|Hin]; [right; by left|by left].
Qed.

Lemma dict_get_key k l : k ∈ l.*1 → ∃ a, dict_get k l = Some a ∧ (k, a) ∈ l.
Proof.
  intros Hin. destruct (dict_get k l) as [a|] eqn:E; [exists a; split; [done|by apply dict_get_In]|]. by apply dict_get_None in E.
Qed.

Lemma dict_pop_self k l : NoDup l.*1 → ∀ a, (k, a) ∉ dict_pop k l.
Proof. intros Hnd a Hin. by apply elem_of_dict_pop in Hin as [? _]. Qed.
End dict.

Lemma dict_get_set {K B} `{EqDecision K} (k k' : K) (b : B) l : dict_get k' (dict_set k b l) = if decide (k = k') then Some b else dict_get k' l.
Proof.
  induction l as [|[k0 b0] l IH]; cbn [dict_set dict_get]; [done|]. destruct (decide (k0 = k)) as [->|Hne]; cbn [dict_get].
  - by destruct (decide (k = k')).
  - rewrite IH. destruct (decide (k0 = k')) as [->|]; [|done]. by rewrite decide_False by congruence.
Qed.

Lemma dict_set_same_keys {K B} `{EqDecision K} (k : K) (b : B) l : k ∈ l.*1 → (dict_set k b l).*1 = l.*1.
Proof.
  induction l as [|[k0 b0] l IH]; cbn; [by intros ?%not_elem_of_nil|]. intros [->|Hk]%elem_of_cons; [by rewrite decide_True|].
  case_decide; cbn; [by subst|]. by rewrite IH.
Qed.

Lemma dict_get_filter {K B} `{EqDecision K} (p : K → Prop) `{∀ k, Decision (p k)} (k : K) (l : list (K * B)) :
  dict_get k (filter (λ x, p x.1) l) = if decide (p k) then dict_get k l else None.
Proof.
  induction l as [|[k' b] l IH]; [by destruct (decide (p k))|]. rewrite filter_cons. cbn [fst]. destruct (decide (p k')) as [Hp|Hp]; cbn [dict_get]; rewrite IH.
  - destruct (decide (k' = k)) as [->|]; [by rewrite !decide_True|done].
  - destruct (decide (k' = k)) as [->|]; [by rewrite !decide_False|done].
Qed.

Lemma dict_pop_filter {K B} `{EqDecision K} (k : K) (l : list (K * B)) : NoDup l.*1 → dict_pop k l = filter (λ e, e.1 ≠ k) l.
Proof.
  induction l as [|[k' b] l IH]; [done|]. cbn [fmap list_fmap fst]. intros [Hk Hnd]%NoDup_cons. cbn [dict_pop]. rewrite filter_cons. cbn [fst].
  case_decide as E.
  - subst. rewrite decide_False by tauto. symmetry. apply filter_all. intros [k'' b'] Hin E'. cbn in E'. subst. apply Hk, list_elem_of_fmap. by eexists (_, b').
  - rewrite decide_True by congruence. by rewrite IH.
Qed.
