(* ===== verification/Traces.v ===== *)
(** * Runs and fairness

    Concurrent components are modelled as partial step functions over a state: an
    action is an atomic segment between two suspension points.  This file holds what
    they share: runs as infinite sequences of states, invariants over runs, weak
    fairness of a class of actions, and the proof rule for "eventually" — a measure
    that every step keeps or lowers, and at every state a class of actions that stays
    enabled until the measure falls. *)
From S2P Require Import Prelude.
Open Scope nat_scope.

Section traces.
Context {St A : Type} (step : A → St → option St).

(** [σ n] is the state before the [n]th step; a step without an action changes nothing. *)
Definition is_run (σ : nat → St) (α : nat → option A) : Prop :=
  ∀ n, match α n with Some a => step a (σ n) = Some (σ (S n)) | None => σ (S n) = σ n end.

Definition enabled (P : A → Prop) (s : St) : Prop := ∃ a s', P a ∧ step a s = Some s'.

Definition weakly_fair (P : A → Prop) (σ : nat → St) (α : nat → option A) : Prop :=
  ∀ n, ∃ m, n <= m ∧ ((∃ a, α m = Some a ∧ P a) ∨ ¬ enabled P (σ m)).

(** A finite sequence of actions, refused as soon as one is not enabled. *)
Fixpoint run_steps (actions : list A) (s : St) : option St :=
  match actions with [] => Some s | a :: actions => step a s ≫= run_steps actions end.

Inductive reachable (s0 : St) : St → Prop :=
  | reach_start : reachable s0 s0
  | reach_step s a s' : reachable s0 s → step a s = Some s' → reachable s0 s'.

Lemma run_steps_reachable actions s0 s s' : reachable s0 s → run_steps actions s = Some s' → reachable s0 s'.
Proof.
  revert s. induction actions as [|a actions IH]; intros s Hs; cbn [run_steps]; [by intros [= <-]|].
  intros (s1 & E & Hr)%bind_Some. apply (IH s1); [by eapply reach_step|done].
Qed.

Lemma reachable_invariant (P : St → Prop) s0 s :
  P s0 → (∀ s a s', P s → step a s = Some s' → P s') → reachable s0 s → P s.
Proof. intros Hp Hstep. induction 1; eauto. Qed.

Lemma run_reachable σ α n m : is_run σ α → n <= m → reachable (σ n) (σ m).
Proof.
  intros Hr Hle. induction Hle as [|m Hle IH]; [constructor|]. specialize (Hr m).
  destruct (α m) as [a|]; [by eapply reach_step|by rewrite Hr].
Qed.

Lemma run_invariant (P : St → Prop) σ α n m :
  is_run σ α → (∀ s a s', P s → step a s = Some s' → P s') → n <= m → P (σ n) → P (σ m).
Proof. intros Hr Hp Hle Hn. eapply reachable_invariant; [exact Hn|exact Hp|by eapply run_reachable]. Qed.

(** The rule: [J] holds until [Q] does, and there every step lowers the measure or keeps
    it together with the class of helpful actions, which is enabled. *)
Lemma fair_progress {C} (P : C → A → Prop) (J Q : St → Prop) (μ : St → nat) (c : St → C) σ α n :
  is_run σ α → (∀ k, weakly_fair (P k) σ α) →
  (∀ s, J s → enabled (P (c s)) s) →
  (∀ s a s', J s → step a s = Some s' → Q s' ∨ (J s' ∧ (μ s' < μ s ∨ (μ s' = μ s ∧ c s' = c s ∧ ¬ P (c s) a)))) →
  J (σ n) → ∃ m, n <= m ∧ Q (σ m).
Proof.
  intros Hr Hfair Hen Hstep.
  remember (μ (σ n)) as k eqn:Ek. revert n Ek. induction (lt_wf k) as [k _ IH]. intros n -> Hj.
  destruct (Hfair (c (σ n)) n) as (m & Hle & Hm).
  remember (m - n) as d eqn:Ed. revert n IH Hj Hle Hm Ed. induction d as [|d IHd]; intros n IH Hj Hle Hm Ed.
  - assert (m = n) as -> by lia. destruct Hm as [(a & Ha & Hp)|Hno]; [|destruct Hno; by apply Hen].
    pose proof (Hr n) as Hn. rewrite Ha in Hn. destruct (Hstep _ _ _ Hj Hn) as [Hq|[Hj' [Hlt|(_ & _ & Hnp)]]].
    + exists (S n). split; [lia|done].
    + destruct (IH _ Hlt (S n) eq_refl Hj') as (m & Hm & Hq). exists m. split; [lia|done].
    + by destruct Hnp.
  - pose proof (Hr n) as Hn. destruct (α n) as [a|] eqn:Ea.
    + destruct (Hstep _ _ _ Hj Hn) as [Hq|[Hj' [Hlt|(He & Hc & _)]]].
      * exists (S n). split; [lia|done].
      * destruct (IH _ Hlt (S n) eq_refl Hj') as (j & Hm' & Hq). exists j. split; [lia|done].
      * destruct (IHd (S n)) as (j & Hm' & Hq); [by rewrite He|done|lia|by rewrite Hc|lia|]. exists j. split; [lia|done].
    + destruct (IHd (S n)) as (j & Hm' & Hq); rewrite ?Hn; try done; try lia. exists j. split; [lia|done].
Qed.

(** The run of a finite list of actions, which then stands still. *)
Definition trace_of (s0 : St) (actions : list A) (n : nat) : St := default s0 (run_steps (take n actions) s0).

Lemma run_steps_app l l' s : run_steps (l ++ l') s = run_steps l s ≫= run_steps l'.
Proof.
  revert s. induction l as [|a l IH]; intros s; cbn [app run_steps]; [done|].
  destruct (step a s) as [s'|]; cbn; [apply IH|done].
Qed.

Lemma trace_of_run s0 actions :
  is_Some (run_steps actions s0) → is_run (trace_of s0 actions) (λ n, actions !! n).
Proof.
  intros [s Hs] n. unfold trace_of. destruct (actions !! n) as [a|] eqn:E.
  - rewrite (take_S_r _ _ _ E), run_steps_app.
    rewrite <-(take_drop_middle _ _ _ E), run_steps_app in Hs. apply bind_Some in Hs as (s1 & -> & Hs).
    cbn [run_steps] in Hs. apply bind_Some in Hs as (s2 & Ha & _). cbn. by rewrite Ha.
  - apply lookup_ge_None in E. by rewrite !take_ge by lia.
Qed.

Lemma trace_of_fair (P : A → Prop) s0 actions s :
  run_steps actions s0 = Some s → ¬ enabled P s → weakly_fair P (trace_of s0 actions) (λ n, actions !! n).
Proof.
  intros Hs Hno n. exists (n + length actions). split; [lia|]. right. unfold trace_of. by rewrite take_ge, Hs by lia.
Qed.
End traces.
