(* ===== verification/Effects.v ===== *)
(** * Effects: Python statements that change a state and may raise

    [exec S A] is a computation over a mutable state [S]: it always leaves a state,
    also when it raises, as a Python method leaves its object.  The control-plane
    components are written in it. *)
From S2P Require Import Prelude.

Definition exec (S A : Type) : Type := S → outcome A * S.

#[export] Instance exec_ret {S} : MRet (exec S) := λ A a s, (Ok a, s).
#[export] Instance exec_bind {S} : MBind (exec S) := λ A B f m s,
  match m s with (Ok a, s) => f a s | (Err e, s) => (Err e, s) end.
#[export] Instance exec_fmap {S} : FMap (exec S) := λ A B f m, m ≫= λ a, mret (f a).

Section exec.
Context {S : Type}.

Definition throw {A} (e : exn) : exec S A := λ s, (Err e, s).
Definition of_outcome {A} (o : outcome A) : exec S A := λ s, (o, s).
Definition gets {A} (f : S → A) : exec S A := λ s, (Ok (f s), s).
Definition modify (f : S → S) : exec S unit := λ s, (Ok (), f s).

(** [try: m except Exception as e: h(e)]. *)
Definition try_except {A} (m : exec S A) (h : exn → exec S A) : exec S A := λ s,
  match m s with (Ok a, s) => (Ok a, s) | (Err e, s) => h e s end.

(** [m], with the exception kept as a value. *)
Definition attempt {A} (m : exec S A) : exec S (outcome A) := λ s, let '(o, s) := m s in (Ok o, s).

(** [try: m finally: f], for an [f] that does not raise. *)
Definition finally {A} (m : exec S A) (f : S → S) : exec S A := λ s, let '(o, s) := m s in (o, f s).

(** [for a in l: f(a)], left by the first exception. *)
Fixpoint exec_each {A} (f : A → exec S unit) (l : list A) : exec S unit :=
  match l with
  | [] => mret ()
  | a :: l => _ ← f a; exec_each f l
  end.

(** A list built by a loop. *)
Fixpoint exec_map {A B} (f : A → exec S B) (l : list A) : exec S (list B) :=
  match l with
  | [] => mret []
  | a :: l => b ← f a; bs ← exec_map f l; mret (b :: bs)
  end.
End exec.

Create HintDb keeps discriminated.
Create Rewrite HintDb exec.

(** ** Laws *)

Section exec_laws.
Context {S : Type}.
Implicit Types (s : S).

Lemma exec_bind_Ok {A B} (m : exec S A) (f : A → exec S B) s a s1 :
  m s = (Ok a, s1) → (m ≫= f) s = f a s1.
Proof. intros E. unfold mbind, exec_bind. by rewrite E. Qed.

Lemma exec_bind_Err {A B} (m : exec S A) (f : A → exec S B) s e s1 :
  m s = (Err e, s1) → (m ≫= f) s = (Err e, s1).
Proof. intros E. unfold mbind, exec_bind. by rewrite E. Qed.

Lemma exec_bind_gets {A B} (f : S → A) (k : A → exec S B) s : (gets f ≫= k) s = k (f s) s.
Proof. done. Qed.
Lemma exec_bind_modify {B} (f : S → S) (k : unit → exec S B) s : (modify f ≫= k) s = k () (f s).
Proof. done. Qed.
Lemma exec_bind_ret {A B} (a : A) (k : A → exec S B) s : (mret a ≫= k) s = k a s.
Proof. done. Qed.
Lemma exec_bind_of_outcome {A B} (o : outcome A) (k : A → exec S B) s :
  (of_outcome o ≫= k) s = match o with Ok a => k a s | Err e => (Err e, s) end.
Proof. by destruct o. Qed.
Lemma exec_bind_throw {A B} e (k : A → exec S B) s : (throw e ≫= k) s = (Err e, s).
Proof. done. Qed.
Lemma exec_bind_assoc {A B D} (m : exec S A) (f : A → exec S B) (g : B → exec S D) s :
  ((m ≫= f) ≫= g) s = (m ≫= λ a, f a ≫= g) s.
Proof. unfold mbind, exec_bind. by destruct (m s) as [[a|e] s1]. Qed.

Lemma exec_bind_inv {A B} (m : exec S A) (f : A → exec S B) s b s2 :
  (m ≫= f) s = (Ok b, s2) → ∃ a s1, m s = (Ok a, s1) ∧ f a s1 = (Ok b, s2).
Proof. unfold mbind, exec_bind. destruct (m s) as [[a|e] s1]; [eauto|done]. Qed.

Lemma exec_bind_state {A B} (m : exec S A) (f : A → exec S B) s :
  ((m ≫= f) s).2 = match (m s).1 with Ok a => (f a (m s).2).2 | Err _ => (m s).2 end.
Proof. unfold mbind, exec_bind. by destruct (m s) as [[a|e] s1]. Qed.

Lemma exec_map_cons {A B} (f : A → exec S B) a l s :
  exec_map f (a :: l) s =
    match f a s with
    | (Ok b, s1) => match exec_map f l s1 with (Ok bs, s2) => (Ok (b :: bs), s2) | (Err e, s2) => (Err e, s2) end
    | (Err e, s1) => (Err e, s1)
    end.
Proof.
  cbn [exec_map]. unfold mbind, exec_bind. destruct (f a s) as [[b|e] s1]; [|done]. by destruct (exec_map f l s1) as [[]].
Qed.

(** A computation that keeps a relation between its initial and its final state. *)
Definition keeps {A} (R : S → S → Prop) (m : exec S A) : Prop := ∀ s, R s (m s).2.

Context (R : S → S → Prop) `{!PreOrder R}.

Lemma keeps_ret {A} (a : A) : keeps R (mret a).
Proof. intros s. cbn. reflexivity. Qed.
Lemma keeps_throw {A} e : keeps R (throw (A := A) e).
Proof. intros s. cbn. reflexivity. Qed.
Lemma keeps_of_outcome {A} (o : outcome A) : keeps R (of_outcome o).
Proof. intros s. cbn. reflexivity. Qed.
Lemma keeps_gets {A} (f : S → A) : keeps R (gets f).
Proof. intros s. cbn. reflexivity. Qed.
Lemma keeps_modify (f : S → S) : (∀ s, R s (f s)) → keeps R (modify f).
Proof. intros Hf s. apply Hf. Qed.

Lemma keeps_bind {A B} (m : exec S A) (f : A → exec S B) :
  keeps R m → (∀ a, keeps R (f a)) → keeps R (m ≫= f).
Proof.
  intros Hm Hf s. rewrite exec_bind_state. pose proof (Hm s) as Hs.
  destruct (m s).1; [|done]. etransitivity; [exact Hs|apply Hf].
Qed.

Lemma keeps_try_except {A} (m : exec S A) h : keeps R m → (∀ e, keeps R (h e)) → keeps R (try_except m h).
Proof.
  intros Hm Hh s. unfold try_except. pose proof (Hm s) as Hs. destruct (m s) as [[a|e] s1]; [done|].
  etransitivity; [exact Hs|apply Hh].
Qed.

Lemma keeps_attempt {A} (m : exec S A) : keeps R m → keeps R (attempt m).
Proof. intros Hm s. unfold attempt. pose proof (Hm s) as Hs. by destruct (m s). Qed.

Lemma keeps_finally {A} (m : exec S A) f : keeps R m → (∀ s, R s (f s)) → keeps R (finally m f).
Proof.
  intros Hm Hf s. unfold finally. pose proof (Hm s) as Hs. destruct (m s) as [o s1].
  etransitivity; [exact Hs|apply Hf].
Qed.

Lemma keeps_exec_each {A} (f : A → exec S unit) l : (∀ a, keeps R (f a)) → keeps R (exec_each f l).
Proof. intros Hf. induction l; cbn [exec_each]; [apply keeps_ret|]. by apply keeps_bind. Qed.

Lemma keeps_exec_map_in {A B} (f : A → exec S B) l : (∀ a, a ∈ l → keeps R (f a)) → keeps R (exec_map f l).
Proof.
  induction l as [|a l IH]; intros Hf; cbn [exec_map]; [apply keeps_ret|].
  apply keeps_bind; [apply Hf; by left|]. intros b. apply keeps_bind; [|intros bs; apply keeps_ret].
  apply IH. intros c ?. apply Hf. by right.
Qed.

Lemma keeps_exec_map {A B} (f : A → exec S B) l : (∀ a, keeps R (f a)) → keeps R (exec_map f l).
Proof. intros Hf. apply keeps_exec_map_in. auto. Qed.
End exec_laws.

#[export] Hint Resolve keeps_ret keeps_throw keeps_of_outcome keeps_gets keeps_modify keeps_bind
  keeps_try_except keeps_attempt keeps_finally keeps_exec_each keeps_exec_map : keeps.
#[export] Hint Rewrite @exec_bind_gets @exec_bind_modify @exec_bind_ret @exec_bind_of_outcome @exec_bind_throw : exec.
