(* ===== verification/Coroutines.v ===== *)
(** * Coroutines of an actor

    An asynchronous Ray actor runs its method calls as coroutines of one event loop: the
    code between two suspension points is atomic, and any other call may run while one
    is suspended.  A coroutine is a tree ([coro]) of reads and writes of the actor's
    state, requests to the outside ([Call], answered in any way), and waits for a
    condition on the state (a lock, a polling loop).  A configuration is the state, the
    history of calls, replies, requests and answers, and the coroutines that are
    suspended; the step relation runs one of them to its next suspension point.

    [safe] is a rely-guarantee logic for coroutines: an invariant of state and history
    holds at every suspension point; a coroutine that takes a key out of the shared state
    owns it, and relies on the others to respect what it owns.  [safe_invariant] is its
    adequacy.  A wait may suspend although its condition holds: the model has all
    interleavings of the code and some more. *)
From S2P Require Import Prelude Effects.

Section coroutines.
Context {S Q : Type} {ans : Q → Type}.

Inductive coro (A : Type) : Type :=
  | Done (r : outcome A)
  | Get (k : S → coro A)
  | Put (s : S) (k : coro A)
  | Call (q : Q) (k : outcome (ans q) → coro A)
  | Wait (b : S → bool) (k : coro A).
Arguments Done {A}.
Arguments Get {A}.
Arguments Put {A}.
Arguments Call {A}.
Arguments Wait {A}.

(** [k] after [p], however it ends. *)
Fixpoint handle {A B} (p : coro A) (k : outcome A → coro B) : coro B :=
  match p with
  | Done r => k r
  | Get f => Get (λ s, handle (f s) k)
  | Put s p => Put s (handle p k)
  | Call q f => Call q (λ r, handle (f r) k)
  | Wait b p => Wait b (handle p k)
  end.

#[global] Instance coro_ret : MRet coro := λ A a, Done (Ok a).
#[global] Instance coro_bind : MBind coro := λ A B f p,
  handle p (λ r, match r with Ok a => f a | Err e => Done (Err e) end).

Definition raises {A} (e : exn) : coro A := Done (Err e).

(** Code without a suspension point. *)
Definition sync {A} (m : exec S A) : coro A := Get (λ s, let '(r, s') := m s in Put s' (Done r)).

(** [await] of an operation outside the actor. *)
Definition await (q : Q) : coro (ans q) := Call q Done.

(** [while not b: await asyncio.sleep(...)]. *)
Definition wait_until (b : S → bool) : coro unit := Wait b (Done (Ok ())).

(** [try: p except Exception as e: h(e)]. *)
Definition co_except {A} (p : coro A) (h : exn → coro A) : coro A :=
  handle p (λ r, match r with Ok a => Done (Ok a) | Err e => h e end).

(** [p], with its exception as a value. *)
Definition co_try {A} (p : coro A) : coro (outcome A) := handle p (λ r, Done (Ok r)).

(** [try: p finally: f]. *)
Definition co_finally {A} (p : coro A) (f : exec S unit) : coro A := handle p (λ r, _ ← sync f; Done r).

(** [async with lock: p]. *)
Definition with_lock {A} (locked : S → bool) (set : bool → S → S) (p : coro A) : coro A :=
  _ ← wait_until (λ s, negb (locked s)); _ ← sync (modify (set true)); co_finally p (modify (set false)).

(** [for a in l: f(a)]. *)
Fixpoint co_each {A} (f : A → coro unit) (l : list A) : coro unit :=
  match l with
  | [] => mret ()
  | a :: l => _ ← f a; co_each f l
  end.

(** A loop over [l] that updates an accumulator. *)
Fixpoint co_fold {A B} (f : B → A → coro B) (b : B) (l : list A) : coro B :=
  match l with
  | [] => mret b
  | a :: l => b ← f b a; co_fold f b l
  end.

(** Running to the next suspension point. *)
Fixpoint settle {A} (p : coro A) (s : S) : S * coro A :=
  match p with
  | Get k => settle (k s) s
  | Put s k => settle k s
  | p => (s, p)
  end.

(** ** Configurations and steps *)

Context {M : Type} {rep : M → Type} (body : ∀ m, coro (rep m)).

Inductive event : Type :=
  | Called (m : M)
  | Replied (m : M) (r : outcome (rep m))
  | Issued (q : Q)
  | Answered (q : Q) (r : outcome (ans q)).

Abbreviation history := (list event).

Record thread := mkThread { th_method : M; th_coro : coro (rep th_method) }.

Record configuration := mkConfiguration { c_state : S; c_history : history; c_threads : list thread }.

(** What a suspension tells the outside. *)
Definition announces {m} (p : coro (rep m)) : history :=
  match p with Done r => [Replied m r] | Call q _ => [Issued q] | _ => [] end.

Definition start_call (m : M) (c : configuration) : configuration :=
  let '(s, p) := settle (body m) (c_state c) in
  mkConfiguration s (c_history c ++ Called m :: announces p) (c_threads c ++ [mkThread m p]).

(** Resuming thread [i], suspended at a request, with an answer. *)
Definition resume (i : nat) (answer : ∀ q, outcome (ans q)) (c : configuration) : option configuration :=
  match c_threads c !! i with
  | Some (mkThread m (Call q k)) =>
      let '(s, p) := settle (k (answer q)) (c_state c) in
      Some (mkConfiguration s (c_history c ++ Answered q (answer q) :: announces p) (<[i := mkThread m p]> (c_threads c)))
  | Some (mkThread m (Wait b k)) =>
      if b (c_state c) then
        let '(s, p) := settle k (c_state c) in
        Some (mkConfiguration s (c_history c ++ announces p) (<[i := mkThread m p]> (c_threads c)))
      else None
  | _ => None
  end.

Inductive co_step : configuration → configuration → Prop :=
  | step_start m c : co_step c (start_call m c)
  | step_resume i answer c c' : resume i answer c = Some c' → co_step c c'.

Definition initial (s : S) : configuration := mkConfiguration s [] [].

Definition reachable (s : S) (c : configuration) : Prop := rtc co_step (initial s) c.

(** A run as data. *)
Inductive move :=
  | Begin (m : M)
  | Continue (i : nat) (answer : ∀ q, outcome (ans q)).

Fixpoint run_moves (moves : list move) (c : configuration) : option configuration :=
  match moves with
  | [] => Some c
  | Begin m :: moves => run_moves moves (start_call m c)
  | Continue i answer :: moves => match resume i answer c with Some c => run_moves moves c | None => None end
  end.

Lemma moves_reachable moves s c : run_moves moves (initial s) = Some c → reachable s c.
Proof.
  unfold reachable. generalize (initial s). induction moves as [|[m|i answer] moves IH]; intros c0 Hrun; cbn in Hrun.
  - injection Hrun as ->. apply rtc_refl.
  - eapply rtc_l; [apply step_start|]. by apply IH.
  - destruct (resume i answer c0) as [c1|] eqn:E; [|done]. eapply rtc_l; [by eapply step_resume|]. by apply IH.
Qed.

(** ** The program logic *)

Section logic.
Context {K : Type} `{Countable K}.

(** [I]: the invariant.  [closed s k]: the key [k] is out of the shared state, so at most
    one coroutine owns it; [taken s s'] are the keys a write takes out.  [G T]: what a
    coroutine that owns the keys [T] may do in one write.  [Rely T]: what the others may
    do meanwhile. *)
Context (I : S → history → Prop) (closed : S → K → Prop) (taken : S → S → gset K)
  (G : gset K → S → S → Prop) (Rely : gset K → S → S → Prop).

Implicit Types (T : gset K).

Fixpoint safe {A} (p : coro A) T (Φ : gset K → outcome A → S → history → Prop) (s : S) (h : history) : Prop :=
  match p with
  | Done r => Φ T r s h
  | Get k => safe (k s) T Φ s h
  | Put s' k => G T s s' ∧ safe k (T ∪ taken s s') Φ s' h
  | Call q k =>
      I s (h ++ [Issued q]) ∧
      ∀ r s' h', Rely T s s' → (h ++ [Issued q]) `prefix_of` h' → I s' h' → safe (k r) T Φ s' (h' ++ [Answered q r])
  | Wait b k => I s h ∧ ∀ s' h', Rely T s s' → h `prefix_of` h' → I s' h' → b s' = true → safe k T Φ s' h'
  end.

Lemma safe_mono {A} (p : coro A) T (Φ Ψ : gset K → outcome A → S → history → Prop) s h :
  (∀ T r s' h', Φ T r s' h' → Ψ T r s' h') → safe p T Φ s h → safe p T Ψ s h.
Proof.
  intros HΦ. revert T s h. induction p as [r|k IH|s0 k IH|q k IH|b k IH]; intros T s h; cbn.
  - apply HΦ.
  - apply IH.
  - intros [HR Hk]. auto.
  - intros [HI Hk]. split; [done|]. intros. apply IH. auto.
  - intros [HI Hk]. split; [done|]. intros. apply IH. auto.
Qed.

Lemma safe_handle {A B} (p : coro A) (k : outcome A → coro B) T Φ s h :
  safe p T (λ T r s h, safe (k r) T Φ s h) s h → safe (handle p k) T Φ s h.
Proof.
  revert T s h. induction p as [r|f IH|s0 f IH|q f IH|b f IH]; intros T s h; cbn.
  - done.
  - apply IH.
  - intros [HR Hf]. auto.
  - intros [HI Hf]. split; [done|]. intros. apply IH. auto.
  - intros [HI Hf]. split; [done|]. intros. apply IH. auto.
Qed.

Lemma safe_bind {A B} (p : coro A) (f : A → coro B) T Φ s h :
  safe p T (λ T r s h, match r with Ok a => safe (f a) T Φ s h | Err e => Φ T (Err e) s h end) s h → safe (p ≫= f) T Φ s h.
Proof. intros Hp. apply safe_handle. eapply safe_mono; [|exact Hp]. by intros ? [a|e]. Qed.

Lemma safe_sync {A} (m : exec S A) T Φ s h :
  G T s (m s).2 → Φ (T ∪ taken s (m s).2) (m s).1 (m s).2 h → safe (sync m) T Φ s h.
Proof. unfold sync. cbn. destruct (m s) as [r s']. cbn. auto. Qed.

Lemma safe_each {A} (f : A → coro unit) l (J : gset K → S → history → Prop) (Φ : gset K → outcome unit → S → history → Prop) T s h :
  J T s h →
  (∀ a T s h, a ∈ l → J T s h → safe (f a) T (λ T r s h, match r with Ok _ => J T s h | Err e => Φ T (Err e) s h end) s h) →
  (∀ T s h, J T s h → Φ T (Ok ()) s h) → safe (co_each f l) T Φ s h.
Proof.
  intros HJ Hf Hdone. revert T s h HJ. induction l as [|a l IH]; intros T s h HJ; cbn [co_each]; [by apply Hdone|].
  apply safe_bind. eapply safe_mono; [|apply Hf; [by left|done]]. intros T' [[]|e] s' h'; [|done].
  apply IH. intros a' T'' s'' h'' Hin. apply Hf. by right.
Qed.

Lemma safe_fold {A B} (f : B → A → coro B) l (J : B → gset K → S → history → Prop) (Φ : gset K → outcome B → S → history → Prop) b T s h :
  J b T s h →
  (∀ a b T s h, a ∈ l → J b T s h → safe (f b a) T (λ T r s h, match r with Ok b => J b T s h | Err e => Φ T (Err e) s h end) s h) →
  (∀ b T s h, J b T s h → Φ T (Ok b) s h) → safe (co_fold f b l) T Φ s h.
Proof.
  intros HJ Hf Hdone. revert b T s h HJ. induction l as [|a l IH]; intros b T s h HJ; cbn [co_fold]; [by apply Hdone|].
  apply safe_bind. eapply safe_mono; [|apply Hf; [by left|done]]. intros T' [b'|e] s' h'; [|done].
  apply IH. intros a' b'' T'' s'' h'' Hin. apply Hf. by right.
Qed.

(** ** Triples

    [P] before, [Ψ] after, the invariant at every suspension point.  An assertion is
    [stable] if neither the other coroutines nor a longer history break it, and
    [persistent] if no step of this coroutine does either. *)

Implicit Types (P F : gset K → S → history → Prop).

Definition triple {A} P (p : coro A) (Ψ : outcome A → gset K → S → history → Prop) : Prop :=
  ∀ T s h, I s h → P T s h → safe p T (λ T r s h, I s h ∧ Ψ r T s h) s h.

Definition stable P : Prop :=
  ∀ T s s' h h', Rely T s s' → h `prefix_of` h' → I s' h' → P T s h → P T s' h'.

Definition persistent F : Prop :=
  stable F ∧ (∀ T s s' h, G T s s' → F T s h → F (T ∪ taken s s') s' h) ∧ (∀ T s h q r, F T s h → F T s (h ++ [Answered q r])).

Lemma co_triple_mono {A} P P' (p : coro A) (Ψ Ψ' : outcome A → gset K → S → history → Prop) :
  triple P' p Ψ' → (∀ T s h, P T s h → P' T s h) → (∀ r T s h, Ψ' r T s h → Ψ r T s h) → triple P p Ψ.
Proof. intros Hp HP HQ T s h HI HPs. eapply safe_mono; [|apply Hp; auto]. intros ? ? ? ? [? ?]; auto. Qed.

Lemma co_triple_ret {A} P (a : A) (Ψ : outcome A → gset K → S → history → Prop) :
  (∀ T s h, I s h → P T s h → Ψ (Ok a) T s h) → triple P (mret a) Ψ.
Proof. intros HQ T s h HI HP. cbn. auto. Qed.

Lemma triple_raises {A} P e (Ψ : outcome A → gset K → S → history → Prop) :
  (∀ T s h, I s h → P T s h → Ψ (Err e) T s h) → triple P (raises e) Ψ.
Proof. intros HQ T s h HI HP. cbn. auto. Qed.

Lemma triple_handle {A B} P (p : coro A) (k : outcome A → coro B) (Θ : outcome A → gset K → S → history → Prop) Ψ :
  triple P p Θ → (∀ r, triple (Θ r) (k r) Ψ) → triple P (handle p k) Ψ.
Proof.
  intros Hp Hk T s h HI HP. apply safe_handle. eapply safe_mono; [|by apply Hp]. intros T' r s' h' [HI' HM]. by apply Hk.
Qed.

Lemma co_triple_bind {A B} P (p : coro A) (f : A → coro B) (Θ : outcome A → gset K → S → history → Prop) Ψ :
  triple P p Θ → (∀ a, triple (Θ (Ok a)) (f a) Ψ) → (∀ e T s h, Θ (Err e) T s h → Ψ (Err e) T s h) → triple P (p ≫= f) Ψ.
Proof.
  intros Hp Hf He. unfold mbind, coro_bind. eapply triple_handle; [exact Hp|]. intros [a|e]; [done|].
  intros T s h HI HM. cbn. auto.
Qed.

Lemma triple_try {A} P (p : coro A) (Ψ : outcome (outcome A) → gset K → S → history → Prop) :
  triple P p (λ r, Ψ (Ok r)) → triple P (co_try p) Ψ.
Proof. intros Hp. unfold co_try. eapply triple_handle; [exact Hp|]. intros r T s h HI HM. cbn. auto. Qed.

Lemma triple_sync {A} P (m : exec S A) (Ψ : outcome A → gset K → S → history → Prop) :
  (∀ T s h, I s h → P T s h → G T s (m s).2 ∧ I (m s).2 h ∧ Ψ (m s).1 (T ∪ taken s (m s).2) (m s).2 h) → triple P (sync m) Ψ.
Proof. intros Hm T s h HI HP. destruct (Hm T s h HI HP) as (HG & HI' & HQ). by apply safe_sync. Qed.

Lemma triple_await P q (Ψ : outcome (ans q) → gset K → S → history → Prop) :
  stable P → (∀ T s h, I s h → P T s h → I s (h ++ [Issued q])) →
  (∀ r T s h, I s h → Issued q ∈ h → P T s h → I s (h ++ [Answered q r]) ∧ Ψ r T s (h ++ [Answered q r])) →
  triple P (await q) Ψ.
Proof.
  intros HP Hq Hr T s h HI HPs. cbn. split; [by eapply Hq|]. intros r s' h' HR Hh HI'. apply Hr; [done| |].
  - destruct Hh as [h0 ->]. apply elem_of_app. left. apply elem_of_app. right. by left.
  - eapply HP; [exact HR| |done|exact HPs]. etransitivity; [|exact Hh]. by apply prefix_app_r.
Qed.

Lemma triple_wait P b (Ψ : outcome unit → gset K → S → history → Prop) :
  stable P → (∀ T s h, I s h → P T s h → b s = true → Ψ (Ok ()) T s h) → triple P (wait_until b) Ψ.
Proof. intros HP Hb T s h HI HPs. cbn. split; [done|]. intros s' h' HR Hh HI' Hbs. split; [done|]. eapply Hb; [done| |done]. by eapply HP. Qed.

Lemma triple_each {A} P (f : A → coro unit) l (Ψ : outcome unit → gset K → S → history → Prop) :
  (∀ a, a ∈ l → triple P (f a) (λ r, match r with Ok _ => P | Err e => Ψ (Err e) end)) →
  (∀ T s h, I s h → P T s h → Ψ (Ok ()) T s h) → triple P (co_each f l) Ψ.
Proof.
  intros Hf Hdone. induction l as [|a l IH]; cbn [co_each]; [by apply co_triple_ret|].
  eapply co_triple_bind; [apply Hf; by left| |done]. intros []. apply IH. intros a' Ha'. apply Hf. by right.
Qed.

Lemma triple_fold {A B} (P : B → gset K → S → history → Prop) (f : B → A → coro B) b l (Ψ : outcome B → gset K → S → history → Prop) :
  (∀ b a, a ∈ l → triple (P b) (f b a) (λ r, match r with Ok b => P b | Err e => Ψ (Err e) end)) →
  (∀ b T s h, I s h → P b T s h → Ψ (Ok b) T s h) → triple (P b) (co_fold f b l) Ψ.
Proof.
  intros Hf Hdone. revert b. induction l as [|a l IH]; intros b; cbn [co_fold]; [apply co_triple_ret, Hdone|].
  eapply co_triple_bind; [apply Hf; by left| |done]. intros b'. change (triple (P b') (co_fold f b' l) Ψ).
  apply IH. intros b'' a' Ha'. apply Hf. by right.
Qed.

Lemma triple_finally {A} P (p : coro A) f (Θ Ψ : outcome A → gset K → S → history → Prop) :
  triple P p Θ →
  (∀ r T s h, I s h → Θ r T s h → G T s (f s).2 ∧ I (f s).2 h ∧
     match (f s).1 with Ok _ => Ψ r | Err e => Ψ (Err e) end (T ∪ taken s (f s).2) (f s).2 h) →
  triple P (co_finally p f) Ψ.
Proof.
  intros Hp Hf. unfold co_finally. eapply triple_handle; [exact Hp|]. intros r.
  eapply co_triple_bind; [apply (triple_sync _ _ (λ r', match r' with Ok _ => Ψ r | Err e => Ψ (Err e) end)); intros; by apply Hf| |done].
  intros []. intros T s h HI HM. cbn. auto.
Qed.

(** A persistent assertion is kept by any coroutine. *)
Lemma triple_frame {A} F P (p : coro A) (Ψ : outcome A → gset K → S → history → Prop) :
  persistent F → triple P p Ψ → triple (λ T s h, F T s h ∧ P T s h) p (λ r T s h, F T s h ∧ Ψ r T s h).
Proof.
  intros (Hst & Hown & Hans) Hp T s h HI [HF HP]. specialize (Hp T s h HI HP). clear HP HI. revert T s h HF Hp.
  induction p as [r|k IH|s0 k IH|q k IH|b k IH]; intros T s h HF; cbn.
  - intros [? ?]. auto.
  - apply IH; done.
  - intros [HG Hk]. split; [done|]. apply IH; [|done]. by apply Hown.
  - intros [HI Hk]. split; [done|]. intros r s' h' HR Hh HI'. apply IH; [|by apply Hk]. apply Hans.
    eapply Hst; [exact HR| |done|exact HF]. etransitivity; [|exact Hh]. by apply prefix_app_r.
  - intros [HI Hk]. split; [done|]. intros s' h' HR Hh HI' Hb. apply IH; [|by apply Hk]. by eapply Hst.
Qed.

(** ** Adequacy *)

Context (Hclosed : ∀ T s s' k, G T s s' → closed s k → closed s' k)
  (Htaken : ∀ s s' k, k ∈ taken s s' → ¬ closed s k ∧ closed s' k)
  (Hrely_refl : ∀ T s, Rely T s s) (Hrely_trans : ∀ T s1 s2 s3, Rely T s1 s2 → Rely T s2 s3 → Rely T s1 s3)
  (Hrely : ∀ T T' s s', T ## T' → (∀ k, k ∈ T → closed s k) → G T' s s' → Rely T s s').

Definition thread_safe (t : thread) T (s : S) (h : history) : Prop :=
  match th_coro t with
  | Done _ => True
  | Call q k => ∀ r s' h', Rely T s s' → h `prefix_of` h' → I s' h' →
      safe (k r) T (λ _ r s h, I s (h ++ [Replied (th_method t) r])) s' (h' ++ [Answered q r])
  | Wait b k => ∀ s' h', Rely T s s' → h `prefix_of` h' → I s' h' → b s' = true →
      safe k T (λ _ r s h, I s (h ++ [Replied (th_method t) r])) s' h'
  | _ => False
  end.

(** What a segment of a coroutine leaves. *)
Record settled (m : M) (p' : coro (rep m)) T s T' s' h : Prop := {
  st_invariant : I s' (h ++ announces p');
  st_safe : thread_safe (mkThread m p') T' s' (h ++ announces p');
  st_owned k : k ∈ T' → closed s' k;
  st_kept k : closed s k → closed s' k;
  st_taken k : k ∈ T' → k ∈ T ∨ ¬ closed s k;
  st_others T0 : T0 ## T → (∀ k, k ∈ T0 → closed s k) → Rely T0 s s'
}.

Lemma safe_settle m (p : coro (rep m)) T s h s' p' :
  settle p s = (s', p') → (∀ k, k ∈ T → closed s k) → safe p T (λ _ r s h, I s (h ++ [Replied m r])) s h →
  ∃ T', settled m p' T s T' s' h.
Proof.
  revert T s. induction p as [r|k IH|s0 k IH|q k IH|b k IH]; intros T s; cbn [settle safe].
  - intros [= <- <-] HT Hp. exists T. split; try done. by left.
  - intros E HT Hp. by eapply IH.
  - intros E HT [HG Hk]. destruct (IH (T ∪ taken s s0) s0 E) as [T' Hs].
    { intros k0 [Hin|Hin]%elem_of_union; [eapply Hclosed; [exact HG|by apply HT]|by apply (Htaken s)]. }
    { exact Hk. }
    exists T'. split.
    + apply (st_invariant _ _ _ _ _ _ _ Hs).
    + apply (st_safe _ _ _ _ _ _ _ Hs).
    + apply (st_owned _ _ _ _ _ _ _ Hs).
    + intros k0 Hk0. apply (st_kept _ _ _ _ _ _ _ Hs). by eapply Hclosed.
    + intros k0 Hk0. destruct (st_taken _ _ _ _ _ _ _ Hs k0 Hk0) as [[?|Hin]%elem_of_union|Hn]; [by left| |].
      * right. by apply (Htaken s s0).
      * right. intros Hc. apply Hn. by eapply Hclosed.
    + intros T0 Hd Hc. apply (Hrely_trans _ _ s0); [by eapply Hrely|]. apply (st_others _ _ _ _ _ _ _ Hs).
      * intros k0 Hin0 [Hin|Hin]%elem_of_union; [by apply (Hd k0)|]. apply (proj1 (Htaken s s0 k0 Hin)). by apply Hc.
      * intros k0 Hin. eapply Hclosed; [exact HG|]. by apply Hc.
  - intros [= <- <-] HT [HI Hk]. exists T. split; try done. by left.
  - intros [= <- <-] HT [HI Hk]. exists T. cbn. split; try done; cbn; rewrite ?app_nil_r; try done. by left.
Qed.

Lemma thread_safe_later t T s h s' h' : Rely T s s' → h `prefix_of` h' → thread_safe t T s h → thread_safe t T s' h'.
Proof.
  intros HR Hh. unfold thread_safe. destruct (th_coro t) as [r|k|s0 k|q k|b k]; try done.
  - intros Hk r s'' h'' ? ? ?. apply Hk; [by eapply Hrely_trans|by etransitivity|done].
  - intros Hk s'' h'' ? ? ?. apply Hk; [by eapply Hrely_trans|by etransitivity|done].
Qed.

(** The coroutines of a configuration own disjoint sets of keys. *)
Record system_safe (c : configuration) : Prop := {
  ss_invariant : I (c_state c) (c_history c);
  ss_threads : ∃ Ts : list (gset K), length Ts = length (c_threads c) ∧
    (∀ i t T, c_threads c !! i = Some t → Ts !! i = Some T →
      thread_safe t T (c_state c) (c_history c) ∧ ∀ k, k ∈ T → closed (c_state c) k) ∧
    (∀ i j T T', i ≠ j → Ts !! i = Some T → Ts !! j = Some T' → T ## T')
}.

(** Replacing, or adding, the coroutine that ran. *)
Lemma system_safe_run m p' T T' s h s' hs (ts : list thread) (Ts : list (gset K)) i :
  settled m p' T s T' s' hs → h `prefix_of` hs → (i <= length ts)%nat →
  length Ts = length ts →
  (∀ j t Tj, j ≠ i → ts !! j = Some t → Ts !! j = Some Tj →
     thread_safe t Tj s h ∧ (∀ k, k ∈ Tj → closed s k) ∧ Tj ## T) →
  (∀ j j' Tj Tj', j ≠ i → j' ≠ i → j ≠ j' → Ts !! j = Some Tj → Ts !! j' = Some Tj' → Tj ## Tj') →
  system_safe (mkConfiguration s' (hs ++ announces p')
    (if decide (i = length ts) then ts ++ [mkThread m p'] else <[i := mkThread m p']> ts)).
Proof.
  intros Hs Hh Hi Hlen Hts Hdis. split; [apply (st_invariant _ _ _ _ _ _ _ Hs)|]. cbn [c_state c_history c_threads].
  exists (if decide (i = length ts) then Ts ++ [T'] else <[i := T']> Ts).
  assert (Hlook : ∀ {X} (l : list X) x j y, length l = length ts →
    (if decide (i = length ts) then l ++ [x] else <[i := x]> l) !! j = Some y → (j = i ∧ y = x) ∨ (j ≠ i ∧ l !! j = Some y)).
  { intros X l x j y Hl. case_decide as Hd.
    - intros [Hj|[Hj Hy]]%lookup_app_Some; [right; split; [|done]; apply lookup_lt_Some in Hj; lia|].
      left. apply list_lookup_singleton_Some in Hy as [Hz ->]. split; [lia|done].
    - intros [(<- & -> & _)|[Hne Hj]]%list_lookup_insert_Some; [by left|right; split; [congruence|done]]. }
  assert (Hold : ∀ j Tj, j ≠ i → Ts !! j = Some Tj → ∃ t, ts !! j = Some t).
  { intros j Tj _ Hj. apply lookup_lt_is_Some. rewrite <-Hlen. by eapply lookup_lt_Some. }
  split_and!.
  - case_decide; [by rewrite !length_app, Hlen|by rewrite !length_insert].
  - intros j t Tj Ht HTj. apply Hlook in Ht; [|done]. apply Hlook in HTj; [|done].
    destruct Ht as [[-> ->]|[Hne Ht]], HTj as [[Hj ->]|[Hj HTj]]; try done.
    + split; [apply (st_safe _ _ _ _ _ _ _ Hs)|apply (st_owned _ _ _ _ _ _ _ Hs)].
    + destruct (Hts j t Tj Hne Ht HTj) as (Hsafe & Hc & Hd). split.
      * eapply thread_safe_later; [|by etransitivity; [exact Hh|apply prefix_app_r]|exact Hsafe].
        by apply (st_others _ _ _ _ _ _ _ Hs).
      * intros k Hk. apply (st_kept _ _ _ _ _ _ _ Hs). by apply Hc.
  - assert (Hown : ∀ j Tj, j ≠ i → Ts !! j = Some Tj → T' ## Tj).
    { intros j Tj Hj HTj. destruct (Hold j Tj Hj HTj) as [t Ht]. destruct (Hts j t Tj Hj Ht HTj) as (_ & Hc & Hd).
      intros k Hk Hkj. destruct (st_taken _ _ _ _ _ _ _ Hs k Hk) as [Hin|Hn]; [by apply (Hd k)|by apply Hn, Hc]. }
    intros j j' Tj Tj' Hne Hj Hj'. apply Hlook in Hj; [|done]. apply Hlook in Hj'; [|done].
    destruct Hj as [[-> ->]|[Hji Hj]], Hj' as [[Hj'i ->]|[Hj'i Hj']]; try congruence.
    + by apply (Hown j').
    + symmetry. by apply (Hown j).
    + by apply (Hdis j j').
Qed.

Context (Hbody : ∀ m s h, I s h → safe (body m) ∅ (λ _ r s h, I s (h ++ [Replied m r])) s (h ++ [Called m])).

Lemma step_safe c c' : co_step c c' → system_safe c → system_safe c'.
Proof.
  intros Hstep [HI (Ts & Hlen & Hts & Hdis)]. destruct Hstep as [m c|i answer c c' Hres].
  - unfold start_call. destruct (settle (body m) (c_state c)) as [s' p'] eqn:E.
    destruct (safe_settle m _ ∅ _ (c_history c ++ [Called m]) _ _ E) as [T' Hs]; [set_solver|by apply Hbody|].
    pose proof (system_safe_run m p' ∅ T' _ (c_history c) s' _ (c_threads c) Ts (length (c_threads c)) Hs) as Hrun.
    rewrite decide_True in Hrun by done. rewrite <-app_assoc in Hrun. apply Hrun; [by apply prefix_app_r|done|done| |].
    + intros j t Tj Hj Ht HTj. destruct (Hts j t Tj Ht HTj). split_and!; [done|done|set_solver].
    + intros j j' Tj Tj' _ _. apply Hdis.
  - unfold resume in Hres. destruct (c_threads c !! i) as [[m p]|] eqn:Ei; [|done].
    pose proof (lookup_lt_Some _ _ _ Ei) as Hi. destruct (lookup_lt_is_Some_2 Ts i) as [T HT]; [lia|].
    destruct (Hts i _ T Ei HT) as [Ht Hc].
    assert (Hother : ∀ j t Tj, j ≠ i → c_threads c !! j = Some t → Ts !! j = Some Tj →
      thread_safe t Tj (c_state c) (c_history c) ∧ (∀ k, k ∈ Tj → closed (c_state c) k) ∧ Tj ## T).
    { intros j t Tj Hj Htj HTj. destruct (Hts j t Tj Htj HTj). split_and!; [done|done|]. by apply (Hdis j i). }
    destruct p as [r|k|s0 k|q k|b k]; try done.
    + destruct (settle (k (answer q)) (c_state c)) as [s' p'] eqn:E. injection Hres as <-.
      unfold thread_safe in Ht. cbn in Ht. pose proof (Ht (answer q) (c_state c) (c_history c) (Hrely_refl _ _) (reflexivity _) HI) as Hk.
      destruct (safe_settle m _ T _ _ _ _ E Hc Hk) as [T' Hs].
      pose proof (system_safe_run m p' T T' _ (c_history c) s' _ (c_threads c) Ts i Hs) as Hrun.
      rewrite decide_False in Hrun by lia. rewrite <-app_assoc in Hrun.
      apply Hrun; [by apply prefix_app_r|lia|done|done|intros j j' ? ? _ _; apply Hdis].
    + destruct (b (c_state c)) eqn:Hb; [|done]. destruct (settle k (c_state c)) as [s' p'] eqn:E. injection Hres as <-.
      unfold thread_safe in Ht. cbn in Ht. pose proof (Ht (c_state c) (c_history c) (Hrely_refl _ _) (reflexivity _) HI Hb) as Hk.
      destruct (safe_settle m _ T _ _ _ _ E Hc Hk) as [T' Hs].
      pose proof (system_safe_run m p' T T' _ (c_history c) s' _ (c_threads c) Ts i Hs) as Hrun.
      rewrite decide_False in Hrun by lia. apply Hrun; [done|lia|done|done|intros j j' ? ? _ _; apply Hdis].
Qed.

Lemma safe_invariant s c : I s [] → reachable s c → I (c_state c) (c_history c).
Proof.
  intros HI Hreach. enough (system_safe c) as [? _] by done.
  assert (system_safe (initial s)) as H0 by (split; [done|]; exists []; split_and!; [done|done|intros i j T0 T1 _ Hi; by rewrite lookup_nil in Hi]).
  unfold reachable in Hreach. revert H0. induction Hreach as [c|c1 c2 c3 Hstep _ IH]; [done|].
  intros H1. apply IH. by apply (step_safe c1).
Qed.
End logic.
End coroutines.

Arguments coro S {Q} ans A.
Arguments Done {S Q ans A}.
Arguments Get {S Q ans A}.
Arguments Put {S Q ans A}.
Arguments Call {S Q ans A}.
Arguments Wait {S Q ans A}.
Arguments event {Q} ans {M} rep.
Arguments Called {Q ans M rep}.
Arguments Replied {Q ans M rep}.
Arguments Issued {Q ans M rep}.
Arguments Answered {Q ans M rep}.
Arguments move {Q} ans M.
Arguments Begin {Q ans M}.
Arguments Continue {Q ans M}.
