(* ===== verification/Checkpoints.v ===== *)
(** * Checkpoints: the data of the coordinator

    Models [src/ray/klein/runtime/coordinator/checkpoint.py] (one barrier's
    acknowledgements), [barrier_id_generator.py], [checkpoint_registration.py] and
    [sink_committable_coalescer.py], the entries of
    [src/ray/klein/state/sink_committable_checkpoint_entry.py] and
    [source_checkpoint_entry.py], and what the coordinator reads of the execution graph
    ([runtime/execution_graph]): its vertices, edges and checkpoint domains.

    A task key, ["job_vertex:index"] or ["job_vertex:global"], is kept as its parts. *)
From stdpp Require Import pretty.
From Stdlib Require Import Strings.Ascii.
From S2P Require Import Prelude Dicts.
Open Scope Z_scope.

(** [ExecutionVertexId]. *)
Record ExecutionVertexId := mkVertexId { job_vertex_id : Z; vertex_index : Z }.
Abbreviation vid := ExecutionVertexId.

#[export] Instance vid_eq_dec : EqDecision vid.
Proof. solve_decision. Defined.
#[export] Instance vid_countable : Countable vid :=
  inj_countable' (λ v, (job_vertex_id v, vertex_index v)) (λ p, mkVertexId p.1 p.2) ltac:(by intros []).

(** The order of [key=lambda item: (item.job_vertex_id, item.index)]. *)
Definition vid_le (v w : vid) : Prop :=
  job_vertex_id v < job_vertex_id w ∨ (job_vertex_id v = job_vertex_id w ∧ vertex_index v <= vertex_index w).
#[export] Instance vid_le_dec v w : Decision (vid_le v w).
Proof. unfold vid_le. apply _. Defined.

Definition sort_vertices (vs : gset vid) : list vid := merge_sort vid_le (elements vs).

(** ** One checkpoint *)

Inductive CheckpointStatus := CREATED | IN_PROGRESS | NOTIFYING | COMPLETED | FAILED.
#[export] Instance CheckpointStatus_eq_dec : EqDecision CheckpointStatus.
Proof. solve_decision. Defined.

Definition is_terminal (s : CheckpointStatus) : bool := match s with COMPLETED | FAILED => true | _ => false end.

Record Checkpoint := mkCheckpoint {
  barrier_id : Z;
  required_acknowledgements : Z;
  trigger_sources : list vid;
  coordinated : bool;
  domain_id : option string;
  required_committers : list vid;
  acknowledgements : Z;
  triggered_at_ms : option Z;
  last_acknowledged_at_ms : option Z;
  completed_at_ms : option Z;
  status : CheckpointStatus;
  acknowledged_by : gset vid;
  started_sources : gset vid;
  eof_sources : gset vid
}.

(** [Checkpoint(barrier_id, required_acknowledgements, trigger_sources, ...)]. *)
Definition Checkpoint_init (barrier required : Z) (sources : list vid) (coordinated : bool) (domain : option string)
    (committers : list vid) : Checkpoint :=
  mkCheckpoint barrier required sources coordinated domain committers 0 None None None CREATED ∅ ∅ ∅.

Definition mark_complete (now_ms : Z) (c : Checkpoint) : Checkpoint :=
  mkCheckpoint (barrier_id c) (required_acknowledgements c) (trigger_sources c) (coordinated c) (domain_id c) (required_committers c)
    (acknowledgements c) (triggered_at_ms c) (Some now_ms) (Some now_ms) COMPLETED (acknowledged_by c) (started_sources c) (eof_sources c).

Definition mark_failed (now_ms : Z) (c : Checkpoint) : Checkpoint :=
  mkCheckpoint (barrier_id c) (required_acknowledgements c) (trigger_sources c) (coordinated c) (domain_id c) (required_committers c)
    (acknowledgements c) (triggered_at_ms c) (Some now_ms) (Some now_ms) FAILED (acknowledged_by c) (started_sources c) (eof_sources c).

Definition mark_in_progress (now_ms : Z) (c : Checkpoint) : Checkpoint :=
  mkCheckpoint (barrier_id c) (required_acknowledgements c) (trigger_sources c) (coordinated c) (domain_id c) (required_committers c)
    (acknowledgements c) (Some now_ms) (last_acknowledged_at_ms c) (completed_at_ms c) IN_PROGRESS (acknowledged_by c) (started_sources c) (eof_sources c).

Definition mark_notifying (c : Checkpoint) : Checkpoint :=
  mkCheckpoint (barrier_id c) (required_acknowledgements c) (trigger_sources c) (coordinated c) (domain_id c) (required_committers c)
    (acknowledgements c) (triggered_at_ms c) (last_acknowledged_at_ms c) (completed_at_ms c) NOTIFYING (acknowledged_by c) (started_sources c) (eof_sources c).

(** The acknowledgement of a new committer, in [acknowledge]. *)
Definition record_acknowledgement (committer : vid) (now_ms : Z) (c : Checkpoint) : Checkpoint :=
  mkCheckpoint (barrier_id c) (required_acknowledgements c) (trigger_sources c) (coordinated c) (domain_id c) (required_committers c)
    (acknowledgements c + 1) (triggered_at_ms c) (Some now_ms) (completed_at_ms c) (status c) ({[committer]} ∪ acknowledged_by c)
    (started_sources c) (eof_sources c).

(** Whether a vertex is outside the committers of a checkpoint. *)
Definition foreign_committer (c : Checkpoint) (v : vid) : bool :=
  negb (bool_decide (required_committers c = [])) && negb (bool_decide (v ∈ required_committers c)).

Definition acknowledge (committer : vid) (now_ms : Z) (c : Checkpoint) : bool * Checkpoint :=
  if foreign_committer c committer then (false, c)
  else if bool_decide (committer ∈ acknowledged_by c) then (bool_decide (status c = NOTIFYING), c)
  else
    let c := record_acknowledgement committer now_ms c in
    let c := if (0 <? required_acknowledgements c) && (required_acknowledgements c <=? acknowledgements c)
             then mark_notifying c else c in
    (bool_decide (status c = NOTIFYING), c).

Definition mark_source_started (source : vid) (is_eof : bool) (c : Checkpoint) : bool * Checkpoint :=
  if bool_decide (source ∈ trigger_sources c) then
    (true, mkCheckpoint (barrier_id c) (required_acknowledgements c) (trigger_sources c) (coordinated c) (domain_id c)
      (required_committers c) (acknowledgements c) (triggered_at_ms c) (last_acknowledged_at_ms c) (completed_at_ms c) (status c)
      (acknowledged_by c) ({[source]} ∪ started_sources c) (if is_eof then {[source]} ∪ eof_sources c else eof_sources c))
  else (false, c).

(** ** Barrier ids *)

Definition RESEED_STRIDE : Z := 1000000.

(** [BarrierIdGenerator.reseed]. *)
Definition reseed (high_water current : Z) : Z :=
  if 0 <? high_water then Z.max current (high_water + RESEED_STRIDE) else current.

(** [CheckpointRegistration]; a reason is a message. *)
Record CheckpointRegistration := mkRegistration { registration_barrier : option Z; registration_coordinated : bool }.

Definition success (b : Z) (coordinated : bool) : CheckpointRegistration := mkRegistration (Some b) coordinated.
Definition skip : CheckpointRegistration := mkRegistration None false.

(** ** What the coordinator reads of the execution graph *)

Record CheckpointDomain := mkDomain {
  dom_id : string;
  dom_vertex_ids : list vid;
  dom_source_vertex_ids : list vid;
  dom_sink_vertex_ids : list vid
}.

(** A vertex: whether it has a task, whether it is finished, and the rescale it
    restores from. *)
Record ExecutionVertex := mkVertex {
  ev_id : vid;
  ev_stream_task : bool;
  ev_finished : bool;
  ev_restore_operation_id : option string
}.

Record ExecutionGraph := mkGraph {
  eg_namespace : string;
  eg_vertices : list ExecutionVertex;
  eg_sources : list vid;
  eg_sinks : list vid;
  eg_domains : list CheckpointDomain;
  eg_edges : list (vid * vid);
  eg_barrier_splits : list (vid * list (vid * Z))
}.

(** The first item a test accepts. *)
Fixpoint find_first {A} (p : A → bool) (l : list A) : option A :=
  match l with [] => None | a :: l => if p a then Some a else find_first p l end.

Definition find_execution_vertex (g : ExecutionGraph) (v : vid) : option ExecutionVertex :=
  find_first (λ x, bool_decide (ev_id x = v)) (eg_vertices g).

(** [execution_vertex]: an unknown vertex raises. *)
Definition execution_vertex (g : ExecutionGraph) (v : vid) : outcome ExecutionVertex := of_option KeyError (find_execution_vertex g v).

Definition find_checkpoint_domain (g : ExecutionGraph) (v : vid) : option CheckpointDomain :=
  find_first (λ d, bool_decide (v ∈ dom_vertex_ids d)) (eg_domains g).

(** The subtasks of a logical operator; there is at least one of an operator that exists. *)
Definition job_vertices (g : ExecutionGraph) (j : Z) : list vid :=
  filter (λ v, job_vertex_id v = j) (ev_id <$> eg_vertices g).

(** [checkpoint_domains_for_job_vertex]. *)
Definition checkpoint_domains_for_job_vertex (g : ExecutionGraph) (j : Z) : outcome (list CheckpointDomain) :=
  match job_vertices g j with
  | [] => Err KeyError
  | vs => domains ← foldM (λ ds v, d ← of_option KeyError (find_checkpoint_domain g v); Ok (dict_set (dom_id d) d ds)) [] vs;
          Ok (domains : list (string * CheckpointDomain)).*2
  end.

(** [checkpoint_io.coordinator_ack_counts]. *)
Definition count_split (acks : gmap vid Z) (split : vid * Z) : gmap vid Z :=
  <[split.1 := default 0 (acks !! split.1) + (if split.2 =? 0 then 0 else 1)]> acks.

Definition coordinator_ack_counts (g : ExecutionGraph) : outcome (gmap vid Z) :=
  foldM (λ acks sink, splits ← of_option KeyError (dict_get sink (eg_barrier_splits g)); Ok (foldl count_split acks splits)) ∅ (eg_sinks g).

(** The search of [_reachable_domain_sinks]; every edge is followed at most once, so
    [fuel] is the number of sources and edges. *)
Fixpoint reach (fuel : nat) (adjacency : vid → list vid) (stack : list vid) (reachable : gset vid) : gset vid :=
  match fuel, stack with
  | S fuel, v :: stack =>
      if bool_decide (v ∈ reachable) then reach fuel adjacency stack reachable
      else reach fuel adjacency (reverse (adjacency v) ++ stack) ({[v]} ∪ reachable)
  | _, _ => reachable
  end.

Definition domain_successors (g : ExecutionGraph) (d : CheckpointDomain) (v : vid) : list vid :=
  snd <$> filter (λ e, e.1 = v ∧ e.1 ∈ dom_vertex_ids d ∧ e.2 ∈ dom_vertex_ids d) (eg_edges g).

Definition reachable_domain_sinks (g : ExecutionGraph) (d : CheckpointDomain) (sources : list vid) : list vid :=
  let reachable := reach (length sources + length (eg_edges g)) (domain_successors g d) (reverse sources) ∅ in
  sort_vertices (reachable ∩ list_to_set (dom_sink_vertex_ids d)).

(** [_checkpoint_domain_boundary_vertex_ids]. *)
Definition boundary_vertex_ids (graph : option ExecutionGraph) (targets : list Z) (sources : bool) : outcome (gset vid) :=
  match graph with
  | None => Ok ∅
  | Some g =>
      let candidates : gset vid := list_to_set (if sources then eg_sources g else eg_sinks g) in
      if bool_decide (targets = []) then Ok candidates
      else
        domains ← foldM (λ ds t, found ← checkpoint_domains_for_job_vertex g t;
                    Ok (foldl (λ (ds : list (string * CheckpointDomain)) d, dict_set (dom_id d) d ds) ds found)) [] targets;
        if bool_decide ((domains : list (string * CheckpointDomain)).*1 = []) then Ok candidates
        else Ok (list_to_set (mjoin ((λ e : string * CheckpointDomain,
          if sources then dom_source_vertex_ids e.2 else dom_sink_vertex_ids e.2) <$> domains)))
  end.

(** ** Sink transactions *)

Inductive task_key := SubtaskKey (v : vid) | GlobalKey (job_vertex : Z).
#[export] Instance task_key_eq_dec : EqDecision task_key.
Proof. solve_decision. Defined.
#[export] Instance task_key_countable : Countable task_key :=
  inj_countable' (λ k, match k with SubtaskKey v => inl v | GlobalKey j => inr j end)
    (λ x, match x with inl v => SubtaskKey v | inr j => GlobalKey j end) ltac:(by intros []).

(** The part before the colon. *)
Definition key_job (k : task_key) : Z := match k with SubtaskKey v => job_vertex_id v | GlobalKey j => j end.

(** Python's [not s.strip()], on ASCII. *)
Fixpoint blank (s : string) : bool :=
  match s with
  | EmptyString => true
  | String c s => (let n := Ascii.nat_of_ascii c in (9 <=? n)%nat && (n <=? 13)%nat || (28 <=? n)%nat && (n <=? 32)%nat) && blank s
  end.

Fixpoint contains_colon (s : string) : bool :=
  match s with EmptyString => false | String c s => bool_decide (c = ":"%char) || contains_colon s end.

(** The identity of a transaction: its task key, its checkpoint and its id. *)
Abbreviation ident := (task_key * Z * string)%type.

Section transactions.
Context {C : Type} (transaction_id : C → string) (global_commit_namespace : C → option string)
  (combine_committables : C → list C → string → outcome C) (sha256_hexdigest : string → string).

(** [SinkCommittableCheckpointEntry]. *)
Record sink_entry := mkSinkEntry { se_task_key : task_key; se_checkpoint_id : Z; se_committable : C }.
Implicit Types (e : sink_entry).

Definition SinkCommittableCheckpointEntry (k : task_key) (checkpoint : Z) (c : C) : outcome sink_entry :=
  if checkpoint <? 0 then Err ValueError
  else if blank (transaction_id c) then Err ValueError
  else Ok (mkSinkEntry k checkpoint c).

(** [_sink_committable_identity]. *)
Definition identity e : task_key * Z * string := (se_task_key e, se_checkpoint_id e, transaction_id (se_committable e)).

(** The grouping loop of the coalescer. *)
Definition group_entry (acc : list (task_key * sink_entry) * list (Z * list (sink_entry * string))) (item : task_key * sink_entry) :=
  let '(result, groups) := acc in
  match global_commit_namespace (se_committable item.2) with
  | Some namespace =>
      let j := key_job item.1 in
      (result, dict_set j (default [] (dict_get j groups) ++ [(item.2, namespace)]) groups)
  | None => (dict_set item.1 item.2 result, groups)
  end.

Definition string_le (x y : string) : Prop := String.leb x y = true.
#[export] Instance string_le_dec x y : Decision (string_le x y).
Proof. unfold string_le. apply _. Defined.

Definition global_transaction_id (namespace job_id : string) (j checkpoint : Z) (digest : string) : string :=
  ("klein:" ++ namespace ++ ":" ++ job_id ++ ":" ++ pretty j ++ ":" ++ pretty checkpoint ++ ":" ++ digest)%string.

(** One logical sink with several combinable writers, or one. *)
Definition combine_group (checkpoint : Z) (job_id : string) (result : list (task_key * sink_entry))
    (item : Z * list (sink_entry * string)) : outcome (list (task_key * sink_entry)) :=
  let '(j, group) := item in
  match group with
  | [] => Ok result
  | [(e, _)] => Ok (dict_set (se_task_key e) e result)
  | (e, namespace) :: _ =>
      if negb (forallb (λ x : sink_entry * string, bool_decide (x.2 = namespace)) group) then Err ValueError
      else if bool_decide (namespace = ""%string) || contains_colon namespace then Err ValueError
      else
        let writer_ids := merge_sort string_le ((λ x : sink_entry * string, transaction_id (se_committable x.1)) <$> group) in
        let digest := sha256_hexdigest (String.concat (String Ascii.zero EmptyString) writer_ids) in
        c ← combine_committables (se_committable e) ((λ x : sink_entry * string, se_committable x.1) <$> group)
              (global_transaction_id namespace job_id j checkpoint digest);
        e ← SinkCommittableCheckpointEntry (GlobalKey j) checkpoint c;
        Ok (dict_set (GlobalKey j) e result)
  end.

Definition coalesce_sink_committables (entries : list (task_key * sink_entry)) (checkpoint : Z) (job_id : string)
    : outcome (list (task_key * sink_entry)) :=
  if (length entries <? 2)%nat then Ok entries
  else let '(result, groups) := foldl group_entry ([], []) entries in foldM (combine_group checkpoint job_id) result groups.
(** ** What the coalescer keeps

    [covers i j]: committing the transaction [i] publishes the transaction [j]; it is [j]
    itself, or combined from a group with it. *)
Definition combined (i j : ident) : Prop :=
  ∃ first group name c member, combine_committables first group name = Ok c ∧ member ∈ group ∧
    transaction_id member = j.2 ∧ i = (GlobalKey (key_job j.1.1), j.1.2, transaction_id c).

Definition covers (i j : ident) : Prop := i = j ∨ combined i j.

(** The writer transactions of one checkpoint, by task key. *)
Definition writer_entries (checkpoint : Z) (entries : list (task_key * sink_entry)) : Prop :=
  NoDup entries.*1 ∧
  ∀ k e, (k, e) ∈ entries → k = se_task_key e ∧ se_checkpoint_id e = checkpoint ∧ ∃ v, k = SubtaskKey v.

Lemma writer_entries_eq b entries k e e' : writer_entries b entries → (k, e) ∈ entries → (k, e') ∈ entries → e = e'.
Proof. intros [Hnd _] H1%(dict_get_Some _ _ _ Hnd) H2%(dict_get_Some _ _ _ Hnd). congruence. Qed.

(** The entries grouped so far. *)
Record grouped (seen result : list (task_key * sink_entry)) (groups : list (Z * list (sink_entry * string))) : Prop := {
  gr_seen k e : (k, e) ∈ seen → match global_commit_namespace (se_committable e) with
    | None => (k, e) ∈ result
    | Some n => ∃ l, (key_job k, l) ∈ groups ∧ (e, n) ∈ l
    end;
  gr_result k e : (k, e) ∈ result → (k, e) ∈ seen ∧ global_commit_namespace (se_committable e) = None;
  gr_group j l e n : (j, l) ∈ groups → (e, n) ∈ l →
    ∃ k, (k, e) ∈ seen ∧ key_job k = j ∧ global_commit_namespace (se_committable e) = Some n;
  gr_keys : NoDup groups.*1
}.

Lemma group_entry_grouped seen result groups k e :
  k ∉ seen.*1 → grouped seen result groups →
  grouped (seen ++ [(k, e)]) (group_entry (result, groups) (k, e)).1 (group_entry (result, groups) (k, e)).2.
Proof.
  intros Hk [Hs Hr Hg Hnd]. unfold group_entry. cbn [fst snd].
  assert (Hkr : ∀ e', (k, e') ∉ result).
  { intros e' [Hin _]%Hr. apply Hk. apply list_elem_of_fmap. by exists (k, e'). }
  destruct (global_commit_namespace (se_committable e)) as [n|] eqn:En; split; cbn [fst snd].
  - intros k' e' [Hin|[= -> ->]%list_elem_of_singleton]%elem_of_app.
    + specialize (Hs k' e' Hin). destruct (global_commit_namespace (se_committable e')) as [n'|]; [|done].
      destruct Hs as (l & Hl & He). destruct (decide (key_job k' = key_job k)) as [Hj|Hj].
      * exists (l ++ [(e, n)]). rewrite Hj. split; [|apply elem_of_app; by left].
        apply dict_get_Some in Hl as Hl'; [|done]. rewrite Hj in Hl'. rewrite Hl'. cbn. apply dict_set_In.
      * exists l. split; [|done]. by apply dict_set_other.
    + rewrite En. eexists. split; [apply dict_set_In|]. apply elem_of_app. right. by left.
  - intros k' e' [Hin Hn]%Hr. split; [|done]. apply elem_of_app. by left.
  - intros j l e' n' Hin He'. apply dict_set_inv in Hin as [[-> ->]|Hin].
    + apply elem_of_app in He' as [He'|[= -> ->]%list_elem_of_singleton].
      * destruct (dict_get (key_job k) groups) as [l|] eqn:El; [|by apply not_elem_of_nil in He'].
        apply dict_get_In in El. destruct (Hg _ _ _ _ El He') as (k' & ? & ? & ?). exists k'. split_and!; [|done..].
        apply elem_of_app. by left.
      * exists k. split_and!; [apply elem_of_app; right; by left|done..].
    + destruct (Hg _ _ _ _ Hin He') as (k' & ? & ? & ?). exists k'. split_and!; [apply elem_of_app; by left|done..].
  - by apply NoDup_dict_set.
  - intros k' e' [Hin|[= -> ->]%list_elem_of_singleton]%elem_of_app.
    + assert (k' ≠ k) as Hne. { intros ->. apply Hk. apply list_elem_of_fmap. by exists (k, e'). }
      specialize (Hs k' e' Hin). destruct (global_commit_namespace (se_committable e')); [done|]. by apply dict_set_other.
    + rewrite En. apply dict_set_In.
  - intros k' e' [[-> ->]|Hin]%dict_set_inv; [split; [apply elem_of_app; right; by left|done]|].
    apply Hr in Hin as [Hin Hn]. split; [apply elem_of_app; by left|done].
  - intros j l e' n' Hin He'. destruct (Hg _ _ _ _ Hin He') as (k' & ? & ? & ?). exists k'. split_and!; [apply elem_of_app; by left|done..].
  - done.
Qed.

Lemma grouped_all entries result groups :
  NoDup entries.*1 → foldl group_entry ([], []) entries = (result, groups) → grouped entries result groups.
Proof.
  enough (∀ seen acc, NoDup (seen ++ entries).*1 → grouped seen acc.1 acc.2 →
    grouped (seen ++ entries) (foldl group_entry acc entries).1 (foldl group_entry acc entries).2) as Hall.
  { intros Hnd E. specialize (Hall [] ([], [])). rewrite E in Hall. apply Hall; [done|].
    split; cbn; try by intros; exfalso; eapply not_elem_of_nil. constructor. }
  induction entries as [|[k e] entries IH]; intros seen [r g] Hnd Hgr; cbn [foldl]; [by rewrite app_nil_r|].
  replace (seen ++ (k, e) :: entries) with ((seen ++ [(k, e)]) ++ entries) by by rewrite <-app_assoc.
  apply IH; [by rewrite <-app_assoc|]. apply group_entry_grouped; [|done].
  rewrite fmap_app, NoDup_app in Hnd. destruct Hnd as (_ & Hd & _). intros Hin. apply (Hd k Hin). by left.
Qed.

(** A processed group is covered by entries under its own keys. *)
Definition group_covered (result : list (task_key * sink_entry)) (j : Z) (l : list (sink_entry * string)) : Prop :=
  ∀ e n, (e, n) ∈ l → ∃ k c, (k, c) ∈ result ∧ covers (identity c) (identity e) ∧ key_job k = j ∧ (k = GlobalKey j ∨ c = e ∧ k = se_task_key e).

Lemma combine_group_covered b job result j l result' :
  combine_group b job result (j, l) = Ok result' →
  (∀ e n, (e, n) ∈ l → key_job (se_task_key e) = j ∧ se_checkpoint_id e = b) → group_covered result' j l.
Proof.
  intros Hc Hl e n Hin. destruct l as [|[e0 n0] [|x l]]; cbn in Hc.
  - by apply not_elem_of_nil in Hin.
  - apply list_elem_of_singleton in Hin as [= -> ->]. injection Hc as <-. exists (se_task_key e0), e0.
    split_and!; [apply dict_set_In|by left|by eapply Hl; left|by right].
  - case_match; [done|]. case_match; [done|]. apply bind_Ok_inv in Hc as (c & Hc1 & Hc). apply bind_Ok_inv in Hc as (ce & Hc2 & Hc).
    injection Hc as <-. unfold SinkCommittableCheckpointEntry in Hc2.
    destruct (b <? 0); [done|]. destruct (blank _); [done|]. injection Hc2 as <-.
    eexists (GlobalKey j), _. split_and!; [apply dict_set_In| |done|by left]. right. destruct (Hl e n Hin) as [Hj Hb].
    eexists _, _, _, c, (se_committable e). split_and!; [exact Hc1| |done|unfold identity; cbn; by rewrite Hj, Hb].
    apply (list_elem_of_fmap_2 (λ x : sink_entry * string, se_committable x.1) _ (e, n) Hin).
Qed.

(** The keys a group writes. *)
Lemma combine_group_other b job result j l result' k c :
  combine_group b job result (j, l) = Ok result' → (k, c) ∈ result →
  k ≠ GlobalKey j → (∀ e n, (e, n) ∈ l → k ≠ se_task_key e) → (k, c) ∈ result'.
Proof.
  intros Hc Hin Hg Hl. destruct l as [|[e0 n0] [|x l]]; cbn in Hc.
  - by injection Hc as <-.
  - injection Hc as <-. apply dict_set_other; [|done]. eapply Hl. by left.
  - case_match; [done|]. case_match; [done|]. apply bind_Ok_inv in Hc as (c' & _ & Hc). apply bind_Ok_inv in Hc as (ce & _ & Hc).
    injection Hc as <-. by apply dict_set_other.
Qed.

Lemma combine_groups_covered b job entries groups2 groups1 result result' :
  writer_entries b entries → grouped entries result (groups1 ++ groups2) →
  ∀ r, (∀ k e, (k, e) ∈ result → (k, e) ∈ r) → (∀ j l, (j, l) ∈ groups1 → group_covered r j l) →
  foldM (combine_group b job) r groups2 = Ok result' →
  (∀ k e, (k, e) ∈ result → (k, e) ∈ result') ∧ (∀ j l, (j, l) ∈ groups1 ++ groups2 → group_covered result' j l).
Proof.
  intros Hw Hgr. revert groups1 Hgr. induction groups2 as [|[j l] groups2 IH]; intros groups1 Hgr r Hres Hcov E; cbn [foldM] in E.
  { injection E as <-. rewrite app_nil_r. by split. }
  destruct (combine_group b job r (j, l)) as [r1|] eqn:E1; [|done].
  assert (Hmine : ∀ e n, (e, n) ∈ l → (se_task_key e, e) ∈ entries ∧ key_job (se_task_key e) = j ∧ se_checkpoint_id e = b ∧
     global_commit_namespace (se_committable e) = Some n ∧ ∃ v, se_task_key e = SubtaskKey v).
  { intros e n He. destruct (gr_group _ _ _ Hgr j l e n) as (k & Hk & Hj & Hn); [apply elem_of_app; right; by left|done|].
    destruct (proj2 Hw _ _ Hk) as (-> & Hb & Hv). done. }
  replace (groups1 ++ (j, l) :: groups2) with ((groups1 ++ [(j, l)]) ++ groups2) in * by by rewrite <-app_assoc.
  apply (IH _ Hgr r1); [| |done].
  - intros k e Hin. eapply combine_group_other; [exact E1|by apply Hres| |].
    + apply (gr_result _ _ _ Hgr) in Hin as [Hin _]. destruct (proj2 Hw _ _ Hin) as (_ & _ & v & ->). done.
    + intros e' n He' ->. destruct (Hmine e' n He') as (Hin' & _ & _ & Hn & _). apply (gr_result _ _ _ Hgr) in Hin as [Hin Hnone].
      rewrite (writer_entries_eq _ _ _ _ _ Hw Hin Hin') in Hnone. congruence.
  - intros j' l' [Hin|[= -> ->]%list_elem_of_singleton]%elem_of_app.
    + assert (j' ≠ j) as Hne.
      { pose proof (gr_keys _ _ _ Hgr) as Hnd. rewrite !fmap_app, !NoDup_app in Hnd. destruct Hnd as ((_ & Hd & _) & _ & _).
        intros ->. apply (Hd j); [apply list_elem_of_fmap; by exists (j, l')|by left]. }
      intros e n He. destruct (Hcov j' l' Hin e n He) as (k & c & Hkc & Hc & Hj & Hk). exists k, c. split_and!; try done.
      eapply combine_group_other; [exact E1|done|intros ->; cbn in Hj; done|].
      intros e' n' He' ->. destruct (Hmine e' n' He') as (_ & Hj' & _). congruence.
    + eapply combine_group_covered; [exact E1|]. intros e n He. destruct (Hmine e n He) as (_ & ? & ? & _). done.
Qed.

Theorem coalesce_covers b job entries result k e :
  coalesce_sink_committables entries b job = Ok result → writer_entries b entries → (k, e) ∈ entries →
  ∃ k' c, (k', c) ∈ result ∧ covers (identity c) (identity e).
Proof.
  unfold coalesce_sink_committables. intros E Hw Hin. destruct (length entries <? 2)%nat.
  { injection E as <-. exists k, e. split; [done|by left]. }
  destruct (foldl group_entry ([], []) entries) as [r groups] eqn:Eg.
  pose proof (grouped_all _ _ _ (proj1 Hw) Eg) as Hgr.
  destruct (combine_groups_covered b job entries groups [] r result Hw Hgr r) as [Hres Hcov]; [done|by intros ? ? ?%not_elem_of_nil|done|].
  pose proof (gr_seen _ _ _ Hgr k e Hin) as Hs. destruct (global_commit_namespace (se_committable e)) as [n|].
  - destruct Hs as (l & Hl & He). destruct (Hcov _ _ Hl e n He) as (k' & c & ? & ? & _). by exists k', c.
  - exists k, e. split; [by apply Hres|by left].
Qed.
End transactions.

Arguments sink_entry : clear implicits.
Arguments mkSinkEntry {C}.
Arguments se_task_key {C}.
Arguments se_checkpoint_id {C}.
Arguments se_committable {C}.

(** [SourceCheckpointEntry]. *)
Record source_entry (St : Type) := mkSourceEntry { so_task_key : task_key; so_checkpoint_id : Z; so_state : St }.
Arguments mkSourceEntry {St}.
Arguments so_task_key {St}.
Arguments so_checkpoint_id {St}.
Arguments so_state {St}.
