(* ===== verification/Coordinator.v ===== *)
(** * The checkpoint coordinator

    Models [src/ray/klein/runtime/coordinator/checkpoint_coordinator.py]: admission of
    checkpoints, acknowledgement and completion, the two-phase commit of sink
    transactions, persistence of the metadata, expiry, and the gate and recovery fence of
    a local rescale.

    The state has the attributes of the class, by their names; checkpoint objects are
    shared by reference, so they live in a store by barrier id.  The coroutines are those
    of [Coroutines]: a request ([request]) is an [await] of something outside the actor
    (storage, tasks, the transactions of a sink), which may succeed, raise or time out;
    fire-and-forget calls of tasks are messages ([sent]).  A timed wait on a lock or a
    polling loop first asks the outside whether its deadline passes ([Timeout]).  Joining
    detached storage threads is a request; metrics, logs and the dashboard are left out. *)
From stdpp Require Import pretty.
From S2P Require Import Prelude Dicts Effects Coroutines Checkpoints.
Open Scope Z_scope.

(** A call of a task that is not awaited. *)
Inductive message :=
  | RequestCheckpoint (barrier : Z) (source : vid)
  | AbortCheckpoint (barrier : Z) (vertex : vid).

(** The options the coordinator reads; times in seconds. *)
Record coordinator_config := mkCoordinatorConfig {
  persistence_interval : Z;
  checkpoint_timeout : Z;
  max_concurrent_checkpoints : Z;
  history_size : nat;
  coordinator_job_id : string
}.

Section state.
(** Sink transactions, source states, checkpoint paths, snapshot references and the
    entries of stored operator state. *)
Context {C St P Ref OE : Type}.

Record checkpoints_state := MkCk {
  generator_ : Z;
  barrier_epoch_floor_ : Z;
  checkpoints_ : gmap Z Checkpoint;
  checkpoint_history_ : list Z;
  inflight_checkpoints_ : list Z;
  active_checkpoint_by_domain_ : gmap string Z;
  completing_checkpoints_ : gset Z;
  finished_sources_ : gset vid;
  pending_checkpoint_releases_ : list (Z * list vid)
}.

Record transactions_state := MkTx {
  inflight_sink_committables_ : list (Z * list (task_key * sink_entry C));
  pending_sink_committables_ : list (task_key * Z * string * sink_entry C);
  durable_sink_committables_ : list (task_key * Z * string * sink_entry C);
  carried_sink_committables_ : list (option string * list (task_key * Z * string * sink_entry C))
}.

Record progress_state := MkPr {
  latest_source_states_ : list (task_key * source_entry St);
  durable_source_states_ : list (task_key * source_entry St);
  notified_source_checkpoint_ids_ : gmap task_key Z;
  released_source_checkpoint_ids_ : gmap task_key Z;
  state_revision_ : Z;
  persisted_state_revision_ : Z;
  metadata_revision_ : Z;
  persisted_high_water_ : Z;
  checkpoint_path_ : option P;
  next_persistence_at_ : Z
}.

Record operators_state := MkOs {
  inflight_operator_states_ : gmap Z (gmap task_key Ref);
  latest_operator_states_ : gmap task_key Ref;
  restored_operator_states_ : gmap task_key OE;
  transient_rescale_states_ : gmap (string * Z) (list Ref);
  superseded_rescale_operations_ : gset (string * Z)
}.

Record rescale_state := MkRs {
  rescale_operation_id_ : option string;
  rescale_recovery_fence_ : option string;
  rescale_recovery_pending_sources_ : gset vid;
  rescale_recovery_pending_sinks_ : gset vid;
  rescale_recovery_required_state_revision_ : option Z;
  coordinated_checkpoint_barrier_id_ : option Z;
  coordinated_checkpoint_registered_sources_ : gset vid
}.

Record actor_state := MkAc {
  execution_graph_ : option ExecutionGraph;
  required_acks_ : gmap vid Z;
  progress_lock_ : bool;
  persistence_lock_ : bool;
  rescale_gate_lock_ : bool;
  opened_ : bool;
  stopping_ : bool;
  clock_reads_ : nat;
  sent_ : list message
}.

Record state := MkState {
  ck : checkpoints_state;
  tx : transactions_state;
  pr : progress_state;
  os : operators_state;
  rs : rescale_state;
  ac : actor_state
}.

Definition generator (s : state) : Z := generator_ (ck s).
Definition barrier_epoch_floor (s : state) : Z := barrier_epoch_floor_ (ck s).
Definition checkpoints (s : state) : gmap Z Checkpoint := checkpoints_ (ck s).
Definition checkpoint_history (s : state) : list Z := checkpoint_history_ (ck s).
Definition inflight_checkpoints (s : state) : list Z := inflight_checkpoints_ (ck s).
Definition active_checkpoint_by_domain (s : state) : gmap string Z := active_checkpoint_by_domain_ (ck s).
Definition completing_checkpoints (s : state) : gset Z := completing_checkpoints_ (ck s).
Definition finished_sources (s : state) : gset vid := finished_sources_ (ck s).
Definition pending_checkpoint_releases (s : state) : list (Z * list vid) := pending_checkpoint_releases_ (ck s).
Definition inflight_sink_committables (s : state) : list (Z * list (task_key * sink_entry C)) := inflight_sink_committables_ (tx s).
Definition pending_sink_committables (s : state) : list (task_key * Z * string * sink_entry C) := pending_sink_committables_ (tx s).
Definition durable_sink_committables (s : state) : list (task_key * Z * string * sink_entry C) := durable_sink_committables_ (tx s).
Definition carried_sink_committables (s : state) : list (option string * list (task_key * Z * string * sink_entry C)) := carried_sink_committables_ (tx s).
Definition latest_source_states (s : state) : list (task_key * source_entry St) := latest_source_states_ (pr s).
Definition durable_source_states (s : state) : list (task_key * source_entry St) := durable_source_states_ (pr s).
Definition notified_source_checkpoint_ids (s : state) : gmap task_key Z := notified_source_checkpoint_ids_ (pr s).
Definition released_source_checkpoint_ids (s : state) : gmap task_key Z := released_source_checkpoint_ids_ (pr s).
Definition state_revision (s : state) : Z := state_revision_ (pr s).
Definition persisted_state_revision (s : state) : Z := persisted_state_revision_ (pr s).
Definition metadata_revision (s : state) : Z := metadata_revision_ (pr s).
Definition persisted_high_water (s : state) : Z := persisted_high_water_ (pr s).
Definition checkpoint_path (s : state) : option P := checkpoint_path_ (pr s).
Definition next_persistence_at (s : state) : Z := next_persistence_at_ (pr s).
Definition inflight_operator_states (s : state) : gmap Z (gmap task_key Ref) := inflight_operator_states_ (os s).
Definition latest_operator_states (s : state) : gmap task_key Ref := latest_operator_states_ (os s).
Definition restored_operator_states (s : state) : gmap task_key OE := restored_operator_states_ (os s).
Definition transient_rescale_states (s : state) : gmap (string * Z) (list Ref) := transient_rescale_states_ (os s).
Definition superseded_rescale_operations (s : state) : gset (string * Z) := superseded_rescale_operations_ (os s).
Definition rescale_operation_id (s : state) : option string := rescale_operation_id_ (rs s).
Definition rescale_recovery_fence (s : state) : option string := rescale_recovery_fence_ (rs s).
Definition rescale_recovery_pending_sources (s : state) : gset vid := rescale_recovery_pending_sources_ (rs s).
Definition rescale_recovery_pending_sinks (s : state) : gset vid := rescale_recovery_pending_sinks_ (rs s).
Definition rescale_recovery_required_state_revision (s : state) : option Z := rescale_recovery_required_state_revision_ (rs s).
Definition coordinated_checkpoint_barrier_id (s : state) : option Z := coordinated_checkpoint_barrier_id_ (rs s).
Definition coordinated_checkpoint_registered_sources (s : state) : gset vid := coordinated_checkpoint_registered_sources_ (rs s).
Definition execution_graph (s : state) : option ExecutionGraph := execution_graph_ (ac s).
Definition required_acks (s : state) : gmap vid Z := required_acks_ (ac s).
Definition progress_lock (s : state) : bool := progress_lock_ (ac s).
Definition persistence_lock (s : state) : bool := persistence_lock_ (ac s).
Definition rescale_gate_lock (s : state) : bool := rescale_gate_lock_ (ac s).
Definition opened (s : state) : bool := opened_ (ac s).
Definition stopping (s : state) : bool := stopping_ (ac s).
Definition clock_reads (s : state) : nat := clock_reads_ (ac s).
Definition sent (s : state) : list message := sent_ (ac s).

Definition map_ck (f : checkpoints_state → checkpoints_state) (s : state) : state := MkState (f (ck s)) (tx s) (pr s) (os s) (rs s) (ac s).
Definition map_tx (f : transactions_state → transactions_state) (s : state) : state := MkState (ck s) (f (tx s)) (pr s) (os s) (rs s) (ac s).
Definition map_pr (f : progress_state → progress_state) (s : state) : state := MkState (ck s) (tx s) (f (pr s)) (os s) (rs s) (ac s).
Definition map_os (f : operators_state → operators_state) (s : state) : state := MkState (ck s) (tx s) (pr s) (f (os s)) (rs s) (ac s).
Definition map_rs (f : rescale_state → rescale_state) (s : state) : state := MkState (ck s) (tx s) (pr s) (os s) (f (rs s)) (ac s).
Definition map_ac (f : actor_state → actor_state) (s : state) : state := MkState (ck s) (tx s) (pr s) (os s) (rs s) (f (ac s)).

Definition set_generator (f : Z → Z) : state → state :=
  map_ck (λ x, MkCk (f (generator_ x)) (barrier_epoch_floor_ x) (checkpoints_ x) (checkpoint_history_ x) (inflight_checkpoints_ x) (active_checkpoint_by_domain_ x) (completing_checkpoints_ x) (finished_sources_ x) (pending_checkpoint_releases_ x)).
Definition set_barrier_epoch_floor (f : Z → Z) : state → state :=
  map_ck (λ x, MkCk (generator_ x) (f (barrier_epoch_floor_ x)) (checkpoints_ x) (checkpoint_history_ x) (inflight_checkpoints_ x) (active_checkpoint_by_domain_ x) (completing_checkpoints_ x) (finished_sources_ x) (pending_checkpoint_releases_ x)).
Definition set_checkpoints (f : (gmap Z Checkpoint) → gmap Z Checkpoint) : state → state :=
  map_ck (λ x, MkCk (generator_ x) (barrier_epoch_floor_ x) (f (checkpoints_ x)) (checkpoint_history_ x) (inflight_checkpoints_ x) (active_checkpoint_by_domain_ x) (completing_checkpoints_ x) (finished_sources_ x) (pending_checkpoint_releases_ x)).
Definition set_checkpoint_history (f : (list Z) → list Z) : state → state :=
  map_ck (λ x, MkCk (generator_ x) (barrier_epoch_floor_ x) (checkpoints_ x) (f (checkpoint_history_ x)) (inflight_checkpoints_ x) (active_checkpoint_by_domain_ x) (completing_checkpoints_ x) (finished_sources_ x) (pending_checkpoint_releases_ x)).
Definition set_inflight_checkpoints (f : (list Z) → list Z) : state → state :=
  map_ck (λ x, MkCk (generator_ x) (barrier_epoch_floor_ x) (checkpoints_ x) (checkpoint_history_ x) (f (inflight_checkpoints_ x)) (active_checkpoint_by_domain_ x) (completing_checkpoints_ x) (finished_sources_ x) (pending_checkpoint_releases_ x)).
Definition set_active_checkpoint_by_domain (f : (gmap string Z) → gmap string Z) : state → state :=
  map_ck (λ x, MkCk (generator_ x) (barrier_epoch_floor_ x) (checkpoints_ x) (checkpoint_history_ x) (inflight_checkpoints_ x) (f (active_checkpoint_by_domain_ x)) (completing_checkpoints_ x) (finished_sources_ x) (pending_checkpoint_releases_ x)).
Definition set_completing_checkpoints (f : (gset Z) → gset Z) : state → state :=
  map_ck (λ x, MkCk (generator_ x) (barrier_epoch_floor_ x) (checkpoints_ x) (checkpoint_history_ x) (inflight_checkpoints_ x) (active_checkpoint_by_domain_ x) (f (completing_checkpoints_ x)) (finished_sources_ x) (pending_checkpoint_releases_ x)).
Definition set_finished_sources (f : (gset vid) → gset vid) : state → state :=
  map_ck (λ x, MkCk (generator_ x) (barrier_epoch_floor_ x) (checkpoints_ x) (checkpoint_history_ x) (inflight_checkpoints_ x) (active_checkpoint_by_domain_ x) (completing_checkpoints_ x) (f (finished_sources_ x)) (pending_checkpoint_releases_ x)).
Definition set_pending_checkpoint_releases (f : (list (Z * list vid)) → list (Z * list vid)) : state → state :=
  map_ck (λ x, MkCk (generator_ x) (barrier_epoch_floor_ x) (checkpoints_ x) (checkpoint_history_ x) (inflight_checkpoints_ x) (active_checkpoint_by_domain_ x) (completing_checkpoints_ x) (finished_sources_ x) (f (pending_checkpoint_releases_ x))).
Definition set_inflight_sink_committables (f : (list (Z * list (task_key * sink_entry C))) → list (Z * list (task_key * sink_entry C))) : state → state :=
  map_tx (λ x, MkTx (f (inflight_sink_committables_ x)) (pending_sink_committables_ x) (durable_sink_committables_ x) (carried_sink_committables_ x)).
Definition set_pending_sink_committables (f : (list (task_key * Z * string * sink_entry C)) → list (task_key * Z * string * sink_entry C)) : state → state :=
  map_tx (λ x, MkTx (inflight_sink_committables_ x) (f (pending_sink_committables_ x)) (durable_sink_committables_ x) (carried_sink_committables_ x)).
Definition set_durable_sink_committables (f : (list (task_key * Z * string * sink_entry C)) → list (task_key * Z * string * sink_entry C)) : state → state :=
  map_tx (λ x, MkTx (inflight_sink_committables_ x) (pending_sink_committables_ x) (f (durable_sink_committables_ x)) (carried_sink_committables_ x)).
Definition set_carried_sink_committables (f : (list (option string * list (task_key * Z * string * sink_entry C))) → list (option string * list (task_key * Z * string * sink_entry C))) : state → state :=
  map_tx (λ x, MkTx (inflight_sink_committables_ x) (pending_sink_committables_ x) (durable_sink_committables_ x) (f (carried_sink_committables_ x))).
Definition set_latest_source_states (f : (list (task_key * source_entry St)) → list (task_key * source_entry St)) : state → state :=
  map_pr (λ x, MkPr (f (latest_source_states_ x)) (durable_source_states_ x) (notified_source_checkpoint_ids_ x) (released_source_checkpoint_ids_ x) (state_revision_ x) (persisted_state_revision_ x) (metadata_revision_ x) (persisted_high_water_ x) (checkpoint_path_ x) (next_persistence_at_ x)).
Definition set_durable_source_states (f : (list (task_key * source_entry St)) → list (task_key * source_entry St)) : state → state :=
  map_pr (λ x, MkPr (latest_source_states_ x) (f (durable_source_states_ x)) (notified_source_checkpoint_ids_ x) (released_source_checkpoint_ids_ x) (state_revision_ x) (persisted_state_revision_ x) (metadata_revision_ x) (persisted_high_water_ x) (checkpoint_path_ x) (next_persistence_at_ x)).
Definition set_notified_source_checkpoint_ids (f : (gmap task_key Z) → gmap task_key Z) : state → state :=
  map_pr (λ x, MkPr (latest_source_states_ x) (durable_source_states_ x) (f (notified_source_checkpoint_ids_ x)) (released_source_checkpoint_ids_ x) (state_revision_ x) (persisted_state_revision_ x) (metadata_revision_ x) (persisted_high_water_ x) (checkpoint_path_ x) (next_persistence_at_ x)).
Definition set_released_source_checkpoint_ids (f : (gmap task_key Z) → gmap task_key Z) : state → state :=
  map_pr (λ x, MkPr (latest_source_states_ x) (durable_source_states_ x) (notified_source_checkpoint_ids_ x) (f (released_source_checkpoint_ids_ x)) (state_revision_ x) (persisted_state_revision_ x) (metadata_revision_ x) (persisted_high_water_ x) (checkpoint_path_ x) (next_persistence_at_ x)).
Definition set_state_revision (f : Z → Z) : state → state :=
  map_pr (λ x, MkPr (latest_source_states_ x) (durable_source_states_ x) (notified_source_checkpoint_ids_ x) (released_source_checkpoint_ids_ x) (f (state_revision_ x)) (persisted_state_revision_ x) (metadata_revision_ x) (persisted_high_water_ x) (checkpoint_path_ x) (next_persistence_at_ x)).
Definition set_persisted_state_revision (f : Z → Z) : state → state :=
  map_pr (λ x, MkPr (latest_source_states_ x) (durable_source_states_ x) (notified_source_checkpoint_ids_ x) (released_source_checkpoint_ids_ x) (state_revision_ x) (f (persisted_state_revision_ x)) (metadata_revision_ x) (persisted_high_water_ x) (checkpoint_path_ x) (next_persistence_at_ x)).
Definition set_metadata_revision (f : Z → Z) : state → state :=
  map_pr (λ x, MkPr (latest_source_states_ x) (durable_source_states_ x) (notified_source_checkpoint_ids_ x) (released_source_checkpoint_ids_ x) (state_revision_ x) (persisted_state_revision_ x) (f (metadata_revision_ x)) (persisted_high_water_ x) (checkpoint_path_ x) (next_persistence_at_ x)).
Definition set_persisted_high_water (f : Z → Z) : state → state :=
  map_pr (λ x, MkPr (latest_source_states_ x) (durable_source_states_ x) (notified_source_checkpoint_ids_ x) (released_source_checkpoint_ids_ x) (state_revision_ x) (persisted_state_revision_ x) (metadata_revision_ x) (f (persisted_high_water_ x)) (checkpoint_path_ x) (next_persistence_at_ x)).
Definition set_checkpoint_path (f : (option P) → option P) : state → state :=
  map_pr (λ x, MkPr (latest_source_states_ x) (durable_source_states_ x) (notified_source_checkpoint_ids_ x) (released_source_checkpoint_ids_ x) (state_revision_ x) (persisted_state_revision_ x) (metadata_revision_ x) (persisted_high_water_ x) (f (checkpoint_path_ x)) (next_persistence_at_ x)).
Definition set_next_persistence_at (f : Z → Z) : state → state :=
  map_pr (λ x, MkPr (latest_source_states_ x) (durable_source_states_ x) (notified_source_checkpoint_ids_ x) (released_source_checkpoint_ids_ x) (state_revision_ x) (persisted_state_revision_ x) (metadata_revision_ x) (persisted_high_water_ x) (checkpoint_path_ x) (f (next_persistence_at_ x))).
Definition set_inflight_operator_states (f : (gmap Z (gmap task_key Ref)) → gmap Z (gmap task_key Ref)) : state → state :=
  map_os (λ x, MkOs (f (inflight_operator_states_ x)) (latest_operator_states_ x) (restored_operator_states_ x) (transient_rescale_states_ x) (superseded_rescale_operations_ x)).
Definition set_latest_operator_states (f : (gmap task_key Ref) → gmap task_key Ref) : state → state :=
  map_os (λ x, MkOs (inflight_operator_states_ x) (f (latest_operator_states_ x)) (restored_operator_states_ x) (transient_rescale_states_ x) (superseded_rescale_operations_ x)).
Definition set_restored_operator_states (f : (gmap task_key OE) → gmap task_key OE) : state → state :=
  map_os (λ x, MkOs (inflight_operator_states_ x) (latest_operator_states_ x) (f (restored_operator_states_ x)) (transient_rescale_states_ x) (superseded_rescale_operations_ x)).
Definition set_transient_rescale_states (f : (gmap (string * Z) (list Ref)) → gmap (string * Z) (list Ref)) : state → state :=
  map_os (λ x, MkOs (inflight_operator_states_ x) (latest_operator_states_ x) (restored_operator_states_ x) (f (transient_rescale_states_ x)) (superseded_rescale_operations_ x)).
Definition set_superseded_rescale_operations (f : (gset (string * Z)) → gset (string * Z)) : state → state :=
  map_os (λ x, MkOs (inflight_operator_states_ x) (latest_operator_states_ x) (restored_operator_states_ x) (transient_rescale_states_ x) (f (superseded_rescale_operations_ x))).
Definition set_rescale_operation_id (f : (option string) → option string) : state → state :=
  map_rs (λ x, MkRs (f (rescale_operation_id_ x)) (rescale_recovery_fence_ x) (rescale_recovery_pending_sources_ x) (rescale_recovery_pending_sinks_ x) (rescale_recovery_required_state_revision_ x) (coordinated_checkpoint_barrier_id_ x) (coordinated_checkpoint_registered_sources_ x)).
Definition set_rescale_recovery_fence (f : (option string) → option string) : state → state :=
  map_rs (λ x, MkRs (rescale_operation_id_ x) (f (rescale_recovery_fence_ x)) (rescale_recovery_pending_sources_ x) (rescale_recovery_pending_sinks_ x) (rescale_recovery_required_state_revision_ x) (coordinated_checkpoint_barrier_id_ x) (coordinated_checkpoint_registered_sources_ x)).
Definition set_rescale_recovery_pending_sources (f : (gset vid) → gset vid) : state → state :=
  map_rs (λ x, MkRs (rescale_operation_id_ x) (rescale_recovery_fence_ x) (f (rescale_recovery_pending_sources_ x)) (rescale_recovery_pending_sinks_ x) (rescale_recovery_required_state_revision_ x) (coordinated_checkpoint_barrier_id_ x) (coordinated_checkpoint_registered_sources_ x)).
Definition set_rescale_recovery_pending_sinks (f : (gset vid) → gset vid) : state → state :=
  map_rs (λ x, MkRs (rescale_operation_id_ x) (rescale_recovery_fence_ x) (rescale_recovery_pending_sources_ x) (f (rescale_recovery_pending_sinks_ x)) (rescale_recovery_required_state_revision_ x) (coordinated_checkpoint_barrier_id_ x) (coordinated_checkpoint_registered_sources_ x)).
Definition set_rescale_recovery_required_state_revision (f : (option Z) → option Z) : state → state :=
  map_rs (λ x, MkRs (rescale_operation_id_ x) (rescale_recovery_fence_ x) (rescale_recovery_pending_sources_ x) (rescale_recovery_pending_sinks_ x) (f (rescale_recovery_required_state_revision_ x)) (coordinated_checkpoint_barrier_id_ x) (coordinated_checkpoint_registered_sources_ x)).
Definition set_coordinated_checkpoint_barrier_id (f : (option Z) → option Z) : state → state :=
  map_rs (λ x, MkRs (rescale_operation_id_ x) (rescale_recovery_fence_ x) (rescale_recovery_pending_sources_ x) (rescale_recovery_pending_sinks_ x) (rescale_recovery_required_state_revision_ x) (f (coordinated_checkpoint_barrier_id_ x)) (coordinated_checkpoint_registered_sources_ x)).
Definition set_coordinated_checkpoint_registered_sources (f : (gset vid) → gset vid) : state → state :=
  map_rs (λ x, MkRs (rescale_operation_id_ x) (rescale_recovery_fence_ x) (rescale_recovery_pending_sources_ x) (rescale_recovery_pending_sinks_ x) (rescale_recovery_required_state_revision_ x) (coordinated_checkpoint_barrier_id_ x) (f (coordinated_checkpoint_registered_sources_ x))).
Definition set_execution_graph (f : (option ExecutionGraph) → option ExecutionGraph) : state → state :=
  map_ac (λ x, MkAc (f (execution_graph_ x)) (required_acks_ x) (progress_lock_ x) (persistence_lock_ x) (rescale_gate_lock_ x) (opened_ x) (stopping_ x) (clock_reads_ x) (sent_ x)).
Definition set_required_acks (f : (gmap vid Z) → gmap vid Z) : state → state :=
  map_ac (λ x, MkAc (execution_graph_ x) (f (required_acks_ x)) (progress_lock_ x) (persistence_lock_ x) (rescale_gate_lock_ x) (opened_ x) (stopping_ x) (clock_reads_ x) (sent_ x)).
Definition set_progress_lock (f : bool → bool) : state → state :=
  map_ac (λ x, MkAc (execution_graph_ x) (required_acks_ x) (f (progress_lock_ x)) (persistence_lock_ x) (rescale_gate_lock_ x) (opened_ x) (stopping_ x) (clock_reads_ x) (sent_ x)).
Definition set_persistence_lock (f : bool → bool) : state → state :=
  map_ac (λ x, MkAc (execution_graph_ x) (required_acks_ x) (progress_lock_ x) (f (persistence_lock_ x)) (rescale_gate_lock_ x) (opened_ x) (stopping_ x) (clock_reads_ x) (sent_ x)).
Definition set_rescale_gate_lock (f : bool → bool) : state → state :=
  map_ac (λ x, MkAc (execution_graph_ x) (required_acks_ x) (progress_lock_ x) (persistence_lock_ x) (f (rescale_gate_lock_ x)) (opened_ x) (stopping_ x) (clock_reads_ x) (sent_ x)).
Definition set_opened (f : bool → bool) : state → state :=
  map_ac (λ x, MkAc (execution_graph_ x) (required_acks_ x) (progress_lock_ x) (persistence_lock_ x) (rescale_gate_lock_ x) (f (opened_ x)) (stopping_ x) (clock_reads_ x) (sent_ x)).
Definition set_stopping (f : bool → bool) : state → state :=
  map_ac (λ x, MkAc (execution_graph_ x) (required_acks_ x) (progress_lock_ x) (persistence_lock_ x) (rescale_gate_lock_ x) (opened_ x) (f (stopping_ x)) (clock_reads_ x) (sent_ x)).
Definition set_clock_reads (f : nat → nat) : state → state :=
  map_ac (λ x, MkAc (execution_graph_ x) (required_acks_ x) (progress_lock_ x) (persistence_lock_ x) (rescale_gate_lock_ x) (opened_ x) (stopping_ x) (f (clock_reads_ x)) (sent_ x)).
Definition set_sent (f : (list message) → list message) : state → state :=
  map_ac (λ x, MkAc (execution_graph_ x) (required_acks_ x) (progress_lock_ x) (persistence_lock_ x) (rescale_gate_lock_ x) (opened_ x) (stopping_ x) (clock_reads_ x) (f (sent_ x))).

(** ** Requests *)

(** The metadata of one revision. *)
Record metadata := mkMetadata {
  m_source_states : list (source_entry St);
  m_revision : Z;
  m_high_water : Z;
  m_operator_states : list (task_key * bytes);
  m_sink_committables : list (sink_entry C)
}.

Inductive request :=
  | LatestCheckpoint
  | RestoreCheckpoint (path : option P)
  | RestoreOperatorEntries (path : option P)
  | RestoreSinkEntries (path : option P)
  | Sleep
  | Timeout
  | JoinCheckpointIO
  | WorkerHealthy
  | ReleaseCheckpoint (barrier : Z) (sources : list vid)
  | CollectSourceStates (barrier : Z) (by_state : bool) (sources : list vid)
  | AwaitAborts (barrier : Z) (vertices : list vid)
  | CommitTransaction (e : sink_entry C)
  | AbortTransaction (e : sink_entry C)
  | MaterializeState (r : Ref)
  | ReadOperatorState (path : P) (e : OE)
  | WriteCheckpoint (m : metadata)
  | CleanupCheckpoints
  | NotifyPersisted (source : vid) (checkpoint : Z)
  | Repartition (snapshots : list Ref) (target : Z).

Definition answer (q : request) : Type :=
  match q with
  | LatestCheckpoint => option P
  | RestoreCheckpoint _ => Z * list (source_entry St) * Z
  | RestoreOperatorEntries _ => gmap task_key OE
  | RestoreSinkEntries _ => list (sink_entry C)
  | Timeout | WorkerHealthy => bool
  | ReleaseCheckpoint _ _ => (vid → bool) * bool
  | CollectSourceStates _ _ _ => vid → outcome (bool * St)
  | MaterializeState _ | ReadOperatorState _ _ => bytes
  | WriteCheckpoint _ => P
  | NotifyPersisted _ _ => bool
  | Repartition _ _ => list bytes
  | Sleep | JoinCheckpointIO | AwaitAborts _ _ | CommitTransaction _ | AbortTransaction _ | CleanupCheckpoints => unit
  end.
End state.

Arguments state : clear implicits.
Arguments metadata : clear implicits.
Arguments request : clear implicits.

Section coordinator.
Context {C St P Ref OE : Type} (transaction_id : C → string) (global_commit_namespace : C → option string)
  (combine_committables : C → list C → string → outcome C) (sha256_hexdigest : string → string)
  (checksum : Ref → string) (cache_partition : bytes → Ref) (wall monotonic : nat → Z) (cfg : coordinator_config).

Abbreviation st := (state C St P Ref OE).
Abbreviation act := (exec st).
Abbreviation co := (coro st (answer (C := C) (St := St) (P := P) (Ref := Ref) (OE := OE))).
Abbreviation identity := (identity transaction_id).

(** [await] of a request. *)
Definition ask (q : request C St P Ref OE) : co (answer q) := await q.

(** [int(time.time() * 1000)] and [time.monotonic()] in microseconds. *)
Definition now_ms : act Z := λ s, (Ok (wall (clock_reads s)), set_clock_reads S s).
Definition now_monotonic : act Z := λ s, (Ok (monotonic (clock_reads s)), set_clock_reads S s).

Definition send (m : message) : act unit := modify (set_sent (λ l, l ++ [m])).

(** The checkpoint object a barrier id refers to. *)
Definition checkpoint_of (b : Z) : act Checkpoint := λ s, (of_option KeyError (checkpoints s !! b), s).

Definition update_checkpoint (b : Z) (f : Checkpoint → Checkpoint) : act unit := modify (set_checkpoints (alter f b)).

Definition update_checkpoint_failed (b : Z) : act unit := now ← now_ms; update_checkpoint b (mark_failed now).

(** [self._inflight_checkpoints.pop(barrier_id, None)]. *)
Definition pop_inflight (b : Z) : act unit := modify (set_inflight_checkpoints (filter (λ x, x ≠ b))).

Definition get_graph : act ExecutionGraph := λ s, (of_option AttributeError (execution_graph s), s).

(** [_find_execution_vertex]: the vertex, if it has a task. *)
Definition has_task (s : st) (v : vid) : bool :=
  match execution_graph s with
  | Some g => match find_execution_vertex g v with Some x => ev_stream_task x | None => false end
  | None => false
  end.

Definition checkpoint_domain_for_source (s : st) (v : vid) : option CheckpointDomain :=
  match execution_graph s with Some g => find_checkpoint_domain g v | None => None end.

(** ** Admission *)

Definition release_domain_slot (c : Checkpoint) : act unit :=
  modify (λ s, match domain_id c with
               | Some d => if decide (active_checkpoint_by_domain s !! d = Some (barrier_id c))
                           then set_active_checkpoint_by_domain (delete d) s else s
               | None => s
               end).

Definition request_domain_sources (c : Checkpoint) (requester : vid) : act unit :=
  exec_each (λ source,
    if decide (source = requester) then mret ()
    else
      ready ← gets (λ s, has_task s source);
      if ready : bool then send (RequestCheckpoint (barrier_id c) source) else mret ()) (trigger_sources c).

(** The last [n] items of a [deque(maxlen=n)]. *)
Definition keep_last {A} (n : nat) (l : list A) : list A := drop (length l - n) l.

Definition track_checkpoint (c : Checkpoint) : act unit :=
  _ ← modify (set_checkpoint_history (λ l, keep_last (history_size cfg) (l ++ [barrier_id c])));
  _ ← modify (set_inflight_checkpoints (λ l, l ++ [barrier_id c]));
  now ← now_ms;
  modify (set_checkpoints (insert (barrier_id c) (mark_in_progress now c))).

Definition activate_checkpoint_domain (c : Checkpoint) : act unit :=
  match domain_id c with
  | Some d => modify (set_active_checkpoint_by_domain (insert d (barrier_id c)))
  | None => mret ()
  end.

(** [next(self._barrier_id_gen)]. *)
Definition next_barrier : act Z := λ s, let b := generator s + 1 in (Ok b, set_generator (λ _, b) s).

Definition source_key (v : vid) : task_key := SubtaskKey v.

Definition register_rescale_stabilization_checkpoint (v : vid) : act CheckpointRegistration :=
  expected ← gets rescale_recovery_pending_sources;
  if negb (bool_decide (v ∈ expected)) then mret skip
  else
    s ← gets id;
    let barrier := coordinated_checkpoint_barrier_id s in
    let releasing := match barrier with Some b => bool_decide (b ∈ (pending_checkpoint_releases s).*1) | None => false end in
    if releasing then mret skip
    else
      let gone := match barrier with
                  | Some b => negb (bool_decide (b ∈ inflight_checkpoints s)) && negb (bool_decide (b ∈ completing_checkpoints s))
                  | None => false
                  end in
      let durable := match rescale_recovery_required_state_revision s with
                     | Some revision => revision <=? persisted_state_revision s
                     | None => false
                     end in
      if gone && durable then mret skip
      else
        _ ← (if gone then
               _ ← modify (set_coordinated_checkpoint_barrier_id (λ _, None));
               modify (set_coordinated_checkpoint_registered_sources (λ _, ∅))
             else mret ());
        let barrier := if gone then None else barrier in
        registered ← gets coordinated_checkpoint_registered_sources;
        if bool_decide (v ∈ registered) then mret skip
        else
          match barrier with
          | Some b =>
              _ ← modify (set_coordinated_checkpoint_registered_sources (λ x, {[v]} ∪ x));
              mret (success b true)
          | None =>
              match execution_graph s with
              | None => mret skip
              | Some g =>
                  let pending := if decide (rescale_recovery_pending_sinks s = ∅) then list_to_set (eg_sinks g)
                                 else rescale_recovery_pending_sinks s in
                  if decide (pending = ∅) then mret skip
                  else
                    b ← next_barrier;
                    let sources := sort_vertices expected in
                    let committers := sort_vertices pending in
                    let domains := foldl (λ (ds : list (string * CheckpointDomain)) source,
                      match find_checkpoint_domain g source with Some d => dict_set (dom_id d) d ds | None => ds end) [] sources in
                    let domain := match domains with [(d, _)] => Some d | _ => None end in
                    let c := Checkpoint_init b (Z.of_nat (length committers)) sources true domain committers in
                    _ ← track_checkpoint c;
                    _ ← activate_checkpoint_domain c;
                    _ ← modify (set_coordinated_checkpoint_barrier_id (λ _, Some b));
                    _ ← modify (set_coordinated_checkpoint_registered_sources (λ x, {[v]} ∪ x));
                    mret (success b true)
              end
          end.

(** The domain of a source that is in none: a name of its own. *)
Definition legacy_domain (v : vid) : string := ("legacy-source-" ++ pretty (job_vertex_id v) ++ "-" ++ pretty (vertex_index v))%string.

(** The cut a source asks for: its domain, sources, committers and the acknowledgements
    to wait for, or [None] when the source is finished. *)
Definition requested_cut (s : st) (v : vid) : option (string * list vid * list vid * Z) :=
  match execution_graph s, checkpoint_domain_for_source s v with
  | Some g, Some d =>
      let sources := filter (λ x, x ∉ finished_sources s) (dom_source_vertex_ids d) in
      if bool_decide (v ∈ sources) then
        let committers := reachable_domain_sinks g d sources in
        Some (dom_id d, sources, committers, Z.of_nat (length committers))
      else None
  | _, _ => Some (legacy_domain v, [v], [], default 0 (required_acks s !! v))
  end.

Definition register_checkpoint (v : vid) (force : bool) : act CheckpointRegistration :=
  s ← gets id;
  match rescale_operation_id s, rescale_recovery_fence s with
  | Some _, _ => mret skip
  | None, Some _ => register_rescale_stabilization_checkpoint v
  | None, None =>
      match requested_cut s v with
      | None => mret skip
      | Some (domain, sources, committers, required) =>
          match active_checkpoint_by_domain s !! domain with
          | Some active =>
              if bool_decide (active ∈ inflight_checkpoints s) then
                c ← checkpoint_of active;
                if bool_decide (v ∈ started_sources c) then mret skip else mret (success active false)
              else mret skip
          | None =>
              if required <=? 0 then mret skip
              else if negb force && (max_concurrent_checkpoints cfg <=? Z.of_nat (length (inflight_checkpoints s))) then mret skip
              else
                b ← next_barrier;
                g ← get_graph;
                _ ← of_outcome (execution_vertex g v);
                let c := Checkpoint_init b required sources false (Some domain) committers in
                _ ← track_checkpoint c;
                _ ← modify (set_active_checkpoint_by_domain (insert domain b));
                _ ← request_domain_sources c v;
                mret (success b false)
          end
      end
  end.

Definition source_checkpoint_started (b : Z) (v : vid) (is_eof : bool) : act bool :=
  inflight ← gets inflight_checkpoints;
  if negb (bool_decide (b ∈ inflight)) then mret false
  else
    c ← checkpoint_of b;
    if is_terminal (status c) then mret false
    else
      let '(joined, c') := mark_source_started v is_eof c in
      _ ← update_checkpoint b (λ _, c');
      mret joined.

(** ** Sink transactions *)

(** [d.setdefault(k, default)] for a dictionary of dictionaries. *)
Definition dict_setdefault {K A} `{EqDecision K} (k : K) (a : A) (l : list (K * A)) : list (K * A) :=
  match dict_get k l with Some _ => l | None => dict_set k a l end.

Definition register_operator_state (b : Z) (v : vid) (reference : Ref) : act bool :=
  inflight ← gets inflight_checkpoints;
  if negb (bool_decide (b ∈ inflight)) then mret false
  else
    _ ← modify (set_inflight_operator_states (partial_alter (λ o, Some (default ∅ o)) b));
    states ← gets (λ s, default ∅ (inflight_operator_states s !! b));
    match (states : gmap task_key Ref) !! SubtaskKey v with
    | Some existing => if bool_decide (checksum existing = checksum reference) then mret () else throw ValueError
    | None => mret ()
    end ≫= λ _,
    _ ← modify (set_inflight_operator_states (alter (λ m, <[SubtaskKey v := reference]> (m : gmap task_key Ref)) b));
    mret true.

Definition register_sink_committable (b : Z) (v : vid) (committable : C) : act bool :=
  inflight ← gets inflight_checkpoints;
  if negb (bool_decide (b ∈ inflight)) then mret false
  else
    c ← checkpoint_of b;
    if is_terminal (status c) then mret false
    else if foreign_committer c v then mret false
    else
      entry ← of_outcome (SinkCommittableCheckpointEntry transaction_id (SubtaskKey v) b committable);
      _ ← modify (set_inflight_sink_committables (dict_setdefault b []));
      entries ← gets (λ s, default [] (dict_get b (inflight_sink_committables s)));
      match dict_get (SubtaskKey v) entries with
      | Some existing =>
          if bool_decide (transaction_id (se_committable existing) = transaction_id committable) then mret () else throw ValueError
      | None => mret ()
      end ≫= λ _,
      _ ← modify (set_inflight_sink_committables (dict_set b (dict_set (SubtaskKey v) entry entries)));
      mret true.

(** The entries of a checkpoint, by their identity. *)
Definition by_identity (entries : list (sink_entry C)) : list (task_key * Z * string * sink_entry C) :=
  dict_update [] ((λ e, (identity e, e)) <$> entries).

Definition carry_inflight_sink_committables (b : Z) : act unit :=
  entries ← gets (λ s, default [] (dict_get b (inflight_sink_committables s)));
  _ ← modify (set_inflight_sink_committables (dict_pop b));
  if bool_decide ((entries : list (task_key * sink_entry C)) = []) then mret ()
  else
    c ← checkpoint_of b;
    modify (set_carried_sink_committables (λ carried,
      dict_set (domain_id c) (dict_update (default [] (dict_get (domain_id c) carried)) ((λ e, (identity e, e)) <$> entries.*2)) carried)).

(** [_carried_domains_for_checkpoint]. *)
Definition carried_domains_for_checkpoint (graph : option ExecutionGraph) (c : Checkpoint) : list (option string) :=
  if negb (coordinated c) then [domain_id c]
  else
    match graph with
    | None => match domain_id c with None => [None] | Some d => [None; Some d] end
    | Some g =>
        let found := omap (λ source, dom_id <$> find_checkpoint_domain g source) (trigger_sources c) in
        None :: (Some <$> merge_sort string_le (elements (list_to_set (found ++ option_list (domain_id c)) : gset string)))
    end.

(** [_coalesce_carried_sink_committables]: every failed epoch keeps its own boundary. *)
Definition group_by_checkpoint (groups : list (Z * list (task_key * sink_entry C))) (e : sink_entry C)
    : outcome (list (Z * list (task_key * sink_entry C))) :=
  let entries := default [] (dict_get (se_checkpoint_id e) groups) in
  match dict_get (se_task_key e) entries with
  | Some existing =>
      if bool_decide (transaction_id (se_committable existing) = transaction_id (se_committable e))
      then Ok (dict_set (se_checkpoint_id e) (dict_set (se_task_key e) e entries) groups) else Err ValueError
  | None => Ok (dict_set (se_checkpoint_id e) (dict_set (se_task_key e) e entries) groups)
  end.

Definition coalesce (b : Z) (entries : list (task_key * sink_entry C)) : outcome (list (task_key * sink_entry C)) :=
  coalesce_sink_committables transaction_id global_commit_namespace combine_committables sha256_hexdigest entries b
    (coordinator_job_id cfg).

Definition id_le {A} (x y : Z * A) : Prop := x.1 <= y.1.
#[local] Instance id_le_dec {A} (x y : Z * A) : Decision (id_le x y).
Proof. unfold id_le. apply _. Defined.

Definition coalesce_carried_sink_committables (entries : list (sink_entry C)) : outcome (list (task_key * Z * string * sink_entry C)) :=
  groups ← foldM group_by_checkpoint [] entries;
  foldM (λ coalesced group, l ← coalesce group.1 group.2;
           Ok (dict_update coalesced ((λ e, (identity e, e)) <$> (l : list (task_key * sink_entry C)).*2)))
    [] (merge_sort id_le (groups : list (Z * list (task_key * sink_entry C)))).

(** [_remap_carried_sink_domains]. *)
Definition remap_carried_entry (g : ExecutionGraph) (previous : option string)
    (remapped : list (option string * list (task_key * Z * string * sink_entry C))) (item : task_key * Z * string * sink_entry C) :=
  let domain := match se_task_key item.2 with
                | SubtaskKey v => dom_id <$> find_checkpoint_domain g v
                | GlobalKey _ => previous
                end in
  dict_set domain (dict_set item.1 item.2 (default [] (dict_get domain remapped))) remapped.

Definition remap_carried_sink_domains (g : ExecutionGraph) : act unit :=
  modify (set_carried_sink_committables (λ carried,
    foldl (λ remapped bucket, foldl (remap_carried_entry g bucket.1) remapped bucket.2) [] carried)).

Definition abort_inflight_sink_committables (b : Z) : co unit :=
  entries ← sync (l ← gets (λ s, default [] (dict_get b (inflight_sink_committables s)));
                  _ ← modify (set_inflight_sink_committables (dict_pop b)); mret l);
  co_each (λ e, _ ← co_try (ask (AbortTransaction e)); mret ()) (entries : list (task_key * sink_entry C)).*2.

Definition abort_carried_sink_committables : co unit :=
  carried ← sync (l ← gets carried_sink_committables; _ ← modify (set_carried_sink_committables (λ _, [])); mret l);
  co_each (λ e, _ ← co_try (ask (AbortTransaction e)); mret ())
    (mjoin ((λ bucket, bucket.2.*2) <$> (carried : list (option string * list (task_key * Z * string * sink_entry C))))).

(** [_commit_durable_sink_committables]: a transaction is published only from here. *)
Definition commit_one (strict : bool) (all_committed : bool) (item : task_key * Z * string * sink_entry C) : co bool :=
  r ← co_try (ask (CommitTransaction item.2));
  match r with
  | Err _ => if strict then raises CheckpointCommitError else mret false
  | Ok _ => sync (
      _ ← modify (set_durable_sink_committables (dict_pop item.1));
      pending ← gets pending_sink_committables;
      _ ← (match dict_get item.1 pending with
           | Some _ => _ ← modify (set_pending_sink_committables (dict_pop item.1)); modify (set_state_revision (λ n, n + 1))
           | None => mret ()
           end);
      mret all_committed)
  end.

Definition commit_durable_sink_committables (strict : bool) : co bool :=
  items ← sync (gets durable_sink_committables);
  co_fold (commit_one strict) true items.

(** ** Failure of a checkpoint *)

(** Whether every task of an epoch released what it held for it. *)
Definition released (s : st) (sources : list vid) (answer : (vid → bool) * bool) : bool :=
  match execution_graph s with
  | None => true
  | Some g =>
      forallb (λ v, match execution_vertex g v with Ok x => negb (ev_stream_task x) || answer.1 v | Err _ => false end) sources &&
      (negb (existsb ev_stream_task (eg_vertices g)) || answer.2)
  end.

Definition attempt_checkpoint_release (b : Z) (sources : list vid) : co bool :=
  s ← sync (gets id);
  r ← co_try (ask (ReleaseCheckpoint b sources));
  match r with Ok answer => mret (released s sources answer) | Err _ => mret false end.

Definition finish_checkpoint_release (b : Z) : act unit :=
  _ ← modify (set_pending_checkpoint_releases (dict_pop b));
  barrier ← gets coordinated_checkpoint_barrier_id;
  if bool_decide (barrier = Some b) then
    _ ← modify (set_coordinated_checkpoint_barrier_id (λ _, None));
    modify (set_coordinated_checkpoint_registered_sources (λ _, ∅))
  else mret ().

Definition release_checkpoint_sources (b : Z) (sources : list vid) : co unit :=
  _ ← sync (modify (set_pending_checkpoint_releases (dict_set b sources)));
  ok ← attempt_checkpoint_release b sources;
  if ok : bool then sync (finish_checkpoint_release b) else mret ().

Definition retry_pending_checkpoint_releases : co unit :=
  pending ← sync (gets pending_checkpoint_releases);
  co_each (λ item, ok ← attempt_checkpoint_release item.1 item.2;
                   if ok : bool then sync (finish_checkpoint_release item.1) else mret ()) (pending : list (Z * list vid)).

(** The vertices whose input gates a failed epoch may hold. *)
Definition gated_vertices (s : st) (c : Checkpoint) : list vid :=
  let found := match domain_id c, execution_graph s with
               | Some d, Some g => match find_first (λ x, bool_decide (dom_id x = d)) (eg_domains g) with
                                   | Some x => dom_vertex_ids x
                                   | None => []
                                   end
               | _, _ => []
               end in
  match found with [] => remove_dups (trigger_sources c ++ required_committers c) | vs => vs end.

Definition abort_checkpoint_tasks (b : Z) (wait : bool) : co unit :=
  pending ← sync (
    c ← checkpoint_of b;
    s ← gets id;
    let vs := filter (λ v, has_task s v = true) (gated_vertices s c) in
    _ ← exec_each (λ v, send (AbortCheckpoint b v)) vs;
    mret (if wait then vs else []));
  if bool_decide ((pending : list vid) = []) then mret () else ask (AwaitAborts b pending).

Definition fail_checkpoint (b : Z) (wait_for_task_abort : bool) : co unit :=
  sources ← sync (
    _ ← modify (set_inflight_operator_states (delete b));
    _ ← carry_inflight_sink_committables b;
    c ← checkpoint_of b;
    mret (trigger_sources c));
  _ ← release_checkpoint_sources b sources;
  _ ← abort_checkpoint_tasks b wait_for_task_abort;
  sync (update_checkpoint_failed b).

(** One checkpoint that timed out.  [dict.pop] without a default raises if another
    coroutine took the checkpoint meanwhile. *)
Definition expire_checkpoint (b : Z) : co unit :=
  sources ← sync (
    inflight ← gets inflight_checkpoints;
    if negb (bool_decide (b ∈ inflight)) then throw KeyError
    else
      c ← checkpoint_of b;
      _ ← pop_inflight b;
      _ ← release_domain_slot c;
      _ ← modify (set_inflight_operator_states (delete b));
      _ ← carry_inflight_sink_committables b;
      _ ← update_checkpoint_failed b;
      mret (trigger_sources c));
  _ ← release_checkpoint_sources b sources;
  abort_checkpoint_tasks b false.

Definition stale (s : st) (now : Z) (b : Z) : bool :=
  match checkpoints s !! b with
  | Some c => match triggered_at_ms c with Some t => checkpoint_timeout cfg * 1000 <? now - t | None => false end
  | None => false
  end.

Definition expire_stale_checkpoints : co unit :=
  if checkpoint_timeout cfg <=? 0 then mret ()
  else
    expired ← sync (now ← now_ms; gets (λ s, filter (λ b, stale s now b = true) (inflight_checkpoints s)));
    co_each expire_checkpoint (expired : list Z).

(** ** Merging a completed cut *)

Definition bump_state_revision : act unit := modify (set_state_revision (λ n, n + 1)).

Definition update_latest_source_state (entry : source_entry St) : act unit :=
  current ← gets (λ s, dict_get (so_task_key entry) (latest_source_states s));
  let newer := match current with Some c => so_checkpoint_id c <? so_checkpoint_id entry | None => true end in
  if newer then _ ← modify (set_latest_source_states (dict_set (so_task_key entry) entry)); bump_state_revision else mret ().

(** The logical operators of a set of states. *)
Definition operators_of (states : gmap task_key Ref) : gset Z := list_to_set (key_job <$> (map_to_list states).*1).

Definition replace_logical_operator_states (completed : gmap task_key Ref) : act unit :=
  let logical := operators_of completed in
  _ ← modify (set_latest_operator_states (λ m, completed ∪ filter (λ e, key_job e.1 ∉ logical) m));
  _ ← modify (set_restored_operator_states (filter (λ e, key_job e.1 ∉ logical)));
  transient ← gets transient_rescale_states;
  _ ← modify (set_superseded_rescale_operations (λ x, x ∪ filter (λ k, k.2 ∈ logical) (dom (transient : gmap (string * Z) (list Ref)))));
  _ ← modify (set_transient_rescale_states (filter (λ e, e.1.2 ∉ logical)));
  if decide (completed = ∅) then mret () else bump_state_revision.

Definition merge_checkpoint_operator_states (completed : gmap task_key Ref) : act unit :=
  _ ← modify (set_latest_operator_states (λ m, completed ∪ m));
  if decide (completed = ∅) then mret () else bump_state_revision.

(** Whether a state is that of a subtask the operator [j] no longer has. *)
Definition stale_fragment (live : list vid) (j : Z) (k : task_key) : Prop := key_job k = j ∧ k ∉ source_key <$> live.
#[local] Instance stale_fragment_dec live j k : Decision (stale_fragment live j k).
Proof. unfold stale_fragment. apply _. Defined.

Definition finalize_operator (changed : bool) (j : Z) : act bool :=
  g ← get_graph;
  let live := job_vertices g j in
  latest ← gets latest_operator_states; restored ← gets restored_operator_states;
  let gone := bool_decide (Exists (λ k, stale_fragment live j k)
                ((map_to_list (latest : gmap task_key Ref)).*1 ++ (map_to_list (restored : gmap task_key OE)).*1)) in
  _ ← modify (set_latest_operator_states (filter (λ e, ¬ stale_fragment live j e.1)));
  _ ← modify (set_restored_operator_states (filter (λ e, ¬ stale_fragment live j e.1)));
  mret (gone || changed).

Fixpoint finalize_operators (changed : bool) (js : list Z) : act bool :=
  match js with [] => mret changed | j :: js => changed ← finalize_operator changed j; finalize_operators changed js end.

Definition finalize_rescale_operator_states (operation : string) : act unit :=
  transient ← gets transient_rescale_states;
  let keys : gset (string * Z) := filter (λ k, k.1 = operation) (dom (transient : gmap (string * Z) (list Ref))) in
  changed ← finalize_operators false (elements (set_map snd keys : gset Z));
  _ ← modify (set_superseded_rescale_operations (λ x, x ∪ keys));
  _ ← modify (set_transient_rescale_states (filter (λ e, e.1 ∉ keys)));
  if changed : bool then bump_state_revision else mret ().

Definition record_rescale_stabilization_progress (c : Checkpoint) : act bool :=
  s ← gets id;
  match rescale_recovery_fence s with
  | None => mret false
  | Some operation =>
      if negb (coordinated c) || negb (bool_decide (coordinated_checkpoint_barrier_id s = Some (barrier_id c))) then mret false
      else if negb (bool_decide ((list_to_set (trigger_sources c) : gset vid) = rescale_recovery_pending_sources s)) then mret false
      else
        _ ← finalize_rescale_operator_states operation;
        transient ← gets transient_rescale_states;
        if bool_decide (filter (λ k, k.1 = operation) (dom (transient : gmap (string * Z) (list Ref))) = ∅) then
          revision ← gets state_revision;
          _ ← modify (set_rescale_recovery_required_state_revision (λ _, Some revision));
          mret true
        else mret false
  end.

Definition clear_rescale_recovery_fence_if_durable : act unit :=
  s ← gets id;
  match rescale_recovery_fence s, rescale_recovery_required_state_revision s, coordinated_checkpoint_barrier_id s with
  | Some _, Some required, Some b =>
      if persisted_state_revision s <? required then mret ()
      else if existsb (λ v, default (-1) (released_source_checkpoint_ids s !! source_key v) <? b)
                (elements (rescale_recovery_pending_sources s)) then mret ()
      else
        modify (map_rs (λ _, MkRs (rescale_operation_id s) None ∅ ∅ None None ∅))
  | _, _, _ => mret ()
  end.

Definition pop_carried (domains : list (option string)) : act unit :=
  modify (set_carried_sink_committables (λ carried, foldl (λ l d, dict_pop d l) carried domains)).

(** [_merge_aligned_checkpoint_progress]: everything between taking and releasing the
    progress lock.  The first result says whether transactions were added. *)
Definition merge_progress (b : Z) (source_states : list (vid * St)) : act (bool * bool) :=
  c ← checkpoint_of b;
  s ← gets id;
  completed ← of_outcome (coalesce b (default [] (dict_get b (inflight_sink_committables s))));
  let domains := carried_domains_for_checkpoint (execution_graph s) c in
  let carried_entries := mjoin ((λ d, (default [] (dict_get d (carried_sink_committables s))).*2) <$> domains) in
  carried ← of_outcome (coalesce_carried_sink_committables carried_entries);
  _ ← exec_each (λ x, update_latest_source_state (mkSourceEntry (source_key x.1) b x.2)) source_states;
  let states := default ∅ (inflight_operator_states s !! b) in
  _ ← modify (set_inflight_operator_states (delete b));
  _ ← (if coordinated c then replace_logical_operator_states states else merge_checkpoint_operator_states states);
  _ ← modify (set_inflight_sink_committables (dict_pop b));
  _ ← modify (set_pending_sink_committables (λ l, dict_update l carried));
  _ ← modify (set_pending_sink_committables (λ l, dict_update l
        ((λ e, (identity e, e)) <$> (completed : list (task_key * sink_entry C)).*2)));
  let added := negb (bool_decide (carried = [])) || negb (bool_decide (completed = [])) in
  _ ← (if added then bump_state_revision else mret ());
  ready ← record_rescale_stabilization_progress c;
  _ ← pop_carried domains;
  mret (added, ready).

Definition merge_aligned_checkpoint_progress (b : Z) (source_states : list (vid * St)) : co (bool * bool) :=
  with_lock progress_lock (λ l, set_progress_lock (λ _, l)) (sync (merge_progress b source_states)).

(** ** Source callbacks *)

Definition notify_source (g : ExecutionGraph) (v : vid) : co unit :=
  s ← sync (gets id);
  let k := source_key v in
  match dict_get k (durable_source_states s) with
  | None => mret ()
  | Some entry =>
      let id := so_checkpoint_id entry in
      if (id <=? default (-1) (notified_source_checkpoint_ids s !! k)) && (id <=? default (-1) (released_source_checkpoint_ids s !! k))
      then mret ()
      else if match find_execution_vertex g v with Some x => negb (ev_stream_task x) | None => true end then mret ()
      else
        r ← co_try (ask (NotifyPersisted v id));
        match r with
        | Err _ => mret ()
        | Ok called => sync (
            _ ← modify (set_released_source_checkpoint_ids (insert k id));
            if (called : bool) then modify (set_notified_source_checkpoint_ids (insert k id)) else mret ())
        end
  end.

Definition notify_durable_source_checkpoints : co unit :=
  s ← sync (gets id);
  match execution_graph s with
  | None => mret ()
  | Some g =>
      if bool_decide (durable_source_states s = []) then mret ()
      else if negb (bool_decide ((durable_sink_committables s).*1 = [])) then mret ()
      else co_each (notify_source g) (eg_sources g)
  end.

(** ** Persistence of the metadata *)

(** What one snapshot of the progress holds. *)
Record progress_snapshot := mkSnapshot {
  sn_high_water : Z;
  sn_state_revision : Z;
  sn_sources : list (source_entry St);
  sn_live : gmap task_key Ref;
  sn_restored : gmap task_key OE;
  sn_path : option P;
  sn_sinks : list (sink_entry C)
}.

Definition take_snapshot : act (option progress_snapshot) :=
  s ← gets id;
  if (state_revision s <=? persisted_state_revision s) && (generator s <=? persisted_high_water s) then
    _ ← clear_rescale_recovery_fence_if_durable; mret None
  else
    mret (Some (mkSnapshot (generator s) (state_revision s) (latest_source_states s).*2 (latest_operator_states s)
      (filter (λ e, latest_operator_states s !! e.1 = None) (restored_operator_states s)) (checkpoint_path s)
      (pending_sink_committables s).*2)).

Definition materialize_operator_states (sn : progress_snapshot) : co (list (task_key * bytes)) :=
  live ← co_fold (λ l item, payload ← ask (MaterializeState item.2); mret (l ++ [(item.1, payload)])) [] (map_to_list (sn_live sn));
  match sn_path sn with
  | None => mret live
  | Some path =>
      co_fold (λ l item, payload ← ask (ReadOperatorState path item.2); mret (l ++ [(item.1, payload)])) live
        (map_to_list (sn_restored sn))
  end.

Definition snapshot_metadata (sn : progress_snapshot) (revision : Z) (states : list (task_key * bytes)) : metadata C St :=
  mkMetadata (sn_sources sn) revision (sn_high_water sn) states (sn_sinks sn).

Definition write_metadata (sn : progress_snapshot) (revision : Z) : co (P * gmap task_key OE) :=
  states ← materialize_operator_states sn;
  path ← ask (WriteCheckpoint (snapshot_metadata sn revision states));
  restored ← ask (RestoreOperatorEntries (Some path));
  mret (path, restored).

(** A new revision on storage becomes the durable state. *)
Definition install_metadata (sn : progress_snapshot) (revision : Z) (path : P) (restored : gmap task_key OE) : act unit :=
  _ ← modify (set_checkpoint_path (λ _, Some path));
  _ ← modify (set_metadata_revision (λ _, revision));
  _ ← modify (set_persisted_state_revision (λ _, sn_state_revision sn));
  _ ← modify (set_persisted_high_water (λ _, sn_high_water sn));
  _ ← modify (set_durable_source_states (λ _, dict_update [] ((λ e, (so_task_key e, e)) <$> sn_sources sn)));
  _ ← modify (set_durable_sink_committables (λ _, by_identity (sn_sinks sn)));
  modify (set_restored_operator_states (λ _, restored)).

Definition persist_snapshot (notify_sources strict : bool) (sn : progress_snapshot) : co bool :=
  revision ← sync (gets (λ s, metadata_revision s + 1));
  r ← co_try (write_metadata sn revision);
  match r with
  | Err _ => if strict then raises CheckpointCommitError else mret false
  | Ok (path, restored) =>
      _ ← sync (install_metadata sn revision path restored);
      committed ← commit_durable_sink_committables false;
      if negb committed then mret true
      else
        _ ← (if notify_sources then notify_durable_source_checkpoints else mret ());
        _ ← sync clear_rescale_recovery_fence_if_durable;
        _ ← co_try (ask CleanupCheckpoints);
        mret true
  end.

Definition persist_checkpoint_metadata (notify_sources strict : bool) : co bool :=
  with_lock persistence_lock (λ l, set_persistence_lock (λ _, l)) (
    _ ← ask JoinCheckpointIO;
    is_stopping ← sync (gets stopping);
    if is_stopping : bool then mret false
    else
      committed ← commit_durable_sink_committables strict;
      if negb committed then mret false
      else
        _ ← (if notify_sources then notify_durable_source_checkpoints else mret ());
        snapshot ← with_lock progress_lock (λ l, set_progress_lock (λ _, l)) (sync take_snapshot);
        match snapshot with None => mret true | Some sn => persist_snapshot notify_sources strict sn end).

(** ** Completion *)

Definition collect_domain_source_states (b : Z) : co (option (list (vid * St))) :=
  sources ← sync (c ← checkpoint_of b;
    gets (λ s, if forallb (has_task s) (trigger_sources c) then Some (c, trigger_sources c) else None));
  match sources with
  | None => mret None
  | Some (c, vs) =>
      reply ← ask (CollectSourceStates b (coordinated c) vs);
      let states := omap (λ v, match (reply : vid → outcome (bool * St)) v with Ok (true, state) => Some (v, state) | _ => None end) vs in
      mret (if (length states =? length vs)%nat then Some states else None)
  end.

Definition commit_aligned_checkpoint (b : Z) : co bool :=
  states ← collect_domain_source_states b;
  match states with
  | None => _ ← fail_checkpoint b false; mret false
  | Some states =>
      '(added, ready) ← merge_aligned_checkpoint_progress b states;
      _ ← (if added || ready then _ ← persist_checkpoint_metadata true true; mret () else mret ());
      sync (
        c ← checkpoint_of b;
        _ ← modify (set_finished_sources (λ x, x ∪ eof_sources c));
        now ← now_ms;
        _ ← update_checkpoint b (mark_complete now);
        mret true)
  end.

Definition release_sources_of (b : Z) : co unit :=
  sources ← sync (c ← checkpoint_of b; mret (trigger_sources c));
  release_checkpoint_sources b sources.

Definition complete_aligned_checkpoint (b : Z) : co bool :=
  r ← co_try (commit_aligned_checkpoint b);
  match r with
  | Ok done => mret done
  | Err CheckpointCommitError =>
      _ ← sync (update_checkpoint_failed b);
      _ ← release_sources_of b;
      _ ← abort_checkpoint_tasks b false;
      raises CheckpointCommitError
  | Err _ =>
      _ ← sync (_ ← modify (set_inflight_operator_states (delete b)); carry_inflight_sink_committables b);
      _ ← release_sources_of b;
      _ ← sync (update_checkpoint_failed b);
      _ ← abort_checkpoint_tasks b false;
      mret false
  end.

(** The acknowledgement of one sink: whether the call is answered, or the checkpoint is
    aligned and to be completed. *)
Definition acknowledge_barrier (b : Z) (v : vid) : act (option bool) :=
  is_stopping ← gets stopping;
  if is_stopping : bool then mret (Some false)
  else
    g ← get_graph;
    _ ← of_outcome (execution_vertex g v);
    inflight ← gets inflight_checkpoints;
    if negb (bool_decide (b ∈ inflight)) then mret (Some false)
    else
      c ← checkpoint_of b;
      if is_terminal (status c) then mret (Some false)
      else if foreign_committer c v then mret (Some false)
      else
        now ← now_ms;
        let '(aligned, c') := acknowledge v now c in
        _ ← update_checkpoint b (λ _, c');
        if negb aligned then mret (Some true)
        else
          _ ← pop_inflight b;
          _ ← modify (set_completing_checkpoints (λ x, {[b]} ∪ x));
          mret None.

Definition leave_completion (b : Z) : act unit :=
  c ← checkpoint_of b;
  _ ← release_domain_slot c;
  modify (set_completing_checkpoints (λ x, x ∖ {[b]})).

Definition notify_checkpoint_aligned (b : Z) (v : vid) : co bool :=
  answered ← sync (acknowledge_barrier b v);
  match answered with
  | Some r => mret r
  | None => co_finally (complete_aligned_checkpoint b) (leave_completion b)
  end.

(** ** Maintenance and the terminal flush *)

(** [max(_MAINTENANCE_INTERVAL_SECONDS, float(interval))], in microseconds. *)
Definition first_persistence_delay : Z := Z.max 1 (persistence_interval cfg) * 1000000.

Definition maintain : co unit :=
  _ ← ask Sleep;
  _ ← retry_pending_checkpoint_releases;
  _ ← expire_stale_checkpoints;
  committed ← commit_durable_sink_committables false;
  _ ← (if committed : bool then _ ← notify_durable_source_checkpoints; sync clear_rescale_recovery_fence_if_durable else mret ());
  if persistence_interval cfg <=? 0 then mret ()
  else
    due ← sync (
      now ← now_monotonic;
      at_ ← gets next_persistence_at;
      if now <? at_ then mret false
      else _ ← modify (set_next_persistence_at (λ _, now + persistence_interval cfg * 1000000)); mret true);
    if due : bool then _ ← persist_checkpoint_metadata true false; mret () else mret ().

Definition notify_terminal_source_checkpoints : co unit :=
  _ ← notify_durable_source_checkpoints;
  s ← sync (gets id);
  if existsb (λ e : task_key * source_entry St,
       default (-1) (notified_source_checkpoint_ids s !! e.1) <? so_checkpoint_id e.2) (durable_source_states s)
  then raises RuntimeError else mret ().

Definition persist_now (notify_sources abort_inflight_sinks require_resolved_sinks : bool) : co (option P) :=
  if abort_inflight_sinks && require_resolved_sinks then raises ValueError
  else
    _ ← wait_until (λ s, bool_decide (completing_checkpoints s = ∅));
    _ ← (if abort_inflight_sinks then
           bs ← sync (gets (λ s, (inflight_sink_committables s).*1));
           _ ← co_each abort_inflight_sink_committables (bs : list Z);
           abort_carried_sink_committables
         else if require_resolved_sinks then
           s ← sync (gets id);
           if (length (carried_sink_committables s) + length (inflight_sink_committables s) =? 0)%nat then mret () else raises RuntimeError
         else mret ());
    _ ← persist_checkpoint_metadata notify_sources require_resolved_sinks;
    _ ← (if require_resolved_sinks then
           _ ← commit_durable_sink_committables true;
           pending ← sync (gets pending_sink_committables);
           if negb (bool_decide ((pending : list (task_key * Z * string * sink_entry C)).*1 = [])) then raises RuntimeError
           else if notify_sources then notify_terminal_source_checkpoints else mret ()
         else mret ());
    sync (gets checkpoint_path).

(** ** The gate of a local rescale *)

(** [abort_inflight_checkpoints_for_rescale], before its first [await]. *)
Definition detach_inflight_checkpoints : act (list Z) :=
  bs ← gets inflight_checkpoints;
  _ ← exec_each (λ b, _ ← pop_inflight b; c ← checkpoint_of b; release_domain_slot c) bs;
  mret bs.

(** [while c: if the deadline has passed: raise; await asyncio.sleep(...)]. *)
Definition poll_while (c : st → bool) (cleanup : st → st) : co unit :=
  timed_out ← ask Timeout;
  if timed_out : bool then _ ← wait_until c; _ ← sync (modify cleanup); raises TimeoutError
  else wait_until (λ s, negb (c s)).

Definition begin_operator_rescale (operation : string) (timeout : Z) : co bool :=
  if blank operation then raises ValueError
  else if timeout <=? 0 then raises ValueError
  else
    timed_out ← ask Timeout;
    if timed_out : bool then raises TimeoutError
    else with_lock rescale_gate_lock (λ l, set_rescale_gate_lock (λ _, l)) (
      _ ← poll_while (λ s, bool_decide (is_Some (rescale_recovery_fence s))) id;
      detached ← sync (
        current ← gets rescale_operation_id;
        if bool_decide (is_Some current) && negb (bool_decide (current = Some operation)) then throw RuntimeError
        else
          _ ← modify (set_rescale_operation_id (λ _, Some operation));
          detach_inflight_checkpoints);
      _ ← co_each (λ b, fail_checkpoint b true) (detached : list Z);
      _ ← poll_while (λ s, negb (bool_decide (completing_checkpoints s = ∅))) (set_rescale_operation_id (λ _, None));
      mret true).

Definition finish_operator_rescale (operation : string) (committed : bool) (target : option Z) : act bool :=
  s ← gets id;
  if bool_decide (rescale_operation_id s = Some operation) then
    _ ← modify (set_rescale_operation_id (λ _, None));
    _ ← (if committed then
           _ ← modify (set_rescale_recovery_fence (λ _, Some operation));
           let targets := option_list target in
           sources ← of_outcome (boundary_vertex_ids (execution_graph s) targets true);
           _ ← modify (set_rescale_recovery_pending_sources (λ _, sources));
           sinks ← of_outcome (boundary_vertex_ids (execution_graph s) targets false);
           modify (map_rs (λ r, MkRs (rescale_operation_id_ r) (rescale_recovery_fence_ r) (rescale_recovery_pending_sources_ r)
             sinks None None ∅))
         else mret ());
    mret true
  else if negb committed && bool_decide (rescale_operation_id s = None) then mret true
  else mret (committed && bool_decide (rescale_recovery_fence s = Some operation)).

Definition stage_operator_rescale_state (operation : string) (j target : Z) (snapshots : list Ref) : co unit :=
  active ← sync (gets rescale_operation_id);
  if negb (bool_decide (active = Some operation)) then raises RuntimeError
  else if target <? 1 then raises ValueError
  else
    partitions ← ask (Repartition snapshots target);
    sync (
      active ← gets rescale_operation_id;
      if negb (bool_decide (active = Some operation)) then throw RuntimeError
      else modify (set_transient_rescale_states (insert (operation, j) (cache_partition <$> (partitions : list bytes))))).

Definition discard_operator_rescale_state (operation : string) (j : Z) : act bool :=
  transient ← gets transient_rescale_states;
  _ ← modify (set_superseded_rescale_operations (λ x, x ∖ {[(operation, j)]}));
  _ ← modify (set_transient_rescale_states (delete (operation, j)));
  mret (bool_decide (is_Some ((transient : gmap (string * Z) (list Ref)) !! (operation, j)))).

Definition reconfigure_execution_graph (g : ExecutionGraph) : act unit :=
  s ← gets id;
  if negb (bool_decide (eg_namespace g = coordinator_job_id cfg)) then throw ValueError
  else if bool_decide (rescale_operation_id s = None) then throw RuntimeError
  else if negb (bool_decide (inflight_checkpoints s = []) && bool_decide (completing_checkpoints s = ∅)) then throw RuntimeError
  else
    _ ← modify (set_execution_graph (λ _, Some g));
    _ ← remap_carried_sink_domains g;
    acks ← of_outcome (coordinator_ack_counts g);
    _ ← modify (set_required_acks (λ _, acks));
    _ ← modify (set_active_checkpoint_by_domain (λ _, ∅));
    modify (set_finished_sources (λ x, x ∩ list_to_set (eg_sources g))).

(** ** Opening, starting and stopping *)

(** The smallest of the operations the vertices of a graph restore from. *)
Definition min_string (l : list string) : option string := head (merge_sort string_le l).

Definition restore_fence (g : ExecutionGraph) : act unit :=
  let restoring := filter (λ x, is_Some (ev_restore_operation_id x)) (eg_vertices g) in
  let jobs := elements (list_to_set ((λ x, job_vertex_id (ev_id x)) <$> restoring) : gset Z) in
  let fence := min_string (omap ev_restore_operation_id restoring) in
  _ ← modify (set_rescale_operation_id (λ _, None));
  _ ← modify (set_transient_rescale_states (λ _, ∅));
  _ ← modify (set_superseded_rescale_operations (λ _, ∅));
  _ ← modify (set_rescale_recovery_fence (λ _, fence));
  sources ← (if bool_decide (is_Some fence) then of_outcome (boundary_vertex_ids (Some g) jobs true) else mret ∅);
  _ ← modify (set_rescale_recovery_pending_sources (λ _, sources));
  sinks ← (if bool_decide (is_Some fence) then of_outcome (boundary_vertex_ids (Some g) jobs false) else mret ∅);
  modify (map_rs (λ r, MkRs (rescale_operation_id_ r) (rescale_recovery_fence_ r) (rescale_recovery_pending_sources_ r) sinks None None ∅)).

(** The graph and the path are installed before the metadata is read. *)
Definition install_graph (g : ExecutionGraph) (path : option P) : act unit :=
  _ ← modify (set_checkpoint_path (λ _, path));
  _ ← modify (set_execution_graph (λ _, Some g));
  acks ← of_outcome (coordinator_ack_counts g);
  modify (set_required_acks (λ _, acks)).

Definition install_restored_sources (revision : Z) (sources : list (source_entry St)) : act unit :=
  _ ← modify (set_metadata_revision (λ _, revision));
  let latest := dict_update [] ((λ e, (so_task_key e, e)) <$> sources) in
  _ ← modify (set_latest_source_states (λ _, latest));
  _ ← modify (set_durable_source_states (λ _, latest));
  _ ← modify (set_notified_source_checkpoint_ids (λ _, ∅));
  _ ← modify (set_released_source_checkpoint_ids (λ _, ∅));
  modify (set_latest_operator_states (λ _, ∅)).

(** What [open] resets after the last read of the storage. *)
Definition install_restored_sinks (g : ExecutionGraph) (sinks : list (sink_entry C)) (high_water : Z) : act unit :=
  let pending := by_identity sinks in
  _ ← modify (map_tx (λ _, MkTx [] pending pending []));
  _ ← modify (set_inflight_operator_states (λ _, ∅));
  s ← gets id;
  let current := reseed high_water (generator s) in
  let finished := ev_id <$> filter (λ x, ev_finished x = true ∧ ev_id x ∈ eg_sources g) (eg_vertices g) in
  _ ← modify (map_ck (λ c, MkCk current current (checkpoints_ c) (checkpoint_history_ c) [] ∅ ∅ (list_to_set finished) []));
  _ ← modify (set_state_revision (λ _, 0));
  _ ← modify (set_persisted_state_revision (λ _, 0));
  _ ← modify (set_persisted_high_water (λ _, high_water));
  now ← now_monotonic;
  _ ← modify (set_next_persistence_at (λ _, now + first_persistence_delay));
  modify (set_opened (λ _, true)).

Definition open_coordinator (g : ExecutionGraph) (restore_path : option P) : co unit :=
  _ ← ask JoinCheckpointIO;
  _ ← sync (restore_fence g);
  path ← match restore_path with Some _ => mret restore_path | None => ask LatestCheckpoint end;
  _ ← sync (install_graph g path);
  '(revision, sources, high_water) ← ask (RestoreCheckpoint path);
  _ ← sync (install_restored_sources revision sources);
  restored ← ask (RestoreOperatorEntries path);
  _ ← sync (modify (set_restored_operator_states (λ _, restored)));
  sinks ← ask (RestoreSinkEntries path);
  _ ← sync (install_restored_sinks g sinks high_water);
  _ ← commit_durable_sink_committables true;
  mret ().

(** [AsyncWorker.start]; the loop itself is the repetition of [maintain], and the outside
    knows whether it runs. *)
Definition start_worker : co unit :=
  healthy ← ask WorkerHealthy;
  if healthy : bool then mret () else sync (modify (set_stopping (λ _, false))).

(** [stop], as far as it waits for the actor's own work. *)
Definition stop_coordinator_worker : co unit :=
  _ ← sync (_ ← modify (set_opened (λ _, false)); modify (set_stopping (λ _, true)));
  _ ← wait_until (λ s, bool_decide (completing_checkpoints s = ∅));
  with_lock persistence_lock (λ l, set_persistence_lock (λ _, l)) (_ ← ask JoinCheckpointIO; mret ()).

(** ** The actor: its methods, and one iteration of its worker *)

Inductive method :=
  | MOpen (g : ExecutionGraph) (restore_path : option P)
  | MStart
  | MStop
  | MMaintain
  | MRegisterCheckpoint (v : vid) (force : bool)
  | MSourceStarted (b : Z) (v : vid) (is_eof : bool)
  | MRegisterOperatorState (b : Z) (v : vid) (reference : Ref)
  | MRegisterSink (b : Z) (v : vid) (committable : C)
  | MNotifyAligned (b : Z) (v : vid)
  | MPersistNow (notify_sources abort_inflight_sinks require_resolved_sinks : bool)
  | MBeginRescale (operation : string) (timeout : Z)
  | MFinishRescale (operation : string) (committed : bool) (target : option Z)
  | MStageRescale (operation : string) (j target : Z) (snapshots : list Ref)
  | MDiscardRescale (operation : string) (j : Z)
  | MReconfigure (g : ExecutionGraph).

Definition reply (m : method) : Type :=
  match m with
  | MRegisterCheckpoint _ _ => CheckpointRegistration
  | MSourceStarted _ _ _ | MRegisterOperatorState _ _ _ | MRegisterSink _ _ _ | MNotifyAligned _ _ | MBeginRescale _ _
  | MFinishRescale _ _ _ | MDiscardRescale _ _ => bool
  | MPersistNow _ _ _ => option P
  | MOpen _ _ | MStart | MStop | MMaintain | MStageRescale _ _ _ _ | MReconfigure _ => unit
  end.

Definition method_body (m : method) : co (reply m) :=
  match m with
  | MOpen g path => open_coordinator g path
  | MStart => start_worker
  | MStop => stop_coordinator_worker
  | MMaintain => maintain
  | MRegisterCheckpoint v force => sync (register_checkpoint v force)
  | MSourceStarted b v is_eof => sync (source_checkpoint_started b v is_eof)
  | MRegisterOperatorState b v reference => sync (register_operator_state b v reference)
  | MRegisterSink b v committable => sync (register_sink_committable b v committable)
  | MNotifyAligned b v => notify_checkpoint_aligned b v
  | MPersistNow notify abort require => persist_now notify abort require
  | MBeginRescale operation timeout => begin_operator_rescale operation timeout
  | MFinishRescale operation committed target => sync (finish_operator_rescale operation committed target)
  | MStageRescale operation j target snapshots => stage_operator_rescale_state operation j target snapshots
  | MDiscardRescale operation j => sync (discard_operator_rescale_state operation j)
  | MReconfigure g => sync (reconfigure_execution_graph g)
  end.

(** The coordinator as constructed. *)
Definition coordinator_init : st :=
  MkState (MkCk 0 0 ∅ [] [] ∅ ∅ ∅ []) (MkTx [] [] [] [])
    (MkPr [] [] ∅ ∅ 0 0 0 0 None (monotonic 0%nat + first_persistence_delay)) (MkOs ∅ ∅ ∅ ∅ ∅) (MkRs None None ∅ ∅ None None ∅)
    (MkAc None ∅ false false false false false 1 []).
End coordinator.
