(* ===== verification/CoordinatorInvariant.v ===== *)
(** * The invariant of the checkpoint coordinator

    What the history of the coordinator says ([durable], [live], [committed], ...), the
    invariant that relates the state to it, and what one atomic step of a method may do
    to the state while other methods are suspended ([G], [Rely]): barrier ids only grow,
    a barrier that left the in-flight checkpoints never comes back, acknowledgements are
    never forgotten, and only the method that took a barrier out may carry its
    transactions over. *)
From S2P Require Import Prelude Dicts Effects Coroutines Checkpoints Coordinator.
Open Scope Z_scope.

Section invariant.
Context {C St P Ref OE : Type} (transaction_id : C → string)
  (combine_committables : C → list C → string → outcome C).

Abbreviation st := (state C St P Ref OE).
Abbreviation req := (request C St P Ref OE).
Abbreviation meth := (method (C := C) (P := P) (Ref := Ref)).
Abbreviation ev := (event (answer (C := C) (St := St) (P := P) (Ref := Ref) (OE := OE)) (reply (C := C) (P := P) (Ref := Ref))).
Abbreviation hist := (list ev).
Abbreviation entry := (sink_entry C).
Abbreviation identity := (identity transaction_id).
Abbreviation covers := (covers transaction_id combine_committables).
Implicit Types (s : st) (h : hist) (e : entry) (b : Z).

(** ** What the history says *)

(** A transaction is on storage: it is in the metadata of a revision that was written,
    or in what [open] read back. *)
Definition durable_transaction h e : Prop :=
  (∃ m path, Answered (WriteCheckpoint m) (Ok path) ∈ h ∧ e ∈ m_sink_committables m) ∨
  (∃ path es, Answered (RestoreSinkEntries path) (Ok es) ∈ h ∧ e ∈ (es : list entry)).

Definition restored_source h (x : source_entry St) : Prop :=
  ∃ path revision sources high_water, Answered (RestoreCheckpoint path) (Ok (revision, sources, high_water)) ∈ h ∧ x ∈ sources.

(** The state of a source is on storage. *)
Definition durable_source h (x : source_entry St) : Prop :=
  (∃ m path, Answered (WriteCheckpoint m) (Ok path) ∈ h ∧ x ∈ m_source_states m) ∨ restored_source h x.

(** The sources of a checkpoint were asked for their states at its barrier. *)
Definition collected h b : Prop := ∃ by_state vs, Issued (CollectSourceStates b by_state vs) ∈ h.

(** The job asked for the final flush that gives up the transactions still open. *)
Definition terminal h : Prop := ∃ notify require, Called (MPersistNow notify true require) ∈ h.

(** The transaction a call registered. *)
Definition registration (x : ev) : option entry :=
  match x with
  | Replied (MRegisterSink b v c) (Ok true) => Some (mkSinkEntry (SubtaskKey v) b c)
  | _ => None
  end.

(** Reading the stored transactions back, [open] starts the job from them. *)
Definition reopens (x : ev) : bool :=
  match x with Answered (RestoreSinkEntries _) (Ok _) => true | _ => false end.

Definition live_step (l : list entry) (x : ev) : list entry := if reopens x then [] else l ++ option_list (registration x).

(** The transactions registered since the job was last opened. *)
Definition live h : list entry := foldl live_step [] h.

Definition committed h e : Prop :=
  ∃ c, Answered (CommitTransaction c) (Ok ()) ∈ h ∧ covers (identity c) (identity e).

(** Every live transaction of a checkpoint is committed, or will be by one of [sinks]. *)
Definition settled_in h (sinks : list ident) b : Prop :=
  terminal h ∨ ∀ e, e ∈ live h → se_checkpoint_id e = b → committed h e ∨ ∃ i, i ∈ sinks ∧ covers i (identity e).

(** The source progress of a revision never runs ahead of its transactions. *)
Definition consistent_metadata h (m : metadata C St) : Prop :=
  ∀ x, x ∈ m_source_states m → restored_source h x ∨
    (collected h (so_checkpoint_id x) ∧ settled_in h (identity <$> m_sink_committables m) (so_checkpoint_id x)).

(** What justifies an event by the ones before it. *)
Definition justified h (x : ev) : Prop :=
  match x with
  | Issued (CommitTransaction e) => durable_transaction h e
  | Issued (NotifyPersisted v n) => ∃ x, durable_source h x ∧ so_task_key x = SubtaskKey v ∧ so_checkpoint_id x = n
  | Issued (WriteCheckpoint m) => consistent_metadata h m
  | _ => match registration x with Some e => ¬ collected h (se_checkpoint_id e) | None => True end
  end.

Definition history_ok h : Prop := ∀ h1 x h2, h = h1 ++ x :: h2 → justified h1 x.

(** ** The invariant *)

(** What the invariant reads of the state, apart from the transactions. *)
Record view := mkView {
  vw_generator : Z;
  vw_checkpoints : gmap Z Checkpoint;
  vw_inflight : list Z;
  vw_completing : gset Z;
  vw_active : gmap string Z;
  vw_gate : option string
}.

Definition view_of s : view :=
  mkView (generator s) (checkpoints s) (inflight_checkpoints s) (completing_checkpoints s) (active_checkpoint_by_domain s)
    (rescale_operation_id s).

Implicit Types (w : view) (t : transactions_state (C := C)).

(** A checkpoint that was in flight and is not any more. *)
Definition closed w b : Prop := is_Some (vw_checkpoints w !! b) ∧ b ∉ vw_inflight w.

(** Enough sinks acknowledged a checkpoint. *)
Definition aligned (c : Checkpoint) : Prop := required_acknowledgements c <= acknowledgements c.

Record checkpoint_ok b (c : Checkpoint) : Prop := {
  co_barrier : barrier_id c = b;
  co_required : 0 < required_acknowledgements c;
  co_count : acknowledgements c = Z.of_nat (size (acknowledged_by c));
  co_committers : required_committers c ≠ [] → NoDup (required_committers c) ∧
    required_acknowledgements c = Z.of_nat (length (required_committers c)) ∧ ∀ v, v ∈ acknowledged_by c → v ∈ required_committers c;
  co_sources v : (v ∈ eof_sources c → v ∈ started_sources c) ∧ (v ∈ started_sources c → v ∈ trigger_sources c);
  co_completed : status c = COMPLETED → aligned c
}.

Record checkpoints_ok w : Prop := {
  ck_generator : 0 <= vw_generator w;
  ck_known b c : vw_checkpoints w !! b = Some c → 0 < b <= vw_generator w ∧ checkpoint_ok b c;
  ck_nodup : NoDup (vw_inflight w);
  ck_inflight b : b ∈ vw_inflight w → ∃ c, vw_checkpoints w !! b = Some c ∧ status c = IN_PROGRESS ∧ ¬ aligned c;
  ck_completing b : b ∈ vw_completing w → b ∉ vw_inflight w ∧ ∃ c, vw_checkpoints w !! b = Some c ∧ aligned c;
  ck_active d b : vw_active w !! d = Some b →
    (b ∈ vw_inflight w ∨ b ∈ vw_completing w) ∧ ∃ c, vw_checkpoints w !! b = Some c ∧ domain_id c = Some d;
  ck_gate : is_Some (vw_gate w) → vw_inflight w = []
}.

Definition carried_in t (i : ident) e : Prop := ∃ d l, (d, l) ∈ carried_sink_committables_ t ∧ (i, e) ∈ l.

(** A transaction is in the hands of the coordinator. *)
Definition held t e : Prop :=
  (∃ es e', (se_checkpoint_id e, es) ∈ inflight_sink_committables_ t ∧ (se_task_key e, e') ∈ es ∧ identity e' = identity e) ∨
  (∃ e', carried_in t (identity e) e') ∨
  (∃ i, i ∈ (pending_sink_committables_ t).*1 ∧ covers i (identity e)).

Record transactions_ok w t h : Prop := {
  tx_buckets : NoDup (inflight_sink_committables_ t).*1;
  tx_inflight b es : (b, es) ∈ inflight_sink_committables_ t → is_Some (vw_checkpoints w !! b) ∧ writer_entries b es;
  tx_domains : NoDup (carried_sink_committables_ t).*1;
  tx_carried i e : carried_in t i e → i = identity e ∧ closed w (se_checkpoint_id e) ∧ ∃ v, se_task_key e = SubtaskKey v;
  tx_pending i e : (i, e) ∈ pending_sink_committables_ t → i = identity e;
  tx_durable i e : (i, e) ∈ durable_sink_committables_ t → i = identity e ∧ durable_transaction h e;
  tx_live : terminal h ∨ ∀ e, e ∈ live h → committed h e ∨ held t e
}.

Abbreviation sources := (list (task_key * source_entry St)).

Record progress_ok w t (latest durable : sources) h : Prop := {
  pr_collected b : collected h b → closed w b;
  pr_latest k x : (k, x) ∈ latest → so_task_key x = k ∧
    (restored_source h x ∨ (collected h (so_checkpoint_id x) ∧
       settled_in h (pending_sink_committables_ t).*1 (so_checkpoint_id x)));
  pr_durable k x : (k, x) ∈ durable → so_task_key x = k ∧ durable_source h x
}.

Record coordinator_ok s h : Prop := {
  ok_checkpoints : checkpoints_ok (view_of s);
  ok_transactions : transactions_ok (view_of s) (tx s) h;
  ok_progress : progress_ok (view_of s) (tx s) (latest_source_states s) (durable_source_states s) h;
  ok_history : history_ok h
}.

(** ** Steps *)

(** What stays of a checkpoint. *)
Record grows (c c' : Checkpoint) : Prop := {
  gw_acknowledgements : acknowledgements c <= acknowledgements c';
  gw_required : required_acknowledgements c' = required_acknowledgements c
}.

(** Some transaction of a checkpoint is carried over. *)
Definition carries t b : Prop := ∃ i e, carried_in t i e ∧ se_checkpoint_id e = b.

Record monotone w w' : Prop := {
  mo_closed b : closed w b → closed w' b;
  mo_known b c : vw_checkpoints w !! b = Some c → ∃ c', vw_checkpoints w' !! b = Some c' ∧ grows c c'
}.

(** A step of a method that owns the barriers [T]. *)
Definition G (T : gset Z) s s' : Prop :=
  monotone (view_of s) (view_of s') ∧ ∀ b, closed (view_of s) b → b ∉ T → carries (tx s') b → carries (tx s) b.

(** What the others do meanwhile. *)
Definition Rely (T : gset Z) s s' : Prop :=
  monotone (view_of s) (view_of s') ∧ ∀ b, b ∈ T → carries (tx s') b → carries (tx s) b.

(** The barriers a step takes out of the in-flight checkpoints. *)
Definition taken s s' : gset Z :=
  list_to_set (filter (λ b, is_Some (checkpoints s' !! b) ∧ b ∉ inflight_checkpoints s') (inflight_checkpoints s)).

(** ** The order of steps *)

Lemma grows_refl c : grows c c.
Proof. by split. Qed.
Lemma grows_trans c1 c2 c3 : grows c1 c2 → grows c2 c3 → grows c1 c3.
Proof. intros [] []. split; [lia|congruence]. Qed.
Lemma grows_aligned c c' : grows c c' → aligned c → aligned c'.
Proof. intros [] ?. unfold aligned in *. lia. Qed.

#[global] Instance monotone_preorder : PreOrder monotone.
Proof.
  split.
  - intros w. split; [done|]. intros b c Hc. exists c. split; [done|apply grows_refl].
  - intros w1 w2 w3 [H1 K1] [H2 K2]. split; [auto|]. intros b c Hc. destruct (K1 b c Hc) as (c' & Hc' & ?).
    destruct (K2 b c' Hc') as (c'' & ? & ?). exists c''. split; [done|by eapply grows_trans].
Qed.

Lemma monotone_same w w' : vw_inflight w' = vw_inflight w → vw_checkpoints w' = vw_checkpoints w → monotone w w'.
Proof.
  intros Ei Ec. split; [unfold closed; by rewrite Ei, Ec|]. intros b c Hc. exists c. rewrite Ec. split; [done|apply grows_refl].
Qed.

Lemma G_refl T s : G T s s.
Proof. by split. Qed.
Lemma G_mono T T' s s' : T ⊆ T' → G T s s' → G T' s s'.
Proof. intros HT [Hm Hc]. split; [done|]. set_solver. Qed.
Lemma G_trans T s1 s2 s3 : G T s1 s2 → G T s2 s3 → G T s1 s3.
Proof.
  intros [M1 C1] [M2 C2]. split; [by etransitivity|]. intros b Hb HT Hc. apply C1; [done|done|]. apply C2; [|done|done].
  by apply (mo_closed _ _ M1).
Qed.

Lemma Rely_refl T s : Rely T s s.
Proof. by split. Qed.
Lemma Rely_trans T s1 s2 s3 : Rely T s1 s2 → Rely T s2 s3 → Rely T s1 s3.
Proof. intros [M1 C1] [M2 C2]. split; [by etransitivity|]. auto. Qed.

Lemma G_Rely T T' s s' : T ## T' → (∀ b, b ∈ T → closed (view_of s) b) → G T' s s' → Rely T s s'.
Proof. intros Hd Hcl [Hm Hc]. split; [done|]. intros b Hb Hs. apply Hc; [by apply Hcl|set_solver|done]. Qed.

Lemma G_closed T s s' b : G T s s' → closed (view_of s) b → closed (view_of s') b.
Proof. intros [[Hm _] _]. apply Hm. Qed.

Lemma elem_of_taken s s' b : b ∈ taken s s' ↔ b ∈ inflight_checkpoints s ∧ closed (view_of s') b.
Proof. unfold taken, closed. cbn. rewrite elem_of_list_to_set, list_elem_of_filter. tauto. Qed.

Lemma taken_closed s s' b : b ∈ taken s s' → ¬ closed (view_of s) b ∧ closed (view_of s') b.
Proof. intros [Hin Hc]%elem_of_taken. split; [|done]. intros [_ Hn]. by apply Hn. Qed.

(** ** The history grows *)

Lemma durable_transaction_mono h h' e : h ⊆ h' → durable_transaction h e → durable_transaction h' e.
Proof. intros Hh [(m & p & Hin & He)|(p & es & Hin & He)]; [left; exists m, p|right; exists p, es]; auto. Qed.
Lemma restored_source_mono h h' x : h ⊆ h' → restored_source h x → restored_source h' x.
Proof. intros Hh (p & n & l & w & Hin & Hx). exists p, n, l, w. auto. Qed.
Lemma durable_source_mono h h' x : h ⊆ h' → durable_source h x → durable_source h' x.
Proof. intros Hh [(m & p & Hin & He)|Hr]; [left; exists m, p; auto|right; by eapply restored_source_mono]. Qed.
Lemma collected_mono h h' b : h ⊆ h' → collected h b → collected h' b.
Proof. intros Hh (x & vs & Hin). exists x, vs. auto. Qed.
Lemma terminal_mono h h' : h ⊆ h' → terminal h → terminal h'.
Proof. intros Hh (x & y & Hin). exists x, y. auto. Qed.
Lemma committed_mono h h' e : h ⊆ h' → committed h e → committed h' e.
Proof. intros Hh (c & Hin & Hc). exists c. auto. Qed.

Lemma prefix_subseteq (h h' : hist) : h `prefix_of` h' → h ⊆ h'.
Proof. intros [k ->]. set_solver. Qed.

Lemma history_ok_nil : history_ok [].
Proof. intros h1 x h2 E. by destruct h1. Qed.

Lemma history_ok_snoc h x : history_ok h → justified h x → history_ok (h ++ [x]).
Proof.
  intros Hh Hx h1 y h2 E. destruct h2 as [|z h2] using rev_ind.
  - apply app_inj_tail in E as [-> ->]. done.
  - rewrite app_comm_cons, app_assoc in E. apply app_inj_tail in E as [-> _]. by eapply Hh.
Qed.

Lemma history_ok_prefix h k : history_ok (h ++ k) → history_ok h.
Proof. intros Hh h1 x h2 ->. apply (Hh h1 x (h2 ++ k)). by rewrite <-app_assoc. Qed.

Lemma live_snoc h x e : e ∈ live (h ++ [x]) → e ∈ live h ∨ registration x = Some e.
Proof.
  unfold live. rewrite foldl_app. cbn. unfold live_step at 1. destruct (reopens x); [by intros ?%not_elem_of_nil|].
  intros [?|Hin]%elem_of_app; [by left|right]. destruct (registration x); cbn in Hin; [|by apply not_elem_of_nil in Hin].
  by apply list_elem_of_singleton in Hin as ->.
Qed.

(** Nothing is registered any more for a checkpoint whose sources were collected. *)
Lemma live_later h h' e : h `prefix_of` h' → history_ok h' → collected h (se_checkpoint_id e) → e ∈ live h' → e ∈ live h.
Proof.
  intros [k ->]. induction k as [|x k IH] using rev_ind; [by rewrite app_nil_r|]. rewrite app_assoc. intros Hok Hcol Hin.
  apply live_snoc in Hin as [Hin|Hreg]; [apply IH; [by eapply history_ok_prefix|done..]|].
  exfalso. pose proof (Hok (h ++ k) x [] eq_refl) as Hx. unfold justified in Hx.
  assert (collected (h ++ k) (se_checkpoint_id e)) as Hc by (eapply collected_mono; [|exact Hcol]; set_solver).
  destruct x as [m|m r|q|q r]; try done. rewrite Hreg in Hx. by apply Hx.
Qed.

Lemma settled_later h h' sinks sinks' b :
  h `prefix_of` h' → history_ok h' → collected h b → settled_in h sinks b →
  (∀ e i, se_checkpoint_id e = b → i ∈ sinks → covers i (identity e) → committed h' e ∨ ∃ i', i' ∈ sinks' ∧ covers i' (identity e)) →
  settled_in h' sinks' b.
Proof.
  intros Hh Hok Hcol [Ht|Hs] Hsinks; [left; eapply terminal_mono; [by apply prefix_subseteq|done]|right].
  intros e He Hb. subst b. destruct (Hs e) as [Hc|(i & Hi & Hc)]; [by eapply live_later|done| |by eapply Hsinks].
  left. eapply committed_mono; [by apply prefix_subseteq|done].
Qed.

(** The invariant and an event. *)
Lemma ok_snoc s h x :
  coordinator_ok s h → justified h x → (∀ b y vs, x = Issued (CollectSourceStates b y vs) → closed (view_of s) b) →
  (∀ e, registration x = Some e → held (tx s) e) → coordinator_ok s (h ++ [x]).
Proof.
  intros [Hck Htx Hpr Hh] Hx Hcol Hreg.
  assert (h ⊆ h ++ [x]) as Hsub by set_solver. assert (history_ok (h ++ [x])) as Hh' by by apply history_ok_snoc.
  split; [done| | |done].
  - destruct Htx as [? ? ? ? ? Hdur Hlive]. split; try done.
    + intros i e [-> ?]%Hdur. split; [done|]. by eapply durable_transaction_mono.
    + destruct Hlive as [Ht|Hlive]; [left; by eapply terminal_mono|right].
      intros e [He|He]%live_snoc; [|right; by apply Hreg]. destruct (Hlive e He) as [?|?]; [left; by eapply committed_mono|by right].
  - destruct Hpr as [Hc Hl Hd]. split.
    + intros b (y & vs & Hin). apply elem_of_app in Hin as [Hin|Hin%list_elem_of_singleton]; [apply Hc; by exists y, vs|].
      symmetry in Hin. by eapply Hcol.
    + intros k y Hin. destruct (Hl k y Hin) as [Hk [Hr|[Hy Hs]]]; split; try done; [left; by eapply restored_source_mono|right].
      split; [by eapply collected_mono|]. eapply settled_later; [by apply prefix_app_r|done|done|exact Hs|]. eauto.
    + intros k y Hin. destruct (Hd k y Hin). split; [done|]. by eapply durable_source_mono.
Qed.

(** A step that changes nothing the invariant reads. *)
Lemma ok_frame s s' h :
  view_of s' = view_of s → tx s' = tx s → latest_source_states s' = latest_source_states s →
  durable_source_states s' = durable_source_states s → coordinator_ok s h → coordinator_ok s' h ∧ ∀ T, G T s s'.
Proof.
  intros Ev Et El Ed [? ? ? ?]. split; [split; rewrite ?Ev, ?Et, ?El, ?Ed; done|].
  intros T. split; [by rewrite Ev|]. intros b _ _. by rewrite Et.
Qed.

(** A step of the checkpoints alone. *)
Lemma tx_view w w' t h : monotone w w' → transactions_ok w t h → transactions_ok w' t h.
Proof.
  intros [Hc Hk] [? Hin ? Hcar ? ? ?]. split; try done.
  - intros b es Hb. destruct (Hin b es Hb) as [[c Hc'] ?]. destruct (Hk b c Hc') as (c' & ? & _). split; [by exists c'|done].
  - intros i e He. destruct (Hcar i e He) as (? & ? & ?). auto.
Qed.

Lemma pr_view w w' t latest durable h : monotone w w' → progress_ok w t latest durable h → progress_ok w' t latest durable h.
Proof. intros [Hc _] [? ? ?]. split; try done. intros b Hb. auto. Qed.

Lemma ok_view s s' h :
  coordinator_ok s h → checkpoints_ok (view_of s') → monotone (view_of s) (view_of s') → tx s' = tx s →
  latest_source_states s' = latest_source_states s → durable_source_states s' = durable_source_states s →
  coordinator_ok s' h ∧ ∀ T, G T s s'.
Proof.
  intros [Hck Htx Hpr Hh] Hck' Hm Et El Ed. split; [split|].
  - done.
  - rewrite Et. by eapply tx_view.
  - rewrite Et, El, Ed. by eapply pr_view.
  - done.
  - intros T. split; [done|]. intros b _ _. by rewrite Et.
Qed.

(** ** Views *)

Lemma ck_update w b f :
  checkpoints_ok w →
  (∀ c, vw_checkpoints w !! b = Some c → checkpoint_ok b c →
     checkpoint_ok b (f c) ∧ grows c (f c) ∧ domain_id (f c) = domain_id c ∧
     (b ∈ vw_inflight w → status (f c) = IN_PROGRESS ∧ ¬ aligned (f c))) →
  let w' := mkView (vw_generator w) (alter f b (vw_checkpoints w)) (vw_inflight w) (vw_completing w) (vw_active w) (vw_gate w) in
  checkpoints_ok w' ∧ monotone w w'.
Proof.
  intros [Hg Hk Hn Hi Hco Ha Hgate] Hf. cbn zeta.
  assert (Hlook : ∀ x c, vw_checkpoints w !! x = Some c →
    ∃ c', alter f b (vw_checkpoints w) !! x = Some c' ∧ grows c c' ∧ domain_id c' = domain_id c ∧
      (status c = IN_PROGRESS → ¬ aligned c → x ∈ vw_inflight w → status c' = IN_PROGRESS ∧ ¬ aligned c')).
  { intros x c Hx. destruct (decide (x = b)) as [->|Hne].
    - rewrite lookup_alter_eq, Hx. cbn. destruct (Hk b c Hx) as [_ Hc]. destruct (Hf c Hx Hc) as (_ & ? & ? & ?). exists (f c). eauto.
    - rewrite lookup_alter_ne by done. exists c. split_and!; [done|apply grows_refl|done|auto]. }
  split; [split|split]; cbn; try done.
  - intros x c Hx. destruct (decide (x = b)) as [->|Hne]; [|rewrite lookup_alter_ne in Hx by done; by apply Hk].
    rewrite lookup_alter_eq in Hx. apply fmap_Some in Hx as (c0 & Hx & ->). destruct (Hk b c0 Hx) as [? Hc]. split; [done|].
    by apply (Hf c0 Hx Hc).
  - intros x Hx. destruct (Hi x Hx) as (c & Hc & ? & ?). destruct (Hlook x c Hc) as (c' & ? & _ & _ & Hst). exists c'. split; [done|]. auto.
  - intros x Hx. destruct (Hco x Hx) as (? & c & Hc & ?). split; [done|]. destruct (Hlook x c Hc) as (c' & ? & Hgr & _). exists c'.
    split; [done|by eapply grows_aligned].
  - intros d x Hx. destruct (Ha d x Hx) as (? & c & Hc & Hd). split; [done|]. destruct (Hlook x c Hc) as (c' & ? & _ & Hd' & _). exists c'.
    split; [done|congruence].
  - intros x [[c Hc] ?]. split; [|done]. destruct (Hlook x c Hc) as (c' & ? & _). by exists c'.
  - intros x c Hx. destruct (Hlook x c Hx) as (c' & ? & ? & _). by exists c'.
Qed.

(** Releasing the slot of a checkpoint. *)
Definition release_slot (c : Checkpoint) (active : gmap string Z) : gmap string Z :=
  match domain_id c with Some d => if decide (active !! d = Some (barrier_id c)) then delete d active else active | None => active end.

Lemma lookup_release_slot b c active d x :
  barrier_id c = b → (∀ d, active !! d = Some b → domain_id c = Some d) → release_slot c active !! d = Some x →
  active !! d = Some x ∧ x ≠ b.
Proof.
  intros <- Hb. unfold release_slot. destruct (domain_id c) as [d0|] eqn:Ed.
  - case_decide as Ha.
    + intros [Hne Hx]%lookup_delete_Some. split; [done|]. intros ->. specialize (Hb d Hx). congruence.
    + intros Hx. split; [done|]. intros ->. specialize (Hb d Hx). congruence.
  - intros Hx. split; [done|]. intros ->. by specialize (Hb d Hx).
Qed.

Lemma ck_detach w b c :
  checkpoints_ok w → vw_checkpoints w !! b = Some c → b ∈ vw_inflight w →
  let w' := mkView (vw_generator w) (vw_checkpoints w) (filter (λ x, x ≠ b) (vw_inflight w)) (vw_completing w)
    (release_slot c (vw_active w)) (vw_gate w) in
  checkpoints_ok w' ∧ monotone w w' ∧ closed w' b.
Proof.
  intros [Hg Hk Hn Hi Hco Ha Hgate] Hb Hin. cbn zeta. pose proof (Hk b c Hb) as [Hr Hc].
  split; [split|split; [split|split]]; cbn; try done.
  - by apply NoDup_filter.
  - intros x [_ Hx]%list_elem_of_filter. by apply Hi.
  - intros x Hx. destruct (Hco x Hx) as [Hnx ?]. split; [|done]. by intros [_ ?]%list_elem_of_filter.
  - intros d x Hx. apply (lookup_release_slot b) in Hx as [Hx Hne].
    + destruct (Ha d x Hx) as ([?|?] & ?); (split; [|done]); [left|by right]. by apply list_elem_of_filter.
    + by apply co_barrier.
    + intros d' Hd'. destruct (Ha d' b Hd') as (_ & c' & ? & ?). congruence.
  - intros Hs. by rewrite (Hgate Hs) in Hin; apply not_elem_of_nil in Hin.
  - intros x [? Hx]. split; [done|]. cbn. by intros [_ ?]%list_elem_of_filter.
  - intros x c0 ?. exists c0. split; [done|apply grows_refl].
  - intros [? _]%list_elem_of_filter. done.
Qed.

Lemma ck_complete w b c' :
  checkpoints_ok w → b ∈ vw_inflight w → checkpoint_ok b c' → aligned c' →
  (∀ c, vw_checkpoints w !! b = Some c → grows c c' ∧ domain_id c' = domain_id c) →
  let w' := mkView (vw_generator w) (alter (λ _, c') b (vw_checkpoints w)) (filter (λ x, x ≠ b) (vw_inflight w))
    ({[b]} ∪ vw_completing w) (vw_active w) (vw_gate w) in
  checkpoints_ok w' ∧ monotone w w' ∧ closed w' b ∧ vw_checkpoints w' !! b = Some c'.
Proof.
  intros [Hg Hk Hn Hi Hco Ha Hgate] Hin Hc' Hal Hgr. cbn zeta. destruct (Hi b Hin) as (c & Hb & _).
  pose proof (Hk b c Hb) as [Hr Hc]. destruct (Hgr c Hb) as [Hgr1 Hdom].
  assert (Hlook : alter (λ _, c') b (vw_checkpoints w) !! b = Some c') by by rewrite lookup_alter_eq, Hb.
  assert (Hother : ∀ x c0, x ≠ b → alter (λ _, c') b (vw_checkpoints w) !! x = Some c0 ↔ vw_checkpoints w !! x = Some c0).
  { intros x c0 Hne. by rewrite lookup_alter_ne. }
  split; [split|split; [split|split; [split|done]]]; cbn; try done.
  - intros x c0 Hx. destruct (decide (x = b)) as [->|Hne]; [rewrite Hlook in Hx; by injection Hx as <-|apply Hk; by apply Hother].
  - by apply NoDup_filter.
  - intros x [Hne Hx]%list_elem_of_filter. destruct (Hi x Hx) as (c0 & ? & ?). exists c0. split; [by apply Hother|done].
  - intros x Hx. destruct (decide (x = b)) as [->|Hne].
    + split; [by intros [? _]%list_elem_of_filter|]. by exists c'.
    + destruct (Hco x) as (Hnx & c0 & ? & ?); [set_solver|]. split; [by intros [_ ?]%list_elem_of_filter|]. exists c0. split; [by apply Hother|done].
  - intros d x Hx. destruct (Ha d x Hx) as (Hx' & c0 & Hc0 & ?). destruct (decide (x = b)) as [->|Hne].
    + split; [right; set_solver|]. exists c'. split; [done|]. congruence.
    + split; [destruct Hx'; [left; by apply list_elem_of_filter|right; set_solver]|]. exists c0. split; [by apply Hother|done].
  - intros Hs. by rewrite (Hgate Hs) in Hin; apply not_elem_of_nil in Hin.
  - intros x [[c0 Hx] Hnx]. split; [|cbn; by intros [_ ?]%list_elem_of_filter]. cbn.
    destruct (decide (x = b)) as [->|Hne]; [by exists c'|exists c0; by apply Hother].
  - intros x c0 Hx. destruct (decide (x = b)) as [->|Hne]; [exists c'; split; [done|]; by apply Hgr|].
    exists c0. split; [by apply Hother|apply grows_refl].
  - intros [? _]%list_elem_of_filter. done.
Qed.

Lemma ck_leave w b c :
  checkpoints_ok w → vw_checkpoints w !! b = Some c → b ∉ vw_inflight w →
  let w' := mkView (vw_generator w) (vw_checkpoints w) (vw_inflight w) (vw_completing w ∖ {[b]}) (release_slot c (vw_active w)) (vw_gate w) in
  checkpoints_ok w' ∧ monotone w w'.
Proof.
  intros [Hg Hk Hn Hi Hco Ha Hgate] Hb Hin. cbn zeta. pose proof (Hk b c Hb) as [Hr Hc].
  split; [split|split]; cbn; try done.
  - intros x Hx. apply Hco. set_solver.
  - intros d x Hx. apply (lookup_release_slot b) in Hx as [Hx Hne].
    + destruct (Ha d x Hx) as ([?|?] & ?); (split; [|done]); [by left|right; set_solver].
    + by apply co_barrier.
    + intros d' Hd'. destruct (Ha d' b Hd') as (_ & c' & ? & ?). congruence.
  - intros x c0 ?. exists c0. split; [done|apply grows_refl].
Qed.

(** A new barrier id, and the checkpoint it is for. *)
Lemma ck_next w : checkpoints_ok w →
  let w' := mkView (vw_generator w + 1) (vw_checkpoints w) (vw_inflight w) (vw_completing w) (vw_active w) (vw_gate w) in
  checkpoints_ok w' ∧ monotone w w' ∧ vw_checkpoints w' !! vw_generator w' = None.
Proof.
  intros [Hg Hk Hn Hi Hco Ha Hgate]. cbn zeta. split; [split|split; [split|]]; cbn; try done.
  - lia.
  - intros b c Hb. destruct (Hk b c Hb). split; [lia|done].
  - intros b c Hb. exists c. split; [done|apply grows_refl].
  - apply eq_None_not_Some. intros [c Hc]. destruct (Hk _ _ Hc). lia.
Qed.

Lemma ck_track w c :
  checkpoints_ok w → vw_checkpoints w !! vw_generator w = None → 0 < vw_generator w → vw_gate w = None →
  checkpoint_ok (vw_generator w) c → status c = IN_PROGRESS → ¬ aligned c →
  let w' := mkView (vw_generator w) (<[vw_generator w := c]> (vw_checkpoints w)) (vw_inflight w ++ [vw_generator w])
    (vw_completing w) (vw_active w) (vw_gate w) in
  checkpoints_ok w' ∧ monotone w w'.
Proof.
  intros [Hg Hk Hn Hi Hco Ha Hgate] Hfresh Hpos Hopen Hc Hst Hal. cbn zeta. set (b := vw_generator w) in *.
  assert (Hother : ∀ x c0, vw_checkpoints w !! x = Some c0 → x ≠ b ∧ <[b := c]> (vw_checkpoints w) !! x = Some c0).
  { intros x c0 Hx. assert (x ≠ b) by congruence. split; [done|]. by rewrite lookup_insert_ne. }
  split; [split|split]; cbn; try done.
  - intros x c0 [[<- <-]|[_ Hx]]%lookup_insert_Some; [split; [lia|done]|]. by apply Hk.
  - apply NoDup_app. split_and!; [done| |apply NoDup_singleton]. intros x Hx Hb%list_elem_of_singleton. subst x.
    destruct (Hi b Hx) as (c0 & ? & _). congruence.
  - intros x [Hx|Hx%list_elem_of_singleton]%elem_of_app; [|subst x].
    + destruct (Hi x Hx) as (c0 & Hx0 & ?). exists c0. split; [by apply Hother|done].
    + exists c. by rewrite lookup_insert_eq.
  - intros x Hx. destruct (Hco x Hx) as (? & c0 & Hx0 & ?). destruct (Hother x c0 Hx0). split.
    + by intros [?|?%list_elem_of_singleton]%elem_of_app.
    + by exists c0.
  - intros d x Hx. destruct (Ha d x Hx) as (Hx' & c0 & Hx0 & ?). split; [destruct Hx'; [left; apply elem_of_app; by left|by right]|].
    exists c0. split; [by apply Hother|done].
  - rewrite Hopen. by intros [? ?].
  - intros x [[c0 Hx] Hnx]. destruct (Hother x c0 Hx). split; [by exists c0|]. cbn.
    by intros [?|?%list_elem_of_singleton]%elem_of_app.
  - intros x c0 Hx. exists c0. split; [by apply Hother|apply grows_refl].
Qed.

Lemma ck_activate w b c d :
  checkpoints_ok w → vw_checkpoints w !! b = Some c → domain_id c = Some d → b ∈ vw_inflight w →
  let w' := mkView (vw_generator w) (vw_checkpoints w) (vw_inflight w) (vw_completing w) (<[d := b]> (vw_active w)) (vw_gate w) in
  checkpoints_ok w' ∧ monotone w w'.
Proof.
  intros [Hg Hk Hn Hi Hco Ha Hgate] Hc Hd Hb. cbn zeta. split; [split|split]; cbn; try done.
  - intros d' x [[<- <-]|[_ Hx]]%lookup_insert_Some; [|by apply Ha]. split; [by left|by exists c].
  - intros x c0 Hx. exists c0. split; [done|apply grows_refl].
Qed.

(** ** Transactions *)

Lemma ok_step T s s' h :
  coordinator_ok s h → view_of s' = view_of s → transactions_ok (view_of s) (tx s') h →
  progress_ok (view_of s) (tx s') (latest_source_states s') (durable_source_states s') h →
  (∀ b, closed (view_of s) b → b ∉ T → carries (tx s') b → carries (tx s) b) →
  coordinator_ok s' h ∧ G T s s'.
Proof. intros [Hck _ _ Hh] Ev Htx Hpr Hcar. split; [by split; rewrite ?Ev|]. split; [by rewrite Ev|done]. Qed.

Lemma ok_tx T s s' h :
  coordinator_ok s h → view_of s' = view_of s → latest_source_states s' = latest_source_states s →
  durable_source_states s' = durable_source_states s → transactions_ok (view_of s) (tx s') h →
  (∀ b, settled_in h (pending_sink_committables s).*1 b → settled_in h (pending_sink_committables s').*1 b) →
  (∀ b, closed (view_of s) b → b ∉ T → carries (tx s') b → carries (tx s) b) →
  coordinator_ok s' h ∧ G T s s'.
Proof.
  intros Hs Ev El Ed Htx' Hset Hcar. apply ok_step; [done..| |done]. destruct (ok_progress _ _ Hs) as [Hcol Hl Hd].
  split; [done| |by rewrite Ed]. rewrite El. intros k x Hin. destruct (Hl k x Hin) as [Hk [?|[? ?]]]; (split; [done|]); [by left|right].
  split; [done|]. by apply Hset.
Qed.

(** Replacing the bucket of a checkpoint that keeps its transactions. *)
Lemma tx_set_bucket w t h b es :
  transactions_ok w t h → is_Some (vw_checkpoints w !! b) → writer_entries b es →
  (∀ es0 k e, (b, es0) ∈ inflight_sink_committables_ t → (k, e) ∈ es0 → ∃ e', (k, e') ∈ es ∧ identity e' = identity e) →
  transactions_ok w (MkTx (dict_set b es (inflight_sink_committables_ t)) (pending_sink_committables_ t)
    (durable_sink_committables_ t) (carried_sink_committables_ t)) h.
Proof.
  intros [Hnd Hin Hdom Hcar Hpend Hdur Hlive] Hb Hes Hkeep. split; cbn; try done.
  - by apply NoDup_dict_set.
  - intros b' es' [[-> ->]|[_ Hin']]%elem_of_dict_set; [done|by apply Hin|done].
  - destruct Hlive as [?|Hlive]; [by left|right]. intros e He. destruct (Hlive e He) as [?|[(es0 & e' & Hes0 & He' & Hid)|?]]; [by left|right; left|right; by right].
    destruct (decide (se_checkpoint_id e = b)) as [<-|Hne].
    + destruct (Hkeep es0 _ e' Hes0 He') as (e'' & Hin'' & Hid''). exists es, e''. split_and!; [apply dict_set_In|done|congruence].
    + exists es0, e'. split_and!; [by apply dict_set_other|done|done].
Qed.

Lemma writer_entries_set b es k e :
  writer_entries b es → k = se_task_key e → se_checkpoint_id e = b → (∃ v, k = SubtaskKey v) → writer_entries b (dict_set k e es).
Proof.
  intros [Hnd Hes] Hk Hb Hv. split; [by apply NoDup_dict_set|]. intros k' e' [[-> ->]|[_ Hin]]%elem_of_dict_set; [done|by apply Hes|done].
Qed.

Lemma writer_entries_nil b : writer_entries (C := C) b [].
Proof. split; [constructor|]. by intros k e ?%not_elem_of_nil. Qed.

(** Carrying a bucket over to the next cut of its domain. *)
Lemma tx_carry w t h b es d :
  transactions_ok w t h → dict_get b (inflight_sink_committables_ t) = Some es → closed w b →
  transactions_ok w (MkTx (dict_pop b (inflight_sink_committables_ t)) (pending_sink_committables_ t) (durable_sink_committables_ t)
    (dict_set d (dict_update (default [] (dict_get d (carried_sink_committables_ t))) ((λ e, (identity e, e)) <$> es.*2))
       (carried_sink_committables_ t))) h ∧
  ∀ b', b' ≠ b → carries (MkTx (dict_pop b (inflight_sink_committables_ t)) (pending_sink_committables_ t) (durable_sink_committables_ t)
    (dict_set d (dict_update (default [] (dict_get d (carried_sink_committables_ t))) ((λ e, (identity e, e)) <$> es.*2))
       (carried_sink_committables_ t))) b' → carries t b'.
Proof.
  intros [Hnd Hin Hdom Hcar Hpend Hdur Hlive] Hb Hcl. set (t' := MkTx _ _ _ _).
  assert (Hes : (b, es) ∈ inflight_sink_committables_ t) by by apply dict_get_In. destruct (Hin b es Hes) as [_ [Hnde Hw]].
  assert (Hinv : ∀ i e, carried_in t' i e → carried_in t i e ∨ i = identity e ∧ ∃ k, (k, e) ∈ es).
  { intros i e (d' & l & Hl & Hie). apply dict_set_inv in Hl as [[-> ->]|Hl]; [|left; by exists d', l].
    apply dict_update_inv in Hie as [Hie|Hie].
    - left. destruct (dict_get d (carried_sink_committables_ t)) as [l|] eqn:El; [|by apply not_elem_of_nil in Hie].
      exists d, l. split; [by apply dict_get_In|done].
    - right. apply list_elem_of_fmap in Hie as (e0 & [= -> ->] & Hie). apply list_elem_of_fmap in Hie as ([k e1] & Heq & Hie).
      cbn in Heq. subst e1. split; [done|by exists k]. }
  assert (Hkeep : ∀ i e, carried_in t i e → ∃ e', carried_in t' i e').
  { intros i e (d' & l & Hl & Hie). destruct (decide (d' = d)) as [->|Hne].
    - apply dict_get_Some in Hl; [|done]. set (l' := dict_update (default [] (dict_get d (carried_sink_committables_ t))) ((λ e, (identity e, e)) <$> es.*2)).
      assert (i ∈ l'.*1) as Hi. { apply elem_of_dict_update_keys. left. rewrite Hl. apply list_elem_of_fmap. by exists (i, e). }
      apply list_elem_of_fmap in Hi as ([i0 e'] & -> & Hi). exists e', d, l'. split; [apply dict_set_In|done].
    - exists e, d', l. split; [by apply dict_set_other|done]. }
  split; [split; cbn; try done|].
  - by apply NoDup_dict_pop.
  - intros b' es' Hin'. apply Hin. by eapply dict_pop_inv.
  - by apply NoDup_dict_set.
  - intros i e [Hc|[-> [k Hk]]]%Hinv; [by apply Hcar|]. destruct (Hw k e Hk) as (<- & -> & Hv). done.
  - destruct Hlive as [?|Hlive]; [by left|right]. intros e He.
    destruct (Hlive e He) as [?|[(es0 & e' & Hes0 & He' & Hid)|[[e' Hc]|?]]]; [by left|..]; right.
    + destruct (decide (se_checkpoint_id e = b)) as [<-|Hne].
      * assert (es0 = es) as -> by (apply dict_get_Some in Hes0; [congruence|done]). right. left.
        set (l' := dict_update (default [] (dict_get d (carried_sink_committables_ t))) ((λ e, (identity e, e)) <$> es.*2)).
        assert (identity e ∈ l'.*1) as Hi.
        { apply elem_of_dict_update_keys. right. rewrite <-Hid. apply list_elem_of_fmap. exists (identity e', e'). split; [done|].
          apply list_elem_of_fmap. exists e'. split; [done|]. apply list_elem_of_fmap. by exists (se_task_key e, e'). }
        apply list_elem_of_fmap in Hi as ([i0 e''] & Heq & Hi). cbn in Heq. subst i0. exists e'', d, l'. split; [apply dict_set_In|done].
      * left. exists es0, e'. split_and!; [by apply dict_pop_other|done|done].
    + right. left. by eapply Hkeep.
    + right. by right.
  - intros b' Hne (i & e & Hc & Hb'). apply Hinv in Hc as [Hc|[-> [k Hk]]]; [by exists i, e|]. destruct (Hw k e Hk) as (_ & Heq & _). congruence.
Qed.

(** A transaction that was committed leaves the pending and the durable ones. *)
Lemma settled_pop h (pending : list (ident * entry)) i e0 b :
  Answered (CommitTransaction e0) (Ok ()) ∈ h → i = identity e0 → settled_in h pending.*1 b → settled_in h (dict_pop i pending).*1 b.
Proof.
  intros Hc -> [?|Hs]; [by left|right]. intros e He Hb. destruct (Hs e He Hb) as [?|(i & Hi & Hcov)]; [by left|].
  destruct (decide (i = identity e0)) as [->|Hne]; [left; by exists e0|]. right. exists i. split; [by apply elem_of_dict_pop_keys|done].
Qed.

Lemma tx_commit w t h i e0 (pop : bool) :
  transactions_ok w t h → Answered (CommitTransaction e0) (Ok ()) ∈ h → i = identity e0 →
  transactions_ok w (MkTx (inflight_sink_committables_ t) (if pop then dict_pop i (pending_sink_committables_ t) else pending_sink_committables_ t)
    (dict_pop i (durable_sink_committables_ t)) (carried_sink_committables_ t)) h.
Proof.
  intros [Hnd Hin Hdom Hcar Hpend Hdur Hlive] Hc ->. split; cbn; try done.
  - intros j e Hj. apply Hpend. destruct pop; [by eapply dict_pop_inv|done].
  - intros j e Hj. apply Hdur. by eapply dict_pop_inv.
  - destruct Hlive as [?|Hlive]; [by left|right]. intros e He. destruct (Hlive e He) as [?|[?|[?|(i & Hi & Hcov)]]]; [by left|right; by left|right; right; by left|].
    destruct (decide (i = identity e0)) as [->|Hne]; [left; by exists e0|]. right. right. right. exists i. split; [|done].
    destruct pop; [by apply elem_of_dict_pop_keys|done].
Qed.

(** The terminal flush gives up what is not in the metadata. *)
Lemma tx_abort w t h sinks carried :
  transactions_ok w t h → terminal h → (∃ b, sinks = dict_pop b (inflight_sink_committables_ t)) ∨ sinks = inflight_sink_committables_ t →
  carried = carried_sink_committables_ t ∨ carried = [] →
  transactions_ok w (MkTx sinks (pending_sink_committables_ t) (durable_sink_committables_ t) carried) h.
Proof.
  intros [Hnd Hin Hdom Hcar Hpend Hdur Hlive] Ht Hs Hc. split; cbn; try done.
  - destruct Hs as [[b ->]| ->]; [by apply NoDup_dict_pop|done].
  - intros b' es Hb'. apply Hin. destruct Hs as [[b ->]| ->]; [by eapply dict_pop_inv|done].
  - destruct Hc as [->| ->]; [done|constructor].
  - intros i e (d & l & Hl & Hi). apply Hcar. destruct Hc as [->| ->]; [by exists d, l|by apply not_elem_of_nil in Hl].
  - by left.
Qed.

(** Other domains for the transactions carried over. *)
Lemma tx_remap w t h carried :
  transactions_ok w t h → NoDup carried.*1 →
  (∀ d l i e, (d, l) ∈ carried → (i, e) ∈ l → carried_in t i e) →
  (∀ i e, carried_in t i e → ∃ e' d l, (d, l) ∈ carried ∧ (i, e') ∈ l) →
  transactions_ok w (MkTx (inflight_sink_committables_ t) (pending_sink_committables_ t) (durable_sink_committables_ t) carried) h.
Proof.
  intros [Hnd Hin Hdom Hcar Hpend Hdur Hlive] Hc Hinv Hkeep. split; cbn; try done.
  - intros i e (d & l & Hl & Hi). apply Hcar. by eapply Hinv.
  - destruct Hlive as [?|Hlive]; [by left|right]. intros e He. destruct (Hlive e He) as [?|[?|[[e' Hce]|?]]]; [by left|right; by left| |right; right; by right].
    right. right. left. destruct (Hkeep _ _ Hce) as (e'' & d & l & ? & ?). by exists e'', d, l.
Qed.
End invariant.
