(* ===== verification/CoordinatorSteps.v ===== *)
(** * The atomic steps of the checkpoint coordinator keep its invariant

    One lemma for each piece of a method between two suspension points: admission and
    acknowledgement, the bookkeeping of sink transactions, the merge of a completed cut,
    the installation of metadata, and [open]. *)
From S2P Require Import Prelude Dicts Effects Coroutines Checkpoints Coordinator CoordinatorInvariant.
Open Scope Z_scope.

Section steps.
Context {C St P Ref OE : Type} (transaction_id : C → string) (global_commit_namespace : C → option string)
  (combine_committables : C → list C → string → outcome C) (sha256_hexdigest : string → string)
  (checksum : Ref → string) (cache_partition : bytes → Ref) (wall monotonic : nat → Z) (cfg : coordinator_config).

Abbreviation st := (state C St P Ref OE).
Abbreviation act := (exec st).
Abbreviation meth := (method (C := C) (P := P) (Ref := Ref)).
Abbreviation ev := (event (answer (C := C) (St := St) (P := P) (Ref := Ref) (OE := OE)) (reply (C := C) (P := P) (Ref := Ref))).
Abbreviation hist := (list ev).
Abbreviation entry := (sink_entry C).
Abbreviation identity := (identity transaction_id).
Abbreviation coordinator_ok := (coordinator_ok transaction_id combine_committables).
Abbreviation G := (G (C := C) (St := St) (P := P) (Ref := Ref) (OE := OE)).
Implicit Types (s : st) (h : hist) (e : entry) (b : Z) (w : view).

(** ** Steps without a condition *)

(** A step any method may make at any time. *)
Definition okay s s' : Prop := ∀ h, coordinator_ok s h → coordinator_ok s' h ∧ G ∅ s s'.

#[local] Instance okay_preorder : PreOrder okay.
Proof.
  split.
  - intros s h Hs. split; [done|apply G_refl].
  - intros s1 s2 s3 H1 H2 h Hs. destruct (H1 h Hs) as [Hs2 ?]. destruct (H2 h Hs2) as [Hs3 ?]. split; [done|by eapply G_trans].
Qed.

(** Nothing the invariant reads changes. *)
Definition untouched s s' : Prop :=
  view_of s' = view_of s ∧ tx s' = tx s ∧ latest_source_states s' = latest_source_states s ∧
  durable_source_states s' = durable_source_states s.

#[local] Instance untouched_preorder : PreOrder untouched.
Proof. split; [by intros s|]. intros s1 s2 s3 (?&?&?&?) (?&?&?&?). split_and!; congruence. Qed.

Lemma okay_frame s s' : untouched s s' → okay s s'.
Proof. intros (Ev & Et & El & Ed) h Hs. destruct (ok_frame _ _ s s' h Ev Et El Ed Hs) as [? HG]. split; [done|apply HG]. Qed.

Lemma keeps_untouched {A} (m : act A) : keeps untouched m → keeps okay m.
Proof. intros Hm s. by apply okay_frame. Qed.

(** A step of a method that owns [T], with a precondition and a postcondition. *)
Definition step_of {A} (T : gset Z) (Φ : st → hist → Prop) (m : act A) (Ψ : outcome A → st → hist → Prop) : Prop :=
  ∀ s h, coordinator_ok s h → Φ s h → coordinator_ok (m s).2 h ∧ G T s (m s).2 ∧ Ψ (m s).1 (m s).2 h.
Abbreviation hoare := (step_of ∅).

Lemma keeps_step_of {A} T (m : act A) Φ : keeps okay m → step_of T Φ m (λ _ _ _, True).
Proof. intros Hm s h Hs _. destruct (Hm s h Hs). split_and!; [done| |done]. by eapply G_mono; [apply empty_subseteq|]. Qed.
Lemma keeps_hoare {A} (m : act A) Φ : keeps okay m → hoare Φ m (λ _ _ _, True).
Proof. apply keeps_step_of. Qed.

Lemma hoare_keeps {A} (m : act A) Ψ : hoare (λ _ _, True) m Ψ → keeps okay m.
Proof. intros Hm s h Hs. by destruct (Hm s h Hs I) as (? & ? & _). Qed.

Lemma hoare_bind {A B} T Φ (m : act A) (f : A → act B) Θ Ψ :
  step_of T Φ m Θ → (∀ a, step_of T (Θ (Ok a)) (f a) Ψ) → (∀ x s h, Θ (Err x) s h → Ψ (Err x) s h) → step_of T Φ (m ≫= f) Ψ.
Proof.
  intros Hm Hf He s h Hs HP. destruct (Hm s h Hs HP) as (Hs1 & HG1 & HM). unfold mbind, exec_bind.
  destruct (m s) as [[a|x] s1]; cbn in *.
  - destruct (Hf a s1 h Hs1 HM) as (? & ? & ?). split_and!; try done. by eapply G_trans.
  - split_and!; try done. by apply He.
Qed.

Lemma hoare_gets {A} T Φ (f : st → A) Ψ : (∀ s h, coordinator_ok s h → Φ s h → Ψ (Ok (f s)) s h) → step_of T Φ (gets f) Ψ.
Proof. intros HQ s h Hs HP. cbn. split_and!; [done|apply G_refl|by apply HQ]. Qed.

Lemma hoare_ret {A} T Φ (a : A) Ψ : (∀ s h, coordinator_ok s h → Φ s h → Ψ (Ok a) s h) → step_of T Φ (mret a) Ψ.
Proof. intros HQ s h Hs HP. cbn. split_and!; [done|apply G_refl|by apply HQ]. Qed.

Lemma hoare_mono {A} T Φ Φ' (m : act A) Ψ Ψ' :
  step_of T Φ' m Ψ' → (∀ s h, Φ s h → Φ' s h) → (∀ r s h, Ψ' r s h → Ψ r s h) → step_of T Φ m Ψ.
Proof. intros Hm HP HQ s h Hs HPs. destruct (Hm s h Hs) as (? & ? & ?); auto. Qed.

(** What every step keeps. *)
Lemma hoare_invariant {A} T (Φ : st → hist → Prop) (m : act A) :
  (∀ s s' h, G T s s' → Φ s h → Φ s' h) → keeps okay m → step_of T Φ m (λ _, Φ).
Proof. intros HΦ Hm s h Hs HP. destruct (Hm s h Hs). assert (G T s (m s).2) by (by eapply G_mono; [apply empty_subseteq|]). split_and!; [done|done|by eapply HΦ]. Qed.

Lemma bind_get_graph {B} (k : ExecutionGraph → act B) s :
  (get_graph ≫= k) s = match execution_graph s with Some g => k g s | None => (Err AttributeError, s) end.
Proof. unfold mbind, exec_bind, get_graph. by destruct (execution_graph s). Qed.
Lemma bind_checkpoint_of {B} b (k : Checkpoint → act B) s :
  (checkpoint_of b ≫= k) s = match checkpoints s !! b with Some c => k c s | None => (Err KeyError, s) end.
Proof. unfold mbind, exec_bind, checkpoint_of. by destruct (checkpoints s !! b). Qed.
Lemma bind_now_ms {B} (k : Z → act B) s : (now_ms wall ≫= k) s = k (wall (clock_reads s)) (set_clock_reads S s).
Proof. done. Qed.
Lemma bind_update {B} b f (k : unit → act B) s : (update_checkpoint b f ≫= k) s = k () (set_checkpoints (alter f b) s).
Proof. done. Qed.
Hint Rewrite @bind_get_graph @bind_checkpoint_of @bind_now_ms @bind_update : exec.

Lemma keeps_now_ms : keeps untouched (now_ms wall).
Proof. by intros s. Qed.
Lemma keeps_now_monotonic : keeps untouched (now_monotonic monotonic).
Proof. by intros s. Qed.
Lemma keeps_checkpoint_of b : keeps untouched (checkpoint_of b).
Proof. by intros s. Qed.
Lemma keeps_get_graph : keeps untouched get_graph.
Proof. by intros s. Qed.
(** Programs of such steps, by their structure. *)
Ltac keeps_step :=
  lazymatch goal with
  | |- keeps untouched (modify _) => apply keeps_modify; intros; split_and!; reflexivity
  | |- keeps untouched (now_ms _) => apply keeps_now_ms
  | |- keeps untouched (now_monotonic _) => apply keeps_now_monotonic
  | |- keeps untouched (checkpoint_of _) => apply keeps_checkpoint_of
  | |- keeps untouched get_graph => apply keeps_get_graph
  | |- keeps untouched (send _) => unfold send
  | |- keeps _ (gets _) => apply keeps_gets; apply _
  | |- keeps _ (throw _) => apply keeps_throw; apply _
  | |- keeps _ (of_outcome _) => apply keeps_of_outcome; apply _
  | |- keeps _ (mret _) => apply keeps_ret; apply _
  | |- keeps _ (exec_each _ _) => apply keeps_exec_each; [apply _|intros]
  | |- keeps _ (_ ≫= _) => apply keeps_bind; [apply _| |intros]
  | |- keeps _ (match ?x with _ => _ end) => destruct x
  end.

Ltac keeps := repeat (first [assumption | keeps_step]).
Ltac frames := apply keeps_untouched; keeps.

(** ** Checkpoints *)

Lemma okay_view s s' :
  (∀ h, coordinator_ok s h → checkpoints_ok (view_of s') ∧ monotone (view_of s) (view_of s')) → tx s' = tx s →
  latest_source_states s' = latest_source_states s → durable_source_states s' = durable_source_states s → okay s s'.
Proof.
  intros Hv Et El Ed h Hs. destruct (Hv h Hs) as [Hck Hm].
  destruct (ok_view _ _ s s' h Hs Hck Hm Et El Ed) as [? HG]. split; [done|apply HG].
Qed.

Lemma ok_known s h b c : coordinator_ok s h → checkpoints s !! b = Some c → checkpoint_ok b c.
Proof. intros Hs Hb. by apply (ck_known _ (ok_checkpoints _ _ _ _ Hs) b c). Qed.

Lemma ok_barrier s h b c : coordinator_ok s h → checkpoints s !! b = Some c → barrier_id c = b.
Proof. intros Hs Hb. by eapply co_barrier, ok_known. Qed.

Lemma ok_inflight s h b : coordinator_ok s h → b ∈ inflight_checkpoints s →
  ∃ c, checkpoints s !! b = Some c ∧ status c = IN_PROGRESS ∧ ¬ aligned c.
Proof. intros Hs Hb. by apply (ck_inflight _ (ok_checkpoints _ _ _ _ Hs) b). Qed.

(** An update of one checkpoint object. *)
Lemma hoare_update b f (Φ : st → hist → Prop) :
  (∀ s h c, coordinator_ok s h → Φ s h → checkpoints s !! b = Some c → checkpoint_ok b c →
     checkpoint_ok b (f c) ∧ grows c (f c) ∧ domain_id (f c) = domain_id c ∧
     (b ∈ inflight_checkpoints s → status (f c) = IN_PROGRESS ∧ ¬ aligned (f c))) →
  hoare Φ (update_checkpoint b f) (λ _ _ _, True).
Proof.
  intros Hf s h Hs HP. destruct (ck_update (view_of s) b f (ok_checkpoints _ _ _ _ Hs)) as [Hck Hm].
  { intros c Hc Hcok. by apply (Hf s h c). }
  destruct (ok_view _ _ s (set_checkpoints (alter f b) s) h Hs Hck Hm eq_refl eq_refl eq_refl) as [Hs' HG]. split_and!; [done|apply HG|done].
Qed.

Lemma mark_failed_ok b c now : checkpoint_ok b c → checkpoint_ok b (mark_failed now c) ∧ grows c (mark_failed now c).
Proof. intros []. split; by split. Qed.

Lemma mark_complete_ok b c now : checkpoint_ok b c → aligned c → checkpoint_ok b (mark_complete now c) ∧ grows c (mark_complete now c).
Proof. intros [] ?. split; by split. Qed.

Definition is_closed b : st → hist → Prop := λ s _, closed (view_of s) b.

Lemma step_failed b : hoare (is_closed b) (update_checkpoint_failed wall b) (λ _ _ _, True).
Proof.
  eapply (hoare_bind _ _ _ _ (λ _, is_closed b)); [| |done].
  - intros s h Hs Hb. destruct (keeps_untouched _ keeps_now_ms s h Hs) as [? HG]. split_and!; [done|done|]. by eapply G_closed.
  - intros now. apply hoare_update. intros s h c Hs [_ Hb] Hc Hcok. destruct (mark_failed_ok b c now Hcok). split_and!; done.
Qed.

Lemma step_source_started b v is_eof : keeps okay (source_checkpoint_started b v is_eof).
Proof.
  unfold source_checkpoint_started. apply keeps_bind; [apply _|frames|]. intros inflight. case_match; [frames|].
  intros s h Hs. unfold mbind, exec_bind, checkpoint_of. destruct (checkpoints s !! b) as [c|] eqn:Ec; cbn -[mark_source_started].
  2: { split; [done|apply G_refl]. }
  destruct (is_terminal (status c)); [split; [done|apply G_refl]|].
  destruct (mark_source_started v is_eof c) as [joined c'] eqn:Em. cbn.
  destruct (hoare_update b (λ _, c') (λ s' _, s' = s)) with (s := s) (h := h) as (? & ? & _); [|done|done|done].
  intros ? h' c0 Hs' -> Hc0 Hcok. rewrite Ec in Hc0. injection Hc0 as <-. unfold mark_source_started in Em.
  destruct (decide (v ∈ trigger_sources c)) as [Hv|Hv].
  - rewrite bool_decide_true in Em by done. injection Em as <- <-. split_and!; [|by split|done|].
    + destruct Hcok as [? ? ? ? Hsrc ?]. split; try done. intros x. cbn. destruct (Hsrc x). destruct is_eof; set_solver.
    + intros Hb. destruct (ok_inflight s h' b Hs' Hb) as (c1 & ? & ? & ?). assert (c1 = c) as -> by congruence. done.
  - rewrite bool_decide_false in Em by done. injection Em as <- <-. split_and!; [done|apply grows_refl|done|].
    intros Hb. destruct (ok_inflight s h' b Hs' Hb) as (c1 & ? & ? & ?). by assert (c1 = c) as -> by congruence.
Qed.

(** Taking a checkpoint out of the in-flight ones, with its domain slot. *)
Definition detach b : act unit := _ ← pop_inflight b; c ← checkpoint_of b; release_domain_slot c.

Lemma detach_state s h b : coordinator_ok s h → b ∈ inflight_checkpoints s →
  ∃ c s', checkpoints s !! b = Some c ∧ detach b s = (Ok (), s') ∧ tx s' = tx s ∧
    view_of s' = mkView (generator s) (checkpoints s) (filter (λ x, x ≠ b) (inflight_checkpoints s)) (completing_checkpoints s)
      (release_slot c (active_checkpoint_by_domain s)) (rescale_operation_id s) ∧
    latest_source_states s' = latest_source_states s ∧ durable_source_states s' = durable_source_states s.
Proof.
  intros Hs Hb. destruct (ok_inflight s h b Hs Hb) as (c & Hc & _). set (s1 := set_inflight_checkpoints (filter (λ x, x ≠ b)) s).
  assert (detach b s = release_domain_slot c s1) as E.
  { unfold detach. rewrite (exec_bind_Ok (pop_inflight b) _ s () s1) by done. apply (exec_bind_Ok _ _ _ c s1). unfold checkpoint_of.
    by replace (checkpoints s1 !! b) with (Some c) by (symmetry; exact Hc). }
  exists c, (release_domain_slot c s1).2. rewrite E. split; [done|]. unfold release_domain_slot, modify, release_slot. cbn [fst snd].
  destruct (domain_id c) as [d|]; [|done]. change (active_checkpoint_by_domain s1) with (active_checkpoint_by_domain s).
  by destruct (decide (active_checkpoint_by_domain s !! d = Some (barrier_id c))).
Qed.

Lemma step_detach s h b : coordinator_ok s h → b ∈ inflight_checkpoints s →
  ∃ s', detach b s = (Ok (), s') ∧ coordinator_ok s' h ∧ G ∅ s s' ∧ closed (view_of s') b ∧ tx s' = tx s ∧
    inflight_checkpoints s' = filter (λ x, x ≠ b) (inflight_checkpoints s).
Proof.
  intros Hs Hb. destruct (detach_state s h b Hs Hb) as (c & s' & Hc & E & Et & Ev & El & Ed).
  destruct (ck_detach (view_of s) b c (ok_checkpoints _ _ _ _ Hs) Hc Hb) as (Hck & Hm & Hcl). cbn in Hck, Hm, Hcl.
  rewrite <-Ev in Hck, Hm, Hcl. destruct (ok_view _ _ s s' h Hs Hck Hm Et El Ed) as [Hs' HG].
  exists s'. split_and!; try done. exact (f_equal vw_inflight Ev).
Qed.

Lemma exec_each_detach bs : exec_each (λ b, _ ← pop_inflight b; c ← checkpoint_of b; release_domain_slot c) bs = exec_each detach bs.
Proof. done. Qed.

(** All of them, for the gate of a rescale. *)
Lemma step_detach_all bs s h : coordinator_ok s h → NoDup bs → (∀ b, b ∈ bs → b ∈ inflight_checkpoints s) →
  ∃ s', exec_each detach bs s = (Ok (), s') ∧ coordinator_ok s' h ∧ G ∅ s s' ∧ (∀ b, b ∈ bs → closed (view_of s') b) ∧
    inflight_checkpoints s' = filter (λ x, x ∉ bs) (inflight_checkpoints s).
Proof.
  revert s. induction bs as [|b bs IH]; intros s Hs Hnd Hin.
  - exists s. split_and!; [done|done|apply G_refl|by intros ? ?%not_elem_of_nil|].
    symmetry. apply filter_all. intros x _. apply not_elem_of_nil.
  - apply NoDup_cons in Hnd as [Hb Hnd]. destruct (step_detach s h b Hs) as (s1 & E1 & Hs1 & HG1 & Hc1 & _ & Ei); [apply Hin; by left|].
    destruct (IH s1 Hs1 Hnd) as (s2 & E2 & Hs2 & HG2 & Hc2 & Ei2).
    { intros x Hx. rewrite Ei. apply list_elem_of_filter. split; [by intros ->|]. apply Hin. by right. }
    exists s2. split_and!.
    + cbn [exec_each]. by rewrite (exec_bind_Ok _ _ _ _ _ E1).
    + done.
    + by eapply G_trans.
    + intros x [->|Hx]%elem_of_cons; [by eapply G_closed|by apply Hc2].
    + rewrite Ei2, Ei, list_filter_filter. apply list_filter_iff. intros x. rewrite not_elem_of_cons. tauto.
Qed.

Lemma step_release_slot b c s h :
  coordinator_ok s h → closed (view_of s) b → checkpoints s !! b = Some c →
  ∃ s', leave_completion b s = (Ok (), s') ∧ coordinator_ok s' h ∧ G ∅ s s'.
Proof.
  intros Hs [_ Hb] Hc.
  assert (∃ s', leave_completion b s = (Ok (), s') ∧ tx s' = tx s ∧
    view_of s' = mkView (generator s) (checkpoints s) (inflight_checkpoints s) (completing_checkpoints s ∖ {[b]})
      (release_slot c (active_checkpoint_by_domain s)) (rescale_operation_id s) ∧
    latest_source_states s' = latest_source_states s ∧ durable_source_states s' = durable_source_states s) as (s' & E & Et & Ev & El & Ed).
  { exists ((leave_completion b s).2). unfold leave_completion, mbind, exec_bind, checkpoint_of. rewrite Hc. cbn -[release_domain_slot].
    unfold release_domain_slot, modify, release_slot. cbn [fst snd].
    destruct (domain_id c) as [d|]; [|done]. by destruct (decide (active_checkpoint_by_domain s !! d = Some (barrier_id c))). }
  destruct (ck_leave (view_of s) b c (ok_checkpoints _ _ _ _ Hs) Hc Hb) as (Hck & Hm). cbn in Hck, Hm.
  rewrite <-Ev in Hck, Hm. destruct (ok_view _ _ s s' h Hs Hck Hm Et El Ed) as [Hs' HG]. by exists s'.
Qed.

Lemma step_leave b : hoare (is_closed b) (leave_completion b) (λ r _ _, r = Ok ()).
Proof.
  intros s h Hs Hb. destruct Hb as [[c Hc] Hb]. destruct (step_release_slot b c s h Hs) as (s' & E & ? & ?); [split; [by exists c|done]|done|].
  by rewrite E.
Qed.

(** The acknowledgement of one sink. *)
Lemma acknowledge_ok b c v now : checkpoint_ok b c → foreign_committer c v = false → status c = IN_PROGRESS → ¬ aligned c →
  let '(done, c') := Checkpoints.acknowledge v now c in
  checkpoint_ok b c' ∧ grows c c' ∧ domain_id c' = domain_id c ∧ (done = true → aligned c') ∧ (done = false → status c' = IN_PROGRESS ∧ ¬ aligned c').
Proof.
  intros Hc Hf Hst Hal. unfold Checkpoints.acknowledge. rewrite Hf. destruct (decide (v ∈ acknowledged_by c)) as [Hv|Hv].
  { rewrite bool_decide_true by done. rewrite Hst. rewrite bool_decide_false by done. split_and!; [done|apply grows_refl|done..]. }
  rewrite bool_decide_false by done. set (c1 := record_acknowledgement v now c).
  assert (checkpoint_ok b c1 ∧ grows c c1) as [Hc1 Hg1].
  { destruct Hc as [? ? Hn Hcom ? Hcompl]. split; [split; cbn; try done|split; cbn; [lia|done]].
    - rewrite size_union by set_solver. rewrite size_singleton, Hn. lia.
    - intros Hne. destruct (Hcom Hne) as (? & ? & Hall). split_and!; [done..|]. intros x [->%elem_of_singleton|?]%elem_of_union; [|by apply Hall].
      unfold foreign_committer in Hf. rewrite bool_decide_false in Hf by done. cbn in Hf. by apply negb_false_iff, bool_decide_eq_true in Hf.
    - rewrite Hst. done. }
  assert (0 < required_acknowledgements c1) as Hpos by apply (co_required _ _ Hc1).
  replace (0 <? required_acknowledgements c1) with true by lia. cbn [andb].
  destruct (required_acknowledgements c1 <=? acknowledgements c1) eqn:Ea.
  - split_and!; [|by destruct Hg1; split|done| |done].
    + destruct Hc1. by split.
    + intros _. unfold aligned. cbn in *. lia.
  - split_and!; [done|done|done| |].
    + intros Hx. apply bool_decide_eq_true in Hx. cbn in Hx. congruence.
    + intros _. split; [done|]. unfold aligned. lia.
Qed.

(** A checkpoint the caller is to complete. *)
Definition completes b s s' : Prop :=
  b ∈ inflight_checkpoints s ∧ closed (view_of s') b ∧ tx s' = tx s ∧ ∃ c, checkpoints s' !! b = Some c ∧ aligned c.

Lemma step_acknowledge b v s h : coordinator_ok s h →
  coordinator_ok (acknowledge_barrier wall b v s).2 h ∧ G ∅ s (acknowledge_barrier wall b v s).2 ∧
  ((acknowledge_barrier wall b v s).1 = Ok None → completes b s (acknowledge_barrier wall b v s).2).
Proof.
  intros Hs. assert (Hrefl : ∀ r : outcome (option bool), r ≠ Ok None →
    coordinator_ok s h ∧ G ∅ s s ∧ (r = Ok None → completes b s s)) by (intros; split_and!; [done|apply G_refl|done]).
  unfold acknowledge_barrier. autorewrite with exec. destruct (stopping s); [by apply Hrefl|]. autorewrite with exec.
  destruct (execution_graph s) as [g|]; [|by apply Hrefl]. autorewrite with exec.
  destruct (execution_vertex g v); [|by apply Hrefl]. autorewrite with exec.
  destruct (decide (b ∈ inflight_checkpoints s)) as [Hin|Hin]; [rewrite bool_decide_true by done|rewrite bool_decide_false by done; by apply Hrefl].
  cbn [negb]. autorewrite with exec. destruct (ok_inflight s h b Hs Hin) as (c & Hc & Hst & Hal). rewrite Hc, Hst. cbn [is_terminal].
  destruct (foreign_committer c v) eqn:Ef; [by apply Hrefl|]. autorewrite with exec.
  pose proof (acknowledge_ok b c v (wall (clock_reads s)) (ok_known s h b c Hs Hc) Ef Hst Hal) as Hack.
  destruct (Checkpoints.acknowledge v (wall (clock_reads s)) c) as [[] c']; destruct Hack as (Hc' & Hgr & Hdom & Ht & Hfl).
  - set (s' := set_completing_checkpoints (λ x, {[b]} ∪ x) (set_inflight_checkpoints (filter (λ x, x ≠ b))
      (set_checkpoints (alter (λ _, c') b) (set_clock_reads S s))) : st).
    change (coordinator_ok s' h ∧ G ∅ s s' ∧ (Ok (None : option bool) = Ok None → completes b s s')).
    destruct (ck_complete (view_of s) b c' (ok_checkpoints _ _ _ _ Hs) Hin Hc' (Ht eq_refl)) as (Hck & Hm & Hcl & Hlook).
    { intros c0 Hc0. cbn in Hc0. rewrite Hc in Hc0. by injection Hc0 as <-. }
    destruct (ok_view _ _ s s' h Hs Hck Hm eq_refl eq_refl eq_refl) as [Hs' HG]. split_and!; [done|apply HG|]. intros _.
    split_and!; [done|done|done|]. exists c'. split; [exact Hlook|by apply Ht].
  - set (s' := set_checkpoints (alter (λ _, c') b) (set_clock_reads S s) : st).
    change (coordinator_ok s' h ∧ G ∅ s s' ∧ (Ok (Some true) = Ok None → completes b s s')). destruct (ck_update (view_of s) b (λ _, c') (ok_checkpoints _ _ _ _ Hs)) as [Hck Hm].
    { intros c0 Hc0 _. cbn in Hc0. rewrite Hc in Hc0. injection Hc0 as <-. split_and!; [done|done|done|]. intros _. by apply Hfl. }
    destruct (ok_view _ _ s s' h Hs Hck Hm eq_refl eq_refl eq_refl) as [Hs' HG]. split_and!; [done|apply HG|done].
Qed.

(** ** Admission *)

Lemma step_next : hoare (λ s _, rescale_operation_id s = None) next_barrier (λ r s _,
  ∀ b, r = Ok b → generator s = b ∧ 0 < b ∧ checkpoints s !! b = None ∧ rescale_operation_id s = None).
Proof.
  intros s h Hs Hgate. set (s' := set_generator (λ _, generator s + 1) s).
  destruct (ck_next (view_of s) (ok_checkpoints _ _ _ _ Hs)) as (Hck & Hm & Hf).
  destruct (ok_view _ _ s s' h Hs Hck Hm eq_refl eq_refl eq_refl) as [Hs' HG]. split_and!; [done|apply HG|]. intros b [= <-].
  split_and!; [done| |exact Hf|done]. pose proof (ck_generator _ (ok_checkpoints _ _ _ _ Hs)). cbn in *. lia.
Qed.

(** A cut that can be registered. *)
Definition cut_ok (committers : list vid) (required : Z) : Prop :=
  0 < required ∧ (committers ≠ [] → NoDup committers ∧ required = Z.of_nat (length committers)).

Lemma checkpoint_init_ok b required sources coordinated domain committers now :
  cut_ok committers required →
  let c := mark_in_progress now (Checkpoint_init b required sources coordinated domain committers) in
  checkpoint_ok b c ∧ status c = IN_PROGRESS ∧ ¬ aligned c.
Proof.
  intros [Hr Hc]. cbn zeta. split_and!; [split; cbn; try done|done|unfold aligned; cbn; lia].
  intros Hne. destruct (Hc Hne). split_and!; [done|done|]. by intros v ?%not_elem_of_empty.
Qed.

Definition fresh b : st → hist → Prop := λ s _, generator s = b ∧ 0 < b ∧ checkpoints s !! b = None ∧ rescale_operation_id s = None.

Definition registered b (domain : option string) : st → hist → Prop := λ s _,
  b ∈ inflight_checkpoints s ∧ ∃ c, checkpoints s !! b = Some c ∧ domain_id c = domain.

Lemma step_track b required sources coordinated domain committers :
  cut_ok committers required →
  hoare (fresh b) (track_checkpoint wall cfg (Checkpoint_init b required sources coordinated domain committers)) (λ _, registered b domain).
Proof.
  intros Hcut s h Hs (Hgen & Hpos & Hnone & Hgate). unfold track_checkpoint. autorewrite with exec.
  set (c := mark_in_progress _ _). destruct (checkpoint_init_ok b required sources coordinated domain committers
    (wall (clock_reads s)) Hcut) as (Hc & Hst & Hal). fold c in Hc, Hst, Hal.
  set (s' := set_checkpoints (insert b c) (set_clock_reads S (set_inflight_checkpoints (λ l, l ++ [b])
    (set_checkpoint_history (λ l, keep_last (history_size cfg) (l ++ [b])) s))) : st).
  change (coordinator_ok s' h ∧ G ∅ s s' ∧ registered b domain s' h).
  destruct (ck_track (view_of s) c) as [Hck Hm]; cbn; rewrite ?Hgen; try done; [apply (ok_checkpoints _ _ _ _ Hs)|].
  cbn in Hck, Hm. rewrite Hgen in Hck, Hm.
  assert (view_of s' = mkView b (<[b := c]> (checkpoints s)) (inflight_checkpoints s ++ [b]) (completing_checkpoints s)
    (active_checkpoint_by_domain s) (rescale_operation_id s)) as Ev by (rewrite <-Hgen at 1; done).
  rewrite <-Ev in Hck, Hm. destruct (ok_view _ _ s s' h Hs Hck Hm eq_refl eq_refl eq_refl) as [Hs' HG]. split_and!; [done|apply HG|].
  split; [apply elem_of_app; right; by left|]. exists c. split; [|done]. apply (lookup_insert_eq (checkpoints s) b c).
Qed.

Lemma step_activate b d Φ : (∀ s h, Φ s h → registered b (Some d) s h) →
  hoare Φ (modify (set_active_checkpoint_by_domain (insert d b))) (λ _ _ _, True).
Proof.
  intros HP s h Hs Hp. destruct (HP s h Hp) as (Hin & c & Hc & Hd).
  set (s' := set_active_checkpoint_by_domain (insert d b) s : st). change (coordinator_ok s' h ∧ G ∅ s s' ∧ True).
  destruct (ck_activate (view_of s) b c d (ok_checkpoints _ _ _ _ Hs) Hc Hd Hin) as [Hck Hm].
  destruct (ok_view _ _ s s' h Hs Hck Hm eq_refl eq_refl eq_refl) as [Hs' HG]. split_and!; [done|apply HG|done].
Qed.

Lemma NoDup_sort_vertices vs : NoDup (sort_vertices vs).
Proof. unfold sort_vertices. rewrite merge_sort_Permutation. apply NoDup_elements. Qed.

Lemma requested_cut_ok s v domain sources committers required :
  requested_cut s v = Some (domain, sources, committers, required) → 0 < required → cut_ok committers required.
Proof.
  unfold requested_cut. intros E Hr. split; [done|]. destruct (execution_graph s) as [g|]; [destruct (checkpoint_domain_for_source s v) as [d|]|].
  - case_bool_decide; [|done]. injection E as <- <- <- <-. intros _. split; [apply NoDup_sort_vertices|done].
  - by injection E as <- <- <- <-.
  - by injection E as <- <- <- <-.
Qed.

Lemma keeps_request_domain_sources c v : keeps okay (request_domain_sources c v).
Proof. unfold request_domain_sources. frames. Qed.

(** A registration, from the new barrier id on. *)
Lemma step_admit b required sources coordinated domain committers (k : act CheckpointRegistration) Φ :
  cut_ok committers required → (∀ s h, Φ s h → fresh b s h) → keeps okay k →
  hoare Φ (_ ← track_checkpoint wall cfg (Checkpoint_init b required sources coordinated (Some domain) committers);
           _ ← modify (set_active_checkpoint_by_domain (insert domain b)); k) (λ _ _ _, True).
Proof.
  intros Hcut HΦ Hk. eapply (hoare_bind _ _ _ _ (λ _, registered b (Some domain))); [|intros _|done].
  - eapply hoare_mono; [by apply step_track|exact HΦ|done].
  - eapply (hoare_bind _ _ _ _ (λ _ _ _, True)); [by apply step_activate|intros _; by apply keeps_hoare|done].
Qed.

Lemma step_admit_free b required sources coordinated committers (k : act CheckpointRegistration) Φ :
  cut_ok committers required → (∀ s h, Φ s h → fresh b s h) → keeps okay k →
  hoare Φ (_ ← track_checkpoint wall cfg (Checkpoint_init b required sources coordinated None committers); k) (λ _ _ _, True).
Proof.
  intros Hcut HΦ Hk. eapply (hoare_bind _ _ _ _ (λ _ _ _, True)); [|intros _; by apply keeps_hoare|done].
  eapply hoare_mono; [by apply step_track|exact HΦ|done].
Qed.

(** A branch of a registration that needs a new barrier id. *)
Lemma step_new_barrier (k : Z → act CheckpointRegistration) Φ :
  (∀ s h, Φ s h → rescale_operation_id s = None) → (∀ b, hoare (fresh b) (k b) (λ _ _ _, True)) →
  hoare Φ (b ← next_barrier; k b) (λ _ _ _, True).
Proof.
  intros HΦ Hk. eapply (hoare_bind _ _ _ _ (λ r s h, ∀ b, r = Ok b → fresh b s h)); [|intros b|done].
  - eapply hoare_mono; [apply step_next|exact HΦ|]. intros r s h Hr b E. by apply Hr.
  - eapply hoare_mono; [apply (Hk b)| |done]. auto.
Qed.

Lemma hoare_get_graph Φ : hoare Φ get_graph (λ _, Φ).
Proof. intros s h Hs HP. cbn. split_and!; [done|apply G_refl|done]. Qed.
Lemma hoare_of_outcome {A} Φ (o : outcome A) : hoare Φ (of_outcome o) (λ _, Φ).
Proof. intros s h Hs HP. cbn. split_and!; [done|apply G_refl|done]. Qed.

(** A step that reads the state first. *)
Lemma keeps_read {A} (m : st → act A) :
  (∀ s h, coordinator_ok s h → coordinator_ok (m s s).2 h ∧ G ∅ s (m s s).2) → keeps okay (s ← gets id; m s).
Proof. intros Hm s h Hs. rewrite exec_bind_gets. by apply Hm. Qed.

Lemma okay_stay {A} s h (r : outcome A) : coordinator_ok s h → coordinator_ok (r, s).2 h ∧ G ∅ s (r, s).2.
Proof. split; [done|apply G_refl]. Qed.

Lemma hoare_at {A} s h (m : act A) Ψ : hoare (λ s' _, s' = s) m Ψ → coordinator_ok s h → coordinator_ok (m s).2 h ∧ G ∅ s (m s).2.
Proof. intros Hm Hs. by destruct (Hm s h Hs eq_refl) as (? & ? & _). Qed.

Lemma keeps_at {A} s h (m : act A) : keeps okay m → coordinator_ok s h → coordinator_ok (m s).2 h ∧ G ∅ s (m s).2.
Proof. intros Hm Hs. by apply Hm. Qed.

(** An early return of the same state. *)
Ltac top_if := match goal with |- coordinator_ok ((if ?x then _ else _) ?s).2 _ ∧ _ => destruct x; [by apply okay_stay|] end.

Lemma step_stabilization v s h : coordinator_ok s h → rescale_operation_id s = None →
  coordinator_ok (register_rescale_stabilization_checkpoint wall cfg v s).2 h ∧
  G ∅ s (register_rescale_stabilization_checkpoint wall cfg v s).2.
Proof.
  intros Hs Hgate. unfold register_rescale_stabilization_checkpoint. rewrite exec_bind_gets.
  top_if. rewrite exec_bind_gets. cbn zeta. top_if. top_if.
  match goal with |- coordinator_ok (?m s).2 h ∧ _ => apply (hoare_at s h m (λ _ _ _, True)); [|exact Hs] end.
  eapply (hoare_bind _ _ _ _ (λ _ s' _, rescale_operation_id s' = None)); [|intros _|done].
  { intros s' h' Hs' ->. match goal with |- context [if ?x then _ else _] => destruct x end; [|by split_and!; [|apply G_refl|]].
    split_and!; [|..|done]; apply (keeps_at s h'); try done; frames. }
  eapply (hoare_bind _ _ _ _ (λ _ s' _, rescale_operation_id s' = None)); [by apply hoare_gets|intros registered|done].
  destruct (bool_decide (v ∈ registered)); [apply keeps_hoare; frames|].
  match goal with |- hoare _ (match ?x with _ => _ end) _ => destruct x; [apply keeps_hoare; frames|] end.
  destruct (execution_graph (id s)) as [g|]; [|apply keeps_hoare; frames]. case_decide as Hpending; [apply keeps_hoare; frames|].
  eapply step_new_barrier; [done|]. intros b.
  assert (Hcut : ∀ vs : gset vid, vs ≠ ∅ → cut_ok (sort_vertices vs) (Z.of_nat (length (sort_vertices vs)))).
  { intros vs Hvs. split; [|intros _; split; [apply NoDup_sort_vertices|done]]. unfold sort_vertices.
    rewrite merge_sort_Permutation. change (length (elements vs)) with (size vs). assert (size vs ≠ 0%nat) by (apply size_non_empty_iff; set_solver). lia. }
  destruct (match foldl _ [] (sort_vertices _) with [(d, _)] => Some d | _ => None end) as [d|]; unfold activate_checkpoint_domain; cbn [domain_id Checkpoint_init].
  - apply step_admit; [by apply Hcut|done|frames].
  - apply step_admit_free; [by apply Hcut|done|frames].
Qed.

Lemma step_register_checkpoint v force : keeps okay (register_checkpoint wall cfg v force).
Proof.
  unfold register_checkpoint. apply keeps_read. intros s h Hs. unfold id.
  destruct (rescale_operation_id s) as [o|] eqn:Hgate; [by apply okay_stay|].
  destruct (rescale_recovery_fence s); [by apply step_stabilization|].
  destruct (requested_cut s v) as [[[[domain sources] committers] required]|] eqn:Hcut; [|by apply okay_stay].
  destruct (active_checkpoint_by_domain s !! domain) as [b|]; [apply (keeps_at s h); [frames|done]|].
  destruct (required <=? 0) eqn:Hr; [by apply okay_stay|]. top_if.
  match goal with |- coordinator_ok (?m s).2 h ∧ _ => apply (hoare_at s h m (λ _ _ _, True)); [|exact Hs] end. eapply step_new_barrier; [by intros s' h' ->|]. intros b.
  eapply (hoare_bind _ _ _ _ (λ _, fresh b)); [apply hoare_get_graph|intros g|done].
  eapply (hoare_bind _ _ _ _ (λ _, fresh b)); [apply hoare_of_outcome|intros _|done].
  apply step_admit; [apply (requested_cut_ok _ _ _ _ _ _ Hcut); lia|done|].
  apply keeps_bind; [apply _|apply keeps_request_domain_sources|intros; frames].
Qed.

(** ** The merge of a completed cut *)

Abbreviation covers := (covers transaction_id combine_committables).
Abbreviation group_by_checkpoint := (group_by_checkpoint transaction_id).
Abbreviation coalesce := (coalesce transaction_id global_commit_namespace combine_committables sha256_hexdigest cfg).
Abbreviation coalesce_carried :=
  (coalesce_carried_sink_committables transaction_id global_commit_namespace combine_committables sha256_hexdigest cfg).

(** The transactions of the failed epochs, by checkpoint and task. *)
Definition buckets_ok (groups : list (Z * list (task_key * entry))) : Prop :=
  NoDup groups.*1 ∧ ∀ b es, (b, es) ∈ groups → writer_entries b es.

Definition in_buckets (groups : list (Z * list (task_key * entry))) e : Prop :=
  ∃ es e', (se_checkpoint_id e, es) ∈ groups ∧ (se_task_key e, e') ∈ es ∧ identity e' = identity e.

Lemma group_by_checkpoint_ok groups e groups' :
  group_by_checkpoint groups e = Ok groups' → buckets_ok groups → (∃ v, se_task_key e = SubtaskKey v) →
  buckets_ok groups' ∧ in_buckets groups' e ∧ ∀ e', in_buckets groups e' → in_buckets groups' e'.
Proof.
  intros E [Hnd Hw] Hv. set (b := se_checkpoint_id e) in *. set (es := default [] (dict_get b groups)).
  assert (Hes : writer_entries b es).
  { unfold es. destruct (dict_get b groups) as [l|] eqn:El; [apply Hw; by apply dict_get_In|apply writer_entries_nil]. }
  assert (groups' = dict_set b (dict_set (se_task_key e) e es) groups ∧
    ∀ e0, dict_get (se_task_key e) es = Some e0 → transaction_id (se_committable e0) = transaction_id (se_committable e)) as [-> Hsame].
  { unfold Coordinator.group_by_checkpoint in E. fold b es in E. destruct (dict_get (se_task_key e) es) as [e0|].
    - case_bool_decide; [|done]. injection E as <-. split; [done|]. by intros e1 [= <-].
    - injection E as <-. done. }
  split_and!.
  - split; [by apply NoDup_dict_set|]. intros b' es' [[-> ->]|[_ Hin]]%elem_of_dict_set; [|by apply Hw|done]. by apply writer_entries_set.
  - exists (dict_set (se_task_key e) e es), e. split_and!; [apply dict_set_In|apply dict_set_In|done].
  - intros e' (es0 & e0 & Hes0 & He0 & Hid). destruct (decide (se_checkpoint_id e' = b)) as [Hb|Hne].
    + assert (es0 = es) as ->.
      { unfold es. apply dict_get_Some in Hes0; [|done]. rewrite Hb in Hes0. by rewrite Hes0. }
      destruct (decide (se_task_key e' = se_task_key e)) as [Hk|Hk].
      * exists (dict_set (se_task_key e) e es), e. rewrite Hb, Hk. split_and!; [apply dict_set_In|apply dict_set_In|].
        assert (dict_get (se_task_key e) es = Some e0) as He0' by (apply dict_get_Some; [apply Hes|by rewrite <-Hk]).
        rewrite <-Hid. specialize (Hsame e0 He0'). destruct (proj2 Hes _ _ He0) as (Hk0 & Hb0 & _).
        unfold Checkpoints.identity. rewrite Hsame, Hb0, <-Hk0, Hk. done.
      * exists (dict_set (se_task_key e) e es), e0. rewrite Hb. split_and!; [apply dict_set_In| |done]. by apply dict_set_other.
    + exists es0, e0. split_and!; [by apply dict_set_other|done|done].
Qed.

Lemma group_all_ok entries groups groups' :
  foldM group_by_checkpoint groups entries = Ok groups' → buckets_ok groups → (∀ e, e ∈ entries → ∃ v, se_task_key e = SubtaskKey v) →
  buckets_ok groups' ∧ (∀ e, e ∈ entries → in_buckets groups' e) ∧ ∀ e, in_buckets groups e → in_buckets groups' e.
Proof.
  revert groups. induction entries as [|e entries IH]; intros groups E Hg Hv; cbn [foldM] in E.
  { injection E as <-. split_and!; [done|by intros ? ?%not_elem_of_nil|done]. }
  destruct (group_by_checkpoint groups e) as [g1|] eqn:E1; [|done].
  destruct (group_by_checkpoint_ok _ _ _ E1 Hg) as (Hg1 & He & Hkeep); [apply Hv; by left|].
  destruct (IH g1 E Hg1) as (Hg' & Hall & Hkeep'); [intros e' ?; apply Hv; by right|].
  split_and!; [done| |auto]. intros e' [->|He']%elem_of_cons; auto.
Qed.

Lemma coalesce_covers_entry b es completed e :
  coalesce b es = Ok completed → writer_entries b es → (∃ e', (se_task_key e, e') ∈ es ∧ identity e' = identity e) →
  ∃ i, i ∈ ((λ e, (identity e, e)) <$> completed.*2).*1 ∧ covers i (identity e).
Proof.
  intros E Hw (e' & Hin & Hid). destruct (coalesce_covers _ _ _ _ _ _ _ _ _ _ E Hw Hin) as (k & c & Hc & Hcov).
  exists (identity c). split; [|by rewrite <-Hid]. apply list_elem_of_fmap. exists (identity c, c). split; [done|].
  apply list_elem_of_fmap. exists c. split; [done|]. apply list_elem_of_fmap. by exists (k, c).
Qed.

Lemma coalesce_carried_ok entries l :
  coalesce_carried entries = Ok l → (∀ e, e ∈ entries → ∃ v, se_task_key e = SubtaskKey v) →
  (∀ e, e ∈ entries → ∃ i, i ∈ l.*1 ∧ covers i (identity e)) ∧ ∀ i e, (i, e) ∈ l → i = identity e.
Proof.
  intros E Hv. unfold coalesce_carried_sink_committables in E. apply bind_Ok_inv in E as (groups & Eg & E).
  destruct (group_all_ok _ _ _ Eg) as ([Hnd Hw] & Hall & _); [split; [constructor|by intros ? ? ?%not_elem_of_nil]|done|].
  set (f := λ coalesced (group : Z * list (task_key * entry)), l ← coalesce group.1 group.2;
           Ok (dict_update coalesced ((λ e, (identity e, e)) <$> (l : list (task_key * entry)).*2))) in E.
  assert (Hf : ∀ gs acc l, foldM f acc gs = Ok l → (∀ i e, (i, e) ∈ acc → i = identity e) → (∀ g, g ∈ gs → g ∈ groups) →
    (∀ i, i ∈ acc.*1 → i ∈ l.*1) ∧ (∀ i e, (i, e) ∈ l → i = identity e) ∧
    ∀ b es e, (b, es) ∈ gs → (∃ e', (se_task_key e, e') ∈ es ∧ identity e' = identity e) → ∃ i, i ∈ l.*1 ∧ covers i (identity e)).
  { clear E l. induction gs as [|[b es] gs IH]; intros acc l E Hacc Hsub; cbn [foldM] in E.
    { injection E as <-. split_and!; [done|done|by intros ? ? ? ?%not_elem_of_nil]. }
    destruct (f acc (b, es)) as [acc1|] eqn:E1; [|done]. unfold f in E1. apply bind_Ok_inv in E1 as (completed & Ec & E1). injection E1 as <-.
    destruct (IH _ l E) as (Hk & Hid & Hcov).
    { intros i e [Hin|Hin]%dict_update_inv; [by apply Hacc|]. by apply list_elem_of_fmap in Hin as (e0 & [= -> ->] & _). }
    { intros g ?. apply Hsub. by right. }
    split_and!; [|done|].
    - intros i Hi. apply Hk. apply elem_of_dict_update_keys. by left.
    - intros b' es' e [[= -> ->]|Hin]%elem_of_cons He; [|by eapply Hcov].
      destruct (coalesce_covers_entry _ _ _ _ Ec (Hw b es ltac:(apply Hsub; by left)) He) as (i & Hi & Hc).
      exists i. split; [|done]. apply Hk. apply elem_of_dict_update_keys. by right. }
  destruct (Hf _ _ _ E) as (_ & Hid & Hcov); [by intros ? ? ?%not_elem_of_nil| |].
  { intros g Hg. rewrite merge_sort_Permutation in Hg. done. }
  split; [|done]. intros e He. destruct (Hall e He) as (es & e' & Hes & He' & Hid'). apply (Hcov (se_checkpoint_id e) es e); [|by exists e'].
  by rewrite merge_sort_Permutation.
Qed.

Lemma pop_all_ok {K A} `{EqDecision K} (ds : list K) (l : list (K * A)) : NoDup l.*1 →
  let l' := foldl (λ l d, dict_pop d l) l ds in
  NoDup l'.*1 ∧ (∀ d a, (d, a) ∈ l' → (d, a) ∈ l) ∧ ∀ d a, (d, a) ∈ l → d ∉ ds → (d, a) ∈ l'.
Proof.
  revert l. induction ds as [|d ds IH]; intros l Hnd; cbn; [by split_and!|].
  destruct (IH (dict_pop d l)) as (H1 & H2 & H3); [by apply NoDup_dict_pop|]. split_and!; [done| |].
  - intros d' a Hin. eapply dict_pop_inv. by apply H2.
  - intros d' a Hin [Hne Hd]%not_elem_of_cons. apply H3; [|done]. by apply dict_pop_other.
Qed.

Section merge.
Context (w : view) (t : transactions_state (C := C)) (h : hist) (b : Z) (domains popped : list (option string))
  (completed : list (task_key * entry)) (carried : list (ident * entry)).

Definition carried_entries : list entry := mjoin ((λ d, (default [] (dict_get d (carried_sink_committables_ t))).*2) <$> domains).

Definition merged_pending : list (ident * entry) :=
  dict_update (dict_update (pending_sink_committables_ t) carried) ((λ e, (identity e, e)) <$> completed.*2).

Definition merged : transactions_state (C := C) :=
  MkTx (dict_pop b (inflight_sink_committables_ t)) merged_pending (durable_sink_committables_ t)
    (foldl (λ l d, dict_pop d l) (carried_sink_committables_ t) popped).

Context (Htx : transactions_ok transaction_id combine_committables w t h)
  (Hcompleted : coalesce b (default [] (dict_get b (inflight_sink_committables_ t))) = Ok completed)
  (Hcarried : coalesce_carried carried_entries = Ok carried) (Hpopped : popped ⊆ domains).

Lemma merged_keys i : i ∈ (pending_sink_committables_ t).*1 ∨ i ∈ carried.*1 ∨ i ∈ ((λ e, (identity e, e)) <$> completed.*2).*1 →
  i ∈ merged_pending.*1.
Proof. intros Hi. apply elem_of_dict_update_keys. rewrite elem_of_dict_update_keys. tauto. Qed.

Lemma merged_bucket e : (∃ es e', (b, es) ∈ inflight_sink_committables_ t ∧ (se_task_key e, e') ∈ es ∧ identity e' = identity e) →
  ∃ i, i ∈ merged_pending.*1 ∧ covers i (identity e).
Proof.
  intros (es & e' & Hes & He' & Hid). assert (Hg := proj2 (dict_get_Some _ _ _ (tx_buckets _ _ _ _ _ Htx)) Hes). pose proof Hcompleted as Hco. rewrite Hg in Hco.
  destruct (tx_inflight _ _ _ _ _ Htx _ _ Hes) as [_ Hw].
  destruct (coalesce_covers_entry _ _ _ e Hco Hw) as (i & Hi & Hc); [by exists e'|]. exists i. split; [|done]. apply merged_keys. auto.
Qed.

Lemma carried_writers e : e ∈ carried_entries → ∃ v, se_task_key e = SubtaskKey v.
Proof.
  unfold carried_entries. intros (x & He0 & Hx)%list_elem_of_join.
  apply list_elem_of_fmap in Hx as (d0 & -> & _). apply list_elem_of_fmap in He0 as ([i0 e1] & -> & Hin).
  destruct (dict_get d0 (carried_sink_committables_ t)) as [l0|] eqn:E0; [|by apply not_elem_of_nil in Hin]. apply dict_get_In in E0.
  apply (tx_carried _ _ _ _ _ Htx i0 e1). by exists d0, l0.
Qed.

Lemma merged_carried d l i e : (d, l) ∈ carried_sink_committables_ t → d ∈ domains → (i, e) ∈ l → ∃ j, j ∈ merged_pending.*1 ∧ covers j i.
Proof.
  intros Hl Hd Hi. assert (Hg := proj2 (dict_get_Some _ _ _ (tx_domains _ _ _ _ _ Htx)) Hl).
  destruct (coalesce_carried_ok _ _ Hcarried carried_writers) as [Hcov _]. destruct (Hcov e) as (j & Hj & Hc).
  { unfold carried_entries. apply list_elem_of_join. eexists. split; [|apply list_elem_of_fmap; by exists d]. rewrite Hg.
    apply list_elem_of_fmap. by exists (i, e). }
  destruct (tx_carried _ _ _ _ _ Htx i e) as (-> & _); [by exists d, l|]. exists j. split; [|done]. apply merged_keys. auto.
Qed.

Lemma merged_carries b' : carries merged b' → carries t b'.
Proof.
  intros (i & e & (d & l & Hl & Hi) & Hb). exists i, e. split; [|done]. exists d, l. split; [|done].
  by apply (pop_all_ok popped _ (tx_domains _ _ _ _ _ Htx)).
Qed.

Lemma tx_merged : transactions_ok transaction_id combine_committables w merged h.
Proof.
  pose proof Htx as [Hnd Hin Hdom Hcar Hpend Hdur Hlive]. destruct (pop_all_ok popped _ Hdom) as (Hd1 & Hd2 & Hd3).
  split; cbn; try done.
  - by apply NoDup_dict_pop.
  - intros b' es Hb'. apply Hin. by eapply dict_pop_inv.
  - intros i e (d & l & Hl & Hi). apply Hcar. exists d, l. split; [by apply Hd2|done].
  - intros i e [[Hi|Hi]%dict_update_inv|Hi]%dict_update_inv; [by apply Hpend|by eapply (coalesce_carried_ok _ _ Hcarried carried_writers)|].
    by apply list_elem_of_fmap in Hi as (e0 & [= -> ->] & _).
  - destruct Hlive as [?|Hlive]; [by left|right]. intros e He. destruct (Hlive e He) as [?|Hheld]; [by left|right].
    destruct Hheld as [(es & e' & Hes & He' & Hid)|[(e' & d & l & Hl & Hi)|(i & Hi & Hc)]].
    + destruct (decide (se_checkpoint_id e = b)) as [Hbe|Hne].
      { right. right. apply merged_bucket. exists es, e'. by rewrite <-Hbe. }
      left. exists es, e'. split_and!; [by apply dict_pop_other|done|done].
    + destruct (decide (d ∈ popped)) as [Hd|Hd]; [right; right; eapply merged_carried; [exact Hl|by apply Hpopped|exact Hi]|].
      right. left. exists e', d, l. split; [by apply Hd3|done].
    + right. right. exists i. split; [|done]. apply merged_keys. auto.
Qed.

(** No transaction of the checkpoint is left out. *)
Lemma merged_settled : ¬ carries t b → settled_in transaction_id combine_committables h merged_pending.*1 b.
Proof.
  intros Hnc. destruct (tx_live _ _ _ _ _ Htx) as [?|Hlive]; [by left|right]. intros e He Hb. destruct (Hlive e He) as [?|Hheld]; [by left|right].
  destruct Hheld as [(es & e' & Hes & He' & Hid)|[(e' & Hc)|(i & Hi & Hc)]].
  - apply merged_bucket. exists es, e'. by rewrite <-Hb.
  - exfalso. apply Hnc. exists (identity e), e'. split; [done|]. destruct (tx_carried _ _ _ _ _ Htx _ _ Hc) as (Hid & _).
    unfold Checkpoints.identity in Hid. injection Hid as _ Hid _. congruence.
  - exists i. split; [|done]. apply merged_keys. auto.
Qed.
End merge.

(** ** Registered, carried, committed and aborted transactions *)

Lemma bind_throw_if {A} (x : bool) (k : unit → act A) s :
  ((if x then mret () else throw ValueError) ≫= k) s = if x then k () s else (Err ValueError, s).
Proof. by destruct x. Qed.

Lemma dict_set_same {K A} `{EqDecision K} (k : K) (a : A) l : dict_get k l = Some a → dict_set k a l = l.
Proof.
  induction l as [|[k0 a0] l IH]; cbn; [done|]. case_decide; [by intros [= ->]; subst|]. intros Hl. by rewrite IH.
Qed.

Lemma dict_setdefault_set {K A} `{EqDecision K} (k : K) (a : A) l : dict_setdefault k a l = dict_set k (default a (dict_get k l)) l.
Proof. unfold dict_setdefault. destruct (dict_get k l) as [a0|] eqn:E; [by rewrite dict_set_same|done]. Qed.

Lemma ok_bucket s h b es :
  coordinator_ok s h → is_Some (checkpoints s !! b) → writer_entries b es →
  (∀ es0 k e, (b, es0) ∈ inflight_sink_committables s → (k, e) ∈ es0 → ∃ e', (k, e') ∈ es ∧ identity e' = identity e) →
  coordinator_ok (set_inflight_sink_committables (dict_set b es) s) h ∧ G ∅ s (set_inflight_sink_committables (dict_set b es) s).
Proof.
  intros Hs Hb Hes Hkeep. apply (ok_tx _ _ ∅ s _ h Hs); try done.
  by apply (tx_set_bucket _ _ _ (tx s) h b es (ok_transactions _ _ _ _ Hs)).
Qed.

Lemma ok_bucket_get s h b es : coordinator_ok s h → (b, es) ∈ inflight_sink_committables s → dict_get b (inflight_sink_committables s) = Some es.
Proof. intros Hs. apply (dict_get_Some _ _ _ (tx_buckets _ _ _ _ _ (ok_transactions _ _ _ _ Hs))). Qed.

Lemma ok_bucket_writers s h b : coordinator_ok s h → writer_entries b (default [] (dict_get b (inflight_sink_committables s))).
Proof.
  intros Hs. destruct (dict_get b (inflight_sink_committables s)) as [es|] eqn:E; [|apply writer_entries_nil].
  apply (tx_inflight _ _ _ _ _ (ok_transactions _ _ _ _ Hs)). by apply dict_get_In.
Qed.

(** The bucket of a checkpoint, made if there is none. *)
Lemma ok_bucket_default s h b : coordinator_ok s h → is_Some (checkpoints s !! b) →
  let s1 := set_inflight_sink_committables (dict_setdefault b []) s in
  coordinator_ok s1 h ∧ G ∅ s s1 ∧
  default [] (dict_get b (inflight_sink_committables s1)) = default [] (dict_get b (inflight_sink_committables s)).
Proof.
  intros Hs Hb. set (es := default [] (dict_get b (inflight_sink_committables s))).
  assert (set_inflight_sink_committables (dict_setdefault b []) s = set_inflight_sink_committables (dict_set b es) s) as ->.
  { unfold set_inflight_sink_committables, map_tx. cbn. by rewrite dict_setdefault_set. }
  destruct (ok_bucket s h b es Hs Hb) as [Hs1 HG1].
  - by eapply ok_bucket_writers.
  - intros es0 k e Hes0 He. exists e. unfold es. by rewrite (ok_bucket_get s h b es0 Hs Hes0).
  - split_and!; [done|done|]. rewrite (ok_bucket_get _ h b es Hs1); [done|]. apply dict_set_In.
Qed.

Definition sink_registered b v c s : Prop :=
  held transaction_id combine_committables (tx s) (mkSinkEntry (SubtaskKey v) b c) ∧ b ∈ inflight_checkpoints s.

(** A transaction enters its bucket, unless another one is there. *)
Lemma ok_register s h b v c : coordinator_ok s h → b ∈ inflight_checkpoints s →
  let e := mkSinkEntry (SubtaskKey v) b c in
  let es := default [] (dict_get b (inflight_sink_committables s)) in
  (∀ e0, dict_get (SubtaskKey v) es = Some e0 → transaction_id (se_committable e0) = transaction_id c) →
  let s' := set_inflight_sink_committables (dict_set b (dict_set (SubtaskKey v) e es)) s in
  coordinator_ok s' h ∧ G ∅ s s' ∧ sink_registered b v c s'.
Proof.
  intros Hs Hin e es Hsame s'. destruct (ok_inflight s h b Hs Hin) as (cp & Hc & _ & _).
  pose proof (ok_bucket_writers s h b Hs) as Hw. fold es in Hw.
  destruct (ok_bucket s h b (dict_set (SubtaskKey v) e es) Hs) as [Hs' HG].
  - by exists cp.
  - apply writer_entries_set; [done..|by exists v].
  - intros es0 k e0 Hes0 He0. assert (es0 = es) as -> by (unfold es; by rewrite (ok_bucket_get s h b es0 Hs Hes0)).
    destruct (decide (k = SubtaskKey v)) as [->|Hne]; [|exists e0; split; [by apply dict_set_other|done]].
    exists e. split; [apply dict_set_In|]. destruct (proj2 Hw _ _ He0) as (Hk & Hb & _).
    apply (dict_get_Some _ _ _ (proj1 Hw)) in He0. specialize (Hsame e0 He0). unfold Checkpoints.identity. cbn. congruence.
  - split_and!; [done|done|split; [|done]]. left. exists (dict_set (SubtaskKey v) e es), e. split_and!; [apply dict_set_In|apply dict_set_In|done].
Qed.

Lemma step_register_sink b v c s h : coordinator_ok s h →
  coordinator_ok (register_sink_committable transaction_id b v c s).2 h ∧ G ∅ s (register_sink_committable transaction_id b v c s).2 ∧
  ((register_sink_committable transaction_id b v c s).1 = Ok true → sink_registered b v c (register_sink_committable transaction_id b v c s).2).
Proof.
  intros Hs. assert (Hrefl : ∀ r : outcome bool, r ≠ Ok true →
    coordinator_ok s h ∧ G ∅ s s ∧ (r = Ok true → sink_registered b v c s)) by (intros; split_and!; [done|apply G_refl|done]).
  unfold register_sink_committable. autorewrite with exec.
  destruct (decide (b ∈ inflight_checkpoints s)) as [Hin|Hin]; [rewrite bool_decide_true by done|rewrite bool_decide_false by done; by apply Hrefl].
  cbn [negb]. autorewrite with exec. destruct (ok_inflight s h b Hs Hin) as (cp & Hc & Hst & _). rewrite Hc, Hst. cbn [is_terminal].
  destruct (foreign_committer cp v); [by apply Hrefl|]. autorewrite with exec.
  unfold SinkCommittableCheckpointEntry. destruct (b <? 0); [by apply Hrefl|]. destruct (blank (transaction_id c)); [by apply Hrefl|].
  autorewrite with exec. destruct (ok_bucket_default s h b Hs) as (Hs1 & HG1 & _); [by exists cp|].
  set (s1 := set_inflight_sink_committables (dict_setdefault b []) s) in *. assert (Hin1 : b ∈ inflight_checkpoints s1) by exact Hin.
  clearbody s1. pose proof (ok_register s1 h b v c Hs1 Hin1) as Hreg. cbn zeta in Hreg.
  set (es := default [] (dict_get b (inflight_sink_committables s1))) in *.
  destruct (dict_get (SubtaskKey v) es) as [e0|] eqn:Ee; autorewrite with exec.
  - rewrite bind_throw_if. case_bool_decide; [|split_and!; done]. autorewrite with exec.
    destruct Hreg as (? & ? & ?); [by intros e1 [= <-]|]. split_and!; [done|by eapply G_trans|done].
  - destruct Hreg as (? & ? & ?); [done|]. split_and!; [done|by eapply G_trans|done].
Qed.

(** The transactions of a checkpoint the method owns wait for the next cut. *)
Lemma step_carry T b : b ∈ T → step_of T (is_closed b) (carry_inflight_sink_committables transaction_id b) (λ _, is_closed b).
Proof.
  intros HT s h Hs Hcl. enough (coordinator_ok (carry_inflight_sink_committables transaction_id b s).2 h ∧
    G T s (carry_inflight_sink_committables transaction_id b s).2) as [? HG] by (split_and!; [done|done|by eapply G_closed]).
  destruct Hcl as [[c Hc] Hb]. change (checkpoints s !! b = Some c) in Hc. unfold carry_inflight_sink_committables. autorewrite with exec.
  destruct (dict_get b (inflight_sink_committables s)) as [es|] eqn:Ees; cbn [default].
  - set (s1 := set_inflight_sink_committables (dict_pop b) s).
    destruct (tx_carry _ _ _ _ h b es (domain_id c) (ok_transactions _ _ _ _ Hs) Ees) as [Htx Hcar]; [split; [by exists c|done]|].
    case_bool_decide as Hnil.
    + cbn in Hnil. subst es. apply (ok_tx _ _ T s s1 h Hs); try done.
      destruct (ok_transactions _ _ _ _ Hs) as [Hnd Hin Hdom Hcar' Hpend Hdur Hlive]. split; cbn; try done.
      * by apply NoDup_dict_pop.
      * intros b' es' Hin'. apply Hin. by eapply dict_pop_inv.
      * destruct Hlive as [?|Hlive]; [by left|right]. intros e He. destruct (Hlive e He) as [?|[(es0 & e' & Hes0 & He' & Hid)|?]]; [by left|right; left|right; by right].
        destruct (decide (se_checkpoint_id e = b)) as [Heb|Hne].
        -- rewrite Heb in Hes0. rewrite (ok_bucket_get s h b es0 Hs Hes0) in Ees. injection Ees as ->. by apply not_elem_of_nil in He'.
        -- exists es0, e'. split_and!; [by apply dict_pop_other|done|done].
    + autorewrite with exec. change (checkpoints s1 !! b) with (checkpoints s !! b). rewrite Hc.
      apply (ok_tx _ _ T s _ h Hs); try done. intros b' _ Hb' Hcs. apply Hcar; [by intros ->|exact Hcs].
  - rewrite bool_decide_true by done. set (s1 := set_inflight_sink_committables (dict_pop b) s).
    assert (dict_pop b (inflight_sink_committables s) = inflight_sink_committables s) as Epop.
    { apply dict_get_None in Ees. revert Ees. generalize (inflight_sink_committables s). intros l. induction l as [|[k a] l IH]; cbn; [done|].
      intros [? ?]%not_elem_of_cons. rewrite decide_False by done. by rewrite IH. }
    assert (tx s1 = tx s) as Et.
    { unfold s1, set_inflight_sink_committables, map_tx. cbn. change (inflight_sink_committables_ (tx s)) with (inflight_sink_committables s).
      rewrite Epop. unfold inflight_sink_committables. by destruct (tx s). }
    destruct (okay_frame s s1 (conj eq_refl (conj Et (conj eq_refl eq_refl))) h Hs) as [? HG]. split; [done|]. by eapply G_mono; [apply empty_subseteq|].
Qed.

(** A published transaction. *)
Definition published (item : ident * entry) : st → hist → Prop := λ _ h,
  Answered (CommitTransaction item.2) (Ok ()) ∈ h ∧ item.1 = identity item.2.

Lemma ok_commit T s h (pop : bool) (item : ident * entry) s' :
  coordinator_ok s h → published item s h → view_of s' = view_of s → latest_source_states s' = latest_source_states s →
  durable_source_states s' = durable_source_states s →
  tx s' = MkTx (inflight_sink_committables s) (if pop then dict_pop item.1 (pending_sink_committables s) else pending_sink_committables s)
    (dict_pop item.1 (durable_sink_committables s)) (carried_sink_committables s) →
  coordinator_ok s' h ∧ G T s s'.
Proof.
  intros Hs [Hc Hi] Ev El Ed Et. apply (ok_tx _ _ T s s' h Hs); try done; unfold pending_sink_committables; rewrite Et.
  - by eapply (tx_commit _ _ _ (tx s)); [apply (ok_transactions _ _ _ _ Hs)|..].
  - intros b Hb. destruct pop; [by eapply settled_pop|done].
  - done.
Qed.

Lemma step_commit T item (all : bool) :
  step_of T (published item)
    (_ ← modify (set_durable_sink_committables (dict_pop item.1));
     pending ← gets pending_sink_committables;
     _ ← (match dict_get item.1 pending with
          | Some _ => _ ← modify (set_pending_sink_committables (dict_pop item.1)); modify (set_state_revision (λ n, n + 1))
          | None => mret ()
          end);
     mret all) (λ _ _ _, True).
Proof.
  intros s h Hs Hp. autorewrite with exec.
  destruct (dict_get item.1 (pending_sink_committables _)).
  - destruct (ok_commit T s h true item (set_state_revision (λ n, n + 1) (set_pending_sink_committables (dict_pop item.1)
      (set_durable_sink_committables (dict_pop item.1) s))) Hs Hp) as [? ?]; done.
  - destruct (ok_commit T s h false item (set_durable_sink_committables (dict_pop item.1) s) Hs Hp) as [? ?]; done.
Qed.

Definition is_terminal_flush : st → hist → Prop := λ _ h, terminal h.

Lemma step_abort_inflight T b :
  step_of T is_terminal_flush (l ← gets (λ s, default [] (dict_get b (inflight_sink_committables s)));
    _ ← modify (set_inflight_sink_committables (dict_pop b)); mret l) (λ _ _ _, True).
Proof.
  intros s h Hs Ht. autorewrite with exec. set (s' := set_inflight_sink_committables (dict_pop b) s).
  destruct (ok_tx _ _ T s s' h Hs) as [? ?]; try done.
  apply (tx_abort _ _ _ (tx s)); [apply (ok_transactions _ _ _ _ Hs)|done|left; by exists b|by left].
Qed.

Lemma step_abort_carried T :
  step_of T is_terminal_flush (l ← gets carried_sink_committables;
    _ ← modify (set_carried_sink_committables (λ _, [])); mret l) (λ _ _ _, True).
Proof.
  intros s h Hs Ht. autorewrite with exec. set (s' := set_carried_sink_committables (λ _, []) s).
  destruct (ok_tx _ _ T s s' h Hs) as [? ?]; try done.
  - apply (tx_abort _ _ _ (tx s)); [apply (ok_transactions _ _ _ _ Hs)|done|by right|by right].
  - intros b _ _ (i & e & (d & l & Hl & _) & _). by apply not_elem_of_nil in Hl.
Qed.

(** The domains of another graph. *)
Definition remap (g : ExecutionGraph) (carried : list (option string * list (ident * entry))) :=
  foldl (λ remapped bucket, foldl (remap_carried_entry g bucket.1) remapped bucket.2) [] carried.

Definition among (carried : list (option string * list (ident * entry))) (i : ident) e : Prop := ∃ d l, (d, l) ∈ carried ∧ (i, e) ∈ l.

Lemma remap_entry_ok g d acc i e : NoDup acc.*1 →
  let acc' := remap_carried_entry g d acc (i, e) in
  NoDup acc'.*1 ∧ (∃ e', among acc' i e') ∧ (∀ j e', among acc' j e' → among acc j e' ∨ (j = i ∧ e' = e)) ∧
  ∀ j e', among acc j e' → ∃ e'', among acc' j e''.
Proof.
  intros Hnd. unfold remap_carried_entry. cbn [fst snd]. set (dom := match se_task_key e with SubtaskKey v => _ | GlobalKey _ => d end).
  set (old := default [] (dict_get dom acc)). cbn zeta. split_and!.
  - by apply NoDup_dict_set.
  - exists e, dom, (dict_set i e old). split; apply dict_set_In.
  - intros j e' (d' & l & Hl & Hj). apply dict_set_inv in Hl as [[-> ->]|Hl]; [|left; by exists d', l].
    apply dict_set_inv in Hj as [[-> ->]|Hj]; [by right|left]. unfold old in Hj.
    destruct (dict_get dom acc) as [l|] eqn:El; [|by apply not_elem_of_nil in Hj]. exists dom, l. split; [by apply dict_get_In|done].
  - intros j e' (d' & l & Hl & Hj). destruct (decide (d' = dom)) as [->|Hne]; [|exists e', d', l; split; [by apply dict_set_other|done]].
    assert (old = l) as Hold by (unfold old; apply dict_get_Some in Hl; [by rewrite Hl|done]).
    assert (j ∈ (dict_set i e old).*1) as Hin.
    { apply elem_of_dict_set_keys. right. rewrite Hold. apply list_elem_of_fmap. by exists (j, e'). }
    apply list_elem_of_fmap in Hin as ([j0 e''] & Heq & Hin). cbn in Heq. subst j0. exists e'', dom, (dict_set i e old).
    split; [apply dict_set_In|done].
Qed.

Lemma remap_bucket_ok g d l acc : NoDup acc.*1 →
  let acc' := foldl (remap_carried_entry g d) acc l in
  NoDup acc'.*1 ∧ (∀ i e, (i, e) ∈ l → ∃ e', among acc' i e') ∧ (∀ j e', among acc' j e' → among acc j e' ∨ (j, e') ∈ l) ∧
  ∀ j e', among acc j e' → ∃ e'', among acc' j e''.
Proof.
  revert acc. induction l as [|[i e] l IH]; intros acc Hnd; cbn; [split_and!; eauto; by intros ? ? ?%not_elem_of_nil|].
  destruct (remap_entry_ok g d acc i e Hnd) as (H1 & [e1 H2] & H3 & H4). cbn zeta in *.
  destruct (IH _ H1) as (K1 & K2 & K3 & K4). cbn zeta in *. split_and!; [done| | |].
  - intros i' e' [[= -> ->]|Hin]%elem_of_cons; [by apply (K4 _ _ H2)|by eapply K2].
  - intros j e' Hj. destruct (K3 j e' Hj) as [Hj'|?]; [|right; by right]. destruct (H3 j e' Hj') as [?|[-> ->]]; [by left|right; by left].
  - intros j e' Hj. destruct (H4 j e' Hj) as [e'' Hj']. by eapply K4.
Qed.

Lemma remap_ok g carried : let carried' := remap g carried in
  NoDup carried'.*1 ∧ (∀ i e, among carried i e → ∃ e', among carried' i e') ∧ ∀ j e', among carried' j e' → among carried j e'.
Proof.
  unfold remap. enough (∀ acc, NoDup acc.*1 →
    let carried' := foldl (λ remapped bucket, foldl (remap_carried_entry g bucket.1) remapped bucket.2) acc carried in
    NoDup carried'.*1 ∧ (∀ i e, among carried i e ∨ among acc i e → ∃ e', among carried' i e') ∧
    ∀ j e', among carried' j e' → among carried j e' ∨ among acc j e') as Hall.
  { destruct (Hall []) as (H1 & H2 & H3); [constructor|]. cbn zeta. split_and!; [done|eauto|]. intros j e' Hj. destruct (H3 j e' Hj) as [?|(d & l & Hl & _)]; [done|].
    by apply not_elem_of_nil in Hl. }
  induction carried as [|[d l] carried IH]; intros acc Hnd; cbn.
  { split_and!; [done| |by right]. intros i e [(d & l & Hl & _)|?]; [by apply not_elem_of_nil in Hl|by exists e]. }
  destruct (remap_bucket_ok g d l acc Hnd) as (K1 & K2 & K3 & K4). cbn zeta in *. destruct (IH _ K1) as (H1 & H2 & H3). cbn zeta in *. split_and!; [done| |].
  - intros i e [(d' & l' & [[= -> ->]|Hl]%elem_of_cons & Hi)|Hacc].
    + destruct (K2 i e Hi) as [e' He']. apply (H2 i e'). by right.
    + apply (H2 i e). left. by exists d', l'.
    + destruct (K4 i e Hacc) as [e' He']. apply (H2 i e'). by right.
  - intros j e' Hj. destruct (H3 j e' Hj) as [(d' & l' & ? & ?)|Hj']; [left; exists d', l'; split; [by right|done]|].
    destruct (K3 j e' Hj') as [?|?]; [by right|]. left. exists d, l. split; [by left|done].
Qed.

Lemma step_remap g : keeps okay (remap_carried_sink_domains g).
Proof.
  intros s h Hs. set (s' := set_carried_sink_committables (remap g) s). change (coordinator_ok s' h ∧ G ∅ s s').
  destruct (remap_ok g (carried_sink_committables s)) as (H1 & H2 & H3). cbn zeta in *.
  apply (ok_tx _ _ ∅ s s' h Hs); try done.
  - apply (tx_remap _ _ _ (tx s)); [apply (ok_transactions _ _ _ _ Hs)|done| |].
    + intros d l i e Hl Hi. apply H3. by exists d, l.
    + intros i e Hi. destruct (H2 i e Hi) as (e' & d & l & ? & ?). by exists e', d, l.
  - intros b _ _ (i & e & Hi & Hb). exists i, e. split; [by apply H3|done].
Qed.

(** ** The progress of the sources *)

(** The entries a merge may leave. *)
Definition latest_merged b (l l' : list (task_key * source_entry St)) : Prop :=
  ∀ k x, (k, x) ∈ l' → (k, x) ∈ l ∨ (so_task_key x = k ∧ so_checkpoint_id x = b).

(** Only the latest source states change, by entries of one checkpoint. *)
Definition merges_sources b s s' : Prop :=
  view_of s' = view_of s ∧ tx s' = tx s ∧ durable_source_states s' = durable_source_states s ∧
  latest_merged b (latest_source_states s) (latest_source_states s').

#[local] Instance merges_sources_preorder b : PreOrder (merges_sources b).
Proof.
  split; [intros s; split_and!; try done; by left|]. intros s1 s2 s3 (?&?&?&L1) (?&?&?&L2). split_and!; [congruence..|].
  intros k x Hin. destruct (L2 k x Hin) as [?|?]; [by apply L1|by right].
Qed.

(** A step that does not raise. *)
Definition quiet (R : st → st → Prop) (m : act unit) : Prop := ∀ s, ∃ s', m s = (Ok (), s') ∧ R s s'.

Lemma quiet_each {A} R `{!PreOrder R} (f : A → act unit) l : (∀ a, quiet R (f a)) → quiet R (exec_each f l).
Proof.
  intros Hf. induction l as [|a l IH]; intros s; cbn [exec_each]; [by exists s|].
  destruct (Hf a s) as (s1 & E1 & R1). destruct (IH s1) as (s2 & E2 & R2). exists s2.
  rewrite (exec_bind_Ok _ _ _ _ _ E1). split; [done|by etransitivity].
Qed.

Lemma quiet_bind {B} R (m : act unit) (k : unit → act B) s (Ψ : st → Prop) :
  quiet R m → (∀ s', R s s' → Ψ (k () s').2) → Ψ ((m ≫= k) s).2.
Proof. intros Hm Hk. destruct (Hm s) as (s' & E & HR). rewrite (exec_bind_Ok _ _ _ _ _ E). by apply Hk. Qed.

Lemma quiet_update_latest b v (state : St) : quiet (merges_sources b) (update_latest_source_state (mkSourceEntry (source_key v) b state)).
Proof.
  intros s. unfold update_latest_source_state. rewrite exec_bind_gets. cbn zeta.
  match goal with |- context [if ?x then _ else _] => destruct x end; [|by exists s].
  rewrite exec_bind_modify. eexists. split; [done|]. split_and!; try done. intros k x Hin.
  destruct (dict_set_inv _ _ _ _ _ Hin) as [[-> ->]|?]; [by right|by left].
Qed.

Lemma quiet_replace_logical states : quiet untouched (replace_logical_operator_states (C := C) (St := St) (P := P) (OE := OE) states).
Proof.
  intros s. unfold replace_logical_operator_states, bump_state_revision. autorewrite with exec. cbn zeta. autorewrite with exec.
  by case_decide; eexists.
Qed.
Lemma quiet_merge_checkpoint states : quiet untouched (merge_checkpoint_operator_states (C := C) (St := St) (P := P) (OE := OE) states).
Proof. intros s. unfold merge_checkpoint_operator_states, bump_state_revision. autorewrite with exec. by case_decide; eexists. Qed.
Lemma keeps_finalize_operators changed js : keeps untouched (finalize_operators (C := C) (St := St) (P := P) (Ref := Ref) (OE := OE) changed js).
Proof.
  revert changed. induction js as [|j js IH]; intros changed; cbn [finalize_operators]; [keeps|].
  apply keeps_bind; [apply _|unfold finalize_operator; keeps|done].
Qed.
Lemma keeps_record_stabilization c : keeps untouched (record_rescale_stabilization_progress (C := C) (St := St) (P := P) (Ref := Ref) (OE := OE) c).
Proof.
  unfold record_rescale_stabilization_progress, finalize_rescale_operator_states, bump_state_revision.
  repeat (first [assumption | apply keeps_finalize_operators | keeps_step]).
Qed.
Lemma keeps_clear_fence : keeps untouched (clear_rescale_recovery_fence_if_durable (C := C) (St := St) (P := P) (Ref := Ref) (OE := OE)).
Proof.
  intros s. unfold clear_rescale_recovery_fence_if_durable. rewrite exec_bind_gets. unfold id.
  destruct (rescale_recovery_fence s), (rescale_recovery_required_state_revision s), (coordinated_checkpoint_barrier_id s); try done.
  destruct (_ <? _); [done|]. by destruct (existsb _ _).
Qed.

Definition owned_cut b : st → hist → Prop := λ s h, closed (view_of s) b ∧ ¬ carries (tx s) b ∧ collected h b.

(** What [merge_progress] has done at any point. *)
Lemma ok_merged s s' h b domains popped completed carried :
  coordinator_ok s h → owned_cut b s h →
  coalesce b (default [] (dict_get b (inflight_sink_committables s))) = Ok completed →
  coalesce_carried (carried_entries (tx s) domains) = Ok carried → popped ⊆ domains →
  view_of s' = view_of s → tx s' = merged (tx s) b popped completed carried →
  durable_source_states s' = durable_source_states s → latest_merged b (latest_source_states s) (latest_source_states s') →
  coordinator_ok s' h ∧ G ∅ s s'.
Proof.
  intros Hs (Hcl & Hnc & Hcol) Ec Ecar Hpop Ev Et Ed Hl. pose proof (ok_transactions _ _ _ _ Hs) as Htx.
  apply (ok_step _ _ ∅ s s' h Hs Ev).
  - rewrite Et. by eapply tx_merged.
  - destruct (ok_progress _ _ _ _ Hs) as [Hcol' Hl' Hd']. split; [done| |by rewrite Ed]. rewrite Et. intros k x Hin.
    destruct (Hl k x Hin) as [Hold|[Hk Hb]].
    + destruct (Hl' k x Hold) as [Hk [?|[? Hset]]]; (split; [done|]); [by left|right]. split; [done|].
      destruct Hset as [?|Hset]; [by left|right]. intros e He Hb. destruct (Hset e He Hb) as [?|(i & Hi & ?)]; [by left|right].
      exists i. split; [|done]. apply merged_keys. by left.
    + split; [done|right]. rewrite Hb. split; [done|]. by eapply merged_settled.
  - intros b' _ _. rewrite Et. by eapply merged_carries.
Qed.

Lemma step_merge b states : hoare (owned_cut b)
  (merge_progress transaction_id global_commit_namespace combine_committables sha256_hexdigest cfg b states) (λ _ _ _, True).
Proof.
  intros s h Hs Hb. enough (coordinator_ok (merge_progress transaction_id global_commit_namespace combine_committables sha256_hexdigest cfg b states s).2 h
    ∧ G ∅ s (merge_progress transaction_id global_commit_namespace combine_committables sha256_hexdigest cfg b states s).2) as [? ?] by done.
  unfold merge_progress. autorewrite with exec. destruct (checkpoints s !! b) as [c|]; [|split; [done|apply G_refl]].
  autorewrite with exec. unfold id. destruct (coalesce b _) as [completed|] eqn:Ec; [|split; [done|apply G_refl]]. cbn zeta.
  set (domains := carried_domains_for_checkpoint (execution_graph s) c). autorewrite with exec.
  destruct (coalesce_carried _) as [carried|] eqn:Ecar; [|split; [done|apply G_refl]].
  set (late s' := view_of s' = view_of s ∧ durable_source_states s' = durable_source_states s ∧
    latest_merged b (latest_source_states s) (latest_source_states s')).
  assert (Hfin : ∀ popped s', late s' → tx s' = merged (tx s) b popped completed carried → popped ⊆ domains → coordinator_ok s' h ∧ G ∅ s s').
  { intros popped s' (Ev & Ed & Hl) Et Hp. by eapply ok_merged. }
  apply (quiet_bind (merges_sources b) _ _ _ (λ s', coordinator_ok s' h ∧ G ∅ s s')).
  { apply quiet_each; [apply _|]. intros [v x]. apply quiet_update_latest. }
  intros s1 (Ev1 & Et1 & Ed1 & Hl1). autorewrite with exec.
  apply (quiet_bind untouched _ _ _ (λ s', coordinator_ok s' h ∧ G ∅ s s')).
  { destruct (coordinated c); [apply quiet_replace_logical|apply quiet_merge_checkpoint]. }
  intros s2 (Ev2 & Et2 & El2 & Ed2). autorewrite with exec.
  set (s3 := set_pending_sink_committables _ (set_pending_sink_committables _ (set_inflight_sink_committables _ s2))).
  assert (Hl3 : late s3) by (split_and!; [by transitivity (view_of s1)|by transitivity (durable_source_states s1)|
    change (latest_source_states s3) with (latest_source_states s2); by rewrite El2]).
  assert (Et3 : tx s3 = merged (tx s) b [] completed carried) by (rewrite <-Et1; change (tx s1) with (tx (set_inflight_operator_states (delete b) s1));
    rewrite <-Et2; done).
  match goal with |- context [if ?x then bump_state_revision else _] => set (added := x) end. clearbody s3. clear Ev1 Et1 Ed1 Hl1 Ev2 Et2 El2 Ed2.
  apply (quiet_bind untouched _ _ _ (λ s', coordinator_ok s' h ∧ G ∅ s s')).
  { destruct added; [intros s4; by eexists|by eexists]. }
  intros s4 (Ev4 & Et4 & El4 & Ed4). assert (Hl4 : late s4) by (unfold late; rewrite Ev4, El4, Ed4; exact Hl3). rewrite Et3 in Et4.
  clear Ev4 El4 Ed4 Hl3 Et3.
  pose proof (keeps_record_stabilization c s4) as (Ev5 & Et5 & El5 & Ed5).
  unfold mbind, exec_bind. destruct (record_rescale_stabilization_progress c s4) as [[ready|x] s5]; cbn [snd] in *;
    (assert (Hl5 : late s5) by (unfold late; rewrite Ev5, El5, Ed5; exact Hl4)); rewrite Et4 in Et5.
  - apply (Hfin domains); [|cbn; by rewrite Et5|done]. exact Hl5.
  - apply (Hfin []); [done|done|set_solver].
Qed.

(** ** Snapshots and metadata *)

Abbreviation snapshot := (progress_snapshot (C := C) (St := St) (P := P) (Ref := Ref) (OE := OE)).

(** The metadata of a snapshot may be written. *)
Definition snapshot_ok (sn : snapshot) : st → hist → Prop := λ _ h,
  ∀ x, x ∈ sn_sources sn → restored_source h x ∨
    (collected h (so_checkpoint_id x) ∧ settled_in transaction_id combine_committables h (identity <$> sn_sinks sn) (so_checkpoint_id x)).

Lemma step_snapshot : hoare (λ _ _, True) take_snapshot (λ r s h, ∀ sn, r = Ok (Some sn) → snapshot_ok sn s h).
Proof.
  intros s h Hs _. unfold take_snapshot. autorewrite with exec. unfold id. destruct (_ && _).
  - destruct (keeps_untouched _ keeps_clear_fence s h Hs) as [? ?]. unfold mbind, exec_bind.
    destruct (clear_rescale_recovery_fence_if_durable s) as [[[]|x] s']; by split_and!.
  - cbn [mret exec_ret fst snd]. split_and!; [done|apply G_refl|]. intros sn [= <-] x Hx. cbn in *.
    apply list_elem_of_fmap in Hx as ([k x'] & -> & Hin). cbn.
    destruct (ok_progress _ _ _ _ Hs) as [_ Hl _]. destruct (Hl k x' Hin) as [_ [?|[? Hset]]]; [by left|right; split; [done|]].
    replace (identity <$> (pending_sink_committables s).*2) with (pending_sink_committables s).*1; [done|].
    rewrite <-list_fmap_compose. apply list_fmap_ext. intros i [j e] Hi. apply list_elem_of_lookup_2 in Hi.
    by apply (tx_pending _ _ _ _ _ (ok_transactions _ _ _ _ Hs)) in Hi.
Qed.

(** The metadata is on storage. *)
Definition written (sn : snapshot) h : Prop :=
  ∃ m path, Answered (WriteCheckpoint m) (Ok path) ∈ h ∧ m_source_states m = sn_sources sn ∧ m_sink_committables m = sn_sinks sn.

Lemma by_identity_inv (l : list entry) i e : (i, e) ∈ by_identity transaction_id l → i = identity e ∧ e ∈ l.
Proof.
  intros [Hin|Hin]%dict_update_inv; [by apply not_elem_of_nil in Hin|]. by apply list_elem_of_fmap in Hin as (e0 & [= -> ->] & ?).
Qed.

Lemma by_key_inv (l : list (source_entry St)) k x :
  (k, x) ∈ dict_update [] ((λ y, (so_task_key y, y)) <$> l) → so_task_key x = k ∧ x ∈ l.
Proof.
  intros [Hin|Hin]%dict_update_inv; [by apply not_elem_of_nil in Hin|]. by apply list_elem_of_fmap in Hin as (e0 & [= -> ->] & ?).
Qed.

Lemma step_install sn revision path restored : hoare (λ _, written sn) (install_metadata transaction_id sn revision path restored) (λ _ _ _, True).
Proof.
  intros s h Hs (m & p & Hm & Esrc & Esink). set (s' := (install_metadata transaction_id sn revision path restored s).2).
  destruct (ok_transactions _ _ _ _ Hs) as [Hnd Hin Hdom Hcar Hpend Hdur Hlive]. destruct (ok_progress _ _ _ _ Hs) as [Hcol Hl Hd].
  destruct (ok_step _ _ ∅ s s' h Hs) as [? ?]; try done.
  - split; try done. intros i e [-> He]%by_identity_inv. split; [done|]. left. exists m, p. by rewrite Esink.
  - split; try done. intros k x [Hk Hx]%by_key_inv. split; [done|]. left. exists m, p. by rewrite Esrc.
Qed.

(** ** Gates, graphs and a fresh start *)

Lemma ok_gate s h o : coordinator_ok s h → (is_Some o → inflight_checkpoints s = []) →
  coordinator_ok (set_rescale_operation_id (λ _, o) s) h ∧ G ∅ s (set_rescale_operation_id (λ _, o) s).
Proof.
  intros Hs Ho. set (s' := set_rescale_operation_id (λ _, o) s).
  assert (checkpoints_ok (view_of s')) as Hck by (destruct (ok_checkpoints _ _ _ _ Hs); by split).
  destruct (ok_view _ _ s s' h Hs Hck) as [? HG]; [by apply monotone_same|done..|].
  split; [done|apply HG].
Qed.

Lemma keeps_open_gate : keeps okay (modify (set_rescale_operation_id (λ _, None))).
Proof. apply keeps_modify. intros s h Hs. apply ok_gate; [done|]. by intros [? ?]. Qed.

Lemma keeps_no_active : keeps okay (modify (set_active_checkpoint_by_domain (λ _, ∅))).
Proof.
  apply keeps_modify. intros s. apply okay_view; try done. intros h Hs. destruct (ok_checkpoints _ _ _ _ Hs). split; [|by apply monotone_same].
  by split.
Qed.

Ltac okays_step :=
  lazymatch goal with
  | |- keeps okay (modify (set_rescale_operation_id (λ _, None))) => apply keeps_open_gate
  | |- keeps okay (modify (set_active_checkpoint_by_domain (λ _, ∅))) => apply keeps_no_active
  | |- keeps okay (remap_carried_sink_domains _) => apply step_remap
  | |- keeps okay (modify _) => frames
  | |- keeps okay (checkpoint_of _) => frames
  | |- keeps okay get_graph => frames
  | |- _ => keeps_step
  end.
Ltac okays := repeat (first [assumption | okays_step]).

Lemma step_finish operation finished target : keeps okay (finish_operator_rescale (C := C) (St := St) (P := P) (Ref := Ref) (OE := OE) operation finished target).
Proof. unfold finish_operator_rescale. okays. Qed.

Lemma step_reconfigure g : keeps okay (reconfigure_execution_graph cfg g).
Proof. unfold reconfigure_execution_graph. okays. Qed.

Lemma step_restore_fence g : keeps okay (restore_fence g).
Proof. unfold restore_fence. cbn zeta. okays. Qed.

Lemma step_register_operator_state b v reference : keeps okay (register_operator_state (C := C) (St := St) (P := P) (OE := OE) checksum b v reference).
Proof. unfold register_operator_state. frames. Qed.

(** What storage gives back. *)
Lemma step_restored_sources revision sources :
  hoare (λ _ h, ∀ x, x ∈ sources → restored_source h x) (install_restored_sources revision sources) (λ _ _ _, True).
Proof.
  intros s h Hs Hr. set (s' := (install_restored_sources (C := C) (P := P) (Ref := Ref) (OE := OE) revision sources s).2).
  destruct (ok_progress _ _ _ _ Hs) as [Hcol Hl Hd]. destruct (ok_step _ _ ∅ s s' h Hs) as [? ?]; try done.
  - apply (ok_transactions _ _ _ _ Hs).
  - split; [done|..]; intros k x [Hk Hx]%by_key_inv; (split; [done|]); [left; by apply Hr|right; by apply Hr].
Qed.

Lemma reseed_le high_water current : current <= reseed high_water current.
Proof. unfold reseed. destruct (0 <? high_water); lia. Qed.

Lemma step_restored_sinks g sinks high_water :
  hoare (λ _ h, live h = [] ∧ ∀ e, e ∈ sinks → durable_transaction h e) (install_restored_sinks transaction_id monotonic cfg g sinks high_water) (λ _ _ _, True).
Proof.
  intros s h Hs [Hlive Hdur]. set (s' := (install_restored_sinks transaction_id monotonic cfg g sinks high_water s).2).
  destruct (ok_checkpoints _ _ _ _ Hs) as [Hgen Hknown _ _ _ _ _]. destruct (ok_progress _ _ _ _ Hs) as [Hcol Hl Hd].
  assert (view_of s' = mkView (reseed high_water (generator s)) (checkpoints s) [] ∅ ∅ (rescale_operation_id s)) as Ev by done.
  assert (tx s' = MkTx [] (by_identity transaction_id sinks) (by_identity transaction_id sinks) []) as Et by done.
  pose proof (reseed_le high_water (generator s)) as Hle.
  assert (monotone (view_of s) (view_of s')) as Hm.
  { rewrite Ev. split; cbn; [intros b [? _]; split; [done|apply not_elem_of_nil]|]. intros b c Hc. exists c. split; [done|apply grows_refl]. }
  assert (coordinator_ok s' h); [split|split_and!; [done|split; [done|]|done]].
  - rewrite Ev. split; cbn; try done.
    + cbn in Hgen. lia.
    + intros b c Hc. destruct (Hknown b c Hc). cbn in *. split; [lia|done].
    + constructor.
    + by intros b ?%not_elem_of_nil.
  - rewrite Et. split; cbn.
    + constructor.
    + by intros b es ?%not_elem_of_nil.
    + constructor.
    + intros i e (d & l & Hin & _). by apply not_elem_of_nil in Hin.
    + by intros i e [? _]%by_identity_inv.
    + intros i e [? ?]%by_identity_inv. auto.
    + right. rewrite Hlive. by intros e ?%not_elem_of_nil.
  - split; [intros b Hb; by apply (mo_closed _ _ Hm), Hcol| |done]. intros k x Hin. destruct (Hl k x Hin) as [Hk [?|[? _]]]; (split; [done|]); [by left|right].
    split; [done|right]. rewrite Hlive. by intros e ?%not_elem_of_nil.
  - apply (ok_history _ _ _ _ Hs).
  - intros b _ _ (i & e & (d & l & Hin & _) & _). rewrite Et in Hin. by apply not_elem_of_nil in Hin.
Qed.

(** ** The gate of a rescale *)

Lemma detach_gate b o s :
  detach b (set_rescale_operation_id o s) = ((detach b s).1, set_rescale_operation_id o (detach b s).2).
Proof.
  unfold detach, pop_inflight. rewrite !exec_bind_modify, !bind_checkpoint_of.
  change (checkpoints (set_inflight_checkpoints (filter (λ x, x ≠ b)) (set_rescale_operation_id o s))) with
    (checkpoints (set_inflight_checkpoints (filter (λ x, x ≠ b)) s)).
  destruct (checkpoints _ !! b) as [c|]; [|done]. unfold release_domain_slot, modify. destruct (domain_id c) as [d|]; [|done].
  cbn [fst snd]. change (active_checkpoint_by_domain (set_inflight_checkpoints (filter (λ x, x ≠ b)) (set_rescale_operation_id o s))) with
    (active_checkpoint_by_domain (set_inflight_checkpoints (filter (λ x, x ≠ b)) s)). by destruct (decide _).
Qed.

Lemma detach_all_gate bs o s :
  exec_each detach bs (set_rescale_operation_id o s) = ((exec_each detach bs s).1, set_rescale_operation_id o (exec_each detach bs s).2).
Proof.
  revert s. induction bs as [|b bs IH]; intros s; cbn [exec_each]; [done|]. unfold mbind, exec_bind. rewrite detach_gate.
  destruct (detach b s) as [[[]|x] s1]; cbn; [|done]. apply IH.
Qed.

(** Closing the gate takes every checkpoint in flight out. *)
Lemma step_close_gate operation s h : coordinator_ok s h →
  let m := (current ← gets rescale_operation_id;
            if bool_decide (is_Some current) && negb (bool_decide (current = Some operation)) then throw RuntimeError
            else _ ← modify (set_rescale_operation_id (λ _, Some operation)); detach_inflight_checkpoints) : act (list Z) in
  coordinator_ok (m s).2 h ∧ G ∅ s (m s).2 ∧ ∀ bs, (m s).1 = Ok bs → ∀ b, b ∈ bs → b ∈ taken s (m s).2.
Proof.
  intros Hs. cbn zeta. rewrite exec_bind_gets. destruct (_ && _); [split_and!; [done|apply G_refl|done]|].
  rewrite exec_bind_modify. unfold detach_inflight_checkpoints. rewrite exec_bind_gets, exec_each_detach.
  change (inflight_checkpoints (set_rescale_operation_id (λ _, Some operation) s)) with (inflight_checkpoints s).
  destruct (step_detach_all (inflight_checkpoints s) s h Hs) as (s1 & E1 & Hs1 & HG1 & Hc1 & Ei); [apply (ck_nodup _ (ok_checkpoints _ _ _ _ Hs))|done|].
  assert (inflight_checkpoints s1 = []) as Enil.
  { rewrite Ei. apply filter_none. intros x Hx Hn. by apply Hn. }
  set (s2 := set_rescale_operation_id (λ _, Some operation) s1).
  rewrite (exec_bind_Ok _ _ _ () s2) by by rewrite detach_all_gate, E1.
  destruct (ok_gate s1 h (Some operation) Hs1) as [Hs2 HG2]; [done|]. fold s2 in Hs2, HG2. cbn.
  assert (G ∅ s s2) as HG by by eapply G_trans. split_and!; [done|done|]. intros bs [= <-] b Hb. apply elem_of_taken.
  split; [done|]. eapply G_closed; [exact HG2|]. by apply Hc1.
Qed.

(** An expired checkpoint leaves the in-flight ones and carries its transactions over at once. *)
Lemma step_expire b : keeps okay (
    inflight ← gets inflight_checkpoints;
    if negb (bool_decide (b ∈ inflight)) then throw KeyError
    else
      c ← checkpoint_of b;
      _ ← pop_inflight b;
      _ ← release_domain_slot c;
      _ ← modify (set_inflight_operator_states (delete b));
      _ ← carry_inflight_sink_committables transaction_id b;
      _ ← update_checkpoint_failed wall b;
      mret (trigger_sources c)).
Proof.
  intros s h Hs. rewrite exec_bind_gets. destruct (decide (b ∈ inflight_checkpoints s)) as [Hin|Hin];
    [rewrite bool_decide_true by done|rewrite bool_decide_false by done; by apply okay_stay]. cbn [negb].
  destruct (ok_inflight s h b Hs Hin) as (c & Hc & _). rewrite bind_checkpoint_of, Hc.
  destruct (step_detach s h b Hs Hin) as (s1 & E & Hs1 & HG1 & Hcl & _).
  match goal with |- context [_ ← pop_inflight b; ?k] => set (rest := k) end.
  assert (∀ k : act (list vid), (_ ← pop_inflight b; _ ← release_domain_slot c; k) s = k s1) as Hrun.
  { set (s0 := set_inflight_checkpoints (filter (λ x, x ≠ b)) s).
    assert (release_domain_slot c s0 = (Ok (), s1)) as E0.
    { rewrite <-E. unfold detach, pop_inflight. rewrite exec_bind_modify, bind_checkpoint_of.
      fold s0. change (checkpoints s0) with (checkpoints s). by rewrite Hc. }
    intros k. unfold pop_inflight. rewrite exec_bind_modify. fold s0. by rewrite (exec_bind_Ok _ _ _ _ _ E0). }
  unfold rest. rewrite Hrun. clear rest Hrun E.
  match goal with |- coordinator_ok (?m s1).2 h ∧ _ => assert (step_of {[b]} (is_closed b) m (λ _ _ _, True)) as Hm end.
  { eapply (hoare_bind _ _ _ _ (λ _, is_closed b)); [|intros _|done].
    - apply hoare_invariant; [|frames]. intros s' s'' h' HG'. by eapply G_closed.
    - eapply (hoare_bind _ _ _ _ (λ _, is_closed b)); [apply step_carry; set_solver|intros _|done].
      eapply (hoare_bind _ _ _ _ (λ _ _ _, True)); [|intros _; apply keeps_step_of; frames|done].
      intros s' h' Hs' Hb. destruct (step_failed b s' h' Hs' Hb) as (? & ? & ?). split_and!; [done| |done].
      by eapply G_mono; [apply empty_subseteq|]. }
  destruct (Hm s1 h Hs1 Hcl) as (Hs2 & [Hm2 Hc2] & _). split; [done|]. destruct HG1 as [Hm1 Hc1]. split; [by etransitivity|].
  intros b' Hb' _ Hcar. apply Hc1; [done|set_solver|]. apply Hc2; [by apply (mo_closed _ _ Hm1)| |done].
  intros ->%elem_of_singleton. by destruct Hb'.
Qed.
End steps.
