(* ===== verification/CoordinatorSafety.v ===== *)
(** * Safety of the checkpoint coordinator

    The methods of the coordinator are proved against the rely-guarantee logic of
    [Coroutines], piece by piece from the atomic steps of [CoordinatorSteps]; adequacy
    then gives the invariant in every reachable configuration, whatever the storage, the
    tasks and the sinks answer and however the calls interleave. *)
From S2P Require Import Prelude Dicts Effects Coroutines Checkpoints Coordinator CoordinatorInvariant CoordinatorSteps.
Open Scope Z_scope.

Section safety.
Context {C St P Ref OE : Type} (transaction_id : C → string) (global_commit_namespace : C → option string)
  (combine_committables : C → list C → string → outcome C) (sha256_hexdigest : string → string)
  (checksum : Ref → string) (cache_partition : bytes → Ref) (wall monotonic : nat → Z) (cfg : coordinator_config).

Abbreviation st := (state C St P Ref OE).
Abbreviation act := (exec st).
Abbreviation req := (request C St P Ref OE).
Abbreviation co := (coro st (answer (C := C) (St := St) (P := P) (Ref := Ref) (OE := OE))).
Abbreviation meth := (method (C := C) (P := P) (Ref := Ref)).
Abbreviation ev := (event (answer (C := C) (St := St) (P := P) (Ref := Ref) (OE := OE)) (reply (C := C) (P := P) (Ref := Ref))).
Abbreviation hist := (list ev).
Abbreviation entry := (sink_entry C).
Abbreviation identity := (identity transaction_id).
Abbreviation coordinator_ok := (coordinator_ok transaction_id combine_committables).
Abbreviation okay := (okay transaction_id combine_committables (St := St) (P := P) (Ref := Ref) (OE := OE)).
Abbreviation step_of := (step_of transaction_id combine_committables (St := St) (P := P) (Ref := Ref) (OE := OE)).
Abbreviation assertion := (gset Z → st → hist → Prop).
Abbreviation tri := (triple (M := meth) coordinator_ok taken G Rely).
Abbreviation stable := (stable (M := meth) (rep := reply (C := C) (P := P) (Ref := Ref)) coordinator_ok (Rely (C := C) (St := St) (P := P) (Ref := Ref) (OE := OE))).
Abbreviation persistent := (persistent (M := meth) (rep := reply (C := C) (P := P) (Ref := Ref)) coordinator_ok taken G (Rely (C := C) (St := St) (P := P) (Ref := Ref) (OE := OE))).
Implicit Types (s : st) (h : hist) (e : entry) (b : Z) (T : gset Z) (Φ F : assertion).

Definition anything : assertion := λ _ _ _, True.

(** A method that may run at any time. *)
Definition good {A} (p : co A) : Prop := tri anything p (λ _, anything).

(** ** Assertions *)

Definition closed_at b : assertion := λ _ s _, closed (view_of s) b.
Definition owned b : assertion := λ T s _, b ∈ T ∧ closed (view_of s) b.
Definition aligned_at b : assertion := λ _ s _, ∃ c, checkpoints s !! b = Some c ∧ aligned c.
Definition uncarried b : assertion := λ _ s _, ¬ carries (tx s) b.
Definition history_says (Q : hist → Prop) : assertion := λ _ _ h, Q h.

Lemma persistent_closed b : persistent (closed_at b).
Proof.
  split_and!; [|intros T s s' h HG Hc; by eapply G_closed|done]. intros T s s' h h' [Hm _] _ _ Hc. by apply (mo_closed _ _ Hm).
Qed.

Lemma persistent_owned b : persistent (owned b).
Proof.
  split_and!; [|intros T s s' h HG [? Hc]; split; [set_solver|by eapply G_closed]|done].
  intros T s s' h h' [Hm _] _ _ [? Hc]. split; [done|]. by apply (mo_closed _ _ Hm).
Qed.

Lemma persistent_aligned b : persistent (aligned_at b).
Proof.
  assert (Hmono : ∀ T s s' h h', monotone (view_of s) (view_of s') → aligned_at b T s h → aligned_at b T s' h').
  { intros T s s' h h' Hm (c & Hc & Hal). destruct (mo_known _ _ Hm b c Hc) as (c' & ? & ?). exists c'. split; [done|by eapply grows_aligned]. }
  split_and!; [|intros T s s' h [Hm _] Hc; by apply (Hmono (T ∪ taken s s') s s' h h)|done].
  intros T s s' h h' [Hm _] _ _ Hc. by apply (Hmono T s s' h h').
Qed.

Lemma persistent_history Q : (∀ h h', h ⊆ h' → Q h → Q h') → persistent (history_says Q).
Proof.
  intros HQ. split_and!; [|done|]; unfold history_says.
  - intros T s s' h h' _ Hh _. apply HQ. by apply prefix_subseteq.
  - intros T s h q r. apply HQ. set_solver.
Qed.

Lemma persistent_and F F' : persistent F → persistent F' → persistent (λ T s h, F T s h ∧ F' T s h).
Proof.
  intros (H1 & H2 & H3) (K1 & K2 & K3). split_and!.
  - intros T s s' h h' HR Hh Hs [? ?]. split; [by eapply H1|by eapply K1].
  - intros T s s' h HG [? ?]. split; [by apply H2|by apply K2].
  - intros T s h q r [? ?]. split; [by apply H3|by apply K3].
Qed.

Lemma persistent_snapshot sn : persistent (λ _, snapshot_ok transaction_id combine_committables sn).
Proof.
  split_and!; [|done|].
  - intros T s s' h h' _ Hh Hs Hsn x Hx. destruct (Hsn x Hx) as [?|[Hc Hset]]; [left|right].
    + eapply restored_source_mono; [by apply prefix_subseteq|done].
    + split; [eapply collected_mono; [by apply prefix_subseteq|done]|].
      eapply settled_later; [exact Hh|apply (ok_history _ _ _ _ Hs)|done|exact Hset|]. eauto.
  - intros T s h q r Hsn x Hx. assert (h ⊆ h ++ [Answered q r]) as Hsub by set_solver.
    destruct (Hsn x Hx) as [?|[Hc Hset]]; [left; by eapply restored_source_mono|right].
    split; [by eapply collected_mono|]. destruct Hset as [?|Hset]; [left; by eapply terminal_mono|right].
    intros e [He|He]%live_snoc Hb; [|done]. destruct (Hset e He Hb) as [?|?]; [left; by eapply committed_mono|by right].
Qed.

(** The transactions of another cut may appear, not those of one's own. *)
Lemma stable_uncarried b : stable (λ T s h, owned b T s h ∧ uncarried b T s h).
Proof.
  intros T s s' h h' HR Hh Hs [Ho Hn]. split; [by eapply (proj1 (persistent_owned b))|]. destruct HR as [_ HR].
  intros Hc. apply Hn. apply HR; [apply Ho|done].
Qed.

(** ** Rules *)

Lemma tri_ret {A} (a : A) Φ : tri Φ (mret a) (λ _, Φ).
Proof. by apply co_triple_ret. Qed.

Lemma good_ret {A} (a : A) : good (mret a).
Proof. by apply co_triple_ret. Qed.
Lemma good_raises {A} x : good (raises (A := A) x).
Proof. by apply triple_raises. Qed.
Lemma good_bind {A B} (p : co A) (f : A → co B) : good p → (∀ a, good (f a)) → good (p ≫= f).
Proof. intros Hp Hf. eapply co_triple_bind; [exact Hp|exact Hf|done]. Qed.
Lemma good_try {A} (p : co A) : good p → good (co_try p).
Proof. intros Hp. by apply triple_try. Qed.
Lemma good_each {A} (f : A → co unit) l : (∀ a, good (f a)) → good (co_each f l).
Proof. intros Hf. apply triple_each; [|done]. intros a _. eapply co_triple_mono; [apply Hf|done|by intros [] ? ? ? _]. Qed.
Lemma good_fold {A B} (f : B → A → co B) (acc : B) l : (∀ (acc : B) a, good (f acc a)) → good (co_fold f acc l).
Proof.
  intros Hf. apply (triple_fold _ _ _ _ (λ _, anything)); [|done]. intros b' a _. eapply co_triple_mono; [apply Hf|done|by intros [] ? ? ? _].
Qed.
Lemma good_wait f : good (wait_until f).
Proof. by apply triple_wait. Qed.
Lemma good_sync {A} (m : act A) : keeps okay m → good (sync m).
Proof.
  intros Hm. apply triple_sync. intros T s h Hs _. destruct (Hm s h Hs). split_and!; [|done|done].
  by eapply G_mono; [apply empty_subseteq|].
Qed.

(** An assertion that stays, around any method. *)
Lemma tri_good {A} Φ (p : co A) : persistent Φ → good p → tri Φ p (λ _, Φ).
Proof. intros HF Hp. eapply co_triple_mono; [by apply (triple_frame _ _ _ _ Φ)|done|by intros ? ? ? ? [? _]]. Qed.

Lemma good_of {A} Φ (p : co A) Q : tri Φ p Q → (∀ T s h, Φ T s h) → good p.
Proof. intros Hp HΦ. eapply co_triple_mono; [exact Hp|done|done]. Qed.

Lemma tri_step {A} Φ (m : act A) (Q : outcome A → assertion) :
  (∀ T, step_of T (Φ T) m (λ r, Q r T)) → (∀ r T T' s h, T ⊆ T' → Q r T s h → Q r T' s h) → tri Φ (sync m) Q.
Proof.
  intros Hm HQ. apply triple_sync. intros T s h Hs HP. destruct (Hm T s h Hs HP) as (? & ? & ?). split_and!; [done|done|].
  eapply HQ; [|done]. set_solver.
Qed.

(** [await], by what the request needs. *)
Lemma tri_ask Φ (q : req) (Q : outcome (answer q) → assertion) :
  stable Φ → (∀ T s h, coordinator_ok s h → Φ T s h → justified transaction_id combine_committables h (Issued q) ∧
    ∀ b y vs, q = CollectSourceStates b y vs → closed (view_of s) b) →
  (∀ r T s h, coordinator_ok s h → Issued q ∈ h → Φ T s h → Q r T s (h ++ [Answered q r])) → tri Φ (ask q) Q.
Proof.
  intros Hst Hq HQ. apply triple_await; [done| |].
  - intros T s h Hs HP. destruct (Hq T s h Hs HP) as [Hj Hc]. apply ok_snoc; [done|done| |done].
    intros b y vs [= Heq]. by eapply Hc.
  - intros r T s h Hs Hin HP. split; [|by apply HQ]. apply ok_snoc; done.
Qed.

(** Requests that need nothing. *)
Definition neutral (q : req) : bool :=
  match q with CommitTransaction _ | NotifyPersisted _ _ | WriteCheckpoint _ | CollectSourceStates _ _ _ => false | _ => true end.

Lemma good_ask q : neutral q = true → good (ask q).
Proof. intros Hq. apply tri_ask; [done| |done]. intros T s h _ _. by destruct q. Qed.

Lemma good_lock {A} locked set (p : co A) :
  (∀ x s, untouched s (set x s)) → good p → good (with_lock locked set p).
Proof.
  intros Hset Hp. unfold with_lock. apply good_bind; [apply good_wait|intros _].
  apply good_bind; [apply good_sync, keeps_untouched, keeps_modify; apply Hset|intros _].
  eapply triple_finally; [exact Hp|]. intros r T s h Hs _.
  destruct (okay_frame _ _ s (set false s) (Hset false s) h Hs). cbn. split_and!; [by eapply G_mono; [apply empty_subseteq|]|done|done].
Qed.

(** Programs that may run at any time, by their structure. *)
Ltac untouched_step :=
  lazymatch goal with
  | |- keeps untouched (modify _) => apply keeps_modify; intros; split_and!; reflexivity
  | |- keeps untouched (now_ms _) => apply keeps_now_ms
  | |- keeps untouched (now_monotonic _) => apply keeps_now_monotonic
  | |- keeps untouched (checkpoint_of _) => apply keeps_checkpoint_of
  | |- keeps untouched get_graph => apply keeps_get_graph
  | |- keeps untouched (clear_rescale_recovery_fence_if_durable) => apply keeps_clear_fence
  | |- keeps untouched (send _) => unfold send
  | |- keeps _ (gets _) => apply keeps_gets; apply untouched_preorder
  | |- keeps _ (throw _) => apply keeps_throw; apply untouched_preorder
  | |- keeps _ (of_outcome _) => apply keeps_of_outcome; apply untouched_preorder
  | |- keeps _ (mret _) => apply keeps_ret; apply untouched_preorder
  | |- keeps _ (exec_each _ _) => apply keeps_exec_each; [apply untouched_preorder|intros]
  | |- keeps _ (_ ≫= _) => apply keeps_bind; [apply untouched_preorder| |intros]
  | |- keeps _ (match ?x with _ => _ end) => destruct x
  end.

Ltac goods_step :=
  lazymatch goal with
  | |- good (mret _) => apply good_ret
  | |- good (raises _) => apply good_raises
  | |- good (ask _) => by apply good_ask
  | |- good (wait_until _) => apply good_wait
  | |- good (co_try _) => apply good_try
  | |- good (co_each _ _) => apply good_each; intros
  | |- good (co_fold _ _ _) => apply good_fold; intros
  | |- good (with_lock _ _ _) => apply good_lock; [intros; split_and!; reflexivity|]
  | |- good (sync _) => apply good_sync, keeps_untouched; repeat untouched_step
  | |- good (_ ≫= _) => apply good_bind; [|intros]
  | |- good (match ?x with _ => _ end) => destruct x
  end.
Ltac goods := repeat (first [assumption | goods_step]).

Ltac as_good := lazymatch goal with |- triple _ _ _ _ _ ?p _ => change (good p) end.

(** ** Commits *)

Definition durable_items (items : list (ident * entry)) : assertion :=
  history_says (λ h, ∀ item, item ∈ items → item.1 = identity item.2 ∧ durable_transaction h item.2).

Lemma persistent_durable items : persistent (durable_items items).
Proof.
  apply persistent_history. intros h h' Hh Hi item Hin. destruct (Hi item Hin). split; [done|]. by eapply durable_transaction_mono.
Qed.

Lemma tri_commit_one items strict all item : item ∈ items →
  tri (durable_items items) (commit_one strict all item) (λ _, anything).
Proof.
  intros Hin. unfold commit_one.
  eapply (co_triple_bind _ _ _ _ _ _ _ (λ r T s h, match r with Ok (Ok ()) => published transaction_id item s h | _ => True end)); [| |done].
  - apply triple_try. eapply co_triple_mono; [apply (tri_ask _ (CommitTransaction item.2)
      (λ r T s h, match r with Ok () => published transaction_id item s h | _ => True end))| |].
    + apply (persistent_durable items).
    + intros T s h _ Hd. split; [|done]. by apply Hd.
    + intros [[]|x] T s h _ _ Hd; [|done]. split; [|by apply Hd]. apply elem_of_app. right. by left.
    + done.
    + by intros [[]|x].
  - intros [[]|x].
    + eapply co_triple_mono; [apply (tri_step (λ _, published transaction_id item) _ (λ _, anything))| |]; try done.
      intros T. apply step_commit.
    + change (good (if strict then raises CheckpointCommitError else mret false)). goods.
Qed.

Lemma good_commit strict : good (commit_durable_sink_committables strict).
Proof.
  unfold commit_durable_sink_committables.
  eapply (co_triple_bind _ _ _ _ _ _ _ (λ r T s h, match r with Ok items => durable_items items T s h | _ => True end)); [| |done].
  - apply tri_step; [|by intros [items|x]]. intros T. apply hoare_gets. intros s h Hs _ item Hin. destruct item as [i e].
    by apply (tx_durable _ _ _ _ _ (ok_transactions _ _ _ _ Hs)) in Hin.
  - intros items. apply (triple_fold _ _ _ _ (λ _, durable_items items)); [|done]. intros all item Hin.
    eapply co_triple_mono; [apply (triple_frame _ _ _ _ (durable_items items) (durable_items items)); [apply persistent_durable|by apply tri_commit_one]|done|].
    by intros [r|x] T s h [? _].
Qed.

(** ** Sources *)

Lemma good_notify_source g v : good (notify_source g v).
Proof.
  unfold notify_source.
  eapply (co_triple_bind _ _ _ _ _ _ _ (λ r T s h, ∀ s0, r = Ok s0 → ∀ x, dict_get (source_key v) (durable_source_states s0) = Some x →
    durable_source h x ∧ so_task_key x = SubtaskKey v)); [| |by intros].
  - apply tri_step; [|by intros ? ? ? ? ? ? HQ]. intros T. apply hoare_gets. intros s h Hs _ s0 [= <-] x Hx. apply dict_get_In in Hx.
    by apply (pr_durable _ _ _ _ _ _ _ (ok_progress _ _ _ _ Hs)) in Hx as [? ?].
  - intros s0. destruct (dict_get (source_key v) (durable_source_states s0)) as [x|] eqn:Ex.
    2: { eapply co_triple_mono; [apply good_ret|done|done]. }
    cbn zeta. case_match; [eapply co_triple_mono; [apply good_ret|done|done]|]. case_match; [eapply co_triple_mono; [apply good_ret|done|done]|].
    eapply (co_triple_bind _ _ _ _ _ _ _ (λ _, anything)); [| |done].
    + apply triple_try. eapply (co_triple_mono _ _ _ _ _ (history_says (λ h, durable_source h x ∧ so_task_key x = SubtaskKey v))).
      * apply (tri_ask _ (NotifyPersisted v (so_checkpoint_id x)) (λ _, anything)); [|intros T s h _ Hd; split; [|done]; by exists x; destruct Hd|done].
        apply persistent_history. intros h h' Hh [? ?]. split; [|done]. by eapply durable_source_mono.
      * intros T s h Hd. by apply Hd with (s0 := s0).
      * done.
    + intros [called|y]; as_good; goods.
Qed.

Lemma good_notify : good notify_durable_source_checkpoints.
Proof.
  unfold notify_durable_source_checkpoints. goods. apply good_notify_source.
Qed.

(** ** Failure *)

Lemma good_finish_release b : keeps okay (finish_checkpoint_release b).
Proof. apply keeps_untouched. unfold finish_checkpoint_release. repeat untouched_step. Qed.

Lemma good_attempt b vs : good (attempt_checkpoint_release b vs).
Proof. unfold attempt_checkpoint_release. goods. Qed.

Lemma good_release b vs : good (release_checkpoint_sources b vs).
Proof.
  unfold release_checkpoint_sources. apply good_bind; [goods|intros _]. apply good_bind; [apply good_attempt|intros []]; [|goods].
  apply good_sync, good_finish_release.
Qed.

Lemma good_retry : good retry_pending_checkpoint_releases.
Proof.
  unfold retry_pending_checkpoint_releases. apply good_bind; [goods|intros l]. apply good_each. intros item.
  apply good_bind; [apply good_attempt|intros []]; [|goods]. apply good_sync, good_finish_release.
Qed.

Lemma good_abort_tasks b wait : good (abort_checkpoint_tasks b wait).
Proof. unfold abort_checkpoint_tasks. goods. Qed.

Lemma tri_failed b : tri (owned b) (sync (update_checkpoint_failed wall b)) (λ _, anything).
Proof.
  apply tri_step; [|done]. intros T s h Hs [_ Hc]. destruct (step_failed _ _ wall b s h Hs Hc) as (? & ? & _).
  split_and!; [done| |done]. by eapply G_mono; [apply empty_subseteq|].
Qed.

(** The first step of a failure: the transactions wait for the next cut. *)
Lemma step_give_up {A} T b (k : act A) : keeps okay k →
  step_of T (owned b T) (_ ← modify (set_inflight_operator_states (delete b)); _ ← carry_inflight_sink_committables transaction_id b; k)
    (λ _, anything T).
Proof.
  intros Hk s h Hs [HT Hc]. rewrite exec_bind_modify. set (s1 := set_inflight_operator_states (delete b) s).
  destruct (okay_frame transaction_id combine_committables s s1 (conj eq_refl (conj eq_refl (conj eq_refl eq_refl))) h Hs) as [Hs1 HG1].
  assert (G T s s1) as HG1' by by eapply G_mono; [apply empty_subseteq|].
  destruct (step_carry transaction_id combine_committables T b HT s1 h Hs1 Hc) as (Hs2 & HG2 & _). unfold mbind, exec_bind.
  destruct (carry_inflight_sink_committables transaction_id b s1) as [[[]|x] s2]; cbn in *.
  - destruct (Hk s2 h Hs2) as [Hs3 HG3]. split_and!; [done| |done]. eapply G_trans; [by eapply G_trans|].
    by eapply G_mono; [apply empty_subseteq|].
  - split_and!; [done|by eapply G_trans|done].
Qed.

(** [p] while the method owns [b]. *)
Lemma tri_owned {A B} b (p : co A) (f : A → co B) :
  tri (owned b) p (λ _, anything) → (∀ a, tri (owned b) (f a) (λ _, anything)) → tri (owned b) (p ≫= f) (λ _, anything).
Proof.
  intros Hp Hf. eapply (co_triple_bind _ _ _ _ _ _ _ (λ _ T s h, owned b T s h ∧ anything T s h)); [| |done].
  - eapply co_triple_mono; [apply (triple_frame _ _ _ _ (owned b) (owned b)); [apply persistent_owned|exact Hp]|done|done].
  - intros a. eapply co_triple_mono; [apply Hf|by intros ? ? ? [? _]|done].
Qed.

Lemma tri_weaken {A} Φ (p : co A) : good p → tri Φ p (λ _, anything).
Proof. intros Hp. by eapply co_triple_mono; [exact Hp|..]. Qed.

Lemma tri_fail b wait : tri (owned b) (fail_checkpoint transaction_id wall b wait) (λ _, anything).
Proof.
  unfold fail_checkpoint. apply tri_owned; [|intros vs].
  - apply tri_step; [|done]. intros T. apply step_give_up. apply keeps_untouched. repeat untouched_step.
  - apply tri_owned; [apply tri_weaken, good_release|intros _]. apply tri_owned; [apply tri_weaken, good_abort_tasks|intros _]. apply tri_failed.
Qed.

Lemma good_expire : good (expire_stale_checkpoints transaction_id wall cfg).
Proof.
  unfold expire_stale_checkpoints. destruct (_ <=? _); [goods|]. apply good_bind; [goods|intros expired]. apply good_each. intros b.
  unfold expire_checkpoint. apply good_bind; [apply good_sync, step_expire|intros vs].
  apply good_bind; [apply good_release|intros _]. apply good_abort_tasks.
Qed.

(** ** Persistence *)

Lemma good_materialize sn : good (materialize_operator_states sn).
Proof. unfold materialize_operator_states. goods. Qed.

Abbreviation snapshot := (progress_snapshot (C := C) (St := St) (P := P) (Ref := Ref) (OE := OE)).

Definition snapshot_at (sn : snapshot) : assertion := λ _, snapshot_ok transaction_id combine_committables sn.

Lemma persistent_written (sn : snapshot) : persistent (history_says (written sn)).
Proof. apply persistent_history. intros h h' Hh (m & p & Hin & ?). exists m, p. split; [by apply Hh|done]. Qed.

Lemma tri_write sn revision :
  tri (snapshot_at sn) (write_metadata sn revision) (λ r T s h, match r with Ok _ => written sn h | Err _ => True end).
Proof.
  unfold write_metadata.
  eapply (co_triple_bind _ _ _ _ _ _ _ (λ _, snapshot_at sn)); [apply tri_good; [apply persistent_snapshot|apply good_materialize]| |done].
  intros states.
  eapply (co_triple_bind _ _ _ _ _ _ _ (λ r T s h, match r with Ok _ => written sn h | Err _ => True end)); [| |done].
  - apply tri_ask; [apply (persistent_snapshot sn)| |].
    + intros T s h _ Hsn. split; [exact Hsn|done].
    + intros [path|x] T s h _ _ _; [|done]. eexists _, path. split; [apply elem_of_app; right; by left|done].
  - intros path. eapply (co_triple_bind _ _ _ _ _ _ _ (λ _, history_says (written sn))); [| |done].
    + apply tri_good; [apply persistent_written|goods].
    + intros restored. eapply co_triple_mono; [apply tri_ret|done|by intros [[]|] ? ? ? ?].
Qed.

Lemma good_persist_snapshot notify strict sn : tri (snapshot_at sn) (persist_snapshot transaction_id notify strict sn) (λ _, anything).
Proof.
  unfold persist_snapshot.
  eapply (co_triple_bind _ _ _ _ _ _ _ (λ _, snapshot_at sn)); [apply tri_good; [apply persistent_snapshot|goods]| |done].
  intros revision.
  eapply (co_triple_bind _ _ _ _ _ _ _ (λ r T s h, match r with Ok (Ok _) => written sn h | _ => True end)); [| |done].
  { apply triple_try. apply tri_write. }
  intros [[path restored]|x]; [|as_good; goods].
  eapply (co_triple_bind _ _ _ _ _ _ _ (λ _, anything)); [| |done].
  - apply (tri_step (history_says (written sn)) _ (λ _, anything)); [|done]. intros T s h Hs Hw.
    destruct (step_install transaction_id combine_committables sn revision path restored s h Hs Hw) as (? & ? & _).
    split_and!; [done| |done]. by eapply G_mono; [apply empty_subseteq|].
  - intros _. as_good. apply good_bind; [apply good_commit|intros committed].
    destruct (negb committed); [goods|]. apply good_bind; [|intros _; goods]. destruct notify; [apply good_notify|goods].
Qed.

Lemma good_persist notify strict : good (persist_checkpoint_metadata transaction_id notify strict).
Proof.
  unfold persist_checkpoint_metadata. apply good_lock; [intros; split_and!; reflexivity|]. apply good_bind; [goods|intros _].
  apply good_bind; [goods|intros []]; [goods|]. apply good_bind; [apply good_commit|intros committed]. destruct (negb committed); [goods|].
  apply good_bind; [destruct notify; [apply good_notify|goods]|intros _].
  eapply (co_triple_bind _ _ _ _ _ _ _ (λ r T s h, ∀ sn, r = Ok (Some sn) → snapshot_at sn T s h)); [| |done].
  - unfold with_lock. eapply (co_triple_bind _ _ _ _ _ _ _ (λ _, anything)); [apply good_wait| |done]. intros ?.
    eapply (co_triple_bind _ _ _ _ _ _ _ (λ _, anything)); [as_good; goods| |done]. intros [].
    eapply (triple_finally _ _ _ _ _ _ _ (λ r T s h, ∀ sn, r = Ok (Some sn) → snapshot_at sn T s h)).
    + apply tri_step; [|by intros ? ? ? ? ? ? HQ]. intros T s h Hs _.
      destruct (step_snapshot transaction_id combine_committables s h Hs I) as (? & ? & ?). split_and!; [done| |done].
      by eapply G_mono; [apply empty_subseteq|].
    + intros r T s h Hs Hr. cbn. set (s' := set_progress_lock (λ _, false) s).
      destruct (okay_frame transaction_id combine_committables s s' (conj eq_refl (conj eq_refl (conj eq_refl eq_refl))) h Hs) as [? ?].
      split_and!; [by eapply G_mono; [apply empty_subseteq|]|done|done].
  - intros [sn|]; [|match goal with |- tri _ ?p _ => apply (tri_weaken _ p) end; goods].
    eapply co_triple_mono; [apply good_persist_snapshot| |done]. intros T s h Hsn. by apply Hsn.
Qed.

(** ** Completion *)

(** What completing a checkpoint needs, all the way. *)
Definition completing b : assertion := λ T s h, owned b T s h ∧ aligned_at b T s h.

Lemma persistent_completing b : persistent (completing b).
Proof. apply persistent_and; [apply persistent_owned|apply persistent_aligned]. Qed.

Lemma stable_completing b : stable (λ T s h, completing b T s h ∧ uncarried b T s h).
Proof.
  intros T s s' h h' HR Hh Hs [[Ho Ha] Hn]. destruct (stable_uncarried b T s s' h h' HR Hh Hs (conj Ho Hn)). split; [split|]; [done| |done].
  by eapply (proj1 (persistent_aligned b)).
Qed.

Definition collecting b : assertion := λ T s h, (completing b T s h ∧ uncarried b T s h) ∧ collected h b.

Lemma stable_collecting b : stable (collecting b).
Proof.
  intros T s s' h h' HR Hh Hs [Hc Hcol]. split; [by eapply stable_completing|]. eapply collected_mono; [by apply prefix_subseteq|done].
Qed.

Lemma collecting_mono b T T' s h : T ⊆ T' → collecting b T s h → collecting b T' s h.
Proof. intros HT [[[[Hb ?] ?] ?] ?]. split; [split; [split; [split; [by apply HT|done]|done]|done]|done]. Qed.

Lemma tri_collect b : tri (λ T s h, completing b T s h ∧ uncarried b T s h) (collect_domain_source_states b)
  (λ r T s h, completing b T s h ∧ match r with Ok (Some _) => uncarried b T s h ∧ collected h b | _ => True end).
Proof.
  unfold collect_domain_source_states.
  eapply (co_triple_bind _ _ _ _ _ _ _ (λ _ T s h, completing b T s h ∧ uncarried b T s h)); [| |by intros ? ? ? ? [? _]].
  - apply triple_sync. intros T s h Hs HP. rewrite bind_checkpoint_of.
    assert (taken s s ⊆ ∅) as Ht by (intros x [? [_ Hx]]%elem_of_taken; by destruct Hx).
    assert (T ∪ taken s s = T) as HT by set_solver.
    destruct (checkpoints s !! b); cbn; rewrite HT; (split; [apply G_refl|]); by split.
  - intros [[c vs]|]; [|apply co_triple_ret; by intros ? ? ? ? [? _]].
    eapply (co_triple_bind _ _ _ _ _ _ _ (λ _, collecting b)); [| |by intros ? ? ? ? [[? _] _]].
    + apply tri_ask; [apply stable_completing| |].
      * intros T s h Hs [[[_ ?] _] _]. split; [done|]. by intros b' y vs' [= <- _ _].
      * intros r T s h Hs Hin HP. split; [done|]. exists (coordinated c), vs. apply elem_of_app. by left.
    + intros answer. cbn zeta. apply co_triple_ret. intros T s h Hs [[? ?] ?]. split; [done|]. by case_match.
Qed.

Lemma tri_merge b states : tri (collecting b) (merge_aligned_checkpoint_progress transaction_id global_commit_namespace
  combine_committables sha256_hexdigest cfg b states) (λ _, completing b).
Proof.
  unfold merge_aligned_checkpoint_progress, with_lock.
  eapply (co_triple_bind _ _ _ _ _ _ _ (λ _, collecting b)); [| |by intros ? ? ? ? [[? _] _]].
  { apply triple_wait; [apply stable_collecting|done]. }
  intros _. eapply (co_triple_bind _ _ _ _ _ _ _ (λ _, collecting b)); [| |by intros ? ? ? ? [[? _] _]].
  { apply tri_step; [|intros r T T' s h HT Hc; by apply (collecting_mono b T)]. intros T s h Hs Hc.
    set (s' := set_progress_lock (λ _, true) s).
    destruct (okay_frame transaction_id combine_committables s s' (conj eq_refl (conj eq_refl (conj eq_refl eq_refl))) h Hs) as [? ?].
    split_and!; [done|by eapply G_mono; [apply empty_subseteq|]|exact Hc]. }
  intros _. eapply (triple_finally _ _ _ _ _ _ _ (λ _, completing b)).
  - eapply (co_triple_mono _ _ _ _ _ (λ T s h, completing b T s h ∧ (λ T, owned_cut b) T s h));
      [apply (triple_frame _ _ _ _ (completing b) (λ _, owned_cut b) _ (λ _, anything)); [apply persistent_completing|]| |by intros ? ? ? ? [? _]].
    + apply (tri_step (λ _, owned_cut b) _ (λ _, anything)); [|done]. intros T s h Hs Hb.
      destruct (step_merge transaction_id global_commit_namespace combine_committables sha256_hexdigest cfg b states s h Hs Hb) as (? & ? & _).
      split_and!; [done| |done]. by eapply G_mono; [apply empty_subseteq|].
    + intros T s h [[[[? ?] ?] ?] ?]. by split_and!.
  - intros r T s h Hs Hc. cbn. set (s' := set_progress_lock (λ _, false) s).
    destruct (okay_frame transaction_id combine_committables s s' (conj eq_refl (conj eq_refl (conj eq_refl eq_refl))) h Hs) as [? ?].
    assert (G T s s') as HG by by eapply G_mono; [apply empty_subseteq|]. split_and!; [done|done|]. by apply (persistent_completing b).
Qed.

Lemma tri_completed b : tri (completing b)
  (sync (c ← checkpoint_of b; _ ← modify (set_finished_sources (λ x, x ∪ eof_sources c)); now ← now_ms wall;
         _ ← update_checkpoint b (mark_complete now); mret true)) (λ _, anything).
Proof.
  apply tri_step; [|done]. intros T s h Hs [[_ Hc] Ha].
  assert (HG : ∀ s', CoordinatorInvariant.G ∅ s s' → G T s s') by (intros s' HG; by eapply G_mono; [apply empty_subseteq|]).
  rewrite bind_checkpoint_of. destruct (checkpoints s !! b) as [c|]; [|split_and!; [done|apply G_refl|done]].
  set (at_ := λ (s' : st) (h' : hist), completing b ∅ s h ∧ aligned_at b ∅ s' h' ∧ b ∉ inflight_checkpoints s').
  assert (Hrun : step_of ∅ (λ s' h', aligned_at b ∅ s' h' ∧ closed (view_of s') b)
    (_ ← modify (set_finished_sources (λ x, x ∪ eof_sources c)); now ← now_ms wall; _ ← update_checkpoint b (mark_complete now); mret true) (λ _ _ _, True)).
  { assert (Hstay : ∀ s1 s2 h', CoordinatorInvariant.G ∅ s1 s2 → aligned_at b ∅ s1 h' ∧ closed (view_of s1) b → aligned_at b ∅ s2 h' ∧ closed (view_of s2) b).
    { intros s1 s2 h' HG' [Ha' Hc']. split; [by apply (proj1 (proj2 (persistent_aligned b)) ∅ s1 s2 h')|by eapply G_closed]. }
    eapply (hoare_bind _ _ _ _ _ _ (λ _ s' h', aligned_at b ∅ s' h' ∧ closed (view_of s') b)); [|intros _|done].
    - apply hoare_invariant; [exact Hstay|]. apply keeps_untouched. repeat untouched_step.
    - eapply (hoare_bind _ _ _ _ _ _ (λ _ s' h', aligned_at b ∅ s' h' ∧ closed (view_of s') b)); [|intros now|done].
      + apply hoare_invariant; [exact Hstay|]. apply keeps_untouched. repeat untouched_step.
      + eapply (hoare_bind _ _ _ _ _ _ (λ _ _ _, True)); [|intros _; apply keeps_hoare, keeps_untouched; repeat untouched_step|done].
        apply hoare_update. intros s' h' c' _ [(c0 & Hc0 & Hal) [_ Hn]] Hc' Hok. assert (c0 = c') as -> by congruence.
        destruct (mark_complete_ok b c' now Hok Hal). split_and!; done. }
  destruct (Hrun s h Hs (conj Ha Hc)) as (? & ? & _). split_and!; [done|by apply HG|done].
Qed.

(** [p] while the method completes [b]. *)
Lemma tri_bind_completing {A B} b (p : co A) (f : A → co B) :
  good p → (∀ a, tri (completing b) (f a) (λ _, owned b)) → tri (completing b) (p ≫= f) (λ _, owned b).
Proof.
  intros Hp Hf. eapply (co_triple_bind _ _ _ _ _ _ _ (λ _, completing b)); [by apply tri_good; [apply persistent_completing|]|exact Hf|].
  by intros ? ? ? ? [? _].
Qed.

Lemma tri_keeps_owned {A} b (p : co A) : tri (completing b) p (λ _, anything) → tri (completing b) p (λ _, owned b).
Proof.
  intros Hp. eapply co_triple_mono; [apply (triple_frame _ _ _ _ (completing b) (completing b)); [apply persistent_completing|exact Hp]|done|].
  by intros ? ? ? ? [[? _] _].
Qed.

Lemma tri_commit_aligned b : tri (λ T s h, completing b T s h ∧ uncarried b T s h)
  (commit_aligned_checkpoint transaction_id global_commit_namespace combine_committables sha256_hexdigest wall cfg b) (λ _, owned b).
Proof.
  unfold commit_aligned_checkpoint. eapply co_triple_bind; [apply tri_collect| |by intros ? ? ? ? [[? _] _]].
  intros [states|].
  - eapply (co_triple_bind _ _ _ _ _ _ _ (λ _, completing b)); [| |by intros ? ? ? ? [? _]].
    + eapply co_triple_mono; [apply tri_merge| |done]. by intros ? ? ? [? [? ?]].
    + intros [added ready]. apply tri_bind_completing; [|intros []; apply tri_keeps_owned, tri_completed].
      destruct (added || ready); [|goods]. apply good_bind; [apply good_persist|intros ?; goods].
  - eapply co_triple_mono; [apply (tri_keeps_owned b)| |done]; [|by intros ? ? ? [? _]].
    eapply (co_triple_bind _ _ _ _ _ _ _ (λ _, anything)); [|intros []; as_good; goods|done].
    eapply co_triple_mono; [apply tri_fail|by intros ? ? ? [? _]|done].
Qed.

Lemma good_release_of b : good (release_sources_of b).
Proof. unfold release_sources_of. apply good_bind; [goods|intros vs; apply good_release]. Qed.

Lemma tri_complete b : tri (λ T s h, completing b T s h ∧ uncarried b T s h)
  (complete_aligned_checkpoint transaction_id global_commit_namespace combine_committables sha256_hexdigest wall cfg b) (λ _, anything).
Proof.
  unfold complete_aligned_checkpoint. eapply (co_triple_bind _ _ _ _ _ _ _ (λ _, owned b)); [| |done].
  { apply triple_try. apply tri_commit_aligned. }
  assert (Hcarry : tri (owned b) (_ ← sync (_ ← modify (set_inflight_operator_states (delete b)); carry_inflight_sink_committables transaction_id b);
    _ ← release_sources_of b; _ ← sync (update_checkpoint_failed wall b); _ ← abort_checkpoint_tasks b false; mret false) (λ _, anything)).
  { apply tri_owned; [|intros []].
    - apply tri_step; [|done]. intros T s h Hs Ho. pose proof (step_give_up T b (mret ()) ltac:(apply keeps_ret, okay_preorder) s h Hs Ho) as Hg.
      rewrite !exec_bind_modify in *. unfold mbind, exec_bind in Hg. by destruct (carry_inflight_sink_committables transaction_id b _) as [[[]|x] s1].
    - apply tri_owned; [apply tri_weaken, good_release_of|intros []]. apply tri_owned; [apply tri_failed|intros []].
      apply tri_weaken. apply good_bind; [apply good_abort_tasks|intros; goods]. }
  intros [done_|x]; [apply tri_weaken; goods|]. destruct x; try exact Hcarry.
  apply tri_owned; [apply tri_failed|intros []]. apply tri_weaken. apply good_bind; [apply good_release_of|intros []].
  apply good_bind; [apply good_abort_tasks|intros; goods].
Qed.

Lemma good_notify_aligned b v : good (notify_checkpoint_aligned transaction_id global_commit_namespace combine_committables sha256_hexdigest wall cfg b v).
Proof.
  unfold notify_checkpoint_aligned.
  eapply (co_triple_bind _ _ _ _ _ _ _ (λ r T s h, r = Ok None → completing b T s h ∧ uncarried b T s h)); [| |done].
  - apply triple_sync. intros T s h Hs _. destruct (step_acknowledge transaction_id combine_committables wall b v s h Hs) as (Hs' & HG & Hc).
    split_and!; [by eapply G_mono; [apply empty_subseteq|]|done|]. intros E. destruct (Hc E) as (Hin & Hcl & Et & Ha).
    split; [split; [split; [|done]|done]|].
    + apply elem_of_union. right. by apply elem_of_taken.
    + unfold uncarried. rewrite Et. intros (i & e & Hcar & Hb). destruct (tx_carried _ _ _ _ _ (ok_transactions _ _ _ _ Hs) i e Hcar) as (_ & [_ Hn] & _).
      apply Hn. by rewrite Hb.
  - intros [r|]; [apply tri_weaken; goods|].
    eapply (triple_finally _ _ _ _ _ _ _ (λ _ T s h, owned b T s h ∧ anything T s h)).
    + eapply co_triple_mono; [apply (triple_frame _ _ _ _ (owned b) (λ T s h, completing b T s h ∧ uncarried b T s h)); [apply persistent_owned|apply tri_complete]| |done].
      intros T s h Hc. destruct (Hc eq_refl) as [[? ?] ?]. by split_and!.
    + intros r T s h Hs [[_ Hc] _]. destruct (step_leave transaction_id combine_committables b s h Hs Hc) as (? & ? & E). rewrite E.
      split_and!; [by eapply G_mono; [apply empty_subseteq|]|done|done].
Qed.

(** ** Every method *)

Lemma good_maintain : good (maintain transaction_id wall monotonic cfg).
Proof.
  unfold maintain. apply good_bind; [goods|intros []]. apply good_bind; [apply good_retry|intros []].
  apply good_bind; [apply good_expire|intros []]. apply good_bind; [apply good_commit|intros committed].
  apply good_bind; [destruct committed; [apply good_bind; [apply good_notify|intros; goods]|goods]|intros _].
  destruct (_ <=? _); [goods|]. apply good_bind; [goods|intros []]; [|goods]. apply good_bind; [apply good_persist|intros; goods].
Qed.

Definition flushing : assertion := history_says terminal.

Lemma tri_flush {A B} (p : co A) (f : A → co B) :
  tri flushing p (λ _, anything) → (∀ a, tri flushing (f a) (λ _, anything)) → tri flushing (p ≫= f) (λ _, anything).
Proof.
  assert (persistent flushing) as HF by (apply persistent_history; apply terminal_mono).
  intros Hp Hf. eapply (co_triple_bind _ _ _ _ _ _ _ (λ _ T s h, flushing T s h ∧ anything T s h)); [| |done].
  - eapply co_triple_mono; [apply (triple_frame _ _ _ _ flushing flushing); [done|exact Hp]|done|done].
  - intros a. eapply co_triple_mono; [apply Hf|by intros ? ? ? [? _]|done].
Qed.

Lemma tri_flush_each {A} (f : A → co unit) l : (∀ a, tri flushing (f a) (λ _, anything)) → tri flushing (co_each f l) (λ _, anything).
Proof.
  intros Hf. induction l as [|a l IH]; cbn [co_each]; [apply tri_weaken; goods|]. apply tri_flush; [apply Hf|by intros _].
Qed.

Lemma tri_abort_inflight b : tri flushing (abort_inflight_sink_committables b) (λ _, anything).
Proof.
  unfold abort_inflight_sink_committables. apply tri_flush; [|intros es; apply tri_weaken; goods].
  apply (tri_step flushing _ (λ _, anything)); [|done]. intros T. apply step_abort_inflight.
Qed.

Lemma tri_abort_carried : tri flushing abort_carried_sink_committables (λ _, anything).
Proof.
  unfold abort_carried_sink_committables. apply tri_flush; [|intros es; apply tri_weaken; goods].
  apply (tri_step flushing _ (λ _, anything)); [|done]. intros T. apply step_abort_carried.
Qed.

Lemma good_persist_rest (notify require : bool) : good (
  _ ← persist_checkpoint_metadata transaction_id notify require;
  _ ← ((if require then
         _ ← commit_durable_sink_committables true;
         pending ← sync (gets pending_sink_committables);
         if negb (bool_decide ((pending : list (ident * entry)).*1 = [])) then raises RuntimeError
         else if notify then notify_terminal_source_checkpoints else mret ()
       else mret ()) : co unit);
  sync (gets checkpoint_path)).
Proof.
  apply good_bind; [apply good_persist|intros _]. apply good_bind; [|intros _; goods]. destruct require; [|goods].
  apply good_bind; [apply good_commit|intros _]. apply good_bind; [goods|intros pending]. destruct (negb _); [goods|].
  destruct notify; [|goods]. unfold notify_terminal_source_checkpoints. apply good_bind; [apply good_notify|intros _]. goods.
Qed.

Lemma good_persist_now notify require : good (persist_now transaction_id notify false require).
Proof.
  unfold persist_now. cbn [andb]. apply good_bind; [goods|intros _]. apply good_bind; [destruct require; goods|intros _]. apply good_persist_rest.
Qed.

Lemma tri_persist_now notify require : tri flushing (persist_now transaction_id notify true require) (λ _, anything).
Proof.
  unfold persist_now. destruct require; cbn [andb]; [apply tri_weaken; goods|]. apply tri_flush; [apply tri_weaken; goods|intros _].
  apply tri_flush; [|intros _; apply tri_weaken, good_persist_rest]. apply tri_flush; [apply tri_weaken; goods|intros bs].
  apply tri_flush; [apply tri_flush_each; intros b; apply tri_abort_inflight|intros _; apply tri_abort_carried].
Qed.

Lemma good_poll c f : (∀ s, okay s (f s)) → good (poll_while c f).
Proof.
  intros Hf. unfold poll_while. apply good_bind; [goods|intros []]; [|goods]. apply good_bind; [goods|intros _].
  apply good_bind; [apply good_sync, keeps_modify, Hf|intros; goods].
Qed.

Definition owns_all (bs : list Z) : assertion := λ T s h, ∀ b, b ∈ bs → owned b T s h.

Lemma persistent_owns bs : persistent (owns_all bs).
Proof.
  split_and!.
  - intros T s s' h h' HR Hh Hs Hall b Hb. by eapply (proj1 (persistent_owned b)); [..|apply Hall].
  - intros T s s' h HG Hall b Hb. by apply (proj1 (proj2 (persistent_owned b))); [|apply Hall].
  - intros T s h q r Hall b Hb. by apply Hall.
Qed.

Lemma good_begin operation timeout : good (begin_operator_rescale transaction_id wall operation timeout).
Proof.
  unfold begin_operator_rescale. destruct (blank operation); [goods|]. destruct (_ <=? _); [goods|].
  apply good_bind; [goods|intros []]; [goods|]. apply good_lock; [intros; split_and!; reflexivity|].
  apply good_bind; [apply good_poll; intros s; by apply okay_frame|intros _].
  eapply (co_triple_bind _ _ _ _ _ _ _ (λ r T s h, match r with Ok bs => owns_all bs T s h | Err _ => True end)); [| |done].
  - apply triple_sync. intros T s h Hs _. destruct (step_close_gate transaction_id combine_committables operation s h Hs) as (Hs' & HG & Hbs).
    split_and!; [by eapply G_mono; [apply empty_subseteq|]|done|].
    match goal with |- match (?m s).1 with _ => _ end => destruct (m s).1 as [bs|] eqn:E; [|done] end.
    intros b Hb. specialize (Hbs bs eq_refl b Hb). split; [apply elem_of_union; by right|]. by apply elem_of_taken in Hbs as [_ ?].
  - intros bs. eapply (co_triple_bind _ _ _ _ _ _ _ (λ _, anything)); [| |done].
    + apply (triple_each _ _ _ _ (owns_all bs)); [|done]. intros b Hb.
      eapply co_triple_mono; [apply (triple_frame _ _ _ _ (owns_all bs) (owned b)); [apply persistent_owns|apply (tri_fail b true)]| |].
      * intros T s h Hall. split; [done|by apply Hall].
      * by intros [[]|x] T s h [? _].
    + intros []. as_good. apply good_bind; [|intros; goods]. apply good_poll. intros s h Hs. apply ok_gate; [done|]. by intros [? ?].
Qed.

Lemma good_stage operation j target snapshots : good (stage_operator_rescale_state cache_partition operation j target snapshots).
Proof.
  unfold stage_operator_rescale_state. apply good_bind; [goods|intros active]. destruct (negb _); [goods|]. destruct (_ <? _); goods.
Qed.

Lemma good_open g path : good (open_coordinator transaction_id monotonic cfg g path).
Proof.
  unfold open_coordinator. apply good_bind; [goods|intros _]. apply good_bind; [apply good_sync, step_restore_fence|intros _].
  apply good_bind; [destruct path; goods|intros p].
  apply good_bind; [unfold install_graph; goods|intros _].
  eapply (co_triple_bind _ _ _ _ _ _ _ (λ (r : outcome (Z * list (source_entry St) * Z)) T s h, ∀ x, r = Ok x → ∀ y, y ∈ x.1.2 → restored_source h y)); [| |by intros].
  { apply tri_ask; [done|done|]. intros r T s h _ _ _ [[revision sources] high_water] [= ->] y Hy. exists p, revision, sources, high_water.
    split; [apply elem_of_app; right; by left|done]. }
  intros [[revision sources] high_water]. eapply (co_triple_bind _ _ _ _ _ _ _ (λ _, anything)); [| |done].
  { eapply co_triple_mono; [apply (tri_step (λ _ _ h, ∀ x, x ∈ sources → restored_source h x) _ (λ _, anything))| |]; [|done| |done].
    - intros T s h Hs Hr. destruct (step_restored_sources transaction_id combine_committables revision sources s h Hs Hr) as (? & ? & _).
      split_and!; [done| |done]. by eapply G_mono; [apply empty_subseteq|].
    - intros T s h Hr x Hx. by eapply Hr. }
  intros _. as_good. apply good_bind; [goods|intros restored]. apply good_bind; [goods|intros _].
  eapply (co_triple_bind _ _ _ _ _ _ _ (λ (r : outcome (list entry)) T s h, ∀ es, r = Ok es → live h = [] ∧ ∀ e, e ∈ es → durable_transaction h e)); [| |by intros].
  { apply tri_ask; [done|done|]. intros r T s h _ _ _ es [= ->]. split.
    - unfold live. rewrite foldl_app. done.
    - intros e He. right. exists p, es. split; [apply elem_of_app; right; by left|done]. }
  intros es. eapply (co_triple_bind _ _ _ _ _ _ _ (λ _, anything)); [| |done].
  { eapply co_triple_mono; [apply (tri_step (λ _ _ h, live h = [] ∧ ∀ e, e ∈ es → durable_transaction h e) _ (λ _, anything))| |]; [|done| |done].
    - intros T s h Hs Hr. destruct (step_restored_sinks transaction_id combine_committables monotonic cfg g es high_water s h Hs Hr) as (? & ? & _).
      split_and!; [done| |done]. by eapply G_mono; [apply empty_subseteq|].
    - intros T s h Hr. by apply Hr. }
  intros []. as_good. apply good_bind; [apply good_commit|intros; goods].
Qed.

Abbreviation body := (method_body transaction_id global_commit_namespace combine_committables sha256_hexdigest checksum cache_partition wall monotonic cfg).

Definition ordinary (m : meth) : bool := match m with MRegisterSink _ _ _ | MPersistNow _ true _ => false | _ => true end.

Lemma good_body m : ordinary m = true → good (body m).
Proof.
  intros Hm. destruct m as [g path| | | |v force|b v is_eof|b v reference|b v c|b v|notify abort require|operation timeout|operation done target|
    operation j target snapshots|operation j|g]; cbn [method_body].
  - apply good_open.
  - unfold start_worker. goods.
  - unfold stop_coordinator_worker. goods.
  - apply good_maintain.
  - apply good_sync, step_register_checkpoint.
  - apply good_sync, step_source_started.
  - apply good_sync, step_register_operator_state.
  - done.
  - apply good_notify_aligned.
  - destruct abort; [done|]. apply good_persist_now.
  - apply good_begin.
  - apply good_sync, step_finish.
  - apply good_stage.
  - unfold discard_operator_rescale_state. goods.
  - apply good_sync, step_reconfigure.
Qed.

(** A method from its call to its reply. *)
Lemma ok_called s h (m : meth) : coordinator_ok s h → coordinator_ok s (h ++ [Called m]).
Proof. intros Hs. by apply ok_snoc. Qed.

Lemma body_safe (m : meth) s h : coordinator_ok s h →
  safe coordinator_ok taken G Rely (body m) ∅ (λ _ r s h, coordinator_ok s (h ++ [Replied m r])) s (h ++ [Called m]).
Proof.
  intros Hs. pose proof (ok_called s h m Hs) as Hs1.
  assert (Hreply : ∀ r s' h', registration (Replied m r : ev) = None → coordinator_ok s' h' → coordinator_ok s' (h' ++ [Replied m r])).
  { intros r s' h' Hr Hs'. apply ok_snoc; [done| |done|by rewrite Hr]. unfold justified. by rewrite Hr. }
  destruct (ordinary m) eqn:Hm.
  - eapply safe_mono; [|by apply good_body]. intros T r s' h' [Hs' _]. apply Hreply; [|done]. by destruct m.
  - destruct m as [| | | | | | |b v c| |notify abort require| | | | |]; try done.
    + apply safe_sync; cbn [method_body];
        destruct (step_register_sink transaction_id combine_committables b v c s (h ++ [Called (MRegisterSink b v c)]) Hs1) as (Hs' & HG & Hr); [exact HG|].
      destruct (register_sink_committable transaction_id b v c s) as [[[]|x] s'] eqn:E; cbn [fst snd] in *; [|by apply Hreply..].
      destruct (Hr eq_refl) as [Hheld Hin]. apply ok_snoc; [done| |done|].
      * intros Hcol. destruct (pr_collected _ _ _ _ _ _ _ (ok_progress _ _ _ _ Hs') _ Hcol) as [_ Hn]. by apply Hn.
      * by intros e [= <-].
    + destruct abort; [|done]. eapply safe_mono; [|apply tri_persist_now; [done|]].
      * intros T r s' h' [Hs' _]. by apply Hreply.
      * exists notify, require. apply elem_of_app. right. by left.
Qed.

Lemma initial_ok : coordinator_ok (coordinator_init monotonic cfg : st) ([] : hist).
Proof.
  split.
  - split; cbn; try done; [constructor|by intros b ?%not_elem_of_nil].
  - split; cbn.
    + constructor.
    + by intros b es ?%not_elem_of_nil.
    + constructor.
    + by intros i e (d & l & ?%not_elem_of_nil & _).
    + by intros i e ?%not_elem_of_nil.
    + by intros i e ?%not_elem_of_nil.
    + right. by intros e ?%not_elem_of_nil.
  - split; [by intros b (y & vs & ?%not_elem_of_nil)|by intros ? ? ?%not_elem_of_nil..].
  - apply history_ok_nil.
Qed.

(** The invariant of every reachable configuration. *)
Abbreviation conf := (configuration (S := st) (ans := answer (C := C) (St := St) (P := P) (Ref := Ref) (OE := OE)) (rep := reply (C := C) (P := P) (Ref := Ref))).

Lemma coordinator_invariant (c : conf) : reachable body (coordinator_init monotonic cfg) c → coordinator_ok (c_state c) (c_history c).
Proof.
  apply (safe_invariant body coordinator_ok (λ s b, closed (view_of s) b) taken G Rely).
  - intros T s s' b. apply G_closed.
  - intros s s' b. apply taken_closed.
  - apply Rely_refl.
  - apply Rely_trans.
  - intros T T' s s'. apply G_Rely.
  - apply body_safe.
  - apply initial_ok.
Qed.

(** Every committer of a completed checkpoint acknowledged it. *)
Lemma completed_acknowledged b c : checkpoint_ok b c → status c = COMPLETED → required_committers c ≠ [] →
  acknowledged_by c = list_to_set (required_committers c).
Proof.
  intros [_ _ Hn Hcom _ Hal] Hst Hne. destruct (Hcom Hne) as (Hnd & Hr & Hsub). specialize (Hal Hst). unfold aligned in Hal.
  apply set_subseteq_size_eq; [intros v Hv; by apply elem_of_list_to_set, Hsub|]. rewrite size_list_to_set by done. lia.
Qed.

(** ** The properties *)

(** A transaction is published only when it is on storage. *)
Definition commits_durable (h : hist) : Prop :=
  ∀ h1 e h2, h = h1 ++ Issued (CommitTransaction e) :: h2 → durable_transaction h1 e.

(** A source hears only of checkpoints whose state of it is on storage. *)
Definition notifies_durable (h : hist) : Prop :=
  ∀ h1 v n h2, h = h1 ++ Issued (NotifyPersisted v n) :: h2 →
    ∃ x, durable_source h1 x ∧ so_task_key x = SubtaskKey v ∧ so_checkpoint_id x = n.

(** What is written holds, with the progress of a source at a checkpoint, every
    transaction of that checkpoint that is not published. *)
Definition writes_consistent (h : hist) : Prop :=
  ∀ h1 m h2, h = h1 ++ Issued (WriteCheckpoint m) :: h2 → consistent_metadata transaction_id combine_committables h1 m.

(** A registered transaction is published or still in the hands of the coordinator. *)
Definition nothing_lost (s : st) (h : hist) : Prop :=
  terminal h ∨ ∀ e, e ∈ live h → committed transaction_id combine_committables h e ∨ held transaction_id combine_committables (tx s) e.

(** C39. The two-phase commit of the coordinator is safe in every run, however the calls
    interleave and whatever storage, tasks and sinks answer.  A transaction is published
    only after a write that contains it succeeded (or [open] read it back), and a source
    is told of a checkpoint only after its state at it was written; no metadata is written
    in which a source has passed a checkpoint while a transaction registered for that
    checkpoint is neither in the metadata nor published; and until the final flush that
    gives up open transactions, every transaction registered since the last [open] is
    published (itself, or inside the transaction its sink's writers were combined into)
    or held as in flight, carried over to the next cut of its domain, or pending. *)
Theorem two_phase_commit_safe (c : conf) :
  reachable body (coordinator_init monotonic cfg) c →
  commits_durable (c_history c) ∧ notifies_durable (c_history c) ∧ writes_consistent (c_history c) ∧
  nothing_lost (c_state c) (c_history c).
Proof.
  intros [_ Htx _ Hh]%coordinator_invariant. split_and!.
  - intros h1 e h2 E. exact (Hh h1 (Issued (CommitTransaction e)) h2 E).
  - intros h1 v n h2 E. exact (Hh h1 (Issued (NotifyPersisted v n)) h2 E).
  - intros h1 m h2 E. exact (Hh h1 (Issued (WriteCheckpoint m)) h2 E).
  - apply (tx_live _ _ _ _ _ Htx).
Qed.

(** C40. The state of the coordinator is well formed in every run.  A checkpoint object is
    known under its own barrier id, which was issued; its acknowledgements are those of
    distinct committers it requires, and its started and finished sources are sources it
    triggered; if it is completed, every committer it requires acknowledged it.  The
    in-flight checkpoints are distinct, known, in progress, and not yet aligned; one that
    is being completed is aligned and not in flight any more.  The slot of a domain names a
    checkpoint of that domain that is in flight or being completed, so no finished
    checkpoint blocks a domain, and while the gate of a rescale is closed nothing is in
    flight. *)
Theorem coordinator_well_formed (c : conf) :
  reachable body (coordinator_init monotonic cfg) c →
  let s := c_state c in
  (∀ b cp, checkpoints s !! b = Some cp →
     barrier_id cp = b ∧ 0 < b <= generator s ∧ acknowledgements cp = Z.of_nat (size (acknowledged_by cp)) ∧
     eof_sources cp ⊆ started_sources cp ∧ (∀ v, v ∈ started_sources cp → v ∈ trigger_sources cp) ∧
     (required_committers cp ≠ [] → acknowledged_by cp ⊆ list_to_set (required_committers cp)) ∧
     (required_committers cp ≠ [] → status cp = COMPLETED → acknowledged_by cp = list_to_set (required_committers cp))) ∧
  NoDup (inflight_checkpoints s) ∧
  (∀ b, b ∈ inflight_checkpoints s → b ∉ completing_checkpoints s ∧
     ∃ cp, checkpoints s !! b = Some cp ∧ status cp = IN_PROGRESS ∧ acknowledgements cp < required_acknowledgements cp) ∧
  (∀ b, b ∈ completing_checkpoints s → ∃ cp, checkpoints s !! b = Some cp ∧ required_acknowledgements cp <= acknowledgements cp) ∧
  (∀ d b, active_checkpoint_by_domain s !! d = Some b →
     (b ∈ inflight_checkpoints s ∨ b ∈ completing_checkpoints s) ∧ ∃ cp, checkpoints s !! b = Some cp ∧ domain_id cp = Some d) ∧
  (rescale_operation_id s ≠ None → inflight_checkpoints s = []).
Proof.
  intros Hreach s. destruct (ok_checkpoints _ _ _ _ (coordinator_invariant c Hreach)) as [_ Hk Hnd Hi Hc Ha Hg]. fold s in Hk, Hnd, Hi, Hc, Ha, Hg.
  split_and!; [|done| | |done|].
  - intros b cp Hb. destruct (Hk b cp Hb) as [Hr Hok]. pose proof Hok as [Hid _ Hn Hcom Hsrc _].
    split; [done|]. split; [exact Hr|]. split; [done|]. split; [intros v; apply Hsrc|]. split; [intros v; apply Hsrc|]. split.
    + intros Hne v Hv. apply elem_of_list_to_set. by apply (Hcom Hne).
    + intros Hne Hst. by apply (completed_acknowledged b).
  - intros b Hb. split; [intros Hcb; by apply (Hc b)|]. destruct (Hi b Hb) as (cp & Hcp & Hst & Hal). exists cp. unfold aligned in Hal.
    split; [exact Hcp|split; [exact Hst|lia]].
  - intros b Hb. by destruct (Hc b Hb) as [_ ?].
  - intros Hgate. apply Hg. by apply not_eq_None_Some in Hgate.
Qed.
End safety.

(** ** A run: one source, one transactional sink *)

Module demo.
Abbreviation C := string.
Definition source (i : Z) : vid := mkVertexId 1 i.
Definition sink (i : Z) : vid := mkVertexId 2 i.
Definition vertex (v : vid) : ExecutionVertex := mkVertex v true false None.

Definition graph : ExecutionGraph :=
  mkGraph "job" (vertex <$> [source 0; sink 0]) [source 0] [sink 0]
    [mkDomain "d" [source 0; sink 0] [source 0] [sink 0]] [(source 0, sink 0)] [(sink 0, [(source 0, 1)])].

Definition cfg : coordinator_config := mkCoordinatorConfig 0 60 2 8 "job".

(** Storage, tasks and sinks that do what they are asked. *)
Definition answers (q : request C Z nat Z unit) : outcome (answer q) :=
  match q with
  | LatestCheckpoint => Ok None
  | RestoreCheckpoint _ => Ok (0, [], 0)
  | RestoreOperatorEntries _ => Ok ∅
  | RestoreSinkEntries _ => Ok []
  | Timeout | WorkerHealthy => Ok false
  | ReleaseCheckpoint _ _ => Ok (λ _, true, true)
  | CollectSourceStates b _ _ => Ok (λ _, Ok (true, 10 * b))
  | MaterializeState _ | ReadOperatorState _ _ => Ok []
  | WriteCheckpoint _ => Ok 1%nat
  | NotifyPersisted _ _ => Ok true
  | Repartition _ _ => Ok []
  | Sleep | JoinCheckpointIO | AwaitAborts _ _ | CommitTransaction _ | AbortTransaction _ | CleanupCheckpoints => Ok ()
  end.

(** Every reading of the clock is 100 seconds after the last. *)
Definition wall (n : nat) : Z := 100000 * Z.of_nat n.

Abbreviation body := (method_body (C := C) (St := Z) (P := nat) (Ref := Z) (OE := unit) id (λ _, None) (λ _ _ _, Err ValueError) id
  (λ _, ""%string) (λ _, 0) wall wall cfg).

Abbreviation moves := (list (move (answer (C := C) (St := Z) (P := nat) (Ref := Z) (OE := unit)) (method (C := C) (P := nat) (Ref := Z)))).

Abbreviation run l := (run_moves body (l : moves) (initial (coordinator_init wall cfg))).

Definition opening (g : ExecutionGraph) : moves := Begin (MOpen g None) :: replicate 5 (Continue 0 answers).

(** The job opens, a source triggers a checkpoint, the sink registers its transaction and
    acknowledges; the coordinator collects, merges, persists, commits and notifies. *)
Definition checkpoint_moves : moves :=
  opening graph ++
  [Begin (MRegisterCheckpoint (source 0) false); Begin (MSourceStarted 1 (source 0) false);
   Begin (MRegisterSink 1 (sink 0) "t"); Begin (MNotifyAligned 1 (sink 0))] ++ replicate 10 (Continue 4 answers).
Abbreviation ev := (event (answer (C := C) (St := Z) (P := nat) (Ref := Z) (OE := unit)) (reply (C := C) (P := nat) (Ref := Z))).
End demo.

(** The checkpoint completes, and its transaction was published. *)
Example demo_completes :
  (c ← demo.run demo.checkpoint_moves; cp ← checkpoints (c_state c) !! 1;
   Some (status cp, existsb (λ x, match x with Answered (CommitTransaction _) (Ok _) => true | _ => false end) (c_history c)))
  = Some (COMPLETED, true).
Proof. vm_compute. reflexivity. Qed.

Lemma demo_runs : match demo.run demo.checkpoint_moves with Some _ => true | None => false end = true.
Proof. vm_compute. reflexivity. Qed.

Lemma two_phase_commit_safe_witness :
  match demo.run demo.checkpoint_moves with
  | Some c => commits_durable (c_history c) ∧ notifies_durable (c_history c) ∧
      writes_consistent id (λ _ _ _, Err ValueError) (c_history c) ∧ nothing_lost id (λ _ _ _, Err ValueError) (c_state c) (c_history c)
  | None => False
  end.
Proof.
  generalize demo_runs. destruct (demo.run demo.checkpoint_moves) as [c|] eqn:E; intros Hrun; [|discriminate Hrun].
  apply (two_phase_commit_safe id (λ _, None) (λ _ _ _, Err ValueError) id (λ _, ""%string) (λ _, 0) demo.wall demo.wall demo.cfg c).
  exact (moves_reachable demo.body _ _ _ E).
Defined.

Lemma coordinator_well_formed_witness :
  match demo.run demo.checkpoint_moves with
  | Some c => NoDup (inflight_checkpoints (c_state c)) ∧
      ∀ d b, active_checkpoint_by_domain (c_state c) !! d = Some b → b ∈ inflight_checkpoints (c_state c) ∨ b ∈ completing_checkpoints (c_state c)
  | None => False
  end.
Proof.
  generalize demo_runs. destruct (demo.run demo.checkpoint_moves) as [c|] eqn:E; intros Hrun; [|discriminate Hrun].
  destruct (coordinator_well_formed id (λ _, None) (λ _ _ _, Err ValueError) id (λ _, ""%string) (λ _, 0) demo.wall demo.wall demo.cfg c)
    as (_ & Hnd & _ & _ & Ha & _); [exact (moves_reachable demo.body _ _ _ E)|]. split; [exact Hnd|]. intros d b Hb. by apply (Ha d b).
Defined.

(** Two checkpoints of two domains expire; while the first one's release is awaited, the
    second is acknowledged, and the sweep raises when it comes to it. *)
Definition two_domains : ExecutionGraph :=
  mkGraph "job" (demo.vertex <$> [demo.source 0; demo.source 1; demo.sink 0; demo.sink 1]) [demo.source 0; demo.source 1] [demo.sink 0; demo.sink 1]
    [mkDomain "d" [demo.source 0; demo.sink 0] [demo.source 0] [demo.sink 0]; mkDomain "e" [demo.source 1; demo.sink 1] [demo.source 1] [demo.sink 1]]
    [(demo.source 0, demo.sink 0); (demo.source 1, demo.sink 1)]
    [(demo.sink 0, [(demo.source 0, 1)]); (demo.sink 1, [(demo.source 1, 1)])].

Definition maintenance_error (x : demo.ev) : bool := match x with Replied MMaintain (Err KeyError) => true | _ => false end.

Example expiry_races_completion :
  (λ c, existsb maintenance_error (c_history c)) <$> demo.run (demo.opening two_domains ++
    [Begin (MRegisterCheckpoint (demo.source 0) false); Begin (MRegisterCheckpoint (demo.source 1) false);
     Begin MMaintain; Continue 3 demo.answers; Begin (MNotifyAligned 2 (demo.sink 1)); Continue 3 demo.answers]) = Some true.
Proof. vm_compute. reflexivity. Qed.

(** Two sources and one sink.  The first checkpoint completes, but the sources do not answer
    its notification; the maintenance sweep starts to notify again, and meanwhile the second
    checkpoint is persisted: the sweep tells the second source of the second checkpoint
    before the transaction of that checkpoint is published. *)
Definition two_sources : ExecutionGraph :=
  mkGraph "job" (demo.vertex <$> [demo.source 0; demo.source 1; demo.sink 0]) [demo.source 0; demo.source 1] [demo.sink 0]
    [mkDomain "d" [demo.source 0; demo.source 1; demo.sink 0] [demo.source 0; demo.source 1] [demo.sink 0]]
    [(demo.source 0, demo.sink 0); (demo.source 1, demo.sink 0)] [(demo.sink 0, [(demo.source 0, 1); (demo.source 1, 1)])].

Definition no_notification (q : request demo.C Z nat Z unit) : outcome (answer q) :=
  match q with NotifyPersisted _ _ => Err TimeoutError | q => demo.answers q end.

Definition second_checkpoint (x : demo.ev) : bool :=
  match x with Issued (NotifyPersisted _ 2) => true | _ => false end.

Definition second_transaction (x : demo.ev) : bool :=
  match x with Answered (CommitTransaction e) _ => bool_decide (se_checkpoint_id e = 2) | _ => false end.

Example notification_overtakes_commit :
  (λ c, (existsb second_checkpoint (c_history c), existsb second_transaction (c_history c))) <$>
  demo.run (demo.opening two_sources ++
    [Begin (MRegisterCheckpoint (demo.source 0) false); Begin (MRegisterSink 1 (demo.sink 0) "t"); Begin (MNotifyAligned 1 (demo.sink 0))] ++
    replicate 11 (Continue 3 no_notification) ++
    [Begin MMaintain; Continue 4 no_notification;
     Begin (MRegisterCheckpoint (demo.source 0) false); Begin (MRegisterSink 2 (demo.sink 0) "u"); Begin (MNotifyAligned 2 (demo.sink 0))] ++
    replicate 9 (Continue 7 no_notification) ++ [Continue 4 no_notification]) = Some (true, false).
Proof. vm_compute. reflexivity. Qed.
