(* ===== verification/Rows.v ===== *)
(** * Rows and changelog kinds

    Models [src/ray/klein/api/row_kind.py] and [src/ray/klein/api/changelog_row.py]:
    the change a row of a dynamic table carries, rows with that metadata, and the table
    a sequence of changes stands for. *)
From S2P Require Import Prelude.

(** [RowKind]. *)
Inductive RowKind := INSERT | UPDATE_BEFORE | UPDATE_AFTER | DELETE.

#[export] Instance RowKind_eq_dec : EqDecision RowKind.
Proof. solve_decision. Defined.

Definition is_addition (k : RowKind) : bool :=
  match k with INSERT | UPDATE_AFTER => true | _ => false end.

Definition is_retraction (k : RowKind) : bool :=
  match k with UPDATE_BEFORE | DELETE => true | _ => false end.

(** A row: a plain dictionary ([None]) or a [ChangelogRow] ([Some] of its kind). *)
Record Row (D : Type) := mkRow { row_values : D; row_changelog : option RowKind }.
Arguments mkRow {D}.
Arguments row_values {D}.
Arguments row_changelog {D}.

Definition ChangelogRow_insert {D} (values : D) : Row D := mkRow values (Some INSERT).
Definition ChangelogRow_update_before {D} (values : D) : Row D := mkRow values (Some UPDATE_BEFORE).
Definition ChangelogRow_update_after {D} (values : D) : Row D := mkRow values (Some UPDATE_AFTER).
Definition ChangelogRow_delete {D} (values : D) : Row D := mkRow values (Some DELETE).

(** [with_kind]. *)
Definition with_kind {D} (kind : RowKind) (r : Row D) : Row D := mkRow (row_values r) (Some kind).

(** [row_kind_of]. *)
Definition row_kind_of {D} (r : Row D) : RowKind := default INSERT (row_changelog r).

(** A kind adds or retracts a row, never both. *)
Lemma is_addition_retraction k : is_addition k = negb (is_retraction k).
Proof. by destruct k. Qed.

(** ** The tables a changelog stands for *)

Section changelog.
Context {D : Type} `{EqDecision D}.
Implicit Types (t : list D).

(** Removing the first occurrence of a row. *)
Fixpoint remove_row (row : D) (t : list D) : list D :=
  match t with
  | [] => []
  | x :: t => if decide (x = row) then t else x :: remove_row row t
  end.

(** A change of a table. *)
Definition change (addition : bool) (row : D) (t : list D) : list D :=
  if addition then t ++ [row] else remove_row row t.

Lemma remove_row_perm row t : row ∈ t → t ≡ₚ row :: remove_row row t.
Proof.
  induction t as [|x t IH]; intros Hin; [by apply not_elem_of_nil in Hin|]. cbn [remove_row].
  case_decide as Hx; [by subst|]. apply elem_of_cons in Hin as [->|Hin]; [done|].
  rewrite (IH Hin) at 1. apply Permutation_swap.
Qed.

Lemma remove_row_absent row t : row ∉ t → remove_row row t = t.
Proof.
  induction t as [|x t IH]; intros Hin; cbn [remove_row]; [done|].
  rewrite decide_False by (intros ->; apply Hin; by left). f_equal. apply IH. intros ?. apply Hin. by right.
Qed.

Lemma elem_of_remove_row x row t : x ∈ remove_row row t → x ∈ t.
Proof.
  induction t as [|y t IH]; cbn [remove_row]; [done|]. case_decide; [by right|].
  intros [->|Hx]%elem_of_cons; [by left|right; auto].
Qed.

(** A changelog [out] builds the table [t]: what it adds is what it retracts and [t]. *)
Definition builds (out : list (Row D)) t : Prop :=
  row_values <$> filter (λ r, is_addition (row_kind_of r) = true) out ≡ₚ
  (row_values <$> filter (λ r, is_addition (row_kind_of r) = false) out) ++ t.

Lemma builds_proper out t t' : t ≡ₚ t' → builds out t → builds out t'.
Proof. unfold builds. by intros ->. Qed.

(** Rows all added, or all retracted, at the end. *)
Lemma builds_added out t rows kind :
  is_addition kind = true → builds out t → builds (out ++ ((λ x, mkRow x (Some kind)) <$> rows)) (t ++ rows).
Proof.
  unfold builds. intros Hk Hb. rewrite !filter_app, !fmap_app.
  rewrite (filter_all _ ((λ x, mkRow x (Some kind)) <$> rows)), (filter_none (λ r, is_addition (row_kind_of r) = false) ((λ x, mkRow x (Some kind)) <$> rows)).
  - rewrite <-list_fmap_compose, Hb. unfold compose. cbn. rewrite list_fmap_id, app_nil_r. by rewrite app_assoc.
  - intros r (x & -> & _)%list_elem_of_fmap. cbn. by rewrite Hk.
  - by intros r (x & -> & _)%list_elem_of_fmap.
Qed.

Lemma builds_retracted out t rows kind :
  is_addition kind = false → builds out (rows ++ t) → builds (out ++ ((λ x, mkRow x (Some kind)) <$> rows)) t.
Proof.
  unfold builds. intros Hk Hb. rewrite !filter_app, !fmap_app.
  rewrite (filter_all (λ r, is_addition (row_kind_of r) = false) ((λ x, mkRow x (Some kind)) <$> rows)), (filter_none _ ((λ x, mkRow x (Some kind)) <$> rows)).
  - rewrite <-list_fmap_compose. unfold compose. cbn [row_values]. rewrite list_fmap_id, app_nil_r, Hb. by rewrite app_assoc.
  - intros r (x & -> & _)%list_elem_of_fmap. cbn. by rewrite Hk.
  - by intros r (x & -> & _)%list_elem_of_fmap.
Qed.
End changelog.

Section changelog_filter.
Context {D : Type} `{EqDecision D} (P : D → Prop) `{∀ x, Decision (P x)}.
Implicit Types (t : list D).

(** What a change does to the rows of a group. *)
Lemma filter_change addition row t :
  filter P (change addition row t) = if decide (P row) then change addition row (filter P t) else filter P t.
Proof.
  destruct addition; cbn [change].
  - rewrite filter_app, filter_cons, filter_nil. case_decide; [done|]. by rewrite app_nil_r.
  - induction t as [|x t IH]; cbn [remove_row]; [by case_decide|].
    destruct (decide (x = row)) as [->|Hne]; rewrite !filter_cons.
    + case_decide; [|done]. cbn [remove_row]. by rewrite decide_True.
    + rewrite IH. destruct (decide (P x)), (decide (P row)); try done. cbn [remove_row]. by rewrite decide_False.
Qed.
End changelog_filter.
