(* ===== verification/Blocks.v ===== *)
(** * Columnar blocks

    Models [src/ray/klein/_internal/block.py]: concatenating column-oriented blocks and
    converting their columns to the format a user function asked for.

    A block is seen as its rows, the values of a row being what [block_row_dict] reads of
    it: NumPy and Arrow scalars are identified with the Python values they stand for.
    Beside its rows a block has its physical layout, an Arrow batch or a mapping, with the
    physical type of each column by name.  What NumPy and PyArrow make of a column, and
    when they raise, is the interface [BlockLibrary]. *)
From S2P Require Import Prelude Rows.
Open Scope Z_scope.

(** ** Columns *)

(** The classes of columns the code tells apart with [isinstance]. *)
Inductive column_kind := SequenceColumn | NdarrayColumn | ArrowColumn | OtherColumn.

(** A column: the name of its physical type, and its values. *)
Definition column (V : Type) : Type := string * list V.

(** NumPy and PyArrow, on one column.  A result is the column that is read back, or the
    exception; [to_numpy] is [None] when it raises [ArrowInvalid] or
    [ArrowNotImplementedError], which the code catches. *)
Class BlockLibrary (V : Type) := {
  kind_of_type : string → column_kind;
  same_class : string → string → bool;
  tensor_type : string → bool;
  binary_type : string → bool;
  nested_type : string → bool;
  list_type : string;
  object_array_type : string;
  is_binary_value : V → bool;
  pa_array : list V → outcome (column V);
  np_asarray : list V → outcome (column V);
  ragged_message : list V → bool;
  np_concatenate : list (column V) → outcome (column V);
  pa_concat_arrays : list (column V) → outcome (column V);
  to_numpy_ndarray : column V → outcome (column V);
  has_nulls : column V → bool;
  to_numpy : column V → option (outcome (column V))
}.

(** Every value of a column is converted to one value. *)
Class BlockLibraryLaws (V : Type) `{BlockLibrary V} := {
  length_pa_array vs col : pa_array vs = Ok col → length col.2 = length vs;
  length_np_asarray vs col : np_asarray vs = Ok col → length col.2 = length vs;
  length_np_concatenate parts col : np_concatenate parts = Ok col → length col.2 = length (mjoin parts.*2);
  length_pa_concat_arrays parts col : pa_concat_arrays parts = Ok col → length col.2 = length (mjoin parts.*2);
  length_to_numpy_ndarray vs col : to_numpy_ndarray vs = Ok col → length col.2 = length vs.2;
  length_to_numpy vs col : to_numpy vs = Some (Ok col) → length col.2 = length vs.2
}.

Section conversions.
Context {V : Type} `{BlockLibrary V}.

Definition create_ragged_ndarray (values : list V) : column V := (object_array_type, values).

Definition create_possibly_ragged_ndarray (values : list V) : outcome (column V) :=
  match np_asarray values with
  | Err ValueError => if ragged_message values then Ok (create_ragged_ndarray values) else Err ValueError
  | result => result
  end.

Definition wrapper_batch_data (data : list V) (batch_format : option string) : outcome (column V) :=
  match batch_format with
  | None => Ok (list_type, data)
  | Some format =>
      if bool_decide (format = "native"%string) then Ok (list_type, data)
      else if bool_decide (format = "pyarrow"%string) then pa_array data
      else if bool_decide (format = "numpy"%string ∨ format = "default"%string) then
        if existsb is_binary_value data then Ok (create_ragged_ndarray data)
        else create_possibly_ragged_ndarray data
      else Err ValueError
  end.

(** [_arrow_array_to_numpy]. *)
Definition arrow_array_to_numpy (values : column V) : outcome (column V) :=
  if tensor_type values.1 then to_numpy_ndarray values
  else if binary_type values.1 || nested_type values.1 then Ok (create_ragged_ndarray values.2)
  else if has_nulls values then create_possibly_ragged_ndarray values.2
  else match to_numpy values with
       | Some result => result
       | None => create_possibly_ragged_ndarray values.2
       end.

(** What [arrow_block_to_mapping] does to each column in a format. *)
Definition arrow_conversion (batch_format : option string) : outcome (column V → outcome (column V)) :=
  match batch_format with
  | None => Ok (λ values, Ok (list_type, values.2))
  | Some format =>
      if bool_decide (format = "pyarrow"%string) then Ok Ok
      else if bool_decide (format = "native"%string) then Ok (λ values, Ok (list_type, values.2))
      else if bool_decide (format = "numpy"%string ∨ format = "default"%string) then Ok arrow_array_to_numpy
      else Err ValueError
  end.

(** One column of [concat_blocks]: of Arrow batches, or by the class of its first part. *)
Definition concat_column (arrow : bool) (parts : list (column V)) : outcome (column V) :=
  match parts with
  | [] => Err IndexError
  | (type, _) :: _ =>
      match if arrow then ArrowColumn else kind_of_type type with
      | NdarrayColumn => np_concatenate parts
      | ArrowColumn => pa_concat_arrays parts
      | _ => Ok (list_type, mjoin parts.*2)
      end
  end.
End conversions.

(** ** Blocks *)

(** The columns of a columnar block, by name, with their physical types. *)
Inductive Layout := Arrow (fields : list (string * string)) | Mapping (fields : list (string * string)).

Section blocks.
(** Values of columns; [none] is Python's [None]. *)
Context {V : Type} (none : V) `{BlockLibrary V}.

(** A row's dictionary. *)
Abbreviation dict := (gmap string V).

Inductive Block := BNone | BRow (row : Row dict) | BTable (layout : Layout) (rows : list dict).

(** The rows of a columnar block. *)
Definition block_rows (b : Block) : list dict :=
  match b with BTable _ rows => rows | BRow row => [row_values row] | BNone => [] end.

Definition block_layout (b : Block) : Layout := match b with BTable layout _ => layout | _ => Mapping [] end.

Definition fields_of (b : Block) : list (string * string) :=
  match block_layout b with Arrow fields | Mapping fields => fields end.

Definition is_arrow (b : Block) : bool := match block_layout b with Arrow _ => true | Mapping _ => false end.

(** [slice_block_rows] on a contiguous slice. *)
Definition slice_block_rows (b : Block) (start stop : nat) : Block :=
  BTable (block_layout b) (take (stop - start) (drop start (block_rows b))).

(** The values of a column, [None] where a row lacks it. *)
Definition column_values (c : string) (rows : list dict) : list V := (λ row : dict, default none (row !! c)) <$> rows.

(** Row [i] of a block with the given columns. *)
Definition row_of_columns (columns : list (string * column V)) (i : nat) : dict :=
  omap (λ col : column V, col.2 !! i) (list_to_map columns : gmap string (column V)).

Definition of_columns (arrow : bool) (n : nat) (columns : list (string * column V)) : Block :=
  let fields := (λ '(c, col), (c, (col : column V).1)) <$> columns in
  BTable (if arrow then Arrow fields else Mapping fields) (row_of_columns columns <$> seq 0 n).

(** A loop that makes a mapping of columns, one name after the other. *)
Definition build_columns (make : string → outcome (column V)) (names : list string) : outcome (list (string * column V)) :=
  mapM_outcome (λ c, match make c with Ok col => Ok (c, col) | Err e => Err e end) names.

Definition find_column (c : string) (b : Block) : outcome (column V) :=
  match list_find (λ f, f.1 = c) (fields_of b) with
  | Some (_, (_, type)) => Ok (type, column_values c (block_rows b))
  | None => Err KeyError
  end.

(** [concat_blocks].  It is only called on blocks of one schema ([same_columnar_schema]),
    all of them Arrow batches or all of them mappings. *)
Definition concat_blocks (blocks : list Block) : outcome Block :=
  match blocks with
  | [] => Ok (BTable (Mapping []) [])
  | [b] => Ok b
  | first :: _ =>
      columns ← build_columns (λ c, parts ← mapM_outcome (find_column c) blocks; concat_column (is_arrow first) parts) (fields_of first).*1;
      Ok (of_columns (is_arrow first) (length (mjoin (block_rows <$> blocks))) columns)
  end.

(** [arrow_block_to_mapping] of an Arrow block. *)
Definition arrow_block_to_mapping (b : Block) (batch_format : option string) : outcome Block :=
  convert ← arrow_conversion batch_format;
  columns ← build_columns (λ c, values ← find_column c b; convert values) (fields_of b).*1;
  Ok (of_columns false (length (block_rows b)) columns).

(** A block from row dictionaries:
    [{column: wrapper_batch_data([row.get(column) for row in rows], batch_format)}].  The
    code takes the columns as they first occur, here they are in the order of a set; only the
    order of the new columns, and which of several exceptions is raised, depend on it. *)
Definition rows_to_block (rows : list dict) (batch_format : option string) : outcome Block :=
  let names := elements (⋃ ((λ row : dict, dom row) <$> rows) : gset string) in
  columns ← build_columns (λ c, wrapper_batch_data (column_values c rows) batch_format) names;
  Ok (of_columns false (length rows) columns).

(** The test of [InputBatchAccumulator._same_columnar_schema], on the records' blocks. *)
Definition same_columnar_schema (blocks : list Block) : bool :=
  match blocks with
  | BTable (Arrow schema) _ :: _ =>
      forallb (λ b, match b with BTable (Arrow s) _ => bool_decide (s = schema) | _ => false end) blocks
  | BTable (Mapping fields) _ :: _ =>
      forallb (λ b, match b with
                    | BTable (Mapping fs) _ =>
                        bool_decide (fs.*1 = fields.*1) &&
                        forallb (λ p : string * string, same_class p.1 p.2) (zip fs.*2 fields.*2) &&
                        forallb (λ t, negb (match kind_of_type t with OtherColumn => true | _ => false end)) fs.*2
                    | _ => false
                    end) blocks
  | _ => false
  end.
End blocks.
Arguments Block V : clear implicits.
Arguments BNone {V}.
Arguments BRow {V}.
Arguments BTable {V}.

(** ** Lemmas *)

Section conversion_lemmas.
Context {V : Type} `{BlockLibraryLaws V}.

Lemma length_possibly_ragged vs col : create_possibly_ragged_ndarray vs = Ok col → length col.2 = length vs.
Proof.
  unfold create_possibly_ragged_ndarray. destruct (np_asarray vs) as [col'|e] eqn:E.
  - intros [= <-]. by eapply length_np_asarray.
  - destruct e; try done. destruct (ragged_message vs); [|done]. by intros [= <-].
Qed.

Lemma length_wrapper vs fmt col : wrapper_batch_data vs fmt = Ok col → length col.2 = length vs.
Proof.
  unfold wrapper_batch_data. destruct fmt as [fmt|]; [|by intros [= <-]].
  repeat case_bool_decide; [by intros [= <-]|apply length_pa_array| |done].
  destruct (existsb _ vs); [by intros [= <-]|apply length_possibly_ragged].
Qed.

Lemma length_arrow_array values col : arrow_array_to_numpy values = Ok col → length col.2 = length values.2.
Proof.
  unfold arrow_array_to_numpy. destruct (tensor_type values.1); [apply length_to_numpy_ndarray|].
  destruct (binary_type _ || nested_type _); [by intros [= <-]|]. destruct (has_nulls values); [apply length_possibly_ragged|].
  destruct (to_numpy values) as [r|] eqn:E; [|apply length_possibly_ragged]. intros ->. by eapply length_to_numpy.
Qed.

Lemma length_arrow_conversion fmt convert values col :
  arrow_conversion fmt = Ok convert → convert values = Ok col → length col.2 = length values.2.
Proof.
  unfold arrow_conversion. destruct fmt as [fmt|]; [|by intros [= <-] [= <-]].
  repeat case_bool_decide; intros [= <-]; [by intros [= <-]..|apply length_arrow_array].
Qed.

Lemma length_concat_column arrow parts col : concat_column arrow parts = Ok col → length col.2 = length (mjoin parts.*2).
Proof.
  unfold concat_column. destruct parts as [|[t vs] parts]; [done|].
  destruct (if arrow then _ else kind_of_type t); [by intros [= <-]|apply length_np_concatenate|apply length_pa_concat_arrays|by intros [= <-]].
Qed.
End conversion_lemmas.

(** *** What becomes of a column *)

Section column_spec.
Context {V : Type} `{BlockLibraryLaws V} (batch_format : option string).

(** The conversions a column of a batch goes through: it is made from the values of the
    rows ([wrapper_batch_data]), or from the columns of the blocks, concatenated when
    there are several, and then converted from Arrow when it was Arrow. *)
Definition concatenated (vs vs' : list V) : Prop :=
  vs' = vs ∨ ∃ arrow parts type, mjoin parts.*2 = vs ∧ concat_column arrow parts = Ok (type, vs').

Definition formatted (vs vs' : list V) : Prop :=
  vs' = vs ∨ ∃ convert type type', arrow_conversion batch_format = Ok convert ∧ convert (type, vs) = Ok (type', vs').

Definition column_converted (vs vs' : list V) : Prop :=
  (∃ type, wrapper_batch_data vs batch_format = Ok (type, vs')) ∨ ∃ mid, concatenated vs mid ∧ formatted mid vs'.

(** An exception of one of them, for a column of these values. *)
Definition column_raises (vs : list V) (e : exn) : Prop :=
  wrapper_batch_data vs batch_format = Err e ∨
  (∃ arrow parts, parts ≠ [] ∧ mjoin parts.*2 = vs ∧ concat_column arrow parts = Err e) ∨
  arrow_conversion batch_format = Err e ∨
  ∃ mid convert type, concatenated vs mid ∧ arrow_conversion batch_format = Ok convert ∧ convert (type, mid) = Err e.

Lemma column_converted_refl vs : column_converted vs vs.
Proof. right. exists vs. split; by left. Qed.

Lemma length_column_converted vs vs' : column_converted vs vs' → length vs' = length vs.
Proof.
  intros [[t E]|(mid & Hc & Hf)]; [exact (length_wrapper _ _ _ E)|]. trans (length mid).
  - destruct Hf as [->|(f & t & t' & Ef & E)]; [done|]. exact (length_arrow_conversion _ _ _ _ Ef E).
  - destruct Hc as [->|(arrow & parts & t & <- & E)]; [done|]. exact (length_concat_column _ _ _ E).
Qed.
End column_spec.

(** *** Blocks from columns *)

Section block_lemmas.
Context {V : Type} (none : V) `{BlockLibraryLaws V}.

Abbreviation dict := (gmap string V).
Implicit Types (rows : list dict) (c : string) (b : Block V).

Lemma build_columns_Ok make names columns :
  build_columns (V := V) make names = Ok columns →
  columns.*1 = names ∧ ∀ c col, (c, col) ∈ columns → make c = Ok col.
Proof.
  unfold build_columns. intros Hm%mapM_outcome_Ok. split.
  - induction Hm as [|c [c' col] names columns E _ IH]; [done|]. rewrite fmap_cons. f_equal; [|done].
    by destruct (make c); simplify_eq.
  - intros c col (c' & _ & E)%(Forall2_elem_of_r _ _ _ _ Hm). by destruct (make c') eqn:Em; simplify_eq.
Qed.

Lemma build_columns_Err make names e :
  build_columns (V := V) make names = Err e → ∃ c, c ∈ names ∧ make c = Err e.
Proof.
  unfold build_columns. induction names as [|c names IH]; cbn; [done|].
  destruct (make c) eqn:Em; [|intros [= <-]; exists c; split; [by left|done]].
  destruct (mapM_outcome _ names) eqn:E; [done|]. intros [= <-]. destruct (IH eq_refl) as (c' & ? & ?).
  exists c'. split; [by right|done].
Qed.

Lemma length_column_values c rows : length (column_values none c rows) = length rows.
Proof. apply length_fmap. Qed.

Lemma column_values_app c rows1 rows2 :
  column_values none c (rows1 ++ rows2) = column_values none c rows1 ++ column_values none c rows2.
Proof. apply fmap_app. Qed.

Lemma column_values_mjoin c (parts : list (list dict)) :
  column_values none c (mjoin parts) = mjoin (column_values none c <$> parts).
Proof.
  induction parts as [|rows parts IH]; [done|].
  change (column_values none c (rows ++ mjoin parts) = column_values none c rows ++ mjoin (column_values none c <$> parts)).
  by rewrite column_values_app, IH.
Qed.

(** A column that no row has reads as [None]. *)
Lemma column_values_missing c rows :
  (∀ row, row ∈ rows → row !! c = None) → column_values none c rows = replicate (length rows) none.
Proof.
  induction rows as [|row rows IH]; intros Hc; [done|]. cbn. rewrite (Hc row) by by left. f_equal. apply IH.
  intros row' Hin. apply Hc. by right.
Qed.

(** The rows built from columns of the right length read back as those columns. *)
Lemma column_of_columns arrow n (columns : list (string * column V)) c :
  (∀ col, (c, col) ∈ columns → length col.2 = n) →
  length (block_rows (of_columns arrow n columns)) = n ∧
  ((c ∉ columns.*1 ∧ column_values none c (block_rows (of_columns arrow n columns)) = replicate n none) ∨
   ∃ col, (c, col) ∈ columns ∧ column_values none c (block_rows (of_columns arrow n columns)) = col.2).
Proof.
  intros Hlen. unfold of_columns. cbn [block_rows]. split; [by rewrite length_fmap, length_seq|].
  assert (∀ i, row_of_columns columns i !! c = (list_to_map columns : gmap string (column V)) !! c ≫= λ col, col.2 !! i) as Hrow
    by (intros i; apply lookup_omap).
  destruct ((list_to_map columns : gmap string (column V)) !! c) as [col|] eqn:E.
  - right. apply elem_of_list_to_map_2 in E. exists col. split; [done|]. specialize (Hlen col E).
    apply list_eq. intros i. unfold column_values. rewrite !list_lookup_fmap.
    destruct (decide (i < n)%nat) as [Hi|Hi].
    + rewrite lookup_seq_lt by done. cbn. rewrite Hrow. cbn.
      by destruct (lookup_lt_is_Some_2 col.2 i ltac:(lia)) as [v ->].
    + rewrite lookup_seq_ge by lia. cbn. symmetry. apply lookup_ge_None. lia.
  - left. split; [by apply not_elem_of_list_to_map_2|]. rewrite column_values_missing.
    + by rewrite length_fmap, length_seq.
    + intros row (i & -> & _)%list_elem_of_fmap. by rewrite Hrow.
Qed.

(** The layout of a columnar block names every column of its rows. *)
Definition table_ok b : Prop := ∀ row c, row ∈ block_rows b → is_Some (row !! c) → c ∈ (fields_of b).*1.

Lemma fields_of_columns arrow n (columns : list (string * column V)) :
  (fields_of (of_columns arrow n columns)).*1 = columns.*1.
Proof.
  unfold fields_of, of_columns. cbn.
  assert (∀ fields : list (string * string), match (if arrow then Arrow fields else Mapping fields) with Arrow f | Mapping f => f end = fields) as ->
    by by destruct arrow.
  rewrite <-list_fmap_compose. apply list_fmap_ext. intros _ [c col] _. done.
Qed.

Lemma of_columns_ok arrow n (columns : list (string * column V)) : table_ok (of_columns arrow n columns).
Proof.
  intros row c Hrow [v Hv]. rewrite fields_of_columns. cbn in Hrow. apply list_elem_of_fmap in Hrow as (i & -> & _).
  unfold row_of_columns in Hv. rewrite lookup_omap in Hv.
  destruct ((list_to_map columns : gmap string (column V)) !! c) as [col|] eqn:E; [|done].
  apply elem_of_list_to_map_2 in E. by apply (list_elem_of_fmap_2 fst) in E.
Qed.

Lemma find_column_Ok c b col : find_column none c b = Ok col → col.2 = column_values none c (block_rows b).
Proof. unfold find_column. destruct (list_find _ _) as [[? [? ?]]|]; [|done]. by intros [= <-]. Qed.

Lemma find_column_total c b : c ∈ (fields_of b).*1 → ∃ type, find_column none c b = Ok (type, column_values none c (block_rows b)).
Proof.
  intros ([c' type] & -> & Hin)%list_elem_of_fmap. unfold find_column.
  cbn [fst]. destruct (list_find _ (fields_of b)) as [[i [c'' t]]|] eqn:E; [by exists t|].
  apply list_find_None in E. rewrite Forall_forall in E. by destruct (E _ Hin).
Qed.

Lemma missing_column c b : table_ok b → c ∉ (fields_of b).*1 → ∀ row, row ∈ block_rows b → row !! c = None.
Proof. intros Hb Hc row Hrow. apply eq_None_not_Some. intros Hs. by eapply Hc, Hb. Qed.
End block_lemmas.

Section block_spec.
Context {V : Type} (none : V) `{BlockLibraryLaws V} (batch_format : option string).

Abbreviation dict := (gmap string V).
Abbreviation values_of := (column_values none).
Implicit Types (rows : list dict) (c : string) (b : Block V).

Definition is_table b : Prop := match b with BTable _ _ => True | _ => False end.

(** A block made of [rows]: as many rows, each column related by [R]. *)
Definition made_of (R : list V → list V → Prop) rows b : Prop :=
  is_table b ∧ table_ok b ∧ length (block_rows b) = length rows ∧ ∀ c, R (values_of c rows) (values_of c (block_rows b)).

(** A block from columns made one by one. *)
Lemma made_of_columns (R : list V → list V → Prop) arrow rows make names columns :
  (∀ vs vs', R vs vs' → length vs' = length vs) →
  build_columns make names = Ok columns →
  (∀ c, c ∉ names → R (values_of c rows) (replicate (length rows) none)) →
  (∀ c col, c ∈ names → make c = Ok col → R (values_of c rows) col.2) →
  made_of R rows (of_columns arrow (length rows) columns).
Proof.
  intros Hlen (Hnames & Hmake)%build_columns_Ok Hmissing HR.
  assert (∀ c col, (c, col) ∈ columns → R (values_of c rows) col.2) as Hcol.
  { intros c col Hin. apply HR; [|by apply Hmake]. rewrite <-Hnames. by apply (list_elem_of_fmap_2 fst) in Hin. }
  assert (∀ c, ∀ col, (c, col) ∈ columns → length col.2 = length rows) as Hl.
  { intros c col Hin. by rewrite (Hlen _ _ (Hcol _ _ Hin)), length_column_values. }
  split; [done|]. split; [apply of_columns_ok|]. split; [by apply (column_of_columns none arrow _ columns ""%string), Hl|].
  intros c. destruct (column_of_columns none arrow (length rows) columns c (Hl c)) as [_ [[Hno ->]|(col & Hin & ->)]].
  - rewrite Hnames in Hno. by apply Hmissing.
  - by apply Hcol.
Qed.

(** A step of a batch's construction, and why it may fail. *)
Definition makes (R : list V → list V → Prop) rows (o : outcome (Block V)) : Prop :=
  match o with
  | Ok b => made_of R rows b
  | Err e => ∃ c, column_raises batch_format (values_of c rows) e
  end.

Lemma rows_to_block_makes rows : makes (column_converted batch_format) rows (rows_to_block none rows batch_format).
Proof.
  unfold rows_to_block. set (names := elements _). destruct (build_columns _ names) as [columns|e] eqn:E; cbn.
  - eapply (made_of_columns _ false rows _ names); [apply length_column_converted|exact E| |].
    + intros c Hc. rewrite <-(column_values_missing none c rows); [apply column_converted_refl|].
      intros row Hrow. apply eq_None_not_Some. intros [v Hv]. apply Hc, elem_of_elements, elem_of_union_list.
      exists (dom row). split; [by apply list_elem_of_fmap_2|]. by apply elem_of_dom_2 in Hv.
    + intros c [t vs] _ Hm. left. by exists t.
  - apply build_columns_Err in E as (c & _ & Hm). exists c. by left.
Qed.

(** Blocks of one schema. *)
Definition same_names (names : list string) b : Prop := is_table b ∧ table_ok b ∧ (fields_of b).*1 = names.

Lemma parts_of (blocks : list (Block V)) names c :
  (∀ b, b ∈ blocks → same_names names b) → c ∈ names →
  ∃ parts, mapM_outcome (find_column none c) blocks = Ok parts ∧
    mjoin parts.*2 = values_of c (mjoin (block_rows <$> blocks)).
Proof.
  intros Hb Hc. destruct (mapM_outcome_exists (find_column none c) blocks) as [parts Hp].
  { intros b Hin. destruct (Hb b Hin) as (_ & _ & <-). destruct (find_column_total none c b Hc) as [t ->]. by eexists. }
  exists parts. split; [done|]. apply mapM_outcome_Ok in Hp. rewrite column_values_mjoin, <-list_fmap_compose. f_equal.
  induction Hp as [|b col blocks parts E _ IH]; [done|]. rewrite !fmap_cons. f_equal; [by eapply find_column_Ok|].
  apply IH. intros b' Hin. apply Hb. by right.
Qed.

Lemma concat_blocks_makes (blocks : list (Block V)) names :
  blocks ≠ [] → (∀ b, b ∈ blocks → same_names names b) →
  makes concatenated (mjoin (block_rows <$> blocks)) (concat_blocks none blocks).
Proof.
  intros Hne Hb. destruct blocks as [|first [|second blocks]]; [done| |].
  - destruct (Hb first) as (Ht & Hok & _); [by left|]. cbn. rewrite app_nil_r.
    split_and!; [done..|]. intros c. by left.
  - unfold concat_blocks. set (all := first :: second :: blocks) in *. destruct (Hb first) as (_ & _ & Hnames); [by left|].
    rewrite Hnames. destruct (build_columns _ names) as [columns|e] eqn:E; cbn [mbind outcome_bind makes].
    + eapply (made_of_columns _ _ _ _ names); [|exact E| |].
      * intros vs vs' [->|(arrow & parts & t & <- & Hc)]; [done|]. exact (length_concat_column _ _ _ Hc).
      * intros c Hc. left. symmetry. apply column_values_missing. intros row Hrow. apply list_elem_of_join in Hrow as (rows & Hrow & Hin).
        apply list_elem_of_fmap in Hin as (b & -> & Hin). destruct (Hb b Hin) as (_ & Hok & Hn).
        eapply missing_column; [exact Hok|by rewrite Hn|done].
      * intros c [t vs] Hc Hm. destruct (parts_of all names c Hb Hc) as (parts & Hp & Hj). rewrite Hp in Hm.
        right. exists (is_arrow first), parts, t. by rewrite Hj.
    + apply build_columns_Err in E as (c & Hc & Hm). destruct (parts_of all names c Hb Hc) as (parts & Hp & Hj).
      rewrite Hp in Hm. exists c. right; left. exists (is_arrow first), parts. split; [|done].
      apply mapM_outcome_Ok in Hp. intros ->. by inversion Hp.
Qed.

(** Converting an Arrow block whose columns are already known. *)
Lemma arrow_block_makes b rows :
  made_of concatenated rows b → makes (column_converted batch_format) rows (arrow_block_to_mapping none b batch_format).
Proof.
  intros (_ & Hok & Hlen & Hcols). unfold arrow_block_to_mapping.
  destruct (arrow_conversion batch_format) as [convert|e] eqn:Ec; [|exists ""%string; right; right; by left].
  rewrite bind_Ok. destruct (build_columns _ _) as [columns|e] eqn:E; cbn [mbind outcome_bind makes].
  - rewrite Hlen. eapply (made_of_columns _ false rows _ (fields_of b).*1); [apply length_column_converted|exact E| |].
    + intros c Hc. right. exists (values_of c (block_rows b)). split; [apply Hcols|left].
      rewrite (column_values_missing none c (block_rows b)) by (by apply missing_column). by rewrite Hlen.
    + intros c [t vs] Hc Hm. destruct (find_column_total none c b Hc) as [type Hf]. rewrite Hf in Hm.
      right. exists (values_of c (block_rows b)). split; [apply Hcols|right]. by exists convert, type, t.
  - apply build_columns_Err in E as (c & Hc & Hm). destruct (find_column_total none c b Hc) as [type Hf]. rewrite Hf in Hm.
    exists c. right; right; right. by exists (values_of c (block_rows b)), convert, type.
Qed.

Lemma made_converted rows b : made_of concatenated rows b → made_of (column_converted batch_format) rows b.
Proof.
  intros (Ht & Hok & Hlen & Hcols). split_and!; [done..|]. intros c. right. eexists. split; [apply Hcols|by left].
Qed.

Lemma same_columnar_schema_names (blocks : list (Block V)) b0 :
  same_columnar_schema blocks = true → head blocks = Some b0 → (∀ b, b ∈ blocks → is_table b → table_ok b) →
  ∀ b, b ∈ blocks → same_names (fields_of b0).*1 b.
Proof.
  intros Hs Hh Hok b Hin. destruct blocks as [|b1 blocks]; [done|]. injection Hh as ->. unfold same_columnar_schema in Hs.
  destruct b0 as [|row|[schema|fields] rows]; [done..| |]; apply forallb_True' in Hs; rewrite Forall_forall in Hs; specialize (Hs b Hin).
  - destruct b as [|?|[s|?] rows']; try done. apply bool_decide_eq_true in Hs as ->. split_and!; [done| |done]. by apply Hok.
  - destruct b as [|?|[?|fs] rows']; try done. apply andb_true_iff in Hs as [[Hs%bool_decide_eq_true _]%andb_true_iff _].
    split_and!; [done| |done]. by apply Hok.
Qed.
End block_spec.

(** ** Samples *)

(** A library for integers: every conversion succeeds and keeps the values. *)
Module BlockSamples.
Definition kept (type : string) (vs : list Z) : outcome (column Z) := Ok (type, vs).
Definition joined (type : string) (parts : list (column Z)) : outcome (column Z) := Ok (type, mjoin parts.*2).

#[export] Instance z_library : BlockLibrary Z := {|
  kind_of_type t := if bool_decide (t = "ndarray"%string) then NdarrayColumn
                    else if bool_decide (t = "int64"%string) then ArrowColumn else SequenceColumn;
  same_class t t' := bool_decide (t = t');
  tensor_type _ := false;
  binary_type _ := false;
  nested_type _ := false;
  list_type := "list";
  object_array_type := "ndarray";
  is_binary_value _ := false;
  pa_array := kept "int64";
  np_asarray := kept "ndarray";
  ragged_message _ := true;
  np_concatenate := joined "ndarray";
  pa_concat_arrays := joined "int64";
  to_numpy_ndarray col := kept "ndarray" col.2;
  has_nulls _ := false;
  to_numpy col := Some (kept "ndarray" col.2)
|}.

#[export] Instance z_library_laws : BlockLibraryLaws Z.
Proof. split; [by intros ?? [= <-]..|]. by intros ?? [= <-]. Defined.

Lemma kept_formatted fmt vs vs' : formatted (V := Z) fmt vs vs' → vs' = vs.
Proof.
  intros [->|(convert & t & t' & E & Hc)]; [done|]. revert E. unfold arrow_conversion. destruct fmt as [fmt|].
  - repeat case_bool_decide; intros [= <-]; cbn in Hc; injection Hc as _ <-; done.
  - intros [= <-]. cbn in Hc. by simplify_eq.
Qed.

(** No conversion changes a value. *)
Lemma z_library_keeps fmt vs vs' : column_converted (V := Z) fmt vs vs' → vs' = vs.
Proof.
  intros [[t E]|(mid & [->|(arrow & parts & t & <- & E)] & ->%kept_formatted)]; [|done|].
  - revert E. unfold wrapper_batch_data. destruct fmt as [fmt|]; [|intros [= _ ->]; done].
    repeat case_bool_decide; [by intros [= _ <-]|by intros [= _ <-]| |done].
    destruct (existsb is_binary_value vs); by intros [= _ <-].
  - revert E. unfold concat_column. destruct parts as [|[t' vs0] parts]; [done|].
    by destruct (if arrow then _ else kind_of_type t'); intros [= _ <-].
Qed.
End BlockSamples.
