(* ===== verification/InputBatching.v ===== *)
(** * Input batching

    Models [src/ray/klein/runtime/worker/input_batch_accumulator.py]: the
    arrival-ordered batching of row-shaped and columnar records before an operator
    is invoked.

    Columnar blocks, and the conversion of their columns to the format of the user
    function, are those of [Blocks]; the retained size of a record is a parameter.  The
    monotonic clock is read at most three times in a call; the readings are
    arguments. *)
From S2P Require Import Prelude Rows Blocks.
Open Scope Z_scope.

Section accumulator.
(** Values of columns; [none] is Python's [None]. *)
Context {V Sender Control Clock : Type} (none : V) `{!BlockLibrary V, !BlockLibraryLaws V, EqDecision Sender}.

(** A row's dictionary. *)
Abbreviation dict := (gmap string V).
Abbreviation Block := (Block V).

(** [Record] of [message.py]. *)
Record record := mkRecord {
  r_block : Block;
  r_num_rows : option Z;
  r_sender : option Sender;
  r_input_tag : option Z;
  r_timestamp : option Z;
  r_row_kinds : option (list (option RowKind));
  r_row_timestamps : option (list (option Z))
}.

(** [Record(block, num_rows)]. *)
Definition new_record (block : Block) (num_rows : option Z) : record :=
  mkRecord block num_rows None None None None None.

Definition is_columnar (r : record) : bool := bool_decide (is_Some (r_num_rows r)).

(** What arrives: a data record, or a barrier or control. *)
Inductive input := Data (r : record) | InControl (c : Control).

(** [runtime_info.batch_format]; sizes and the clock. *)
Context (batch_format : option string) (retained_size : record → Z) (timed_out_after : Clock → Clock → bool).

(** [self._batch_format], set by the constructor: [runtime_info.batch_format or "default"]. *)
Definition accumulator_format : option string :=
  match batch_format with
  | None | Some EmptyString => Some "default"%string
  | Some format => Some format
  end.

(** [_record_rows]. *)
Definition record_rows (r : record) : outcome nat :=
  match r_num_rows r with
  | None => Ok 1%nat
  | Some n => if n <? 0 then Err ValueError else Ok (Z.to_nat n)
  end.

Definition set_input_tag (t : option Z) (r : record) : record :=
  mkRecord (r_block r) (r_num_rows r) (r_sender r) t (r_timestamp r) (r_row_kinds r) (r_row_timestamps r).
Definition set_sender (s : option Sender) (r : record) : record :=
  mkRecord (r_block r) (r_num_rows r) s (r_input_tag r) (r_timestamp r) (r_row_kinds r) (r_row_timestamps r).
Definition set_timestamp (t : option Z) (r : record) : record :=
  mkRecord (r_block r) (r_num_rows r) (r_sender r) (r_input_tag r) t (r_row_kinds r) (r_row_timestamps r).
Definition set_row_kinds (k : option (list (option RowKind))) (r : record) : record :=
  mkRecord (r_block r) (r_num_rows r) (r_sender r) (r_input_tag r) (r_timestamp r) k (r_row_timestamps r).
Definition set_row_timestamps (t : option (list (option Z))) (r : record) : record :=
  mkRecord (r_block r) (r_num_rows r) (r_sender r) (r_input_tag r) (r_timestamp r) (r_row_kinds r) t.

(** [_inherit_metadata], for a non-empty list of sources. *)
Definition inherit_metadata (first : record) (records : list record) (merged : record) : record :=
  let merged := if forallb (λ r, bool_decide (r_input_tag r = r_input_tag first)) records
                then set_input_tag (r_input_tag first) merged else merged in
  let merged := if forallb (λ r, bool_decide (r_sender r = r_sender first)) records
                then set_sender (r_sender first) merged else merged in
  if forallb (λ r, bool_decide (r_timestamp r = r_timestamp first)) records
  then set_timestamp (r_timestamp first) merged else merged.

(** The kinds one source contributes in [_inherit_row_kinds]. *)
Definition source_kinds (r : record) : outcome (list (option RowKind)) :=
  rows ← record_rows r;
  match r_row_kinds r with
  | Some kinds => if bool_decide (length kinds = rows) then Ok kinds else Err ValueError
  | None =>
      match r_block r with
      | BRow row => if is_columnar r then Ok (replicate rows None)
                    else match row_changelog row with
                         | Some k => Ok [Some k]
                         | None => Ok (replicate rows None)
                         end
      | _ => Ok (replicate rows None)
      end
  end.

Definition inherit_row_kinds (records : list record) (merged : record) : outcome record :=
  kinds ← mapM_outcome source_kinds records;
  let kinds := mjoin kinds in
  Ok (if existsb (λ k, bool_decide (k ≠ None)) kinds then set_row_kinds (Some kinds) merged else merged).

(** [_validate_row_timestamps]. *)
Definition validate_row_timestamps (r : record) : outcome unit :=
  match r_row_timestamps r with
  | None => Ok ()
  | Some ts => rows ← record_rows r; if bool_decide (length ts = rows) then Ok () else Err ValueError
  end.

Definition source_timestamps (r : record) : outcome (list (option Z)) :=
  rows ← record_rows r;
  match r_row_timestamps r with
  | Some ts => _ ← validate_row_timestamps r; Ok ts
  | None => Ok (replicate rows (r_timestamp r))
  end.

Definition inherit_row_timestamps (records : list record) (merged : record) : outcome record :=
  timestamps ← mapM_outcome source_timestamps records;
  match mjoin timestamps with
  | [] => Ok merged
  | t :: ts =>
      if forallb (λ t', bool_decide (t' = t)) ts then Ok (set_timestamp t merged)
      else Ok (set_row_timestamps (Some (t :: ts)) (set_timestamp None merged))
  end.

(** The rows one source contributes to a mixed batch. *)
Definition source_rows (r : record) : outcome (list dict) :=
  if is_columnar r then rows ← record_rows r; Ok (take rows (block_rows (r_block r)))
  else match r_block r with
       | BNone => Err ValueError
       | BRow row => Ok [row_values row]
       | BTable _ rows => Ok rows
       end.

Definition format_columnar_block (b : Block) : outcome Block :=
  match b with
  | BNone => Err ValueError
  | BTable (Arrow _) _ => arrow_block_to_mapping none b accumulator_format
  | _ => Ok b
  end.

(** [_merge]. *)
Definition inherit_all (first : record) (records : list record) (merged : record) : outcome record :=
  merged ← inherit_row_kinds records (inherit_metadata first records merged);
  inherit_row_timestamps records merged.

Definition sum_rows (records : list record) : outcome nat :=
  rows ← mapM_outcome record_rows records; Ok (foldr Nat.add O rows).

Definition merge (records : list record) : outcome record :=
  match records with
  | [] => Err IndexError
  | first :: rest =>
      if bool_decide (rest = []) && is_columnar first then
        block ← format_columnar_block (r_block first);
        rows ← record_rows first;
        inherit_all first records (new_record block (Some (Z.of_nat rows)))
      else if forallb is_columnar records && same_columnar_schema (r_block <$> records) then
        block ← (block ← concat_blocks none (r_block <$> records); format_columnar_block block);
        rows ← sum_rows records;
        inherit_all first records (new_record block (Some (Z.of_nat rows)))
      else
        rows ← mapM_outcome source_rows records;
        let rows := mjoin rows in
        let contains_columnar := existsb is_columnar records in
        block ← rows_to_block none rows accumulator_format;
        inherit_all first records
          (new_record block (if contains_columnar then Some (Z.of_nat (length rows)) else None))
  end.

(** ** The accumulator *)

(** [InputBatchAccumulator]'s attributes; [_records] and [_record_sizes] move
    together and are one list. *)
Record Accumulator := mkAccumulator {
  ac_batch_enabled : bool;
  ac_batch_size : nat;
  ac_max_bytes : option Z;
  ac_has_timeout : bool;
  ac_records : list (record * Z);
  ac_buffered_rows : nat;
  ac_buffered_bytes : Z;
  ac_batch_started_at : option Clock
}.

(** [__init__], on the batching settings of [RuntimeInfo]. *)
Definition Accumulator_init (batch_size : option Z) (has_timeout : bool) (max_bytes : option pyarg) : outcome Accumulator :=
  let enabled := match batch_size with Some n => 0 <? n | None => false end in
  let size := match batch_size with Some n => if n =? 0 then 1%nat else Z.to_nat n | None => 1%nat end in
  match max_bytes with
  | None => Ok (mkAccumulator enabled size None has_timeout [] 0 0 None)
  | Some a =>
      match arg_int a with
      | None => Err TypeError
      | Some n => if n <=? 0 then Err ValueError
                  else Ok (mkAccumulator enabled size (Some n) has_timeout [] 0 0 None)
      end
  end.

Definition set_buffer (records : list (record * Z)) (rows : nat) (bytes : Z) (started : option Clock) (a : Accumulator)
    : Accumulator :=
  mkAccumulator (ac_batch_enabled a) (ac_batch_size a) (ac_max_bytes a) (ac_has_timeout a) records rows bytes started.

(** [_compatible_prefix_rows]: the rows before the input tag changes. *)
Fixpoint compatible_rows (first_tag : option Z) (records : list (record * Z)) : outcome nat :=
  match records with
  | [] => Ok O
  | (r, _) :: records =>
      if bool_decide (r_input_tag r = first_tag) then
        n ← record_rows r;
        m ← compatible_rows first_tag records;
        Ok (n + m)%nat
      else Ok O
  end.

(** The metadata of a slice of a columnar record. *)
Definition cut_metadata (r : record) (cut_kinds : list (option RowKind) → list (option RowKind))
    (cut_timestamps : list (option Z) → list (option Z)) (slice : record) : record :=
  let slice := inherit_metadata r [r] slice in
  let slice := match r_row_kinds r with Some k => set_row_kinds (Some (cut_kinds k)) slice | None => slice end in
  match r_row_timestamps r with Some t => set_row_timestamps (Some (cut_timestamps t)) slice | None => slice end.

(** [_take]: whole records while they fit, then a slice of a columnar one. *)
Fixpoint take_rows (records : list (record * Z)) (remaining : nat) (rows : nat) (bytes : Z)
    : outcome (list record * list (record * Z) * nat * Z) :=
  match remaining with
  | O => Ok ([], records, rows, bytes)
  | S _ =>
      match records with
      | [] => Err IndexError
      | (r, size) :: rest =>
          available ← record_rows r;
          if (available <=? remaining)%nat then
            '(taken, rest, rows, bytes) ← take_rows rest (remaining - available) (rows - available) (bytes - size);
            Ok (r :: taken, rest, rows, bytes)
          else if negb (is_columnar r) then Err AssertionError
          else
            _ ← validate_row_timestamps r;
            let prefix := cut_metadata r (take remaining) (take remaining)
              (new_record (slice_block_rows (r_block r) 0 remaining) (Some (Z.of_nat remaining))) in
            let suffix := cut_metadata r (drop remaining) (drop remaining)
              (new_record (slice_block_rows (r_block r) remaining available) (Some (Z.of_nat (available - remaining)))) in
            let suffix_size := retained_size suffix in
            Ok ([prefix], (suffix, suffix_size) :: rest, (rows - remaining)%nat, bytes + suffix_size - size)
      end
  end.

(** The loop of [_drain]; one round takes at least one row, so the number of
    buffered rows is enough fuel. *)
Fixpoint drain_loop (fuel : nat) (only_full : bool) (a : Accumulator) : outcome (list record * Accumulator) :=
  match fuel with
  | O => Ok ([], a)
  | S fuel =>
      if (ac_buffered_rows a =? 0)%nat || only_full && (ac_buffered_rows a <? ac_batch_size a)%nat then Ok ([], a)
      else
        match ac_records a with
        | [] => Err IndexError
        | (first, _) :: _ =>
            compatible ← compatible_rows (r_input_tag first) (ac_records a);
            '(taken, records, rows, bytes) ←
              take_rows (ac_records a) (Nat.min (ac_batch_size a) compatible) (ac_buffered_rows a) (ac_buffered_bytes a);
            batch ← merge taken;
            '(batches, a) ← drain_loop fuel only_full (set_buffer records rows bytes (ac_batch_started_at a) a);
            Ok (batch :: batches, a)
        end
  end.

(** [_drain]; [now] is its read of the clock. *)
Definition drain (only_full : bool) (now : Clock) (a : Accumulator) : outcome (list record * Accumulator) :=
  '(emitted, a) ← drain_loop (ac_buffered_rows a) only_full a;
  Ok (emitted, set_buffer (ac_records a) (ac_buffered_rows a) (ac_buffered_bytes a)
        (if (ac_buffered_rows a =? 0)%nat then None else Some now) a).

(** [_timed_out]. *)
Definition timed_out (now : Clock) (a : Accumulator) : bool :=
  ac_has_timeout a && match ac_batch_started_at a with None => false | Some s => timed_out_after s now end.

Definition flush (force : bool) (now_timeout now_drain : Clock) (a : Accumulator) : outcome (list record * Accumulator) :=
  if negb (ac_batch_enabled a) || (ac_buffered_rows a =? 0)%nat then Ok ([], a)
  else if negb force && (ac_buffered_rows a <? ac_batch_size a)%nat && negb (timed_out now_timeout a) then Ok ([], a)
  else drain (negb force) now_drain a.

(** [_row_block] of row [index]. *)
Definition row_block (r : record) (index : nat) : outcome Block :=
  row ← of_option IndexError (block_rows (r_block r) !! index);
  match r_row_kinds r with
  | None => Ok (BRow (mkRow row None))
  | Some kinds =>
      rows ← record_rows r;
      if negb (bool_decide (length kinds = rows)) then Err ValueError
      else
        kind ← of_option IndexError (kinds !! index);
        match kind with
        | None => Ok (BRow (mkRow row None))
        | Some k => Ok (BRow (mkRow row (Some k)))
        end
  end.

(** The row record [_unbatched] makes of row [index]. *)
Definition unbatched_row (r : record) (index : nat) : outcome record :=
  block ← row_block r index;
  let row := inherit_metadata r [r] (new_record block None) in
  match r_row_timestamps r with
  | None => Ok row
  | Some ts => t ← of_option IndexError (ts !! index); Ok (set_timestamp t row)
  end.

Definition unbatched (r : record) : outcome (list record) :=
  if negb (is_columnar r) then Ok [r]
  else
    rows ← record_rows r;
    _ ← validate_row_timestamps r;
    mapM_outcome (unbatched_row r) (seq 0 rows).

(** [accept]. *)
Definition accept (now_start now_timeout now_drain : Clock) (item : input) (a : Accumulator)
    : outcome (list input * Accumulator) :=
  if negb (ac_batch_enabled a) then
    match item with
    | InControl c => Ok ([InControl c], a)
    | Data r => rs ← unbatched r; Ok (map Data rs, a)
    end
  else
    match item with
    | InControl c =>
        '(batches, a) ← flush true now_timeout now_drain a;
        Ok (map Data batches ++ [InControl c], a)
    | Data r =>
        row_count ← record_rows r;
        if (row_count =? 0)%nat then Ok ([], a)
        else
          let record_size := retained_size r in
          '(emitted, a) ←
            match last (ac_records a) with
            | Some (l, _) => if bool_decide (r_input_tag r = r_input_tag l) then Ok ([], a) else drain false now_drain a
            | None => Ok ([], a)
            end;
          '(emitted2, a) ←
            match ac_records a, ac_max_bytes a with
            | _ :: _, Some m => if m <? ac_buffered_bytes a + record_size then drain false now_drain a else Ok ([], a)
            | _, _ => Ok ([], a)
            end;
          let a := set_buffer (ac_records a ++ [(r, record_size)]) (ac_buffered_rows a + row_count)
                     (ac_buffered_bytes a + record_size)
                     (Some (default now_start (ac_batch_started_at a))) a in
          '(emitted3, a) ←
            (if match ac_max_bytes a with Some m => m <=? ac_buffered_bytes a | None => false end then drain false now_drain a
             else if (ac_batch_size a <=? ac_buffered_rows a)%nat then drain true now_drain a
             else if timed_out now_timeout a then flush true now_timeout now_drain a
             else Ok ([], a));
          Ok (map Data (emitted ++ emitted2 ++ emitted3), a)
    end.

(** ** The logical rows of a record *)

(** One logical row: its values and its metadata. *)
Record lrow := mkLrow { lr_values : dict; lr_kind : option RowKind; lr_timestamp : option Z; lr_tag : option Z }.

Definition row_count (r : record) : nat := length (block_rows (r_block r)).

Definition block_kind (r : record) : option RowKind :=
  match r_block r with BRow row => row_changelog row | _ => None end.

Definition kinds_of (r : record) : list (option RowKind) :=
  default (replicate (row_count r) (block_kind r)) (r_row_kinds r).

Definition timestamps_of (r : record) : list (option Z) :=
  default (replicate (row_count r) (r_timestamp r)) (r_row_timestamps r).

Definition logical_rows (rows : list dict) (kinds : list (option RowKind)) (ts : list (option Z)) (tag : option Z) : list lrow :=
  zip_with (λ p t, mkLrow p.1 p.2 t tag) (zip rows kinds) ts.

Definition logical (r : record) : list lrow :=
  logical_rows (block_rows (r_block r)) (kinds_of r) (timestamps_of r) (r_input_tag r).

(** Metadata lists have one entry per row. *)
Definition metadata_ok (r : record) : Prop :=
  length (kinds_of r) = row_count r ∧ length (timestamps_of r) = row_count r.

(** The records that arrive: row-shaped, or columnar with its number of rows. *)
Definition record_ok (r : record) : Prop :=
  match r_block r with
  | BNone => False
  | BRow _ => r_num_rows r = None
  | BTable _ rows => r_num_rows r = Some (Z.of_nat (length rows)) ∧ table_ok (r_block r)
  end ∧ metadata_ok r.

Lemma logical_rows_app r1 r2 k1 k2 t1 t2 tag :
  length k1 = length r1 → length t1 = length r1 →
  logical_rows (r1 ++ r2) (k1 ++ k2) (t1 ++ t2) tag = logical_rows r1 k1 t1 tag ++ logical_rows r2 k2 t2 tag.
Proof.
  intros Hk Ht. unfold logical_rows. rewrite zip_with_app by done.
  rewrite zip_with_app; [done|]. rewrite length_zip_with. lia.
Qed.

Lemma length_logical r : metadata_ok r → length (logical r) = row_count r.
Proof.
  intros [Hk Ht]. unfold logical, logical_rows. rewrite !length_zip_with, Hk, Ht. unfold row_count. lia.
Qed.

Lemma record_rows_ok r : record_ok r → record_rows r = Ok (row_count r) ∧ r_block r ≠ BNone.
Proof.
  intros [Hb _]. unfold record_rows, row_count. destruct (r_block r) as [|row|layout rows]; [done|by rewrite Hb|].
  rewrite (proj1 Hb), (proj2 (Z.ltb_ge _ _)) by lia. by rewrite Nat2Z.id.
Qed.

Lemma source_kinds_ok r : record_ok r → source_kinds r = Ok (kinds_of r).
Proof.
  intros Hr. pose proof Hr as [Hb [Hk _]]. unfold source_kinds. rewrite (proj1 (record_rows_ok _ Hr)), bind_Ok.
  unfold kinds_of in *. destruct (r_row_kinds r) as [kinds|]; cbn in *; [by rewrite bool_decide_true|].
  unfold is_columnar, block_kind, row_count in *. destruct (r_block r) as [|row|rows]; [done| |done].
  rewrite Hb. cbn. by destruct (row_changelog row).
Qed.

Lemma source_timestamps_ok r : record_ok r → source_timestamps r = Ok (timestamps_of r).
Proof.
  intros Hr. pose proof Hr as [Hb [_ Ht]]. unfold source_timestamps, validate_row_timestamps.
  rewrite (proj1 (record_rows_ok _ Hr)), bind_Ok. unfold timestamps_of in *.
  destruct (r_row_timestamps r) as [ts|]; cbn in *; [|done]. by rewrite bool_decide_true.
Qed.

Lemma source_rows_ok r : record_ok r → source_rows r = Ok (block_rows (r_block r)).
Proof.
  intros Hr. unfold source_rows, is_columnar. rewrite (proj1 (record_rows_ok _ Hr)), bind_Ok.
  pose proof Hr as [Hb _]. unfold row_count. destruct (r_block r) as [|row|layout rows]; [done| |]; [by rewrite Hb|].
  rewrite (proj1 Hb). cbn. by rewrite take_ge.
Qed.

(** ** Merging *)

Lemma all_none_replicate {A} (l : list (option A)) : (∀ x, x ∈ l → x = None) → l = replicate (length l) None.
Proof.
  induction l as [|x l IH]; intros Hl; [done|]. cbn. rewrite (Hl x) by by left. f_equal. apply IH. intros; apply Hl; by right.
Qed.

Lemma all_same_replicate {A} (x : A) l : (∀ y, y ∈ l → y = x) → l = replicate (length l) x.
Proof.
  induction l as [|y l IH]; intros Hl; [done|]. cbn. rewrite (Hl y) by by left. f_equal. apply IH. intros; apply Hl; by right.
Qed.

Lemma length_mjoin_sources {A} (f : record → list A) records :
  (∀ r, r ∈ records → length (f r) = row_count r) →
  length (mjoin (f <$> records)) = length (mjoin ((λ r, block_rows (r_block r)) <$> records)).
Proof.
  induction records as [|r records IH]; intros Hf; [done|]. cbn. rewrite !length_app, (Hf r) by by left.
  unfold row_count. f_equal. apply IH. intros; apply Hf; by right.
Qed.

(** The metadata of a merged batch is that of its sources, row by row. *)
Lemma inherit_all_ok first records block n tag :
  records ≠ [] → (∀ r, r ∈ records → record_ok r) → first ∈ records → (∀ r, r ∈ records → r_input_tag r = tag) →
  is_table block → length (block_rows block) = length (mjoin ((λ r, block_rows (r_block r)) <$> records)) →
  ∃ m, inherit_all first records (new_record block n) = Ok m ∧
    r_block m = block ∧ r_num_rows m = n ∧ r_input_tag m = tag ∧
    kinds_of m = mjoin (kinds_of <$> records) ∧ timestamps_of m = mjoin (timestamps_of <$> records).
Proof.
  intros Hne Hok Hfirst Htag Htable Hlen. destruct block as [|?|layout rows]; [done..|]. cbn [block_rows] in Hlen. unfold inherit_all, inherit_row_kinds, inherit_row_timestamps.
  rewrite (mapM_outcome_total source_kinds kinds_of) by (intros; apply source_kinds_ok; auto). rewrite bind_Ok.
  rewrite (mapM_outcome_total source_timestamps timestamps_of) by (intros; apply source_timestamps_ok; auto). rewrite !bind_Ok.
  set (m0 := inherit_metadata first records (new_record (BTable layout rows) n)).
  assert (Hm0 : r_block m0 = BTable layout rows ∧ r_num_rows m0 = n ∧ r_input_tag m0 = tag ∧ r_row_kinds m0 = None ∧ r_row_timestamps m0 = None).
  { assert (Hall : forallb (λ r, bool_decide (r_input_tag r = r_input_tag first)) records = true).
    { apply forallb_True', Forall_forall. intros r Hr. apply bool_decide_eq_true. rewrite !Htag by done. done. }
    unfold m0, inherit_metadata. rewrite Hall.
    destruct (forallb (λ r, bool_decide (r_sender r = r_sender first)) records),
      (forallb (λ r, bool_decide (r_timestamp r = r_timestamp first)) records); cbn; rewrite (Htag first) by done; done. }
  destruct Hm0 as (Hb & Hn & Ht & Hk0 & Hts0).
  assert (Hkl : length (mjoin (kinds_of <$> records)) = length rows).
  { rewrite Hlen. apply length_mjoin_sources. intros r Hr. apply Hok in Hr as [_ [? _]]. done. }
  assert (Htl : length (mjoin (timestamps_of <$> records)) = length rows).
  { rewrite Hlen. apply length_mjoin_sources. intros r Hr. apply Hok in Hr as [_ [_ ?]]. done. }
  set (m1 := if existsb _ (mjoin (kinds_of <$> records)) then _ else m0).
  assert (Hm1 : r_block m1 = BTable layout rows ∧ r_num_rows m1 = n ∧ r_input_tag m1 = tag ∧
    kinds_of m1 = mjoin (kinds_of <$> records) ∧ r_row_timestamps m1 = None).
  { unfold m1. destruct (existsb _ _) eqn:He; cbn; [done|]. split_and!; [done|done|done| |done].
    unfold kinds_of, row_count, block_kind at 1. rewrite Hk0, Hb. cbn.
    change (replicate (length rows) None = mjoin (kinds_of <$> records)).
    rewrite <-Hkl. symmetry. apply all_none_replicate. intros x Hx.
    destruct x as [k|]; [|done]. exfalso.
    assert (existsb (λ k, bool_decide (k ≠ None)) (mjoin (kinds_of <$> records)) = true); [|congruence].
    apply existsb_True'. by exists (Some k). }
  destruct Hm1 as (Hb1 & Hn1 & Ht1 & Hk1 & Hts1).
  destruct (mjoin (timestamps_of <$> records)) as [|t ts] eqn:Ets.
  - exists m1. split_and!; try done. unfold timestamps_of, row_count. rewrite Hts1, Hb1. cbn. cbn in Htl. by rewrite <-Htl.
  - destruct (forallb _ ts) eqn:Eall.
    + eexists. split; [done|]. split_and!; try done. unfold timestamps_of, row_count; cbn. rewrite Hts1, Hb1. cbn.
      rewrite <-Htl. cbn. f_equal. symmetry. apply all_same_replicate. intros y Hy.
      apply forallb_True' in Eall. rewrite Forall_forall in Eall.
      specialize (Eall _ Hy). by apply bool_decide_eq_true in Eall.
    + eexists. split; [done|]. split_and!; try done.
Qed.

Lemma logical_mjoin records tag :
  (∀ r, r ∈ records → record_ok r) → (∀ r, r ∈ records → r_input_tag r = tag) →
  logical_rows (mjoin ((λ r, block_rows (r_block r)) <$> records)) (mjoin (kinds_of <$> records))
    (mjoin (timestamps_of <$> records)) tag = mjoin (logical <$> records).
Proof.
  induction records as [|r records IH]; intros Hok Htag; [done|]. rewrite !fmap_cons. cbn [mjoin list_join].
  destruct (Hok r) as [_ [Hk Ht]]; [by left|]. rewrite logical_rows_app by done. f_equal.
  - unfold logical. by rewrite (Htag r) by by left.
  - apply IH; intros; [apply Hok|apply Htag]; by right.
Qed.

(** *** What a batch keeps of its rows *)

(** The values of a column in a run of logical rows. *)
Definition lcolumn (c : string) (ls : list lrow) : list V := column_values none c (lr_values <$> ls).

(** Everything but the values. *)
Definition same_metadata (x y : lrow) : Prop :=
  lr_kind x = lr_kind y ∧ lr_timestamp x = lr_timestamp y ∧ lr_tag x = lr_tag y.

(** A batch stands for a run of rows: as many rows, with their metadata, each column
    converted as a whole. *)
Definition batch_of (m : record) (ls : list lrow) : Prop :=
  Forall2 same_metadata (logical m) ls ∧
  ∀ c, column_converted accumulator_format (lcolumn c ls) (lcolumn c (logical m)).

(** An exception of a conversion of a column of some consecutive rows. *)
Definition raised (ls : list lrow) (e : exn) : Prop :=
  ∃ pre seg post c, ls = pre ++ seg ++ post ∧ column_raises accumulator_format (lcolumn c seg) e.

Lemma logical_rows_values rows kinds ts tag :
  length kinds = length rows → length ts = length rows → lr_values <$> logical_rows rows kinds ts tag = rows.
Proof.
  intros Hk Ht. unfold logical_rows. revert kinds ts Hk Ht.
  induction rows as [|row rows IH]; intros [|k kinds] [|t ts] Hk Ht; try done. cbn. f_equal. apply IH; by injection Hk; injection Ht.
Qed.

Lemma logical_rows_metadata rows rows' kinds ts tag :
  length rows = length rows' → Forall2 same_metadata (logical_rows rows kinds ts tag) (logical_rows rows' kinds ts tag).
Proof.
  intros Hs. apply Forall2_same_length in Hs.
  revert kinds ts. induction Hs as [|x y rows rows' Hxy Hs IH]; intros [|k kinds] [|t ts]; cbn; try constructor; [done|apply IH].
Qed.

Lemma record_table r : record_ok r → is_table (r_block r) → table_ok (r_block r).
Proof. intros [Hr _]. by destruct (r_block r) as [|?|layout rows]; [| |destruct Hr]. Qed.

(** [_merge] on compatible records: a batch of all their rows, or the exception of a
    conversion. *)
Lemma merge_spec records tag :
  records ≠ [] → (∀ r, r ∈ records → record_ok r) → (∀ r, r ∈ records → r_input_tag r = tag) →
  match merge records with
  | Ok m => batch_of m (mjoin (logical <$> records))
  | Err e => ∃ c, column_raises accumulator_format (lcolumn c (mjoin (logical <$> records))) e
  end.
Proof.
  intros Hne Hok Htag. destruct records as [|first rest]; [done|]. set (records := first :: rest) in *.
  assert (Hfirst : first ∈ records) by by left.
  set (rows := mjoin ((λ r, block_rows (r_block r)) <$> records)).
  set (ls := mjoin (logical <$> records)).
  assert (Hkl : length (mjoin (kinds_of <$> records)) = length rows).
  { apply length_mjoin_sources. intros r Hr. apply Hok in Hr as [_ [? _]]. done. }
  assert (Htl : length (mjoin (timestamps_of <$> records)) = length rows).
  { apply length_mjoin_sources. intros r Hr. apply Hok in Hr as [_ [_ ?]]. done. }
  assert (Hls : ∀ c, lcolumn c ls = column_values none c rows).
  { intros c. unfold lcolumn, ls. rewrite <-(logical_mjoin _ tag) by done. by rewrite logical_rows_values. }
  assert (Hbuild : ∀ o n, makes none accumulator_format (column_converted accumulator_format) rows o →
    match (block ← o; inherit_all first records (new_record block n)) with
    | Ok m => batch_of m ls | Err e => ∃ c, column_raises accumulator_format (lcolumn c ls) e end).
  { intros [block|e] n; [|intros [c Hc]; exists c; by rewrite Hls]. intros (Ht & _ & Hlen & Hcols). rewrite bind_Ok.
    destruct (inherit_all_ok first records block n tag) as (m & -> & Hb & _ & Htm & Hk & Hts); try done.
    assert (logical m = logical_rows (block_rows block) (mjoin (kinds_of <$> records)) (mjoin (timestamps_of <$> records)) tag) as Hm
      by (unfold logical; by rewrite Hb, Hk, Hts, Htm).
    split; [|intros c; rewrite Hls]; rewrite Hm.
    - unfold ls. rewrite <-(logical_mjoin _ tag) by done. by apply logical_rows_metadata.
    - unfold lcolumn. rewrite logical_rows_values by congruence. apply Hcols. }
  assert (Hformat : ∀ b, made_of none concatenated rows b →
    makes none accumulator_format (column_converted accumulator_format) rows (format_columnar_block b)).
  { intros b Hb. unfold format_columnar_block. pose proof Hb as [Ht _].
    destruct b as [|?|[fields|fields] rows']; [done..|by apply (arrow_block_makes none)|by apply made_converted]. }
  unfold merge. cbn [records]. fold records. destruct (bool_decide (rest = []) && is_columnar first) eqn:E1.
  - apply andb_true_iff in E1 as [->%bool_decide_eq_true E1]. pose proof (Hok first Hfirst) as [Hb _].
    unfold is_columnar in E1. apply bool_decide_eq_true in E1.
    assert (is_table (r_block first)) as Ht.
    { destruct (r_block first) as [|row|layout rows0]; [done|by rewrite Hb in E1; destruct E1|done]. }
    rewrite (proj1 (record_rows_ok _ (Hok _ Hfirst))). apply Hbuild, Hformat. unfold rows. cbn. rewrite app_nil_r.
    split_and!; [done|by apply record_table, Ht; apply Hok|done|]. intros c. by left.
  - destruct (forallb is_columnar records && same_columnar_schema (r_block <$> records)) eqn:E2.
    + unfold sum_rows. rewrite (mapM_outcome_total record_rows row_count) by (intros; by apply record_rows_ok, Hok).
      apply andb_true_iff in E2 as [_ E2]. apply Hbuild.
      assert (makes none accumulator_format concatenated rows (concat_blocks none (r_block <$> records))) as Hc.
      { unfold rows. rewrite (list_fmap_compose r_block block_rows).
        apply (concat_blocks_makes none accumulator_format _ (fields_of (r_block first)).*1); [done|].
        apply same_columnar_schema_names; [done..|]. intros b (r & -> & Hr)%list_elem_of_fmap. by apply record_table, Hok. }
      destruct (concat_blocks none (r_block <$> records)) as [b|e]; [|done]. rewrite bind_Ok. by apply Hformat.
    + rewrite (mapM_outcome_total source_rows (λ r, block_rows (r_block r))) by (intros; by apply source_rows_ok, Hok).
      rewrite bind_Ok. apply Hbuild, (rows_to_block_makes none).
Qed.

(** ** Taking rows from the buffer *)

Definition buffer_logical (l : list (record * Z)) : list lrow := mjoin (logical <$> l.*1).
Definition buffer_rows (l : list (record * Z)) : nat := foldr (λ x n, row_count x.1 + n)%nat O l.
Definition buffer_bytes (l : list (record * Z)) : Z := foldr (λ x n, x.2 + n) 0 l.

Definition buffered_ok (l : list (record * Z)) : Prop := ∀ x, x ∈ l → record_ok x.1 ∧ (0 < row_count x.1)%nat.

(** The record [_take] makes of the rows [from] up to [upto] of a columnar record. *)
Definition slice_record (r : record) (kinds : option (list (option RowKind))) (ts : option (list (option Z)))
    (from upto : nat) : record :=
  mkRecord (slice_block_rows (r_block r) from upto) (Some (Z.of_nat (upto - from))) (r_sender r) (r_input_tag r)
    (r_timestamp r) kinds ts.

Lemma slice_record_ok r from upto kinds ts :
  record_ok r → is_columnar r = true → (from ≤ upto ≤ row_count r)%nat →
  kinds = (λ k, take (upto - from) (drop from k)) <$> r_row_kinds r →
  ts = (λ t, take (upto - from) (drop from t)) <$> r_row_timestamps r →
  record_ok (slice_record r kinds ts from upto) ∧
  row_count (slice_record r kinds ts from upto) = (upto - from)%nat ∧
  logical (slice_record r kinds ts from upto) = take (upto - from) (drop from (logical r)).
Proof.
  intros [Hb [Hk Ht]] Hcol Hle -> ->. unfold is_columnar in Hcol. apply bool_decide_eq_true in Hcol.
  assert (Hbt : ∃ layout rows, r_block r = BTable layout rows ∧ table_ok (r_block r)).
  { destruct (r_block r) as [|row|layout rows]; [done| |destruct Hb; eauto]. rewrite Hb in Hcol. by destruct Hcol. }
  destruct Hbt as (layout & rows & Eb & Hfields). set (r' := slice_record r _ _ from upto).
  assert (Hcount : row_count r' = (upto - from)%nat).
  { unfold row_count in *. cbn. rewrite Eb in *. cbn in *. rewrite length_take, length_drop. lia. }
  assert (Hkr : kinds_of r' = take (upto - from) (drop from (kinds_of r))).
  { unfold kinds_of. rewrite Hcount. cbn. destruct (r_row_kinds r); [done|]. cbn. unfold block_kind. cbn. rewrite Eb.
    rewrite drop_replicate, take_replicate. f_equal. lia. }
  assert (Htr : timestamps_of r' = take (upto - from) (drop from (timestamps_of r))).
  { unfold timestamps_of. rewrite Hcount. cbn. destruct (r_row_timestamps r); [done|]. cbn.
    rewrite drop_replicate, take_replicate. f_equal. lia. }
  split_and!; [|done|].
  - split.
    { change (r_num_rows r' = Some (Z.of_nat (row_count r')) ∧ table_ok (slice_block_rows (r_block r) from upto)).
      split; [by rewrite Hcount|]. rewrite Eb in *. intros row c Hrow. apply (Hfields row c). cbn in *.
      rewrite <-(take_drop from rows). apply elem_of_app. right. rewrite <-(take_drop (upto - from) (drop from rows)).
      apply elem_of_app. by left. }
    unfold metadata_ok. rewrite Hcount, Hkr, Htr, !length_take, !length_drop, Hk, Ht. lia.
  - unfold logical. rewrite Hkr, Htr. unfold logical_rows. cbn.
    by rewrite zip_with_drop, zip_with_take, zip_with_drop, zip_with_take.
Qed.

Lemma inherit_self r m :
  inherit_metadata r [r] m = set_timestamp (r_timestamp r) (set_sender (r_sender r) (set_input_tag (r_input_tag r) m)).
Proof. unfold inherit_metadata. cbn. by rewrite !bool_decide_true. Qed.

Lemma cut_metadata_new r cut_k cut_t b n :
  cut_metadata r cut_k cut_t (new_record b n) =
  mkRecord b n (r_sender r) (r_input_tag r) (r_timestamp r) (cut_k <$> r_row_kinds r) (cut_t <$> r_row_timestamps r).
Proof. unfold cut_metadata. rewrite inherit_self. by destruct (r_row_kinds r), (r_row_timestamps r). Qed.

Lemma buffer_rows_cons r s l : buffer_rows ((r, s) :: l) = (row_count r + buffer_rows l)%nat.
Proof. done. Qed.

Lemma buffer_logical_cons r s l : buffer_logical ((r, s) :: l) = logical r ++ buffer_logical l.
Proof. done. Qed.

Lemma buffer_bytes_cons r s l : buffer_bytes ((r, s) :: l) = s + buffer_bytes l.
Proof. done. Qed.

Lemma length_buffer_logical l : buffered_ok l → length (buffer_logical l) = buffer_rows l.
Proof.
  induction l as [|[r s] l IH]; intros Hok; [done|].
  rewrite buffer_rows_cons, buffer_logical_cons, length_app.
  destruct (Hok (r, s)) as [[_ Hm] _]; [by left|]. rewrite length_logical by done. f_equal. apply IH.
  intros x Hx. apply Hok. by right.
Qed.

Lemma take_rows_ok records n bytes :
  buffered_ok records → (n ≤ buffer_rows records)%nat →
  ∃ taken rest,
    take_rows records n (buffer_rows records) bytes =
      Ok (taken, rest, buffer_rows rest, bytes - buffer_bytes records + buffer_bytes rest) ∧
    (∀ r, r ∈ taken → record_ok r) ∧ buffered_ok rest ∧
    buffer_logical records = mjoin (logical <$> taken) ++ buffer_logical rest ∧
    length (mjoin (logical <$> taken)) = n ∧ buffer_rows rest = (buffer_rows records - n)%nat ∧
    (∀ tag m, compatible_rows tag records = Ok m → (n ≤ m)%nat → ∀ r, r ∈ taken → r_input_tag r = tag).
Proof.
  revert n bytes; induction records as [|[r size] records IH]; intros n bytes Hok Hn.
  { exists [], []. cbn in Hn. replace n with O by lia. cbn. split_and!; try done; try lia.
    - do 2 f_equal. lia.
    - by intros r ?%not_elem_of_nil.
    - by intros tag m _ _ r ?%not_elem_of_nil. }
  destruct n as [|n'].
  { exists [], ((r, size) :: records). split_and!; try done; try lia.
    - cbn [take_rows]. do 2 f_equal. lia.
    - by intros r' ?%not_elem_of_nil.
    - by intros tag m _ _ r' ?%not_elem_of_nil. }
  set (n := S n') in *. destruct (Hok (r, size)) as [Hr Hpos]; [by left|]. cbn in Hr, Hpos.
  assert (Hok' : buffered_ok records) by (intros x Hx; apply Hok; by right).
  cbn [take_rows]. unfold n at 1. fold n. rewrite (proj1 (record_rows_ok _ Hr)), bind_Ok.
  assert (Htag : ∀ tag m, compatible_rows tag ((r, size) :: records) = Ok m → (n ≤ m)%nat →
    r_input_tag r = tag ∧ ∃ m', compatible_rows tag records = Ok m' ∧ m = (row_count r + m')%nat).
  { intros tag m Hc Hm. cbn in Hc. case_bool_decide as Ht; [|injection Hc as <-; unfold n in Hm; lia].
    rewrite (proj1 (record_rows_ok _ Hr)), bind_Ok in Hc. apply bind_Ok_inv in Hc as (m' & Hc & Hm'). injection Hm' as <-. eauto. }
  destruct (Nat.leb_spec (row_count r) n) as [Hle|Hlt].
  - assert (Hn' : (n - row_count r ≤ buffer_rows records)%nat) by (rewrite buffer_rows_cons in Hn; lia).
    destruct (IH (n - row_count r)%nat (bytes - size) Hok' Hn') as (taken & rest & Hrun & Htk & Hrest & Hlog & Hlen & Hrows & Hc).
    exists (r :: taken), rest.
    assert (buffer_rows ((r, size) :: records) - row_count r = buffer_rows records)%nat as -> by (rewrite buffer_rows_cons; lia).
    rewrite Hrun, bind_Ok. split_and!.
    + f_equal. f_equal. rewrite buffer_bytes_cons. lia.
    + intros r' [->|Hin]%elem_of_cons; auto.
    + done.
    + rewrite buffer_logical_cons, Hlog, app_assoc. done.
    + change (length (logical r ++ mjoin (logical <$> taken)) = n). rewrite length_app, length_logical by apply Hr. lia.
    + rewrite buffer_rows_cons. lia.
    + intros tag m Hm Hnm r' Hr'. destruct (Htag _ _ Hm Hnm) as (Ht & m' & Hm' & ->).
      apply elem_of_cons in Hr' as [->|Hin]; [done|]. eapply Hc; [exact Hm'|lia|done].
  - assert (Hcol : is_columnar r = true).
    { pose proof Hr as [Hb _]. unfold is_columnar. apply bool_decide_eq_true. unfold row_count in Hlt.
      destruct (r_block r); [done|cbn in Hlt; unfold n in Hlt; lia|]. rewrite (proj1 Hb). eauto. }
    rewrite Hcol. cbn [negb].
    assert (Hv : validate_row_timestamps r = Ok ()).
    { unfold validate_row_timestamps. pose proof Hr as [_ [_ Ht]]. unfold timestamps_of in Ht.
      destruct (r_row_timestamps r); [|done]. rewrite (proj1 (record_rows_ok _ Hr)), bind_Ok. by rewrite bool_decide_true. }
    rewrite Hv, bind_Ok.
    set (kp := take n <$> r_row_kinds r). set (tp := take n <$> r_row_timestamps r).
    set (ks := drop n <$> r_row_kinds r). set (tsf := drop n <$> r_row_timestamps r).
    destruct (slice_record_ok r 0 n kp tp Hr Hcol ltac:(lia)) as (Hpok & Hpc & Hpl).
    { unfold kp. rewrite Nat.sub_0_r. done. } { unfold tp. rewrite Nat.sub_0_r. done. }
    pose proof Hr as [_ [Hkl Htl]].
    destruct (slice_record_ok r n (row_count r) ks tsf Hr Hcol ltac:(lia)) as (Hsok & Hsc & Hsl).
    { unfold ks. destruct (r_row_kinds r) as [k|] eqn:Ek; [|done]. cbn. f_equal. symmetry. apply take_ge.
      unfold kinds_of in Hkl. rewrite Ek in Hkl. cbn in Hkl. rewrite length_drop. lia. }
    { unfold tsf. destruct (r_row_timestamps r) as [t|] eqn:Et; [|done]. cbn. f_equal. symmetry. apply take_ge.
      unfold timestamps_of in Htl. rewrite Et in Htl. cbn in Htl. rewrite length_drop. lia. }
    assert (Hlr : length (logical r) = row_count r) by (apply length_logical, Hr).
    rewrite Nat.sub_0_r, drop_0 in Hpl. rewrite (take_ge (drop n (logical r))) in Hsl by (rewrite length_drop; lia).
    set (prefix := slice_record r kp tp 0 n) in *. set (suffix := slice_record r ks tsf n (row_count r)) in *.
    exists [prefix], ((suffix, retained_size suffix) :: records). split_and!.
    + rewrite !cut_metadata_new. fold kp tp ks tsf. unfold prefix, suffix, slice_record. rewrite Nat.sub_0_r.
      do 2 f_equal; [f_equal|]; rewrite ?buffer_rows_cons, ?buffer_bytes_cons; [|lia].
      change (row_count r + buffer_rows records - n = row_count suffix + buffer_rows records)%nat. lia.
    + by intros r' ->%list_elem_of_singleton.
    + intros x [->|Hx]%elem_of_cons; [|auto]. split; [done|]. change (0 < row_count suffix)%nat. lia.
    + rewrite !buffer_logical_cons. cbn [mjoin list_join fmap list_fmap].
      rewrite app_nil_r, Hpl, Hsl, app_assoc, take_drop. done.
    + change (length (logical prefix ++ []) = n). rewrite app_nil_r, Hpl, length_take. lia.
    + rewrite !buffer_rows_cons, Hsc. lia.
    + intros tag m Hm Hnm r' ->%list_elem_of_singleton. destruct (Htag _ _ Hm Hnm) as [<- _]. done.
Qed.

(** ** Draining *)

Definition accumulator_ok (a : Accumulator) : Prop :=
  buffered_ok (ac_records a) ∧ ac_buffered_rows a = buffer_rows (ac_records a) ∧
  ac_buffered_bytes a = buffer_bytes (ac_records a) ∧ (1 ≤ ac_batch_size a)%nat.

Definition same_settings (a a' : Accumulator) : Prop :=
  ac_batch_enabled a' = ac_batch_enabled a ∧ ac_batch_size a' = ac_batch_size a ∧
  ac_max_bytes a' = ac_max_bytes a ∧ ac_has_timeout a' = ac_has_timeout a.

Definition batch_ok (size : nat) (r : record) : Prop := (0 < length (logical r) ≤ size)%nat.

Lemma compatible_rows_ok tag l :
  buffered_ok l → ∃ m, compatible_rows tag l = Ok m ∧ (m ≤ buffer_rows l)%nat ∧
    (∀ r s l', l = (r, s) :: l' → r_input_tag r = tag → (0 < m)%nat).
Proof.
  induction l as [|[r s] l IH]; intros Hok; cbn [compatible_rows]; [exists O; by split_and!|].
  destruct (Hok (r, s)) as [Hr Hpos]; [by left|]. cbn in Hr, Hpos.
  case_bool_decide as Ht.
  - destruct IH as (m & -> & Hm & _); [intros x Hx; apply Hok; by right|].
    rewrite (proj1 (record_rows_ok _ Hr)), !bind_Ok. eexists. split; [done|]. rewrite buffer_rows_cons.
    split; [lia|]. intros. lia.
  - exists O. split_and!; [done|lia|]. intros r' s' l' [= <- <- <-] ?. done.
Qed.

(** What a drain establishes: the batches, then the buffer, are the rows it held. *)
Definition drained (only_full : bool) (a : Accumulator) (emitted : list record) (a' : Accumulator) : Prop :=
  accumulator_ok a' ∧ same_settings a a' ∧
  (∃ parts, Forall2 batch_of emitted parts ∧ mjoin parts ++ buffer_logical (ac_records a') = buffer_logical (ac_records a)) ∧
  Forall (batch_ok (ac_batch_size a)) emitted ∧
  (if only_full then (ac_buffered_rows a' < ac_batch_size a')%nat else ac_buffered_rows a' = 0%nat).

Lemma raised_app_l ls1 ls2 e : raised ls1 e → raised (ls1 ++ ls2) e.
Proof. intros (pre & seg & post & c & -> & Hc). exists pre, seg, (post ++ ls2), c. by rewrite <-!app_assoc. Qed.

Lemma raised_app_r ls1 ls2 e : raised ls2 e → raised (ls1 ++ ls2) e.
Proof. intros (pre & seg & post & c & -> & Hc). exists (ls1 ++ pre), seg, post, c. by rewrite <-!app_assoc. Qed.

Lemma raised_all ls e : (∃ c, column_raises accumulator_format (lcolumn c ls) e) → raised ls e.
Proof. intros [c Hc]. exists [], ls, [], c. by rewrite app_nil_r. Qed.

Lemma batch_of_length m ls : batch_of m ls → length (logical m) = length ls.
Proof. intros [Hm _]. by eapply Forall2_length. Qed.

Lemma drained_nothing (only_full : bool) a :
  accumulator_ok a → (if only_full then (ac_buffered_rows a < ac_batch_size a)%nat else ac_buffered_rows a = 0%nat) →
  drained only_full a [] a.
Proof. intros Hok Hend. split; [done|]. split; [done|]. split; [by exists []|]. by split; [constructor|]. Qed.

Lemma drain_loop_spec fuel only_full a :
  accumulator_ok a → (ac_buffered_rows a ≤ fuel)%nat →
  match drain_loop fuel only_full a with
  | Ok (emitted, a') => drained only_full a emitted a'
  | Err e => raised (buffer_logical (ac_records a)) e
  end.
Proof.
  revert a; induction fuel as [|fuel IH]; intros a Hok Hfuel.
  { apply drained_nothing; [done|]. destruct Hok as (_ & _ & _ & ?). destruct only_full; lia. }
  cbn [drain_loop]. destruct ((ac_buffered_rows a =? 0)%nat || _) eqn:Hstop.
  { apply drained_nothing; [done|]. destruct Hok as (_ & _ & _ & ?). apply orb_true_iff in Hstop as [Hz%Nat.eqb_eq|Hz%andb_true_iff].
    - destruct only_full; lia.
    - destruct Hz as [-> Hz%Nat.ltb_lt]. done. }
  apply orb_false_iff in Hstop as [Hnz%Nat.eqb_neq _].
  destruct Hok as (Hbuf & Hrows & Hbytes & Hsize).
  destruct (ac_records a) as [|[first size] records] eqn:Er; [cbn in Hrows; lia|]. rewrite <-Er in *.
  destruct (compatible_rows_ok (r_input_tag first) (ac_records a) Hbuf) as (m & Hm & Hmle & Hmpos).
  rewrite Hm, bind_Ok. specialize (Hmpos _ _ _ Er eq_refl).
  assert (∃ n, n = Nat.min (ac_batch_size a) m) as [n Hn] by eauto. rewrite <-Hn.
  destruct (take_rows_ok (ac_records a) n (ac_buffered_bytes a) Hbuf ltac:(lia))
    as (taken & rest & Hrun & Htk & Hrest & Hlog & Hlen & Hrr & Htag).
  rewrite Hrows, Hrun, bind_Ok.
  assert (Hne : taken ≠ []) by (intros ->; cbn in Hlen; lia).
  pose proof (merge_spec taken (r_input_tag first) Hne Htk ltac:(eapply Htag; [exact Hm|lia])) as Hmerge.
  destruct (merge taken) as [batch|e]; [|rewrite Hlog; by apply raised_app_l, raised_all]. rewrite bind_Ok.
  set (a1 := set_buffer rest _ _ _ a).
  assert (Hok1 : accumulator_ok a1)
    by (split_and!; [done|done|change (ac_buffered_bytes a - buffer_bytes (ac_records a) + buffer_bytes rest = buffer_bytes rest); lia|done]).
  specialize (IH a1 Hok1 ltac:(change (buffer_rows rest ≤ fuel)%nat; lia)).
  destruct (drain_loop fuel only_full a1) as [[emitted a']|e]; [|rewrite Hlog; by apply raised_app_r].
  destruct IH as (Hok' & Hset & (parts & Hparts & Hrest') & Hb & Hend). rewrite bind_Ok.
  split_and!; try done; try apply Hset.
  - exists (mjoin (logical <$> taken) :: parts). split; [by constructor|].
    change ((mjoin (logical <$> taken) ++ mjoin parts) ++ buffer_logical (ac_records a') = buffer_logical (ac_records a)).
    by rewrite <-app_assoc, Hrest', Hlog.
  - constructor; [|done]. unfold batch_ok. rewrite (batch_of_length _ _ Hmerge). lia.
Qed.

Lemma drain_spec only_full now a :
  accumulator_ok a →
  match drain only_full now a with
  | Ok (emitted, a') => drained only_full a emitted a'
  | Err e => raised (buffer_logical (ac_records a)) e
  end.
Proof.
  intros Hok. unfold drain. pose proof (drain_loop_spec (ac_buffered_rows a) only_full a Hok ltac:(lia)) as Hd.
  destruct (drain_loop _ only_full a) as [[emitted a']|e]; [|done]. rewrite bind_Ok. exact Hd.
Qed.

(** ** Accepting *)

(** The stream of logical rows and controls that arrives, and the part of it an output
    stands for. *)
Definition stream (items : list input) : list (lrow + Control) :=
  mjoin ((λ i, match i with Data r => inl <$> logical r | InControl c => [inr c] end) <$> items).

Definition emits (i : input) (part : list (lrow + Control)) : Prop :=
  match i with
  | Data r => ∃ ls, part = inl <$> ls ∧ batch_of r ls
  | InControl c => part = [inr c]
  end.

Definition pending (a : Accumulator) : list (lrow + Control) := inl <$> buffer_logical (ac_records a).

(** The outputs, then what is held, stand for the given stream. *)
Definition covers (out : list input) (els : list (lrow + Control)) (a : Accumulator) : Prop :=
  ∃ parts, Forall2 emits out parts ∧ mjoin parts ++ pending a = els.

(** [raised], on a stream. *)
Definition raised_in (els : list (lrow + Control)) (e : exn) : Prop :=
  ∃ pre seg post c, els = pre ++ (inl <$> seg) ++ post ∧ column_raises accumulator_format (lcolumn c seg) e.

Lemma stream_app l1 l2 : stream (l1 ++ l2) = stream l1 ++ stream l2.
Proof. unfold stream. by rewrite fmap_app, join_app. Qed.

Lemma raised_in_app els1 els2 els3 e : raised_in els2 e → raised_in (els1 ++ els2 ++ els3) e.
Proof. intros (pre & seg & post & c & -> & Hc). exists (els1 ++ pre), seg, (post ++ els3), c. by rewrite <-!app_assoc. Qed.

Lemma raised_in_inl ls e : raised ls e → raised_in (inl <$> ls) e.
Proof.
  intros (pre & seg & post & c & -> & Hc). exists (inl <$> pre), seg, (inl <$> post), c. by rewrite !fmap_app.
Qed.

Lemma raised_in_covers out els a x e : covers out els a → raised_in (pending a ++ x) e → raised_in (els ++ x) e.
Proof.
  intros (parts & _ & <-) Hr. apply (raised_in_app (mjoin parts) _ []) in Hr. by rewrite app_nil_r, app_assoc in Hr.
Qed.

(** What a call keeps: its outputs and the new buffer stand for [els]. *)
Record step_ok (a : Accumulator) (out : list input) (els : list (lrow + Control)) (a' : Accumulator) : Prop := {
  so_ok : accumulator_ok a';
  so_settings : same_settings a a';
  so_covers : covers out els a';
  so_batches r : Data r ∈ out → batch_ok (ac_batch_size a) r
}.

(** The result of a call, or the exception of a conversion of rows of [els]. *)
Definition settles {A} (o : outcome A) (els : list (lrow + Control)) (Q : A → Prop) : Prop :=
  match o with Ok x => Q x | Err e => raised_in els e end.

Lemma settles_bind {A B} (o : outcome A) (f : A → outcome B) els els' Q Q' :
  settles o els Q → (∀ e, raised_in els e → raised_in els' e) → (∀ x, Q x → settles (f x) els' Q') →
  settles (o ≫= f) els' Q'.
Proof. intros Ho He Hf. destruct o as [x|e]; [by apply Hf|by apply He]. Qed.

Lemma same_settings_trans a1 a2 a3 : same_settings a1 a2 → same_settings a2 a3 → same_settings a1 a3.
Proof. unfold same_settings. naive_solver congruence. Qed.

Lemma step_ok_nil a : accumulator_ok a → step_ok a [] (pending a) a.
Proof. intros Hok. split; [done|done| |by intros r ?%not_elem_of_nil]. exists []. split; [constructor|done]. Qed.

Lemma step_ok_app a a1 a2 out1 out2 els x :
  step_ok a out1 els a1 → step_ok a1 out2 (pending a1 ++ x) a2 → step_ok a (out1 ++ out2) (els ++ x) a2.
Proof.
  intros [Hok1 Hs1 (p1 & Hp1 & <-) Hb1] [Hok2 Hs2 (p2 & Hp2 & E2) Hb2]. split; [done|by eapply same_settings_trans| |].
  - exists (p1 ++ p2). split; [by apply Forall2_app|]. by rewrite join_app, <-!app_assoc, E2.
  - intros r [Hr|Hr]%elem_of_app; [auto|]. assert (ac_batch_size a1 = ac_batch_size a) as <- by apply Hs1. auto.
Qed.

Lemma drained_step only_full a emitted a' : drained only_full a emitted a' → step_ok a (map Data emitted) (pending a) a'.
Proof.
  intros (Hok & Hset & (parts & Hparts & E) & Hb & _). split; [done|done| |].
  - exists ((λ ls : list lrow, inl <$> ls) <$> parts). split.
    + apply Forall2_fmap. eapply Forall2_impl; [exact Hparts|]. intros r ls Hr. by exists ls.
    + unfold pending. rewrite <-E, fmap_app. f_equal. clear. induction parts as [|p parts IH]; [done|].
      change ((inl <$> p) ++ mjoin ((λ ls : list lrow, inl <$> ls) <$> parts) = inl <$> (p ++ mjoin parts) :> list (lrow + Control)).
      by rewrite fmap_app, IH.
  - intros r (r' & [= <-] & Hr')%list_elem_of_fmap. rewrite Forall_forall in Hb. auto.
Qed.

Lemma settles_drain only_full now a :
  accumulator_ok a → settles (drain only_full now a) (pending a) (λ '(emitted, a'), drained only_full a emitted a').
Proof.
  intros Hok. pose proof (drain_spec only_full now a Hok) as Hd. unfold settles.
  destruct (drain only_full now a) as [[emitted a']|e]; [done|]. by apply raised_in_inl.
Qed.

Lemma drained_empty a emitted a' : drained false a emitted a' → ac_records a' = [].
Proof.
  intros (Hok & _ & _ & _ & Hz). destruct Hok as (Hbuf & Hr & _). destruct (ac_records a') as [|[r s] l]; [done|].
  destruct (Hbuf (r, s)) as [_ Hpos]; [by left|]. cbn in Hpos. rewrite buffer_rows_cons in Hr. lia.
Qed.

(** An optional drain on the way of [accept]. *)
Lemma settles_maybe_drain (c : bool) now a :
  accumulator_ok a →
  settles (if c then drain false now a else Ok ([], a)) (pending a)
    (λ '(emitted, a'), step_ok a (map Data emitted) (pending a) a' ∧ (c = true → ac_records a' = []) ∧ (c = false → a' = a)).
Proof.
  intros Hok. destruct c; [|split; [by apply step_ok_nil|done]].
  pose proof (settles_drain false now a Hok) as Hd. destruct (drain false now a) as [[emitted a']|e]; [|done]. cbn in *.
  split; [by eapply drained_step|]. split; [|done]. intros _. by eapply drained_empty.
Qed.

Lemma not_full a : accumulator_ok a → ac_records a = [] → (ac_buffered_rows a < ac_batch_size a)%nat.
Proof. intros (_ & -> & _ & Hs) ->. cbn. lia. Qed.

(** The end of [accept], once the record is in the buffer. *)
Lemma accept_tail_settles now_timeout now_drain a :
  accumulator_ok a → ac_batch_enabled a = true →
  settles
    (if match ac_max_bytes a with Some m => m <=? ac_buffered_bytes a | None => false end then drain false now_drain a
     else if (ac_batch_size a <=? ac_buffered_rows a)%nat then drain true now_drain a
     else if timed_out now_timeout a then flush true now_timeout now_drain a
     else Ok ([], a)) (pending a)
    (λ '(emitted, a'), step_ok a (map Data emitted) (pending a) a' ∧ (ac_buffered_rows a' < ac_batch_size a')%nat).
Proof.
  intros Hok Hen.
  assert (Hd : ∀ b, settles (drain b now_drain a) (pending a)
    (λ '(emitted, a'), step_ok a (map Data emitted) (pending a) a' ∧ (ac_buffered_rows a' < ac_batch_size a')%nat)).
  { intros b. pose proof (settles_drain b now_drain a Hok) as Hd. destruct (drain b now_drain a) as [[emitted a']|e]; [|done].
    cbn in *. split; [by eapply drained_step|]. destruct Hd as ((_ & _ & _ & Hs) & _ & _ & _ & Hend). destruct b; lia. }
  destruct (match ac_max_bytes a with Some m => _ | None => _ end); [apply Hd|].
  destruct (Nat.leb_spec (ac_batch_size a) (ac_buffered_rows a)) as [Hle|Hlt]; [apply Hd|].
  destruct (timed_out now_timeout a); [|split; [by apply step_ok_nil|done]].
  unfold flush. rewrite Hen. cbn [negb orb andb]. destruct (Nat.eqb_spec (ac_buffered_rows a) 0); [|apply Hd].
  split; [by apply step_ok_nil|done].
Qed.

(** The record at the end of the buffer. *)
Lemma buffer_snoc r rows bytes started a :
  accumulator_ok a → record_ok r → (0 < row_count r)%nat →
  rows = (ac_buffered_rows a + row_count r)%nat → bytes = ac_buffered_bytes a + retained_size r →
  let a' := set_buffer (ac_records a ++ [(r, retained_size r)]) rows bytes started a in
  accumulator_ok a' ∧ same_settings a a' ∧ pending a' = pending a ++ stream [Data r].
Proof.
  intros (Hbuf & Hr & Hby & Hs) Hrec Hpos -> ->. cbn zeta. split; [split_and!; cbn|split; [done|]]; [| | |done|].
  - intros x [Hx| ->%list_elem_of_singleton]%elem_of_app; [auto|]. by cbn.
  - rewrite Hr. unfold buffer_rows. rewrite foldr_app. cbn. clear. induction (ac_records a) as [|[r' s'] l IH]; cbn; lia.
  - rewrite Hby. unfold buffer_bytes. rewrite foldr_app. cbn. clear. induction (ac_records a) as [|[r' s'] l IH]; cbn; lia.
  - change (inl <$> buffer_logical (ac_records a ++ [(r, retained_size r)]) = pending a ++ stream [Data r]).
    unfold buffer_logical, stream. rewrite !fmap_app, join_app, fmap_app. cbn. by rewrite !app_nil_r.
Qed.

(** A control: what is held goes out before it. *)
Lemma accept_control_settles now_timeout now_drain c a :
  accumulator_ok a → ac_batch_enabled a = true →
  settles ('(batches, a) ← flush true now_timeout now_drain a; Ok (map Data batches ++ [InControl c], a)) (pending a ++ [inr c])
    (λ '(out, a'), step_ok a out (pending a ++ [inr c]) a' ∧ (ac_buffered_rows a' < ac_batch_size a')%nat).
Proof.
  intros Hok Hen.
  eapply (settles_bind _ _ (pending a) _ (λ '(emitted, a'), step_ok a (map Data emitted) (pending a) a' ∧ ac_records a' = [])).
  - unfold flush. rewrite Hen. cbn [negb orb andb].
    pose proof (settles_maybe_drain (negb (ac_buffered_rows a =? 0)%nat) now_drain a Hok) as Hd.
    assert ((if (ac_buffered_rows a =? 0)%nat then Ok ([], a) else drain false now_drain a) =
      (if negb (ac_buffered_rows a =? 0)%nat then drain false now_drain a else Ok ([], a))) as -> by by destruct (_ =? _)%nat.
    destruct (Nat.eqb_spec (ac_buffered_rows a) 0) as [Hz|]; cbn [negb] in *.
    + split; [by apply step_ok_nil|]. destruct Hok as (Hbuf & Hr & _). destruct (ac_records a) as [|[r s] l]; [done|].
      destruct (Hbuf (r, s)) as [_ Hpos]; [by left|]. cbn in Hpos. rewrite buffer_rows_cons in Hr. lia.
    + destruct (drain false now_drain a) as [[emitted a']|e]; [|done]. destruct Hd as (Hd & He & _). exact (conj Hd (He eq_refl)).
  - intros e He. by apply (raised_in_app [] _ [inr c]).
  - intros [emitted a'] [Hd Hempty]. split; [|by apply not_full; [apply Hd|]].
    eapply step_ok_app; [exact Hd|]. split; [apply Hd|done| |by intros r ?%list_elem_of_singleton].
    exists [[inr c]]. split; [constructor; [done|constructor]|]. unfold pending. by rewrite Hempty.
Qed.

Lemma accept_settles now_start now_timeout now_drain item a :
  accumulator_ok a → ac_batch_enabled a = true → (∀ r, item = Data r → record_ok r) →
  (ac_buffered_rows a < ac_batch_size a)%nat →
  settles (accept now_start now_timeout now_drain item a) (pending a ++ stream [item])
    (λ '(out, a'), step_ok a out (pending a ++ stream [item]) a' ∧ (ac_buffered_rows a' < ac_batch_size a')%nat).
Proof.
  intros Hok Hen Hitem Hlt. unfold accept. rewrite Hen. cbn [negb].
  destruct item as [r|c]; [|by apply accept_control_settles].
  specialize (Hitem r eq_refl). rewrite (proj1 (record_rows_ok _ Hitem)), bind_Ok.
  destruct (Nat.eqb_spec (row_count r) 0) as [Hz|Hnz].
  { assert (stream [Data r] = []) as ->; [|rewrite app_nil_r; split; [by apply step_ok_nil|done]].
    unfold stream. cbn. rewrite app_nil_r. pose proof (length_logical r (proj2 Hitem)) as Hl. rewrite Hz in Hl.
    by destruct (logical r). }
  assert (∀ e, raised_in (pending a) e → raised_in (pending a ++ stream [Data r]) e) as Hraise
    by (intros e; apply (raised_in_app [])).
  eapply (settles_bind _ _ (pending a) _ (λ '(emitted, a'), step_ok a (map Data emitted) (pending a) a')); [|done|].
  { destruct (last (ac_records a)) as [[l s]|]; [case_bool_decide|]; [by apply step_ok_nil| |by apply step_ok_nil].
    pose proof (settles_maybe_drain true now_drain a Hok) as Hd. destruct (drain _ _ _) as [[??]|]; [apply Hd|done]. }
  intros [e1 a1] H1.
  eapply (settles_bind _ _ (pending a) _ (λ '(emitted, a'), step_ok a (map Data (e1 ++ emitted)) (pending a) a')); [|done|].
  { pose proof (settles_maybe_drain true now_drain a1 (so_ok _ _ _ _ H1)) as Hd.
    assert (∀ emitted a2, step_ok a1 (map Data emitted) (pending a1) a2 → step_ok a (map Data (e1 ++ emitted)) (pending a) a2) as Happ.
    { intros emitted a2 H2. rewrite map_app, <-(app_nil_r (pending a)). eapply step_ok_app; [exact H1|]. by rewrite app_nil_r. }
    assert (settles (Ok ([], a1)) (pending a) (λ '(emitted, a'), step_ok a (map Data (e1 ++ emitted)) (pending a) a')) as Hnil.
    { apply Happ, step_ok_nil, H1. }
    destruct (ac_records a1), (ac_max_bytes a1) as [m|]; [done..| |done]. destruct (m <? _); [|done].
    destruct (drain _ _ _) as [[emitted a2]|e]; [apply Happ, Hd|].
    rewrite <-(app_nil_r (pending a)). eapply raised_in_covers; [apply H1|]. rewrite app_nil_r. apply Hd. }
  intros [e2 a2] H2.
  destruct (buffer_snoc r _ _ (Some (default now_start (ac_batch_started_at a2))) a2 (so_ok _ _ _ _ H2) Hitem ltac:(lia) eq_refl eq_refl)
    as (Hok3 & Hset3 & Hp3). set (a3 := set_buffer _ _ _ _ a2) in *.
  assert (Hset : same_settings a a3) by (eapply same_settings_trans; [apply H2|done]).
  eapply (settles_bind _ _ (pending a3) _ (λ '(emitted, a'), step_ok a3 (map Data emitted) (pending a3) a' ∧
    (ac_buffered_rows a' < ac_batch_size a')%nat)).
  - apply accept_tail_settles; [done|]. by rewrite (proj1 Hset).
  - intros e He. rewrite Hp3 in He. eapply raised_in_covers; [apply H2|done].
  - intros [e3 a4] [H4 Hlt4]. split; [|done]. rewrite app_assoc, map_app. eapply step_ok_app; [exact H2|]. rewrite <-Hp3.
    destruct H4 as [Hok4 Hset4 Hc4 Hb4]. split; [done|by eapply same_settings_trans|done|].
    intros r' Hr'. assert (ac_batch_size a3 = ac_batch_size a2) as <- by apply Hset3. auto.
Qed.

(** The accumulator over a run of inputs, each with the clock readings of its call. *)
Definition run_accept (acc : list input * Accumulator) (call : (Clock * Clock * Clock) * input)
    : outcome (list input * Accumulator) :=
  let '(out, a) := acc in
  let '((t1, t2, t3), item) := call in
  '(emitted, a) ← accept t1 t2 t3 item a;
  Ok (out ++ emitted, a).

Lemma run_accept_settles calls a :
  accumulator_ok a → ac_batch_enabled a = true → (ac_buffered_rows a < ac_batch_size a)%nat →
  (∀ call r, call ∈ calls → call.2 = Data r → record_ok r) →
  settles (foldM run_accept ([], a) calls) (pending a ++ stream (calls.*2))
    (λ '(out, a'), step_ok a out (pending a ++ stream (calls.*2)) a' ∧ (ac_buffered_rows a' < ac_batch_size a')%nat).
Proof.
  intros Hok Hen Hlt. induction calls as [|call calls IH] using rev_ind; intros Hin.
  { cbn. rewrite app_nil_r. split; [by apply step_ok_nil|done]. }
  rewrite foldM_app, fmap_app, stream_app, app_assoc. eapply settles_bind.
  - apply IH. intros c r Hc. apply Hin. apply elem_of_app. by left.
  - intros e He. by apply (raised_in_app [] _ (stream _)).
  - intros [out a1] [H1 Hlt1]. destruct call as [[[t1 t2] t3] item]. cbn [fmap list_fmap foldM snd].
    assert (settles (accept t1 t2 t3 item a1) (pending a1 ++ stream [item])
      (λ '(out, a'), step_ok a1 out (pending a1 ++ stream [item]) a' ∧ (ac_buffered_rows a' < ac_batch_size a')%nat)) as Ha.
    { apply accept_settles; [apply H1| |intros r Hr|done].
      - destruct H1 as [_ [Hs _] _ _]. by rewrite Hs.
      - eapply Hin; [apply elem_of_app; right; by left|exact Hr]. }
    unfold run_accept. destruct (accept t1 t2 t3 item a1) as [[out2 a2]|e].
    + destruct Ha as [H2 Hlt2]. split; [|done]. by eapply step_ok_app.
    + eapply raised_in_covers; [apply H1|done].
Qed.
End accumulator.

(** ** Properties *)

(** C21. Input batching keeps the stream.  With batching enabled, for any sequence
    of data records (row-shaped or columnar, of any size and side) and controls, any
    clock, any byte budget and whatever the block library makes of a column, the batches
    and controls emitted, followed by the rows still buffered, stand for the stream that
    arrived, in order: each batch stands for a run of consecutive logical rows between
    two controls, with as many rows, each with the change kind, the timestamp and the
    input side of its row, and each column is the run's column (a value a row lacks
    being [None]), as the library converted it to the batch format.  Every emitted batch
    has between one and [batch_size] rows, and less than a batch stays buffered.  A call
    raises only what a conversion of a column of such a run raised. *)
Theorem batching_keeps_stream {V Sender Control Clock : Type} (none : V)
    `{!BlockLibrary V, !BlockLibraryLaws V, EqDecision Sender}
    (batch_format : option string) (retained_size : @record V Sender → Z)
    (timed_out_after : Clock → Clock → bool) batch_size has_timeout max_bytes (a0 : Accumulator)
    (calls : list ((Clock * Clock * Clock) * @input V Sender Control)) :
  0 < batch_size → Accumulator_init (Some batch_size) has_timeout max_bytes = Ok a0 →
  (∀ call r, call ∈ calls → call.2 = Data r → record_ok r) →
  match foldM (run_accept none batch_format retained_size timed_out_after) ([], a0) calls with
  | Ok (out, a) =>
      (∃ parts, Forall2 (emits none batch_format) out parts ∧ mjoin parts ++ pending a = stream (calls.*2)) ∧
      (∀ r, Data r ∈ out → (0 < length (logical r) ≤ Z.to_nat batch_size)%nat) ∧
      (ac_buffered_rows a < Z.to_nat batch_size)%nat
  | Err e =>
      ∃ pre seg post c, stream (calls.*2) = pre ++ (inl <$> seg) ++ post ∧
        column_raises (accumulator_format batch_format) (lcolumn none c seg) e
  end.
Proof.
  intros Hsize Hinit Hin.
  assert (Ha0 : ac_batch_enabled a0 = true ∧ ac_batch_size a0 = Z.to_nat batch_size ∧ ac_records a0 = [] ∧
    ac_buffered_rows a0 = 0%nat ∧ ac_buffered_bytes a0 = 0).
  { unfold Accumulator_init in Hinit. rewrite (proj2 (Z.ltb_lt 0 batch_size)), (proj2 (Z.eqb_neq batch_size 0)) in Hinit by lia.
    destruct max_bytes as [arg|]; [|by injection Hinit as <-]. destruct (arg_int arg) as [n|]; [|done].
    destruct (n <=? 0); [done|]. by injection Hinit as <-. }
  destruct Ha0 as (Hen & Hs & Hr & Hrows & Hbytes).
  assert (Hok : accumulator_ok a0).
  { unfold accumulator_ok. rewrite Hr, Hrows, Hbytes, Hs. split_and!; [by intros x ?%not_elem_of_nil|done|done|lia]. }
  pose proof (run_accept_settles none batch_format retained_size timed_out_after calls a0 Hok Hen ltac:(lia) Hin) as Hrun.
  assert (pending (Control := Control) a0 = []) as Hp by (unfold pending; by rewrite Hr). rewrite Hp in Hrun.
  destruct (foldM _ _ calls) as [[out a]|e]; [|exact Hrun].
  destruct Hrun as [[_ (_ & Hs' & _) Hc Hb] Hlt]. rewrite Hs', Hs in Hlt. rewrite Hs in Hb. split_and!; done.
Qed.

Module BatchSamples.
Import BlockSamples.
Local Open Scope string_scope.

Definition inputs : list ((unit * unit * unit) * @input Z unit unit) :=
  [((tt, tt, tt), Data (mkRecord (BRow (mkRow {["x" := 1]} (Some DELETE))) None None None (Some 5) None None));
   ((tt, tt, tt), Data (mkRecord (BTable (Arrow [("x", "int64")]) [{["x" := 2]}; {["x" := 3]}]) (Some 2) None None None None
      (Some [Some 6; Some 7])));
   ((tt, tt, tt), InControl tt)].

Definition run (batch_format : option string) :=
  foldM (run_accept 0 batch_format (λ _, 1) (λ _ _ : unit, false)) ([], mkAccumulator true 2 None false [] 0 0 None) inputs.
End BatchSamples.

Import BlockSamples.

(** A format the library does not know: the first batch raises. *)
Example unsupported_format_raises : BatchSamples.run (Some "json"%string) = Err ValueError.
Proof. vm_compute. reflexivity. Qed.

(** Two batches, the second one of the rest of the Arrow record, and the control. *)
Lemma batching_keeps_stream_witness :
  ∃ out a, BatchSamples.run None = Ok (out, a) ∧ (ac_buffered_rows a < 2)%nat ∧
    ∃ parts, Forall2 (emits 0 None) out parts ∧ mjoin parts ++ pending a = stream (BatchSamples.inputs.*2).
Proof.
  assert (is_ok (BatchSamples.run None) = true) as Hok by (vm_compute; reflexivity). unfold BatchSamples.run in *.
  pose proof (batching_keeps_stream 0 None (λ _ : @record Z unit, 1) (λ _ _ : unit, false) 2 false None
    (mkAccumulator true 2 None false [] 0 0 None) BatchSamples.inputs) as Hrun.
  destruct (foldM _ _ BatchSamples.inputs) as [[out a]|e]; [|discriminate Hok].
  exists out, a. split; [reflexivity|]. destruct Hrun as (Hparts & _ & Hlt); [lia|reflexivity| |exact (conj Hlt Hparts)].
  intros call r Hc Hr. repeat (apply elem_of_cons in Hc as [->|Hc]; [try discriminate Hr; injection Hr as <-; repeat split|]).
  - intros row c Hrow [v Hv]. cbn in *. apply list_elem_of_singleton.
    repeat (apply elem_of_cons in Hrow as [->|Hrow]; [by apply lookup_singleton_Some in Hv as [-> _]|]).
    by apply not_elem_of_nil in Hrow.
  - by apply not_elem_of_nil in Hc.
Defined.
