(* ===== verification/Delivery.v ===== *)
(** * Delivery: replay journal and micro-batches

    Models [src/ray/klein/runtime/collector/delivery_journal.py] (sequence numbers,
    replay retention and acknowledgements per downstream target) and
    [src/ray/klein/runtime/collector/downstream_batcher.py].

    [estimate_retained_size] measures interpreter objects and is a parameter, as is
    the floating-point monotonic clock.  The journal's metric observers are not
    modelled: they read the two counters and change nothing. *)
From S2P Require Import Prelude.
Open Scope Z_scope.

Definition sumZ (l : list Z) : Z := foldr Z.add 0 l.

Lemma sumZ_cons x l : sumZ (x :: l) = x + sumZ l.
Proof. done. Qed.

Lemma sumZ_single {A} (f : A → Z) x : sumZ (f <$> [x]) = f x.
Proof. apply Z.add_0_r. Qed.

Lemma sumZ_app l1 l2 : sumZ (l1 ++ l2) = sumZ l1 + sumZ l2.
Proof. unfold sumZ. induction l1; cbn; lia. Qed.

#[export] Instance sumZ_perm : Proper ((≡ₚ) ==> (=)) sumZ.
Proof. intros l1 l2 Hp. induction Hp; rewrite ?sumZ_cons; lia. Qed.

Section journal.
Context {R S : Type} (num_rows : R → option Z) (retained_size : list R → Z).

(** [_ReplayEntry]. *)
Record ReplayEntry := mkReplayEntry {
  re_sequence : Z;
  re_records : list R;
  re_row_count : Z;
  re_size_bytes : Z
}.

(** [DeliveryJournal]'s attributes, one list entry per target. *)
Record DeliveryJournal := mkJournal {
  j_enabled : bool;
  j_sender_vertex_id : option S;
  j_sender_task_name : option string;
  j_edge_index : option Z;
  j_topology_epoch : option string;
  j_sequence : list Z;
  j_buffer : list (list ReplayEntry);
  j_forwarded : list Z;
  j_buffered_bytes : Z;
  j_buffered_records : Z;
  j_max_bytes : Z
}.

(** [DeliveryChannel]. *)
Record DeliveryChannel := mkDeliveryChannel {
  dc_sender_vertex_id : S;
  dc_sender_task_name : string;
  dc_edge_index : Z;
  dc_target_index : nat;
  dc_topology_epoch : option string
}.

Implicit Types (j : DeliveryJournal) (target : nat).

Definition DeliveryJournal_init (target_count : nat) : DeliveryJournal :=
  mkJournal false None None None None (replicate target_count 0) (replicate target_count [])
    (replicate target_count (-1)) 0 0 0.

Definition journal_configure (enabled : bool) (sender_vertex_id : option S) (max_bytes : Z)
    (sender_task_name : option string) (edge_index : option Z) (topology_epoch : option string) j
    : outcome DeliveryJournal :=
  if enabled && (max_bytes <=? 0) then Err ValueError
  else if max_bytes <? 0 then Err ValueError
  else Ok (mkJournal enabled sender_vertex_id sender_task_name edge_index topology_epoch (j_sequence j)
             (j_buffer j) (j_forwarded j) (j_buffered_bytes j) (j_buffered_records j) max_bytes).

Definition delivery_channel target j : option DeliveryChannel :=
  match j_sender_vertex_id j, j_sender_task_name j, j_edge_index j with
  | Some s, Some n, Some e => Some (mkDeliveryChannel s n e target (j_topology_epoch j))
  | _, _, _ => None
  end.

Definition next_sequence target j : outcome Z :=
  sequence ← of_option IndexError (j_sequence j !! target);
  Ok (sequence + 1).

Definition record_rows (r : R) : Z := default 1 (num_rows r).

(** [record_delivery]: an entry the watermark covers already is not kept. *)
Definition record_delivery target (records : list R) (sequence : Z) j : outcome DeliveryJournal :=
  forwarded ← (if j_enabled j then of_option IndexError (j_forwarded j !! target) else Ok 0);
  if j_enabled j && (forwarded <? sequence) then
    let row_count := sumZ (record_rows <$> records) in
    let size_bytes := retained_size records in
    let next_size := j_buffered_bytes j + size_bytes in
    if (0 <? j_max_bytes j) && (j_max_bytes j <? next_size) then Err DeliveryJournalCapacityError
    else
      buffer ← of_option IndexError (j_buffer j !! target);
      _ ← of_option IndexError (j_sequence j !! target);
      Ok (mkJournal (j_enabled j) (j_sender_vertex_id j) (j_sender_task_name j) (j_edge_index j) (j_topology_epoch j)
            (<[target := sequence]> (j_sequence j))
            (<[target := buffer ++ [mkReplayEntry sequence records row_count size_bytes]]> (j_buffer j))
            (j_forwarded j) next_size (j_buffered_records j + row_count) (j_max_bytes j))
  else
    _ ← of_option IndexError (j_sequence j !! target);
    Ok (mkJournal (j_enabled j) (j_sender_vertex_id j) (j_sender_task_name j) (j_edge_index j) (j_topology_epoch j)
          (<[target := sequence]> (j_sequence j)) (j_buffer j) (j_forwarded j)
          (j_buffered_bytes j) (j_buffered_records j) (j_max_bytes j)).

(** The [while buffer and buffer[0].sequence <= forwarded_sequence] loop. *)
Fixpoint drop_covered (forwarded : Z) (buffer : list ReplayEntry) (records bytes : Z)
    : list ReplayEntry * Z * Z :=
  match buffer with
  | [] => ([], records, bytes)
  | entry :: rest =>
      if re_sequence entry <=? forwarded
      then drop_covered forwarded rest (records - re_row_count entry) (bytes - re_size_bytes entry)
      else (buffer, records, bytes)
  end.

Definition acknowledge target (forwarded_sequence : Z) j : outcome DeliveryJournal :=
  if negb (j_enabled j) then Ok j
  else
    forwarded ← of_option IndexError (j_forwarded j !! target);
    if forwarded_sequence <=? forwarded then Ok j
    else
      buffer ← of_option IndexError (j_buffer j !! target);
      let '(buffer, records, bytes) :=
        drop_covered forwarded_sequence buffer (j_buffered_records j) (j_buffered_bytes j) in
      Ok (mkJournal (j_enabled j) (j_sender_vertex_id j) (j_sender_task_name j) (j_edge_index j) (j_topology_epoch j)
            (j_sequence j) (<[target := buffer]> (j_buffer j)) (<[target := forwarded_sequence]> (j_forwarded j))
            bytes records (j_max_bytes j)).

Definition pending_for target j : outcome (list (Z * list R)) :=
  buffer ← of_option IndexError (j_buffer j !! target);
  Ok ((λ e : ReplayEntry, (re_sequence e, re_records e)) <$> (buffer : list ReplayEntry)).

(** ** The abstract journal: everything that landed and what was acknowledged *)

Inductive journal_op :=
  | Deliver (target : nat) (records : list R) (sequence : Z)
  | Acknowledge (target : nat) (forwarded_sequence : Z).

Definition run_journal_op j (op : journal_op) : outcome DeliveryJournal :=
  match op with
  | Deliver target records sequence => record_delivery target records sequence j
  | Acknowledge target sequence => acknowledge target sequence j
  end.

(** The batches that landed at a target, in order. *)
Definition landed (ops : list journal_op) target : list (Z * list R) :=
  omap (λ op, match op with
    | Deliver t records sequence => if decide (t = target) then Some (sequence, records) else None
    | Acknowledge _ _ => None
    end) ops.

(** The highest sequence a target acknowledged. *)
Definition acked (ops : list journal_op) target : Z :=
  foldl (λ a op, match op with
    | Acknowledge t s => if decide (t = target) then Z.max a s else a
    | Deliver _ _ _ => a
    end) (-1) ops.

(** What must still be replayable: the landed batches above the watermark. *)
Definition unacked (ops : list journal_op) target : list (Z * list R) :=
  filter (λ b, acked ops target < b.1) (landed ops target).

Definition batch_entry (b : Z * list R) : ReplayEntry :=
  mkReplayEntry b.1 b.2 (sumZ (record_rows <$> b.2)) (retained_size b.2).

(** The journal represents the abstract one. *)
Record journal_repr (n : nat) (ops : list journal_op) j : Prop := {
  jr_enabled : j_enabled j = true;
  jr_length : length (j_buffer j) = n ∧ length (j_forwarded j) = n ∧ length (j_sequence j) = n;
  jr_forwarded t : (t < n)%nat → j_forwarded j !! t = Some (acked ops t);
  jr_buffer t : (t < n)%nat → j_buffer j !! t = Some (batch_entry <$> unacked ops t);
  jr_bytes : j_buffered_bytes j = sumZ ((λ b, sumZ (re_size_bytes <$> b)) <$> j_buffer j);
  jr_records : j_buffered_records j = sumZ ((λ b, sumZ (re_row_count <$> b)) <$> j_buffer j);
  jr_max : 0 < j_max_bytes j ∧ (∀ rs, 0 <= retained_size rs) → j_buffered_bytes j <= j_max_bytes j
}.

Lemma landed_snoc ops op t :
  landed (ops ++ [op]) t = landed ops t ++ landed [op] t.
Proof. unfold landed. apply omap_app. Qed.

Lemma acked_snoc ops op t :
  acked (ops ++ [op]) t =
  match op with Acknowledge t' s => if decide (t' = t) then Z.max (acked ops t) s else acked ops t | _ => acked ops t end.
Proof. unfold acked. by rewrite foldl_app. Qed.

Lemma sumZ_insert (l : list (list ReplayEntry)) (f : list ReplayEntry → Z) t x y :
  l !! t = Some x → sumZ (f <$> <[t := y]> l) = sumZ (f <$> l) - f x + f y.
Proof.
  revert t; induction l as [|z l IH]; intros [|t] Ht; try done.
  - injection Ht as ->. cbn. lia.
  - change (f z + sumZ (f <$> <[t := y]> l) = f z + sumZ (f <$> l) - f x + f y). rewrite (IH t Ht). lia.
Qed.

Lemma drop_covered_spec forwarded (bs : list (Z * list R)) records bytes :
  StronglySorted Z.lt bs.*1 →
  let dropped := filter (λ b, b.1 <= forwarded) bs in
  drop_covered forwarded (batch_entry <$> bs) records bytes =
  (batch_entry <$> filter (λ b, forwarded < b.1) bs,
   records - sumZ (re_row_count <$> (batch_entry <$> dropped)),
   bytes - sumZ (re_size_bytes <$> (batch_entry <$> dropped))).
Proof.
  revert records bytes; induction bs as [|b bs IH]; intros records bytes Hs; cbn zeta.
  { cbn. by rewrite !Z.sub_0_r. }
  cbn in Hs. apply StronglySorted_inv in Hs as [Hs Hb]. cbn [fmap list_fmap drop_covered]. cbn [batch_entry re_sequence].
  destruct (Z.leb_spec b.1 forwarded).
  - rewrite IH by done. rewrite filter_cons_False by (cbn; lia). rewrite filter_cons_True by done.
    rewrite !fmap_cons, !sumZ_cons. cbn [batch_entry re_row_count re_size_bytes]. f_equal; [f_equal|]; lia.
  - rewrite filter_cons_True by done. rewrite filter_cons_False by (cbn; lia).
    rewrite Forall_fmap, Forall_forall in Hb.
    rewrite filter_all, filter_none; [cbn; by rewrite !Z.sub_0_r|..].
    + intros x Hx%Hb. cbn in Hx. lia.
    + intros x Hx%Hb. cbn in Hx. lia.
Qed.

Lemma landed_deliver ops t records sequence t' :
  landed (ops ++ [Deliver t records sequence]) t' =
  landed ops t' ++ if decide (t = t') then [(sequence, records)] else [].
Proof. rewrite landed_snoc. f_equal. cbn. by case_decide. Qed.

Lemma landed_ack ops t s t' : landed (ops ++ [Acknowledge t s]) t' = landed ops t'.
Proof. rewrite landed_snoc. cbn. apply app_nil_r. Qed.

Lemma unacked_deliver ops t records sequence t' :
  unacked (ops ++ [Deliver t records sequence]) t' =
  unacked ops t' ++ if decide (t = t' ∧ acked ops t < sequence) then [(sequence, records)] else [].
Proof.
  unfold unacked. rewrite landed_deliver, acked_snoc, filter_app. f_equal.
  destruct (decide (t = t')) as [->|]; [|by rewrite decide_False by tauto].
  rewrite filter_cons. cbn. repeat case_decide; tauto || done.
Qed.

Lemma record_delivery_repr n ops j t records sequence j' :
  journal_repr n ops j → (t < n)%nat → record_delivery t records sequence j = Ok j' →
  journal_repr n (ops ++ [Deliver t records sequence]) j'.
Proof.
  intros Hr Ht. destruct (jr_length _ _ _ Hr) as (Hl1 & Hl2 & Hl3). unfold record_delivery.
  rewrite (jr_enabled _ _ _ Hr), (jr_forwarded _ _ _ Hr t Ht), (jr_buffer _ _ _ Hr t Ht). cbn [of_option andb].
  rewrite !bind_Ok. destruct (lookup_lt_is_Some_2 (j_sequence j) t ltac:(lia)) as [sq Hsq]. rewrite Hsq.
  cbn [of_option]. rewrite !bind_Ok.
  assert (Hfw : ∀ t', (t' < n)%nat → j_forwarded j !! t' = Some (acked (ops ++ [Deliver t records sequence]) t')).
  { intros t' Ht'. rewrite acked_snoc. by apply (jr_forwarded _ _ _ Hr). }
  destruct (Z.ltb_spec (acked ops t) sequence) as [Hlt|Hge].
  - destruct ((0 <? j_max_bytes j) && _) eqn:Hcap; [done|]. intros [= <-].
    pose proof (jr_buffer _ _ _ Hr t Ht) as Hb.
    split; cbn; rewrite ?length_insert; try done.
    + intros t' Ht'. rewrite unacked_deliver. destruct (decide (t = t')) as [<-|Hne].
      * rewrite list_lookup_insert_eq by lia. rewrite decide_True by done. by rewrite fmap_app.
      * rewrite list_lookup_insert_ne by done. rewrite decide_False by tauto. rewrite app_nil_r.
        by apply (jr_buffer _ _ _ Hr).
    + rewrite (sumZ_insert _ _ _ _ _ Hb), fmap_app, sumZ_app, (jr_bytes _ _ _ Hr). cbn. lia.
    + rewrite (sumZ_insert _ _ _ _ _ Hb), fmap_app, sumZ_app, (jr_records _ _ _ Hr). cbn. lia.
    + intros [Hm _]. destruct (Z.ltb_spec 0 (j_max_bytes j)); [|lia]. cbn in Hcap. apply Z.ltb_ge in Hcap. lia.
  - intros [= <-]. split; cbn; rewrite ?length_insert; try done; try apply Hr.
    intros t' Ht'. rewrite unacked_deliver, decide_False, app_nil_r; [by apply (jr_buffer _ _ _ Hr)|].
    intros [-> ?]. lia.
Qed.

(** Splitting the buffer of a target at an acknowledgement. *)
Lemma filter_acked_split (l : list (Z * list R)) a s :
  a <= s → filter (λ b, s < b.1) (filter (λ b, a < b.1) l) = filter (λ b, s < b.1) l.
Proof. intros Has. apply list_filter_filter_l. intros b ?. lia. Qed.

Lemma StronglySorted_filter_fst (P : Z * list R → Prop) `{∀ x, Decision (P x)} (l : list (Z * list R)) :
  StronglySorted Z.lt l.*1 → StronglySorted Z.lt (filter P l).*1.
Proof. intros Hs. eapply StronglySorted_sublist; [exact Hs|]. apply fmap_sublist, filter_sublist. Qed.

Lemma acknowledge_repr n ops j t sequence j' :
  journal_repr n ops j → (t < n)%nat → StronglySorted Z.lt (landed ops t).*1 →
  acknowledge t sequence j = Ok j' → journal_repr n (ops ++ [Acknowledge t sequence]) j'.
Proof.
  intros Hr Ht Hsort. destruct (jr_length _ _ _ Hr) as (Hl1 & Hl2 & Hl3). unfold acknowledge.
  pose proof (jr_buffer _ _ _ Hr t Ht) as Hb.
  rewrite (jr_enabled _ _ _ Hr), (jr_forwarded _ _ _ Hr t Ht), Hb. cbn [of_option negb].
  rewrite !bind_Ok.
  assert (Hun : ∀ t', t' ≠ t → unacked (ops ++ [Acknowledge t sequence]) t' = unacked ops t').
  { intros t' Hne. unfold unacked. by rewrite landed_ack, acked_snoc, decide_False by done. }
  destruct (Z.leb_spec sequence (acked ops t)) as [Hle|Hlt].
  - intros [= <-].
    assert (Hac : ∀ t', acked (ops ++ [Acknowledge t sequence]) t' = acked ops t').
    { intros t'. rewrite acked_snoc. case_decide; [subst; lia|done]. }
    split; try apply Hr.
    + intros t' Ht'. rewrite Hac. by apply (jr_forwarded _ _ _ Hr).
    + intros t' Ht'. unfold unacked. rewrite landed_ack, Hac. by apply (jr_buffer _ _ _ Hr).
  - rewrite drop_covered_spec by by apply StronglySorted_filter_fst.
    set (dropped := filter (λ b, b.1 <= sequence) (unacked ops t)). intros [= <-].
    assert (Hkeep : filter (λ b, sequence < b.1) (unacked ops t) = unacked (ops ++ [Acknowledge t sequence]) t).
    { unfold unacked. rewrite landed_ack, acked_snoc, decide_True, Z.max_r by (done || lia). apply filter_acked_split. lia. }
    assert (Hperm : unacked ops t ≡ₚ dropped ++ filter (λ b, sequence < b.1) (unacked ops t)).
    { unfold dropped. etrans; [symmetry; apply (filter_app_complement (λ b : Z * list R, b.1 <= sequence))|].
      apply reflexive_eq. f_equal. apply list_filter_iff. intros b. cbn. lia. }
    assert (Hsum : ∀ f : ReplayEntry → Z, sumZ (f <$> (batch_entry <$> unacked ops t)) =
      sumZ (f <$> (batch_entry <$> dropped)) +
      sumZ (f <$> (batch_entry <$> filter (λ b, sequence < b.1) (unacked ops t)))).
    { intros f. rewrite <-sumZ_app, <-!fmap_app. by rewrite Hperm at 1. }
    split; cbn; rewrite ?length_insert; try done; try apply Hr.
    + intros t' Ht'. rewrite acked_snoc. destruct (decide (t = t')) as [<-|].
      * rewrite list_lookup_insert_eq by lia. f_equal. lia.
      * rewrite list_lookup_insert_ne by done. by apply (jr_forwarded _ _ _ Hr).
    + intros t' Ht'. destruct (decide (t = t')) as [<-|].
      * rewrite list_lookup_insert_eq by lia. by rewrite Hkeep.
      * rewrite list_lookup_insert_ne, Hun by done. by apply (jr_buffer _ _ _ Hr).
    + rewrite (sumZ_insert _ _ _ _ _ Hb), Hsum, (jr_bytes _ _ _ Hr). lia.
    + rewrite (sumZ_insert _ _ _ _ _ Hb), Hsum, (jr_records _ _ _ Hr). lia.
    + intros [Hm Hnn]. pose proof (jr_max _ _ _ Hr (conj Hm Hnn)).
      assert (0 <= sumZ (re_size_bytes <$> (batch_entry <$> dropped))); [|lia].
      clear -Hnn. induction dropped as [|b l IH]; [done|]. rewrite !fmap_cons, sumZ_cons. specialize (Hnn b.2). cbn. lia.
Qed.

Lemma landed_prefix ops op t : StronglySorted Z.lt (landed (ops ++ [op]) t).*1 → StronglySorted Z.lt (landed ops t).*1.
Proof.
  intros Hs. eapply StronglySorted_sublist; [exact Hs|]. rewrite landed_snoc, fmap_app. apply sublist_inserts_r. done.
Qed.

Definition op_target (op : journal_op) : nat :=
  match op with Deliver t _ _ => t | Acknowledge t _ => t end.

Lemma run_journal_repr n ops j0 j :
  journal_repr n [] j0 → (∀ op, op ∈ ops → (op_target op < n)%nat) →
  (∀ t, StronglySorted Z.lt (landed ops t).*1) → foldM run_journal_op j0 ops = Ok j → journal_repr n ops j.
Proof.
  intros Hr0. revert j; induction ops as [|op ops IH] using rev_ind; intros j Hin Hs Hrun.
  { by injection Hrun as <-. }
  rewrite foldM_app in Hrun. apply bind_Ok_inv in Hrun as (j1 & Hrun & Hop). cbn in Hop.
  assert (journal_repr n ops j1) as Hr1.
  { apply IH; [intros; apply Hin; set_solver|intros t; by eapply landed_prefix|done]. }
  destruct (run_journal_op j1 op) as [j2|] eqn:E; [|done]. injection Hop as ->.
  assert ((op_target op < n)%nat) by (apply Hin; set_solver).
  destruct op as [t rs s|t s]; cbn in E.
  - by eapply record_delivery_repr.
  - eapply acknowledge_repr; [done|done|by eapply landed_prefix|done].
Qed.

Lemma run_journal_max_bytes ops j0 j : foldM run_journal_op j0 ops = Ok j → j_max_bytes j = j_max_bytes j0.
Proof.
  revert j0. induction ops as [|op ops IH]; intros j0; cbn; [by intros [= ->]|].
  destruct (run_journal_op j0 op) as [j1|] eqn:E; [|done]. intros Hr. rewrite (IH _ Hr). clear -E.
  destruct op as [t rs s|t s]; cbn in E; unfold record_delivery, acknowledge in E.
  - apply bind_Ok_inv in E as (fw & _ & E). destruct (j_enabled j0 && _).
    + destruct (_ && _); [done|]. apply bind_Ok_inv in E as (b & _ & E). apply bind_Ok_inv in E as (q & _ & E).
      by injection E as <-.
    + apply bind_Ok_inv in E as (q & _ & E). by injection E as <-.
  - destruct (negb _); [by injection E as <-|]. apply bind_Ok_inv in E as (fw & _ & E).
    destruct (_ <=? _); [by injection E as <-|]. apply bind_Ok_inv in E as (b & _ & E).
    destruct (drop_covered _ _ _ _) as [[b' rs'] bs']. by injection E as <-.
Qed.
End journal.

(** ** Micro-batches *)

Section batcher.
Context {R Clock : Type} (num_rows : R → option Z) (retained_size1 : R → Z).

(** [DownstreamBatcher]'s attributes; [idle_for last now] stands for
    [now - last >= self._idle_timeout] on the clock's floats. *)
Record Batcher := mkBatcher {
  ba_batches : list (list R);
  ba_started_at : list (option Clock);
  ba_rows : list Z;
  ba_bytes : list Z;
  ba_batch_size : nat;
  ba_max_rows : option Z;
  ba_max_bytes : option Z;
  ba_idle_for : Clock → Clock → bool
}.

Implicit Types (ba : Batcher) (target : nat).

Definition at_most_zero (o : option Z) : bool := match o with Some n => n <=? 0 | None => false end.

(** [__init__]; [idle_positive] is [idle_timeout > 0]. *)
Definition Batcher_init (target_count batch_size : Z) (idle_positive : bool) (idle_for : Clock → Clock → bool)
    (max_rows max_bytes : option Z) : outcome Batcher :=
  if target_count <=? 0 then Err ValueError
  else if batch_size <? 0 then Err ValueError
  else if negb idle_positive then Err ValueError
  else if at_most_zero max_rows then Err ValueError
  else if at_most_zero max_bytes then Err ValueError
  else
    let n := Z.to_nat target_count in
    Ok (mkBatcher (replicate n []) (replicate n None) (replicate n 0) (replicate n 0)
          (Z.to_nat (Z.max 1 batch_size)) max_rows max_bytes idle_for).

Definition batch_rows (r : R) : Z := default 1 (num_rows r).

Definition batcher_append target (record : R) (now : Clock) ba : outcome Batcher :=
  batch ← of_option IndexError (ba_batches ba !! target);
  rows ← of_option IndexError (ba_rows ba !! target);
  bytes ← of_option IndexError (ba_bytes ba !! target);
  Ok (mkBatcher (<[target := batch ++ [record]]> (ba_batches ba))
        (if decide (batch = []) then <[target := Some now]> (ba_started_at ba) else ba_started_at ba)
        (<[target := rows + batch_rows record]> (ba_rows ba))
        (<[target := bytes + retained_size1 record]> (ba_bytes ba))
        (ba_batch_size ba) (ba_max_rows ba) (ba_max_bytes ba) (ba_idle_for ba)).

(** [_take]. *)
Definition batcher_take target ba : outcome (list R * Batcher) :=
  batch ← of_option IndexError (ba_batches ba !! target);
  Ok (batch, mkBatcher (<[target := []]> (ba_batches ba)) (<[target := None]> (ba_started_at ba))
        (<[target := 0]> (ba_rows ba)) (<[target := 0]> (ba_bytes ba))
        (ba_batch_size ba) (ba_max_rows ba) (ba_max_bytes ba) (ba_idle_for ba)).

Definition reaches (limit : option Z) (n : Z) : bool :=
  match limit with Some l => l <=? n | None => false end.

Definition batcher_take_full target ba : outcome (list R * Batcher) :=
  batch ← of_option IndexError (ba_batches ba !! target);
  rows ← of_option IndexError (ba_rows ba !! target);
  bytes ← of_option IndexError (ba_bytes ba !! target);
  if (ba_batch_size ba <=? length batch)%nat || reaches (ba_max_rows ba) rows || reaches (ba_max_bytes ba) bytes
  then batcher_take target ba
  else Ok ([], ba).

(** One round of [drain]'s loop. *)
Definition drain_round (force : bool) (now : Clock) (acc : list (nat * list R) * Batcher) target
    : outcome (list (nat * list R) * Batcher) :=
  let '(out, ba) := acc in
  batch ← of_option IndexError (ba_batches ba !! target);
  started_at ← of_option IndexError (ba_started_at ba !! target);
  if negb (bool_decide (batch = [])) &&
     (force || match started_at with Some s => ba_idle_for ba s now | None => false end)
  then
    '(taken, ba) ← batcher_take target ba;
    Ok (out ++ [(target, taken)], ba)
  else Ok (out, ba).

(** [drain], run to its end. *)
Definition batcher_drain (force : bool) (now : Clock) ba : outcome (list (nat * list R) * Batcher) :=
  foldM (drain_round force now) ([], ba) (seq 0 (length (ba_batches ba))).

(** ** Histories of the batcher *)

Inductive batcher_op :=
  | BAppend (target : nat) (record : R) (now : Clock)
  | BTakeFull (target : nat)
  | BDrain (force : bool) (now : Clock).

(** The batches handed out so far, and the batcher. *)
Definition run_batcher (acc : list (nat * list R) * Batcher) (op : batcher_op)
    : outcome (list (nat * list R) * Batcher) :=
  let '(out, ba) := acc in
  match op with
  | BAppend t r now => ba ← batcher_append t r now ba; Ok (out, ba)
  | BTakeFull t => '(taken, ba) ← batcher_take_full t ba; Ok (out ++ [(t, taken)], ba)
  | BDrain force now => '(taken, ba) ← batcher_drain force now ba; Ok (out ++ taken, ba)
  end.

(** What was appended for, and handed out to, a target. *)
Definition appended (ops : list batcher_op) target : list R :=
  omap (λ op, match op with BAppend t r _ => if decide (t = target) then Some r else None | _ => None end) ops.

Definition handed_out (out : list (nat * list R)) target : list R :=
  mjoin (omap (λ o : nat * list R, if decide (o.1 = target) then Some o.2 else None) out).

(** The counters describe the batches, and a batch has a start time exactly when it
    is not empty. *)
Definition batcher_ok (n : nat) ba : Prop :=
  length (ba_batches ba) = n ∧
  ∀ t, (t < n)%nat → ∃ batch started,
    ba_batches ba !! t = Some batch ∧ ba_started_at ba !! t = Some started ∧
    ba_rows ba !! t = Some (sumZ (batch_rows <$> batch)) ∧
    ba_bytes ba !! t = Some (sumZ (retained_size1 <$> batch)) ∧
    (started = None ↔ batch = []).

(** The records of a target: those handed out, then those in its batch. *)
Definition batcher_view (out : list (nat * list R)) ba target : list R :=
  handed_out out target ++ default [] (ba_batches ba !! target).

Lemma handed_out_app out1 out2 t : handed_out (out1 ++ out2) t = handed_out out1 t ++ handed_out out2 t.
Proof. unfold handed_out. by rewrite omap_app, join_app. Qed.

Lemma handed_out_single t' taken t : handed_out [(t', taken)] t = if decide (t' = t) then taken else [].
Proof. unfold handed_out. cbn. case_decide; cbn; [apply app_nil_r|done]. Qed.

Lemma batcher_append_ok n ba t r now ba' :
  batcher_ok n ba → batcher_append t r now ba = Ok ba' →
  batcher_ok n ba' ∧ ∀ out t', batcher_view out ba' t' = batcher_view out ba t' ++ if decide (t = t') then [r] else [].
Proof.
  intros [Hlen Hok] Ha. unfold batcher_append in Ha.
  destruct (ba_batches ba !! t) as [batch|] eqn:Hb; [|done]. cbn [of_option] in Ha. rewrite bind_Ok in Ha.
  assert (Ht : (t < n)%nat) by (rewrite <-Hlen; by eapply lookup_lt_Some).
  destruct (Hok t Ht) as (batch' & st & Hb' & Hst & Hrow & Hby & Hiff).
  rewrite Hb in Hb'. injection Hb' as <-. rewrite Hrow, Hby in Ha. cbn in Ha. injection Ha as <-. split.
  - split; cbn; [by rewrite length_insert|]. intros t' Ht'.
    destruct (decide (t = t')) as [<-|Hne].
    + exists (batch ++ [r]), (if decide (batch = []) then Some now else st).
      rewrite !list_lookup_insert_eq by (lia || by eapply lookup_lt_Some).
      rewrite !fmap_app, !sumZ_app, !sumZ_single. split_and!; try done.
      * case_decide; [|done]. apply list_lookup_insert_eq. by eapply lookup_lt_Some.
      * case_decide; split; intros E; try done; [by destruct batch|tauto|by destruct batch].
    + destruct (Hok t' Ht') as (batch' & st' & ?). exists batch', st'.
      case_decide; rewrite !list_lookup_insert_ne by done; done.
  - intros out t'. unfold batcher_view; cbn. destruct (decide (t = t')) as [<-|Hne].
    + rewrite list_lookup_insert_eq by lia. rewrite Hb. cbn. by rewrite app_assoc.
    + rewrite list_lookup_insert_ne by done. by rewrite app_nil_r.
Qed.

Lemma batcher_take_ok n ba t taken ba' :
  batcher_ok n ba → batcher_take t ba = Ok (taken, ba') →
  batcher_ok n ba' ∧ (∀ out t', batcher_view (out ++ [(t, taken)]) ba' t' = batcher_view out ba t') ∧
  ba_batches ba' = <[t := []]> (ba_batches ba) ∧ ba_batches ba !! t = Some taken.
Proof.
  intros [Hlen Hok] Ha. unfold batcher_take in Ha.
  destruct (ba_batches ba !! t) as [batch|] eqn:Hb; [|done]. cbn [of_option] in Ha. rewrite bind_Ok in Ha.
  injection Ha as <- <-. assert (Ht : (t < n)%nat) by (rewrite <-Hlen; by eapply lookup_lt_Some).
  destruct (Hok t Ht) as (? & st & _ & Hst & Hrow & Hby & _). split_and!; [|intros out t'|done|done].
  - split; cbn; [by rewrite length_insert|]. intros t' Ht'. destruct (decide (t = t')) as [<-|Hne].
    + exists [], None. rewrite !list_lookup_insert_eq by (lia || by eapply lookup_lt_Some). done.
    + destruct (Hok t' Ht') as (b' & st' & ?). exists b', st'.
      rewrite !list_lookup_insert_ne by done. done.
  - unfold batcher_view; cbn. rewrite handed_out_app, handed_out_single.
    destruct (decide (t = t')) as [<-|Hne].
    + rewrite list_lookup_insert_eq by lia. rewrite Hb. cbn. by rewrite app_nil_r.
    + rewrite list_lookup_insert_ne by done. by rewrite app_nil_r.
Qed.

Lemma batcher_drain_ok n ba force now taken ba' :
  batcher_ok n ba → batcher_drain force now ba = Ok (taken, ba') →
  batcher_ok n ba' ∧ (∀ out t', batcher_view (out ++ taken) ba' t' = batcher_view out ba t') ∧
  Forall (λ b, b.2 ≠ []) taken ∧ (force = true → ∀ t, (t < n)%nat → ba_batches ba' !! t = Some []).
Proof.
  intros Hok. unfold batcher_drain. rewrite (proj1 Hok).
  assert (∀ m, (m ≤ n)%nat → foldM (drain_round force now) ([], ba) (seq 0 m) = Ok (taken, ba') →
    batcher_ok n ba' ∧ (∀ out t', batcher_view (out ++ taken) ba' t' = batcher_view out ba t') ∧
    Forall (λ b, b.2 ≠ []) taken ∧ (force = true → ∀ t, (t < m)%nat → ba_batches ba' !! t = Some [])) as Hm;
    [|by apply Hm].
  intros m. revert taken ba'. induction m as [|m IH]; intros taken ba' Hm Hrun.
  { injection Hrun as <- <-. split_and!; [done| |done|lia]. intros out t'. by rewrite app_nil_r. }
  rewrite seq_S, foldM_app in Hrun. apply bind_Ok_inv in Hrun as ([taken1 ba1] & Hrun & Hlast).
  destruct (IH _ _ ltac:(lia) Hrun) as (Hok1 & Hview & Hne & Hforce). cbn [foldM Nat.add] in Hlast.
  destruct (drain_round force now (taken1, ba1) m) as [[taken2 ba2]|] eqn:Hround; [|done].
  injection Hlast as -> ->. unfold drain_round in Hround.
  destruct (proj2 Hok1 m ltac:(lia)) as (batch & st & Hb & Hst & _ & _ & Hiff).
  rewrite Hb, Hst in Hround. cbn [of_option] in Hround. rewrite !bind_Ok in Hround.
  destruct (negb (bool_decide (batch = [])) && _) eqn:Hcond.
  - apply bind_Ok_inv in Hround as ([tk ba3] & Htake & Hround). injection Hround as <- <-.
    destruct (batcher_take_ok _ _ _ _ _ Hok1 Htake) as (Hok3 & Hv & Hbs & Htk). rewrite Hb in Htk. injection Htk as <-.
    split_and!; [done| | |].
    + intros out t'. by rewrite app_assoc, Hv.
    + apply Forall_app. split; [done|]. constructor; [|done]. cbn. bool_props. done.
    + intros Hf t Ht. rewrite Hbs. destruct (decide (t = m)) as [->|].
      * apply list_lookup_insert_eq. by eapply lookup_lt_Some.
      * rewrite list_lookup_insert_ne by done. apply Hforce; [done|lia].
  - injection Hround as <- <-. split_and!; [done|done|done|].
    intros Hf t Ht. destruct (decide (t = m)) as [->|]; [|apply Hforce; [done|lia]].
    rewrite Hf in Hcond. cbn in Hcond. rewrite andb_true_r in Hcond. bool_props. by subst.
Qed.

Lemma run_batcher_ok n out ba op out' ba' :
  batcher_ok n ba → run_batcher (out, ba) op = Ok (out', ba') →
  batcher_ok n ba' ∧ ∀ t, batcher_view out' ba' t = batcher_view out ba t ++ appended [op] t.
Proof.
  intros Hok. destruct op as [t r now|t|force now]; cbn [run_batcher]; intros Hrun.
  - apply bind_Ok_inv in Hrun as (ba1 & Ha & Hrun). injection Hrun as <- <-.
    destruct (batcher_append_ok _ _ _ _ _ _ Hok Ha) as [Hok1 Hv]. split; [done|].
    intros t'. rewrite Hv. f_equal. cbn. by case_decide.
  - apply bind_Ok_inv in Hrun as ([taken ba1] & Ha & Hrun). injection Hrun as <- <-.
    assert (Hnil : ∀ t' l, batcher_view (out ++ [(t, [] : list R)]) ba t' = batcher_view out ba t' ++ appended [BTakeFull l] t').
    { intros t' l. unfold batcher_view. rewrite handed_out_app, handed_out_single. cbn. case_decide; by rewrite !app_nil_r. }
    unfold batcher_take_full in Ha.
    apply bind_Ok_inv in Ha as (batch & _ & Ha). apply bind_Ok_inv in Ha as (rows & _ & Ha).
    apply bind_Ok_inv in Ha as (byts & _ & Ha).
    destruct ((ba_batch_size ba <=? length batch)%nat || _ || _).
    + destruct (batcher_take_ok _ _ _ _ _ Hok Ha) as (Hok1 & Hv & _). split; [done|]. intros t'. rewrite Hv. cbn. by rewrite app_nil_r.
    + injection Ha as <- <-. split; [done|]. intros t'. apply Hnil.
  - apply bind_Ok_inv in Hrun as ([taken ba1] & Ha & Hrun). injection Hrun as <- <-.
    destruct (batcher_drain_ok _ _ _ _ _ _ Hok Ha) as (Hok1 & Hv & _). split; [done|].
    intros t'. rewrite Hv. cbn. by rewrite app_nil_r.
Qed.
End batcher.

(** ** Properties *)

(** C18. The journal is exactly what replay needs: after any history of landed
    batches (with increasing sequences per target) and acknowledgements in any order,
    an acknowledgement overtaking its own batch included, [pending_for] returns the
    landed batches above the highest acknowledgement, in order; the byte and record
    counters are the sums over what is retained, and never exceed the limit. *)
Theorem journal_refines {R S : Type} (num_rows : R → option Z) (retained_size : list R → Z) n max_bytes
    (sender : option S) name edge epoch ops (j0 j : DeliveryJournal) :
  journal_configure true sender max_bytes name edge epoch (DeliveryJournal_init n) = Ok j0 →
  (∀ op, op ∈ ops → (op_target op < n)%nat) → (∀ t, StronglySorted Z.lt (landed ops t).*1) →
  foldM (run_journal_op num_rows retained_size) j0 ops = Ok j →
  (∀ t, (t < n)%nat → pending_for t j = Ok (unacked ops t)) ∧
  j_buffered_bytes j = sumZ ((λ b, sumZ (re_size_bytes <$> b)) <$> j_buffer j) ∧
  j_buffered_records j = sumZ ((λ b, sumZ (re_row_count <$> b)) <$> j_buffer j) ∧
  ((∀ rs, 0 <= retained_size rs) → j_buffered_bytes j <= max_bytes).
Proof.
  intros Hconf Hin Hs Hrun. unfold journal_configure in Hconf. cbn [andb] in Hconf.
  destruct (Z.leb_spec max_bytes 0) as [|Hmax]; [done|].
  rewrite (proj2 (Z.ltb_ge _ _)) in Hconf by lia. injection Hconf as <-.
  assert (Hsum0 : ∀ f : list ReplayEntry → Z, f [] = 0 → sumZ (f <$> replicate n ([] : list (@ReplayEntry R))) = 0).
  { intros f Hf. rewrite fmap_replicate, Hf. clear. induction n; [done|]. cbn [replicate]. rewrite sumZ_cons. lia. }
  match type of Hrun with foldM _ ?j0 _ = _ => set (start := j0) in Hrun end.
  assert (Hr0 : journal_repr num_rows retained_size n [] start).
  { split; cbn; rewrite ?length_replicate; try done.
    - intros t Ht. by apply lookup_replicate_2.
    - intros t Ht. by apply lookup_replicate_2.
    - by rewrite (Hsum0 (λ b, sumZ (re_size_bytes <$> b))).
    - by rewrite (Hsum0 (λ b, sumZ (re_row_count <$> b))).
    - lia. }
  assert (Hmb : j_max_bytes j = max_bytes) by exact (run_journal_max_bytes _ _ _ _ _ Hrun).
  pose proof (run_journal_repr _ _ _ _ _ _ Hr0 Hin Hs Hrun) as Hr. split_and!.
  - intros t Ht. unfold pending_for. rewrite (jr_buffer _ _ _ _ _ Hr t Ht). cbn. f_equal.
    rewrite <-list_fmap_compose. rewrite <-(list_fmap_id (unacked ops t)) at 2. apply list_fmap_ext. by intros i [s rs] _.
  - apply (jr_bytes _ _ _ _ _ Hr).
  - apply (jr_records _ _ _ _ _ Hr).
  - intros Hnn. rewrite <-Hmb. apply (jr_max _ _ _ _ _ Hr). split; [lia|done].
Qed.

Lemma journal_refines_witness :
  ∃ j0 j, journal_configure true (Some 1) 100 (Some "t"%string) (Some 0) None (@DeliveryJournal_init Z Z 2) = Ok j0 ∧
    foldM (run_journal_op (λ _, None) (λ rs, Z.of_nat (length rs))) j0
      [Deliver 0 [10; 11] 1; Acknowledge 1 1; Deliver 1 [20] 1; Deliver 0 [12] 2; Acknowledge 0 1] = Ok j ∧
    pending_for 0 j = Ok [(2, [12])] ∧ pending_for 1 j = Ok [].
Proof.
  eexists _, _. split; [reflexivity|]. split; [vm_compute; reflexivity|].
  pose proof (journal_refines (λ _ : Z, None) (λ rs, Z.of_nat (length rs)) 2 100 (Some 1) (Some "t"%string) (Some 0) None
    [Deliver 0 [10; 11] 1; Acknowledge 1 1; Deliver 1 [20] 1; Deliver 0 [12] 2; Acknowledge 0 1]) as Hp.
  edestruct Hp as [Hpend _]; [reflexivity| | |vm_compute; reflexivity|].
  - intros op Hop. repeat (apply elem_of_cons in Hop as [->|Hop]; [cbn; lia|]). by apply not_elem_of_nil in Hop.
  - intros [|[|t]]; cbn; repeat constructor; lia.
  - split; [apply (Hpend 0%nat); lia|apply (Hpend 1%nat); lia].
Defined.

(** Micro-batching neither loses, duplicates nor reorders: after any history of
    appends, size-triggered takes and drains, what was handed out for a target
    followed by its current batch is what was appended for it, in order; the row and
    byte counters describe the batch, and a forced drain empties every target without
    handing out an empty batch. *)
Theorem batcher_preserves_order {R Clock : Type} (num_rows : R → option Z) (size1 : R → Z) count size positive
    (idle_for : Clock → Clock → bool) max_rows max_bytes ops (ba0 ba : Batcher) out :
  Batcher_init count size positive idle_for max_rows max_bytes = Ok ba0 →
  foldM (run_batcher num_rows size1) ([], ba0) ops = Ok (out, ba) →
  (∀ t, handed_out out t ++ default [] (ba_batches ba !! t) = appended ops t) ∧
  (∀ t, (t < Z.to_nat count)%nat → ∃ batch,
     ba_batches ba !! t = Some batch ∧ ba_rows ba !! t = Some (sumZ (batch_rows num_rows <$> batch)) ∧
     ba_bytes ba !! t = Some (sumZ (size1 <$> batch))) ∧
  (∀ now taken ba', batcher_drain true now ba = Ok (taken, ba') →
     Forall (λ b, b.2 ≠ []) taken ∧ ∀ t, (t < Z.to_nat count)%nat → ba_batches ba' !! t = Some []).
Proof.
  intros Hinit Hrun. unfold Batcher_init in Hinit.
  destruct (Z.leb_spec count 0); [done|]. repeat (case_step_in Hinit; [done|]). injection Hinit as <-.
  set (n := Z.to_nat count) in *. match type of Hrun with foldM _ ([], ?b) _ = _ => set (ba0 := b) in Hrun end.
  assert (Hok0 : batcher_ok num_rows size1 n ba0).
  { split; cbn; [apply length_replicate|]. intros t Ht. exists [], None.
    rewrite !lookup_replicate_2 by done. done. }
  assert (Hall : batcher_ok num_rows size1 n ba ∧ ∀ t, batcher_view out ba t = appended ops t).
  { revert out ba Hrun. induction ops as [|op ops IH] using rev_ind; intros out ba Hrun.
    - injection Hrun as <- <-. split; [done|]. intros t. unfold batcher_view; cbn.
      destruct (replicate n [] !! t) as [l|] eqn:E; [|done]. apply lookup_replicate in E as [-> _]. done.
    - rewrite foldM_app in Hrun. apply bind_Ok_inv in Hrun as ([out1 ba1] & Hrun & Hlast).
      destruct (IH _ _ Hrun) as [Hok1 Hv1]. cbn [foldM] in Hlast.
      destruct (run_batcher num_rows size1 (out1, ba1) op) as [[out2 ba2]|] eqn:E; [|done]. injection Hlast as -> ->.
      destruct (run_batcher_ok _ _ _ _ _ _ _ _ Hok1 E) as [Hok2 Hv2]. split; [done|].
      intros t. rewrite Hv2, Hv1. unfold appended. by rewrite omap_app. }
  destruct Hall as [Hok Hview]. split_and!.
  - exact Hview.
  - intros t Ht. destruct (proj2 Hok t Ht) as (batch & st & ? & _ & ? & ? & _). eauto.
  - intros now taken ba' Hd. destruct (batcher_drain_ok _ _ _ _ _ _ _ _ Hok Hd) as (_ & _ & Hne & Hforce). auto.
Qed.

Lemma batcher_preserves_order_witness :
  ∃ ba0 out ba, Batcher_init 2 2 true (λ a b : Z, 3 <=? b - a) None None = Ok ba0 ∧
    foldM (run_batcher (λ _, None) (λ _, 1)) ([], ba0)
      [BAppend 0 10 0; BAppend 1 20 0; BAppend 0 11 1; BTakeFull 0; BAppend 0 12 1; BDrain false 3] = Ok (out, ba) ∧
    handed_out out 0 ++ default [] (ba_batches ba !! 0%nat) = [10; 11; 12].
Proof.
  eexists _, _, _. split; [reflexivity|]. split; [vm_compute; reflexivity|].
  eapply (batcher_preserves_order (λ _ : Z, None) (λ _, 1) 2 2 true (λ a b : Z, 3 <=? b - a) None None
    [BAppend 0 10 0; BAppend 1 20 0; BAppend 0 11 1; BTakeFull 0; BAppend 0 12 1; BDrain false 3]);
    [reflexivity|vm_compute; reflexivity].
Defined.
