(* ===== verification/WeightedQueue.v ===== *)
(** * The weighted inbox of a task

    Models [src/ray/klein/runtime/worker/weighted_queue.py]: a FIFO whose capacity is
    counted in rows and bytes.  A coroutine that waits on the condition is a step
    that is enabled only when its predicate holds; every other operation is a
    function of the queue.

    The external byte reservation is read from a callback: each read is an argument
    [external], of any Python type, as the code checks it. *)
From S2P Require Import Prelude.
Open Scope Z_scope.

Section queue.
Context {T : Type} (weigh : T → Z) (size_bytes : option (T → Z)).

(** One entry of [_items]: the item, its weight and its size. *)
Record entry := mkEntry { e_item : T; e_weight : Z; e_bytes : Z }.

(** [WeightedQueue]'s attributes. *)
Record WeightedQueue := mkQueue {
  wq_max_weight : Z;
  wq_max_bytes : option Z;
  wq_items : list entry;
  wq_weight : Z;
  wq_bytes : Z;
  wq_bound : bool
}.

Implicit Types (q : WeightedQueue) (external : pyarg).

Definition WeightedQueue_init (max_weight : Z) (max_bytes : option Z) : outcome WeightedQueue :=
  if max_weight <=? 0 then Err ValueError
  else if match max_bytes with Some b => b <=? 0 | None => false end then Err ValueError
  else if negb (Bool.eqb (bool_decide (max_bytes = None)) (match size_bytes with None => true | Some _ => false end))
  then Err ValueError
  else Ok (mkQueue max_weight max_bytes [] 0 0 false).

Definition bind_external_byte_reservation q : outcome WeightedQueue :=
  match wq_max_bytes q with
  | None => Ok q
  | Some _ =>
      if wq_bound q then Err RuntimeError
      else Ok (mkQueue (wq_max_weight q) (wq_max_bytes q) (wq_items q) (wq_weight q) (wq_bytes q) true)
  end.

(** [_measure]. *)
Definition measure (item : T) : outcome (Z * Z) :=
  let weight := weigh item in
  if weight <=? 0 then Err ValueError
  else
    let size := match size_bytes with None => 0 | Some f => f item end in
    if size <? 0 then Err ValueError else Ok (weight, size).

(** [_external_byte_size]. *)
Definition external_byte_size external q : outcome Z :=
  if negb (wq_bound q) then Ok 0
  else
    match arg_int external with
    | None => Err RuntimeError
    | Some n => if n <? 0 then Err RuntimeError else Ok n
    end.

(** [_can_admit]. *)
Definition can_admit external (weight size : Z) q : outcome bool :=
  external_bytes ← external_byte_size external q;
  Ok (if bool_decide (wq_items q = []) && (external_bytes =? 0) then true
      else if wq_max_weight q <? wq_weight q + weight then false
      else match wq_max_bytes q with
           | None => true
           | Some max_bytes => wq_bytes q + external_bytes + size <=? max_bytes
           end).

(** [_admit]. *)
Definition admit_item (item : T) (weight size : Z) q : WeightedQueue :=
  mkQueue (wq_max_weight q) (wq_max_bytes q) (wq_items q ++ [mkEntry item weight size])
    (wq_weight q + weight) (wq_bytes q + size) (wq_bound q).

(** [put], once the wait is over: enabled when the predicate holds. *)
Definition queue_put external (item : T) q : outcome (option WeightedQueue) :=
  '(weight, size) ← measure item;
  ok ← can_admit external weight size q;
  Ok (if ok : bool then Some (admit_item item weight size q) else None).

Definition try_put external (item : T) q : outcome (bool * WeightedQueue) :=
  '(weight, size) ← measure item;
  ok ← can_admit external weight size q;
  Ok (if ok : bool then (true, admit_item item weight size q) else (false, q)).

Definition put_control (item : T) q : outcome WeightedQueue :=
  '(weight, size) ← measure item;
  Ok (admit_item item weight size q).

(** [_take]: the item at an index. *)
Definition take_at (index : nat) q : outcome (T * WeightedQueue) :=
  e ← of_option IndexError (wq_items q !! index);
  Ok (e_item e, mkQueue (wq_max_weight q) (wq_max_bytes q) (delete index (wq_items q))
                  (wq_weight q - e_weight e) (wq_bytes q - e_bytes e) (wq_bound q)).

(** [get]: [None] while it waits for an item. *)
Definition queue_get q : outcome (option (T * WeightedQueue)) :=
  match wq_items q with
  | [] => Ok None
  | _ :: _ => r ← take_at 0 q; Ok (Some r)
  end.

(** The first eligible index. *)
Fixpoint first_index (predicate : T → bool) (items : list entry) : option nat :=
  match items with
  | [] => None
  | e :: items => if predicate (e_item e) then Some O else S <$> first_index predicate items
  end.

(** [get_matching]: [None] while no item is eligible. *)
Definition get_matching (predicate : T → bool) q : outcome (option (T * WeightedQueue)) :=
  match first_index predicate (wq_items q) with
  | None => Ok None
  | Some index => r ← take_at index q; Ok (Some r)
  end.

Definition qsize q : Z := wq_weight q.
Definition byte_size q : Z := wq_bytes q.
Definition retained_byte_size external q : outcome Z :=
  e ← external_byte_size external q; Ok (wq_bytes q + e).
Definition envelope_count q : nat := length (wq_items q).

(** ** Steps of the queue's users *)

Context (is_control : T → bool) {L : Type} `{EqDecision L} (lane : T → L).

(** A completed call; the last argument is the item taken, if any. *)
Inductive queue_step q : list T → list T → WeightedQueue → Prop :=
  | step_put external item q' :
      is_control item = false → queue_put external item q = Ok (Some q') → queue_step q [item] [] q'
  | step_try_put external item ok q' :
      is_control item = false → try_put external item q = Ok (ok, q') →
      queue_step q (if ok then [item] else []) [] q'
  | step_put_control item q' :
      is_control item = true → put_control item q = Ok q' → queue_step q [item] [] q'
  | step_get item q' : queue_get q = Ok (Some (item, q')) → queue_step q [] [item] q'
  | step_get_matching predicate item q' :
      (∀ x y, lane x = lane y → predicate x = predicate y) →
      get_matching predicate q = Ok (Some (item, q')) → queue_step q [] [item] q'.

(** A history: everything admitted and everything taken so far. *)
Inductive queue_history q0 : list T → list T → WeightedQueue → Prop :=
  | history_nil : queue_history q0 [] [] q0
  | history_step admitted taken q a t q' :
      queue_history q0 admitted taken q → queue_step q a t q' →
      queue_history q0 (admitted ++ a) (taken ++ t) q'.

(** ** Lemmas *)

Definition total (f : entry → Z) (l : list entry) : Z := foldr (λ e n, f e + n) 0 l.

Definition data_entries (l : list entry) : list entry := filter (λ e, is_control (e_item e) = false) l.

Definition entry_ok (e : entry) : Prop := 0 < e_weight e ∧ 0 <= e_bytes e.

(** The counters are exact, and the data (everything but control items) is within
    both limits unless it is one item alone. *)
Record queue_ok q : Prop := {
  qo_weight : wq_weight q = total e_weight (wq_items q);
  qo_bytes : wq_bytes q = total e_bytes (wq_items q);
  qo_entries : Forall entry_ok (wq_items q);
  qo_limits : (length (data_entries (wq_items q)) <= 1)%nat ∨
    (total e_weight (data_entries (wq_items q)) <= wq_max_weight q ∧
     ∀ m, wq_max_bytes q = Some m → total e_bytes (data_entries (wq_items q)) <= m)
}.

Lemma total_app f l1 l2 : total f (l1 ++ l2) = total f l1 + total f l2.
Proof. unfold total. induction l1; cbn; lia. Qed.

Lemma total_delete f l i e : l !! i = Some e → total f (delete i l) = total f l - f e.
Proof.
  revert i; induction l as [|x l IH]; intros [|i] Hi; try done.
  - injection Hi as ->. cbn. lia.
  - change (f x + total f (delete i l) = f x + total f l - f e). rewrite (IH i Hi). lia.
Qed.

Lemma total_sublist f l k :
  (∀ e, e ∈ k → 0 <= f e) → l `sublist_of` k → total f l <= total f k.
Proof.
  intros Hk Hs. induction Hs as [|x l k Hs IH|x l k Hs IH]; [done| |].
  - change (f x + total f l <= f x + total f k). specialize (IH ltac:(intros; apply Hk; by right)). lia.
  - change (total f l <= f x + total f k). specialize (IH ltac:(intros; apply Hk; by right)).
    assert (0 <= f x) by (apply Hk; by left). lia.
Qed.

Lemma total_single f e : total f [e] = f e.
Proof. apply Z.add_0_r. Qed.

Lemma total_nil f : total f [] = 0.
Proof. done. Qed.

Arguments total : simpl never.

Lemma first_index_Some predicate l i :
  first_index predicate l = Some i →
  ∃ e, l !! i = Some e ∧ predicate (e_item e) = true ∧ Forall (λ e, predicate (e_item e) = false) (take i l).
Proof.
  revert i; induction l as [|e l IH]; intros i; cbn; [done|].
  destruct (predicate (e_item e)) eqn:E.
  - intros [= <-]. by exists e.
  - intros (j & Hj & ->)%fmap_Some. destruct (IH _ Hj) as (e' & He' & Hp & Hf). exists e'. by repeat constructor.
Qed.

Lemma take_at_Ok i q item q' :
  take_at i q = Ok (item, q') →
  ∃ e, wq_items q !! i = Some e ∧ item = e_item e ∧ wq_items q' = delete i (wq_items q) ∧
    wq_weight q' = wq_weight q - e_weight e ∧ wq_bytes q' = wq_bytes q - e_bytes e ∧
    wq_max_weight q' = wq_max_weight q ∧ wq_max_bytes q' = wq_max_bytes q.
Proof.
  unfold take_at. destruct (wq_items q !! i) as [e|]; [|done]. cbn. intros [= <- <-]. by exists e.
Qed.

Lemma take_at_ok i q item q' : queue_ok q → take_at i q = Ok (item, q') → queue_ok q'.
Proof.
  intros Hq Ht. destruct (take_at_Ok _ _ _ _ Ht) as (e & He & -> & Hit & Hw & Hb & Hmw & Hmb).
  assert (Hsub : data_entries (wq_items q') `sublist_of` data_entries (wq_items q)).
  { rewrite Hit. unfold data_entries. clear. generalize (wq_items q). intros l.
    revert i; induction l as [|x l IH]; intros [|i]; cbn [delete list_delete]; try done.
    - rewrite filter_cons. case_decide; [by constructor|done].
    - rewrite !filter_cons. case_decide; [by constructor|done]. }
  assert (Hent : ∀ x, x ∈ data_entries (wq_items q) → entry_ok x).
  { intros x [_ Hx]%list_elem_of_filter. pose proof (qo_entries _ Hq) as Hf. rewrite Forall_forall in Hf. auto. }
  split.
  - by rewrite Hit, (total_delete _ _ _ _ He), Hw, (qo_weight _ Hq).
  - by rewrite Hit, (total_delete _ _ _ _ He), Hb, (qo_bytes _ Hq).
  - rewrite Hit. apply Forall_delete, (qo_entries _ Hq).
  - destruct (qo_limits _ Hq) as [Hl|[Hl1 Hl2]].
    + left. apply sublist_length in Hsub. lia.
    + right. rewrite Hmw, Hmb. split.
      * etrans; [apply total_sublist; [|exact Hsub]|done]. intros x Hx. destruct (Hent _ Hx). lia.
      * intros m Hm. etrans; [apply total_sublist; [|exact Hsub]|by apply Hl2]. intros x Hx. by destruct (Hent _ Hx).
Qed.

Lemma measure_Ok item w s : measure item = Ok (w, s) → 0 < w ∧ 0 <= s.
Proof.
  unfold measure. destruct (Z.leb_spec (weigh item) 0); [done|].
  destruct (Z.ltb_spec (match size_bytes with None => 0 | Some f => f item end) 0); [done|]. by intros [= <- <-].
Qed.

Lemma admit_ok item w s q :
  queue_ok q → 0 < w → 0 <= s →
  (is_control item = true ∨ (length (data_entries (wq_items q)) = 0)%nat ∨
   (total e_weight (data_entries (wq_items q)) + w <= wq_max_weight q ∧
    ∀ m, wq_max_bytes q = Some m → total e_bytes (data_entries (wq_items q)) + s <= m)) →
  queue_ok (admit_item item w s q).
Proof.
  intros Hq Hw Hs Hc. split; cbn.
  - by rewrite total_app, total_single, (qo_weight _ Hq).
  - by rewrite total_app, total_single, (qo_bytes _ Hq).
  - apply Forall_app. split; [apply (qo_entries _ Hq)|by repeat constructor].
  - unfold data_entries in *. rewrite filter_app, length_app, !total_app.
    destruct (is_control item) eqn:E.
    { rewrite (filter_cons_False _ _ []); [|cbn; congruence]. cbn. rewrite Nat.add_0_r, !total_nil.
      destruct (qo_limits _ Hq) as [Hq1|[Hq1 Hq2]]; [by left|right]. unfold data_entries in *.
      rewrite !Z.add_0_r. split; [exact Hq1|exact Hq2]. }
    rewrite (filter_cons_True _ _ []) by done. cbn. rewrite !total_single. cbn. destruct Hc as [|[Hc|[Hc1 Hc2]]]; [done|left; lia|right].
    split; [lia|]. intros m Hm. specialize (Hc2 m Hm). lia.
Qed.

Lemma can_admit_limits external w s q :
  queue_ok q → can_admit external w s q = Ok true →
  (length (data_entries (wq_items q)) = 0)%nat ∨
  (total e_weight (data_entries (wq_items q)) + w <= wq_max_weight q ∧
   ∀ m, wq_max_bytes q = Some m → total e_bytes (data_entries (wq_items q)) + s <= m).
Proof.
  intros Hq Hc. unfold can_admit in Hc. apply bind_Ok_inv in Hc as (ext & Hext & Hc).
  assert (0 <= ext).
  { unfold external_byte_size in Hext. destruct (negb _); [injection Hext as <-; lia|].
    destruct (arg_int external) as [n|]; [|done]. destruct (Z.ltb_spec n 0); [done|]. by injection Hext as <-. }
  case_bool_decide as Hnil; [left; by rewrite Hnil|]. cbn in Hc. injection Hc as Hc.
  destruct (Z.ltb_spec (wq_max_weight q) (wq_weight q + w)); [done|]. right.
  assert (Hent : ∀ x, x ∈ wq_items q → entry_ok x) by (apply Forall_forall, (qo_entries _ Hq)).
  assert (Hsub : data_entries (wq_items q) `sublist_of` wq_items q) by apply filter_sublist.
  assert (total e_weight (data_entries (wq_items q)) <= wq_weight q).
  { rewrite (qo_weight _ Hq). apply total_sublist; [|done]. intros x Hx. destruct (Hent _ Hx). lia. }
  assert (total e_bytes (data_entries (wq_items q)) <= wq_bytes q).
  { rewrite (qo_bytes _ Hq). apply total_sublist; [|done]. intros x Hx. by destruct (Hent _ Hx). }
  split; [lia|]. intros m Hm. rewrite Hm in Hc. apply Z.leb_le in Hc. lia.
Qed.

(** The items of one lane. *)
Definition of_lane (l : L) (items : list T) : list T := filter (λ x, lane x = l) items.

(** Taking at [index] takes the first item of its lane. *)
Lemma take_at_lane i q item q' l :
  take_at i q = Ok (item, q') →
  (∀ e, e ∈ take i (wq_items q) → lane (e_item e) ≠ lane item) →
  of_lane l (e_item <$> wq_items q) = of_lane l [item] ++ of_lane l (e_item <$> wq_items q').
Proof.
  intros Ht Hfirst. destruct (take_at_Ok _ _ _ _ Ht) as (e & He & -> & -> & _).
  pose proof (take_drop_middle _ _ _ He) as Hsplit. rewrite delete_take_drop.
  unfold of_lane in *. rewrite fmap_app, filter_app. rewrite <-Hsplit at 1. rewrite fmap_app, fmap_cons, filter_app.
  change (e_item e :: (e_item <$> drop (S i) (wq_items q))) with ([e_item e] ++ (e_item <$> drop (S i) (wq_items q))).
  rewrite filter_app. destruct (decide (lane (e_item e) = l)) as [Heq|Hne].
  - rewrite (filter_none (λ x, lane x = l) (e_item <$> take i (wq_items q))); [done|].
    intros x (e' & -> & He')%list_elem_of_fmap Hl. apply (Hfirst e' He'). congruence.
  - rewrite (filter_cons_False _ _ []) by done. done.
Qed.
End queue.
Arguments entry T : clear implicits.
Arguments WeightedQueue T : clear implicits.

Section queue_histories.
Context {T : Type} (weigh : T → Z) (size_bytes : option (T → Z)) (is_control : T → bool) {L : Type} `{EqDecision L}
  (lane : T → L).

Lemma queue_step_inv q a t q' :
  queue_ok is_control q → queue_step weigh size_bytes is_control lane q a t q' →
  queue_ok is_control q' ∧ wq_max_weight q' = wq_max_weight q ∧ wq_max_bytes q' = wq_max_bytes q ∧
  ∀ l, of_lane lane l (e_item <$> wq_items q) ++ of_lane lane l a =
    of_lane lane l t ++ of_lane lane l (e_item <$> wq_items q').
Proof.
  intros Hq Hstep.
  assert (Hadmit : ∀ item w s l, of_lane lane l (e_item <$> wq_items q) ++ of_lane lane l [item] =
    of_lane lane l (e_item <$> wq_items (admit_item item w s q))).
  { intros item w s l. unfold of_lane. cbn. by rewrite fmap_app, filter_app. }
  destruct Hstep as [external item q' Hc Hput|external item ok q' Hc Hput|item q' Hc Hput|item q' Hget|predicate item q' Hp Hget].
  - unfold queue_put in Hput. apply bind_Ok_inv in Hput as ([w s] & Hm & Hput).
    apply bind_Ok_inv in Hput as (ok & Hcan & Hput). destruct ok; [|done]. injection Hput as <-.
    destruct (measure_Ok _ _ _ _ _ Hm). split_and!; [|done|done|intros l; by rewrite <-Hadmit].
    apply admit_ok; [done..|]. right. by eapply can_admit_limits.
  - unfold try_put in Hput. apply bind_Ok_inv in Hput as ([w s] & Hm & Hput).
    apply bind_Ok_inv in Hput as (ok' & Hcan & Hput). destruct ok'; injection Hput as <- <-.
    + destruct (measure_Ok _ _ _ _ _ Hm). split_and!; [|done|done|intros l; by rewrite <-Hadmit].
      apply admit_ok; [done..|]. right. by eapply can_admit_limits.
    + split_and!; try done. intros l. apply app_nil_r.
  - unfold put_control in Hput. apply bind_Ok_inv in Hput as ([w s] & Hm & Hput). injection Hput as <-.
    destruct (measure_Ok _ _ _ _ _ Hm). split_and!; [|done|done|intros l; by rewrite <-Hadmit]. apply admit_ok; [done..|by left].
  - unfold queue_get in Hget. destruct (wq_items q) as [|e items] eqn:Hi; [done|].
    apply bind_Ok_inv in Hget as ([item' q''] & Htake & Hget). injection Hget as -> ->.
    destruct (take_at_Ok _ _ _ _ Htake) as (_ & _ & _ & _ & _ & _ & Hmw & Hmb).
    split_and!; [by eapply take_at_ok|done|done|]. intros l. rewrite app_nil_r, <-Hi.
    eapply (take_at_lane lane 0); [done|]. rewrite take_0. by intros e' ?%not_elem_of_nil.
  - unfold get_matching in Hget. destruct (first_index predicate (wq_items q)) as [i|] eqn:Hi; [|done].
    apply bind_Ok_inv in Hget as ([item' q''] & Htake & Hget). injection Hget as -> ->.
    destruct (take_at_Ok _ _ _ _ Htake) as (e & He & Hitem & _ & _ & _ & Hmw & Hmb).
    split_and!; [by eapply take_at_ok|done|done|]. intros l. rewrite app_nil_r.
    eapply (take_at_lane lane i); [done|]. intros e' He' Hl.
    destruct (first_index_Some _ _ _ Hi) as (e2 & He2 & Hpe & Hf). rewrite Forall_forall in Hf. specialize (Hf _ He').
    rewrite He in He2. injection He2 as <-. rewrite Hitem in Hl. rewrite (Hp _ _ Hl) in Hf. congruence.
Qed.
End queue_histories.

(** ** Properties *)

(** C20. The inbox is bounded and keeps every lane in order.  In any history of
    blocking and non-blocking puts, control admissions and takes from a fresh queue:
    the counters equal the sums over the queued items; the data items (everything but
    the controls admitted without capacity) are within the row and the byte limit,
    unless the queue holds a single data item; and for every lane, the items admitted
    are the items taken followed by those still queued, in order, even when
    [get_matching] skips blocked lanes. *)
Theorem weighted_queue_bounded_fifo {T L : Type} `{EqDecision L} (weigh : T → Z) (size_bytes : option (T → Z))
    (is_control : T → bool) (lane : T → L) max_weight max_bytes q0 admitted taken q :
  WeightedQueue_init (T := T) size_bytes max_weight max_bytes = Ok q0 →
  queue_history weigh size_bytes is_control lane q0 admitted taken q →
  qsize q = total e_weight (wq_items q) ∧ byte_size q = total e_bytes (wq_items q) ∧
  ((length (data_entries is_control (wq_items q)) <= 1)%nat ∨
   (total e_weight (data_entries is_control (wq_items q)) <= max_weight ∧
    ∀ m, max_bytes = Some m → total e_bytes (data_entries is_control (wq_items q)) <= m)) ∧
  ∀ l, of_lane lane l admitted = of_lane lane l taken ++ of_lane lane l (e_item <$> wq_items q).
Proof.
  intros Hinit Hh. unfold WeightedQueue_init in Hinit. repeat (case_step_in Hinit; [done|]). injection Hinit as <-.
  assert (Hall : queue_ok is_control q ∧ wq_max_weight q = max_weight ∧ wq_max_bytes q = max_bytes ∧
    ∀ l, of_lane lane l admitted = of_lane lane l taken ++ of_lane lane l (e_item <$> wq_items q)).
  { induction Hh as [|admitted taken q a t q' Hh IH Hstep].
    - split_and!; try done. split; cbn; try done. left. cbn. lia.
    - destruct IH as (Hok & Hmw & Hmb & Hlane).
      destruct (queue_step_inv weigh size_bytes is_control lane _ _ _ _ Hok Hstep) as (Hok' & Hmw' & Hmb' & Hl).
      split_and!; [done|congruence|congruence|]. intros l. specialize (Hl l). unfold of_lane in *.
      rewrite !filter_app, Hlane, <-!app_assoc. by rewrite Hl. }
  destruct Hall as (Hok & <- & <- & Hlane). split_and!; [apply (qo_weight _ _ Hok)|apply (qo_bytes _ _ Hok)|apply (qo_limits _ _ Hok)|done].
Qed.

Lemma weighted_queue_bounded_fifo_witness :
  ∃ q0 q, WeightedQueue_init (T := Z) None 5 None = Ok q0 ∧
    queue_history (λ x, x) None (λ _, false) (λ _, ()) q0 [2; 3] [2] q ∧
    qsize q = total e_weight (wq_items q) ∧ e_item <$> wq_items q = [3].
Proof.
  eexists. assert (Hh : ∃ q, queue_history (λ x : Z, x) None (λ _, false) (λ _, ()) (mkQueue 5 None [] 0 0 false) [2; 3] [2] q
    ∧ e_item <$> wq_items q = [3]).
  { exists (mkQueue 5 None [mkEntry 3 3 0] 3 0 false). split; [|reflexivity].
    apply (history_step _ _ _ _ _ [2; 3] [] (mkQueue 5 None [mkEntry 2 2 0; mkEntry 3 3 0] 5 0 false) [] [2]).
    - apply (history_step _ _ _ _ _ [2] [] (mkQueue 5 None [mkEntry 2 2 0] 2 0 false) [3] []).
      + apply (history_step _ _ _ _ _ [] [] (mkQueue 5 None [] 0 0 false) [2] []); [apply history_nil|].
        by apply (step_put _ _ _ _ _ (AInt 0)).
      + by apply (step_put _ _ _ _ _ (AInt 0)).
    - by apply step_get. }
  destruct Hh as (q & Hh & Hq). exists q. split_and!; [reflexivity|exact Hh| |exact Hq].
  apply (weighted_queue_bounded_fifo (λ x : Z, x) None (λ _, false) (λ _, ()) 5 None _ [2; 3] [2] q eq_refl Hh).
Defined.
