(* ===== verification/BarrierAligner.v ===== *)
(** * Alignment of checkpoint barriers

    Models [_BarrierAligner] of [src/ray/klein/runtime/coordinator/checkpoint_strategy.py]:
    the counter with which a task decides that a barrier has arrived on all its inputs.
    A [Counter] of vertices is a multiset, and [all(seen[v] >= n for v, n in expected.items())]
    is inclusion; a dictionary whose order is never read is a finite map.  [repr] stands
    for Python's [repr] of a lane, which only orders the lanes kept by sender. *)
From stdpp Require Import gmultiset.
From S2P Require Import Prelude Effects Checkpoints Delivery.
Open Scope Z_scope.

Abbreviation channel := (DeliveryChannel (S := vid)).

#[export] Instance channel_eq_dec : EqDecision channel.
Proof. solve_decision. Defined.
#[export] Instance channel_countable : Countable channel :=
  inj_countable' (λ c, (dc_sender_vertex_id c, dc_sender_task_name c, dc_edge_index c, dc_target_index c, dc_topology_epoch c))
    (λ p, let '(v, n, e, t, o) := p in mkDeliveryChannel v n e t o) ltac:(by intros []).

(** [delivery_channel or sender_vertex_id]: the physical input a message came on. *)
Inductive lane := ByChannel (c : channel) | BySender (v : vid).

#[export] Instance lane_eq_dec : EqDecision lane.
Proof. solve_decision. Defined.
#[export] Instance lane_countable : Countable lane :=
  inj_countable' (λ l, match l with ByChannel c => inl c | BySender v => inr v end)
    (λ x, match x with inl c => ByChannel c | inr v => BySender v end) ltac:(by intros []).

Definition lane_of (sender : vid) (delivery_channel : option channel) : lane :=
  match delivery_channel with Some c => ByChannel c | None => BySender sender end.

(** [_terminal_channel_sender]. *)
Definition lane_sender (l : lane) : vid :=
  match l with ByChannel c => dc_sender_vertex_id c | BySender v => v end.

(** [Barrier] and [EndOfData] of [message.py]. *)
Record Barrier := mkBarrier {
  b_id : Z;
  b_source_id : option vid;
  b_coordinated : bool;
  b_end_of_data : bool;
  b_timestamp : Z
}.

(** ** State *)

(** Barriers without a sender, counted per source. *)
Record counted_state := mkCounted {
  split : gmap vid Z;
  inflight : gmap Z Z;
  eof_from_src : gmap (option vid) bool
}.

(** Epochs shared by every input. *)
Record coordinated_state := mkCoordinated {
  input_vertex_ids : gmultiset vid;
  coordinated_inflight : gmap Z (gmultiset vid);
  coordinated_channels : gmap Z (gset lane);
  last_coordinated_barrier_id : Z
}.

(** Barriers identified by the lane they came on; [true] marks end of data. *)
Record direct_state := mkDirect {
  direct_input_vertex_ids : option (gmultiset vid);
  direct_inflight : gmap Z (gmap lane (vid * bool));
  direct_expected : gmap Z (gmultiset vid);
  direct_resolved_through : Z
}.

(** Lanes whose end of data was aligned, and lanes of older topologies. *)
Record terminal_state := mkTerminal {
  terminal_inputs : gmultiset vid;
  terminal_input_channels : gset lane;
  retired_terminal_input_channels : gset lane;
  retired_input_channels : gset channel;
  configured_input_channels : option (gset channel);
  last_aligned_id : option Z;
  last_alignment_is_terminal : bool
}.

Record Aligner := mkAligner {
  a_counted : counted_state;
  a_coordinated : coordinated_state;
  a_direct : direct_state;
  a_terminal : terminal_state
}.

Definition set_counted (f : counted_state → counted_state) (a : Aligner) : Aligner :=
  mkAligner (f (a_counted a)) (a_coordinated a) (a_direct a) (a_terminal a).
Definition set_coordinated (f : coordinated_state → coordinated_state) (a : Aligner) : Aligner :=
  mkAligner (a_counted a) (f (a_coordinated a)) (a_direct a) (a_terminal a).
Definition set_direct (f : direct_state → direct_state) (a : Aligner) : Aligner :=
  mkAligner (a_counted a) (a_coordinated a) (f (a_direct a)) (a_terminal a).
Definition set_terminal (f : terminal_state → terminal_state) (a : Aligner) : Aligner :=
  mkAligner (a_counted a) (a_coordinated a) (a_direct a) (f (a_terminal a)).

Definition set_inflight (f : gmap Z Z → gmap Z Z) : Aligner → Aligner :=
  set_counted (λ c, mkCounted (split c) (f (inflight c)) (eof_from_src c)).
Definition set_seen (f : gmap Z (gmultiset vid) → gmap Z (gmultiset vid)) (g : gmap Z (gset lane) → gmap Z (gset lane)) : Aligner → Aligner :=
  set_coordinated (λ c, mkCoordinated (input_vertex_ids c) (f (coordinated_inflight c)) (g (coordinated_channels c)) (last_coordinated_barrier_id c)).
Definition set_last_coordinated (f : Z → Z) : Aligner → Aligner :=
  set_coordinated (λ c, mkCoordinated (input_vertex_ids c) (coordinated_inflight c) (coordinated_channels c) (f (last_coordinated_barrier_id c))).
Definition set_direct_inflight (f : gmap Z (gmap lane (vid * bool)) → gmap Z (gmap lane (vid * bool))) : Aligner → Aligner :=
  set_direct (λ d, mkDirect (direct_input_vertex_ids d) (f (direct_inflight d)) (direct_expected d) (direct_resolved_through d)).
Definition set_direct_expected (f : gmap Z (gmultiset vid) → gmap Z (gmultiset vid)) : Aligner → Aligner :=
  set_direct (λ d, mkDirect (direct_input_vertex_ids d) (direct_inflight d) (f (direct_expected d)) (direct_resolved_through d)).
Definition set_direct_resolved (f : Z → Z) : Aligner → Aligner :=
  set_direct (λ d, mkDirect (direct_input_vertex_ids d) (direct_inflight d) (direct_expected d) (f (direct_resolved_through d))).
Definition set_terminal_channels (f : gset lane → gset lane) (g : gset lane → gset lane) : Aligner → Aligner :=
  set_terminal (λ t, mkTerminal (terminal_inputs t) (f (terminal_input_channels t)) (g (retired_terminal_input_channels t))
    (retired_input_channels t) (configured_input_channels t) (last_aligned_id t) (last_alignment_is_terminal t)).
Definition set_last_aligned (i : option Z) (b : bool) : Aligner → Aligner :=
  set_terminal (λ t, mkTerminal (terminal_inputs t) (terminal_input_channels t) (retired_terminal_input_channels t)
    (retired_input_channels t) (configured_input_channels t) i b).

Abbreviation al := (exec Aligner).

(** [Counter(items)]. *)
Definition Counter (l : list vid) : gmultiset vid := list_to_set_disj l.

(** The senders of a set of lanes, with multiplicity. *)
Definition senders (ls : gset lane) : gmultiset vid := Counter (lane_sender <$> elements ls).

(** [_rebuild_terminal_inputs]. *)
Definition rebuild_terminal_inputs (t : terminal_state) : terminal_state :=
  mkTerminal (senders (terminal_input_channels t)) (terminal_input_channels t) (retired_terminal_input_channels t)
    (retired_input_channels t) (configured_input_channels t) (last_aligned_id t) (last_alignment_is_terminal t).

(** ** Barriers of a shared epoch *)

Definition expected (source : option vid) (a : Aligner) : Z :=
  default 1 (v ← source; split (a_counted a) !! v).

Definition coordinated_barrier_finalized (barrier_id : Z) (a : Aligner) : bool :=
  barrier_id <=? last_coordinated_barrier_id (a_coordinated a).

(** [delivery_channel.sender_vertex_id != sender_vertex_id]. *)
Definition channel_mismatch (sender : vid) (dc : option channel) : bool :=
  match dc with Some c => negb (bool_decide (dc_sender_vertex_id c = sender)) | None => false end.

(** [channel in self._retired_input_channels]; [channel not in self._configured_input_channels]. *)
Definition in_channels (l : lane) (cs : gset channel) : bool :=
  match l with ByChannel c => bool_decide (c ∈ cs) | BySender _ => false end.

Definition unconfigured (l : lane) (cs : option (gset channel)) : bool :=
  match cs with Some cs => negb (in_channels l cs) | None => false end.

Definition receive_coordinated (b : Barrier) (sender : option vid) (dc : option channel) : al bool :=
  a ← gets id;
  let c := a_coordinated a in
  let t := a_terminal a in
  if b_id b <=? last_coordinated_barrier_id c then mret false
  else if bool_decide (input_vertex_ids c = ∅) then
    _ ← modify (set_last_coordinated (λ _, b_id b)); mret true
  else
    match sender with
    | None => throw ValueError
    | Some v =>
        let channel := lane_of v dc in
        if channel_mismatch v dc then throw ValueError
        else if in_channels channel (retired_input_channels t) then mret false
        else if unconfigured channel (configured_input_channels t) then throw RuntimeError
        else if bool_decide (v ∉ input_vertex_ids c) then throw ValueError
        else
          let channels := default ∅ (coordinated_channels c !! b_id b) in
          if bool_decide (channel ∈ channels) then mret false
          else
            let seen := default ∅ (coordinated_inflight c !! b_id b) ⊎ {[+ v +]} in
            _ ← modify (set_seen (insert (b_id b) seen) (insert (b_id b) ({[channel]} ∪ channels)));
            if negb (bool_decide (input_vertex_ids c ⊆ seen)) then mret false
            else
              _ ← modify (set_seen (delete (b_id b)) (delete (b_id b)));
              _ ← modify (set_last_coordinated (λ _, b_id b));
              mret true
    end.

(** ** Barriers identified by their lane *)

Definition direct_channel (b : Barrier) (sender : vid) (dc : option channel) (inputs : option (gmultiset vid)) (a : Aligner) : outcome lane :=
  let expected_multiplicity := match inputs with None => expected (b_source_id b) a | Some m => Z.of_nat (multiplicity sender m) end in
  match dc with
  | None => if 1 <? expected_multiplicity then Err ValueError else Ok (BySender sender)
  | Some c => if channel_mismatch sender dc then Err ValueError else Ok (ByChannel c)
  end.

(** [_delivery_lane_coordinates]. *)
Definition delivery_lane_coordinates (c : channel) : vid * string * Z * nat :=
  (dc_sender_vertex_id c, dc_sender_task_name c, dc_edge_index c, dc_target_index c).

(** The same route in another topology. *)
Definition replaces (c : channel) (terminal : lane) : bool :=
  match terminal with
  | ByChannel t => bool_decide (delivery_lane_coordinates t = delivery_lane_coordinates c) && negb (bool_decide (dc_topology_epoch t = dc_topology_epoch c))
  | BySender _ => false
  end.

Definition retire_replaced_terminal_channel (l : lane) : al unit :=
  match l with
  | BySender _ => mret ()
  | ByChannel c =>
      a ← gets id;
      let replaced := filter (λ t, replaces c t = true) (terminal_input_channels (a_terminal a)) in
      if bool_decide (replaced = ∅) then mret ()
      else
        _ ← modify (set_terminal_channels (λ x, x ∖ replaced) (λ x, x ∪ replaced));
        modify (set_terminal rebuild_terminal_inputs)
  end.

(** [Counter(sender for sender, _terminal in seen.values())]. *)
Definition observed (seen : gmap lane (vid * bool)) : gmultiset vid := Counter ((map_to_list seen).*2.*1).

Definition direct_alignment_complete (b : Barrier) (seen : gmap lane (vid * bool)) (inputs : option (gmultiset vid)) : al bool :=
  a ← gets id;
  match inputs with
  | None => mret (expected (b_source_id b) a <=? Z.of_nat (size seen))
  | Some m =>
      let needed := default (m ∖ terminal_inputs (a_terminal a)) (direct_expected (a_direct a) !! b_id b) in
      _ ← modify (set_direct_expected (insert (b_id b) needed));
      mret (bool_decide (needed ⊆ observed seen))
  end.

(** The lanes of [seen] that end here. *)
Definition ended (seen : gmap lane (vid * bool)) : gset lane := dom (filter (λ x, x.2.2 = true) seen).

Definition complete_direct_alignment (barrier_id : Z) (seen : gmap lane (vid * bool)) (inputs : option (gmultiset vid)) : al unit :=
  _ ← modify (set_direct_inflight (delete barrier_id));
  _ ← modify (set_direct_expected (delete barrier_id));
  _ ← modify (set_direct_resolved (λ _, barrier_id));
  _ ← modify (λ a, set_terminal_channels (λ x, x ∪ ended seen)
                     (λ x, x ∖ (ended seen ∖ terminal_input_channels (a_terminal a))) a);
  _ ← modify (set_terminal rebuild_terminal_inputs);
  modify (λ a, set_last_aligned (Some barrier_id)
    (match inputs with Some m => bool_decide (m ⊆ terminal_inputs (a_terminal a)) | None => false end) a).

Definition receive_direct (b : Barrier) (sender : vid) (dc : option channel) : al bool :=
  a ← gets id;
  let inputs := direct_input_vertex_ids (a_direct a) in
  let t := a_terminal a in
  if b_id b <=? direct_resolved_through (a_direct a) then mret false
  else
    channel ← of_outcome (direct_channel b sender dc inputs a);
    if bool_decide (channel ∈ terminal_input_channels t) || bool_decide (channel ∈ retired_terminal_input_channels t)
       || in_channels channel (retired_input_channels t) then mret false
    else if unconfigured channel (configured_input_channels t) then throw RuntimeError
    else if match inputs with Some m => bool_decide (sender ∉ m) | None => false end then throw RuntimeError
    else
      _ ← retire_replaced_terminal_channel channel;
      if negb (bool_decide (direct_inflight (a_direct a) = ∅)) && bool_decide (direct_inflight (a_direct a) !! b_id b = None)
      then throw RuntimeError
      else
        let seen := default ∅ (direct_inflight (a_direct a) !! b_id b) in
        match seen !! channel with
        | Some previous => if bool_decide (previous = (sender, b_end_of_data b)) then mret false else throw RuntimeError
        | None =>
            let seen := <[channel := (sender, b_end_of_data b)]> seen in
            _ ← modify (set_direct_inflight (insert (b_id b) seen));
            complete ← direct_alignment_complete b seen inputs;
            if negb complete then mret false
            else _ ← complete_direct_alignment (b_id b) seen inputs; mret true
        end.

(** ** Any barrier *)

Definition receive (b : Barrier) (sender : option vid) (dc : option channel) : al bool :=
  if b_coordinated b then receive_coordinated b sender dc
  else
    match sender with
    | Some v => receive_direct b v dc
    | None =>
        a ← gets id;
        let count := default 0 (inflight (a_counted a) !! b_id b) + 1 in
        _ ← modify (set_inflight (delete (b_id b)));
        if expected (b_source_id b) a <=? count then mret true
        else _ ← modify (set_inflight (insert (b_id b) count)); mret false
    end.

Definition receive_eof (b : Barrier) : al bool :=
  a ← gets id;
  if bool_decide (is_Some (direct_input_vertex_ids (a_direct a))) && bool_decide (last_aligned_id (a_terminal a) = Some (b_id b))
  then mret (last_alignment_is_terminal (a_terminal a))
  else
    let flags := <[b_source_id b := true]> (eof_from_src (a_counted a)) in
    _ ← modify (set_counted (λ c, mkCounted (split c) (inflight c) flags));
    mret (forallb (λ x, x.2) (map_to_list flags)).

Definition barrier_to_forward (b : Barrier) (a : Aligner) : Barrier :=
  if bool_decide (direct_input_vertex_ids (a_direct a) = None) || negb (bool_decide (last_aligned_id (a_terminal a) = Some (b_id b))) then b
  else if last_alignment_is_terminal (a_terminal a) then
    if b_end_of_data b then b else mkBarrier (b_id b) (b_source_id b) false true (b_timestamp b)
  else if negb (b_end_of_data b) then b else mkBarrier (b_id b) (b_source_id b) false false (b_timestamp b).

Definition is_resolved (barrier_id : Z) (a : Aligner) : bool := barrier_id <=? direct_resolved_through (a_direct a).

(** ** Giving up *)

(** The keys of a dictionary that are not above the cutoff, and a dictionary without
    some keys. *)
Definition stale {A} (cutoff : Z) (m : gmap Z A) : gset Z := filter (λ k, k <= cutoff) (dom m).
Definition without {A} (ks : gset Z) (m : gmap Z A) : gmap Z A := filter (λ x, x.1 ∉ ks) m.

Definition reset_inflight_before (cutoff : Z) : al Z :=
  a ← gets id;
  let counted := stale cutoff (inflight (a_counted a)) in
  let coordinated := stale cutoff (coordinated_inflight (a_coordinated a)) in
  let direct := stale cutoff (direct_inflight (a_direct a)) in
  _ ← modify (set_inflight (without counted));
  _ ← modify (set_seen (without coordinated) (without coordinated));
  _ ← modify (set_last_coordinated (λ x, Z.max x cutoff));
  _ ← modify (set_direct_inflight (without direct));
  _ ← modify (set_direct_expected (without direct));
  _ ← modify (set_direct_resolved (λ x, Z.max x cutoff));
  mret (Z.of_nat (size counted + size coordinated + size direct)).

(** [d.pop(key, None)], and [int(d.pop(key, None) is not None)]. *)
Definition pop_key {A} (k : Z) (m : gmap Z A) : gmap Z A := delete k m.
Definition popped {A} (k : Z) (m : gmap Z A) : Z := if bool_decide (is_Some (m !! k)) then 1 else 0.

Definition discard (barrier_id : Z) : al Z :=
  a ← gets id;
  _ ← modify (set_inflight (pop_key barrier_id));
  _ ← modify (set_seen (pop_key barrier_id) (pop_key barrier_id));
  _ ← modify (set_last_coordinated (λ x, Z.max x barrier_id));
  _ ← modify (set_direct_inflight (pop_key barrier_id));
  _ ← modify (set_direct_expected (pop_key barrier_id));
  _ ← modify (set_direct_resolved (λ x, Z.max x barrier_id));
  mret (popped barrier_id (inflight (a_counted a)) + popped barrier_id (coordinated_inflight (a_coordinated a))
        + popped barrier_id (direct_inflight (a_direct a))).

(** ** Installing a topology *)

Section topology.
Context (repr : lane → string).

(** The lanes kept when only the senders are known: at most as many of each sender. *)
Fixpoint keep_lanes (candidates : list lane) (remaining : gmultiset vid) : gset lane :=
  match candidates with
  | [] => ∅
  | l :: candidates =>
      if bool_decide (lane_sender l ∈ remaining)
      then {[l]} ∪ keep_lanes candidates (remaining ∖ {[+ lane_sender l +]})
      else keep_lanes candidates remaining
  end.

(** [sorted(lanes, key=repr)]. *)
Definition sorted_lanes (ls : gset lane) : list lane :=
  merge_sort (λ l l', String.le (repr l) (repr l')) (elements ls).

(** [input_channels], checked against the senders. *)
Definition channel_inventory (inputs : gmultiset vid) (channels : list channel) : outcome (gset channel) :=
  if negb (bool_decide (NoDup channels)) then Err ValueError
  else if negb (bool_decide (Counter (dc_sender_vertex_id <$> channels) = inputs)) then Err ValueError
  else Ok (list_to_set channels).

Definition reconfigure_terminal_inputs (inputs : gmultiset vid) (input_channels : option (list channel)) : al unit :=
  a ← gets id;
  let t := a_terminal a in
  '(candidates, retained, retired, configured) ←
    (match input_channels with
     | Some channels =>
         configured ← of_outcome (channel_inventory inputs channels);
         let retired := match configured_input_channels t with
                        | Some old => retired_input_channels t ∪ (old ∖ configured)
                        | None => retired_input_channels t
                        end ∖ configured in
         let lanes : gset lane := set_map ByChannel configured in
         let candidates := terminal_input_channels t ∪ (retired_terminal_input_channels t ∩ lanes) in
         mret (candidates, candidates ∩ lanes, retired, Some configured)
     | None => mret (terminal_input_channels t, keep_lanes (sorted_lanes (terminal_input_channels t)) inputs, ∅, None)
     end : al (gset lane * gset lane * gset channel * option (gset channel)));
  modify (set_terminal (λ t,
    rebuild_terminal_inputs (mkTerminal (terminal_inputs t) retained
      ((retired_terminal_input_channels t ∪ (candidates ∖ retained)) ∖ retained) retired configured (last_aligned_id t)
      (negb (bool_decide (inputs = ∅)) && bool_decide (inputs ⊆ senders retained))))).

Definition Aligner_empty (barrier_splits : gmap vid Z) (inputs : option (list vid)) : Aligner :=
  mkAligner
    (mkCounted barrier_splits ∅ (kmap Some ((λ _, false) <$> barrier_splits)))
    (mkCoordinated (Counter (default [] inputs)) ∅ ∅ (-1))
    (mkDirect (Counter <$> inputs) ∅ ∅ (-1))
    (mkTerminal ∅ ∅ ∅ ∅ None None false).

(** [_BarrierAligner.__init__]. *)
Definition Aligner_init (barrier_splits : gmap vid Z) (inputs : option (list vid)) (input_channels : option (list channel)) : outcome Aligner :=
  match input_channels, inputs with
  | None, _ => Ok (Aligner_empty barrier_splits inputs)
  | Some _, None => Err ValueError
  | Some channels, Some l =>
      match reconfigure_terminal_inputs (Counter l) (Some channels) (Aligner_empty barrier_splits inputs) with
      | (Ok _, a) => Ok a
      | (Err e, _) => Err e
      end
  end.

Definition validate_reconfiguration : al unit :=
  a ← gets id;
  if bool_decide (inflight (a_counted a) = ∅) && bool_decide (coordinated_inflight (a_coordinated a) = ∅)
     && bool_decide (direct_inflight (a_direct a) = ∅)
  then mret () else throw RuntimeError.

Definition install_inputs (inputs : list vid) (input_channels : option (list channel)) : al unit :=
  _ ← modify (set_coordinated (λ c, mkCoordinated (Counter inputs) (coordinated_inflight c) (coordinated_channels c) (last_coordinated_barrier_id c)));
  _ ← modify (set_direct (λ d, mkDirect (Some (Counter inputs)) (direct_inflight d) (direct_expected d) (direct_resolved_through d)));
  reconfigure_terminal_inputs (Counter inputs) input_channels.

Definition reconfigure (barrier_splits : gmap vid Z) (inputs : option (list vid)) (input_channels : option (list channel)) : al unit :=
  _ ← validate_reconfiguration;
  previous ← gets (λ a, eof_from_src (a_counted a));
  _ ← modify (set_counted (λ c, mkCounted barrier_splits (inflight c) (eof_from_src c)));
  _ ← (match inputs, input_channels with
       | Some l, _ => install_inputs l input_channels
       | None, Some _ => throw ValueError
       | None, None => mret ()
       end : al unit);
  modify (set_counted (λ c, mkCounted (split c) (inflight c) (map_imap (λ v _, Some (default false (previous !! v))) (kmap Some barrier_splits)))).

Definition reconfigure_inputs (inputs : list vid) (input_channels : option (list channel)) : al unit :=
  _ ← validate_reconfiguration; install_inputs inputs input_channels.
End topology.

(** ** Counting senders *)

Lemma senders_empty : senders ∅ = ∅.
Proof. unfold senders. by rewrite elements_empty. Qed.

Lemma senders_insert l (ls : gset lane) : l ∉ ls → senders ({[l]} ∪ ls) = senders ls ⊎ {[+ lane_sender l +]}.
Proof.
  intros Hl. unfold senders, Counter. rewrite (list_to_set_disj_perm _ (lane_sender <$> l :: elements ls)).
  - cbn [fmap list_fmap]. rewrite list_to_set_disj_cons. apply (comm_L (⊎)).
  - apply fmap_Permutation. by apply elements_union_singleton.
Qed.

Lemma senders_union (ls ls' : gset lane) : ls ## ls' → senders (ls ∪ ls') = senders ls ⊎ senders ls'.
Proof.
  intros Hd. unfold senders, Counter. rewrite (list_to_set_disj_perm _ (lane_sender <$> elements ls ++ elements ls')).
  - by rewrite fmap_app, list_to_set_disj_app.
  - apply fmap_Permutation. by apply elements_disj_union.
Qed.

Lemma senders_mono (ls ls' : gset lane) : ls ⊆ ls' → senders ls ⊆ senders ls'.
Proof. intros Hs. rewrite (union_difference_L _ _ Hs), senders_union by set_solver. multiset_solver. Qed.

Lemma senders_list (cs : list channel) : NoDup cs → senders (set_map ByChannel (list_to_set cs : gset channel)) = Counter (dc_sender_vertex_id <$> cs).
Proof.
  induction 1 as [|c cs Hc Hcs IH]; [by rewrite list_to_set_nil, set_map_empty, senders_empty|].
  rewrite list_to_set_cons, set_map_union_L, set_map_singleton_L, senders_insert by set_solver.
  rewrite IH. unfold Counter. cbn [fmap list_fmap]. rewrite list_to_set_disj_cons. apply (comm_L (⊎)).
Qed.

Lemma observed_senders (seen : gmap lane (vid * bool)) :
  (∀ l x, seen !! l = Some x → x.1 = lane_sender l) → observed seen = senders (dom seen).
Proof.
  unfold observed. induction seen as [|l x seen Hl IH] using map_ind; intros Hx.
  { by rewrite map_to_list_empty, dom_empty_L, senders_empty. }
  rewrite dom_insert_L, senders_insert by (by apply not_elem_of_dom).
  rewrite <-IH; [|intros l' x' Hx'; apply Hx; rewrite lookup_insert_ne; [done|congruence]].
  unfold Counter. rewrite (list_to_set_disj_perm _ ((map_to_list seen).*2.*1 ++ [x.1])).
  - rewrite list_to_set_disj_app, list_to_set_disj_cons, list_to_set_disj_nil, (right_id_L ∅ (⊎)).
    rewrite (Hx l x) by (by rewrite lookup_insert_eq). done.
  - rewrite map_to_list_insert by done. cbn. by rewrite Permutation_cons_append.
Qed.

(** If the senders of [needed] are all heard on distinct lanes, the lanes are covered. *)
Lemma lanes_covered (lanes seen closed : gset lane) :
  seen ⊆ lanes → closed ⊆ lanes → seen ## closed → senders lanes ∖ senders closed ⊆ senders seen → lanes ⊆ seen ∪ closed.
Proof.
  intros Hs Hc Hd Hsub l Hl. destruct (decide (l ∈ seen ∪ closed)) as [|Hn]; [done|]. exfalso.
  assert (senders ({[l]} ∪ (seen ∪ closed)) ⊆ senders lanes) as Hin by (apply senders_mono; set_solver).
  rewrite senders_insert, senders_union in Hin by done.
  pose proof (Hsub (lane_sender l)) as H1. pose proof (Hin (lane_sender l)) as H2.
  rewrite multiplicity_difference in H1. rewrite !multiplicity_disj_union, multiplicity_singleton in H2.
  rewrite decide_True in H2 by done. lia.
Qed.

(** ** What the aligner knows *)

(** [heard l b eof]: a barrier of checkpoint [b] came on lane [l]. *)
Section aligner.
Context (lanes : gset channel) (heard : lane → Z → bool → Prop).

Definition input_lanes : gset lane := set_map ByChannel lanes.

(** The lane ended with a checkpoint up to [b]. *)
Definition ended_by (l : lane) (b : Z) : Prop := ∃ b', b' <= b ∧ heard l b' true.

Record aligner_ok (a : Aligner) : Prop := {
  al_inputs : input_vertex_ids (a_coordinated a) = senders input_lanes;
  al_direct_inputs : direct_input_vertex_ids (a_direct a) = Some (senders input_lanes);
  al_configured : configured_input_channels (a_terminal a) = Some lanes;
  al_retired : retired_input_channels (a_terminal a) = ∅;
  al_counted b : default ∅ (coordinated_inflight (a_coordinated a) !! b) = senders (default ∅ (coordinated_channels (a_coordinated a) !! b));
  al_coordinated b l : l ∈ default ∅ (coordinated_channels (a_coordinated a) !! b) → l ∈ input_lanes ∧ ∃ eof, heard l b eof;
  al_direct b seen l x : direct_inflight (a_direct a) !! b = Some seen → seen !! l = Some x →
    x.1 = lane_sender l ∧ l ∈ input_lanes ∧ heard l b x.2;
  al_one b b' : is_Some (direct_inflight (a_direct a) !! b) → is_Some (direct_inflight (a_direct a) !! b') → b = b';
  al_expected b m : direct_expected (a_direct a) !! b = Some m →
    ∃ seen closed, direct_inflight (a_direct a) !! b = Some seen ∧ m = senders input_lanes ∖ senders closed ∧
      closed ⊆ input_lanes ∧
      closed ⊆ terminal_input_channels (a_terminal a) ∪ retired_terminal_input_channels (a_terminal a) ∧
      ∀ l, l ∈ closed → ended_by l (direct_resolved_through (a_direct a));
  al_disjoint b seen : direct_inflight (a_direct a) !! b = Some seen →
    dom seen ## terminal_input_channels (a_terminal a) ∪ retired_terminal_input_channels (a_terminal a);
  al_terminal_inputs : terminal_inputs (a_terminal a) = senders (terminal_input_channels (a_terminal a));
  al_terminal l : l ∈ terminal_input_channels (a_terminal a) → l ∈ input_lanes ∧ ended_by l (direct_resolved_through (a_direct a))
}.

(** What only grows. *)
Definition aligner_le (a a' : Aligner) : Prop :=
  last_coordinated_barrier_id (a_coordinated a) <= last_coordinated_barrier_id (a_coordinated a') ∧
  direct_resolved_through (a_direct a) <= direct_resolved_through (a_direct a').

(** The lanes heard on a shared epoch. *)
Definition epoch_lanes (b : Z) (a : Aligner) : gset lane := default ∅ (coordinated_channels (a_coordinated a) !! b).

Lemma unconfigured_lane l : unconfigured l (Some lanes) = false → l ∈ input_lanes.
Proof.
  cbn. intros Hl. apply negb_false_iff in Hl. destruct l as [c|v]; [|done]. cbn in Hl.
  apply bool_decide_eq_true in Hl. by apply elem_of_map_2.
Qed.

Lemma lane_of_sender v dc : channel_mismatch v dc = false → lane_sender (lane_of v dc) = v.
Proof. destruct dc as [c|]; [|done]. cbn. intros Hc%negb_false_iff. by apply bool_decide_eq_true in Hc. Qed.

Lemma ended_by_le l b b' : b <= b' → ended_by l b → ended_by l b'.
Proof. intros Hle (b0 & ? & ?). exists b0. split; [lia|done]. Qed.

Lemma set_last_coordinated_ok f a : aligner_ok a → aligner_ok (set_last_coordinated f a).
Proof. intros []. by split. Qed.

(** A shared epoch: one more lane, or the epoch is over. *)
Lemma receive_coordinated_ok b v dc a r a' :
  aligner_ok a → heard (lane_of v dc) (b_id b) (b_end_of_data b) → receive_coordinated b (Some v) dc a = (r, a') →
  aligner_ok a' ∧ aligner_le a a' ∧ (∀ b', b' ≠ b_id b → epoch_lanes b' a' = epoch_lanes b' a) ∧
  (b_id b <= last_coordinated_barrier_id (a_coordinated a') ∨ epoch_lanes (b_id b) a ⊆ epoch_lanes (b_id b) a') ∧
  match r with
  | Ok true => last_coordinated_barrier_id (a_coordinated a) < b_id b ∧ last_coordinated_barrier_id (a_coordinated a') = b_id b ∧
      input_lanes ⊆ {[lane_of v dc]} ∪ epoch_lanes (b_id b) a
  | Ok false => b_id b <= last_coordinated_barrier_id (a_coordinated a') ∨ lane_of v dc ∈ epoch_lanes (b_id b) a ∨
      (epoch_lanes (b_id b) a' = {[lane_of v dc]} ∪ epoch_lanes (b_id b) a ∧ ¬ senders input_lanes ⊆ senders ({[lane_of v dc]} ∪ epoch_lanes (b_id b) a))
  | Err _ => True
  end.
Proof.
  intros Ha Hheard E. unfold receive_coordinated in E. rewrite exec_bind_gets in E. cbn [id] in E.
  set (l := lane_of v dc) in *. set (x := epoch_lanes (b_id b) a).
  rewrite (al_inputs a Ha), (al_retired a Ha), (al_configured a Ha) in E.
  assert (aligner_le a a) as Hle by (split; lia).
  destruct (Z.leb_spec (b_id b) (last_coordinated_barrier_id (a_coordinated a))) as [Hb|Hb].
  { injection E as <- <-. split_and!; [done|done|done|by left|by left]. }
  case_bool_decide as Hempty.
  { injection E as <- <-. split_and!; [by apply set_last_coordinated_ok|split; cbn; lia|done|by right|done|done|].
    intros l' Hl'. exfalso. rewrite (union_difference_singleton_L l' input_lanes Hl'), senders_insert in Hempty by set_solver. multiset_solver. }
  destruct (channel_mismatch v dc) eqn:Hmis; [injection E as <- <-; split_and!; [done|done|done|by right|done]|].
  destruct (in_channels l ∅) eqn:Hret.
  { exfalso. unfold in_channels in Hret. destruct l; [|done]. by apply bool_decide_eq_true in Hret. }
  destruct (unconfigured l (Some lanes)) eqn:Hun; [injection E as <- <-; split_and!; [done|done|done|by right|done]|].
  apply unconfigured_lane in Hun. case_bool_decide as Hv; [injection E as <- <-; split_and!; [done|done|done|by right|done]|]. clear Hv.
  rewrite (al_counted a Ha) in E. change (default ∅ (coordinated_channels (a_coordinated a) !! b_id b)) with x in E.
  case_bool_decide as Hx; [injection E as <- <-; split_and!; [done|done|done|by right|by right; left]|].
  assert (Hl : lane_sender l = v) by by apply lane_of_sender. rewrite <-Hl, <-senders_insert in E by done.
  rewrite exec_bind_modify in E. case_bool_decide as Hsub; cbn [negb] in E.
  - rewrite !exec_bind_modify in E. injection E as <- <-.
    assert (Hother : ∀ {X} (m : gmap Z X) y b', b' ≠ b_id b → delete (b_id b) (<[b_id b := y]> m) !! b' = m !! b').
    { intros X m y b' Hne. by rewrite lookup_delete_ne, lookup_insert_ne by done. }
    split_and!; [|split; cbn; lia| |left; cbn; lia|done|done|].
    + destruct Ha. split; try done; cbn; intros b'; destruct (decide (b' = b_id b)) as [->|Hne]; rewrite ?lookup_delete_eq, ?Hother by done; cbn; try done.
      all: try apply al_coordinated0; set_solver.
    + intros b' Hne. unfold epoch_lanes. cbn. by rewrite Hother.
    + intros l' Hl'. destruct (decide (l' ∈ {[l]} ∪ x)) as [|Hn]; [done|]. exfalso.
      assert (senders ({[l']} ∪ ({[l]} ∪ x)) ⊆ senders input_lanes) as Hin.
      { apply senders_mono. intros k [->%elem_of_singleton|[->%elem_of_singleton|Hk]%elem_of_union]%elem_of_union; [done|done|]. by apply (al_coordinated a Ha (b_id b)). }
      rewrite senders_insert in Hin by done. pose proof (Hin (lane_sender l')) as H1. pose proof (Hsub (lane_sender l')) as H2.
      rewrite multiplicity_disj_union, multiplicity_singleton, decide_True in H1 by done. lia.
  - injection E as <- <-. split_and!; [|split; cbn; lia| |right; unfold epoch_lanes; cbn; rewrite lookup_insert_eq; cbn; set_solver|].
    + destruct Ha. split; try done; cbn; intros b'; destruct (decide (b' = b_id b)) as [->|Hne]; rewrite ?lookup_insert_eq, ?lookup_insert_ne by done; cbn; try done.
      all: try apply al_coordinated0.
      intros l' [->%elem_of_singleton|Hl']%elem_of_union; [eauto|by apply al_coordinated0].
    + intros b' Hne. unfold epoch_lanes. cbn. by rewrite lookup_insert_ne.
    + right; right. split; [|done]. unfold epoch_lanes. cbn. by rewrite lookup_insert_eq.
Qed.

Lemma retire_ok l a r a' :
  aligner_ok a → retire_replaced_terminal_channel l a = (r, a') →
  r = Ok () ∧ aligner_ok a' ∧ a_coordinated a' = a_coordinated a ∧ a_direct a' = a_direct a ∧
  terminal_input_channels (a_terminal a') ∪ retired_terminal_input_channels (a_terminal a') =
    terminal_input_channels (a_terminal a) ∪ retired_terminal_input_channels (a_terminal a) ∧
  terminal_input_channels (a_terminal a') ⊆ terminal_input_channels (a_terminal a).
Proof.
  intros Ha E. destruct l as [c|v]; cbn [retire_replaced_terminal_channel] in E; [|by injection E as <- <-].
  rewrite exec_bind_gets in E. cbn [id] in E. set (gone := filter _ _) in E.
  case_bool_decide; [by injection E as <- <-|]. rewrite exec_bind_modify in E. injection E as <- <-.
  assert (gone ⊆ terminal_input_channels (a_terminal a)) as Hsub by (intros l [_ ?]%elem_of_filter; done).
  assert (terminal_input_channels (a_terminal a) ∖ gone ∪ (retired_terminal_input_channels (a_terminal a) ∪ gone) =
    terminal_input_channels (a_terminal a) ∪ retired_terminal_input_channels (a_terminal a)) as Hun.
  { apply set_eq. intros l. destruct (decide (l ∈ gone)); set_solver. }
  split_and!; [done| |done|done|done|set_solver].
  destruct Ha. split; cbn; try done.
  - intros b m Hm. rewrite Hun. by apply al_expected0.
  - intros b seen Hs. rewrite Hun. by apply (al_disjoint0 b).
  - intros l [Hl _]%elem_of_difference. by apply al_terminal0.
Qed.

(** One more lane of the epoch in flight. *)
Lemma direct_insert_ok a l v b seen needed :
  aligner_ok a → v = lane_sender l → l ∈ input_lanes → heard l (b_id b) (b_end_of_data b) →
  l ∉ terminal_input_channels (a_terminal a) ∪ retired_terminal_input_channels (a_terminal a) →
  (direct_inflight (a_direct a) = ∅ ∨ is_Some (direct_inflight (a_direct a) !! b_id b)) →
  seen = <[l := (v, b_end_of_data b)]> (default ∅ (direct_inflight (a_direct a) !! b_id b)) →
  needed = default (senders input_lanes ∖ terminal_inputs (a_terminal a)) (direct_expected (a_direct a) !! b_id b) →
  aligner_ok (set_direct_expected (insert (b_id b) needed) (set_direct_inflight (insert (b_id b) seen) a)).
Proof.
  intros Ha -> Hl Hh Hnew Hone -> ->. pose proof Ha as [_ _ _ _ _ _ Hdir Hal1 Hexp Hdis Hti Hterm].
  destruct Ha. split; cbn; try done.
  - intros b' seen' l' x. destruct (decide (b' = b_id b)) as [->|Hne].
    + rewrite lookup_insert_eq. intros [= <-]. destruct (decide (l' = l)) as [->|Hl'].
      * rewrite lookup_insert_eq. by intros [= <-].
      * rewrite lookup_insert_ne by done. destruct (direct_inflight (a_direct a) !! b_id b) as [seen0|] eqn:E; cbn; [by apply (Hdir (b_id b))|by rewrite lookup_empty].
    + rewrite lookup_insert_ne by done. by apply Hdir.
  - assert (∀ b', is_Some (<[b_id b := <[l := (lane_sender l, b_end_of_data b)]> (default ∅ (direct_inflight (a_direct a) !! b_id b))]>
      (direct_inflight (a_direct a)) !! b') → b' = b_id b) as Hb.
    { intros b'. destruct (decide (b' = b_id b)) as [|Hne]; [done|]. rewrite lookup_insert_ne by done. intros Hs.
      destruct Hone as [E|E]; [rewrite E, lookup_empty in Hs; by destruct Hs|by apply Hal1]. }
    intros b1 b2 H1%Hb H2%Hb. congruence.
  - intros b' m. destruct (decide (b' = b_id b)) as [->|Hne].
    + rewrite lookup_insert_eq. intros [= <-]. destruct (direct_expected (a_direct a) !! b_id b) as [m0|] eqn:E.
      * destruct (Hexp _ _ E) as (seen0 & closed & Es & ? & ? & ? & ?). eexists _, closed. split; [by rewrite lookup_insert_eq|]. done.
      * eexists _, (terminal_input_channels (a_terminal a)). split; [by rewrite lookup_insert_eq|]. cbn. rewrite Hti. split_and!; [done| |set_solver|].
        -- intros l' Hl'. by apply Hterm.
        -- intros l' Hl'. by apply Hterm.
    + rewrite lookup_insert_ne by done. intros Hm. destruct (Hexp _ _ Hm) as (seen0 & closed & Es & ? & ? & ? & ?).
      eexists _, closed. split; [by rewrite lookup_insert_ne|]. done.
  - intros b' seen'. destruct (decide (b' = b_id b)) as [->|Hne].
    + rewrite lookup_insert_eq. intros [= <-]. rewrite dom_insert_L.
      destruct (direct_inflight (a_direct a) !! b_id b) as [seen0|] eqn:E; cbn; [pose proof (Hdis _ _ E)|rewrite dom_empty_L]; set_solver.
    + rewrite lookup_insert_ne by done. by apply Hdis.
Qed.

(** The epoch in flight is over. *)
Lemma complete_ok a b seen inputs r a' :
  aligner_ok a → direct_inflight (a_direct a) !! b = Some seen → direct_resolved_through (a_direct a) < b →
  complete_direct_alignment b seen inputs a = (r, a') →
  r = Ok () ∧ aligner_ok a' ∧ a_coordinated a' = a_coordinated a ∧ direct_resolved_through (a_direct a') = b.
Proof.
  intros Ha Hs Hb E. pose proof Ha as [_ _ _ _ _ _ Hdir Hal1 Hexp Hdis Hti Hterm].
  unfold complete_direct_alignment in E. rewrite !exec_bind_modify in E. injection E as <- <-. split_and!; [done| |done|done].
  assert (Hgone : ∀ b' x, delete b (direct_inflight (a_direct a)) !! b' = Some x → False).
  { intros b' x [Hne Hx]%lookup_delete_Some. apply Hne. by apply Hal1. }
  destruct Ha. split; cbn; try done.
  - intros b' seen' l x Hx. by destruct (Hgone _ _ Hx).
  - intros b1 b2 [x Hx]. by destruct (Hgone _ _ Hx).
  - intros b' m [Hne Hm]%lookup_delete_Some. exfalso. destruct (Hexp _ _ Hm) as (seen0 & closed & Es & _). apply Hne, Hal1; by eexists.
  - intros b' seen' Hx. by destruct (Hgone _ _ Hx).
  - intros l [Hl|Hl]%elem_of_union.
    + destruct (Hterm l Hl) as [? He]. split; [done|]. eapply ended_by_le; [|exact He]. lia.
    + unfold ended in Hl. apply elem_of_dom in Hl as [x [Hx Ht]%map_lookup_filter_Some]. cbn in Ht.
      destruct (Hdir _ _ _ _ Hs Hx) as (_ & ? & Hh). split; [done|]. exists b. rewrite Ht in Hh. split; [lia|done].
Qed.

Lemma expected_covered a b seen m :
  aligner_ok a → direct_inflight (a_direct a) !! b = Some seen → direct_expected (a_direct a) !! b = Some m → m ⊆ observed seen →
  ∀ l, l ∈ input_lanes → (∃ eof, heard l b eof) ∨ ended_by l (direct_resolved_through (a_direct a)).
Proof.
  intros Ha Hs Hm Hsub l Hl. destruct (al_expected a Ha b m Hm) as (seen' & closed & Hs' & -> & Hcl & Hret & Hend).
  rewrite Hs in Hs'. injection Hs' as <-. pose proof (al_direct a Ha b seen) as Hdir.
  rewrite observed_senders in Hsub by (intros k x Hx; by apply (Hdir k x Hs Hx)).
  pose proof (al_disjoint a Ha b seen Hs) as Hdis.
  assert (l ∈ dom seen ∪ closed) as [[x Hx]%elem_of_dom|Hc]%elem_of_union.
  - revert l Hl. apply lanes_covered; [|done|set_solver|done].
    intros k [x Hx]%elem_of_dom. by apply (Hdir k x Hs Hx).
  - left. exists x.2. by apply (Hdir l x Hs Hx).
  - right. by apply Hend.
Qed.

(** A barrier that came on its own lane. *)
Lemma receive_direct_ok b v dc a r a' :
  aligner_ok a → heard (lane_of v dc) (b_id b) (b_end_of_data b) → receive_direct b v dc a = (r, a') →
  aligner_ok a' ∧ aligner_le a a' ∧ a_coordinated a' = a_coordinated a ∧
  match r with
  | Ok true => direct_resolved_through (a_direct a) < b_id b ∧ direct_resolved_through (a_direct a') = b_id b ∧
      ∀ l, l ∈ input_lanes → (∃ eof, heard l (b_id b) eof) ∨ ended_by l (direct_resolved_through (a_direct a))
  | _ => True
  end.
Proof.
  intros Ha Hheard E. unfold receive_direct in E. rewrite exec_bind_gets in E. cbn [id] in E.
  assert (aligner_le a a) as Hle by (split; lia).
  rewrite (al_direct_inputs a Ha), (al_retired a Ha), (al_configured a Ha) in E.
  destruct (Z.leb_spec (b_id b) (direct_resolved_through (a_direct a))) as [Hb|Hb]; [by injection E as <- <-|].
  rewrite exec_bind_of_outcome in E.
  destruct (direct_channel b v dc (Some (senders input_lanes)) a) as [l|e] eqn:El; [|by injection E as <- <-].
  assert (l = lane_of v dc ∧ lane_sender l = v) as [-> Hv].
  { unfold direct_channel in El. destruct dc as [c|]; [|destruct (1 <? _); [done|by injection El as <-]].
    destruct (channel_mismatch v (Some c)) eqn:Hm; simplify_eq. split; [done|]. by apply (lane_of_sender v (Some c)). }
  set (l := lane_of v dc) in *. destruct (_ || _ || _) eqn:Hret; [by injection E as <- <-|].
  apply orb_false_iff in Hret as [[H1%bool_decide_eq_false H2%bool_decide_eq_false]%orb_false_iff _].
  destruct (unconfigured l (Some lanes)) eqn:Hun; [by injection E as <- <-|]. apply unconfigured_lane in Hun.
  case_bool_decide as Hin; [by injection E as <- <-|]. clear Hin.
  destruct (retire_replaced_terminal_channel l a) as [r1 a1] eqn:Er.
  destruct (retire_ok _ _ _ _ Ha Er) as (-> & Ha1 & Hc1 & Hd1 & Hu1 & Hs1).
  rewrite (exec_bind_Ok _ _ _ _ _ Er), <-Hd1 in E. rewrite <-Hc1. assert (Hle1 : aligner_le a a1) by (split; [by rewrite Hc1|by rewrite Hd1]).
  rewrite <-Hd1 in Hb. rewrite <-Hd1.
  destruct (negb _ && _) eqn:Hone; [by injection E as <- <-|].
  set (seen := default ∅ (direct_inflight (a_direct a1) !! b_id b)) in E.
  destruct (seen !! l) as [previous|] eqn:Ep; [case_bool_decide; by injection E as <- <-|].
  rewrite exec_bind_modify in E. unfold direct_alignment_complete in E.
  rewrite !exec_bind_assoc, exec_bind_gets in E. cbn [id] in E. rewrite exec_bind_assoc, exec_bind_modify, exec_bind_ret in E.
  set (seen' := <[l := (v, b_end_of_data b)]> seen) in E. set (needed := default _ _) in E.
  set (a2 := set_direct_expected _ _) in E.
  assert (Ha2 : aligner_ok a2).
  { apply (direct_insert_ok a1 l v); try done.
    - rewrite Hu1. by intros [?|?]%elem_of_union.
    - apply andb_false_iff in Hone as [Hz%negb_false_iff|Hz]; [left; by apply bool_decide_eq_true in Hz|right].
      apply bool_decide_eq_false in Hz. by apply not_eq_None_Some. }
  assert (Hle2 : aligner_le a a2) by (destruct Hle1; split; cbn; lia).
  case_bool_decide as Hsub; cbn [negb] in E; [|by injection E as <- <-].
  destruct (complete_direct_alignment (b_id b) seen' (Some (senders input_lanes)) a2) as [r3 a3] eqn:Ec.
  assert (direct_inflight (a_direct a2) !! b_id b = Some seen') as Hseen by (cbn; by rewrite lookup_insert_eq).
  destruct (complete_ok a2 (b_id b) seen' _ _ _ Ha2 Hseen Hb Ec) as (-> & Ha3 & Hc3 & Hres3).
  rewrite (exec_bind_Ok _ _ _ _ _ Ec) in E. injection E as <- <-.
  split_and!; [done|destruct Hle2; split; [by rewrite Hc3|rewrite Hres3; cbn in *; lia]|done|done|done|].
  apply (expected_covered a2 (b_id b) seen' needed Ha2 Hseen); [cbn; by rewrite lookup_insert_eq|done].
Qed.

(** Giving up on one barrier, or on the old ones. *)
Lemma without_lookup {X} (ks : gset Z) (m : gmap Z X) k x : without ks m !! k = Some x ↔ m !! k = Some x ∧ k ∉ ks.
Proof. unfold without. by rewrite map_lookup_filter_Some. Qed.

(** Dropping the same epochs everywhere, and raising the limits. *)
Lemma drop_ok a f x y (dropped : Z → Prop) (P : ∀ {X}, gmap Z X → gmap Z X) (Q : ∀ {X}, gmap Z X → gmap Z X) :
  (∀ X (m : gmap Z X) b, P m !! b = if f b : bool then None else m !! b) →
  (∀ X (m : gmap Z X) b z, Q m !! b = Some z ↔ m !! b = Some z ∧ ¬ dropped b) →
  direct_resolved_through (a_direct a) <= y → aligner_ok a →
  aligner_ok (set_direct_resolved (λ _, y) (set_direct_expected Q (set_direct_inflight Q (set_last_coordinated (λ _, x) (set_seen P P a))))).
Proof.
  intros HP HQ Hy [? ? ? ? Hcnt Hco Hdir Hone Hexp Hdis ? Hterm]. split; cbn; try done.
  - intros b. rewrite !HP. destruct (f b); cbn; [by rewrite senders_empty|apply Hcnt].
  - intros b l. rewrite HP. destruct (f b); cbn; [set_solver|apply Hco].
  - intros b seen l z [Hs _]%HQ. by apply Hdir.
  - intros b b' [z [Hz _]%HQ] [z' [Hz' _]%HQ]. apply Hone; by eexists.
  - intros b m [Hm Hn]%HQ. destruct (Hexp b m Hm) as (seen & closed & Hs & ? & ? & ? & Hend). exists seen, closed.
    split_and!; [by apply HQ|done|done|done|]. intros l Hl. eapply ended_by_le; [exact Hy|by apply Hend].
  - intros b seen [Hs _]%HQ. by apply (Hdis b).
  - intros l Hl. destruct (Hterm l Hl). split; [done|]. by eapply ended_by_le.
Qed.

(** What giving up on barriers up to [b] promises. *)
Definition given_up (b : Z) (a a' : Aligner) : Prop :=
  aligner_ok a' ∧ aligner_le a a' ∧ b <= last_coordinated_barrier_id (a_coordinated a') ∧ b <= direct_resolved_through (a_direct a') ∧
  ∀ b', b' <= last_coordinated_barrier_id (a_coordinated a') ∨ epoch_lanes b' a' = epoch_lanes b' a.

Lemma discard_ok b a : aligner_ok a → given_up b a (discard b a).2.
Proof.
  intros Ha. unfold discard. rewrite exec_bind_gets, !exec_bind_modify. cbn [mret exec_ret snd]. split_and!; [|split; cbn; lia|cbn; lia|cbn; lia|].
  - apply (drop_ok (set_inflight (pop_key b) a) (λ b', bool_decide (b' = b)) (Z.max (last_coordinated_barrier_id (a_coordinated a)) b)
      (Z.max (direct_resolved_through (a_direct a)) b) (λ b', b' = b) (λ X, @pop_key X b) (λ X, @pop_key X b)).
    + intros X m b'. unfold pop_key. case_bool_decide as Hb; [by rewrite Hb, lookup_delete_eq|by rewrite lookup_delete_ne].
    + intros X m b' z. unfold pop_key. rewrite lookup_delete_Some. naive_solver.
    + cbn. lia.
    + destruct Ha. by split.
  - intros b'. unfold epoch_lanes, pop_key. cbn. destruct (decide (b' = b)) as [->|Hne]; [left; lia|right; by rewrite lookup_delete_ne].
Qed.

Lemma reset_ok b a : aligner_ok a → given_up b a (reset_inflight_before b a).2.
Proof.
  intros Ha. unfold reset_inflight_before. rewrite exec_bind_gets, !exec_bind_modify. cbn [mret exec_ret snd]. split_and!; [|split; cbn; lia|cbn; lia|cbn; lia|].
  - apply (drop_ok (set_inflight (without (stale b (inflight (a_counted a)))) a)
      (λ b', bool_decide (b' ∈ stale b (coordinated_inflight (a_coordinated a)))) (Z.max (last_coordinated_barrier_id (a_coordinated a)) b)
      (Z.max (direct_resolved_through (a_direct a)) b) (λ b', b' ∈ stale b (direct_inflight (a_direct a)))
      (λ X (m : gmap Z X), without (stale b (coordinated_inflight (a_coordinated a))) m) (λ X (m : gmap Z X), without (stale b (direct_inflight (a_direct a))) m)).
    + intros X m b'. case_bool_decide as Hb.
      * apply eq_None_not_Some. intros [z [_ Hz]%without_lookup]. done.
      * apply option_eq. intros z. rewrite without_lookup. naive_solver.
    + intros X m b' z. by rewrite without_lookup.
    + cbn. lia.
    + destruct Ha. by split.
  - intros b'. unfold epoch_lanes. cbn. destruct (decide (b' <= b)) as [|Hne]; [left; lia|right]. f_equal.
    apply option_eq. intros z. rewrite without_lookup. unfold stale. split; [by intros [? _]|]. intros Hz. split; [done|].
    intros [? _]%elem_of_filter. done.
Qed.

Lemma aligner_ok_fresh counted m x y T ret R la lt :
  m = senders input_lanes → T = ∅ → R = ∅ →
  aligner_ok (mkAligner counted (mkCoordinated m ∅ ∅ x) (mkDirect (Some m) ∅ ∅ y)
    (mkTerminal (senders T) T ret R (Some lanes) la lt)).
Proof.
  intros -> -> ->. split; cbn; try done.
  intros b b' [x' Hx]. by rewrite lookup_empty in Hx.
Qed.

Lemma channel_inventory_Ok inputs cs y :
  channel_inventory inputs cs = Ok y → y = list_to_set cs ∧ inputs = senders (set_map ByChannel (list_to_set cs : gset channel)).
Proof.
  unfold channel_inventory. destruct (negb (bool_decide (NoDup cs))) eqn:Hnd; [done|]. destruct (negb (bool_decide (_ = _))) eqn:Hin; [done|].
  intros [= <-]. apply negb_false_iff, bool_decide_eq_true in Hnd. apply negb_false_iff, bool_decide_eq_true in Hin.
  split; [done|]. by rewrite senders_list.
Qed.

Lemma Aligner_init_ok repr splits inputs channels a :
  Aligner_init repr splits (Some inputs) (Some channels) = Ok a → lanes = list_to_set channels →
  aligner_ok a ∧ coordinated_channels (a_coordinated a) = ∅ ∧ last_coordinated_barrier_id (a_coordinated a) = -1.
Proof.
  intros E Hlanes. unfold Aligner_init, reconfigure_terminal_inputs in E. rewrite exec_bind_gets, !exec_bind_assoc, exec_bind_of_outcome in E.
  destruct (channel_inventory (Counter inputs) channels) as [configured|e] eqn:Ei; [|done].
  destruct (channel_inventory_Ok _ _ _ Ei) as [-> Hin]. rewrite exec_bind_ret in E. injection E as <-.
  rewrite <-Hlanes in Hin. fold input_lanes in Hin. rewrite <-Hlanes. fold input_lanes. split; [|done].
  apply aligner_ok_fresh; [done|apply set_eq; set_solver-|apply set_eq; set_solver-].
Qed.

Lemma receive_eof_ok b a : aligner_ok a → aligner_ok (receive_eof b a).2 ∧ a_coordinated (receive_eof b a).2 = a_coordinated a ∧ a_direct (receive_eof b a).2 = a_direct a.
Proof. intros Ha. unfold receive_eof. rewrite exec_bind_gets. case_match; [done|]. rewrite exec_bind_modify. cbn. split; [|done]. destruct Ha. by split. Qed.
End aligner.

(** More may be heard. *)
Lemma aligner_ok_mono lanes (h h' : lane → Z → bool → Prop) a : (∀ l b eof, h l b eof → h' l b eof) → aligner_ok lanes h a → aligner_ok lanes h' a.
Proof.
  intros Hh [? ? ? ? ? Hco Hdir ? Hexp ? ? Hterm].
  assert (∀ l b, ended_by h l b → ended_by h' l b) as He by (intros l b (b' & ? & ?); exists b'; auto).
  split; try done.
  - intros b l Hl. destruct (Hco b l Hl) as [? [eof ?]]. eauto.
  - intros b seen l x Hs Hx. destruct (Hdir b seen l x Hs Hx) as (? & ? & ?). auto.
  - intros b m Hm. destruct (Hexp b m Hm) as (seen & closed & ? & ? & ? & ? & ?). exists seen, closed. split_and!; auto.
  - intros l Hl. destruct (Hterm l Hl). auto.
Qed.
