(* ===== verification/TaskInput.v ===== *)
(** * The input of a task: inbox, gates and pump

    Models how a stream task takes its input and aligns checkpoint barriers: the inbox
    calls and the checkpoint gates of [src/ray/klein/runtime/worker/stream_task.py], the
    pump of [src/ray/klein/runtime/worker/pump.py] for a synchronous operator, and
    [AlignedCheckpointStrategy] of
    [src/ray/klein/runtime/coordinator/checkpoint_strategy.py].  The calls, the pump and
    the jobs of the operator's executor thread are coroutines over the state of the task,
    so that every await, and every call of the operator, is a point where the others run.

    The inbox is [WeightedQueue], the aligner [BarrierAligner]; the accumulator of input
    batches is met through the class [Batcher].  An operator is what it has been called
    with: its state, and so its snapshot, is a function of its calls ([op_call]).  The
    coordinator, the output and the replay watermark are questions ([question]).

    [admitted] and [dequeued] are auxiliary: the envelopes put into the inbox and taken
    out of it so far.  A lock records the number of the coroutine that holds it. *)
From stdpp Require Import gmultiset.
From S2P Require Import Prelude Effects Coroutines Checkpoints Delivery WeightedQueue BarrierAligner.
Open Scope Z_scope.

(** What the pump uses of [InputBatchAccumulator]: [R] are the records that arrive,
    [RO] the batches that leave, [A] the accumulator; the number selects the readings of
    the clock. *)
Class Batcher (R RO A : Type) := {
  batcher_accept : nat → R + Barrier → A → outcome (list (RO + Barrier) * A);
  batcher_flush : bool → nat → A → outcome (list RO * A);
  batcher_bytes : A → Z
}.

Section task.
Context {R RO K A C : Type} `{!Batcher R RO A} (record_num_rows : R → option Z).

(** ** Envelopes *)

(** A payload: a batch of records, a barrier, or an event-time control. *)
Inductive payload :=
  | PRecords (records : list R)
  | PBarrier (b : Barrier)
  | PControl (control : K).

Record InboxEnvelope := mkEnvelope {
  env_payload : payload;
  env_sender : vid;
  env_sequence : option Z;
  env_channel : option channel;
  env_identity : nat
}.

Definition env_lane (e : InboxEnvelope) : lane := lane_of (env_sender e) (env_channel e).

Definition inbox_envelope_rows (e : InboxEnvelope) : Z :=
  match env_payload e with
  | PRecords records => Z.max 1 (foldr Z.add 0 ((λ r, default 1 (record_num_rows r)) <$> records))
  | _ => 1
  end.

Context (estimate_retained_size : payload → Z).

Definition inbox_envelope_bytes (e : InboxEnvelope) : Z := estimate_retained_size (env_payload e).

Abbreviation queue := (WeightedQueue InboxEnvelope).

(** ** Calls of the operator, and questions to the outside *)

Inductive op_call :=
  | Process (r : RO)
  | HandleControl (control : K) (sender : vid)
  | Flush
  | PrepareCheckpoint (barrier_id : Z)
  | Finish
  | Collect (b : Barrier)
  | OnIdle
  | FlushOutput.

Inductive question :=
  | Operate (call : op_call)
  | RegisterSinkCommittable (b : Barrier) (calls : list op_call) (committable : C)
  | AbortCommittable (committable : C)
  | RegisterOperatorState (b : Barrier) (calls : list op_call)
  | NotifyAligned (barrier_id : Z)
  | MarkEofFinished
  | CheckEndOfStream
  | DrainPending
  | NoteProcessed (l : lane) (sequence : option Z)
  | WatermarkPending
  | PublishMarks
  | Expired.

Definition answer (q : question) : Type :=
  match q with
  | Operate (PrepareCheckpoint _) => option C
  | RegisterSinkCommittable _ _ _ | RegisterOperatorState _ _ | CheckEndOfStream
  | NoteProcessed _ _ | WatermarkPending | Expired => bool
  | _ => unit
  end.

(** ** State *)

(** The alignment state of [InboxPump]; an [asyncio.Event] is a number. *)
Record pump_state := mkPump {
  checkpoint_barrier_id : option Z;
  checkpoint_seen_inputs : gmultiset vid;
  checkpoint_seen_channels : gset lane;
  checkpoint_announced_channels : gset lane;
  checkpoint_admission_resumes : gmap lane nat;
  checkpoint_input_resumes : gmap lane nat;
  checkpoint_held : list InboxEnvelope;
  checkpoint_ready : list InboxEnvelope;
  pump_last_coordinated : Z
}.

(** Its inputs. *)
Record pump_inputs := mkPumpInputs {
  checkpoint_expected_inputs : gmultiset vid;
  checkpoint_input_channels : option (gset channel);
  retired_checkpoint_input_channels : gset channel
}.

(** Its byte accounting. *)
Record pump_bytes := mkPumpBytes {
  inflight_input_bytes : Z;
  inflight_envelopes : gmap nat Z;
  processing_accumulator_bytes : Z
}.

(** The checkpoint gates of [StreamTask], and the callbacks other threads scheduled. *)
Record gate_state := mkGates {
  checkpoint_input_gates : gmap lane (Z * nat);
  checkpoint_gate_resolved_through : Z;
  checkpoint_gate_loop : bool;
  gate_callbacks : list Z
}.

(** Objects made, events set, readings of the clock, and locks. *)
Record run_state := mkRun {
  next_identity : nat;
  fired : gset nat;
  clock_reads : nat;
  lane_holders : gmap lane nat;
  pump_holder : option nat;
  executor_holder : option nat
}.

Record task := mkTask {
  t_inbox : queue;
  t_pump : pump_state;
  t_inputs : pump_inputs;
  t_bytes : pump_bytes;
  t_gates : gate_state;
  t_aligner : Aligner;
  t_batches : A;
  t_calls : list op_call;
  t_run : run_state;
  admitted : list InboxEnvelope;
  dequeued : list InboxEnvelope
}.

Implicit Types (s : task).

Abbreviation act := (exec task).
Abbreviation co := (coro task answer).

Definition set_inbox (q : queue) s : task :=
  mkTask q (t_pump s) (t_inputs s) (t_bytes s) (t_gates s) (t_aligner s) (t_batches s) (t_calls s) (t_run s) (admitted s) (dequeued s).
Definition set_pump (f : pump_state → pump_state) s : task :=
  mkTask (t_inbox s) (f (t_pump s)) (t_inputs s) (t_bytes s) (t_gates s) (t_aligner s) (t_batches s) (t_calls s) (t_run s) (admitted s) (dequeued s).
Definition set_inputs (i : pump_inputs) s : task :=
  mkTask (t_inbox s) (t_pump s) i (t_bytes s) (t_gates s) (t_aligner s) (t_batches s) (t_calls s) (t_run s) (admitted s) (dequeued s).
Definition set_bytes (f : pump_bytes → pump_bytes) s : task :=
  mkTask (t_inbox s) (t_pump s) (t_inputs s) (f (t_bytes s)) (t_gates s) (t_aligner s) (t_batches s) (t_calls s) (t_run s) (admitted s) (dequeued s).
Definition set_gates (f : gate_state → gate_state) s : task :=
  mkTask (t_inbox s) (t_pump s) (t_inputs s) (t_bytes s) (f (t_gates s)) (t_aligner s) (t_batches s) (t_calls s) (t_run s) (admitted s) (dequeued s).
Definition set_aligner (a : Aligner) s : task :=
  mkTask (t_inbox s) (t_pump s) (t_inputs s) (t_bytes s) (t_gates s) a (t_batches s) (t_calls s) (t_run s) (admitted s) (dequeued s).
Definition set_batches (a : A) s : task :=
  mkTask (t_inbox s) (t_pump s) (t_inputs s) (t_bytes s) (t_gates s) (t_aligner s) a (t_calls s) (t_run s) (admitted s) (dequeued s).
Definition add_call (c : op_call) s : task :=
  mkTask (t_inbox s) (t_pump s) (t_inputs s) (t_bytes s) (t_gates s) (t_aligner s) (t_batches s) (t_calls s ++ [c]) (t_run s) (admitted s) (dequeued s).
Definition set_run (f : run_state → run_state) s : task :=
  mkTask (t_inbox s) (t_pump s) (t_inputs s) (t_bytes s) (t_gates s) (t_aligner s) (t_batches s) (t_calls s) (f (t_run s)) (admitted s) (dequeued s).
Definition add_admitted (e : InboxEnvelope) s : task :=
  mkTask (t_inbox s) (t_pump s) (t_inputs s) (t_bytes s) (t_gates s) (t_aligner s) (t_batches s) (t_calls s) (t_run s) (admitted s ++ [e]) (dequeued s).
Definition add_dequeued (e : InboxEnvelope) s : task :=
  mkTask (t_inbox s) (t_pump s) (t_inputs s) (t_bytes s) (t_gates s) (t_aligner s) (t_batches s) (t_calls s) (t_run s) (admitted s) (dequeued s ++ [e]).

(** A new object: an event, an envelope, a coroutine that takes a lock. *)
Definition fresh : act nat := λ s,
  (Ok (next_identity (t_run s)),
   set_run (λ r, mkRun (S (next_identity r)) (fired r) (clock_reads r) (lane_holders r) (pump_holder r) (executor_holder r)) s).

(** [event.set()], for several events. *)
Definition fire (events : gset nat) : task → task :=
  set_run (λ r, mkRun (next_identity r) (fired r ∪ events) (clock_reads r) (lane_holders r) (pump_holder r) (executor_holder r)).

Definition read_clock : act nat := λ s,
  (Ok (clock_reads (t_run s)),
   set_run (λ r, mkRun (next_identity r) (fired r) (S (clock_reads r)) (lane_holders r) (pump_holder r) (executor_holder r)) s).

Definition set_lane_holder (l : lane) (n : option nat) : task → task :=
  set_run (λ r, mkRun (next_identity r) (fired r) (clock_reads r) (partial_alter (λ _, n) l (lane_holders r)) (pump_holder r) (executor_holder r)).
Definition set_pump_holder (n : option nat) : task → task :=
  set_run (λ r, mkRun (next_identity r) (fired r) (clock_reads r) (lane_holders r) n (executor_holder r)).
Definition set_executor_holder (n : option nat) : task → task :=
  set_run (λ r, mkRun (next_identity r) (fired r) (clock_reads r) (lane_holders r) (pump_holder r) n).

(** Taking a lock, when it is free. *)
Definition acquire (holder : task → option nat) (set_holder : option nat → task → task) : co nat :=
  _ ← wait_until (λ s, bool_decide (holder s = None));
  sync (n ← fresh; _ ← modify (set_holder (Some n)); mret n).

Definition locked {X} (holder : task → option nat) (set_holder : option nat → task → task) (p : co X) : co X :=
  _ ← acquire holder set_holder; co_finally p (modify (set_holder None)).

(** [async with self._target_locks[target]] of the sender: the calls of one output lane
    come one after another. *)
Definition on_lane {X} (l : lane) (p : co X) : co X :=
  locked (λ s, lane_holders (t_run s) !! l) (set_lane_holder l) p.

(** [run_in_executor]: the executor has one thread. *)
Definition in_executor {X} (p : co X) : co X :=
  locked (λ s, executor_holder (t_run s)) set_executor_holder p.

(** Another coroutine may run here. *)
Definition pause : co unit := wait_until (λ _, true).

(** A computation of the aligner. *)
Definition aligning {X} (m : al X) : act X := λ s, let '(r, a) := m (t_aligner s) in (r, set_aligner a s).

(** ** Byte accounting *)

(** [_reserved_input_bytes]. *)
Definition reserved_input_bytes s : Z :=
  inflight_input_bytes (t_bytes s) + processing_accumulator_bytes (t_bytes s) + Z.max 0 (batcher_bytes (t_batches s)).

Definition reserve_accumulator_processing : act unit :=
  s ← gets id;
  if negb (processing_accumulator_bytes (t_bytes s) =? 0) then throw RuntimeError
  else modify (set_bytes (λ y, mkPumpBytes (inflight_input_bytes y) (inflight_envelopes y) (Z.max 0 (batcher_bytes (t_batches s))))).

Definition release_accumulator_processing : task → task :=
  set_bytes (λ y, mkPumpBytes (inflight_input_bytes y) (inflight_envelopes y) 0).

Definition reserve_input_envelope (e : InboxEnvelope) (size : Z) : act unit :=
  s ← gets id;
  if bool_decide (is_Some (inflight_envelopes (t_bytes s) !! env_identity e)) then throw RuntimeError
  else modify (set_bytes (λ y, mkPumpBytes (inflight_input_bytes y + size) (<[env_identity e := size]> (inflight_envelopes y)) (processing_accumulator_bytes y))).

Definition release_input_envelope (e : InboxEnvelope) : task → task :=
  set_bytes (λ y, match inflight_envelopes y !! env_identity e with
                  | None => y
                  | Some size => mkPumpBytes (inflight_input_bytes y - size) (delete (env_identity e) (inflight_envelopes y)) (processing_accumulator_bytes y)
                  end).

(** ** Checkpoint gates of the task *)

(** [_current_checkpoint_delivery_channel]; the topology is the one the pump was given. *)
Definition current_checkpoint_delivery_channel (sender : vid) (dc : option channel) : act bool :=
  s ← gets id;
  match checkpoint_input_channels (t_inputs s) with
  | None => mret true
  | Some channels =>
      match dc with
      | None => throw ValueError
      | Some c => if channel_mismatch sender dc then throw ValueError else mret (bool_decide (c ∈ channels))
      end
  end.

Definition set_input_gates (f : gmap lane (Z * nat) → gmap lane (Z * nat)) : task → task :=
  set_gates (λ g, mkGates (f (checkpoint_input_gates g)) (checkpoint_gate_resolved_through g) (checkpoint_gate_loop g) (gate_callbacks g)).

(** One round of the loop of [_claim_checkpoint_input]: [None] waits. *)
Definition claim_round (l : lane) (barrier_id : Z) s : option bool :=
  if barrier_id <=? checkpoint_gate_resolved_through (t_gates s) then Some false
  else match checkpoint_input_gates (t_gates s) !! l with
       | None => Some true
       | Some (current, _) => if (current =? barrier_id) || (barrier_id <? current) then Some false else None
       end.

Definition claim_checkpoint_input (l : lane) (barrier_id : Z) : co bool :=
  _ ← sync (modify (set_gates (λ g, mkGates (checkpoint_input_gates g) (checkpoint_gate_resolved_through g) true (gate_callbacks g))));
  _ ← wait_until (λ s, bool_decide (claim_round l barrier_id s ≠ None));
  sync (s ← gets id;
        if default false (claim_round l barrier_id s)
        then event ← fresh; _ ← modify (set_input_gates (insert l (barrier_id, event))); mret true
        else mret false).

(** The loop of [_wait_checkpoint_input_open]. *)
Definition input_open (l : lane) s : bool := bool_decide (checkpoint_input_gates (t_gates s) !! l = None).

Definition mark_checkpoint_gate_resolved (barrier_id : Z) : task → task :=
  set_gates (λ g, mkGates (checkpoint_input_gates g) (Z.max (checkpoint_gate_resolved_through g) barrier_id) (checkpoint_gate_loop g) (gate_callbacks g)).

(** The gates a condition selects, opened; how many. *)
Definition open_gates (which : Z → bool) : act Z :=
  s ← gets id;
  let gates := filter (λ x, which x.2.1 = true) (checkpoint_input_gates (t_gates s)) in
  _ ← modify (set_input_gates (λ g, g ∖ gates));
  _ ← modify (fire (list_to_set ((map_to_list gates).*2.*2)));
  mret (Z.of_nat (size gates)).

(** [_release_checkpoint_input_gates]. *)
Definition release_checkpoint_input_gates (barrier_id : Z) : act Z :=
  _ ← modify (mark_checkpoint_gate_resolved barrier_id);
  open_gates (λ b, b =? barrier_id).

(** [checkpoint_barrier_aligned], from the executor's thread. *)
Definition checkpoint_barrier_aligned (barrier_id : Z) : task → task :=
  set_gates (λ g, if checkpoint_gate_loop g
                  then mkGates (checkpoint_input_gates g) (checkpoint_gate_resolved_through g) (checkpoint_gate_loop g) (gate_callbacks g ++ [barrier_id])
                  else g).

(** The event loop runs a callback another thread scheduled. *)
Definition run_callback : act unit :=
  s ← gets id;
  match gate_callbacks (t_gates s) with
  | [] => mret ()
  | barrier_id :: rest =>
      _ ← modify (set_gates (λ g, mkGates (checkpoint_input_gates g) (checkpoint_gate_resolved_through g) (checkpoint_gate_loop g) rest));
      _ ← release_checkpoint_input_gates barrier_id;
      mret ()
  end.

(** ** The pump's gates for shared epochs *)

(** [_coordinated_checkpoint_channel]. *)
Definition coordinated_checkpoint_channel (sender : vid) (dc : option channel) : act (option lane) :=
  s ← gets id;
  let l := lane_of sender dc in
  if channel_mismatch sender dc then throw ValueError
  else if in_channels l (retired_checkpoint_input_channels (t_inputs s)) then mret None
  else if unconfigured l (checkpoint_input_channels (t_inputs s)) then throw RuntimeError
  else if negb (bool_decide (checkpoint_expected_inputs (t_inputs s) = ∅)) && bool_decide (sender ∉ checkpoint_expected_inputs (t_inputs s)) then throw ValueError
  else mret (Some l).

Definition set_checkpoint_barrier_id (i : option Z) : task → task :=
  set_pump (λ p, mkPump i (checkpoint_seen_inputs p) (checkpoint_seen_channels p) (checkpoint_announced_channels p)
    (checkpoint_admission_resumes p) (checkpoint_input_resumes p) (checkpoint_held p) (checkpoint_ready p) (pump_last_coordinated p)).

(** [if self._checkpoint_barrier_id is None: ... elif ... != id: raise]. *)
Definition join_checkpoint (barrier_id : Z) : act unit :=
  s ← gets id;
  match checkpoint_barrier_id (t_pump s) with
  | None => modify (set_checkpoint_barrier_id (Some barrier_id))
  | Some b => if b =? barrier_id then mret () else throw RuntimeError
  end.

Definition announce_coordinated_barrier (b : Barrier) (sender : vid) (dc : option channel) : act bool :=
  if negb (b_coordinated b) then mret true
  else
    s ← gets id;
    if b_id b <=? pump_last_coordinated (t_pump s) then mret false
    else
      found ← coordinated_checkpoint_channel sender dc;
      match found with
      | None => mret false
      | Some l =>
          _ ← join_checkpoint (b_id b);
          if bool_decide (l ∈ checkpoint_announced_channels (t_pump s)) then mret false
          else
            event ← fresh;
            _ ← modify (set_pump (λ p, mkPump (checkpoint_barrier_id p) (checkpoint_seen_inputs p) (checkpoint_seen_channels p)
                  ({[l]} ∪ checkpoint_announced_channels p) (<[l := event]> (checkpoint_admission_resumes p)) (checkpoint_input_resumes p)
                  (checkpoint_held p) (checkpoint_ready p) (pump_last_coordinated p)));
            mret true
      end.

(** [_block_checkpoint_input]. *)
Definition block_checkpoint_input (l : lane) : act unit :=
  s ← gets id;
  if bool_decide (is_Some (checkpoint_input_resumes (t_pump s) !! l)) then mret ()
  else
    unused ← fresh;
    modify (set_pump (λ p, mkPump (checkpoint_barrier_id p) (checkpoint_seen_inputs p) (checkpoint_seen_channels p)
      (checkpoint_announced_channels p) (checkpoint_admission_resumes p)
      (<[l := default unused (checkpoint_admission_resumes p !! l)]> (checkpoint_input_resumes p))
      (checkpoint_held p) (checkpoint_ready p) (pump_last_coordinated p))).

(** [isinstance(payload, Barrier) and payload.coordinated and payload.id == self._checkpoint_barrier_id]. *)
Definition joins_checkpoint (m : payload) s : bool :=
  match m with
  | PBarrier b => b_coordinated b && bool_decide (checkpoint_barrier_id (t_pump s) = Some (b_id b))
  | _ => false
  end.

Definition hold_for_coordinated_checkpoint (e : InboxEnvelope) s : bool :=
  bool_decide (is_Some (checkpoint_input_resumes (t_pump s) !! env_lane e)) && negb (joins_checkpoint (env_payload e) s).

Definition observe_coordinated_barrier (e : InboxEnvelope) : act bool :=
  match env_payload e with
  | PBarrier b =>
      if negb (b_coordinated b) then mret false
      else
        s ← gets id;
        if b_id b <=? pump_last_coordinated (t_pump s) then mret false
        else
          found ← coordinated_checkpoint_channel (env_sender e) (env_channel e);
          match found with
          | None => mret false
          | Some l =>
              _ ← join_checkpoint (b_id b);
              if bool_decide (l ∈ checkpoint_seen_channels (t_pump s)) then mret false
              else
                _ ← modify (set_pump (λ p, mkPump (checkpoint_barrier_id p) (checkpoint_seen_inputs p ⊎ {[+ env_sender e +]})
                      ({[l]} ∪ checkpoint_seen_channels p) (checkpoint_announced_channels p) (checkpoint_admission_resumes p)
                      (checkpoint_input_resumes p) (checkpoint_held p) (checkpoint_ready p) (pump_last_coordinated p)));
                _ ← block_checkpoint_input l;
                let expected := checkpoint_expected_inputs (t_inputs s) in
                let needed := if bool_decide (expected = ∅) then {[+ env_sender e +]} else expected in
                gets (λ s, bool_decide (needed ⊆ checkpoint_seen_inputs (t_pump s)))
          end
  | _ => mret false
  end.

Definition checkpoint_input_blocked (l : lane) s : bool :=
  bool_decide (is_Some (checkpoint_admission_resumes (t_pump s) !! l)) || bool_decide (is_Some (checkpoint_input_resumes (t_pump s) !! l)).

(** The event [wait_for_checkpoint_input] finds. *)
Definition checkpoint_resume (l : lane) s : option nat :=
  match checkpoint_admission_resumes (t_pump s) !! l with
  | Some event => Some event
  | None => checkpoint_input_resumes (t_pump s) !! l
  end.

(** [_release_checkpoint_inputs]. *)
Definition release_checkpoint_inputs : act unit :=
  s ← gets id;
  let p := t_pump s in
  _ ← modify (fire (list_to_set ((map_to_list (checkpoint_admission_resumes p)).*2 ++ (map_to_list (checkpoint_input_resumes p)).*2)));
  modify (set_pump (λ p, mkPump None ∅ ∅ ∅ ∅ ∅ [] (checkpoint_ready p ++ checkpoint_held p) (pump_last_coordinated p))).

Definition set_pump_last (f : Z → Z) : task → task :=
  set_pump (λ p, mkPump (checkpoint_barrier_id p) (checkpoint_seen_inputs p) (checkpoint_seen_channels p)
    (checkpoint_announced_channels p) (checkpoint_admission_resumes p) (checkpoint_input_resumes p)
    (checkpoint_held p) (checkpoint_ready p) (f (pump_last_coordinated p))).

Definition finish_coordinated_checkpoint (barrier_id : Z) : act unit :=
  s ← gets id;
  if negb (bool_decide (checkpoint_barrier_id (t_pump s) = Some barrier_id)) then mret ()
  else _ ← modify (set_pump_last (λ x, Z.max x barrier_id)); release_checkpoint_inputs.

Definition pump_discard_checkpoint (barrier_id : Z) : act Z :=
  _ ← modify (set_pump_last (λ x, Z.max x barrier_id));
  s ← gets id;
  if bool_decide (checkpoint_barrier_id (t_pump s) = Some barrier_id)
  then _ ← release_checkpoint_inputs; mret (Z.of_nat (length (checkpoint_held (t_pump s))))
  else mret 0.

Definition pump_reset_inflight_before (cutoff : Z) : act Z :=
  _ ← modify (set_pump_last (λ x, Z.max x cutoff));
  s ← gets id;
  match checkpoint_barrier_id (t_pump s) with
  | None => mret 0
  | Some b => if cutoff <? b then mret 0
              else _ ← release_checkpoint_inputs; mret (Z.of_nat (length (checkpoint_held (t_pump s))))
  end.

(** ** Inbox calls *)

(** A wait that [asyncio.wait_for] may cut short. *)
Definition expirable (timed : bool) (b : task → bool) : co unit :=
  if timed then expired ← await Expired; if (expired : bool) then raises TimeoutError else wait_until b
  else wait_until b.

Definition wait_for_checkpoint_input (timed : bool) (l : lane) (m : payload) : co unit :=
  s ← sync (gets id);
  match checkpoint_resume l s with
  | None => mret ()
  | Some event => if joins_checkpoint m s then mret () else expirable timed (λ s, bool_decide (event ∈ fired (t_run s)))
  end.

Definition new_envelope (m : payload) (sender : vid) (sequence : option Z) (dc : option channel) : act InboxEnvelope :=
  n ← fresh; mret (mkEnvelope m sender sequence dc n).

(** [WeightedQueue.put], [try_put] and [put_control] of the inbox. *)
Definition offer (e : InboxEnvelope) s : outcome (option queue) :=
  queue_put inbox_envelope_rows (Some inbox_envelope_bytes) (AInt (reserved_input_bytes s)) e (t_inbox s).

Definition admit_envelope (e : InboxEnvelope) : act bool :=
  s ← gets id;
  r ← of_outcome (offer e s);
  match r with
  | Some q => _ ← modify (set_inbox q); _ ← modify (add_admitted e); mret true
  | None => mret false
  end.

Definition inbox_put (timed : bool) (e : InboxEnvelope) : co unit :=
  _ ← expirable timed (λ s, match offer e s with Ok None => false | _ => true end);
  _ ← sync (admit_envelope e);
  mret ().

Definition inbox_put_control (e : InboxEnvelope) : co unit :=
  _ ← pause;
  sync (s ← gets id;
        q ← of_outcome (put_control inbox_envelope_rows (Some inbox_envelope_bytes) e (t_inbox s));
        _ ← modify (set_inbox q); modify (add_admitted e)).

(** [admit] of [StreamTask.put]. *)
Definition admit_records (timed : bool) (records : list R) (sender : vid) (sequence : option Z) (dc : option channel) : co unit :=
  let l := lane_of sender dc in
  _ ← expirable timed (input_open l);
  _ ← wait_for_checkpoint_input timed l (PRecords records);
  e ← sync (new_envelope (PRecords records) sender sequence dc);
  inbox_put timed e.

(** [put]: whether the records were accepted. *)
Definition put (records : list R) (timed : bool) (sender : vid) (sequence : option Z) (dc : option channel) : co bool :=
  r ← co_try (admit_records timed records sender sequence dc);
  match r with
  | Ok _ => mret true
  | Err TimeoutError => mret false
  | Err e => raises e
  end.

Definition try_put_records (records : list R) (sender : vid) (sequence : option Z) (dc : option channel) : co bool :=
  let l := lane_of sender dc in
  s ← sync (gets id);
  if negb (input_open l s) || checkpoint_input_blocked l s then mret false
  else
    _ ← pause;
    e ← sync (new_envelope (PRecords records) sender sequence dc); sync (admit_envelope e).

Definition emit_barrier (b : Barrier) (sender : vid) (dc : option channel) : co unit :=
  let l := lane_of sender dc in
  current ← sync (current_checkpoint_delivery_channel sender dc);
  if negb current then mret ()
  else if b_coordinated b then
    announced ← sync (announce_coordinated_barrier b sender dc);
    if negb announced then mret ()
    else e ← sync (new_envelope (PBarrier b) sender None dc); inbox_put_control e
  else
    claimed ← claim_checkpoint_input l (b_id b);
    if negb claimed then mret ()
    else
      _ ← wait_for_checkpoint_input false l (PBarrier b);
      e ← sync (new_envelope (PBarrier b) sender None dc);
      inbox_put false e.

Definition emit_stream_control (control : K) (sender : vid) (dc : option channel) : co unit :=
  let l := lane_of sender dc in
  _ ← wait_until (input_open l);
  _ ← wait_for_checkpoint_input false l (PControl control);
  e ← sync (new_envelope (PControl control) sender None dc);
  inbox_put false e.

(** ** Aborting a checkpoint *)

Definition abort_checkpoint (barrier_id : Z) : co bool :=
  removed ← in_executor (sync (aligning (discard barrier_id)));
  sync (held ← pump_discard_checkpoint barrier_id;
        released ← release_checkpoint_input_gates barrier_id;
        mret (negb (removed =? 0) || negb (held =? 0) || negb (released =? 0))).

Definition task_reset_inflight_before (cutoff : Z) : co Z :=
  removed ← in_executor (sync (aligning (reset_inflight_before cutoff)));
  sync (held ← pump_reset_inflight_before cutoff;
        _ ← modify (mark_checkpoint_gate_resolved cutoff);
        released ← open_gates (λ b, b <=? cutoff);
        mret (removed + held + released)).

(** ** Barriers in the operator's thread *)

Record task_config := mkTaskConfig {
  cfg_is_committer : bool;
  cfg_stateful : bool
}.
Context (cfg : task_config).

(** A call of the operator, which may run as long as it wants. *)
Definition operate (call : op_call) : co (answer (Operate call)) :=
  _ ← sync (modify (add_call call)); await (Operate call).

(** [prepare_sink_commit]. *)
Definition prepare_sink_commit (b : Barrier) : co unit :=
  committable ← operate (PrepareCheckpoint (b_id b));
  match (committable : option C) with
  | None => mret ()
  | Some c =>
      s ← sync (gets id);
      registered ← co_try (await (RegisterSinkCommittable b (t_calls s) c));
      match (registered : outcome bool) with
      | Err e => _ ← co_try (await (AbortCommittable c)); raises e
      | Ok true => mret ()
      | Ok false => _ ← await (AbortCommittable c); raises RuntimeError
      end
  end.

(** [snapshot_operator_state]. *)
Definition snapshot_operator_state (b : Barrier) : co unit :=
  if negb (cfg_stateful cfg) then mret ()
  else
    s ← sync (gets id);
    registered ← await (RegisterOperatorState b (t_calls s));
    if (registered : bool) then mret () else raises RuntimeError.

(** [on_barrier_aligned] of [handle_barrier]. *)
Definition on_barrier_aligned (b : Barrier) : co unit :=
  _ ← operate Flush;
  _ ← prepare_sink_commit b;
  terminal ← sync (gets (λ s, last_alignment_is_terminal (a_terminal (t_aligner s))));
  _ ← ((if (terminal : bool) then operate Finish else mret ()) : co unit);
  snapshot_operator_state b.

(** [AlignedCheckpointStrategy.on_barrier_received]. *)
Definition on_barrier_received (b : Barrier) (sender : vid) (dc : option channel) : co bool :=
  s ← sync (gets id);
  if negb (b_coordinated b) && is_resolved (b_id b) (t_aligner s) then mret false
  else
    aligned ← sync (aligning (receive b (Some sender) dc));
    if negb aligned then mret false
    else
      _ ← on_barrier_aligned b;
      _ ← ((if cfg_is_committer cfg then await (NotifyAligned (b_id b)) else mret ()) : co unit);
      mret true.

Definition handle_barrier (b : Barrier) (sender : vid) (dc : option channel) : co unit :=
  aligned ← on_barrier_received b sender dc;
  if negb aligned then mret ()
  else
    forwarded ← sync (gets (λ s, barrier_to_forward b (t_aligner s)));
    _ ← operate (Collect forwarded);
    _ ← ((if b_end_of_data forwarded then
            eof ← sync (aligning (receive_eof forwarded));
            if (eof : bool) then await MarkEofFinished else mret ()
          else mret ()) : co unit);
    sync (modify (checkpoint_barrier_aligned (b_id b))).

(** ** The pump *)

(** A call of the accumulator. *)
Definition batching {X} (m : nat → A → outcome (X * A)) : act X :=
  n ← read_clock;
  a ← gets t_batches;
  '(x, a') ← (of_outcome (m n a) : act (X * A));
  _ ← modify (set_batches a');
  mret x.

Definition data_handler (sender : vid) (dc : option channel) (x : RO + Barrier) : co unit :=
  match x with
  | inl r => operate (Process r)
  | inr b => handle_barrier b sender dc
  end.

Definition flush_input (force : bool) : co unit :=
  batches ← sync (batching (batcher_flush force));
  co_each (λ r, operate (Process r)) batches.

(** [_handle_sync]. *)
Definition handle_sync (m : payload) (sender : vid) (dc : option channel) : co unit :=
  match m with
  | PRecords records =>
      co_each (λ r, emitted ← sync (batching (λ n, batcher_accept n (inl r))); co_each (data_handler sender dc) emitted) records
  | PBarrier b =>
      emitted ← sync (batching (λ n, batcher_accept n (inr b)));
      _ ← co_each (data_handler sender dc) emitted;
      if b_end_of_data b then flush_input true else mret ()
  | PControl control =>
      _ ← flush_input true;
      operate (HandleControl control sender)
  end.

(** [WatermarkController.advance], as far as it drives the input. *)
Definition advance_watermark : co unit :=
  due ← await WatermarkPending;
  if negb (due : bool) then mret ()
  else
    _ ← in_executor (_ ← flush_input true; operate FlushOutput);
    await PublishMarks.

(** [_emit_drain_and_watermark]. *)
Definition emit_drain_and_watermark (m : payload) (l : lane) (sequence : option Z) : co unit :=
  _ ← await DrainPending;
  match m with
  | PRecords _ =>
      due ← await (NoteProcessed l sequence);
      if (due : bool) then advance_watermark else mret ()
  | _ => mret ()
  end.

Definition payload_barrier_id (m : payload) : Z := match m with PBarrier b => b_id b | _ => -1 end.

(** [_process_envelope] of a synchronous operator; [true] when the stream has ended. *)
Definition process_envelope (e : InboxEnvelope) : co bool :=
  aligned ← sync (observe_coordinated_barrier e);
  _ ← in_executor (handle_sync (env_payload e) (env_sender e) (env_channel e));
  _ ← emit_drain_and_watermark (env_payload e) (env_lane e) (env_sequence e);
  _ ← ((if (aligned : bool) then sync (finish_coordinated_checkpoint (payload_barrier_id (env_payload e))) else mret ()) : co unit);
  ended ← await CheckEndOfStream;
  mret (ended : bool).

(** [_next_envelope]. *)
Definition next_index s : option nat :=
  first_index (λ e, negb (hold_for_coordinated_checkpoint e s)) (wq_items (t_inbox s)).

Definition take_envelope : act InboxEnvelope :=
  s ← gets id;
  found ← of_outcome (get_matching (λ e, negb (hold_for_coordinated_checkpoint e s)) (t_inbox s));
  match found with
  | None => throw AssertionError
  | Some (e, q) =>
      _ ← (if wq_bound (t_inbox s) then reserve_input_envelope e (inbox_envelope_bytes e) else mret ());
      _ ← modify (set_inbox q);
      _ ← modify (add_dequeued e);
      mret e
  end.

Definition next_envelope : co InboxEnvelope :=
  s ← sync (gets id);
  match checkpoint_ready (t_pump s) with
  | e :: rest =>
      _ ← sync (modify (set_pump (λ p, mkPump (checkpoint_barrier_id p) (checkpoint_seen_inputs p) (checkpoint_seen_channels p)
            (checkpoint_announced_channels p) (checkpoint_admission_resumes p) (checkpoint_input_resumes p)
            (checkpoint_held p) rest (pump_last_coordinated p))));
      mret e
  | [] =>
      _ ← wait_until (λ s, bool_decide (next_index s ≠ None));
      sync take_envelope
  end.

(** [_idle_flush]. *)
Definition idle_flush : co unit :=
  _ ← flush_input false; _ ← operate OnIdle; operate FlushOutput.

Definition hold_envelope (e : InboxEnvelope) : task → task :=
  set_pump (λ p, mkPump (checkpoint_barrier_id p) (checkpoint_seen_inputs p) (checkpoint_seen_channels p)
    (checkpoint_announced_channels p) (checkpoint_admission_resumes p) (checkpoint_input_resumes p)
    (checkpoint_held p ++ [e]) (checkpoint_ready p) (pump_last_coordinated p)).

(** [_run_once]. *)
Definition run_round : co bool :=
  expired ← await Expired;
  if (expired : bool) then
    _ ← sync reserve_accumulator_processing;
    co_finally
      (_ ← in_executor idle_flush; _ ← await DrainPending; _ ← advance_watermark; mret false)
      (modify release_accumulator_processing)
  else
    e ← next_envelope;
    _ ← pause;
    held ← sync (gets (hold_for_coordinated_checkpoint e));
    if (held : bool) then _ ← sync (modify (hold_envelope e)); mret false
    else
      _ ← sync reserve_accumulator_processing;
      co_finally (process_envelope e) (_ ← modify release_accumulator_processing; modify (release_input_envelope e)).

(** One turn of the worker's loop, which an exception or the end of the stream ends: the
    pump then stays taken. *)
Definition run_once : co unit :=
  _ ← acquire (λ s, pump_holder (t_run s)) set_pump_holder;
  ended ← run_round;
  if (ended : bool) then mret () else sync (modify (set_pump_holder None)).

(** ** The task *)

(** Which checkpoints are shared epochs: the coordinator decides when it allocates the
    id, so all copies of a barrier agree. *)
Context (shared : Z → bool).

Inductive method :=
  | MPut (records : list R) (timed : bool) (sender : vid) (sequence : option Z) (dc : option channel)
  | MTryPut (records : list R) (sender : vid) (sequence : option Z) (dc : option channel)
  | MEmitBarrier (barrier_id : Z) (source_id : option vid) (end_of_data : bool) (timestamp : Z) (sender : vid) (dc : option channel)
  | MEmitControl (control : K) (sender : vid) (dc : option channel)
  | MAbort (barrier_id : Z)
  | MReset (cutoff : Z)
  | MCallback
  | MRunOnce.

Definition reply (m : method) : Type :=
  match m with
  | MPut _ _ _ _ _ | MTryPut _ _ _ _ | MAbort _ => bool
  | MReset _ => Z
  | _ => unit
  end.

Definition method_body (m : method) : co (reply m) :=
  match m with
  | MPut records timed sender sequence dc => on_lane (lane_of sender dc) (put records timed sender sequence dc)
  | MTryPut records sender sequence dc => on_lane (lane_of sender dc) (try_put_records records sender sequence dc)
  | MEmitBarrier barrier_id source_id end_of_data timestamp sender dc =>
      on_lane (lane_of sender dc) (emit_barrier (mkBarrier barrier_id source_id (shared barrier_id) end_of_data timestamp) sender dc)
  | MEmitControl control sender dc => emit_stream_control control sender dc
  | MAbort barrier_id => abort_checkpoint barrier_id
  | MReset cutoff => task_reset_inflight_before cutoff
  | MCallback => sync run_callback
  | MRunOnce => run_once
  end.

(** A task with an empty inbox. *)
Definition install_checkpoint_inputs (inputs : list vid) (input_channels : option (list channel)) (previous : pump_inputs) : outcome pump_inputs :=
  match input_channels with
  | Some channels =>
      configured ← channel_inventory (Counter inputs) channels;
      let retired := match checkpoint_input_channels previous with
                     | Some old => retired_checkpoint_input_channels previous ∪ (old ∖ configured)
                     | None => retired_checkpoint_input_channels previous
                     end in
      Ok (mkPumpInputs (Counter inputs) (Some configured) (retired ∖ configured))
  | None => Ok (mkPumpInputs (Counter inputs) None ∅)
  end.

Definition task_init (input_buffer_size input_buffer_max_bytes : Z) (barrier_splits : gmap vid Z) (inputs : list vid)
    (input_channels : option (list channel)) (batches : A) : outcome task :=
  aligner ← Aligner_init (λ _, ""%string) barrier_splits (Some inputs) input_channels;
  inbox ← WeightedQueue_init (Some inbox_envelope_bytes) input_buffer_size (Some input_buffer_max_bytes);
  installed ← install_checkpoint_inputs inputs input_channels (mkPumpInputs ∅ None ∅);
  inbox ← bind_external_byte_reservation inbox;
  Ok (mkTask inbox (mkPump None ∅ ∅ ∅ ∅ ∅ [] [] (-1)) installed (mkPumpBytes 0 ∅ 0) (mkGates ∅ (-1) false [])
        aligner batches [] (mkRun 0 ∅ 0 ∅ None None) [] []).
End task.
