(* ===== verification/TaskInvariant.v ===== *)
(** * The invariant of a task's input

    What holds at every suspension point of the coroutines of [TaskInput], what a
    coroutine that holds the lock of a lane, or the pump, may do, and on what it may rely.
    A barrier that was admitted on a lane keeps the lane closed for data until its
    checkpoint is done ([fenced]), and the inbox keeps the order of each lane; so the
    barriers that have reached the aligner cut the input of the task. *)
From stdpp Require Import gmultiset.
From S2P Require Import Prelude Effects Coroutines Checkpoints Delivery WeightedQueue BarrierAligner TaskInput.
Open Scope Z_scope.

(** What a [Batcher] promises: the rows that leave, followed by those it holds, are the
    rows that arrived, up to [row_sim], and a barrier empties it. *)
Class BatcherLaws (R RO A Row : Type) `{!Batcher R RO A} := {
  rows_in : R → list Row;
  rows_out : RO → list Row;
  contents : A → list Row;
  row_sim : Row → Row → Prop;
  row_sim_equiv :: Equivalence row_sim;
  batcher_ok : A → Prop;
  accept_record n r a out a' :
    batcher_ok a → batcher_accept n (inl r) a = Ok (out, a') →
    batcher_ok a' ∧ ∃ bs, out = inl <$> bs ∧ Forall2 row_sim (mjoin (rows_out <$> bs) ++ contents a') (contents a ++ rows_in r);
  accept_barrier n b a out a' :
    batcher_ok a → batcher_accept n (inr b) a = Ok (out, a') →
    batcher_ok a' ∧ contents a' = [] ∧ ∃ bs, out = (inl <$> bs) ++ [inr b] ∧ Forall2 row_sim (mjoin (rows_out <$> bs)) (contents a);
  flush_rows force n a bs a' :
    batcher_ok a → batcher_flush force n a = Ok (bs, a') →
    batcher_ok a' ∧ Forall2 row_sim (mjoin (rows_out <$> bs) ++ contents a') (contents a)
}.

Section invariant.
Context {R RO K A C Row : Type} `{!Batcher R RO A, !BatcherLaws R RO A Row}
  (shared : Z → bool) (channels : gset channel).

Abbreviation task := (task (R := R) (RO := RO) (K := K) (A := A)).
Abbreviation envelope := (InboxEnvelope (R := R) (K := K)).
Abbreviation call := (op_call (RO := RO) (K := K)).
Abbreviation question := (question (RO := RO) (K := K) (C := C)).
Abbreviation ev := (event (answer (RO := RO) (K := K) (C := C)) (reply (R := R) (K := K))).
Abbreviation hist := (list ev).
Implicit Types (s : task) (e : envelope) (es : list envelope) (h : hist) (l : lane) (b : Z) (T : gset nat).

(** ** Rows *)

Definition sim : list Row → list Row → Prop := Forall2 row_sim.

#[global] Instance sim_equiv : Equivalence sim.
Proof. unfold sim. apply _. Qed.
#[global] Instance sim_app : Proper (sim ==> sim ==> sim) app.
Proof. intros l1 l2 H1 k1 k2 H2. by apply Forall2_app. Qed.

(** The rows of the records in some envelopes, and the rows the operator was given. *)
Definition env_rows e : list Row := match env_payload e with PRecords rs => mjoin (rows_in <$> rs) | _ => [] end.
Definition envs_rows es : list Row := mjoin (env_rows <$> es).
Definition call_rows (c : call) : list Row := match c with Process r => rows_out r | _ => [] end.
Definition calls_rows (cs : list call) : list Row := mjoin (call_rows <$> cs).

(** ** Lanes and barriers *)

Definition is_data e : bool := match env_payload e with PRecords _ => true | _ => false end.
Definition is_control e : bool := match env_payload e with PControl _ => true | _ => false end.
Definition has_barrier l b e : bool :=
  bool_decide (env_lane e = l) && match env_payload e with PBarrier x => b_id x =? b | _ => false end.

(** The records and barriers of one lane, and its records. *)
Definition on_lane_of l es : list envelope := filter (λ e, env_lane e = l ∧ is_control e = false) es.
Definition data_of l es : list envelope := filter (λ e, env_lane e = l ∧ is_data e = true) es.

Definition barrier_in l b es : Prop := ∃ e, e ∈ es ∧ has_barrier l b e = true.

(** A barrier that was taken out of the inbox. *)
Definition heard es l b (eof : bool) : Prop :=
  ∃ e x, e ∈ es ∧ env_lane e = l ∧ env_payload e = PBarrier x ∧ b_id x = b ∧ b_end_of_data x = eof.

(** The barrier of [b] is on the lane, and no record behind it. *)
Definition last_data l b es : Prop :=
  ∃ before e after, on_lane_of l es = before ++ e :: after ∧ has_barrier l b e = true ∧ Forall (λ x, is_data x = false) after.

Definition items s : list envelope := e_item <$> wq_items (t_inbox s).

Definition current s : option Z := checkpoint_barrier_id (t_pump s).
Definition announced s : gset lane := checkpoint_announced_channels (t_pump s).
Definition seen s : gset lane := checkpoint_seen_channels (t_pump s).
Definition gate s l : option (Z * nat) := checkpoint_input_gates (t_gates s) !! l.
Definition last_aligned s : Z := last_coordinated_barrier_id (a_coordinated (t_aligner s)).
Definition resolved s : Z := direct_resolved_through (a_direct (t_aligner s)).

(** The lane is closed by the barrier of [b]. *)
Definition fenced l b s : Prop :=
  if shared b then current s = Some b ∧ l ∈ announced s else ∃ n, gate s l = Some (b, n).

(** The aligner is done with [b]; the gates have let [b] pass. *)
Definition done_with b s : Prop := if shared b then b <= last_aligned s else b <= resolved s.
Definition passed l b s : Prop :=
  if shared b then b <= pump_last_coordinated (t_pump s) ∨ (current s = Some b ∧ l ∈ announced s)
  else b <= checkpoint_gate_resolved_through (t_gates s) ∨ ∃ n, gate s l = Some (b, n).

Definition settled_or_fenced l b s : Prop := done_with b s ∨ fenced l b s.

Definition lane_open l s : Prop := gate s l = None ∧ l ∉ announced s.

(** ** The consistent cut *)

(** A checkpoint is registered with the calls the operator has received. *)
Definition registers (q : question) : option (Barrier * list call) :=
  match q with
  | RegisterOperatorState b calls => Some (b, calls)
  | RegisterSinkCommittable b calls _ => Some (b, calls)
  | _ => None
  end.

(** Of every input lane exactly the records before its barrier, unless an earlier
    checkpoint ended the lane. *)
Definition cut_lanes (b : Barrier) (cut adm : list envelope) : Prop :=
  (∀ l, data_of l cut `prefix_of` data_of l adm) ∧
  ∀ l, l ∈ input_lanes channels →
    (∃ before e after, on_lane_of l adm = before ++ e :: after ∧ has_barrier l (b_id b) e = true ∧ data_of l cut = data_of l before) ∨
    (b_coordinated b = false ∧ ∃ b', b' < b_id b ∧ heard adm l b' true).

Definition cut_ok (b : Barrier) (calls : list call) (adm : list envelope) : Prop :=
  ∃ cut, sim (calls_rows calls) (envs_rows cut) ∧ cut_lanes b cut adm.

(** ** The invariant *)

(** The pump and the aligner agree on the lanes of the current epoch, but for one that
    the pump has seen and the aligner will. *)
Definition agree (x : option (lane * Z)) s : Prop :=
  match x with
  | None => ∀ b, current s = Some b → b <= last_aligned s ∨ seen s = epoch_lanes b (t_aligner s)
  | Some (l, b0) =>
      (b0 <= last_aligned s ∨ current s = Some b0 ∧ l ∉ epoch_lanes b0 (t_aligner s) ∧ seen s = {[l]} ∪ epoch_lanes b0 (t_aligner s)) ∧
      ∀ b, b ≠ b0 → current s = Some b → b <= last_aligned s ∨ seen s = epoch_lanes b (t_aligner s)
  end.

(** The rows given to the operator, taken out of the accumulator, still in it, and not
    yet put into it are those of the envelopes taken out of the inbox. *)
Definition flow (out pending : list Row) s : Prop :=
  batcher_ok (t_batches s) ∧ sim (calls_rows (t_calls s) ++ out ++ contents (t_batches s) ++ pending) (envs_rows (dequeued s)).

Record pump_ok (s : task) : Prop := {
  pk_held : checkpoint_held (t_pump s) = [] ∧ checkpoint_ready (t_pump s) = [];
  pk_inputs : checkpoint_seen_inputs (t_pump s) = senders (seen s);
  pk_admission : dom (checkpoint_admission_resumes (t_pump s)) = announced s;
  pk_idle : current s = None → announced s = ∅ ∧ seen s = ∅ ∧ checkpoint_input_resumes (t_pump s) = ∅;
  pk_resumes l : is_Some (checkpoint_input_resumes (t_pump s) !! l) → ∃ b, current s = Some b ∧ barrier_in l b (dequeued s);
  pk_unfired l n : checkpoint_admission_resumes (t_pump s) !! l = Some n → n ∉ fired (t_run s) ∧ (n < next_identity (t_run s))%nat;
  pk_fired n : n ∈ fired (t_run s) → (n < next_identity (t_run s))%nat;
  pk_gates l b n : gate s l = Some (b, n) → (n < next_identity (t_run s))%nat ∧ ∀ l', checkpoint_admission_resumes (t_pump s) !! l' ≠ Some n;
  pk_input_events l n : checkpoint_input_resumes (t_pump s) !! l = Some n → (n < next_identity (t_run s))%nat
}.

Record task_ok s h : Prop := {
  ok_inputs : t_inputs s = mkPumpInputs (senders (input_lanes channels)) (Some channels) ∅;
  ok_order l : on_lane_of l (dequeued s) ++ on_lane_of l (items s) = on_lane_of l (admitted s);
  ok_shared e x : e ∈ admitted s → env_payload e = PBarrier x → b_coordinated x = shared (b_id x);
  ok_once l b : (length (filter (λ e, has_barrier l b e = true) (admitted s)) <= 1)%nat;
  ok_passed l b : barrier_in l b (admitted s) → passed l b s;
  ok_fence l b : barrier_in l b (admitted s) → done_with b s ∨ (fenced l b s ∧ last_data l b (admitted s));
  ok_pump : pump_ok s;
  ok_callbacks b : b ∈ gate_callbacks (t_gates s) → shared b = false → b <= resolved s;
  ok_last : pump_last_coordinated (t_pump s) <= last_aligned s;
  ok_aligner : aligner_ok channels (heard (dequeued s)) (t_aligner s);
  ok_agree : pump_holder (t_run s) = None → agree None s;
  ok_flow : pump_holder (t_run s) = None → flow [] [] s;
  ok_cuts q x calls : Issued q ∈ h → registers q = Some (x, calls) → cut_ok x calls (admitted s)
}.

(** ** Guarantee and reliance *)

(** What only grows. *)
Record grows s s' : Prop := {
  gr_next : (next_identity (t_run s) <= next_identity (t_run s'))%nat;
  gr_last : last_aligned s <= last_aligned s';
  gr_resolved : resolved s <= resolved s';
  gr_passed l b : passed l b s → passed l b s';
  gr_settled l b : settled_or_fenced l b s → settled_or_fenced l b s';
  gr_admitted : admitted s `prefix_of` admitted s';
  gr_dequeued : dequeued s `prefix_of` dequeued s'
}.

(** What the holder of a lane can rely on. *)
Record lane_kept l s s' : Prop := {
  lk_admitted : on_lane_of l (admitted s') = on_lane_of l (admitted s);
  lk_gate : gate s l = None → gate s' l = None;
  lk_announced : l ∈ announced s' →
    l ∈ announced s ∧ checkpoint_admission_resumes (t_pump s') !! l = checkpoint_admission_resumes (t_pump s) !! l
}.

(** What the holder of the pump can rely on. *)
Record pump_kept s s' : Prop := {
  pp_calls : t_calls s' = t_calls s;
  pp_batches : t_batches s' = t_batches s;
  pp_dequeued : dequeued s' = dequeued s;
  pp_current b : current s = Some b → b <= last_aligned s' ∨ (current s' = Some b ∧ seen s' = seen s);
  pp_new b : current s' = Some b → b <= last_aligned s' ∨ current s = Some b ∨ (seen s' = ∅ ∧ epoch_lanes b (t_aligner s') = ∅);
  pp_epoch b : b <= last_aligned s' ∨ epoch_lanes b (t_aligner s') = epoch_lanes b (t_aligner s);
  pp_resumes l : is_Some (checkpoint_input_resumes (t_pump s') !! l) → is_Some (checkpoint_input_resumes (t_pump s) !! l)
}.

Definition lane_holder s l : option nat := lane_holders (t_run s) !! l.

Definition holds_lane l T s : Prop := ∃ n, lane_holder s l = Some n ∧ n ∈ T.
Definition holds_pump T s : Prop := ∃ n, pump_holder (t_run s) = Some n ∧ n ∈ T.

Definition closed s (n : nat) : Prop := (n < next_identity (t_run s))%nat.
Definition taken s s' : gset nat := set_seq (next_identity (t_run s)) (next_identity (t_run s') - next_identity (t_run s)).

Definition Rely T s s' : Prop :=
  grows s s' ∧
  (∀ l, holds_lane l T s → lane_holder s' l = lane_holder s l ∧ lane_kept l s s') ∧
  (holds_pump T s → pump_holder (t_run s') = pump_holder (t_run s) ∧ pump_kept s s').

Definition G T s s' : Prop :=
  grows s s' ∧
  (∀ l, holds_lane l T s ∨ ((lane_holder s l = None ∨ lane_holder s' l = lane_holder s l) ∧ lane_kept l s s')) ∧
  (holds_pump T s ∨ ((pump_holder (t_run s) = None ∨ pump_holder (t_run s') = pump_holder (t_run s)) ∧ pump_kept s s')).

(** ** Laws of guarantee and reliance *)

Lemma task_grows_refl s : grows s s.
Proof. by split. Qed.
Lemma task_grows_trans s1 s2 s3 : grows s1 s2 → grows s2 s3 → grows s1 s3.
Proof. intros [] []. split; [lia|lia|lia|auto|auto|by etrans|by etrans]. Qed.

Lemma lane_kept_refl l s : lane_kept l s s.
Proof. by split. Qed.
Lemma lane_kept_trans l s1 s2 s3 : lane_kept l s1 s2 → lane_kept l s2 s3 → lane_kept l s1 s3.
Proof. intros [E1 G1 A1] [E2 G2 A2]. split; [congruence|auto|]. intros [H2 E]%A2. destruct (A1 H2). split; [done|congruence]. Qed.

Lemma pump_kept_refl s : pump_kept s s.
Proof. by split; auto. Qed.
Lemma pump_kept_trans s1 s2 s3 : grows s2 s3 → pump_kept s1 s2 → pump_kept s2 s3 → pump_kept s1 s3.
Proof.
  intros Hg [E1 E2 E3 C1 N1 P1 R1] [E1' E2' E3' C2 N2 P2 R2]. pose proof (gr_last _ _ Hg) as Hl. split; try congruence.
  - intros b Hb. destruct (C1 b Hb) as [?|[H2 S2]]; [left; lia|]. destruct (C2 b H2) as [?|[H3 S3]]; [by left|right; split; congruence].
  - intros b Hb. destruct (N2 b Hb) as [?|[H2|[S3 E3'']]]; [by left| |by right; right].
    destruct (N1 b H2) as [?|[?|[S2 Ep]]]; [left; lia|by right; left|].
    destruct (C2 b H2) as [?|[_ S3]]; [by left|]. destruct (P2 b) as [?|Ep3]; [by left|]. right; right. split; congruence.
  - intros b. destruct (P1 b) as [?|Ep1]; [left; lia|]. destruct (P2 b) as [?|Ep2]; [by left|]. right. congruence.
  - auto.
Qed.

Lemma task_Rely_refl T s : Rely T s s.
Proof. split_and!; [apply task_grows_refl|intros; split; [done|apply lane_kept_refl]|intros; split; [done|apply pump_kept_refl]]. Qed.

Lemma task_Rely_trans T s1 s2 s3 : Rely T s1 s2 → Rely T s2 s3 → Rely T s1 s3.
Proof.
  intros (G1 & L1 & P1) (G2 & L2 & P2). split_and!; [by eapply task_grows_trans| |].
  - intros l Hl. destruct (L1 l Hl) as [E1 K1]. destruct (L2 l) as [E2 K2].
    { destruct Hl as (n & Hn & Hin). exists n. split; [congruence|done]. }
    split; [congruence|by eapply lane_kept_trans].
  - intros Hp. destruct (P1 Hp) as [E1 K1]. destruct P2 as [E2 K2].
    { destruct Hp as (n & Hn & Hin). exists n. split; [congruence|done]. }
    split; [congruence|by eapply pump_kept_trans].
Qed.

Lemma task_G_closed T s s' n : G T s s' → closed s n → closed s' n.
Proof. intros (Hg & _) Hn. unfold closed in *. pose proof (gr_next _ _ Hg). lia. Qed.

Lemma task_taken_closed s s' n : n ∈ taken s s' → ¬ closed s n ∧ closed s' n.
Proof. unfold taken, closed. rewrite elem_of_set_seq. lia. Qed.

Lemma task_G_Rely T T' s s' : T ## T' → (∀ k, k ∈ T → closed s k) → G T' s s' → Rely T s s'.
Proof.
  intros Hd _ (Hg & Hl & Hp). split_and!; [done| |].
  - intros l (n & Hn & Hin). destruct (Hl l) as [(n' & Hn' & Hin')|[[E|E] Hk]]; [|congruence|done].
    exfalso. apply (Hd n); [done|]. congruence.
  - intros (n & Hn & Hin). destruct Hp as [(n' & Hn' & Hin')|[[E|E] Hk]]; [|congruence|done].
    exfalso. apply (Hd n); [done|]. congruence.
Qed.
End invariant.
