(* ===== verification/TaskSteps.v ===== *)
(** * The atomic steps of a task's input

    One lemma for each piece of code between two suspension points of [TaskInput]: it
    keeps the invariant of [TaskInvariant], within what its coroutine may do. *)
From stdpp Require Import gmultiset.
From S2P Require Import Prelude Effects Coroutines Checkpoints Delivery WeightedQueue BarrierAligner TaskInput TaskInvariant.
Open Scope Z_scope.

Section steps.
Context {R RO K A C Row : Type} `{!Batcher R RO A, !BatcherLaws R RO A Row}
  (record_num_rows : R → option Z) (shared : Z → bool) (channels : gset channel).
Context (estimate_retained_size : payload (R := R) (K := K) → Z).

Abbreviation task := (task (R := R) (RO := RO) (K := K) (A := A)).
Abbreviation envelope := (InboxEnvelope (R := R) (K := K)).
Abbreviation call := (op_call (RO := RO) (K := K)).
Abbreviation question := (question (RO := RO) (K := K) (C := C)).
Abbreviation ev := (event (answer (RO := RO) (K := K) (C := C)) (reply (R := R) (K := K))).
Abbreviation hist := (list ev).
Abbreviation task_ok := (task_ok (C := C) shared channels).
Abbreviation G := (G shared).
Implicit Types (s : task) (e : envelope) (es : list envelope) (h : hist) (l : lane) (b : Z) (T : gset nat).

(** ** Changes the invariant does not see *)

(** All but the locks, clocks and byte counts. *)
Record same_data s s' : Prop := {
  sv_items : items s' = items s;
  sv_pump : t_pump s' = t_pump s;
  sv_inputs : t_inputs s' = t_inputs s;
  sv_gates : checkpoint_input_gates (t_gates s') = checkpoint_input_gates (t_gates s);
  sv_resolved : checkpoint_gate_resolved_through (t_gates s') = checkpoint_gate_resolved_through (t_gates s);
  sv_callbacks : gate_callbacks (t_gates s') = gate_callbacks (t_gates s);
  sv_aligner : t_aligner s' = t_aligner s;
  sv_batches : t_batches s' = t_batches s;
  sv_calls : t_calls s' = t_calls s;
  sv_fired : fired (t_run s') = fired (t_run s);
  sv_admitted : admitted s' = admitted s;
  sv_dequeued : dequeued s' = dequeued s;
  sv_next : (next_identity (t_run s) <= next_identity (t_run s'))%nat
}.

Record same_view s s' : Prop := {
  sv_data : same_data s s';
  sv_lanes : lane_holders (t_run s') = lane_holders (t_run s);
  sv_holder : pump_holder (t_run s') = pump_holder (t_run s)
}.

Lemma same_view_refl s : same_view s s.
Proof. by repeat split. Qed.

#[global] Instance same_view_preorder : PreOrder same_view.
Proof.
  split; [intros s; apply same_view_refl|]. intros s1 s2 s3 [[] ? ?] [[] ? ?]. split; [split|..]; try congruence. lia.
Qed.

Ltac views :=
  match goal with H : same_data ?s ?s' |- _ =>
    destruct H, s as [? ? ? ? [] ? ? ? [] ? ?], s' as [? ? ? ? [] ? ? ? [] ? ?]; cbn in *; subst
  end.

Lemma same_data_kept s s' : same_data s s' → grows shared s s' ∧ (∀ l, lane_kept l s s') ∧ pump_kept s s'.
Proof.
  intros Hv. views. split_and!; [split; auto; cbn; try lia; try done|intros l; split; auto|split; auto].
Qed.

Lemma same_data_agree x s s' : same_data s s' → agree x s → agree x s'.
Proof. intros Hv. views. by destruct x as [[]|]. Qed.

Lemma same_data_flow out pending s s' : same_data s s' → flow out pending s → flow out pending s'.
Proof. intros Hv. by views. Qed.

Lemma same_data_ok s s' h :
  same_data s s' → (pump_holder (t_run s') = None → agree None s ∧ flow [] [] s) → task_ok s h → task_ok s' h.
Proof.
  intros Hv Hrel [Hi Ho Hs H1 Hp Hf Hpk Hcb Hl Ha Hag Hfl Hc]. pose proof Hv as [Ei _ _ _ _ _ _ _ _ _ Ea Ed Hn].
  split.
  - by rewrite (sv_inputs _ _ Hv).
  - intros l. by rewrite Ei, Ea, Ed.
  - by rewrite Ea.
  - by rewrite Ea.
  - intros l b. rewrite Ea. intros Hb%Hp. clear -Hv Hb. by views.
  - intros l b. rewrite Ea. intros Hb%Hf. clear -Hv Hb. by views.
  - clear -Hpk Hv. destruct Hpk as [? ? ? ? ? Hun Hfi Hga Hie]. views. split; try done; cbn.
    + intros l n Hn. destruct (Hun l n Hn). split; [done|lia].
    + intros n Hn%Hfi. lia.
    + intros l b n Hn. destruct (Hga l b n Hn). split; [lia|done].
    + intros l n Hn%Hie. lia.
  - clear -Hcb Hv. by views.
  - clear -Hl Hv. by views.
  - rewrite Ed, (sv_aligner _ _ Hv). done.
  - intros E. eapply same_data_agree; [exact Hv|by apply Hrel].
  - intros E. eapply same_data_flow; [exact Hv|by apply Hrel].
  - by rewrite Ea.
Qed.

Lemma same_view_ok s s' h : same_view s s' → task_ok s h → task_ok s' h.
Proof.
  intros [Hd _ E] Hs. apply (same_data_ok s); [done| |done]. rewrite E.
  intros E'. split; [by apply (ok_agree _ _ _ _ Hs)|by apply (ok_flow _ _ _ _ Hs)].
Qed.

Lemma same_view_G T s s' : same_view s s' → G T s s'.
Proof.
  intros Hv. destruct (same_data_kept s s' (sv_data _ _ Hv)) as (Hg & Hl & Hp). split_and!; [done| |].
  - intros l. right. split; [|done]. right. unfold lane_holder. by rewrite (sv_lanes _ _ Hv).
  - right. split; [|done]. right. apply (sv_holder _ _ Hv).
Qed.

(** ** Assertions *)

Abbreviation assertion := (gset nat → task → hist → Prop).

(** A step within an assertion: the invariant, the guarantee, and what holds after. *)
Definition stepping {X} (Φ : assertion) (m : exec task X) (Ψ : outcome X → assertion) : Prop :=
  ∀ T s h, task_ok s h → Φ T s h → G T s (m s).2 ∧ task_ok (m s).2 h ∧ Ψ (m s).1 (T ∪ taken s (m s).2) (m s).2 h.

(** A computation the invariant does not see. *)
Definition unseen {X} (m : exec task X) : Prop := keeps same_view m.

Lemma unseen_fresh : unseen fresh.
Proof. intros s. repeat split; cbn; auto. Qed.
Lemma unseen_read_clock : unseen read_clock.
Proof. intros s. repeat split; cbn; auto. Qed.
Lemma unseen_set_bytes f : unseen (modify (set_bytes f)).
Proof. intros s. by repeat split. Qed.

(** An assertion unseen steps keep. *)
Definition insensitive (Φ : assertion) : Prop := ∀ T T' s s' h, T ⊆ T' → same_view s s' → Φ T s h → Φ T' s' h.

Lemma stepping_unseen {X} Φ (m : exec task X) : unseen m → insensitive Φ → stepping Φ m (λ _, Φ).
Proof.
  intros Hm HΦ T s h Hs HP. split_and!; [by apply same_view_G, Hm|by eapply same_view_ok; [apply Hm|]|].
  eapply HΦ; [|apply Hm|exact HP]. set_solver.
Qed.

(** ** Locks *)

Lemma fresh_taken s : next_identity (t_run s) ∈ taken s (fresh s).2.
Proof. unfold taken. cbn. rewrite elem_of_set_seq. lia. Qed.

Lemma acquire_lane_ok l s h :
  task_ok s h → lane_holder s l = None →
  let s' := set_lane_holder l (Some (next_identity (t_run s))) (fresh s).2 in
  (∀ T, G T s s') ∧ task_ok s' h ∧ holds_lane l (taken s s') s'.
Proof.
  intros Hs Hl s'. assert (Hv : same_data s s') by (split; cbn; auto).
  destruct (same_data_kept _ _ Hv) as (Hg & Hlk & Hp). split_and!.
  - intros T. split_and!; [done| |].
    + intros l'. right. split; [|done]. unfold lane_holder. cbn.
      destruct (decide (l' = l)) as [->|Hne]; [by left|right]. by rewrite lookup_partial_alter_ne.
    + right. split; [by right|done].
  - apply (same_data_ok s); [done| |done]. intros E. split; [by apply (ok_agree _ _ _ _ Hs)|by apply (ok_flow _ _ _ _ Hs)].
  - exists (next_identity (t_run s)). split; [by apply lookup_partial_alter_eq|]. apply fresh_taken.
Qed.

Lemma release_lane_ok l s h T :
  task_ok s h → holds_lane l T s → G T s (set_lane_holder l None s) ∧ task_ok (set_lane_holder l None s) h.
Proof.
  intros Hs Hl. assert (Hv : same_data s (set_lane_holder l None s)) by (split; cbn; auto).
  destruct (same_data_kept _ _ Hv) as (Hg & Hlk & Hp). split.
  - split_and!; [done| |].
    + intros l'. destruct (decide (l' = l)) as [->|Hne]; [by left|right]. split; [|done]. right. unfold lane_holder. cbn.
      by rewrite lookup_partial_alter_ne.
    + right. split; [by right|done].
  - apply (same_data_ok s); [done| |done]. intros E. split; [by apply (ok_agree _ _ _ _ Hs)|by apply (ok_flow _ _ _ _ Hs)].
Qed.

Lemma acquire_pump_ok s h :
  task_ok s h → pump_holder (t_run s) = None →
  let s' := set_pump_holder (Some (next_identity (t_run s))) (fresh s).2 in
  (∀ T, G T s s') ∧ task_ok s' h ∧ holds_pump (taken s s') s' ∧ agree None s' ∧ flow [] [] s'.
Proof.
  intros Hs Hl s'. assert (Hv : same_data s s') by (split; cbn; auto).
  destruct (same_data_kept _ _ Hv) as (Hg & Hlk & Hp). split_and!.
  - intros T. split_and!; [done| |].
    + intros l'. right. split; [by right|done].
    + right. split; [by left|done].
  - by apply (same_data_ok s).
  - exists (next_identity (t_run s)). split; [done|]. apply fresh_taken.
  - eapply same_data_agree; [exact Hv|]. by apply (ok_agree _ _ _ _ Hs).
  - eapply same_data_flow; [exact Hv|]. by apply (ok_flow _ _ _ _ Hs).
Qed.

Lemma release_pump_ok s h T :
  task_ok s h → holds_pump T s → agree None s → flow [] [] s →
  G T s (set_pump_holder None s) ∧ task_ok (set_pump_holder None s) h.
Proof.
  intros Hs Hl Hag Hfl. assert (Hv : same_data s (set_pump_holder None s)) by (split; cbn; auto).
  destruct (same_data_kept _ _ Hv) as (Hg & Hlk & Hp). split.
  - split_and!; [done| |by left]. intros l'. right. split; [by right|done].
  - by apply (same_data_ok s).
Qed.

(** ** Guarantees *)

Lemma G_intro T s s' :
  grows shared s s' → (∀ l, holds_lane l T s ∨ lane_kept l s s') → lane_holders (t_run s') = lane_holders (t_run s) →
  (holds_pump T s ∨ pump_kept s s') → pump_holder (t_run s') = pump_holder (t_run s) → G T s s'.
Proof.
  intros Hg Hl El Hp Ep. split_and!; [done| |].
  - intros l. destruct (Hl l) as [|]; [by left|right]. split; [right; unfold lane_holder; by rewrite El|done].
  - destruct Hp as [|]; [by left|right]. split; [by right|done].
Qed.

(** ** Checkpoint gates *)

(** What a coroutine that has closed its lane for [b] may count on until it admits the
    barrier. *)
Definition ticket l b s : Prop := ¬ barrier_in l b (admitted s) ∧ passed shared l b s ∧ settled_or_fenced shared l b s.

Lemma claim_ok l b s h T :
  task_ok s h → holds_lane l T s → shared b = false → claim_round l b s = Some true →
  let s' := set_input_gates (insert l (b, next_identity (t_run s))) (fresh s).2 in
  G T s s' ∧ task_ok s' h ∧ ticket l b s'.
Proof.
  intros Hs Hl Hsh Hcl s'. unfold claim_round in Hcl. destruct (Z.leb_spec b (checkpoint_gate_resolved_through (t_gates s))) as [|Hb]; [done|].
  fold (gate s l) in Hcl. destruct (gate s l) as [[b' n']|] eqn:Hgl; [by destruct (_ || _)|].
  assert (Hgate : ∀ l', gate s' l' = if decide (l' = l) then Some (b, next_identity (t_run s)) else gate s l').
  { intros l'. unfold gate. cbn. case_decide as Hd; [subst; by rewrite lookup_insert_eq|by rewrite lookup_insert_ne]. }
  assert (Hkeep : ∀ l' x n, gate s l' = Some (x, n) → gate s' l' = Some (x, n)).
  { intros l' x n Hx. rewrite Hgate. case_decide as Hd; [subst; by rewrite Hgl in Hx|done]. }
  assert (Hpass : ∀ l' x, passed shared l' x s → passed shared l' x s').
  { unfold passed. intros l' x. destruct (shared x); [done|]. intros [?|[n Hx]]; [by left|right; exists n; by apply Hkeep]. }
  assert (Hfen : ∀ l' x, fenced shared l' x s → fenced shared l' x s').
  { unfold fenced. intros l' x. destruct (shared x); [done|]. intros [n Hx]. exists n. by apply Hkeep. }
  pose proof Hs as [Hi Ho Hsd H1 Hp Hf Hpk Hcb Hla Ha Hag Hfl Hc]. split_and!.
  - apply G_intro; [| |done| |done].
    + split; try done; [cbn; lia|]. intros l' x [?|?]; [by left|right; auto].
    + intros l'. destruct (decide (l' = l)) as [->|Hne]; [by left|right]. split; try done.
      intros Hx. by rewrite Hgate, decide_False.
    + right. by split; auto.
  - split; try done.
    + intros l' x Hin. apply Hpass. by apply Hp.
    + intros l' x Hin. destruct (Hf l' x Hin) as [?|[? ?]]; [by left|right; split; [by apply Hfen|done]].
    + destruct Hpk as [? ? ? ? ? Hun Hfi Hga Hie]. split; try done; cbn.
      * intros l' n Hn. destruct (Hun l' n Hn). split; [done|lia].
      * intros n Hn%Hfi. lia.
      * intros l' x n. rewrite Hgate. case_decide; [intros [= <- <-]|intros Hx; destruct (Hga l' x n Hx); split; [lia|done]].
        split; [lia|]. intros l0 H0. destruct (Hun _ _ H0). lia.
      * intros l' n Hn%Hie. lia.
  - split_and!.
    + intros Hin. pose proof (Hp l b Hin) as Hx. unfold passed in Hx. rewrite Hsh in Hx. destruct Hx as [?|[n Hx]]; [lia|by rewrite Hgl in Hx].
    + unfold passed. rewrite Hsh. right. exists (next_identity (t_run s)). by rewrite Hgate, decide_True.
    + right. unfold fenced. rewrite Hsh. exists (next_identity (t_run s)). by rewrite Hgate, decide_True.
Qed.

(** Gates of settled barriers open. *)
Lemma open_ok (gs : gmap lane (Z * nat)) r s h T :
  task_ok s h → gs ⊆ checkpoint_input_gates (t_gates s) →
  (∀ l b n, gs !! l = Some (b, n) → b <= r ∧ (shared b = false → b <= resolved s)) →
  let s' := fire (list_to_set ((map_to_list gs).*2.*2)) (set_input_gates (λ g, g ∖ gs) (mark_checkpoint_gate_resolved r s)) in
  G T s s' ∧ task_ok s' h.
Proof.
  intros Hs Hsub Hgs s'.
  assert (Hgate : ∀ l, gate s' l = match gs !! l with Some _ => None | None => gate s l end).
  { intros l. unfold gate. cbn. rewrite lookup_difference. by destruct (gs !! l). }
  assert (Hgone : ∀ l b n, gate s l = Some (b, n) → gate s' l = Some (b, n) ∨ (b <= r ∧ (shared b = false → b <= resolved s))).
  { intros l b n Hl. rewrite Hgate. destruct (gs !! l) as [[b' n']|] eqn:E; [right|by left].
    pose proof (lookup_weaken _ _ _ _ E Hsub) as E'. unfold gate in Hl. rewrite Hl in E'. injection E' as <- <-. by eapply Hgs. }
  assert (Hnone : ∀ l, gate s l = None → gate s' l = None).
  { intros l Hl. rewrite Hgate, Hl. by destruct (gs !! l). }
  assert (Hpass : ∀ l x, passed shared l x s → passed shared l x s').
  { unfold passed. intros l x. destruct (shared x); [done|]. cbn. intros [?|[n Hx]]; [left; lia|].
    destruct (Hgone l x n Hx) as [?|[? _]]; [right; by exists n|left; lia]. }
  assert (Hfen : ∀ l x, fenced shared l x s → settled_or_fenced shared l x s').
  { unfold settled_or_fenced, fenced, done_with. intros l x. destruct (shared x) eqn:Hsh; [by right|]. intros [n Hx].
    destruct (Hgone l x n Hx) as [?|[_ ?]]; [right; by exists n|left; auto]. }
  pose proof Hs as [Hi Ho Hsd H1 Hp Hf Hpk Hcb Hla Ha Hag Hfl Hc]. split.
  - apply G_intro; [| |done| |done].
    + split; try done. intros l x [?|?]; [by left|by apply Hfen].
    + intros l. right. by split; auto.
    + right. by split; auto.
  - split; try done.
    + intros l x Hin. apply Hpass. by apply Hp.
    + intros l x Hin. destruct (Hf l x Hin) as [?|[Hfx ?]]; [by left|]. destruct (Hfen l x Hfx) as [?|?]; [by left|by right].
    + destruct Hpk as [? ? ? ? ? Hun Hfi Hga Hie].
      assert (Hev : ∀ n, n ∈ (list_to_set ((map_to_list gs).*2.*2) : gset nat) → ∃ l b, gate s l = Some (b, n)).
      { intros n Hn. apply elem_of_list_to_set, list_elem_of_fmap in Hn as ([b n'] & -> & Hin).
        apply list_elem_of_fmap in Hin as ([l x] & Hx & Hin). cbn in Hx. subst x.
        apply elem_of_map_to_list in Hin. exists l, b. unfold gate. by eapply lookup_weaken. }
      split; try done; cbn.
      * intros l n Hn. destruct (Hun l n Hn) as [Hu ?]. split; [|done]. intros [?|(l' & b' & Hl')%Hev]%elem_of_union; [done|].
        destruct (Hga _ _ _ Hl') as [_ Hx]. by apply (Hx l).
      * intros n [?|(l' & b' & Hl')%Hev]%elem_of_union; [by apply Hfi|by apply (Hga _ _ _ Hl')].
      * intros l b n Hx. apply (Hga l b). rewrite Hgate in Hx. by destruct (gs !! l).
Qed.

(** ** Shared epochs *)

(** A lane that was heard on an epoch has a barrier that was admitted. *)
Lemma dequeued_admitted l b s h : task_ok s h → barrier_in l b (dequeued s) → barrier_in l b (admitted s).
Proof.
  intros Hs (e & Hin & Hb). exists e. split; [|done].
  assert (e ∈ on_lane_of l (admitted s)) as [_ ?]%list_elem_of_filter; [|done].
  rewrite <-(ok_order _ _ _ _ Hs). apply elem_of_app. left. apply list_elem_of_filter. split; [|done].
  unfold has_barrier in Hb. apply andb_prop in Hb as [Hl%bool_decide_eq_true Hb]. split; [done|].
  unfold is_control. by destruct (env_payload e).
Qed.

Lemma heard_barrier l b eof s : heard (dequeued s) l b eof → barrier_in l b (dequeued s).
Proof.
  intros (e & x & Hin & Hl & Hx & Hb & _). exists e. split; [done|]. unfold has_barrier. rewrite bool_decide_true by done.
  rewrite Hx. cbn. by apply Z.eqb_eq.
Qed.

Lemma epoch_barrier l b s h : task_ok s h → l ∈ epoch_lanes b (t_aligner s) → barrier_in l b (admitted s).
Proof.
  intros Hs Hl. destruct (al_coordinated _ _ _ (ok_aligner _ _ _ _ Hs) b l Hl) as [_ [eof Hh]].
  eapply dequeued_admitted; [done|]. by eapply heard_barrier.
Qed.

Lemma epoch_empty b s h :
  task_ok s h → shared b = true → pump_last_coordinated (t_pump s) < b → current s = None → epoch_lanes b (t_aligner s) = ∅.
Proof.
  intros Hs Hsh Hb Hc. apply elem_of_equiv_empty_L. intros l Hl. pose proof (ok_passed _ _ _ _ Hs l b (epoch_barrier l b s h Hs Hl)) as Hp.
  unfold passed in Hp. rewrite Hsh, Hc in Hp. destruct Hp as [?|[? _]]; [lia|done].
Qed.

Definition announcing l b n (p : pump_state (R := R) (K := K)) : pump_state :=
  mkPump (Some b) (checkpoint_seen_inputs p) (checkpoint_seen_channels p)
    ({[l]} ∪ checkpoint_announced_channels p) (<[l := n]> (checkpoint_admission_resumes p)) (checkpoint_input_resumes p)
    (checkpoint_held p) (checkpoint_ready p) (pump_last_coordinated p).

Lemma announce_ok l b s h T :
  task_ok s h → holds_lane l T s → shared b = true → pump_last_coordinated (t_pump s) < b →
  current s = None ∨ (current s = Some b ∧ l ∉ announced s) →
  let s' := set_pump (announcing l b (next_identity (t_run s))) (fresh s).2 in
  G T s s' ∧ task_ok s' h ∧ ticket l b s'.
Proof.
  intros Hs Hl Hsh Hb Hcur s'. pose proof Hs as [Hi Ho Hsd H1 Hp Hf Hpk Hcb Hla Ha Hag Hfl Hc].
  assert (Hepoch : current s = None → seen s = ∅ ∧ epoch_lanes b (t_aligner s) = ∅).
  { intros E. split; [by apply (pk_idle _ Hpk)|by eapply epoch_empty]. }
  assert (Hown : ∀ l' x, current s = Some x ∧ l' ∈ announced s → current s' = Some x ∧ l' ∈ announced s').
  { intros l' x [E Hx]. destruct Hcur as [E'|[E' _]]; [congruence|]. split; [cbn; congruence|]. apply elem_of_union. by right. }
  assert (Hpass : ∀ l' x, passed shared l' x s → passed shared l' x s').
  { unfold passed. intros l' x. destruct (shared x); [|done]. intros [?|?]; [by left|right; auto]. }
  assert (Hfen : ∀ l' x, fenced shared l' x s → fenced shared l' x s').
  { unfold fenced. intros l' x. destruct (shared x); [|done]. auto. }
  assert (Hkept : pump_kept s s').
  { split; auto; cbn.
    - intros x Hx. right. destruct Hcur as [E|[E _]]; [congruence|]. split; [congruence|done].
    - intros x [= <-]. right. destruct Hcur as [E|[E _]]; [right; by apply Hepoch|by left]. }
  split_and!.
  - apply G_intro; [| |done|by right|done].
    + split; try done; [cbn; lia|]. intros l' x [?|?]; [by left|right; auto].
    + intros l'. destruct (decide (l' = l)) as [->|Hne]; [by left|right]. split; try done.
      cbn. intros [->%elem_of_singleton|?]%elem_of_union; [done|]. split; [done|]. by rewrite lookup_insert_ne.
  - split; try done.
    + intros l' x Hin. apply Hpass. by apply Hp.
    + intros l' x Hin. destruct (Hf l' x Hin) as [?|[? ?]]; [by left|right; split; [by apply Hfen|done]].
    + destruct Hpk as [? ? Had Hid Hre Hun Hfi Hga Hie]. split; try done; cbn.
      * rewrite dom_insert_L, Had. done.
      * intros l' Hl'. destruct (Hre l' Hl') as (x & E & ?). exists x. destruct Hcur as [E'|[E' _]]; [congruence|]. split; [congruence|done].
      * intros l' n. destruct (decide (l' = l)) as [->|Hne].
        -- rewrite lookup_insert_eq. intros [= <-]. split; [|lia]. intros Hn%Hfi. lia.
        -- rewrite lookup_insert_ne by done. intros Hn. destruct (Hun l' n Hn). split; [done|lia].
      * intros n Hn%Hfi. lia.
      * intros l' x n Hx. destruct (Hga l' x n Hx) as [? Hno]. split; [lia|]. intros l0. destruct (decide (l0 = l)) as [->|Hne].
        -- rewrite lookup_insert_eq. intros [= E]. lia.
        -- rewrite lookup_insert_ne by done. apply Hno.
      * intros l' n Hn%Hie. lia.
    + intros E x [= <-]. destruct Hcur as [E'|[E' _]].
      * right. destruct (Hepoch E') as [E1 E2]. cbn. by rewrite E2.
      * by apply (Hag E).
  - split_and!.
    + intros Hin. pose proof (Hp l b Hin) as Hx. unfold passed in Hx. rewrite Hsh in Hx.
      destruct Hx as [?|[Hx1 Hx2]]; [lia|]. destruct Hcur as [E|[_ ?]]; [congruence|done].
    + unfold passed. rewrite Hsh. right. split; [done|]. apply elem_of_union. left. by apply elem_of_singleton.
    + right. unfold fenced. rewrite Hsh. split; [done|]. apply elem_of_union. left. by apply elem_of_singleton.
Qed.

(** ** Admission *)

Lemma on_lane_of_app l es es' : on_lane_of l (es ++ es') = on_lane_of l es ++ on_lane_of l es'.
Proof. apply filter_app. Qed.
Lemma data_of_app l es es' : data_of l (es ++ es') = data_of l es ++ data_of l es'.
Proof. apply filter_app. Qed.

Lemma on_lane_none l e : is_control e = true ∨ env_lane e ≠ l → on_lane_of l [e] = [].
Proof.
  intros He. unfold on_lane_of. rewrite filter_cons, filter_nil, decide_False; [done|]. intros [E1 E2]. destruct He as [Hk|Hk]; [|done]. congruence.
Qed.

Lemma data_on_lane l es : data_of l (on_lane_of l es) = data_of l es.
Proof.
  unfold data_of, on_lane_of. rewrite list_filter_filter. apply list_filter_iff. intros e.
  unfold is_data, is_control. destruct (env_payload e); split; intros; destruct_and?; split_and?; done.
Qed.

Lemma barrier_not_data l b e : has_barrier l b e = true → is_data e = false ∧ is_control e = false ∧ env_lane e = l.
Proof.
  unfold has_barrier, is_data, is_control. intros [Hl%bool_decide_eq_true Hb]%andb_prop. by destruct (env_payload e).
Qed.

Lemma barriers_on_lane l b es :
  filter (λ e, has_barrier l b e = true) es = filter (λ e, has_barrier l b e = true) (on_lane_of l es).
Proof.
  unfold on_lane_of. rewrite list_filter_filter. apply list_filter_iff. intros e. split; [|by intros [? _]].
  intros He. destruct (barrier_not_data l b e He) as (_ & ? & ?). done.
Qed.

Lemma barrier_in_on_lane l b es : barrier_in l b es ↔ barrier_in l b (on_lane_of l es).
Proof.
  unfold barrier_in, on_lane_of. split; intros (e & Hin & Hb); exists e; (split; [|done]).
  - apply list_elem_of_filter. destruct (barrier_not_data l b e Hb) as (_ & ? & ?). done.
  - by apply list_elem_of_filter in Hin as [_ ?].
Qed.

Lemma prefix_in (es es' : list envelope) e : es `prefix_of` es' → e ∈ es → e ∈ es'.
Proof. intros [k ->] Hin. apply elem_of_app. by left. Qed.

Lemma cut_lanes_mono x (cut adm adm' : list envelope) : adm `prefix_of` adm' → cut_lanes channels x cut adm → cut_lanes channels x cut adm'.
Proof.
  intros [new ->] (Hpre & Hl). split.
  - intros l. rewrite data_of_app. etrans; [apply Hpre|]. by apply prefix_app_r.
  - intros l Hin. destruct (Hl l Hin) as [(before & e & after & E & Hb & Hd)|(Hc & b' & Hb & e & y & He & Hh)]; [left|right].
    + exists before, e, (after ++ on_lane_of l new). rewrite on_lane_of_app, E, <-app_assoc. done.
    + split; [done|]. exists b'. split; [done|]. exists e, y. split; [|done]. apply elem_of_app. by left.
Qed.

Lemma cut_ok_mono x (calls : list call) adm adm' : adm `prefix_of` adm' → cut_ok channels x calls adm → cut_ok channels x calls adm'.
Proof. intros Hp (cut & Hsim & Hl). exists cut. split; [done|]. by eapply cut_lanes_mono. Qed.

(** What the caller of the inbox must know of the envelope. *)
Definition admissible e s : Prop :=
  match env_payload e with
  | PRecords _ => lane_open (env_lane e) s
  | PBarrier x => b_coordinated x = shared (b_id x) ∧ ticket (env_lane e) (b_id x) s
  | PControl _ => True
  end.

Lemma admit_step_ok e q s h T :
  task_ok s h → (is_control e = false → holds_lane (env_lane e) T s) → admissible e s →
  e_item <$> wq_items q = items s ++ [e] →
  let s' := add_admitted e (set_inbox q s) in G T s s' ∧ task_ok s' h.
Proof.
  intros Hs Hl Hadm Hq s'. pose proof Hs as [Hi Ho Hsd H1 Hp Hf Hpk Hcb Hla Ha Hag Hfl Hc].
  assert (Hon : ∀ l, on_lane_of l (admitted s') = on_lane_of l (admitted s) ++ on_lane_of l [e]) by (intros l; apply on_lane_of_app).
  assert (Hnew : ∀ l b, barrier_in l b (admitted s') → barrier_in l b (admitted s) ∨ has_barrier l b e = true).
  { intros l b (x & [Hx| ->%list_elem_of_singleton]%elem_of_app & Hb); [left; by exists x|by right]. }
  assert (Htick : ∀ l b, has_barrier l b e = true → ticket l b s).
  { intros l b Hb. destruct (barrier_not_data l b e Hb) as (Hd & Hk & <-). unfold admissible in Hadm. unfold has_barrier in Hb.
    apply andb_prop in Hb as [_ Hb]. destruct (env_payload e) as [|x|]; try done. apply Z.eqb_eq in Hb. subst b. by apply Hadm. }
  split.
  - apply G_intro; [| |done| |done].
    + split; try done. by apply prefix_app_r.
    + intros l. destruct (is_control e) eqn:Ek.
      * right. split; try done. rewrite Hon, on_lane_none by (by left). by rewrite app_nil_r.
      * destruct (decide (l = env_lane e)) as [->|Hne]; [left; auto|right]. split; try done.
        rewrite Hon, on_lane_none by (by right). by rewrite app_nil_r.
    + right. by split; auto.
  - split; try done.
    + intros l. rewrite Hon, <-Ho, <-app_assoc. f_equal. unfold items at 1. cbn. by rewrite Hq, on_lane_of_app.
    + intros e0 x [Hin| ->%list_elem_of_singleton]%elem_of_app; [by apply Hsd|]. intros Hx. unfold admissible in Hadm. rewrite Hx in Hadm. apply Hadm.
    + intros l b. cbn. rewrite filter_app, length_app. specialize (H1 l b). rewrite filter_cons, filter_nil. case_decide as Hb; cbn; [|lia].
      destruct (Htick l b Hb) as [Hn _]. destruct (filter _ (admitted s)) as [|y ys] eqn:E; cbn; [lia|]. exfalso. apply Hn. exists y.
      assert (y ∈ filter (λ e, has_barrier l b e = true) (admitted s)) as [? ?]%list_elem_of_filter by (rewrite E; by left). done.
    + intros l b [Hin|Hb]%Hnew; [by apply Hp|]. by apply (Htick l b).
    + intros l b [Hin|Hb]%Hnew.
      * destruct (Hf l b Hin) as [?|[Hfen (before & e0 & after & E & Hb & Hd)]]; [by left|right]. split; [done|].
        exists before, e0, (after ++ on_lane_of l [e]). rewrite Hon, E, <-app_assoc. split_and!; [done|done|]. apply Forall_app. split; [done|].
        apply Forall_forall. intros e1 [[Hl1 Hk1] Hin1]%list_elem_of_filter. apply list_elem_of_singleton in Hin1 as ->.
        unfold is_data. unfold admissible, lane_open in Hadm. destruct (env_payload e); [|done..]. exfalso.
        unfold fenced in Hfen. rewrite Hl1 in Hadm. destruct Hadm as [Hga Han]. destruct (shared b); [by destruct Hfen|].
        destruct Hfen as [n Hn]. by rewrite Hga in Hn.
      * destruct (Htick l b Hb) as (_ & _ & [?|Hfen]); [by left|right]. split; [done|].
        exists (on_lane_of l (admitted s)), e, []. rewrite Hon. split_and!; [|done|done]. f_equal.
        unfold on_lane_of. rewrite filter_cons, filter_nil, decide_True; [done|]. destruct (barrier_not_data l b e Hb) as (_ & ? & ?). done.
    + destruct Hpk. by split.
    + intros q0 x calls Hq0 Hr. eapply cut_ok_mono; [|by eapply Hc]. by apply prefix_app_r.
Qed.

(** ** Giving up, and releasing *)

Lemma given_up_ok b a s h T :
  task_ok s h → given_up channels (heard (dequeued s)) b (t_aligner s) a → G T s (set_aligner a s) ∧ task_ok (set_aligner a s) h.
Proof.
  intros Hs (Hok & (Hl & Hr) & _ & _ & Hep). pose proof Hs as [Hi Ho Hsd H1 Hp Hf Hpk Hcb Hla Ha Hag Hfl Hc].
  fold (last_aligned s) in Hl. fold (resolved s) in Hr.
  assert (Hdone : ∀ x, done_with shared x s → done_with shared x (set_aligner a s)).
  { intros x. unfold done_with. case_match; [change (last_aligned (set_aligner a s)) with (last_coordinated_barrier_id (a_coordinated a))|
      change (resolved (set_aligner a s)) with (direct_resolved_through (a_direct a))]; lia. }
  split.
  - apply G_intro; [| |done| |done].
    + split; try done. intros l x [?|?]; [left; auto|by right].
    + intros l. right. by split.
    + right. split; auto.
  - split; try done.
    + intros l x Hin. destruct (Hf l x Hin) as [?|?]; [left; auto|by right].
    + destruct Hpk. by split.
    + intros x Hx Hsh. specialize (Hcb x Hx Hsh). change (resolved (set_aligner a s)) with (direct_resolved_through (a_direct a)). lia.
    + unfold last_aligned in *. cbn in *. lia.
    + intros E x Hx. change (last_aligned (set_aligner a s)) with (last_coordinated_barrier_id (a_coordinated a)).
      destruct (Hep x) as [?|Ep]; [by left|]. destruct (Hag E x Hx) as [?|Es]; [left; lia|right]. cbn. by rewrite Ep.
Qed.

Lemma raise_last_ok x s h T :
  task_ok s h → x <= last_aligned s →
  G T s (set_pump_last (λ y, Z.max y x) s) ∧ task_ok (set_pump_last (λ y, Z.max y x) s) h.
Proof.
  intros Hs Hx. pose proof Hs as [Hi Ho Hsd H1 Hp Hf Hpk Hcb Hla Ha Hag Hfl Hc].
  assert (Hpass : ∀ l b, passed shared l b s → passed shared l b (set_pump_last (λ y, Z.max y x) s)).
  { intros l b. unfold passed. destruct (shared b); [|done]. cbn. intros [?|?]; [left; lia|by right]. }
  split.
  - apply G_intro; [| |done| |done].
    + by split.
    + intros l. right. by split.
    + right. by split; auto.
  - split; try done.
    + intros l b Hin. apply Hpass. by apply Hp.
    + destruct Hpk. by split.
    + cbn. change (last_aligned (set_pump_last (λ y, Z.max y x) s)) with (last_aligned s). lia.
Qed.

Definition released_pump (p : pump_state (R := R) (K := K)) : pump_state :=
  mkPump None ∅ ∅ ∅ ∅ ∅ [] (checkpoint_ready p ++ checkpoint_held p) (pump_last_coordinated p).

Lemma release_ok events s h T :
  task_ok s h → (∀ b, current s = Some b → b <= pump_last_coordinated (t_pump s)) →
  (∀ n, n ∈ events → (∃ l, checkpoint_admission_resumes (t_pump s) !! l = Some n) ∨ (∃ l, checkpoint_input_resumes (t_pump s) !! l = Some n)) →
  let s' := set_pump released_pump (fire events s) in G T s s' ∧ task_ok s' h.
Proof.
  intros Hs Hcur Hev s'. pose proof Hs as [Hi Ho Hsd H1 Hp Hf Hpk Hcb Hla Ha Hag Hfl Hc].
  assert (Hpass : ∀ l b, passed shared l b s → passed shared l b s').
  { intros l b. unfold passed. destruct (shared b); [|done]. intros [?|[E _]]; [by left|left; cbn; by apply Hcur]. }
  assert (Hfen : ∀ l b, fenced shared l b s → settled_or_fenced shared l b s').
  { intros l b. unfold settled_or_fenced, fenced, done_with. destruct (shared b) eqn:Hsh; [|by right]. intros [E _].
    left. change (last_aligned s') with (last_aligned s). specialize (Hcur b E). lia. }
  split.
  - apply G_intro; [| |done| |done].
    + split; try done. intros l b [?|?]; [by left|by apply Hfen].
    + intros l. right. split; try done.
    + right. split; try done; auto.
      * intros b E. left. change (last_aligned s') with (last_aligned s). specialize (Hcur b E). lia.
      * cbn. intros l [n Hn]. by rewrite lookup_empty in Hn.
  - split; try done.
    + intros l b Hin. apply Hpass. by apply Hp.
    + intros l b Hin. destruct (Hf l b Hin) as [?|[Hx ?]]; [by left|]. destruct (Hfen l b Hx); [by left|by right].
    + destruct Hpk as [[Hh Hr] ? ? ? ? Hun Hfi Hga Hie]. split; try done; cbn.
      * by rewrite Hh, Hr.
      * intros l [n Hn]. by rewrite lookup_empty in Hn.
      * intros n [?|[[l Hn]|[l Hn]]%Hev]%elem_of_union; [by apply Hfi|by apply (Hun l)|by eapply Hie].
      * intros l b n Hn. destruct (Hga l b n Hn). split; [done|]. intros l'. by rewrite lookup_empty.
Qed.

Lemma callback_ok b s h T :
  task_ok s h → (shared b = false → b <= resolved s) → G T s (checkpoint_barrier_aligned b s) ∧ task_ok (checkpoint_barrier_aligned b s) h.
Proof.
  intros Hs Hb. unfold checkpoint_barrier_aligned. destruct (checkpoint_gate_loop (t_gates s)) eqn:Eg.
  2: { assert (same_view s (set_gates (λ g, if checkpoint_gate_loop g then mkGates (checkpoint_input_gates g) (checkpoint_gate_resolved_through g)
         (checkpoint_gate_loop g) (gate_callbacks g ++ [b]) else g) s)) as Hv by (repeat split; cbn; rewrite ?Eg; auto).
       split; [by apply same_view_G|by eapply same_view_ok]. }
  pose proof Hs as [Hi Ho Hsd H1 Hp Hf Hpk Hcb Hla Ha Hag Hfl Hc].
  set (s' := set_gates _ s). assert (Hg : ∀ l, gate s' l = gate s l) by (intros l; unfold gate; cbn; by rewrite Eg).
  assert (Hr : checkpoint_gate_resolved_through (t_gates s') = checkpoint_gate_resolved_through (t_gates s)) by (cbn; by rewrite Eg).
  assert (Hpass : ∀ l x, passed shared l x s → passed shared l x s').
  { intros l x. unfold passed. by rewrite Hr, Hg. }
  assert (Hfen : ∀ l x, fenced shared l x s → fenced shared l x s').
  { intros l x. unfold fenced. by rewrite Hg. }
  split.
  - apply G_intro; [| |done| |done].
    + split; try done. intros l x [?|?]; [by left|right; auto].
    + intros l. right. split; try done. by rewrite Hg.
    + right. by split; auto.
  - split; try done.
    + intros l x Hin. apply Hpass. by apply Hp.
    + intros l x Hin. destruct (Hf l x Hin) as [?|[? ?]]; [by left|right; split; [by apply Hfen|done]].
    + destruct Hpk as [? ? ? ? ? ? ? Hga ?]. split; try done. intros l x n. rewrite Hg. apply Hga.
    + intros x. cbn. rewrite Eg. cbn. intros [Hx| ->%list_elem_of_singleton]%elem_of_app; [by apply Hcb|done].
Qed.

(** ** The pump takes an envelope *)

Lemma get_matching_Some (predicate : envelope → bool) q e q' :
  get_matching predicate q = Ok (Some (e, q')) →
  ∃ before after, e_item <$> wq_items q = before ++ e :: after ∧ e_item <$> wq_items q' = before ++ after ∧
    predicate e = true ∧ Forall (λ x, predicate x = false) before.
Proof.
  unfold get_matching. destruct (first_index predicate (wq_items q)) as [i|] eqn:Ei; [|done].
  destruct (first_index_Some _ _ _ Ei) as (x & Hx & Hp & Hf). destruct (take_at i q) as [[e0 q0]|] eqn:Et; [|done].
  destruct (take_at_Ok _ _ _ _ Et) as (x' & Hx' & -> & Hq & _). rewrite Hx in Hx'. injection Hx' as <-.
  cbn. intros [= <- <-]. exists (e_item <$> take i (wq_items q)), (e_item <$> drop (S i) (wq_items q)). split_and!; [| |done|].
  - rewrite <-(take_drop_middle _ _ _ Hx) at 1. by rewrite fmap_app.
  - by rewrite Hq, delete_take_drop, fmap_app.
  - by apply Forall_fmap.
Qed.

(** The aligner has not heard the barrier. *)
Definition unheard e s : Prop :=
  ∀ l b, has_barrier l b e = true → b <= last_aligned s ∨ l ∉ epoch_lanes b (t_aligner s).

Lemma holds_pump_held T s : holds_pump T s → pump_holder (t_run s) ≠ None.
Proof. intros (n & -> & _). done. Qed.

Lemma barriers_once l b s h :
  task_ok s h → (length (filter (λ e, has_barrier l b e = true) (on_lane_of l (dequeued s))) +
    length (filter (λ e, has_barrier l b e = true) (on_lane_of l (items s))) <= 1)%nat.
Proof.
  intros Hs. pose proof (ok_once _ _ _ _ Hs l b) as H1. rewrite barriers_on_lane in H1.
  by rewrite <-(ok_order _ _ _ _ Hs), filter_app, length_app in H1.
Qed.

Lemma barrier_count l b es : barrier_in l b es → (1 <= length (filter (λ e, has_barrier l b e = true) (on_lane_of l es)))%nat.
Proof.
  intros (e & Hin & Hb). assert (e ∈ filter (λ e, has_barrier l b e = true) (on_lane_of l es)) as He.
  { rewrite <-barriers_on_lane. by apply list_elem_of_filter. }
  destruct (filter _ (on_lane_of l es)); [by apply not_elem_of_nil in He|cbn; lia].
Qed.

Lemma not_both l b s h : task_ok s h → barrier_in l b (dequeued s) → barrier_in l b (items s) → False.
Proof. intros Hs H1%barrier_count H2%barrier_count. pose proof (barriers_once l b s h Hs). lia. Qed.

Lemma take_ok e q before after s h T :
  task_ok s h → holds_pump T s → flow [] [] s →
  items s = before ++ e :: after → e_item <$> wq_items q = before ++ after →
  hold_for_coordinated_checkpoint e s = false → Forall (λ x, hold_for_coordinated_checkpoint x s = true) before →
  let s' := add_dequeued e (set_inbox q s) in
  G T s s' ∧ task_ok s' h ∧ flow [] (env_rows e) s' ∧ unheard e s' ∧ checkpoint_input_resumes (t_pump s') !! env_lane e = None.
Proof.
  intros Hs HT Hflow Hit Hq Hhold Hheld s'. pose proof Hs as [Hi Ho Hsd H1 Hp Hf Hpk Hcb Hla Ha Hag Hfl Hc].
  assert (He : e ∈ items s) by (rewrite Hit; apply elem_of_app; right; by left).
  assert (Hin : ∀ l b, has_barrier l b e = true → barrier_in l b (items s)) by (intros l b Hb; by exists e).
  assert (Hres : checkpoint_input_resumes (t_pump s) !! env_lane e = None).
  { apply eq_None_not_Some. intros Hr. unfold hold_for_coordinated_checkpoint in Hhold. rewrite bool_decide_true in Hhold by done.
    cbn in Hhold. apply negb_false_iff in Hhold. unfold joins_checkpoint in Hhold. destruct (env_payload e) as [|x|] eqn:Ee; try done.
    apply andb_prop in Hhold as [_ Hcur%bool_decide_eq_true]. destruct (pk_resumes _ Hpk _ Hr) as (b & Hb & Hd).
    unfold current in Hb. rewrite Hcur in Hb. injection Hb as <-. apply (not_both (env_lane e) (b_id x) s h Hs Hd). apply Hin.
    unfold has_barrier. rewrite bool_decide_true by done. rewrite Ee. apply Z.eqb_refl. }
  assert (Hon : ∀ l, on_lane_of l [e] ++ on_lane_of l (before ++ after) = on_lane_of l (before ++ e :: after)).
  { intros l. rewrite !on_lane_of_app. change (e :: after) with ([e] ++ after). rewrite on_lane_of_app, !app_assoc. f_equal.
    destruct (decide (env_lane e = l)) as [<-|Hne]; [|rewrite on_lane_none by (by right); by rewrite app_nil_r].
    assert (on_lane_of (env_lane e) before = []) as ->; [|by rewrite app_nil_r].
    unfold on_lane_of. apply filter_none. intros x Hx [Hl _]. rewrite Forall_forall in Hheld. specialize (Hheld x Hx).
    unfold hold_for_coordinated_checkpoint in Hheld. rewrite Hl, Hres in Hheld. done. }
  assert (Hrows : flow [] (env_rows e) s').
  { destruct Hflow as [Hok Hsim]. split; [done|]. cbn. unfold envs_rows. rewrite fmap_app, join_app. cbn. rewrite !app_nil_r in *.
    rewrite app_assoc. apply Forall2_app; [|reflexivity]. exact Hsim. }
  assert (Hsub : ∀ x, x ∈ dequeued s → x ∈ dequeued s') by (intros x Hx; apply elem_of_app; by left).
  split_and!; [| |done| |done].
  - apply G_intro; [| |done|by left|done].
    + split; try done. by apply prefix_app_r.
    + intros l. right. by split.
  - split; try done.
    + intros l. change (dequeued s') with (dequeued s ++ [e]). change (admitted s') with (admitted s).
      change (items s') with (e_item <$> wq_items q). by rewrite on_lane_of_app, <-app_assoc, <-Ho, Hit, Hq, Hon.
    + destruct Hpk. split; try done. intros l Hl. destruct (pk_resumes l Hl) as (b & ? & x & Hx & ?). exists b. split; [done|]. exists x. auto.
    + eapply aligner_ok_mono; [|exact Ha]. intros l b eof (x & y & Hx & ?). exists x, y. auto.
    + intros E. by destruct (holds_pump_held _ _ HT).
  - intros l b Hb. right. intros Hl. apply (not_both l b s h Hs); [|by apply Hin].
    destruct (al_coordinated _ _ _ Ha b l Hl) as [_ [eof Hh]]. by eapply heard_barrier.
Qed.

(** ** Data reaches the operator *)

Lemma set_batches_ok a s h T : task_ok s h → holds_pump T s → G T s (set_batches a s) ∧ task_ok (set_batches a s) h.
Proof.
  intros Hs HT. pose proof Hs as [Hi Ho Hsd H1 Hp Hf Hpk Hcb Hla Ha Hag Hfl Hc]. split.
  - apply G_intro; [by split| |done|by left|done]. intros l. right. by split.
  - split; try done.
    + destruct Hpk. by split.
    + intros E. by destruct (holds_pump_held _ _ HT).
Qed.

Lemma add_call_ok c s h T : task_ok s h → holds_pump T s → G T s (add_call c s) ∧ task_ok (add_call c s) h.
Proof.
  intros Hs HT. pose proof Hs as [Hi Ho Hsd H1 Hp Hf Hpk Hcb Hla Ha Hag Hfl Hc]. split.
  - apply G_intro; [by split| |done|by left|done]. intros l. right. by split.
  - split; try done.
    + destruct Hpk. by split.
    + intros E. by destruct (holds_pump_held _ _ HT).
Qed.

Lemma calls_rows_app (cs cs' : list call) : calls_rows (cs ++ cs') = calls_rows cs ++ calls_rows cs'.
Proof. unfold calls_rows. by rewrite fmap_app, join_app. Qed.

(** ** The pump sees a barrier *)

(** The barrier the pump has counted and the aligner has not. *)
Definition mark e : option (lane * Z) :=
  match env_payload e with
  | PBarrier x => if b_coordinated x then Some (env_lane e, b_id x) else None
  | _ => None
  end.

(** The pump takes the epoch to be complete. *)
Definition finishing b s : Prop :=
  b <= last_aligned s ∨ (current s = Some b ∧ senders (input_lanes channels) ⊆ senders (seen s)).

Definition seeing l v n (p : pump_state (R := R) (K := K)) : pump_state :=
  mkPump (checkpoint_barrier_id p) (checkpoint_seen_inputs p ⊎ {[+ v +]}) ({[l]} ∪ checkpoint_seen_channels p)
    (checkpoint_announced_channels p) (checkpoint_admission_resumes p)
    (match checkpoint_input_resumes p !! l with Some _ => checkpoint_input_resumes p
     | None => <[l := default n (checkpoint_admission_resumes p !! l)]> (checkpoint_input_resumes p) end)
    (checkpoint_held p) (checkpoint_ready p) (pump_last_coordinated p).

Lemma see_ok l v b s s0 h T :
  task_ok s h → holds_pump T s → same_data s s0 → lane_holders (t_run s0) = lane_holders (t_run s) →
  pump_holder (t_run s0) = pump_holder (t_run s) →
  (checkpoint_input_resumes (t_pump s) !! l = None → (next_identity (t_run s) < next_identity (t_run s0))%nat) →
  current s = Some b → l ∈ announced s → v = lane_sender l → barrier_in l b (dequeued s) → l ∉ seen s →
  let s' := set_pump (seeing l v (next_identity (t_run s))) s0 in
  G T s s' ∧ task_ok s' h.
Proof.
  intros Hs HT Hd El Ep Hn Hcur Han -> Hin Hseen s'.
  assert (Hs0 : task_ok s0 h) by (apply (same_view_ok s); [by split|done]).
  destruct (same_data_kept _ _ Hd) as (Hg & _ & _). pose proof Hs0 as [Hi Ho Hsd H1 Hp Hf Hpk Hcb Hla Ha Hag Hfl Hc].
  assert (current s0 = Some b) as Hcur0 by (unfold current; by rewrite (sv_pump _ _ Hd)).
  assert (barrier_in l b (dequeued s0)) as Hin0 by by rewrite (sv_dequeued _ _ Hd).
  assert (l ∉ seen s0) as Hseen0 by (unfold seen; by rewrite (sv_pump _ _ Hd)).
  assert (l ∈ announced s0) as Han0 by (unfold announced; by rewrite (sv_pump _ _ Hd)).
  assert (pump_holder (t_run s0) ≠ None) as Hheld by (rewrite Ep; by eapply holds_pump_held).
  split.
  - assert (Hv : same_view s s0) by by split. destruct (same_data_kept _ _ Hd) as (? & Hlk & _).
    apply G_intro; [| |done|by left|done].
    + destruct Hg. by split.
    + intros l'. right. destruct (Hlk l'). by split.
  - split; try done.
    destruct Hpk as [Hh Hin' Had Hid Hre Hun Hfi Hga Hie]. split; try done; cbn.
    + fold (seen s0). rewrite Hin'. by rewrite senders_insert.
    + intros E. unfold current in *. congruence.
    + intros l' Hl'. exists b. split; [done|]. destruct (decide (l' = l)) as [->|Hne]; [done|].
      destruct (Hre l') as (b' & E & ?); [|congruence].
      destruct (checkpoint_input_resumes (t_pump s0) !! l); [done|]. by rewrite lookup_insert_ne in Hl'.
    + intros l' n. destruct (checkpoint_input_resumes (t_pump s0) !! l) eqn:E; [apply Hie|].
      destruct (decide (l' = l)) as [->|Hne]; [|rewrite lookup_insert_ne by done; apply Hie].
      rewrite lookup_insert_eq. intros [= <-]. destruct (checkpoint_admission_resumes (t_pump s0) !! l) as [n|] eqn:Ea; cbn; [by apply (Hun l)|].
      apply Hn. by rewrite <-(sv_pump _ _ Hd).
Qed.

Lemma admitted_barrier e x s h :
  task_ok s h → e ∈ dequeued s → env_payload e = PBarrier x → barrier_in (env_lane e) (b_id x) (dequeued s) ∧ b_coordinated x = shared (b_id x).
Proof.
  intros Hs Hin Hx.
  assert (Hb : has_barrier (env_lane e) (b_id x) e = true) by (unfold has_barrier; rewrite bool_decide_true, Hx by done; apply Z.eqb_refl).
  split; [by exists e|]. apply (ok_shared _ _ _ _ Hs e); [|done].
  assert (e ∈ on_lane_of (env_lane e) (admitted s)) as [_ ?]%list_elem_of_filter; [|done].
  rewrite <-(ok_order _ _ _ _ Hs). apply elem_of_app. left. apply list_elem_of_filter. split; [|done]. split; [done|].
  by apply (barrier_not_data _ _ _ Hb).
Qed.

Lemma channel_lane sender dc s h r s1 :
  task_ok s h → coordinated_checkpoint_channel sender dc s = (Ok r, s1) →
  s1 = s ∧ r = Some (lane_of sender dc) ∧ lane_sender (lane_of sender dc) = sender.
Proof.
  intros Hs. unfold coordinated_checkpoint_channel. rewrite exec_bind_gets. cbn [id]. rewrite (ok_inputs _ _ _ _ Hs).
  cbn [retired_checkpoint_input_channels checkpoint_input_channels checkpoint_expected_inputs].
  destruct (channel_mismatch sender dc) eqn:Hm; [done|]. destruct (in_channels _ _) eqn:Hr.
  { cbn in Hr. unfold in_channels in Hr. destruct (lane_of sender dc); [|done]. by apply bool_decide_eq_true in Hr. }
  destruct (unconfigured _ _); [done|]. destruct (_ && _); [done|]. intros [= <- <-]. split_and!; [done|done|by apply lane_of_sender].
Qed.

Lemma channel_same sender dc s : (coordinated_checkpoint_channel sender dc s).2 = s.
Proof. unfold coordinated_checkpoint_channel. rewrite exec_bind_gets. by repeat case_match. Qed.

Lemma observe_ok e :
  stepping (λ T s h, holds_pump T s ∧ e ∈ dequeued s ∧ agree None s ∧ unheard e s) (observe_coordinated_barrier e)
    (λ r T s h, match r with
     | Ok r => agree (mark e) s ∧ (r = true → ∃ x, env_payload e = PBarrier x ∧ b_coordinated x = true ∧ finishing (b_id x) s)
     | Err _ => True end).
Proof.
  intros T s h Hs (HT & Hin & Hag & Hunh).
  assert (Hsame : G T s s ∧ task_ok s h) by (split; [apply same_view_G, same_view_refl|done]).
  unfold observe_coordinated_barrier, mark. destruct (env_payload e) as [|x|] eqn:Ex; try (destruct Hsame; by split_and!).
  destruct (b_coordinated x) eqn:Hco; cbn [negb]; [|destruct Hsame; by split_and!].
  destruct (admitted_barrier e x s h Hs Hin Ex) as [Hbar Hsh]. rewrite Hco in Hsh. symmetry in Hsh.
  set (l := env_lane e) in *. set (b := b_id x) in *. rewrite exec_bind_gets. cbn [id].
  assert (Hun : b <= last_aligned s ∨ l ∉ epoch_lanes b (t_aligner s)).
  { apply Hunh. unfold has_barrier. rewrite bool_decide_true by done. rewrite Ex. apply Z.eqb_refl. }
  assert (Hdead : b <= last_aligned s → agree (Some (l, b)) s) by (intros Hb; split; [by left|auto]).
  destruct (Z.leb_spec b (pump_last_coordinated (t_pump s))) as [Hb|Hb].
  { destruct Hsame. split_and!; [done|done|]. split; [|done]. apply Hdead. pose proof (ok_last _ _ _ _ Hs). lia. }
  pose proof (channel_same (env_sender e) (env_channel e) s) as Hch.
  destruct (coordinated_checkpoint_channel (env_sender e) (env_channel e) s) as [[r|err] s1] eqn:Ec; cbn in Hch; subst s1.
  2: { rewrite (exec_bind_Err _ _ _ _ _ Ec). destruct Hsame. by split_and!. }
  destruct (channel_lane _ _ _ _ _ _ Hs Ec) as (_ & -> & Hsender). change (lane_of (env_sender e) (env_channel e)) with l in *.
  rewrite (exec_bind_Ok _ _ _ _ _ Ec). clear Ec.
  assert (current s = Some b ∧ l ∈ announced s) as [Hcur Han].
  { pose proof (ok_passed _ _ _ _ Hs l b (dequeued_admitted _ _ _ _ Hs Hbar)) as Hp. unfold passed in Hp. rewrite Hsh in Hp.
    destruct Hp as [?|?]; [lia|done]. }
  assert (Ej : join_checkpoint b s = (Ok (), s)).
  { unfold join_checkpoint. rewrite exec_bind_gets. cbn [id]. fold (current s). by rewrite Hcur, Z.eqb_refl. }
  rewrite (exec_bind_Ok _ _ _ _ _ Ej). fold (seen s).
  assert (Hnew : b <= last_aligned s ∨ l ∉ seen s).
  { destruct Hun as [?|Hl]; [by left|]. destruct (Hag b Hcur) as [?|E]; [by left|right; by rewrite E]. }
  case_bool_decide as Hseen.
  { destruct Hsame. split_and!; [done|done|]. split; [|done]. apply Hdead. by destruct Hnew. }
  rewrite exec_bind_modify. set (s1 := set_pump _ s).
  assert (∃ s0, same_data s s0 ∧ lane_holders (t_run s0) = lane_holders (t_run s) ∧ pump_holder (t_run s0) = pump_holder (t_run s) ∧
    (checkpoint_input_resumes (t_pump s) !! l = None → (next_identity (t_run s) < next_identity (t_run s0))%nat) ∧
    block_checkpoint_input l s1 = (Ok (), set_pump (seeing l (env_sender e) (next_identity (t_run s))) s0)) as (s0 & Hd & E1 & E2 & E3 & E4).
  { unfold block_checkpoint_input. rewrite exec_bind_gets. cbn [id]. change (checkpoint_input_resumes (t_pump s1)) with (checkpoint_input_resumes (t_pump s)).
    destruct (checkpoint_input_resumes (t_pump s) !! l) as [n|] eqn:E.
    - exists s. split_and!; try done. rewrite bool_decide_true by done. unfold s1, set_pump, seeing. by rewrite E.
    - exists (fresh s).2. split_and!; [split; cbn; auto|done|done|cbn; lia|]. rewrite bool_decide_false by (by intros [? ?]).
      unfold s1, set_pump, seeing. cbn. by rewrite E. }
  rewrite (exec_bind_Ok _ _ _ _ _ E4). destruct (see_ok l (env_sender e) b s s0 h T) as [HG Hok]; try done.
  split_and!; [done|done|]. cbn [gets fst]. destruct (same_data_kept _ _ Hd) as (_ & _ & Hpk).
  set (s2 := set_pump _ s0) in *. assert (Hla : last_aligned s2 = last_aligned s) by (unfold last_aligned; cbn; by rewrite (sv_aligner _ _ Hd)).
  assert (Hcur2 : current s2 = Some b) by (unfold current; cbn; by rewrite (sv_pump _ _ Hd)).
  assert (Hseen2 : seen s2 = {[l]} ∪ seen s) by (unfold seen; cbn; by rewrite (sv_pump _ _ Hd)).
  assert (Hal2 : t_aligner s2 = t_aligner s) by (cbn; by rewrite (sv_aligner _ _ Hd)).
  split.
  - change (agree (Some (l, b)) s2). split; [|intros b0 Hne E; congruence]. rewrite Hla, Hal2, Hseen2. destruct Hun as [?|Hl]; [by left|].
    destruct (Hag b Hcur) as [?|E]; [by left|right]. by rewrite E.
  - intros Hneed%bool_decide_eq_true. exists x. split_and!; [done|done|]. change (finishing b s2). right. split; [done|].
    rewrite <-(pk_inputs _ (ok_pump _ _ _ _ Hok)). rewrite (ok_inputs _ _ _ _ Hs) in Hneed. cbn [checkpoint_expected_inputs] in Hneed.
    case_bool_decide as He; [rewrite He; apply gmultiset_empty_subseteq|done].
Qed.

(** ** The aligner hears it *)

Lemma aligner_heard e x s : e ∈ dequeued s → env_payload e = PBarrier x → heard (dequeued s) (env_lane e) (b_id x) (b_end_of_data x).
Proof. intros Hin Hx. by exists e, x. Qed.

(** What was taken of a lane closed by a barrier that was taken too. *)
Lemma cut_lane l b s h :
  task_ok s h → ¬ done_with shared b s → barrier_in l b (dequeued s) →
  ∃ before e after, on_lane_of l (admitted s) = before ++ e :: after ∧ has_barrier l b e = true ∧ data_of l (dequeued s) = data_of l before.
Proof.
  intros Hs Hnd Hin. destruct (ok_fence _ _ _ _ Hs l b (dequeued_admitted _ _ _ _ Hs Hin)) as [?|[_ (before & e & after & E & Hb & Hd)]]; [done|].
  exists before, e, after. split_and!; [done|done|]. pose proof (ok_order _ _ _ _ Hs l) as Ho. rewrite E in Ho.
  rewrite <-data_on_lane. pose proof (barriers_once l b s h Hs) as H2. pose proof (barrier_count l b _ Hin) as H1.
  apply app_eq_inv in Ho as [(k & E1 & E2)|(k & E1 & E2)].
  - destruct k as [|e' k].
    + exfalso. cbn in E2. rewrite <-E2, filter_cons_True in H2 by done. cbn in H2. lia.
    + injection E2 as <- E2. rewrite E1, data_of_app.
      assert (data_of l (e :: k) = []) as ->; [|by rewrite app_nil_r].
      unfold data_of. apply filter_none. intros y [->|Hy]%elem_of_cons [_ Hy'].
      * destruct (barrier_not_data l b e Hb) as (? & _). congruence.
      * rewrite Forall_forall in Hd. rewrite (Hd y) in Hy'; [done|]. rewrite E2. apply elem_of_app. by left.
  - exfalso. rewrite E2, filter_app, length_app, filter_cons_True in H2 by done. cbn in H2. lia.
Qed.

Lemma cut_here x s h :
  task_ok s h → ¬ done_with shared (b_id x) s → b_coordinated x = shared (b_id x) →
  (∀ l, l ∈ input_lanes channels → barrier_in l (b_id x) (dequeued s) ∨
     (b_coordinated x = false ∧ ended_by (heard (dequeued s)) l (resolved s))) →
  cut_lanes channels x (dequeued s) (admitted s).
Proof.
  intros Hs Hnd Hsh Hl. split.
  - intros l. rewrite <-(data_on_lane l (dequeued s)), <-(data_on_lane l (admitted s)), <-(ok_order _ _ _ _ Hs), data_of_app.
    by apply prefix_app_r.
  - intros l Hin. destruct (Hl l Hin) as [Hb|[Hco (b' & Hle & e & y & He & El & Hy & Hid & Heof)]].
    + left. by eapply cut_lane.
    + right. split; [done|]. unfold done_with in Hnd. rewrite <-Hsh, Hco in Hnd. exists b'. split; [lia|]. exists e, y. split_and!; try done.
      assert (e ∈ on_lane_of l (admitted s)) as [_ ?]%list_elem_of_filter; [|done].
      rewrite <-(ok_order _ _ _ _ Hs). apply elem_of_app. left. apply list_elem_of_filter. split; [|done]. split; [done|].
      unfold is_control. by rewrite Hy.
Qed.

(** A new state of the aligner, in the hands of the pump. *)
Lemma set_aligner_ok a s h T :
  task_ok s h → holds_pump T s → aligner_ok channels (heard (dequeued s)) a → aligner_le (t_aligner s) a →
  G T s (set_aligner a s) ∧ task_ok (set_aligner a s) h.
Proof.
  intros Hs HT Hok [Hl Hr]. pose proof Hs as [Hi Ho Hsd H1 Hp Hf Hpk Hcb Hla Ha Hag Hfl Hc].
  fold (last_aligned s) in Hl. fold (resolved s) in Hr.
  assert (Hla' : last_aligned s <= last_aligned (set_aligner a s)) by done.
  assert (Hre' : resolved s <= resolved (set_aligner a s)) by done.
  assert (Hdone : ∀ x, done_with shared x s → done_with shared x (set_aligner a s)).
  { intros x. unfold done_with. case_match; lia. }
  split.
  - apply G_intro; [| |done|by left|done].
    + split; try done. intros l x [?|?]; [left; auto|by right].
    + intros l. right. by split.
  - split; try done.
    + intros l x Hin. destruct (Hf l x Hin) as [?|?]; [left; auto|by right].
    + destruct Hpk. by split.
    + intros x Hx Hsh. specialize (Hcb x Hx Hsh). lia.
    + cbn. lia.
    + intros E. by destruct (holds_pump_held _ _ HT).
Qed.

Lemma receive_ok e x (fin : bool) :
  env_payload e = PBarrier x →
  stepping (λ T s h, holds_pump T s ∧ e ∈ dequeued s ∧ agree (mark e) s ∧ (fin = true → finishing (b_id x) s))
    (aligning (receive x (Some (env_sender e)) (env_channel e)))
    (λ r T s h, match r with
     | Ok aligned => agree None s ∧ (fin = true → b_coordinated x = true → b_id x <= last_aligned s) ∧
         ((aligned : bool) = true → done_with shared (b_id x) s ∧ cut_lanes channels x (dequeued s) (admitted s))
     | Err _ => True end).
Proof.
  intros Ex T s h Hs (HT & Hin & Hag & Hfin). pose proof (ok_aligner _ _ _ _ Hs) as Ha.
  destruct (admitted_barrier e x s h Hs Hin Ex) as [Hbar Hsh]. pose proof (aligner_heard e x s Hin Ex) as Hheard.
  unfold aligning. destruct (receive x (Some (env_sender e)) (env_channel e) (t_aligner s)) as [r a] eqn:Er. cbn [fst snd].
  unfold receive in Er. unfold mark in Hag. rewrite Ex in Hag. change (lane_of (env_sender e) (env_channel e)) with (env_lane e) in *.
  set (b := b_id x) in *. destruct (b_coordinated x) eqn:Hco.
  - destruct (receive_coordinated_ok _ _ x (env_sender e) (env_channel e) _ _ _ Ha Hheard Er) as (Hok & Hle & Hother & _ & Hr).
    destruct (set_aligner_ok a s h T Hs HT Hok Hle) as [HG Hs']. split_and!; [done|done|]. destruct r as [r|]; [|done].
    change (lane_of (env_sender e) (env_channel e)) with (env_lane e) in Hr. fold b in Hr, Hother.
    destruct Hle as [Hle _]. fold (last_aligned s) in Hle, Hr. destruct Hag as [Hag1 Hag2].
    change (last_coordinated_barrier_id (a_coordinated a)) with (last_aligned (set_aligner a s)) in Hle, Hr.
    split_and!.
    + intros b0 E. destruct (decide (b0 = b)) as [->|Hne].
      * destruct r; [left; destruct Hr as (_ & -> & _); lia|]. destruct Hr as [?|Hr]; [by left|].
        destruct Hag1 as [?|(_ & Hn & Es)]; [left; lia|]. destruct Hr as [?|[Hr _]]; [done|]. right.
        change (seen s = epoch_lanes b a). by rewrite Hr.
      * destruct (Hag2 b0 Hne E) as [?|Es]; [left; lia|right]. change (seen s = epoch_lanes b0 a). by rewrite Hother.
    + intros -> _. specialize (Hfin eq_refl). destruct r; [destruct Hr as (_ & -> & _); lia|]. destruct Hr as [?|Hr]; [done|].
      destruct Hfin as [?|[_ Hsub]]; [lia|]. destruct Hag1 as [?|(_ & Hn & Es)]; [lia|]. destruct Hr as [?|[_ Hn']]; [done|].
      exfalso. apply Hn'. by rewrite <-Es.
    + intros ->. destruct Hr as (Hlt & Heq & Hcov). split; [unfold done_with; fold b; rewrite <-Hsh; lia|].
      apply (cut_here x s h Hs); [unfold done_with; fold b; rewrite <-Hsh; lia|by rewrite Hco|].
      intros l Hl. left. specialize (Hcov l Hl). apply elem_of_union in Hcov as [ ->%elem_of_singleton|Hl']; [done|].
      destruct (al_coordinated _ _ _ Ha b l Hl') as [_ [eof Hh]]. by eapply heard_barrier.
  - destruct (receive_direct_ok _ _ x (env_sender e) (env_channel e) _ _ _ Ha Hheard Er) as (Hok & Hle & Hsame & Hr).
    destruct (set_aligner_ok a s h T Hs HT Hok Hle) as [HG Hs']. split_and!; [done|done|]. destruct r as [r|]; [|done].
    assert (Hla : last_aligned (set_aligner a s) = last_aligned s) by (unfold last_aligned; cbn; by rewrite Hsame).
    split_and!; [|done|].
    + intros b0 E. rewrite Hla. destruct (Hag b0 E) as [?|Es]; [by left|right]. change (seen s = epoch_lanes b0 a).
      rewrite Es. unfold epoch_lanes. by rewrite Hsame.
    + intros ->. destruct Hr as (Hlt & Heq & Hcov). fold (resolved s) in Hlt, Hcov. fold b in Hlt, Heq, Hcov.
      split; [unfold done_with; fold b; rewrite <-Hsh; unfold resolved; cbn; lia|].
      apply (cut_here x s h Hs); [unfold done_with; fold b; rewrite <-Hsh; lia|by rewrite Hco|].
      intros l Hl. destruct (Hcov l Hl) as [[eof Hh]|Hend]; [left; by eapply heard_barrier|by right].
Qed.
End steps.
