(* ===== verification/TaskCalls.v ===== *)
(** * The calls a task receives

    The inbox calls of the senders, the resets of checkpoints and the callbacks of
    [TaskInput], proved against the rely-guarantee logic of [Coroutines] from the steps of
    [TaskSteps]: each keeps the invariant of the task, whatever runs in between. *)
From stdpp Require Import gmultiset.
From S2P Require Import Prelude Effects Coroutines Checkpoints Delivery WeightedQueue BarrierAligner TaskInput TaskInvariant TaskSteps.
Open Scope Z_scope.

Section calls.
Context {R RO K A C Row : Type} `{!Batcher R RO A, !BatcherLaws R RO A Row}
  (record_num_rows : R → option Z) (shared : Z → bool) (channels : gset channel).
Context (estimate_retained_size : payload (R := R) (K := K) → Z).

Abbreviation task := (task (R := R) (RO := RO) (K := K) (A := A)).
Abbreviation envelope := (InboxEnvelope (R := R) (K := K)).
Abbreviation call := (op_call (RO := RO) (K := K)).
Abbreviation question := (question (RO := RO) (K := K) (C := C)).
Abbreviation answer := (answer (RO := RO) (K := K) (C := C)).
Abbreviation meth := (method (R := R) (K := K)).
Abbreviation ev := (event answer (reply (R := R) (K := K))).
Abbreviation hist := (list ev).
Abbreviation co := (coro task answer).
Abbreviation task_ok := (task_ok (C := C) shared channels).
Abbreviation G := (G shared).
Abbreviation Rely := (Rely shared).
Abbreviation stepping := (stepping (C := C) shared channels).
Abbreviation assertion := (gset nat → task → hist → Prop).
Abbreviation tri := (triple (M := meth) task_ok taken G Rely).
Abbreviation stable := (stable (M := meth) (rep := reply (R := R) (K := K)) (ans := answer) task_ok Rely).
Abbreviation insensitive := (insensitive (C := C)).
Implicit Types (s : task) (e : envelope) (h : hist) (l : lane) (b : Z) (T : gset nat) (Φ : assertion).

Definition anything : assertion := λ _ _ _, True.

(** A coroutine that may run at any time. *)
Definition good {X} (p : co X) : Prop := tri anything p (λ _, anything).

(** ** Rules *)

Lemma task_ok_snoc s h (v : ev) :
  task_ok s h → (∀ q x calls, v = Issued q → registers q = Some (x, calls) → cut_ok channels x calls (admitted s)) → task_ok s (h ++ [v]).
Proof.
  intros [Hi Ho Hsd H1 Hp Hf Hpk Hcb Hla Ha Hag Hfl Hc] Hv. split; try done.
  intros q x calls [Hin|Hin%list_elem_of_singleton]%elem_of_app; [by apply Hc|by eapply Hv].
Qed.

Lemma tri_pre {X} Φ (P : Prop) (p : co X) Ψ : (∀ T s h, task_ok s h → Φ T s h → P) → (P → tri Φ p Ψ) → tri Φ p Ψ.
Proof. intros HP Hp T s h Hs HΦ. apply Hp; [by eapply HP|done|done]. Qed.

Lemma tri_mono {X} Φ Φ' (p : co X) (Ψ Ψ' : outcome X → assertion) :
  tri Φ' p Ψ' → (∀ T s h, task_ok s h → Φ T s h → Φ' T s h) → (∀ r T s h, Ψ' r T s h → Ψ r T s h) → tri Φ p Ψ.
Proof. intros Hp HΦ HΨ T s h Hs HP. eapply (co_triple_mono _ _ _ _ Φ'); [exact Hp|done|exact HΨ|done|by apply HΦ]. Qed.

Lemma tri_absurd {X} Φ (p : co X) Ψ : (∀ T s h, task_ok s h → Φ T s h → False) → tri Φ p Ψ.
Proof. intros HΦ T s h Hs Hx. by destruct (HΦ T s h). Qed.

Lemma tri_ex {X Y} (Φ : Y → assertion) (p : co X) Ψ : (∀ y, tri (Φ y) p Ψ) → tri (λ T s h, ∃ y, Φ y T s h) p Ψ.
Proof. intros Hp T s h Hs [y Hy]. by apply (Hp y). Qed.

Lemma run_ret {X} (x : X) Φ : tri Φ (mret x) (λ _, Φ).
Proof. by apply co_triple_ret. Qed.

Lemma run_step {X} Φ (m : exec task X) Ψ : stepping Φ m Ψ → tri Φ (sync m) Ψ.
Proof. intros Hm. by apply triple_sync. Qed.

Lemma tri_unseen {X} Φ (m : exec task X) : unseen m → insensitive Φ → tri Φ (sync m) (λ _, Φ).
Proof. intros Hm HΦ. by apply run_step, stepping_unseen. Qed.

(** A question that registers nothing. *)
Lemma run_ask Φ (q : question) :
  registers q = None → stable Φ → (∀ T s h h', Φ T s h → Φ T s h') → tri Φ (await q) (λ _, Φ).
Proof.
  intros Hq HΦ Hh. apply triple_await; [done| |].
  - intros T s h Hs _. apply task_ok_snoc; [done|]. intros q' x calls [= <-]. by rewrite Hq.
  - intros r T s h Hs _ HP. split; [by apply task_ok_snoc|by eapply Hh].
Qed.

(** A wait, possibly cut short. *)
Lemma tri_expirable Φ timed f (Ψ : outcome unit → assertion) :
  stable Φ → (∀ T s h h', Φ T s h → Φ T s h') →
  (∀ T s h, task_ok s h → Φ T s h → f s = true → Ψ (Ok ()) T s h) → (∀ x T s h, Φ T s h → Ψ (Err x) T s h) →
  tri Φ (expirable timed f) Ψ.
Proof.
  intros Hst Hh Hok Herr. unfold expirable. destruct timed; [|by apply triple_wait].
  eapply (co_triple_bind _ _ _ _ _ _ _ (λ _, Φ)); [by apply run_ask| |by auto].
  intros x. destruct (x : bool); [|by apply triple_wait]. apply triple_raises. auto.
Qed.

Lemma tri_bind {X Y} Φ (p : co X) (f : X → co Y) (Θ : outcome X → assertion) Ψ :
  tri Φ p Θ → (∀ x, tri (Θ (Ok x)) (f x) Ψ) → (∀ (x : exn) T s h, Θ (Err x) T s h → Ψ (Err x) T s h) → tri Φ (p ≫= f) Ψ.
Proof. apply co_triple_bind. Qed.

Lemma run_good_bind {X Y} (p : co X) (f : X → co Y) : good p → (∀ x, good (f x)) → good (p ≫= f).
Proof. intros Hp Hf. eapply tri_bind; [exact Hp|exact Hf|done]. Qed.

Lemma good_unseen {X} (m : exec task X) : unseen m → good (sync m).
Proof. intros Hm. by apply tri_unseen. Qed.

Lemma run_good_wait f : good (wait_until f).
Proof. by apply triple_wait. Qed.

(** ** Locks *)

(** [p] with the executor's thread. *)
Lemma tri_executor {X} Φ (p : co X) (Ψ : outcome X → assertion) :
  stable Φ → insensitive Φ → (∀ r, insensitive (Ψ r)) → tri Φ p Ψ → (∀ x T s h, Φ T s h → Ψ (Err x) T s h) → tri Φ (in_executor p) Ψ.
Proof.
  intros Hst Hin Hout Hp Herr. unfold in_executor, locked, acquire.
  eapply (tri_bind _ _ _ (λ _, Φ)); [|intros n|by auto].
  - eapply (tri_bind _ _ _ (λ _, Φ)); [by apply triple_wait|intros []|done].
    apply tri_unseen; [|done]. apply keeps_bind; [apply _|apply unseen_fresh|intros n].
    apply keeps_bind; [apply _|apply keeps_modify; intros s; by repeat split|intros; by apply keeps_ret; apply _].
  - eapply triple_finally; [exact Hp|]. intros r T s h Hs Hr.
    assert (Hv : same_view s (set_executor_holder None s)) by by repeat split.
    split_and!; [by apply same_view_G|by eapply same_view_ok|]. cbn. eapply Hout; [|exact Hv|exact Hr]. set_solver-.
Qed.

Definition held l (F : task → Prop) : assertion := λ T s _, holds_lane l T s ∧ F s.

(** [p] with the lock of the lane. *)
Lemma good_on_lane {X} l (p : co X) : tri (held l (λ _, True)) p (λ _, held l (λ _, True)) → good (on_lane l p).
Proof.
  intros Hp. unfold on_lane, locked. eapply (tri_bind _ _ _ (λ r, match r with Ok _ => held l (λ _, True) | Err _ => anything end)); [|intros n|done].
  - unfold acquire. eapply (tri_bind _ _ _ (λ r T s h, match r with Ok _ => lane_holder s l = None | Err _ => True end)); [|intros []|done].
    + apply triple_wait; [done|]. intros T s h _ _ Hn%bool_decide_eq_true. done.
    + apply triple_sync. intros T s h Hs Hn. destruct (acquire_lane_ok shared channels l s h Hs Hn) as (HG & Hok & Hh).
      cbn in *. split_and!; [apply HG|done|]. split; [|done]. destruct Hh as (k & ? & ?). exists k. split; [done|]. apply elem_of_union. by right.
  - eapply triple_finally; [exact Hp|]. intros r T s h Hs [Hl _].
    destruct (release_lane_ok shared channels l s h T Hs Hl). cbn. split_and!; [done|done|]. by destruct r.
Qed.

(** ** A sender on its lane *)

(** What the others keep, for the holder of the lane. *)
Definition lane_fact l (F : task → Prop) : Prop := ∀ s s', grows shared s s' → lane_kept l s s' → F s → F s'.

Lemma held_stable l (F : task → Prop) : lane_fact l F → stable (held l F).
Proof.
  intros HF T s s' h h' (Hg & Hl & _) _ _ [Hh HP]. destruct (Hl l Hh) as [E Hk]. split; [|by eapply HF].
  destruct Hh as (n & ? & ?). exists n. split; [congruence|done].
Qed.

Lemma held_insensitive l (F : task → Prop) : (∀ s s', same_view s s' → F s → F s') → insensitive (held l F).
Proof.
  intros HF T T' s s' h HT Hv [(n & Hn & Hin) HP]. split; [|by eapply HF]. exists n. split; [|by apply HT].
  unfold lane_holder. by rewrite (sv_lanes _ _ Hv).
Qed.

Lemma view_kept l s s' : same_view s s' → grows shared s s' ∧ lane_kept l s s'.
Proof. intros Hv. destruct (same_data_kept shared s s' (sv_data _ _ Hv)) as (? & ? & ?). auto. Qed.

Lemma held_unseen {X} l (F : task → Prop) (m : exec task X) : unseen m → lane_fact l F → tri (held l F) (sync m) (λ _, held l F).
Proof.
  intros Hm HF. apply tri_unseen; [done|]. apply held_insensitive. intros s s' Hv. destruct (view_kept l s s' Hv). by apply HF.
Qed.

(** [sync (gets id)], with the state it found. *)
Lemma tri_read {X} Φ (p : task → co X) Ψ : (∀ s0, tri (λ T s h, s = s0 ∧ Φ T s h) (p s0) Ψ) → tri Φ (s ← sync (gets id); p s) Ψ.
Proof.
  intros Hp T s h Hs HP. cbn. split; [apply same_view_G, same_view_refl|].
  assert (taken s s = ∅) as ->; [unfold taken; by rewrite Nat.sub_diag|]. rewrite union_empty_r_L. apply (Hp s); [done|]. by split.
Qed.

Lemma fact_gate l : lane_fact l (λ s, gate s l = None).
Proof. intros s s' _ Hk. apply (lk_gate _ _ _ Hk). Qed.

Lemma fact_open l : lane_fact l (lane_open l).
Proof. intros s s' _ Hk [? Hn]. split; [by apply (lk_gate _ _ _ Hk)|]. intros Hin. by apply (lk_announced _ _ _ Hk) in Hin as [? _]. Qed.

(** The event one waits for is that of the announcement, if there is one. *)
Lemma fact_event l n : lane_fact l (λ s, l ∈ announced s → checkpoint_admission_resumes (t_pump s) !! l = Some n).
Proof. intros s s' _ Hk Hs Hin. destruct (lk_announced _ _ _ Hk Hin) as [? ->]. auto. Qed.

Lemma fact_ticket l b : lane_fact l (ticket shared l b).
Proof.
  intros s s' Hg Hk (Hn & Hp & Hx). split_and!; [|by apply (gr_passed _ _ _ Hg)|by apply (gr_settled _ _ _ Hg)].
  rewrite barrier_in_on_lane, (lk_admitted _ _ _ Hk), <-barrier_in_on_lane. done.
Qed.

Lemma fact_and l (F F' : task → Prop) : lane_fact l F → lane_fact l F' → lane_fact l (λ s, F s ∧ F' s).
Proof. intros HF HF' s s' Hg Hk [? ?]. split; [by eapply HF|by eapply HF']. Qed.

Lemma fact_admissible e : lane_fact (env_lane e) (admissible shared e).
Proof.
  intros s s' Hg Hk. unfold admissible. destruct (env_payload e) as [|x|]; [by apply fact_open| |done].
  intros [? Ht]. split; [done|]. by eapply fact_ticket.
Qed.

(** *** Admission *)

Lemma held_admitted {X} e (m : exec task X) :
  (∀ s, (m s).2 = s ∨ ∃ q, e_item <$> wq_items q = items s ++ [e] ∧ (m s).2 = add_admitted e (set_inbox q s)) →
  tri (held (env_lane e) (admissible shared e)) (sync m) (λ _, held (env_lane e) (λ _, True)).
Proof.
  intros Hm. apply triple_sync. intros T s h Hs [Hl Ha].
  assert (Hheld : ∀ s', lane_holders (t_run s') = lane_holders (t_run s) → holds_lane (env_lane e) (T ∪ taken s s') s').
  { intros s' E. destruct Hl as (n & Hn & Hin). exists n. unfold lane_holder in *. rewrite E. split; [done|]. apply elem_of_union. by left. }
  destruct (Hm s) as [E|(q & Hq & E)].
  - rewrite E. split_and!; [apply same_view_G, same_view_refl|done|split; [by apply Hheld|done]].
  - rewrite E. destruct (admit_step_ok shared channels e q s h T) as [HG Hok]; try done. split_and!; [done|done|split; [by apply Hheld|done]].
Qed.

Lemma measured weigh size (e : envelope) w z q :
  measure weigh size e = Ok (w, z) → e_item <$> wq_items (admit_item e w z q) = (e_item <$> wq_items q) ++ [e].
Proof. intros _. cbn. by rewrite fmap_app. Qed.

Lemma held_admit e :
  tri (held (env_lane e) (admissible shared e)) (sync (admit_envelope record_num_rows estimate_retained_size e)) (λ _, held (env_lane e) (λ _, True)).
Proof.
  apply held_admitted. intros s. unfold admit_envelope. rewrite exec_bind_gets, exec_bind_of_outcome. cbn [id].
  destruct (offer record_num_rows estimate_retained_size e s) as [[q|]|x] eqn:Eo; [right|by left..].
  rewrite !exec_bind_modify. exists q. split; [|done]. unfold offer, queue_put in Eo.
  destruct (measure _ _ e) as [[w z]|] eqn:Em; [|done]. cbn in Eo. destruct (can_admit _ _ _ _) as [[]|]; [|done..].
  injection Eo as <-. by eapply measured.
Qed.

Lemma tri_put_control Φ e :
  stable Φ → (∀ T s h, Φ T s h → held (env_lane e) (admissible shared e) T s h) →
  tri Φ (inbox_put_control record_num_rows estimate_retained_size e) (λ _, held (env_lane e) (λ _, True)).
Proof.
  intros Hst HΦ. unfold inbox_put_control. eapply (tri_bind _ _ _ (λ r, match r with Ok _ => Φ | Err _ => λ _ _ _, False end)); [|intros []|done].
  - by apply triple_wait.
  - eapply co_triple_mono; [apply held_admitted|exact HΦ|done]. intros s. rewrite exec_bind_gets, exec_bind_of_outcome. cbn [id].
    destruct (put_control _ _ e _) as [q|x] eqn:Eo; [right|by left]. rewrite exec_bind_modify. exists q. split; [|done].
    unfold put_control in Eo. destruct (measure _ _ e) as [[w z]|] eqn:Em; [|done]. injection Eo as <-. by eapply measured.
Qed.

Lemma held_put timed e :
  tri (held (env_lane e) (admissible shared e)) (inbox_put record_num_rows estimate_retained_size timed e) (λ _, held (env_lane e) (λ _, True)).
Proof.
  unfold inbox_put. eapply (tri_bind _ _ _ (λ r, held (env_lane e) (match r with Ok _ => admissible shared e | Err _ => λ _, True end))); [|intros []|done].
  - apply tri_expirable; [|done|done|by intros x T s h [? _]]. apply held_stable, fact_admissible.
  - eapply (tri_bind _ _ _ (λ _, held (env_lane e) (λ _, True))); [apply held_admit|intros ?|done]. apply run_ret.
Qed.

(** An envelope, and the inbox it is offered to. *)
Lemma held_envelope {X} m v q dc (F : task → Prop) (k : envelope → co X) :
  lane_fact (lane_of v dc) F →
  (∀ e s, env_payload e = m → env_lane e = lane_of v dc → F s → admissible shared e s) →
  (∀ e, tri (held (env_lane e) (admissible shared e)) (k e) (λ _, held (env_lane e) (λ _, True))) →
  tri (held (lane_of v dc) F) (e ← sync (new_envelope m v q dc); k e) (λ _, held (lane_of v dc) (λ _, True)).
Proof.
  intros HF Ha Hk.
  eapply (tri_bind _ _ _ (λ r, match r with Ok e => λ T s h, (env_payload e = m ∧ env_lane e = lane_of v dc) ∧ held (lane_of v dc) F T s h | Err _ => held (lane_of v dc) (λ _, True) end)); [| |done].
  - apply triple_sync. intros T s h Hs HP. assert (Hv : same_view s (fresh s).2) by apply unseen_fresh. cbn in *.
    split_and!; [by apply same_view_G|by eapply same_view_ok|]. split; [done|].
    eapply (held_insensitive (lane_of v dc) F); [|..|exact HP]; [|set_solver-|exact Hv].
    intros s1 s2 Hv2. destruct (view_kept (lane_of v dc) s1 s2 Hv2). by apply HF.
  - intros e. apply (tri_pre _ (env_payload e = m ∧ env_lane e = lane_of v dc)); [by intros ? ? ? _ [? _]|]. intros [Hm Hl].
    rewrite <-Hl. eapply co_triple_mono; [apply Hk| |done]. intros T s h [_ [? ?]]. split; [done|]. by apply Ha.
Qed.

(** *** The inbox calls *)

Lemma event_passed l n s h :
  task_ok s h → n ∈ fired (t_run s) → (l ∈ announced s → checkpoint_admission_resumes (t_pump s) !! l = Some n) → l ∉ announced s.
Proof. intros Hs Hn Hl Hin. destruct (pk_unfired _ (ok_pump _ _ _ _ Hs) l n (Hl Hin)). done. Qed.

Lemma unblocked l s h : task_ok s h → checkpoint_admission_resumes (t_pump s) !! l = None → l ∉ announced s.
Proof. intros Hs E. rewrite <-(pk_admission _ (ok_pump _ _ _ _ Hs)). by apply not_elem_of_dom. Qed.

(** Waiting for the pump's gate. *)
Lemma held_wait_input timed l m (F F' : task → Prop) :
  lane_fact l F → (∀ s, F s → l ∉ announced s ∨ (∃ x, m = PBarrier x) → F' s) →
  tri (held l F) (wait_for_checkpoint_input timed l m) (λ r, held l (match r with Ok _ => F' | Err _ => λ _, True end)).
Proof.
  intros HF HF'. unfold wait_for_checkpoint_input. apply tri_read. intros s0.
  destruct (checkpoint_resume l s0) as [n|] eqn:Er.
  - destruct (joins_checkpoint m s0) eqn:Ej.
    + apply co_triple_ret. intros T s h Hs [-> [? ?]]. split; [done|]. apply HF'; [done|right]. destruct m; try done. by eexists.
    + eapply tri_mono; [apply (tri_expirable (held l (λ s, F s ∧ (l ∈ announced s → checkpoint_admission_resumes (t_pump s) !! l = Some n))) _ _
        (λ r, held l (match r with Ok _ => F' | Err _ => λ _, True end)))| |done].
      * apply held_stable, fact_and; [done|apply fact_event].
      * done.
      * intros T s h Hs [Hl [HP Hn]] Hb%bool_decide_eq_true. split; [done|]. apply HF'; [done|left]. by eapply event_passed.
      * intros x T s h [? _]. by split.
      * intros T s h Hs [-> [Hl HP]]. split; [done|]. split; [done|]. intros Hin. unfold checkpoint_resume in Er.
        destruct (checkpoint_admission_resumes (t_pump s0) !! l) eqn:E; [by injection Er as ->|]. by destruct (unblocked l s0 h Hs E).
  - apply co_triple_ret. intros T s h Hs [-> [? ?]]. split; [done|]. apply HF'; [done|left]. eapply unblocked; [done|].
    unfold checkpoint_resume in Er. by destruct (checkpoint_admission_resumes (t_pump s0) !! l).
Qed.

Lemma held_open l timed : tri (held l (λ _, True)) (expirable timed (input_open l)) (λ r, held l (match r with Ok _ => λ s, gate s l = None | Err _ => λ _, True end)).
Proof.
  apply tri_expirable; [by apply held_stable|done| |done]. intros T s h _ [? _] Ho%bool_decide_eq_true. by split.
Qed.

Lemma good_put records timed v q dc : good (on_lane (lane_of v dc) (put record_num_rows estimate_retained_size records timed v q dc)).
Proof.
  apply good_on_lane. set (l := lane_of v dc). unfold put. eapply (tri_bind _ _ _ (λ _, held l (λ _, True))); [|intros [[]|x]; [apply run_ret|]|done].
  - apply triple_try. unfold admit_records. fold l.
    eapply tri_bind; [apply held_open|intros []|done].
    eapply tri_bind; [apply (held_wait_input timed l (PRecords records) _ (lane_open l))|intros []|done].
    + apply fact_gate.
    + intros s Hg [?|[x ?]]; [by split|done].
    + apply (held_envelope (PRecords records) v q dc (lane_open l)); [apply fact_open| |intros e; apply held_put].
      intros e s Hm Hl Ho. unfold admissible. by rewrite Hm, Hl.
  - destruct x; by (apply run_ret || apply triple_raises).
Qed.

Lemma good_try_put records v q dc : good (on_lane (lane_of v dc) (try_put_records record_num_rows estimate_retained_size records v q dc)).
Proof.
  apply good_on_lane. set (l := lane_of v dc). unfold try_put_records. fold l. apply tri_read. intros s0.
  destruct (negb (input_open l s0) || checkpoint_input_blocked l s0) eqn:Eb.
  { apply co_triple_ret. by intros T s h _ [_ ?]. }
  apply orb_false_iff in Eb as [Eo%negb_false_iff%bool_decide_eq_true Eb]. apply orb_false_iff in Eb as [Eb%bool_decide_eq_false _].
  eapply (tri_mono _ (held l (lane_open l)) _ _ (λ _, held l (λ _, True))); [| |done].
  - eapply (tri_bind _ _ _ (λ _, held l (lane_open l))); [|intros []|by intros x T s h [? _]].
    + apply triple_wait; [|done]. apply held_stable, fact_open.
    + apply (held_envelope (PRecords records) v q dc (lane_open l)); [apply fact_open| |intros e; apply held_admit].
      intros e s Hm Hl Ho. unfold admissible. by rewrite Hm, Hl.
  - intros T s h Hs [-> [Hl _]]. split; [done|]. split; [done|]. eapply unblocked; [done|]. by apply eq_None_not_Some.
Qed.

(** The holder of the lane keeps it through a step that leaves the locks alone. *)
Lemma holds_lane_kept l T T' s s' : T ⊆ T' → lane_holders (t_run s') = lane_holders (t_run s) → holds_lane l T s → holds_lane l T' s'.
Proof. intros HT E (n & Hn & Hin). exists n. unfold lane_holder in *. rewrite E. auto. Qed.

(** Whether the lane was closed for the barrier. *)
Definition closing l b (r : outcome bool) : assertion := held l (match r with Ok true => ticket shared l b | _ => λ _, True end).

Lemma held_announce (x : Barrier) v dc :
  b_coordinated x = true → shared (b_id x) = true →
  tri (held (lane_of v dc) (λ _, True)) (sync (announce_coordinated_barrier x v dc)) (closing (lane_of v dc) (b_id x)).
Proof.
  intros Hco Hsh. apply triple_sync. intros T s h Hs [Hl _]. set (l := lane_of v dc) in *. set (b := b_id x) in *.
  assert (Hstay : ∀ r, r ≠ Ok true → G T s s ∧ task_ok s h ∧ closing l b r (T ∪ taken s s) s h).
  { intros r Hr. split_and!; [apply same_view_G, same_view_refl|done|]. split; [|by destruct r as [[]|]].
    eapply holds_lane_kept; [|done|exact Hl]. apply union_subseteq_l. }
  unfold announce_coordinated_barrier. rewrite Hco. cbn [negb]. rewrite exec_bind_gets. cbn [id]. fold b.
  destruct (Z.leb_spec b (pump_last_coordinated (t_pump s))) as [|Hb]; [by apply Hstay|].
  pose proof (channel_same v dc s) as Hch. destruct (coordinated_checkpoint_channel v dc s) as [[r|err] s1] eqn:Ec; cbn in Hch; subst s1.
  2: { rewrite (exec_bind_Err _ _ _ _ _ Ec). by apply Hstay. }
  destruct (channel_lane shared channels _ _ _ _ _ _ Hs Ec) as (_ & -> & _). rewrite (exec_bind_Ok _ _ _ _ _ Ec). clear Ec. fold l.
  unfold join_checkpoint. rewrite exec_bind_assoc, exec_bind_gets. cbn [id].
  assert (Hnew : current s = None ∨ current s = Some b ∧ l ∉ announced s → ∀ s', s' = set_pump (announcing l b (next_identity (t_run s))) (fresh s).2 →
    G T s s' ∧ task_ok s' h ∧ closing l b (Ok true) (T ∪ taken s s') s' h).
  { intros Hc s' ->. destruct (announce_ok shared channels l b s h T Hs Hl Hsh Hb Hc) as (HG & Hok & Ht). split_and!; [done|done|]. split; [|done].
    eapply holds_lane_kept; [|done|exact Hl]. apply union_subseteq_l. }
  destruct (checkpoint_barrier_id (t_pump s)) as [b'|] eqn:Ecur; fold (announced s).
  - destruct (Z.eqb_spec b' b) as [->|]; [|by apply Hstay]. rewrite exec_bind_ret. case_bool_decide as Hin; [by apply Hstay|].
    apply Hnew; [right; by split|]. unfold mbind, exec_bind, set_pump, announcing. cbn. by rewrite Ecur.
  - rewrite exec_bind_modify. destruct (pk_idle _ (ok_pump _ _ _ _ Hs) Ecur) as [Ha _]. rewrite bool_decide_false by (rewrite Ha; apply not_elem_of_empty).
    apply Hnew; [by left|done].
Qed.

Lemma held_claim l b : shared b = false → tri (held l (λ _, True)) (claim_checkpoint_input l b) (closing l b).
Proof.
  intros Hsh. unfold claim_checkpoint_input. eapply (tri_bind _ _ _ (λ _, held l (λ _, True))); [|intros []|by intros].
  { apply held_unseen; [|done]. apply keeps_modify. intros s. by repeat split. }
  eapply (tri_bind _ _ _ (λ _, held l (λ _, True))); [|intros []|by intros].
  { apply triple_wait; [by apply held_stable|done]. }
  apply triple_sync. intros T s h Hs [Hl _]. rewrite exec_bind_gets. cbn [id]. destruct (claim_round l b s) as [[]|] eqn:Ec; cbn [default].
  - destruct (claim_ok shared channels l b s h T Hs Hl Hsh Ec) as (HG & Hok & Ht). cbn. split_and!; [done|done|]. split; [|done].
    eapply holds_lane_kept; [|done|exact Hl]. apply union_subseteq_l.
  - split_and!; [apply same_view_G, same_view_refl|done|]. split; [|done]. eapply holds_lane_kept; [|done|exact Hl]. apply union_subseteq_l.
  - split_and!; [apply same_view_G, same_view_refl|done|]. split; [|done]. eapply holds_lane_kept; [|done|exact Hl]. apply union_subseteq_l.
Qed.

Lemma good_emit_barrier x v dc :
  b_coordinated x = shared (b_id x) → good (on_lane (lane_of v dc) (emit_barrier record_num_rows estimate_retained_size x v dc)).
Proof.
  intros Hx. apply good_on_lane. set (l := lane_of v dc). set (b := b_id x). unfold emit_barrier. fold l.
  assert (Hadm : ∀ e s, env_payload e = PBarrier x → env_lane e = l → ticket shared l b s → admissible shared e s).
  { intros e s Hm Hl Ht. unfold admissible. rewrite Hm, Hl. by split. }
  assert (Hret : ∀ F, tri (held l F) (mret ()) (λ _, held l (λ _, True))) by (intros F; apply co_triple_ret; by intros T s h _ [? _]).
  eapply (tri_bind _ _ _ (λ _, held l (λ _, True))); [|intros current|done].
  { apply held_unseen; [|done]. intros s. unfold current_checkpoint_delivery_channel. rewrite exec_bind_gets. by repeat case_match. }
  destruct (negb current); [apply Hret|]. destruct (b_coordinated x) eqn:Hco.
  - eapply (tri_bind _ _ _ (closing l b)); [by apply held_announce|intros announced|by intros y T s h [? _]].
    destruct announced; [|apply Hret]. apply (held_envelope (PBarrier x) v None dc (ticket shared l b)); [apply fact_ticket|exact Hadm|].
    intros e. apply tri_put_control; [apply held_stable, fact_admissible|done].
  - eapply (tri_bind _ _ _ (closing l b)); [by apply held_claim|intros claimed|by intros y T s h [? _]].
    destruct claimed; [|apply Hret].
    eapply (tri_bind _ _ _ (λ r, held l (match r with Ok _ => ticket shared l b | Err _ => λ _, True end))); [|intros []|done].
    + apply held_wait_input; [apply fact_ticket|done].
    + apply (held_envelope (PBarrier x) v None dc (ticket shared l b)); [apply fact_ticket|exact Hadm|apply held_put].
Qed.

(** Controls pass every gate but their own. *)
Lemma good_emit_control control v dc : good (emit_stream_control record_num_rows estimate_retained_size control v dc).
Proof.
  unfold emit_stream_control. apply run_good_bind; [apply run_good_wait|intros []]. apply run_good_bind.
  { unfold wait_for_checkpoint_input. apply tri_read. intros s0. eapply tri_mono with (Φ' := anything) (Ψ' := λ _, anything); [|done|done].
    repeat case_match; try by apply run_ret. by apply run_good_wait. }
  intros []. eapply (tri_bind _ _ _ (λ r T s h, match r with Ok e => is_control e = true ∧ admissible shared e s | Err _ => True end)); [|intros e|done].
  { apply triple_sync. intros T s h Hs _. assert (Hv : same_view s (fresh s).2) by apply unseen_fresh. split_and!; [by apply same_view_G|by eapply same_view_ok|done]. }
  apply (tri_pre _ (is_control e = true ∧ ∀ s, admissible shared e s)).
  { intros T s h _ [Hc _]. split; [done|]. unfold is_control in Hc. unfold admissible. by destruct (env_payload e). }
  intros [Hc Ha]. apply (tri_mono _ anything _ _ (λ _, anything)); [|done|done].
  unfold inbox_put. apply run_good_bind; [apply run_good_wait|intros []]. apply run_good_bind; [|intros; apply run_ret].
  apply triple_sync. intros T s h Hs _. unfold admit_envelope. rewrite exec_bind_gets, exec_bind_of_outcome. cbn [id].
  destruct (offer record_num_rows estimate_retained_size e s) as [[q|]|x] eqn:Eo;
    [|split_and!; [apply same_view_G, same_view_refl|done|done]..].
  rewrite !exec_bind_modify. unfold offer, queue_put in Eo. destruct (measure _ _ e) as [[w z]|] eqn:Em; [|done]. cbn in Eo.
  destruct (can_admit _ _ _ _) as [[]|]; [|done..]. injection Eo as <-.
  destruct (admit_step_ok shared channels e (admit_item e w z (t_inbox s)) s h T) as [HG Hok]; [done|congruence|done|by eapply measured|done].
Qed.

(** ** Aborts *)

(** A step that takes no lock. *)
Record calm T s s' h : Prop := {
  calm_G : G T s s';
  calm_ok : task_ok s' h;
  calm_lanes : lane_holders (t_run s') = lane_holders (t_run s);
  calm_pump : pump_holder (t_run s') = pump_holder (t_run s)
}.

Lemma calm_refl T s h : task_ok s h → calm T s s h.
Proof. intros Hs. split; [apply same_view_G, same_view_refl|done..]. Qed.

Lemma calm_trans T s1 s2 s3 h : calm T s1 s2 h → calm T s2 s3 h → calm T s1 s3 h.
Proof.
  intros [(G1 & L1 & P1) H1 E1 F1] [(G2 & L2 & P2) H2 E2 F2]. split; [|done|congruence..].
  split_and!; [by eapply task_grows_trans| |].
  - intros l. destruct (L1 l) as [?|[_ K1]]; [by left|]. destruct (L2 l) as [(n & Hn & Hin)|[_ K2]].
    + left. exists n. unfold lane_holder in *. rewrite E1 in Hn. done.
    + right. split; [right; unfold lane_holder; congruence|by eapply lane_kept_trans].
  - destruct P1 as [?|[_ K1]]; [by left|]. destruct P2 as [(n & Hn & Hin)|[_ K2]].
    + left. exists n. rewrite F1 in Hn. done.
    + right. split; [right; congruence|by eapply pump_kept_trans].
Qed.

Lemma calm_grows T s s' h : calm T s s' h → grows shared s s'.
Proof. by intros [(? & _) _ _ _]. Qed.

Definition given_up_at b s : Prop := b <= last_aligned s ∧ b <= resolved s.

Lemma given_up_grows b s s' : grows shared s s' → given_up_at b s → given_up_at b s'.
Proof. intros Hg [? ?]. pose proof (gr_last _ _ _ Hg). pose proof (gr_resolved _ _ _ Hg). split; lia. Qed.

Lemma calm_raise x s h T : task_ok s h → x <= last_aligned s → calm T s (set_pump_last (λ y, Z.max y x) s) h.
Proof. intros Hs Hx. destruct (raise_last_ok shared channels x s h T Hs Hx). by split. Qed.

Lemma calm_release s h T :
  task_ok s h → (∀ b, current s = Some b → b <= pump_last_coordinated (t_pump s)) → calm T s (release_checkpoint_inputs s).2 h.
Proof.
  intros Hs Hc. unfold release_checkpoint_inputs. rewrite exec_bind_gets, exec_bind_modify. cbn [id].
  destruct (release_ok shared channels (list_to_set ((map_to_list (checkpoint_admission_resumes (t_pump s))).*2 ++
    (map_to_list (checkpoint_input_resumes (t_pump s))).*2)) s h T Hs Hc) as [HG Hok]; [|split; [exact HG|exact Hok|done|done]].
  intros n [Hn|Hn]%elem_of_list_to_set%elem_of_app; apply list_elem_of_fmap in Hn as ([l n'] & -> & Hin);
    apply elem_of_map_to_list in Hin; [left|right]; by exists l.
Qed.

Lemma calm_open which r s h T :
  task_ok s h → (∀ l b n, gate s l = Some (b, n) → which b = true → b <= r ∧ (shared b = false → b <= resolved s)) →
  calm T s (open_gates which (mark_checkpoint_gate_resolved r s)).2 h.
Proof.
  intros Hs Hw. unfold open_gates. rewrite exec_bind_gets, !exec_bind_modify. cbn [id mret exec_ret snd].
  edestruct (open_ok shared channels (filter (λ x, which x.2.1 = true) (checkpoint_input_gates (t_gates s))) r s h T Hs) as [HG Hok];
    [apply map_filter_subseteq| |split; [exact HG|exact Hok|done|done]].
  intros l b n [Hl Hb]%map_lookup_filter_Some. by apply (Hw l b n).
Qed.

Lemma calm_bind {X Y} (m : exec task X) (f : X → exec task Y) s h T :
  calm T s (m s).2 h → (∀ s1 x, calm T s s1 h → calm T s1 (f x s1).2 h) → calm T s ((m ≫= f) s).2 h.
Proof.
  intros Hm Hf. rewrite exec_bind_state. destruct (m s).1; [|done]. eapply calm_trans; [exact Hm|by apply Hf].
Qed.

Lemma exec_bind_map_state {X Y} (m : exec task X) (f : X → Y) s : ((x ← m; mret (f x)) s).2 = (m s).2.
Proof. rewrite exec_bind_state. by destruct (m s).1. Qed.

Lemma calm_ret {X} (x : X) s h T : task_ok s h → calm T s ((mret x : exec task X) s).2 h.
Proof. apply calm_refl. Qed.

(** The pump gives up the epochs that a bound selects. *)
Lemma calm_give_up {X} (x : X) b s h T :
  task_ok s h → b <= last_aligned s → (∀ b', current s = Some b' → b' <= b) →
  calm T s ((_ ← release_checkpoint_inputs; mret x) (set_pump_last (λ y, Z.max y b) s)).2 h.
Proof.
  intros Hs Hl Hc. pose proof (calm_raise b s h T Hs Hl) as Hr. eapply calm_trans; [exact Hr|].
  apply calm_bind; [|intros s1 y Hs1; apply calm_ret, (calm_ok _ _ _ _ Hs1)].
  apply calm_release; [by apply (calm_ok _ _ _ _ Hr)|]. intros b' Hb'. specialize (Hc b' Hb'). cbn. lia.
Qed.

Lemma calm_pump_discard b s h T : task_ok s h → given_up_at b s → calm T s (pump_discard_checkpoint b s).2 h.
Proof.
  intros Hs [Hl Hr]. unfold pump_discard_checkpoint. rewrite exec_bind_modify, exec_bind_gets. cbn [id].
  case_bool_decide as Hb; [|by apply calm_raise]. apply calm_give_up; [done|done|]. intros b' E. change (current s = Some b) in Hb.
  rewrite Hb in E. injection E as <-. done.
Qed.

Lemma calm_pump_reset b s h T : task_ok s h → given_up_at b s → calm T s (pump_reset_inflight_before b s).2 h.
Proof.
  intros Hs [Hl Hr]. unfold pump_reset_inflight_before. rewrite exec_bind_modify, exec_bind_gets. cbn [id].
  change (checkpoint_barrier_id (t_pump (set_pump_last (λ x, Z.max x b) s))) with (current s).
  destruct (current s) as [b'|] eqn:E; [|by apply calm_raise]. destruct (Z.ltb_spec b b') as [|Hb]; [by apply calm_raise|].
  apply calm_give_up; [done|done|]. intros b0. rewrite E. intros [= <-]. done.
Qed.

Lemma calm_open_gates b s h T :
  task_ok s h → (shared b = false → b <= resolved s) → calm T s (release_checkpoint_input_gates b s).2 h.
Proof.
  intros Hs Hr. unfold release_checkpoint_input_gates. rewrite exec_bind_modify. apply calm_open; [done|].
  intros l b' n _ ->%Z.eqb_eq. split; [lia|done].
Qed.

(** The aligner gives up, in the executor's thread. *)
Lemma tri_aligning b (m : al Z) :
  (∀ heard a, aligner_ok channels heard a → given_up channels heard b a (m a).2) →
  tri anything (in_executor (sync (aligning m))) (λ r, match r with Ok _ => λ _ s _, given_up_at b s | Err _ => anything end).
Proof.
  intros Hm. apply tri_executor; [done|done| | |done].
  - intros [r|x] T T' s s' h _ Hv; [|done]. intros Hg. apply (given_up_grows b s); [|done].
    by destruct (same_data_kept shared s s' (sv_data _ _ Hv)) as (? & _).
  - apply triple_sync. intros T s h Hs _. pose proof (Hm _ _ (ok_aligner _ _ _ _ Hs)) as Hg. unfold aligning.
    destruct (m (t_aligner s)) as [r a]. cbn [fst snd] in *. destruct (given_up_ok shared channels b a s h T Hs Hg) as [HG Hok].
    destruct Hg as (_ & _ & ? & ? & _). split_and!; [done|done|]. destruct r; [|done]. by split.
Qed.

Lemma good_calm {X Y} (p : co Y) b (m : Y → exec task X) :
  tri anything p (λ r, match r with Ok _ => λ _ s _, given_up_at b s | Err _ => anything end) →
  (∀ y s h T, task_ok s h → given_up_at b s → calm T s (m y s).2 h) → good (y ← p; sync (m y)).
Proof.
  intros Hp Hm. eapply tri_bind; [exact Hp|intros y|done]. apply triple_sync. intros T s h Hs Hg.
  destruct (Hm y s h T Hs Hg). done.
Qed.

Lemma good_abort b : good (abort_checkpoint (C := C) b).
Proof.
  unfold abort_checkpoint. eapply good_calm; [apply tri_aligning; intros; by apply discard_ok|]. intros removed s h T Hs Hg.
  apply calm_bind; [by apply calm_pump_discard|]. intros s1 n Hs1. apply calm_bind; [|intros s2 m Hs2; apply calm_ret, (calm_ok _ _ _ _ Hs2)].
  apply calm_open_gates; [apply (calm_ok _ _ _ _ Hs1)|]. intros _. by apply (given_up_grows b s s1 (calm_grows _ _ _ _ Hs1)).
Qed.

Lemma good_reset b : good (task_reset_inflight_before (C := C) b).
Proof.
  unfold task_reset_inflight_before. eapply good_calm; [apply tri_aligning; intros; by apply reset_ok|]. intros removed s h T Hs Hg.
  apply calm_bind; [by apply calm_pump_reset|]. intros s1 n Hs1. rewrite exec_bind_modify.
  assert (Hg1 : given_up_at b s1) by by apply (given_up_grows b s s1 (calm_grows _ _ _ _ Hs1)).
  rewrite exec_bind_map_state. apply calm_open; [apply (calm_ok _ _ _ _ Hs1)|].
  intros l b' n' _ Hb%Z.leb_le. destruct Hg1. split; lia.
Qed.

(** ** Callbacks *)

Lemma good_callback : good (sync run_callback).
Proof.
  apply triple_sync. intros T s h Hs _.
  enough (calm T s (run_callback s).2 h) as [? ? _ _] by done.
  unfold run_callback. rewrite exec_bind_gets. cbn [id]. destruct (gate_callbacks (t_gates s)) as [|b rest] eqn:E; [by apply calm_refl|].
  rewrite exec_bind_modify. set (s1 := set_gates _ s).
  assert (Hs1 : calm T s s1 h).
  { split; [|pose proof Hs as [? ? ? ? ? ? Hpk Hcb ? ? ? ? ?]; split; try done|done|done].
    - apply G_intro; [by split|intros l; right; by split|done|right; by split; auto|done].
    - destruct Hpk. by split.
    - intros b' Hb'. apply Hcb. rewrite E. by right. }
  eapply calm_trans; [exact Hs1|]. rewrite exec_bind_map_state. apply calm_open_gates; [apply (calm_ok _ _ _ _ Hs1)|].
  intros Hsh. apply (ok_callbacks _ _ _ _ Hs); [rewrite E; by left|done].
Qed.
End calls.
