(* ===== verification/InputBatcher.v ===== *)
(** * The input accumulator as the pump's batcher

    The accumulator of [InputBatching] keeps the promises of [BatcherLaws]: with batching
    or without, the logical rows that leave, followed by those it holds, are the rows that
    arrived, up to an equivalence of values that the conversions of the block library
    respect. *)
From S2P Require Import Prelude Rows Blocks InputBatching BarrierAligner TaskInput TaskInvariant.
Open Scope Z_scope.

Section batcher.
Context {V Sender Clock : Type} (none : V) `{!BlockLibrary V, !BlockLibraryLaws V, EqDecision Sender}.

Abbreviation record := (@record V Sender).
Abbreviation input := (@input V Sender Barrier).
Abbreviation Accumulator := (@Accumulator V Sender Clock).
Abbreviation lrow := (@lrow V).

Context (batch_format : option string) (retained_size : record → Z) (timed_out_after : Clock → Clock → bool)
  (readings : nat → Clock * Clock * Clock).

Implicit Types (r x : record) (rs : list record) (a : Accumulator).

(** ** Without batching *)

Lemma logical_lookup r i l :
  logical r !! i = Some l → block_rows (r_block r) !! i = Some (lr_values l) ∧ kinds_of r !! i = Some (lr_kind l) ∧
    timestamps_of r !! i = Some (lr_timestamp l) ∧ lr_tag l = r_input_tag r.
Proof.
  unfold logical, logical_rows. intros ([row k] & t & -> & Hp & Ht)%lookup_zip_with_Some.
  apply lookup_zip_with_Some in Hp as (row' & k' & [= <- <-] & Hrow & Hk). done.
Qed.

Lemma unbatched_row_ok r i x l :
  record_ok r → is_columnar r = true → logical r !! i = Some l → unbatched_row r i = Ok x → logical x = [l].
Proof.
  intros Hr Hcol (Hrow & Hk & Ht & Htag)%logical_lookup Hx. unfold unbatched_row in Hx.
  assert (row_block r i = Ok (BRow (mkRow (lr_values l) (lr_kind l))) ∨ ∃ e, row_block r i = Err e) as [E|[e E]]; [| |by rewrite E in Hx].
  { unfold row_block. rewrite Hrow. cbn [of_option]. rewrite bind_Ok. unfold kinds_of in Hk. destruct (r_row_kinds r) as [kinds|].
    - cbn in Hk. destruct (record_rows r); [rewrite bind_Ok|right; by eexists]. destruct (negb _); [right; by eexists|left].
      rewrite Hk. cbn [of_option]. rewrite bind_Ok. by destruct (lr_kind l).
    - left. apply lookup_replicate in Hk as [-> _]. unfold block_kind, is_columnar in *. destruct Hr as [Hb _].
      destruct (r_block r); [done| |done]. by rewrite Hb in Hcol. }
  rewrite E, bind_Ok, inherit_self in Hx. unfold timestamps_of in Ht. destruct l as [values kind t tag]. cbn in *. subst tag.
  destruct (r_row_timestamps r) as [ts|].
  - cbn in Ht. rewrite Ht in Hx. cbn in Hx. injection Hx as <-. done.
  - apply lookup_replicate in Ht as [-> _]. injection Hx as <-. done.
Qed.

Lemma unbatched_ok r rs : record_ok r → unbatched r = Ok rs → mjoin (logical <$> rs) = logical r.
Proof.
  intros Hr. unfold unbatched. destruct (is_columnar r) eqn:Hcol; cbn [negb]; [|intros [= <-]; cbn; by rewrite app_nil_r].
  rewrite (proj1 (record_rows_ok _ Hr)), bind_Ok. destruct (validate_row_timestamps r); [rewrite bind_Ok|done].
  intros Hrs%mapM_outcome_Ok. rewrite <-(length_logical r) in Hrs by apply Hr. rewrite <-(drop_0 (logical r)).
  assert (Hlen : (0 + length (logical r))%nat = length (logical r)) by done.
  revert Hrs Hlen. generalize (length (logical r)) at 1 2. generalize 0%nat. intros start n. revert start rs.
  induction n as [|n IH]; intros start rs Hrs Hlen; inversion Hrs; subst.
  - rewrite drop_ge by lia. done.
  - destruct (lookup_lt_is_Some_2 (logical r) start) as [l Hl]; [lia|]. rewrite (drop_S _ _ _ Hl). cbn.
    erewrite unbatched_row_ok by done. cbn. f_equal. apply IH; [done|lia].
Qed.

(** ** Rows up to the conversions *)

(** Values the conversions do not tell apart, for the columns that flow here. *)
Context (same : V → V → Prop) `{!Equivalence same}
  (Hkeeps : ∀ vs vs', column_converted (accumulator_format batch_format) vs vs' → Forall2 same vs' vs).

(** Rows that agree on every column, a missing one counting as [None]. *)
Definition row_sim (x y : gmap string V) : Prop := ∀ c, same (default none (x !! c)) (default none (y !! c)).

Definition lrow_sim (x y : lrow) : Prop := row_sim (lr_values x) (lr_values y) ∧ same_metadata x y.

#[export] Instance lrow_sim_equiv : Equivalence lrow_sim.
Proof.
  split.
  - intros x. split; [intros c; reflexivity|done].
  - intros x y (Hr & ? & ? & ?). split; [|done]. intros c. symmetry. apply Hr.
  - intros x y z (Hr1 & ? & ? & ?) (Hr2 & ? & ? & ?).
    split; [intros c; etrans; [apply Hr1|apply Hr2]|split_and!; congruence].
Qed.

Lemma lrow_sim_refl l : Forall2 lrow_sim l l.
Proof. apply Reflexive_instance_0. apply _. Qed.

Lemma batch_of_sim r ls : batch_of none batch_format r ls → Forall2 lrow_sim (logical r) ls.
Proof.
  intros [Hm Hcols]. apply Forall2_same_length_lookup_2; [by eapply Forall2_length|]. intros i x y Hx Hy.
  split; [|by eapply (Forall2_lookup_lr _ _ _ _ _ _ Hm)].
  intros c. specialize (Hcols c). apply Hkeeps in Hcols.
  eapply (Forall2_lookup_lr _ _ _ i _ _ Hcols); unfold lcolumn, column_values; by rewrite !list_lookup_fmap, ?Hx, ?Hy.
Qed.

Lemma batches_sim rs (parts : list (list lrow)) :
  Forall2 (batch_of none batch_format) rs parts → Forall2 lrow_sim (mjoin (logical <$> rs)) (mjoin parts).
Proof.
  induction 1 as [|r ls rs parts Hr _ IH]; [constructor|]. rewrite fmap_cons.
  change (Forall2 lrow_sim (logical r ++ mjoin (logical <$> rs)) (ls ++ mjoin parts)).
  apply Forall2_app; [by apply batch_of_sim|done].
Qed.

(** ** The instance *)

Definition element (i : input) : record + Barrier := match i with Data r => inl r | InControl b => inr b end.

Definition arriving (i : { r : record | record_ok r } + Barrier) : input :=
  match i with inl r => Data (`r) | inr b => InControl b end.

Definition accept_item (n : nat) i a : outcome (list (record + Barrier) * Accumulator) :=
  let '(start, timeout, drain) := readings n in
  match accept none batch_format retained_size timed_out_after start timeout drain (arriving i) a with
  | Ok (out, a') => Ok (map element out, a')
  | Err e => Err e
  end.

Definition flush_items (force : bool) (n : nat) a : outcome (list record * Accumulator) :=
  let '(_, timeout, drain) := readings n in flush none batch_format retained_size timed_out_after force timeout drain a.

(** The records that arrive are well formed. *)
#[export] Instance accumulator_batcher : Batcher { r : record | record_ok r } record Accumulator := {|
  batcher_accept := accept_item;
  batcher_flush := flush_items;
  batcher_bytes := ac_buffered_bytes
|}.

Definition buffer_ok (a : Accumulator) : Prop :=
  accumulator_ok a ∧ (ac_batch_enabled a = true → (ac_buffered_rows a < ac_batch_size a)%nat) ∧
  (ac_batch_enabled a = false → ac_records a = []).

(** An output without controls. *)
Lemma covers_no_control (out : list input) (l : list lrow) a :
  covers none batch_format out (inl <$> l) a →
  ∃ rs parts, out = map Data rs ∧ Forall2 (batch_of none batch_format) rs parts ∧ mjoin parts ++ buffer_logical (ac_records a) = l.
Proof.
  intros (parts & Hp & E). revert l E. induction Hp as [|i part out parts Hi _ IH]; intros l E.
  { exists [], []. split_and!; [done|constructor|]. by apply (inj (fmap inl)) in E. }
  change ((part ++ mjoin parts) ++ pending a = inl <$> l) in E. rewrite <-app_assoc in E.
  symmetry in E. apply fmap_app_inv in E as (l1 & l2 & E1 & E2 & ->).
  destruct (IH l2) as (rs & parts' & -> & Hrs & El); [done|]. destruct i as [r|c]; cbn in Hi.
  - destruct Hi as (ls & -> & Hr). exists (r :: rs), (ls :: parts'). split_and!; [done|by constructor|].
    apply (inj (fmap inl)) in E1 as ->. rewrite <-El. symmetry. exact (app_assoc _ _ _).
  - subst part. by destruct l1.
Qed.

Lemma element_data rs : map element (map Data rs) = inl <$> rs.
Proof. induction rs as [|r rs IH]; [done|]. cbn. f_equal. exact IH. Qed.

Lemma drained_ok (only_full : bool) now a rs a' :
  buffer_ok a → ac_batch_enabled a = true → drain none batch_format retained_size only_full now a = Ok (rs, a') →
  buffer_ok a' ∧ Forall2 lrow_sim (mjoin (logical <$> rs) ++ buffer_logical (ac_records a')) (buffer_logical (ac_records a)) ∧
  (only_full = false → ac_records a' = []).
Proof.
  intros (Hok & _ & _) He Hd. pose proof (drain_spec none batch_format retained_size only_full now a Hok) as H.
  rewrite Hd in H. pose proof H as (Hok' & [Hset _] & (parts & Hparts & <-) & _ & Hend).
  pose proof Hok' as (_ & _ & _ & Hsize). split_and!.
  - split_and!; [done| |congruence]. intros _. destruct only_full; lia.
  - apply Forall2_app; [by apply batches_sim|apply lrow_sim_refl].
  - intros ->. by eapply drained_empty.
Qed.

Lemma flush_ok (force : bool) t1 t2 a rs a' :
  buffer_ok a → flush none batch_format retained_size timed_out_after force t1 t2 a = Ok (rs, a') →
  buffer_ok a' ∧ Forall2 lrow_sim (mjoin (logical <$> rs) ++ buffer_logical (ac_records a')) (buffer_logical (ac_records a)) ∧
  (force = true → ac_records a' = []).
Proof.
  intros Ha. unfold flush. destruct (negb (ac_batch_enabled a) || (ac_buffered_rows a =? 0)%nat) eqn:E.
  { intros [= <- <-]. split_and!; [done|apply lrow_sim_refl|]. intros _. destruct Ha as ((Hbuf & Hrows & _) & _ & Hoff).
    apply orb_true_iff in E as [E%negb_true_iff|E%Nat.eqb_eq]; [by apply Hoff|].
    destruct (ac_records a) as [|[r z] l]; [done|]. destruct (Hbuf (r, z)) as [_ Hpos]; [by left|]. cbn in Hpos.
    rewrite buffer_rows_cons in Hrows. lia. }
  apply orb_false_iff in E as [E%negb_false_iff _]. destruct (_ && _ && _) eqn:Ew.
  { intros [= <- <-]. split_and!; [done|apply lrow_sim_refl|]. intros ->. done. }
  intros (H1 & H2 & H3)%drained_ok; [|done|done]. split_and!; [done|done|]. intros ->. by apply H3.
Qed.

Lemma accept_data_ok n (r : { r : record | record_ok r }) (out : list (record + Barrier)) a a' :
  buffer_ok a → accept_item n (inl r) a = Ok (out, a') →
  buffer_ok a' ∧ ∃ rs, out = inl <$> rs ∧
    Forall2 lrow_sim (mjoin (logical <$> rs) ++ buffer_logical (ac_records a')) (buffer_logical (ac_records a) ++ logical (`r)).
Proof.
  destruct r as [r Hr]. intros Ha. unfold accept_item. destruct (readings n) as [[t1 t2] t3]. cbn [arriving proj1_sig].
  destruct (ac_batch_enabled a) eqn:He.
  - destruct Ha as (Hok & Hlt & Hoff).
    pose proof (accept_settles none batch_format retained_size timed_out_after t1 t2 t3 (Data (Control := Barrier) r) a Hok He
      ltac:(by intros r0 [= <-]) (Hlt He)) as Ha.
    destruct (accept none batch_format retained_size timed_out_after t1 t2 t3 _ a) as [[out' a0]|e]; [|done].
    destruct Ha as [[Hok' [Hset _] Hc _] Hlt']. intros [= <- <-].
    split; [split_and!; [done|done|congruence]|].
    assert (pending a ++ stream (Control := Barrier) [Data r] = inl <$> (buffer_logical (ac_records a) ++ logical r)) as Es
      by (unfold stream, pending; cbn; by rewrite app_nil_r, fmap_app).
    rewrite Es in Hc. apply covers_no_control in Hc as (rs & parts & -> & Hrs & <-). exists rs.
    split; [apply element_data|]. apply Forall2_app; [by apply batches_sim|apply lrow_sim_refl].
  - unfold accept. rewrite He. cbn [negb]. destruct (unbatched r) as [rs|] eqn:Eu; [|done]. cbn. intros [= <- <-].
    split; [done|]. exists rs. split; [apply element_data|]. rewrite (unbatched_ok r rs Hr Eu). destruct Ha as (_ & _ & Hoff).
    rewrite (Hoff He). cbn. rewrite app_nil_r. apply lrow_sim_refl.
Qed.

Lemma accept_barrier_ok n b (out : list (record + Barrier)) a a' :
  buffer_ok a → accept_item n (inr b) a = Ok (out, a') →
  buffer_ok a' ∧ buffer_logical (ac_records a') = [] ∧ ∃ rs, out = (inl <$> rs) ++ [inr b] ∧
    Forall2 lrow_sim (mjoin (logical <$> rs)) (buffer_logical (ac_records a)).
Proof.
  intros Ha. unfold accept_item. destruct (readings n) as [[t1 t2] t3]. cbn [arriving]. unfold accept.
  destruct (ac_batch_enabled a) eqn:He; cbn [negb].
  - destruct (flush _ _ _ _ true t2 t3 a) as [[rs a0]|] eqn:Ef; [|done]. cbn. intros [= <- <-].
    destruct (flush_ok true t2 t3 a rs a0 Ha Ef) as (Ha0 & Hsim & Hempty). rewrite (Hempty eq_refl) in *. split_and!; [done|done|].
    exists rs. rewrite map_app, element_data. split; [done|]. cbn in Hsim. by rewrite app_nil_r in Hsim.
  - cbn. intros [= <- <-]. pose proof Ha as (_ & _ & Hoff). rewrite (Hoff He). split_and!; [done|done|]. exists []. by split.
Qed.

(** The accumulator keeps its promises to the pump. *)
#[export] Program Instance accumulator_laws : BatcherLaws { r : record | record_ok r } record Accumulator lrow := {|
  rows_in y := logical (`y);
  rows_out := logical;
  contents a := buffer_logical (ac_records a);
  TaskInvariant.row_sim := lrow_sim;
  batcher_ok := buffer_ok
|}.
Next Obligation. intros n y a out a'. apply accept_data_ok. Qed.
Next Obligation. intros n b a out a'. apply accept_barrier_ok. Qed.
Next Obligation.
  intros force n a bs a' Ha. cbn. unfold flush_items. destruct (readings n) as [[t1 t2] t3]. intros (H1 & H2 & _)%flush_ok; done.
Qed.
End batcher.
