(* ===== verification/AlignedCut.v ===== *)
(** * The consistent cut of a task

    The pump of [TaskInput] against the logic of [Coroutines]: what it passes to the
    operator are the rows of the envelopes it took, and it registers a checkpoint only
    when the barriers the aligner heard cut every input lane.  With the calls of
    [TaskCalls], adequacy gives the cut for every checkpoint a task registers, however
    senders, aborts, callbacks and the pump interleave. *)
From stdpp Require Import gmultiset.
From S2P Require Import Prelude Effects Coroutines Checkpoints Delivery WeightedQueue Rows Blocks InputBatching BarrierAligner TaskInput TaskInvariant TaskSteps TaskCalls InputBatcher.
Open Scope Z_scope.

Section pump.
Context {R RO K A C Row : Type} `{!Batcher R RO A, !BatcherLaws R RO A Row}
  (shared : Z → bool) (channels : gset channel).
Context (estimate_retained_size : payload (R := R) (K := K) → Z) (cfg : task_config).

Abbreviation task := (task (R := R) (RO := RO) (K := K) (A := A)).
Abbreviation envelope := (InboxEnvelope (R := R) (K := K)).
Abbreviation call := (op_call (RO := RO) (K := K)).
Abbreviation question := (question (RO := RO) (K := K) (C := C)).
Abbreviation answer := (answer (RO := RO) (K := K) (C := C)).
Abbreviation meth := (method (R := R) (K := K)).
Abbreviation ev := (event answer (reply (R := R) (K := K))).
Abbreviation hist := (list ev).
Abbreviation co := (coro task answer).
Abbreviation task_ok := (task_ok (C := C) shared channels).
Abbreviation G := (G shared).
Abbreviation Rely := (Rely shared).
Abbreviation stepping := (stepping (C := C) shared channels).
Abbreviation assertion := (gset nat → task → hist → Prop).
Abbreviation tri := (triple (M := meth) task_ok taken G Rely).
Abbreviation stable := (stable (M := meth) (rep := reply (R := R) (K := K)) (ans := answer) task_ok Rely).
Abbreviation insensitive := (insensitive (C := C)).
Abbreviation anything := (anything (R := R) (RO := RO) (K := K) (A := A) (C := C)).
Implicit Types (s : task) (e : envelope) (h : hist) (l : lane) (b : Z) (T : gset nat) (Φ : assertion) (F : task → Prop) (x : Barrier).

(** ** What the pump may count on *)

Definition pumping F : assertion := λ T s _, holds_pump T s ∧ F s.

Definition pump_fact F : Prop := ∀ s s', grows shared s s' → pump_kept s s' → F s → F s'.

(** It ends in [F], or raises. *)
Definition ends {X} (F : X → task → Prop) (r : outcome X) : assertion :=
  match r with Ok y => pumping (F y) | Err _ => anything end.

Lemma holds_pump_kept T T' s s' : T ⊆ T' → pump_holder (t_run s') = pump_holder (t_run s) → holds_pump T s → holds_pump T' s'.
Proof. intros HT E (n & Hn & Hin). exists n. rewrite E. auto. Qed.

Lemma pumping_stable F : pump_fact F → stable (pumping F).
Proof.
  intros HF T s s' h h' (Hg & _ & Hp) _ _ [Hh HP]. destruct (Hp Hh) as [E Hk]. split; [|by eapply HF].
  eapply holds_pump_kept; [reflexivity|exact E|exact Hh].
Qed.

Lemma pump_fact_view F s s' : pump_fact F → same_view s s' → F s → F s'.
Proof. intros HF Hv. destruct (same_data_kept shared s s' (sv_data _ _ Hv)) as (? & _ & ?). by apply HF. Qed.

Lemma pumping_insensitive F : pump_fact F → insensitive (pumping F).
Proof.
  intros HF T T' s s' h HT Hv [Hh HP]. split; [|by eapply pump_fact_view].
  eapply holds_pump_kept; [exact HT|apply (sv_holder _ _ Hv)|exact Hh].
Qed.

Lemma ends_insensitive {X} (F : X → task → Prop) r : (∀ y, pump_fact (F y)) → insensitive (ends F r).
Proof. intros HF. destruct r as [y|]; [by apply pumping_insensitive|done]. Qed.

Lemma kept_and F F' : pump_fact F → pump_fact F' → pump_fact (λ s, F s ∧ F' s).
Proof. intros HF HF' s s' Hg Hk [? ?]. split; [by eapply HF|by eapply HF']. Qed.
Lemma kept_pure (P : Prop) : pump_fact (λ _, P).
Proof. by intros s s' _ _. Qed.
Lemma kept_imp (P : Prop) F : pump_fact F → pump_fact (λ s, P → F s).
Proof. intros HF s s' Hg Hk H1 H2. eapply HF; eauto. Qed.
Lemma kept_ex {Y} (F : Y → task → Prop) : (∀ y, pump_fact (F y)) → pump_fact (λ s, ∃ y, F y s).
Proof. intros HF s s' Hg Hk [y Hy]. exists y. by eapply HF. Qed.

Lemma kept_flow out pending : pump_fact (flow out pending).
Proof.
  intros s s' _ Hk [Hok Hs]. unfold flow. rewrite (pp_batches _ _ Hk), (pp_calls _ _ Hk), (pp_dequeued _ _ Hk). by split.
Qed.

Lemma kept_empty : pump_fact (λ s, contents (t_batches s) = []).
Proof. intros s s' _ Hk. by rewrite (pp_batches _ _ Hk). Qed.

Lemma kept_calls cs : pump_fact (λ s, t_calls s = cs).
Proof. intros s s' _ Hk. by rewrite (pp_calls _ _ Hk). Qed.

Lemma kept_dequeued e : pump_fact (λ s, e ∈ dequeued s).
Proof. intros s s' _ Hk. by rewrite (pp_dequeued _ _ Hk). Qed.

Lemma kept_aligned b : pump_fact (λ s, b <= last_aligned s).
Proof. intros s s' Hg _ Hb. pose proof (gr_last _ _ _ Hg). lia. Qed.

Lemma kept_done b : pump_fact (done_with shared b).
Proof. intros s s' Hg _. pose proof (gr_last _ _ _ Hg). pose proof (gr_resolved _ _ _ Hg). unfold done_with. case_match; lia. Qed.

Lemma kept_resumes l : pump_fact (λ s, checkpoint_input_resumes (t_pump s) !! l = None).
Proof. intros s s' _ Hk. rewrite !eq_None_not_Some. intros Hn Hs. by apply Hn, (pp_resumes _ _ Hk). Qed.

Lemma kept_unheard e : pump_fact (unheard e).
Proof.
  intros s s' Hg Hk Hu l b Hb. pose proof (gr_last _ _ _ Hg). destruct (Hu l b Hb) as [?|Hl]; [left; lia|].
  destruct (pp_epoch _ _ Hk b) as [?|E]; [by left|right; by rewrite E].
Qed.

Lemma kept_finishing b : pump_fact (finishing channels b).
Proof.
  intros s s' Hg Hk [Hb|[Hc Hs]]; pose proof (gr_last _ _ _ Hg); [left; lia|].
  destruct (pp_current _ _ Hk b Hc) as [?|[Hc' E]]; [by left|right]. split; [done|]. by rewrite E.
Qed.

Lemma kept_agree_at b s s' :
  grows shared s s' → pump_kept s s' → (current s = Some b → b <= last_aligned s ∨ seen s = epoch_lanes b (t_aligner s)) →
  current s' = Some b → b <= last_aligned s' ∨ seen s' = epoch_lanes b (t_aligner s').
Proof.
  intros Hg Hk Hs Hc'. pose proof (gr_last _ _ _ Hg). destruct (pp_new _ _ Hk b Hc') as [?|[Hc|[E1 E2]]]; [by left| |right; congruence].
  destruct (pp_current _ _ Hk b Hc) as [?|[_ E]]; [by left|]. destruct (pp_epoch _ _ Hk b) as [?|Ep]; [by left|].
  destruct (Hs Hc) as [?|Es]; [left; lia|right; congruence].
Qed.

Lemma kept_agree m : pump_fact (agree m).
Proof.
  intros s s' Hg Hk. destruct m as [[l b0]|].
  - intros [H0 Hb]. split; [|intros b Hne; apply (kept_agree_at b s s' Hg Hk); by apply Hb]. pose proof (gr_last _ _ _ Hg).
    destruct H0 as [?|(Hc & Hl & E)]; [left; lia|]. destruct (pp_current _ _ Hk b0 Hc) as [?|[Hc' E']]; [by left|].
    destruct (pp_epoch _ _ Hk b0) as [?|Ep]; [by left|right]. rewrite Ep, E', E. done.
  - intros Hb b. apply (kept_agree_at b s s' Hg Hk), Hb.
Qed.

Lemma kept_cut x : pump_fact (λ s, cut_lanes channels x (dequeued s) (admitted s)).
Proof.
  intros s s' Hg Hk Hc. rewrite (pp_dequeued _ _ Hk). eapply cut_lanes_mono; [apply (gr_admitted _ _ _ Hg)|done].
Qed.

(** ** Rules of the pump *)

Lemma pump_bind {X Y} Φ (p : co X) (f : X → co Y) (F : X → task → Prop) Ψ :
  tri Φ p (ends F) → (∀ y, tri (pumping (F y)) (f y) Ψ) → (∀ (err : exn) T s h, anything T s h → Ψ (Err err) T s h) → tri Φ (p ≫= f) Ψ.
Proof. intros Hp Hf He. eapply tri_bind; [exact Hp|exact Hf|exact He]. Qed.

Lemma pump_ret {X} (y : X) F (F' : X → task → Prop) : (∀ s, F s → F' y s) → tri (pumping F) (mret y) (ends F').
Proof. intros HF. apply co_triple_ret. intros T s h _ [? ?]. split; [done|auto]. Qed.

Lemma pump_raises {X} (err : exn) Φ (F : X → task → Prop) : tri Φ (raises err) (ends F).
Proof. by apply triple_raises. Qed.

Lemma pump_ask (q : question) F : registers q = None → pump_fact F → tri (pumping F) (await q) (ends (λ _, F)).
Proof.
  intros Hq HF. eapply tri_mono; [apply (run_ask _ _ (pumping F) q Hq); [by apply pumping_stable|done]|done|].
  by intros [y|err] T s h HP.
Qed.

Lemma pump_unseen {X} (m : exec task X) F : unseen m → pump_fact F → tri (pumping F) (sync m) (ends (λ _, F)).
Proof.
  intros Hm HF. eapply tri_mono; [apply (tri_unseen shared channels (pumping F) m Hm); by apply pumping_insensitive|done|].
  by intros [y|err] T s h HP.
Qed.

Lemma pump_executor {X} (p : co X) F (F' : X → task → Prop) :
  pump_fact F → (∀ y, pump_fact (F' y)) → tri (pumping F) p (ends F') → tri (pumping F) (in_executor p) (ends F').
Proof.
  intros HF HF' Hp. apply tri_executor; [by apply pumping_stable|by apply pumping_insensitive| |done|done].
  intros r. by apply ends_insensitive.
Qed.

Lemma pump_step {X} (m : exec task X) F (F' : X → task → Prop) :
  (∀ s h T, task_ok s h → holds_pump T s → F s →
     G T s (m s).2 ∧ task_ok (m s).2 h ∧ pump_holder (t_run (m s).2) = pump_holder (t_run s) ∧
     match (m s).1 with Ok y => F' y (m s).2 | Err _ => True end) →
  tri (pumping F) (sync m) (ends F').
Proof.
  intros Hm. apply triple_sync. intros T s h Hs [HT HF]. destruct (Hm s h T Hs HT HF) as (HG & Hok & E & HF'). split_and!; [done|done|].
  destruct (m s).1; [|done]. split; [|done]. eapply holds_pump_kept; [|exact E|exact HT]. apply union_subseteq_l.
Qed.

(** ** Rows on their way to the operator *)

Lemma flow_call c out pending s : flow (call_rows c ++ out) pending s → flow out pending (add_call c s).
Proof.
  intros [Hok Hs]. split; [done|]. change (t_calls (add_call c s)) with (t_calls s ++ [c]). rewrite calls_rows_app.
  assert (calls_rows [c] = call_rows c) as -> by (unfold calls_rows; cbn; by rewrite app_nil_r). by rewrite <-!app_assoc in *.
Qed.

(** Facts no call of the operator changes. *)
Definition passive F : Prop := pump_fact F ∧ ∀ s c, F s → F (add_call c s).

Definition flowing out pending F : task → Prop := λ s, flow out pending s ∧ F s.

Lemma kept_flowing out pending F : passive F → pump_fact (flowing out pending F).
Proof. intros [HF _]. by apply kept_and; [apply kept_flow|]. Qed.

Lemma pump_operate c out pending F :
  passive F → tri (pumping (flowing (call_rows c ++ out) pending F)) (operate c) (ends (λ _, flowing out pending F)).
Proof.
  intros HF. unfold operate. apply (pump_bind _ _ _ (λ _, flowing out pending F)); [|intros []|done].
  - apply pump_step. intros s h T Hs HT [Hf Hx]. destruct (add_call_ok shared channels c s h T Hs HT) as [HG Hok].
    split_and!; [done|done|done|]. split; [by apply flow_call|]. by apply HF.
  - apply pump_ask; [done|by apply kept_flowing].
Qed.

Lemma pump_operate_quiet c out pending F :
  call_rows c = [] → passive F → tri (pumping (flowing out pending F)) (operate c) (ends (λ _, flowing out pending F)).
Proof. intros Hc HF. pose proof (pump_operate c out pending F HF) as Hp. by rewrite Hc in Hp. Qed.

(** The batches of a list go to the operator, then the rest. *)
Lemma pump_batches v dc bs rest out pending F (F' : unit → task → Prop) :
  passive F → tri (pumping (flowing out pending F)) (co_each (data_handler cfg v dc) rest) (ends F') →
  tri (pumping (flowing (mjoin (rows_out <$> bs) ++ out) pending F)) (co_each (data_handler cfg v dc) ((inl <$> bs) ++ rest)) (ends F').
Proof.
  intros HF Hrest. induction bs as [|r bs IH]; [exact Hrest|].
  assert (Hop : tri (pumping (flowing (mjoin (rows_out <$> r :: bs) ++ out) pending F)) (operate (Process r)) (ends (λ _, flowing (mjoin (rows_out <$> bs) ++ out) pending F))).
  { cbn. rewrite <-app_assoc. apply (pump_operate (Process r)), HF. }
  apply (pump_bind _ _ _ _ _ Hop); [intros []; exact IH|done].
Qed.

Lemma pump_process bs out pending F :
  passive F → tri (pumping (flowing (mjoin (rows_out <$> bs) ++ out) pending F)) (co_each (λ r, operate (Process r)) bs) (ends (λ _, flowing out pending F)).
Proof.
  intros HF. induction bs as [|r bs IH]; [by apply pump_ret|].
  assert (Hop : tri (pumping (flowing (mjoin (rows_out <$> r :: bs) ++ out) pending F)) (operate (Process r)) (ends (λ _, flowing (mjoin (rows_out <$> bs) ++ out) pending F))).
  { cbn. rewrite <-app_assoc. apply (pump_operate (Process r)), HF. }
  apply (pump_bind _ _ _ _ _ Hop); [intros []; exact IH|done].
Qed.

(** A call of the accumulator. *)
Lemma pump_batching {X} (m : nat → A → outcome (X * A)) F (F' : X → task → Prop) :
  pump_fact F → (∀ n s y a, F s → m n (t_batches s) = Ok (y, a) → F' y (set_batches a s)) →
  tri (pumping F) (sync (batching m)) (ends F').
Proof.
  intros HF Hm. apply pump_step. intros s h T Hs HT Hx. unfold batching.
  assert (Hv : same_view s (read_clock s).2) by apply unseen_read_clock. set (s1 := (read_clock s).2) in *.
  assert (Hx1 : F s1) by by eapply pump_fact_view. assert (Hs1 : task_ok s1 h) by by eapply same_view_ok.
  rewrite (exec_bind_Ok _ _ _ (clock_reads (t_run s)) s1) by done. rewrite exec_bind_gets, exec_bind_of_outcome.
  destruct (m (clock_reads (t_run s)) (t_batches s1)) as [[y a]|err] eqn:Em.
  - rewrite exec_bind_modify. cbn [mret exec_ret fst snd].
    assert (HT1 : holds_pump T s1) by (eapply holds_pump_kept; [reflexivity|apply (sv_holder _ _ Hv)|done]).
    destruct (set_batches_ok shared channels a s1 h T Hs1 HT1) as [HG Hok].
    assert (calm shared channels T s (set_batches a s1) h) as [HG' _ _ _].
    { eapply calm_trans; [|split; [exact HG|exact Hok|done|done]]. split; [by apply same_view_G|done|done|done]. }
    split_and!; [done|done|done|]. by eapply Hm.
  - split_and!; [by apply same_view_G|done|done|done].
Qed.

(** Facts the accumulator does not change either. *)
Definition batched F : Prop := passive F ∧ ∀ s a, F s → F (set_batches a s).

Lemma pump_flush force F :
  batched F → tri (pumping (flowing [] [] F)) (flush_input force) (ends (λ _, flowing [] [] F)).
Proof.
  intros [HF Hb]. unfold flush_input.
  apply (pump_bind _ _ _ (λ bs, flowing (mjoin (rows_out <$> bs) ++ []) [] F)); [|intros bs; by apply pump_process|done].
  apply pump_batching; [by apply kept_flowing|]. intros n s bs a [[Hok Hs] Hx] Hm.
  destruct (flush_rows _ _ _ _ _ Hok Hm) as (Hok' & Hrows). split; [|by apply Hb]. split; [done|].
  cbn. rewrite !app_nil_r in *. etransitivity; [|exact Hs]. by apply Forall2_app; [reflexivity|].
Qed.

(** The records of an envelope. *)
Lemma pump_records v dc records F :
  batched F →
  tri (pumping (flowing [] (mjoin (rows_in <$> records)) F))
    (co_each (λ r, emitted ← sync (batching (λ n, batcher_accept n (inl r))); co_each (data_handler cfg v dc) emitted) records)
    (ends (λ _, flowing [] [] F)).
Proof.
  intros [HF Hb]. induction records as [|r records IH]; [by apply pump_ret|].
  cbn [co_each]. apply (pump_bind _ _ _ (λ _, flowing [] (mjoin (rows_in <$> records)) F)); [|intros []; exact IH|done].
  apply (pump_bind _ _ _ (λ out s, ∃ bs, out = inl <$> bs ∧ flowing (mjoin (rows_out <$> bs) ++ []) (mjoin (rows_in <$> records)) F s)); [|intros out|done].
  - apply pump_batching; [by apply kept_flowing|]. intros n s out a [[Hok Hs] Hx] Hm.
    destruct (accept_record _ _ _ _ _ Hok Hm) as (Hok' & bs & -> & Hrows). exists bs. split; [done|]. split; [|by apply Hb]. split; [done|].
    cbn in *. rewrite app_nil_r, (app_assoc (mjoin (rows_out <$> bs))). etransitivity; [|exact Hs]. apply Forall2_app; [reflexivity|].
    rewrite app_assoc. by apply Forall2_app; [|reflexivity].
  - intros T s h Hs [HT (bs & -> & Hf)]. rewrite <-(app_nil_r (inl <$> bs)).
    apply (pump_batches v dc bs [] [] (mjoin (rows_in <$> records)) F (λ _, flowing [] (mjoin (rows_in <$> records)) F));
      [done|by apply pump_ret|done|by split].
Qed.

(** ** Barriers in the operator's thread *)

(** The pump has seen the barrier, the aligner has not. *)
Definition unaligned e (fin : bool) s : Prop :=
  e ∈ dequeued s ∧ agree (mark e) s ∧
  (fin = true → ∃ x, env_payload e = PBarrier x ∧ b_coordinated x = true ∧ finishing channels (b_id x) s).

(** Both agree, and an epoch the pump takes to be complete is. *)
Definition agreed e (fin : bool) s : Prop :=
  agree None s ∧ (fin = true → ∃ x, env_payload e = PBarrier x ∧ b_id x <= last_aligned s).

Definition cutting x s : Prop :=
  contents (t_batches s) = [] ∧ done_with shared (b_id x) s ∧ cut_lanes channels x (dequeued s) (admitted s).

Lemma batched_unaligned e fin : batched (unaligned e fin).
Proof.
  split; [split|]; [|done..]. apply kept_and; [apply kept_dequeued|]. apply kept_and; [apply kept_agree|].
  apply kept_imp, kept_ex. intros x. apply kept_and; [apply kept_pure|]. apply kept_and; [apply kept_pure|apply kept_finishing].
Qed.

Lemma batched_agreed e fin : batched (agreed e fin).
Proof.
  split; [split|]; [|done..]. apply kept_and; [apply kept_agree|]. apply kept_imp, kept_ex. intros x. apply kept_and; [apply kept_pure|apply kept_aligned].
Qed.

Lemma passive_cutting x : passive (cutting x).
Proof. split; [|done]. apply kept_and; [apply kept_empty|]. apply kept_and; [apply kept_done|apply kept_cut]. Qed.

Lemma passive_and F F' : passive F → passive F' → passive (λ s, F s ∧ F' s).
Proof. intros [H1 H2] [K1 K2]. split; [by apply kept_and|]. intros s c [? ?]. auto. Qed.

Lemma passive_empty F : passive F → passive (λ s, contents (t_batches s) = [] ∧ F s).
Proof. intros HF. apply passive_and; [|done]. split; [apply kept_empty|done]. Qed.

Lemma pump_weaken {X} F F0 (p : co X) Ψ : tri (pumping F0) p Ψ → (∀ s, F s → F0 s) → tri (pumping F) p Ψ.
Proof. intros Hp HF. eapply tri_mono; [exact Hp| |done]. intros T s h _ [? ?]. split; [done|auto]. Qed.

(** Registering a checkpoint. *)
Lemma pump_register (q : question) x calls F :
  registers q = Some (x, calls) → passive F → (∀ s, F s → cutting x s) →
  tri (λ T s h, t_calls s = calls ∧ pumping (flowing [] [] F) T s h) (await q) (ends (λ _, flowing [] [] F)).
Proof.
  intros Hq HF Hc. pose proof (kept_flowing [] [] F HF) as HK. apply triple_await.
  - intros T s s' h h' HR Hh Hs [E HP]. destruct HP as [HT HP].
    destruct (pumping_stable (λ s, t_calls s = calls ∧ flowing [] [] F s) (kept_and _ _ (kept_calls calls) HK) T s s' h h' HR Hh Hs) as [HT' [? ?]].
    { split; [done|]. by split. }
    split; [done|]. by split.
  - intros T s h Hs [E [_ [Hf HP]]]. apply task_ok_snoc; [done|]. intros q' x' calls' [= <-] Hq'. rewrite Hq in Hq'. injection Hq' as <- <-.
    destruct (Hc s HP) as (He & _ & Hcut). exists (dequeued s). split; [|done]. destruct Hf as [_ Hf]. rewrite He, E in Hf. by rewrite app_nil_r in Hf.
  - intros r T s h Hs _ [_ HP]. split; [by apply task_ok_snoc|]. by destruct r.
Qed.

Lemma tri_anything {X} (p : co X) Φ : good shared channels p → tri Φ p (λ _, anything).
Proof. intros Hp. by eapply tri_mono; [exact Hp|..]. Qed.

Lemma pump_prepare x F :
  passive F → (∀ s, F s → cutting x s) → tri (pumping (flowing [] [] F)) (prepare_sink_commit x) (ends (λ _, flowing [] [] F)).
Proof.
  intros HF Hc. pose proof (kept_flowing [] [] F HF) as HK. unfold prepare_sink_commit.
  eapply pump_bind; [by apply (pump_operate_quiet (PrepareCheckpoint (b_id x)))|intros committable|done].
  destruct (committable : option C) as [c|]; [|by apply pump_ret]. apply tri_read. intros s0.
  eapply (tri_bind _ _ _ _ _ (λ r, match r with Ok r => ends (λ _, flowing [] [] F) r | Err _ => anything end)); [|intros registered|done].
  - apply triple_try. eapply tri_mono; [by apply (pump_register (RegisterSinkCommittable x (t_calls s0) c) x (t_calls s0) F)| |done].
    intros T s h _ [-> HP]. by split.
  - destruct registered as [[]|err].
    + by apply pump_ret.
    + apply (pump_bind _ _ _ (λ _, flowing [] [] F)); [by apply pump_ask|intros; apply pump_raises|done].
    + eapply (tri_bind _ _ _ _ _ (λ _, anything)); [apply triple_try, tri_anything; by apply run_ask|intros; apply pump_raises|done].
Qed.

Lemma pump_snapshot x F :
  passive F → (∀ s, F s → cutting x s) → tri (pumping (flowing [] [] F)) (snapshot_operator_state cfg x) (ends (λ _, flowing [] [] F)).
Proof.
  intros HF Hc. unfold snapshot_operator_state. destruct (negb _); [by apply pump_ret|]. apply tri_read. intros s0.
  apply (pump_bind _ _ _ (λ _, flowing [] [] F)); [|intros registered|done].
  - eapply tri_mono; [by apply (pump_register (RegisterOperatorState x (t_calls s0)) x (t_calls s0) F)| |done].
    intros T s h _ [-> HP]. by split.
  - destruct (registered : bool); [by apply pump_ret|apply pump_raises].
Qed.

Lemma pump_gets {X} (f : task → X) F : pump_fact F → tri (pumping F) (sync (gets f)) (ends (λ _, F)).
Proof. intros HF. apply pump_unseen; [apply keeps_gets; apply _|done]. Qed.

Lemma pump_aligned x F :
  passive F → (∀ s, F s → cutting x s) → tri (pumping (flowing [] [] F)) (on_barrier_aligned cfg x) (ends (λ _, flowing [] [] F)).
Proof.
  intros HF Hc. pose proof (kept_flowing [] [] F HF) as HK. unfold on_barrier_aligned.
  apply (pump_bind _ _ _ (λ _, flowing [] [] F)); [by apply (pump_operate_quiet Flush)|intros []|done].
  apply (pump_bind _ _ _ (λ _, flowing [] [] F)); [by apply pump_prepare|intros []|done].
  apply (pump_bind _ _ _ (λ _, flowing [] [] F)); [by apply pump_gets|intros terminal|done].
  apply (pump_bind _ _ _ (λ _, flowing [] [] F)); [|intros []; by apply pump_snapshot|done].
  destruct (terminal : bool); [by apply (pump_operate_quiet Finish)|by apply pump_ret].
Qed.

(** The aligner hears the barrier. *)
Lemma pump_receive e x fin :
  env_payload e = PBarrier x →
  tri (pumping (flowing [] [] (λ s, contents (t_batches s) = [] ∧ unaligned e fin s)))
    (sync (aligning (receive x (Some (env_sender e)) (env_channel e))))
    (ends (λ aligned, flowing [] [] (λ s, agreed e fin s ∧ (aligned = true → cutting x s)))).
Proof.
  intros Ex. apply pump_step. intros s h T Hs HT (Hf & He & Hin & Hag & Hfin).
  assert (Hfin' : fin = true → b_coordinated x = true ∧ finishing channels (b_id x) s).
  { intros Hy. destruct (Hfin Hy) as (y & Ey & ? & ?). rewrite Ex in Ey. by injection Ey as <-. }
  destruct (receive_ok shared channels e x fin Ex T s h Hs) as (HG & Hok & Hr).
  { split_and!; [done|done|done|]. intros Hy. by apply Hfin'. }
  unfold aligning in *. destruct (receive x _ _ (t_aligner s)) as [r a]. cbn [fst snd] in *.
  split_and!; [done|done|done|]. destruct r as [aligned|]; [|done]. destruct Hr as (Ha & Hle & Hcut).
  split; [done|]. split.
  - split; [done|]. intros Hy. exists x. split; [done|]. apply Hle; [done|]. by apply Hfin'.
  - intros Hy. split; [done|]. by apply Hcut.
Qed.

Lemma pump_on_barrier e x fin :
  env_payload e = PBarrier x →
  tri (pumping (flowing [] [] (λ s, contents (t_batches s) = [] ∧ unaligned e fin s)))
    (on_barrier_received cfg x (env_sender e) (env_channel e))
    (ends (λ aligned, flowing [] [] (λ s, agreed e fin s ∧ (aligned = true → cutting x s)))).
Proof.
  intros Ex. unfold on_barrier_received. apply tri_read. intros s0.
  destruct (negb (b_coordinated x) && is_resolved (b_id x) (t_aligner s0)) eqn:Eres.
  { apply andb_prop in Eres as [Hco%negb_true_iff _]. apply co_triple_ret. intros T s h _ [_ [HT (Hf & _ & _ & Hag & Hfin)]].
    split; [done|]. split; [done|]. split; [split|done].
    - unfold mark in Hag. by rewrite Ex, Hco in Hag.
    - intros Hy. destruct (Hfin Hy) as (y & Ey & Hc & _). rewrite Ex in Ey. injection Ey as <-. congruence. }
  eapply tri_mono; [|intros T s h _ [_ HP]; exact HP|intros r T s h HP; exact HP].
  eapply pump_bind; [by apply pump_receive|intros aligned|done].
  destruct aligned; cbn [negb]; [|by apply pump_ret].
  assert (HF : passive (λ s, agreed e fin s ∧ cutting x s)) by (apply passive_and; [apply batched_agreed|apply passive_cutting]).
  apply (pump_weaken _ (flowing [] [] (λ s, agreed e fin s ∧ cutting x s))); [|intros s (? & ? & Hc); split_and!; auto].
  eapply pump_bind; [apply pump_aligned; [done|by intros s [_ ?]]|intros []|done].
  apply (pump_bind _ _ _ (λ _, flowing [] [] (λ s, agreed e fin s ∧ cutting x s))); [|intros []|done].
  - destruct (cfg_is_committer cfg); [|by apply pump_ret]. apply (pump_ask (NotifyAligned (b_id x))); [done|by apply kept_flowing].
  - apply pump_ret. intros s (? & ? & ?). split_and!; auto.
Qed.

Lemma pump_barrier e x fin :
  env_payload e = PBarrier x →
  tri (pumping (flowing [] [] (λ s, contents (t_batches s) = [] ∧ unaligned e fin s)))
    (handle_barrier cfg x (env_sender e) (env_channel e)) (ends (λ _, flowing [] [] (agreed e fin))).
Proof.
  intros Ex. unfold handle_barrier. eapply pump_bind; [by apply pump_on_barrier|intros aligned|done].
  destruct aligned; cbn [negb]; [|apply pump_ret; by intros s (? & ? & _)].
  set (F := λ s, agreed e fin s ∧ done_with shared (b_id x) s).
  assert (HF : passive F) by (apply passive_and; [apply batched_agreed|split; [apply kept_done|done]]).
  pose proof (kept_flowing [] [] F HF) as HK.
  apply (pump_weaken _ (flowing [] [] F)); [|intros s (? & ? & Hc); split; [done|split; [done|by apply Hc]]].
  apply (pump_bind _ _ _ (λ _, flowing [] [] F)); [by apply pump_gets|intros forwarded|done].
  apply (pump_bind _ _ _ (λ _, flowing [] [] F)); [by apply (pump_operate_quiet (Collect forwarded))|intros []|done].
  apply (pump_bind _ _ _ (λ _, flowing [] [] F)); [|intros []|done].
  - destruct (b_end_of_data forwarded); [|by apply pump_ret].
    apply (pump_bind _ _ _ (λ _, flowing [] [] F)); [|intros eof|done].
    + apply pump_step. intros s h T Hs HT [Hf [[Hag Hfin] Hd]]. unfold aligning.
      destruct (receive_eof_ok channels (heard (dequeued s)) forwarded (t_aligner s) (ok_aligner _ _ _ _ Hs)) as (Hok & E1 & E2).
      destruct (receive_eof forwarded (t_aligner s)) as [r a]. cbn [fst snd] in *.
      destruct (set_aligner_ok shared channels a s h T Hs HT Hok) as [HG Hs']; [unfold aligner_le; by rewrite E1, E2|].
      split_and!; [done|done|done|]. destruct r as [eof|]; [|done]. split; [done|].
      assert (Hep : ∀ b, epoch_lanes b a = epoch_lanes b (t_aligner s)) by (intros b; unfold epoch_lanes; by rewrite E1).
      assert (Hla : last_aligned (set_aligner a s) = last_aligned s) by (unfold last_aligned; cbn; by rewrite E1).
      split; [split|].
      * intros b Hb. rewrite Hla. destruct (Hag b Hb) as [?|Es]; [by left|right]. change (seen s = epoch_lanes b a). by rewrite Hep.
      * by rewrite Hla.
      * unfold done_with in *. rewrite Hla. unfold resolved in *. cbn. by rewrite E2.
    + destruct (eof : bool); [by apply (pump_ask MarkEofFinished)|by apply pump_ret].
  - apply pump_step. intros s h T Hs HT [Hf [Hag Hd]].
    destruct (callback_ok shared channels (b_id x) s h T Hs) as [HG Hok].
    { intros Hsh. unfold done_with in Hd. by rewrite Hsh in Hd. }
    split_and!; [exact HG|exact Hok|done|by split].
Qed.

(** ** An envelope *)

Lemma pump_handle e fin :
  tri (pumping (flowing [] (env_rows e) (unaligned e fin))) (handle_sync cfg (env_payload e) (env_sender e) (env_channel e))
    (ends (λ _, flowing [] [] (agreed e fin))).
Proof.
  assert (Hquiet : (∀ x, env_payload e ≠ PBarrier x) → ∀ s, unaligned e fin s → agreed e fin s).
  { intros Hn s (_ & Hag & Hfin). split; [|intros Hy; destruct (Hfin Hy) as (x & Ex & _); by destruct (Hn x)].
    unfold mark in Hag. destruct (env_payload e) as [|x|]; [done|by destruct (Hn x)|done]. }
  unfold env_rows. destruct (env_payload e) as [records|x|control] eqn:Ex; cbn [handle_sync].
  - apply (pump_weaken _ (flowing [] (mjoin (rows_in <$> records)) (agreed e fin))); [apply pump_records, batched_agreed|].
    intros s [? ?]. split; [done|]. by apply Hquiet.
  - destruct (batched_unaligned e fin) as [Hp Hb].
    apply (pump_bind _ _ _ (λ out s, ∃ bs, out = (inl <$> bs) ++ [inr x] ∧
      flowing (mjoin (rows_out <$> bs) ++ []) [] (λ s, contents (t_batches s) = [] ∧ unaligned e fin s) s)); [|intros out|done].
    + apply pump_batching; [by apply kept_flowing|]. intros n s out a [[Hok Hs] Hx] Hm.
      destruct (accept_barrier _ _ _ _ _ Hok Hm) as (Hok' & He & bs & -> & Hrows). exists bs. split; [done|].
      split; [|split; [done|by apply Hb]]. split; [done|]. cbn in *. rewrite He, !app_nil_r in *.
      etransitivity; [|exact Hs]. by apply Forall2_app; [reflexivity|].
    + apply (pump_bind _ _ _ (λ _, flowing [] [] (agreed e fin))); [|intros []|done].
      * intros T s h Hs [HT (bs & -> & Hf)].
        apply (pump_batches _ _ bs [inr x] [] [] (λ s, contents (t_batches s) = [] ∧ unaligned e fin s) (λ _, flowing [] [] (agreed e fin)));
          [by apply passive_empty| |done|by split].
        cbn [co_each data_handler]. apply (pump_bind _ _ _ (λ _, flowing [] [] (agreed e fin))); [by apply pump_barrier|intros []; by apply pump_ret|done].
      * destruct (b_end_of_data x); [apply pump_flush, batched_agreed|by apply pump_ret].
  - apply (pump_weaken _ (flowing [] [] (agreed e fin))); [|intros s [? ?]; split; [done|by apply Hquiet]].
    apply (pump_bind _ _ _ (λ _, flowing [] [] (agreed e fin))); [apply pump_flush, batched_agreed|intros []|done].
    apply (pump_operate_quiet (HandleControl control (env_sender e))); [done|]. apply batched_agreed.
Qed.

(** A flush between envelopes. *)
Lemma pump_advance F : batched F → tri (pumping (flowing [] [] F)) advance_watermark (ends (λ _, flowing [] [] F)).
Proof.
  intros HF. pose proof (kept_flowing [] [] F (proj1 HF)) as HK. unfold advance_watermark.
  apply (pump_bind _ _ _ (λ _, flowing [] [] F)); [by apply (pump_ask WatermarkPending)|intros due|done].
  destruct (negb _); [by apply pump_ret|].
  apply (pump_bind _ _ _ (λ _, flowing [] [] F)); [|intros []; by apply (pump_ask PublishMarks)|done].
  apply pump_executor; [done|done|].
  apply (pump_bind _ _ _ (λ _, flowing [] [] F)); [by apply pump_flush|intros []|done].
  apply (pump_operate_quiet FlushOutput); [done|apply HF].
Qed.

Lemma pump_drain m l q F : batched F → tri (pumping (flowing [] [] F)) (emit_drain_and_watermark m l q) (ends (λ _, flowing [] [] F)).
Proof.
  intros HF. pose proof (kept_flowing [] [] F (proj1 HF)) as HK. unfold emit_drain_and_watermark.
  apply (pump_bind _ _ _ (λ _, flowing [] [] F)); [by apply (pump_ask DrainPending)|intros []|done].
  destruct m; [|by apply pump_ret..].
  apply (pump_bind _ _ _ (λ _, flowing [] [] F)); [by apply (pump_ask (NoteProcessed l q))|intros due|done].
  destruct (due : bool); [by apply pump_advance|by apply pump_ret].
Qed.

(** What seeing a barrier leaves alone. *)
Definition same_flow s s' : Prop :=
  t_batches s' = t_batches s ∧ t_calls s' = t_calls s ∧ dequeued s' = dequeued s ∧ pump_holder (t_run s') = pump_holder (t_run s).

#[local] Instance same_flow_preorder : PreOrder same_flow.
Proof. split; [by intros s|]. intros s1 s2 s3 (? & ? & ? & ?) (? & ? & ? & ?). split_and!; congruence. Qed.

Lemma keeps_observe e : keeps same_flow (observe_coordinated_barrier e).
Proof.
  unfold observe_coordinated_barrier, coordinated_checkpoint_channel, join_checkpoint, block_checkpoint_input.
  repeat first [ apply keeps_bind; [apply _| |intros ?] | apply keeps_gets; apply _ | apply keeps_throw; apply _ | apply keeps_ret; apply _
    | apply keeps_modify; intros s; by split_and! | intros s; by split_and! | case_match ].
Qed.

Definition dequeued_now e s : Prop := e ∈ dequeued s ∧ agree None s ∧ unheard e s.

Lemma kept_now e : pump_fact (dequeued_now e).
Proof. apply kept_and; [apply kept_dequeued|]. apply kept_and; [apply kept_agree|apply kept_unheard]. Qed.

Lemma pump_observe e :
  tri (pumping (flowing [] (env_rows e) (dequeued_now e))) (sync (observe_coordinated_barrier e))
    (ends (λ aligned, flowing [] (env_rows e) (unaligned e aligned))).
Proof.
  apply pump_step. intros s h T Hs HT [Hf (Hin & Hag & Hu)].
  destruct (observe_ok shared channels e T s h Hs) as (HG & Hok & Hr); [done|].
  destruct (keeps_observe e s) as (E1 & E2 & E3 & E4).
  destruct (observe_coordinated_barrier e s) as [r s']. cbn [fst snd] in *. split_and!; [done|done|done|].
  destruct r as [aligned|]; [|done]. destruct Hr as [Hag' Hfin]. split.
  - destruct Hf as [Hb Hsim]. unfold flow. by rewrite E1, E2, E3.
  - split_and!; [by rewrite E3|done|done].
Qed.

Lemma pump_finish b :
  tri (pumping (flowing [] [] (λ s, agree None s ∧ b <= last_aligned s))) (sync (finish_coordinated_checkpoint b)) (ends (λ _, flowing [] [] (agree None))).
Proof.
  apply pump_step. intros s h T Hs HT [Hf [Hag Hb]]. unfold finish_coordinated_checkpoint. rewrite exec_bind_gets. cbn [id].
  destruct (negb _) eqn:En; [split_and!; [apply same_view_G, same_view_refl|done|done|by split]|].
  apply negb_false_iff, bool_decide_eq_true in En. rewrite exec_bind_modify. set (s1 := set_pump_last _ s).
  pose proof (calm_raise shared channels b s h T Hs Hb) as H1. change (set_pump_last (λ y, Z.max y b) s) with s1 in H1.
  assert (H2 : calm shared channels T s1 (release_checkpoint_inputs s1).2 h).
  { apply calm_release; [apply (calm_ok _ _ _ _ _ _ H1)|]. intros b' E. change (current s = Some b') in E. unfold current in E. rewrite En in E.
    injection E as <-. cbn. lia. }
  destruct (calm_trans _ _ _ _ _ _ _ H1 H2) as [HG Hok _ E]. split_and!; [done|done|done|].
  unfold release_checkpoint_inputs. rewrite exec_bind_gets, exec_bind_modify. split; [done|]. intros b' E'. done.
Qed.

Lemma pump_process_envelope e :
  tri (pumping (flowing [] (env_rows e) (dequeued_now e))) (process_envelope cfg e) (ends (λ _, flowing [] [] (agree None))).
Proof.
  unfold process_envelope. eapply pump_bind; [apply pump_observe|intros aligned|done].
  destruct (batched_agreed e aligned) as [Hag Hba]. destruct (batched_unaligned e aligned) as [Hun _].
  apply (pump_bind _ _ _ (λ _, flowing [] [] (agreed e aligned))); [|intros []|done].
  { apply pump_executor; [by apply kept_flowing|intros; by apply kept_flowing|apply pump_handle]. }
  apply (pump_bind _ _ _ (λ _, flowing [] [] (agreed e aligned))); [by apply pump_drain|intros []|done].
  assert (HK : pump_fact (flowing [] [] (agree None))) by (apply kept_and; [apply kept_flow|apply kept_agree]).
  apply (pump_bind _ _ _ (λ _, flowing [] [] (agree None))); [|intros []|done].
  - destruct aligned; [|apply pump_ret; by intros s [? [? _]]].
    apply (pump_weaken _ (flowing [] [] (λ s, agree None s ∧ payload_barrier_id (env_payload e) <= last_aligned s))); [apply pump_finish|].
    intros s [? [? Hy]]. split; [done|]. split; [done|]. destruct (Hy eq_refl) as (x & -> & ?). done.
  - apply (pump_bind _ _ _ (λ _, flowing [] [] (agree None))); [by apply (pump_ask CheckEndOfStream)|intros ended; by apply pump_ret|done].
Qed.

(** ** One round of the pump *)

Definition taken_now e s : Prop := dequeued_now e s ∧ checkpoint_input_resumes (t_pump s) !! env_lane e = None.

Lemma pump_take :
  tri (pumping (flowing [] [] (agree None))) (sync (take_envelope estimate_retained_size)) (ends (λ e, flowing [] (env_rows e) (taken_now e))).
Proof.
  apply pump_step. intros s h T Hs HT [Hf Hag]. unfold take_envelope. rewrite exec_bind_gets, exec_bind_of_outcome. cbn [id].
  assert (Hstay : G T s s ∧ task_ok s h ∧ pump_holder (t_run s) = pump_holder (t_run s) ∧ True) by (split_and!; [apply same_view_G, same_view_refl|done..]).
  destruct (get_matching _ (t_inbox s)) as [[[e q]|]|err] eqn:Eg; [|exact Hstay|exact Hstay]. clear Hstay.
  destruct (get_matching_Some _ _ _ _ Eg) as (before & after & Hit & Hq & Hhold & Hheld).
  set (m := if wq_bound (t_inbox s) then _ else _).
  assert (Hm : keeps same_view m).
  { unfold m, reserve_input_envelope. destruct (wq_bound _); [|apply keeps_ret; apply _]. apply keeps_bind; [apply _|apply keeps_gets; apply _|intros s0].
    case_match; [apply keeps_throw; apply _|apply unseen_set_bytes]. }
  specialize (Hm s). destruct (m s) as [r s1] eqn:Em. cbn [snd] in Hm.
  destruct r as [[]|err]; [|rewrite (exec_bind_Err _ _ _ _ _ Em); split_and!; [by apply same_view_G|by eapply same_view_ok|apply (sv_holder _ _ Hm)|done]].
  rewrite (exec_bind_Ok _ _ _ _ _ Em), !exec_bind_modify. cbn [mret exec_ret fst snd].
  assert (Hs1 : task_ok s1 h) by by eapply same_view_ok. assert (HT1 : holds_pump T s1) by (eapply holds_pump_kept; [reflexivity|apply (sv_holder _ _ Hm)|done]).
  assert (Hpump : ∀ y, hold_for_coordinated_checkpoint y s1 = hold_for_coordinated_checkpoint y s).
  { intros y. unfold hold_for_coordinated_checkpoint, joins_checkpoint. by rewrite (sv_pump _ _ (sv_data _ _ Hm)). }
  destruct (take_ok shared channels e q before after s1 h T Hs1 HT1) as (HG & Hok & Hf' & Hu & Hr).
  - eapply pump_fact_view; [apply kept_flow|exact Hm|exact Hf].
  - by rewrite (sv_items _ _ (sv_data _ _ Hm)).
  - done.
  - rewrite Hpump. by apply negb_true_iff.
  - eapply Forall_impl; [exact Hheld|]. intros y Hy. rewrite Hpump. by apply negb_false_iff.
  - assert (calm shared channels T s (add_dequeued e (set_inbox q s1)) h) as [HG' _ _ E].
    { eapply calm_trans; [|split; [exact HG|exact Hok|done|done]]. split; [by apply same_view_G|done|apply (sv_lanes _ _ Hm)|apply (sv_holder _ _ Hm)]. }
    split_and!; [done|done|done|]. split; [done|]. split; [|done]. split_and!; [apply elem_of_app; right; by left| |done].
    eapply (pump_fact_view (agree None) s s1); [apply kept_agree|done|done].
Qed.

Lemma kept_rest : pump_fact (flowing [] [] (agree None)).
Proof. apply kept_and; [apply kept_flow|apply kept_agree]. Qed.

Lemma passive_agree : batched (agree None).
Proof. split; [split|]; [apply kept_agree|done..]. Qed.

Lemma pump_next : tri (pumping (flowing [] [] (agree None))) (next_envelope estimate_retained_size) (ends (λ e, flowing [] (env_rows e) (taken_now e))).
Proof.
  unfold next_envelope. apply tri_read. intros s0. destruct (checkpoint_ready (t_pump s0)) as [|e rest] eqn:Er.
  - eapply tri_mono; [|by intros T s h _ [_ HP]; exact HP|done].
    apply (pump_bind _ _ _ (λ _, flowing [] [] (agree None))); [|intros []; apply pump_take|done].
    apply triple_wait; [apply pumping_stable, kept_rest|done].
  - apply tri_absurd. intros T s h Hs [-> _]. destruct (pk_held _ (ok_pump _ _ _ _ Hs)) as [_ E]. by rewrite Er in E.
Qed.

(** [try: p finally: f], for an [f] the invariant does not see. *)
Lemma pump_finally {X} (p : co X) f F (F' : X → task → Prop) :
  (∀ s, same_view s (f s).2 ∧ (f s).1 = Ok ()) → (∀ y, pump_fact (F' y)) → tri (pumping F) p (ends F') → tri (pumping F) (co_finally p f) (ends F').
Proof.
  intros Hf HF' Hp. eapply triple_finally; [exact Hp|]. intros r T s h Hs Hr. destruct (Hf s) as [Hv E]. rewrite E.
  split_and!; [by apply same_view_G|by eapply same_view_ok|]. eapply ends_insensitive; [exact HF'| |exact Hv|exact Hr]. apply union_subseteq_l.
Qed.

Lemma pump_round : tri (pumping (flowing [] [] (agree None))) (run_round estimate_retained_size cfg) (ends (λ _, flowing [] [] (agree None))).
Proof.
  pose proof kept_rest as HK. unfold run_round.
  assert (Hreserve : ∀ F, pump_fact F → tri (pumping F) (sync reserve_accumulator_processing) (ends (λ _, F))).
  { intros F HF. apply pump_unseen; [|done]. unfold reserve_accumulator_processing. apply keeps_bind; [apply _|apply keeps_gets; apply _|intros s0].
    case_match; [apply keeps_throw; apply _|apply unseen_set_bytes]. }
  apply (pump_bind _ _ _ (λ _, flowing [] [] (agree None))); [by apply (pump_ask Expired)|intros expired|done]. destruct (expired : bool).
  - apply (pump_bind _ _ _ (λ _, flowing [] [] (agree None))); [by apply Hreserve|intros []|done].
    apply pump_finally; [intros s; by repeat split|done|].
    apply (pump_bind _ _ _ (λ _, flowing [] [] (agree None))); [|intros []|done].
    { apply pump_executor; [done|done|]. unfold idle_flush.
      apply (pump_bind _ _ _ (λ _, flowing [] [] (agree None))); [apply pump_flush, passive_agree|intros []|done].
      apply (pump_bind _ _ _ (λ _, flowing [] [] (agree None))); [apply (pump_operate_quiet OnIdle); [done|apply passive_agree]|intros _y|done].
      apply (pump_operate_quiet FlushOutput); [done|apply passive_agree]. }
    apply (pump_bind _ _ _ (λ _, flowing [] [] (agree None))); [by apply (pump_ask DrainPending)|intros []|done].
    apply (pump_bind _ _ _ (λ _, flowing [] [] (agree None))); [apply pump_advance, passive_agree|intros []; by apply pump_ret|done].
  - eapply pump_bind; [apply pump_next|intros e|done].
    assert (HT : pump_fact (flowing [] (env_rows e) (taken_now e))).
    { apply kept_and; [apply kept_flow|]. apply kept_and; [apply kept_now|apply kept_resumes]. }
    apply (pump_bind _ _ _ (λ _, flowing [] (env_rows e) (taken_now e))); [apply triple_wait; [by apply pumping_stable|done]|intros []|done].
    eapply (tri_bind _ _ _ _ _ (λ r, match r with Ok held => λ T s h, held = false ∧ pumping (flowing [] (env_rows e) (dequeued_now e)) T s h | Err _ => anything end)); [| |done].
    + apply triple_sync. intros T s h Hs [HH [Hf [Hn Hr]]]. cbn. split; [apply same_view_G, same_view_refl|split; [done|]].
      split; [|split; [|by split]].
      * unfold hold_for_coordinated_checkpoint. by rewrite Hr.
      * eapply holds_pump_kept; [apply union_subseteq_l|done|done].
    + intros held. apply (tri_pre _ _ _ (held = false)); [by intros T s h _ [? _]|]. intros ->.
      eapply tri_mono; [|by intros T s h _ [_ HP]; exact HP|done].
      assert (HD : pump_fact (flowing [] (env_rows e) (dequeued_now e))) by (apply kept_and; [apply kept_flow|apply kept_now]).
      apply (pump_bind _ _ _ (λ _, flowing [] (env_rows e) (dequeued_now e))); [by apply Hreserve|intros []|done].
      apply pump_finally; [|done|apply pump_process_envelope]. intros s. split; [|done]. repeat split; cbn; auto.
Qed.

Lemma good_run_once : good shared channels (run_once (C := C) estimate_retained_size cfg).
Proof.
  unfold run_once, acquire.
  apply (pump_bind _ _ _ (λ _, flowing [] [] (agree None))); [|intros n|done].
  - eapply (tri_bind _ _ _ _ _ (λ r T s h, match r with Ok _ => pump_holder (t_run s) = None | Err _ => True end)); [|intros []|done].
    + apply triple_wait; [done|]. intros T s h _ _ Hn%bool_decide_eq_true. done.
    + apply triple_sync. intros T s h Hs Hn. destruct (acquire_pump_ok shared channels s h Hs Hn) as (HG & Hok & (k & ? & ?) & Hag & Hf).
      cbn in *. split_and!; [apply HG|done|]. split; [|done]. exists k. split; [done|]. apply elem_of_union. by right.
  - apply (pump_bind _ _ _ (λ _, flowing [] [] (agree None))); [apply pump_round|intros ended|done].
    destruct ended; [by apply co_triple_ret|]. apply triple_sync. intros T s h Hs [HT [Hf Hag]].
    destruct (release_pump_ok shared channels s h T Hs HT Hag Hf). done.
Qed.
End pump.

(** ** Every run of a task *)

Section cut.
Context {R RO K A C Row : Type} `{!Batcher R RO A, !BatcherLaws R RO A Row} (record_num_rows : R → option Z)
  (estimate_retained_size : payload (R := R) (K := K) → Z) (cfg : task_config) (shared : Z → bool).

Abbreviation task := (task (R := R) (RO := RO) (K := K) (A := A)).
Abbreviation answer := (answer (RO := RO) (K := K) (C := C)).
Abbreviation reply := (reply (R := R) (K := K)).
Abbreviation conf := (configuration (S := task) (ans := answer) (rep := reply)).
Abbreviation body := (method_body (C := C) record_num_rows estimate_retained_size cfg shared).
Implicit Types (s : task) (c : conf).

Lemma good_method channels m : good shared channels (body m).
Proof.
  destruct m; cbn [method_body].
  - apply good_put.
  - apply good_try_put.
  - by apply good_emit_barrier.
  - apply good_emit_control.
  - apply good_abort.
  - apply good_reset.
  - apply good_callback.
  - apply good_run_once.
Qed.

Lemma task_init_ok size bytes splits inputs chans batches s :
  task_init estimate_retained_size size bytes splits inputs (Some chans) batches = Ok s →
  batcher_ok batches → contents batches = [] → task_ok (C := C) shared (list_to_set chans) s [].
Proof.
  unfold task_init. destruct (Aligner_init _ _ _ _) as [a|] eqn:Ea; [|done]. rewrite bind_Ok.
  destruct (WeightedQueue_init _ _ _) as [q|] eqn:Eq; [|done]. rewrite bind_Ok.
  destruct (install_checkpoint_inputs _ _ _) as [inp|] eqn:Ei; [|done]. rewrite bind_Ok.
  destruct (bind_external_byte_reservation q) as [q'|] eqn:Eq'; [|done]. rewrite bind_Ok. intros [= <-] Hb Hc.
  assert (Hq : wq_items q' = []).
  { assert (wq_items q = []) as E by (unfold WeightedQueue_init in Eq; by repeat case_match; simplify_eq).
    unfold bind_external_byte_reservation in Eq'. repeat case_match; simplify_eq; done. }
  assert (Hinp : inp = mkPumpInputs (senders (input_lanes (list_to_set chans))) (Some (list_to_set chans)) ∅).
  { unfold install_checkpoint_inputs in Ei. destruct (channel_inventory (Counter inputs) chans) as [y|] eqn:Ey; [|done].
    injection Ei as <-. destruct (channel_inventory_Ok _ _ _ Ey) as [-> E]. unfold input_lanes. rewrite <-E. f_equal. set_solver-. }
  set (s := mkTask _ _ _ _ _ _ _ _ _ _ _).
  destruct (Aligner_init_ok (list_to_set chans) (heard (R := R) (K := K) []) _ _ _ _ _ Ea eq_refl) as (Ha & Hchans & Hlast).
  split; try done; cbn.
  - intros l. unfold items. cbn. by rewrite Hq.
  - intros e x He. by apply not_elem_of_nil in He.
  - intros l b. cbn. lia.
  - intros l b (e & He & _). by apply not_elem_of_nil in He.
  - intros l b (e & He & _). by apply not_elem_of_nil in He.
  - split; cbn; try done. intros l [n Hn]. by rewrite lookup_empty in Hn.
  - intros b Hb'. by apply not_elem_of_nil in Hb'.
  - unfold last_aligned. cbn. by rewrite Hlast.
  - intros _. split; [done|]. cbn. rewrite Hc. constructor.
  - intros q0 x calls Hq0. by apply not_elem_of_nil in Hq0.
Qed.

(** C9. The checkpoints of a task are consistent cuts of its input.  In every run of a task
    (senders that put records, emit barriers and controls; aborts and resets of checkpoints;
    callbacks of the event loop; rounds of the pump and of the operator's thread, each
    suspended and resumed at any of its awaits, with any answers, any of which may be an
    exception), when the task registers its state, or a transaction of its sink, for the
    barrier of a checkpoint, then the rows the operator has been called with are, in order
    and up to what batching does to their values, the rows of the records in some prefix of
    the input of every lane; and this prefix ends
    at the barrier: it has of every input lane exactly the records admitted before that
    barrier, whether the checkpoint is a shared epoch or not, unless an earlier checkpoint
    has ended the lane.  No record before a barrier is missing from the checkpoint, and none
    behind it is in it. *)
Theorem aligned_cut_consistent size bytes splits inputs chans batches s0 c q x calls :
  task_init estimate_retained_size size bytes splits inputs (Some chans) batches = Ok s0 →
  batcher_ok batches → contents batches = [] →
  reachable body s0 c → Issued q ∈ c_history c → registers q = Some (x, calls) →
  cut_ok (list_to_set chans) x calls (admitted (c_state c)).
Proof.
  intros Hinit Hb Hc Hreach Hq Hx.
  eapply (ok_cuts shared (list_to_set chans) (c_state c) (c_history c)); [|exact Hq|exact Hx].
  eapply (safe_invariant body (task_ok (C := C) shared (list_to_set chans)) closed taken (G shared) (Rely shared)).
  - intros T s s' k. apply task_G_closed.
  - intros s s' k. apply task_taken_closed.
  - apply task_Rely_refl.
  - apply task_Rely_trans.
  - intros T T' s s'. apply task_G_Rely.
  - intros m s h Hs. eapply safe_mono; [|apply (good_method (list_to_set chans) m)]; [|by apply task_ok_snoc|done].
    intros T r s' h' [Hs' _]. by apply task_ok_snoc.
  - by eapply task_init_ok.
  - exact Hreach.
Qed.
End cut.

(** ** A run: two senders and a shared epoch *)

Module pipeline.
Import BlockSamples.

Definition sender (i : Z) : vid := mkVertexId 1 i.
Definition input_channel (i : Z) : channel := mkDeliveryChannel (sender i) "map" 0 0 None.

Abbreviation record := (@record Z unit).
Abbreviation Accumulator := (@Accumulator Z unit nat).
Abbreviation R := { r : record | record_ok r }.

Definition row (n : Z) : R :=
  (mkRecord (BRow (mkRow {["x"%string := n]} None)) None None None None None None) ↾ (conj eq_refl (conj eq_refl eq_refl)).

Definition readings (n : nat) : nat * nat * nat := (n, n, n).
#[local] Instance batcher : Batcher R record Accumulator := accumulator_batcher 0 None (λ _, 1) (λ _ _, false) readings.

Lemma values_kept (vs vs' : list Z) : column_converted (accumulator_format None) vs vs' → Forall2 eq vs' vs.
Proof. intros ->%z_library_keeps. by apply Forall_Forall2_diag, Forall_forall. Qed.

#[local] Instance laws : BatcherLaws R record Accumulator (@lrow Z) := accumulator_laws 0 None (λ _, 1) (λ _ _, false) readings eq values_kept.

(** Batches of two rows. *)
Definition accumulator : Accumulator := mkAccumulator true 2 None false [] 0 0 None.

Abbreviation question := (question (RO := record) (K := unit) (C := unit)).
Abbreviation answer := (answer (RO := record) (K := unit) (C := unit)).
Abbreviation method := (method (R := R) (K := unit)).
Abbreviation body := (method_body (C := unit) (λ _ : R, None) (λ _ : payload, 1) (mkTaskConfig true true) Z.odd).
Abbreviation state := (task (R := R) (RO := record) (K := unit) (A := Accumulator)).
Abbreviation conf := (configuration (S := state) (ans := answer) (rep := reply (R := R) (K := unit))).

(** The operator, the output and the coordinator do what they are asked. *)
Definition answers (q : question) : outcome (answer q) :=
  match q with
  | Operate c => Ok match c return answer (Operate c) with PrepareCheckpoint _ => Some () | _ => () end
  | RegisterSinkCommittable _ _ _ | RegisterOperatorState _ _ => Ok true
  | CheckEndOfStream | NoteProcessed _ _ | WatermarkPending | Expired => Ok false
  | _ => Ok ()
  end.

Definition fresh_task : outcome state :=
  task_init (λ _ : payload, 1) 100 1000 ∅ [sender 0; sender 1] (Some [input_channel 0; input_channel 1]) accumulator.

Definition call (m : method) (i n : nat) : list (move answer method) := Begin m :: replicate n (Continue i answers).

(** The first sender puts three rows and the barrier of epoch 1, which the pump takes; what
    it puts then must wait.  The second sender puts a row and its barrier. *)
Definition moves : list (move answer method) :=
  call (MPut [row 1; row 2; row 3] true (sender 0) None (Some (input_channel 0))) 0 5 ++
  call (MEmitBarrier 1 None false 0 (sender 0) (Some (input_channel 0))) 1 2 ++
  call MRunOnce 2 9 ++ call MRunOnce 3 8 ++
  call (MTryPut [row 4] (sender 0) None (Some (input_channel 0))) 4 1 ++
  call (MPut [row 5] true (sender 0) None (Some (input_channel 0))) 5 4 ++
  call (MPut [row 6] true (sender 1) None (Some (input_channel 1))) 6 5 ++
  call MRunOnce 7 8 ++
  call (MEmitBarrier 1 None false 0 (sender 1) (Some (input_channel 1))) 8 2 ++
  call MRunOnce 9 14.

Definition run : option conf := match fresh_task with Ok s => run_moves body moves (initial s) | Err _ => None end.

(** The rows in what a configuration's history registers. *)
Definition registered (c : conf) : list (Z * list (option Z)) :=
  omap (λ e, match e with
             | Issued q => match registers q with
                           | Some (x, calls) => Some (b_id x, (λ l, lr_values l !! "x"%string) <$> calls_rows (R := R) (K := unit) (A := Accumulator) calls)
                           | None => None
                           end
             | _ => None
             end) (c_history c).
End pipeline.

(** The transaction and the state are registered, with the rows before the barriers. *)
Example pipeline_registers :
  pipeline.registered <$> pipeline.run = Some [(1, Some <$> [1; 2; 3; 6]); (1, Some <$> [1; 2; 3; 6])].
Proof. vm_compute. reflexivity. Qed.

Lemma aligned_cut_consistent_witness :
  ∃ (c : pipeline.conf) q x calls, Issued q ∈ c_history c ∧ registers q = Some (x, calls) ∧
    (λ l, lr_values l !! "x"%string) <$> calls_rows (BatcherLaws0 := pipeline.laws) calls = Some <$> [1; 2; 3; 6] ∧
    cut_ok (BatcherLaws0 := pipeline.laws) (list_to_set [pipeline.input_channel 0; pipeline.input_channel 1]) x calls (admitted (c_state c)).
Proof.
  generalize pipeline_registers. destruct pipeline.run as [c|] eqn:E; intros Hreg; [|discriminate Hreg]. injection Hreg as Hreg.
  assert ((1, Some <$> [1; 2; 3; 6]) ∈ pipeline.registered c) as Hin by (rewrite Hreg; by left).
  apply list_elem_of_omap in Hin as (e & He & Hx). destruct e as [| |q|]; try discriminate Hx.
  destruct (registers q) as [[x calls]|] eqn:Eq; [|discriminate Hx]. injection Hx as _ Hrows.
  exists c, q, x, calls. split_and!; [exact He|exact Eq|exact Hrows|].
  unfold pipeline.run in E. destruct pipeline.fresh_task as [s0|] eqn:Es; [|discriminate E].
  apply (aligned_cut_consistent (λ _ : pipeline.R, None) (λ _ : payload, 1) (mkTaskConfig true true) Z.odd
    100 1000 ∅ [pipeline.sender 0; pipeline.sender 1] [pipeline.input_channel 0; pipeline.input_channel 1] pipeline.accumulator s0 c q x calls Es).
  - split_and!; [|intros _; cbn; lia|intros Hoff; discriminate Hoff]. split_and!; [intros y Hy; by apply not_elem_of_nil in Hy|reflexivity|reflexivity|cbn; lia].
  - reflexivity.
  - exact (moves_reachable pipeline.body _ _ _ E).
  - exact He.
  - exact Eq.
Defined.
