(* ===== verification/Failover.v ===== *)
(** * Failover: restart policy, deployment, teardown and the supervisor of a job

    Models [src/ray/klein/runtime/scheduler/restart_strategy.py], the deploy,
    teardown and restart methods of [scheduler/job_master.py], the supervisor of
    [job_manager/failover_supervisor.py], its health report
    [job_manager/liveness_report.py] and the permanent failure path of
    [job_manager/job_manager.py].  The cluster (actors, placement, clocks) is a
    [platform]: one function of an abstract world per call the code makes, so that
    every theorem holds whatever the cluster answers. *)
From S2P Require Import Prelude Effects.
Open Scope Z_scope.

(** ** Restart strategy

    Times are whole seconds ([now_seconds]); the interval and the delay are floats made
    from [timedelta]s, kept here as their number of microseconds. *)

(** An argument that must be a finite [Real]. *)
Inductive real_arg :=
  | RFinite (microseconds : Z)
  | RNonFinite
  | RBool
  | RNotReal.

Record FixedDelayRestartStrategy := mkStrategy {
  rs_max_attempts : Z;
  rs_count_interval : Z;
  rs_delay : Z;
  rs_window : list Z
}.

Definition real_of (a : real_arg) : outcome (option Z) :=
  match a with
  | RFinite us => Ok (Some us)
  | RNonFinite => Ok None
  | RBool | RNotReal => Err TypeError
  end.

Definition FixedDelayRestartStrategy_init (max_attempts : pyarg) (count_interval delay : real_arg)
    : outcome FixedDelayRestartStrategy :=
  n ← of_option TypeError (arg_int max_attempts);
  if n <? 0 then Err ValueError
  else
    interval ← real_of count_interval;
    d ← real_of delay;
    interval ← of_option ValueError interval;
    d ← of_option ValueError d;
    if interval <=? 0 then Err ValueError
    else if d <? 0 then Err ValueError
    else Ok (mkStrategy n interval d []).

(** Whether [t] lies before the window that ends at [now]. *)
Definition expired (interval now t : Z) : bool := 1000000 * t <? 1000000 * now - interval.

Fixpoint popleft_while (p : Z → bool) (l : list Z) : list Z :=
  match l with
  | t :: rest => if p t then popleft_while p rest else l
  | [] => []
  end.

Definition with_window (w : list Z) (r : FixedDelayRestartStrategy) : FixedDelayRestartStrategy :=
  mkStrategy (rs_max_attempts r) (rs_count_interval r) (rs_delay r) w.

Definition prune (now : Z) (r : FixedDelayRestartStrategy) : FixedDelayRestartStrategy :=
  with_window (popleft_while (expired (rs_count_interval r) now) (rs_window r)) r.

Definition record_and_should_suppress (now : Z) (r : FixedDelayRestartStrategy)
    : (bool * Z) * FixedDelayRestartStrategy :=
  let r := prune now r in
  let r := with_window (rs_window r ++ [now]) r in
  let attempts := Z.of_nat (length (rs_window r)) in
  ((rs_max_attempts r <? attempts, attempts), r).

Definition window_view (now : Z) (r : FixedDelayRestartStrategy)
    : (Z * Z * Z) * FixedDelayRestartStrategy :=
  let r := prune now r in
  ((Z.of_nat (length (rs_window r)), rs_max_attempts r, rs_count_interval r / 1000000), r).

(** ** Data of the job master and the job manager *)

Inductive PlacementStrategy := PlacementGroupStrategy | RoundRobinStrategy | NativeStrategy.

Inductive RestartStatus := SUCCESS | FAILED | SUPPRESSED.

#[export] Instance restart_status_eq_dec : EqDecision RestartStatus.
Proof. solve_decision. Defined.

Inductive JobStatus :=
  JCreated | JSubmitting | JDeploying | JInitializing | JRunning | JFinished | JCancelled | JFailed.

#[export] Instance job_status_eq_dec : EqDecision JobStatus.
Proof. solve_decision. Defined.

Inductive VertexStatus := VCreated | VDeployed | VRunning | VCancelling | VFailed | VFinished | VCancelled.

(** What becomes of a call of [run_exclusive] under [wait_for]: it completes in time,
    it runs but the caller has stopped waiting, or it was cancelled in the writer's
    queue before it began. *)
Inductive writer_turn := Completed | TimedOutRunning | TimedOutQueued.

(** A placement attempt. *)
Inductive placed (Plan Cleanup : Type) :=
  | Placed (plan : Plan)
  | Infeasible
  | PlacementLeftovers (plan : Cleanup)
  | PlacementRaised (e : exn).
Arguments Placed {Plan Cleanup} plan.
Arguments Infeasible {Plan Cleanup}.
Arguments PlacementLeftovers {Plan Cleanup} plan.
Arguments PlacementRaised {Plan Cleanup} e.

(** The switches of [_placement_strategies]. *)
Record deployment_config := mkDeployment {
  dc_debug_mode : bool;
  dc_schedulable_workers : bool;
  dc_placement_group_enabled : bool;
  dc_balanced : bool
}.

(** One vertex as the health report sees it. *)
Record vertex_view (H : Type) := mkVertexView {
  vv_name : string;
  vv_status : VertexStatus;
  vv_stream_task : option H
}.
Arguments mkVertexView {H}.
Arguments vv_name {H}.
Arguments vv_status {H}.
Arguments vv_stream_task {H}.

(** The calls that leave the modelled code. *)
Record platform (W Handle Path Plan Cleanup Job Vertex Recovery : Type) := mkPlatform {
  p_now : W → Z * W;
  p_stop_requested : W → bool;
  p_request_stop : W → W;
  p_writer : W → writer_turn * W;
  p_wake_wait : W → W;
  p_coordinator_alive : W → outcome bool * W;
  p_open_or_create : W → outcome Handle * W;
  p_open : Handle → option Path → W → outcome unit * W;
  p_start : Handle → W → outcome unit * W;
  p_persist_now : Handle → bool → bool → bool → W → outcome unit * W;
  p_stop : Handle → W → outcome unit * W;
  p_latest_checkpoint_path : Handle → W → outcome (option Path) * W;
  p_validate_vertices : W → outcome unit * W;
  p_place_workers : PlacementStrategy → W → placed Plan Cleanup * W;
  p_close_plan : Plan → W → outcome unit * W;
  p_reconcile : Cleanup → W → outcome unit * W;
  p_deploy_workers : W → outcome unit * W;
  p_start_workers : W → outcome unit * W;
  p_stop_workers : bool → W → outcome unit * W;
  p_force_kill_survivors : W → outcome unit * W;
  p_stop_job_vertex : Job → list Vertex → W → outcome unit * W;
  p_new_recovery : Recovery;
  p_recover_coordinator : Recovery → W → outcome unit * W;
  p_recover_tasks : Recovery → W → outcome bool * W;
  p_reconcile_rescale_state : W → outcome unit * W;
  p_vertices : W → list (vertex_view Handle);
  p_health_batch : list Handle → W → outcome (list bool) * W;
  p_health_one : Handle → W → outcome bool * W;
  p_deadline_expired : W → bool;
  p_coordinator_healthy : W → outcome bool * W;
  p_worker_stop : W → outcome unit * W;
  p_shutdown_output : W → W;
  p_wake : W → W
}.
Arguments p_now {_ _ _ _ _ _ _ _}.
Arguments p_stop_requested {_ _ _ _ _ _ _ _}.
Arguments p_request_stop {_ _ _ _ _ _ _ _}.
Arguments p_writer {_ _ _ _ _ _ _ _}.
Arguments p_wake_wait {_ _ _ _ _ _ _ _}.
Arguments p_coordinator_alive {_ _ _ _ _ _ _ _}.
Arguments p_open_or_create {_ _ _ _ _ _ _ _}.
Arguments p_open {_ _ _ _ _ _ _ _}.
Arguments p_start {_ _ _ _ _ _ _ _}.
Arguments p_persist_now {_ _ _ _ _ _ _ _}.
Arguments p_stop {_ _ _ _ _ _ _ _}.
Arguments p_latest_checkpoint_path {_ _ _ _ _ _ _ _}.
Arguments p_validate_vertices {_ _ _ _ _ _ _ _}.
Arguments p_place_workers {_ _ _ _ _ _ _ _}.
Arguments p_close_plan {_ _ _ _ _ _ _ _}.
Arguments p_reconcile {_ _ _ _ _ _ _ _}.
Arguments p_deploy_workers {_ _ _ _ _ _ _ _}.
Arguments p_start_workers {_ _ _ _ _ _ _ _}.
Arguments p_stop_workers {_ _ _ _ _ _ _ _}.
Arguments p_force_kill_survivors {_ _ _ _ _ _ _ _}.
Arguments p_stop_job_vertex {_ _ _ _ _ _ _ _}.
Arguments p_new_recovery {_ _ _ _ _ _ _ _}.
Arguments p_recover_coordinator {_ _ _ _ _ _ _ _}.
Arguments p_recover_tasks {_ _ _ _ _ _ _ _}.
Arguments p_reconcile_rescale_state {_ _ _ _ _ _ _ _}.
Arguments p_vertices {_ _ _ _ _ _ _ _}.
Arguments p_health_batch {_ _ _ _ _ _ _ _}.
Arguments p_health_one {_ _ _ _ _ _ _ _}.
Arguments p_deadline_expired {_ _ _ _ _ _ _ _}.
Arguments p_coordinator_healthy {_ _ _ _ _ _ _ _}.
Arguments p_worker_stop {_ _ _ _ _ _ _ _}.
Arguments p_shutdown_output {_ _ _ _ _ _ _ _}.
Arguments p_wake {_ _ _ _ _ _ _ _}.

(** The mutable fields of the job master and of the job manager, with the world. *)
Record control (W Handle Plan Cleanup Job Vertex Recovery : Type) := mkControl {
  c_strategy : FixedDelayRestartStrategy;
  c_coordinator : option Handle;
  c_plan : option Plan;
  c_pending_actors : list (string * (Job * Vertex));
  c_pending_placement : list Cleanup;
  c_recovery : Recovery;
  c_status : JobStatus;
  c_teardown_failures : list exn;
  c_world : W
}.
Arguments mkControl {_ _ _ _ _ _ _}.
Arguments c_strategy {_ _ _ _ _ _ _}.
Arguments c_coordinator {_ _ _ _ _ _ _}.
Arguments c_plan {_ _ _ _ _ _ _}.
Arguments c_pending_actors {_ _ _ _ _ _ _}.
Arguments c_pending_placement {_ _ _ _ _ _ _}.
Arguments c_recovery {_ _ _ _ _ _ _}.
Arguments c_status {_ _ _ _ _ _ _}.
Arguments c_teardown_failures {_ _ _ _ _ _ _}.
Arguments c_world {_ _ _ _ _ _ _}.

Section control_plane.
Context {W Handle Path Plan Cleanup Job Vertex Recovery : Type} `{EqDecision Cleanup, EqDecision Job}.
Context (P : platform W Handle Path Plan Cleanup Job Vertex Recovery) (cfg : deployment_config).

Abbreviation state := (control W Handle Plan Cleanup Job Vertex Recovery).
Abbreviation ctl := (exec state).
Implicit Types (c : state) (w : W).

(** *** Fields *)

Definition set_strategy x c : state := mkControl x (c_coordinator c) (c_plan c) (c_pending_actors c) (c_pending_placement c) (c_recovery c) (c_status c) (c_teardown_failures c) (c_world c).
Definition set_coordinator x c : state := mkControl (c_strategy c) x (c_plan c) (c_pending_actors c) (c_pending_placement c) (c_recovery c) (c_status c) (c_teardown_failures c) (c_world c).
Definition set_plan x c : state := mkControl (c_strategy c) (c_coordinator c) x (c_pending_actors c) (c_pending_placement c) (c_recovery c) (c_status c) (c_teardown_failures c) (c_world c).
Definition set_pending_actors x c : state := mkControl (c_strategy c) (c_coordinator c) (c_plan c) x (c_pending_placement c) (c_recovery c) (c_status c) (c_teardown_failures c) (c_world c).
Definition set_pending_placement x c : state := mkControl (c_strategy c) (c_coordinator c) (c_plan c) (c_pending_actors c) x (c_recovery c) (c_status c) (c_teardown_failures c) (c_world c).
Definition set_recovery x c : state := mkControl (c_strategy c) (c_coordinator c) (c_plan c) (c_pending_actors c) (c_pending_placement c) x (c_status c) (c_teardown_failures c) (c_world c).
Definition set_status x c : state := mkControl (c_strategy c) (c_coordinator c) (c_plan c) (c_pending_actors c) (c_pending_placement c) (c_recovery c) x (c_teardown_failures c) (c_world c).
Definition set_teardown_failures x c : state := mkControl (c_strategy c) (c_coordinator c) (c_plan c) (c_pending_actors c) (c_pending_placement c) (c_recovery c) (c_status c) x (c_world c).
Definition set_world x c : state := mkControl (c_strategy c) (c_coordinator c) (c_plan c) (c_pending_actors c) (c_pending_placement c) (c_recovery c) (c_status c) (c_teardown_failures c) x.

(** A call into the world. *)
Definition outside {A} (f : W → outcome A * W) : ctl A := λ c,
  let '(o, w) := f (c_world c) in (o, set_world w c).

(** One that does not raise. *)
Definition observe {A} (f : W → A * W) : ctl A := λ c,
  let '(a, w) := f (c_world c) in (Ok a, set_world w c).

Definition on_strategy {A} (f : FixedDelayRestartStrategy → A * FixedDelayRestartStrategy) : ctl A := λ c,
  let '(a, r) := f (c_strategy c) in (Ok a, set_strategy r c).

(** *** Deployment *)

Definition placement_strategies : list PlacementStrategy :=
  if dc_debug_mode cfg || negb (dc_schedulable_workers cfg) then [NativeStrategy]
  else (if dc_placement_group_enabled cfg && negb (dc_balanced cfg) then [PlacementGroupStrategy] else [])
       ++ [RoundRobinStrategy; NativeStrategy].

Definition remember_pending_placement_cleanup (cleanup : Cleanup) : ctl unit :=
  modify (λ c, if decide (cleanup ∈ c_pending_placement c) then c
               else set_pending_placement (c_pending_placement c ++ [cleanup]) c).

Definition reconcile_pending_placement_cleanup : ctl unit :=
  pending ← gets c_pending_placement;
  kept ← exec_map (λ t, r ← attempt (outside (p_reconcile P t)); mret (if is_ok r then [] else [t])) pending;
  let remaining := mjoin kept in
  _ ← modify (set_pending_placement remaining);
  if decide (remaining = []) then mret () else throw RuntimeError.

Definition close_placement_plan : ctl unit :=
  plan ← gets c_plan;
  match plan with
  | None => mret ()
  | Some plan => _ ← outside (p_close_plan P plan); modify (set_plan None)
  end.

(** The cascade of [_create_workers]. *)
Fixpoint try_strategies (strategies : list PlacementStrategy) : ctl unit :=
  match strategies with
  | [] => throw DeploymentError
  | s :: strategies =>
      r ← observe (p_place_workers P s);
      match r with
      | Placed plan => modify (set_plan (Some plan))
      | Infeasible => try_strategies strategies
      | PlacementLeftovers plan => _ ← remember_pending_placement_cleanup plan; throw DeploymentError
      | PlacementRaised e => throw e
      end
  end.

Definition create_workers : ctl unit :=
  _ ← outside (p_validate_vertices P);
  _ ← reconcile_pending_placement_cleanup;
  _ ← close_placement_plan;
  try_strategies placement_strategies.

Definition open_coordinator (restore_path : option Path) : ctl unit :=
  coordinator ← gets c_coordinator;
  usable ← match coordinator with None => mret false | Some _ => outside (p_coordinator_alive P) end;
  _ ← (if usable : bool then mret () else h ← outside (p_open_or_create P); modify (set_coordinator (Some h)));
  coordinator ← gets c_coordinator;
  match coordinator with None => throw AttributeError | Some h => outside (p_open P h restore_path) end.

Definition start_coordinator : ctl unit :=
  coordinator ← gets c_coordinator;
  match coordinator with None => throw AttributeError | Some h => outside (p_start P h) end.

(** Whether [except DeploymentError] catches the exception. *)
Definition deployment_error (e : exn) : bool :=
  match e with DeploymentError | PlacementError => true | _ => false end.

Definition stages (restore_path : option Path) : list (ctl unit) :=
  [create_workers; open_coordinator restore_path; outside (p_deploy_workers P); outside (p_start_workers P);
   start_coordinator].

Definition schedule (restore_path : option Path) : ctl unit :=
  exec_each (λ run_stage : ctl unit,
    try_except run_stage (λ e, throw (if deployment_error e then e else DeploymentError))) (stages restore_path).

(** *** Teardown *)

Fixpoint add_to_group (jv : Job) (v : string * Vertex) (groups : list (Job * list (string * Vertex)))
    : list (Job * list (string * Vertex)) :=
  match groups with
  | [] => [(jv, [v])]
  | (j, vs) :: groups =>
      if decide (j = jv) then (j, vs ++ [v]) :: groups else (j, vs) :: add_to_group jv v groups
  end.

Definition cleanup_groups (pending : list (string * (Job * Vertex))) : list (Job * list (string * Vertex)) :=
  foldl (λ groups '(name, (jv, v)), add_to_group jv (name, v) groups) [] pending.

Definition cleanup_pending_rescale_actors : ctl unit :=
  pending ← gets c_pending_actors;
  exec_each (λ '(jv, vs),
    _ ← outside (p_stop_job_vertex P jv vs.*2);
    modify (λ c, set_pending_actors (filter (λ p, p.1 ∉ vs.*1) (c_pending_actors c)) c)) (cleanup_groups pending).

(** Runs a step of the teardown and keeps its exception. *)
Definition teardown_step (m : ctl unit) : ctl (list exn) :=
  r ← attempt m; mret (match r with Ok _ => [] | Err e => [e] end).

Definition stop_workers_and_placement (force : bool) : ctl (list exn) :=
  worker_error ← teardown_step (outside (p_stop_workers P force));
  e1 ← teardown_step cleanup_pending_rescale_actors;
  e2 ← teardown_step reconcile_pending_placement_cleanup;
  e3 ← teardown_step close_placement_plan;
  e4 ← (if decide (worker_error = []) then mret [] else teardown_step (outside (p_force_kill_survivors P)));
  mret (e1 ++ e2 ++ e3 ++ e4).

Definition stop_coordinator (graceful_completion : bool) : ctl (option exn) :=
  coordinator ← gets c_coordinator;
  alive ← match coordinator with None => mret false | Some _ => outside (p_coordinator_alive P) end;
  match coordinator, alive with
  | Some h, true =>
      flushed ← attempt (outside (p_persist_now P h graceful_completion (negb graceful_completion) graceful_completion));
      stopped ← attempt (outside (p_stop P h));
      mret (match stopped, flushed with
            | Err e, _ => Some e
            | Ok _, Err e => if graceful_completion then Some e else None
            | Ok _, Ok _ => None
            end)
  | _, _ => mret (if graceful_completion then Some RuntimeError else None)
  end.

Definition stop_job (force graceful_completion : bool) : ctl unit :=
  early ← (if graceful_completion then stop_coordinator true else mret None);
  teardown_errors ← stop_workers_and_placement force;
  late ← (if graceful_completion then mret early else stop_coordinator false);
  let teardown_errors := teardown_errors ++ option_list late in
  if decide (teardown_errors = []) then mret () else throw RuntimeError.

(** *** Restart and recovery *)

Definition restart (force : bool) : ctl RestartStatus :=
  now ← observe (p_now P);
  recorded ← on_strategy (record_and_should_suppress now);
  _ ← on_strategy (window_view now);
  if (recorded : bool * Z).1 then mret SUPPRESSED
  else
    try_except (
      _ ← stop_job force false;
      coordinator ← gets c_coordinator;
      restore_path ← match coordinator with
                     | None => mret None
                     | Some h => outside (p_latest_checkpoint_path P h)
                     end;
      _ ← schedule restore_path;
      _ ← modify (set_recovery (p_new_recovery P));
      mret SUCCESS) (λ _, mret FAILED).

Definition recover_coordinator_if_needed : ctl unit :=
  recovery ← gets c_recovery; outside (p_recover_coordinator P recovery).

Definition reconcile_rescale_cleanup : ctl bool :=
  a ← attempt cleanup_pending_rescale_actors;
  b ← attempt reconcile_pending_placement_cleanup;
  d ← attempt (outside (p_reconcile_rescale_state P));
  mret (is_ok a && is_ok b && is_ok d).

Definition try_recover_tasks : ctl bool :=
  _ ← reconcile_rescale_cleanup;
  recovery ← gets c_recovery;
  outside (p_recover_tasks P recovery).

(** *** Health *)

(** What local state settles, in vertex order: a verdict or an actor to ask. *)
Definition local_health (v : vertex_view Handle) : bool + Handle :=
  match vv_status v with
  | VFailed => inl false
  | VFinished => inl true
  | _ => match vv_stream_task v with None => inl false | Some h => inr h end
  end.

Definition gather_one (h : Handle) : ctl bool :=
  expired ← gets (λ c, p_deadline_expired P (c_world c));
  if expired : bool then mret false
  else r ← attempt (outside (p_health_one P h)); mret (match r with Ok b => b | Err _ => false end).

Definition gather_health (requests : list Handle) : ctl (list bool) :=
  if decide (length requests = 0%nat) then mret []
  else
    r ← attempt (outside (p_health_batch P requests));
    match r with Ok results => mret results | Err _ => exec_map gather_one requests end.

Fixpoint zip_strict {A B} (l : list A) (m : list B) : outcome (list (A * B)) :=
  match l, m with
  | [], [] => Ok []
  | a :: l, b :: m => r ← zip_strict l m; Ok ((a, b) :: r)
  | _, _ => Err ValueError
  end.

Definition check_task_health : ctl (gmap string bool) :=
  vertices ← gets (λ c, p_vertices P (c_world c));
  let settled := omap (λ v, match local_health v with inl b => Some (vv_name v, b) | inr _ => None end) vertices in
  let probes := omap (λ v, match local_health v with inl _ => None | inr h => Some (vv_name v, h) end) vertices in
  results ← gather_health probes.*2;
  probed ← of_outcome (zip_strict probes.*1 results);
  mret (foldl (λ m '(name, b), <[name := b]> m) ∅ (settled ++ probed)).

(** [JobHealthReport(...).healthy]. *)
Definition health_report : ctl bool :=
  tasks ← check_task_health;
  coordinator ← outside (p_coordinator_healthy P);
  mret (bool_decide (map_Forall (λ _ b, b = true) tasks) && coordinator).

(** *** Permanent failure *)

(** [JobManager._stop_job]. *)
Definition stop_job_now (force graceful_completion : bool) : ctl unit :=
  _ ← (if graceful_completion then mret () else modify (λ c, set_world (p_shutdown_output P (c_world c)) c));
  _ ← outside (p_worker_stop P);
  _ ← modify (λ c, set_world (p_wake P (c_world c)) c);
  turn ← observe (p_writer P);
  match turn with
  | Completed => stop_job force graceful_completion
  | TimedOutRunning => _ ← attempt (stop_job force graceful_completion); throw TimeoutError
  | TimedOutQueued => throw TimeoutError
  end.

Definition update_job_status (status : JobStatus) : ctl unit := modify (set_status status).

Definition record_teardown_failure (e : exn) : ctl unit :=
  modify (λ c, set_teardown_failures (c_teardown_failures c ++ [e]) c).

Definition fail_permanently (force : bool) : ctl unit :=
  _ ← modify (λ c, set_world (p_request_stop P (c_world c)) c);
  _ ← try_except (stop_job_now force false) record_teardown_failure;
  update_job_status JFailed.

(** *** The supervisor *)

Inductive restart_exit := Stopped | Restarted | FailedPermanently.

(** One turn of the retry loop of [FailoverSupervisor.restart]: how it ends the loop,
    if it does. *)
Definition restart_turn (force : bool) : ctl (option restart_exit) :=
  stop ← gets (λ c, p_stop_requested P (c_world c));
  if stop : bool then mret (Some Stopped)
  else
    turn ← observe (p_writer P);
    result ← match turn with
             | Completed => try_except (restart force) (λ _, mret FAILED)
             | TimedOutRunning => _ ← attempt (restart force); mret FAILED
             | TimedOutQueued => mret FAILED
             end;
    match result with
    | SUCCESS => mret (Some Restarted)
    | SUPPRESSED => _ ← fail_permanently force; mret (Some FailedPermanently)
    | FAILED =>
        delay ← gets (λ c, rs_delay (c_strategy c));
        _ ← (if 0 <? delay then modify (λ c, set_world (p_wake_wait P (c_world c)) c) else mret ());
        mret None
    end.

(** [while True], cut off after [fuel] turns. *)
Fixpoint supervisor_restart (fuel : nat) (force : bool) : ctl (option restart_exit) :=
  match fuel with
  | O => mret None
  | S fuel =>
      exit ← restart_turn force;
      match exit with Some e => mret (Some e) | None => supervisor_restart fuel force end
  end.

Definition sleep_until_next_tick : ctl unit := modify (λ c, set_world (p_wake_wait P (c_world c)) c).

(** [run_exclusive] without a timeout. *)
Definition tick (fuel : nat) : ctl (option restart_exit) :=
  _ ← attempt recover_coordinator_if_needed;
  report ← attempt health_report;
  if decide (report = Ok true) then _ ← sleep_until_next_tick; mret None
  else
    recovered ← attempt try_recover_tasks;
    if decide (recovered = Ok true) then _ ← sleep_until_next_tick; mret None
    else supervisor_restart fuel true.
End control_plane.

(** ** The restart strategy counts the triggers of the last interval *)

Lemma popleft_while_suffix p l : ∃ old, l = old ++ popleft_while p l ∧ Forall (λ t, p t = true) old.
Proof.
  induction l as [|t l (old & E & Hold)]; cbn; [by exists []|].
  destruct (p t) eqn:Ep; [|by exists []]. exists (t :: old). rewrite E at 1. by split; [|constructor].
Qed.

Lemma popleft_while_keeps p l : Forall (λ t, p t = false) l → popleft_while p l = l.
Proof. destruct 1 as [|t l Ht _]; cbn; [done|]. by rewrite Ht. Qed.

(** What is kept of a suffix none of which is to be removed. *)
Lemma popleft_while_app p old recs :
  Forall (λ t, p t = false) recs → ∃ old', popleft_while p (old ++ recs) = old' ++ recs ∧ old' `suffix_of` old.
Proof.
  intros Hr. induction old as [|t old IH]; cbn.
  - exists []. by rewrite popleft_while_keeps.
  - destruct (p t); [|by exists (t :: old)]. destruct IH as (old' & -> & Hs). exists old'. split; [done|by apply suffix_cons_r].
Qed.

Lemma expired_mono interval now t u : t <= u → expired interval now t = false → expired interval now u = false.
Proof. unfold expired. rewrite !Z.ltb_ge. lia. Qed.

(** On recorded times in order the window is exactly the last interval. *)
Lemma prune_sorted now r :
  StronglySorted Z.le (rs_window r) →
  rs_window (prune now r) = filter (λ t, expired (rs_count_interval r) now t = false) (rs_window r).
Proof.
  unfold prune. cbn [rs_window with_window]. generalize (rs_window r) as l.
  induction 1 as [|t l Hs IH Ht]; [done|]. cbn [popleft_while]. rewrite filter_cons.
  destruct (expired _ now t) eqn:E; [by rewrite decide_False|]. rewrite decide_True by done. f_equal.
  symmetry. apply filter_all. intros u Hu. eapply expired_mono; [|exact E].
  by apply (proj1 (Forall_forall _ _) Ht).
Qed.

Record restart_window (now : Z) (r : FixedDelayRestartStrategy) : Prop := {
  rw_sorted : StronglySorted Z.le (rs_window r);
  rw_past : Forall (λ t, t <= now) (rs_window r)
}.

Lemma restart_window_later now now' r : now <= now' → restart_window now r → restart_window now' r.
Proof. intros Hle [Hs Hp]. split; [done|]. eapply Forall_impl; [exact Hp|]. cbn. lia. Qed.

Lemma restart_window_prune now now' r : restart_window now r → restart_window now (prune now' r).
Proof.
  intros [Hs Hp]. unfold prune. destruct (popleft_while_suffix (expired (rs_count_interval r) now') (rs_window r)) as (old & E & _).
  split; cbn [rs_window with_window].
  - eapply StronglySorted_sublist; [exact Hs|]. rewrite E at 2. apply sublist_app_r, sublist_nil_l || by apply sublist_inserts_l.
  - rewrite E in Hp. by apply Forall_app in Hp as [_ ?].
Qed.

Lemma StronglySorted_snoc_le l t : StronglySorted Z.le l → Forall (λ u, u <= t) l → StronglySorted Z.le (l ++ [t]).
Proof.
  induction 1 as [|u l Hs IH Hu]; intros Ht; cbn; [by repeat constructor|]. apply Forall_cons in Ht as [Hut Ht].
  constructor; [by apply IH|]. apply Forall_app. split; [done|by repeat constructor].
Qed.

(** One trigger: with the clock monotone, the answer is whether more than
    [max_attempts] triggers, this one included, fall within the interval. *)
Lemma record_and_should_suppress_spec now r :
  restart_window now r → 0 < rs_count_interval r →
  let recent := filter (λ t, expired (rs_count_interval r) now t = false) (rs_window r ++ [now]) in
  let '((suppress, attempts), r') := record_and_should_suppress now r in
  attempts = Z.of_nat (length recent) ∧ suppress = (rs_max_attempts r <? attempts) ∧
  rs_window r' = recent ∧ restart_window now r' ∧
  rs_max_attempts r' = rs_max_attempts r ∧ rs_count_interval r' = rs_count_interval r ∧ rs_delay r' = rs_delay r.
Proof.
  intros Hw Hi. cbn. fold (prune now r). pose proof (restart_window_prune now now r Hw) as [Hs Hp].
  assert (rs_window (prune now r) ++ [now] =
    filter (λ t, expired (rs_count_interval r) now t = false) (rs_window r ++ [now])) as E.
  { rewrite prune_sorted, filter_app by apply Hw. f_equal. rewrite filter_cons, filter_nil, decide_True; [done|].
    unfold expired. apply Z.ltb_ge. lia. }
  cbn [prune with_window rs_window rs_max_attempts] in *. rewrite E. repeat (split; [done|]). split; [|done].
  split; cbn [rs_window with_window]; rewrite <-E.
  - by apply StronglySorted_snoc_le.
  - apply Forall_app. split; [done|]. by repeat constructor.
Qed.

(** ** The retry loop *)

Section retry_loop.
Context {W Handle Path Plan Cleanup Job Vertex Recovery : Type} `{EqDecision Cleanup, EqDecision Job}.
Context (P : platform W Handle Path Plan Cleanup Job Vertex Recovery) (cfg : deployment_config).
(** The wall clock of the world, in seconds. *)
Context (clock : W → Z).

Abbreviation state := (control W Handle Plan Cleanup Job Vertex Recovery).
Implicit Types (c : state) (w : W).

Definition no_earlier {A} (f : W → A * W) : Prop := ∀ w, clock w <= clock (f w).2.

(** No call takes the clock back. *)
Record calls_forward : Prop := {
  cf_now_forward : no_earlier (p_now P);
  cf_request_stop w : clock w <= clock (p_request_stop P w);
  cf_writer : no_earlier (p_writer P);
  cf_coordinator_alive : no_earlier (p_coordinator_alive P);
  cf_open_or_create : no_earlier (p_open_or_create P);
  cf_open h path : no_earlier (p_open P h path);
  cf_start h : no_earlier (p_start P h);
  cf_persist_now h x y z : no_earlier (p_persist_now P h x y z);
  cf_stop h : no_earlier (p_stop P h);
  cf_latest h : no_earlier (p_latest_checkpoint_path P h);
  cf_validate : no_earlier (p_validate_vertices P);
  cf_place s : no_earlier (p_place_workers P s);
  cf_close plan : no_earlier (p_close_plan P plan);
  cf_reconcile x : no_earlier (p_reconcile P x);
  cf_deploy : no_earlier (p_deploy_workers P);
  cf_start_workers : no_earlier (p_start_workers P);
  cf_stop_workers force : no_earlier (p_stop_workers P force);
  cf_kill : no_earlier (p_force_kill_survivors P);
  cf_stop_vertex jv vs : no_earlier (p_stop_job_vertex P jv vs);
  cf_worker_stop : no_earlier (p_worker_stop P);
  cf_shutdown_output w : clock w <= clock (p_shutdown_output P w);
  cf_wake w : clock w <= clock (p_wake P w)
}.

(** Nor does waiting, and [now_seconds] reads the clock. *)
Record clock_forward : Prop := {
  cf_calls : calls_forward;
  cf_now w : (p_now P w).1 = clock w;
  cf_wake_wait w : clock w <= clock (p_wake_wait P w)
}.

(** Nothing but a trigger touches the strategy, and time passes. *)
Definition passes c c' : Prop := c_strategy c' = c_strategy c ∧ clock (c_world c) <= clock (c_world c').

#[local] Instance passes_preorder : PreOrder passes.
Proof.
  unfold passes. split; [intros c; split; [done|lia]|].
  intros a b d [-> ?] [-> ?]. split; [done|lia].
Qed.

Lemma passes_outside {A} (f : W → outcome A * W) : no_earlier f → keeps passes (outside f).
Proof. intros Hf c. unfold outside. pose proof (Hf (c_world c)) as Hc. by destruct (f _). Qed.

Lemma passes_observe {A} (f : W → A * W) : no_earlier f → keeps passes (observe f).
Proof. intros Hf c. unfold observe. pose proof (Hf (c_world c)) as Hc. by destruct (f _). Qed.

(** A write to a field of the job master or of the job manager. *)
Lemma passes_write (f : state → state) :
  (∀ c, c_strategy (f c) = c_strategy c ∧ c_world (f c) = c_world c) → keeps passes (modify f).
Proof. intros Hf c. destruct (Hf c) as [Es Ew]. cbn. unfold passes. rewrite Es, Ew. split; [done|lia]. Qed.

Ltac passes_step :=
  match goal with
  | |- keeps _ (_ ≫= _) => apply (keeps_bind passes); [|intros ?]
  | |- keeps _ (mret _) => apply (keeps_ret passes)
  | |- keeps _ (throw _) => apply (keeps_throw passes)
  | |- keeps _ (gets _) => apply (keeps_gets passes)
  | |- keeps _ (of_outcome _) => apply (keeps_of_outcome passes)
  | |- keeps _ (attempt _) => apply (keeps_attempt passes)
  | |- keeps _ (try_except _ _) => apply (keeps_try_except passes); [|intros ?]
  | |- keeps _ (exec_each _ _) => apply (keeps_exec_each passes); intros ?
  | |- keeps _ (exec_map _ _) => apply (keeps_exec_map passes); intros ?
  | |- keeps _ (outside _) => apply passes_outside
  | |- keeps _ (observe _) => apply passes_observe
  | |- keeps _ (modify _) => apply passes_write; by intros
  | |- keeps _ (match ?x with _ => _ end) => destruct x
  end.

Context (Hcalls : calls_forward).
#[local] Hint Resolve cf_now_forward cf_writer cf_coordinator_alive cf_open_or_create cf_open cf_start cf_persist_now
  cf_stop cf_latest cf_validate cf_place cf_close cf_reconcile cf_deploy cf_start_workers cf_stop_workers cf_kill
  cf_stop_vertex cf_worker_stop : core.
Ltac passes := repeat first [passes_step | by eauto].

Lemma passes_remember x : keeps passes (remember_pending_placement_cleanup x).
Proof. apply passes_write. intros c. by case_decide. Qed.

Lemma passes_reconcile : keeps passes (reconcile_pending_placement_cleanup P).
Proof. unfold reconcile_pending_placement_cleanup. passes. Qed.

Lemma passes_close : keeps passes (close_placement_plan P).
Proof. unfold close_placement_plan. passes. Qed.

Lemma passes_create_workers : keeps passes (create_workers P cfg).
Proof.
  unfold create_workers. passes_step; [passes|]. passes_step; [apply passes_reconcile|]. passes_step; [apply passes_close|].
  induction (placement_strategies cfg); cbn [try_strategies]; passes; apply passes_remember.
Qed.

Lemma passes_schedule path : keeps passes (schedule P cfg path).
Proof.
  unfold schedule, stages. cbn [exec_each].
  passes_step; [apply (keeps_try_except passes); [apply passes_create_workers|passes]|].
  unfold open_coordinator, start_coordinator. passes.
Qed.

Lemma passes_actor_cleanup : keeps passes (cleanup_pending_rescale_actors P).
Proof. unfold cleanup_pending_rescale_actors. passes. Qed.

Lemma passes_stop_job force graceful : keeps passes (stop_job P force graceful).
Proof.
  unfold stop_job, stop_workers_and_placement, stop_coordinator, teardown_step.
  repeat first [apply passes_actor_cleanup | apply passes_reconcile | apply passes_close | passes_step | by eauto].
Qed.

Lemma passes_fail_permanently force : keeps passes (fail_permanently P force).
Proof.
  unfold fail_permanently, stop_job_now, record_teardown_failure, update_job_status.
  assert (Hworld : ∀ f, (∀ w, clock w <= clock (f w)) → keeps passes (modify (λ c, set_world (f (c_world c)) c)))
    by (intros f Hf c; split; [done|apply Hf]).
  passes_step; [by apply Hworld, cf_request_stop|].
  repeat first [by apply Hworld, cf_shutdown_output | by apply Hworld, cf_wake | apply passes_stop_job | passes_step | by eauto].
Qed.

(** A trigger changes the strategy, but takes no time back either. *)
Definition later c c' : Prop := clock (c_world c) <= clock (c_world c').

#[local] Instance later_preorder : PreOrder later.
Proof. unfold later. split; [intros c; lia|intros a b d; lia]. Qed.

Lemma passes_later {A} (m : exec state A) : keeps passes m → keeps later m.
Proof. intros Hm c. apply Hm. Qed.

Lemma later_restart force : keeps later (restart P cfg force).
Proof.
  unfold restart. apply (keeps_bind later); [apply passes_later; passes|]. intros now.
  apply (keeps_bind later); [intros c; unfold on_strategy, later; destruct (record_and_should_suppress _ _); cbn; lia|]. intros [suppress n].
  apply (keeps_bind later); [intros c; unfold on_strategy, later; cbn; lia|]. intros view.
  destruct suppress; [apply (keeps_ret later)|]. apply passes_later.
  repeat first [apply passes_stop_job | apply passes_schedule | passes_step | by eauto].
Qed.

(** A turn goes back no further than its wait. *)
Lemma restart_turn_later force D c :
  0 <= D → (∀ w, clock w <= clock (p_wake_wait P w) + D) → clock (c_world c) <= clock (c_world (restart_turn P cfg force c).2) + D.
Proof.
  intros HD Hwait. unfold restart_turn. rewrite exec_bind_state. cbn [fst snd gets].
  destruct (p_stop_requested P (c_world c)); [cbn; lia|]. rewrite exec_bind_state.
  assert (later c (observe (p_writer P) c).2) as H1 by (apply passes_later; passes).
  destruct (observe (p_writer P) c) as [[turn|e] c1]; cbn [fst snd] in *; unfold later in H1; [|lia].
  rewrite exec_bind_state.
  match goal with |- context [match (?m c1).1 with _ => _ end] => assert (keeps later m) as Hm; [|set (body := m) in *] end.
  { destruct turn; [|apply (keeps_bind later); [apply (keeps_attempt later), later_restart|intros; apply (keeps_ret later)]|apply (keeps_ret later)].
    apply (keeps_try_except later); [apply later_restart|intros; apply (keeps_ret later)]. }
  specialize (Hm c1). unfold later in Hm. destruct (body c1) as [[result|e] c2]; cbn [fst snd] in *; [|lia].
  destruct result; [cbn; lia| |].
  - rewrite exec_bind_state. cbn [fst snd gets]. pose proof (Hwait (c_world c2)) as Hw.
    rewrite exec_bind_state. destruct (0 <? rs_delay (c_strategy c2)); cbn; lia.
  - rewrite exec_bind_state. pose proof (passes_later _ (passes_fail_permanently force) c2) as Hf. unfold later in Hf.
    destruct (fail_permanently P force c2) as [[|] c3]; cbn [fst snd] in *; cbn; lia.
Qed.

Context (Hclock : clock_forward).

(** Reading the window back at the time of the trigger changes nothing. *)
Lemma prune_recorded now r :
  restart_window now r → 0 < rs_count_interval r →
  prune now (record_and_should_suppress now r).2 = (record_and_should_suppress now r).2.
Proof.
  intros Hw Hi. pose proof (record_and_should_suppress_spec now r Hw Hi) as Hspec.
  destruct (record_and_should_suppress now r) as [[b n] r']. cbn [snd] in *.
  destruct Hspec as (_ & _ & Ew & _ & _ & Ei & _). unfold prune. rewrite popleft_while_keeps; [by destruct r'|].
  rewrite Ew, Ei. apply Forall_forall. by intros t [? _]%list_elem_of_filter.
Qed.

(** One call of [restart] records one trigger, at the time it reads. *)
Lemma restart_spec force c :
  restart_window (clock (c_world c)) (c_strategy c) → 0 < rs_count_interval (c_strategy c) →
  let '((suppress, _), r') := record_and_should_suppress (clock (c_world c)) (c_strategy c) in
  ∃ status c', restart P cfg force c = (Ok status, c') ∧ c_strategy c' = r' ∧
    clock (c_world c) <= clock (c_world c') ∧ (status = SUPPRESSED ↔ suppress = true).
Proof.
  intros Hw Hi. set (now := clock (c_world c)) in *. pose proof (prune_recorded now (c_strategy c) Hw Hi) as Hprune.
  destruct (record_and_should_suppress now (c_strategy c)) as [[suppress attempts] r'] eqn:Er. cbn [snd] in Hprune.
  unfold restart. destruct (p_now P (c_world c)) as [t w1] eqn:Ep.
  assert (t = now) as -> by (pose proof (cf_now Hclock (c_world c)) as E; rewrite Ep in E; exact E).
  pose proof (cf_now_forward Hcalls (c_world c)) as Hw1. rewrite Ep in Hw1. cbn [snd] in Hw1. fold now in Hw1.
  rewrite (exec_bind_Ok _ _ _ now (set_world w1 c)) by (unfold observe; by rewrite Ep).
  rewrite (exec_bind_Ok _ _ _ (suppress, attempts) (set_strategy r' (set_world w1 c)))
    by (unfold on_strategy; cbn [c_strategy set_world]; by rewrite Er).
  rewrite (exec_bind_Ok _ _ _ (window_view now r').1 (set_strategy r' (set_world w1 c)))
    by (unfold on_strategy, window_view; cbn; rewrite Hprune; done).
  cbn [fst]. destruct suppress; [by exists SUPPRESSED, (set_strategy r' (set_world w1 c))|].
  match goal with |- ∃ _ _, try_except ?m ?h ?s = _ ∧ _ => set (body := m); set (s1 := s); set (handler := h) end.
  assert (keeps passes (try_except body handler)) as Hkeep.
  { unfold body, handler. apply (keeps_try_except passes); [|intros ?; apply (keeps_ret passes)].
    repeat first [apply passes_stop_job | apply passes_schedule | passes_step | by eauto]. }
  destruct (Hkeep s1) as [Es Ec].
  assert (∃ status, (try_except body handler s1).1 = Ok status ∧ status ≠ SUPPRESSED) as (status & Eo & Hne).
  { unfold try_except. destruct (body s1) as [[a|e] s2] eqn:Eb; cbn; [|by exists FAILED].
    exists a. split; [done|]. revert Eb. unfold body.
    repeat (let x := fresh in let y := fresh in let E1 := fresh in let E2 := fresh in
      intros (x & y & E1 & E2)%exec_bind_inv; revert E2). intros [= <- _]. done. }
  destruct (try_except body handler s1) as [o s2] eqn:E. cbn [fst snd] in *. subst o.
  exists status, s2. split; [done|]. split; [done|]. split; [|done]. cbn in Ec. lia.
Qed.

Context (writer_in_time : ∀ w, (p_writer P w).1 = Completed).

(** One turn of the loop. *)
Lemma restart_turn_spec force c :
  restart_window (clock (c_world c)) (c_strategy c) → 0 < rs_count_interval (c_strategy c) →
  ∃ exit c', restart_turn P cfg force c = (Ok exit, c') ∧ clock (c_world c) <= clock (c_world c') ∧
    ((exit = Some Stopped ∧ p_stop_requested P (c_world c') = true ∧ c' = c) ∨
     (∃ now n suppress, clock (c_world c) <= now <= clock (c_world c') ∧
        record_and_should_suppress now (c_strategy c) = ((suppress, n), c_strategy c') ∧
        (if suppress : bool then exit = Some FailedPermanently ∧ c_status c' = JFailed
         else exit = Some Restarted ∨ exit = None))).
Proof.
  intros Hw Hi. unfold restart_turn. rewrite (exec_bind_Ok _ _ _ (p_stop_requested P (c_world c)) c) by done.
  destruct (p_stop_requested P (c_world c)) eqn:Estop.
  { exists (Some Stopped), c. split; [done|]. split; [lia|]. by left. }
  destruct (p_writer P (c_world c)) as [turn w1] eqn:Ew.
  assert (turn = Completed) as -> by (by rewrite <-(writer_in_time (c_world c)), Ew).
  pose proof (cf_writer Hcalls (c_world c)) as Hw1. rewrite Ew in Hw1. cbn [snd] in Hw1.
  rewrite (exec_bind_Ok _ _ _ Completed (set_world w1 c)) by (unfold observe; by rewrite Ew).
  pose proof (restart_spec force (set_world w1 c)) as Hr. cbn [c_world c_strategy set_world] in Hr.
  specialize (Hr (restart_window_later _ _ _ Hw1 Hw) Hi).
  destruct (record_and_should_suppress (clock w1) (c_strategy c)) as [[suppress n] r'] eqn:Er.
  destruct Hr as (status & c1 & E & Es & Hc1 & Hsup).
  rewrite (exec_bind_Ok _ _ _ status c1) by (unfold try_except; by rewrite E). subst r'.
  destruct status.
  - exists (Some Restarted), c1. split; [done|]. split; [lia|]. right. exists (clock w1), n, suppress.
    split; [lia|]. split; [done|]. destruct suppress; [discriminate (proj2 Hsup eq_refl)|by left].
  - destruct (0 <? rs_delay (c_strategy c1)) eqn:Ed.
    + exists None, (set_world (p_wake_wait P (c_world c1)) c1).
      pose proof (cf_wake_wait Hclock (c_world c1)) as Hwait.
      split; [unfold mbind, exec_bind, gets, modify; cbn; by rewrite Ed|]. cbn [c_world set_world c_strategy c_status].
      split; [lia|]. right. exists (clock w1), n, suppress. split; [lia|]. split; [done|].
      destruct suppress; [discriminate (proj2 Hsup eq_refl)|by right].
    + exists None, c1. split; [unfold mbind, exec_bind, gets; cbn; by rewrite Ed|]. split; [lia|].
      right. exists (clock w1), n, suppress. split; [lia|]. split; [done|].
      destruct suppress; [discriminate (proj2 Hsup eq_refl)|by right].
  - destruct (passes_fail_permanently force c1) as [Es2 Hc2].
    destruct (fail_permanently P force c1) as [o c2] eqn:Ef. cbn [snd] in *.
    assert (o = Ok () ∧ c_status c2 = JFailed) as [-> Hst].
    { revert Ef. unfold fail_permanently, update_job_status, record_teardown_failure, try_except, modify.
      unfold mbind, exec_bind. destruct (stop_job_now _ _ _ _) as [[[]|?] ?]; by intros [= <- <-]. }
    exists (Some FailedPermanently), c2. rewrite (exec_bind_Ok _ _ _ () c2) by done. split; [done|].
    split; [lia|]. right. exists (clock w1), n, suppress. rewrite Es2. split; [lia|]. split; [done|].
    by rewrite (proj1 Hsup eq_refl).
Qed.

(** *** The loop ends *)

(** What holds after [k] turns of a loop entered at [start]: the last [k] triggers of
    the window are the loop's own. *)
Record turned (D start : Z) (r0 : FixedDelayRestartStrategy) (k : nat) c : Prop := {
  tu_max : rs_max_attempts (c_strategy c) = rs_max_attempts r0;
  tu_interval : rs_count_interval (c_strategy c) = rs_count_interval r0;
  tu_window : restart_window (clock (c_world c)) (c_strategy c);
  tu_own : ∃ old recs, rs_window (c_strategy c) = old ++ recs ∧ length recs = k ∧ Forall (λ t, start <= t) recs;
  tu_clock : start <= clock (c_world c) <= start + Z.of_nat k * D
}.

(** A trigger that comes within the interval of the loop's start counts all of them. *)
Lemma trigger_counts D start r0 k c now n suppress r' :
  turned D start r0 k c → 0 < rs_count_interval r0 → clock (c_world c) <= now →
  1000000 * (now - start) <= rs_count_interval r0 →
  record_and_should_suppress now (c_strategy c) = ((suppress, n), r') →
  Z.of_nat (S k) <= n ∧ suppress = (rs_max_attempts r0 <? n) ∧ restart_window now r' ∧
  n = Z.of_nat (length (rs_window r')) ∧
  Forall (λ t, expired (rs_count_interval r0) now t = false ∧ t <= now) (rs_window r') ∧
  rs_max_attempts r' = rs_max_attempts r0 ∧ rs_count_interval r' = rs_count_interval r0 ∧
  ∃ old recs, rs_window r' = old ++ recs ∧ length recs = S k ∧ Forall (λ t, start <= t) recs.
Proof.
  intros [Em Ei Hw (old & recs & E & Hlen & Hown) Hc] Hpos Hnow Hspan Er.
  pose proof (record_and_should_suppress_spec now (c_strategy c) (restart_window_later _ _ _ Hnow Hw)) as Hs.
  rewrite Er, Ei in Hs. specialize (Hs Hpos) as (En & -> & Ewin & Hw' & Em' & Ei' & _).
  set (recent := λ t, expired (rs_count_interval r0) now t = false) in *.
  assert (Forall recent (recs ++ [now])) as Hrecent.
  { apply Forall_forall. intros t Ht. unfold recent, expired. apply Z.ltb_ge.
    assert (start <= t); [|lia]. apply elem_of_app in Ht as [Ht|Ht%list_elem_of_singleton]; [|lia].
    by apply (proj1 (Forall_forall _ _) Hown). }
  assert (rs_window r' = filter recent old ++ (recs ++ [now])) as E'.
  { rewrite Ewin, E, <-app_assoc, filter_app. f_equal. apply filter_all.
    by apply (proj1 (Forall_forall _ _)). }
  rewrite Em in *. split_and!; try done.
  - rewrite En, <-Ewin, E', !length_app. cbn. lia.
  - by rewrite En, <-Ewin.
  - apply Forall_forall. intros t Ht. split; [|by apply (proj1 (Forall_forall _ _) (rw_past _ _ Hw'))].
    rewrite Ewin in Ht. by apply list_elem_of_filter in Ht as [? _].
  - exists (filter recent old), (recs ++ [now]). split; [done|]. rewrite length_app. cbn. split; [lia|].
    apply Forall_app. split; [done|]. repeat constructor. lia.
Qed.

(** How the loop ends. *)
Definition loop_ended (r0 : FixedDelayRestartStrategy) (exit : restart_exit) c : Prop :=
  match exit with
  | Stopped => p_stop_requested P (c_world c) = true
  | Restarted => True
  | FailedPermanently =>
      c_status c = JFailed ∧ ∃ now, rs_max_attempts r0 < Z.of_nat (length (rs_window (c_strategy c))) ∧
        Forall (λ t, expired (rs_count_interval r0) now t = false ∧ t <= now) (rs_window (c_strategy c))
  end.

Lemma supervisor_restart_turned D start r0 force k fuel c :
  0 < rs_count_interval r0 → 0 <= rs_max_attempts r0 → 0 <= D →
  1000000 * ((rs_max_attempts r0 + 1) * D) <= rs_count_interval r0 →
  (∀ c, clock (c_world (restart_turn P cfg force c).2) <= clock (c_world c) + D) →
  turned D start r0 k c → Z.of_nat k <= rs_max_attempts r0 → rs_max_attempts r0 + 1 <= Z.of_nat (k + fuel) →
  ∃ exit c', supervisor_restart P cfg fuel force c = (Ok (Some exit), c') ∧ loop_ended r0 exit c'.
Proof.
  intros Hi Hm HD Hspan Hstep. revert k c. induction fuel as [|fuel IH]; intros k c Hk Hle Hfuel; [lia|].
  pose proof Hk as [Em Ei Hw _ Hc].
  destruct (restart_turn_spec force c Hw ltac:(lia)) as (exit & c1 & E & Hc1 & Hcase).
  pose proof (Hstep c) as Hd. rewrite E in Hd. cbn [snd] in Hd.
  cbn [supervisor_restart]. rewrite (exec_bind_Ok _ _ _ _ _ E).
  destruct Hcase as [(-> & Hstop & ->)|(now & n & suppress & Hnow & Er & Hexit)]; [by exists Stopped, c|].
  destruct (trigger_counts D start r0 k c now n suppress _ Hk Hi (proj1 Hnow) ltac:(nia) Er)
    as (Hn & Hsup & Hwin & En & Hrecent & Em' & Ei' & Hown).
  destruct suppress.
  - destruct Hexit as [-> Hst]. exists FailedPermanently, c1. split; [done|]. split; [done|]. exists now.
    split; [|done]. rewrite <-En. symmetry in Hsup. by apply Z.ltb_lt in Hsup.
  - symmetry in Hsup. apply Z.ltb_ge in Hsup. destruct Hexit as [->| ->]; [by exists Restarted, c1|].
    apply (IH (S k)); [|lia|lia]. split; try done; [|lia]. eapply restart_window_later; [|exact Hwin]. lia.
Qed.
End retry_loop.

(** C35. The supervisor's retry loop ends if every attempt gets the writer and completes
    (with a writer that stays busy it does not, [busy_writer_retried]).  If also the clock
    never goes back, a turn takes at most [D], and [max_attempts + 1] turns fit in the
    counting interval, then within [max_attempts + 1] turns the loop has been told to
    stop, has restarted the job, or has failed it for good; and it fails the job only
    when the strategy's window then holds more than [max_attempts] restarts, all within
    one interval. *)
Theorem supervisor_restart_terminates
    {W Handle Path Plan Cleanup Job Vertex Recovery : Type} `{EqDecision Cleanup, EqDecision Job}
    (P : platform W Handle Path Plan Cleanup Job Vertex Recovery) (cfg : deployment_config) (clock : W → Z) (D : Z)
    (force : bool) (c : control W Handle Plan Cleanup Job Vertex Recovery) (fuel : nat) :
  clock_forward P clock → (∀ w, (p_writer P w).1 = Completed) →
  (∀ c, clock (c_world (restart_turn P cfg force c).2) <= clock (c_world c) + D) →
  0 < rs_count_interval (c_strategy c) → 0 <= rs_max_attempts (c_strategy c) → 0 <= D →
  1000000 * ((rs_max_attempts (c_strategy c) + 1) * D) <= rs_count_interval (c_strategy c) →
  restart_window (clock (c_world c)) (c_strategy c) →
  rs_max_attempts (c_strategy c) + 1 <= Z.of_nat fuel →
  ∃ exit c', supervisor_restart P cfg fuel force c = (Ok (Some exit), c') ∧
    match exit with
    | Stopped => p_stop_requested P (c_world c') = true
    | Restarted => True
    | FailedPermanently =>
        c_status c' = JFailed ∧ ∃ now, rs_max_attempts (c_strategy c) < Z.of_nat (length (rs_window (c_strategy c'))) ∧
          Forall (λ t, expired (rs_count_interval (c_strategy c)) now t = false ∧ t <= now) (rs_window (c_strategy c'))
    end.
Proof.
  intros Hclock Hwriter Hstep Hi Hm HD Hspan Hw Hfuel.
  apply (supervisor_restart_turned P cfg clock (cf_calls _ _ Hclock) Hclock Hwriter D (clock (c_world c)) (c_strategy c) force 0); try done.
  split; try done; [|lia]. exists (rs_window (c_strategy c)), []. by rewrite app_nil_r.
Qed.

(** ** Examples *)

Module FailoverSamples.
Definition quiet {A} (a : A) : Z → outcome A * Z := λ w, (Ok a, w).

(** A cluster whose workers never deploy; waiting takes the five seconds of the delay.
    [turn] is the writer's answer. *)
Definition cluster (turn : writer_turn) (deployed : outcome unit) : platform Z nat nat nat nat nat nat nat :=
  mkPlatform _ _ _ _ _ _ _ _ (λ w, (w, w)) (λ _, false) (λ w, w) (λ w, (turn, w)) (λ w, w + 5)
    (quiet true) (quiet 1%nat) (λ _ _, quiet ()) (λ _, quiet ()) (λ _ _ _ _, quiet ()) (λ _, quiet ())
    (λ _, quiet (Some 7%nat)) (quiet ()) (λ _ w, (Placed 3%nat, w)) (λ _, quiet ()) (λ _, quiet ()) (λ w, (deployed, w))
    (quiet ()) (λ _, quiet ()) (quiet ()) (λ _ _, quiet ()) 0%nat (λ _, quiet ()) (λ _, quiet true) (quiet ()) (λ _, [])
    (λ _, quiet []) (λ _, quiet true) (λ _, false) (quiet true) (quiet ()) (λ w, w) (λ w, w).

Definition deployment : deployment_config := mkDeployment false true true false.

(** At most two restarts a minute, five seconds apart, at second 1000. *)
Definition strategy : FixedDelayRestartStrategy := mkStrategy 2 60000000 5000000 [].
Definition job : control Z nat nat nat nat nat nat := mkControl strategy (Some 1%nat) None [] [] 0%nat JRunning [] 1000.

Lemma cluster_calls turn deployed clock : calls_forward (cluster turn deployed) clock.
Proof. split; unfold no_earlier; intros; cbn; lia. Qed.
End FailoverSamples.

Section failover_samples.
Import FailoverSamples.

Example strategy_checked :
  FixedDelayRestartStrategy_init (AInt 2) (RFinite 60000000) (RFinite 5000000) = Ok strategy ∧
  FixedDelayRestartStrategy_init (ABool true) (RFinite 1) (RFinite 1) = Err TypeError ∧
  FixedDelayRestartStrategy_init (AInt 2) RNonFinite (RFinite 1) = Err ValueError ∧
  FixedDelayRestartStrategy_init (AInt 2) (RFinite 0) (RFinite 1) = Err ValueError.
Proof. done. Qed.

(** A job that deploys is restarted by the first turn. *)
Example healthy_cluster_restarts :
  (supervisor_restart (cluster Completed (Ok ())) deployment 1 true job).1 = Ok (Some Restarted).
Proof. vm_compute. reflexivity. Qed.

(** A writer that stays busy is asked for ever: an attempt that is cancelled in the
    writer's queue is not recorded, so it never counts against the limit. *)
Example busy_writer_retried fuel c :
  (supervisor_restart (cluster TimedOutQueued (Ok ())) deployment fuel true c).1 = Ok None.
Proof.
  revert c. induction fuel as [|fuel IH]; intros c; [done|]. cbn [supervisor_restart].
  unfold restart_turn, mbind, exec_bind, gets, observe, modify. cbn.
  destruct (0 <? rs_delay (c_strategy c)); apply IH.
Qed.

(** A turn of the sample cluster takes five seconds at most. *)
Lemma sample_turn c :
  c_world (restart_turn (cluster Completed (Err RuntimeError)) deployment true c).2 <= c_world c + 5.
Proof.
  pose proof (restart_turn_later (cluster Completed (Err RuntimeError)) deployment Z.opp (cluster_calls _ _ _) true 5 c) as Ht.
  cbn in Ht. assert (∀ w : Z, - w <= - (w + 5) + 5) as Hw by lia. specialize (Ht ltac:(lia) Hw). revert Ht.
  generalize (c_world (restart_turn (cluster Completed (Err RuntimeError)) deployment true c).2). lia.
Qed.

(** The deployment fails each time: two restarts and a suppressed third. *)
Lemma supervisor_restart_terminates_witness :
  (supervisor_restart (cluster Completed (Err RuntimeError)) deployment 3 true job).1 = Ok (Some FailedPermanently) ∧
  ∃ exit c', supervisor_restart (cluster Completed (Err RuntimeError)) deployment 3 true job = (Ok (Some exit), c') ∧
    match exit with
    | Stopped => False
    | Restarted => True
    | FailedPermanently => c_status c' = JFailed ∧ ∃ now, 2 < Z.of_nat (length (rs_window (c_strategy c'))) ∧
        Forall (λ t, expired 60000000 now t = false ∧ t <= now) (rs_window (c_strategy c'))
    end.
Proof.
  split; [vm_compute; reflexivity|].
  destruct (supervisor_restart_terminates (cluster Completed (Err RuntimeError)) deployment id 5 true job 3) as (exit & c' & E & Hexit).
  - split; [apply cluster_calls|done|]. intros w. cbn. lia.
  - done.
  - intros c. apply sample_turn.
  - done.
  - done.
  - done.
  - done.
  - split; constructor.
  - done.
  - exists exit, c'. split; [exact E|]. destruct exit; [discriminate Hexit|exact I|exact Hexit].
Defined.
End failover_samples.
