(* ===== verification/KeyGroups.v ===== *)
(** * Key groups: ownership of keyed state and keyed routing

    Models [src/ray/klein/state/key_group_range.py]: the contiguous range of
    key groups each subtask owns ([assign_key_group_range]), the subtask a key
    group is routed to ([key_group_owner]) and the key group of a key
    ([key_group_for_key]).  The first two are computed by different formulas and
    must agree for keyed state to be found where keyed records are sent.

    BLAKE2b and the byte encoding of keys are the interfaces [Blake2b] and
    [KeyCodec] of the prelude. *)
From S2P Require Import Prelude.
Open Scope Z_scope.

(** ** The range owned by one subtask *)

(** [KeyGroupRange]: an inclusive range. *)
Record KeyGroupRange := mkKeyGroupRange { kgr_start : Z; kgr_end : Z }.

#[export] Instance KeyGroupRange_eq_dec : EqDecision KeyGroupRange.
Proof. solve_decision. Defined.

(** The constructor with [__post_init__]. *)
Definition KeyGroupRange_init (start stop : Z) : outcome KeyGroupRange :=
  if start <? 0 then Err ValueError
  else if stop <? start then Err ValueError
  else Ok (mkKeyGroupRange start stop).

(** [__contains__]. *)
Definition KeyGroupRange_contains (r : KeyGroupRange) (key_group : Z) : bool :=
  (kgr_start r <=? key_group) && (key_group <=? kgr_end r).

(** [__iter__]. *)
Definition KeyGroupRange_iter (r : KeyGroupRange) : list Z :=
  seqZ (kgr_start r) (kgr_end r + 1 - kgr_start r).

(** [__len__]. *)
Definition KeyGroupRange_len (r : KeyGroupRange) : Z :=
  kgr_end r - kgr_start r + 1.

(** ** Assignment *)

(** One round of the loop of [_validate_parallelism]. *)
Definition validate_positive_int (value : pyarg) : outcome Z :=
  match arg_int value with
  | None => Err TypeError
  | Some v => if v <? 1 then Err ValueError else Ok v
  end.

(** [_validate_parallelism]; the result is the pair of checked integers. *)
Definition validate_parallelism (max_parallelism parallelism : pyarg) : outcome (Z * Z) :=
  mp ← validate_positive_int max_parallelism;
  p ← validate_positive_int parallelism;
  if mp <? p then Err ValueError else Ok (mp, p).

Definition assign_key_group_range (max_parallelism parallelism subtask_index : pyarg)
    : outcome KeyGroupRange :=
  mpp ← validate_parallelism max_parallelism parallelism;
  let '(mp, p) := (mpp : Z * Z) in
  match arg_int subtask_index with
  | None => Err TypeError
  | Some i =>
      if negb ((0 <=? i) && (i <? p)) then Err ValueError
      else
        let start := (i * mp + p - 1) / p in
        let stop := ((i + 1) * mp + p - 1) / p - 1 in
        KeyGroupRange_init start stop
  end.

Definition key_group_owner (key_group max_parallelism parallelism : pyarg) : outcome Z :=
  mpp ← validate_parallelism max_parallelism parallelism;
  let '(mp, p) := (mpp : Z * Z) in
  match arg_int key_group with
  | None => Err TypeError
  | Some kg =>
      if negb ((0 <=? kg) && (kg <? mp)) then Err ValueError
      else Ok ((kg * p) / mp)
  end.

Definition key_group_for_key `{KeyCodec K, Blake2b} (key : K) (max_parallelism : pyarg) : outcome Z :=
  match arg_int max_parallelism with
  | None => Err TypeError
  | Some mp =>
      if mp <? 1 then Err ValueError
      else Ok (be_Z (blake2b_8 (encode_key key)) mod mp)
  end.

(** ** Lemmas *)

Lemma KeyGroupRange_contains_spec r kg :
  KeyGroupRange_contains r kg = true ↔ kgr_start r <= kg <= kgr_end r.
Proof. unfold KeyGroupRange_contains. rewrite andb_true_iff, !Z.leb_le. done. Qed.

Lemma KeyGroupRange_iter_spec r kg :
  kg ∈ KeyGroupRange_iter r ↔ KeyGroupRange_contains r kg = true.
Proof.
  rewrite KeyGroupRange_contains_spec. unfold KeyGroupRange_iter.
  rewrite elem_of_seqZ. lia.
Qed.

Lemma validate_parallelism_Ok mp p :
  1 <= p <= mp → validate_parallelism (AInt mp) (AInt p) = Ok (mp, p).
Proof.
  intros H. unfold validate_parallelism, validate_positive_int. cbn.
  rewrite !(proj2 (Z.ltb_ge _ _)) by lia. cbn. by rewrite (proj2 (Z.ltb_ge _ _)) by lia.
Qed.

Lemma validate_positive_int_Ok_inv a v : validate_positive_int a = Ok v → a = AInt v ∧ 1 <= v.
Proof.
  unfold validate_positive_int. destruct a as [a| |]; cbn; try done.
  destruct (Z.ltb_spec a 1); [done|]. intros ?; by simplify_eq.
Qed.

Lemma validate_parallelism_Ok_inv a b mp p :
  validate_parallelism a b = Ok (mp, p) → a = AInt mp ∧ b = AInt p ∧ 1 <= p <= mp.
Proof.
  intros H. unfold validate_parallelism in H. ok_inv.
  apply validate_positive_int_Ok_inv in H as [-> ?], H0 as [-> ?].
  case_step_in H1; [done|]. bool_props. simplify_eq. split_and!; done || lia.
Qed.

(** The start of subtask [i]'s range: the rounded-up fraction [i * mp / p]. *)
Definition range_bound (mp p i : Z) : Z := (i * mp + p - 1) / p.

(** [range_bound] is the least key group that the owner formula sends to [i] or
    above: the only arithmetic fact ownership needs. *)
Lemma range_bound_le mp p i kg :
  1 <= p → 1 <= mp → (range_bound mp p i <= kg ↔ i <= (kg * p) / mp).
Proof.
  intros Hp Hm. unfold range_bound. split; intros H.
  - apply Z.div_le_lower_bound; [lia|].
    pose proof (Z.div_mod (i * mp + p - 1) p ltac:(lia)).
    pose proof (Z.mod_pos_bound (i * mp + p - 1) p ltac:(lia)). nia.
  - apply Z.lt_succ_r. apply Z.div_lt_upper_bound; [lia|].
    pose proof (Z.div_mod (kg * p) mp ltac:(lia)).
    pose proof (Z.mod_pos_bound (kg * p) mp ltac:(lia)). nia.
Qed.

Lemma range_bound_step mp p i :
  1 <= p <= mp → range_bound mp p i + mp / p <= range_bound mp p (i + 1) <= range_bound mp p i + (mp + p - 1) / p.
Proof.
  intros H. unfold range_bound.
  replace ((i + 1) * mp + p - 1) with (i * mp + p - 1 + mp) by lia.
  pose proof (Z.div_mod (i * mp + p - 1) p ltac:(lia)).
  pose proof (Z.mod_pos_bound (i * mp + p - 1) p ltac:(lia)).
  pose proof (Z.div_mod (i * mp + p - 1 + mp) p ltac:(lia)).
  pose proof (Z.mod_pos_bound (i * mp + p - 1 + mp) p ltac:(lia)).
  pose proof (Z.div_mod mp p ltac:(lia)).
  pose proof (Z.mod_pos_bound mp p ltac:(lia)).
  pose proof (Z.div_mod (mp + p - 1) p ltac:(lia)).
  pose proof (Z.mod_pos_bound (mp + p - 1) p ltac:(lia)).
  split; nia.
Qed.

Lemma range_bound_nonneg mp p i : 1 <= p <= mp → 0 <= i → 0 <= range_bound mp p i.
Proof. intros ??. unfold range_bound. apply Z.div_pos; nia. Qed.

Lemma range_bound_0 mp p : 1 <= p → range_bound mp p 0 = 0.
Proof. intros ?. unfold range_bound. apply Z.div_small. lia. Qed.

Lemma range_bound_p mp p : 1 <= p → range_bound mp p p = mp.
Proof.
  intros ?. unfold range_bound. replace (p * mp + p - 1) with (p - 1 + mp * p) by lia.
  rewrite Z.div_add by lia. rewrite Z.div_small by lia. lia.
Qed.

(** Assignment never raises on legal arguments; its range is never empty. *)
Lemma assign_key_group_range_Ok mp p i :
  1 <= p <= mp → 0 <= i < p →
  assign_key_group_range (AInt mp) (AInt p) (AInt i) =
  Ok (mkKeyGroupRange (range_bound mp p i) (range_bound mp p (i + 1) - 1)).
Proof.
  intros Hp Hi. unfold assign_key_group_range.
  rewrite validate_parallelism_Ok by done. cbn.
  rewrite (proj2 (Z.leb_le _ _)), (proj2 (Z.ltb_lt i p)) by lia. cbn.
  fold (range_bound mp p i) (range_bound mp p (i + 1)). unfold KeyGroupRange_init.
  pose proof (range_bound_step mp p i Hp). pose proof (range_bound_nonneg mp p i Hp ltac:(lia)).
  assert (1 <= mp / p) by (apply Z.div_le_lower_bound; lia).
  rewrite !(proj2 (Z.ltb_ge _ _)) by lia. done.
Qed.

Lemma assign_key_group_range_Ok_inv a b c r :
  assign_key_group_range a b c = Ok r →
  ∃ mp p i, a = AInt mp ∧ b = AInt p ∧ c = AInt i ∧ 1 <= p <= mp ∧ 0 <= i < p ∧
    r = mkKeyGroupRange (range_bound mp p i) (range_bound mp p (i + 1) - 1).
Proof.
  intros H. pose proof H as H'. unfold assign_key_group_range in H'. ok_inv.
  destruct x as [mp p]. apply validate_parallelism_Ok_inv in H0 as (-> & -> & Hp).
  destruct c as [i| |]; cbn in H1; try done.
  destruct (0 <=? i) eqn:?, (i <? p) eqn:?; try done. bool_props.
  rewrite assign_key_group_range_Ok in H by lia. simplify_eq. eauto 10.
Qed.

Lemma key_group_owner_Ok mp p kg :
  1 <= p <= mp → 0 <= kg < mp → key_group_owner (AInt kg) (AInt mp) (AInt p) = Ok (kg * p / mp).
Proof.
  intros Hp Hkg. unfold key_group_owner. rewrite validate_parallelism_Ok by done. cbn.
  by rewrite (proj2 (Z.leb_le _ _)), (proj2 (Z.ltb_lt _ mp)) by lia.
Qed.

Lemma key_group_owner_range mp p kg :
  1 <= p <= mp → 0 <= kg < mp → 0 <= kg * p / mp < p.
Proof.
  intros ??. split; [apply Z.div_pos; nia|]. apply Z.div_lt_upper_bound; nia.
Qed.

(** The owner formula and the range formula name the same subtask. *)
Lemma range_contains_owner mp p i kg :
  1 <= p <= mp → 0 <= kg < mp → 0 <= i < p →
  KeyGroupRange_contains (mkKeyGroupRange (range_bound mp p i) (range_bound mp p (i + 1) - 1)) kg = true
  ↔ kg * p / mp = i.
Proof.
  intros Hp Hkg Hi. rewrite KeyGroupRange_contains_spec. cbn.
  pose proof (range_bound_le mp p i kg ltac:(lia) ltac:(lia)).
  pose proof (range_bound_le mp p (i + 1) kg ltac:(lia) ltac:(lia)). lia.
Qed.

Lemma key_group_for_key_Ok `{KeyCodec K, Blake2b} (key : K) mp :
  1 <= mp → key_group_for_key key (AInt mp) = Ok (be_Z (blake2b_8 (encode_key key)) mod mp).
Proof. intros ?. unfold key_group_for_key. cbn. by rewrite (proj2 (Z.ltb_ge _ _)) by lia. Qed.

Lemma key_group_for_key_range `{KeyCodec K, Blake2b} (key : K) mp kg :
  key_group_for_key key (AInt mp) = Ok kg → 0 <= kg < mp.
Proof.
  unfold key_group_for_key. cbn. destruct (Z.ltb_spec mp 1); [done|].
  intros; simplify_eq. apply Z.mod_pos_bound. lia.
Qed.

#[export] Hint Rewrite @KeyGroupRange_contains_spec : klein.
#[export] Hint Resolve key_group_owner_range : klein.

(** ** Properties *)

(** C1. Ownership and routing agree: for legal arguments neither function
    raises, and a key group lies in the range assigned to a subtask exactly
    when [key_group_owner] names that subtask. *)
Theorem owner_iff_in_assigned_range mp p i kg :
  1 <= p <= mp → 0 <= i < p → 0 <= kg < mp →
  ∃ r o, assign_key_group_range (AInt mp) (AInt p) (AInt i) = Ok r ∧
    key_group_owner (AInt kg) (AInt mp) (AInt p) = Ok o ∧
    0 <= o < p ∧ (KeyGroupRange_contains r kg = true ↔ o = i).
Proof.
  intros Hp Hi Hkg. rewrite assign_key_group_range_Ok, key_group_owner_Ok by done.
  do 2 eexists. do 2 (split; [done|]). split; [by apply key_group_owner_range|].
  by apply range_contains_owner.
Qed.

Lemma owner_iff_in_assigned_range_witness :
  ∃ r o, assign_key_group_range (AInt 10) (AInt 3) (AInt 1) = Ok r ∧
    key_group_owner (AInt 5) (AInt 10) (AInt 3) = Ok o ∧
    0 <= o < 3 ∧ (KeyGroupRange_contains r 5 = true ↔ o = 1).
Proof. apply (owner_iff_in_assigned_range 10 3 1 5); lia. Defined.

(** C2. The assigned ranges tile [0, max_parallelism) in subtask order: the
    first starts at 0, each starts right after its predecessor, the last ends at
    the last key group, none is empty and two ranges differ in size by at most
    one key group. *)
Theorem assigned_ranges_tile mp p :
  1 <= p <= mp →
  ∃ rs, mapM_outcome (λ i, assign_key_group_range (AInt mp) (AInt p) (AInt i)) (seqZ 0 p) = Ok rs ∧
    mjoin (KeyGroupRange_iter <$> rs) = seqZ 0 mp ∧
    Forall (λ r, mp / p <= KeyGroupRange_len r <= (mp + p - 1) / p ∧ 1 <= KeyGroupRange_len r) rs.
Proof.
  intros Hp.
  set (g i := mkKeyGroupRange (range_bound mp p i) (range_bound mp p (i + 1) - 1)).
  exists (g <$> seqZ 0 p). split_and!.
  - apply mapM_outcome_total. intros i Hi%elem_of_seqZ. by apply assign_key_group_range_Ok.
  - assert (Hk : ∀ k, 0 <= k <= p → mjoin (KeyGroupRange_iter <$> (g <$> seqZ 0 k)) = seqZ 0 (range_bound mp p k)).
    { intros k Hk0. assert (0 <= k) as Hk1 by lia. revert Hk0. revert k Hk1.
      refine (natlike_ind _ _ _).
      - intros _. by rewrite range_bound_0 by lia.
      - intros k Hk0 IH Hk. unfold Z.succ. rewrite seqZ_snoc, Z.add_0_l, !fmap_app by lia.
        rewrite join_app, IH by lia. cbn [fmap list_fmap]. cbn [mjoin list_join]. rewrite app_nil_r.
        pose proof (range_bound_step mp p k Hp). pose proof (range_bound_nonneg mp p k Hp Hk0).
        assert (0 <= mp / p) by (apply Z.div_pos; lia).
        unfold KeyGroupRange_iter; cbn.
        replace (range_bound mp p (k + 1)) with
          (range_bound mp p k + (range_bound mp p (k + 1) - range_bound mp p k)) by lia.
        rewrite (seqZ_app 0) by lia. f_equal. f_equal; lia. }
    by rewrite Hk, range_bound_p by lia.
  - apply Forall_fmap, Forall_forall. intros i Hi%elem_of_seqZ. unfold KeyGroupRange_len; cbn.
    pose proof (range_bound_step mp p i Hp).
    assert (1 <= mp / p) by (apply Z.div_le_lower_bound; lia). lia.
Qed.

Lemma assigned_ranges_tile_witness :
  ∃ rs, mapM_outcome (λ i, assign_key_group_range (AInt 10) (AInt 3) (AInt i)) (seqZ 0 3) = Ok rs ∧
    mjoin (KeyGroupRange_iter <$> rs) = seqZ 0 10 ∧
    Forall (λ r, 10 / 3 <= KeyGroupRange_len r <= (10 + 3 - 1) / 3 ∧ 1 <= KeyGroupRange_len r) rs.
Proof. apply (assigned_ranges_tile 10 3). lia. Defined.
