(* ===== verification/StateCodec.v ===== *)
(** * The physical layout of managed state

    Models [src/ray/klein/state/state_codec.py]: length-prefixed state keys,
    values with their expiry, the expiry index keys and the timer keys.  The
    packing formats of [struct] raise [struct.error] outside their range, so
    encoders are fallible exactly where the code's are. *)
From S2P Require Import Prelude Concrete.
Open Scope Z_scope.

(** ** [struct] formats *)

(** [struct.pack(">I", n)] and [struct.unpack(">I", b)]. *)
Definition pack_u32 (n : Z) : outcome bytes :=
  if (0 <=? n) && (n <? 2 ^ 32) then Ok (be_bytes 4 n) else Err StructError.

Definition unpack_u32 (b : bytes) : outcome Z :=
  if bool_decide (length b = 4%nat) then Ok (be_Z b) else Err StructError.

(** [">Q"]. *)
Definition pack_u64 (n : Z) : outcome bytes :=
  if (0 <=? n) && (n <? 2 ^ 64) then Ok (be_bytes 8 n) else Err StructError.

Definition unpack_u64 (b : bytes) : outcome Z :=
  if bool_decide (length b = 8%nat) then Ok (be_Z b) else Err StructError.

(** [">q"]: two's complement. *)
Definition pack_i64 (n : Z) : outcome bytes :=
  if (- 2 ^ 63 <=? n) && (n <? 2 ^ 63) then Ok (be_bytes 8 (n mod 2 ^ 64)) else Err StructError.

Definition unpack_i64 (b : bytes) : outcome Z :=
  if bool_decide (length b = 8%nat)
  then Ok (let u := be_Z b in if u <? 2 ^ 63 then u else u - 2 ^ 64)
  else Err StructError.

(** ** Components *)

(** [_component]. *)
Definition component (value : bytes) : outcome bytes :=
  size ← pack_u32 (Z.of_nat (length value));
  Ok (size ++ value).

(** [_read_component]; [value[start:end]] is a [take] of a [drop]. *)
Definition read_component (value : bytes) (offset : nat) : outcome (bytes * nat) :=
  if (length value <? offset + 4)%nat then Err ValueError
  else
    size ← unpack_u32 (take 4 (drop offset value));
    let start := (offset + 4)%nat in
    let stop := (start + Z.to_nat size)%nat in
    if (length value <? stop)%nat then Err ValueError
    else Ok (take (stop - start) (drop start value), stop).

(** ** State values and expiry keys *)

(** [_NO_EXPIRY]. *)
Definition NO_EXPIRY : Z := -1.

Definition encode_state_value (payload : bytes) (expires_at_ms : option Z) : outcome bytes :=
  let expiry := default NO_EXPIRY expires_at_ms in
  packed ← pack_i64 expiry;
  Ok (packed ++ payload).

Definition decode_state_value (encoded : bytes) : outcome (option Z * bytes) :=
  if (length encoded <? 8)%nat then Err ValueError
  else
    expiry ← unpack_i64 (take 8 encoded);
    Ok (if expiry =? NO_EXPIRY then None else Some expiry, drop 8 encoded).

Definition encode_expiry_key (expires_at_ms : Z) (state_key : bytes) : outcome bytes :=
  packed ← pack_u64 expires_at_ms;
  Ok (packed ++ state_key).

Definition decode_expiry_key (encoded : bytes) : outcome (Z * bytes) :=
  if (length encoded <? 8)%nat then Err ValueError
  else
    expires_at ← unpack_u64 (take 8 encoded);
    Ok (expires_at, drop 8 encoded).

(** ** Timers *)

(** [TimerDomain]. *)
Inductive TimerDomain := EVENT_TIME | PROCESSING_TIME.

#[export] Instance TimerDomain_eq_dec : EqDecision TimerDomain.
Proof. solve_decision. Defined.

Definition timer_prefix (domain : TimerDomain) : bytes :=
  if decide (domain = EVENT_TIME) then ["e"%byte] else ["p"%byte].

Section codec.
Context {K NS : Type} `{KeyCodec K, KeyCodec NS, KeyCodec (K * NS), Serializer (K * NS), Sha256}.

(** ** State keys: the state name, the key and the namespace. *)

(** [descriptor.name.encode("utf-8")]: names are given by their UTF-8 bytes. *)
Definition encode_state_key (name : bytes) (key : K) (namespace : NS) : outcome bytes :=
  n ← component name;
  k ← component (encode_key key);
  ns ← component (encode_key namespace);
  Ok (n ++ k ++ ns).

Definition state_key_prefix (name : bytes) (key : K) : outcome bytes :=
  n ← component name;
  k ← component (encode_key key);
  Ok (n ++ k).

Definition decode_state_namespace (encoded : bytes) : outcome NS :=
  '(_, offset) ← read_component encoded 0;
  '(_, offset) ← read_component encoded offset;
  '(namespace, offset) ← read_component encoded offset;
  if negb (offset =? length encoded)%nat then Err ValueError
  else decode_key namespace.

Definition decode_state_key (encoded : bytes) : outcome (bytes * K * NS) :=
  '(name, offset) ← read_component encoded 0;
  '(key, offset) ← read_component encoded offset;
  '(namespace, offset) ← read_component encoded offset;
  if negb (offset =? length encoded)%nat then Err ValueError
  else
    k ← decode_key key;
    ns ← decode_key namespace;
    Ok (name, k, ns).

Definition encode_timer_key (timestamp : Z) (key : K) (namespace : NS) (domain : TimerDomain)
    : outcome bytes :=
  let payload := encode_key (key, namespace) in
  let domain_prefix := if decide (domain = EVENT_TIME) then ["e"%byte] else ["p"%byte] in
  packed ← pack_u64 timestamp;
  Ok (domain_prefix ++ packed ++ sha256 payload).

Definition encode_timer_value (key : K) (namespace : NS) : bytes :=
  ser_dumps (key, namespace).

Definition decode_timer (encoded_key encoded_value : bytes) : outcome (Z * K * NS) :=
  if (length encoded_key <? 9)%nat then Err ValueError
  else
    timestamp ← unpack_u64 (take 8 (drop 1 encoded_key));
    '(key, namespace) ← (ser_loads encoded_value : outcome (K * NS));
    Ok (timestamp, key, namespace).
End codec.

(** ** Lemmas: [struct] formats *)

Lemma pack_u32_Ok n : 0 <= n < 2 ^ 32 → pack_u32 n = Ok (be_bytes 4 n).
Proof. intros H. unfold pack_u32. by rewrite (proj2 (Z.leb_le _ _)), (proj2 (Z.ltb_lt _ _)) by lia. Qed.

Lemma pack_u32_inv n b : pack_u32 n = Ok b → 0 <= n < 2 ^ 32 ∧ b = be_bytes 4 n.
Proof. unfold pack_u32. intros ?. case_step_in H; [|done]. bool_props. by simplify_eq. Qed.

Lemma pack_u64_Ok n : 0 <= n < 2 ^ 64 → pack_u64 n = Ok (be_bytes 8 n).
Proof. intros H. unfold pack_u64. by rewrite (proj2 (Z.leb_le _ _)), (proj2 (Z.ltb_lt _ _)) by lia. Qed.

Lemma pack_u64_inv n b : pack_u64 n = Ok b → 0 <= n < 2 ^ 64 ∧ b = be_bytes 8 n.
Proof. unfold pack_u64. intros ?. case_step_in H; [|done]. bool_props. by simplify_eq. Qed.

Lemma pack_i64_Ok n : - 2 ^ 63 <= n < 2 ^ 63 → pack_i64 n = Ok (be_bytes 8 (n mod 2 ^ 64)).
Proof. intros H. unfold pack_i64. by rewrite (proj2 (Z.leb_le _ _)), (proj2 (Z.ltb_lt _ _)) by lia. Qed.

Lemma pack_i64_inv n b : pack_i64 n = Ok b → - 2 ^ 63 <= n < 2 ^ 63 ∧ b = be_bytes 8 (n mod 2 ^ 64).
Proof. unfold pack_i64. intros ?. case_step_in H; [|done]. bool_props. by simplify_eq. Qed.

Lemma unpack_u32_be n : 0 <= n < 2 ^ 32 → unpack_u32 (be_bytes 4 n) = Ok n.
Proof. intros ?. unfold unpack_u32. rewrite length_be_bytes. cbn -[be_Z be_bytes]. by rewrite be_Z_bytes. Qed.

Lemma unpack_u64_be n : 0 <= n < 2 ^ 64 → unpack_u64 (be_bytes 8 n) = Ok n.
Proof. intros ?. unfold unpack_u64. rewrite length_be_bytes. cbn -[be_Z be_bytes]. by rewrite be_Z_bytes. Qed.

Lemma unpack_i64_be n : - 2 ^ 63 <= n < 2 ^ 63 → unpack_i64 (be_bytes 8 (n mod 2 ^ 64)) = Ok n.
Proof.
  intros ?. unfold unpack_i64. rewrite length_be_bytes. cbn -[be_Z be_bytes Z.modulo Z.pow].
  rewrite be_Z_bytes by (apply Z.mod_pos_bound; lia). f_equal.
  destruct (Z.le_gt_cases 0 n).
  - rewrite Z.mod_small by lia. by rewrite (proj2 (Z.ltb_lt _ _)) by lia.
  - assert (n mod 2 ^ 64 = n + 2 ^ 64) as ->.
    { symmetry. apply (Z.mod_unique _ _ (-1)); lia. }
    rewrite (proj2 (Z.ltb_ge _ _)) by lia. lia.
Qed.

(** Inverts every successful packing of the context. *)
Ltac pack_inv :=
  ok_inv;
  repeat match goal with
  | H : pack_u32 _ = Ok _ |- _ => apply pack_u32_inv in H as [? H]
  | H : pack_u64 _ = Ok _ |- _ => apply pack_u64_inv in H as [? H]
  | H : pack_i64 _ = Ok _ |- _ => apply pack_i64_inv in H as [? H]
  end; subst.

(** ** Lemmas: components *)

Lemma component_Ok v :
  Z.of_nat (length v) < 2 ^ 32 → component v = Ok (be_bytes 4 (Z.of_nat (length v)) ++ v).
Proof. intros ?. unfold component. by rewrite pack_u32_Ok by lia. Qed.

Lemma component_inv v c :
  component v = Ok c →
  Z.of_nat (length v) < 2 ^ 32 ∧ c = be_bytes 4 (Z.of_nat (length v)) ++ v.
Proof.
  unfold component. intros ?; pack_inv. split; [lia|done].
Qed.

(** Reading back a component at the offset where it was written. *)
Lemma read_component_app pre v c post :
  component v = Ok c →
  read_component (pre ++ c ++ post) (length pre) = Ok (v, (length pre + length c)%nat).
Proof.
  intros [Hv ->]%component_inv. unfold read_component.
  assert (Hsz : length (be_bytes 4 (Z.of_nat (length v))) = 4%nat) by apply length_be_bytes.
  rewrite !length_app, Hsz.
  rewrite (proj2 (Nat.ltb_ge _ _)) by lia.
  rewrite drop_app_length, <-app_assoc, take_app_length' by done.
  rewrite unpack_u32_be by lia. cbn -[be_bytes Nat.ltb Z.to_nat].
  rewrite Nat2Z.id, (proj2 (Nat.ltb_ge _ _)) by lia.
  do 2 f_equal; [|lia].
  replace (length pre + 4 + length v - (length pre + 4))%nat with (length v) by lia.
  rewrite app_assoc, drop_app_length' by (rewrite length_app; lia).
  by rewrite take_app_length.
Qed.

(** Components are self-delimiting: equal concatenations have equal heads. *)
Lemma component_app_inj v c s v' c' s' :
  component v = Ok c → component v' = Ok c' → c ++ s = c' ++ s' → v = v' ∧ c = c' ∧ s = s'.
Proof.
  intros Hc Hc' E.
  pose proof (read_component_app [] v c s Hc) as R. pose proof (read_component_app [] v' c' s' Hc') as R'.
  cbn [app length] in R, R'. rewrite E in R. rewrite R in R'. injection R' as -> Hl.
  apply component_inv in Hc as [_ ->], Hc' as [_ ->].
  by apply app_inv_head in E as ->.
Qed.

(** ** Lemmas: values and expiry keys *)

Lemma decode_encode_state_value payload e b :
  encode_state_value payload e = Ok b → e ≠ Some NO_EXPIRY → decode_state_value b = Ok (e, payload).
Proof.
  unfold encode_state_value, decode_state_value. intros H He. pack_inv.
  rewrite length_app, length_be_bytes, (proj2 (Nat.ltb_ge _ _)) by lia.
  rewrite take_app_length', drop_app_length' by (by rewrite length_be_bytes).
  rewrite unpack_i64_be by done. cbn -[Z.eqb NO_EXPIRY].
  destruct e as [e|]; cbn -[NO_EXPIRY Z.eqb].
  - rewrite (proj2 (Z.eqb_neq _ _)); [done|congruence].
  - by rewrite Z.eqb_refl.
Qed.

Lemma decode_encode_expiry_key e k b :
  encode_expiry_key e k = Ok b → decode_expiry_key b = Ok (e, k).
Proof.
  unfold encode_expiry_key, decode_expiry_key. intros ?; pack_inv.
  rewrite length_app, length_be_bytes, (proj2 (Nat.ltb_ge _ _)) by lia.
  rewrite take_app_length', drop_app_length' by (by rewrite length_be_bytes).
  by rewrite unpack_u64_be.
Qed.

(** Expiry keys sort by expiry time first. *)
Lemma encode_expiry_key_le e1 k1 b1 e2 k2 b2 :
  encode_expiry_key e1 k1 = Ok b1 → encode_expiry_key e2 k2 = Ok b2 →
  bytes_le b1 b2 → e1 <= e2.
Proof.
  unfold encode_expiry_key, bytes_le. intros H1 H2; pack_inv.
  rewrite bytes_leb_digits, !be_Z_bytes by (done || by rewrite !length_be_bytes).
  destruct (Z.ltb_spec e1 e2), (Z.ltb_spec e2 e1); done || lia.
Qed.

(** ** Lemmas: state and timer keys *)

Section codec_lemmas.
Context {K NS : Type} `{KeyCodec K, KeyCodec NS, KeyCodec (K * NS), Serializer (K * NS), Sha256}.

Implicit Types (name : bytes) (key : K) (namespace : NS).

Lemma encode_state_key_inv name key namespace b :
  encode_state_key name key namespace = Ok b →
  ∃ n k ns, component name = Ok n ∧ component (encode_key key) = Ok k ∧
    component (encode_key namespace) = Ok ns ∧ b = n ++ k ++ ns.
Proof. unfold encode_state_key. intros ?; ok_inv. eauto 10. Qed.

Lemma decode_encode_state_key name key namespace b :
  encode_state_key name key namespace = Ok b →
  decode_state_key b = Ok (name, key, namespace) ∧
  decode_state_namespace (NS := NS) b = Ok namespace.
Proof.
  intros (n & k & ns & Hn & Hk & Hns & ->)%encode_state_key_inv.
  pose proof (read_component_app [] _ _ (k ++ ns) Hn) as R1. cbn [app length Nat.add] in R1.
  pose proof (read_component_app n _ _ ns Hk) as R2.
  pose proof (read_component_app (n ++ k) _ _ [] Hns) as R3.
  rewrite app_nil_r, length_app, <-app_assoc in R3.
  unfold decode_state_key, decode_state_namespace.
  rewrite R1. cbn -[read_component]. rewrite R2. cbn -[read_component]. rewrite R3. cbn.
  assert (((length n + length k + length ns)%nat =? length (n ++ k ++ ns))%nat = true) as ->.
  { apply Nat.eqb_eq. rewrite !length_app. lia. }
  cbn. by rewrite !decode_encode_key.
Qed.

Lemma encode_state_key_inj name key namespace name' key' namespace' b :
  encode_state_key name key namespace = Ok b → encode_state_key name' key' namespace' = Ok b →
  name = name' ∧ key = key' ∧ namespace = namespace'.
Proof.
  intros [E _]%decode_encode_state_key [E' _]%decode_encode_state_key.
  rewrite E in E'. by simplify_eq.
Qed.

Lemma startswith_state_key_prefix name key namespace b name' key' p :
  encode_state_key name key namespace = Ok b → state_key_prefix name' key' = Ok p →
  startswith b p = true ↔ name = name' ∧ key = key'.
Proof.
  intros (n & k & ns & Hn & Hk & Hns & ->)%encode_state_key_inv Hp.
  unfold state_key_prefix in Hp.
  apply bind_Ok_inv in Hp as (n' & Hn' & Hp). apply bind_Ok_inv in Hp as (k' & Hk' & Hp).
  ok_inv. subst p. rewrite startswith_spec. split.
  - intros [s E]. rewrite <-app_assoc in E.
    apply (component_app_inj _ _ _ _ _ _ Hn Hn') in E as (-> & _ & E).
    apply (component_app_inj _ _ _ _ _ _ Hk Hk') in E as (E & _ & _).
    split; [done|]. by apply encode_key_inj.
  - intros [-> ->]. exists ns. rewrite Hn in Hn'; rewrite Hk in Hk'. simplify_eq. by rewrite app_assoc.
Qed.

Lemma encode_timer_key_inv ts key namespace d b :
  encode_timer_key ts key namespace d = Ok b →
  0 <= ts < 2 ^ 64 ∧ b = timer_prefix d ++ be_bytes 8 ts ++ sha256 (encode_key (key, namespace)).
Proof.
  unfold encode_timer_key. intros ?; pack_inv. done.
Qed.

Lemma timer_prefix_length d : length (timer_prefix d) = 1%nat.
Proof. by destruct d. Qed.

Lemma decode_encode_timer ts key namespace d b :
  encode_timer_key ts key namespace d = Ok b →
  decode_timer b (encode_timer_value key namespace) = Ok (ts, key, namespace).
Proof.
  intros [Hts ->]%encode_timer_key_inv. unfold decode_timer.
  rewrite !length_app, timer_prefix_length, length_be_bytes, length_sha256.
  cbn [Nat.add Nat.ltb Nat.leb].
  rewrite drop_app_length' by (by rewrite timer_prefix_length).
  rewrite take_app_length' by (by rewrite length_be_bytes).
  rewrite unpack_u64_be by done. cbn. unfold encode_timer_value. by rewrite ser_loads_dumps.
Qed.

Lemma startswith_timer_prefix ts key namespace d d' b :
  encode_timer_key ts key namespace d = Ok b →
  startswith b (timer_prefix d') = true ↔ d = d'.
Proof. intros [_ ->]%encode_timer_key_inv. by destruct d, d'. Qed.

(** Within one domain timer keys sort by timestamp first. *)
Lemma encode_timer_key_le ts key ns b ts' key' ns' b' d :
  encode_timer_key ts key ns d = Ok b → encode_timer_key ts' key' ns' d = Ok b' →
  bytes_le b b' → ts <= ts'.
Proof.
  intros [Hr ->]%encode_timer_key_inv [Hr' ->]%encode_timer_key_inv. unfold bytes_le.
  rewrite bytes_leb_digits, Z.ltb_irrefl by done.
  rewrite bytes_leb_digits, !be_Z_bytes by (done || by rewrite !length_be_bytes).
  destruct (Z.ltb_spec ts ts'), (Z.ltb_spec ts' ts); done || lia.
Qed.

End codec_lemmas.

#[export] Hint Resolve decode_encode_state_key decode_encode_expiry_key decode_encode_timer : klein.

(** ** Properties *)

(** State keys are a faithful physical layout: decoding gives back the
    name, the key and the namespace, two different logical addresses never share
    a physical key, and a scan by [state_key_prefix] finds exactly the entries of
    that state name and key, whatever bytes the names contain. *)
Theorem state_key_layout {K NS : Type} `{KeyCodec K, KeyCodec NS} name (key : K) (namespace : NS) b :
  encode_state_key name key namespace = Ok b →
  decode_state_key b = Ok (name, key, namespace) ∧
  decode_state_namespace (NS := NS) b = Ok namespace ∧
  (∀ name' (key' : K) (namespace' : NS),
     encode_state_key name' key' namespace' = Ok b → name = name' ∧ key = key' ∧ namespace = namespace') ∧
  (∀ name' (key' : K) p,
     state_key_prefix name' key' = Ok p → (startswith b p = true ↔ name = name' ∧ key = key')).
Proof.
  intros Hb. destruct (decode_encode_state_key _ _ _ _ Hb). split_and!; [done|done| |].
  - intros name' key' namespace'. by apply encode_state_key_inj.
  - intros name' key' p. by eapply startswith_state_key_prefix.
Qed.

Lemma state_key_layout_witness :
  let _ := countable_codec (A := Z) in
  ∃ b, encode_state_key ["n"%byte] 7 (-3) = Ok b ∧ decode_state_key b = Ok (["n"%byte], 7, -3).
Proof.
  eexists. split; [vm_compute; reflexivity|].
  eapply (@state_key_layout Z Z countable_codec countable_codec ["n"%byte] 7 (-3)). vm_compute. reflexivity.
Defined.

(** C4. The stored value codec on every expiry: an expiry that fits 64 signed
    bits is packed and read back with its payload, except that the sentinel -1
    reads back as no expiry; any other raises [struct.error]. *)
Theorem state_value_codec payload (e : option Z) :
  if decide (- 2 ^ 63 <= default NO_EXPIRY e < 2 ^ 63)
  then ∃ b, encode_state_value payload e = Ok b ∧ length b = (8 + length payload)%nat ∧
         decode_state_value b = Ok (if decide (e = Some NO_EXPIRY) then None else e, payload)
  else encode_state_value payload e = Err StructError.
Proof.
  case_decide as Hr; [|unfold encode_state_value, pack_i64].
  - destruct (encode_state_value payload e) as [b|] eqn:Hb.
    2: { unfold encode_state_value in Hb. by rewrite pack_i64_Ok in Hb. }
    exists b. split; [done|]. split.
    { unfold encode_state_value in Hb. pack_inv. by rewrite length_app, length_be_bytes. }
    case_decide as He; [|by apply decode_encode_state_value].
    subst e. by apply (decode_encode_state_value payload None).
  - destruct (Z.leb_spec (- 2 ^ 63) (default NO_EXPIRY e)), (Z.ltb_spec (default NO_EXPIRY e) (2 ^ 63)); done || lia.
Qed.

(** Timer keys: a timer decodes to what was registered, the keys of one
    domain share its prefix and no other key has it, and within a domain the byte
    order of the keys is the order of the timestamps, over the whole unsigned
    64-bit range; timestamps outside it raise. *)
Theorem timer_key_layout {K NS : Type} `{KeyCodec (K * NS), Serializer (K * NS), Sha256}
    ts (key : K) (namespace : NS) d :
  if decide (0 <= ts < 2 ^ 64)
  then ∃ b, encode_timer_key ts key namespace d = Ok b ∧
    decode_timer b (encode_timer_value key namespace) = Ok (ts, key, namespace) ∧
    (∀ d', startswith b (timer_prefix d') = true ↔ d = d') ∧
    (∀ ts' (key' : K) (namespace' : NS) b', encode_timer_key ts' key' namespace' d = Ok b' →
       (ts < ts' → bytes_le b b') ∧ (bytes_le b b' → ts <= ts'))
  else encode_timer_key ts key namespace d = Err StructError.
Proof.
  case_decide as Hr.
  - destruct (encode_timer_key ts key namespace d) as [b|] eqn:Hb.
    2: { unfold encode_timer_key in Hb. by rewrite pack_u64_Ok in Hb. }
    exists b. split_and!; [done|by eapply decode_encode_timer| |].
    + intros d'. by eapply startswith_timer_prefix.
    + intros ts' key' namespace' b' Hb'. split; [|by eapply encode_timer_key_le].
      intros Hlt. destruct (total bytes_le b b') as [?|Hge]; [done|].
      pose proof (encode_timer_key_le _ _ _ _ _ _ _ _ _ Hb' Hb Hge). lia.
  - unfold encode_timer_key, pack_u64.
    destruct (Z.leb_spec 0 ts), (Z.ltb_spec ts (2 ^ 64)); done || lia.
Qed.
