(* ===== verification/StateBackend.v ===== *)
(** * The in-memory managed state backend

    Models [src/ray/klein/state/memory_state_backend.py] (every operation) and the
    state descriptors it is called with ([state_descriptor.py],
    [state_ttl_config.py], [state_ttl_update_type.py], [state_visibility.py]).

    A backend is its selected key and its three byte-string dictionaries, as in the
    class; every method is a function from a backend to its outcome and the new
    backend.  A method that raises leaves the backend it had reached.  The clock
    is read by the caller: each read of [self._clock()] is an argument. *)
From S2P Require Import Prelude Concrete KeyGroups StateCodec.
Open Scope Z_scope.

(** ** Descriptors *)

Inductive StateTTLUpdateType := ON_CREATE_AND_WRITE | ON_READ_AND_WRITE.
Inductive StateVisibility := NEVER_RETURN_EXPIRED | RETURN_EXPIRED_IF_NOT_CLEANED_UP.

#[export] Instance StateTTLUpdateType_eq_dec : EqDecision StateTTLUpdateType.
Proof. solve_decision. Defined.
#[export] Instance StateVisibility_eq_dec : EqDecision StateVisibility.
Proof. solve_decision. Defined.

(** [StateTTLConfig]; [ttl_milliseconds] is the property of that name. *)
Record StateTTLConfig := mkStateTTLConfig {
  ttl_milliseconds : Z;
  ttl_update_type : StateTTLUpdateType;
  ttl_visibility : StateVisibility
}.

Record StateDescriptor (V : Type) := mkStateDescriptor {
  sd_name : bytes;
  sd_serializer : Serializer V;
  sd_ttl_config : option StateTTLConfig
}.
Arguments mkStateDescriptor {V}.
Arguments sd_name {V}.
Arguments sd_serializer {V}.
Arguments sd_ttl_config {V}.

(** [TimerEvent]. *)
Record TimerEvent (K NS : Type) := mkTimerEvent {
  te_timestamp : Z;
  te_key : K;
  te_namespace : NS;
  te_domain : TimerDomain
}.
Arguments mkTimerEvent {K NS}.
Arguments te_timestamp {K NS}.
Arguments te_key {K NS}.
Arguments te_namespace {K NS}.
Arguments te_domain {K NS}.

(** ** The backend *)

(** [MemoryStateBackend]'s attributes.  [_current_key] and [_key_set] are one
    optional key. *)
Record backend (K : Type) := mkBackend {
  b_key : option K;
  b_state : gmap bytes bytes;
  b_expiry : gmap bytes bytes;
  b_timers : gmap bytes bytes
}.
Arguments mkBackend {K}.
Arguments b_key {K}.
Arguments b_state {K}.
Arguments b_expiry {K}.
Arguments b_timers {K}.

Definition with_state {K : Type} (s : gmap bytes bytes) (b : backend K) : backend K :=
  mkBackend (b_key b) s (b_expiry b) (b_timers b).
Definition with_expiry {K : Type} (e : gmap bytes bytes) (b : backend K) : backend K :=
  mkBackend (b_key b) (b_state b) e (b_timers b).
Definition with_timers {K : Type} (t : gmap bytes bytes) (b : backend K) : backend K :=
  mkBackend (b_key b) (b_state b) (b_expiry b) t.

(** A method call: its outcome and the backend it leaves. *)
Abbreviation call K A := (outcome A * backend K)%type.

(** [sorted(d)] of a dictionary: its keys in order. *)
Definition sorted_keys {A} (d : gmap bytes A) : list bytes := sort_bytes (map_to_list d).*1.

Section backend.
Context {K NS V : Type} `{KeyCodec K, KeyCodec NS, KeyCodec (K * NS), Serializer (K * NS), Sha256}.
Implicit Types (b : backend K) (descriptor : StateDescriptor V).

(** [__init__]. *)
Definition MemoryStateBackend_init : backend K := mkBackend None ∅ ∅ ∅.

(** The [current_key] property: its getter ([_require_current_key]) and setter. *)
Definition current_key b : outcome K :=
  match b_key b with Some k => Ok k | None => Err RuntimeError end.

Definition set_current_key (key : K) b : backend K :=
  mkBackend (Some key) (b_state b) (b_expiry b) (b_timers b).

Definition state_key descriptor (namespace : NS) b : outcome bytes :=
  key ← current_key b;
  encode_state_key (sd_name descriptor) key namespace.

Definition expiry_for descriptor (clock : Z) : option Z :=
  match sd_ttl_config descriptor with
  | None => None
  | Some ttl => Some (clock + ttl_milliseconds ttl)
  end.

(** [if previous is not None: ... self._expiry.pop(encode_expiry_key(...), None)]:
    removing the expiry index entry of an encoded value. *)
Definition drop_expiry_of (sk encoded : bytes) b : call K unit :=
  match decode_state_value encoded with
  | Err e => (Err e, b)
  | Ok (None, _) => (Ok (), b)
  | Ok (Some expiry, _) =>
      match encode_expiry_key expiry sk with
      | Err e => (Err e, b)
      | Ok ek => (Ok (), with_expiry (delete ek (b_expiry b)) b)
      end
  end.

Definition backend_put descriptor (value : V) (namespace : NS) (clock : Z) b : call K unit :=
  match state_key descriptor namespace b with
  | Err e => (Err e, b)
  | Ok sk =>
      let expires_at := expiry_for descriptor clock in
      let '(r, b) :=
        match b_state b !! sk with
        | Some previous => drop_expiry_of sk previous b
        | None => (Ok (), b)
        end in
      match r with
      | Err e => (Err e, b)
      | Ok _ =>
          match encode_state_value (@ser_dumps _ (sd_serializer descriptor) value) expires_at with
          | Err e => (Err e, b)
          | Ok encoded =>
              let b := with_state (<[sk := encoded]> (b_state b)) b in
              match expires_at with
              | None => (Ok (), b)
              | Some expiry =>
                  match encode_expiry_key expiry sk with
                  | Err e => (Err e, b)
                  | Ok ek => (Ok (), with_expiry (<[ek := []]> (b_expiry b)) b)
                  end
              end
          end
      end
  end.

(** [expires_at is not None and expires_at <= now and (...)]. *)
Definition hides_expired descriptor (expires_at : option Z) (now : Z) : bool :=
  match expires_at with
  | None => false
  | Some e =>
      (e <=? now) &&
      match sd_ttl_config descriptor with
      | None => true
      | Some ttl => bool_decide (ttl_visibility ttl = NEVER_RETURN_EXPIRED)
      end
  end.

(** [clock] is the read of [get], [clock'] that of the [put] it may make. *)
Definition backend_get descriptor (namespace : NS) (clock clock' : Z) b : call K (option V) :=
  match state_key descriptor namespace b with
  | Err e => (Err e, b)
  | Ok sk =>
      match b_state b !! sk with
      | None => (Ok None, b)
      | Some encoded =>
          match decode_state_value encoded with
          | Err e => (Err e, b)
          | Ok (expires_at, payload) =>
              if hides_expired descriptor expires_at clock then
                (Ok None, with_state (delete sk (b_state b)) b)
              else
                match @ser_loads _ (sd_serializer descriptor) payload with
                | Err e => (Err e, b)
                | Ok value =>
                    match sd_ttl_config descriptor with
                    | Some ttl =>
                        if decide (ttl_update_type ttl = ON_READ_AND_WRITE) then
                          match backend_put descriptor value namespace clock' b with
                          | (Err e, b) => (Err e, b)
                          | (Ok _, b) => (Ok (Some value), b)
                          end
                        else (Ok (Some value), b)
                    | None => (Ok (Some value), b)
                    end
                end
          end
      end
  end.

Definition backend_delete descriptor (namespace : NS) b : call K unit :=
  match state_key descriptor namespace b with
  | Err e => (Err e, b)
  | Ok sk =>
      match b_state b !! sk with
      | None => (Ok (), b)
      | Some encoded => drop_expiry_of sk encoded (with_state (delete sk (b_state b)) b)
      end
  end.

Definition backend_namespaces descriptor b : outcome (list NS) :=
  key ← current_key b;
  prefix ← state_key_prefix (sd_name descriptor) key;
  mapM_outcome decode_state_namespace
    (filter (λ sk, startswith sk prefix = true) (sorted_keys (b_state b))).

Definition backend_register_timer (timestamp : Z) (namespace : NS) (domain : TimerDomain) b : call K unit :=
  if timestamp <? 0 then (Err ValueError, b)
  else
    match current_key b with
    | Err e => (Err e, b)
    | Ok key =>
        match encode_timer_key timestamp key namespace domain with
        | Err e => (Err e, b)
        | Ok tk => (Ok (), with_timers (<[tk := encode_timer_value key namespace]> (b_timers b)) b)
        end
    end.

Definition backend_delete_timer (timestamp : Z) (namespace : NS) (domain : TimerDomain) b : call K unit :=
  match current_key b with
  | Err e => (Err e, b)
  | Ok key =>
      match encode_timer_key timestamp key namespace domain with
      | Err e => (Err e, b)
      | Ok tk => (Ok (), with_timers (delete tk (b_timers b)) b)
      end
  end.

(** The first loop of [pop_due_timers], over the sorted timer keys. *)
Fixpoint due_timers (timers : gmap bytes bytes) (timestamp : Z) (domain : TimerDomain)
    (limit : option Z) (keys : list bytes) (result : list (TimerEvent K NS))
    : outcome (list (TimerEvent K NS)) :=
  match keys with
  | [] => Ok result
  | encoded_key :: keys =>
      if negb (startswith encoded_key (timer_prefix domain))
      then due_timers timers timestamp domain limit keys result
      else
        match timers !! encoded_key with
        | None => Err KeyError
        | Some encoded_value =>
            match decode_timer encoded_key encoded_value with
            | Err e => Err e
            | Ok (timer_timestamp, key, namespace) =>
                if timestamp <? timer_timestamp then Ok result
                else
                  let result := result ++ [mkTimerEvent timer_timestamp key namespace domain] in
                  if match limit with Some l => l <=? Z.of_nat (length result) | None => false end
                  then Ok result
                  else due_timers timers timestamp domain limit keys result
            end
        end
  end.

(** The second loop: the events' keys are encoded again and popped. *)
Definition pop_event (timers : gmap bytes bytes) (event : TimerEvent K NS) : outcome (gmap bytes bytes) :=
  tk ← encode_timer_key (te_timestamp event) (te_key event) (te_namespace event) (te_domain event);
  Ok (delete tk timers).

Definition backend_pop_due_timers (timestamp : Z) (domain : TimerDomain) (limit : option Z) b
    : call K (list (TimerEvent K NS)) :=
  match due_timers (b_timers b) timestamp domain limit (sorted_keys (b_timers b)) [] with
  | Err e => (Err e, b)
  | Ok result =>
      match foldM pop_event (b_timers b) result with
      | Err e => (Err e, b)
      | Ok timers => (Ok result, with_timers timers b)
      end
  end.

(** The loop of [cleanup_expired]: [processed] counts the index entries seen. *)
Fixpoint cleanup_loop (now_ms : Z) (limit : option Z) (keys : list bytes) (processed removed : Z) b
    : call K Z :=
  match keys with
  | [] => (Ok removed, b)
  | expiry_key :: keys =>
      match decode_expiry_key expiry_key with
      | Err e => (Err e, b)
      | Ok (expires_at, sk) =>
          if (now_ms <? expires_at) || match limit with Some l => l <=? processed | None => false end
          then (Ok removed, b)
          else
            match (match b_state b !! sk with
                   | None => Ok false
                   | Some encoded =>
                       '(e, _) ← decode_state_value encoded;
                       Ok (bool_decide (e = Some expires_at))
                   end) with
            | Err e => (Err e, b)
            | Ok matches =>
                let b1 := if matches : bool then with_state (delete sk (b_state b)) b else b in
                let removed := if matches then removed + 1 else removed in
                cleanup_loop now_ms limit keys (processed + 1) removed
                  (with_expiry (delete expiry_key (b_expiry b1)) b1)
            end
      end
  end.

Definition backend_cleanup_expired (now_ms : Z) (limit : option Z) b : call K Z :=
  cleanup_loop now_ms limit (sorted_keys (b_expiry b)) 0 0 b.
End backend.

(** ** The timer queue *)

Section timers.
Context {K NS V : Type} `{EqDecision K, EqDecision NS}
  `{KeyCodec K, KeyCodec NS, KeyCodec (K * NS), Serializer (K * NS), Sha256}.
Implicit Types (b : backend K) (timers : gmap bytes bytes).

#[export] Instance TimerEvent_eq_dec : EqDecision (TimerEvent K NS).
Proof. solve_decision. Defined.

(** The event a stored timer stands for. *)
Definition timer_event timers (tk : bytes) : option (TimerEvent K NS) :=
  match timers !! tk with
  | None => None
  | Some v =>
      match decode_timer tk v with
      | Err _ => None
      | Ok (ts, key, namespace) =>
          Some (mkTimerEvent ts key namespace
            (if startswith tk (timer_prefix EVENT_TIME) then EVENT_TIME else PROCESSING_TIME))
      end
  end.

(** The abstract timer queue: the events in physical key order. *)
Definition pending_timers b : list (TimerEvent K NS) :=
  omap (timer_event (b_timers b)) (sorted_keys (b_timers b)).

(** What every stored timer looks like. *)
Definition timer_ok timers (tk v : bytes) : Prop :=
  ∃ ts (key : K) (namespace : NS) d,
    encode_timer_key ts key namespace d = Ok tk ∧ v = encode_timer_value key namespace.

Definition timers_ok timers : Prop := map_Forall (timer_ok timers) timers.

Definition is_due (timestamp : Z) (domain : TimerDomain) (e : TimerEvent K NS) : Prop :=
  te_domain e = domain ∧ te_timestamp e <= timestamp.

#[export] Instance is_due_dec timestamp domain e : Decision (is_due timestamp domain e).
Proof. unfold is_due. apply _. Defined.

Lemma timer_event_ok timers tk v :
  timers_ok timers → timers !! tk = Some v →
  ∃ e, timer_event timers tk = Some e ∧
    encode_timer_key (te_timestamp e) (te_key e) (te_namespace e) (te_domain e) = Ok tk ∧
    v = encode_timer_value (te_key e) (te_namespace e).
Proof.
  intros Hok Hv. destruct (Hok _ _ Hv) as (ts & k & ns & d & Htk & ->).
  exists (mkTimerEvent ts k ns d). unfold timer_event. rewrite Hv.
  rewrite (decode_encode_timer _ _ _ _ _ Htk). split; [|done]. do 2 f_equal.
  destruct (startswith tk (timer_prefix EVENT_TIME)) eqn:E.
  - by apply (startswith_timer_prefix _ _ _ _ _ _ Htk) in E.
  - destruct d; [|done].
    rewrite (proj2 (startswith_timer_prefix _ _ _ _ _ _ Htk)) in E; done.
Qed.

Lemma elem_of_sorted_keys {A} (m : gmap bytes A) tk : tk ∈ sorted_keys m ↔ is_Some (m !! tk).
Proof.
  unfold sorted_keys. rewrite elem_of_sort_bytes, list_elem_of_fmap. split.
  - intros ([k v] & -> & Hk%elem_of_map_to_list). eauto.
  - intros [v Hv]. exists (tk, v). split; [done|]. by apply elem_of_map_to_list.
Qed.

Lemma sorted_keys_filter {A} (P : bytes → Prop) `{∀ x, Decision (P x)} (m : gmap bytes A) :
  sorted_keys (filter (λ kv, P kv.1) m) = filter P (sorted_keys m).
Proof.
  unfold sorted_keys. rewrite <-sort_bytes_filter. apply sort_bytes_proper, map_to_list_fst_filter.
Qed.

Lemma NoDup_sorted_keys {A} (m : gmap bytes A) : NoDup (sorted_keys m).
Proof. unfold sorted_keys. rewrite sort_bytes_perm. apply NoDup_fst_map_to_list. Qed.

(** How many events [limit] lets through, once [n] were taken. *)
Definition take_limit (limit : option Z) (n : nat) (l : list (TimerEvent K NS)) : list (TimerEvent K NS) :=
  match limit with
  | None => l
  | Some lim => take (Z.to_nat (Z.max 1 lim) - n) l
  end.

(** The first loop of [pop_due_timers] collects the due events, in key order. *)
Lemma due_timers_spec timers timestamp domain limit keys acc :
  timers_ok timers → (∀ tk, tk ∈ keys → is_Some (timers !! tk)) →
  StronglySorted bytes_le keys →
  (∀ lim, limit = Some lim → (length acc < Z.to_nat (Z.max 1 lim))%nat) →
  due_timers timers timestamp domain limit keys acc =
  Ok (acc ++ take_limit limit (length acc)
        (filter (is_due timestamp domain) (omap (timer_event timers) keys))).
Proof.
  intros Hok Hin Hs. revert acc; induction Hs as [|tk keys Hs IH Hle]; intros acc Hlim.
  { cbn. destruct limit; cbn; by rewrite ?take_nil, app_nil_r. }
  destruct (Hin tk) as [v Hv]; [by left|].
  destruct (timer_event_ok _ _ _ Hok Hv) as (e & He & Htk & ->).
  cbn [due_timers omap list_omap]. rewrite He.
  assert (Hk : ∀ k, k ∈ keys → is_Some (timers !! k)) by (intros; apply Hin; by right).
  destruct (startswith tk (timer_prefix domain)) eqn:Epre; cbn [negb].
  2: { rewrite filter_cons_False; [by apply IH|]. intros [Hd _]. subst domain.
       by rewrite (proj2 (startswith_timer_prefix _ _ _ _ _ _ Htk)) in Epre. }
  pose proof (proj1 (startswith_timer_prefix _ _ _ _ _ _ Htk) Epre) as Hdom.
  rewrite Hv, (decode_encode_timer _ _ _ _ _ Htk).
  destruct (Z.ltb_spec timestamp (te_timestamp e)) as [Hlt|Hge].
  - rewrite filter_none.
    { destruct limit; cbn; by rewrite ?take_nil, app_nil_r. }
    intros e' [->|(k' & Hk' & He')%list_elem_of_omap]%elem_of_cons [Hd' Hts']; [lia|].
    destruct (Hk k' Hk') as [v' Hv'].
    destruct (timer_event_ok _ _ _ Hok Hv') as (e2 & He2 & Htk2 & _). simplify_eq.
    rewrite Hd' in Htk2.
    assert (te_timestamp e <= te_timestamp e'); [|lia].
    eapply encode_timer_key_le; [exact Htk|exact Htk2|].
    rewrite Forall_forall in Hle. by apply Hle.
  - assert (is_due timestamp domain e) by (split; [done|lia]).
    rewrite filter_cons_True by done.
    assert (mkTimerEvent (te_timestamp e) (te_key e) (te_namespace e) domain = e) as ->
      by (destruct e; cbn in *; by subst).
    destruct limit as [lim|]; cbn [take_limit].
    + specialize (Hlim _ eq_refl). rewrite length_app. cbn [length].
      replace (Z.to_nat (Z.max 1 lim) - length acc)%nat
        with (S (Z.to_nat (Z.max 1 lim) - (length acc + 1))) by lia. cbn [take].
      destruct (Z.leb_spec lim (Z.of_nat (length acc + 1))).
      * replace (Z.to_nat (Z.max 1 lim) - (length acc + 1))%nat with O by lia. by rewrite take_0.
      * rewrite IH; [|done|].
        -- rewrite <-app_assoc. cbn. do 4 f_equal. rewrite length_app. done.
        -- intros ? [= <-]. rewrite length_app. cbn. lia.
    + rewrite IH by done. by rewrite <-app_assoc.
Qed.

(** Popping the collected events removes exactly their keys. *)
Lemma foldM_pop_event timers (evs : list (TimerEvent K NS)) tks :
  Forall2 (λ e tk, encode_timer_key (te_timestamp e) (te_key e) (te_namespace e) (te_domain e) = Ok tk) evs tks →
  foldM pop_event timers evs = Ok (foldl (λ m k, delete k m) timers tks).
Proof.
  intros Hf. revert timers. induction Hf as [|e tk evs tks He _ IH]; intros timers; cbn; [done|].
  unfold pop_event at 1. rewrite He. cbn. apply IH.
Qed.
(** The physical key of an event. *)
Definition event_key (e : TimerEvent K NS) : bytes :=
  match encode_timer_key (te_timestamp e) (te_key e) (te_namespace e) (te_domain e) with
  | Ok tk => tk
  | Err _ => []
  end.

Lemma elem_of_pending b e :
  timers_ok (b_timers b) → e ∈ pending_timers b →
  encode_timer_key (te_timestamp e) (te_key e) (te_namespace e) (te_domain e) = Ok (event_key e) ∧
  timer_event (b_timers b) (event_key e) = Some e.
Proof.
  intros Hok (tk & [v Hv]%elem_of_sorted_keys & He)%list_elem_of_omap.
  destruct (timer_event_ok _ _ _ Hok Hv) as (e' & He' & Htk & _).
  rewrite He in He'. injection He' as <-.
  assert (event_key e = tk) as -> by (unfold event_key; by rewrite Htk). done.
Qed.

Lemma take_limit_sub limit n l e : e ∈ take_limit limit n l → e ∈ l.
Proof.
  destruct limit as [lim|]; cbn; [|done]. intros He.
  rewrite <-(take_drop (Z.to_nat (1 `max` lim) - n) l). apply elem_of_app. by left.
Qed.

Lemma pop_due_timers_spec b timestamp domain limit :
  timers_ok (b_timers b) →
  let due := take_limit limit 0 (filter (is_due timestamp domain) (pending_timers b)) in
  ∃ timers', backend_pop_due_timers timestamp domain limit b = (Ok due, with_timers timers' b) ∧
    timers_ok timers' ∧
    pending_timers (with_timers timers' b) = filter (λ e, e ∉ due) (pending_timers b).
Proof.
  intros Hok due. unfold backend_pop_due_timers.
  rewrite due_timers_spec; [|done| |apply sort_bytes_sorted|cbn; lia].
  2: { intros tk. apply elem_of_sorted_keys. }
  cbn [app length]. fold (pending_timers b). fold due.
  assert (Hdue : ∀ e, e ∈ due → e ∈ pending_timers b).
  { intros e [_ ?]%take_limit_sub%list_elem_of_filter. done. }
  rewrite (foldM_pop_event _ _ (event_key <$> due)).
  2: { apply Forall2_fmap_r, Forall_Forall2_diag, Forall_forall.
       intros e He. apply (elem_of_pending b); auto. }
  set (tks := event_key <$> due).
  assert (foldl (λ m k, delete k m) (b_timers b) tks = filter (λ kv, kv.1 ∉ tks) (b_timers b)) as ->.
  { apply map_eq. intros k. rewrite foldl_delete_lookup, map_lookup_filter.
    destruct (b_timers b !! k); cbn; repeat case_decide || case_guard; done. }
  eexists. split; [done|]. split.
  { intros k v [Hk _]%map_lookup_filter_Some. exact (Hok _ _ Hk). }
  unfold pending_timers. cbn [with_timers b_timers].
  match goal with |- omap _ (sorted_keys ?m) = _ =>
    assert (sorted_keys m = filter (λ k, k ∉ tks) (sorted_keys (b_timers b))) as ->
      by exact (sorted_keys_filter (λ k, k ∉ tks) (b_timers b)) end.
  apply omap_filter. intros tk [v Hv]%elem_of_sorted_keys.
  destruct (timer_event_ok _ _ _ Hok Hv) as (e & He & Htk & _).
  assert (Hek : event_key e = tk) by (unfold event_key; by rewrite Htk).
  exists e. split_and!; [done| |].
  - split; intros Hn Hin; apply Hn.
    + apply list_elem_of_fmap. by exists e.
    + apply list_elem_of_fmap in Hin as (e' & Htk' & He').
      pose proof (Hdue _ He') as Hp. apply elem_of_pending in Hp as [_ Hp]; [|done].
      rewrite <-Htk', He in Hp. by simplify_eq.
  - intros Hn. unfold timer_event in He |- *. rewrite Hv in He.
    by rewrite (map_lookup_filter_Some_2 _ _ _ v).
Qed.

Lemma pending_timers_sorted b :
  timers_ok (b_timers b) →
  ∀ d, StronglySorted (λ e e', te_timestamp e <= te_timestamp e')
         (filter (λ e, te_domain e = d) (pending_timers b)).
Proof.
  intros Hok d. unfold pending_timers.
  assert (Hin : ∀ tk, tk ∈ sorted_keys (b_timers b) → is_Some (b_timers b !! tk))
    by (intros tk; apply elem_of_sorted_keys).
  pose proof (sort_bytes_sorted (map_to_list (b_timers b)).*1) as Hs.
  change (StronglySorted bytes_le (sorted_keys (b_timers b))) in Hs.
  induction Hs as [|tk keys Hs IH Hle]; [constructor|].
  destruct (Hin tk) as [v Hv]; [by left|].
  destruct (timer_event_ok _ _ _ Hok Hv) as (e & He & Htk & _).
  cbn [omap list_omap]. rewrite He.
  assert (Hk : ∀ k, k ∈ keys → is_Some (b_timers b !! k)) by (intros; apply Hin; by right).
  rewrite filter_cons. case_decide as Hd; [|auto].
  constructor; [auto|]. apply Forall_forall.
  intros e' [Hd' (k' & Hk' & He')%list_elem_of_omap]%list_elem_of_filter.
  destruct (Hk k' Hk') as [v' Hv'].
  destruct (timer_event_ok _ _ _ Hok Hv') as (e2 & He2 & Htk2 & _).
  rewrite He' in He2. injection He2 as <-. rewrite Hd in Htk. rewrite Hd' in Htk2.
  eapply encode_timer_key_le; [exact Htk|exact Htk2|].
  rewrite Forall_forall in Hle. by apply Hle.
Qed.
End timers.

(** ** Well-formed backends *)

Section wellformed.
Context {K NS V : Type} `{KeyCodec K, KeyCodec NS, KeyCodec (K * NS), Serializer (K * NS), Sha256}.
Implicit Types (b : backend K) (descriptor : StateDescriptor V) (namespace : NS).

Definition is_state_key (sk : bytes) : Prop :=
  ∃ name (key : K) (namespace : NS), encode_state_key name key namespace = Ok sk.

(** A stored value: its key parses, it decodes, and if it expires the expiry index
    has its entry. *)
Definition state_entry_ok (expiry : gmap bytes bytes) (sk v : bytes) : Prop :=
  is_state_key sk ∧
  ∃ e payload, decode_state_value v = Ok (e, payload) ∧
    match e with
    | None => True
    | Some x => ∃ ek, encode_expiry_key x sk = Ok ek ∧ is_Some (expiry !! ek)
    end.

Definition expiry_entry_ok (ek : bytes) : Prop :=
  ∃ e sk, encode_expiry_key e sk = Ok ek ∧ is_state_key sk.

Record backend_ok b : Prop := {
  bo_state sk v : b_state b !! sk = Some v → state_entry_ok (b_expiry b) sk v;
  bo_expiry ek v : b_expiry b !! ek = Some v → expiry_entry_ok ek;
  bo_timers : timers_ok (K := K) (NS := NS) (b_timers b)
}.

(** The clock stays in the range of the [struct] formats. *)
Definition clock_in_range descriptor (clock : Z) : Prop :=
  match expiry_for descriptor clock with
  | None => True
  | Some e => 0 <= e < 2 ^ 63
  end.

Lemma state_key_is_state_key descriptor namespace b sk :
  state_key descriptor namespace b = Ok sk → is_state_key sk.
Proof. unfold state_key. intros (k & _ & Hk)%bind_Ok_inv. by exists (sd_name descriptor), k, namespace. Qed.

Lemma state_key_same descriptor namespace b b' :
  b_key b' = b_key b → state_key descriptor namespace b' = state_key descriptor namespace b.
Proof. unfold state_key, current_key. by intros ->. Qed.

Lemma encode_expiry_key_inj e sk e' sk' ek :
  encode_expiry_key e sk = Ok ek → encode_expiry_key e' sk' = Ok ek → e = e' ∧ sk = sk'.
Proof. intros E%decode_encode_expiry_key E'%decode_encode_expiry_key. rewrite E in E'. by simplify_eq. Qed.

(** The index entry of a stored value can be dropped, and only its own key's
    entries are touched. *)
Lemma drop_expiry_of_ok b0 b sk v :
  state_entry_ok (b_expiry b0) sk v →
  ∃ expiry', drop_expiry_of sk v b = (Ok (), with_expiry expiry' b) ∧
    (∀ ek x, expiry' !! ek = Some x → b_expiry b !! ek = Some x) ∧
    (∀ sk' e ek, sk' ≠ sk → encode_expiry_key e sk' = Ok ek → expiry' !! ek = b_expiry b !! ek).
Proof.
  intros (_ & e & payload & Hv & He). unfold drop_expiry_of. rewrite Hv.
  destruct e as [x|].
  - destruct He as (ek & Hek & _). rewrite Hek. eexists. split; [done|]. split.
    + intros ek' ? Hl. by apply lookup_delete_Some in Hl as [_ ?].
    + intros sk' e ek' Hne Hek'. apply lookup_delete_ne. intros <-.
      destruct (encode_expiry_key_inj _ _ _ _ _ Hek Hek') as [_ ?]. congruence.
  - exists (b_expiry b). split; [by destruct b|]. done.
Qed.

Lemma state_entry_ok_mono expiry expiry' sk v :
  (∀ e ek, encode_expiry_key e sk = Ok ek → is_Some (expiry !! ek) → is_Some (expiry' !! ek)) →
  state_entry_ok expiry sk v → state_entry_ok expiry' sk v.
Proof.
  intros Hm (Hk & e & payload & Hv & He). split; [done|]. exists e, payload. split; [done|].
  destruct e; [|done]. destruct He as (ek & Hek & ?). eauto.
Qed.

(** [put] stores the serialized value under the state key, and nothing else of the
    state changes. *)
Lemma backend_put_ok descriptor value namespace clock b sk :
  backend_ok b → clock_in_range descriptor clock → state_key descriptor namespace b = Ok sk →
  ∃ b' encoded, backend_put descriptor value namespace clock b = (Ok (), b') ∧
    encode_state_value (@ser_dumps _ (sd_serializer descriptor) value) (expiry_for descriptor clock) = Ok encoded ∧
    b_key b' = b_key b ∧ b_timers b' = b_timers b ∧ b_state b' = <[sk := encoded]> (b_state b) ∧
    backend_ok b'.
Proof.
  intros Hok Hr Hsk. unfold backend_put. rewrite Hsk.
  assert (∃ expiry1, (match b_state b !! sk with
      | Some previous => drop_expiry_of sk previous b
      | None => (Ok (), b) end) = (Ok (), with_expiry expiry1 b) ∧
      (∀ ek x, expiry1 !! ek = Some x → b_expiry b !! ek = Some x) ∧
      (∀ sk' e ek, sk' ≠ sk → encode_expiry_key e sk' = Ok ek → expiry1 !! ek = b_expiry b !! ek))
    as (expiry1 & -> & Hsub & Hoth).
  { destruct (b_state b !! sk) as [prev|] eqn:Hprev.
    - eapply drop_expiry_of_ok, bo_state; done.
    - exists (b_expiry b). split; [by destruct b|]. done. }
  set (dumped := @ser_dumps _ (sd_serializer descriptor) value).
  assert (∃ encoded, encode_state_value dumped (expiry_for descriptor clock) = Ok encoded ∧
    decode_state_value encoded = Ok (expiry_for descriptor clock, dumped)) as (encoded & Henc & Hdec).
  { unfold encode_state_value at 1. rewrite pack_i64_Ok; cbn.
    - eexists. split; [done|]. apply decode_encode_state_value.
      + unfold encode_state_value. rewrite pack_i64_Ok; [done|].
        unfold clock_in_range in Hr. destruct (expiry_for descriptor clock); unfold NO_EXPIRY; cbn; lia.
      + unfold clock_in_range in Hr. unfold NO_EXPIRY. intros E. rewrite E in Hr. lia.
    - unfold clock_in_range in Hr. destruct (expiry_for descriptor clock); unfold NO_EXPIRY; cbn; lia. }
  rewrite Henc. unfold clock_in_range in Hr.
  assert (Hst : ∀ expiry', (∀ ek x, expiry1 !! ek = Some x → is_Some (expiry' !! ek)) →
    state_entry_ok expiry' sk encoded →
    ∀ sk' v, <[sk := encoded]> (b_state b) !! sk' = Some v → state_entry_ok expiry' sk' v).
  { intros expiry' Hm Hself sk' v [[<- <-]|[Hne Hv]]%lookup_insert_Some; [done|].
    eapply state_entry_ok_mono; [|by eapply bo_state]. intros e ek Hek [x Hx].
    apply (Hm ek x). by rewrite (Hoth sk' e ek). }
  pose proof (state_key_is_state_key _ _ _ _ Hsk) as Hisk.
  destruct (expiry_for descriptor clock) as [x|].
  - assert (∃ ek, encode_expiry_key x sk = Ok ek) as [ek Hek].
    { unfold encode_expiry_key. rewrite pack_u64_Ok by lia. eexists. done. }
    rewrite Hek. eexists _, _. do 2 (split; [done|]). split_and!; try done. split; cbn.
    + apply Hst.
      * intros ek' y Hy. destruct (decide (ek = ek')) as [->|]; [rewrite lookup_insert_eq; eauto|].
        rewrite lookup_insert_ne by done. eauto.
      * split; [done|]. exists (Some x), dumped. split; [done|]. exists ek.
        rewrite lookup_insert_eq. eauto.
    + intros ek' y [[<- _]|[_ Hy]]%lookup_insert_Some; [by exists x, sk|].
      eapply bo_expiry; [done|]. by apply Hsub.
    + by apply (bo_timers b).
  - eexists _, _. do 2 (split; [done|]). split_and!; try done. split; cbn.
    + apply Hst; [eauto|]. split; [done|]. by exists None, dumped.
    + intros ek' y Hy. eapply bo_expiry; [done|]. by apply Hsub.
    + by apply (bo_timers b).
Qed.

Lemma backend_delete_ok descriptor namespace b sk :
  backend_ok b → state_key descriptor namespace b = Ok sk →
  ∃ b', backend_delete descriptor namespace b = (Ok (), b') ∧
    b_key b' = b_key b ∧ b_timers b' = b_timers b ∧ b_state b' = delete sk (b_state b) ∧ backend_ok b'.
Proof.
  intros Hok Hsk. unfold backend_delete. rewrite Hsk.
  destruct (b_state b !! sk) as [v|] eqn:Hv.
  - destruct (drop_expiry_of_ok b (with_state (delete sk (b_state b)) b) sk v) as (expiry' & -> & Hsub & Hoth);
      [by eapply bo_state|].
    eexists. split; [done|]. split_and!; try done. split; cbn.
    + intros sk' v' [Hne Hv']%lookup_delete_Some. eapply state_entry_ok_mono; [|by eapply bo_state].
      intros e ek Hek ?. by rewrite (Hoth sk' e ek).
    + intros ek x Hx. eapply bo_expiry; [done|]. by apply (Hsub ek x).
    + by apply (bo_timers b).
  - exists b. split_and!; try done. by rewrite delete_id.
Qed.

(** Forgetting a value without its index entry keeps the backend well formed: the
    index may be larger than the state. *)
Lemma backend_ok_drop_state sk b : backend_ok b → backend_ok (with_state (delete sk (b_state b)) b).
Proof.
  intros [Hs He Ht]. split; cbn; [|done|done]. intros sk' v [_ ?]%lookup_delete_Some. auto.
Qed.

(** [get], case by case. *)
Lemma backend_get_ok descriptor namespace clock clock' b sk :
  backend_ok b → clock_in_range descriptor clock' → state_key descriptor namespace b = Ok sk →
  let '(r, b') := backend_get descriptor namespace clock clock' b in
  b_key b' = b_key b ∧ b_timers b' = b_timers b ∧
  (∀ sk', sk' ≠ sk → b_state b' !! sk' = b_state b !! sk') ∧ backend_ok b' ∧
  match b_state b !! sk with
  | None => r = Ok None
  | Some encoded =>
      ∃ e payload, decode_state_value encoded = Ok (e, payload) ∧
        r = if hides_expired descriptor e clock then Ok None
            else Some <$> @ser_loads _ (sd_serializer descriptor) payload
  end.
Proof.
  intros Hok Hr Hsk. unfold backend_get. rewrite Hsk.
  destruct (b_state b !! sk) as [encoded|] eqn:Henc; [|done].
  destruct (bo_state b Hok _ _ Henc) as (_ & e & payload & Hdec & _). rewrite Hdec.
  destruct (hides_expired descriptor e clock) eqn:Hh.
  { split_and!; try done; cbn.
    - intros sk' ?. by rewrite lookup_delete_ne.
    - by apply backend_ok_drop_state.
    - exists e, payload. by rewrite Hh. }
  assert (Hdone : ∃ e0 payload0, Ok (e, payload) = Ok (e0, payload0) ∧
      (Some <$> @ser_loads _ (sd_serializer descriptor) payload) =
      if hides_expired descriptor e0 clock then Ok None else Some <$> @ser_loads _ (sd_serializer descriptor) payload0).
  { exists e, payload. by rewrite Hh. }
  destruct (@ser_loads _ (sd_serializer descriptor) payload) as [value|err]; cbn in Hdone |- *; [|done].
  destruct (sd_ttl_config descriptor) as [ttl|]; [|done].
  case_decide; [|done].
  destruct (backend_put_ok descriptor value namespace clock' b sk) as (b' & ? & -> & _ & ? & ? & Hst & ?); try done.
  split_and!; try done. intros sk' ?. rewrite Hst. by rewrite lookup_insert_ne.
Qed.

Lemma backend_register_timer_ok timestamp namespace domain b r b' :
  backend_ok b → backend_register_timer timestamp namespace domain b = (r, b') → backend_ok b'.
Proof.
  intros [Hs He Ht]. unfold backend_register_timer. intros E.
  repeat case_step_in E; simplify_eq; try done. split; cbn; [done|done|].
  intros tk v [[<- <-]|[_ Hv]]%lookup_insert_Some; [|by apply Ht]. unfold timer_ok. eauto 10.
Qed.

Lemma backend_delete_timer_ok timestamp namespace domain b r b' :
  backend_ok b → backend_delete_timer timestamp namespace domain b = (r, b') → backend_ok b'.
Proof.
  intros [Hs He Ht]. unfold backend_delete_timer. intros E.
  repeat case_step_in E; simplify_eq; try done. split; cbn; [done|done|].
  intros tk v [_ Hv]%lookup_delete_Some. by apply Ht.
Qed.
End wellformed.

(** ** Expiry sweeps *)

Section cleanup.
Context {K NS V : Type} `{KeyCodec K, KeyCodec NS, KeyCodec (K * NS), Serializer (K * NS), Sha256}.
Implicit Types (b : backend K).

(** The expiry a stored value carries. *)
Definition value_expiry (v : bytes) : option Z :=
  match decode_state_value v with Ok (e, _) => e | Err _ => None end.

Definition expired (now_ms : Z) (v : bytes) : Prop :=
  match value_expiry v with Some e => e <= now_ms | None => False end.

#[export] Instance expired_dec now_ms v : Decision (expired now_ms v).
Proof. unfold expired. destruct (value_expiry v); apply _. Defined.

(** The index entries of [keys] that a sweep at [now_ms] reaches. *)
Definition swept (now_ms : Z) (keys : list bytes) (sk : bytes) (e : Z) : Prop :=
  ∃ ek, ek ∈ keys ∧ encode_expiry_key e sk = Ok ek ∧ e <= now_ms.

(** The test [encoded is not None and decode_state_value(encoded)[0] == expires_at]
    and the removal it guards. *)
Definition entry_matches b (sk : bytes) (e : Z) : bool :=
  match b_state b !! sk with Some v => bool_decide (value_expiry v = Some e) | None => false end.

Definition sweep_entry b (sk : bytes) (e : Z) : backend K :=
  if entry_matches b sk e then with_state (delete sk (b_state b)) b else b.

Lemma entry_matches_spec b sk e :
  (∀ sk v, b_state b !! sk = Some v → is_ok (decode_state_value v) = true) →
  (match b_state b !! sk with
   | None => Ok false
   | Some encoded => '(e0, _) ← decode_state_value encoded; Ok (bool_decide (e0 = Some e)) end)
  = Ok (entry_matches b sk e).
Proof.
  intros Hdec. unfold entry_matches. destruct (b_state b !! sk) as [v|] eqn:Hv; [|done].
  pose proof (Hdec _ _ Hv) as Hd. unfold value_expiry. by destruct (decode_state_value v) as [[e0 p]|].
Qed.

Lemma sweep_entry_state b sk e sk' v :
  b_state (sweep_entry b sk e) !! sk' = Some v ↔
  b_state b !! sk' = Some v ∧ ¬ (sk' = sk ∧ value_expiry v = Some e).
Proof.
  unfold sweep_entry, entry_matches.
  destruct (b_state b !! sk) as [v0|] eqn:Hv0; [case_bool_decide as He|]; cbn.
  - rewrite lookup_delete_Some. split; [naive_solver|]. intros [Hv Hn]. split; [|done]. intros <-.
    apply Hn. split; [done|]. congruence.
  - split; [|by intros [? _]]. intros Hv; split; [done|]. intros [-> ?]. congruence.
  - split; [|by intros [? _]]. intros Hv; split; [done|]. intros [-> ?]. congruence.
Qed.

Lemma sweep_entry_size b sk e :
  Z.of_nat (size (b_state b)) =
  Z.of_nat (size (b_state (sweep_entry b sk e))) + (if entry_matches b sk e then 1 else 0).
Proof.
  unfold sweep_entry, entry_matches.
  destruct (b_state b !! sk) as [v0|] eqn:Hv0; [case_bool_decide|]; cbn; try lia.
  rewrite map_size_delete_Some by eauto.
  assert (0 < size (b_state b))%nat; [|lia].
  destruct (size (b_state b)) eqn:Hsz; [|lia]. apply map_size_empty_inv in Hsz. by rewrite Hsz in Hv0.
Qed.

(** The sweep without a limit removes a value exactly when the index holds an entry
    for it, at the value's own expiry, that is not after [now_ms]. *)
Lemma cleanup_loop_spec now_ms keys processed removed b :
  StronglySorted bytes_le keys → (∀ ek, ek ∈ keys → ∃ e sk, encode_expiry_key e sk = Ok ek) →
  (∀ sk v, b_state b !! sk = Some v → is_ok (decode_state_value v) = true) →
  ∃ n b', cleanup_loop now_ms None keys processed removed b = (Ok n, b') ∧
    b_key b' = b_key b ∧ b_timers b' = b_timers b ∧
    n = removed + (Z.of_nat (size (b_state b)) - Z.of_nat (size (b_state b'))) ∧
    (∀ ek v, b_expiry b' !! ek = Some v ↔
       b_expiry b !! ek = Some v ∧ ¬ (∃ e sk, encode_expiry_key e sk = Ok ek ∧ ek ∈ keys ∧ e <= now_ms)) ∧
    (∀ sk v, b_state b' !! sk = Some v ↔
       b_state b !! sk = Some v ∧ ¬ (∃ e, value_expiry v = Some e ∧ swept now_ms keys sk e)).
Proof.
  intros Hs. revert processed removed b; induction Hs as [|ek keys Hs IH Hle]; intros processed removed b Hin Hdec.
  { exists removed, b. cbn. split_and!; try done; try lia.
    - intros ek v. split; [|by intros [? _]]. intros ?; split; [done|]. by intros (?&?&_&?%not_elem_of_nil&_).
    - intros sk v. split; [|by intros [? _]]. intros ?; split; [done|]. by intros (?&_&?&?%not_elem_of_nil&_). }
  destruct (Hin ek) as (e & sk & Hek); [by left|].
  assert (Hin' : ∀ k, k ∈ keys → ∃ e sk, encode_expiry_key e sk = Ok k) by (intros; apply Hin; by right).
  cbn [cleanup_loop]. rewrite (decode_encode_expiry_key _ _ _ Hek). rewrite orb_false_r.
  destruct (Z.ltb_spec now_ms e) as [Hlt|Hge].
  { assert (Hnone : ∀ k e' sk', k ∈ ek :: keys → encode_expiry_key e' sk' = Ok k → ¬ e' <= now_ms).
    { intros k e' sk' [->|Hk]%elem_of_cons Hek' Hle'.
      - destruct (encode_expiry_key_inj _ _ _ _ _ Hek Hek'). lia.
      - rewrite Forall_forall in Hle. pose proof (encode_expiry_key_le _ _ _ _ _ _ Hek Hek' (Hle _ Hk)). lia. }
    exists removed, b. split_and!; try done; try lia.
    - intros k v. split; [|by intros [? _]]. intros ?; split; [done|]. intros (?&?&?&?&?). by eapply Hnone.
    - intros k v. split; [|by intros [? _]]. intros ?; split; [done|].
      intros (?&?&?&?&?&?). by eapply Hnone. }
  rewrite entry_matches_spec by done.
  fold (sweep_entry b sk e). set (b1 := sweep_entry b sk e). set (m := entry_matches b sk e).
  assert (Hb1 := sweep_entry_state b sk e). fold b1 in Hb1.
  destruct (IH (processed + 1) (if m then removed + 1 else removed)
              (with_expiry (delete ek (b_expiry b1)) b1)) as (n & b' & Hrun & Hk & Ht & Hn & Hexp & Hst).
  { done. }
  { intros sk' v Hv. cbn in Hv. apply Hb1 in Hv as [Hv _]. eauto. }
  exists n, b'. split; [exact Hrun|].
  assert (Hfix : b_key b1 = b_key b ∧ b_timers b1 = b_timers b ∧ b_expiry b1 = b_expiry b)
    by (unfold b1, sweep_entry; destruct (entry_matches b sk e); done).
  destruct Hfix as (Hf1 & Hf2 & Hf3). cbn in Hk, Ht, Hn, Hexp, Hst. split_and!; try congruence.
  - pose proof (sweep_entry_size b sk e) as Hsz. fold b1 m in Hsz. rewrite Hn. destruct m; lia.
  - intros k v. rewrite Hexp, lookup_delete_Some, Hf3. split.
    + intros [[Hne Hv] Hnot]. split; [done|]. intros (e' & sk' & He' & [->|Hk']%elem_of_cons & Hle'); [done|].
      apply Hnot. eauto.
    + intros [Hv Hnot]. split_and!; [|done|].
      * intros <-. apply Hnot. exists e, sk. split_and!; [done|by left|done].
      * intros (e' & sk' & He' & Hk' & Hle'). apply Hnot. exists e', sk'. split_and!; [done|by right|done].
  - intros sk' v. rewrite Hst, Hb1. split.
    + intros [[Hv Hno] Hnot]. split; [done|].
      intros (e' & Hve & k & [->|Hk']%elem_of_cons & Hke & Hle').
      * destruct (encode_expiry_key_inj _ _ _ _ _ Hek Hke) as [<- <-]. by apply Hno.
      * apply Hnot. exists e'. split; [done|]. by exists k.
    + intros [Hv Hnot]. split; [split; [done|]|].
      * intros [-> Hve]. apply Hnot. exists e. split; [done|]. exists ek. split_and!; [by left|done|done].
      * intros (e' & Hve & k & Hk' & Hke & Hle'). apply Hnot. exists e'. split; [done|].
        exists k. split_and!; [by right|done|done].
Qed.

(** An unlimited sweep of a well-formed backend keeps exactly the unexpired values. *)
Lemma backend_cleanup_ok now_ms b :
  backend_ok (K := K) (NS := NS) b →
  ∃ b', backend_cleanup_expired now_ms None b =
      (Ok (Z.of_nat (size (b_state b)) - Z.of_nat (size (b_state b'))), b') ∧
    b_key b' = b_key b ∧ b_timers b' = b_timers b ∧
    b_state b' = filter (λ kv, ¬ expired now_ms kv.2) (b_state b) ∧
    (∀ ek v, b_expiry b' !! ek = Some v ↔
       b_expiry b !! ek = Some v ∧ ∀ e sk, encode_expiry_key e sk = Ok ek → now_ms < e) ∧
    backend_ok (K := K) (NS := NS) b'.
Proof.
  intros Hok. unfold backend_cleanup_expired.
  destruct (cleanup_loop_spec now_ms (sorted_keys (b_expiry b)) 0 0 b) as (n & b' & Hrun & Hk & Ht & Hn & Hexp & Hst).
  { apply sort_bytes_sorted. }
  { intros ek [v Hv]%elem_of_sorted_keys. destruct (bo_expiry b Hok _ _ Hv) as (e & sk & He & _). eauto. }
  { intros sk v Hv. destruct (bo_state b Hok _ _ Hv) as (_ & e & p & Hd & _). by rewrite Hd. }
  assert (Hexp' : ∀ ek v, b_expiry b' !! ek = Some v ↔
       b_expiry b !! ek = Some v ∧ ∀ e sk, encode_expiry_key e sk = Ok ek → now_ms < e).
  { intros ek v. rewrite Hexp. split; intros [Hv Hnot]; (split; [done|]).
    - intros e sk He. destruct (Z.le_gt_cases e now_ms); [|lia]. exfalso. apply Hnot.
      exists e, sk. split_and!; [done|apply elem_of_sorted_keys; eauto|done].
    - intros (e & sk & He & _ & Hle). specialize (Hnot _ _ He). lia. }
  assert (Hst' : ∀ sk v, b_state b' !! sk = Some v ↔ b_state b !! sk = Some v ∧ ¬ expired now_ms v).
  { intros sk v. rewrite Hst. split; intros [Hv Hnot]; (split; [done|]).
    - intros Hx. apply Hnot. unfold expired in Hx. destruct (value_expiry v) as [e|] eqn:Hve; [|done].
      exists e. split; [done|]. destruct (bo_state b Hok _ _ Hv) as (_ & e0 & p & Hd & He0).
      unfold value_expiry in Hve. rewrite Hd in Hve. subst e0. destruct He0 as (ek & Hek & ?).
      exists ek. split_and!; [by apply elem_of_sorted_keys|done|done].
    - intros (e & Hve & ek & _ & _ & Hle). apply Hnot. unfold expired. by rewrite Hve. }
  exists b'. split; [rewrite Hrun; do 2 f_equal; lia|]. split_and!; try done.
  - apply map_eq. intros sk. apply option_eq. intros v. by rewrite Hst', map_lookup_filter_Some.
  - split.
    + intros sk v [Hv Hx]%Hst'. destruct (bo_state b Hok _ _ Hv) as (Hisk & e & p & Hd & He).
      split; [done|]. exists e, p. split; [done|]. destruct e as [x|]; [|done].
      destruct He as (ek & Hek & [y Hy]). exists ek. split; [done|]. exists y. apply Hexp'. split; [done|].
      intros e sk' He'. destruct (encode_expiry_key_inj _ _ _ _ _ Hek He') as [-> ->].
      unfold expired, value_expiry in Hx. rewrite Hd in Hx. lia.
    + intros ek v [Hv _]%Hexp'. by eapply bo_expiry.
    + rewrite Ht. by apply (bo_timers b).
Qed.

Lemma backend_pop_ok `{EqDecision K, EqDecision NS} timestamp domain limit b r b' :
  backend_ok (K := K) (NS := NS) b →
  backend_pop_due_timers (NS := NS) timestamp domain limit b = (r, b') → backend_ok (K := K) (NS := NS) b'.
Proof.
  intros Hok E. destruct (pop_due_timers_spec b timestamp domain limit (bo_timers b Hok)) as (t' & E' & Ht' & _).
  rewrite E in E'. simplify_eq. destruct Hok. by split.
Qed.
End cleanup.

(** ** Every history of calls *)

Section histories.
Context {K NS V : Type} `{EqDecision K, EqDecision NS}
  `{KeyCodec K, KeyCodec NS, KeyCodec (K * NS), Serializer (K * NS), Sha256}.
Implicit Types (b : backend K) (descriptor : StateDescriptor V) (namespace : NS).

(** One call of a backend method, whatever its outcome. *)
Inductive backend_step b : backend K → Prop :=
  | step_set_key key : backend_step b (set_current_key key b)
  | step_put descriptor value namespace clock :
      clock_in_range descriptor clock →
      backend_step b (backend_put descriptor value namespace clock b).2
  | step_get descriptor namespace clock clock' :
      clock_in_range descriptor clock' →
      backend_step b (backend_get descriptor namespace clock clock' b).2
  | step_delete descriptor namespace : backend_step b (backend_delete descriptor namespace b).2
  | step_register timestamp namespace domain :
      backend_step b (backend_register_timer timestamp namespace domain b).2
  | step_delete_timer timestamp namespace domain :
      backend_step b (backend_delete_timer timestamp namespace domain b).2
  | step_pop timestamp domain limit :
      backend_step b (backend_pop_due_timers (NS := NS) timestamp domain limit b).2
  | step_cleanup now_ms limit : backend_step b (backend_cleanup_expired now_ms limit b).2.

Definition backend_reachable b : Prop := rtc (λ b b', backend_step b b') (MemoryStateBackend_init (K := K)) b.

Lemma backend_init_ok : backend_ok (K := K) (NS := NS) (MemoryStateBackend_init (K := K)).
Proof. split; cbn; [done|done|]. apply map_Forall_empty. Qed.

(** Dropping one index entry together with the value it stands for. *)
Lemma backend_ok_sweep b ek e sk :
  backend_ok (K := K) (NS := NS) b → encode_expiry_key e sk = Ok ek →
  let b1 := sweep_entry b sk e in
  backend_ok (K := K) (NS := NS) (with_expiry (delete ek (b_expiry b1)) b1).
Proof.
  intros Hok Hek b1.
  assert (Hf : b_timers b1 = b_timers b ∧ b_expiry b1 = b_expiry b)
    by (unfold b1, sweep_entry; destruct (entry_matches b sk e); done).
  destruct Hf as [Hf1 Hf2]. split; cbn.
  - intros sk' v [Hv Hn]%sweep_entry_state. pose proof (bo_state b Hok _ _ Hv) as Hold.
    destruct Hold as (Hisk & e' & p & Hd & He'). split; [done|]. exists e', p. split; [done|].
    destruct e' as [x|]; [|done]. destruct He' as (ek' & Hek' & Hin). exists ek'. split; [done|].
    rewrite Hf2. rewrite lookup_delete_ne; [done|]. intros <-.
    destruct (encode_expiry_key_inj _ _ _ _ _ Hek Hek') as [<- <-]. apply Hn. split; [done|].
    unfold value_expiry. by rewrite Hd.
  - rewrite Hf2. intros ek' v [_ Hv]%lookup_delete_Some. by eapply bo_expiry.
  - rewrite Hf1. apply (bo_timers b Hok).
Qed.

Lemma cleanup_loop_ok now_ms limit keys processed removed b :
  backend_ok (K := K) (NS := NS) b → (∀ ek, ek ∈ keys → ∃ e sk, encode_expiry_key e sk = Ok ek) →
  backend_ok (K := K) (NS := NS) (cleanup_loop now_ms limit keys processed removed b).2.
Proof.
  revert processed removed b; induction keys as [|ek keys IH]; intros processed removed b Hok Hin; [done|].
  cbn [cleanup_loop]. destruct (Hin ek) as (e & sk & Hek); [by left|].
  rewrite (decode_encode_expiry_key _ _ _ Hek). case_match; [done|].
  rewrite entry_matches_spec.
  - fold (sweep_entry b sk e). apply IH; [by apply backend_ok_sweep|]. intros; apply Hin; by right.
  - intros sk' v Hv. destruct (bo_state b Hok _ _ Hv) as (_ & ? & ? & Hd & _). by rewrite Hd.
Qed.

Lemma backend_step_ok b b' :
  backend_ok (K := K) (NS := NS) b → backend_step b b' → backend_ok (K := K) (NS := NS) b'.
Proof.
  intros Hok Hst. destruct Hst.
  - by destruct Hok.
  - destruct (state_key descriptor namespace b) as [sk|err] eqn:Hsk.
    + destruct (backend_put_ok descriptor value namespace clock b sk) as (? & ? & -> & _ & _ & _ & _ & ?); done.
    + unfold backend_put. by rewrite Hsk.
  - destruct (state_key descriptor namespace b) as [sk|err] eqn:Hsk.
    + pose proof (backend_get_ok descriptor namespace clock clock' b sk) as Hg.
      destruct (backend_get descriptor namespace clock clock' b). by apply Hg.
    + unfold backend_get. by rewrite Hsk.
  - destruct (state_key descriptor namespace b) as [sk|err] eqn:Hsk.
    + destruct (backend_delete_ok descriptor namespace b sk) as (? & -> & _ & _ & _ & ?); done.
    + unfold backend_delete. by rewrite Hsk.
  - eapply backend_register_timer_ok; [done|apply surjective_pairing].
  - eapply backend_delete_timer_ok; [done|apply surjective_pairing].
  - eapply backend_pop_ok; [done|apply surjective_pairing].
  - apply cleanup_loop_ok; [done|]. intros ek [v Hv]%elem_of_sorted_keys.
    destruct (bo_expiry b Hok _ _ Hv) as (e & sk & He & _). eauto.
Qed.

Lemma backend_reachable_ok b : backend_reachable b → backend_ok (K := K) (NS := NS) b.
Proof.
  apply (rtc_invariant (backend_ok (K := K) (NS := NS))); [apply backend_init_ok|].
  intros b1 b2. apply backend_step_ok.
Qed.
End histories.

(** ** Properties *)

(** C6. Whatever sequence of calls is made on a fresh backend, raising or not, with
    the clock in the range of the formats: every stored value has a well-formed key
    and decodes, every value that expires has its entry in the expiry index, every
    index entry and every timer decodes. *)
Theorem reachable_backend_wellformed {K NS V : Type} `{EqDecision K, EqDecision NS}
    `{KeyCodec K, KeyCodec NS, KeyCodec (K * NS), Serializer (K * NS), Sha256} (b : backend K) :
  backend_reachable (NS := NS) (V := V) b → backend_ok (NS := NS) b.
Proof. apply backend_reachable_ok. Qed.

Section properties.
Context {K NS V : Type} `{EqDecision K, EqDecision NS}
  `{KeyCodec K, KeyCodec NS, KeyCodec (K * NS), Serializer (K * NS), Sha256}.
Implicit Types (b : backend K) (descriptor : StateDescriptor V) (namespace : NS).

(** When a value written at [t0] is hidden from a read at [t]. *)
Definition hidden_at descriptor (t0 t : Z) : bool := hides_expired descriptor (expiry_for descriptor t0) t.

Lemma decode_put_value descriptor (value : V) t0 encoded :
  clock_in_range descriptor t0 →
  encode_state_value (@ser_dumps _ (sd_serializer descriptor) value) (expiry_for descriptor t0) = Ok encoded →
  decode_state_value encoded = Ok (expiry_for descriptor t0, @ser_dumps _ (sd_serializer descriptor) value).
Proof.
  intros Hr He. apply (decode_encode_state_value _ _ _ He). unfold clock_in_range in Hr.
  intros E. rewrite E in Hr. unfold NO_EXPIRY in Hr. lia.
Qed.

(** A read of a value that a [put] at [t0] has stored. *)
Lemma get_after_put descriptor namespace (value : V) t0 t t' b sk encoded :
  backend_ok (NS := NS) b → clock_in_range descriptor t0 → clock_in_range descriptor t' →
  state_key descriptor namespace b = Ok sk →
  encode_state_value (@ser_dumps _ (sd_serializer descriptor) value) (expiry_for descriptor t0) = Ok encoded →
  b_state b !! sk = Some encoded →
  (backend_get descriptor namespace t t' b).1 = Ok (if hidden_at descriptor t0 t then None else Some value).
Proof.
  intros Hok Ht0 Ht' Hsk He Hl. pose proof (backend_get_ok descriptor namespace t t' b sk Hok Ht' Hsk) as Hg.
  destruct (backend_get descriptor namespace t t' b) as [r b2]. destruct Hg as (_ & _ & _ & _ & Hg).
  rewrite Hl in Hg. destruct Hg as (e & payload & Hd & Hr).
  rewrite (decode_put_value _ _ _ _ Ht0 He) in Hd. injection Hd as <- <-.
  cbn. rewrite Hr. unfold hidden_at. case_match; [done|]. by rewrite ser_loads_dumps.
Qed.
End properties.

(** [put] then [get]: on a well-formed backend a [put] whose key encodes
    succeeds, a later [get] returns the value unless its time to live has run out
    and the descriptor hides expired values, and every other address of the state
    (another name, key or namespace) is untouched. *)
Theorem put_then_get {K NS V : Type}
    `{KeyCodec K, KeyCodec NS, KeyCodec (K * NS), Serializer (K * NS), Sha256}
    (descriptor : StateDescriptor V) (namespace : NS) (value : V) t0 t t' (b : backend K) sk :
  backend_ok (NS := NS) b → state_key descriptor namespace b = Ok sk →
  clock_in_range descriptor t0 → clock_in_range descriptor t' →
  ∃ b', backend_put descriptor value namespace t0 b = (Ok (), b') ∧ backend_ok (NS := NS) b' ∧
    (backend_get descriptor namespace t t' b').1 = Ok (if hidden_at descriptor t0 t then None else Some value) ∧
    b_key b' = b_key b ∧ b_timers b' = b_timers b ∧
    (∀ sk', sk' ≠ sk → b_state b' !! sk' = b_state b !! sk').
Proof.
  intros Hok Hsk Ht0 Ht'.
  destruct (backend_put_ok descriptor value namespace t0 b sk Hok Ht0 Hsk)
    as (b' & encoded & Hput & Henc & Hk & Htm & Hst & Hok').
  exists b'. split_and!; try done.
  - eapply get_after_put; try done; [by rewrite (state_key_same descriptor namespace b b')|].
    by rewrite Hst, lookup_insert_eq.
  - intros sk' Hne. by rewrite Hst, lookup_insert_ne.
Qed.

(** The state descriptor and the backend the examples use. *)
Section samples.
Import Samples.

Definition sample_descriptor (update : StateTTLUpdateType) (visibility : StateVisibility) : StateDescriptor Z :=
  mkStateDescriptor ["s"%byte] z_serializer (Some (mkStateTTLConfig 10 update visibility)).

Definition sample_backend : backend Z := set_current_key 5 MemoryStateBackend_init.

Lemma sample_backend_ok : backend_ok (K := Z) (NS := Z) sample_backend.
Proof. split; cbn; [done|done|apply map_Forall_empty]. Qed.

Definition sample_key : bytes :=
  match state_key (NS := Z) (sample_descriptor ON_CREATE_AND_WRITE NEVER_RETURN_EXPIRED) 1 sample_backend with
  | Ok sk => sk | Err _ => [] end.

Definition sample_backend_1 : backend Z :=
  (backend_put (sample_descriptor ON_READ_AND_WRITE NEVER_RETURN_EXPIRED) 42 1 100 sample_backend).2.

Lemma reachable_backend_wellformed_witness :
  backend_reachable (K := Z) (NS := Z) (V := Z) sample_backend ∧ backend_ok (K := Z) (NS := Z) sample_backend.
Proof.
  assert (Hr : backend_reachable (K := Z) (NS := Z) (V := Z) sample_backend).
  { eapply rtc_once. apply step_set_key. }
  split; [exact Hr|]. exact (reachable_backend_wellformed (V := Z) _ Hr).
Defined.

Lemma put_then_get_witness :
  ∃ b', backend_put (sample_descriptor ON_CREATE_AND_WRITE NEVER_RETURN_EXPIRED) 42 1 100 sample_backend = (Ok (), b') ∧
    (backend_get (sample_descriptor ON_CREATE_AND_WRITE NEVER_RETURN_EXPIRED) 1 109 109 b').1 = Ok (Some 42).
Proof.
  destruct (put_then_get (sample_descriptor ON_CREATE_AND_WRITE NEVER_RETURN_EXPIRED) 1 42 100 109 109
    sample_backend sample_key) as (b' & Hput & _ & Hget & _);
    [apply sample_backend_ok|vm_compute; reflexivity|cbn; lia|cbn; lia|].
  exists b'. split; [exact Hput|exact Hget].
Defined.
End samples.

(** What a read does to the time to live.  A visible read under
    [ON_READ_AND_WRITE] writes the value back, so that the next read at [t2] is
    judged from the read's own clock; under [ON_CREATE_AND_WRITE] it changes
    nothing; a read that hides the value removes it. *)
Theorem get_refreshes_ttl {K NS V : Type}
    `{KeyCodec K, KeyCodec NS, KeyCodec (K * NS), Serializer (K * NS), Sha256}
    (descriptor : StateDescriptor V) (namespace : NS) (value : V) ttl t0 t1 t1' t2 t2' (b0 b : backend K) sk :
  backend_ok (NS := NS) b0 → state_key descriptor namespace b0 = Ok sk → sd_ttl_config descriptor = Some ttl →
  clock_in_range descriptor t0 → clock_in_range descriptor t1' → clock_in_range descriptor t2' →
  backend_put descriptor value namespace t0 b0 = (Ok (), b) →
  let '(r1, b1) := backend_get descriptor namespace t1 t1' b in
  if hidden_at descriptor t0 t1 then
    r1 = Ok None ∧ b_state b1 = delete sk (b_state b)
  else r1 = Ok (Some value) ∧
    match ttl_update_type ttl with
    | ON_CREATE_AND_WRITE => b1 = b
    | ON_READ_AND_WRITE => (backend_get descriptor namespace t2 t2' b1).1 =
        Ok (if hidden_at descriptor t1' t2 then None else Some value)
    end.
Proof.
  intros Hok0 Hsk0 Httl Hr0 Hr1 Hr2 Hput0.
  destruct (backend_put_ok descriptor value namespace t0 b0 sk Hok0 Hr0 Hsk0)
    as (b' & encoded & Hput & Henc & Hk & _ & Hst & Hok).
  rewrite Hput0 in Hput. injection Hput as <-.
  assert (Hsk : state_key descriptor namespace b = Ok sk) by (by rewrite (state_key_same _ _ b0 b)).
  assert (Hl : b_state b !! sk = Some encoded) by (by rewrite Hst, lookup_insert_eq).
  unfold backend_get at 1. rewrite Hsk, Hl, (decode_put_value _ _ _ _ Hr0 Henc).
  fold (hidden_at descriptor t0 t1). destruct (hidden_at descriptor t0 t1); [done|].
  rewrite ser_loads_dumps, Httl. destruct (ttl_update_type ttl) eqn:Hu; [by rewrite decide_False by done|].
  rewrite decide_True by done.
  destruct (backend_put_ok descriptor value namespace t1' b sk Hok Hr1 Hsk)
    as (b1 & encoded1 & -> & Henc1 & Hk1 & _ & Hst1 & Hok1).
  split; [done|]. eapply get_after_put; try done; [by rewrite (state_key_same _ _ b b1)|].
  by rewrite Hst1, lookup_insert_eq.
Qed.

Section samples_2.
Import Samples.
Lemma get_refreshes_ttl_witness :
  let '(r1, b1) := backend_get (sample_descriptor ON_READ_AND_WRITE NEVER_RETURN_EXPIRED) 1 105 105 sample_backend_1 in
  r1 = Ok (Some 42) ∧
  (backend_get (sample_descriptor ON_READ_AND_WRITE NEVER_RETURN_EXPIRED) 1 112 112 b1).1 = Ok (Some 42).
Proof.
  exact (get_refreshes_ttl (sample_descriptor ON_READ_AND_WRITE NEVER_RETURN_EXPIRED) 1 42
    (mkStateTTLConfig 10 ON_READ_AND_WRITE NEVER_RETURN_EXPIRED) 100 105 105 112 112 sample_backend sample_backend_1
    sample_key sample_backend_ok ltac:(vm_compute; reflexivity) eq_refl ltac:(cbn; lia) ltac:(cbn; lia)
    ltac:(cbn; lia) ltac:(vm_compute; reflexivity)).
Defined.
End samples_2.

Lemma backend_namespaces_ok {K NS V : Type}
    `{KeyCodec K, KeyCodec NS, KeyCodec (K * NS), Serializer (K * NS), Sha256}
    (descriptor : StateDescriptor V) (b : backend K) key prefix :
  backend_ok (NS := NS) b → b_key b = Some key → state_key_prefix (sd_name descriptor) key = Ok prefix →
  ∃ namespaces : list NS, backend_namespaces descriptor b = Ok namespaces ∧ NoDup namespaces ∧
    ∀ namespace, namespace ∈ namespaces ↔
      ∃ sk, encode_state_key (sd_name descriptor) key namespace = Ok sk ∧ is_Some (b_state b !! sk).
Proof.
  intros Hok Hkey Hpre. unfold backend_namespaces, current_key. rewrite Hkey, bind_Ok, Hpre, bind_Ok.
  set (sks := filter (λ sk, startswith sk prefix = true) (sorted_keys (b_state b))).
  assert (Hsk : ∀ sk, sk ∈ sks ↔
    is_Some (b_state b !! sk) ∧ ∃ namespace : NS, encode_state_key (sd_name descriptor) key namespace = Ok sk).
  { intros sk. unfold sks. rewrite list_elem_of_filter, elem_of_sorted_keys. split.
    - intros [Hp [v Hv]]. split; [by eauto|].
      destruct (bo_state b Hok _ _ Hv) as ((name & key' & namespace & Henc) & _).
      apply (startswith_state_key_prefix _ _ _ _ _ _ _ Henc Hpre) in Hp as [<- <-]. eauto.
    - intros [Hv [namespace Henc]]. split; [|done].
      by apply (startswith_state_key_prefix _ _ _ _ _ _ _ Henc Hpre). }
  assert (Hdec : ∀ sk, sk ∈ sks → ∃ namespace : NS, decode_state_namespace sk = Ok namespace ∧
    encode_state_key (sd_name descriptor) key namespace = Ok sk).
  { intros sk [_ [namespace Henc]]%Hsk. exists namespace. split; [|done].
    exact (proj2 (decode_encode_state_key _ _ _ _ Henc)). }
  assert (Hnd : NoDup sks) by (apply NoDup_filter, NoDup_sorted_keys).
  assert (∃ nss, Forall2 (λ sk (n : NS), decode_state_namespace sk = Ok n ∧
    encode_state_key (sd_name descriptor) key n = Ok sk) sks nss) as [nss Hf].
  { clear Hsk Hnd. induction sks as [|sk sks IH]; [by exists []|].
    destruct (Hdec sk) as [n Hn]; [by left|]. destruct IH as [nss Hnss]; [intros; apply Hdec; by right|].
    exists (n :: nss). by constructor. }
  exists nss. split_and!.
  - apply mapM_outcome_Ok. eapply Forall2_impl; [exact Hf|]. by intros sk n [? _].
  - clear Hsk Hdec. induction Hf as [|sk n sks nss [Hd He] Hf IH]; [constructor|].
    apply NoDup_cons in Hnd as [Hni Hnd]. constructor; [|auto]. intros Hin. apply Hni.
    destruct (Forall2_elem_of_r _ _ _ _ Hf Hin) as (sk' & Hin' & _ & He').
    rewrite He in He'. injection He' as ->. exact Hin'.
  - intros n. split.
    + intros Hin. destruct (Forall2_elem_of_r _ _ _ _ Hf Hin) as (sk & Hin' & _ & He).
      exists sk. split; [done|]. by apply Hsk.
    + intros (sk & He & Hv). assert (Hin : sk ∈ sks) by (apply Hsk; eauto).
      destruct (Forall2_elem_of_l _ _ _ _ Hf Hin) as (n' & Hin' & _ & He').
      destruct (encode_state_key_inj _ _ _ _ _ _ _ He He') as (_ & _ & ->). done.
Qed.

(** [namespaces] lists exactly the namespaces stored under the current key
    and the descriptor's name, each once. *)
Theorem namespaces_exact {K NS V : Type}
    `{KeyCodec K, KeyCodec NS, KeyCodec (K * NS), Serializer (K * NS), Sha256}
    (descriptor : StateDescriptor V) (b : backend K) key prefix :
  backend_ok (NS := NS) b → b_key b = Some key → state_key_prefix (sd_name descriptor) key = Ok prefix →
  ∃ namespaces : list NS, backend_namespaces descriptor b = Ok namespaces ∧ NoDup namespaces ∧
    ∀ namespace, namespace ∈ namespaces ↔
      ∃ sk, encode_state_key (sd_name descriptor) key namespace = Ok sk ∧ is_Some (b_state b !! sk).
Proof. apply backend_namespaces_ok. Qed.

(** [pop_due_timers] returns the due timers of the domain in physical key
    order, at most [max 1 limit] of them, and afterwards exactly those are gone from
    the timer queue; the events returned are ordered by timestamp. *)
Theorem pop_due_timers_exact {K NS : Type} `{EqDecision K, EqDecision NS}
    `{KeyCodec K, KeyCodec NS, KeyCodec (K * NS), Serializer (K * NS), Sha256}
    timestamp domain limit (b : backend K) :
  backend_ok (NS := NS) b →
  ∃ due b', backend_pop_due_timers (NS := NS) timestamp domain limit b = (Ok due, b') ∧
    due = take_limit limit 0 (filter (is_due timestamp domain) (pending_timers b)) ∧
    pending_timers b' = filter (λ e, e ∉ due) (pending_timers b) ∧
    StronglySorted (λ e e', te_timestamp e <= te_timestamp e') due ∧
    b_state b' = b_state b ∧ b_expiry b' = b_expiry b ∧ backend_ok (NS := NS) b'.
Proof.
  intros Hok. pose proof (bo_timers b Hok) as Ht.
  destruct (pop_due_timers_spec b timestamp domain limit Ht) as (timers' & Hrun & Ht' & Hpend).
  eexists _, _. split_and!; [exact Hrun|done|exact Hpend| |done|done|].
  - apply (StronglySorted_sublist _ _ (filter (λ e, te_domain e = domain) (pending_timers b)));
      [by apply pending_timers_sorted|].
    trans (filter (is_due timestamp domain) (pending_timers b)).
    + destruct limit; cbn; [apply sublist_take|done].
    + clear. induction (pending_timers b) as [|e l IH]; [done|]. rewrite !filter_cons.
      destruct (decide (te_domain e = domain)) as [Hd|Hd], (decide (is_due timestamp domain e)) as [Hi|Hi];
        try (by constructor); [|done]. by destruct Hi.
  - by eapply backend_pop_ok.
Qed.

(** C11. An unlimited [cleanup_expired] removes exactly the values whose expiry has
    passed, returns how many they were, and drops exactly the index entries that
    are due; what is left is well formed. *)
Theorem cleanup_expired_exact {K NS : Type}
    `{KeyCodec K, KeyCodec NS, KeyCodec (K * NS), Serializer (K * NS), Sha256} now_ms (b : backend K) :
  backend_ok (NS := NS) b →
  ∃ b', backend_cleanup_expired now_ms None b =
      (Ok (Z.of_nat (size (b_state b)) - Z.of_nat (size (b_state b'))), b') ∧
    b_state b' = filter (λ kv, ¬ expired now_ms kv.2) (b_state b) ∧
    (∀ ek v, b_expiry b' !! ek = Some v ↔
       b_expiry b !! ek = Some v ∧ ∀ e sk, encode_expiry_key e sk = Ok ek → now_ms < e) ∧
    b_timers b' = b_timers b ∧ backend_ok (NS := NS) b'.
Proof.
  intros Hok. destruct (backend_cleanup_ok now_ms b Hok) as (b' & Hrun & _ & Ht & Hs & He & Hok').
  exists b'. done.
Qed.

Section samples_3.
Import Samples.

Lemma namespaces_exact_witness :
  ∃ namespaces : list Z,
    backend_namespaces (sample_descriptor ON_READ_AND_WRITE NEVER_RETURN_EXPIRED) sample_backend_1 = Ok namespaces ∧
    NoDup namespaces.
Proof.
  assert (Hok : backend_ok (K := Z) (NS := Z) sample_backend_1).
  { destruct (backend_put_ok (NS := Z) (sample_descriptor ON_READ_AND_WRITE NEVER_RETURN_EXPIRED) 42 1 100
      sample_backend sample_key sample_backend_ok ltac:(cbn; lia) ltac:(vm_compute; reflexivity))
      as (b' & ? & Hput & _ & _ & _ & _ & Hok). unfold sample_backend_1. rewrite Hput. exact Hok. }
  destruct (namespaces_exact (NS := Z) (sample_descriptor ON_READ_AND_WRITE NEVER_RETURN_EXPIRED) sample_backend_1 5
    (match state_key_prefix ["s"%byte] 5 with Ok p => p | Err _ => [] end) Hok) as (nss & Hn & Hnd & _);
    [reflexivity|vm_compute; reflexivity|].
  exists nss. split; [exact Hn|exact Hnd].
Defined.

Lemma pop_due_timers_exact_witness :
  ∃ due b', backend_pop_due_timers (NS := Z) 10 EVENT_TIME (Some 1)
      (backend_register_timer (NS := Z) 3 0 EVENT_TIME sample_backend).2 = (Ok due, b') ∧
    due = take_limit (Some 1) 0 (filter (is_due 10 EVENT_TIME)
            (pending_timers (backend_register_timer (NS := Z) 3 0 EVENT_TIME sample_backend).2)).
Proof.
  destruct (pop_due_timers_exact (NS := Z) 10 EVENT_TIME (Some 1)
    (backend_register_timer (NS := Z) 3 0 EVENT_TIME sample_backend).2) as (due & b' & Hr & Hd & _).
  { eapply backend_register_timer_ok; [apply sample_backend_ok|apply surjective_pairing]. }
  exists due, b'. split; [exact Hr|exact Hd].
Defined.

Lemma cleanup_expired_exact_witness :
  ∃ b', backend_cleanup_expired 50 None sample_backend =
      (Ok (Z.of_nat (size (b_state sample_backend)) - Z.of_nat (size (b_state b'))), b') ∧
    b_state b' = filter (λ kv, ¬ expired 50 kv.2) (b_state sample_backend).
Proof.
  destruct (cleanup_expired_exact (NS := Z) 50 sample_backend sample_backend_ok) as (b' & Hr & Hs & _).
  exists b'. split; [exact Hr|exact Hs].
Defined.
End samples_3.
