(* ===== verification/BackendContract.v ===== *)
(** * The contract of a managed state backend

    Models [src/ray/klein/state/managed_state_backend.py]: the storage contract keyed
    operators are written against, as a class of operations ([ManagedStateBackend]),
    an abstract specification of it (a finite map of values by state name, key and
    namespace, and a finite set of timers) and the refinement laws an implementation
    owes ([BackendRefines]).  The in-memory backend of [StateBackend] is an instance.

    The laws are for descriptors without a time to live, over a universe of keys and
    namespaces whose encodings fit the length fields and whose timer digests do not
    collide.  Operators' theorems are proved from the laws alone. *)
From S2P Require Import Prelude Concrete KeyGroups StateCodec StateBackend.
Open Scope Z_scope.

(** ** Operations *)

Class ManagedStateBackend (B K NS V : Type) := {
  mb_current_key : B → outcome K;
  mb_set_key : K → B → B;
  mb_get : StateDescriptor V → NS → Z → Z → B → outcome (option V) * B;
  mb_put : StateDescriptor V → V → NS → Z → B → outcome unit * B;
  mb_delete : StateDescriptor V → NS → B → outcome unit * B;
  mb_namespaces : StateDescriptor V → B → outcome (list NS);
  mb_register_timer : Z → NS → TimerDomain → B → outcome unit * B;
  mb_delete_timer : Z → NS → TimerDomain → B → outcome unit * B;
  mb_pop_due_timers : Z → TimerDomain → option Z → B → outcome (list (TimerEvent K NS)) * B;
  mb_cleanup_expired : Z → option Z → B → outcome Z * B
}.

(** ** The abstract backend *)

#[export] Instance TimerDomain_countable : Countable TimerDomain :=
  inj_countable' (λ d, bool_decide (d = EVENT_TIME)) (λ b : bool, if b then EVENT_TIME else PROCESSING_TIME)
    ltac:(by intros []).

#[export] Instance TimerEvent_countable `{Countable K, Countable NS} : Countable (TimerEvent K NS) :=
  inj_countable' (A := Z * K * NS * TimerDomain) (λ e, (te_timestamp e, te_key e, te_namespace e, te_domain e))
    (λ '(t, k, n, d), mkTimerEvent t k n d) ltac:(by intros []).

Record keyed_model (K NS V : Type) `{Countable K, Countable NS} := mkModel {
  km_key : option K;
  km_values : gmap (bytes * K * NS) V;
  km_timers : gset (TimerEvent K NS)
}.
Arguments mkModel {K NS V _ _ _ _}.
Arguments km_key {K NS V _ _ _ _}.
Arguments km_values {K NS V _ _ _ _}.
Arguments km_timers {K NS V _ _ _ _}.

Section model.
Context {K NS V : Type} `{Countable K, Countable NS}.
Implicit Types (m : keyed_model K NS V).

Definition m_set_key (k : K) m : keyed_model K NS V := mkModel (Some k) (km_values m) (km_timers m).
Definition m_update (f : gmap (bytes * K * NS) V → gmap (bytes * K * NS) V) m : keyed_model K NS V :=
  mkModel (km_key m) (f (km_values m)) (km_timers m).
Definition m_retime (f : gset (TimerEvent K NS) → gset (TimerEvent K NS)) m : keyed_model K NS V :=
  mkModel (km_key m) (km_values m) (f (km_timers m)).
End model.

(** ** The laws *)

Class BackendRefines (B K NS V : Type) `{Countable K, Countable NS} `{ManagedStateBackend B K NS V}
    (descriptors : StateDescriptor V → Prop) (universe : K → NS → Prop)
    (repr : B → keyed_model K NS V → Prop) : Prop := {
  law_current_key b m : repr b m → mb_current_key b = of_option RuntimeError (km_key m);
  law_set_key b m k : repr b m → repr (mb_set_key k b) (m_set_key k m);
  law_get b m d k ns t t' : repr b m → descriptors d → km_key m = Some k → universe k ns →
    ∃ b', mb_get d ns t t' b = (Ok (km_values m !! (sd_name d, k, ns)), b') ∧ repr b' m;
  law_put b m d k ns v t : repr b m → descriptors d → km_key m = Some k → universe k ns →
    ∃ b', mb_put d v ns t b = (Ok (), b') ∧ repr b' (m_update (insert (sd_name d, k, ns) v) m);
  law_delete b m d k ns : repr b m → descriptors d → km_key m = Some k → universe k ns →
    ∃ b', mb_delete d ns b = (Ok (), b') ∧ repr b' (m_update (delete (sd_name d, k, ns)) m);
  law_namespaces b m d k ns0 : repr b m → descriptors d → km_key m = Some k → universe k ns0 →
    ∃ l, mb_namespaces d b = Ok l ∧ NoDup l ∧ ∀ ns, ns ∈ l ↔ is_Some (km_values m !! (sd_name d, k, ns));
  law_register b m k ns ts dom : repr b m → km_key m = Some k → universe k ns → 0 <= ts < 2 ^ 64 →
    ∃ b', mb_register_timer ts ns dom b = (Ok (), b') ∧
      repr b' (m_retime (union {[mkTimerEvent ts k ns dom]}) m);
  law_delete_timer b m k ns ts dom : repr b m → km_key m = Some k → universe k ns → 0 <= ts < 2 ^ 64 →
    ∃ b', mb_delete_timer ts ns dom b = (Ok (), b') ∧
      repr b' (m_retime (λ ts0, ts0 ∖ {[mkTimerEvent ts k ns dom]}) m);
  law_pop b m ts dom : repr b m →
    ∃ due b', mb_pop_due_timers ts dom None b = (Ok due, b') ∧ NoDup due ∧
      (∀ e, e ∈ due ↔ e ∈ km_timers m ∧ is_due ts dom e) ∧
      StronglySorted (λ e e', te_timestamp e <= te_timestamp e') due ∧
      repr b' (m_retime (λ ts0, ts0 ∖ list_to_set due) m);
  law_cleanup b m now limit : repr b m → ∃ b', mb_cleanup_expired now limit b = (Ok 0, b') ∧ repr b' m;
  law_universe_timers b m e : repr b m → e ∈ km_timers m → universe (te_key e) (te_namespace e);
  law_universe_values b m name k ns v : repr b m → km_values m !! (name, k, ns) = Some v → universe k ns
}.

(** ** The in-memory backend implements it *)

#[export] Instance memory_backend {K NS V} `{KeyCodec K, KeyCodec NS, KeyCodec (K * NS), Serializer (K * NS), Sha256} :
  ManagedStateBackend (backend K) K NS V := {
  mb_current_key := current_key;
  mb_set_key := set_current_key;
  mb_get := backend_get;
  mb_put := backend_put;
  mb_delete := backend_delete;
  mb_namespaces := backend_namespaces;
  mb_register_timer := backend_register_timer;
  mb_delete_timer := backend_delete_timer;
  mb_pop_due_timers := backend_pop_due_timers;
  mb_cleanup_expired := backend_cleanup_expired
}.

Section memory.
Context {K NS V : Type} `{Countable K, Countable NS}
  `{KeyCodec K, KeyCodec NS, KeyCodec (K * NS), Serializer (K * NS), Sha256}.
Context (descriptors : StateDescriptor V → Prop) (universe : K → NS → Prop).
Implicit Types (b : backend K) (m : keyed_model K NS V) (e : TimerEvent K NS) (k : K) (ns : NS) (d : StateDescriptor V).

(** What the contract assumes of the descriptors, keys and namespaces in use. *)
Record contract_domain : Prop := {
  cd_ttl d : descriptors d → sd_ttl_config d = None;
  cd_name d d' : descriptors d → descriptors d' → sd_name d = sd_name d' → d = d';
  cd_encodes d k ns : descriptors d → universe k ns → ∃ sk, encode_state_key (sd_name d) k ns = Ok sk;
  cd_digests k ns k' ns' : universe k ns → universe k' ns' →
    sha256 (encode_key (k, ns)) = sha256 (encode_key (k', ns')) → (k, ns) = (k', ns')
}.

(** An in-memory backend that stands for an abstract one. *)
Record memory_repr b m : Prop := {
  mr_ok : backend_ok (NS := NS) b;
  mr_key : b_key b = km_key m;
  mr_expiry : b_expiry b = ∅;
  mr_state d k ns sk : descriptors d → universe k ns → encode_state_key (sd_name d) k ns = Ok sk →
    b_state b !! sk = (λ v, be_bytes 8 (NO_EXPIRY mod 2 ^ 64) ++ @ser_dumps _ (sd_serializer d) v) <$>
      (km_values m !! (sd_name d, k, ns) : option V);
  mr_state_domain name k ns sk : encode_state_key name k ns = Ok sk → is_Some (b_state b !! sk) →
    is_Some (km_values m !! (name, k, ns));
  mr_domain name k ns v : km_values m !! (name, k, ns) = Some v →
    universe k ns ∧ ∃ d, descriptors d ∧ sd_name d = name;
  mr_timers e : e ∈ pending_timers b ↔ e ∈ km_timers m;
  mr_timer_domain e : e ∈ km_timers m → universe (te_key e) (te_namespace e)
}.

Lemma encode_no_expiry payload : encode_state_value payload None = Ok (be_bytes 8 (NO_EXPIRY mod 2 ^ 64) ++ payload).
Proof. unfold encode_state_value. cbn [default]. by rewrite pack_i64_Ok. Qed.

Lemma decode_no_expiry payload :
  decode_state_value (be_bytes 8 (NO_EXPIRY mod 2 ^ 64) ++ payload) = Ok (None, payload).
Proof. apply (decode_encode_state_value _ None); [apply encode_no_expiry|done]. Qed.

Hypothesis (Hdom : contract_domain).

Lemma memory_state_key b m d k ns :
  memory_repr b m → descriptors d → km_key m = Some k → universe k ns →
  ∃ sk, state_key d ns b = Ok sk ∧ encode_state_key (sd_name d) k ns = Ok sk.
Proof.
  intros Hr Hd Hk Hu. destruct (cd_encodes Hdom d k ns Hd Hu) as [sk Hsk]. exists sk. split; [|done].
  unfold state_key, current_key. by rewrite (mr_key _ _ Hr), Hk, bind_Ok.
Qed.

Lemma memory_get b m d k ns t t' :
  memory_repr b m → descriptors d → km_key m = Some k → universe k ns →
  backend_get d ns t t' b = (Ok (km_values m !! (sd_name d, k, ns)), b).
Proof.
  intros Hr Hd Hk Hu. destruct (memory_state_key b m d k ns Hr Hd Hk Hu) as (sk & Hsk & He).
  unfold backend_get. rewrite Hsk, (mr_state _ _ Hr d k ns sk Hd Hu He).
  destruct (km_values m !! (sd_name d, k, ns)) as [v|]; cbn [fmap option_fmap option_map]; [|done].
  rewrite decode_no_expiry. cbn [hides_expired]. by rewrite ser_loads_dumps, (cd_ttl Hdom d Hd).
Qed.

(** Two addresses of the domain with the same encoding are the same. *)
Lemma address_inj d k ns d' k' ns' sk :
  descriptors d → descriptors d' → encode_state_key (sd_name d) k ns = Ok sk →
  encode_state_key (sd_name d') k' ns' = Ok sk → d = d' ∧ k = k' ∧ ns = ns'.
Proof.
  intros Hd Hd' He He'. destruct (encode_state_key_inj _ _ _ _ _ _ _ He He') as (Hn & -> & ->).
  split_and!; [|done..]. by apply (cd_name Hdom).
Qed.

(** A change of the state at one address. *)
Lemma memory_repr_state b m b' d k ns sk (o : option V) :
  memory_repr b m → descriptors d → universe k ns → encode_state_key (sd_name d) k ns = Ok sk →
  backend_ok (NS := NS) b' → b_key b' = b_key b → b_expiry b' = ∅ → b_timers b' = b_timers b →
  b_state b' = partial_alter (λ _, (λ v, be_bytes 8 (NO_EXPIRY mod 2 ^ 64) ++ @ser_dumps _ (sd_serializer d) v) <$> o) sk (b_state b) →
  memory_repr b' (m_update (partial_alter (λ _, o) (sd_name d, k, ns)) m).
Proof.
  intros Hr Hd Hu He Hok Hk Hx Ht Hs. split; cbn; try done.
  - by rewrite Hk, (mr_key _ _ Hr).
  - intros d' k' ns' sk' Hd' Hu' He'. rewrite Hs. destruct (decide ((sd_name d, k, ns) = (sd_name d', k', ns'))) as [E|Hne].
    + injection E as E -> ->. rewrite (cd_name Hdom d d' Hd Hd' E) in *. rewrite He in He'. injection He' as ->.
      by rewrite !lookup_partial_alter_eq.
    + rewrite (lookup_partial_alter_ne _ (km_values m)) by done. rewrite lookup_partial_alter_ne; [by apply (mr_state _ _ Hr)|].
      intros ->. apply Hne. by destruct (address_inj d k ns d' k' ns' sk' Hd Hd' He He') as (-> & -> & ->).
  - intros name k' ns' sk' He'. rewrite Hs. intros Hsome.
    destruct (decide ((sd_name d, k, ns) = (name, k', ns'))) as [E|Hne].
    + injection E as <- <- <-. rewrite He in He'. injection He' as <-. rewrite lookup_partial_alter_eq in Hsome. rewrite lookup_partial_alter_eq.
      by apply fmap_is_Some in Hsome.
    + rewrite lookup_partial_alter_ne by done. apply (mr_state_domain _ _ Hr name k' ns' sk' He').
      rewrite lookup_partial_alter_ne in Hsome; [done|]. intros ->. apply Hne.
      by destruct (encode_state_key_inj _ _ _ _ _ _ _ He He') as (-> & -> & ->).
  - intros name k' ns' v Hv. destruct (decide ((sd_name d, k, ns) = (name, k', ns'))) as [E|Hne].
    + injection E as <- <- <-. eauto.
    + rewrite lookup_partial_alter_ne in Hv by done. by apply (mr_domain _ _ Hr name k' ns' v).
  - intros e. rewrite <-(mr_timers _ _ Hr). unfold pending_timers. by rewrite Ht.
  - apply (mr_timer_domain _ _ Hr).
Qed.

Lemma memory_put b m d k ns v t :
  memory_repr b m → descriptors d → km_key m = Some k → universe k ns →
  ∃ b', backend_put d v ns t b = (Ok (), b') ∧ memory_repr b' (m_update (insert (sd_name d, k, ns) v) m).
Proof.
  intros Hr Hd Hk Hu. destruct (memory_state_key b m d k ns Hr Hd Hk Hu) as (sk & Hsk & He).
  assert (expiry_for d t = None) as Hx by (unfold expiry_for; by rewrite (cd_ttl Hdom d Hd)).
  destruct (backend_put_ok d v ns t b sk) as (b' & enc & Hput & Henc & Hk' & Ht & Hs & Hok);
    [apply (mr_ok _ _ Hr)|unfold clock_in_range; by rewrite Hx|done|].
  rewrite Hx, encode_no_expiry in Henc. injection Henc as <-. exists b'. split; [done|].
  apply (memory_repr_state b m b' d k ns sk (Some v)); try done.
  revert Hput. unfold backend_put. rewrite Hsk, Hx, encode_no_expiry.
  rewrite (mr_state _ _ Hr d k ns sk Hd Hu He). destruct (km_values m !! _) as [v0|]; cbn [fmap option_fmap option_map].
  - unfold drop_expiry_of. rewrite decode_no_expiry. intros [= <-]. apply (mr_expiry _ _ Hr).
  - intros [= <-]. apply (mr_expiry _ _ Hr).
Qed.

Lemma memory_delete b m d k ns :
  memory_repr b m → descriptors d → km_key m = Some k → universe k ns →
  ∃ b', backend_delete d ns b = (Ok (), b') ∧ memory_repr b' (m_update (delete (sd_name d, k, ns)) m).
Proof.
  intros Hr Hd Hk Hu. destruct (memory_state_key b m d k ns Hr Hd Hk Hu) as (sk & Hsk & He).
  destruct (backend_delete_ok d ns b sk) as (b' & Hdel & Hk' & Ht & Hs & Hok); [apply (mr_ok _ _ Hr)|done|].
  exists b'. split; [done|]. apply (memory_repr_state b m b' d k ns sk None); try done.
  revert Hdel. unfold backend_delete. rewrite Hsk.
  rewrite (mr_state _ _ Hr d k ns sk Hd Hu He). destruct (km_values m !! _) as [v0|]; cbn [fmap option_fmap option_map].
  - unfold drop_expiry_of. rewrite decode_no_expiry. intros [= <-]. apply (mr_expiry _ _ Hr).
  - intros [= <-]. apply (mr_expiry _ _ Hr).
Qed.

(** *** Timers *)

Lemma pending_timers_iff b e :
  timers_ok (K := K) (NS := NS) (b_timers b) →
  e ∈ pending_timers b ↔ ∃ tk, encode_timer_key (te_timestamp e) (te_key e) (te_namespace e) (te_domain e) = Ok tk ∧
    b_timers b !! tk = Some (encode_timer_value (te_key e) (te_namespace e)).
Proof.
  intros Hok. split.
  - intros He. destruct (elem_of_pending b e Hok He) as [Htk Hev]. exists (event_key e). split; [done|].
    unfold timer_event in Hev. destruct (b_timers b !! event_key e) as [v|] eqn:Hv; [|done].
    destruct (timer_event_ok _ _ _ Hok Hv) as (e' & He' & _ & ->). unfold timer_event in He'. rewrite Hv in He'.
    rewrite Hev in He'. by injection He' as ->.
  - intros (tk & Htk & Hv). apply list_elem_of_omap. exists tk. split; [apply elem_of_sorted_keys; eauto|].
    destruct (timer_event_ok _ _ _ Hok Hv) as (e' & He' & Htk' & Hval). rewrite He'. f_equal.
    unfold timer_event in He'. rewrite Hv, (decode_encode_timer _ _ _ _ _ Htk) in He'. injection He' as <-. destruct e as [ts k ns dom]. cbn in *.
    f_equal. destruct (startswith tk (timer_prefix EVENT_TIME)) eqn:E.
    + symmetry. by apply (startswith_timer_prefix _ _ _ _ _ _ Htk) in E.
    + destruct dom; [|done]. by rewrite (proj2 (startswith_timer_prefix _ _ _ _ _ _ Htk)) in E.
Qed.

Lemma NoDup_pending_timers b : timers_ok (K := K) (NS := NS) (b_timers b) → NoDup (pending_timers (NS := NS) b).
Proof.
  intros Hok. unfold pending_timers. pose proof (NoDup_sorted_keys (b_timers b)) as Hnd.
  induction Hnd as [|tk l Hn Hnd IH]; [constructor|]. cbn [omap list_omap].
  destruct (timer_event (b_timers b) tk) as [e|] eqn:He; [|done]. constructor; [|done].
  intros (tk' & Hin & He')%list_elem_of_omap. apply Hn.
  assert (∀ t, timer_event (b_timers b) t = Some e → event_key e = t) as Hkey; [|by rewrite <-(Hkey tk He), (Hkey tk' He')].
  intros t Ht. unfold timer_event in Ht. destruct (b_timers b !! t) as [v|] eqn:Hv; [|done].
  destruct (timer_event_ok _ _ _ Hok Hv) as (e' & He2 & Htk & _). unfold timer_event in He2. rewrite Hv, Ht in He2.
  injection He2 as <-. unfold event_key. by rewrite Htk.
Qed.

Lemma encode_timer_key_Ok ts k ns dom :
  0 <= ts < 2 ^ 64 → encode_timer_key ts k ns dom =
    Ok ((if decide (dom = EVENT_TIME) then ["e"%byte] else ["p"%byte]) ++ be_bytes 8 ts ++ sha256 (encode_key (k, ns))).
Proof. intros Hts. unfold encode_timer_key. by rewrite pack_u64_Ok. Qed.

(** Two timers of the domain with the same physical key are the same event. *)
Lemma timer_key_inj e e' tk :
  universe (te_key e) (te_namespace e) → universe (te_key e') (te_namespace e') →
  encode_timer_key (te_timestamp e) (te_key e) (te_namespace e) (te_domain e) = Ok tk →
  encode_timer_key (te_timestamp e') (te_key e') (te_namespace e') (te_domain e') = Ok tk → e = e'.
Proof.
  intros Hu Hu' He1 He2. destruct (encode_timer_key_inv _ _ _ _ _ He1) as [Hr ->], (encode_timer_key_inv _ _ _ _ _ He2) as [Hr' E].
  apply app_inj_1 in E as [Ed E]; [|by rewrite !timer_prefix_length].
  apply app_inj_1 in E as [Et E]; [|by rewrite !length_be_bytes]. apply be_bytes_inj in Et; [|done..].
  pose proof (cd_digests Hdom _ _ _ _ Hu Hu' E) as Ekn. injection Ekn as Ek En.
  destruct e as [t k n [|]], e' as [t' k' n' [|]]; cbn in *; subst; done.
Qed.

Lemma memory_register b m k ns ts dom :
  memory_repr b m → km_key m = Some k → universe k ns → 0 <= ts < 2 ^ 64 →
  ∃ b', backend_register_timer ts ns dom b = (Ok (), b') ∧
    memory_repr b' (m_retime (union {[mkTimerEvent ts k ns dom]}) m).
Proof.
  intros Hr Hk Hu Hts. unfold backend_register_timer, current_key. rewrite (proj2 (Z.ltb_ge ts 0)) by lia.
  rewrite (mr_key _ _ Hr), Hk. destruct (encode_timer_key ts k ns dom) as [tk|] eqn:Htk;
    [|by rewrite encode_timer_key_Ok in Htk].
  set (b' := with_timers _ b). exists b'. split; [done|].
  assert (backend_ok (NS := NS) b') as Hok.
  { apply (backend_register_timer_ok ts ns dom b (Ok ()) b' (mr_ok _ _ Hr)). unfold backend_register_timer, current_key.
    rewrite (proj2 (Z.ltb_ge ts 0)), (mr_key _ _ Hr), Hk, Htk by lia. done. }
  destruct Hr as [Hok0 Hkey Hx Hs Hsd Hd Ht Htd]. split; cbn; try done.
  - intros e. rewrite pending_timers_iff by apply Hok. cbn [b' with_timers b_timers].
    rewrite elem_of_union, elem_of_singleton. split.
    + intros (tk' & Htk' & [[<- Hv]|[Hne Hv]]%lookup_insert_Some).
      * left. apply (f_equal ser_loads) in Hv. unfold encode_timer_value in Hv. rewrite !ser_loads_dumps in Hv.
        injection Hv as Ek En. rewrite <-Ek, <-En in Htk'.
        destruct (encode_timer_key_inv _ _ _ _ _ Htk) as [_ E], (encode_timer_key_inv _ _ _ _ _ Htk') as [Hr' E'].
        rewrite E in E'. apply app_inj_1 in E' as [Ed E']; [|by rewrite !timer_prefix_length].
        apply app_inj_1 in E' as [Et _]; [|by rewrite !length_be_bytes]. apply be_bytes_inj in Et; [|done..].
        destruct e as [t k0 n0 [|]], dom; cbn in *; subst; done.
      * right. apply Ht, pending_timers_iff; [apply Hok0|]. eauto.
    + intros [->|He]; cbn; [exists tk; rewrite lookup_insert_eq; done|].
      pose proof (proj2 (Ht e) He) as Hp. apply pending_timers_iff in Hp as (tk' & Htk' & Hv); [|apply Hok0].
      exists tk'. split; [done|]. destruct (decide (tk = tk')) as [->|Hne]; [|by rewrite lookup_insert_ne].
      rewrite <-(timer_key_inj (mkTimerEvent ts k ns dom) e tk' Hu (Htd e He) Htk Htk'). by rewrite lookup_insert_eq.
  - intros e [->%elem_of_singleton|He]%elem_of_union; [done|by apply Htd].
Qed.

Lemma memory_delete_timer b m k ns ts dom :
  memory_repr b m → km_key m = Some k → universe k ns → 0 <= ts < 2 ^ 64 →
  ∃ b', backend_delete_timer ts ns dom b = (Ok (), b') ∧
    memory_repr b' (m_retime (λ ts0, ts0 ∖ {[mkTimerEvent ts k ns dom]}) m).
Proof.
  intros Hr Hk Hu Hts. unfold backend_delete_timer, current_key.
  rewrite (mr_key _ _ Hr), Hk. destruct (encode_timer_key ts k ns dom) as [tk|] eqn:Htk;
    [|by rewrite encode_timer_key_Ok in Htk].
  set (b' := with_timers _ b). exists b'. split; [done|].
  assert (backend_ok (NS := NS) b') as Hok.
  { apply (backend_delete_timer_ok ts ns dom b (Ok ()) b' (mr_ok _ _ Hr)). unfold backend_delete_timer, current_key.
    by rewrite (mr_key _ _ Hr), Hk, Htk. }
  destruct Hr as [Hok0 Hkey Hx Hs Hsd Hd Ht Htd]. split; cbn; try done.
  - intros e. rewrite pending_timers_iff by apply Hok. cbn [b' with_timers b_timers].
    rewrite elem_of_difference, elem_of_singleton, <-Ht, pending_timers_iff by apply Hok0. split.
    + intros (tk' & Htk' & [Hne Hv]%lookup_delete_Some). split; [eauto|]. intros ->. cbn in Htk'. congruence.
    + intros [(tk' & Htk' & Hv) Hne]. exists tk'. split; [done|]. apply lookup_delete_Some. split; [|done].
      intros ->. apply Hne. symmetry. apply (timer_key_inj (mkTimerEvent ts k ns dom) e tk' Hu); [|done..].
      apply Htd, Ht, pending_timers_iff; [apply Hok0|]. eauto.
  - intros e [He _]%elem_of_difference. by apply Htd.
Qed.

Lemma memory_pop b m ts dom :
  memory_repr b m →
  ∃ due b', backend_pop_due_timers ts dom None b = (Ok due, b') ∧ NoDup due ∧
    (∀ e, e ∈ due ↔ e ∈ km_timers m ∧ is_due ts dom e) ∧
    StronglySorted (λ e e', te_timestamp e <= te_timestamp e') due ∧
    memory_repr b' (m_retime (λ ts0, ts0 ∖ list_to_set due) m).
Proof.
  intros Hr. destruct (pop_due_timers_spec (NS := NS) b ts dom None) as (timers' & Hrun & Hok' & Hp); [apply (mr_ok _ _ Hr)|].
  cbn [take_limit] in Hrun, Hp. set (due := filter (is_due ts dom) (pending_timers b)) in *.
  assert (∀ e, e ∈ due ↔ e ∈ km_timers m ∧ is_due ts dom e) as Hdue.
  { intros e. unfold due. rewrite list_elem_of_filter, (mr_timers _ _ Hr). tauto. }
  exists due, (with_timers timers' b). split; [done|]. split; [apply NoDup_filter, NoDup_pending_timers, (mr_ok _ _ Hr)|].
  split; [done|]. split.
  - apply (StronglySorted_sublist _ _ (filter (λ e, te_domain e = dom) (pending_timers b)));
      [apply pending_timers_sorted, (mr_ok _ _ Hr)|]. unfold due. clear. induction (pending_timers b) as [|e l IH]; [done|].
    rewrite !filter_cons. destruct (decide (te_domain e = dom)), (decide (is_due ts dom e)) as [[]|]; try done; by constructor.
  - destruct Hr as [[Hbs Hbe Hbt] Hkey Hx Hs Hsd Hd Ht Htd]. split; cbn; try done.
    + intros e. rewrite Hp, list_elem_of_filter, elem_of_difference, elem_of_list_to_set, Ht. tauto.
    + intros e [He _]%elem_of_difference. by apply Htd.
Qed.

(** *** The instance *)

Lemma state_key_prefix_Ok name k ns sk : encode_state_key name k ns = Ok sk → ∃ prefix, state_key_prefix name k = Ok prefix.
Proof.
  intros (n & kc & nsc & Hn & Hk & _ & _)%encode_state_key_inv. exists (n ++ kc). unfold state_key_prefix. by rewrite Hn, bind_Ok, Hk.
Qed.

Lemma memory_namespaces b m d k ns0 :
  memory_repr b m → descriptors d → km_key m = Some k → universe k ns0 →
  ∃ l, backend_namespaces d b = Ok l ∧ NoDup l ∧ ∀ ns, ns ∈ l ↔ is_Some (km_values m !! (sd_name d, k, ns)).
Proof.
  intros Hr Hd Hk Hu. destruct (cd_encodes Hdom d k ns0 Hd Hu) as [sk0 Hsk0].
  destruct (state_key_prefix_Ok _ _ _ _ Hsk0) as [prefix Hpre].
  destruct (backend_namespaces_ok (NS := NS) d b k prefix) as (l & Hl & Hnd & Hin);
    [apply (mr_ok _ _ Hr)|by rewrite (mr_key _ _ Hr)|done|].
  exists l. split_and!; [done..|]. intros ns. rewrite Hin. split.
  - intros (sk & Hsk & Hv). by apply (mr_state_domain _ _ Hr _ _ _ sk).
  - intros [v Hv]. destruct (mr_domain _ _ Hr _ _ _ _ Hv) as [Hu' _].
    destruct (cd_encodes Hdom d k ns Hd Hu') as [sk Hsk]. exists sk. split; [done|].
    rewrite (mr_state _ _ Hr d k ns sk Hd Hu' Hsk), Hv. by eexists.
Qed.

Lemma memory_refines :
  BackendRefines (backend K) K NS V descriptors universe memory_repr.
Proof using Hdom.
  split; cbn [mb_current_key mb_set_key mb_get mb_put mb_delete mb_namespaces mb_register_timer mb_delete_timer
    mb_pop_due_timers mb_cleanup_expired memory_backend].
  - intros b m Hr. unfold current_key. rewrite (mr_key _ _ Hr). by destruct (km_key m).
  - intros b m k [[Hbs Hbe Hbt] ???????]. split; cbn; try done.
  - intros. exists b. split; [by apply memory_get|done].
  - intros. by apply memory_put.
  - intros. by apply memory_delete.
  - intros. by eapply memory_namespaces.
  - intros. by apply memory_register.
  - intros. by apply memory_delete_timer.
  - intros. by apply memory_pop.
  - intros b m now limit Hr. exists b. split; [|done]. unfold backend_cleanup_expired, sorted_keys.
    by rewrite (mr_expiry _ _ Hr), map_to_list_empty.
  - intros b m e Hr He. by apply (mr_timer_domain _ _ Hr).
  - intros b m name k ns v Hr Hv. by apply (mr_domain _ _ Hr name k ns v).
Qed.

(** A fresh backend stands for the empty one. *)
Lemma memory_repr_init : memory_repr MemoryStateBackend_init (mkModel None ∅ ∅).
Proof.
  split; cbn; try done; try set_solver.
  intros name k ns sk _ [v Hv]. by rewrite lookup_empty in Hv.
Qed.
End memory.

(** C26. The in-memory backend keeps the storage contract: over any set of keys and
    namespaces that encode and whose timer digests do not collide, and descriptors
    without a time to live, every operation returns what the abstract backend (a map
    of values and a set of timers) says and leaves a backend that stands for the
    abstract result; a fresh backend stands for the empty one. *)
Theorem memory_backend_refines {K NS V : Type} `{Countable K, Countable NS}
    `{KeyCodec K, KeyCodec NS, KeyCodec (K * NS), Serializer (K * NS), Sha256}
    (descriptors : StateDescriptor V → Prop) (universe : K → NS → Prop) :
  contract_domain descriptors universe →
  BackendRefines (backend K) K NS V descriptors universe (memory_repr descriptors universe) ∧
  memory_repr descriptors universe MemoryStateBackend_init (mkModel None ∅ ∅).
Proof. intros Hdom. split; [by apply memory_refines|by apply memory_repr_init]. Qed.

(** Two keys with a namespace each. *)
Section samples.
Import Samples.

Definition sample_universe (k ns : Z) : Prop := (k, ns) ∈ [(1, 10); (2, 20)].
Definition sample_descriptors (d : StateDescriptor Z) : Prop := d = mkStateDescriptor [x01] z_serializer None.

Lemma sample_domain : contract_domain sample_descriptors sample_universe.
Proof.
  split.
  - by intros d ->.
  - by intros d d' -> -> _.
  - intros d k ns -> [[= -> ->]|[[= -> ->]|[]%not_elem_of_nil]%elem_of_cons]%elem_of_cons; eexists; vm_compute; reflexivity.
  - intros k ns k' ns' [[= -> ->]|[[= -> ->]|[]%not_elem_of_nil]%elem_of_cons]%elem_of_cons
      [[= -> ->]|[[= -> ->]|[]%not_elem_of_nil]%elem_of_cons]%elem_of_cons E; try done; vm_compute in E; done.
Defined.

Lemma memory_backend_refines_witness :
  contract_domain sample_descriptors sample_universe ∧
  BackendRefines (backend Z) Z Z Z sample_descriptors sample_universe (memory_repr sample_descriptors sample_universe).
Proof.
  split; [exact sample_domain|].
  exact (proj1 (memory_backend_refines sample_descriptors sample_universe sample_domain)).
Defined.
End samples.
