(* ===== verification/ManagedState.v ===== *)
(** * Operators over managed keyed state

    Models [src/ray/klein/runtime/operator/managed_state_operator.py] (but for
    snapshots, in [ManagedSnapshot]), [src/ray/klein/state/timer_service.py],
    [keyed_state_context.py], [value_state.py] and [list_state.py].

    An operator runs in a monad [op]: its state is the task-local backend (behind the
    contract of [BackendContract]), the timer service's watermark, the timestamp bound
    to the context, the records collected so far and the metric counters; a step may
    raise and leaves the state it had reached.  The wall clock is an arbitrary
    sequence of readings.

    [triple a m Q] says that from any state standing for the abstract one [a] the
    program [m] does not raise and reaches a state standing for some [a'] with
    [Q v a']: operators are verified against the abstract backend with it. *)
From S2P Require Import Prelude Concrete KeyGroups StateCodec StateBackend BackendContract.
Open Scope Z_scope.

(** ** The monad *)

Record op_state (B R : Type) := mkOp {
  os_backend : B;
  os_watermark : Z;
  os_timestamp : option Z;
  os_ticks : nat;
  os_out : list R;
  os_timers_fired : nat;
  os_late_records : nat;
  os_ttl_cleaned : Z
}.
Arguments mkOp {B R}.
Arguments os_backend {B R}.
Arguments os_watermark {B R}.
Arguments os_timestamp {B R}.
Arguments os_ticks {B R}.
Arguments os_out {B R}.
Arguments os_timers_fired {B R}.
Arguments os_late_records {B R}.
Arguments os_ttl_cleaned {B R}.

Definition op (B R A : Type) : Type := op_state B R → outcome A * op_state B R.

#[export] Instance op_ret {B R} : MRet (op B R) := λ A a s, (Ok a, s).
#[export] Instance op_bind {B R} : MBind (op B R) := λ A A' f m s,
  match m s with (Ok a, s) => f a s | (Err e, s) => (Err e, s) end.

Section monad.
Context {B R : Type}.
Implicit Types (s : op_state B R).

Definition raise {A} (e : exn) : op B R A := λ s, (Err e, s).
Definition lift {A} (o : outcome A) : op B R A := λ s, (o, s).

Definition on_backend {A} (f : B → outcome A * B) : op B R A := λ s,
  let '(r, b) := f (os_backend s) in
  (r, mkOp b (os_watermark s) (os_timestamp s) (os_ticks s) (os_out s) (os_timers_fired s) (os_late_records s) (os_ttl_cleaned s)).
Definition get_watermark : op B R Z := λ s, (Ok (os_watermark s), s).
Definition set_watermark (w : Z) : op B R unit := λ s,
  (Ok (), mkOp (os_backend s) w (os_timestamp s) (os_ticks s) (os_out s) (os_timers_fired s) (os_late_records s) (os_ttl_cleaned s)).
Definition get_timestamp : op B R (option Z) := λ s, (Ok (os_timestamp s), s).
Definition set_timestamp (t : option Z) : op B R unit := λ s,
  (Ok (), mkOp (os_backend s) (os_watermark s) t (os_ticks s) (os_out s) (os_timers_fired s) (os_late_records s) (os_ttl_cleaned s)).
(** [self.collect(record)]. *)
Definition collect (r : R) : op B R unit := λ s,
  (Ok (), mkOp (os_backend s) (os_watermark s) (os_timestamp s) (os_ticks s) (os_out s ++ [r]) (os_timers_fired s) (os_late_records s) (os_ttl_cleaned s)).
Definition count_fired : op B R unit := λ s,
  (Ok (), mkOp (os_backend s) (os_watermark s) (os_timestamp s) (os_ticks s) (os_out s) (S (os_timers_fired s)) (os_late_records s) (os_ttl_cleaned s)).
(** [_record_late_drop]. *)
Definition record_late_drop : op B R unit := λ s,
  (Ok (), mkOp (os_backend s) (os_watermark s) (os_timestamp s) (os_ticks s) (os_out s) (os_timers_fired s) (S (os_late_records s)) (os_ttl_cleaned s)).
Definition count_cleaned (n : Z) : op B R unit := λ s,
  (Ok (), mkOp (os_backend s) (os_watermark s) (os_timestamp s) (os_ticks s) (os_out s) (os_timers_fired s) (os_late_records s) (os_ttl_cleaned s + n)).

(** A [for] loop for its effects. *)
Fixpoint for_each {A} (f : A → op B R unit) (l : list A) : op B R unit :=
  match l with
  | [] => mret ()
  | a :: l => _ ← f a; for_each f l
  end.

Fixpoint fold_op {A C} (f : C → A → op B R C) (c : C) (l : list A) : op B R C :=
  match l with
  | [] => mret c
  | a :: l => c ← f c a; fold_op f c l
  end.

(** One reading of the wall clock, in milliseconds. *)
Definition tick (clock : nat → Z) : op B R Z := λ s,
  (Ok (clock (os_ticks s)),
   mkOp (os_backend s) (os_watermark s) (os_timestamp s) (S (os_ticks s)) (os_out s) (os_timers_fired s) (os_late_records s) (os_ttl_cleaned s)).
End monad.

(** ** State handles, timers and the context *)

Section context.
Context {B K NS V R : Type} `{ManagedStateBackend B K NS V} (clock : nat → Z).
Implicit Types (d : StateDescriptor V) (ns : NS).

(** [ValueState]: [value], its setter, [clear]. *)
Definition value_state_get d ns : op B R (option V) :=
  t ← tick clock; t' ← tick clock; on_backend (mb_get d ns t t').

Definition value_state_set d ns (value : V) : op B R unit :=
  t ← tick clock; on_backend (mb_put d value ns t).

Definition state_clear d ns : op B R unit := on_backend (mb_delete d ns).

(** [self._backend.namespaces(descriptor)]. *)
Definition state_namespaces d : op B R (list NS) := on_backend (λ b, (mb_namespaces d b, b)).

(** [TimerService]. *)
Definition register_event_time_timer (timestamp : Z) ns : op B R unit :=
  on_backend (mb_register_timer timestamp ns EVENT_TIME).
Definition delete_event_time_timer (timestamp : Z) ns : op B R unit :=
  on_backend (mb_delete_timer timestamp ns EVENT_TIME).
Definition register_processing_time_timer (timestamp : Z) ns : op B R unit :=
  on_backend (mb_register_timer timestamp ns PROCESSING_TIME).
Definition delete_processing_time_timer (timestamp : Z) ns : op B R unit :=
  on_backend (mb_delete_timer timestamp ns PROCESSING_TIME).

Definition advance_watermark (timestamp : Z) : op B R (list (TimerEvent K NS)) :=
  w ← get_watermark;
  if timestamp <=? w then mret []
  else _ ← set_watermark timestamp; on_backend (mb_pop_due_timers timestamp EVENT_TIME None).

Definition restore_watermark (timestamp : Z) : op B R unit :=
  if timestamp <? -1 then raise ValueError else set_watermark timestamp.

Definition pop_due_processing_time_timers (timestamp : option Z) : op B R (list (TimerEvent K NS)) :=
  timestamp ← match timestamp with None => tick clock | Some t => mret t end;
  on_backend (mb_pop_due_timers timestamp PROCESSING_TIME None).

(** [KeyedStateContext.bind] and [current_key]. *)
Definition bind_key (key : K) (timestamp : option Z) : op B R unit :=
  _ ← on_backend (λ b, (Ok (), mb_set_key key b)); set_timestamp timestamp.

Definition context_current_key : op B R K := on_backend (λ b, (mb_current_key b, b)).
End context.

(** [ListState]: a list under one state address.  Iterating it asks for one item
    after the other until [IndexError]; [fuel] bounds that loop. *)
Section list_state.
Context {B K NS A R : Type} `{ManagedStateBackend B K NS (list A)} (clock : nat → Z).
Implicit Types (d : StateDescriptor (list A)) (ns : NS).

Definition list_values d ns : op B R (list A) :=
  o ← value_state_get clock d ns; mret (default [] o).

Definition list_getitem d ns (index : nat) : op B R (option A) :=
  l ← list_values d ns; mret (l !! index).

Fixpoint list_iter (fuel : nat) d ns (index : nat) (f : nat → A → op B R unit) : op B R unit :=
  match fuel with
  | O => raise RuntimeError
  | S fuel =>
      item ← list_getitem d ns index;
      match item with
      | None => mret ()
      | Some a => _ ← f index a; list_iter fuel d ns (S index) f
      end
  end.

(** A bound for the loop: the length of the list as it is. *)
Definition list_fuel d ns (s : op_state B R) : nat :=
  match (list_values d ns s).1 with Ok l => S (length l) | Err _ => 1 end.

Definition list_for d ns (f : nat → A → op B R unit) : op B R unit :=
  λ s, list_iter (list_fuel d ns s) d ns 0 f s.

Definition list_insert d ns (index : nat) (value : A) : op B R unit :=
  l ← list_values d ns;
  value_state_set clock d ns (take index l ++ value :: drop index l).

(** [MutableSequence.append]: [self.insert(len(self), value)]. *)
Definition list_append d ns (value : A) : op B R unit :=
  l ← list_values d ns; list_insert d ns (length l) value.

Definition list_extend d ns (values : list A) : op B R unit :=
  l ← list_values d ns; value_state_set clock d ns (l ++ values).

Definition list_setitem d ns (index : nat) (value : A) : op B R unit :=
  l ← list_values d ns;
  if (index <? length l)%nat then value_state_set clock d ns (<[index := value]> l) else raise IndexError.

Definition list_delitem d ns (index : nat) : op B R unit :=
  l ← list_values d ns;
  if (index <? length l)%nat then
    let l := delete index l in
    if bool_decide (l = []) then state_clear d ns else value_state_set clock d ns l
  else raise IndexError.

Definition list_len d ns : op B R nat := l ← list_values d ns; mret (length l).
End list_state.

(** ** The operator *)

(** What a Python value looks like to [emit_result]. *)
Inductive pyresult (D R : Type) :=
  | PyNone
  | PyRecord (r : R)
  | PyMapping (d : D)
  | PyIter (l : list (pyresult D R))
  | PyOther.
Arguments PyNone {D R}.
Arguments PyRecord {D R}.
Arguments PyMapping {D R}.
Arguments PyIter {D R}.
Arguments PyOther {D R}.

Section emit.
Context {B D R : Type} (record_of : D → R).

Fixpoint emit_result (value : pyresult D R) : op B R unit :=
  match value with
  | PyNone => mret ()
  | PyRecord r => collect r
  | PyMapping d => collect (record_of d)
  | PyIter l => (fix emit_all l := match l with [] => mret () | v :: l => _ ← emit_result v; emit_all l end) l
  | PyOther => raise TypeError
  end.

(** The records it collects, when it does not raise. *)
Fixpoint emitted (value : pyresult D R) : option (list R) :=
  match value with
  | PyNone => Some []
  | PyRecord r => Some [r]
  | PyMapping d => Some [record_of d]
  | PyIter l =>
      (fix all l := match l with [] => Some [] | v :: l =>
         match emitted v, all l with Some a, Some b => Some (a ++ b) | _, _ => None end end) l
  | PyOther => None
  end.
End emit.

(** The attributes set by [open]. *)
Record operator_config := mkConfig {
  oc_max_parallelism : Z;
  oc_key_group_range : KeyGroupRange;
  oc_ttl_cleanup_batch_size : Z
}.

Definition operator_open (cleanup_batch_size : Z) (max_parallelism parallelism task_index : pyarg) : outcome operator_config :=
  if cleanup_batch_size <? 1 then Err ValueError
  else
    range ← assign_key_group_range max_parallelism parallelism task_index;
    match arg_int max_parallelism with
    | Some mp => Ok (mkConfig mp range cleanup_batch_size)
    | None => Err TypeError
    end.

Section operator.
Context {B K NS V In R : Type} `{ManagedStateBackend B K NS V, KeyCodec K, Blake2b} (clock : nat → Z).

(** What a concrete operator overrides. *)
Record operator_hooks := mkHooks {
  process_managed_element : In → op B R unit;
  on_timer : TimerEvent K NS → op B R unit;
  after_time_advanced : op B R unit;
  key_and_timestamp : In → outcome (K * option pyarg)
}.

Context (cfg : operator_config) (h : operator_hooks).

Definition check_timestamp (timestamp : option pyarg) : outcome (option Z) :=
  match timestamp with
  | None => Ok None
  | Some a => match arg_int a with
              | None => Err ValueError
              | Some t => if t <? 0 then Err ValueError else Ok (Some t)
              end
  end.

(** [_fire_timer]. *)
Definition fire_timer (event : TimerEvent K NS) : op B R unit :=
  _ ← count_fired; _ ← bind_key (V := V) (te_key event) (Some (te_timestamp event)); on_timer h event.

(** [_cleanup_expired]. *)
Definition cleanup_expired : op B R unit :=
  now ← tick clock;
  cleaned ← on_backend (mb_cleanup_expired (V := V) (NS := NS) (K := K) now (Some (oc_ttl_cleanup_batch_size cfg)));
  count_cleaned cleaned.

Definition process_element (r : In) : op B R unit :=
  kt ← lift (key_and_timestamp h r);
  timestamp ← lift (check_timestamp kt.2);
  key_group ← lift (key_group_for_key kt.1 (AInt (oc_max_parallelism cfg)));
  if negb (KeyGroupRange_contains (oc_key_group_range cfg) key_group) then raise RuntimeError
  else
    _ ← bind_key (V := V) kt.1 timestamp;
    _ ← process_managed_element h r;
    events ← pop_due_processing_time_timers (V := V) clock None;
    _ ← for_each fire_timer events;
    _ ← after_time_advanced h;
    cleanup_expired.

Definition on_event_time_watermark (timestamp : Z) : op B R unit :=
  events ← advance_watermark (V := V) timestamp;
  _ ← for_each fire_timer events;
  _ ← after_time_advanced h;
  cleanup_expired.

Definition on_idle : op B R unit :=
  events ← pop_due_processing_time_timers (V := V) clock None;
  _ ← for_each fire_timer events;
  cleanup_expired.
End operator.

(** [ManagedStateOperator._key_and_timestamp]. *)
Definition default_key_and_timestamp {In Blk K} (block_of : In → Blk) (record_timestamp : In → option pyarg)
    (key_selector : Blk → outcome K) (timestamp_selector : option (Blk → outcome (option pyarg))) (r : In)
    : outcome (K * option pyarg) :=
  key ← key_selector (block_of r);
  timestamp ← match timestamp_selector with Some f => f (block_of r) | None => Ok (record_timestamp r) end;
  Ok (key, timestamp).

(** ** Reasoning with the contract *)

(** The state of an operator over the abstract backend. *)
Record op_model (K NS V R : Type) `{Countable K, Countable NS} := mkOpModel {
  am_backend : keyed_model K NS V;
  am_watermark : Z;
  am_timestamp : option Z;
  am_out : list R;
  am_late : nat
}.
Arguments mkOpModel {K NS V R _ _ _ _}.
Arguments am_backend {K NS V R _ _ _ _}.
Arguments am_watermark {K NS V R _ _ _ _}.
Arguments am_timestamp {K NS V R _ _ _ _}.
Arguments am_out {K NS V R _ _ _ _}.
Arguments am_late {K NS V R _ _ _ _}.

Section triples.
Context {B K NS V R : Type} `{Countable K, Countable NS, !ManagedStateBackend B K NS V}
  (descriptors : StateDescriptor V → Prop) (universe : K → NS → Prop) (repr : B → keyed_model K NS V → Prop)
  `{!BackendRefines B K NS V descriptors universe repr} (clock : nat → Z).

Implicit Types (a : op_model K NS V R) (s : op_state B R) (k : K) (ns : NS) (d : StateDescriptor V).

Record op_repr s a : Prop := {
  or_backend : repr (os_backend s) (am_backend a);
  or_watermark : os_watermark s = am_watermark a;
  or_timestamp : os_timestamp s = am_timestamp a;
  or_out : os_out s = am_out a;
  or_late : os_late_records s = am_late a
}.

Definition a_with_backend (f : keyed_model K NS V → keyed_model K NS V) a : op_model K NS V R :=
  mkOpModel (f (am_backend a)) (am_watermark a) (am_timestamp a) (am_out a) (am_late a).
Definition a_with_watermark (w : Z) a : op_model K NS V R :=
  mkOpModel (am_backend a) w (am_timestamp a) (am_out a) (am_late a).
Definition a_bind k (t : option Z) a : op_model K NS V R :=
  mkOpModel (m_set_key k (am_backend a)) (am_watermark a) t (am_out a) (am_late a).
Definition a_collect (rs : list R) a : op_model K NS V R :=
  mkOpModel (am_backend a) (am_watermark a) (am_timestamp a) (am_out a ++ rs) (am_late a).
Definition a_drop a : op_model K NS V R :=
  mkOpModel (am_backend a) (am_watermark a) (am_timestamp a) (am_out a) (S (am_late a)).

Definition triple {A} a (m : op B R A) (Q : A → op_model K NS V R → Prop) : Prop :=
  ∀ s, op_repr s a → ∃ v s' a', m s = (Ok v, s') ∧ op_repr s' a' ∧ Q v a'.

Lemma triple_ret {A} a (v : A) (Q : A → op_model K NS V R → Prop) : Q v a → triple a (mret v) Q.
Proof. intros HQ s Hs. by exists v, s, a. Qed.

Lemma triple_bind {A C} a (m : op B R A) (f : A → op B R C) Q Q' :
  triple a m Q → (∀ v a', Q v a' → triple a' (f v) Q') → triple a (m ≫= f) Q'.
Proof.
  intros Hm Hf s Hs. destruct (Hm s Hs) as (v & s1 & a1 & E1 & Hs1 & HQ).
  destruct (Hf v a1 HQ s1 Hs1) as (w & s2 & a2 & E2 & Hs2 & HQ'). exists w, s2, a2.
  split; [|done]. unfold mbind, op_bind. by rewrite E1.
Qed.

Lemma triple_mono {A} a (m : op B R A) (Q Q' : A → op_model K NS V R → Prop) :
  triple a m Q → (∀ v a', Q v a' → Q' v a') → triple a m Q'.
Proof. intros Hm HQ s Hs. destruct (Hm s Hs) as (v & s' & a' & ? & ? & ?). eauto 10. Qed.

(** A program whose result and abstract state are determined. *)
Definition runs {A} a (m : op B R A) (v : A) a' : Prop := triple a m (λ v' a'', v' = v ∧ a'' = a').

Lemma triple_runs {A C} a (m : op B R A) v a' (f : A → op B R C) Q :
  runs a m v a' → triple a' (f v) Q → triple a (m ≫= f) Q.
Proof. intros Hm Hf. eapply triple_bind; [exact Hm|]. by intros ? ? [-> ->]. Qed.

Lemma runs_lift {A} a (v : A) : runs a (lift (Ok v)) v a.
Proof. intros s Hs. by exists v, s, a. Qed.

Lemma runs_ret {A} a (v : A) : runs a (mret v) v a.
Proof. by apply triple_ret. Qed.

Lemma runs_tick a : triple a (tick clock) (λ _ a', a' = a).
Proof. intros s [????]. eexists _, _, a. split; [done|]. split; [by split|done]. Qed.

Lemma runs_get_watermark a : runs a get_watermark (am_watermark a) a.
Proof. intros s Hs. exists (os_watermark s), s, a. split; [done|]. split; [done|]. by rewrite (or_watermark _ _ Hs). Qed.

Lemma runs_get_timestamp a : runs a get_timestamp (am_timestamp a) a.
Proof. intros s Hs. exists (os_timestamp s), s, a. split; [done|]. split; [done|]. by rewrite (or_timestamp _ _ Hs). Qed.

Lemma runs_set_watermark a w : runs a (set_watermark w) () (a_with_watermark w a).
Proof. intros s [????]. eexists _, _, _. split; [done|]. split; [|done]. by split. Qed.

Lemma runs_collect a r : runs a (collect r) () (a_collect [r] a).
Proof. intros s [??? Ho ?]. eexists _, _, _. split; [done|]. split; [|done]. split; try done. cbn. by rewrite Ho. Qed.

Lemma runs_drop a : runs a record_late_drop () (a_drop a).
Proof. intros s [???? Hl]. eexists _, _, _. split; [done|]. split; [|done]. split; try done. cbn. by rewrite Hl. Qed.

Lemma runs_count_fired a : runs a count_fired () a.
Proof. intros s [????]. eexists _, _, _. split; [done|]. split; [|done]. by split. Qed.

Lemma runs_count_cleaned a n : runs a (count_cleaned n) () a.
Proof. intros s [????]. eexists _, _, _. split; [done|]. split; [|done]. by split. Qed.

Lemma triple_on_backend {A} a (f : B → outcome A * B) (Q : A → op_model K NS V R → Prop) :
  (∀ b, repr b (am_backend a) → ∃ v b' m', f b = (Ok v, b') ∧ repr b' m' ∧ Q v (a_with_backend (λ _, m') a)) →
  triple a (on_backend f) Q.
Proof.
  intros Hf s [Hb Hw Ht Ho Hl]. destruct (Hf _ Hb) as (v & b' & m' & E & Hb' & HQ).
  eexists v, _, (a_with_backend (λ _, m') a). unfold on_backend. rewrite E. split; [done|]. split; [by split|done].
Qed.

Lemma a_with_backend_id a : a_with_backend (λ _, am_backend a) a = a.
Proof. by destruct a. Qed.

(** The operations on state and timers. *)
Lemma runs_value_get a d k ns :
  descriptors d → km_key (am_backend a) = Some k → universe k ns →
  runs a (value_state_get clock d ns) (km_values (am_backend a) !! (sd_name d, k, ns)) a.
Proof.
  intros Hd Hk Hu. unfold value_state_get. eapply triple_bind; [apply runs_tick|intros t ? ->].
  eapply triple_bind; [apply runs_tick|intros t' ? ->]. apply triple_on_backend. intros b Hb.
  destruct (law_get b _ d k ns t t' Hb Hd Hk Hu) as (b' & E & Hb'). eexists _, _, _. split_and!; try done.
  by rewrite a_with_backend_id.
Qed.

Lemma runs_value_set a d k ns v :
  descriptors d → km_key (am_backend a) = Some k → universe k ns →
  runs a (value_state_set clock d ns v) () (a_with_backend (m_update (insert (sd_name d, k, ns) v)) a).
Proof.
  intros Hd Hk Hu. unfold value_state_set. eapply triple_bind; [apply runs_tick|intros t ? ->].
  apply triple_on_backend. intros b Hb. destruct (law_put b _ d k ns v t Hb Hd Hk Hu) as (b' & E & Hb'). by eexists _, _, _.
Qed.

Lemma runs_clear a d k ns :
  descriptors d → km_key (am_backend a) = Some k → universe k ns →
  runs a (state_clear d ns) () (a_with_backend (m_update (delete (sd_name d, k, ns))) a).
Proof.
  intros Hd Hk Hu. apply triple_on_backend. intros b Hb.
  destruct (law_delete b _ d k ns Hb Hd Hk Hu) as (b' & E & Hb'). by eexists _, _, _.
Qed.

Lemma triple_namespaces a d k ns0 :
  descriptors d → km_key (am_backend a) = Some k → universe k ns0 →
  triple a (state_namespaces d) (λ l a', a' = a ∧ NoDup l ∧
    ∀ ns, ns ∈ l ↔ is_Some (km_values (am_backend a) !! (sd_name d, k, ns))).
Proof.
  intros Hd Hk Hu. apply triple_on_backend. intros b Hb.
  destruct (law_namespaces b _ d k ns0 Hb Hd Hk Hu) as (l & E & Hnd & Hin). eexists _, _, _. rewrite E. split_and!; try done.
  by rewrite a_with_backend_id.
Qed.

Lemma runs_register a k ns ts :
  km_key (am_backend a) = Some k → universe k ns → 0 <= ts < 2 ^ 64 →
  runs a (register_event_time_timer ts ns) ()
    (a_with_backend (m_retime (union {[mkTimerEvent ts k ns EVENT_TIME]})) a).
Proof.
  intros Hk Hu Hts. apply triple_on_backend. intros b Hb.
  destruct (law_register b _ k ns ts EVENT_TIME Hb Hk Hu Hts) as (b' & E & Hb'). by eexists _, _, _.
Qed.

Lemma runs_delete_timer a k ns ts :
  km_key (am_backend a) = Some k → universe k ns → 0 <= ts < 2 ^ 64 →
  runs a (delete_event_time_timer ts ns) ()
    (a_with_backend (m_retime (λ t, t ∖ {[mkTimerEvent ts k ns EVENT_TIME]})) a).
Proof.
  intros Hk Hu Hts. apply triple_on_backend. intros b Hb.
  destruct (law_delete_timer b _ k ns ts EVENT_TIME Hb Hk Hu Hts) as (b' & E & Hb'). by eexists _, _, _.
Qed.

Lemma triple_pop a ts dom :
  triple a (on_backend (mb_pop_due_timers ts dom None)) (λ due a',
    NoDup due ∧ (∀ e, e ∈ due ↔ e ∈ km_timers (am_backend a) ∧ is_due ts dom e) ∧
    StronglySorted (λ e e', te_timestamp e <= te_timestamp e') due ∧
    a' = a_with_backend (m_retime (λ t, t ∖ list_to_set due)) a).
Proof.
  apply triple_on_backend. intros b Hb.
  destruct (law_pop b _ ts dom Hb) as (due & b' & E & Hnd & Hin & Hs & Hb'). by eexists _, _, _.
Qed.

Lemma runs_bind_key a k t : runs a (bind_key (V := V) k t) () (a_bind k t a).
Proof.
  intros s [Hb Hw Ht Ho Hl]. eexists _, _, _. split; [done|]. split; [|done]. split; cbn; try done. by apply law_set_key.
Qed.

Lemma triple_cleanup a cfg : runs a (cleanup_expired (K := K) (NS := NS) (V := V) clock cfg) () a.
Proof.
  unfold cleanup_expired. eapply triple_bind; [apply runs_tick|intros now ? ->].
  apply (triple_bind _ _ _ (λ _ a', a' = a)); [|intros n a' ->; apply runs_count_cleaned].
  apply triple_on_backend. intros b Hb.
  destruct (law_cleanup b _ now (Some (oc_ttl_cleanup_batch_size cfg)) Hb) as (b' & E & Hb'). eexists _, _, _.
  split_and!; try done. apply a_with_backend_id.
Qed.

(** A loop with an invariant of the items left. *)
Lemma triple_for_each {A} (f : A → op B R unit) (P : list A → op_model K NS V R → Prop) l a :
  P l a → (∀ x l a, P (x :: l) a → triple a (f x) (λ _ a', P l a')) →
  triple a (for_each f l) (λ _ a', P [] a').
Proof.
  intros HP Hf. revert a HP. induction l as [|x l IH]; intros a HP; cbn [for_each]; [by apply triple_ret|].
  eapply triple_bind; [by apply Hf|]. intros ? a' ?. by apply IH.
Qed.

(** Everything stored is in the universe. *)
Lemma triple_universe {A} a (m : op B R A) Q :
  ((∀ name k ns v, km_values (am_backend a) !! (name, k, ns) = Some v → universe k ns) → triple a m Q) → triple a m Q.
Proof. intros Hm s Hs. apply (Hm (λ name k ns v, law_universe_values _ _ name k ns v (or_backend _ _ Hs)) s Hs). Qed.

Lemma a_collect_nil a : a_collect [] a = a.
Proof. destruct a. unfold a_collect. cbn. by rewrite app_nil_r. Qed.

Lemma a_collect_app a l1 l2 : a_collect l2 (a_collect l1 a) = a_collect (l1 ++ l2) a.
Proof. unfold a_collect. cbn. by rewrite app_assoc. Qed.

Lemma runs_emit {D} (record_of : D → R) (v : pyresult D R) rs a :
  emitted record_of v = Some rs → runs a (emit_result record_of v) () (a_collect rs a).
Proof.
  revert v rs a. fix IH 1. intros [|r|d|l|] rs a; cbn [emitted emit_result].
  - intros [= <-]. rewrite a_collect_nil. apply runs_ret.
  - intros [= <-]. apply runs_collect.
  - intros [= <-]. apply runs_collect.
  - revert rs a. induction l as [|v l IHl]; intros rs a.
    + intros [= <-]. rewrite a_collect_nil. apply runs_ret.
    + destruct (emitted record_of v) as [rv|] eqn:Ev; [|done]. case_match; [|done]. intros [= <-].
      eapply triple_runs; [by apply IH|]. rewrite <-a_collect_app. by apply IHl.
  - done.
Qed.

(** With no timers of the processing domain, none are due. *)
Lemma triple_no_processing_timers a t :
  (∀ e, e ∈ km_timers (am_backend a) → te_domain e = EVENT_TIME) →
  runs a (pop_due_processing_time_timers clock t) [] a.
Proof.
  intros Hev. unfold pop_due_processing_time_timers.
  apply (triple_bind _ _ _ (λ _ a', a' = a)); [destruct t; [by apply triple_ret|apply runs_tick]|intros ts ? ->].
  eapply triple_mono; [apply triple_pop|]. intros due a' (_ & Hin & _ & ->).
  assert (due = []) as ->.
  { apply elem_of_nil_inv. intros e [He [Hd _]]%Hin. rewrite (Hev e He) in Hd. done. }
  split; [done|]. destruct a as [[mk mv mt] ? ? ? ?]. unfold a_with_backend, m_retime. cbn. do 2 f_equal.
  apply difference_empty_L.
Qed.
End triples.

(** ** List state *)

Section list_triples.
Context {B K NS A R : Type} `{Countable K, Countable NS, !ManagedStateBackend B K NS (list A)}
  (descriptors : StateDescriptor (list A) → Prop) (universe : K → NS → Prop) (repr : B → keyed_model K NS (list A) → Prop)
  `{!BackendRefines B K NS (list A) descriptors universe repr} (clock : nat → Z).

Implicit Types (a : op_model K NS (list A) R) (k : K) (ns : NS) (d : StateDescriptor (list A)).

(** The list at an address: a missing value is the empty list. *)
Definition list_at a d k ns : list A := default [] (km_values (am_backend a) !! (sd_name d, k, ns)).

Lemma runs_list_values a d k ns :
  descriptors d → km_key (am_backend a) = Some k → universe k ns →
  runs repr a (list_values clock d ns) (list_at a d k ns) a.
Proof.
  intros Hd Hk Hu. eapply triple_runs; [by apply (runs_value_get descriptors universe repr)|]. apply runs_ret.
Qed.

(** Iterating a list whose items are only put out. *)
Lemma runs_list_iter a d k ns (f : nat → A → op B R unit) (g : A → list R) fuel i :
  descriptors d → km_key (am_backend a) = Some k → universe k ns →
  (∀ rs i x, x ∈ list_at a d k ns → runs repr (a_collect rs a) (f i x) () (a_collect (g x) (a_collect rs a))) →
  (length (list_at a d k ns) - i < fuel)%nat →
  ∀ rs, runs repr (a_collect rs a) (list_iter clock fuel d ns i f) ()
          (a_collect (mjoin (g <$> drop i (list_at a d k ns))) (a_collect rs a)).
Proof.
  intros Hd Hk Hu Hf. revert i. induction fuel as [|fuel IH]; intros i Hlt rs; [lia|]. cbn [list_iter].
  unfold list_getitem. eapply triple_runs; [eapply triple_runs; [by apply runs_list_values|]; apply runs_ret|].
  change (list_at (a_collect rs a) d k ns) with (list_at a d k ns).
  destruct (list_at a d k ns !! i) as [x|] eqn:Hx.
  - eapply triple_runs; [apply Hf; by eapply list_elem_of_lookup_2|].
    rewrite (drop_S _ _ _ Hx), fmap_cons. cbn [mjoin list_join]. rewrite <-a_collect_app, a_collect_app.
    apply IH. pose proof (lookup_lt_Some _ _ _ Hx). lia.
  - apply lookup_ge_None in Hx. rewrite drop_ge by done. cbn. rewrite a_collect_nil. apply runs_ret.
Qed.

Lemma runs_list_for a d k ns (f : nat → A → op B R unit) (g : A → list R) :
  descriptors d → km_key (am_backend a) = Some k → universe k ns →
  (∀ rs i x, x ∈ list_at a d k ns → runs repr (a_collect rs a) (f i x) () (a_collect (g x) (a_collect rs a))) →
  runs repr a (list_for clock d ns f) () (a_collect (mjoin (g <$> list_at a d k ns)) a).
Proof.
  intros Hd Hk Hu Hf s Hs. unfold list_for, list_fuel.
  destruct (runs_list_values a d k ns Hd Hk Hu s Hs) as (l & s1 & a1 & E & _ & -> & _). rewrite E. cbn [fst].
  pose proof (runs_list_iter a d k ns f g (S (length (list_at a d k ns))) 0 Hd Hk Hu Hf ltac:(lia) []) as Hrun.
  rewrite a_collect_nil, drop_0 in Hrun. by apply Hrun.
Qed.

Lemma runs_list_append a d k ns x :
  descriptors d → km_key (am_backend a) = Some k → universe k ns →
  runs repr a (list_append clock d ns x) ()
    (a_with_backend (m_update (insert (sd_name d, k, ns) (list_at a d k ns ++ [x]))) a).
Proof.
  intros Hd Hk Hu. unfold list_append, list_insert. eapply triple_runs; [by apply runs_list_values|].
  eapply triple_runs; [by apply runs_list_values|]. rewrite take_ge, drop_ge by done.
  by apply (runs_value_set descriptors universe repr).
Qed.
End list_triples.
