(* ===== verification/Windows.v ===== *)
(** * Event-time windows

    Models [src/ray/klein/api/time_window.py], [tumbling_window.py],
    [sliding_window.py], [session_window.py] (the window assigners) and
    [src/ray/klein/runtime/operator/window_operator.py] (managed window aggregation).

    Durations are those of [Durations].  Reduce functions, key selectors and custom
    assigners are parameters. *)
From S2P Require Import Prelude Concrete Durations KeyGroups StateCodec StateBackend BackendContract ManagedState.
Open Scope Z_scope.

(** ** Windows *)

Record TimeWindow := mkTimeWindow { tw_start : Z; tw_end : Z }.

#[export] Instance TimeWindow_eq_dec : EqDecision TimeWindow.
Proof. solve_decision. Defined.

#[export] Instance TimeWindow_countable : Countable TimeWindow :=
  inj_countable' (A := Z * Z) (λ w, (tw_start w, tw_end w)) (λ '(s, e), mkTimeWindow s e) ltac:(by intros []).

(** The constructor with [__post_init__]. *)
Definition TimeWindow_init (start stop : Z) : outcome TimeWindow :=
  if stop <=? start then Err ValueError else Ok (mkTimeWindow start stop).

Definition window_overlaps (w other : TimeWindow) : bool := (tw_start w <? tw_end other) && (tw_start other <? tw_end w).

Definition window_merge (w other : TimeWindow) : outcome TimeWindow :=
  TimeWindow_init (Z.min (tw_start w) (tw_start other)) (Z.max (tw_end w) (tw_end other)).

(** ** Assigners *)

Record WindowAssigner := mkAssigner { assign_windows : Z → outcome (list TimeWindow); is_merging : bool }.

Definition tumbling_assign (size offset timestamp : Z) : outcome (list TimeWindow) :=
  let start := (timestamp - offset) / size * size + offset in
  w ← TimeWindow_init start (start + size); Ok [w].

Definition TumblingWindow (size offset : Z) : outcome WindowAssigner :=
  size ← positive_milliseconds size;
  offset ← timedelta_milliseconds offset;
  Ok (mkAssigner (tumbling_assign size (offset mod size)) false).

(** The [while] loop; [fuel] bounds it. *)
Fixpoint sliding_loop (fuel : nat) (size slide timestamp start : Z) (windows : list TimeWindow) : outcome (list TimeWindow) :=
  if timestamp <? start + size then
    match fuel with
    | O => Err RuntimeError
    | S fuel =>
        w ← TimeWindow_init start (start + size);
        sliding_loop fuel size slide timestamp (start - slide) (windows ++ [w])
    end
  else Ok windows.

Definition sliding_assign (size slide offset timestamp : Z) : outcome (list TimeWindow) :=
  let last_start := (timestamp - offset) / slide * slide + offset in
  sliding_loop (Z.to_nat (size / slide + 1)) size slide timestamp last_start [].

Definition SlidingWindow (size slide offset : Z) : outcome WindowAssigner :=
  size ← positive_milliseconds size;
  slide ← positive_milliseconds slide;
  offset ← timedelta_milliseconds offset;
  Ok (mkAssigner (sliding_assign size slide (offset mod slide)) false).

Definition session_assign (gap timestamp : Z) : outcome (list TimeWindow) :=
  w ← TimeWindow_init timestamp (timestamp + gap); Ok [w].

Definition SessionWindow (gap : Z) : outcome WindowAssigner :=
  gap ← positive_milliseconds gap;
  Ok (mkAssigner (session_assign gap) true).

(** ** The window operator *)

Section window_operator.
Context {B K D In R : Type}.
Abbreviation V := (pyresult D R).
Context `{ManagedStateBackend B K TimeWindow V, KeyCodec K, Blake2b} (clock : nat → Z).

(** The operator's attributes. *)
Context (assigner : WindowAssigner) (reduce_function : V → V → outcome V)
  (allowed_lateness_ms : Z) (window_state : StateDescriptor V)
  (block_of : In → V) (dict_of : V → outcome D) (record_of : D → R).

Definition is_none (v : V) : bool := match v with PyNone => true | _ => false end.

(** [state.value]: a missing value is [None]. *)
Definition window_value (w : TimeWindow) : op B R V :=
  o ← value_state_get clock window_state w; mret (default PyNone o).

Definition cleanup_time (w : TimeWindow) : Z := tw_end w - 1 + allowed_lateness_ms.

(** [_session_merge_plan]. *)
Definition session_merge_plan (candidate : TimeWindow) : op B R (TimeWindow * list TimeWindow) :=
  if negb (is_merging assigner) then mret (candidate, [])
  else
    windows ← state_namespaces window_state;
    let overlapping := filter (λ w, window_overlaps w candidate = true) (windows : list TimeWindow) in
    if bool_decide (overlapping = []) then mret (candidate, [])
    else merged ← lift (foldM window_merge candidate overlapping); mret (merged, overlapping).

(** One round of the loop of [_merge_session_windows]. *)
Definition merge_session_window (accumulated : V) (window : TimeWindow) : op B R V :=
  value ← window_value window;
  accumulated ← (if is_none value then mret accumulated
                 else if is_none accumulated then mret value else lift (reduce_function accumulated value));
  _ ← state_clear window_state window;
  _ ← delete_event_time_timer (V := V) (cleanup_time window) window;
  mret (accumulated : V).

Definition merge_session_windows (target : TimeWindow) (overlapping : list TimeWindow) : op B R unit :=
  accumulated ← fold_op merge_session_window PyNone overlapping;
  if is_none accumulated then mret () else value_state_set clock window_state target accumulated.

(** One round of the loop of [process_managed_element], for a bound timestamp. *)
Definition process_window (blk : V) (dropped : bool) (window : TimeWindow) : op B R bool :=
  plan ← session_merge_plan window;
  let '(target, overlapping) := (plan : TimeWindow * list TimeWindow) in
  watermark ← get_watermark;
  if cleanup_time target <=? watermark then mret true
  else
    _ ← merge_session_windows target overlapping;
    current ← window_value target;
    value ← (if is_none current then d ← lift (dict_of blk); mret (PyMapping d) else lift (reduce_function current blk));
    _ ← value_state_set clock window_state target value;
    _ ← register_event_time_timer (V := V) (cleanup_time target) target;
    mret dropped.

Definition window_process_managed_element (r : In) : op B R unit :=
  timestamp ← get_timestamp;
  match timestamp with
  | None => raise ValueError
  | Some ts =>
      if ts <? 0 then raise ValueError
      else
        windows ← lift (assign_windows assigner ts);
        dropped ← fold_op (process_window (block_of r)) false windows;
        if dropped : bool then record_late_drop else mret ()
  end.

Definition window_on_timer (event : TimerEvent K TimeWindow) : op B R unit :=
  match te_domain event with
  | PROCESSING_TIME => mret ()
  | EVENT_TIME =>
      result ← window_value (te_namespace event);
      if is_none result then mret ()
      else _ ← state_clear window_state (te_namespace event); emit_result record_of result
  end.

Definition WindowOperator (key_and_timestamp : In → outcome (K * option pyarg)) : operator_hooks :=
  mkHooks window_process_managed_element window_on_timer (mret ()) key_and_timestamp.

(** [finish]. *)
Definition window_finish (h : operator_hooks) : op B R unit :=
  events ← on_backend (mb_pop_due_timers (V := V) (2 ^ 63 - 1) EVENT_TIME None);
  for_each (fire_timer (V := V) (In := In) h) events.
End window_operator.

(** ** Assigners: lemmas *)

Lemma TimeWindow_init_Ok s e : s < e → TimeWindow_init s e = Ok (mkTimeWindow s e).
Proof. intros Hse. unfold TimeWindow_init. by rewrite (proj2 (Z.leb_gt e s)). Qed.

(** The start of the last window at or before a timestamp. *)
Lemma aligned_start ts offset step :
  0 < step → let s := (ts - offset) / step * step + offset in s <= ts < s + step ∧ (s - offset) mod step = 0.
Proof.
  intros Hs. cbn zeta. pose proof (Z.div_mod (ts - offset) step ltac:(lia)) as Hd.
  pose proof (Z.mod_pos_bound (ts - offset) step Hs). split; [lia|].
  replace (_ + offset - offset) with ((ts - offset) / step * step) by lia. apply Z.mod_mul. lia.
Qed.

(** What an assigner must return for a timestamp: the aligned windows that hold it. *)
Definition in_window (size step offset ts : Z) (w : TimeWindow) : Prop :=
  tw_end w = tw_start w + size ∧ tw_start w <= ts < tw_end w ∧ (tw_start w - offset) mod step = 0.

Lemma sliding_loop_spec fuel size slide ts start windows :
  0 < size → 0 < slide → start + size - ts <= Z.of_nat fuel * slide →
  ∃ ws, sliding_loop fuel size slide ts start windows = Ok (windows ++ ws) ∧ NoDup ws ∧
    ∀ w, w ∈ ws ↔ tw_end w = tw_start w + size ∧ ts < tw_end w ∧ tw_start w <= start ∧ (start - tw_start w) mod slide = 0.
Proof.
  intros Hsize Hslide. revert start windows. induction fuel as [|fuel IH]; intros start windows Hf; cbn [sliding_loop].
  all: destruct (Z.ltb_spec ts (start + size)) as [Hlt|Hge]; try lia.
  1,3: exists []; rewrite app_nil_r; split_and!; [done|constructor|]; intros w; split; [by intros ?%not_elem_of_nil|];
    intros (? & ? & ? & ?); lia.
  rewrite TimeWindow_init_Ok, bind_Ok by lia.
  destruct (IH (start - slide) (windows ++ [mkTimeWindow start (start + size)]) ltac:(lia)) as (ws & E & Hnd & Hin).
  exists (mkTimeWindow start (start + size) :: ws). rewrite E, <-app_assoc. split; [done|]. split.
  - constructor; [|done]. intros (_ & _ & Hs & _)%Hin. cbn in Hs. lia.
  - intros w. rewrite elem_of_cons, Hin. split.
    + intros [->|(? & ? & ? & Hm)]; cbn; [rewrite Z.sub_diag, Z.mod_0_l; lia|]. split_and!; [done..|lia|].
      replace (start - tw_start w) with (start - slide - tw_start w + 1 * slide) by lia. by rewrite Z.mod_add by lia.
    + intros (He & Hlt' & Hle & Hm). destruct (decide (tw_start w = start)) as [Eq|Hne].
      * left. destruct w as [ws' we]. cbn in *. subst. done.
      * right. pose proof (Z.div_mod (start - tw_start w) slide ltac:(lia)) as Hd. rewrite Hm in Hd.
        assert (1 <= (start - tw_start w) / slide) by nia. split_and!; [done..|nia|].
        replace (start - slide - tw_start w) with (start - tw_start w + (-1) * slide) by lia. by rewrite Z.mod_add by lia.
Qed.

Lemma sliding_assign_spec size slide offset ts :
  0 < size → 0 < slide →
  ∃ ws, sliding_assign size slide offset ts = Ok ws ∧ NoDup ws ∧ ∀ w, w ∈ ws ↔ in_window size slide offset ts w.
Proof.
  intros Hsize Hslide. unfold sliding_assign. destruct (aligned_start ts offset slide Hslide) as [Hs Hm].
  set (s := _ + offset) in *. 
  destruct (sliding_loop_spec (Z.to_nat (size / slide + 1)) size slide ts s [] Hsize Hslide) as (ws & E & Hnd & Hin).
  { pose proof (Z.div_mod size slide ltac:(lia)). pose proof (Z.mod_pos_bound size slide Hslide).
    pose proof (Z.div_pos size slide ltac:(lia) Hslide). rewrite Z2Nat.id by lia. nia. }
  exists ws. split_and!; [done..|]. intros w. rewrite Hin. unfold in_window.
  assert (∀ x, (s - x) mod slide = 0 ↔ (x - offset) mod slide = 0) as Hmod.
  { intros x. pose proof (Z.div_mod (s - offset) slide ltac:(lia)) as Hds. rewrite Hm in Hds. split; intros Hx.
    - pose proof (Z.div_mod (s - x) slide ltac:(lia)) as Hd. rewrite Hx in Hd.
      replace (x - offset) with (((s - offset) / slide - (s - x) / slide) * slide) by lia. apply Z.mod_mul. lia.
    - pose proof (Z.div_mod (x - offset) slide ltac:(lia)) as Hd. rewrite Hx in Hd.
      replace (s - x) with (((s - offset) / slide - (x - offset) / slide) * slide) by lia. apply Z.mod_mul. lia. }
  rewrite Hmod. split; intros Hw; (split_and!; [tauto| |tauto|tauto] || split_and!; try tauto); try lia.
  destruct Hw as (He & [Hle Hlt] & Hmw). apply Hmod in Hmw.
  pose proof (Z.div_mod (s - tw_start w) slide ltac:(lia)) as Hd. rewrite Hmw in Hd.
  destruct (Z.le_gt_cases (tw_start w) s); [done|]. assert ((s - tw_start w) / slide <= -1) by nia. nia.
Qed.

Lemma tumbling_assign_spec size offset ts :
  0 < size → ∃ w, tumbling_assign size offset ts = Ok [w] ∧ ∀ w', w' = w ↔ in_window size size offset ts w'.
Proof.
  intros Hsize. unfold tumbling_assign. destruct (aligned_start ts offset size Hsize) as [Hs Hm].
  set (s := _ + offset) in *. rewrite TimeWindow_init_Ok, bind_Ok by lia. eexists. split; [done|].
  intros w'. split; [intros ->; unfold in_window; cbn; split_and!; done || lia|].
  intros (He & Hin & Hmw). destruct w' as [ws we]. cbn in *.
  pose proof (Z.div_mod (ws - offset) size ltac:(lia)) as Hd. pose proof (Z.div_mod (s - offset) size ltac:(lia)) as Hds.
  rewrite Hmw in Hd. rewrite Hm in Hds. assert ((ws - offset) / size = (s - offset) / size) by nia. f_equal; nia.
Qed.

(** An offset counts up to a multiple of the step. *)
Lemma in_window_offset size step m ts w : in_window size step (m mod step) ts w ↔ in_window size step m ts w.
Proof. unfold in_window. by rewrite Zminus_mod_idemp_r. Qed.

(** C27. The assigners return exactly the windows they promise: whatever durations they
    are built from, once built they never raise; a tumbling assigner returns the one
    window of its size that holds the timestamp and starts at a multiple of the size
    after the given offset, a sliding assigner every window of its size that holds it
    and starts at a multiple of the slide after the given offset, each once (its loop
    always ends), a session assigner the gap that starts at it. *)
Theorem assigners_exact size slide offset gap ts :
  (∀ a, TumblingWindow size offset = Ok a → ∃ n m w, positive_milliseconds size = Ok n ∧
     timedelta_milliseconds offset = Ok m ∧ 0 < n ∧
     is_merging a = false ∧ assign_windows a ts = Ok [w] ∧ ∀ w', w' = w ↔ in_window n n m ts w') ∧
  (∀ a, SlidingWindow size slide offset = Ok a → ∃ n st m ws, positive_milliseconds size = Ok n ∧
     positive_milliseconds slide = Ok st ∧ timedelta_milliseconds offset = Ok m ∧ 0 < n ∧ 0 < st ∧
     is_merging a = false ∧ assign_windows a ts = Ok ws ∧ NoDup ws ∧ ∀ w, w ∈ ws ↔ in_window n st m ts w) ∧
  (∀ a, SessionWindow gap = Ok a → ∃ n, positive_milliseconds gap = Ok n ∧ 0 < n ∧
     is_merging a = true ∧ assign_windows a ts = Ok [mkTimeWindow ts (ts + n)]).
Proof.
  assert (∀ us n, positive_milliseconds us = Ok n → 0 < n) as Hpos.
  { intros us n Hn. apply bind_Ok_inv in Hn as (m & _ & Hn). destruct (Z.leb_spec m 0); [done|]. by injection Hn as <-. }
  split_and!.
  - intros a Ha. apply bind_Ok_inv in Ha as (n & Hn & Ha). apply bind_Ok_inv in Ha as (m & Ho & Ha). injection Ha as <-.
    pose proof (Hpos _ _ Hn). destruct (tumbling_assign_spec n (m mod n) ts) as (w & Hw & Hin); [done|].
    setoid_rewrite in_window_offset in Hin. exists n, m, w. by split_and!.
  - intros a Ha. apply bind_Ok_inv in Ha as (n & Hn & Ha). apply bind_Ok_inv in Ha as (st & Hst & Ha).
    apply bind_Ok_inv in Ha as (m & Ho & Ha). injection Ha as <-. pose proof (Hpos _ _ Hn). pose proof (Hpos _ _ Hst).
    destruct (sliding_assign_spec n st (m mod st) ts) as (ws & Hw & Hnd & Hin); [done..|].
    setoid_rewrite in_window_offset in Hin. exists n, st, m, ws. by split_and!.
  - intros a Ha. apply bind_Ok_inv in Ha as (n & Hn & Ha). injection Ha as <-. exists n. pose proof (Hpos _ _ Hn).
    split_and!; try done. cbn. unfold session_assign. by rewrite TimeWindow_init_Ok, bind_Ok by lia.
Qed.

Lemma assigners_exact_witness :
  (∃ a, TumblingWindow 10000000 3000000 = Ok a ∧ ∃ n m w, positive_milliseconds 10000000 = Ok n ∧
     timedelta_milliseconds 3000000 = Ok m ∧ 0 < n ∧
     is_merging a = false ∧ assign_windows a 11000 = Ok [w] ∧ ∀ w', w' = w ↔ in_window n n m 11000 w').
Proof.
  assert (TumblingWindow 10000000 3000000 = Ok (mkAssigner (tumbling_assign 10000 3000) false)) as E by (vm_compute; reflexivity).
  eexists. split; [exact E|]. exact (proj1 (assigners_exact 10000000 4000000 3000000 1 11000) _ E).
Defined.

(** 10-second windows every 4 seconds. *)
Example sliding_example :
  (a ← SlidingWindow 10000000 4000000 0; assign_windows a 11000) =
    Ok [mkTimeWindow 8000 18000; mkTimeWindow 4000 14000].
Proof. vm_compute. reflexivity. Qed.

(** ** The window operator on the abstract backend *)

Section window_proof.
Context {B K D In R : Type} `{Countable K}.
Abbreviation V := (pyresult D R).
Context `{!ManagedStateBackend B K TimeWindow V, !KeyCodec K, !Blake2b}
  (descriptors : StateDescriptor V → Prop) (universe : K → TimeWindow → Prop)
  (repr : B → keyed_model K TimeWindow V → Prop)
  `{!BackendRefines B K TimeWindow V descriptors universe repr} (clock : nat → Z).

Context (cfg : operator_config) (assigner : WindowAssigner) (reduce_function : V → V → outcome V) (allowed_lateness_ms : Z)
  (window_state : StateDescriptor V) (block_of : In → V) (dict_of : V → outcome D) (record_of : D → R)
  (key_and_timestamp : In → outcome (K * option pyarg)).

(** The caller's functions, total on the inputs considered, and what the operator is
    configured with. *)
Context (assign : Z → list TimeWindow) (reduce : V → V → V) (first : V → D) (key : In → K) (time : In → Z).

Implicit Types (a : op_model K TimeWindow V R) (k : K) (w : TimeWindow) (blk : V).

Abbreviation cleanup w := (cleanup_time allowed_lateness_ms w).
Abbreviation hooks := (WindowOperator (In := In) clock assigner reduce_function allowed_lateness_ms window_state block_of dict_of
  record_of key_and_timestamp).

(** The aggregate of a window's elements, in order. *)
Definition aggregate (blks : list V) : option V :=
  match blks with [] => None | b :: blks => Some (foldl reduce (PyMapping (first b)) blks) end.

(** What one emitted aggregate adds to the output. *)
Definition outputs (o : option V) : list R := default [] (o ≫= emitted record_of).

Lemma aggregate_snoc blks b :
  aggregate (blks ++ [b]) = Some (match aggregate blks with None => PyMapping (first b) | Some v => reduce v b end).
Proof. destruct blks as [|b0 blks]; [done|]. cbn. by rewrite foldl_app. Qed.

Record window_setup : Prop := {
  ws_merging : is_merging assigner = false;
  ws_descriptor : descriptors window_state;
  ws_lateness : 0 <= allowed_lateness_ms;
  ws_reduce v b : reduce_function v b = Ok (reduce v b) ∧ is_none (reduce v b) = false ∧ is_Some (emitted record_of (reduce v b));
  ws_dict b : dict_of b = Ok (first b)
}.

(** An element the operator accepts: its key is owned here, and its windows are in
    the range of the formats. *)
Record valid_element (r : In) : Prop := {
  ve_selected : key_and_timestamp r = Ok (key r, Some (AInt (time r)));
  ve_time : 0 <= time r;
  ve_assign : assign_windows assigner (time r) = Ok (assign (time r));
  ve_distinct : NoDup (assign (time r));
  ve_windows w : w ∈ assign (time r) → universe (key r) w ∧ time r < tw_end w ∧ cleanup w < 2 ^ 64;
  ve_owned : ∃ g, key_group_for_key (key r) (AInt (oc_max_parallelism cfg)) = Ok g ∧
    KeyGroupRange_contains (oc_key_group_range cfg) g = true
}.

Context (Hsetup : window_setup).

(** Storing a block into one window. *)
Definition a_window k blk a w : op_model K TimeWindow V R :=
  if cleanup w <=? am_watermark a then a
  else a_with_backend (m_retime (union {[mkTimerEvent (cleanup w) k w EVENT_TIME]}))
    (a_with_backend (m_update (insert (sd_name window_state, k, w)
      (match km_values (am_backend a) !! (sd_name window_state, k, w) with None => PyMapping (first blk) | Some v => reduce v blk end))) a).

Definition no_none a : Prop := ∀ n k w v, km_values (am_backend a) !! (n, k, w) = Some v → is_none v = false.

Lemma runs_window_value a k w :
  km_key (am_backend a) = Some k → universe k w →
  runs repr a (window_value clock window_state w) (default PyNone (km_values (am_backend a) !! (sd_name window_state, k, w))) a.
Proof.
  intros Hk Hu. eapply triple_runs; [eapply runs_value_get; try done; apply (ws_descriptor Hsetup)|]. apply runs_ret.
Qed.

Lemma runs_process_window a k blk dropped w :
  km_key (am_backend a) = Some k → universe k w → 0 <= cleanup w < 2 ^ 64 → no_none a →
  runs repr a (process_window clock assigner reduce_function allowed_lateness_ms window_state dict_of blk dropped w)
    (if cleanup w <=? am_watermark a then true else dropped) (a_window k blk a w).
Proof.
  intros Hk Hu Hc Hnn. unfold process_window, session_merge_plan. rewrite (ws_merging Hsetup). cbn [negb].
  eapply triple_runs; [apply runs_ret|]. cbn beta iota.
  eapply triple_runs; [apply runs_get_watermark|]. unfold a_window. destruct (cleanup w <=? am_watermark a); [apply runs_ret|].
  unfold merge_session_windows. cbn [fold_op].
  eapply triple_runs; [eapply triple_runs; [apply runs_ret|]; apply runs_ret|].
  eapply triple_runs; [by apply runs_window_value|].
  destruct (km_values (am_backend a) !! (sd_name window_state, k, w)) as [v|] eqn:Hv; cbn [default from_option id].
  - rewrite (Hnn _ _ _ _ Hv). destruct (ws_reduce Hsetup v blk) as (-> & _). eapply triple_runs; [apply runs_lift|].
    eapply triple_runs; [eapply runs_value_set; try done; apply (ws_descriptor Hsetup)|].
    eapply triple_runs; [by eapply runs_register|]. apply runs_ret.
  - cbn [is_none]. rewrite (ws_dict Hsetup). eapply triple_runs; [eapply triple_runs; [apply runs_lift|]; apply runs_ret|].
    eapply triple_runs; [eapply runs_value_set; try done; apply (ws_descriptor Hsetup)|].
    eapply triple_runs; [by eapply runs_register|]. apply runs_ret.
Qed.

Lemma a_window_facts k blk a w :
  am_watermark (a_window k blk a w) = am_watermark a ∧ am_out (a_window k blk a w) = am_out a ∧
  am_timestamp (a_window k blk a w) = am_timestamp a ∧
  km_key (am_backend (a_window k blk a w)) = km_key (am_backend a).
Proof. unfold a_window. by case_match. Qed.

Lemma a_window_no_none k blk a w : no_none a → no_none (a_window k blk a w).
Proof.
  intros Hnn. unfold a_window. case_match; [done|]. intros n k' w' v. cbn.
  intros [[_ <-]|[_ Hv]]%lookup_insert_Some; [|by eapply Hnn].
  destruct (km_values _ !! _) as [v0|]; [|done]. by destruct (ws_reduce Hsetup v0 blk) as (_ & ? & _).
Qed.

(** Storing a block into distinct windows, one after the other. *)
Lemma a_windows_facts k blk a ws :
  NoDup ws →
  let a' := foldl (a_window k blk) a ws in
  am_watermark a' = am_watermark a ∧ am_out a' = am_out a ∧ km_key (am_backend a') = km_key (am_backend a) ∧
  (∀ n k' w', km_values (am_backend a') !! (n, k', w') =
     if decide (n = sd_name window_state ∧ k' = k ∧ w' ∈ ws ∧ am_watermark a < cleanup w')
     then Some (match km_values (am_backend a) !! (n, k', w') with None => PyMapping (first blk) | Some v => reduce v blk end)
     else km_values (am_backend a) !! (n, k', w')) ∧
  (∀ e, e ∈ km_timers (am_backend a') ↔ e ∈ km_timers (am_backend a) ∨
     ∃ w, w ∈ ws ∧ am_watermark a < cleanup w ∧ e = mkTimerEvent (cleanup w) k w EVENT_TIME).
Proof.
  cbn zeta. revert a. induction ws as [|w ws IH]; intros a Hnd.
  { split_and!; [done..| |set_solver]. intros n k' w'. rewrite decide_False; [done|set_solver]. }
  apply NoDup_cons in Hnd as [Hw Hnd]. cbn [foldl].
  destruct (IH (a_window k blk a w) Hnd) as (Ew & Eo & Ek & Ev & Et).
  destruct (a_window_facts k blk a w) as (Fw & Fo & _ & Fk). rewrite Fw in Ew, Ev, Et. rewrite Fo in Eo. rewrite Fk in Ek.
  split_and!; [done..| |].
  - intros n k' w'. rewrite Ev. unfold a_window. destruct (Z.leb_spec (cleanup w) (am_watermark a)) as [Hle|Hgt].
    + destruct (decide (w' = w)) as [->|Hne].
      * rewrite !decide_False; [done|intros (_ & _ & _ & ?); lia|intros (_ & _ & ? & _); done].
      * apply decide_ext. set_solver.
    + cbn. destruct (decide ((sd_name window_state, k, w) = (n, k', w'))) as [E|Hne].
      * injection E as <- <- <-. rewrite lookup_insert_eq, decide_False by (intros (_ & _ & ? & _); done).
        rewrite decide_True; [done|]. split_and!; [done..|by left|lia].
      * rewrite lookup_insert_ne by done. destruct (decide (w' = w)) as [->|Hnw].
        -- rewrite !decide_False; [done|intros (-> & -> & _); done|intros (_ & _ & ? & _); done].
        -- apply decide_ext. set_solver.
  - intros e. rewrite Et. unfold a_window. destruct (Z.leb_spec (cleanup w) (am_watermark a)) as [Hle|Hgt]; cbn.
    + split; [set_solver|]. intros [?|(w' & [->|Hin]%elem_of_cons & Hlt & ->)]; [by left|lia|right; eauto].
    + rewrite elem_of_union, elem_of_singleton. split.
      * intros [[->|?]|(w' & ? & ? & ->)]; [right; exists w; split_and!; [by left|lia|done]|by left|right; exists w'; set_solver].
      * intros [?|(w' & [->|Hin]%elem_of_cons & Hlt & ->)]; [by left; right|by left; left|right; eauto].
Qed.

Lemma triple_process_windows a k blk dropped ws :
  km_key (am_backend a) = Some k → (∀ w, w ∈ ws → universe k w ∧ 0 <= cleanup w < 2 ^ 64) → no_none a →
  triple repr a (fold_op (process_window clock assigner reduce_function allowed_lateness_ms window_state dict_of blk) dropped ws)
    (λ _ a', a' = foldl (a_window k blk) a ws).
Proof.
  revert a dropped. induction ws as [|w ws IH]; intros a dropped Hk Hws Hnn; cbn [fold_op foldl]; [by apply triple_ret|].
  destruct (Hws w) as [Hu Hc]; [by left|].
  eapply triple_runs; [by apply (runs_process_window a k)|]. apply IH.
  - by destruct (a_window_facts k blk a w) as (_ & _ & _ & ->).
  - intros w' Hw'. apply Hws. by right.
  - by apply a_window_no_none.
Qed.

(** *** Histories *)

Inductive window_input := WElement (r : In) | WWatermark (timestamp : Z).

Definition run_input (i : window_input) : op B R unit :=
  match i with
  | WElement r => process_element (V := V) clock cfg hooks r
  | WWatermark t => on_event_time_watermark (V := V) clock cfg hooks t
  end.

Definition next_watermark (wm : Z) (i : window_input) : Z := match i with WElement _ => wm | WWatermark t => Z.max wm t end.
Definition watermark_after (wm : Z) (hist : list window_input) : Z := foldl next_watermark wm hist.

(** The blocks that belong to a key and window: those of its elements that arrived
    before its cleanup time. *)
Definition takes (wm : Z) (i : window_input) k w : list V :=
  match i with
  | WElement r => if decide (key r = k ∧ w ∈ assign (time r) ∧ wm < cleanup w) then [block_of r] else []
  | WWatermark _ => []
  end.

Fixpoint accepted (wm : Z) (hist : list window_input) k w : list V :=
  match hist with
  | [] => []
  | i :: hist => takes wm i k w ++ accepted (next_watermark wm i) hist k w
  end.

Lemma accepted_snoc wm hist i k w : accepted wm (hist ++ [i]) k w = accepted wm hist k w ++ takes (watermark_after wm hist) i k w.
Proof.
  revert wm. induction hist as [|j hist IH]; intros wm; cbn [app accepted]; [by rewrite app_nil_r|].
  by rewrite IH, <-app_assoc.
Qed.

Lemma watermark_after_snoc wm hist i : watermark_after wm (hist ++ [i]) = next_watermark (watermark_after wm hist) i.
Proof. unfold watermark_after. by rewrite foldl_app. Qed.

(** The windows fired so far, in order, and what they put out. *)
Definition fired_output (hist : list window_input) (fired : list (K * TimeWindow)) : list R :=
  mjoin ((λ kw, outputs (aggregate (accepted (-1) hist kw.1 kw.2))) <$> fired).

Record window_inv (hist : list window_input) (fired : list (K * TimeWindow)) a : Prop := {
  wi_watermark : am_watermark a = watermark_after (-1) hist;
  wi_values n k w : km_values (am_backend a) !! (n, k, w) =
    if decide (n = sd_name window_state ∧ am_watermark a < cleanup w) then aggregate (accepted (-1) hist k w) else None;
  wi_timers e : e ∈ km_timers (am_backend a) ↔ te_timestamp e = cleanup (te_namespace e) ∧ te_domain e = EVENT_TIME ∧
    is_Some (km_values (am_backend a) !! (sd_name window_state, te_key e, te_namespace e));
  wi_out : am_out a = fired_output hist fired;
  wi_nodup : NoDup fired;
  wi_fired k w : (k, w) ∈ fired ↔ accepted (-1) hist k w ≠ [] ∧ cleanup w <= am_watermark a;
  wi_sorted : StronglySorted (λ x y, cleanup x.2 <= cleanup y.2) fired
}.

Lemma aggregate_proper blks v : aggregate blks = Some v → is_none v = false ∧ is_Some (emitted record_of v).
Proof.
  destruct blks as [|b blks] using rev_ind; [done|]. rewrite aggregate_snoc. intros [= <-].
  destruct (aggregate blks) as [v|]; [|cbn; eauto]. by destruct (ws_reduce Hsetup v b) as (_ & ? & ?).
Qed.

Lemma aggregate_Some blks : is_Some (aggregate blks) ↔ blks ≠ [].
Proof. destruct blks; cbn; [split; [by intros [? ?]|done]|split; [done|by eexists]]. Qed.

Lemma window_inv_no_none hist fired a : window_inv hist fired a → no_none a.
Proof.
  intros Hi n k w v. rewrite (wi_values _ _ _ Hi). case_decide; [|done]. intros Hv. by destruct (aggregate_proper _ _ Hv).
Qed.

Lemma window_inv_event hist fired a e : window_inv hist fired a → e ∈ km_timers (am_backend a) → te_domain e = EVENT_TIME.
Proof. intros Hi He. by apply (wi_timers _ _ _ Hi) in He as (_ & ? & _). Qed.

(** Blocks no longer accepted cannot change what was put out. *)
Lemma fired_output_snoc hist i fired :
  (∀ k w, (k, w) ∈ fired → cleanup w <= watermark_after (-1) hist) → fired_output (hist ++ [i]) fired = fired_output hist fired.
Proof.
  intros Hf. unfold fired_output. f_equal. apply list_fmap_ext. intros j [k w] Hj%list_elem_of_lookup_2. cbn.
  rewrite accepted_snoc. specialize (Hf k w Hj).
  assert (takes (watermark_after (-1) hist) i k w = []) as ->; [|by rewrite app_nil_r].
  destruct i as [r|t]; cbn; [|done]. rewrite decide_False; [done|]. intros (_ & _ & ?). lia.
Qed.

Lemma window_element hist fired a r :
  window_inv hist fired a → valid_element r →
  triple repr a (run_input (WElement r)) (λ _ a', window_inv (hist ++ [WElement r]) fired a').
Proof.
  intros Hi Hv. destruct (ve_owned r Hv) as (g & Hg & Hrange). cbn [run_input]. unfold process_element.
  cbn [WindowOperator ManagedState.key_and_timestamp process_managed_element after_time_advanced].
  rewrite (ve_selected r Hv). eapply triple_runs; [apply runs_lift|]. cbn [fst snd check_timestamp arg_int].
  rewrite (proj2 (Z.ltb_ge (time r) 0)) by apply (ve_time r Hv). eapply triple_runs; [apply runs_lift|].
  rewrite Hg. eapply triple_runs; [apply runs_lift|]. rewrite Hrange. cbn [negb].
  eapply triple_runs; [by eapply runs_bind_key|].
  set (a0 := a_bind (key r) (Some (time r)) a).
  apply (triple_bind _ _ _ _ (λ _ a', window_inv (hist ++ [WElement r]) fired a')).
  - unfold window_process_managed_element. eapply triple_runs; [apply runs_get_timestamp|]. cbn [am_timestamp a0 a_bind].
    rewrite (proj2 (Z.ltb_ge (time r) 0)) by apply (ve_time r Hv). rewrite (ve_assign r Hv). eapply triple_runs; [apply runs_lift|].
    apply (triple_bind _ _ _ _ (λ _ a', a' = foldl (a_window (key r) (block_of r)) a0 (assign (time r)))).
    { apply triple_process_windows; [done| |exact (window_inv_no_none _ _ _ Hi)].
      intros w Hw. destruct (ve_windows r Hv w Hw) as (? & ? & ?). split; [done|]. pose proof (ve_time r Hv).
      pose proof (ws_lateness Hsetup). unfold cleanup_time in *. lia. }
    intros dropped a1 ->.
    destruct (a_windows_facts (key r) (block_of r) a0 (assign (time r)) (ve_distinct r Hv)) as (Ew & Eo & Ek & Ev & Et).
    set (a1 := foldl _ _ _) in *. cbn [a0 a_bind am_watermark am_out am_backend m_set_key km_values km_timers] in Ew, Eo, Ev, Et.
    assert (∀ a2, am_watermark a2 = am_watermark a1 → am_out a2 = am_out a1 → am_backend a2 = am_backend a1 →
      window_inv (hist ++ [WElement r]) fired a2) as Hinv.
    { intros a2 E1 E2 E3. pose proof (wi_watermark _ _ _ Hi) as Hwm. split.
      - rewrite E1, Ew, watermark_after_snoc. apply Hwm.
      - intros n k w. rewrite E3, E1, Ev, Ew, (wi_values _ _ _ Hi), accepted_snoc, <-Hwm. cbn [takes].
        destruct (decide (n = sd_name window_state ∧ am_watermark a < cleanup w)) as [[-> Hlt]|Hn].
        + destruct (decide (key r = k ∧ w ∈ assign (time r) ∧ am_watermark a < cleanup w)) as [(<- & Hw & _)|Hno].
          * rewrite decide_True by done. by rewrite aggregate_snoc.
          * rewrite decide_False by naive_solver. by rewrite app_nil_r.
        + rewrite decide_False by naive_solver. done.
      - intros e. rewrite E3, Et, Ev, (wi_timers _ _ _ Hi). split.
        + intros [(Hts & Hd & [v Hv'])|(w & Hw & Hlt & ->)].
          * split_and!; [done..|]. case_decide; by eexists.
          * cbn. split_and!; [done..|]. rewrite decide_True by done. by eexists.
        + intros (Hts & Hd & Hs). case_decide as Hc; [|by left].
          destruct Hc as (_ & Hk & Hw & Hlt). right. exists (te_namespace e). split_and!; [done..|].
          destruct e; cbn in *; by subst.
      - rewrite E2, Eo, (wi_out _ _ _ Hi). symmetry. apply fired_output_snoc. intros k w Hk. rewrite <-Hwm.
        by apply (wi_fired _ _ _ Hi) in Hk as [_ ?].
      - apply (wi_nodup _ _ _ Hi).
      - intros k w. rewrite (wi_fired _ _ _ Hi), E1, Ew, accepted_snoc, <-Hwm. cbn [takes].
        split; intros [Hne Hle]; (split; [|done]).
        + intros [? _]%app_nil. done.
        + rewrite decide_False, app_nil_r in Hne by naive_solver lia. done.
      - apply (wi_sorted _ _ _ Hi). }
    destruct dropped; [eapply triple_mono; [apply runs_drop|]; intros ? ? [_ ->]; by apply Hinv|apply triple_ret; by apply Hinv].
  - intros _ a1 Hi1. eapply triple_runs; [apply (triple_no_processing_timers descriptors universe _ _ _ _ (λ e, window_inv_event _ _ _ e Hi1))|].
    cbn [for_each]. eapply triple_runs; [apply runs_ret|]. eapply triple_runs; [apply runs_ret|].
    eapply triple_mono; [apply (triple_cleanup descriptors universe repr)|]. by intros ? ? [_ ->].
Qed.

Definition event_window (e : TimerEvent K TimeWindow) : K * TimeWindow := (te_key e, te_namespace e).

(** In the middle of a watermark: the events of [finished] have fired. *)
Record firing (hist : list window_input) (fired : list (K * TimeWindow)) (wm t : Z) (timers : gset (TimerEvent K TimeWindow))
    (finished : list (TimerEvent K TimeWindow)) a : Prop := {
  fi_watermark : am_watermark a = t;
  fi_values n k w : km_values (am_backend a) !! (n, k, w) =
    if decide (n = sd_name window_state ∧ wm < cleanup w ∧ (k, w) ∉ event_window <$> finished)
    then aggregate (accepted (-1) hist k w) else None;
  fi_timers : km_timers (am_backend a) = timers;
  fi_out : am_out a = fired_output hist (fired ++ (event_window <$> finished))
}.

Lemma fired_output_app hist l1 l2 : fired_output hist (l1 ++ l2) = fired_output hist l1 ++ fired_output hist l2.
Proof. unfold fired_output. by rewrite fmap_app, join_app. Qed.

Lemma window_fire hist fired wm t timers finished e a :
  firing hist fired wm t timers finished a →
  te_domain e = EVENT_TIME → wm < cleanup (te_namespace e) → accepted (-1) hist (te_key e) (te_namespace e) ≠ [] →
  event_window e ∉ event_window <$> finished →
  triple repr a (fire_timer (V := V) hooks e) (λ _ a', firing hist fired wm t timers (finished ++ [e]) a').
Proof.
  intros Hf Hd Hlt Hne Hnew. apply (triple_universe descriptors universe repr). intros Hu.
  apply aggregate_Some in Hne as [v Hv]. destruct (aggregate_proper _ _ Hv) as [Hnn [rs Hrs]].
  assert (km_values (am_backend a) !! (sd_name window_state, te_key e, te_namespace e) = Some v) as Hval.
  { rewrite (fi_values _ _ _ _ _ _ _ Hf), decide_True by done. done. }
  specialize (Hu _ _ _ _ Hval). unfold fire_timer. eapply triple_runs; [apply runs_count_fired|].
  eapply triple_runs; [by eapply runs_bind_key|]. cbn [on_timer WindowOperator]. unfold window_on_timer. rewrite Hd.
  eapply triple_runs; [by apply runs_window_value|]. cbn [am_backend a_bind m_set_key km_values].
  rewrite Hval. cbn [default from_option id]. rewrite Hnn.
  eapply triple_runs; [apply (runs_clear descriptors universe repr); [apply (ws_descriptor Hsetup)|done|done]|].
  eapply triple_mono; [by apply runs_emit|]. intros [] a' [_ ->]. destruct Hf as [Ew Ev Et Eo]. split; try done.
  - intros n k w. cbn. rewrite fmap_app. change (event_window <$> [e]) with [event_window e].
    destruct (decide ((sd_name window_state, te_key e, te_namespace e) = (n, k, w))) as [E|Hdiff].
    + injection E as <- <- <-. rewrite lookup_delete_eq, decide_False; [done|]. intros (_ & _ & Hin). apply Hin.
      apply elem_of_app. right. by left.
    + rewrite lookup_delete_ne, Ev by done. apply decide_ext. rewrite elem_of_app, list_elem_of_singleton.
      unfold event_window. naive_solver.
  - cbn. rewrite Eo, fmap_app, app_assoc, (fired_output_app hist (fired ++ _)). f_equal. unfold fired_output. cbn.
    unfold outputs. rewrite Hv. cbn. rewrite Hrs. cbn. by rewrite app_nil_r.
Qed.

(** The events a watermark makes due are those of the pending windows it passes. *)
Definition passed_events hist a t (events : list (TimerEvent K TimeWindow)) : Prop :=
  NoDup events ∧ (∀ e, e ∈ events ↔ e ∈ km_timers (am_backend a) ∧ is_due t EVENT_TIME e) ∧
  (∀ e, e ∈ events → te_domain e = EVENT_TIME ∧ te_timestamp e = cleanup (te_namespace e) ∧
     am_watermark a < cleanup (te_namespace e) <= t ∧ accepted (-1) hist (te_key e) (te_namespace e) ≠ []) ∧
  (∀ e e', e ∈ events → e' ∈ events → event_window e = event_window e' → e = e').

Lemma passed_events_intro hist fired a t events :
  window_inv hist fired a → NoDup events →
  (∀ e, e ∈ events ↔ e ∈ km_timers (am_backend a) ∧ is_due t EVENT_TIME e) → passed_events hist a t events.
Proof.
  intros Hi Hnd Hin.
  assert (Hev : ∀ e, e ∈ events → te_domain e = EVENT_TIME ∧ te_timestamp e = cleanup (te_namespace e) ∧
    am_watermark a < cleanup (te_namespace e) <= t ∧ accepted (-1) hist (te_key e) (te_namespace e) ≠ []).
  { intros e [He [_ Hle]]%Hin. apply (wi_timers _ _ _ Hi) in He as (Hts & Hd & Hs). rewrite (wi_values _ _ _ Hi) in Hs.
    case_decide as Hc; [|by destruct Hs]. split_and!; [done..|lia|lia|]. by apply aggregate_Some. }
  split_and!; [done..|]. intros [t1 k1 w1 d1] [t2 k2 w2 d2] (Hd1 & Ht1 & _)%Hev (Hd2 & Ht2 & _)%Hev [= -> ->]. cbn in *. by subst.
Qed.

Lemma passed_windows hist fired a t events k w :
  window_inv hist fired a → passed_events hist a t events →
  (k, w) ∈ event_window <$> events ↔ accepted (-1) hist k w ≠ [] ∧ am_watermark a < cleanup w <= t.
Proof.
  intros Hi (_ & Hin & Hev & _). rewrite list_elem_of_fmap. split.
  - intros (e & [= -> ->] & (_ & _ & ? & ?)%Hev). done.
  - intros [Hne Hc]. exists (mkTimerEvent (cleanup w) k w EVENT_TIME). split; [done|]. apply Hin.
    split; [|split; [done|cbn; lia]]. apply (wi_timers _ _ _ Hi). cbn. split_and!; [done..|].
    rewrite (wi_values _ _ _ Hi), decide_True by (split; [done|lia]). by apply aggregate_Some.
Qed.

Lemma accepted_watermark hist t k w : accepted (-1) (hist ++ [WWatermark t]) k w = accepted (-1) hist k w.
Proof. by rewrite accepted_snoc, app_nil_r. Qed.

Lemma fired_output_watermark hist t fired : fired_output (hist ++ [WWatermark t]) fired = fired_output hist fired.
Proof. unfold fired_output. f_equal. apply list_fmap_ext. intros j [k w] _. cbn. by rewrite accepted_watermark. Qed.

(** Once all of them have fired the invariant holds at the new watermark. *)
Lemma firing_done hist fired a t events a' :
  window_inv hist fired a → am_watermark a < t → passed_events hist a t events →
  StronglySorted (λ e e', te_timestamp e <= te_timestamp e') events →
  firing hist fired (am_watermark a) t (km_timers (am_backend a) ∖ list_to_set events) events a' →
  window_inv (hist ++ [WWatermark t]) (fired ++ (event_window <$> events)) a'.
Proof.
  intros Hi Hlt Hp Hsort [Ew Ev Et Eo]. pose proof (wi_watermark _ _ _ Hi) as Hwm.
  pose proof (λ k w, passed_windows hist fired a t events k w Hi Hp) as Hfired. destruct Hp as (Hnd & Hin & Hev & Hinj).
  split.
  - rewrite Ew, watermark_after_snoc. cbn [next_watermark]. lia.
  - intros n k w. rewrite Ev, Ew, accepted_watermark. destruct (decide (n = sd_name window_state ∧ t < cleanup w)) as [[-> Hc]|Hno].
    + rewrite decide_True; [done|]. split_and!; [done|lia|]. rewrite Hfired. lia.
    + case_decide as Hc; [|done]. destruct Hc as (-> & Hc & Hnot). rewrite Hfired in Hnot.
      assert (aggregate (accepted (-1) hist k w) = None ∨ accepted (-1) hist k w ≠ []) as [->|Hne]
        by (destruct (accepted (-1) hist k w); [by left|by right]); [done|].
      exfalso. apply Hnot. split; [done|]. split; [done|].
      destruct (Z.le_gt_cases (cleanup w) t); [done|]. exfalso. apply Hno. split; [done|lia].
  - intros e. rewrite Et. rewrite elem_of_difference, elem_of_list_to_set, Hin, (wi_timers _ _ _ Hi).
    rewrite Ev, (wi_values _ _ _ Hi). unfold is_due. split.
    + intros [(Hts & Hd & Hs) Hnot]. split_and!; [done..|]. case_decide as Hc; [|by destruct Hs].
      rewrite decide_True; [done|]. split_and!; [done|lia|]. rewrite Hfired. intros [_ Hle]. apply Hnot.
      split_and!; try done; lia.
    + intros (Hts & Hd & Hs). case_decide as Hc; [|by destruct Hs]. destruct Hc as (_ & Hc & Hnot).
      rewrite Hfired, <-aggregate_Some in Hnot. rewrite decide_True by done. split; [done|]. intros [_ [_ Hle]]. apply Hnot. split; [done|lia].
  - by rewrite Eo, fired_output_watermark.
  - apply NoDup_app. split; [apply (wi_nodup _ _ _ Hi)|]. split.
    + intros [k w] [_ Hle]%(wi_fired _ _ _ Hi) [_ ?]%Hfired. lia.
    + by apply NoDup_fmap_2_strong.
  - intros k w. rewrite elem_of_app, (wi_fired _ _ _ Hi), Hfired, accepted_watermark, Ew. split; [intros [[? ?]|[? ?]]; split; [done|lia|done|lia]|].
    intros [? ?]. destruct (Z.le_gt_cases (cleanup w) (am_watermark a)); [by left|right]. split; [done|lia].
  - apply StronglySorted_app_2; [|apply (wi_sorted _ _ _ Hi)|].
    + intros [k1 w1] [k2 w2] [_ ?]%(wi_fired _ _ _ Hi) [_ ?]%Hfired. cbn. lia.
    + eapply StronglySorted_fmap_in; [|exact Hsort]. intros e e' (_ & -> & _)%Hev (_ & -> & _)%Hev. done.
Qed.

Lemma window_watermark hist fired a t :
  window_inv hist fired a →
  triple repr a (run_input (WWatermark t)) (λ _ a', ∃ fired', window_inv (hist ++ [WWatermark t]) fired' a').
Proof.
  intros Hi. cbn [run_input]. unfold on_event_time_watermark. pose proof (wi_watermark _ _ _ Hi) as Hwm.
  unfold advance_watermark. eapply triple_bind.
  { eapply triple_runs; [apply runs_get_watermark|].
    instantiate (1 := λ events a1, (events = [] ∧ t <= am_watermark a ∧ a1 = a) ∨
      (am_watermark a < t ∧ NoDup events ∧ (∀ e, e ∈ events ↔ e ∈ km_timers (am_backend a) ∧ is_due t EVENT_TIME e) ∧
       StronglySorted (λ e e', te_timestamp e <= te_timestamp e') events ∧
       a1 = a_with_backend (m_retime (λ ts, ts ∖ list_to_set events)) (a_with_watermark t a))).
    destruct (Z.leb_spec t (am_watermark a)); [apply triple_ret; by left|].
    eapply triple_runs; [apply runs_set_watermark|]. eapply triple_mono; [apply (triple_pop descriptors universe repr)|].
    intros due a1 (? & ? & ? & ->). by right. }
  intros events a1 [(-> & Hle & ->)|(Hlt & Hnd & Hin & Hsort & ->)].
  - cbn [for_each]. eapply triple_runs; [apply runs_ret|]. eapply triple_runs; [apply runs_ret|].
    eapply triple_mono; [apply (triple_cleanup descriptors universe repr)|]. intros ? ? [_ ->]. exists fired.
    assert (am_watermark a = watermark_after (-1) (hist ++ [WWatermark t])) as Hwm'
      by (rewrite watermark_after_snoc; cbn [next_watermark]; lia).
    destruct Hi. split; try done.
    + intros n k w. by rewrite accepted_watermark.
    + by rewrite fired_output_watermark.
    + intros k w. by rewrite accepted_watermark.
  - pose proof (passed_events_intro hist fired a t events Hi Hnd Hin) as Hp. pose proof Hp as (_ & _ & Hev & Hinj).
    set (timers := km_timers (am_backend a) ∖ list_to_set events).
    apply (triple_bind _ _ _ _ (λ _ a', firing hist fired (am_watermark a) t timers events a')).
    { eapply triple_mono; [apply (triple_for_each _ _
        (λ rest a', ∃ finished, events = finished ++ rest ∧ firing hist fired (am_watermark a) t timers finished a'))|].
      - exists []. split; [done|]. split; try done.
        + intros n k w. cbn. rewrite (wi_values _ _ _ Hi). apply decide_ext. set_solver.
        + cbn. by rewrite app_nil_r, (wi_out _ _ _ Hi).
      - intros e rest a' (finished & Eq & Hf). assert (e ∈ events) as He by (rewrite Eq; set_solver).
        destruct (Hev e He) as (? & ? & ? & ?).
        eapply triple_mono; [apply (window_fire _ _ _ _ _ _ _ _ Hf); [done|lia|done|]|].
        + intros (e' & Ee & He')%list_elem_of_fmap. apply Hinj in Ee; [|done|rewrite Eq; set_solver]. subst e'.
          rewrite Eq in Hnd. apply NoDup_app in Hnd as (_ & Hd & _). apply (Hd e He'). by left.
        + intros ? a'' Hf'. exists (finished ++ [e]). by rewrite <-app_assoc.
      - intros ? a' (finished & Eq & Hf). rewrite app_nil_r in Eq. by rewrite Eq. }
    intros ? a2 Hf. eapply triple_runs; [apply runs_ret|].
    eapply triple_mono; [apply (triple_cleanup descriptors universe repr)|]. intros ? ? [_ ->].
    exists (fired ++ (event_window <$> events)). by apply (firing_done _ _ a).
Qed.
End window_proof.

(** ** Properties of the operator *)

(** C28. A tumbling or sliding window operator fires every window exactly once, with
    exactly its elements: over any backend that keeps the storage contract, started
    empty, a run over any sequence of valid elements and watermarks does not raise, and
    what it has put out is, in the order of their ends, for every key and window that
    accepted at least one element and whose end plus the allowed lateness the watermark
    has passed, the reduction of the blocks it accepted in order of arrival; an element
    is accepted into the windows it belongs to whose cleanup time is still ahead. *)
Theorem windows_fire_exactly {B K D In R} `{Countable K, !ManagedStateBackend B K TimeWindow (pyresult D R), !KeyCodec K, !Blake2b}
    descriptors universe repr `{!BackendRefines B K TimeWindow (pyresult D R) descriptors universe repr} clock cfg assigner
    reduce_function lateness window_state (block_of : In → pyresult D R) dict_of (record_of : D → R) key_and_timestamp
    assign reduce first key time (inputs : list window_input) s0 bound_key bound_time :
  window_setup descriptors assigner reduce_function lateness window_state dict_of record_of reduce first →
  (∀ r, WElement r ∈ inputs → valid_element universe cfg assigner lateness key_and_timestamp assign key time r) →
  op_repr repr s0 (mkOpModel (mkModel bound_key ∅ ∅) (-1) bound_time [] 0) →
  ∃ s' fired,
    for_each (run_input clock cfg assigner reduce_function lateness window_state block_of dict_of record_of key_and_timestamp)
      inputs s0 = (Ok (), s') ∧
    os_watermark s' = watermark_after (-1) inputs ∧
    os_out s' = fired_output lateness block_of record_of assign reduce first key time inputs fired ∧
    NoDup fired ∧
    (∀ k w, (k, w) ∈ fired ↔
       accepted lateness block_of assign key time (-1) inputs k w ≠ [] ∧ cleanup_time lateness w <= os_watermark s') ∧
    StronglySorted (λ x y, cleanup_time lateness x.2 <= cleanup_time lateness y.2) fired.
Proof.
  intros Hsetup Hvalid Hs0.
  set (inv := window_inv lateness window_state block_of record_of assign reduce first key time).
  assert (inv [] [] (mkOpModel (mkModel bound_key ∅ ∅) (-1) bound_time [] 0)) as Hinit.
  { split; cbn; try done; [|intros e|constructor|intros k w|constructor].
    - intros n k w. rewrite lookup_empty. by case_decide.
    - rewrite lookup_empty. split; [set_solver|by intros (_ & _ & [? ?])].
    - split; [set_solver|by intros [? _]]. }
  set (run := run_input clock cfg assigner reduce_function lateness window_state block_of dict_of record_of key_and_timestamp).
  assert (triple repr (mkOpModel (mkModel bound_key ∅ ∅) (-1) bound_time [] 0) (for_each run inputs)
    (λ _ a', ∃ fired, inv inputs fired a')) as Ht.
  { eapply triple_mono; [apply (triple_for_each repr run
      (λ rest a, ∃ hist fired, inputs = hist ++ rest ∧ inv hist fired a) inputs)|].
    - by exists [], [].
    - intros i rest a (hist & fired & Eq & Hi). destruct i as [r|t].
      + eapply triple_mono; [apply (window_element descriptors universe repr clock cfg) with (1 := Hsetup) (2 := Hi);
          apply Hvalid; rewrite Eq; set_solver|].
        intros ? a' Hi'. exists (hist ++ [WElement r]), fired. by rewrite <-app_assoc.
      + eapply triple_mono; [apply (window_watermark descriptors universe repr clock cfg) with (1 := Hsetup) (2 := Hi)|].
        intros ? a' [fired' Hi']. exists (hist ++ [WWatermark t]), fired'. by rewrite <-app_assoc.
    - intros ? a (hist & fired & Eq & Hi). rewrite app_nil_r in Eq. subst hist. by exists fired. }
  destruct (Ht s0 Hs0) as ([] & s' & a' & E & Hs' & fired & Hi). exists s', fired.
  rewrite (or_watermark _ _ _ Hs'), (or_out _ _ _ Hs'). split_and!; [done|..].
  - apply (wi_watermark _ _ _ _ _ _ _ _ _ _ _ _ Hi).
  - apply (wi_out _ _ _ _ _ _ _ _ _ _ _ _ Hi).
  - apply (wi_nodup _ _ _ _ _ _ _ _ _ _ _ _ Hi).
  - apply (wi_fired _ _ _ _ _ _ _ _ _ _ _ _ Hi).
  - apply (wi_sorted _ _ _ _ _ _ _ _ _ _ _ _ Hi).
Qed.

(** ** Example *)

Fixpoint pyresult_tree {D R} (v : pyresult D R) : gen_tree (D + R + unit) :=
  match v with
  | PyNone => GenLeaf (inr ())
  | PyRecord r => GenLeaf (inl (inr r))
  | PyMapping d => GenLeaf (inl (inl d))
  | PyIter l => GenNode 0 (pyresult_tree <$> l)
  | PyOther => GenNode 1 []
  end.

Fixpoint tree_pyresult {D R} (t : gen_tree (D + R + unit)) : pyresult D R :=
  match t with
  | GenLeaf (inr ()) => PyNone
  | GenLeaf (inl (inr r)) => PyRecord r
  | GenLeaf (inl (inl d)) => PyMapping d
  | GenNode 0 l => PyIter (tree_pyresult <$> l)
  | GenNode _ _ => PyOther
  end.

Lemma tree_pyresult_tree {D R} (v : pyresult D R) : tree_pyresult (pyresult_tree v) = v.
Proof.
  revert v. fix IH 1. intros [|r|d|l|]; cbn [pyresult_tree tree_pyresult]; try done. f_equal.
  induction l as [|v l IHl]; [done|]. cbn. by f_equal.
Qed.

Definition pyresult_serializer {D R} `{Countable D, Countable R} : Serializer (pyresult D R) := {|
  ser_dumps v := countable_dumps (pyresult_tree v);
  ser_loads b := tree_pyresult <$> (countable_loads b : outcome (gen_tree (D + R + unit)));
  ser_loads_dumps v := ltac:(cbn; rewrite countable_loads_dumps; cbn; by rewrite tree_pyresult_tree)
|}.

Module WindowSamples.
Import Samples.
#[export] Instance window_codec : KeyCodec TimeWindow := countable_codec.
#[export] Instance z_window_codec : KeyCodec (Z * TimeWindow) := countable_codec.
#[export] Instance z_window_serializer : Serializer (Z * TimeWindow) := countable_serializer.

Definition state : StateDescriptor (pyresult Z Z) := mkStateDescriptor [x01] pyresult_serializer None.
Definition descriptors (d : StateDescriptor (pyresult Z Z)) : Prop := d = state.

(** One key, ten-second windows; elements carry their time and a number, summed. *)
Definition windows : list TimeWindow := [mkTimeWindow 0 10000; mkTimeWindow 10000 20000].
Definition universe (k : Z) (w : TimeWindow) : Prop := (k, w) ∈ (λ w, (7, w)) <$> windows.
Definition assigner : WindowAssigner := mkAssigner (tumbling_assign 10000 0) false.
Definition assign (ts : Z) : list TimeWindow := match tumbling_assign 10000 0 ts with Ok ws => ws | Err _ => [] end.
Definition number (v : pyresult Z Z) : Z := match v with PyMapping d => d | _ => 0 end.
Definition sum (v b : pyresult Z Z) : pyresult Z Z := PyMapping (number v + number b).
Definition pick (r : Z * Z) : outcome (Z * option pyarg) := Ok (7, Some (AInt r.1)).
Definition config : operator_config := mkConfig 1 (mkKeyGroupRange 0 0) 10.
Definition inputs : list (@window_input (Z * Z)) :=
  [WElement (3000, 1); WElement (12000, 5); WElement (9000, 2); WWatermark 9999; WElement (4000, 8); WWatermark 30000].
Definition start : op_state (backend Z) Z := mkOp MemoryStateBackend_init (-1) None 0 [] 0 0 0.
Definition run : list (@window_input (Z * Z)) → op (backend Z) Z unit :=
  for_each (run_input (λ _, 0) config assigner (λ v b, Ok (sum v b)) 0 state (λ r, PyMapping r.2) (λ v, Ok (number v)) id pick).

Lemma domain : contract_domain descriptors universe.
Proof.
  split.
  - by intros d ->.
  - by intros d d' -> -> _.
  - intros d k ns -> [[= -> ->]|[[= -> ->]|[]%not_elem_of_nil]%elem_of_cons]%elem_of_cons; eexists; vm_compute; reflexivity.
  - intros k ns k' ns' [[= -> ->]|[[= -> ->]|[]%not_elem_of_nil]%elem_of_cons]%elem_of_cons
      [[= -> ->]|[[= -> ->]|[]%not_elem_of_nil]%elem_of_cons]%elem_of_cons E; try done; vm_compute in E; done.
Defined.
End WindowSamples.

Section window_samples.
Import Samples WindowSamples.

(** The first window puts out 1 + 2, the late element is dropped, the second puts out 5. *)
Lemma windows_fire_exactly_witness :
  os_out (WindowSamples.run WindowSamples.inputs WindowSamples.start).2 = [3; 5] ∧
  ∃ s' fired, WindowSamples.run WindowSamples.inputs WindowSamples.start = (Ok (), s') ∧
    os_watermark s' = 30000 ∧ NoDup fired ∧ (7, mkTimeWindow 0 10000) ∈ fired.
Proof.
  split; [vm_compute; reflexivity|].
  pose proof (memory_refines _ _ WindowSamples.domain) as Hrefines.
  destruct (windows_fire_exactly WindowSamples.descriptors WindowSamples.universe
    (memory_repr WindowSamples.descriptors WindowSamples.universe) (λ _, 0) WindowSamples.config
    WindowSamples.assigner (λ v b, Ok (WindowSamples.sum v b)) 0 WindowSamples.state (λ r, PyMapping r.2)
    (λ v, Ok (WindowSamples.number v)) id WindowSamples.pick WindowSamples.assign WindowSamples.sum WindowSamples.number
    (λ _, 7) fst WindowSamples.inputs WindowSamples.start None None) as (s' & fired & Hrun & Hwm & _ & Hnd & Hf & _).
  - split; try done; intros v b; by split_and!.
  - assert (∀ t x, (∃ g, key_group_for_key 7 (AInt 1) = Ok g ∧ KeyGroupRange_contains (mkKeyGroupRange 0 0) g = true) →
      0 <= t → (∀ w, w ∈ WindowSamples.assign t → w ∈ WindowSamples.windows ∧ t < tw_end w ∧ tw_end w - 1 + 0 < 2 ^ 64) →
      WindowSamples.assigner.(assign_windows) t = Ok (WindowSamples.assign t) → NoDup (WindowSamples.assign t) →
      valid_element WindowSamples.universe WindowSamples.config WindowSamples.assigner 0 WindowSamples.pick
        WindowSamples.assign (λ _, 7) fst (t, x)) as Hvalid.
    { intros t x Hg Ht Hw Ha Hnd. split; try done. intros w Hin. destruct (Hw w Hin) as (Hin' & ? & ?). split_and!; [|done|done].
      by apply (list_elem_of_fmap_2 (λ w, (7, w))). }
    intros r Hr.
    repeat (apply elem_of_cons in Hr as [Hr|Hr]; [try discriminate Hr; try (injection Hr as ->)|]);
      try (by apply not_elem_of_nil in Hr).
    all: apply Hvalid; [eexists; split; vm_compute; reflexivity|lia| |vm_compute; reflexivity|apply NoDup_singleton].
    all: intros w ->%list_elem_of_singleton; split_and!; [vm_compute; set_solver|vm_compute; reflexivity|vm_compute; reflexivity].
  - split; try done. apply memory_repr_init. exact WindowSamples.domain.
  - exists s', fired. split_and!; [exact Hrun|by rewrite Hwm|done|].
    apply Hf. rewrite Hwm. split; [vm_compute; done|vm_compute; done].
Defined.
End window_samples.
