(* ===== verification/IntervalJoin.v ===== *)
(** * The event-time interval join

    Models [src/ray/klein/runtime/operator/interval_join_operator.py]: two keyed
    streams, joined when the right timestamp minus the left one lies between two
    bounds, over managed list state.

    Namespaces are integers for state and (side, timestamp) pairs for timers: one type
    here, as the code's namespaces are dynamically typed.  The key and timestamp
    selectors and the join function are parameters. *)
From S2P Require Import Prelude Concrete Durations KeyGroups StateCodec StateBackend BackendContract ManagedState Windows.
Open Scope Z_scope.

(** ** Namespaces *)

Inductive side := LEFT | RIGHT.

#[export] Instance side_eq_dec : EqDecision side.
Proof. solve_decision. Defined.

Inductive join_ns := JTime (timestamp : Z) | JTimer (s : side) (timestamp : Z).

#[export] Instance join_ns_eq_dec : EqDecision join_ns.
Proof. solve_decision. Defined.

#[export] Instance join_ns_countable : Countable join_ns :=
  inj_countable' (A := Z + bool * Z)
    (λ n, match n with JTime t => inl t | JTimer s t => inr (bool_decide (s = LEFT), t) end)
    (λ n, match n with inl t => JTime t | inr (b, t) => JTimer (if b : bool then LEFT else RIGHT) t end)
    ltac:(by intros [?|[] ?]).

(** ** The operator *)

(** The bounds, as set by the constructor. *)
Record join_bounds := mkBounds { lower_ms : Z; upper_ms : Z; join_lateness_ms : Z }.

Definition IntervalJoin_init (lower_bound upper_bound allowed_lateness : Z) : outcome join_bounds :=
  lower ← timedelta_milliseconds lower_bound;
  upper ← timedelta_milliseconds upper_bound;
  lateness ← timedelta_milliseconds allowed_lateness;
  if upper <? lower then Err ValueError
  else if lateness <? 0 then Err ValueError
  else Ok (mkBounds lower upper lateness).

Section join_operator.
Context {B K D Blk In R : Type}.
Abbreviation V := (list D).
Context `{ManagedStateBackend B K join_ns V, KeyCodec K, Blake2b} (clock : nat → Z).

Context (bounds : join_bounds) (left_state right_state : StateDescriptor V)
  (join_function : Blk → Blk → outcome (pyresult D R))
  (input_tag : In → option Z) (block_of : In → Blk) (dict_of : Blk → D) (as_block : D → Blk) (record_of : D → R)
  (left_key right_key : Blk → outcome K) (left_timestamp right_timestamp : Blk → outcome (option pyarg)).

(** [self._lower_ms <= delta <= self._upper_ms]. *)
Definition in_bounds (delta : Z) : bool := (lower_ms bounds <=? delta) && (delta <=? upper_ms bounds).

(** [right_timestamp - timestamp] for a state namespace. *)
Definition namespace_time (ns : join_ns) : outcome Z :=
  match ns with JTime t => Ok t | JTimer _ _ => Err TypeError end.

Definition left_cleanup (timestamp : Z) : Z := timestamp + upper_ms bounds + join_lateness_ms bounds + 1.
Definition right_cleanup (timestamp : Z) : Z := Z.max 0 (timestamp - lower_ms bounds + join_lateness_ms bounds + 1).

(** One round of the loop of [_join_left] over the right namespaces. *)
Definition probe_right (left : Blk) (timestamp : Z) (ns : join_ns) : op B R unit :=
  right_timestamp ← lift (namespace_time ns);
  if negb (in_bounds (right_timestamp - timestamp)) then mret ()
  else list_for clock right_state ns (λ _ right,
         result ← lift (join_function left (as_block right)); emit_result record_of result).

Definition join_left (left : Blk) (timestamp : Z) : op B R unit :=
  watermark ← get_watermark;
  if left_cleanup timestamp <=? watermark then record_late_drop
  else
    namespaces ← state_namespaces right_state;
    _ ← for_each (probe_right left timestamp) (namespaces : list join_ns);
    _ ← list_append clock left_state (JTime timestamp) (dict_of left);
    register_event_time_timer (V := V) (left_cleanup timestamp) (JTimer LEFT timestamp).

Definition probe_left (right : Blk) (timestamp : Z) (ns : join_ns) : op B R unit :=
  left_timestamp ← lift (namespace_time ns);
  if negb (in_bounds (timestamp - left_timestamp)) then mret ()
  else list_for clock left_state ns (λ _ left,
         result ← lift (join_function (as_block left) right); emit_result record_of result).

Definition join_right (right : Blk) (timestamp : Z) : op B R unit :=
  watermark ← get_watermark;
  if right_cleanup timestamp <=? watermark then record_late_drop
  else
    namespaces ← state_namespaces left_state;
    _ ← for_each (probe_left right timestamp) (namespaces : list join_ns);
    _ ← list_append clock right_state (JTime timestamp) (dict_of right);
    register_event_time_timer (V := V) (right_cleanup timestamp) (JTimer RIGHT timestamp).

Definition join_process_managed_element (r : In) : op B R unit :=
  if negb (bool_decide (input_tag r = Some 0) || bool_decide (input_tag r = Some 1)) then raise ValueError
  else
    timestamp ← get_timestamp;
    match timestamp with
    | None => raise ValueError
    | Some ts =>
        if ts <? 0 then raise ValueError
        else if bool_decide (input_tag r = Some 0) then join_left (block_of r) ts
        else join_right (block_of r) ts
    end.

Definition join_on_timer (event : TimerEvent K join_ns) : op B R unit :=
  match te_domain event with
  | PROCESSING_TIME => mret ()
  | EVENT_TIME =>
      match te_namespace event with
      | JTime _ => raise TypeError
      | JTimer s timestamp => state_clear (if decide (s = LEFT) then left_state else right_state) (JTime timestamp)
      end
  end.

Definition join_key_and_timestamp (r : In) : outcome (K * option pyarg) :=
  if bool_decide (input_tag r = Some 0) then
    key ← left_key (block_of r); timestamp ← left_timestamp (block_of r); Ok (key, timestamp)
  else if bool_decide (input_tag r = Some 1) then
    key ← right_key (block_of r); timestamp ← right_timestamp (block_of r); Ok (key, timestamp)
  else Err ValueError.

Definition IntervalJoinOperator : operator_hooks :=
  mkHooks join_process_managed_element join_on_timer (mret ()) join_key_and_timestamp.
End join_operator.

(** ** The join on the abstract backend *)

Section join_proof.
Context {B K D Blk In R : Type} `{Countable K}.
Abbreviation V := (list D).
Context `{!ManagedStateBackend B K join_ns V, !KeyCodec K, !Blake2b}
  (descriptors : StateDescriptor V → Prop) (universe : K → join_ns → Prop)
  (repr : B → keyed_model K join_ns V → Prop)
  `{!BackendRefines B K join_ns V descriptors universe repr} (clock : nat → Z).

Context (cfg : operator_config) (bounds : join_bounds) (left_state right_state : StateDescriptor V)
  (join_function : Blk → Blk → outcome (pyresult D R))
  (input_tag : In → option Z) (block_of : In → Blk) (dict_of : Blk → D) (as_block : D → Blk) (record_of : D → R)
  (left_key right_key : Blk → outcome K) (left_timestamp right_timestamp : Blk → outcome (option pyarg)).

(** The records a pair of blocks joins into; the side, key and time of an input. *)
Context (joined : Blk → Blk → list R) (side_of : In → side) (key : In → K) (time : In → Z).

Implicit Types (a : op_model K join_ns V R) (k : K) (s : side) (r q : In) (t wm : Z).

Abbreviation hooks := (IntervalJoinOperator clock bounds left_state right_state join_function input_tag block_of dict_of
  as_block record_of left_key right_key left_timestamp right_timestamp).

Definition cleanup_of s t : Z := match s with LEFT => left_cleanup bounds t | RIGHT => right_cleanup bounds t end.
Definition state_of s : StateDescriptor V := match s with LEFT => left_state | RIGHT => right_state end.
Definition other s : side := match s with LEFT => RIGHT | RIGHT => LEFT end.

(** [right - left], for an input and the time of one of the other side. *)
Definition delta r t : Z := match side_of r with LEFT => t - time r | RIGHT => time r - t end.

Definition pair_output r (d : D) : list R :=
  match side_of r with LEFT => joined (block_of r) (as_block d) | RIGHT => joined (as_block d) (block_of r) end.

Record join_setup : Prop := {
  js_left : descriptors left_state;
  js_right : descriptors right_state;
  js_names : sd_name left_state ≠ sd_name right_state;
  js_joined b b' : ∃ v, join_function b b' = Ok v ∧ emitted record_of v = Some (joined b b')
}.

Record valid_join_input r : Prop := {
  vj_tag : input_tag r = Some (match side_of r with LEFT => 0 | RIGHT => 1 end);
  vj_selected : join_key_and_timestamp input_tag block_of left_key right_key left_timestamp right_timestamp r
    = Ok (key r, Some (AInt (time r)));
  vj_time : 0 <= time r;
  vj_universe : universe (key r) (JTime (time r)) ∧ universe (key r) (JTimer (side_of r) (time r));
  vj_cleanup : cleanup_of (side_of r) (time r) < 2 ^ 64;
  vj_owned : ∃ g, key_group_for_key (key r) (AInt (oc_max_parallelism cfg)) = Ok g ∧
    KeyGroupRange_contains (oc_key_group_range cfg) g = true
}.

(** *** What the join must put out *)

(** An earlier input of the other side that the new one joins with: same key, times
    within the bounds, and not yet cleaned up. *)
Definition matches wm r q : Prop :=
  side_of q = other (side_of r) ∧ key q = key r ∧ lower_ms bounds <= delta r (time q) <= upper_ms bounds ∧
  wm < cleanup_of (side_of q) (time q).

Lemma in_bounds_true d : in_bounds bounds d = true ↔ lower_ms bounds <= d <= upper_ms bounds.
Proof. unfold in_bounds. rewrite andb_true_iff, !Z.leb_le. done. Qed.

#[export] Instance matches_dec wm r q : Decision (matches wm r q).
Proof. unfold matches. apply _. Defined.

Definition element_output wm (seen : list In) r : list R :=
  if decide (wm < cleanup_of (side_of r) (time r))
  then mjoin ((λ q, pair_output r (dict_of (block_of q))) <$> filter (matches wm r) seen) else [].

Fixpoint join_output wm (seen : list In) (inputs : list (@window_input In)) : list R :=
  match inputs with
  | [] => []
  | WElement r :: inputs => element_output wm seen r ++ join_output wm (seen ++ [r]) inputs
  | WWatermark t :: inputs => join_output (Z.max wm t) seen inputs
  end.

Definition elements (hist : list (@window_input In)) : list In :=
  omap (λ i, match i with WElement r => Some r | WWatermark _ => None end) hist.

Lemma elements_snoc hist i : elements (hist ++ [i]) = elements hist ++ elements [i].
Proof. unfold elements. apply omap_app. Qed.

Lemma join_output_snoc wm seen hist i :
  join_output wm seen (hist ++ [i]) = join_output wm seen hist ++
    match i with WElement r => element_output (watermark_after wm hist) (seen ++ elements hist) r | WWatermark _ => [] end.
Proof.
  revert wm seen. induction hist as [|j hist IH]; intros wm seen; cbn [app join_output].
  - destruct i; cbn; by rewrite ?app_nil_r.
  - destruct j as [q|u]; rewrite IH; [|done]. rewrite app_assoc. f_equal. destruct i as [r|v]; [|done].
    change (elements (WElement q :: hist)) with ([q] ++ elements hist). by rewrite (app_assoc seen).
Qed.

(** *** The join without cleanup

    What the join means, whatever the code stores: each element with every earlier one
    of the other side that has its key and lies within the bounds. *)
Definition pairs r q : Prop :=
  side_of q = other (side_of r) ∧ key q = key r ∧ lower_ms bounds <= delta r (time q) <= upper_ms bounds.

#[export] Instance pairs_dec r q : Decision (pairs r q).
Proof. unfold pairs. apply _. Defined.

Fixpoint all_pairs (seen : list In) (inputs : list (@window_input In)) : list R :=
  match inputs with
  | [] => []
  | WElement r :: inputs =>
      mjoin ((λ q, pair_output r (dict_of (block_of q))) <$> filter (pairs r) seen) ++ all_pairs (seen ++ [r]) inputs
  | WWatermark _ :: inputs => all_pairs seen inputs
  end.

(** Every element comes before the watermark has passed it by more than the lateness. *)
Fixpoint on_time wm (inputs : list (@window_input In)) : Prop :=
  match inputs with
  | [] => True
  | WElement r :: inputs => wm <= time r + join_lateness_ms bounds ∧ on_time wm inputs
  | WWatermark t :: inputs => on_time (Z.max wm t) inputs
  end.

(** When the bounds admit equal times, an element on time is before its own cleanup
    and before that of everything it is to be joined with. *)
Lemma on_time_kept wm r :
  lower_ms bounds <= 0 <= upper_ms bounds → wm <= time r + join_lateness_ms bounds →
  wm < cleanup_of (side_of r) (time r) ∧ ∀ q, pairs r q ↔ matches wm r q.
Proof.
  intros Hb Hw. split.
  - unfold cleanup_of, left_cleanup, right_cleanup. destruct (side_of r); lia.
  - intros q. unfold matches, pairs, delta, cleanup_of, left_cleanup, right_cleanup.
    split; [|tauto]. intros (Hs & Hk & Hd). split_and!; [done..|tauto|tauto|].
    rewrite Hs. destruct (side_of r); cbn [other]; lia.
Qed.

Lemma join_output_on_time wm seen inputs :
  lower_ms bounds <= 0 <= upper_ms bounds → on_time wm inputs → join_output wm seen inputs = all_pairs seen inputs.
Proof.
  intros Hb. revert wm seen. induction inputs as [|[r|t] inputs IH]; intros wm seen; cbn [on_time join_output all_pairs].
  - done.
  - intros [Hw Ht]. destruct (on_time_kept wm r Hb Hw) as [Hr Hq]. f_equal; [|by apply IH].
    unfold element_output. rewrite decide_True by done. do 2 f_equal. apply filter_ext_in. intros q _. symmetry. apply Hq.
  - apply IH.
Qed.

(** The stored items of an address. *)
Definition arrivals (hist : list (@window_input In)) s k t : list D :=
  (λ r, dict_of (block_of r)) <$> filter (λ r, side_of r = s ∧ key r = k ∧ time r = t) (elements hist).

Definition nonempty (l : list D) : option V := match l with [] => None | _ => Some l end.

Lemma nonempty_Some (l : list D) : is_Some (nonempty l) ↔ l ≠ [].
Proof. destruct l; cbn; [split; [by intros [? ?]|done]|split; [done|by eexists]]. Qed.

Record join_inv (hist : list (@window_input In)) a : Prop := {
  ji_watermark : am_watermark a = watermark_after (-1) hist;
  ji_values s k t : km_values (am_backend a) !! (sd_name (state_of s), k, JTime t) =
    if decide (am_watermark a < cleanup_of s t) then nonempty (arrivals hist s k t) else None;
  ji_namespaces n k ns : is_Some (km_values (am_backend a) !! (n, k, ns)) → ∃ t, ns = JTime t;
  ji_timers e : e ∈ km_timers (am_backend a) ↔ ∃ s t, e = mkTimerEvent (cleanup_of s t) (te_key e) (JTimer s t) EVENT_TIME ∧
    is_Some (km_values (am_backend a) !! (sd_name (state_of s), te_key e, JTime t));
  ji_out : am_out a ≡ₚ join_output (-1) [] hist
}.

Lemma join_inv_event hist a e : join_inv hist a → e ∈ km_timers (am_backend a) → te_domain e = EVENT_TIME.
Proof. intros Hi (s & t & -> & _)%(ji_timers _ _ Hi). done. Qed.

Lemma watermark_after_ge wm hist : wm <= watermark_after (In := In) wm hist.
Proof.
  revert wm. induction hist as [|i hist IH]; intros wm; [unfold watermark_after; cbn; lia|].
  change (watermark_after wm (i :: hist)) with (watermark_after (next_watermark wm i) hist).
  specialize (IH (next_watermark wm i)). destruct i; cbn in *; lia.
Qed.

Context (Hsetup : join_setup).

Lemma state_of_descriptor s : descriptors (state_of s).
Proof. destruct s; [apply (js_left Hsetup)|apply (js_right Hsetup)]. Qed.

Lemma state_of_inj s s' : sd_name (state_of s) = sd_name (state_of s') → s = s'.
Proof. pose proof (js_names Hsetup). destruct s, s'; cbn; congruence. Qed.

Lemma runs_emit_join a b b' (rs : list R) :
  runs repr (a_collect rs a) (result ← lift (join_function b b'); emit_result record_of result) ()
    (a_collect (joined b b') (a_collect rs a)).
Proof.
  destruct (js_joined Hsetup b b') as (v & -> & Hv). eapply triple_runs; [apply runs_lift|]. by apply runs_emit.
Qed.

(** The probe loop for either side. *)
Definition probe r (ns : join_ns) : op B R unit :=
  match side_of r with
  | LEFT => probe_right clock bounds right_state join_function as_block record_of (block_of r) (time r) ns
  | RIGHT => probe_left clock bounds left_state join_function as_block record_of (block_of r) (time r) ns
  end.

Lemma runs_probe a r t rs :
  km_key (am_backend a) = Some (key r) → universe (key r) (JTime t) →
  runs repr (a_collect rs a) (probe r (JTime t)) ()
    (a_collect (if in_bounds bounds (delta r t)
                then mjoin (pair_output r <$> list_at a (state_of (other (side_of r))) (key r) (JTime t)) else []) (a_collect rs a)).
Proof.
  intros Hk Hu. unfold probe, pair_output, delta. destruct (side_of r); cbn [other state_of].
  - unfold probe_right. cbn [namespace_time]. eapply triple_runs; [apply runs_lift|].
    destruct (in_bounds bounds (t - time r)); cbn [negb]; [|rewrite a_collect_nil; apply runs_ret].
    apply (runs_list_for descriptors universe repr clock (a_collect rs a) right_state (key r) (JTime t) _
      (λ d, joined (block_of r) (as_block d))); [apply (js_right Hsetup)|done..|]. intros rs' _ d _. apply runs_emit_join.
  - unfold probe_left. cbn [namespace_time]. eapply triple_runs; [apply runs_lift|].
    destruct (in_bounds bounds (time r - t)); cbn [negb]; [|rewrite a_collect_nil; apply runs_ret].
    apply (runs_list_for descriptors universe repr clock (a_collect rs a) left_state (key r) (JTime t) _
      (λ d, joined (as_block d) (block_of r))); [apply (js_left Hsetup)|done..|]. intros rs' _ d _. apply runs_emit_join.
Qed.

Lemma runs_probes a r (ts : list Z) rs :
  km_key (am_backend a) = Some (key r) → (∀ t, t ∈ ts → universe (key r) (JTime t)) →
  runs repr (a_collect rs a) (for_each (probe r) (JTime <$> ts)) ()
    (a_collect (mjoin ((λ t, if in_bounds bounds (delta r t)
                then mjoin (pair_output r <$> list_at a (state_of (other (side_of r))) (key r) (JTime t)) else []) <$> ts)) (a_collect rs a)).
Proof.
  intros Hk. revert rs. induction ts as [|t ts IH]; intros rs Hu; [cbn; rewrite a_collect_nil; apply runs_ret|].
  rewrite !fmap_cons. cbn [for_each mjoin list_join]. eapply triple_runs; [apply runs_probe; [done|apply Hu; by left]|].
  rewrite <-a_collect_app, a_collect_app. apply IH. intros u Hin. apply Hu. by right.
Qed.

(** Probing the stored times one by one joins with exactly the matching inputs. *)
Lemma probes_output hist a r (ts : list Z) :
  join_inv hist a → NoDup ts →
  (∀ t, t ∈ ts ↔ is_Some (km_values (am_backend a) !! (sd_name (state_of (other (side_of r))), key r, JTime t))) →
  am_watermark a < cleanup_of (side_of r) (time r) →
  mjoin ((λ t, if in_bounds bounds (delta r t)
                then mjoin (pair_output r <$> list_at a (state_of (other (side_of r))) (key r) (JTime t)) else []) <$> ts)
    ≡ₚ element_output (am_watermark a) (elements hist) r.
Proof.
  intros Hi Hnd Hts Hlt. unfold element_output. rewrite decide_True by done.
  set (g := λ q, pair_output r (dict_of (block_of q))).
  set (same := λ q, side_of q = other (side_of r) ∧ key q = key r).
  set (L := filter (λ q, in_bounds bounds (delta r (time q)) = true) (filter same (elements hist))).
  assert (∀ t, t ∈ ts ↔ am_watermark a < cleanup_of (other (side_of r)) t ∧ arrivals hist (other (side_of r)) (key r) t ≠ []) as Hts'.
  { intros t. rewrite Hts, (ji_values _ _ Hi). case_decide; [rewrite nonempty_Some; tauto|]. split; [by intros [? ?]|tauto]. }
  rewrite !join_fmap_bind.
  rewrite (bind_ext_in _ (λ t, filter (λ q, time q = t) L ≫= g)).
  - rewrite <-bind_bind, <-(join_fmap_bind _ ts), filter_partition_perm by done.
    assert (filter (λ q, time q ∈ ts) L = filter (matches (am_watermark a) r) (elements hist)) as ->; [|done].
    unfold L. rewrite <-!filter_and. apply filter_ext_in. intros q Hq. unfold matches, same.
    rewrite Hts', <-in_bounds_true. split.
    { intros (((Hc & _) & Hb) & Hs & Hk). split_and!; [done..|]. by rewrite Hs. }
    intros (Hs & Hk & Hb & Hc).
    rewrite Hs in Hc. split_and!; try done. unfold arrivals. intros Hnil%fmap_nil_inv.
    eapply (not_elem_of_nil q). rewrite <-Hnil. by apply list_elem_of_filter.
  - intros t Ht. pose proof (proj1 (Hts' t) Ht) as [Hc Hne]. unfold list_at. rewrite (ji_values _ _ Hi), decide_True by done.
    apply nonempty_Some in Hne as [l Hl]. assert (l = arrivals hist (other (side_of r)) (key r) t) as ->
      by (destruct (arrivals _ _ _ _); [done|by injection Hl as <-]). rewrite Hl. cbn [default from_option id].
    unfold arrivals, L. rewrite join_fmap_bind, list_fmap_bind.
    destruct (in_bounds bounds (delta r t)) eqn:Eb.
    + rewrite <-!filter_and. f_equal. apply filter_ext_in. intros q _. unfold same. split; [|tauto].
      intros (? & ? & <-). done.
    + rewrite filter_none; [done|]. intros q [Hb _]%list_elem_of_filter <-. congruence.
Qed.

Definition run_join (i : @window_input In) : op B R unit :=
  match i with
  | WElement r => process_element (V := V) clock cfg hooks r
  | WWatermark t => on_event_time_watermark (V := V) clock cfg hooks t
  end.

Lemma arrivals_snoc hist i s k t :
  arrivals (hist ++ [i]) s k t = arrivals hist s k t ++
    match i with
    | WElement r => if decide (side_of r = s ∧ key r = k ∧ time r = t) then [dict_of (block_of r)] else []
    | WWatermark _ => []
    end.
Proof.
  unfold arrivals. rewrite elements_snoc, filter_app, fmap_app. f_equal. destruct i as [r|u]; [|done].
  change (elements [WElement r]) with [r]. rewrite filter_cons, filter_nil. by case_decide.
Qed.

(** The state after an element of the join: [kept] says whether it was stored. *)
Lemma join_inv_element hist a a' r :
  join_inv hist a → am_watermark a' = am_watermark a →
  (if decide (am_watermark a < cleanup_of (side_of r) (time r)) then
     km_values (am_backend a') = <[(sd_name (state_of (side_of r)), key r, JTime (time r)) :=
       list_at a (state_of (side_of r)) (key r) (JTime (time r)) ++ [dict_of (block_of r)]]> (km_values (am_backend a)) ∧
     km_timers (am_backend a') = {[mkTimerEvent (cleanup_of (side_of r) (time r)) (key r) (JTimer (side_of r) (time r)) EVENT_TIME]}
       ∪ km_timers (am_backend a)
   else km_values (am_backend a') = km_values (am_backend a) ∧ km_timers (am_backend a') = km_timers (am_backend a)) →
  am_out a' ≡ₚ am_out a ++ element_output (am_watermark a) (elements hist) r →
  join_inv (hist ++ [WElement r]) a'.
Proof.
  intros Hi Hw Hs Ho. pose proof (ji_watermark _ _ Hi) as Hwm.
  assert (Hvals : ∀ s k t, km_values (am_backend a') !! (sd_name (state_of s), k, JTime t) =
    if decide (am_watermark a < cleanup_of s t) then nonempty (arrivals (hist ++ [WElement r]) s k t) else None).
  { intros s k t. rewrite arrivals_snoc. destruct (decide (am_watermark a < cleanup_of (side_of r) (time r))) as [Hlt|Hge];
      destruct Hs as [-> _].
    - destruct (decide ((sd_name (state_of (side_of r)), key r, JTime (time r)) = (sd_name (state_of s), k, JTime t))) as [E|Hne].
      + injection E as E <- <-. apply state_of_inj in E as <-. rewrite lookup_insert_eq, !decide_True by done.
        unfold list_at. rewrite (ji_values _ _ Hi), decide_True by done. destruct (arrivals _ _ _ _); done.
      + rewrite lookup_insert_ne by done. rewrite (ji_values _ _ Hi). case_decide; [|done].
        rewrite decide_False, app_nil_r; [done|]. intros (<- & <- & <-). done.
    - rewrite (ji_values _ _ Hi). case_decide; [|done]. rewrite decide_False, app_nil_r; [done|].
      intros (<- & <- & <-). lia. }
  split.
  - rewrite Hw, watermark_after_snoc. apply Hwm.
  - intros s k t. rewrite Hvals, Hw. done.
  - intros n k ns Hv. destruct (decide (am_watermark a < cleanup_of (side_of r) (time r))); destruct Hs as [E _]; rewrite E in Hv.
    + destruct Hv as [v [[E' _]|[_ Hv]]%lookup_insert_Some]; [injection E' as <- <- <-; eauto|].
      apply (ji_namespaces _ _ Hi n k). by eexists.
    + by apply (ji_namespaces _ _ Hi n k).
  - assert (∀ s k t, is_Some (km_values (am_backend a') !! (sd_name (state_of s), k, JTime t)) ↔
      am_watermark a < cleanup_of s t ∧ (arrivals hist s k t ≠ [] ∨ (side_of r = s ∧ key r = k ∧ time r = t))) as Hnew.
    { intros s k t. rewrite Hvals, arrivals_snoc. destruct (decide (am_watermark a < cleanup_of s t)) as [Hc|Hc]; [|split; [by intros [? ?]|tauto]]. rewrite nonempty_Some.
      destruct (decide (side_of r = s ∧ key r = k ∧ time r = t)) as [Hyes|Hno].
      - split; [by auto|]. intros _. by destruct (arrivals _ _ _ _).
      - rewrite app_nil_r. tauto. }
    assert (∀ s k t, is_Some (km_values (am_backend a) !! (sd_name (state_of s), k, JTime t)) ↔
      am_watermark a < cleanup_of s t ∧ arrivals hist s k t ≠ []) as Hold.
    { intros s k t. rewrite (ji_values _ _ Hi). destruct (decide (am_watermark a < cleanup_of s t)); [rewrite nonempty_Some; tauto|split; [by intros [? ?]|tauto]]. }
    intros e. setoid_rewrite Hnew. pose proof (ji_timers _ _ Hi e) as Ht. setoid_rewrite Hold in Ht.
    destruct (decide (am_watermark a < cleanup_of (side_of r) (time r))) as [Hlt|Hge]; destruct Hs as [_ ->].
    + rewrite elem_of_union, elem_of_singleton, Ht. split.
      * intros [->|(s & t & E & Hc & Hne)]; [exists (side_of r), (time r); cbn; split; [done|auto]|exists s, t; auto].
      * intros (s & t & E & Hc & [Hne|(<- & Hk & <-)]); [right; eauto|left]. by rewrite Hk.
    + rewrite Ht. split; intros (s & t & E & Hc & Hne); exists s, t; [auto|].
      destruct Hne as [?|(<- & <- & <-)]; [done|lia].
  - rewrite join_output_snoc, Ho, (ji_out _ _ Hi), <-Hwm. done.
Qed.

(** [_join_left] or [_join_right], by side. *)
Definition join_side r : op B R unit :=
  match side_of r with
  | LEFT => join_left clock bounds left_state right_state join_function dict_of as_block record_of (block_of r) (time r)
  | RIGHT => join_right clock bounds left_state right_state join_function dict_of as_block record_of (block_of r) (time r)
  end.

Lemma join_side_eq r : join_side r =
  (watermark ← get_watermark;
   if cleanup_of (side_of r) (time r) <=? watermark then record_late_drop
   else
     namespaces ← state_namespaces (state_of (other (side_of r)));
     _ ← for_each (probe r) (namespaces : list join_ns);
     _ ← list_append clock (state_of (side_of r)) (JTime (time r)) (dict_of (block_of r));
     register_event_time_timer (V := V) (cleanup_of (side_of r) (time r)) (JTimer (side_of r) (time r))).
Proof. unfold join_side, probe. by destruct (side_of r). Qed.

Lemma join_namespaces hist a k (l : list join_ns) s :
  join_inv hist a → NoDup l → (∀ ns, ns ∈ l ↔ is_Some (km_values (am_backend a) !! (sd_name (state_of s), k, ns))) →
  ∃ ts, l = JTime <$> ts ∧ NoDup ts ∧ ∀ t, t ∈ ts ↔ is_Some (km_values (am_backend a) !! (sd_name (state_of s), k, JTime t)).
Proof.
  intros Hi Hnd Hin.
  assert (∃ ts, l = JTime <$> ts) as [ts ->].
  { assert (∀ ns, ns ∈ l → ∃ t, ns = JTime t) as Hall by (intros ns Hns%Hin; by apply (ji_namespaces _ _ Hi _ _ _ Hns)).
    clear Hin Hnd. induction l as [|ns l IH]; [by exists []|]. destruct (Hall ns) as [t ->]; [by left|].
    destruct IH as [ts ->]; [intros; apply Hall; by right|]. by exists (t :: ts). }
  exists ts. split_and!; [done|by apply NoDup_fmap_1 in Hnd|]. intros t. rewrite <-Hin. split.
  - apply list_elem_of_fmap_2.
  - intros (u & [= ->] & ?)%list_elem_of_fmap. done.
Qed.

Lemma triple_join_side hist a0 a r :
  join_inv hist a → valid_join_input r → a0 = a_bind (key r) (Some (time r)) a →
  triple repr a0 (join_side r) (λ _ a', join_inv (hist ++ [WElement r]) a').
Proof.
  intros Hi Hv ->. set (a0 := a_bind _ _ a). rewrite join_side_eq. eapply triple_runs; [apply runs_get_watermark|].
  change (am_watermark a0) with (am_watermark a).
  assert (Ha0 : ∀ d k ns, list_at a0 d k ns = list_at a d k ns) by done.
  destruct (Z.leb_spec (cleanup_of (side_of r) (time r)) (am_watermark a)) as [Hle|Hlt].
  - eapply triple_mono; [apply runs_drop|]. intros ? a' [_ ->]. apply (join_inv_element hist a); try done.
    + rewrite decide_False by lia. done.
    + unfold element_output. rewrite decide_False by lia. by rewrite app_nil_r.
  - destruct (vj_universe r Hv) as [Hu1 Hu2].
    apply (triple_universe descriptors universe repr). intros Hu.
    eapply triple_bind.
    { eapply (triple_namespaces descriptors universe repr); [apply state_of_descriptor|done|exact Hu1]. }
    intros l ? (-> & Hnd & Hin). destruct (join_namespaces hist a (key r) l (other (side_of r)) Hi Hnd Hin) as (ts & -> & Hndt & Hts).
    rewrite <-(a_collect_nil a0).
    eapply triple_runs; [apply runs_probes; [done|]; intros t [v Ht]%Hts; by eapply Hu|].
    rewrite a_collect_app. cbn [app].
    eapply triple_runs; [apply (runs_list_append descriptors universe repr); [apply state_of_descriptor|done|exact Hu1]|].
    eapply triple_mono.
    { apply (runs_register descriptors universe repr _ (key r)); [done|exact Hu2|].
      pose proof (vj_cleanup r Hv). pose proof (watermark_after_ge (-1) hist). pose proof (ji_watermark _ _ Hi). lia. }
    intros ? a' [_ ->]. apply (join_inv_element hist a); try done.
    + rewrite decide_True by done. done.
    + apply Permutation_app_head. exact (probes_output hist a r ts Hi Hndt Hts Hlt).
Qed.

Lemma join_element hist a r :
  join_inv hist a → valid_join_input r →
  triple repr a (run_join (WElement r)) (λ _ a', join_inv (hist ++ [WElement r]) a').
Proof.
  intros Hi Hv. destruct (vj_owned r Hv) as (g & Hg & Hrange). cbn [run_join]. unfold process_element.
  cbn [IntervalJoinOperator ManagedState.key_and_timestamp process_managed_element after_time_advanced].
  rewrite (vj_selected r Hv). eapply triple_runs; [apply runs_lift|]. cbn [fst snd check_timestamp arg_int].
  rewrite (proj2 (Z.ltb_ge (time r) 0)) by apply (vj_time r Hv). eapply triple_runs; [apply runs_lift|].
  rewrite Hg. eapply triple_runs; [apply runs_lift|]. rewrite Hrange. cbn [negb].
  eapply triple_runs; [by apply (runs_bind_key descriptors universe repr)|].
  apply (triple_bind _ _ _ _ (λ _ a', join_inv (hist ++ [WElement r]) a')).
  - pose proof (triple_join_side hist _ a r Hi Hv eq_refl) as Ht. unfold join_side in Ht.
    unfold join_process_managed_element. rewrite (vj_tag r Hv). destruct (side_of r).
    all: cbn [bool_decide decide orb negb].
    all: eapply triple_runs; [apply runs_get_timestamp|]; cbn [am_timestamp a_bind].
    all: rewrite (proj2 (Z.ltb_ge (time r) 0)) by apply (vj_time r Hv); exact Ht.
  - intros _ a1 Hi1.
    eapply triple_runs; [apply (triple_no_processing_timers descriptors universe _ _ _ _ (λ e, join_inv_event _ _ e Hi1))|].
    cbn [for_each]. eapply triple_runs; [apply runs_ret|]. eapply triple_runs; [apply runs_ret|].
    eapply triple_mono; [apply (triple_cleanup descriptors universe repr)|]. by intros ? ? [_ ->].
Qed.

(** In the middle of a watermark: the events of [finished] have cleared their state. *)
Record clearing (hist : list (@window_input In)) wm t (timers : gset (TimerEvent K join_ns)) (out : list R)
    (finished : list (TimerEvent K join_ns)) a : Prop := {
  cl_watermark : am_watermark a = t;
  cl_values s k u : km_values (am_backend a) !! (sd_name (state_of s), k, JTime u) =
    if decide (wm < cleanup_of s u ∧ (k, JTimer s u) ∉ (λ e, (te_key e, te_namespace e)) <$> finished)
    then nonempty (arrivals hist s k u) else None;
  cl_namespaces n k ns : is_Some (km_values (am_backend a) !! (n, k, ns)) → ∃ u, ns = JTime u;
  cl_timers : km_timers (am_backend a) = timers;
  cl_out : am_out a = out
}.

Lemma join_clear hist wm t timers out finished e s u a :
  clearing hist wm t timers out finished a →
  e = mkTimerEvent (cleanup_of s u) (te_key e) (JTimer s u) EVENT_TIME →
  wm < cleanup_of s u → arrivals hist s (te_key e) u ≠ [] →
  (te_key e, te_namespace e) ∉ (λ e, (te_key e, te_namespace e)) <$> finished →
  triple repr a (fire_timer (V := V) hooks e) (λ _ a', clearing hist wm t timers out (finished ++ [e]) a').
Proof.
  intros Hc He Hlt Hne Hnew. apply (triple_universe descriptors universe repr). intros Hu.
  assert (te_namespace e = JTimer s u ∧ te_domain e = EVENT_TIME) as [Hns Hd] by (rewrite He; done).
  apply nonempty_Some in Hne as [v Hv].
  assert (universe (te_key e) (JTime u)) as Huu.
  { eapply Hu. rewrite (cl_values _ _ _ _ _ _ _ Hc), decide_True by (by rewrite <-Hns). exact Hv. }
  unfold fire_timer. eapply triple_runs; [apply runs_count_fired|].
  eapply triple_runs; [by apply (runs_bind_key descriptors universe repr)|]. cbn [on_timer IntervalJoinOperator].
  unfold join_on_timer. rewrite Hd, Hns.
  assert ((if decide (s = LEFT) then left_state else right_state) = state_of s) as -> by (by destruct s).
  eapply triple_mono; [apply (runs_clear descriptors universe repr _ _ (te_key e)); [apply state_of_descriptor|done|exact Huu]|].
  intros ? a' [_ ->]. destruct Hc as [Ew Ev Ens Et Eo]. split; try done.
  - intros s' k' u'. cbn. rewrite fmap_app. destruct (decide ((sd_name (state_of s), te_key e, JTime u) = (sd_name (state_of s'), k', JTime u'))) as [E|Hdiff].
    + injection E as E <- <-. apply state_of_inj in E as <-. rewrite lookup_delete_eq, decide_False; [done|].
      intros [_ Hin]. apply Hin, elem_of_app. right. rewrite <-Hns. by left.
    + rewrite lookup_delete_ne, Ev by done. apply decide_ext. rewrite elem_of_app. cbn. rewrite list_elem_of_singleton, Hns.
      naive_solver.
  - intros n k ns. cbn. intros [v' [_ Hv']%lookup_delete_Some]. apply (Ens n k). by eexists.
Qed.

(** The events a watermark makes due are those of the stored addresses it passes. *)
Definition expired_events hist wm t (events : list (TimerEvent K join_ns)) : Prop :=
  ∀ e, e ∈ events ↔ ∃ s u, e = mkTimerEvent (cleanup_of s u) (te_key e) (JTimer s u) EVENT_TIME ∧
    wm < cleanup_of s u <= t ∧ arrivals hist s (te_key e) u ≠ [].

Lemma expired_events_intro hist a t events :
  join_inv hist a → (∀ e, e ∈ events ↔ e ∈ km_timers (am_backend a) ∧ is_due t EVENT_TIME e) →
  expired_events hist (am_watermark a) t events.
Proof.
  intros Hi Hin e. rewrite Hin, (ji_timers _ _ Hi). unfold is_due. split.
  - intros [(s & u & E & Hs) [_ Hle]]. exists s, u. rewrite E in Hle. cbn in Hle. split; [done|].
    rewrite (ji_values _ _ Hi) in Hs. case_decide; [|by destruct Hs]. apply nonempty_Some in Hs. split; [lia|done].
  - intros (s & u & E & Hc & Hne). rewrite E. cbn. split; [|split; [done|lia]]. exists s, u. split; [done|].
    rewrite (ji_values _ _ Hi), decide_True by lia. by apply nonempty_Some.
Qed.

Lemma arrivals_watermark hist t s k u : arrivals (hist ++ [WWatermark t]) s k u = arrivals hist s k u.
Proof. by rewrite arrivals_snoc, app_nil_r. Qed.

Lemma join_output_watermark hist t : join_output (-1) [] (hist ++ [WWatermark t]) = join_output (-1) [] hist.
Proof. by rewrite join_output_snoc, app_nil_r. Qed.

Lemma clearing_done hist a t events a2 :
  join_inv hist a → am_watermark a < t → expired_events hist (am_watermark a) t events →
  clearing hist (am_watermark a) t (km_timers (am_backend a) ∖ list_to_set events) (am_out a) events a2 →
  join_inv (hist ++ [WWatermark t]) a2.
Proof.
  intros Hi Hlt Hev Hc. unfold expired_events in Hev. pose proof (ji_watermark _ _ Hi) as Hwm.
  assert (Hcleared : ∀ s k u, (k, JTimer s u) ∈ (λ e : TimerEvent K join_ns, (te_key e, te_namespace e)) <$> events ↔
    am_watermark a < cleanup_of s u <= t ∧ arrivals hist s k u ≠ []).
  { intros s k u. rewrite list_elem_of_fmap. split.
    - intros (e & [= Ek En] & (s' & u' & Ee & Hcl & Hne)%Hev). rewrite Ee in En. cbn in En. injection En as -> ->. by rewrite Ek.
    - intros [Hcl Hne]. exists (mkTimerEvent (cleanup_of s u) k (JTimer s u) EVENT_TIME). split; [done|].
      apply Hev. exists s, u. done. }
  assert (Hvals : ∀ s k u, km_values (am_backend a2) !! (sd_name (state_of s), k, JTime u) =
    if decide (t < cleanup_of s u) then nonempty (arrivals hist s k u) else None).
  { intros s k u. rewrite (cl_values _ _ _ _ _ _ _ Hc). destruct (decide (t < cleanup_of s u)).
    - rewrite decide_True; [done|]. rewrite Hcleared. split; lia.
    - case_decide as Hc1; [|done]. rewrite Hcleared in Hc1. destruct (arrivals hist s k u) as [|d l]; [done|].
      exfalso. destruct Hc1 as [? Hno]. apply Hno. split; [lia|done]. }
  split.
  - rewrite (cl_watermark _ _ _ _ _ _ _ Hc), watermark_after_snoc. cbn [next_watermark]. lia.
  - intros s k u. by rewrite Hvals, (cl_watermark _ _ _ _ _ _ _ Hc), arrivals_watermark.
  - apply (cl_namespaces _ _ _ _ _ _ _ Hc).
  - intros e. setoid_rewrite Hvals. rewrite (cl_timers _ _ _ _ _ _ _ Hc).
    rewrite elem_of_difference, elem_of_list_to_set, Hev, (ji_timers _ _ Hi). split.
    + intros [(s & u & E & Hs) Hnot]. exists s, u. split; [done|]. rewrite (ji_values _ _ Hi) in Hs.
      case_decide as Hc1; [|by destruct Hs]. apply nonempty_Some in Hs. rewrite decide_True; [by apply nonempty_Some|].
      destruct (Z.le_gt_cases (cleanup_of s u) t); [|lia]. exfalso. apply Hnot. exists s, u. split_and!; done || lia.
    + intros (s & u & E & Hs). case_decide as Hc1; [|by destruct Hs]. split.
      * exists s, u. split; [done|]. rewrite (ji_values _ _ Hi), decide_True by lia. done.
      * intros (s' & u' & E' & Hc2 & _). rewrite E in E'. injection E' as _ <- <-. lia.
  - by rewrite (cl_out _ _ _ _ _ _ _ Hc), (ji_out _ _ Hi), join_output_watermark.
Qed.

Lemma join_watermark hist a t :
  join_inv hist a → triple repr a (run_join (WWatermark t)) (λ _ a', join_inv (hist ++ [WWatermark t]) a').
Proof.
  intros Hi. cbn [run_join]. unfold on_event_time_watermark. pose proof (ji_watermark _ _ Hi) as Hwm.
  unfold advance_watermark. eapply triple_bind.
  { eapply triple_runs; [apply runs_get_watermark|].
    instantiate (1 := λ events a1, (events = [] ∧ t <= am_watermark a ∧ a1 = a) ∨
      (am_watermark a < t ∧ NoDup events ∧ (∀ e, e ∈ events ↔ e ∈ km_timers (am_backend a) ∧ is_due t EVENT_TIME e) ∧
       a1 = a_with_backend (m_retime (λ ts, ts ∖ list_to_set events)) (a_with_watermark t a))).
    destruct (Z.leb_spec t (am_watermark a)); [apply triple_ret; by left|].
    eapply triple_runs; [apply runs_set_watermark|]. eapply triple_mono; [apply (triple_pop descriptors universe repr)|].
    intros due a1 (? & ? & _ & ->). by right. }
  intros events a1 [(-> & Hle & ->)|(Hlt & Hnd & Hin & ->)].
  - cbn [for_each]. eapply triple_runs; [apply runs_ret|]. eapply triple_runs; [apply runs_ret|].
    eapply triple_mono; [apply (triple_cleanup descriptors universe repr)|]. intros ? ? [_ ->].
    assert (am_watermark a = watermark_after (-1) (hist ++ [WWatermark t])) as Hwm'
      by (rewrite watermark_after_snoc; cbn [next_watermark]; lia).
    destruct Hi. split; try done; [intros; by rewrite arrivals_watermark|by rewrite join_output_watermark].
  - set (timers := km_timers (am_backend a) ∖ list_to_set events).
    pose proof (expired_events_intro hist a t events Hi Hin) as Hev.
    assert (Hinj : ∀ e e', e ∈ events → e' ∈ events → (te_key e, te_namespace e) = (te_key e', te_namespace e') → e = e').
    { intros e e' (s & u & -> & _)%Hev (s' & u' & -> & _)%Hev [= -> -> ->]. done. }
    apply (triple_bind _ _ _ _ (λ _ a', clearing hist (am_watermark a) t timers (am_out a) events a')).
    { eapply triple_mono; [apply (triple_for_each _ _
        (λ rest a', ∃ finished, events = finished ++ rest ∧ clearing hist (am_watermark a) t timers (am_out a) finished a'))|].
      - exists []. split; [done|]. split; try done.
        + intros s k u. cbn. rewrite (ji_values _ _ Hi). apply decide_ext. set_solver.
        + apply (ji_namespaces _ _ Hi).
      - intros e rest a' (finished & Eq & Hc). assert (e ∈ events) as He by (rewrite Eq; set_solver).
        destruct (proj1 (Hev e) He) as (s & u & Ee & Hcl & Hne).
        eapply triple_mono; [apply (join_clear _ _ _ _ _ _ e s u _ Hc Ee); [lia|done|]|].
        + intros (e' & Ek & He')%list_elem_of_fmap. apply Hinj in Ek; [|done|rewrite Eq; set_solver]. subst e'.
          rewrite Eq in Hnd. apply NoDup_app in Hnd as (_ & Hd & _). apply (Hd e He'). by left.
        + intros ? a'' Hc'. exists (finished ++ [e]). by rewrite <-app_assoc.
      - intros ? a' (finished & Eq & Hc). rewrite app_nil_r in Eq. by rewrite Eq. }
    intros ? a2 Hc. eapply triple_runs; [apply runs_ret|].
    eapply triple_mono; [apply (triple_cleanup descriptors universe repr)|]. intros ? ? [_ ->].
    by apply (clearing_done hist a t events).
Qed.
End join_proof.

(** C29. An interval join over any run of elements and watermarks, on any backend that
    meets the contract: it never raises, the watermark ends at the largest one seen, and
    it puts out, up to order, exactly the joins of each element that the watermark has
    not brought to its own cleanup time (timestamp plus upper bound, or minus lower
    bound, plus lateness and one) with every earlier element of the other side that has
    its key, lies within the bounds and is not past its cleanup time either.  When the
    bounds admit equal times and no element is behind the watermark by more than the
    lateness, nothing is missed: the output is the join of each element with all the
    earlier ones of the other side with its key and within the bounds.  With bounds
    that exclude equal times an element ahead of the watermark may be past its own
    cleanup time; [on_time_record_dropped] is such a run. *)
Theorem interval_join_exact {B K D Blk In R} `{Countable K, !ManagedStateBackend B K join_ns (list D), !KeyCodec K, !Blake2b}
    descriptors universe repr `{!BackendRefines B K join_ns (list D) descriptors universe repr} clock cfg bounds
    left_state right_state (join_function : Blk → Blk → outcome (pyresult D R)) input_tag (block_of : In → Blk) dict_of as_block
    (record_of : D → R) left_key right_key left_timestamp right_timestamp joined side_of key time
    (inputs : list (@window_input In)) s0 bound_key bound_time :
  join_setup descriptors left_state right_state join_function record_of joined →
  (∀ r, WElement r ∈ inputs → valid_join_input universe cfg bounds input_tag block_of left_key right_key left_timestamp
    right_timestamp side_of key time r) →
  op_repr repr s0 (mkOpModel (mkModel bound_key ∅ ∅) (-1) bound_time [] 0) →
  ∃ s',
    for_each (run_join clock cfg bounds left_state right_state join_function input_tag block_of dict_of as_block record_of
      left_key right_key left_timestamp right_timestamp) inputs s0 = (Ok (), s') ∧
    os_watermark s' = watermark_after (-1) inputs ∧
    os_out s' ≡ₚ join_output bounds block_of dict_of as_block joined side_of key time (-1) [] inputs ∧
    (lower_ms bounds <= 0 <= upper_ms bounds → on_time bounds time (-1) inputs →
     os_out s' ≡ₚ all_pairs bounds block_of dict_of as_block joined side_of key time [] inputs).
Proof.
  intros Hsetup Hvalid Hs0.
  set (inv := join_inv bounds left_state right_state block_of dict_of as_block joined side_of key time).
  set (a0 := mkOpModel (mkModel bound_key ∅ ∅) (-1) bound_time [] 0 : op_model K join_ns (list D) R).
  assert (inv [] a0) as Hinit.
  { split; cbn; try done; [intros s k t|intros n k ns|intros e].
    - rewrite lookup_empty. by case_decide.
    - rewrite lookup_empty. by intros [? ?].
    - split; [set_solver|]. intros (s & t & _ & [? Hl]). by rewrite lookup_empty in Hl. }
  set (run := run_join clock cfg bounds left_state right_state join_function input_tag block_of dict_of as_block record_of
      left_key right_key left_timestamp right_timestamp).
  assert (triple repr a0 (for_each run inputs) (λ _ a', inv inputs a')) as Ht.
  { eapply triple_mono; [apply (triple_for_each repr run (λ rest a, ∃ hist, inputs = hist ++ rest ∧ inv hist a) inputs)|].
    - by exists [].
    - intros i rest a (hist & Eq & Hi). destruct i as [r|t].
      + eapply triple_mono; [apply (join_element descriptors universe repr clock cfg) with (1 := Hsetup) (2 := Hi);
          apply Hvalid; rewrite Eq; set_solver|].
        intros ? a' Hi'. exists (hist ++ [WElement r]). by rewrite <-app_assoc.
      + eapply triple_mono; [apply (join_watermark descriptors universe repr clock cfg) with (1 := Hsetup) (2 := Hi)|].
        intros ? a' Hi'. exists (hist ++ [WWatermark t]). by rewrite <-app_assoc.
    - intros ? a (hist & Eq & Hi). rewrite app_nil_r in Eq. by rewrite Eq. }
  destruct (Ht s0 Hs0) as ([] & s' & a' & E & Hs' & Hi). exists s'.
  rewrite (or_watermark _ _ _ Hs'), (or_out _ _ _ Hs'). pose proof (ji_out _ _ _ _ _ _ _ _ _ _ _ _ Hi) as Hout.
  split_and!; [done|apply (ji_watermark _ _ _ _ _ _ _ _ _ _ _ _ Hi)|done|].
  intros Hb Hon. by rewrite Hout, join_output_on_time.
Qed.

(** ** Example *)

Module JoinSamples.
Import Samples.
#[export] Instance join_ns_codec : KeyCodec join_ns := countable_codec.
#[export] Instance z_join_ns_codec : KeyCodec (Z * join_ns) := countable_codec.
#[export] Instance z_join_ns_serializer : Serializer (Z * join_ns) := countable_serializer.
#[export] Instance list_z_serializer : Serializer (list Z) := countable_serializer.

Definition left_state : StateDescriptor (list Z) := mkStateDescriptor [x01] list_z_serializer None.
Definition right_state : StateDescriptor (list Z) := mkStateDescriptor [x02] list_z_serializer None.
Definition descriptors (d : StateDescriptor (list Z)) : Prop := d = left_state ∨ d = right_state.

(** Inputs: side, time and number; a join yields the pair of numbers. *)
Definition input : Type := side * (Z * Z).
Definition tag (r : input) : option Z := Some (match r.1 with LEFT => 0 | RIGHT => 1 end).
Definition config : operator_config := mkConfig 1 (mkKeyGroupRange 0 0) 10.
Definition addresses (bounds : join_bounds) (rs : list input) : list join_ns :=
  rs ≫= λ r, [JTime r.2.1; JTimer r.1 r.2.1].
Definition start : op_state (backend Z) (Z * Z) := mkOp MemoryStateBackend_init (-1) None 0 [] 0 0 0.
Definition join_pair (l r : Z * Z) : outcome (pyresult Z (Z * Z)) := Ok (PyRecord (l.2, r.2)).
Definition run (bounds : join_bounds) : list (@window_input input) → op (backend Z) (Z * Z) unit :=
  for_each (run_join (λ _, 0) config bounds left_state right_state join_pair tag snd snd (λ d, (0, d)) (λ d, (d, d))
    (λ _, Ok 7) (λ _, Ok 7) (λ b, Ok (Some (AInt b.1))) (λ b, Ok (Some (AInt b.1)))).

(** Right at most ten milliseconds after left. *)
Definition near : join_bounds := mkBounds 0 10 0.
Definition inputs : list (@window_input input) :=
  [WElement (LEFT, (30, 1)); WElement (RIGHT, (35, 2)); WElement (RIGHT, (50, 3)); WWatermark 39;
   WElement (LEFT, (45, 4)); WWatermark 41; WElement (RIGHT, (42, 5))].

(** Right between five and ten seconds after left. *)
Definition after : join_bounds := mkBounds 5000 10000 0.
Definition universe (k : Z) (ns : join_ns) : Prop :=
  k = 7 ∧ ns ∈ addresses near (elements inputs).

Lemma join_domain : contract_domain descriptors universe.
Proof.
  split.
  - intros d [-> | ->]; vm_compute; done.
  - intros d d' [-> | ->] [-> | ->]; done.
  - intros d k ns [-> | ->] [-> Hns]; revert ns Hns; apply Forall_forall; repeat constructor; eexists; vm_compute; reflexivity.
  - intros k ns k' ns' [-> Hns] [-> Hns']. revert ns' Hns'. revert ns Hns.
    refine (proj1 (Forall_forall (λ ns, ∀ ns', ns' ∈ _ → sha256 (encode_key (7, ns)) = sha256 (encode_key (7, ns')) →
      (7, ns) = (7, ns')) _) _).
    repeat constructor; (refine (proj1 (Forall_forall (λ ns', sha256 _ = sha256 (encode_key (7, ns')) → (7, _) = (7, ns')) _) _));
      repeat constructor; intros E; try done; vm_compute in E; done.
Defined.
End JoinSamples.

Section join_samples.
Import Samples JoinSamples.

(** The code drops an element on time when the lower bound is positive: its cleanup
    time, [timestamp - lower + 1], is behind the element itself.  The right record at
    6000 is ahead of the watermark 5999 and within bounds of the left one at 0, yet it
    is counted as late and joins with nothing. *)
Example on_time_record_dropped :
  let s := (JoinSamples.run after [WElement (LEFT, (0, 1)); WWatermark 5999; WElement (RIGHT, (6000, 2))] JoinSamples.start).2 in
  os_out s = [] ∧ os_late_records s = 1%nat ∧ os_watermark s < 6000 ∧ in_bounds after (6000 - 0) = true.
Proof. vm_compute. done. Qed.

(** The right element at 35 joins with the left one at 30; the left one at 45 joins with
    the right one at 50 which came before it; the right one at 42 has no partner.  All
    of them are on time. *)
Lemma interval_join_exact_witness :
  os_out (JoinSamples.run near JoinSamples.inputs JoinSamples.start).2 = [(1, 2); (4, 3)] ∧
  ∃ s', JoinSamples.run near JoinSamples.inputs JoinSamples.start = (Ok (), s') ∧ os_watermark s' = 41 ∧
    os_out s' ≡ₚ [(1, 2); (4, 3)] ∧
    os_out s' ≡ₚ all_pairs near snd snd (λ d, (0, d)) (λ l r, [(l.2, r.2)]) fst (λ _, 7) (λ r, r.2.1) [] JoinSamples.inputs.
Proof.
  split; [vm_compute; reflexivity|].
  pose proof (memory_refines _ _ JoinSamples.join_domain) as Hrefines.
  destruct (interval_join_exact JoinSamples.descriptors JoinSamples.universe
    (memory_repr JoinSamples.descriptors JoinSamples.universe) (λ _, 0) JoinSamples.config near
    JoinSamples.left_state JoinSamples.right_state JoinSamples.join_pair JoinSamples.tag snd snd (λ d, (0, d)) (λ d, (d, d))
    (λ _, Ok 7) (λ _, Ok 7) (λ b, Ok (Some (AInt b.1))) (λ b, Ok (Some (AInt b.1)))
    (λ l r, [(l.2, r.2)]) fst (λ _, 7) (λ r, r.2.1) JoinSamples.inputs JoinSamples.start None None) as (s' & Hrun & Hwm & Hout & Hall).
  - split; [by left|by right|done|]. intros b b'. by eexists.
  - assert (Forall (λ r, universe (7 : Z) (JTime r.2.1) ∧ universe 7 (JTimer r.1 r.2.1) ∧ 0 <= r.2.1 ∧
      cleanup_of near r.1 r.2.1 < 2 ^ 64) (elements JoinSamples.inputs)) as Hall.
    { repeat constructor; try lia; vm_compute; set_solver. }
    intros r Hr.
    assert (r ∈ elements JoinSamples.inputs) as Hr' by (apply list_elem_of_omap; by exists (WElement r)).
    apply (proj1 (Forall_forall _ _) Hall) in Hr' as (? & ? & ? & ?). destruct r as [s [t v]].
    destruct s; split; try done; exists 0; split; vm_compute; reflexivity.
  - split; try done. apply memory_repr_init. exact JoinSamples.join_domain.
  - exists s'. split_and!; [exact Hrun|by rewrite Hwm|exact Hout|]. apply Hall; [cbn; lia|]. cbn. lia.
Defined.
End join_samples.
