(* ===== verification/StateSnapshot.v ===== *)
(** * Snapshots of the memory backend

    Models the checkpoint half of
    [src/ray/klein/state/memory_state_backend.py]: [snapshot], [restore],
    [snapshot_key_groups] and [restore_key_groups], and the version check
    [require_key_encoding_version] of [key_encoding.py].

    Pickling is the interface [Serializer] at the type of the payloads the code
    dumps; what [restricted_pickle_loads] returns may be any object, so its model is
    a dictionary with optional entries or something else. *)
From S2P Require Import Prelude Concrete KeyGroups StateCodec StateBackend.
Open Scope Z_scope.

(** [KEY_ENCODING_VERSION] and the snapshots' [format_version]. *)
Definition KEY_ENCODING_VERSION : Z := 2.
Definition FORMAT_VERSION : Z := 2.

(** [None] is an absent (or [None]) version. *)
Definition require_key_encoding_version (version : option pyarg) : outcome unit :=
  match version with
  | None => Err ValueError
  | Some v =>
      match arg_int v with
      | None => Err ValueError
      | Some z => if z =? KEY_ENCODING_VERSION then Ok () else Err ValueError
      end
  end.

(** The dictionary a snapshot pickles; [None] is a missing entry. *)
Record snapshot_payload := mkSnapshotPayload {
  sp_format_version : option pyarg;
  sp_key_encoding_version : option pyarg;
  sp_state : option (gmap bytes bytes);
  sp_expiry : option (gmap bytes bytes);
  sp_timers : option (gmap bytes bytes)
}.

(** What unpickling returns. *)
Inductive pickled := PDict (p : snapshot_payload) | PNotDict.

(** [payload.get("format_version") != 2]. *)
Definition format_version_is_2 (p : snapshot_payload) : bool :=
  bool_decide (sp_format_version p = Some (AInt FORMAT_VERSION)).

(** The two version checks of [restore] and [restore_key_groups]. *)
Definition check_payload (o : pickled) : outcome snapshot_payload :=
  match o with
  | PNotDict => _ ← require_key_encoding_version None; Err AssertionError
  | PDict p =>
      _ ← (if format_version_is_2 p then Ok () else require_key_encoding_version None);
      _ ← require_key_encoding_version (sp_key_encoding_version p);
      Ok p
  end.

(** The contents of one key group's bucket. *)
Record contents := mkContents {
  c_state : gmap bytes bytes;
  c_expiry : gmap bytes bytes;
  c_timers : gmap bytes bytes
}.

Definition empty_contents : contents := mkContents ∅ ∅ ∅.

Section snapshots.
Context {K NS : Type} `{KeyCodec K, KeyCodec NS, KeyCodec (K * NS), Serializer (K * NS), Sha256, Blake2b}
  `{Serializer pickled}.
Implicit Types (b : backend K).

Definition payload_of (c : contents) : snapshot_payload :=
  mkSnapshotPayload (Some (AInt FORMAT_VERSION)) (Some (AInt KEY_ENCODING_VERSION))
    (Some (c_state c)) (Some (c_expiry c)) (Some (c_timers c)).

Definition backend_snapshot b : bytes :=
  ser_dumps (PDict (payload_of (mkContents (b_state b) (b_expiry b) (b_timers b)))).

Definition backend_restore (snapshot : bytes) b : call K unit :=
  match (o ← ser_loads snapshot;
         payload ← check_payload o;
         state ← of_option KeyError (sp_state payload);
         expiry ← of_option KeyError (sp_expiry payload);
         timers ← of_option KeyError (sp_timers payload);
         Ok (mkContents state expiry timers)) with
  | Err e => (Err e, b)
  | Ok c => (Ok (), mkBackend (b_key b) (c_state c) (c_expiry c) (c_timers c))
  end.

(** One round of a loop of [snapshot_key_groups]: the item's key group is computed
    and, if requested, the item goes into that group's bucket. *)
Definition bucket_round (requested : gset Z) (group : bytes → bytes → outcome Z)
    (store : bytes → bytes → contents → contents) (buckets : gmap Z contents) (item : bytes * bytes)
    : outcome (gmap Z contents) :=
  key_group ← group item.1 item.2;
  if decide (key_group ∈ requested)
  then Ok (<[key_group := store item.1 item.2 (default empty_contents (buckets !! key_group))]> buckets)
  else Ok buckets.

Definition state_group (max_parallelism : pyarg) (encoded_key encoded_value : bytes) : outcome Z :=
  '(_, key, _) ← (decode_state_key encoded_key : outcome (bytes * K * NS));
  key_group_for_key key max_parallelism.

Definition expiry_group (max_parallelism : pyarg) (encoded_key encoded_value : bytes) : outcome Z :=
  '(_, sk) ← decode_expiry_key encoded_key;
  '(_, key, _) ← (decode_state_key sk : outcome (bytes * K * NS));
  key_group_for_key key max_parallelism.

Definition timer_group (max_parallelism : pyarg) (encoded_key encoded_value : bytes) : outcome Z :=
  '(_, key, _) ← (decode_timer encoded_key encoded_value : outcome (Z * K * NS));
  key_group_for_key key max_parallelism.

Definition store_state (k v : bytes) (c : contents) : contents :=
  mkContents (<[k := v]> (c_state c)) (c_expiry c) (c_timers c).
Definition store_expiry (k v : bytes) (c : contents) : contents :=
  mkContents (c_state c) (<[k := v]> (c_expiry c)) (c_timers c).
Definition store_timers (k v : bytes) (c : contents) : contents :=
  mkContents (c_state c) (c_expiry c) (<[k := v]> (c_timers c)).

Definition backend_snapshot_key_groups (max_parallelism : pyarg) (key_groups : list Z) b
    : outcome (gmap Z bytes) :=
  let requested : gset Z := list_to_set key_groups in
  buckets ← foldM (bucket_round requested (state_group max_parallelism) store_state) ∅ (map_to_list (b_state b));
  buckets ← foldM (bucket_round requested (expiry_group max_parallelism) store_expiry) buckets
              (map_to_list (b_expiry b));
  buckets ← foldM (bucket_round requested (timer_group max_parallelism) store_timers) buckets
              (map_to_list (b_timers b));
  Ok ((λ c, ser_dumps (PDict (payload_of c))) <$> (buckets : gmap Z contents)).

(** [d.update(e)]: the entries of [e] win. *)
Definition merge_payload (acc : contents) (payload : snapshot_payload) : outcome contents :=
  state ← of_option ValueError (sp_state payload);
  expiry ← of_option ValueError (sp_expiry payload);
  timers ← of_option ValueError (sp_timers payload);
  Ok (mkContents (state ∪ c_state acc) (expiry ∪ c_expiry acc) (timers ∪ c_timers acc)).

(** [snapshots] lists the mapping's values in iteration order. *)
Definition backend_restore_key_groups (snapshots : list bytes) b : call K unit :=
  match (payloads ← mapM_outcome (λ snapshot, o ← ser_loads snapshot; check_payload o) snapshots;
         foldM merge_payload empty_contents payloads) with
  | Err e => (Err e, b)
  | Ok c => (Ok (), mkBackend (b_key b) (c_state c) (c_expiry c) (c_timers c))
  end.
End snapshots.

(** ** Lemmas: bucketing *)

Section bucketing.
Implicit Types (buckets : gmap Z contents) (group : bytes → bytes → outcome Z) (requested : gset Z).

Definition bucket_of buckets (kg : Z) : contents := default empty_contents (buckets !! kg).

(** A field of the contents a loop fills and the ones it leaves alone. *)
Record is_field (get : contents → gmap bytes bytes) (store : bytes → bytes → contents → contents) : Prop := {
  field_get k v c : get (store k v c) = <[k := v]> (get c)
}.

Lemma bucket_loop (group : bytes → bytes → outcome Z) store requested (items : list (bytes * bytes)) buckets
    (g : bytes → bytes → Z) :
  (∀ k v, (k, v) ∈ items → group k v = Ok (g k v)) →
  ∃ buckets', foldM (bucket_round requested group store) buckets items = Ok buckets' ∧
    ∀ kg, bucket_of buckets' kg =
      if decide (kg ∈ requested)
      then foldl (λ c item, store item.1 item.2 c) (bucket_of buckets kg) (filter (λ item, g item.1 item.2 = kg) items)
      else bucket_of buckets kg.
Proof.
  revert buckets; induction items as [|[k v] items IH]; intros buckets Hg.
  { exists buckets. split; [done|]. intros kg. by case_decide. }
  cbn [foldM]. unfold bucket_round at 1. cbn [fst snd]. rewrite (Hg k v) by (by left). rewrite bind_Ok.
  set (buckets1 := if decide (g k v ∈ requested)
    then <[g k v := store k v (bucket_of buckets (g k v))]> buckets else buckets).
  destruct (IH buckets1) as (buckets' & Hrun & Hb); [intros; apply Hg; by right|].
  exists buckets'. split.
  { rewrite <-Hrun. unfold buckets1. by case_decide. }
  intros kg. rewrite Hb. unfold buckets1. case_decide as Hkg.
  - destruct (decide (g k v = kg)) as [Heq|Hne].
    + subst kg. rewrite filter_cons_True by done. cbn [foldl fst snd]. f_equal.
      rewrite decide_True by done. unfold bucket_of at 1. by rewrite lookup_insert_eq.
    + rewrite filter_cons_False by done. f_equal. unfold bucket_of.
      case_decide; [|done]. by rewrite lookup_insert_ne.
  - unfold bucket_of. case_decide; [|done]. rewrite lookup_insert_ne; [done|]. by intros <-.
Qed.

Lemma foldl_store_get get store items c k :
  is_field get store → NoDup items.*1 →
  get (foldl (λ c item, store item.1 item.2 c) c items) !! k =
  match (list_to_map items : gmap bytes bytes) !! k with Some v => Some v | None => get c !! k end.
Proof.
  intros Hf. revert c; induction items as [|[k' v'] items IH]; intros c Hnd; [done|].
  cbn [foldl fst snd]. cbn in Hnd. apply NoDup_cons in Hnd as [Hk' Hnd]. rewrite IH by done.
  rewrite (field_get _ _ Hf). cbn [list_to_map foldr fst snd].
  destruct (decide (k' = k)) as [->|Hne].
  - rewrite !lookup_insert_eq. rewrite (not_elem_of_list_to_map_1 _ _ Hk'). done.
  - by rewrite !lookup_insert_ne.
Qed.

Lemma foldl_store_other (get' : contents → gmap bytes bytes) store (items : list (bytes * bytes)) c :
  (∀ k v c, get' (store k v c) = get' c) →
  get' (foldl (λ c item, store item.1 item.2 c) c items) = get' c.
Proof. intros Hs. revert c; induction items as [|[k v] items IH]; intros c; cbn; [done|]. by rewrite IH, Hs. Qed.

(** Filling a field with the items of one group of a dictionary. *)
Lemma foldl_store_filter (get : contents → gmap bytes bytes) (store : bytes → bytes → contents → contents) (m : gmap bytes bytes) (P : bytes * bytes → Prop) `{∀ x, Decision (P x)} (c : contents) :
  is_field get store → get c = ∅ →
  get (foldl (λ c item, store item.1 item.2 c) c (filter P (map_to_list m))) = filter P m.
Proof.
  intros Hf Hc. apply map_eq. intros k.
  assert (Hnd : NoDup (filter P (map_to_list m)).*1).
  { apply (sublist_NoDup _ (map_to_list m).*1); [apply NoDup_fst_map_to_list|].
    apply fmap_sublist, filter_sublist. }
  rewrite (foldl_store_get get) by done. rewrite Hc, lookup_empty.
  apply option_eq. intros v. rewrite map_lookup_filter_Some. split.
  - destruct (list_to_map _ !! k) as [v'|] eqn:E; [|done]. intros [= ->].
    apply elem_of_list_to_map_2, list_elem_of_filter in E as [? ?%elem_of_map_to_list]. done.
  - intros [Hv HP]. rewrite (elem_of_list_to_map_1 _ k v); [done|done|].
    apply list_elem_of_filter. split; [done|]. by apply elem_of_map_to_list.
Qed.
End bucketing.

Lemma contents_ext c c' :
  c_state c = c_state c' → c_expiry c = c_expiry c' → c_timers c = c_timers c' → c = c'.
Proof. destruct c, c'; cbn. by intros -> -> ->. Qed.

Lemma is_field_state : is_field c_state store_state.
Proof. done. Qed.
Lemma is_field_expiry : is_field c_expiry store_expiry.
Proof. done. Qed.
Lemma is_field_timers : is_field c_timers store_timers.
Proof. done. Qed.
#[export] Hint Resolve is_field_state is_field_expiry is_field_timers : klein.

(** ** Lemmas: splitting a backend into key groups and merging it back *)

Section split_merge.
Context {K NS : Type} `{KeyCodec K, KeyCodec NS, KeyCodec (K * NS), Serializer (K * NS), Sha256, Blake2b}
  `{Serializer pickled}.
Implicit Types (b : backend K).

Abbreviation ok b := (backend_ok (K := K) (NS := NS) b).
Abbreviation sgroup mp := (state_group (K := K) (NS := NS) (AInt mp)).
Abbreviation egroup mp := (expiry_group (K := K) (NS := NS) (AInt mp)).
Abbreviation tgroup mp := (timer_group (K := K) (NS := NS) (AInt mp)).

(** The group a grouping function computes. *)
Definition group_of (group : bytes → bytes → outcome Z) (kv : bytes * bytes) : Z :=
  match group kv.1 kv.2 with Ok kg => kg | Err _ => -1 end.

Lemma group_of_Ok (group : bytes → bytes → outcome Z) k v kg :
  group k v = Ok kg → group k v = Ok (group_of group (k, v)).
Proof. intros Hg. unfold group_of. cbn. by rewrite Hg. Qed.

Lemma state_group_range mp sk v :
  1 <= mp → is_state_key (K := K) (NS := NS) sk → ∃ kg, sgroup mp sk v = Ok kg ∧ 0 <= kg < mp.
Proof.
  intros Hmp (name & key & ns & Hsk). unfold state_group.
  rewrite (proj1 (decode_encode_state_key _ _ _ _ Hsk)), bind_Ok.
  rewrite key_group_for_key_Ok by done. eexists. split; [done|]. apply Z.mod_pos_bound. lia.
Qed.

Lemma expiry_group_state_group mp ek e sk v v' :
  encode_expiry_key e sk = Ok ek → egroup mp ek v = sgroup mp sk v'.
Proof. intros He. unfold expiry_group. by rewrite (decode_encode_expiry_key _ _ _ He). Qed.

Lemma timer_group_range mp tk v :
  1 <= mp → timer_ok (K := K) (NS := NS) ∅ tk v → ∃ kg, tgroup mp tk v = Ok kg ∧ 0 <= kg < mp.
Proof.
  intros Hmp (ts & key & ns & d & Htk & ->). unfold timer_group.
  rewrite (decode_encode_timer _ _ _ _ _ Htk), bind_Ok.
  rewrite key_group_for_key_Ok by done. eexists. split; [done|]. apply Z.mod_pos_bound. lia.
Qed.

(** Every item of a well-formed backend has a key group. *)
Lemma backend_groups mp b :
  1 <= mp → ok b →
  (∀ k v, b_state b !! k = Some v → ∃ kg, sgroup mp k v = Ok kg ∧ 0 <= kg < mp) ∧
  (∀ k v, b_expiry b !! k = Some v → ∃ kg, egroup mp k v = Ok kg ∧ 0 <= kg < mp) ∧
  (∀ k v, b_timers b !! k = Some v → ∃ kg, tgroup mp k v = Ok kg ∧ 0 <= kg < mp).
Proof.
  intros Hmp Hok. split_and!; intros k v Hv.
  - destruct (bo_state b Hok _ _ Hv) as (Hsk & _). by apply state_group_range.
  - destruct (bo_expiry b Hok _ _ Hv) as (e & sk & He & Hsk).
    rewrite (expiry_group_state_group mp k e sk v v He). by apply state_group_range.
  - apply timer_group_range; [done|]. exact (bo_timers b Hok _ _ Hv).
Qed.

(** The items of key group [kg]. *)
Definition group_contents mp b (kg : Z) : contents :=
  mkContents (filter (λ kv, group_of (sgroup mp) kv = kg) (b_state b))
    (filter (λ kv, group_of (egroup mp) kv = kg) (b_expiry b))
    (filter (λ kv, group_of (tgroup mp) kv = kg) (b_timers b)).

(** Taking a key-group snapshot never raises, and each requested group's bucket
    holds exactly the group's items. *)
Lemma snapshot_key_groups_ok mp groups b :
  1 <= mp → ok b →
  ∃ buckets : gmap Z contents,
    backend_snapshot_key_groups (NS := NS) (AInt mp) groups b =
      Ok ((λ c, ser_dumps (PDict (payload_of c))) <$> buckets) ∧
    ∀ kg, bucket_of buckets kg = if decide (kg ∈ groups) then group_contents mp b kg else empty_contents.
Proof.
  intros Hmp Hok. destruct (backend_groups mp b Hmp Hok) as (Hs & He & Ht).
  assert (Hg : ∀ (group : bytes → bytes → outcome Z) (m : gmap bytes bytes),
    (∀ k v, m !! k = Some v → ∃ kg, group k v = Ok kg ∧ 0 <= kg < mp) →
    ∀ k v, (k, v) ∈ map_to_list m → group k v = Ok (group_of group (k, v))).
  { intros group m Hm k v Hkv%elem_of_map_to_list. destruct (Hm _ _ Hkv) as (kg & ? & _). by eapply group_of_Ok. }
  destruct (bucket_loop (sgroup mp) store_state (list_to_set groups) (map_to_list (b_state b)) ∅
              (λ k v, group_of (sgroup mp) (k, v)) (Hg _ _ Hs)) as (b1 & Hr1 & Hb1).
  destruct (bucket_loop (egroup mp) store_expiry (list_to_set groups) (map_to_list (b_expiry b)) b1
              (λ k v, group_of (egroup mp) (k, v)) (Hg _ _ He)) as (b2 & Hr2 & Hb2).
  destruct (bucket_loop (tgroup mp) store_timers (list_to_set groups) (map_to_list (b_timers b)) b2
              (λ k v, group_of (tgroup mp) (k, v)) (Hg _ _ Ht)) as (b3 & Hr3 & Hb3).
  exists b3. split.
  { unfold backend_snapshot_key_groups. rewrite Hr1, bind_Ok, Hr2, bind_Ok, Hr3. done. }
  intros kg. rewrite Hb3, Hb2, Hb1.
  assert (∀ i, i ∈ (list_to_set groups : gset Z) ↔ i ∈ groups) as Hin by (intros; by rewrite elem_of_list_to_set).
  destruct (decide (kg ∈ groups)) as [Hkg|Hkg].
  2: { rewrite !decide_False by (by rewrite Hin). done. }
  rewrite !decide_True by (by rewrite Hin). unfold bucket_of. rewrite lookup_empty. cbn [default].
  apply contents_ext; cbn [group_contents c_state c_expiry c_timers].
  - rewrite (foldl_store_other c_state store_timers), (foldl_store_other c_state store_expiry) by done.
    by apply (foldl_store_filter c_state store_state _ (λ kv, group_of (sgroup mp) (kv.1, kv.2) = kg)).
  - rewrite (foldl_store_other c_expiry store_timers) by done.
    apply (foldl_store_filter c_expiry store_expiry _ (λ kv, group_of (egroup mp) (kv.1, kv.2) = kg)); [done|].
    by rewrite (foldl_store_other c_expiry store_state).
  - apply (foldl_store_filter c_timers store_timers _ (λ kv, group_of (tgroup mp) (kv.1, kv.2) = kg)); [done|].
    by rewrite (foldl_store_other c_timers store_expiry), (foldl_store_other c_timers store_state).
Qed.

(** Merging buckets: when every bucket is part of one dictionary, the merged
    dictionary holds exactly what some bucket holds. *)
Lemma merge_payloads_ok (cs : list contents) (acc : contents) :
  ∃ c, foldM merge_payload acc (payload_of <$> cs) = Ok c ∧
    ∀ (get : contents → gmap bytes bytes) (m : gmap bytes bytes),
      (get = c_state ∨ get = c_expiry ∨ get = c_timers) →
      get acc ⊆ m → (∀ c', c' ∈ cs → get c' ⊆ m) →
      ∀ k v, get c !! k = Some v ↔ get acc !! k = Some v ∨ ∃ c', c' ∈ cs ∧ get c' !! k = Some v.
Proof.
  revert acc; induction cs as [|c1 cs IH]; intros acc.
  { exists acc. split; [done|]. intros get m _ _ _ k v. split; [by left|]. by intros [?|(?&?%not_elem_of_nil&_)]. }
  cbn [fmap list_fmap foldM]. unfold merge_payload at 1. cbn [payload_of sp_state sp_expiry sp_timers of_option].
  rewrite !bind_Ok.
  set (acc1 := mkContents (c_state c1 ∪ c_state acc) (c_expiry c1 ∪ c_expiry acc) (c_timers c1 ∪ c_timers acc)).
  destruct (IH acc1) as (c & Hrun & Hc). exists c. split; [exact Hrun|].
  intros get m Hget Hacc Hcs k v.
  assert (Hun : get acc1 = get c1 ∪ get acc) by (destruct Hget as [->|[->| ->]]; done).
  assert (Hc1 : get c1 ⊆ m) by (apply Hcs; by left).
  rewrite (Hc get m Hget); [|rewrite Hun; by apply map_union_least|intros; apply Hcs; by right].
  rewrite Hun, lookup_union_Some_raw. split.
  - intros [[?|[_ ?]]|(c' & ? & ?)]; [right; exists c1; split; [by left|done]|by left|].
    right. exists c'. split; [by right|done].
  - intros [Ha|(c' & [->|Hin]%elem_of_cons & Hl)].
    + left. destruct (get c1 !! k) as [v1|] eqn:E; [|by right]. left. f_equal.
      apply (inj Some). rewrite <-(lookup_weaken _ m _ _ E Hc1). by apply (lookup_weaken (get acc)).
    + left. by left.
    + right. by exists c'.
Qed.

Lemma check_payload_of c : check_payload (PDict (payload_of c)) = Ok (payload_of c).
Proof. done. Qed.

(** Reading back pickled buckets. *)
Lemma load_payloads (cs : list contents) :
  mapM_outcome (λ snapshot, o ← ser_loads snapshot; check_payload o)
    ((λ c, ser_dumps (PDict (payload_of c))) <$> cs) = Ok (payload_of <$> cs).
Proof.
  induction cs as [|c cs IH]; [done|]. cbn [fmap list_fmap mapM_outcome].
  rewrite ser_loads_dumps, bind_Ok, check_payload_of. by rewrite IH.
Qed.

(** The part of a backend whose key groups are in [groups]. *)
Definition restrict_groups mp (groups : list Z) b (key : option K) : backend K :=
  mkBackend key
    (filter (λ kv, group_of (sgroup mp) kv ∈ groups) (b_state b))
    (filter (λ kv, group_of (egroup mp) kv ∈ groups) (b_expiry b))
    (filter (λ kv, group_of (tgroup mp) kv ∈ groups) (b_timers b)).

(** One field of the merged buckets is the restriction of the field. *)
Lemma merged_field (group : bytes * bytes → Z) (groups : list Z) (m : gmap bytes bytes)
    (get : contents → gmap bytes bytes) (buckets : gmap Z contents) (merged : gmap bytes bytes) :
  get empty_contents = ∅ →
  (∀ kg, get (bucket_of buckets kg) = if decide (kg ∈ groups) then filter (λ kv, group kv = kg) m else ∅) →
  (∀ k v, merged !! k = Some v ↔ ∃ c, c ∈ (map_to_list buckets).*2 ∧ get c !! k = Some v) →
  merged = filter (λ kv, group kv ∈ groups) m.
Proof.
  intros He Hb Hm. apply map_eq. intros k. apply option_eq. intros v.
  rewrite Hm, map_lookup_filter_Some. split.
  - intros (c & ([kg c'] & -> & Hc%elem_of_map_to_list)%list_elem_of_fmap & Hv). cbn in Hv.
    specialize (Hb kg). unfold bucket_of in Hb. rewrite Hc in Hb. cbn in Hb. rewrite Hb in Hv.
    case_decide as Hkg; [|by rewrite lookup_empty in Hv].
    apply map_lookup_filter_Some in Hv as [Hv <-]. done.
  - intros [Hv Hg]. specialize (Hb (group (k, v))). rewrite decide_True in Hb by done.
    assert (Hl : get (bucket_of buckets (group (k, v))) !! k = Some v)
      by (rewrite Hb; by apply map_lookup_filter_Some).
    unfold bucket_of in Hl. destruct (buckets !! group (k, v)) as [c|] eqn:Hc; cbn in Hl.
    + exists c. split; [|done]. apply list_elem_of_fmap. exists (group (k, v), c).
      split; [done|]. by apply elem_of_map_to_list.
    + by rewrite He, lookup_empty in Hl.
Qed.

(** Restoring the key-group snapshots, in any order, gives the restriction. *)
Lemma restore_snapshot_key_groups mp groups b b0 (snapshots : gmap Z bytes) (l : list bytes) :
  1 <= mp → ok b →
  backend_snapshot_key_groups (NS := NS) (AInt mp) groups b = Ok snapshots →
  l ≡ₚ (map_to_list snapshots).*2 →
  backend_restore_key_groups l b0 = (Ok (), restrict_groups mp groups b (b_key b0)).
Proof.
  intros Hmp Hok Hsnap Hl. destruct (snapshot_key_groups_ok mp groups b Hmp Hok) as (buckets & Hrun & Hb).
  rewrite Hsnap in Hrun. injection Hrun as ->.
  rewrite map_to_list_fmap, <-list_fmap_compose in Hl.
  assert (∃ cs, l = (λ c, ser_dumps (PDict (payload_of c))) <$> cs ∧ cs ≡ₚ (map_to_list buckets).*2)
    as (cs & -> & Hcs).
  { assert (Hm : l ≡ₚ (λ c, ser_dumps (PDict (payload_of c))) <$> (map_to_list buckets).*2).
    { rewrite Hl, <-list_fmap_compose. done. }
    destruct (Permutation_map_inv _ _ Hm) as (cs & -> & Hp). by exists cs. }
  unfold backend_restore_key_groups. rewrite load_payloads, bind_Ok.
  destruct (merge_payloads_ok cs empty_contents) as (c & -> & Hc).
  assert (Hin : ∀ c', c' ∈ cs ↔ c' ∈ (map_to_list buckets).*2) by (intros; by rewrite Hcs).
  assert (Hsub : ∀ (get : contents → gmap bytes bytes) (m : gmap bytes bytes) (group : bytes * bytes → Z),
    (∀ kg, get (bucket_of buckets kg) = if decide (kg ∈ groups) then filter (λ kv, group kv = kg) m else ∅) →
    ∀ c', c' ∈ cs → get c' ⊆ m).
  { intros get m group Hg c' ([kg c2] & -> & Hc2%elem_of_map_to_list)%Hin%list_elem_of_fmap. cbn.
    specialize (Hg kg). unfold bucket_of in Hg. rewrite Hc2 in Hg. cbn in Hg. rewrite Hg.
    case_decide; [apply map_filter_subseteq|apply map_empty_subseteq]. }
  assert (Hfield : ∀ (get : contents → gmap bytes bytes) (m : gmap bytes bytes) (group : bytes * bytes → Z),
    (get = c_state ∨ get = c_expiry ∨ get = c_timers) → get empty_contents = ∅ →
    (∀ kg, get (bucket_of buckets kg) = if decide (kg ∈ groups) then filter (λ kv, group kv = kg) m else ∅) →
    get c = filter (λ kv, group kv ∈ groups) m).
  { intros get m group Hget He Hg. apply (merged_field group groups m get buckets); [done|done|].
    intros k v. rewrite (Hc get m Hget); [|rewrite He; apply map_empty_subseteq|by eapply Hsub].
    rewrite He, lookup_empty. setoid_rewrite Hin. split; [by intros [?|?]|by right]. }
  do 2 f_equal. unfold restrict_groups. f_equal.
  - apply Hfield; [auto|done|]. intros kg. rewrite Hb. by case_decide.
  - apply Hfield; [auto|done|]. intros kg. rewrite Hb. by case_decide.
  - apply Hfield; [auto|done|]. intros kg. rewrite Hb. by case_decide.
Qed.

(** Asking for every group keeps everything. *)
Lemma restrict_all_groups mp b key :
  1 <= mp → ok b → restrict_groups mp (seqZ 0 mp) b key = mkBackend key (b_state b) (b_expiry b) (b_timers b).
Proof.
  intros Hmp Hok. destruct (backend_groups mp b Hmp Hok) as (Hs & He & Ht).
  assert (Hall : ∀ (group : bytes → bytes → outcome Z) (m : gmap bytes bytes),
    (∀ k v, m !! k = Some v → ∃ kg, group k v = Ok kg ∧ 0 <= kg < mp) →
    filter (λ kv, group_of group kv ∈ seqZ 0 mp) m = m).
  { intros group m Hm. apply map_filter_id. intros k v Hv. destruct (Hm _ _ Hv) as (kg & Hg & ?).
    unfold group_of. cbn. rewrite Hg. apply elem_of_seqZ. lia. }
  unfold restrict_groups. by rewrite !Hall.
Qed.
End split_merge.


(** ** Properties *)

(** C12. [restore] of a [snapshot] gives the snapshotted dictionaries back (the
    selected key is the restoring backend's); a restore that raises, of a whole
    snapshot or of key groups, leaves the backend as it was. *)
Theorem snapshot_restore_roundtrip {K : Type} `{Serializer pickled} (b b0 : backend K) :
  backend_restore (backend_snapshot b) b0 =
    (Ok (), mkBackend (b_key b0) (b_state b) (b_expiry b) (b_timers b)) ∧
  (∀ snapshot e b', backend_restore snapshot b0 = (Err e, b') → b' = b0) ∧
  (∀ snapshots e b', backend_restore_key_groups snapshots b0 = (Err e, b') → b' = b0).
Proof.
  split_and!.
  - unfold backend_restore, backend_snapshot. rewrite ser_loads_dumps, bind_Ok, check_payload_of. done.
  - intros snapshot e b'. unfold backend_restore. case_match; congruence.
  - intros snapshots e b'. unfold backend_restore_key_groups. case_match; congruence.
Qed.

(** C13. Splitting by key groups and merging back loses nothing: taking the
    snapshots of any requested groups never raises on a well-formed backend, and
    restoring them, in whatever order, keeps every value and timer whose key's group
    was requested and drops every other; requesting all groups is the identity. *)
Theorem key_group_split_merge {K NS : Type}
    `{KeyCodec K, KeyCodec NS, KeyCodec (K * NS), Serializer (K * NS), Sha256, Blake2b} `{Serializer pickled}
    mp groups (b b0 : backend K) :
  1 <= mp → backend_ok (NS := NS) b →
  ∃ snapshots : gmap Z bytes, backend_snapshot_key_groups (NS := NS) (AInt mp) groups b = Ok snapshots ∧
    ∀ l, l ≡ₚ (map_to_list snapshots).*2 →
    ∃ b', backend_restore_key_groups l b0 = (Ok (), b') ∧ b_key b' = b_key b0 ∧
      (∀ name (key : K) (namespace : NS) sk kg,
         encode_state_key name key namespace = Ok sk → key_group_for_key key (AInt mp) = Ok kg →
         b_state b' !! sk = if decide (kg ∈ groups) then b_state b !! sk else None) ∧
      (∀ ts (key : K) (namespace : NS) d tk kg,
         encode_timer_key ts key namespace d = Ok tk → key_group_for_key key (AInt mp) = Ok kg →
         b_timers b !! tk = Some (encode_timer_value key namespace) →
         b_timers b' !! tk = if decide (kg ∈ groups) then b_timers b !! tk else None) ∧
      (groups = seqZ 0 mp → b_state b' = b_state b ∧ b_expiry b' = b_expiry b ∧ b_timers b' = b_timers b).
Proof.
  intros Hmp Hok. destruct (snapshot_key_groups_ok mp groups b Hmp Hok) as (buckets & Hsnap & _).
  eexists. split; [exact Hsnap|]. intros l Hl.
  rewrite (restore_snapshot_key_groups mp groups b b0 _ l Hmp Hok Hsnap Hl).
  eexists. split; [done|]. split_and!; [done| | |].
  - intros name key namespace sk kg Hsk Hkg. cbn. rewrite map_lookup_filter.
    destruct (b_state b !! sk) as [v|]; cbn; [|by case_decide].
    assert (group_of (state_group (K := K) (NS := NS) (AInt mp)) (sk, v) = kg) as ->.
    { unfold group_of, state_group. cbn [fst snd].
      by rewrite (proj1 (decode_encode_state_key _ _ _ _ Hsk)), bind_Ok, Hkg. }
    by repeat case_decide || case_guard.
  - intros ts key namespace d tk kg Htk Hkg Hv. cbn. rewrite map_lookup_filter, Hv. cbn.
    assert (group_of (timer_group (K := K) (NS := NS) (AInt mp)) (tk, encode_timer_value key namespace) = kg) as ->.
    { unfold group_of, timer_group. cbn [fst snd]. by rewrite (decode_encode_timer _ _ _ _ _ Htk), bind_Ok, Hkg. }
    by repeat case_decide || case_guard.
  - intros ->. by rewrite restrict_all_groups.
Qed.

Section samples.
Import Samples.

#[local] Instance snapshot_payload_eq_dec : EqDecision snapshot_payload.
Proof. solve_decision. Defined.

#[local] Instance snapshot_payload_countable : Countable snapshot_payload :=
  inj_countable'
    (λ p, (sp_format_version p, sp_key_encoding_version p, sp_state p, sp_expiry p, sp_timers p))
    (λ t, let '(a, b, c, d, e) := t in mkSnapshotPayload a b c d e) ltac:(by intros []).

#[local] Instance pickled_eq_dec : EqDecision pickled.
Proof. solve_decision. Defined.

#[local] Instance pickled_countable : Countable pickled :=
  inj_countable' (λ p, match p with PDict p => Some p | PNotDict => None end)
    (λ o, match o with Some p => PDict p | None => PNotDict end) ltac:(by intros []).

Definition sample_pickle : Serializer pickled := countable_serializer.

Lemma key_group_split_merge_witness :
  ∃ snapshots : gmap Z bytes,
    @backend_snapshot_key_groups Z Z _ _ _ _ sample_pickle (AInt 4) (seqZ 0 4) sample_backend = Ok snapshots ∧
    ∃ b', @backend_restore_key_groups Z sample_pickle (map_to_list snapshots).*2 sample_backend = (Ok (), b') ∧
      b_state b' = b_state sample_backend.
Proof.
  destruct (@key_group_split_merge Z Z _ _ _ _ _ _ sample_pickle 4 (seqZ 0 4) sample_backend sample_backend
    ltac:(lia) sample_backend_ok) as (snapshots & Hs & Hr).
  exists snapshots. split; [exact Hs|].
  destruct (Hr _ (Permutation_refl _)) as (b' & Hb' & _ & _ & _ & Hid).
  exists b'. split; [exact Hb'|]. apply (Hid eq_refl).
Defined.
End samples.
