(* ===== verification/EventTime.v ===== *)
(** * Event time: watermark generation and aggregation

    Models [src/ray/klein/runtime/event_time/input_watermark_tracker.py] (the
    minimum over physical inputs with idleness),
    [src/ray/klein/runtime/operator/watermark_operator.py] (bounded
    out-of-orderness) and the control messages of
    [src/ray/klein/runtime/message.py].

    The specification both implement is the control protocol of one stream: a
    watermark is sent only while the stream is active and is larger than the ones
    before it, [InputIdle] is sent only by an active stream, [InputActive] only by
    an idle one and carries the progress reached so far. *)
From S2P Require Import Prelude.
Open Scope Z_scope.

(** ** Control messages *)

(** The [StreamControl] subclasses of [message.py]. *)
Inductive StreamControl :=
  | Watermark (timestamp : Z)
  | InputIdle
  | InputActive (resume_watermark : option Z)
  | RescaleBarrier (operation_id : string) (target_operator_id : Z).

#[export] Instance StreamControl_eq_dec : EqDecision StreamControl.
Proof. solve_decision. Defined.

(** [Watermark.__post_init__]. *)
Definition Watermark_init (timestamp : pyarg) : outcome StreamControl :=
  match arg_int timestamp with
  | None => Err TypeError
  | Some t => if t <? 0 then Err ValueError else Ok (Watermark t)
  end.

(** [InputActive.__post_init__]; [None] is Python's [None]. *)
Definition InputActive_init (resume_watermark : option pyarg) : outcome StreamControl :=
  match resume_watermark with
  | None => Ok (InputActive None)
  | Some a =>
      match arg_int a with
      | None => Err TypeError
      | Some v => if v <? 0 then Err ValueError else Ok (InputActive (Some v))
      end
  end.

(** ** The protocol of one stream of control messages *)

(** The watermark a resuming stream announces. *)
Definition resume_of (watermark : Z) : option Z := if watermark <? 0 then None else Some watermark.

(** The receiver's view: the progress so far and whether the stream is idle. *)
Definition protocol_step (s : option (Z * bool)) (c : StreamControl) : option (Z * bool) :=
  '(w, idle) ← s;
  match c with
  | Watermark t => if negb idle && (w <? t) then Some (t, idle) else None
  | InputIdle => if idle then None else Some (w, true)
  | InputActive r => if idle && bool_decide (r = resume_of w) then Some (w, false) else None
  | RescaleBarrier _ _ => Some (w, idle)
  end.

(** Runs the protocol; [None] is a violation. *)
Definition protocol (w : Z) (idle : bool) (cs : list StreamControl) : option (Z * bool) :=
  foldl protocol_step (Some (w, idle)) cs.

Lemma protocol_app w idle cs1 cs2 :
  protocol w idle (cs1 ++ cs2) =
  match protocol w idle cs1 with Some (w', idle') => protocol w' idle' cs2 | None => None end.
Proof.
  unfold protocol. rewrite foldl_app. destruct (foldl _ _ cs1) as [[w' i']|]; [done|].
  induction cs2; [done|]. cbn. done.
Qed.

(** ** The tracker *)

(** [_InputState]. *)
Record InputState := mkInputState { in_watermark : option Z; in_idle : bool }.

Definition fresh_input : InputState := mkInputState None false.

Section tracker.
Context {I : Type} `{Countable I}.

(** [InputWatermarkTracker]'s attributes; the order of [_inputs] is not
    observable. *)
Record Tracker := mkTracker {
  tr_inputs : gmap I InputState;
  tr_output_watermark : Z;
  tr_output_idle : bool
}.

Implicit Types (t : Tracker) (sender : I).

Definition Tracker_init (input_ids : list I) : Tracker :=
  mkTracker (list_to_map ((λ i, (i, fresh_input)) <$> input_ids)) (-1) false.

Definition tracker_states t : list InputState := (map_to_list (tr_inputs t)).*2.

Definition idle_input_count t : nat := length (filter (λ s, in_idle s = true) (tracker_states t)).

Definition set_input sender (s : InputState) t : Tracker :=
  mkTracker (<[sender := s]> (tr_inputs t)) (tr_output_watermark t) (tr_output_idle t).

Definition set_output_idle (idle : bool) t : Tracker :=
  mkTracker (tr_inputs t) (tr_output_watermark t) idle.

(** [all(state.idle for state in self._inputs.values())]. *)
Definition all_inputs_idle t : bool := forallb in_idle (tracker_states t).

(** [snapshot_state] and [restore_state]. *)
Definition tracker_snapshot t : list (I * option Z * bool) * Z * bool :=
  ((λ '(i, s), (i, in_watermark s, in_idle s)) <$> map_to_list (tr_inputs t),
   tr_output_watermark t, tr_output_idle t).

Definition tracker_restore (snapshot : list (I * option Z * bool) * Z * bool) : Tracker :=
  let '(inputs, watermark, idle) := snapshot in
  mkTracker (list_to_map ((λ '(i, w, b), (i, mkInputState w b)) <$> inputs)) watermark idle.

(** [_resume_watermark]. *)
Definition tracker_resume_watermark t : option Z := resume_of (tr_output_watermark t).

(** [_reactivate_output]. *)
Definition reactivate_output (should_reactivate : bool) t : list StreamControl * Tracker :=
  if should_reactivate
  then ([InputActive (tracker_resume_watermark t)], set_output_idle false t)
  else ([], t).

Definition min_list (x : Z) (l : list Z) : Z := foldl Z.min x l.

(** [_advance]. *)
Definition tracker_advance t : list StreamControl * Tracker :=
  let active := filter (λ s, in_idle s = false) (tracker_states t) in
  if existsb (λ s, bool_decide (in_watermark s = None)) active then ([], t)
  else
    match omap in_watermark active with
    | [] => ([], t)
    | w :: ws =>
        let candidate := min_list w ws in
        if candidate <=? tr_output_watermark t then ([], t)
        else ([Watermark candidate], mkTracker (tr_inputs t) candidate (tr_output_idle t))
    end.

(** [_all_inputs_were_idle_except]. *)
Definition all_inputs_were_idle_except sender t : bool :=
  forallb (λ '(i, s), bool_decide (i = sender) || in_idle s) (map_to_list (tr_inputs t)).

(** [reconfigure_inputs]. *)
Definition reconfigure_inputs (input_ids : list I) t : list StreamControl * Tracker :=
  let t := mkTracker (list_to_map ((λ i, (i, default fresh_input (tr_inputs t !! i))) <$> input_ids))
             (tr_output_watermark t) (tr_output_idle t) in
  if decide (tr_inputs t = ∅) then ([], t)
  else if all_inputs_idle t then
    if tr_output_idle t then ([], t) else ([InputIdle], set_output_idle true t)
  else
    let '(output, t) := reactivate_output (tr_output_idle t) t in
    let '(advanced, t) := tracker_advance t in
    (output ++ advanced, t).

Definition on_watermark sender (state : InputState) (timestamp : Z) t : list StreamControl * Tracker :=
  let was_idle := in_idle state in
  let is_newer := match in_watermark state with None => true | Some w => w <? timestamp end in
  let t := set_input sender
             (mkInputState (if is_newer then Some timestamp else in_watermark state) false) t in
  let '(output, t) :=
    reactivate_output (tr_output_idle t || (was_idle && all_inputs_were_idle_except sender t)) t in
  if is_newer then
    let '(advanced, t) := tracker_advance t in (output ++ advanced, t)
  else (output, t).

Definition on_idle sender (state : InputState) t : list StreamControl * Tracker :=
  if in_idle state then ([], t)
  else
    let t := set_input sender (mkInputState (in_watermark state) true) t in
    if all_inputs_idle t then
      if tr_output_idle t then ([], t) else ([InputIdle], set_output_idle true t)
    else tracker_advance t.

Definition on_active sender (state : InputState) (resume_watermark : option Z) t : list StreamControl * Tracker :=
  let w := match resume_watermark with
           | None => in_watermark state
           | Some r => Some (Z.max (default (-1) (in_watermark state)) r)
           end in
  let t := set_input sender (mkInputState w false) t in
  let '(output, t) := reactivate_output (tr_output_idle t) t in
  let '(advanced, t) := tracker_advance t in
  (output ++ advanced, t).

(** [on_control]; the default state is stored before the control is looked at. *)
Definition on_control sender (control : StreamControl) t : outcome (list StreamControl) * Tracker :=
  let state := default fresh_input (tr_inputs t !! sender) in
  let t := set_input sender state t in
  match control with
  | Watermark timestamp => let '(o, t) := on_watermark sender state timestamp t in (Ok o, t)
  | InputIdle => let '(o, t) := on_idle sender state t in (Ok o, t)
  | InputActive r => let '(o, t) := on_active sender state r t in (Ok o, t)
  | RescaleBarrier _ _ => (Err TypeError, t)
  end.
End tracker.
Arguments Tracker I {_ _}.

(** ** Lemmas: the tracker *)

Lemma min_list_spec x l : min_list x l ∈ x :: l ∧ ∀ y, y ∈ x :: l → min_list x l <= y.
Proof.
  unfold min_list. revert x; induction l as [|z l IH]; intros x; cbn [foldl].
  - split; [by left|]. intros y [->|?%not_elem_of_nil]%elem_of_cons; done.
  - destruct (IH (Z.min x z)) as [Hin Hle]. split.
    + apply elem_of_cons in Hin as [->|Hin]; [|by do 2 right].
      destruct (Z.min_spec x z) as [[_ ->]|[_ ->]]; [by left|by right; left].
    + intros y [->|[->|Hy]%elem_of_cons]%elem_of_cons.
      * specialize (Hle (Z.min x z)). etrans; [apply Hle; by left|lia].
      * specialize (Hle (Z.min x z)). etrans; [apply Hle; by left|lia].
      * apply Hle. by right.
Qed.

Section tracker_lemmas.
Context {I : Type} `{Countable I}.
Implicit Types (t : Tracker I) (sender : I).

Lemma elem_of_tracker_states t s : s ∈ tracker_states t ↔ ∃ i, tr_inputs t !! i = Some s.
Proof.
  unfold tracker_states. rewrite list_elem_of_fmap. split.
  - intros ([i s'] & -> & Hi%elem_of_map_to_list). eauto.
  - intros [i Hi]. exists (i, s). split; [done|]. by apply elem_of_map_to_list.
Qed.

Lemma all_inputs_idle_spec t :
  all_inputs_idle t = true ↔ ∀ i s, tr_inputs t !! i = Some s → in_idle s = true.
Proof.
  unfold all_inputs_idle. rewrite forallb_True', Forall_forall. setoid_rewrite elem_of_tracker_states. naive_solver.
Qed.

(** An input that counts for the minimum. *)
Definition active_input t (i : I) (s : InputState) : Prop := tr_inputs t !! i = Some s ∧ in_idle s = false.

(** What [_advance] emits: nothing, or the minimum over the active inputs, when all
    of them have a watermark and the minimum is progress. *)
Lemma tracker_advance_spec t o t' :
  tracker_advance t = (o, t') →
  tr_inputs t' = tr_inputs t ∧ tr_output_idle t' = tr_output_idle t ∧
  ((o = [] ∧ t' = t) ∨
   (∃ c, o = [Watermark c] ∧ tr_output_watermark t < c ∧ tr_output_watermark t' = c ∧
      (∀ i s, active_input t i s → ∃ w, in_watermark s = Some w ∧ c <= w) ∧
      (∃ i s, active_input t i s ∧ in_watermark s = Some c))) ∧
  ((∀ i s, active_input t i s → is_Some (in_watermark s)) → (∃ i s, active_input t i s) →
   ∃ i s w, active_input t i s ∧ in_watermark s = Some w ∧ w <= tr_output_watermark t').
Proof.
  unfold tracker_advance. set (active := filter _ _).
  assert (Hact : ∀ s, s ∈ active ↔ ∃ i, active_input t i s).
  { intros s. unfold active, active_input. rewrite list_elem_of_filter, elem_of_tracker_states. naive_solver. }
  destruct (existsb _ active) eqn:Hnone.
  { intros [= <- <-]. split_and!; [done|done|by left|]. intros Hall _.
    apply existsb_True' in Hnone as (s & Hs%Hact & Hn). destruct Hs as [i Hs].
    destruct (Hall _ _ Hs) as [w Hw]. rewrite Hw in Hn. by case_bool_decide. }
  assert (Hsome : ∀ s, s ∈ active → is_Some (in_watermark s)).
  { intros s Hs. destruct (in_watermark s) eqn:E; [eauto|]. exfalso.
    assert (existsb (λ s, bool_decide (in_watermark s = None)) active = true); [|congruence].
    apply existsb_True'. exists s. rewrite E. done. }
  assert (Hom : ∀ w, w ∈ omap in_watermark active ↔ ∃ i s, active_input t i s ∧ in_watermark s = Some w).
  { intros w. rewrite list_elem_of_omap. setoid_rewrite Hact. naive_solver. }
  destruct (omap in_watermark active) as [|w ws] eqn:E.
  { intros [= <- <-]. split_and!; [done|done|by left|]. intros Hall (i & s & Hs).
    destruct (Hall _ _ Hs) as [w Hw]. assert (w ∈ ([] : list Z)) as []%not_elem_of_nil. apply Hom. eauto. }
  destruct (min_list_spec w ws) as [Hin Hle]. apply Hom in Hin as (i & s & Hs & Hw).
  destruct (Z.leb_spec (min_list w ws) (tr_output_watermark t)) as [Hc|Hc]; intros [= <- <-]; cbn.
  - split_and!; [done|done|by left|]. intros _ _. by exists i, s, (min_list w ws).
  - split_and!; [done|done| |].
    + right. exists (min_list w ws). split_and!; [done|done|done| |by exists i, s].
      intros i' s' Hs'. destruct (Hsome s') as [w' Hw']; [apply Hact; eauto|].
      exists w'. split; [done|]. apply Hle. apply Hom. eauto.
    + intros _ _. exists i, s, (min_list w ws). done.
Qed.

(** The output is idle exactly when every input is. *)
Definition idle_inv t : Prop :=
  (tr_output_idle t = true → all_inputs_idle t = true) ∧
  (tr_inputs t ≠ ∅ → all_inputs_idle t = true → tr_output_idle t = true).

(** What a call must establish: its output follows the protocol from the old
    output state to the new one, the invariant holds again, and a watermark in it is
    covered by every active input. *)
Definition emits t (o : list StreamControl) t' : Prop :=
  protocol (tr_output_watermark t) (tr_output_idle t) o = Some (tr_output_watermark t', tr_output_idle t') ∧
  idle_inv t' ∧
  ∀ c, Watermark c ∈ o → tr_output_watermark t' = c ∧
    ∀ i s, active_input t' i s → ∃ w, in_watermark s = Some w ∧ c <= w.

Lemma all_inputs_idle_false t : all_inputs_idle t = false → ∃ i s, active_input t i s.
Proof.
  unfold all_inputs_idle, active_input. intros Hf.
  assert (Hex : existsb (λ s, negb (in_idle s)) (tracker_states t) = true).
  { revert Hf. induction (tracker_states t) as [|s l IH]; cbn; [done|]. destruct (in_idle s); cbn; auto. }
  apply existsb_True' in Hex as (s & [i Hi]%elem_of_tracker_states & Hs). exists i, s.
  split; [done|]. by destruct (in_idle s).
Qed.

Lemma all_inputs_idle_same t t' : tr_inputs t' = tr_inputs t → all_inputs_idle t' = all_inputs_idle t.
Proof. unfold all_inputs_idle, tracker_states. by intros ->. Qed.

Lemma reactivate_output_inputs b t o t' : reactivate_output b t = (o, t') → tr_inputs t' = tr_inputs t.
Proof. unfold reactivate_output. by destruct b; intros [= <- <-]. Qed.

(** [_reactivate_output] followed by [_advance], with an active input present. *)
Lemma reactivate_advance_emits t o1 t1 o2 t2 :
  all_inputs_idle t = false → reactivate_output (tr_output_idle t) t = (o1, t1) → tracker_advance t1 = (o2, t2) →
  emits t (o1 ++ o2) t2 ∧ tr_inputs t2 = tr_inputs t.
Proof.
  intros Hact Hre Hadv. destruct (tracker_advance_spec _ _ _ Hadv) as (Hi & Hid & Hcase & _).
  assert (H1 : tr_inputs t1 = tr_inputs t ∧ tr_output_watermark t1 = tr_output_watermark t ∧
    tr_output_idle t1 = false ∧ protocol (tr_output_watermark t) (tr_output_idle t) o1 = Some (tr_output_watermark t, false)
    ∧ ∀ c, Watermark c ∉ o1).
  { unfold reactivate_output in Hre. destruct (tr_output_idle t) eqn:E; simplify_eq; cbn.
    - unfold tracker_resume_watermark. rewrite bool_decide_true by done. split_and!; try done.
      intros c Hc. apply list_elem_of_singleton in Hc. done.
    - split_and!; try done. by intros c Hc%not_elem_of_nil. }
  destruct H1 as (Hi1 & Hw1 & Hid1 & Hp1 & Hno). split; [|congruence].
  assert (Hidle2 : all_inputs_idle t2 = false) by (rewrite (all_inputs_idle_same t); congruence).
  split_and!.
  - rewrite protocol_app, Hp1. rewrite Hid1 in Hid. destruct Hcase as [[-> ->]|(c & -> & Hc & Hc' & _)]; cbn.
    + by rewrite Hw1, Hid1.
    + rewrite (proj2 (Z.ltb_lt _ _)) by lia. by rewrite Hc', Hid.
  - split; congruence.
  - intros c [Hc|Hc]%elem_of_app; [by apply Hno in Hc|].
    destruct Hcase as [[-> _]|(c' & -> & _ & Hc' & Hall & _)]; [by apply not_elem_of_nil in Hc|].
    apply list_elem_of_singleton in Hc. injection Hc as ->. split; [done|].
    intros i s [His Hs]. apply (Hall i). split; [congruence|done].
Qed.

Lemma set_input_active t sender s : in_idle s = false → all_inputs_idle (set_input sender s t) = false.
Proof.
  intros Hs. destruct (all_inputs_idle (set_input sender s t)) eqn:E; [|done].
  apply all_inputs_idle_spec with (i := sender) (s := s) in E; [congruence|]. cbn. by rewrite lookup_insert_eq.
Qed.

(** When the sender was the only active input, the output was idle already. *)
Lemma all_idle_except_idle t sender state s :
  idle_inv t → default fresh_input (tr_inputs t !! sender) = state → in_idle state = true →
  all_inputs_were_idle_except sender (set_input sender s t) = true → tr_output_idle t = true.
Proof.
  intros [_ Hinv] Hst Hidle Hall. unfold all_inputs_were_idle_except in Hall.
  apply forallb_True' in Hall. rewrite Forall_forall in Hall.
  destruct (tr_inputs t !! sender) as [s0|] eqn:E; cbn in Hst; [|by subst].
  apply Hinv; [intros Hn; by rewrite Hn in E|]. apply all_inputs_idle_spec.
  intros i s' Hi. destruct (decide (i = sender)) as [->|Hne]; [congruence|].
  specialize (Hall (i, s')). cbn in Hall. rewrite bool_decide_false in Hall by done. apply Hall.
  apply elem_of_map_to_list. cbn. by rewrite lookup_insert_ne.
Qed.

Lemma set_input_twice t sender s s' : set_input sender s' (set_input sender s t) = set_input sender s' t.
Proof. unfold set_input; cbn. by rewrite insert_insert_eq. Qed.

Lemma on_watermark_emits t sender ts state o t' :
  idle_inv t → default fresh_input (tr_inputs t !! sender) = state →
  on_watermark sender state ts (set_input sender state t) = (o, t') → emits t o t'.
Proof.
  intros Hinv Hst. unfold on_watermark. rewrite set_input_twice.
  set (newer := match in_watermark state with None => true | Some w => w <? ts end).
  set (t1 := set_input sender _ t). cbv zeta.
  assert (tr_output_idle t1 || (in_idle state && all_inputs_were_idle_except sender t1) = tr_output_idle t1) as ->.
  { destruct (tr_output_idle t1) eqn:E; [done|]. cbn. destruct (in_idle state) eqn:Ei; [|done]. cbn.
    destruct (all_inputs_were_idle_except sender t1) eqn:Ea; [|done].
    pose proof (all_idle_except_idle t sender state _ Hinv Hst Ei Ea). cbn in E. congruence. }
  assert (Hact : all_inputs_idle t1 = false) by by apply set_input_active.
  destruct (reactivate_output (tr_output_idle t1) t1) as [o1 t2] eqn:Hre.
  destruct newer.
  - destruct (tracker_advance t2) as [o2 t3] eqn:Hadv. intros [= <- <-].
    by destruct (reactivate_advance_emits _ _ _ _ _ Hact Hre Hadv).
  - intros [= <- <-]. unfold reactivate_output in Hre. cbn [t1 set_input tr_output_idle] in Hre.
    destruct (tr_output_idle t) eqn:E; simplify_eq; unfold emits; cbn; rewrite E; cbn.
    + unfold tracker_resume_watermark. rewrite bool_decide_true by done. split_and!; [done| |].
      * split; [done|]. intros _ Hall. rewrite (all_inputs_idle_same t1) in Hall by done. congruence.
      * intros c Hc%list_elem_of_singleton. done.
    + split_and!; [done| |by intros c Hc%not_elem_of_nil].
      split; [cbn; congruence|]. congruence.
Qed.

Lemma on_idle_emits t sender state o t' :
  idle_inv t → default fresh_input (tr_inputs t !! sender) = state →
  on_idle sender state (set_input sender state t) = (o, t') → emits t o t'.
Proof.
  intros Hinv Hst. unfold on_idle. rewrite set_input_twice.
  assert (Hid : ∀ s, tr_output_idle t = true → in_idle s = true → all_inputs_idle (set_input sender s t) = true).
  { intros s Hout Hs. pose proof (proj1 Hinv Hout) as Hall. rewrite all_inputs_idle_spec in Hall.
    apply all_inputs_idle_spec. cbn. intros i s' [[_ <-]|[_ Hi]]%lookup_insert_Some; [done|eauto]. }
  destruct (in_idle state) eqn:Es.
  - intros [= <- <-]. split_and!; [done| |by intros c Hc%not_elem_of_nil].
    split; cbn; [by intros; apply Hid|]. intros _ Hall. apply (proj2 Hinv).
    + intros Hn. rewrite Hn in Hst. cbn in Hst. by subst.
    + rewrite all_inputs_idle_spec in Hall |- *. intros i s Hi. apply (Hall i). cbn.
      destruct (decide (i = sender)) as [->|Hne]; [|by rewrite lookup_insert_ne].
      rewrite Hi in Hst. cbn in Hst. subst. by rewrite lookup_insert_eq.
  - set (t1 := set_input sender _ t). destruct (all_inputs_idle t1) eqn:Hall.
    + cbn [t1 set_input tr_output_idle]. destruct (tr_output_idle t) eqn:E; intros [= <- <-]; unfold emits; cbn; rewrite E.
      * split_and!; [done| |by intros c Hc%not_elem_of_nil]. split; [done|]. done.
      * split_and!; [done| |by intros c Hc%list_elem_of_singleton].
        split; cbn; [by rewrite (all_inputs_idle_same t1)|done].
    + intros Hadv. assert (Hout : tr_output_idle t1 = false).
      { cbn. destruct (tr_output_idle t) eqn:E; [|done].
        enough (all_inputs_idle t1 = true) by congruence. by apply Hid. }
      destruct (reactivate_advance_emits t1 [] t1 o t') as [Hem _]; try done. by rewrite Hout.
Qed.

Lemma on_active_emits t sender state r o t' :
  idle_inv t → default fresh_input (tr_inputs t !! sender) = state →
  on_active sender state r (set_input sender state t) = (o, t') → emits t o t'.
Proof.
  intros Hinv Hst. unfold on_active. rewrite set_input_twice. set (t1 := set_input sender _ t). cbv zeta.
  destruct (reactivate_output (tr_output_idle t1) t1) as [o1 t2] eqn:Hre.
  destruct (tracker_advance t2) as [o2 t3] eqn:Hadv. intros [= <- <-].
  assert (Hact : all_inputs_idle t1 = false) by by apply set_input_active.
  by destruct (reactivate_advance_emits t1 o1 t2 o2 t3 Hact Hre Hadv).
Qed.

Lemma reconfigure_inputs_emits t ids o t' :
  idle_inv t → reconfigure_inputs ids t = (o, t') → emits t o t'.
Proof.
  intros Hinv. unfold reconfigure_inputs. set (t1 := mkTracker _ _ _). cbv zeta.
  case_decide as Hemp.
  { intros [= <- <-]. split_and!; [done| |by intros c Hc%not_elem_of_nil].
    split; [|done]. intros _. apply all_inputs_idle_spec. intros i s Hi. rewrite Hemp in Hi. done. }
  destruct (all_inputs_idle t1) eqn:Hall.
  - cbn [t1 tr_output_idle]. destruct (tr_output_idle t) eqn:E; intros [= <- <-]; unfold emits; cbn; rewrite E.
    + split_and!; [done| |by intros c Hc%not_elem_of_nil]. split; [done|]. done.
    + split_and!; [done| |by intros c Hc%list_elem_of_singleton].
      split; cbn; [by rewrite (all_inputs_idle_same t1)|done].
  - destruct (reactivate_output (tr_output_idle t1) t1) as [o1 t2] eqn:Hre.
    destruct (tracker_advance t2) as [o2 t3] eqn:Hadv. intros [= <- <-].
    by destruct (reactivate_advance_emits _ _ _ _ _ Hall Hre Hadv).
Qed.

Lemma on_control_emits t sender control o t' :
  idle_inv t → on_control sender control t = (Ok o, t') → emits t o t'.
Proof.
  intros Hinv. unfold on_control. destruct control; cbn; try done.
  - destruct (on_watermark _ _ _ _) eqn:E. intros [= <- <-]. by eapply on_watermark_emits.
  - destruct (on_idle _ _ _) eqn:E. intros [= <- <-]. by eapply on_idle_emits.
  - destruct (on_active _ _ _ _) eqn:E. intros [= <- <-]. by eapply on_active_emits.
Qed.
End tracker_lemmas.

(** ** Histories of the tracker *)

Section tracker_histories.
Context {I : Type} `{Countable I}.
Implicit Types (t : Tracker I).

(** A call that changes the tracker. *)
Inductive tracker_call :=
  | CallControl (sender : I) (control : StreamControl)
  | CallReconfigure (input_ids : list I).

Definition run_tracker_call (acc : list StreamControl * Tracker I) (call : tracker_call)
    : outcome (list StreamControl * Tracker I) :=
  let '(outputs, t) := acc in
  match call with
  | CallControl sender control =>
      match on_control sender control t with
      | (Ok o, t) => Ok (outputs ++ o, t)
      | (Err e, _) => Err e
      end
  | CallReconfigure ids => let '(o, t) := reconfigure_inputs ids t in Ok (outputs ++ o, t)
  end.

Lemma tracker_init_inv (ids : list I) : idle_inv (Tracker_init ids).
Proof.
  split; [done|]. cbn. intros Hne Hall. exfalso. apply Hne. apply map_empty. intros i.
  rewrite all_inputs_idle_spec in Hall. destruct (list_to_map _ !! i) as [s|] eqn:E; [|done].
  pose proof (Hall _ _ E) as Hs. apply elem_of_list_to_map_2 in E.
  apply list_elem_of_fmap in E as (? & [= -> ->] & _). done.
Qed.

Lemma run_tracker_calls_protocol w idle calls outs t :
  ∀ outs0 t0, idle_inv t0 → protocol w idle outs0 = Some (tr_output_watermark t0, tr_output_idle t0) →
  foldM run_tracker_call (outs0, t0) calls = Ok (outs, t) →
  protocol w idle outs = Some (tr_output_watermark t, tr_output_idle t) ∧ idle_inv t.
Proof.
  intros outs0 t0 Hinv Hp Hrun.
  set (P := λ acc : list StreamControl * Tracker I,
    protocol w idle acc.1 = Some (tr_output_watermark acc.2, tr_output_idle acc.2) ∧ idle_inv acc.2).
  change (P (outs, t)). eapply (foldM_inv P run_tracker_call calls (outs0, t0)); [|split; [exact Hp|exact Hinv]|exact Hrun].
  assert (Happ : ∀ o o' t1 t2, P (o, t1) → emits t1 o' t2 → P (o ++ o', t2)).
  { intros o o' t1 t2 [Hp1 Hi1] (Hp2 & Hi2 & _). split; [|done].
    change (protocol w idle (o ++ o') = Some (tr_output_watermark t2, tr_output_idle t2)).
    change (protocol w idle o = Some (tr_output_watermark t1, tr_output_idle t1)) in Hp1.
    by rewrite protocol_app, Hp1. }
  intros [o1 t1] call acc' HP _. destruct call as [sender control|ids]; cbn.
  - destruct (on_control sender control t1) as [[o2|e] t2] eqn:E; [|done]. intros [= <-].
    eapply Happ; [exact HP|]. eapply on_control_emits; [apply HP|exact E].
  - destruct (reconfigure_inputs ids t1) as [o2 t2] eqn:E. intros [= <-].
    eapply Happ; [exact HP|]. eapply reconfigure_inputs_emits; [apply HP|exact E].
Qed.
End tracker_histories.

(** ** The watermark operator *)

Section watermark_operator.
(** The block of a record, and the monotonic clock: [elapsed_ms_reaches last now ms]
    stands for [(now - last) * 1000 >= ms] on the clock's floats. *)
Context {Block Clock : Type} (elapsed_ms_reaches : Clock → Clock → Z → bool).

(** [WatermarkStrategy]; the assigner may raise or return anything. *)
Record WatermarkStrategy := mkWatermarkStrategy {
  ws_timestamp_assigner : Block → outcome pyarg;
  ws_max_out_of_orderness_ms : Z;
  ws_idle_timeout_ms : option Z
}.

(** [__post_init__] of a strategy whose assigner is callable. *)
Definition WatermarkStrategy_init (assigner : Block → outcome pyarg) (max_out_of_orderness_ms : Z)
    (idle_timeout_ms : option Z) : outcome WatermarkStrategy :=
  if max_out_of_orderness_ms <? 0 then Err ValueError
  else if match idle_timeout_ms with Some i => i <=? 0 | None => false end then Err ValueError
  else Ok (mkWatermarkStrategy assigner max_out_of_orderness_ms idle_timeout_ms).

(** [WatermarkOperator]'s attributes. *)
Record WatermarkOperator := mkWatermarkOperator {
  wo_max_timestamp : Z;
  wo_last_emitted_watermark : Z;
  wo_last_record_monotonic : Clock;
  wo_idle : bool
}.

Definition WatermarkOperator_init (now : Clock) : WatermarkOperator := mkWatermarkOperator (-1) (-1) now false.

(** What the operator collects. *)
Inductive collected := CRecord (timestamp : Z) (block : Block) | CControl (c : StreamControl).

Definition wo_process_element (strategy : WatermarkStrategy) (block : Block) (now : Clock) (o : WatermarkOperator)
    : outcome (list collected) * WatermarkOperator :=
  match ws_timestamp_assigner strategy block with
  | Err e => (Err e, o)
  | Ok timestamp =>
      match arg_int timestamp with
      | None => (Err ValueError, o)
      | Some ts =>
          if ts <? 0 then (Err ValueError, o)
          else
            let resumed :=
              if wo_idle o then [CControl (InputActive (resume_of (wo_last_emitted_watermark o)))] else [] in
            let max_timestamp := Z.max (wo_max_timestamp o) ts in
            let candidate := max_timestamp - ws_max_out_of_orderness_ms strategy in
            let advances := (0 <=? candidate) && (wo_last_emitted_watermark o <? candidate) in
            (Ok (resumed ++ [CRecord ts block] ++ if advances then [CControl (Watermark candidate)] else []),
             mkWatermarkOperator max_timestamp
               (if advances then candidate else wo_last_emitted_watermark o) now false)
      end
  end.

Definition wo_on_idle (strategy : WatermarkStrategy) (now : Clock) (o : WatermarkOperator)
    : list collected * WatermarkOperator :=
  match ws_idle_timeout_ms strategy with
  | None => ([], o)
  | Some timeout =>
      if wo_idle o then ([], o)
      else if elapsed_ms_reaches (wo_last_record_monotonic o) now timeout
      then ([CControl InputIdle],
            mkWatermarkOperator (wo_max_timestamp o) (wo_last_emitted_watermark o) (wo_last_record_monotonic o) true)
      else ([], o)
  end.

Definition wo_on_input_idle (o : WatermarkOperator) : WatermarkOperator :=
  mkWatermarkOperator (wo_max_timestamp o) (wo_last_emitted_watermark o) (wo_last_record_monotonic o) true.

Definition wo_on_input_active (now : Clock) (o : WatermarkOperator) : WatermarkOperator :=
  mkWatermarkOperator (wo_max_timestamp o) (wo_last_emitted_watermark o) now false.

(** The controls among what is collected. *)
Definition controls_of (l : list collected) : list StreamControl :=
  omap (λ c, match c with CControl c => Some c | CRecord _ _ => None end) l.

(** The calls of a source's operator: records and idle checks. *)
Inductive wo_call := WoRecord (block : Block) (now : Clock) | WoIdle (now : Clock).

Definition wo_run (strategy : WatermarkStrategy) (acc : list collected * WatermarkOperator) (call : wo_call)
    : outcome (list collected * WatermarkOperator) :=
  let '(out, o) := acc in
  match call with
  | WoRecord block now =>
      match wo_process_element strategy block now o with
      | (Ok l, o) => Ok (out ++ l, o)
      | (Err e, _) => Err e
      end
  | WoIdle now => let '(l, o) := wo_on_idle strategy now o in Ok (out ++ l, o)
  end.

(** No record of the output is behind a watermark emitted before it, unless it was
    more than the bound behind the largest timestamp before it. *)
Fixpoint records_on_time (bound max_ts watermark : Z) (l : list collected) : Prop :=
  match l with
  | [] => True
  | CRecord ts _ :: l =>
      (max_ts - bound <= ts → watermark <= ts) ∧ records_on_time bound (Z.max max_ts ts) watermark l
  | CControl (Watermark w) :: l => records_on_time bound max_ts w l
  | CControl _ :: l => records_on_time bound max_ts watermark l
  end.

(** The largest timestamp and the last watermark of an output. *)
Definition max_timestamp_of (m : Z) (l : list collected) : Z :=
  foldl (λ m c, match c with CRecord ts _ => Z.max m ts | _ => m end) m l.

Definition last_watermark_of (w : Z) (l : list collected) : Z :=
  foldl (λ w c, match c with CControl (Watermark t) => t | _ => w end) w l.

Lemma records_on_time_app bound m w l1 l2 :
  records_on_time bound m w (l1 ++ l2) ↔
  records_on_time bound m w l1 ∧ records_on_time bound (max_timestamp_of m l1) (last_watermark_of w l1) l2.
Proof.
  revert m w; induction l1 as [|c l1 IH]; intros m w; cbn; [tauto|].
  destruct c as [ts b|[t| | |]]; cbn; rewrite IH; tauto.
Qed.

Definition wo_ok (strategy : WatermarkStrategy) (out : list collected) (o : WatermarkOperator) : Prop :=
  protocol (-1) false (controls_of out) = Some (wo_last_emitted_watermark o, wo_idle o) ∧
  max_timestamp_of (-1) out = wo_max_timestamp o ∧
  last_watermark_of (-1) out = wo_last_emitted_watermark o ∧
  wo_last_emitted_watermark o = Z.max (-1) (wo_max_timestamp o - ws_max_out_of_orderness_ms strategy) ∧
  records_on_time (ws_max_out_of_orderness_ms strategy) (-1) (-1) out.

Lemma wo_ok_app strategy out o l o' :
  wo_ok strategy out o →
  protocol (wo_last_emitted_watermark o) (wo_idle o) (controls_of l) = Some (wo_last_emitted_watermark o', wo_idle o') →
  max_timestamp_of (wo_max_timestamp o) l = wo_max_timestamp o' →
  last_watermark_of (wo_last_emitted_watermark o) l = wo_last_emitted_watermark o' →
  wo_last_emitted_watermark o' = Z.max (-1) (wo_max_timestamp o' - ws_max_out_of_orderness_ms strategy) →
  records_on_time (ws_max_out_of_orderness_ms strategy) (wo_max_timestamp o) (wo_last_emitted_watermark o) l →
  wo_ok strategy (out ++ l) o'.
Proof.
  intros (Hp & Hm & Hw & _ & Hr) Hp' Hm' Hw' He' Hr'. unfold wo_ok.
  assert (controls_of (out ++ l) = controls_of out ++ controls_of l) as ->.
  { unfold controls_of. clear. induction out as [|[]]; cbn; [done|done|by f_equal]. }
  rewrite protocol_app, Hp, records_on_time_app, Hm, Hw.
  unfold max_timestamp_of, last_watermark_of in *. rewrite !foldl_app, Hm, Hw. done.
Qed.

Lemma wo_run_ok strategy out o call out' o' :
  0 <= ws_max_out_of_orderness_ms strategy → wo_ok strategy out o →
  wo_run strategy (out, o) call = Ok (out', o') → wo_ok strategy out' o'.
Proof.
  intros Hb Hok. pose proof Hok as (_ & _ & _ & Hlast & _). destruct call as [block now|now]; cbn.
  - unfold wo_process_element. destruct (ws_timestamp_assigner strategy block) as [a|e]; [|done].
    destruct (arg_int a) as [ts|]; [|done]. destruct (Z.ltb_spec ts 0) as [|Hts]; [done|].
    set (cand := Z.max (wo_max_timestamp o) ts - ws_max_out_of_orderness_ms strategy).
    assert (Hadv : (0 <=? cand) && (wo_last_emitted_watermark o <? cand) =
      (wo_last_emitted_watermark o <? cand)).
    { destruct (Z.leb_spec 0 cand), (Z.ltb_spec (wo_last_emitted_watermark o) cand); cbn; [done..|lia|done]. }
    rewrite Hadv. intros [= <- <-]. apply (wo_ok_app _ _ o); [done| | | | |];
      destruct (Z.ltb_spec (wo_last_emitted_watermark o) cand), (wo_idle o) eqn:Ei; cbn;
      rewrite ?bool_decide_true by done; cbn; rewrite ?(proj2 (Z.ltb_lt _ _)) by lia; try done; try lia.
  - unfold wo_on_idle. destruct (ws_idle_timeout_ms strategy) as [timeout|]; [|intros [= <- <-]; by rewrite app_nil_r].
    destruct (wo_idle o) eqn:Ei; [intros [= <- <-]; by rewrite app_nil_r|].
    destruct (elapsed_ms_reaches _ _ _); intros [= <- <-]; [|by rewrite app_nil_r].
    apply (wo_ok_app _ _ o); cbn; rewrite ?Ei; done.
Qed.
End watermark_operator.

(** ** Properties *)

(** C14. The tracker's whole output follows the control protocol: whatever
    controls its inputs send and however the inputs are reconfigured, in any order,
    the watermarks it sends strictly increase and are sent only while it is active,
    [InputIdle] and [InputActive] alternate, each [InputActive] carries the progress
    reached, and the tracker's own attributes are the receiver's view. *)
Theorem tracker_protocol {I : Type} `{Countable I} (ids : list I) calls outputs (t : Tracker I) :
  foldM run_tracker_call ([], Tracker_init ids) calls = Ok (outputs, t) →
  protocol (-1) false outputs = Some (tr_output_watermark t, tr_output_idle t) ∧
  (tr_inputs t ≠ ∅ → tr_output_idle t = all_inputs_idle t).
Proof.
  intros Hrun.
  destruct (run_tracker_calls_protocol (-1) false calls outputs t [] (Tracker_init ids)) as [Hp [H1 H2]];
    [apply tracker_init_inv|done|done|].
  split; [done|]. intros Hne. destruct (all_inputs_idle t) eqn:E; [auto|].
  destruct (tr_output_idle t); [|done]. specialize (H1 eq_refl). congruence.
Qed.

Lemma tracker_protocol_witness :
  ∃ outputs t, foldM run_tracker_call ([], Tracker_init [1; 2])
      [CallControl 1 (Watermark 5); CallControl 2 InputIdle; CallControl 1 InputIdle; CallReconfigure [2; 3]] =
      Ok (outputs, t) ∧ outputs = [Watermark 5; InputIdle; InputActive (Some 5)] ∧
    protocol (-1) false outputs = Some (tr_output_watermark t, tr_output_idle t).
Proof.
  eexists _, _. split; [vm_compute; reflexivity|]. split; [reflexivity|].
  apply (tracker_protocol [1; 2] [CallControl 1 (Watermark 5); CallControl 2 InputIdle; CallControl 1 InputIdle;
    CallReconfigure [2; 3]]). vm_compute. reflexivity.
Defined.

(** C15. One control message, on a tracker whose idle flags agree: an accepted
    message never makes the output go back, a watermark it releases is covered by
    every active input, and after a new watermark from an input the output has
    caught up with the minimum of the active inputs, once all of them have one. *)
Theorem tracker_min_progress {I : Type} `{Countable I} (t : Tracker I) sender control outputs t' :
  idle_inv t → on_control sender control t = (Ok outputs, t') →
  idle_inv t' ∧ tr_output_watermark t <= tr_output_watermark t' ∧
  (∀ c, Watermark c ∈ outputs → tr_output_watermark t' = c ∧
     ∀ i s, active_input t' i s → ∃ w, in_watermark s = Some w ∧ c <= w) ∧
  (∀ ts, control = Watermark ts →
     match tr_inputs t !! sender with
     | Some (mkInputState (Some w) _) => w < ts | _ => True end →
     (∀ i s, active_input t' i s → is_Some (in_watermark s)) →
     ∃ i s w, active_input t' i s ∧ in_watermark s = Some w ∧ w <= tr_output_watermark t').
Proof.
  intros Hinv Hc. pose proof (on_control_emits _ _ _ _ _ Hinv Hc) as (Hp & Hinv' & Hsafe).
  split_and!; [done| |done|].
  - revert Hp. generalize (tr_output_watermark t) (tr_output_idle t) (tr_output_watermark t') (tr_output_idle t').
    clear. induction outputs as [|c cs IH]; intros w i w' i'; [cbn; intros [= -> ->]; lia|].
    change (c :: cs) with ([c] ++ cs). rewrite protocol_app.
    destruct (protocol w i [c]) as [[w1 i1]|] eqn:E; [|done]. intros Hr%IH.
    enough (w <= w1) by lia. revert E. destruct c; cbn.
    + destruct i, (Z.ltb_spec w timestamp); cbn; intros [= <- <-]; lia.
    + destruct i; intros [= <- <-]; lia.
    + destruct (i && _); intros [= <- <-]; lia.
    + intros [= <- <-]; lia.
  - intros ts -> Hnew Hall. unfold on_control in Hc.
    set (state := default fresh_input (tr_inputs t !! sender)) in *.
    unfold on_watermark in Hc.
    assert (match in_watermark state with None => true | Some w => w <? ts end = true) as Hn.
    { unfold state. destruct (tr_inputs t !! sender) as [[[w|] b]|]; cbn; try done. by apply Z.ltb_lt. }
    rewrite Hn, set_input_twice in Hc.
    destruct (reactivate_output _ _) as [o1 t2] eqn:Hre.
    destruct (tracker_advance t2) as [o2 t3] eqn:Hadv. injection Hc as <- <-.
    destruct (tracker_advance_spec _ _ _ Hadv) as (Hi & _ & _ & Hprog).
    assert (tr_inputs t2 !! sender = Some (mkInputState (Some ts) false)) as Hs.
    { rewrite (reactivate_output_inputs _ _ _ _ Hre). cbn. by rewrite lookup_insert_eq. }
    assert (Ha : ∀ i s, active_input t3 i s ↔ active_input t2 i s) by (unfold active_input; intros; by rewrite Hi).
    setoid_rewrite Ha. apply Hprog; [intros i s ?; apply (Hall i); by apply Ha|].
    exists sender, (mkInputState (Some ts) false). done.
Qed.

Lemma tracker_min_progress_witness :
  idle_inv (Tracker_init [1]) ∧ ∃ outputs t', on_control 1 (Watermark 7) (Tracker_init [1]) = (Ok outputs, t') ∧
    tr_output_watermark (Tracker_init [1]) <= tr_output_watermark t'.
Proof.
  split; [apply tracker_init_inv|]. eexists _, _. split; [vm_compute; reflexivity|].
  eapply (tracker_min_progress (Tracker_init [1]) 1 (Watermark 7)); [apply tracker_init_inv|vm_compute; reflexivity].
Defined.

(** The watermark operator over any run of records and idle checks: its
    controls follow the protocol, its last watermark is always the largest timestamp
    minus the bound (or -1), and no record that is at most the bound behind the
    largest timestamp before it is behind a watermark sent before it. *)
Theorem watermark_operator_bounded {Block Clock : Type} (elapsed : Clock → Clock → Z → bool)
    (assigner : Block → outcome pyarg) bound idle_timeout strategy now calls out (o : WatermarkOperator) :
  WatermarkStrategy_init assigner bound idle_timeout = Ok strategy →
  foldM (wo_run elapsed strategy) ([], WatermarkOperator_init now) calls = Ok (out, o) →
  protocol (-1) false (controls_of out) = Some (wo_last_emitted_watermark o, wo_idle o) ∧
  wo_last_emitted_watermark o = Z.max (-1) (max_timestamp_of (-1) out - bound) ∧
  records_on_time bound (-1) (-1) out.
Proof.
  unfold WatermarkStrategy_init. destruct (Z.ltb_spec bound 0) as [|Hb]; [done|].
  intros Hs Hrun. assert (Hbd : ws_max_out_of_orderness_ms strategy = bound).
  { destruct (match idle_timeout with Some i => i <=? 0 | None => false end); [done|]. by injection Hs as <-. }
  assert (Hok : wo_ok strategy out o); [|destruct Hok as (? & <- & _ & ? & ?); by rewrite <-Hbd].
  set (P := λ acc : list (@collected Block) * @WatermarkOperator Clock, wo_ok strategy acc.1 acc.2).
  change (P (out, o)).
  eapply (foldM_inv P (wo_run elapsed strategy) calls ([], WatermarkOperator_init now)); [| |exact Hrun].
  - intros [out1 o1] call [out2 o2] Hok1 _ Hstep. eapply wo_run_ok; [lia|exact Hok1|exact Hstep].
  - unfold P, wo_ok. cbn. split_and!; try done. lia.
Qed.

Lemma watermark_operator_bounded_witness :
  ∃ out o, foldM (wo_run (λ a b ms : Z, ms <=? b - a) (mkWatermarkStrategy (λ b : Z, Ok (AInt b)) 3 (Some 10)))
      ([], WatermarkOperator_init 0) [WoRecord 10 0; WoRecord 8 1; WoIdle 11; WoRecord 12 12] = Ok (out, o) ∧
    wo_last_emitted_watermark o = Z.max (-1) (max_timestamp_of (-1) out - 3).
Proof.
  eexists _, _. split; [vm_compute; reflexivity|].
  eapply (watermark_operator_bounded (λ a b ms : Z, ms <=? b - a) (λ b : Z, Ok (AInt b)) 3 (Some 10)
    (mkWatermarkStrategy (λ b : Z, Ok (AInt b)) 3 (Some 10)) 0
    [WoRecord 10 0; WoRecord 8 1; WoIdle 11; WoRecord 12 12]); [reflexivity|vm_compute; reflexivity].
Defined.
