(* ===== verification/ReplayWatermark.v ===== *)
(** * Replay watermarks: what a task acknowledges, and when

    Models [src/ray/klein/runtime/worker/watermark.py] (the controller that
    publishes per-sender progress) and the queue of
    [src/ray/klein/runtime/worker/emit_pipeline.py] (one FIFO of delivery commands and
    watermark markers, drained by one worker).

    Both run on an event loop: every [await] of [advance] is a point where other
    coroutines run, so the controller is a step relation in which the phases of one
    [advance] interleave with processing, partial flushes and the emit worker. *)
From S2P Require Import Prelude.
Open Scope Z_scope.

Inductive WatermarkMode := DISABLED | PIPELINED | SINK.

#[export] Instance WatermarkMode_eq_dec : EqDecision WatermarkMode.
Proof. solve_decision. Defined.

Section controller.
Context {S : Type} `{Countable S}.

(** [WatermarkController]'s progress attributes. *)
Record Controller := mkController {
  wc_mode : WatermarkMode;
  wc_namespace : option string;
  wc_flush_interval_batches : Z;
  wc_forwarded_to : gmap S Z;
  wc_pending_by_sender : gmap S Z;
  wc_batches_since_flush : Z
}.

Implicit Types (c : Controller).

Definition Controller_init (mode : WatermarkMode) (flush_interval_batches : Z) (namespace : option string)
    : outcome Controller :=
  if flush_interval_batches <=? 0 then Err ValueError
  else Ok (mkController mode namespace flush_interval_batches ∅ ∅ 0).

Definition controller_active c : bool := negb (bool_decide (wc_mode c = DISABLED)).

Definition forwarded_sequence_for (sender : option S) c : Z :=
  match sender with
  | None => -1
  | Some s => default (-1) (wc_forwarded_to c !! s)
  end.

(** The state change of [apply_forwarded]; [_push_ack], which follows it, only
    sends a best-effort message. *)
Definition apply_forwarded (sender : S) (sequence : Z) c : Controller :=
  mkController (wc_mode c) (wc_namespace c) (wc_flush_interval_batches c)
    (<[sender := Z.max (default (-1) (wc_forwarded_to c !! sender)) sequence]> (wc_forwarded_to c))
    (wc_pending_by_sender c) (wc_batches_since_flush c).

(** [note_processed]: whether a flush is due. *)
Definition note_processed (sender : option S) (sequence : option Z) c : bool * Controller :=
  match sender, sequence with
  | Some s, Some q =>
      let batches := wc_batches_since_flush c + 1 in
      (wc_flush_interval_batches c <=? batches,
       mkController (wc_mode c) (wc_namespace c) (wc_flush_interval_batches c) (wc_forwarded_to c)
         (<[s := Z.max (default (-1) (wc_pending_by_sender c !! s)) q]> (wc_pending_by_sender c)) batches)
  | _, _ => (false, c)
  end.

Definition set_batches (n : Z) c : Controller :=
  mkController (wc_mode c) (wc_namespace c) (wc_flush_interval_batches c) (wc_forwarded_to c)
    (wc_pending_by_sender c) n.

(** [advance] up to its first [await]: the snapshot it will publish, if any. *)
Definition advance_start c : option (gmap S Z) * Controller :=
  if negb (controller_active c) || bool_decide (wc_pending_by_sender c = ∅)
  then (None, set_batches 0 c)
  else (Some (wc_pending_by_sender c), c).

(** One round of the loop at the end of [advance]. *)
Definition retire (m : gmap S Z) (item : S * Z) : gmap S Z :=
  if default (-1) (m !! item.1) <=? item.2 then delete item.1 m else m.

(** [advance] after [_do_advance] returned. *)
Definition advance_finish (pending : gmap S Z) c : Controller :=
  mkController (wc_mode c) (wc_namespace c) (wc_flush_interval_batches c) (wc_forwarded_to c)
    (foldl retire (wc_pending_by_sender c) (map_to_list pending)) 0.

Lemma foldl_retire (l : list (S * Z)) (m : gmap S Z) s :
  NoDup l.*1 →
  foldl retire m l !! s =
  match (list_to_map l : gmap S Z) !! s with
  | Some q => if default (-1) (m !! s) <=? q then None else m !! s
  | None => m !! s
  end.
Proof.
  revert m; induction l as [|[s' q'] l IH]; intros m Hnd; [done|]. apply NoDup_cons in Hnd as [Hni Hnd].
  cbn [foldl]. rewrite IH by done. unfold retire. cbn [fst snd list_to_map foldr].
  destruct (decide (s' = s)) as [->|Hne].
  - rewrite lookup_insert_eq, (not_elem_of_list_to_map_1 _ _ Hni).
    destruct (default (-1) (m !! s) <=? q'); [apply lookup_delete_eq|done].
  - rewrite lookup_insert_ne by done.
    assert ((if default (-1) (m !! s') <=? q' then delete s' m else m) !! s = m !! s) as ->; [|done].
    destruct (_ <=? q'); [by apply lookup_delete_ne|done].
Qed.

Lemma advance_finish_pending pending c s :
  wc_pending_by_sender (advance_finish pending c) !! s =
  match pending !! s with
  | Some q => if default (-1) (wc_pending_by_sender c !! s) <=? q then None else wc_pending_by_sender c !! s
  | None => wc_pending_by_sender c !! s
  end.
Proof. unfold advance_finish; cbn. rewrite foldl_retire by apply NoDup_fst_map_to_list. by rewrite list_to_map_to_list. Qed.

(** ** The task: processing, flushes, the emit queue and its worker *)

(** A delivery command, with the input batch whose processing produced it. *)
Record command := mkCommand { cmd_sender : S; cmd_sequence : Z; cmd_id : nat }.

(** The items of [EmitPipeline]'s queue. *)
Inductive emit_item := Commands (l : list command) | WatermarkMarker (sender_vertex_id : S) (sequence : Z).

(** Where one call of [advance] is: before the boundary flush, after it, or
    publishing the rest of the snapshot. *)
Inductive advance_phase :=
  | Idle
  | Started (pending : gmap S Z)
  | Flushed (pending : gmap S Z)
  | Publishing (pending : gmap S Z) (rest : list (S * Z)).

(** [t_unflushed]: outputs still inside input batches, the operator or micro-batches;
    [t_output]: the commands [TaskOutput] has buffered; [t_sent]: what was
    delivered (or, for a sink, written). *)
Record task := mkTask {
  t_controller : Controller;
  t_queue : list emit_item;
  t_queue_maxsize : nat;
  t_unflushed : list command;
  t_output : list command;
  t_sent : list command;
  t_produced : list command;
  t_noted : gmap S Z;
  t_phase : advance_phase
}.

Implicit Types (t : task).

Definition with_controller c t : task :=
  mkTask c (t_queue t) (t_queue_maxsize t) (t_unflushed t) (t_output t) (t_sent t) (t_produced t) (t_noted t) (t_phase t).
Definition with_phase p t : task :=
  mkTask (t_controller t) (t_queue t) (t_queue_maxsize t) (t_unflushed t) (t_output t) (t_sent t) (t_produced t) (t_noted t) p.
Definition with_queue q t : task :=
  mkTask (t_controller t) q (t_queue_maxsize t) (t_unflushed t) (t_output t) (t_sent t) (t_produced t) (t_noted t) (t_phase t).

(** An input batch was processed and noted. *)
Definition task_process (sender : S) (sequence : Z) (cmds : list command) t : task :=
  mkTask (note_processed (Some sender) (Some sequence) (t_controller t)).2 (t_queue t) (t_queue_maxsize t)
    (t_unflushed t ++ cmds) (t_output t) (t_sent t) (t_produced t ++ cmds) (<[sender := sequence]> (t_noted t)) (t_phase t).

(** A flush: a sink writes, a pipelined task fills [TaskOutput]. *)
Definition task_flush t : task :=
  if decide (wc_mode (t_controller t) = SINK)
  then mkTask (t_controller t) (t_queue t) (t_queue_maxsize t) [] (t_output t) (t_sent t ++ t_unflushed t) (t_produced t) (t_noted t) (t_phase t)
  else mkTask (t_controller t) (t_queue t) (t_queue_maxsize t) [] (t_output t ++ t_unflushed t) (t_sent t) (t_produced t) (t_noted t) (t_phase t).

(** [drain_pending]: the buffered commands become one queue item. *)
Definition drain_pending t : task :=
  mkTask (t_controller t) (if decide (t_output t = []) then t_queue t else t_queue t ++ [Commands (t_output t)])
    (t_queue_maxsize t) (t_unflushed t) [] (t_sent t) (t_produced t) (t_noted t) (t_phase t).

(** One round of the emit worker's [_loop]. *)
Definition emit_round t : task :=
  match t_queue t with
  | [] => t
  | Commands l :: queue =>
      mkTask (t_controller t) queue (t_queue_maxsize t) (t_unflushed t) (t_output t) (t_sent t ++ l) (t_produced t) (t_noted t) (t_phase t)
  | WatermarkMarker s q :: queue =>
      with_controller (apply_forwarded s q (t_controller t)) (with_queue queue t)
  end.

Definition queue_has_room t : Prop := (length (t_queue t) < t_queue_maxsize t)%nat.

(** The interleavings of one task's event loop. *)
Inductive task_step t : task → Prop :=
  | task_step_process sender sequence cmds :
      default (-1) (t_noted t !! sender) < sequence →
      Forall (λ cmd, cmd_sender cmd = sender ∧ cmd_sequence cmd = sequence) cmds →
      task_step t (task_process sender sequence cmds t)
  | task_step_flush : task_step t (task_flush t)
  | task_step_drain : queue_has_room t → task_step t (drain_pending t)
  | task_step_emit : task_step t (emit_round t)
  | task_step_advance pending c :
      t_phase t = Idle → advance_start (t_controller t) = (Some pending, c) →
      task_step t (with_controller c (with_phase (Started pending) t))
  | task_step_advance_nothing c :
      t_phase t = Idle → advance_start (t_controller t) = (None, c) → task_step t (with_controller c t)
  | task_step_boundary pending :
      t_phase t = Started pending → task_step t (with_phase (Flushed pending) (task_flush t))
  | task_step_publish pending :
      t_phase t = Flushed pending → queue_has_room t →
      task_step t (with_phase (Publishing pending (map_to_list pending)) (drain_pending t))
  | task_step_marker pending s q rest :
      t_phase t = Publishing pending ((s, q) :: rest) → wc_mode (t_controller t) = PIPELINED → queue_has_room t →
      task_step t (with_phase (Publishing pending rest) (with_queue (t_queue t ++ [WatermarkMarker s q]) t))
  | task_step_apply pending s q rest :
      t_phase t = Publishing pending ((s, q) :: rest) → wc_mode (t_controller t) = SINK →
      task_step t (with_phase (Publishing pending rest) (with_controller (apply_forwarded s q (t_controller t)) t))
  | task_step_finish pending :
      t_phase t = Publishing pending [] →
      task_step t (with_phase Idle (with_controller (advance_finish pending (t_controller t)) t)).

Definition task_init (mode : WatermarkMode) (flush_interval_batches : Z) (namespace : option string) (maxsize : nat) : task :=
  mkTask (mkController mode namespace flush_interval_batches ∅ ∅ 0) [] maxsize [] [] [] [] ∅ Idle.

(** ** The invariant of the interleaved task *)

Definition queued (items : list emit_item) : list command :=
  mjoin ((λ item, match item with Commands l => l | WatermarkMarker _ _ => [] end) <$> items).

Arguments queued : simpl never.

(** All outputs of the sender's batches up to [sequence] are among [l]. *)
Definition covered t (l : list command) (sender : S) (sequence : Z) : Prop :=
  sequence <= default (-1) (t_noted t !! sender) ∧
  ∀ cmd, cmd ∈ t_produced t → cmd_sender cmd = sender → cmd_sequence cmd <= sequence → cmd ∈ l.

(** A sequence that has been, or is about to be, published. *)
Definition published t (sender : S) (sequence : Z) : Prop :=
  sequence <= default (-1) (wc_forwarded_to (t_controller t) !! sender) ∨
  WatermarkMarker sender sequence ∈ t_queue t.

Record task_inv t : Prop := {
  ti_sequence cmd : cmd ∈ t_produced t → 0 <= cmd_sequence cmd;
  ti_noted s n : t_noted t !! s = Some n → 0 <= n;
  ti_nothing_lost cmd :
    cmd ∈ t_produced t → cmd ∈ t_sent t ++ queued (t_queue t) ++ t_output t ++ t_unflushed t;
  ti_forwarded s q : wc_forwarded_to (t_controller t) !! s = Some q → covered t (t_sent t) s q;
  ti_marker q1 s q q2 :
    t_queue t = q1 ++ WatermarkMarker s q :: q2 → covered t (t_sent t ++ queued q1) s q;
  ti_pending s q : wc_pending_by_sender (t_controller t) !! s = Some q → q <= default (-1) (t_noted t !! s);
  ti_sink : wc_mode (t_controller t) = SINK → t_queue t = [] ∧ t_output t = [];
  ti_phase : match t_phase t with
    | Idle => True
    | Started pending => ∀ s q, pending !! s = Some q → q <= default (-1) (t_noted t !! s)
    | Flushed pending => ∀ s q, pending !! s = Some q →
        covered t (t_sent t ++ queued (t_queue t) ++ t_output t) s q
    | Publishing pending rest =>
        (∀ s q, (s, q) ∈ rest → covered t (t_sent t ++ queued (t_queue t)) s q) ∧
        (∀ s q, pending !! s = Some q → q <= default (-1) (t_noted t !! s) ∧ ((s, q) ∈ rest ∨ published t s q))
    end;
  ti_progress s q : t_noted t !! s = Some q → wc_mode (t_controller t) ≠ DISABLED →
    published t s q ∨ wc_pending_by_sender (t_controller t) !! s = Some q
}.

Lemma covered_weaken t t' (l l' : list command) s q :
  t_noted t' = t_noted t → t_produced t' = t_produced t → (∀ cmd, cmd ∈ l → cmd ∈ l') →
  covered t l s q → covered t' l' s q.
Proof. unfold covered. intros -> -> Hl [Hn Hc]. split; [done|]. eauto. Qed.

Lemma queued_app l1 l2 : queued (l1 ++ l2) = queued l1 ++ queued l2.
Proof. unfold queued. by rewrite fmap_app, join_app. Qed.

Lemma queued_commands l : queued [Commands l] = l.
Proof. apply app_nil_r. Qed.

Lemma covered_process t sender sequence cmds (l : list command) s q :
  default (-1) (t_noted t !! sender) < sequence →
  Forall (λ cmd, cmd_sender cmd = sender ∧ cmd_sequence cmd = sequence) cmds →
  covered t l s q → covered (task_process sender sequence cmds t) l s q.
Proof.
  intros Hfresh Hcmds [Hn Hc]. rewrite Forall_forall in Hcmds. split; cbn.
  - destruct (decide (sender = s)) as [->|]; [rewrite lookup_insert_eq; cbn; lia|by rewrite lookup_insert_ne].
  - intros cmd [Hin|Hin]%elem_of_app Hs Hq; [by apply Hc|].
    destruct (Hcmds _ Hin) as [<- <-]. subst s. lia.
Qed.

(** Publishing a covered sequence. *)
Lemma covered_forward t c' s q s' q' :
  (∀ s q, wc_forwarded_to (t_controller t) !! s = Some q → covered t (t_sent t) s q) →
  (∀ cmd, cmd ∈ t_produced t → 0 <= cmd_sequence cmd) →
  (∀ s n, t_noted t !! s = Some n → 0 <= n) →
  covered t (t_sent t) s q → wc_forwarded_to c' = wc_forwarded_to (apply_forwarded s q (t_controller t)) →
  wc_forwarded_to c' !! s' = Some q' → covered t (t_sent t) s' q'.
Proof.
  intros Hf Hpos Hnn Hc ->. cbn. intros [[<- <-]|[_ Hl]]%lookup_insert_Some; [|eauto].
  destruct (wc_forwarded_to (t_controller t) !! s) as [q0|] eqn:E; cbn.
  - destruct (Z.max_spec q0 q) as [[_ ->]|[_ ->]]; [done|eauto].
  - destruct (Z.max_spec (-1) q) as [[_ ->]|[Hq ->]]; [done|]. split.
    + destruct (t_noted t !! s) as [n|] eqn:En; cbn; [|done]. specialize (Hnn _ _ En). lia.
    + intros cmd Hin _ Hle. specialize (Hpos _ Hin). lia.
Qed.

(** Solves membership in appended lists. *)
Ltac in_app := intros; rewrite ?queued_app, ?queued_commands, ?elem_of_app in *; cbn in *; rewrite ?app_nil_r in *; tauto.

Lemma published_mono t t' s q :
  (∀ s, default (-1) (wc_forwarded_to (t_controller t) !! s) <= default (-1) (wc_forwarded_to (t_controller t') !! s)) →
  (∀ s q, WatermarkMarker s q ∈ t_queue t → published t' s q) →
  published t s q → published t' s q.
Proof. intros Hf Hq [Hp|Hp]; [left; etrans; [exact Hp|apply Hf]|by apply Hq]. Qed.

Lemma marker_not_last (q1 q2 l : list emit_item) s q item :
  l ++ [item] = q1 ++ WatermarkMarker s q :: q2 → (∀ s q, item ≠ WatermarkMarker s q) →
  ∃ q2', l = q1 ++ WatermarkMarker s q :: q2'.
Proof.
  intros E Hne. destruct q2 as [|x q2 _] using rev_ind.
  - apply app_inj_tail in E as [_ E]. by apply Hne in E.
  - rewrite app_comm_cons, app_assoc in E. apply app_inj_tail in E as [-> _]. by exists q2.
Qed.

Lemma task_process_inv t sender sequence cmds :
  task_inv t → default (-1) (t_noted t !! sender) < sequence →
  Forall (λ cmd, cmd_sender cmd = sender ∧ cmd_sequence cmd = sequence) cmds →
  task_inv (task_process sender sequence cmds t).
Proof.
  intros Hi Hfresh Hcmds. pose proof (λ l s q, covered_process t sender sequence cmds l s q Hfresh Hcmds) as Hcov.
  assert (Hseq : 0 <= sequence).
  { destruct (t_noted t !! sender) as [n|] eqn:E; cbn in Hfresh; [|lia]. pose proof (ti_noted _ Hi _ _ E). lia. }
  assert (Hmono : ∀ s, default (-1) (t_noted t !! s) <= default (-1) (<[sender := sequence]> (t_noted t) !! s)).
  { intros s. destruct (decide (sender = s)) as [<-|]; [rewrite lookup_insert_eq; cbn; lia|by rewrite lookup_insert_ne]. }
  split; cbn.
  - intros cmd [Hin|Hin]%elem_of_app; [by apply (ti_sequence _ Hi)|].
    rewrite Forall_forall in Hcmds. by destruct (Hcmds _ Hin) as [_ ->].
  - intros s n [[_ <-]|[_ Hl]]%lookup_insert_Some; [done|by eapply (ti_noted _ Hi)].
  - intros cmd [Hin|Hin]%elem_of_app; [apply (ti_nothing_lost _ Hi) in Hin|]; in_app.
  - intros s q Hl. apply Hcov. by apply (ti_forwarded _ Hi).
  - intros q1 s q q2 E. apply Hcov. by apply (ti_marker _ Hi q1 s q q2).
  - intros s q [[<- <-]|[Hne Hl]]%lookup_insert_Some.
    + rewrite lookup_insert_eq. cbn. destruct (wc_pending_by_sender _ !! sender) as [p|] eqn:E; cbn; [|lia].
      pose proof (ti_pending _ Hi _ _ E). lia.
    + rewrite lookup_insert_ne by done. by apply (ti_pending _ Hi).
  - apply (ti_sink _ Hi).
  - pose proof (ti_phase _ Hi) as Hp. destruct (t_phase t) as [|pending|pending|pending rest]; [done| | |].
    + intros s q Hl. etrans; [by apply Hp|apply Hmono].
    + intros s q Hl. apply Hcov. by apply Hp.
    + destruct Hp as [Hp1 Hp2]. split; [intros; apply Hcov; by apply Hp1|].
      intros s q Hl. destruct (Hp2 _ _ Hl) as [Hle Hor]. split; [etrans; [exact Hle|apply Hmono]|].
      destruct Hor as [?|Hpub]; [by left|right]. exact Hpub.
  - intros s q [[<- <-]|[Hne Hl]]%lookup_insert_Some Hmode.
    + right. rewrite lookup_insert_eq. f_equal. destruct (wc_pending_by_sender _ !! sender) as [p|] eqn:E; cbn; [|lia].
      pose proof (ti_pending _ Hi _ _ E). lia.
    + rewrite lookup_insert_ne by done. destruct (ti_progress _ Hi _ _ Hl Hmode) as [Hpub|]; [left; exact Hpub|by right].
Qed.

(** Steps that only move commands towards delivery. *)
Lemma task_move_inv t t' :
  task_inv t → t_controller t' = t_controller t → t_noted t' = t_noted t → t_produced t' = t_produced t →
  t_phase t' = t_phase t →
  (∀ cmd, cmd ∈ t_sent t ++ queued (t_queue t) ++ t_output t ++ t_unflushed t →
     cmd ∈ t_sent t' ++ queued (t_queue t') ++ t_output t' ++ t_unflushed t') →
  (∀ cmd, cmd ∈ t_sent t ++ queued (t_queue t) ++ t_output t → cmd ∈ t_sent t' ++ queued (t_queue t') ++ t_output t') →
  (∀ cmd, cmd ∈ t_sent t ++ queued (t_queue t) → cmd ∈ t_sent t' ++ queued (t_queue t')) →
  (∀ cmd, cmd ∈ t_sent t → cmd ∈ t_sent t') →
  (∀ q1' s q q2', t_queue t' = q1' ++ WatermarkMarker s q :: q2' →
     ∃ q1 q2, t_queue t = q1 ++ WatermarkMarker s q :: q2 ∧
       ∀ cmd, cmd ∈ t_sent t ++ queued q1 → cmd ∈ t_sent t' ++ queued q1') →
  (∀ s q, WatermarkMarker s q ∈ t_queue t → WatermarkMarker s q ∈ t_queue t') →
  (wc_mode (t_controller t') = SINK → t_queue t' = [] ∧ t_output t' = []) →
  task_inv t'.
Proof.
  intros Hi Hc Hn Hp Hph Hall Hout Hq Hsent Hmark Hkeep Hsink.
  assert (Hpub : ∀ s q, published t s q → published t' s q).
  { intros s q [Hpub|Hpub]; [left; by rewrite Hc|right; auto]. }
  split; try rewrite Hp; try rewrite Hn; try rewrite Hc.
  - apply (ti_sequence _ Hi).
  - apply (ti_noted _ Hi).
  - intros cmd Hin. by apply Hall, (ti_nothing_lost _ Hi).
  - intros s q Hl. eapply covered_weaken; [exact Hn|exact Hp|exact Hsent|by apply (ti_forwarded _ Hi)].
  - intros q1' s q q2' E. destruct (Hmark _ _ _ _ E) as (q1 & q2 & Eq & Hsub).
    eapply covered_weaken; [exact Hn|exact Hp|exact Hsub|by eapply (ti_marker _ Hi)].
  - apply (ti_pending _ Hi).
  - rewrite Hc in Hsink. exact Hsink.
  - rewrite Hph. pose proof (ti_phase _ Hi) as Hphase. destruct (t_phase t); try done.
    + intros s q Hl. eapply covered_weaken; [exact Hn|exact Hp|exact Hout|by apply Hphase].
    + destruct Hphase as [H1 H2]. split.
      * intros s q Hl. eapply covered_weaken; [exact Hn|exact Hp|exact Hq|by apply H1].
      * intros s q Hl. destruct (H2 _ _ Hl) as [? [?|?]]; auto.
  - intros s q Hl Hm. destruct (ti_progress _ Hi _ _ Hl Hm); auto.
Qed.

Lemma task_flush_inv t : task_inv t → task_inv (task_flush t).
Proof.
  intros Hi. unfold task_flush. destruct (decide _) as [Hm|Hm].
  - apply (task_move_inv t); cbn; try done; try in_app.
    + intros q1 s q q2 E. rewrite (proj1 (ti_sink _ Hi Hm)) in E. by destruct q1.
    + apply (ti_sink _ Hi).
  - apply (task_move_inv t); cbn; try done; try in_app. intros q1 s q q2 E. by exists q1, q2.
Qed.

Lemma drain_pending_inv t : task_inv t → task_inv (drain_pending t).
Proof.
  intros Hi. unfold drain_pending. destruct (decide (t_output t = [])) as [Ho|Ho].
  - apply (task_move_inv t); cbn; rewrite ?Ho; try done; try in_app.
    + intros q1 s q q2 E. by exists q1, q2.
    + intros Hm. by destruct (ti_sink _ Hi Hm).
  - apply (task_move_inv t); cbn; try done; try in_app.
    + intros q1 s q q2 E. apply marker_not_last in E as [q2' E]; [|done]. by exists q1, q2'.
    + intros Hm. by destruct (ti_sink _ Hi Hm).
Qed.

Lemma emit_commands_inv t l queue :
  task_inv t → t_queue t = Commands l :: queue → task_inv (emit_round t).
Proof.
  intros Hi Eq. unfold emit_round. rewrite Eq.
  apply (task_move_inv t); cbn; rewrite ?Eq; try done.
  - intros cmd. unfold queued; cbn. rewrite !elem_of_app. tauto.
  - intros cmd. unfold queued; cbn. rewrite !elem_of_app. tauto.
  - intros cmd. unfold queued; cbn. rewrite !elem_of_app. tauto.
  - in_app.
  - intros q1 s q q2 ->. exists (Commands l :: q1), q2. split; [done|].
    intros cmd. unfold queued; cbn. rewrite !elem_of_app. tauto.
  - intros s q Hin%elem_of_cons. by destruct Hin.
  - intros Hm. destruct (ti_sink _ Hi Hm). congruence.
Qed.

(** Changing the phase to one whose clause holds. *)
Lemma with_phase_inv t p :
  task_inv t →
  match p with
  | Idle => True
  | Started pending => ∀ s q, pending !! s = Some q → q <= default (-1) (t_noted t !! s)
  | Flushed pending => ∀ s q, pending !! s = Some q →
      covered t (t_sent t ++ queued (t_queue t) ++ t_output t) s q
  | Publishing pending rest =>
      (∀ s q, (s, q) ∈ rest → covered t (t_sent t ++ queued (t_queue t)) s q) ∧
      (∀ s q, pending !! s = Some q → q <= default (-1) (t_noted t !! s) ∧ ((s, q) ∈ rest ∨ published t s q))
  end → task_inv (with_phase p t).
Proof. intros Hi Hp. destruct Hi. split; try done. Qed.

(** Publishing a covered sequence to the controller, and replacing the queue by a
    part of it in which no marker but the published one is missing. *)
Lemma forward_inv t s q queue :
  task_inv t → covered t (t_sent t) s q →
  (queue = t_queue t ∨ t_queue t = WatermarkMarker s q :: queue) →
  task_inv (with_controller (apply_forwarded s q (t_controller t)) (with_queue queue t)).
Proof.
  intros Hi Hcov Hqueue. set (t' := with_controller _ _).
  assert (Hqd : queued queue = queued (t_queue t)) by (by destruct Hqueue as [->| ->]).
  assert (Hpub : ∀ s' q', published t s' q' → published t' s' q').
  { intros s' q' [Hp|Hp].
    - left. cbn. destruct (decide (s = s')) as [<-|]; [rewrite lookup_insert_eq; cbn; lia|by rewrite lookup_insert_ne].
    - destruct Hqueue as [->|Eq]; [by right|]. rewrite Eq in Hp. apply elem_of_cons in Hp as [[= -> ->]|Hp]; [|by right].
      left. cbn. rewrite lookup_insert_eq. cbn. lia. }
  split; cbn; rewrite ?Hqd; try apply Hi.
  - intros s' q' Hl. apply (covered_weaken t t' (t_sent t)); [done|done|by auto|].
    eapply (covered_forward t (apply_forwarded s q (t_controller t)));
      [apply (ti_forwarded _ Hi)|apply (ti_sequence _ Hi)|apply (ti_noted _ Hi)|exact Hcov|done|exact Hl].
  - intros q1 s' q' q2 E. destruct Hqueue as [Eq|Eq].
    + apply (covered_weaken t t' (t_sent t ++ queued q1)); [done|done|by auto|].
      apply (ti_marker _ Hi q1 s' q' q2). congruence.
    + apply (covered_weaken t t' (t_sent t ++ queued q1)); [done|done|by auto|].
      apply (ti_marker _ Hi (WatermarkMarker s q :: q1) s' q' q2). cbn. congruence.
  - intros Hm. destruct (ti_sink _ Hi Hm) as [Hq Ho]. split; [|done]. destruct Hqueue as [->|Eq]; congruence.
  - pose proof (ti_phase _ Hi) as Hphase. destruct (t_phase t); try done.
    destruct Hphase as [H1 H2]. split; [exact H1|].
    intros s' q' Hl. destruct (H2 _ _ Hl) as [? [?|?]]; auto.
  - intros s' q' Hl Hm. destruct (ti_progress _ Hi _ _ Hl Hm); auto.
Qed.

(** The worker: either kind of item. *)
Lemma emit_round_inv t : task_inv t → task_inv (emit_round t).
Proof.
  intros Hi. destruct (t_queue t) as [|[l|s q] queue] eqn:Eq.
  - unfold emit_round. by rewrite Eq.
  - by eapply emit_commands_inv.
  - unfold emit_round. rewrite Eq. apply forward_inv; [done| |by right].
    pose proof (ti_marker _ Hi [] s q queue Eq) as Hc. unfold queued in Hc. cbn in Hc. by rewrite app_nil_r in Hc.
Qed.

(** A controller that differs in its pending marks and its counter only. *)
Lemma pending_inv t c :
  task_inv t → wc_mode c = wc_mode (t_controller t) → wc_forwarded_to c = wc_forwarded_to (t_controller t) →
  (∀ s q, wc_pending_by_sender c !! s = Some q → wc_pending_by_sender (t_controller t) !! s = Some q) →
  (∀ s q, t_noted t !! s = Some q → wc_mode c ≠ DISABLED → wc_pending_by_sender (t_controller t) !! s = Some q →
     published t s q ∨ wc_pending_by_sender c !! s = Some q) →
  task_inv (with_controller c t).
Proof.
  intros Hi Hm Hf Hsub Hprog. set (t' := with_controller c t).
  assert (Hpub : ∀ s' q', published t s' q' → published t' s' q').
  { intros s q [Hp|Hp]; [left; cbn; by rewrite Hf|by right]. }
  split; cbn; rewrite ?Hf, ?Hm; try apply Hi.
  - intros s q Hl. apply (ti_pending _ Hi). by apply Hsub.
  - pose proof (ti_phase _ Hi) as Hphase. destruct (t_phase t); try done.
    destruct Hphase as [H1 H2]. split; [exact H1|]. intros s q Hl. destruct (H2 _ _ Hl) as [? [?|?]]; auto.
  - intros s q Hl Hmode. destruct (ti_progress _ Hi _ _ Hl Hmode) as [?|Hp]; [auto|].
    destruct (Hprog _ _ Hl ltac:(congruence) Hp) as [?|?]; auto.
Qed.

Lemma enqueue_marker_inv t pending s q rest :
  task_inv t → t_phase t = Publishing pending ((s, q) :: rest) → wc_mode (t_controller t) = PIPELINED →
  task_inv (with_phase (Publishing pending rest) (with_queue (t_queue t ++ [WatermarkMarker s q]) t)).
Proof.
  intros Hi Hph Hmode. pose proof (ti_phase _ Hi) as Hphase. rewrite Hph in Hphase. destruct Hphase as [H1 H2].
  set (t' := with_queue _ t).
  assert (Hq : queued (t_queue t ++ [WatermarkMarker s q]) = queued (t_queue t)).
  { rewrite queued_app. apply app_nil_r. }
  assert (Hpub : ∀ s' q', published t s' q' → published t' s' q').
  { intros s' q' [Hp|Hp]; [by left|right; cbn; apply elem_of_app; by left]. }
  split; cbn; rewrite ?Hq; try apply Hi.
  - intros q1 s' q' q2 E. destruct q2 as [|x q2 _] using rev_ind.
    + apply app_inj_tail in E as [<- [= <- <-]]. apply (covered_weaken t _ (t_sent t ++ queued (t_queue t))); [done|done|done|].
      apply H1. by left.
    + rewrite app_comm_cons, app_assoc in E. apply app_inj_tail in E as [E _].
      apply (covered_weaken t _ (t_sent t ++ queued q1)); [done|done|done|]. by apply (ti_marker _ Hi q1 s' q' q2).
  - congruence.
  - split; [intros s' q' Hin; apply H1; by right|].
    intros s' q' Hl. destruct (H2 _ _ Hl) as [Hle [[[= <- <-]|Hin]%elem_of_cons|Hp]]; (split; [done|]).
    + right. right. cbn. apply elem_of_app. right. by apply list_elem_of_singleton.
    + by left.
    + right. by apply Hpub.
  - intros s' q' Hl Hm. destruct (ti_progress _ Hi _ _ Hl Hm) as [?|?]; [left; by apply Hpub|by right].
Qed.

Lemma apply_mark_inv t pending s q rest :
  task_inv t → t_phase t = Publishing pending ((s, q) :: rest) → wc_mode (t_controller t) = SINK →
  task_inv (with_phase (Publishing pending rest) (with_controller (apply_forwarded s q (t_controller t)) t)).
Proof.
  intros Hi Hph Hmode. pose proof (ti_phase _ Hi) as Hphase. rewrite Hph in Hphase. destruct Hphase as [H1 H2].
  destruct (ti_sink _ Hi Hmode) as [Hq Ho].
  assert (Hcov : covered t (t_sent t) s q).
  { specialize (H1 s q). rewrite Hq, app_nil_r in H1. apply H1. by left. }
  pose proof (forward_inv t s q (t_queue t) Hi Hcov (or_introl eq_refl)) as Hi'.
  replace (with_queue (t_queue t) t) with t in Hi' by (by destruct t). apply with_phase_inv; [done|].
  split; [intros s' q' Hin; apply H1; by right|].
  intros s' q' Hl. destruct (H2 _ _ Hl) as [Hle [[[= <- <-]|Hin]%elem_of_cons|[Hp|Hp]]]; (split; [done|]).
  - right. left. cbn. rewrite lookup_insert_eq. cbn. lia.
  - by left.
  - right. left. cbn. destruct (decide (s = s')) as [<-|]; [rewrite lookup_insert_eq; cbn; lia|by rewrite lookup_insert_ne].
  - right. by right.
Qed.

Lemma finish_inv t pending :
  task_inv t → t_phase t = Publishing pending [] →
  task_inv (with_phase Idle (with_controller (advance_finish pending (t_controller t)) t)).
Proof.
  intros Hi Hph. pose proof (ti_phase _ Hi) as Hphase. rewrite Hph in Hphase. destruct Hphase as [_ H2].
  apply with_phase_inv; [|done]. apply pending_inv; [done|done|done| |].
  - intros s q. rewrite advance_finish_pending. destruct (pending !! s); [|done].
    destruct (_ <=? z); [done|done].
  - intros s q Hn _ Hp. rewrite advance_finish_pending, Hp. cbn.
    destruct (pending !! s) as [p|] eqn:Ep; [|by right]. destruct (Z.leb_spec q p) as [Hle|]; [|by right].
    left. destruct (H2 _ _ Ep) as [Hpn [?%not_elem_of_nil|Hpub]]; [done|].
    rewrite Hn in Hpn. cbn in Hpn. by assert (p = q) as -> by lia.
Qed.

Lemma task_step_inv t t' : task_inv t → task_step t t' → task_inv t'.
Proof.
  intros Hi Hstep.
  destruct Hstep as [sender sequence cmds ? ?| |?| |pending c Hph Hadv|c Hph Hadv|pending Hph|pending Hph ?|
    pending s q rest Hph ? ?|pending s q rest Hph ?|pending Hph].
  - by apply task_process_inv.
  - by apply task_flush_inv.
  - by apply drain_pending_inv.
  - by apply emit_round_inv.
  - unfold advance_start in Hadv. case_match; [done|]. injection Hadv as <- <-.
    replace (with_controller (t_controller t) (with_phase (Started (wc_pending_by_sender (t_controller t))) t))
      with (with_phase (Started (wc_pending_by_sender (t_controller t))) t) by (by destruct t).
    apply with_phase_inv; [done|]. apply (ti_pending _ Hi).
  - unfold advance_start in Hadv. case_match; [|done]. injection Hadv as <-.
    apply pending_inv; try done. intros s q _ _ ?. by right.
  - pose proof (task_flush_inv _ Hi) as Hi'. apply with_phase_inv; [done|].
    pose proof (ti_phase _ Hi) as Hphase. rewrite Hph in Hphase. intros s q Hl. specialize (Hphase _ _ Hl).
    assert (Hflushed : t_unflushed (task_flush t) = []) by (unfold task_flush; by case_decide).
    assert (Hsame : t_noted (task_flush t) = t_noted t) by (unfold task_flush; by case_decide).
    split; [by rewrite Hsame|]. intros cmd Hin _ _. apply (ti_nothing_lost _ Hi') in Hin.
    rewrite Hflushed, app_nil_r in Hin. done.
  - pose proof (drain_pending_inv _ Hi) as Hi'. apply with_phase_inv; [done|].
    pose proof (ti_phase _ Hi) as Hphase. rewrite Hph in Hphase. split.
    + intros s q Hl%elem_of_map_to_list. eapply covered_weaken; [| | |by apply Hphase]; [done|done|].
      unfold drain_pending; cbn. case_decide as Ho; [rewrite Ho, app_nil_r; auto|in_app].
    + intros s q Hl. split; [apply (Hphase _ _ Hl)|]. left. by apply elem_of_map_to_list.
  - by apply enqueue_marker_inv.
  - by apply apply_mark_inv.
  - by apply finish_inv.
Qed.

Lemma task_init_inv mode interval namespace maxsize :
  task_inv (task_init mode interval namespace maxsize).
Proof.
  split; cbn; try done.
  - by intros cmd ?%not_elem_of_nil.
  - intros q1 s q q2 E. by destruct q1.
Qed.
End controller.
Arguments Controller S {_ _}.
Arguments command S : clear implicits.
Arguments emit_item S : clear implicits.
Arguments task S {_ _}.
Arguments advance_phase S {_ _}.

(** ** Properties *)

(** C17. A task acknowledges to a sender only what it has made durable, in every
    interleaving of processing, flushes, advances and the emit worker: the outputs of
    every input batch up to the acknowledged sequence have been delivered (a sink has
    written them), no output is lost on the way, and a noted batch that is not
    acknowledged yet is still pending or its marker is queued. *)
Theorem acknowledged_is_durable {S : Type} `{Countable S} mode interval namespace maxsize (t : task S) :
  rtc task_step (task_init mode interval namespace maxsize) t →
  (∀ sender cmd, cmd ∈ t_produced t → cmd_sender cmd = sender →
     cmd_sequence cmd <= forwarded_sequence_for (Some sender) (t_controller t) → cmd ∈ t_sent t) ∧
  (∀ cmd, cmd ∈ t_produced t → cmd ∈ t_sent t ++ queued (t_queue t) ++ t_output t ++ t_unflushed t) ∧
  (mode ≠ DISABLED → ∀ sender sequence, t_noted t !! sender = Some sequence →
     published t sender sequence ∨ wc_pending_by_sender (t_controller t) !! sender = Some sequence).
Proof.
  intros Hr.
  assert (Hi : task_inv t ∧ wc_mode (t_controller t) = mode).
  { apply (rtc_invariant (λ t, task_inv t ∧ wc_mode (t_controller t) = mode) task_step _ _
      (conj (task_init_inv mode interval namespace maxsize) eq_refl)); [|exact Hr].
    intros t1 t2 [Hi Hm] Hstep. split; [by eapply task_step_inv|].
    destruct Hstep; try done; unfold task_flush, emit_round, advance_start in *; repeat case_match; simplify_eq; done. }
  destruct Hi as [Hi <-]. split_and!.
  - intros sender cmd Hin Hs Hle. unfold forwarded_sequence_for in Hle.
    destruct (wc_forwarded_to (t_controller t) !! sender) as [q|] eqn:E; cbn in Hle.
    + destruct (ti_forwarded _ Hi _ _ E) as [_ Hc]. by apply Hc.
    + pose proof (ti_sequence _ Hi _ Hin). lia.
  - apply (ti_nothing_lost _ Hi).
  - intros Hm s q Hl. by apply (ti_progress _ Hi).
Qed.

Lemma acknowledged_is_durable_witness :
  ∃ t : task Z, rtc task_step (task_init PIPELINED 1 None 4) t ∧
    t_sent t = [mkCommand 7 0 42%nat] ∧ forwarded_sequence_for (Some 7) (t_controller t) = 0 ∧
    ∀ cmd, cmd ∈ t_produced t → cmd ∈ t_sent t ++ queued (t_queue t) ++ t_output t ++ t_unflushed t.
Proof.
  assert (Hr : ∃ t : task Z, rtc task_step (task_init PIPELINED 1 None 4) t ∧
    t_sent t = [mkCommand 7 0 42%nat] ∧ forwarded_sequence_for (Some 7) (t_controller t) = 0).
  { eexists. split.
    - eapply rtc_l; [apply (task_step_process _ 7 0 [mkCommand 7 0 42%nat]); [vm_compute; done|by repeat constructor]|].
      eapply rtc_l; [eapply task_step_advance; [reflexivity|vm_compute; reflexivity]|].
      eapply rtc_l; [eapply task_step_boundary; reflexivity|].
      eapply rtc_l; [eapply task_step_publish; [reflexivity|vm_compute; lia]|].
      eapply rtc_l; [eapply task_step_marker; [vm_compute; reflexivity|reflexivity|vm_compute; lia]|].
      eapply rtc_l; [eapply task_step_finish; vm_compute; reflexivity|].
      eapply rtc_l; [eapply task_step_emit|]. eapply rtc_l; [eapply task_step_emit|]. apply rtc_refl.
    - split; vm_compute; reflexivity. }
  destruct Hr as (t & Hr & Hs & Hf). exists t. split_and!; [exact Hr|exact Hs|exact Hf|].
  apply (acknowledged_is_durable PIPELINED 1 None 4 t Hr).
Defined.
