(* ===== verification/Partitioning.v ===== *)
(** * Partitioning and routing

    Models [src/ray/klein/runtime/partitioning/] (the channel topology and every
    partitioner) and [src/ray/klein/runtime/collector/record_router.py] (the validation
    between a partitioner and the send path).

    A partitioner is a [Record] of operations on its own state; each class of the
    package is one value of it.  The router's theorems hold for any partitioner, since
    the router checks what it is given; the partitioners' theorems say what they give.
    Custom code (key selectors, partition functions) is a parameter that may raise. *)
From S2P Require Import Prelude Concrete KeyGroups Rows Blocks InputBatching.
Open Scope Z_scope.

(** ** Channel topology *)

Inductive ChannelPattern := ALL_TO_ALL | FORWARD | RESCALE.

#[export] Instance ChannelPattern_eq_dec : EqDecision ChannelPattern.
Proof. solve_decision. Defined.

(** [range(start, stop, step)] for a positive step. *)
Definition range_step (start stop step : Z) : list Z :=
  (λ k, start + k * step) <$> seqZ 0 (if start <? stop then (stop - start - 1) / step + 1 else 0).

Definition target_indices (pattern : ChannelPattern) (source_parallelism target_parallelism source_index : Z)
    : outcome (list Z) :=
  if (source_parallelism <=? 0) || (target_parallelism <=? 0) then Err ValueError
  else if (source_index <? 0) || (source_parallelism <=? source_index) then Err ValueError
  else
    match pattern with
    | ALL_TO_ALL => Ok (seqZ 0 target_parallelism)
    | FORWARD => if negb (source_parallelism =? target_parallelism) then Err ValueError else Ok [source_index]
    | RESCALE =>
        if target_parallelism <=? source_parallelism then Ok [source_index mod target_parallelism]
        else Ok (range_step source_index target_parallelism source_parallelism)
    end.

(** ** The worker-pool ring *)

Record WorkerPoolDispatcher := mkDispatcher { wp_tasks : list Z; wp_cursor : nat }.

Definition WorkerPoolDispatcher_init (assigned_tasks : list Z) : outcome WorkerPoolDispatcher :=
  if bool_decide (assigned_tasks = []) then Err ValueError else Ok (mkDispatcher assigned_tasks 0).

Definition dispatcher_current (d : WorkerPoolDispatcher) : outcome Z :=
  of_option IndexError (wp_tasks d !! wp_cursor d).

Definition dispatcher_advance (d : WorkerPoolDispatcher) : outcome Z * WorkerPoolDispatcher :=
  let d := mkDispatcher (wp_tasks d) (S (wp_cursor d) mod length (wp_tasks d)) in
  (dispatcher_current d, d).

Definition dispatcher_take (d : WorkerPoolDispatcher) : outcome Z * WorkerPoolDispatcher :=
  match dispatcher_current d with
  | Err e => (Err e, d)
  | Ok current => match dispatcher_advance d with (Ok _, d) => (Ok current, d) | (Err e, d) => (Err e, d) end
  end.

Fixpoint list_index (x : Z) (l : list Z) : option nat :=
  match l with
  | [] => None
  | y :: l => if y =? x then Some O else S <$> list_index x l
  end.

Definition ring_from (task : Z) (d : WorkerPoolDispatcher) : outcome (list Z) :=
  match list_index task (wp_tasks d) with
  | None => Err ValueError
  | Some start => Ok (drop start (wp_tasks d) ++ take start (wp_tasks d))
  end.

(** ** Partitioners *)

Section partitioners.
Context {V Sender K : Type}.

Abbreviation rec := (@record V Sender).
Abbreviation dict := (gmap string V).

(** What a partitioner does with a record, a columnar batch and a retry: the
    results may be anything a caller's code returns. *)
Record Partitioner (State : Type) := mkPartitioner {
  partition : rec → State → outcome (list pyarg) * State;
  partition_columnar : rec → nat → State → outcome (list (pyarg * option (list pyarg))) * State;
  retry_targets : Z → State → outcome (list pyarg)
}.
Arguments mkPartitioner {State}.
Arguments partition {State}.
Arguments partition_columnar {State}.
Arguments retry_targets {State}.

(** The base class: [open], whole-batch columnar routing, no retry elsewhere. *)
Definition partitioner_open (partition_count : Z) : outcome Z :=
  if partition_count <=? 0 then Err ValueError else Ok partition_count.

Definition default_columnar {State} (partition : rec → State → outcome (list pyarg) * State)
    (r : rec) (num_rows : nat) (s : State) : outcome (list (pyarg * option (list pyarg))) * State :=
  match partition r s with
  | (Ok targets, s) => (Ok ((λ t, (t, None)) <$> (targets : list pyarg)), s)
  | (Err e, s) => (Err e, s)
  end.

Definition default_retry {State} (initial_target : Z) (s : State) : outcome (list pyarg) := Ok [AInt initial_target].

(** [self._partition_count is None or self._partition_count <= 0]. *)
Definition opened (partition_count : option Z) : outcome Z :=
  match partition_count with
  | None => Err RuntimeError
  | Some n => if n <=? 0 then Err RuntimeError else Ok n
  end.

(** [BroadcastPartitioner]: the state is the partition count; the cached list is
    [range(count)] whenever it is returned. *)
Definition broadcast_partition (r : rec) (count : option Z) : outcome (list pyarg) * option Z :=
  (n ← opened count; Ok (AInt <$> seqZ 0 n), count).

Definition BroadcastPartitioner : Partitioner (option Z) :=
  mkPartitioner broadcast_partition (default_columnar broadcast_partition) default_retry.

(** [ForwardPartitioner]: the state is the task's own index. *)
Definition forward_open (task_index partition_count : Z) : outcome (list Z) :=
  n ← partitioner_open partition_count;
  if n <=? task_index then Err ValueError else Ok [task_index].

Definition forward_partition (r : rec) (partitions : list Z) : outcome (list pyarg) * list Z :=
  (Ok (AInt <$> partitions), partitions).

Definition ForwardPartitioner : Partitioner (list Z) :=
  mkPartitioner forward_partition (default_columnar forward_partition) default_retry.

(** [RoundRobinPartitioner] (and [AdaptivePartitioner]): the count and the cursor. *)
Definition round_robin_partition (r : rec) (s : option Z * Z) : outcome (list pyarg) * (option Z * Z) :=
  match opened s.1 with
  | Err e => (Err e, s)
  | Ok n => (Ok [AInt s.2], (s.1, (s.2 + 1) mod n))
  end.

Definition round_robin_retry (initial_target : Z) (s : option Z * Z) : outcome (list pyarg) :=
  n ← opened s.1;
  Ok ((λ offset, AInt ((initial_target + offset) mod n)) <$> seqZ 0 n).

Definition RoundRobinPartitioner : Partitioner (option Z * Z) :=
  mkPartitioner round_robin_partition (default_columnar round_robin_partition) round_robin_retry.

(** [RescalePartitioner]: a dispatcher over the assigned slice. *)
Definition rescale_open (parallelism partition_count task_index : Z) : outcome WorkerPoolDispatcher :=
  n ← partitioner_open partition_count;
  assignment ← target_indices RESCALE parallelism n task_index;
  if bool_decide (assignment = []) then Err RuntimeError else WorkerPoolDispatcher_init assignment.

Definition rescale_partition (r : rec) (d : option WorkerPoolDispatcher)
    : outcome (list pyarg) * option WorkerPoolDispatcher :=
  match d with
  | None => (Err RuntimeError, None)
  | Some d => match dispatcher_take d with
              | (Ok t, d) => (Ok [AInt t], Some d)
              | (Err e, d) => (Err e, Some d)
              end
  end.

Definition rescale_retry (initial_target : Z) (d : option WorkerPoolDispatcher) : outcome (list pyarg) :=
  match d with
  | None => Err RuntimeError
  | Some d => ring ← ring_from initial_target d; Ok (AInt <$> (ring : list Z))
  end.

Definition RescalePartitioner : Partitioner (option WorkerPoolDispatcher) :=
  mkPartitioner rescale_partition (default_columnar rescale_partition) rescale_retry.

(** Grouping rows by target in first-seen order: [buckets] and [order]. *)
Fixpoint add_to_bucket (target : Z) (row : nat) (buckets : list (Z * list nat)) : list (Z * list nat) :=
  match buckets with
  | [] => [(target, [row])]
  | (t, rows) :: buckets =>
      if decide (t = target) then (t, rows ++ [row]) :: buckets else (t, rows) :: add_to_bucket target row buckets
  end.

Definition row_routes (buckets : list (Z * list nat)) : list (pyarg * option (list pyarg)) :=
  (λ b : Z * list nat, (AInt b.1, Some (AInt <$> (Z.of_nat <$> b.2)))) <$> buckets.

(** [block_row_dict]. *)
Definition block_row_dict (b : Block V) (index : nat) : outcome dict :=
  of_option IndexError (block_rows b !! index).

(** What a key selector is applied to: [record.block]. *)
Definition block_row (b : Block V) : Row dict :=
  match b with BRow row => row | _ => mkRow (default ∅ (head (block_rows b))) None end.

Section key.
Context `{KeyCodec K, Blake2b} (key_selector : Row dict → outcome K).

(** [KeyPartitioner]'s state after [open]: max parallelism and partition count. *)
Record KeyState := mkKeyState { ks_max_parallelism : option pyarg; ks_partition_count : option Z }.

Definition key_open (configured : option pyarg) (config_max_parallelism : pyarg) (partition_count : Z) : outcome KeyState :=
  n ← partitioner_open partition_count;
  let mp := default config_max_parallelism configured in
  match arg_int mp with
  | None => Err TypeError
  | Some m => if m <? n then Err ValueError else Ok (mkKeyState (Some mp) (Some n))
  end.

(** [_target_for_key]. *)
Definition target_for_key (key : K) (s : KeyState) : outcome Z :=
  match ks_max_parallelism s, ks_partition_count s with
  | Some mp, Some n => key_group ← key_group_for_key key mp; key_group_owner (AInt key_group) mp (AInt n)
  | _, _ => Err RuntimeError
  end.

Definition key_partition (r : rec) (s : KeyState) : outcome (list pyarg) * KeyState :=
  (_ ← opened (ks_partition_count s);
   key ← key_selector (block_row (r_block r));
   target ← target_for_key key s;
   Ok [AInt target], s).

(** One row of [partition_columnar]. *)
Definition key_bucket_row (r : rec) (s : KeyState) (buckets : list (Z * list nat)) (row_index : nat)
    : outcome (list (Z * list nat)) :=
  row ← block_row_dict (r_block r) row_index;
  key ← key_selector (mkRow row None);
  target ← target_for_key key s;
  Ok (add_to_bucket target row_index buckets).

Definition key_columnar (r : rec) (num_rows : nat) (s : KeyState)
    : outcome (list (pyarg * option (list pyarg))) * KeyState :=
  (buckets ← foldM (key_bucket_row r s) [] (seq 0 num_rows);
   match buckets with
   | [(target, _)] => Ok [(AInt target, None)]
   | _ => Ok (row_routes buckets)
   end, s).

Definition KeyPartitioner : Partitioner KeyState :=
  mkPartitioner key_partition key_columnar default_retry.
End key.

(** [SimplePartitioner]: the caller's function returns target indices. *)
Section simple.
Context (fn : rec → option Z → outcome (list Z)).

Definition simple_partition (r : rec) (count : option Z) : outcome (list pyarg) * option Z :=
  (targets ← fn r count; Ok (AInt <$> (targets : list Z)), count).

Definition simple_bucket_row (r : rec) (count : option Z) (buckets : list (Z * list nat)) (row_index : nat)
    : outcome (list (Z * list nat)) :=
  row ← block_row_dict (r_block r) row_index;
  targets ← fn (new_record (BRow (mkRow row None)) None) count;
  Ok (foldl (λ b t, add_to_bucket t row_index b) buckets (targets : list Z)).

Definition simple_columnar (r : rec) (num_rows : nat) (count : option Z)
    : outcome (list (pyarg * option (list pyarg))) * option Z :=
  (buckets ← foldM (simple_bucket_row r count) [] (seq 0 num_rows);
   match buckets with
   | [(target, rows)] =>
       if bool_decide (length rows = num_rows) then Ok [(AInt target, None)] else Ok (row_routes buckets)
   | _ => Ok (row_routes buckets)
   end, count).

Definition SimplePartitioner : Partitioner (option Z) :=
  mkPartitioner simple_partition simple_columnar default_retry.
End simple.

(** ** The router *)

(** [RecordRouter]'s attributes; [_allowed_targets] is not set while the control
    targets are validated. *)
Record RecordRouter := mkRouter {
  ro_target_count : Z;
  ro_control_targets : list Z;
  ro_allowed : option (gset Z);
  ro_retry_rings : gmap Z (list Z)
}.

Implicit Types (ro : RecordRouter).

(** [_validate_target]. *)
Definition validate_target (target : pyarg) ro : outcome Z :=
  match arg_int target with
  | None => Err TypeError
  | Some t =>
      if (t <? 0) || (ro_target_count ro <=? t) then Err ValueError
      else match ro_allowed ro with
           | Some allowed => if decide (t ∈ allowed) then Ok t else Err ValueError
           | None => Ok t
           end
  end.

(** [_validate_targets]: a round of its loop, and the loop. *)
Definition validate_step ro (validated : list Z) (target : pyarg) : outcome (list Z) :=
  t ← validate_target target ro;
  if decide (t ∈ validated) then Err ValueError else Ok (validated ++ [t]).

Definition validate_targets (targets : list pyarg) ro : outcome (list Z) :=
  foldM (validate_step ro) [] targets.

Definition RecordRouter_init (target_count : Z) (control_targets : list pyarg) : outcome RecordRouter :=
  if target_count <=? 0 then Err ValueError
  else
    targets ← validate_targets control_targets (mkRouter target_count [] None ∅);
    if bool_decide (targets = []) then Err ValueError
    else Ok (mkRouter target_count targets (Some (list_to_set targets)) ∅).

Section routing.
Context {State : Type} (p : Partitioner State).

Definition retry_ring (initial_target : Z) (s : State) ro : outcome (list Z) * RecordRouter :=
  match ro_retry_rings ro !! initial_target with
  | Some ring => (Ok ring, ro)
  | None =>
      match (targets ← retry_targets p initial_target s; validate_targets targets ro) with
      | Err e => (Err e, ro)
      | Ok ring =>
          if bool_decide (head ring = Some initial_target)
          then (Ok ring, mkRouter (ro_target_count ro) (ro_control_targets ro) (ro_allowed ro)
                           (<[initial_target := ring]> (ro_retry_rings ro)))
          else (Err ValueError, ro)
      end
  end.

(** What a generator has yielded when it ends or raises. *)
Record routed := mkRouted { yielded : list (Z * rec); result : outcome unit; router_after : RecordRouter }.

(** The loop of [_route_row]. *)
Fixpoint yield_row (r : rec) (s : State) (targets : list Z) (out : list (Z * rec)) ro : routed :=
  match targets with
  | [] => mkRouted out (Ok ()) ro
  | t :: targets =>
      match retry_ring t s ro with
      | (Err e, ro) => mkRouted out (Err e) ro
      | (Ok _, ro) => yield_row r s targets (out ++ [(t, r)]) ro
      end
  end.

Definition route_row (r : rec) (s : State) ro : routed * State :=
  match partition p r s with
  | (Err e, s) => (mkRouted [] (Err e) ro, s)
  | (Ok targets, s) =>
      match validate_targets targets ro with
      | Err e => (mkRouted [] (Err e) ro, s)
      | Ok [] => (mkRouted [] (Err ValueError) ro, s)
      | Ok targets => (yield_row r s targets [] ro, s)
      end
  end.

(** [_validate_row_indices]: a round of its loop, and the loop. *)
Definition index_step (num_rows : nat) (seen : list nat) (index : pyarg) : outcome (list nat) :=
  match arg_int index with
  | None => Err TypeError
  | Some i =>
      if (i <? 0) || (Z.of_nat num_rows <=? i) then Err ValueError
      else if decide (Z.to_nat i ∈ seen) then Err ValueError
      else Ok (seen ++ [Z.to_nat i])
  end.

Definition validate_row_indices (row_indices : list pyarg) (num_rows : nat) : outcome (list nat) :=
  if bool_decide (row_indices = []) then Err ValueError else foldM (index_step num_rows) [] row_indices.

(** [slice_block_rows] and [_inherit_slice_metadata] for a list of indices.  The slice
    keeps the layout; a column of another sequence type becomes a list, which is not
    told apart here. *)
Definition select {A} (l : list A) (indices : list nat) : outcome (list A) :=
  mapM_outcome (λ i, of_option IndexError (l !! i)) indices.

Definition slice_indices (r : rec) (indices : list nat) : outcome rec :=
  rows ← select (block_rows (r_block r)) indices;
  kinds ← match r_row_kinds r with
          | None => Ok None
          | Some kinds => kinds ← select kinds indices; Ok (Some kinds)
          end;
  timestamps ← match r_row_timestamps r with
               | None => Ok None
               | Some ts => ts ← select ts indices; Ok (Some ts)
               end;
  Ok (mkRecord (BTable (block_layout (r_block r)) rows) (Some (Z.of_nat (length indices))) (r_sender r) (r_input_tag r)
        (r_timestamp r) kinds timestamps).

(** The loop of [_route_columnar], with [seen_targets], [covered_rows] and
    [covers_all_rows]. *)
Fixpoint yield_routes (r : rec) (num_rows : nat) (s : State) (routes : list (pyarg * option (list pyarg)))
    (seen : gset Z) (covered : gset nat) (covers_all : bool) (out : list (Z * rec)) ro : routed :=
  match routes with
  | [] =>
      if negb covers_all && negb (bool_decide (size covered = num_rows))
      then mkRouted out (Err ValueError) ro else mkRouted out (Ok ()) ro
  | (target, row_indices) :: routes =>
      match validate_target target ro with
      | Err e => mkRouted out (Err e) ro
      | Ok t =>
          if decide (t ∈ seen) then mkRouted out (Err ValueError) ro
          else
            match retry_ring t s ro with
            | (Err e, ro) => mkRouted out (Err e) ro
            | (Ok _, ro) =>
                match row_indices with
                | None => yield_routes r num_rows s routes ({[t]} ∪ seen) covered true (out ++ [(t, r)]) ro
                | Some row_indices =>
                    match (indices ← validate_row_indices row_indices num_rows;
                           slice ← slice_indices r indices; Ok (indices, slice)) with
                    | Err e => mkRouted out (Err e) ro
                    | Ok (indices, slice) =>
                        yield_routes r num_rows s routes ({[t]} ∪ seen) (list_to_set indices ∪ covered) covers_all
                          (out ++ [(t, slice)]) ro
                    end
                end
            end
      end
  end.

Definition route_columnar (r : rec) (s : State) ro : routed * State :=
  match r_num_rows r with
  | None => (mkRouted [] (Err ValueError) ro, s)
  | Some n =>
      if n <? 0 then (mkRouted [] (Err ValueError) ro, s)
      else
        let num_rows := Z.to_nat n in
        match partition_columnar p r num_rows s with
        | (Err e, s) => (mkRouted [] (Err e) ro, s)
        | (Ok routes, s) =>
            if negb (num_rows =? 0)%nat && bool_decide (routes = []) then (mkRouted [] (Err ValueError) ro, s)
            else (yield_routes r num_rows s routes ∅ ∅ false [] ro, s)
        end
  end.

Definition route (r : rec) (s : State) ro : routed * State :=
  if is_columnar r then route_columnar r s ro else route_row r s ro.
End routing.
End partitioners.
Arguments mkPartitioner {V Sender State}.
Arguments partition {V Sender State}.
Arguments partition_columnar {V Sender State}.
Arguments retry_targets {V Sender State}.

(** ** Channel topology: lemmas *)

Lemma elem_of_range_step start stop step t :
  0 < step → t ∈ range_step start stop step ↔ start <= t < stop ∧ (t - start) mod step = 0.
Proof.
  intros Hs. unfold range_step. rewrite list_elem_of_fmap. setoid_rewrite elem_of_seqZ. split.
  - intros (k & -> & Hk). destruct (Z.ltb_spec start stop); [|lia].
    pose proof (Z.mul_div_le (stop - start - 1) step Hs).
    replace (start + k * step - start) with (k * step) by lia. rewrite Z.mod_mul by lia. nia.
  - intros [Ht Hm]. exists ((t - start) / step).
    pose proof (Z.div_mod (t - start) step ltac:(lia)) as Hd. rewrite Hm in Hd. split; [lia|].
    rewrite (proj2 (Z.ltb_lt start stop)) by lia.
    assert ((t - start) / step <= (stop - start - 1) / step) by (apply Z.div_le_mono; lia).
    pose proof (Z.div_pos (t - start) step ltac:(lia) Hs). lia.
Qed.

Lemma NoDup_range_step start stop step : 0 < step → NoDup (range_step start stop step).
Proof.
  intros Hs. apply NoDup_fmap_2_strong; [|apply NoDup_seqZ].
  intros x y _ _ E. nia.
Qed.

(** When a source is wired to a target. *)
Definition channel (pattern : ChannelPattern) (p q source target : Z) : Prop :=
  ∃ l, target_indices pattern p q source = Ok l ∧ target ∈ l.

Lemma target_indices_valid pattern p q i :
  0 < p → 0 < q → 0 <= i < p → (pattern = FORWARD → p = q) →
  target_indices pattern p q i =
    Ok match pattern with
       | ALL_TO_ALL => seqZ 0 q
       | FORWARD => [i]
       | RESCALE => if q <=? p then [i mod q] else range_step i q p
       end.
Proof.
  intros Hp Hq Hi Hf. unfold target_indices.
  rewrite (proj2 (Z.leb_gt p 0)), (proj2 (Z.leb_gt q 0)), (proj2 (Z.ltb_ge i 0)), (proj2 (Z.leb_gt p i)) by lia. cbn.
  destruct pattern; [done| |by case_match]. by rewrite Hf, Z.eqb_refl by done.
Qed.

Lemma channel_Ok pattern p q i l t :
  target_indices pattern p q i = Ok l → channel pattern p q i t ↔ t ∈ l.
Proof.
  intros E. unfold channel. rewrite E. split; [|by eauto]. intros (l' & Hl & Ht). by simplify_eq.
Qed.

Lemma channel_rescale p q i t :
  0 < p → 0 < q → 0 <= i < p →
  channel RESCALE p q i t ↔ 0 <= t < q ∧ (if q <=? p then t = i mod q else i = t mod p).
Proof.
  intros Hp Hq Hi. erewrite channel_Ok by (by apply target_indices_valid). cbn.
  destruct (Z.leb_spec q p).
  - pose proof (Z.mod_pos_bound i q Hq). set_solver by lia.
  - split.
    + intros [Ht Hm]%elem_of_range_step; [|done]. split; [lia|].
      apply (Z.mod_unique t p ((t - i) / p) i); [lia|].
      pose proof (Z.div_mod (t - i) p ltac:(lia)). lia.
    + intros [Ht ->]. apply elem_of_range_step; [done|].
      pose proof (Z.div_mod t p ltac:(lia)). pose proof (Z.mod_le t p ltac:(lia) ltac:(lia)).
      split; [lia|]. replace (t - t mod p) with (t / p * p) by lia. apply Z.mod_mul. lia.
Qed.

(** The targets of a subtask, and the sources of one. *)
Lemma targets_valid pattern p q i :
  0 < p → 0 < q → (pattern = FORWARD → p = q) → 0 <= i < p →
  ∃ l, target_indices pattern p q i = Ok l ∧ l ≠ [] ∧ NoDup l ∧ ∀ t, t ∈ l → 0 <= t < q.
Proof.
  intros Hp Hq Hf Hi. rewrite target_indices_valid by done. eexists. split; [done|].
  destruct pattern; [| |destruct (Z.leb_spec q p)].
  - split_and!; [|apply NoDup_seqZ|intros t ?%elem_of_seqZ; lia].
    assert (0 ∈ seqZ 0 q) by (apply elem_of_seqZ; lia). by destruct (seqZ 0 q); [set_solver|].
  - rewrite Hf in * by done. split_and!; [done|apply NoDup_singleton|set_solver by lia].
  - pose proof (Z.mod_pos_bound i q Hq). split_and!; [done|apply NoDup_singleton|set_solver by lia].
  - split_and!; [|by apply NoDup_range_step|intros t [? _]%elem_of_range_step; lia].
    assert (i ∈ range_step i q p) by (apply elem_of_range_step; rewrite ?Z.sub_diag, ?Z.mod_0_l; lia).
    by destruct (range_step i q p); [set_solver|].
Qed.

Lemma targets_reached pattern p q t :
  0 < p → 0 < q → (pattern = FORWARD → p = q) → 0 <= t < q → ∃ i, 0 <= i < p ∧ channel pattern p q i t.
Proof.
  intros Hp Hq Hf Ht. destruct pattern.
  - exists 0. split; [lia|]. exists (seqZ 0 q). rewrite target_indices_valid by (done || lia).
    split; [done|]. apply elem_of_seqZ. lia.
  - rewrite Hf in * by done. exists t. split; [lia|]. exists [t]. rewrite target_indices_valid by done. set_solver.
  - destruct (Z.leb_spec q p).
    + exists t. split; [lia|]. apply channel_rescale; [lia..|]. rewrite (proj2 (Z.leb_le q p)) by done.
      rewrite Z.mod_small by lia. lia.
    + pose proof (Z.mod_pos_bound t p Hp). exists (t mod p). split; [lia|]. apply channel_rescale; [lia..|].
      by rewrite (proj2 (Z.leb_gt q p)).
Qed.

(** The sources wired to a subtask. *)
Definition wired (pattern : ChannelPattern) (p q target source : Z) : bool :=
  match target_indices pattern p q source with Ok l => bool_decide (target ∈ l) | Err _ => false end.

Definition sources_of (pattern : ChannelPattern) (p q target : Z) : list Z :=
  filter (wired pattern p q target) (seqZ 0 p).

Lemma elem_of_sources_of pattern p q t i :
  i ∈ sources_of pattern p q t ↔ 0 <= i < p ∧ channel pattern p q i t.
Proof.
  unfold sources_of. rewrite list_elem_of_filter, elem_of_seqZ. unfold wired, channel.
  destruct (target_indices pattern p q i) as [l|e]; [|naive_solver].
  rewrite bool_decide_spec. naive_solver lia.
Qed.

Lemma NoDup_sources_of pattern p q t : NoDup (sources_of pattern p q t).
Proof. apply NoDup_filter, NoDup_seqZ. Qed.

(** How many numbers a range with a step has when it starts in its first [step]
    places: one of two neighbouring numbers, whatever the start. *)
Lemma length_range_step start stop step :
  0 < step → 0 <= start < step → step <= stop →
  (stop - step) / step + 1 <= Z.of_nat (length (range_step start stop step)) <= (stop - step) / step + 2.
Proof.
  intros Hs Ht Hp. unfold range_step. rewrite length_fmap, length_seqZ, (proj2 (Z.ltb_lt start stop)) by lia.
  pose proof (Z.div_le_mono (stop - step) (stop - start - 1) step Hs ltac:(lia)).
  pose proof (Z.div_le_mono (stop - start - 1) (stop - step + 1 * step) step Hs ltac:(lia)) as H1.
  rewrite Z.div_add in H1 by lia. pose proof (Z.div_pos (stop - step) step ltac:(lia) Hs). lia.
Qed.

Lemma targets_even p q i j l l' :
  0 < p → 0 < q → 0 <= i < p → 0 <= j < p →
  target_indices RESCALE p q i = Ok l → target_indices RESCALE p q j = Ok l' → (length l <= length l' + 1)%nat.
Proof.
  intros Hp Hq Hi Hj. rewrite !target_indices_valid by done. intros [= <-] [= <-].
  destruct (Z.leb_spec q p); [cbn; lia|].
  pose proof (length_range_step i q p Hp Hi ltac:(lia)). pose proof (length_range_step j q p Hp Hj ltac:(lia)). lia.
Qed.

(** The sources of a target of the narrower side are every [q]-th subtask. *)
Lemma sources_of_wide p q t :
  0 < q → q <= p → 0 <= t < q → sources_of RESCALE p q t ≡ₚ range_step t p q.
Proof.
  intros Hq Hqp Ht. apply NoDup_Permutation; [apply NoDup_sources_of|by apply NoDup_range_step|].
  intros i. rewrite elem_of_sources_of, elem_of_range_step by done. split.
  - intros [Hi [_ E]%channel_rescale]; [|lia..]. rewrite (proj2 (Z.leb_le q p)) in E by done.
    pose proof (Z.div_mod i q ltac:(lia)). pose proof (Z.div_pos i q ltac:(lia) Hq).
    split; [nia|]. replace (i - t) with (i / q * q) by lia. by apply Z.mod_mul; lia.
  - intros [Hi E]. split; [lia|]. apply channel_rescale; [lia..|]. rewrite (proj2 (Z.leb_le q p)) by done.
    split; [lia|]. pose proof (Z.div_mod (i - t) q ltac:(lia)). apply (Z.mod_unique i q ((i - t) / q) t); lia.
Qed.

Lemma sources_of_narrow p q t :
  0 < p → p < q → 0 <= t < q → sources_of RESCALE p q t ≡ₚ [t mod p].
Proof.
  intros Hp Hpq Ht. apply NoDup_Permutation; [apply NoDup_sources_of|apply NoDup_singleton|].
  intros i. rewrite elem_of_sources_of, list_elem_of_singleton. pose proof (Z.mod_pos_bound t p Hp). split.
  - intros [Hi [_ E]%channel_rescale]; [|lia..]. by rewrite (proj2 (Z.leb_gt q p)) in E by lia.
  - intros ->. split; [lia|]. apply channel_rescale; [lia..|]. by rewrite (proj2 (Z.leb_gt q p)) by lia.
Qed.

Lemma sources_even p q t u :
  0 < p → 0 < q → 0 <= t < q → 0 <= u < q →
  (length (sources_of RESCALE p q t) <= length (sources_of RESCALE p q u) + 1)%nat.
Proof.
  intros Hp Hq Ht Hu. destruct (Z.leb_spec q p).
  - rewrite !sources_of_wide by done.
    pose proof (length_range_step t p q Hq Ht ltac:(lia)). pose proof (length_range_step u p q Hq Hu ltac:(lia)). lia.
  - rewrite !sources_of_narrow by done. cbn. lia.
Qed.

(** C22. The channel topology wires every subtask: at valid indices each pattern
    returns a non-empty, duplicate-free tuple of targets inside the downstream
    parallelism, and no target is left without a source. [ALL_TO_ALL] has every
    channel, [FORWARD] exactly the channels from an index to itself, and [RESCALE]
    gives every subtask of the wider side exactly one channel and splits them evenly:
    two sources have as many targets as each other, and two targets as many sources,
    up to one. *)
Theorem topology_covers pattern p q :
  0 < p → 0 < q → (pattern = FORWARD → p = q) →
  (∀ i, 0 <= i < p → ∃ l, target_indices pattern p q i = Ok l ∧ l ≠ [] ∧ NoDup l ∧ ∀ t, t ∈ l → 0 <= t < q) ∧
  (∀ t, 0 <= t < q → ∃ i, 0 <= i < p ∧ channel pattern p q i t) ∧
  (pattern = ALL_TO_ALL → ∀ i t, 0 <= i < p → channel pattern p q i t ↔ 0 <= t < q) ∧
  (pattern = FORWARD → ∀ i t, 0 <= i < p → channel pattern p q i t ↔ t = i) ∧
  (pattern = RESCALE → p <= q → ∀ i j t, 0 <= i < p → 0 <= j < p →
     channel pattern p q i t → channel pattern p q j t → i = j) ∧
  (pattern = RESCALE → q <= p → ∀ i t u, 0 <= i < p →
     channel pattern p q i t → channel pattern p q i u → t = u) ∧
  (pattern = RESCALE → ∀ i j l l', 0 <= i < p → 0 <= j < p →
     target_indices pattern p q i = Ok l → target_indices pattern p q j = Ok l' → (length l <= length l' + 1)%nat) ∧
  (pattern = RESCALE → ∀ t u, 0 <= t < q → 0 <= u < q →
     (length (sources_of pattern p q t) <= length (sources_of pattern p q u) + 1)%nat).
Proof.
  intros Hp Hq Hf. split_and!.
  - intros i Hi. by apply targets_valid.
  - intros t Ht. by apply targets_reached.
  - intros -> i t Hi. erewrite channel_Ok by (by apply target_indices_valid). cbn. rewrite elem_of_seqZ. lia.
  - intros -> i t Hi. erewrite channel_Ok by (by apply target_indices_valid). cbn. by rewrite list_elem_of_singleton.
  - intros -> Hpq i j t Hi Hj H1%channel_rescale H2%channel_rescale; try lia.
    destruct (Z.leb_spec q p); [|lia]. assert (p = q) as -> by lia.
    rewrite (Z.mod_small i), (Z.mod_small j) in * by lia. lia.
  - intros -> Hqp i t u Hi H1%channel_rescale H2%channel_rescale; try lia.
    rewrite (proj2 (Z.leb_le q p)) in * by done. lia.
  - intros -> i j l l' Hi Hj. by apply targets_even.
  - intros -> t u Ht Hu. by apply sources_even.
Qed.

Lemma topology_covers_witness :
  target_indices RESCALE 2 5 1 = Ok [1; 3] ∧ target_indices RESCALE 5 2 3 = Ok [1] ∧
  sources_of RESCALE 5 2 0 = [0; 2; 4] ∧ (∃ i, 0 <= i < 2 ∧ channel RESCALE 2 5 i 4).
Proof.
  split_and!; [done..|].
  exact (proj1 (proj2 (topology_covers RESCALE 2 5 ltac:(lia) ltac:(lia) ltac:(done))) 4 ltac:(lia)).
Defined.

(** ** The router: lemmas *)

Section router.
Context {V Sender State : Type} (p : Partitioner (V := V) (Sender := Sender) State).

Implicit Types (ro : RecordRouter) (r : @record V Sender) (allowed : gset Z).

(** What holds of a router's attributes once constructed: data may only be sent
    inside the control topology, and every cached ring is such a duplicate-free
    tuple that starts with its key. *)
Record router_wf allowed ro : Prop := {
  wf_allowed : ro_allowed ro = Some allowed;
  wf_control : list_to_set (ro_control_targets ro) = allowed;
  wf_bounds t : t ∈ allowed → 0 <= t < ro_target_count ro;
  wf_rings t ring : ro_retry_rings ro !! t = Some ring →
    head ring = Some t ∧ NoDup ring ∧ ∀ u, u ∈ ring → u ∈ allowed
}.

Lemma validate_target_Ok a t ro :
  validate_target a ro = Ok t →
  a = AInt t ∧ 0 <= t < ro_target_count ro ∧ ∀ allowed, ro_allowed ro = Some allowed → t ∈ allowed.
Proof.
  unfold validate_target. intros H. destruct a as [z| |]; cbn in H; [|done..].
  destruct (_ || _) eqn:E in H; [done|]. bool_props.
  assert (z = t ∧ ∀ allowed, ro_allowed ro = Some allowed → t ∈ allowed) as [-> ?]; [|by auto].
  destruct (ro_allowed ro) as [al|]; [case_decide; [|done]|]; simplify_eq; split; try done.
  by intros ? [= <-].
Qed.

Lemma validate_target_valid allowed t ro :
  router_wf allowed ro → t ∈ allowed → validate_target (AInt t) ro = Ok t.
Proof.
  intros Hwf Ht. pose proof (wf_bounds _ _ Hwf t Ht). unfold validate_target. cbn.
  rewrite (proj2 (Z.ltb_ge t 0)), (proj2 (Z.leb_gt (ro_target_count ro) t)) by lia. cbn.
  by rewrite (wf_allowed _ _ Hwf), decide_True.
Qed.

Lemma validate_step_Ok ro acc a acc' :
  validate_step ro acc a = Ok acc' →
  ∃ t, a = AInt t ∧ acc' = acc ++ [t] ∧ t ∉ acc ∧
    0 <= t < ro_target_count ro ∧ ∀ allowed, ro_allowed ro = Some allowed → t ∈ allowed.
Proof.
  intros H. apply bind_Ok_inv in H as (t & Ht & H). case_decide; [done|]. injection H as <-.
  apply validate_target_Ok in Ht as (-> & ? & ?). eauto 10.
Qed.

Lemma validate_targets_Ok targets l ro :
  validate_targets targets ro = Ok l →
  targets = AInt <$> l ∧ NoDup l ∧
  ∀ t, t ∈ l → 0 <= t < ro_target_count ro ∧ ∀ allowed, ro_allowed ro = Some allowed → t ∈ allowed.
Proof.
  unfold validate_targets.
  cut (∀ acc : list Z, NoDup acc → foldM (validate_step ro) acc targets = Ok l →
    ∃ l', l = acc ++ l' ∧ targets = AInt <$> l' ∧ NoDup l ∧
    ∀ t, t ∈ l' → 0 <= t < ro_target_count ro ∧ ∀ allowed, ro_allowed ro = Some allowed → t ∈ allowed).
  { intros Hg Hf. destruct (Hg [] (NoDup_nil_2) Hf) as (l' & -> & -> & ? & ?). done. }
  induction targets as [|a targets IH]; intros acc Hnd Hf; cbn in Hf.
  - injection Hf as ->. exists []. rewrite app_nil_r. set_solver.
  - case_step_in Hf; [|done]. apply validate_step_Ok in Heqo as (t & -> & -> & Hin & Ht).
    apply IH in Hf as (l' & -> & -> & ? & Hl'); [|by apply NoDup_snoc].
    exists (t :: l'). rewrite <-app_assoc in *. split_and!; [done..|].
    intros u [->|Hu]%elem_of_cons; auto.
Qed.

Lemma validate_targets_valid allowed l ro :
  router_wf allowed ro → NoDup l → (∀ t, t ∈ l → t ∈ allowed) → validate_targets (AInt <$> l) ro = Ok l.
Proof.
  intros Hwf. unfold validate_targets.
  cut (∀ acc, NoDup (acc ++ l) → (∀ t, t ∈ l → t ∈ allowed) →
    foldM (validate_step ro) acc (AInt <$> l) = Ok (acc ++ l)); [intros Hg; apply (Hg [])|].
  induction l as [|t l IH]; intros acc Hnd Hl; [by rewrite app_nil_r|].
  rewrite fmap_cons. cbn [foldM]. unfold validate_step at 1.
  rewrite (validate_target_valid _ _ _ Hwf), bind_Ok by (apply Hl; by left).
  rewrite decide_False; [|apply NoDup_app in Hnd as (_ & Hd & _); intros Hin; apply (Hd t Hin); by left].
  rewrite IH, <-app_assoc; [done|by rewrite <-app_assoc|set_solver].
Qed.

(** Constructing a router: only validated control targets are kept. *)
Lemma RecordRouter_init_wf count control ro :
  RecordRouter_init count control = Ok ro →
  ∃ targets, control = AInt <$> targets ∧ router_wf (list_to_set targets) ro ∧
    ro_control_targets ro = targets ∧ ro_retry_rings ro = ∅.
Proof.
  unfold RecordRouter_init. intros H. case_match; [done|]. apply bind_Ok_inv in H as (l & Hl & H).
  case_bool_decide; [done|]. injection H as <-. apply validate_targets_Ok in Hl as (-> & _ & Hl).
  exists l. split_and!; [done|split; try done|done|done].
  intros t Ht%elem_of_list_to_set. by apply Hl.
Qed.

Lemma retry_ring_wf allowed t s ro res ro' :
  router_wf allowed ro → retry_ring p t s ro = (res, ro') →
  router_wf allowed ro' ∧ ro_retry_rings ro ⊆ ro_retry_rings ro' ∧
  ∀ ring, res = Ok ring → ro_retry_rings ro' !! t = Some ring.
Proof.
  intros Hwf. unfold retry_ring. destruct (ro_retry_rings ro !! t) as [ring|] eqn:Et.
  { intros [= <- <-]. split_and!; [done..|]. by intros ? [= <-]. }
  destruct (_ ≫= _) as [ring|] eqn:Er; [|by intros [= <- <-]].
  case_bool_decide as Hh; [|by intros [= <- <-]]. intros [= <- <-].
  apply bind_Ok_inv in Er as (targets & _ & Hv). apply validate_targets_Ok in Hv as (_ & Hnd & Hv).
  split_and!; cbn.
  - destruct Hwf as [Ha Hc Hb Hr]. split; cbn; [done..|].
    intros u ring' [[<- <-]|[Hne Hl]]%lookup_insert_Some; [|by eapply Hr].
    split_and!; [done..|]. intros u Hu. by apply (Hv u Hu).
  - by apply insert_subseteq.
  - intros ? [= <-]. apply lookup_insert_eq.
Qed.

(** What one yielded pair ships: the whole record, or a validated slice of it. *)
Definition shipped r (num_rows : nat) (part : Z * option (list nat)) (y : Z * @record V Sender) : Prop :=
  y.1 = part.1 ∧
  match part.2 with
  | None => y.2 = r
  | Some indices => slice_indices r indices = Ok y.2 ∧ indices ≠ [] ∧ NoDup indices ∧ Forall (λ i, (i < num_rows)%nat) indices
  end.

Lemma index_step_Ok n acc a acc' :
  index_step n acc a = Ok acc' → ∃ i, a = AInt (Z.of_nat i) ∧ acc' = acc ++ [i] ∧ i ∉ acc ∧ (i < n)%nat.
Proof.
  unfold index_step. intros H. destruct a as [z| |]; cbn in H; [|done..]. case_match; [done|]. case_decide; [done|].
  bool_props. injection H as <-. exists (Z.to_nat z). rewrite Z2Nat.id by lia. split_and!; [done..|lia].
Qed.

Lemma validate_row_indices_Ok row_indices n l :
  validate_row_indices row_indices n = Ok l → l ≠ [] ∧ NoDup l ∧ Forall (λ i, (i < n)%nat) l.
Proof.
  unfold validate_row_indices. case_bool_decide as Hne; [done|]. intros Hf.
  destruct row_indices as [|a row_indices]; [done|]. cbn in Hf. case_step_in Hf; [|done].
  revert Hf. apply (foldM_inv (λ l : list nat, l ≠ [] ∧ NoDup l ∧ Forall (λ i, (i < n)%nat) l)).
  - intros acc b acc' (_ & Hnd & Hall) _ (i & _ & -> & Hi & Hn)%index_step_Ok. split_and!.
    + by destruct acc.
    + by apply NoDup_snoc.
    + apply Forall_app. by rewrite Forall_singleton.
  - apply index_step_Ok in Heqo as (i & _ & -> & _ & Hn). split_and!; [done|apply NoDup_singleton|by apply Forall_singleton].
Qed.

Lemma validate_row_indices_valid l n :
  l ≠ [] → NoDup l → Forall (λ i, (i < n)%nat) l → validate_row_indices (AInt <$> (Z.of_nat <$> l)) n = Ok l.
Proof.
  intros Hne Hnd Hall. unfold validate_row_indices. rewrite bool_decide_false by (by destruct l).
  clear Hne. revert Hnd.
  cut (∀ acc, NoDup (acc ++ l) → foldM (index_step n) acc (AInt <$> (Z.of_nat <$> l)) = Ok (acc ++ l));
    [intros Hg; apply (Hg [])|].
  induction Hall as [|i l Hi Hall IH]; intros acc Hnd; [by rewrite app_nil_r|].
  rewrite !fmap_cons. cbn [foldM]. unfold index_step at 1. cbn [arg_int].
  rewrite (proj2 (Z.ltb_ge _ 0)), (proj2 (Z.leb_gt _ _)) by lia. cbn [orb]. rewrite Nat2Z.id.
  rewrite decide_False; [|apply NoDup_app in Hnd as (_ & Hd & _); intros Hin; apply (Hd i Hin); by left].
  rewrite IH, <-app_assoc; [done|by rewrite <-app_assoc].
Qed.

(** The row numbers the slices of some parts cover. *)
Definition covered_by (parts : list (Z * option (list nat))) : gset nat :=
  list_to_set (mjoin (default [] <$> parts.*2)).

(** What the loop of [_route_columnar] has done when it stops. *)
Definition routes_spec allowed r n (seen : gset Z) (covered : gset nat) (all : bool) (out : list (Z * @record V Sender))
    ro (w : routed) : Prop :=
  ∃ parts new, yielded w = out ++ new ∧ Forall2 (shipped r n) parts new ∧ NoDup parts.*1 ∧
    (∀ t, t ∈ parts.*1 → t ∉ seen ∧ t ∈ allowed ∧ is_Some (ro_retry_rings (router_after w) !! t)) ∧
    router_wf allowed (router_after w) ∧ ro_retry_rings ro ⊆ ro_retry_rings (router_after w) ∧
    (result w = Ok () → all = true ∨ None ∈ parts.*2 ∨ size (covered_by parts ∪ covered) = n).

Lemma routes_spec_raise allowed r n seen covered all out ro e ro' :
  router_wf allowed ro' → ro_retry_rings ro ⊆ ro_retry_rings ro' →
  routes_spec allowed r n seen covered all out ro (mkRouted out (Err e) ro').
Proof.
  intros ??. exists [], []. cbn. rewrite app_nil_r. split; [done|]. split; [constructor|]. split; [constructor|].
  split; [by intros ? ?%not_elem_of_nil|]. by split_and!.
Qed.

Lemma routes_spec_step allowed r n seen covered all out ro ro' part y all' w ring :
  part.1 ∈ allowed → part.1 ∉ seen → shipped r n part y → (all' = true → all = true ∨ part.2 = None) →
  ro_retry_rings ro ⊆ ro_retry_rings ro' → ro_retry_rings ro' !! part.1 = Some ring →
  routes_spec allowed r n ({[part.1]} ∪ seen) (list_to_set (default [] part.2) ∪ covered) all' (out ++ [y]) ro' w →
  routes_spec allowed r n seen covered all out ro w.
Proof.
  intros Hal Hseen Hy Hall Hsub Hring (parts & new & Ho & Hsh & Hnd & Hts & Hwf & Hsub' & Hcov).
  exists (part :: parts), (y :: new). rewrite Ho, <-app_assoc. split_and!; [done|by constructor| | |done|by etrans|].
  - rewrite fmap_cons. constructor; [|done]. intros Hin. destruct (Hts _ Hin) as [? _]. set_solver.
  - intros u. rewrite fmap_cons, elem_of_cons. intros [->|Hu].
    + split_and!; [done..|]. exists ring. by eapply lookup_weaken.
    + destruct (Hts u Hu) as (? & ? & ?). set_solver.
  - intros Hr. rewrite fmap_cons. destruct (Hcov Hr) as [Ha|[Ha|Ha]].
    + destruct (Hall Ha) as [?| ->]; [by left|]. right; left. by left.
    + right; left. by right.
    + right; right. rewrite <-Ha. f_equal. unfold covered_by. rewrite !fmap_cons. cbn [mjoin list_join].
      rewrite list_to_set_app_L. set_solver.
Qed.

Lemma yield_routes_sound allowed r n s routes seen covered all out ro :
  router_wf allowed ro →
  routes_spec allowed r n seen covered all out ro (yield_routes p r n s routes seen covered all out ro).
Proof.
  revert seen covered all out ro.
  induction routes as [|[target idx] routes IH]; intros seen covered all out ro Hwf.
  { cbn [yield_routes]. destruct (negb all && _) eqn:E; [by apply routes_spec_raise|].
    exists [], []. cbn. rewrite app_nil_r. split; [done|]. split; [constructor|]. split; [constructor|].
    split; [by intros ? ?%not_elem_of_nil|]. split_and!; [done..|]. intros _.
    apply andb_false_iff in E as [E|E]; bool_props; [by left|]. right; right. by rewrite (left_id_L ∅ (∪)). }
  cbn [yield_routes]. destruct (validate_target target ro) as [t|e] eqn:Et; [|by apply routes_spec_raise].
  apply validate_target_Ok in Et as (_ & _ & Ht). specialize (Ht _ (wf_allowed _ _ Hwf)).
  case_decide as Hs; [by apply routes_spec_raise|].
  destruct (retry_ring p t s ro) as [res ro'] eqn:Er.
  destruct (retry_ring_wf _ _ _ _ _ _ Hwf Er) as (Hwf' & Hsub & Hring).
  destruct res as [ring|e]; [|by apply routes_spec_raise]. specialize (Hring _ eq_refl).
  destruct idx as [idx|].
  - destruct (_ ≫= _) as [[indices slice]|e] eqn:Ei; [|by apply routes_spec_raise].
    apply bind_Ok_inv in Ei as (indices' & Hi & Ei). apply bind_Ok_inv in Ei as (slice' & Hsl & Ei). injection Ei as -> ->.
    apply validate_row_indices_Ok in Hi as (? & ? & ?).
    by apply (routes_spec_step _ _ _ _ _ _ _ _ ro' (t, Some indices) (t, slice) all _ ring); [..|apply IH]; auto.
  - apply (routes_spec_step _ _ _ _ _ _ _ _ ro' (t, None) (t, r) true _ ring); [by auto..|]. cbn.
    rewrite (left_id_L ∅ (∪)). by apply IH.
Qed.

Lemma yield_row_sound allowed r s targets out ro :
  router_wf allowed ro → (∀ t, t ∈ targets → t ∈ allowed) → 
  let w := yield_row p r s targets out ro in
  ∃ k, yielded w = out ++ ((., r) <$> take k targets) ∧ (result w = Ok () → (length targets <= k)%nat) ∧
    router_wf allowed (router_after w) ∧ ro_retry_rings ro ⊆ ro_retry_rings (router_after w).
Proof.
  cbn zeta. revert out ro. induction targets as [|t targets IH]; intros out ro Hwf Hin; cbn [yield_row].
  { exists O. cbn. by rewrite app_nil_r. }
  destruct (retry_ring p t s ro) as [res ro'] eqn:Er.
  destruct (retry_ring_wf _ _ _ _ _ _ Hwf Er) as (Hwf' & Hsub & _).
  destruct res as [ring|e]; [|exists O; cbn; by rewrite app_nil_r].
  destruct (IH (out ++ [(t, r)]) ro' Hwf') as (k & Ho & Hr & Hwf'' & Hsub'); [set_solver|].
  exists (S k). rewrite Ho, <-app_assoc. split_and!; [done|intros Hk; cbn; specialize (Hr Hk); lia|done|by etrans].
Qed.
Lemma covered_all parts n :
  (∀ t idx, (t, Some idx) ∈ parts → Forall (λ i, (i < n)%nat) idx) → size (covered_by parts) = n →
  ∀ i, (i < n)%nat → ∃ t idx, (t, Some idx) ∈ parts ∧ i ∈ idx.
Proof.
  intros Hlt Hsz i Hi.
  assert (∀ j, j ∈ covered_by parts → ∃ t idx, (t, Some idx) ∈ parts ∧ j ∈ idx) as Hc.
  { intros j. unfold covered_by. rewrite elem_of_list_to_set, list_elem_of_join.
    intros (l & Hj & (o & -> & Ho)%list_elem_of_fmap). apply list_elem_of_fmap in Ho as ([t [idx|]] & -> & Hp); cbn in Hj;
      [by eauto|set_solver]. }
  apply Hc. rewrite (set_subseteq_size_eq (covered_by parts) (set_seq 0 n)).
  - apply elem_of_set_seq. lia.
  - intros j (t & idx & Hp & Hj)%Hc. apply elem_of_set_seq.
    specialize (Hlt _ _ Hp). rewrite Forall_forall in Hlt. specialize (Hlt j Hj). lia.
  - rewrite Hsz. by rewrite size_set_seq.
Qed.

Lemma Forall2_shipped_fst r n parts new : Forall2 (shipped r n) parts new → new.*1 = parts.*1.
Proof. induction 1 as [|part y parts new [Hy _] _ IH]; [done|]. cbn. by f_equal. Qed.
(** What every run of the router guarantees, raising or not. *)
Definition route_safe allowed ro (w : @routed V Sender) : Prop :=
  router_wf allowed (router_after w) ∧ ro_retry_rings ro ⊆ ro_retry_rings (router_after w) ∧
  NoDup (yielded w).*1 ∧ ∀ t, t ∈ (yielded w).*1 → t ∈ allowed.

Lemma route_safe_raise allowed ro e : router_wf allowed ro → route_safe allowed ro (mkRouted [] (Err e) ro).
Proof. intros Hwf. split; [done|]. split; [done|]. split; [constructor|set_solver]. Qed.

Lemma route_columnar_sound allowed r n s ro :
  router_wf allowed ro → r_num_rows r = Some n →
  let w := (route_columnar p r s ro).1 in
  route_safe allowed ro w ∧
  ∃ parts, Forall2 (shipped r (Z.to_nat n)) parts (yielded w) ∧
    (result w = Ok () → 0 <= n ∧ ∀ i, (i < Z.to_nat n)%nat →
       ∃ part, part ∈ parts ∧ (part.2 = None ∨ ∃ indices, part.2 = Some indices ∧ i ∈ indices)).
Proof.
  intros Hwf En. cbn zeta. unfold route_columnar. rewrite En.
  case_match; [by split; [apply route_safe_raise|exists []]|]. bool_props.
  destruct (partition_columnar p r (Z.to_nat n) s) as [[routes|e] s'];
    [|by split; [apply route_safe_raise|exists []]].
  case_match; [by split; [apply route_safe_raise|exists []]|]. cbn [fst].
  destruct (yield_routes_sound allowed r (Z.to_nat n) s' routes ∅ ∅ false [] ro Hwf)
    as (parts & new & Ho & Hsh & Hnd & Hts & Hwf' & Hsub & Hcov).
  set (w := yield_routes _ _ _ _ _ _ _ _ _ _) in *. cbn in Ho. split.
  - unfold route_safe. rewrite Ho, (Forall2_shipped_fst _ _ _ _ Hsh). split_and!; [done..|]. intros t Ht. by apply Hts.
  - rewrite Ho. exists parts. split; [done|]. intros Hr. split; [done|]. intros i Hi.
    destruct (Hcov Hr) as [?|[Hn|Hsz]]; [done| |].
    + apply list_elem_of_fmap in Hn as (part & E & Hp). exists part. split; [done|]. by left.
    + rewrite (right_id_L ∅ (∪)) in Hsz. edestruct (covered_all parts) as (t & idx & Hp & Hin); [|exact Hsz|exact Hi|].
      * intros t idx Hp. destruct (Forall2_elem_of_l _ _ _ _ Hsh Hp) as (y & _ & _ & _ & _ & _ & ?). done.
      * exists (t, Some idx). split; [done|]. right. eauto.
Qed.

Lemma route_row_sound allowed r s ro :
  router_wf allowed ro →
  let w := (route_row p r s ro).1 in
  route_safe allowed ro w ∧ (∀ y, y ∈ yielded w → y.2 = r) ∧ (result w = Ok () → yielded w ≠ []).
Proof.
  intros Hwf. cbn zeta. unfold route_row.
  destruct (partition p r s) as [[targets|e] s']; [|by split_and!; [apply route_safe_raise|set_solver|]].
  destruct (validate_targets targets ro) as [l|e] eqn:Ev; [|by split_and!; [apply route_safe_raise|set_solver|]].
  apply validate_targets_Ok in Ev as (_ & Hnd & Hl).
  destruct l as [|t l]; [by split_and!; [apply route_safe_raise|set_solver|]|]. remember (t :: l) as ts eqn:Ets. cbn [fst].
  destruct (yield_row_sound allowed r s' ts [] ro Hwf) as (k & Ho & Hr & Hwf' & Hsub).
  { intros u Hu. by apply (Hl u Hu), wf_allowed. }
  cbn in Ho. unfold route_safe. rewrite Ho.
  assert (((., r) <$> take k ts).*1 = take k ts) as ->.
  { rewrite <-list_fmap_compose. rewrite (list_fmap_ext _ id); [by rewrite list_fmap_id|done]. }
  split_and!; [done..| | | |].
  - eapply sublist_NoDup; [exact Hnd|apply sublist_take].
  - intros u (i & Hu & _)%elem_of_take. apply (Hl u); [by eapply list_elem_of_lookup_2|by apply wf_allowed].
  - by intros y (u & -> & _)%list_elem_of_fmap.
  - intros Hk. specialize (Hr Hk). subst ts. destruct k; cbn in *; [lia|done].
Qed.
End router.

(** C23. The router never ships outside its contract, whatever the partitioner
    returns: the pairs it yields go to distinct targets of the control topology,
    each pair is the record itself or a non-empty slice of distinct rows of it (with
    those rows' kinds and timestamps), its attributes stay well-formed and cached
    retry rings are never replaced; and if it ends without raising, a row record was
    sent somewhere and every row of a columnar record was shipped to some target. *)
Theorem router_sound {V Sender State} (p : Partitioner (V := V) (Sender := Sender) State) allowed r s ro :
  router_wf allowed ro →
  let w := (route p r s ro).1 in
  router_wf allowed (router_after w) ∧ ro_retry_rings ro ⊆ ro_retry_rings (router_after w) ∧
  NoDup (yielded w).*1 ∧ (∀ t, t ∈ (yielded w).*1 → t ∈ allowed) ∧
  match r_num_rows r with
  | None => (∀ y, y ∈ yielded w → y.2 = r) ∧ (result w = Ok () → yielded w ≠ [])
  | Some n =>
      ∃ parts, Forall2 (shipped r (Z.to_nat n)) parts (yielded w) ∧
        (result w = Ok () → 0 <= n ∧ ∀ i, (i < Z.to_nat n)%nat →
           ∃ part, part ∈ parts ∧ (part.2 = None ∨ ∃ indices, part.2 = Some indices ∧ i ∈ indices))
  end.
Proof.
  intros Hwf. cbn zeta. unfold route, is_columnar. destruct (r_num_rows r) as [n|] eqn:En.
  - rewrite bool_decide_true by eauto.
    destruct (route_columnar_sound p allowed r n s ro Hwf En) as ((?&?&?&?) & ?). by split_and!.
  - rewrite bool_decide_false by (by intros [? ?]).
    destruct (route_row_sound p allowed r s ro Hwf) as ((?&?&?&?) & ?). tauto.
Qed.

(** ** Grouping rows by target *)

(** The positions of a list at which a target stands. *)
Definition positions (targets : list Z) (t : Z) : list nat :=
  filter (λ i, targets !! i = Some t) (seq 0 (length targets)).

Lemma elem_of_positions targets t i : i ∈ positions targets t ↔ targets !! i = Some t.
Proof.
  unfold positions. rewrite list_elem_of_filter, elem_of_seq. split; [tauto|].
  intros Hi. pose proof (lookup_lt_Some _ _ _ Hi). split; [done|lia].
Qed.

Lemma positions_snoc targets u t :
  positions (targets ++ [u]) t = positions targets t ++ (if decide (u = t) then [length targets] else []).
Proof.
  unfold positions. rewrite length_app. cbn [length]. rewrite seq_app, filter_app. cbn [plus]. f_equal.
  - apply filter_ext_in. intros i Hi%elem_of_seq. by rewrite lookup_app_l by lia.
  - cbn [seq]. rewrite filter_cons, filter_nil. rewrite lookup_app_r, Nat.sub_diag by lia. cbn.
    repeat case_decide; congruence.
Qed.

(** Buckets hold, for every target seen, the positions of its rows. *)
Definition buckets_ok (targets : list Z) (buckets : list (Z * list nat)) : Prop :=
  NoDup buckets.*1 ∧ ∀ t rows, (t, rows) ∈ buckets ↔ rows = positions targets t ∧ t ∈ targets.

Lemma elem_of_add_to_bucket t row buckets u rows :
  NoDup buckets.*1 →
  (u, rows) ∈ add_to_bucket t row buckets ↔
    (u ≠ t ∧ (u, rows) ∈ buckets) ∨
    (u = t ∧ ∃ rows0, rows = rows0 ++ [row] ∧ ((t, rows0) ∈ buckets ∨ rows0 = [] ∧ t ∉ buckets.*1)).
Proof.
  induction buckets as [|[v vs] buckets IH]; intros Hnd; cbn [add_to_bucket].
  - rewrite list_elem_of_singleton. split; [intros [= -> ->]; right; split; [done|]; exists []; set_solver|].
    intros [[_ ?%not_elem_of_nil]|[-> (rows0 & -> & [?%not_elem_of_nil|[-> _]])]]; done.
  - rewrite fmap_cons in Hnd. apply NoDup_cons in Hnd as [Hv Hnd]. cbn in Hv. case_decide as Hvt.
    + subst v. rewrite !elem_of_cons, fmap_cons. split.
      * intros [[= -> ->]|Hin]; [right; split; [done|]; exists vs; set_solver|].
        left. split; [|by right]. intros ->. apply Hv. by apply (list_elem_of_fmap_2 fst) in Hin.
      * intros [[Hne [[= -> ->]|Hin]]|[-> (rows0 & -> & [Hin|[-> Hn]])]]; [done|by right| |set_solver].
        apply elem_of_cons in Hin as [[= ->]|Hin]; [by left|]. exfalso. apply Hv. by apply (list_elem_of_fmap_2 fst) in Hin.
    + rewrite !elem_of_cons, fmap_cons, IH by done. setoid_rewrite elem_of_cons. cbn. split.
      * intros [[= -> ->]|[[? ?]|[-> (rows0 & -> & [?|[-> ?]])]]]; [left; auto..|right; split; [done|]; exists rows0; auto|].
        right. split; [done|]. exists []. split; [done|]. right. split; [done|]. set_solver.
      * intros [[Hne [?|Hin]]|[-> (rows0 & -> & [[[= -> ->]|?]|[-> Hn]])]]; [by left|by auto|done|right; right|right; right].
        -- split; [done|]. exists rows0. auto.
        -- split; [done|]. exists []. split; [done|]. right. split; [done|]. set_solver.
Qed.

Lemma NoDup_add_to_bucket t row buckets : NoDup buckets.*1 → NoDup (add_to_bucket t row buckets).*1.
Proof.
  intros Hnd.
  assert ((add_to_bucket t row buckets).*1 = if decide (t ∈ buckets.*1) then buckets.*1 else buckets.*1 ++ [t]) as ->.
  { clear Hnd. induction buckets as [|[v vs] buckets IH]; [done|]. cbn [add_to_bucket]. destruct (decide (v = t)) as [->|Hv].
    - rewrite !fmap_cons, decide_True by (by left). done.
    - rewrite !fmap_cons, IH. cbn [fst]. destruct (decide (t ∈ buckets.*1)); case_decide; set_solver. }
  case_decide; [done|]. by apply NoDup_snoc.
Qed.

Lemma buckets_ok_add targets t buckets :
  buckets_ok targets buckets → buckets_ok (targets ++ [t]) (add_to_bucket t (length targets) buckets).
Proof.
  intros [Hnd Hb]. split; [by apply NoDup_add_to_bucket|]. intros u rows.
  assert (∀ v, v ∈ buckets.*1 ↔ v ∈ targets) as Hdom.
  { intros v. rewrite list_elem_of_fmap. split.
    - by intros ([v' l] & -> & [_ ?]%Hb).
    - intros Hv. exists (v, positions targets v). split; [done|]. by apply Hb. }
  rewrite elem_of_add_to_bucket by done. setoid_rewrite Hdom.
  rewrite positions_snoc, elem_of_app, list_elem_of_singleton. case_decide as Hut.
  - subst u. split.
    + intros [[? _]|[_ (rows0 & -> & [[-> ?]%Hb|[-> Hn]])]]; [done|by auto|]. split; [|by right]. f_equal.
      symmetry. apply elem_of_nil_inv. intros i Hi%elem_of_positions. apply Hn. by eapply list_elem_of_lookup_2.
    + intros [-> _]. right. split; [done|]. exists (positions targets t). split; [done|].
      destruct (decide (t ∈ targets)) as [Hin|Hn]; [left; by apply Hb|]. right. split; [|done].
      apply elem_of_nil_inv. intros i Hi%elem_of_positions. apply Hn. by eapply list_elem_of_lookup_2.
  - rewrite app_nil_r, Hb. split; [intros [[_ [? ?]]|[? _]]; [auto|done]|]. intros [? [?|?]]; [auto|congruence].
Qed.

(** ** Keyed routing: lemmas *)

Section keyed.
Context {V Sender K : Type} `{KeyCodec K, Blake2b} (key_selector : Row (gmap string V) → outcome K).

Implicit Types (r : @record V Sender) (ps : list (gmap string V * K)).

(** Every key has an owner once the partitioner is open: the subtask the owner
    formula names for its key group, which is the one whose range of key groups
    holds it. *)
Definition owned_by (max_parallelism : pyarg) (count : Z) (key : K) (t : Z) : Prop :=
  ∃ kg range, key_group_for_key key max_parallelism = Ok kg ∧
    key_group_owner (AInt kg) max_parallelism (AInt count) = Ok t ∧
    assign_key_group_range max_parallelism (AInt count) (AInt t) = Ok range ∧
    KeyGroupRange_contains range kg = true.

Lemma target_for_key_total configured config_mp n s (key : K) :
  key_open configured config_mp n = Ok s →
  ∃ t, target_for_key key s = Ok t ∧ 0 <= t < n ∧ owned_by (default config_mp configured) n key t.
Proof.
  unfold key_open, partitioner_open. intros Hs. destruct (n <=? 0) eqn:En; [done|]. rewrite bind_Ok in Hs.
  destruct (arg_int (default config_mp configured)) as [m|] eqn:Em; [|done].
  destruct (m <? n) eqn:Emn; [done|]. bool_props. injection Hs as <-. unfold target_for_key, owned_by. cbn.
  assert (default config_mp configured = AInt m) as ->.
  { by destruct (default config_mp configured) as [z| |]; cbn in Em; simplify_eq. }
  rewrite key_group_for_key_Ok, bind_Ok by lia.
  pose proof (Z.mod_pos_bound (be_Z (blake2b_8 (encode_key key))) m ltac:(lia)) as Hkg.
  set (kg := _ mod m) in *. pose proof (key_group_owner_range m n kg ltac:(lia) Hkg) as Hr.
  rewrite key_group_owner_Ok by lia. eexists. split; [done|]. split; [done|].
  do 2 eexists. split; [done|]. split; [by rewrite key_group_owner_Ok by lia|].
  rewrite assign_key_group_range_Ok by lia. split; [done|]. by apply range_contains_owner; [lia..|].
Qed.

(** The rows whose key belongs to one target, in order. *)
Definition rows_of (T : K → Z) ps (t : Z) : list (gmap string V) := (filter (λ rk, T rk.2 = t) ps).*1.

Lemma select_positions {A} (f : A → Z) (ps : list A) {B} (g : A → B) t :
  select (g <$> ps) (positions (f <$> ps) t) = Ok (g <$> filter (λ x, f x = t) ps).
Proof.
  induction ps as [|x ps IH] using rev_ind; [done|]. rewrite !fmap_app. change (f <$> [x]) with [f x].
  rewrite positions_snoc, filter_app, fmap_app. unfold select.
  apply mapM_outcome_app.
  - apply mapM_outcome_Ok. apply mapM_outcome_Ok in IH. eapply Forall2_impl; [exact IH|].
    intros i y Hi. cbn in Hi |- *. destruct ((g <$> ps) !! i) eqn:E; [|done]. by rewrite (lookup_app_l_Some _ _ _ _ E).
  - rewrite filter_cons, filter_nil. case_decide; [|done]. cbn. rewrite lookup_app_r, !length_fmap, Nat.sub_diag by (by rewrite !length_fmap).
    done.
Qed.

Lemma select_total {A} (l : list A) indices :
  Forall (λ i, (i < length l)%nat) indices → ∃ l', select l indices = Ok l'.
Proof.
  intros Hi. unfold select. induction Hi as [|i indices Hi _ [l' IH]]; [by exists []|]. cbn.
  destruct (lookup_lt_is_Some_2 _ _ Hi) as [x ->]. cbn. rewrite IH. eauto.
Qed.

(** The columns that travel with the rows have a cell per row. *)
Definition columns_aligned r (n : nat) : Prop :=
  (∀ kinds, r_row_kinds r = Some kinds → length kinds = n) ∧ (∀ ts, r_row_timestamps r = Some ts → length ts = n).

Lemma slice_indices_total r n indices rows :
  columns_aligned r n → Forall (λ i, (i < n)%nat) indices → select (block_rows (r_block r)) indices = Ok rows →
  ∃ slice, slice_indices r indices = Ok slice ∧ block_rows (r_block slice) = rows.
Proof.
  intros [Hk Ht] Hi Hrows. unfold slice_indices. rewrite Hrows, bind_Ok.
  destruct (r_row_kinds r) as [kinds|].
  - destruct (select_total kinds indices) as [kinds' ->]; [by rewrite (Hk _ eq_refl)|]. rewrite !bind_Ok.
    destruct (r_row_timestamps r) as [ts|]; [|by eexists].
    destruct (select_total ts indices) as [ts' ->]; [by rewrite (Ht _ eq_refl)|]. by eexists.
  - rewrite bind_Ok. destruct (r_row_timestamps r) as [ts|]; [|by eexists].
    destruct (select_total ts indices) as [ts' ->]; [by rewrite (Ht _ eq_refl)|]. by eexists.
Qed.

Lemma key_buckets r s ps T :
  block_rows (r_block r) = ps.*1 → (∀ row key, (row, key) ∈ ps → key_selector (mkRow row None) = Ok key) →
  (∀ key, target_for_key key s = Ok (T key)) →
  ∃ buckets, foldM (key_bucket_row key_selector r s) [] (seq 0 (length ps)) = Ok buckets ∧
    buckets_ok (T <$> ps.*2) buckets.
Proof.
  intros Hrows Hsel HT.
  cut (∀ k, (k <= length ps)%nat → ∃ buckets, foldM (key_bucket_row key_selector r s) [] (seq 0 k) = Ok buckets ∧
    buckets_ok (T <$> (take k ps).*2) buckets).
  { intros Hg. destruct (Hg (length ps)) as (b & Hb & Hok); [done|]. rewrite take_ge in Hok by done. eauto. }
  induction k as [|k IH]; intros Hk.
  { exists []. split; [done|]. split; [constructor|]. set_solver. }
  destruct IH as (b & Hb & Hok); [lia|]. destruct (lookup_lt_is_Some_2 ps k) as [[row key] Hx]; [lia|].
  rewrite seq_S, foldM_app, Hb, bind_Ok. cbn [foldM]. unfold key_bucket_row, block_row_dict.
  rewrite Hrows, list_lookup_fmap. cbn [plus]. rewrite Hx. cbn [fmap option_fmap option_map of_option fst].
  rewrite bind_Ok, (Hsel row key), bind_Ok, HT, bind_Ok by (by eapply list_elem_of_lookup_2).
  eexists. split; [done|]. rewrite (take_S_r _ _ _ Hx), !fmap_app. cbn.
  pose proof (buckets_ok_add _ (T key) _ Hok) as Hadd.
  rewrite !length_fmap, length_take, Nat.min_l in Hadd by lia. exact Hadd.
Qed.

(** The ring of a partitioner that does not retry elsewhere is always accepted. *)
Lemma default_ring_total {State} (p : Partitioner (V := V) (Sender := Sender) State) allowed t s ro :
  retry_targets p = default_retry → router_wf allowed ro → t ∈ allowed →
  ∃ ring ro', retry_ring p t s ro = (Ok ring, ro') ∧ router_wf allowed ro'.
Proof.
  intros Hp Hwf Ht. destruct (retry_ring p t s ro) as [res ro'] eqn:Er.
  destruct (retry_ring_wf _ _ _ _ _ _ _ Hwf Er) as (Hwf' & _ & _). revert Er. unfold retry_ring.
  destruct (ro_retry_rings ro !! t) as [ring|]; [intros [= <- <-]; eauto|].
  rewrite Hp. unfold default_retry. rewrite bind_Ok. change [AInt t] with (AInt <$> [t]).
  rewrite (validate_targets_valid allowed); [|done|apply NoDup_singleton|set_solver].
  rewrite bool_decide_true by done. intros [= <- <-]. eauto.
Qed.

Lemma row_routes_cons t rows buckets :
  row_routes ((t, rows) :: buckets) = (AInt t, Some (AInt <$> (Z.of_nat <$> rows))) :: row_routes buckets.
Proof. done. Qed.

Lemma yield_row_routes {State} (p : Partitioner (V := V) (Sender := Sender) State) allowed r n s buckets seen covered out ro :
  retry_targets p = default_retry → router_wf allowed ro → columns_aligned r n → length (block_rows (r_block r)) = n →
  NoDup buckets.*1 → (∀ t, t ∈ buckets.*1 → t ∈ allowed ∧ t ∉ seen) →
  (∀ t rows, (t, rows) ∈ buckets → rows ≠ [] ∧ NoDup rows ∧ Forall (λ i, (i < n)%nat) rows) →
  let w := yield_routes p r n s (row_routes buckets) seen covered false out ro in
  (size (list_to_set (mjoin buckets.*2) ∪ covered) = n → result w = Ok ()) ∧
  ∃ new, yielded w = out ++ new ∧ Forall2 (λ b y, y.1 = b.1 ∧ slice_indices r b.2 = Ok y.2) buckets new.
Proof.
  intros Hp Hwf Hcol Hlen. cbn zeta. revert seen covered out ro Hwf.
  induction buckets as [|[t rows] buckets IH]; intros seen covered out ro Hwf Hnd Ht Hrows.
  - cbn. rewrite (left_id_L ∅ (∪)). case_bool_decide as Hn; cbn; (split; [done|]); exists []; rewrite app_nil_r; done.
  - rewrite fmap_cons in Hnd. apply NoDup_cons in Hnd as [Hnin Hnd]. cbn in Hnin.
    destruct (Ht t) as [Hal Hseen]; [by left|]. destruct (Hrows t rows) as (Hne & Hrnd & Hlt); [by left|].
    destruct (default_ring_total p allowed t s ro Hp Hwf Hal) as (ring & ro' & Hring & Hwf').
    destruct (select_total (block_rows (r_block r)) rows) as [sel Hsel]; [by rewrite Hlen|].
    destruct (slice_indices_total r n rows sel Hcol Hlt Hsel) as (slice & Hsl & _).
    rewrite row_routes_cons. cbn [yield_routes].
    rewrite (validate_target_valid allowed) by done. rewrite decide_False by done. rewrite Hring.
    rewrite validate_row_indices_valid, bind_Ok, Hsl, bind_Ok by done.
    destruct (IH ({[t]} ∪ seen) (list_to_set rows ∪ covered) (out ++ [(t, slice)]) ro' Hwf' Hnd) as (Hres & new & Ho & Hnew).
    { intros u Hu. destruct (Ht u) as [??]; [by right|]. set_solver. }
    { intros u l Hu. apply (Hrows u l). by right. }
    split.
    + intros Hsz. apply Hres. rewrite <-Hsz. f_equal. rewrite fmap_cons. cbn [mjoin list_join snd].
      rewrite list_to_set_app_L. set_solver.
    + exists ((t, slice) :: new). rewrite Ho, <-app_assoc. split; [done|]. by constructor.
Qed.

Lemma buckets_cover targets buckets :
  buckets_ok targets buckets → size (list_to_set (mjoin buckets.*2) : gset nat) = length targets.
Proof.
  intros [_ Hb]. assert (list_to_set (mjoin buckets.*2) = (set_seq 0 (length targets) : gset nat)) as ->; [|by rewrite size_set_seq].
  apply set_eq. intros i. rewrite elem_of_list_to_set, list_elem_of_join, elem_of_set_seq. split.
  - intros (l & Hi & Hl). apply list_elem_of_fmap in Hl as ([t l'] & -> & [-> _]%Hb). cbn in Hi.
    apply elem_of_positions, lookup_lt_Some in Hi. lia.
  - intros [_ Hi]. destruct (lookup_lt_is_Some_2 targets i) as [t Ht]; [lia|].
    exists (positions targets t). split; [by apply elem_of_positions|].
    apply list_elem_of_fmap. exists (t, positions targets t). split; [done|]. apply Hb. split; [done|].
    by eapply list_elem_of_lookup_2.
Qed.

(** What routing a columnar batch by key must give. *)
Definition routed_by T ps (w : @routed V Sender) : Prop :=
  result w = Ok () ∧ (∀ t, t ∈ (yielded w).*1 ↔ t ∈ T <$> ps.*2) ∧
  ∀ t out, (t, out) ∈ yielded w → block_rows (r_block out) = rows_of T ps t.

Lemma key_route_columnar allowed s r layout ps T ro :
  router_wf allowed ro → (∀ key, target_for_key key s = Ok (T key) ∧ T key ∈ allowed) →
  r_block r = BTable layout ps.*1 → r_num_rows r = Some (Z.of_nat (length ps)) → columns_aligned r (length ps) →
  (∀ row key, (row, key) ∈ ps → key_selector (mkRow row None) = Ok key) →
  routed_by T ps (route (KeyPartitioner key_selector) r s ro).1.
Proof.
  intros Hwf HT Hblock Hn Hcol Hsel.
  assert (block_rows (r_block r) = ps.*1) as Hrows by (by rewrite Hblock).
  destruct (key_buckets r s ps T Hrows Hsel ltac:(intros; apply HT)) as (buckets & Hb & Hok).
  unfold route, is_columnar, route_columnar. rewrite Hn, bool_decide_true by eauto.
  rewrite (proj2 (Z.ltb_ge _ 0)), Nat2Z.id by lia. cbn [partition_columnar KeyPartitioner].
  unfold key_columnar. rewrite Hb, bind_Ok. pose proof Hok as [Hnd Hbk].
  assert (∀ t, t ∈ buckets.*1 ↔ t ∈ T <$> ps.*2) as Hdom.
  { intros t. rewrite list_elem_of_fmap. split; [by intros ([t' l] & -> & [_ ?]%Hbk)|].
    intros Ht. exists (t, positions (T <$> ps.*2) t). split; [done|]. by apply Hbk. }
  assert (∀ t, t ∈ T <$> ps.*2 → t ∈ allowed) as Hal.
  { intros t (key & -> & _)%list_elem_of_fmap. apply HT. }
  destruct (decide (length buckets = 1%nat)) as [Hone|Hmany].
  - destruct buckets as [|[t rows] [|]]; try done. rewrite bool_decide_false, andb_false_r by done. cbn [fst].
    destruct (default_ring_total (KeyPartitioner key_selector) allowed t s ro) as (ring & ro' & Hring & Hwf');
      [done..|apply Hal, Hdom; by left|].
    cbn [yield_routes]. rewrite (validate_target_valid allowed) by (done || (apply Hal, Hdom; by left)).
    rewrite decide_False, Hring by set_solver. split; [done|]. split; [done|].
    intros u out Hin%list_elem_of_singleton. injection Hin as -> ->. rewrite Hrows. unfold rows_of.
    rewrite filter_all; [done|]. intros [row key] Hp. cbn.
    assert (T key ∈ [t]) as ?%list_elem_of_singleton; [|done]. apply Hdom.
    rewrite <-list_fmap_compose. by apply (list_elem_of_fmap_2 (T ∘ snd) _ (row, key)).
  - assert (∃ c, (match buckets with [(target, _)] => Ok [(AInt target, None)] | _ => Ok (row_routes buckets) end)
      = Ok (row_routes buckets) ∧ negb (length ps =? 0)%nat && bool_decide (row_routes buckets = []) = c ∧ c = false)
      as (c & -> & -> & ->).
    { eexists. split_and!; [by destruct buckets as [|[] [|]]|done|]. destruct buckets as [|[t rows] buckets].
      - destruct ps as [|[row key] ps]; [done|]. exfalso. eapply not_elem_of_nil, Hdom. by left.
      - by rewrite bool_decide_false, andb_false_r. }
    cbn [fst]. edestruct (yield_row_routes (KeyPartitioner key_selector) allowed r (length ps) s buckets ∅ ∅ [] ro)
      as (Hres & new & Ho & Hnew); try done.
    { by rewrite Hrows, length_fmap. }
    { intros t Ht. split; [by apply Hal, Hdom|set_solver]. }
    { intros t l [-> Ht]%Hbk. split_and!.
      - apply list_elem_of_lookup in Ht as [i Hi]. apply elem_of_positions in Hi. by destruct (positions _ t); [set_solver|].
      - apply NoDup_filter, NoDup_seq.
      - apply Forall_forall. intros i Hi%elem_of_positions%lookup_lt_Some. by rewrite !length_fmap in Hi. }
    cbn in Ho. split; [|rewrite Ho; split].
    + apply Hres. rewrite (right_id_L ∅ (∪)), (buckets_cover _ _ Hok). by rewrite !length_fmap.
    + intros t. rewrite <-Hdom. replace new.*1 with buckets.*1; [done|].
      clear -Hnew. induction Hnew as [|b y bs new [Hy _] _ IH]; [done|]. rewrite !fmap_cons. by f_equal.
    + intros t out Hin. destruct (Forall2_elem_of_r _ _ _ _ Hnew Hin) as ([t' l] & [-> Ht]%Hbk & E & Hsl). cbn [fst snd] in E, Hsl. subst t'.
      pose proof (select_positions (T ∘ snd) ps fst t) as Hselp. rewrite list_fmap_compose, <-Hrows in Hselp.
      assert (Forall (λ i, (i < length ps)%nat) (positions (T <$> ps.*2) t)) as Hlt.
      { apply Forall_forall. intros i Hi%elem_of_positions%lookup_lt_Some. by rewrite !length_fmap in Hi. }
      destruct (slice_indices_total r (length ps) (positions (T <$> ps.*2) t) _ Hcol Hlt Hselp) as (slice & Hsl' & Hbs).
      rewrite Hsl in Hsl'. injection Hsl' as ->. by rewrite Hbs.
Qed.
End keyed.

(** C24. Keyed routing is by key-group owner, for row and columnar records alike: with
    the partitioner opened and a control topology that holds the downstream subtasks,
    every key has one owner, the subtask [key_group_owner] names for the key's group
    at the partitioner's max parallelism and the one whose assigned range holds that
    group, and routing a columnar batch never raises, sends to each subtask that owns the key of
    some row exactly the rows whose key it owns, in the batch's order, and to nobody
    else; a row record goes to the owner of its key.  The whole-batch shortcut for a
    single target is therefore never taken with rows of several owners. *)
Theorem keyed_routing_by_owner {V Sender K} `{KeyCodec K, Blake2b} (key_selector : Row (gmap string V) → outcome K)
    configured config_mp count s allowed ro (r r' : @record V Sender) layout ps row key :
  key_open configured config_mp count = Ok s → router_wf allowed ro → (∀ t, 0 <= t < count → t ∈ allowed) →
  r_block r = BTable layout ps.*1 → r_num_rows r = Some (Z.of_nat (length ps)) → columns_aligned r (length ps) →
  (∀ row key, (row, key) ∈ ps → key_selector (mkRow row None) = Ok key) →
  r_block r' = BRow row → r_num_rows r' = None → key_selector row = Ok key →
  ∃ T, (∀ k, target_for_key k s = Ok (T k) ∧ owned_by (default config_mp configured) count k (T k)) ∧
    routed_by T ps (route (KeyPartitioner key_selector) r s ro).1 ∧
    yielded (route (KeyPartitioner key_selector) r' s ro).1 = [(T key, r')] ∧
    result (route (KeyPartitioner key_selector) r' s ro).1 = Ok ().
Proof.
  intros Hopen Hwf Hal Hblock Hn Hcol Hsel Hblock' Hn' Hkey.
  set (T := λ k, match target_for_key k s with Ok t => t | Err _ => 0 end).
  assert (∀ k, target_for_key k s = Ok (T k) ∧ T k ∈ allowed) as HT.
  { intros k. unfold T. destruct (target_for_key_total _ _ _ _ k Hopen) as (t & -> & Ht & _). auto. }
  exists T. split.
  { intros k. unfold T. by destruct (target_for_key_total _ _ _ _ k Hopen) as (t & -> & _ & Ho). }
  split; [by eapply key_route_columnar|].
  unfold route, is_columnar, route_row. rewrite Hn', bool_decide_false by (by intros [? ?]).
  cbn [partition KeyPartitioner]. unfold key_partition, block_row. rewrite Hblock', Hkey.
  assert (opened (ks_partition_count s) = Ok count) as ->.
  { revert Hopen. unfold key_open, partitioner_open. destruct (count <=? 0) eqn:Ec; [done|]. rewrite bind_Ok.
    destruct (arg_int _) as [m|]; [|done]. destruct (m <? count); [done|]. intros [= <-]. cbn. by rewrite Ec. }
  rewrite !bind_Ok, (proj1 (HT key)), bind_Ok. change [AInt (T key)] with (AInt <$> [T key]).
  rewrite (validate_targets_valid allowed); [|done|apply NoDup_singleton|intros t ->%list_elem_of_singleton; apply HT].
  cbn [fst yield_row].
  destruct (default_ring_total (V := V) (Sender := Sender) (KeyPartitioner key_selector) allowed (T key) s ro)
    as (ring & ro' & -> & _); [done..|apply HT|done].
Qed.

(** ** The ring: lemmas *)

(** [n] successive [take()] calls. *)
Fixpoint dispatcher_takes (n : nat) (d : WorkerPoolDispatcher) : outcome (list Z) * WorkerPoolDispatcher :=
  match n with
  | O => (Ok [], d)
  | S n =>
      match dispatcher_take d with
      | (Err e, d) => (Err e, d)
      | (Ok t, d) => match dispatcher_takes n d with (Ok l, d) => (Ok (t :: l), d) | (Err e, d) => (Err e, d) end
      end
  end.

Definition dispatcher_wf (d : WorkerPoolDispatcher) : Prop := (wp_cursor d < length (wp_tasks d))%nat.

Lemma dispatcher_take_wf d :
  dispatcher_wf d → ∃ t, wp_tasks d !! wp_cursor d = Some t ∧
    dispatcher_take d = (Ok t, mkDispatcher (wp_tasks d) (S (wp_cursor d) mod length (wp_tasks d))) ∧
    dispatcher_wf (mkDispatcher (wp_tasks d) (S (wp_cursor d) mod length (wp_tasks d))).
Proof.
  intros Hwf. unfold dispatcher_wf in *. destruct (lookup_lt_is_Some_2 _ _ Hwf) as [t Ht].
  pose proof (Nat.mod_upper_bound (S (wp_cursor d)) (length (wp_tasks d)) ltac:(lia)) as Hb.
  destruct (lookup_lt_is_Some_2 _ _ Hb) as [u Hu]. exists t. split; [done|]. split; [|done].
  unfold dispatcher_take, dispatcher_advance, dispatcher_current. cbn [wp_tasks wp_cursor]. by rewrite Ht, Hu.
Qed.

Lemma dispatcher_takes_spec n d :
  dispatcher_wf d → ∃ l d', dispatcher_takes n d = (Ok l, d') ∧ length l = n ∧ wp_tasks d' = wp_tasks d ∧
    ∀ i, (i < n)%nat → l !! i = wp_tasks d !! ((wp_cursor d + i) mod length (wp_tasks d))%nat.
Proof.
  revert d. induction n as [|n IH]; intros d Hwf; [exists [], d; split_and!; [done..|lia]|].
  destruct (dispatcher_take_wf d Hwf) as (t & Ht & Htake & Hwf').
  destruct (IH _ Hwf') as (l & d' & Hl & Hlen & Htasks & Hi). cbn [wp_tasks wp_cursor] in *.
  exists (t :: l), d'. cbn [dispatcher_takes]. rewrite Htake, Hl. split_and!; [done|cbn; lia|done|].
  unfold dispatcher_wf in Hwf. intros [|i] Hlt; cbn [lookup list_lookup].
  - by rewrite Nat.add_0_r, Nat.mod_small.
  - change (list_lookup i l) with (l !! i). rewrite Hi by lia. f_equal.
    rewrite Nat.Div0.add_mod_idemp_l. f_equal. lia.
Qed.

Lemma list_index_Some t l i : list_index t l = Some i → l !! i = Some t.
Proof.
  revert i. induction l as [|u l IH]; intros i; cbn; [done|]. destruct (Z.eqb_spec u t) as [->|].
  - by intros [= <-].
  - destruct (list_index t l); [|done]. intros [= <-]. cbn. by apply IH.
Qed.

Lemma list_index_elem t l : t ∈ l → ∃ i, list_index t l = Some i.
Proof.
  induction l as [|u l IH]; [by intros ?%not_elem_of_nil|]. cbn. destruct (Z.eqb_spec u t) as [->|Hne]; [eauto|].
  intros [->|Ht]%elem_of_cons; [done|]. destruct (IH Ht) as [i ->]. by eexists.
Qed.

Lemma ring_from_spec t d :
  t ∈ wp_tasks d → ∃ ring, ring_from t d = Ok ring ∧ head ring = Some t ∧ ring ≡ₚ wp_tasks d.
Proof.
  intros [i Hi]%list_index_elem. unfold ring_from. rewrite Hi. eexists. split; [done|].
  apply list_index_Some in Hi. split.
  - by rewrite (drop_S _ _ _ Hi).
  - rewrite (Permutation_app_comm (drop i _)). by rewrite take_drop.
Qed.

(** Rescaling is fair and its retries stay in its slice: opened on a valid
    subtask, the partitioner's successive rows visit the assigned tasks cyclically in
    order, whatever their number, and for every assigned task the retry ring is
    accepted by a router of that topology, starts with the task and visits every
    assigned task once. *)
Theorem rescale_fair {V Sender} (rk : @record V Sender) parallelism count index assigned ro n :
  0 < parallelism → 0 < count → 0 <= index < parallelism →
  target_indices RESCALE parallelism count index = Ok assigned →
  router_wf (list_to_set assigned) ro → ro_retry_rings ro = ∅ →
  ∃ d, rescale_open parallelism count index = Ok d ∧ wp_tasks d = assigned ∧
    (∃ l d', dispatcher_takes n d = (Ok l, d') ∧ length l = n ∧
       ∀ i, (i < n)%nat → l !! i = assigned !! (i mod length assigned)%nat) ∧
    ((rescale_partition rk (Some d)).1 = Ok (AInt <$> option_list (head assigned))) ∧
    ∀ t, t ∈ assigned → ∃ ring ro', retry_ring (V := V) (Sender := Sender) RescalePartitioner t (Some d) ro = (Ok ring, ro') ∧
      head ring = Some t ∧ ring ≡ₚ assigned.
Proof.
  intros Hp Hc Hi Ha Hwf Hrings. exists (mkDispatcher assigned 0).
  assert (assigned ≠ [] ∧ NoDup assigned) as [Hne Hnd].
  { rewrite target_indices_valid in Ha by done. injection Ha as <-. destruct (Z.leb_spec count parallelism).
    - split; [done|apply NoDup_singleton].
    - split; [|by apply NoDup_range_step]. assert (index ∈ range_step index count parallelism) as Hin.
      { apply elem_of_range_step; rewrite ?Z.sub_diag, ?Z.mod_0_l; lia. }
      by destruct (range_step _ _ _); [set_solver|]. }
  assert (dispatcher_wf (mkDispatcher assigned 0)) as Hdwf by (unfold dispatcher_wf; cbn; destruct assigned; cbn; [done|lia]).
  split_and!.
  - unfold rescale_open, partitioner_open. rewrite (proj2 (Z.leb_gt count 0)) by lia. rewrite bind_Ok, Ha, bind_Ok.
    unfold WorkerPoolDispatcher_init. by rewrite bool_decide_false.
  - done.
  - destruct (dispatcher_takes_spec n _ Hdwf) as (l & d' & Hl & Hlen & _ & Hli). exists l, d'. by split_and!.
  - unfold rescale_partition. destruct (dispatcher_take_wf _ Hdwf) as (t & Ht & -> & _). cbn in Ht.
    by destruct assigned; simplify_eq/=.
  - intros t Ht. destruct (ring_from_spec t (mkDispatcher assigned 0) Ht) as (ring & Hr & Hh & Hperm). cbn in Hperm.
    unfold retry_ring. rewrite Hrings, lookup_empty. cbn [retry_targets RescalePartitioner]. unfold rescale_retry.
    rewrite Hr, bind_Ok, bind_Ok, (validate_targets_valid _ _ _ Hwf).
    + rewrite bool_decide_true by done. eauto.
    + by rewrite Hperm.
    + intros u Hu. rewrite Hperm in Hu. by apply elem_of_list_to_set.
Qed.

(** ** Examples *)

Section examples.
Import Samples.
Local Open Scope string_scope.

Definition sample_router : RecordRouter := mkRouter 3 [0; 1; 2] (Some (list_to_set [0; 1; 2])) ∅.

Lemma sample_router_wf : router_wf (list_to_set [0; 1; 2]) sample_router.
Proof.
  destruct (RecordRouter_init_wf 3 [AInt 0; AInt 1; AInt 2] sample_router) as (targets & E & Hwf & Hc & _); [done|].
  rewrite <-Hc in Hwf. exact Hwf.
Defined.

Definition sample_row (k : Z) : gmap string Z := {["k" := k]}.
Definition sample_selector (row : Row (gmap string Z)) : outcome Z := of_option KeyError (row_values row !! "k").
Definition sample_pairs : list (gmap string Z * Z) := (λ k, (sample_row k, k)) <$> [3; 7; 3; 0].
Definition sample_batch : @record Z Z :=
  mkRecord (BTable (Mapping [("k", "list")]) sample_pairs.*1) (Some 4) (Some 9) None None (Some [None; Some DELETE; None; None]) None.
Definition sample_record : @record Z Z := mkRecord (BRow (mkRow (sample_row 4) None)) None None None None None None.
Definition sample_keys : KeyState := mkKeyState (Some (AInt 3)) (Some 3).

Lemma router_sound_witness :
  let w := (route (SimplePartitioner (λ _ _, Ok [2; 1])) sample_batch (Some 3) sample_router).1 in
  (yielded w).*1 = [2; 1] ∧ result w = Ok () ∧ router_wf (list_to_set [0; 1; 2]) (router_after w).
Proof.
  split; [by vm_compute|]. split; [by vm_compute|].
  exact (proj1 (router_sound (SimplePartitioner (λ _ _, Ok [2; 1])) _ sample_batch (Some 3) _ sample_router_wf)).
Defined.

Lemma keyed_routing_by_owner_witness :
  (yielded (route (KeyPartitioner sample_selector) sample_batch sample_keys sample_router).1).*1 = [1; 2; 0] ∧
  ∃ T, (∀ k, target_for_key k sample_keys = Ok (T k) ∧ owned_by (AInt 3) 3 k (T k)) ∧
    routed_by T sample_pairs (route (KeyPartitioner sample_selector) sample_batch sample_keys sample_router).1.
Proof.
  split; [by vm_compute|].
  destruct (keyed_routing_by_owner sample_selector None (AInt 3) 3 sample_keys (list_to_set [0; 1; 2]) sample_router
    sample_batch sample_record (Mapping [("k", "list")]) sample_pairs (mkRow (sample_row 4) None) 4) as (T & HT & Hr & _).
  - done.
  - exact sample_router_wf.
  - intros t Ht. apply elem_of_list_to_set. assert (t = 0 ∨ t = 1 ∨ t = 2) as [->|[->| ->]] by lia; set_solver.
  - done.
  - done.
  - split; [by intros ? [= <-]|done].
  - intros row key (k & [= -> ->] & _)%list_elem_of_fmap. unfold sample_selector, sample_row. cbn. by rewrite lookup_singleton_eq.
  - done.
  - done.
  - done.
  - by exists T.
Defined.

Lemma rescale_fair_witness :
  let ro := mkRouter 3 [1] (Some (list_to_set [1])) ∅ in
  ∃ d, rescale_open 2 3 1 = Ok d ∧ wp_tasks d = [1].
Proof.
  cbn zeta. assert (router_wf (list_to_set [1]) (mkRouter 3 [1] (Some (list_to_set [1])) ∅)) as Hwf.
  { destruct (RecordRouter_init_wf 3 [AInt 1] (mkRouter 3 [1] (Some (list_to_set [1])) ∅)) as (targets & E & Hw & Hc & _); [done|].
    rewrite <-Hc in Hw. exact Hw. }
  destruct (rescale_fair sample_record 2 3 1 [1] _ 5 ltac:(lia) ltac:(lia) ltac:(lia) eq_refl Hwf eq_refl) as (d & Hd & Ht & _).
  by exists d.
Defined.

(** [SimplePartitioner]'s whole-batch shortcut counts bucket entries, not rows: a
    function that names one target twice for the first row and none for the second has
    both rows shipped, although the second row was given no target (the router rejects
    both answers when the rows are routed one by one). *)
Definition duplicating_fn (r : @record Z Z) (_ : option Z) : outcome (list Z) :=
  Ok (if decide (row_values (block_row (r_block r)) !! "k" = Some 0) then [2; 2] else []).

Example duplicate_targets_ship_whole_batch :
  let batch : @record Z Z := new_record (BTable (Mapping [("k", "list")]) [sample_row 0; sample_row 1]) (Some 2) in
  let w := (route (SimplePartitioner duplicating_fn) batch (Some 3) sample_router).1 in
  result w = Ok () ∧ yielded w = [(2, batch)] ∧
  result (route (SimplePartitioner duplicating_fn) (new_record (BRow (mkRow (sample_row 1) None)) None) (Some 3) sample_router).1
    = Err ValueError.
Proof. split_and!; vm_compute; reflexivity. Qed.
End examples.
