(* ===== verification/Graphs.v ===== *)
(** * Graphs: the two searches the planner and the scheduler share

    Models the loops that [src/ray/klein/runtime/graph/logical_graph.py] and
    [src/ray/klein/runtime/execution_graph/execution_graph.py] run over a graph given as a
    list of edges: the topological order of Kahn's algorithm (with a queue there, with a
    heap here) and the connected components of a depth-first search.  The theorems say
    what they compute, with enough fuel. *)
From S2P Require Import Prelude.
From stdpp Require Import relations.

(** ** Definitions *)

Section graphs.
Context {K : Type} `{Countable K}.
Implicit Types (v u : K) (edges : list (K * K)).

Definition successors edges v : list K := snd <$> filter (λ e, e.1 = v) edges.

(** The number of edges into a vertex. *)
Definition in_degree edges v : nat := length (filter (λ e, e.2 = v) edges).

(** One step of the inner loop: [remaining[target] -= 1], and a target without an open
    input becomes ready.  Every target is a key of [remaining]. *)
Definition release (push : K → list K → list K) (acc : list K * gmap K nat) (target : K) : list K * gmap K nat :=
  let remaining := alter pred target acc.2 in
  (if bool_decide (remaining !! target = Some 0) then push target acc.1 else acc.1, remaining).

(** The loop [while ready]; every vertex becomes ready at most once, so [fuel] is the
    number of vertices. *)
Fixpoint kahn (push : K → list K → list K) (outgoing : K → list K) (fuel : nat)
    (ready : list K) (remaining : gmap K nat) (ordered : list K) : list K :=
  match fuel, ready with
  | S fuel, v :: ready =>
      let '(ready, remaining) := foldl (release push) (ready, remaining) (outgoing v) in
      kahn push outgoing fuel ready remaining (ordered ++ [v])
  | _, _ => ordered
  end.

Definition degrees (vertices : list K) edges : gmap K nat := list_to_map ((λ v, (v, in_degree edges v)) <$> vertices).

(** The vertices without inputs, pushed in the order of the vertices. *)
Definition initially_ready (push : K → list K → list K) (vertices : list K) edges : list K :=
  foldl (λ ready v, if bool_decide (in_degree edges v = 0) then push v ready else ready) [] vertices.

(** The whole loop, from the degrees to the order. *)
Definition topological_order (push : K → list K → list K) (outgoing : K → list K) (vertices : list K) edges : list K :=
  kahn push outgoing (length vertices) (initially_ready push vertices edges) (degrees vertices edges) [].

(** The search of one component: the stack's top is its head, and a stack is extended by
    the neighbours that were not seen.  Every vertex is expanded once, so that the number
    of rounds is at most one more than the number of neighbours. *)
Fixpoint search (adjacency : K → list K) (fuel : nat) (stack : list K) (seen : gset K) (component : list K)
    : gset K * list K :=
  match fuel, stack with
  | S fuel, v :: stack =>
      if bool_decide (v ∈ seen) then search adjacency fuel stack seen component
      else
        let seen := {[v]} ∪ seen in
        search adjacency fuel (reverse (filter (λ u, u ∉ seen) (adjacency v)) ++ stack) seen (component ++ [v])
  | _, _ => (seen, component)
  end.

Definition neighbours (keys : list K) (adjacency : K → list K) : nat := sum_list (length ∘ adjacency <$> keys).

Definition connected_components (keys : list K) (adjacency : K → list K) : list (list K) :=
  (foldl (λ (acc : gset K * list (list K)) v,
     if bool_decide (v ∈ acc.1) then acc
     else let '(seen, component) := search adjacency (S (neighbours keys adjacency)) [v] acc.1 [] in (seen, acc.2 ++ [component]))
   (∅, []) keys).2.

(** The adjacency of an undirected view: both ends of every edge, in the order of the edges. *)
Definition undirected edges v : list K :=
  edges ≫= λ e, (if bool_decide (e.1 = v) then [e.2] else []) ++ (if bool_decide (e.2 = v) then [e.1] else []).

(** ** What they are for *)

Definition flows edges u v : Prop := (u, v) ∈ edges.
Definition acyclic edges : Prop := ∀ v, ¬ tc (flows edges) v v.

(** Every vertex comes after its inputs. *)
Definition inputs_first edges (order : list K) : Prop :=
  ∀ before v after, order = before ++ v :: after → ∀ u, flows edges u v → u ∈ before.

(** The vertices an undirected path links. *)
Definition linked edges : relation K := rtsc (flows edges).
End graphs.

(** ** The topological order *)

Section kahn.
Context {K : Type} `{Countable K}.
Implicit Types (v u w : K) (edges : list (K * K)) (push : K → list K → list K).

Definition occurrences w (l : list K) : nat := length (filter (λ x, x = w) l).

(** The edges into a vertex whose source is not ordered yet. *)
Definition open_inputs edges (ordered : list K) w : nat := length (filter (λ e, e.2 = w ∧ e.1 ∉ ordered) edges).

Lemma open_inputs_nil edges w : open_inputs edges [] w = in_degree edges w.
Proof.
  unfold open_inputs, in_degree. f_equal. apply list_filter_iff. intros e. split; [by intros []|].
  intros ?. split; [done|]. apply not_elem_of_nil.
Qed.

Lemma open_inputs_snoc edges ordered v w :
  v ∉ ordered → open_inputs edges (ordered ++ [v]) w + occurrences w (successors edges v) = open_inputs edges ordered w.
Proof.
  intros Hv. unfold open_inputs, occurrences, successors. induction edges as [|[a b] edges IH]; [done|].
  rewrite !filter_cons. cbn [fst snd]. destruct (decide (a = v)) as [->|Ha]; cbn [fmap list_fmap fst snd].
  - rewrite (decide_False (P := b = w ∧ v ∉ ordered ++ [v])) by set_solver. rewrite filter_cons.
    destruct (decide (b = w)) as [->|Hb].
    + rewrite decide_True by done. cbn [length]. lia.
    + rewrite decide_False by (by intros []). lia.
  - destruct (decide (b = w ∧ a ∉ ordered)) as [[-> ?]|Hb].
    + rewrite decide_True by set_solver. cbn [length]. lia.
    + rewrite decide_False by set_solver. done.
Qed.

Lemma occurrences_pos w (l : list K) : w ∈ l ↔ 0 < occurrences w l.
Proof.
  unfold occurrences. induction l as [|x l IH]; [split; [by intros ?%not_elem_of_nil|cbn; lia]|].
  rewrite filter_cons, elem_of_cons, IH. case_decide; cbn; [naive_solver lia|]. naive_solver.
Qed.

Lemma open_inputs_pos edges ordered w : 0 < open_inputs edges ordered w ↔ ∃ u, flows edges u w ∧ u ∉ ordered.
Proof.
  unfold open_inputs, flows. split.
  - intros Hl. destruct (filter _ edges) as [|[a b] l] eqn:E; [cbn in Hl; lia|].
    assert ((a, b) ∈ filter (λ e, e.2 = w ∧ e.1 ∉ ordered) edges) as [[Hb Ha] Hin]%list_elem_of_filter by (rewrite E; by left).
    cbn in *. subst. eauto.
  - intros (u & Hu & Hnot). assert ((u, w) ∈ filter (λ e, e.2 = w ∧ e.1 ∉ ordered) edges) as Hin by (by apply list_elem_of_filter).
    destruct (filter _ edges); [by apply not_elem_of_nil in Hin|]. cbn. lia.
Qed.

(** What a queue or a heap of ready vertices must do. *)
Definition pushes push : Prop := ∀ v l, push v l ≡ₚ v :: l.

Lemma release_all push (Hp : pushes push) targets : ∀ ready remaining (c : K → nat),
  NoDup ready → (∀ w, w ∈ ready → c w = 0) → (∀ w, occurrences w targets <= c w) →
  (∀ w, w ∈ targets → remaining !! w = Some (c w)) →
  let acc := foldl (release push) (ready, remaining) targets in
  NoDup acc.1 ∧ (∀ w, w ∈ acc.1 ↔ w ∈ ready ∨ (w ∈ targets ∧ c w = occurrences w targets)) ∧
  (∀ w, remaining !! w = Some (c w) → acc.2 !! w = Some (c w - occurrences w targets)).
Proof.
  induction targets as [|t targets IH]; intros ready remaining c Hnd H0 Hle Hrem; cbn [foldl].
  { split_and!; [done| |]; cbn.
    - intros w. split; [by left|]. by intros [|[?%not_elem_of_nil _]].
    - intros w ->. f_equal. lia. }
  assert (Hocc : ∀ w, occurrences w (t :: targets) = (if decide (t = w) then 1 else 0) + occurrences w targets).
  { intros w. unfold occurrences. rewrite filter_cons. by case_decide. }
  set (c' := λ w, if decide (t = w) then pred (c w) else c w).
  assert (Ht : remaining !! t = Some (c t)) by (apply Hrem; by left).
  assert (Hpos : 0 < c t) by (specialize (Hle t); rewrite Hocc, decide_True in Hle by done; lia).
  assert (Hnew : alter pred t remaining !! t = Some (c' t)).
  { rewrite lookup_alter_eq, Ht. unfold c'. by rewrite decide_True. }
  set (ready' := (release push (ready, remaining) t).1).
  change (release push (ready, remaining) t) with (ready', alter pred t remaining).
  assert (Hready' : ∀ w, w ∈ ready' ↔ w ∈ ready ∨ (w = t ∧ c' t = 0)).
  { intros w. subst ready'. unfold release. cbn. rewrite Hnew. case_bool_decide as E.
    - injection E as E. rewrite (Hp t ready : _ ≡ₚ _), elem_of_cons. naive_solver.
    - split; [by left|]. intros [?|[-> E']]; [done|]. by rewrite E' in E. }
  assert (Hnd' : NoDup ready').
  { subst ready'. unfold release. cbn. case_bool_decide; [|done]. rewrite (Hp t ready : _ ≡ₚ _). constructor; [|done].
    intros Hin%H0. lia. }
  assert (Hloop : NoDup (foldl (release push) (ready', alter pred t remaining) targets).1 ∧
    (∀ w, w ∈ (foldl (release push) (ready', alter pred t remaining) targets).1 ↔ w ∈ ready' ∨ (w ∈ targets ∧ c' w = occurrences w targets)) ∧
    (∀ w, alter pred t remaining !! w = Some (c' w) →
       (foldl (release push) (ready', alter pred t remaining) targets).2 !! w = Some (c' w - occurrences w targets))).
  { apply IH; [done| | |].
    - intros w [Hw|[-> ?]]%Hready'; [|done]. unfold c'. rewrite (H0 w Hw). by case_decide.
    - intros w. specialize (Hle w). rewrite Hocc in Hle. unfold c'. case_decide; lia.
    - intros w Hw. destruct (decide (t = w)) as [<-|Hne]; [done|]. rewrite lookup_alter_ne by done. unfold c'.
      rewrite decide_False by done. apply Hrem. by right. }
  destruct Hloop as (L1 & L2 & L3). split_and!; [exact L1| |].
  - intros w. rewrite L2, Hready', elem_of_cons, Hocc. pose proof (occurrences_pos w targets) as Hw.
    destruct (decide (t = w)) as [<-|Hne]; [|assert (c' w = c w) as -> by (unfold c'; by rewrite decide_False); cbn; naive_solver].
    assert (Hc' : c' t = pred (c t)) by (unfold c'; by rewrite decide_True). rewrite Hc'.
    specialize (Hle t). rewrite Hocc, decide_True in Hle by done.
    destruct (decide (t ∈ targets)) as [Hin|Hin].
    + apply Hw in Hin as Hin'. split; [|intros [?|[_ ?]]; [by left; left|right; split; [done|lia]]].
      intros [[?|[_ ?]]|[_ ?]]; [by left|lia|right; split; [by left|lia]].
    + assert (occurrences t targets = 0) as Ho by (destruct (occurrences t targets) eqn:E; [done|exfalso; apply Hin, Hw; lia]).
      rewrite Ho in *. split; [|intros [?|[_ ?]]; [by left; left|left; right; split; [done|lia]]].
      intros [[?|[_ ?]]|[? _]]; [by left|right; split; [by left|lia]|done].
  - intros w Hw. specialize (L3 w). destruct (decide (t = w)) as [<-|Hne].
    + rewrite L3 by done. f_equal. unfold c'. rewrite Hocc, !decide_True by done. lia.
    + rewrite L3; [|rewrite lookup_alter_ne by done; unfold c'; by rewrite decide_False].
      f_equal. unfold c'. rewrite Hocc, !decide_False by done. lia.
Qed.

(** The invariant of the loop: what is ordered has its inputs before it, and ready is
    exactly what has no open inputs and is not ordered. *)
Record ordering (vertices : list K) edges (ready : list K) (remaining : gmap K nat) (ordered : list K) : Prop := {
  ordering_nodup : NoDup (ordered ++ ready);
  ordering_vertices w : w ∈ ordered ++ ready → w ∈ vertices;
  ordering_inputs : inputs_first edges ordered;
  ordering_remaining w : w ∈ vertices → remaining !! w = Some (open_inputs edges ordered w);
  ordering_ready w : w ∈ vertices → w ∈ ordered ++ ready ↔ open_inputs edges ordered w = 0
}.

Lemma inputs_first_snoc edges ordered v :
  inputs_first edges ordered → open_inputs edges ordered v = 0 → inputs_first edges (ordered ++ [v]).
Proof.
  intros Hord Hopen before w after E u Hu. destruct after as [|x after _] using rev_ind.
  - apply app_inj_tail in E as [-> ->]. destruct (decide (u ∈ before)) as [|Hn]; [done|].
    assert (0 < open_inputs edges before w) by (apply open_inputs_pos; eauto). lia.
  - rewrite app_comm_cons, app_assoc in E. apply app_inj_tail in E as [-> _]. by eapply Hord.
Qed.

Lemma kahn_step push vertices edges v ready remaining ordered targets :
  pushes push → (∀ e, e ∈ edges → e.1 ∈ vertices ∧ e.2 ∈ vertices) → targets ≡ₚ successors edges v →
  ordering vertices edges (v :: ready) remaining ordered →
  let acc := foldl (release push) (ready, remaining) targets in
  ordering vertices edges acc.1 acc.2 (ordered ++ [v]).
Proof.
  intros Hp Hends Htargets [Hnd Hsub Hinp Hrem Hready].
  assert (Hv : v ∈ vertices) by (apply Hsub; set_solver).
  assert (Hvo : v ∉ ordered) by (rewrite NoDup_app in Hnd; set_solver).
  assert (Hocc : ∀ w, open_inputs edges (ordered ++ [v]) w + occurrences w targets = open_inputs edges ordered w).
  { intros w. rewrite <-(open_inputs_snoc edges ordered v w Hvo). f_equal. unfold occurrences. by rewrite Htargets. }
  assert (Htv : ∀ w, w ∈ targets → w ∈ vertices).
  { intros w. rewrite Htargets. unfold successors. rewrite list_elem_of_fmap. intros (e & -> & [_ He]%list_elem_of_filter).
    by apply Hends. }
  destruct (release_all push Hp targets ready remaining (open_inputs edges ordered)) as (L1 & L2 & L3).
  - rewrite NoDup_app in Hnd. destruct Hnd as (_ & _ & Hnd). by apply NoDup_cons in Hnd as [_ ?].
  - intros w Hw. apply Hready; [apply Hsub|]; set_solver.
  - intros w. specialize (Hocc w). lia.
  - intros w Hw. by apply Hrem, Htv.
  - cbn zeta in *. split.
    + apply NoDup_app. rewrite NoDup_app in Hnd. destruct Hnd as (Hnd1 & Hnd2 & [Hnd3 Hnd4]%NoDup_cons). split_and!; [| |done].
      * apply NoDup_app. split_and!; [done|set_solver|apply NoDup_singleton].
      * intros w [Hw| ->%list_elem_of_singleton]%elem_of_app [Hr|[Hr E]]%L2; [set_solver| |done|].
        -- specialize (Hready w ltac:(apply Hsub; set_solver)). pose proof (proj1 (occurrences_pos w targets) Hr).
           assert (open_inputs edges ordered w = 0) by (apply Hready; set_solver). lia.
        -- specialize (Hready v Hv). pose proof (proj1 (occurrences_pos v targets) Hr).
           assert (open_inputs edges ordered v = 0) by (apply Hready; set_solver). lia.
    + intros w [[?| ->%list_elem_of_singleton]%elem_of_app|[?|[? _]]%L2]%elem_of_app; try done; [apply Hsub..|by apply Htv]; set_solver.
    + apply inputs_first_snoc; [done|]. apply Hready; [done|set_solver].
    + intros w Hw. rewrite (L3 w) by auto. f_equal. specialize (Hocc w). lia.
    + intros w Hw. rewrite !elem_of_app, L2, list_elem_of_singleton. specialize (Hready w Hw). specialize (Hocc w).
      rewrite elem_of_app, elem_of_cons in Hready. pose proof (occurrences_pos w targets) as Hpos.
      split.
      { intros [Hin|[Hin|[? ?]]]; [| |lia]; cut (open_inputs edges ordered w = 0); [lia| |lia|]; tauto. }
      intros H0. destruct (decide (w ∈ targets)) as [Hin|Hin]; [right; right; split; [done|lia]|].
      assert (occurrences w targets = 0) by (destruct (occurrences w targets) eqn:E; [done|exfalso; apply Hin, Hpos; lia]).
      assert (open_inputs edges ordered w = 0) as E by lia. apply Hready in E. naive_solver.
Qed.

Lemma kahn_ordering push vertices edges outgoing :
  pushes push → (∀ e, e ∈ edges → e.1 ∈ vertices ∧ e.2 ∈ vertices) → (∀ v, outgoing v ≡ₚ successors edges v) →
  ∀ fuel ready remaining ordered, ordering vertices edges ready remaining ordered →
  length vertices <= fuel + length ordered →
  ∃ final, ordering vertices edges [] final (kahn push outgoing fuel ready remaining ordered).
Proof.
  intros Hp Hends Hout fuel. induction fuel as [|fuel IH]; intros ready remaining ordered Ho Hf; cbn [kahn].
  - assert (ready = []) as ->; [|by exists remaining]. destruct ready as [|v ready]; [done|].
    assert (length (ordered ++ v :: ready) <= length vertices) as Hl.
    { apply submseteq_length, NoDup_submseteq; [apply Ho|]. intros w. apply Ho. }
    rewrite length_app in Hl. cbn in Hl. lia.
  - destruct ready as [|v ready]; [by exists remaining|].
    pose proof (kahn_step push vertices edges v ready remaining ordered (outgoing v) Hp Hends (Hout v) Ho) as Ho'.
    cbn zeta in Ho'. destruct (foldl (release push) (ready, remaining) (outgoing v)) as [ready' remaining']. apply IH; [done|]. rewrite length_app. cbn. lia.
Qed.

Lemma initially_ready_perm push vertices edges :
  pushes push → initially_ready push vertices edges ≡ₚ filter (λ v, in_degree edges v = 0) vertices.
Proof.
  intros Hp. unfold initially_ready. cut (∀ ready, foldl (λ ready v, if bool_decide (in_degree edges v = 0) then push v ready else ready) ready vertices
    ≡ₚ ready ++ filter (λ v, in_degree edges v = 0) vertices); [by intros ->|].
  induction vertices as [|v vertices IH]; intros ready; cbn [foldl]; [by rewrite app_nil_r|]. rewrite IH, filter_cons.
  case_bool_decide as E; [|by rewrite decide_False]. rewrite decide_True by done. rewrite (Hp v ready : _ ≡ₚ _). cbn.
  apply Permutation_middle.
Qed.

Lemma ordering_start push vertices edges :
  pushes push → NoDup vertices → ordering vertices edges (initially_ready push vertices edges) (degrees vertices edges) [].
Proof.
  intros Hp Hnd. pose proof (initially_ready_perm push vertices edges Hp) as Hi. split; cbn.
  - rewrite Hi. by apply NoDup_filter.
  - intros w. rewrite Hi. by intros [_ ?]%list_elem_of_filter.
  - intros before w after E. by destruct before.
  - intros w Hw. rewrite open_inputs_nil. unfold degrees. apply elem_of_list_to_map_1.
    + rewrite <-list_fmap_compose. unfold compose. cbn. by rewrite list_fmap_id.
    + apply list_elem_of_fmap. eauto.
  - intros w Hw. rewrite Hi, list_elem_of_filter, open_inputs_nil. tauto.
Qed.

(** A finite set in which everything has an input contains a cycle. *)
Lemma inputs_within_cycle (R : relation K) `{!Transitive R} (s : gset K) :
  s ≢ ∅ → (∀ v, v ∈ s → ∃ u, u ∈ s ∧ R u v) → ∃ v, R v v.
Proof.
  remember (size s) as n eqn:En. revert s En. induction (lt_wf n) as [n _ IH]. intros s En Hne Hin.
  destruct (set_choose s Hne) as [x Hx]. destruct (Hin x Hx) as (w & Hw & Hwx).
  destruct (decide (w = x)) as [->|Hwne]; [eauto|].
  apply (IH (size (s ∖ {[x]}))) with (s ∖ {[x]}); [|done| |].
  - subst n. apply subset_size. split; [set_solver|]. intros Hsub. specialize (Hsub x Hx). set_solver.
  - set_solver.
  - intros v Hv. destruct (Hin v ltac:(set_solver)) as (u & Hu & Huv). destruct (decide (u = x)) as [->|Hux].
    + exists w. split; [set_solver|by trans x].
    + exists u. split; [set_solver|done].
Qed.

Lemma inputs_first_before edges order u v before after :
  inputs_first edges order → tc (flows edges) u v → order = before ++ v :: after → u ∈ before.
Proof.
  intros Hord Huv. revert before after. induction Huv as [u v Huv|u x v Hux Hxv IH]; intros before after E.
  - by eapply Hord.
  - destruct (list_elem_of_split _ _ (IH _ _ E)) as (b & a & ->). rewrite <-app_assoc in E. cbn in E.
    apply elem_of_app. left. by eapply Hord.
Qed.

Lemma tc_target edges (P : K → Prop) : (∀ e, e ∈ edges → P e.2) → ∀ u v, tc (flows edges) u v → P v.
Proof. intros Hends u v Huv. induction Huv as [u v Huv|]; [by apply (Hends (u, v))|done]. Qed.

Lemma inputs_first_acyclic vertices edges order :
  (∀ e, e ∈ edges → e.2 ∈ vertices) → NoDup order → order ≡ₚ vertices → inputs_first edges order → acyclic edges.
Proof.
  intros Hends Hnd Hperm Hord v Hv. pose proof (tc_target edges (.∈ vertices) Hends v v Hv) as Hin. cbn in Hin.
  rewrite <-Hperm in Hin. apply list_elem_of_split in Hin as (before & after & ->).
  pose proof (inputs_first_before _ _ _ _ _ _ Hord Hv eq_refl). rewrite NoDup_app in Hnd. set_solver.
Qed.

(** The order is complete exactly if there is no cycle; the code compares the lengths. *)
Lemma topological_order_spec push outgoing vertices edges :
  pushes push → NoDup vertices → (∀ e, e ∈ edges → e.1 ∈ vertices ∧ e.2 ∈ vertices) →
  (∀ v, outgoing v ≡ₚ successors edges v) →
  let order := topological_order push outgoing vertices edges in
  (length order = length vertices ↔ acyclic edges) ∧
  (length order = length vertices → order ≡ₚ vertices ∧ inputs_first edges order).
Proof.
  intros Hp Hnd Hends Hout order.
  destruct (kahn_ordering push vertices edges outgoing Hp Hends Hout (length vertices) _ _ [] (ordering_start push vertices edges Hp Hnd))
    as [final Ho]; [cbn; lia|]. fold (topological_order push outgoing vertices edges) in Ho. fold order in Ho.
  destruct Ho as [Hnd' Hsub Hord _ Hready]. rewrite app_nil_r in *.
  assert (Hperm : length order = length vertices → order ≡ₚ vertices).
  { intros Hlen. apply submseteq_length_Permutation; [|lia]. by apply NoDup_submseteq. }
  split; [split|by auto].
  - intros Hlen. apply (inputs_first_acyclic vertices edges order); auto. intros e He. by apply Hends.
  - intros Hacyclic. destruct (decide (list_to_set vertices ∖ list_to_set order ≡ (∅ : gset K))) as [He|Hne].
    + apply Permutation_length, NoDup_Permutation; [done..|]. intros x. split; [apply Hsub|]. intros Hx.
      destruct (decide (x ∈ order)) as [|Hn]; [done|]. exfalso. apply (not_elem_of_empty (C := gset K) x). rewrite <-He.
      apply elem_of_difference. by rewrite !elem_of_list_to_set.
    + exfalso. destruct (inputs_within_cycle (tc (flows edges)) (list_to_set vertices ∖ list_to_set order) Hne) as [v Hv];
        [|by eapply Hacyclic].
      intros v [Hv Hvo]%elem_of_difference. rewrite elem_of_list_to_set in Hv, Hvo.
      assert (0 < open_inputs edges order v) as (u & Hu & Huo)%open_inputs_pos by (specialize (Hready v Hv); lia || (destruct (open_inputs edges order v); [tauto|lia])).
      exists u. split; [|by apply tc_once]. apply elem_of_difference. rewrite !elem_of_list_to_set. split; [|done].
      by apply (Hends (u, v)).
Qed.
End kahn.

(** ** Connected components *)

Section components.
Context {K : Type} `{Countable K}.
Context (keys : list K) (adjacency : K → list K).
Context (keys_nodup : NoDup keys) (adjacency_keys : ∀ v u, u ∈ adjacency v → u ∈ keys)
  (adjacency_sym : ∀ v u, u ∈ adjacency v → v ∈ adjacency u).

Definition adjacent (v u : K) : Prop := u ∈ adjacency v.

#[local] Instance adjacent_sym : Symmetric adjacent.
Proof. intros v u. apply adjacency_sym. Qed.

(** The neighbours of the vertices that were not expanded yet. *)
Definition unexpanded (seen : gset K) : nat := neighbours (filter (λ v, v ∉ seen) keys) adjacency.

Lemma unexpanded_expand seen v :
  v ∈ keys → v ∉ seen → unexpanded ({[v]} ∪ seen) + length (adjacency v) = unexpanded seen.
Proof using keys_nodup.
  unfold unexpanded, neighbours. intros Hv Hs. clear adjacency_keys adjacency_sym. induction keys as [|k ks IH]; [by apply not_elem_of_nil in Hv|].
  apply NoDup_cons in keys_nodup as [Hk Hnd]. rewrite !filter_cons. destruct (decide (v = k)) as [->|Hne].
  - rewrite decide_False, decide_True by set_solver. cbn. rewrite Nat.add_comm. f_equal. f_equal. f_equal.
    apply Prelude.filter_ext_in. intros x Hx. assert (x ≠ k) by (by intros ->). set_solver.
  - apply elem_of_cons in Hv as [?|Hv]; [done|]. specialize (IH Hnd Hv).
    destruct (decide (k ∈ seen)) as [Hks|Hks].
    + by rewrite !decide_False by set_solver.
    + rewrite !decide_True by set_solver. cbn in *. lia.
Qed.

Lemma search_spec fuel : ∀ stack seen component,
  (∀ v, v ∈ stack → v ∈ keys) → length stack + unexpanded seen <= fuel →
  ∃ new, search adjacency fuel stack seen component = (seen ∪ list_to_set new, component ++ new) ∧
    NoDup new ∧ (∀ v, v ∈ new → v ∉ seen) ∧
    (∀ v, v ∈ new → ∃ s, s ∈ stack ∧ rtc adjacent s v) ∧
    (∀ v, v ∈ stack → v ∈ seen ∨ v ∈ new) ∧ (∀ v u, v ∈ new → u ∈ adjacency v → u ∈ seen ∨ u ∈ new).
Proof using adjacency_keys adjacency_sym keys_nodup.
  induction fuel as [|fuel IH]; intros stack seen component Hst Hf.
  { destruct stack; [|cbn in Hf; lia]. exists []. cbn. rewrite app_nil_r, union_empty_r_L.
    split_and!; [done|constructor|..]; intros; by match goal with Hn : _ ∈ [] |- _ => apply not_elem_of_nil in Hn end. }
  destruct stack as [|v stack]; cbn [search].
  { exists []. cbn. rewrite app_nil_r, union_empty_r_L.
    split_and!; [done|constructor|..]; intros; by match goal with Hn : _ ∈ [] |- _ => apply not_elem_of_nil in Hn end. }
  case_bool_decide as Hv.
  - destruct (IH stack seen component) as (new & E & Hnd & Hns & Hreach & Hstack & Hadj); [set_solver|cbn in Hf; lia|].
    exists new. split_and!; [done..| | |done].
    + intros u (s & ? & ?)%Hreach. exists s. split; [by right|done].
    + intros u [->|Hu]%elem_of_cons; [by left|auto].
  - assert (Hk : v ∈ keys) by (apply Hst; by left).
    set (pushed := reverse (filter (λ u, u ∉ {[v]} ∪ seen) (adjacency v))).
    assert (Hpushed : ∀ u, u ∈ pushed ↔ u ∉ {[v]} ∪ seen ∧ u ∈ adjacency v).
    { intros u. subst pushed. by rewrite elem_of_reverse, list_elem_of_filter. }
    assert (Hlen : length pushed <= length (adjacency v)) by (subst pushed; rewrite length_reverse; apply length_filter).
    destruct (IH (pushed ++ stack) ({[v]} ∪ seen) (component ++ [v])) as (new & E & Hnd & Hns & Hreach & Hstack & Hadj).
    + intros u [[_ Hu]%Hpushed|Hu]%elem_of_app; [by eapply adjacency_keys|apply Hst; by right].
    + rewrite length_app. pose proof (unexpanded_expand seen v Hk Hv). cbn in Hf. lia.
    + exists (v :: new). rewrite E. split_and!.
      * f_equal; [set_solver|by rewrite <-app_assoc].
      * constructor; [|done]. intros Hin%Hns. set_solver.
      * intros u [->|Hu%Hns]%elem_of_cons; set_solver.
      * intros u [->|Hu]%elem_of_cons; [exists v; split; [by left|done]|].
        destruct (Hreach u Hu) as (s & [[_ Hs]%Hpushed|Hs]%elem_of_app & Hsu); [|exists s; split; [by right|done]].
        exists v. split; [by left|]. by eapply rtc_l.
      * intros u [->|Hu]%elem_of_cons; [right; by left|].
        destruct (Hstack u) as [[->%elem_of_singleton|?]%elem_of_union|?]; [set_solver|right; by left|by left|right; by right].
      * intros w u [->|Hw]%elem_of_cons Hu.
        -- destruct (decide (u ∈ {[v]} ∪ seen)) as [[->%elem_of_singleton|?]%elem_of_union|Hn]; [right; by left|by left|].
           destruct (Hstack u) as [[->%elem_of_singleton|?]%elem_of_union|?]; [|right; by left|by left|right; by right].
           apply elem_of_app. left. by apply Hpushed.
        -- destruct (Hadj w u Hw Hu) as [[->%elem_of_singleton|?]%elem_of_union|?]; [right; by left|by left|right; by right].
Qed.

(** The loop over the vertices: every group is one class, and what was seen is in a group. *)
Record grouping (done : list K) (seen : gset K) (groups : list (list K)) : Prop := {
  grouping_seen v : v ∈ seen ↔ v ∈ mjoin groups;
  grouping_done v : v ∈ done → v ∈ seen;
  grouping_nodup : NoDup (mjoin groups);
  grouping_keys v : v ∈ seen → v ∈ keys;
  grouping_class g v : g ∈ groups → v ∈ g → ∀ u, u ∈ g ↔ rtc adjacent v u;
  grouping_nonempty g : g ∈ groups → g ≠ []
}.

Lemma grouping_closed done seen groups v u : grouping done seen groups → v ∈ seen → rtc adjacent v u → u ∈ seen.
Proof using.
  intros Hg Hv Hvu. apply (grouping_seen _ _ _ Hg) in Hv. apply list_elem_of_join in Hv as (g & Hv & Hin).
  apply (grouping_seen _ _ _ Hg), list_elem_of_join. exists g. split; [|done]. by eapply (grouping_class _ _ _ Hg).
Qed.

Lemma rtc_adjacent_keys v u : v ∈ keys → rtc adjacent v u → u ∈ keys.
Proof using adjacency_keys. intros Hv Hvu. induction Hvu as [|v w u Hvw _ IH]; [done|]. apply IH. by eapply adjacency_keys. Qed.

Lemma grouping_next don seen groups v :
  v ∈ keys → grouping don seen groups →
  let acc := if bool_decide (v ∈ seen) then (seen, groups)
             else let '(seen, component) := search adjacency (S (neighbours keys adjacency)) [v] seen [] in (seen, groups ++ [component]) in
  grouping (don ++ [v]) acc.1 acc.2.
Proof using adjacency_keys adjacency_sym keys_nodup.
  intros Hv Hg. case_bool_decide as Hs; cbn zeta.
  { destruct Hg as [G1 G2 G3 G4 G5 G6]. split; try done. intros u [?| ->%list_elem_of_singleton]%elem_of_app; auto. }
  destruct (search_spec (S (neighbours keys adjacency)) [v] seen []) as (new & -> & Hnd & Hns & Hreach & Hstack & Hadj).
  { by intros u ->%list_elem_of_singleton. }
  { cbn. apply le_n_S. unfold unexpanded, neighbours. clear. induction keys as [|k ks IH]; [done|].
    rewrite filter_cons. case_decide; cbn; lia. }
  cbn [fst snd app]. assert (Hvn : v ∈ new) by (destruct (Hstack v); [by left|done..]).
  assert (Hnew : ∀ u, u ∈ new ↔ rtc adjacent v u).
  { intros u. split; [by intros (s & ->%list_elem_of_singleton & ?)%Hreach|]. intros Hvu.
    assert (Hcl : u ∈ seen ∨ u ∈ new).
    { clear Hreach Hstack. remember v as w eqn:Ew in Hvu, Hvn |- *. clear Ew. assert (Hw : w ∈ seen ∨ w ∈ new) by auto. clear Hvn.
      induction Hvu as [w|w x u Hwx _ IH]; [done|]. apply IH. destruct Hw as [Hw|Hw].
      - left. eapply (grouping_closed don); [done|exact Hw|]. by apply rtc_once.
      - by eapply Hadj. }
    destruct Hcl as [Hu|Hu]; [|done]. exfalso. apply Hs. eapply (grouping_closed don); [done|exact Hu|]. by symmetry. }
  destruct Hg as [G1 G2 G3 G4 G5 G6]. split.
  - intros u. rewrite join_app. cbn. rewrite app_nil_r, elem_of_app, <-G1. set_solver.
  - intros u [?%G2| ->%list_elem_of_singleton]%elem_of_app; set_solver.
  - rewrite join_app. cbn. rewrite app_nil_r. apply NoDup_app. split_and!; [done| |done].
    intros u Hu%G1 Hn. by apply (Hns u).
  - intros u [?|Hu%elem_of_list_to_set]%elem_of_union; [by apply G4|]. eapply rtc_adjacent_keys; [exact Hv|]. by apply Hnew.
  - intros g w [Hgr| ->%list_elem_of_singleton]%elem_of_app Hw u; [by apply G5|]. apply Hnew in Hw. rewrite Hnew. split.
    + intros Hu. trans v; [by symmetry|done].
    + intros Hu. by trans w.
  - intros g [Hgr| ->%list_elem_of_singleton]%elem_of_app; [by apply G6|]. intros ->. by apply not_elem_of_nil in Hvn.
Qed.

Lemma connected_components_spec :
  let groups := connected_components keys adjacency in
  mjoin groups ≡ₚ keys ∧ (∀ g, g ∈ groups → g ≠ []) ∧
  (∀ g v, g ∈ groups → v ∈ g → ∀ u, u ∈ g ↔ rtc adjacent v u).
Proof using adjacency_keys adjacency_sym keys_nodup.
  unfold connected_components. set (step := λ (acc : gset K * list (list K)) v, _).
  assert (Hall : ∀ rest don seen groups, (∀ v, v ∈ rest → v ∈ keys) → grouping don seen groups →
    grouping (don ++ rest) (foldl step (seen, groups) rest).1 (foldl step (seen, groups) rest).2).
  { induction rest as [|v rest IH]; intros don seen groups Hrest Hg; [by rewrite app_nil_r|]. cbn [foldl].
    pose proof (grouping_next don seen groups v ltac:(set_solver) Hg) as Hn. cbn zeta in Hn.
    change (if bool_decide (v ∈ seen) then _ else _) with (step (seen, groups) v) in Hn.
    destruct (step (seen, groups) v) as [seen' groups']. cbn in Hn. rewrite (cons_middle v don rest), app_assoc.
    apply IH; [set_solver|done]. }
  destruct (Hall keys [] ∅ []) as [G1 G2 G3 G4 G5 G6]; [done| |].
  { split; cbn; try (by intros; match goal with Hn : _ ∈ [] |- _ => apply not_elem_of_nil in Hn end); [set_solver|constructor|set_solver]. }
  split_and!; [|done..]. apply NoDup_Permutation; [done..|]. intros v. rewrite <-G1. cbn in G2. naive_solver.
Qed.
End components.

Section undirected.
Context {K : Type} `{Countable K}.
Implicit Types (edges : list (K * K)).

Lemma elem_of_undirected edges v u : u ∈ undirected edges v ↔ flows edges v u ∨ flows edges u v.
Proof.
  unfold undirected, flows. rewrite list_elem_of_bind. split.
  - intros ([a b] & Hu & Hin). cbn in Hu. apply elem_of_app in Hu as [Hu|Hu]; case_bool_decide; subst;
      (apply list_elem_of_singleton in Hu as -> || by apply not_elem_of_nil in Hu); auto.
  - intros [Hin|Hin]; (eexists; split; [|exact Hin]); cbn; apply elem_of_app; [left|right]; rewrite bool_decide_eq_true_2 by done; by left.
Qed.

Lemma linked_undirected edges v u : rtc (adjacent (undirected edges)) v u ↔ linked edges v u.
Proof.
  assert (Hstep : ∀ x y, adjacent (undirected edges) x y ↔ sc (flows edges) x y) by (intros x y; apply elem_of_undirected).
  unfold linked, rtsc. split; apply rtc_congruence with (f := id); intros x y; apply Hstep.
Qed.

Lemma undirected_components (keys : list K) edges :
  NoDup keys → (∀ e, e ∈ edges → e.1 ∈ keys ∧ e.2 ∈ keys) →
  let groups := connected_components keys (undirected edges) in
  mjoin groups ≡ₚ keys ∧ (∀ g, g ∈ groups → g ≠ []) ∧
  (∀ g v, g ∈ groups → v ∈ g → ∀ u, u ∈ g ↔ linked edges v u).
Proof.
  intros Hnd Hends. destruct (connected_components_spec keys (undirected edges)) as (H1 & H2 & H3); [done| | |].
  - intros v u [Hin|Hin]%elem_of_undirected; by apply Hends in Hin as [? ?].
  - intros v u. rewrite !elem_of_undirected. tauto.
  - split_and!; [done..|]. intros g v Hg Hv u. rewrite (H3 g v) by done. apply linked_undirected.
Qed.
End undirected.
