(* ===== verification/Plans.v ===== *)
(** * Plans: the data of the logical and the physical graph

    Models [src/ray/klein/runtime/resources.py], [api/runtime_info.py],
    [runtime/operator/operator_spec.py], [runtime/partitioning/partitioner_spec.py],
    [_internal/partitioning.py] and the specifications of [runtime/graph]
    ([vertex_id.py], [vertex_spec.py], [edge_spec.py]).

    User functions, the constructor arguments of operators and the arguments of
    partitioners are opaque values with equality ([Recipes]); a resource amount is a
    finite number, kept as the rational it denotes. *)
From Stdlib Require Import QArith.QArith QArith.Qcanon.
From S2P Require Import Prelude KeyGroups Rows InputBatching Partitioning.
Open Scope Z_scope.

(** ** Resources and batching settings *)

Inductive Concurrency := Scalar (n : Z) | Range (minimum maximum : Z).

#[export] Instance Concurrency_eq_dec : EqDecision Concurrency.
Proof. solve_decision. Defined.

Record Resources := mkResources { num_cpus : option Qc; num_gpus : option Qc; concurrency : option Concurrency }.

#[export] Instance Resources_eq_dec : EqDecision Resources.
Proof. solve_decision. Defined.

Definition validate_resource (value : option Qc) : outcome unit :=
  match value with None => Ok () | Some q => if decide (q < 0)%Qc then Err ValueError else Ok () end.

Definition validate_concurrency (c : option Concurrency) : outcome unit :=
  match c with
  | None => Ok ()
  | Some (Range lo hi) => if (lo <=? 0) || (hi <=? 0) then Err ValueError else if hi <? lo then Err ValueError else Ok ()
  | Some (Scalar n) => if n <=? 0 then Err ValueError else Ok ()
  end.

(** [Resources(num_cpus, num_gpus, concurrency)], of arguments of the declared types. *)
Definition Resources_init (cpus gpus : option Qc) (c : option Concurrency) : outcome Resources :=
  _ ← validate_resource cpus; _ ← validate_resource gpus; _ ← validate_concurrency c; Ok (mkResources cpus gpus c).

Definition cpus (r : Resources) : Qc := default 1%Qc (num_cpus r).
Definition gpus (r : Resources) : Qc := default 0%Qc (num_gpus r).
Definition effective_concurrency (r : Resources) : Concurrency := default (Scalar 1) (concurrency r).
Definition scalar_concurrency (r : Resources) : Z :=
  match concurrency r with Some (Range lo _) => lo | Some (Scalar n) => n | None => 1 end.

(** [dataclasses.replace(resources, concurrency=parallelism)] builds, and checks, again. *)
Definition with_concurrency (n : Z) (r : Resources) : outcome Resources := Resources_init (num_cpus r) (num_gpus r) (Some (Scalar n)).

Record RuntimeInfo := mkRuntimeInfo {
  batch_size : option Z;
  batch_format : option string;
  batch_timeout : option Qc;
  async_buffer_size : option Z
}.

#[export] Instance RuntimeInfo_eq_dec : EqDecision RuntimeInfo.
Proof. solve_decision. Defined.

Definition batch_enabled (i : RuntimeInfo) : bool := match batch_size i with Some n => 0 <? n | None => false end.
Definition async_enabled (i : RuntimeInfo) : bool := match async_buffer_size i with Some n => 0 <? n | None => false end.

Definition default_runtime_info : RuntimeInfo := mkRuntimeInfo None None None None.

(** ** Partitioner recipes *)

(** The class of a partitioner; of a class outside the package the name and whether it
    derives from [ForwardPartitioner]. *)
Inductive PartitionerClass :=
  | CForward | CRescale | CAdaptive | CRoundRobin | CBroadcast | CKey | CSimple
  | CCustom (name : string) (forward : bool).

#[export] Instance PartitionerClass_eq_dec : EqDecision PartitionerClass.
Proof. solve_decision. Defined.

(** What the planner knows of user code: functions, constructor arguments of operators
    and of partitioners. *)
Class Recipes (F P A : Type) := {
  function_eq_dec :: EqDecision F;
  parameters_eq_dec :: EqDecision P;
  arguments_eq_dec :: EqDecision A;
  runtime_info_of : F → RuntimeInfo;
  no_parameters : P;
  no_arguments : A
}.

(** [PartitionerSpec]; its name is for display. *)
Record PartitionerSpec (A : Type) := mkPartitionerSpec { ps_class : PartitionerClass; ps_args : A; ps_topology : ChannelPattern }.
Arguments mkPartitionerSpec {A}.
Arguments ps_class {A}.
Arguments ps_args {A}.
Arguments ps_topology {A}.

#[export] Instance PartitionerSpec_eq_dec {A} `{EqDecision A} : EqDecision (PartitionerSpec A).
Proof. solve_decision. Defined.

(** [is_type(ForwardPartitioner)]. *)
Definition is_forward {A} (p : PartitionerSpec A) : bool :=
  match ps_class p with CForward => true | CCustom _ forward => forward | _ => false end.

(** ** Operators *)

Inductive OperatorType := SOURCE | ONE_INPUT | TWO_INPUT | SINK | COLLECT | REDUCE.

#[export] Instance OperatorType_eq_dec : EqDecision OperatorType.
Proof. solve_decision. Defined.

(** The class of an operator: the two of chains, or another one, by its name. *)
Inductive OperatorClass := ChainedSourceOperator | ChainedOneInputOperator | OtherOperator (name : string).

#[export] Instance OperatorClass_eq_dec : EqDecision OperatorClass.
Proof. solve_decision. Defined.

Section operators.
Context {F P A : Type} `{!Recipes F P A}.

Inductive OperatorSpec := mkOperator {
  operator_class : OperatorClass;
  logical_function : option F;
  op_id : Z;
  op_name : string;
  operator_type : OperatorType;
  parameters : P;
  children : list OperatorSpec;
  owns_state : bool
}.

(** Equality of operators, children included. *)
Fixpoint operator_eqb (o p : OperatorSpec) {struct o} : bool :=
  bool_decide (operator_class o = operator_class p) && bool_decide (logical_function o = logical_function p)
  && bool_decide (op_id o = op_id p) && bool_decide (op_name o = op_name p)
  && bool_decide (operator_type o = operator_type p) && bool_decide (parameters o = parameters p)
  && bool_decide (owns_state o = owns_state p)
  && (fix all2 (l k : list OperatorSpec) {struct l} : bool :=
        match l, k with [], [] => true | x :: l, y :: k => operator_eqb x y && all2 l k | _, _ => false end) (children o) (children p).

Definition chained (o : OperatorSpec) : bool := negb (bool_decide (children o = [])).

Definition source (o : OperatorSpec) : bool := bool_decide (operator_type o = SOURCE).

Fixpoint stateful (o : OperatorSpec) : bool :=
  owns_state o || (fix any (l : list OperatorSpec) : bool := match l with [] => false | c :: l => stateful c || any l end) (children o).

Definition runtime_info (o : OperatorSpec) : RuntimeInfo :=
  match logical_function o with None => default_runtime_info | Some f => runtime_info_of f end.

(** [OperatorSpec.chain]. *)
Definition chain (root : OperatorSpec) (succeeding : list OperatorSpec) (name : string) : outcome OperatorSpec :=
  chained_class ← match operator_type root with
                  | SOURCE => Ok ChainedSourceOperator
                  | ONE_INPUT => Ok ChainedOneInputOperator
                  | _ => Err ValueError
                  end;
  Ok (mkOperator chained_class (logical_function root) (op_id root) name (operator_type root) no_parameters
        (root :: succeeding) (stateful root || existsb stateful succeeding)).

(** Induction over an operator and its children. *)
Lemma OperatorSpec_nested_ind (Q : OperatorSpec → Prop) :
  (∀ c f i n t p l s, Forall Q l → Q (mkOperator c f i n t p l s)) → ∀ o, Q o.
Proof.
  intros Hall. fix IH 1. intros [c f i n t p l s]. apply Hall. induction l as [|x l IHl]; constructor; [apply IH|exact IHl].
Qed.

Lemma operator_eqb_spec o p : operator_eqb o p = true ↔ o = p.
Proof.
  revert p. induction o as [c f i n t q l s IH] using OperatorSpec_nested_ind. intros [c' f' i' n' t' q' l' s'].
  cbn. rewrite !andb_true_iff, !bool_decide_eq_true.
  match goal with |- context [?all l l'] => assert (Hl : all l l' = true ↔ l = l') end.
  { clear -IH. revert l'. induction IH as [|x l Hx _ IHl]; intros [|y l']; try done. rewrite andb_true_iff, Hx, IHl. naive_solver. }
  rewrite Hl. split; [by intros [[[[[[[-> ->] ->] ->] ->] ->] ->] ->]|]. intros [= -> -> -> -> -> -> -> ->]. by split_and!.
Qed.

#[export] Instance OperatorSpec_eq_dec : EqDecision OperatorSpec.
Proof.
  intros o p. destruct (operator_eqb o p) eqn:E; [left; by apply operator_eqb_spec|right].
  intros E'%operator_eqb_spec. congruence.
Defined.
End operators.
Arguments OperatorSpec : clear implicits.

(** ** Vertices and edges of the logical graph *)

Inductive NodeType := NSource | NSink | NTransform | NTake | NUnion.

#[export] Instance NodeType_eq_dec : EqDecision NodeType.
Proof. solve_decision. Defined.

Record VertexId := mkLogicalId { vx_job : string; vx_index : Z }.

#[export] Instance VertexId_eq_dec : EqDecision VertexId.
Proof. solve_decision. Defined.
#[export] Instance VertexId_countable : Countable VertexId :=
  inj_countable' (λ v, (vx_job v, vx_index v)) (λ p, mkLogicalId p.1 p.2) ltac:(by intros []).

Record VertexSpec (F P : Type) := mkVertexSpec {
  vs_id : VertexId;
  vs_name : string;
  vs_operator : OperatorSpec F P;
  vs_node_type : NodeType;
  vs_resources : Resources;
  vs_ray_serve_enabled : bool
}.
Arguments mkVertexSpec {F P}.
Arguments vs_id {F P}.
Arguments vs_name {F P}.
Arguments vs_operator {F P}.
Arguments vs_node_type {F P}.
Arguments vs_resources {F P}.
Arguments vs_ray_serve_enabled {F P}.

Record EdgeSpec (A : Type) := mkEdgeSpec { es_source : VertexId; es_target : VertexId; es_partitioner : PartitionerSpec A }.
Arguments mkEdgeSpec {A}.
Arguments es_source {A}.
Arguments es_target {A}.
Arguments es_partitioner {A}.

#[export] Instance EdgeSpec_eq_dec {A} `{EqDecision A} : EqDecision (EdgeSpec A).
Proof. solve_decision. Defined.

Definition es_pair {A} (e : EdgeSpec A) : VertexId * VertexId := (es_source e, es_target e).

Section vertices.
Context {F P A : Type} `{!Recipes F P A}.

#[export] Instance VertexSpec_eq_dec : EqDecision (VertexSpec F P).
Proof. solve_decision. Defined.

(** [VertexSpec.concurrency], [.batch_size], [.async_buffer_size] and [.is_source]. *)
Definition vs_concurrency (v : VertexSpec F P) : Z := scalar_concurrency (vs_resources v).
Definition vs_batch_size (v : VertexSpec F P) : option Z := batch_size (runtime_info (vs_operator v)).
Definition vs_async_buffer_size (v : VertexSpec F P) : option Z := async_buffer_size (runtime_info (vs_operator v)).
Definition is_source (v : VertexSpec F P) : bool := source (vs_operator v).

(** [replace(vertex, resources=...)] and [replace(vertex, operator=..., name=...)]. *)
Definition with_resources (r : Resources) (v : VertexSpec F P) : VertexSpec F P :=
  mkVertexSpec (vs_id v) (vs_name v) (vs_operator v) (vs_node_type v) r (vs_ray_serve_enabled v).
Definition with_operator (o : OperatorSpec F P) (name : string) (v : VertexSpec F P) : VertexSpec F P :=
  mkVertexSpec (vs_id v) name o (vs_node_type v) (vs_resources v) (vs_ray_serve_enabled v).

(** The recipes [ForwardPartitioner().to_spec()] and its like, and
    [default_partitioner(source, target).to_spec()]. *)
Definition forward_spec : PartitionerSpec A := mkPartitionerSpec CForward no_arguments FORWARD.
Definition rescale_spec : PartitionerSpec A := mkPartitionerSpec CRescale no_arguments RESCALE.
Definition adaptive_spec : PartitionerSpec A := mkPartitionerSpec CAdaptive no_arguments ALL_TO_ALL.

Definition default_partitioner (source target : Concurrency) : PartitionerSpec A :=
  match source, target with
  | Scalar s, Scalar t =>
      if s =? t then forward_spec
      else if (s mod t =? 0) || (t mod s =? 0) then rescale_spec
      else adaptive_spec
  | _, _ => adaptive_spec
  end.
End vertices.
