(* ===== verification/LogicalGraph.v ===== *)
(** * The logical graph

    Models [src/ray/klein/runtime/graph/logical_graph.py] and
    [logical_graph_builder.py]: the validation of a graph, its canonical order, the
    adjacency views, the builder's operations, the capture of a pipeline of streams
    ([api/stream.py]) and the change of one operator's parallelism.

    The theorems say exactly which inputs are accepted, and that the graph does not
    depend on the order in which its vertices and edges were added. *)
From Stdlib Require Import QArith.Qcanon.
From S2P Require Import Prelude Dicts KeyGroups Rows InputBatching Partitioning Graphs Plans.
Open Scope Z_scope.

(** The configuration options the graph and its optimizer read. *)
Record Configuration := mkConfiguration { ignore_exceptions : bool; operator_chaining : bool }.

(** [heappush] and [heappop]: a heap is the sorted list of what it pops.  Vertices of one
    job with the same index are equal, so that the index decides. *)
Definition index_le (v u : VertexId) : Prop := vx_index v <= vx_index u.
#[export] Instance index_le_dec v u : Decision (index_le v u).
Proof. unfold index_le. apply _. Defined.

Fixpoint heappush (v : VertexId) (heap : list VertexId) : list VertexId :=
  match heap with
  | [] => [v]
  | u :: heap => if decide (index_le v u) then v :: u :: heap else u :: heappush v heap
  end.

(** ** [str.strip] and [int] of a text, on ASCII *)

Definition is_space (c : Ascii.ascii) : bool :=
  let n := Ascii.nat_of_ascii c in (n =? 32)%nat || ((9 <=? n) && (n <=? 13))%nat || ((28 <=? n) && (n <=? 31))%nat.

Fixpoint lstrip (s : list Ascii.ascii) : list Ascii.ascii :=
  match s with c :: s' => if is_space c then lstrip s' else s | [] => [] end.
Definition strip (s : list Ascii.ascii) : list Ascii.ascii := reverse (lstrip (reverse (lstrip s))).

Definition digit (c : Ascii.ascii) : option Z :=
  let n := Ascii.nat_of_ascii c in if ((48 <=? n) && (n <=? 57))%nat then Some (Z.of_nat n - 48) else None.

(** Digits, with single underscores between them; [fresh] after a digit is false. *)
Fixpoint parse_digits (acc : Z) (fresh : bool) (s : list Ascii.ascii) : option Z :=
  match s with
  | [] => if fresh then None else Some acc
  | c :: s =>
      match digit c with
      | Some d => parse_digits (10 * acc + d) false s
      | None => if (Ascii.nat_of_ascii c =? 95)%nat && negb fresh then parse_digits acc true s else None
      end
  end.

Definition parse_int (s : list Ascii.ascii) : option Z :=
  match s with
  | c :: s' => if (Ascii.nat_of_ascii c =? 45)%nat then Z.opp <$> parse_digits 0 true s'
               else if (Ascii.nat_of_ascii c =? 43)%nat then parse_digits 0 true s'
               else parse_digits 0 true s
  | [] => None
  end.

Section logical.
Context {F P A : Type} `{!Recipes F P A}.

Abbreviation OperatorSpec := (OperatorSpec F P).
Abbreviation VertexSpec := (VertexSpec F P).
Abbreviation EdgeSpec := (EdgeSpec A).
Abbreviation PartitionerSpec := (PartitionerSpec A).

Record LogicalGraph := mkLogicalGraph {
  job_name : string;
  lg_config : Configuration;
  lg_vertices : list (VertexId * VertexSpec);
  lg_edges : list EdgeSpec
}.

(** ** Validation *)

Definition validate_vertices (job : string) (vertices : list (VertexId * VertexSpec)) : outcome unit :=
  foldM (λ _ e,
    if negb (bool_decide (vs_id e.2 = e.1)) then Err ValueError
    else if negb (bool_decide (vx_job e.1 = job)) then Err ValueError
    else if negb (Bool.eqb (bool_decide (vs_node_type e.2 = NSource)) (source (vs_operator e.2))) then Err ValueError
    else Ok ()) () vertices.

(** The pairs seen so far; the degrees and the adjacency are [degrees] and [successors]. *)
Definition validated_topology (vertices : list (VertexId * VertexSpec)) (edges : list EdgeSpec) : outcome (list (VertexId * VertexId)) :=
  foldM (λ pairs e,
    if negb (bool_decide (es_source e ∈ vertices.*1) && bool_decide (es_target e ∈ vertices.*1)) then Err ValueError
    else if bool_decide (es_pair e ∈ pairs) then Err ValueError
    else Ok (pairs ++ [es_pair e])) [] edges.

(** [_topological_order]. *)
Definition sorted_targets (pairs : list (VertexId * VertexId)) (v : VertexId) : list VertexId :=
  merge_sort index_le (successors pairs v).

Definition topological_order (vertices : list VertexId) (pairs : list (VertexId * VertexId)) : outcome (list VertexId) :=
  let ordered := Graphs.topological_order heappush (sorted_targets pairs) vertices pairs in
  if (length ordered =? length vertices)%nat then Ok ordered else Err ValueError.

(** [_validate]. *)
Definition validate (job : string) (vertices : list (VertexId * VertexSpec)) (edges : list EdgeSpec) : outcome (list VertexId) :=
  _ ← validate_vertices job vertices;
  pairs ← validated_topology vertices edges;
  let roots : gset VertexId := list_to_set (filter (λ v, in_degree pairs v = 0%nat) vertices.*1) in
  let declared_sources : gset VertexId := list_to_set (filter (λ e, is_source e.2 = true) vertices).*1 in
  if negb (bool_decide (vertices = [])) && negb (bool_decide (roots = declared_sources)) then Err ValueError
  else topological_order vertices.*1 pairs.

(** The position of a vertex in the order, and the order of edges. *)
Definition rank (order : list VertexId) (v : VertexId) : nat := default (length order) (fst <$> list_find (λ u, u = v) order).

Definition edge_le (order : list VertexId) (e d : EdgeSpec) : Prop :=
  (rank order (es_source e) < rank order (es_source d))%nat ∨
  (rank order (es_source e) = rank order (es_source d) ∧ (rank order (es_target e) <= rank order (es_target d))%nat).
#[export] Instance edge_le_dec order e d : Decision (edge_le order e d).
Proof. unfold edge_le. apply _. Defined.

(** [LogicalGraph(job_name, config, vertices, edges)]; [vertices] is a dictionary. *)
Definition LogicalGraph_init (job : string) (config : Configuration) (vertices : list (VertexId * VertexSpec)) (edges : list EdgeSpec)
    : outcome LogicalGraph :=
  if bool_decide (job = "") then Err ValueError
  else
    order ← validate job vertices edges;
    ordered ← mapM_outcome (λ v, spec ← of_option KeyError (dict_get v vertices); Ok (v, spec)) order;
    Ok (mkLogicalGraph job config ordered (merge_sort (edge_le order) edges)).

(** ** Views *)

Definition get (g : LogicalGraph) (v : VertexId) : outcome VertexSpec := of_option KeyError (dict_get v (lg_vertices g)).

Definition out_edges (g : LogicalGraph) (v : VertexId) : outcome (list EdgeSpec) :=
  if bool_decide (v ∈ (lg_vertices g).*1) then Ok (filter (λ e, es_source e = v) (lg_edges g)) else Err KeyError.
Definition in_edges (g : LogicalGraph) (v : VertexId) : outcome (list EdgeSpec) :=
  if bool_decide (v ∈ (lg_vertices g).*1) then Ok (filter (λ e, es_target e = v) (lg_edges g)) else Err KeyError.

Definition graph_downstream (g : LogicalGraph) (v : VertexId) : outcome (list VertexId) := l ← out_edges g v; Ok (es_target <$> (l : list EdgeSpec)).
Definition graph_upstream (g : LogicalGraph) (v : VertexId) : outcome (list VertexId) := l ← in_edges g v; Ok (es_source <$> (l : list EdgeSpec)).

Definition graph_edge (g : LogicalGraph) (source target : VertexId) : outcome (option EdgeSpec) :=
  l ← out_edges g source; Ok (head (filter (λ e, es_target e = target) (l : list EdgeSpec))).

Definition partitioner_for (g : LogicalGraph) (source target : VertexId) : outcome PartitionerSpec :=
  e ← graph_edge g source target; e ← of_option KeyError e; Ok (es_partitioner e).

Definition sources (g : LogicalGraph) : list VertexId := (filter (λ e, is_source e.2 = true) (lg_vertices g)).*1.
Definition sinks (g : LogicalGraph) : list VertexId :=
  filter (λ v, filter (λ e, es_source e = v) (lg_edges g) = []) (lg_vertices g).*1.

(** ** The builder *)

Record LogicalGraphBuilder := mkBuilder {
  b_job : string;
  b_config : Configuration;
  b_vertices : list (VertexId * VertexSpec);
  b_edges : list EdgeSpec
}.

Definition LogicalGraphBuilder_init (job : string) (config : Configuration) : outcome LogicalGraphBuilder :=
  if bool_decide (job = "") then Err ValueError else Ok (mkBuilder job config [] []).

Definition set_vertex (spec : VertexSpec) (b : LogicalGraphBuilder) : LogicalGraphBuilder :=
  mkBuilder (b_job b) (b_config b) (dict_set (vs_id spec) spec (b_vertices b)) (b_edges b).

Definition add_vertex (spec : VertexSpec) (b : LogicalGraphBuilder) : outcome LogicalGraphBuilder :=
  match dict_get (vs_id spec) (b_vertices b) with
  | Some existing => if bool_decide (existing = spec) then Ok (set_vertex spec b) else Err ValueError
  | None => Ok (set_vertex spec b)
  end.

Definition replace_vertex (spec : VertexSpec) (b : LogicalGraphBuilder) : outcome LogicalGraphBuilder :=
  if bool_decide (vs_id spec ∈ (b_vertices b).*1) then Ok (set_vertex spec b) else Err KeyError.

Definition vertex (b : LogicalGraphBuilder) (v : VertexId) : outcome VertexSpec := of_option KeyError (dict_get v (b_vertices b)).

(** [edge]: the first edge between two vertices. *)
Definition edge (b : LogicalGraphBuilder) (source target : VertexId) : option EdgeSpec :=
  head (filter (λ e, es_pair e = (source, target)) (b_edges b)).

Definition add_edge (e : EdgeSpec) (b : LogicalGraphBuilder) : outcome LogicalGraphBuilder :=
  if negb (bool_decide (es_source e ∈ (b_vertices b).*1) && bool_decide (es_target e ∈ (b_vertices b).*1)) then Err KeyError
  else
    match edge b (es_source e) (es_target e) with
    | Some existing => if bool_decide (existing = e) then Ok b else Err ValueError
    | None => Ok (mkBuilder (b_job b) (b_config b) (b_vertices b) (b_edges b ++ [e]))
    end.

Definition remove_edge (source target : VertexId) (b : LogicalGraphBuilder) : outcome LogicalGraphBuilder :=
  match edge b source target with
  | None => Err KeyError
  | Some _ => Ok (mkBuilder (b_job b) (b_config b) (b_vertices b) (filter (λ e, es_pair e ≠ (source, target)) (b_edges b)))
  end.

Definition remove_vertex (v : VertexId) (b : LogicalGraphBuilder) : outcome LogicalGraphBuilder :=
  if bool_decide (v ∈ (b_vertices b).*1)
  then Ok (mkBuilder (b_job b) (b_config b) (dict_pop v (b_vertices b)) (filter (λ e, es_source e ≠ v ∧ es_target e ≠ v) (b_edges b)))
  else Err KeyError.

Definition downstream (b : LogicalGraphBuilder) (v : VertexId) : list VertexId := es_target <$> filter (λ e, es_source e = v) (b_edges b).
Definition upstream (b : LogicalGraphBuilder) (v : VertexId) : list VertexId := es_source <$> filter (λ e, es_target e = v) (b_edges b).

Definition build (b : LogicalGraphBuilder) : outcome LogicalGraph := LogicalGraph_init (b_job b) (b_config b) (b_vertices b) (b_edges b).

Definition to_builder (g : LogicalGraph) : outcome LogicalGraphBuilder :=
  b ← LogicalGraphBuilder_init (job_name g) (lg_config g);
  b ← foldM (λ b (e : VertexId * VertexSpec), add_vertex e.2 b) b (lg_vertices g);
  foldM (λ b e, add_edge e b) b (lg_edges g).

(** ** Capturing a pipeline *)

(** A stream of the pipeline API and the streams it reads; a stream that is read twice
    appears twice, with its id. *)
Inductive Stream := mkStream {
  st_id : Z;
  st_name : string;
  st_operator : OperatorSpec;
  st_node_type : NodeType;
  st_resources : Resources;
  st_partitioner : option PartitionerSpec;
  st_ray_serve_enabled : bool;
  input_streams : list Stream
}.

(** [visit] of [from_sinks]; [stream_name] formats ["name[id]"]. *)
Fixpoint visit (stream_name : string → Z → string) (job : string) (stream : Stream) (acc : LogicalGraphBuilder * gset Z) {struct stream}
    : outcome (LogicalGraphBuilder * gset Z) :=
  let v := mkLogicalId job (st_id stream) in
  b ← add_vertex (mkVertexSpec v (stream_name (st_name stream) (st_id stream)) (st_operator stream) (st_node_type stream)
                    (st_resources stream) (st_ray_serve_enabled stream)) acc.1;
  if bool_decide (st_id stream ∈ acc.2) then Ok (b, acc.2)
  else
    (fix visit_inputs (parents : list Stream) (acc : LogicalGraphBuilder * gset Z) {struct parents} :=
       match parents with
       | [] => Ok acc
       | parent :: parents =>
           acc ← visit stream_name job parent acc;
           let partitioner := default (default_partitioner (effective_concurrency (st_resources parent)) (effective_concurrency (st_resources stream)))
                                (st_partitioner parent) in
           b ← add_edge (mkEdgeSpec (mkLogicalId job (st_id parent)) v partitioner) acc.1;
           visit_inputs parents (b, acc.2)
       end) (input_streams stream) (b, {[st_id stream]} ∪ acc.2).

Definition from_sinks (stream_name : string → Z → string) (streams : list Stream) (job : string) (config : Configuration) : outcome LogicalGraph :=
  b ← LogicalGraphBuilder_init job config;
  acc ← foldM (λ acc stream, visit stream_name job stream acc) (b, ∅) streams;
  build acc.1.

(** ** Rescaling one operator *)

(** What a caller names an operator by: an integer, or a text, or something else. *)
Inductive OperatorId := ById (argument : pyarg) | ByText (text : string).

Definition the_only {B} (matches : list B) : outcome B :=
  match matches with [] => Err KeyError | [v] => Ok v | _ => Err ValueError end.

(** [resolve_operator]. *)
Definition resolve_operator (g : LogicalGraph) (operator_id : OperatorId) : outcome VertexId :=
  match operator_id with
  | ById (AInt index) => the_only (filter (λ v, vx_index v = index) (lg_vertices g).*1)
  | ById _ => Err TypeError
  | ByText text =>
      let candidate := strip (String.list_ascii_of_string text) in
      if bool_decide (candidate = []) then Err ValueError
      else
        match parse_int candidate with
        | Some index => the_only (filter (λ v, vx_index v = index) (lg_vertices g).*1)
        | None =>
            let candidate := String.string_of_list_ascii candidate in
            the_only (filter (λ e, candidate = vs_name e.2 ∨ candidate = op_name (vs_operator e.2)) (lg_vertices g)).*1
        end
  end.

(** The replacement of one FORWARD edge that no longer fits. *)
Definition refit_edge (v : VertexId) (b : LogicalGraphBuilder) (e : EdgeSpec) : outcome LogicalGraphBuilder :=
  if negb (bool_decide (v = es_source e ∨ v = es_target e)) || negb (is_forward (es_partitioner e)) then Ok b
  else
    source ← vertex b (es_source e);
    target ← vertex b (es_target e);
    if vs_concurrency source =? vs_concurrency target then Ok b
    else
      b ← remove_edge (es_source e) (es_target e) b;
      add_edge (mkEdgeSpec (es_source e) (es_target e)
        (default_partitioner (Scalar (vs_concurrency source)) (Scalar (vs_concurrency target)))) b.

Definition rescale_operator (g : LogicalGraph) (operator_id : OperatorId) (parallelism : pyarg) : outcome LogicalGraph :=
  match parallelism with
  | AInt n =>
      if n <=? 0 then Err ValueError
      else
        v ← resolve_operator g operator_id;
        current ← get g v;
        if vs_concurrency current =? n then Ok g
        else
          b ← to_builder g;
          resources ← with_concurrency n (vs_resources current);
          b ← replace_vertex (with_resources resources current) b;
          b ← foldM (refit_edge v) b (lg_edges g);
          build b
  | _ => Err TypeError
  end.
End logical.
Arguments LogicalGraph : clear implicits.
Arguments LogicalGraphBuilder : clear implicits.
Arguments Stream : clear implicits.

(** ** What a graph must satisfy *)

Section validity.
Context {F P A : Type} `{!Recipes F P A}.
Implicit Types (vertices : list (VertexId * VertexSpec F P)) (edges : list (EdgeSpec A)).

Definition pairs_of edges : list (VertexId * VertexId) := es_pair <$> edges.

(** The conditions on a graph, as a reader would write them: every vertex is stored
    under its id, belongs to the job and is a source if its operator is one; edges connect
    vertices and no two connect the same ones; the sources are what has no inputs; and
    there is no cycle. *)
Record valid (job : string) vertices edges : Prop := {
  valid_job : job ≠ "";
  valid_vertex v spec : (v, spec) ∈ vertices → vs_id spec = v ∧ vx_job v = job ∧ (vs_node_type spec = NSource ↔ is_source spec = true);
  valid_ends e : e ∈ edges → es_source e ∈ vertices.*1 ∧ es_target e ∈ vertices.*1;
  valid_pairs : NoDup (pairs_of edges);
  valid_roots v spec : (v, spec) ∈ vertices → is_source spec = true ↔ (∀ u, ¬ flows (pairs_of edges) u v);
  valid_acyclic : acyclic (pairs_of edges)
}.

Lemma validate_vertices_spec job vertices :
  (validate_vertices job vertices = Ok () ∧
     ∀ v spec, (v, spec) ∈ vertices → vs_id spec = v ∧ vx_job v = job ∧ (vs_node_type spec = NSource ↔ is_source spec = true)) ∨
  (validate_vertices job vertices = Err ValueError ∧
     ¬ ∀ v spec, (v, spec) ∈ vertices → vs_id spec = v ∧ vx_job v = job ∧ (vs_node_type spec = NSource ↔ is_source spec = true)).
Proof.
  unfold validate_vertices. induction vertices as [|[v spec] vertices IH]; cbn [foldM].
  { left. split; [done|]. by intros ?? ?%not_elem_of_nil. }
  destruct (bool_decide_reflect (vs_id (v, spec).2 = (v, spec).1)) as [E1|E1]; cbn [negb fst snd] in *;
    [|right; split; [done|]; intros Hall; apply E1, (Hall v spec); by left].
  destruct (bool_decide_reflect (vx_job v = job)) as [E2|E2]; cbn [negb];
    [|right; split; [done|]; intros Hall; apply E2, (Hall v spec); by left].
  assert (Hs : Bool.eqb (bool_decide (vs_node_type spec = NSource)) (source (vs_operator spec)) = true ↔
    (vs_node_type spec = NSource ↔ is_source spec = true)).
  { rewrite Bool.eqb_true_iff. unfold is_source. case_bool_decide; destruct (source _); naive_solver. }
  destruct (Bool.eqb _ _) eqn:E3; cbn [negb].
  2:{ right. split; [done|]. intros Hall. assert (false = true); [|done]. apply Hs, (Hall v spec). by left. }
  destruct IH as [[-> IH]|[-> IH]]; [left|right]; (split; [done|]).
  - intros u s [[= -> ->]|?]%elem_of_cons; [|by apply IH]. split_and!; [done..|by apply Hs].
  - intros Hall. apply IH. intros u s Hin. apply Hall. by right.
Qed.

Lemma validated_topology_from vertices edges : ∀ seen,
  let loop := foldM (λ pairs e,
    if negb (bool_decide (es_source e ∈ vertices.*1) && bool_decide (es_target e ∈ vertices.*1)) then Err ValueError
    else if bool_decide (es_pair e ∈ pairs) then Err ValueError else Ok (pairs ++ [es_pair e])) seen edges in
  let fine := (∀ e, e ∈ edges → es_source e ∈ vertices.*1 ∧ es_target e ∈ vertices.*1) ∧ NoDup (seen ++ pairs_of edges) in
  NoDup seen → (loop = Ok (seen ++ pairs_of edges) ∧ fine) ∨ (loop = Err ValueError ∧ ¬ fine).
Proof.
  induction edges as [|e edges IH]; intros seen loop fine Hseen; subst loop fine; cbn [foldM].
  { left. cbn. rewrite app_nil_r. split_and!; [done| |done]. by intros e ?%not_elem_of_nil. }
  destruct (bool_decide_reflect (es_source e ∈ vertices.*1)) as [E1|E1]; cbn [andb negb];
    [|right; split; [done|]; intros [Hall _]; apply E1, (Hall e); by left].
  destruct (bool_decide_reflect (es_target e ∈ vertices.*1)) as [E2|E2]; cbn [andb negb];
    [|right; split; [done|]; intros [Hall _]; apply E2, (Hall e); by left].
  case_bool_decide as E3.
  { right. split; [done|]. intros [_ Hnd]. unfold pairs_of in Hnd. cbn in Hnd. apply NoDup_app in Hnd as (_ & Hnd & _).
    apply (Hnd _ E3). by left. }
  cbv beta iota. unfold pairs_of. cbn [fmap list_fmap]. rewrite (cons_middle (es_pair e) seen (es_pair <$> edges)), (app_assoc seen).
  destruct (IH (seen ++ [es_pair e])) as [[-> [H1 H2]]|[-> Hno]].
  { apply NoDup_app. split_and!; [done| |apply NoDup_singleton]. by intros p Hp ->%list_elem_of_singleton. }
  - left. split_and!; [done| |done]. by intros d [->|?]%elem_of_cons; [|apply H1].
  - right. split; [done|]. intros [H1 H2]. apply Hno. split; [|done]. intros d ?. apply H1. by right.
Qed.

Lemma validated_topology_spec vertices edges :
  let fine := (∀ e, e ∈ edges → es_source e ∈ vertices.*1 ∧ es_target e ∈ vertices.*1) ∧ NoDup (pairs_of edges) in
  (validated_topology vertices edges = Ok (pairs_of edges) ∧ fine) ∨ (validated_topology vertices edges = Err ValueError ∧ ¬ fine).
Proof. exact (validated_topology_from vertices edges [] (NoDup_nil_2)). Qed.

Lemma heappush_pushes : pushes heappush.
Proof.
  intros v heap. induction heap as [|u heap IH]; cbn; [done|]. case_decide; [done|]. rewrite IH. apply Permutation_swap.
Qed.

Lemma sorted_targets_perm pairs v : sorted_targets pairs v ≡ₚ successors pairs v.
Proof. apply merge_sort_Permutation. Qed.

Lemma pairs_ends vertices edges :
  (∀ e, e ∈ edges → es_source e ∈ vertices.*1 ∧ es_target e ∈ vertices.*1) →
  ∀ p, p ∈ pairs_of edges → p.1 ∈ vertices.*1 ∧ p.2 ∈ vertices.*1.
Proof. intros Hends p (e & -> & He)%list_elem_of_fmap. by apply Hends. Qed.

Lemma in_degree_zero (pairs : list (VertexId * VertexId)) v : in_degree pairs v = 0%nat ↔ ∀ u, ¬ flows pairs u v.
Proof.
  rewrite <-(open_inputs_nil pairs v). split.
  - intros E u Hu. assert (0 < open_inputs pairs [] v)%nat; [|lia]. apply open_inputs_pos. exists u. split; [done|]. apply not_elem_of_nil.
  - intros Hno. destruct (open_inputs pairs [] v) eqn:E; [done|]. assert (0 < open_inputs pairs [] v)%nat as (u & Hu & _)%open_inputs_pos by lia.
    by destruct (Hno u).
Qed.

(** The comparison of the two sets. *)
Lemma roots_spec vertices pairs :
  NoDup vertices.*1 →
  (list_to_set (filter (λ v, in_degree pairs v = 0%nat) vertices.*1) : gset VertexId) = list_to_set (filter (λ e, is_source e.2 = true) vertices).*1 ↔
  ∀ v spec, (v, spec) ∈ vertices → is_source spec = true ↔ ∀ u, ¬ flows pairs u v.
Proof.
  intros Hnd. rewrite set_eq. setoid_rewrite elem_of_list_to_set. setoid_rewrite list_elem_of_filter. setoid_rewrite in_degree_zero.
  assert (Hsrc : ∀ v, v ∈ (filter (λ e, is_source e.2 = true) vertices).*1 ↔ ∃ spec, (v, spec) ∈ vertices ∧ is_source spec = true).
  { intros v. rewrite list_elem_of_fmap. split.
    - intros ([u spec] & -> & [Hs Hin]%list_elem_of_filter). by exists spec.
    - intros (spec & Hin & Hs). exists (v, spec). split; [done|]. by apply list_elem_of_filter. }
  setoid_rewrite Hsrc. split.
  - intros Hall v spec Hin. specialize (Hall v). split.
    + intros Hs. apply Hall. eauto.
    + intros Hno. destruct (proj1 Hall) as (spec' & Hin' & Hs).
      { split; [done|]. apply list_elem_of_fmap. by exists (v, spec). }
      assert (Some spec = Some spec') as [= ->]; [|done].
      by rewrite <-(proj2 (dict_get_Some v spec vertices Hnd)), <-(proj2 (dict_get_Some v spec' vertices Hnd)).
  - intros Hall v. split.
    + intros [Hno ([u spec] & -> & Hin)%list_elem_of_fmap]. exists spec. split; [done|]. by apply (Hall u spec).
    + intros (spec & Hin & Hs). split; [by apply (Hall v spec)|]. apply list_elem_of_fmap. by exists (v, spec).
Qed.

Lemma validate_spec job vertices edges :
  NoDup vertices.*1 → job ≠ "" →
  match validate job vertices edges with
  | Ok order => valid job vertices edges ∧ order ≡ₚ vertices.*1 ∧ inputs_first (pairs_of edges) order ∧
      order = Graphs.topological_order heappush (sorted_targets (pairs_of edges)) vertices.*1 (pairs_of edges)
  | Err e => e = ValueError ∧ ¬ valid job vertices edges
  end.
Proof.
  intros Hnd Hjob. unfold validate.
  destruct (validate_vertices_spec job vertices) as [[-> Hv]|[-> Hv]]; [|split; [done|]; intros Hvalid; apply Hv, Hvalid].
  rewrite bind_Ok. destruct (validated_topology_spec vertices edges) as [[-> [Hends Hpairs]]|[-> Hno]];
    [|split; [done|]; intros Hvalid; apply Hno; split; apply Hvalid].
  rewrite bind_Ok. set (wrong := negb (bool_decide (vertices = [])) && _).
  assert (Hroots : wrong = false ↔ ∀ v spec, (v, spec) ∈ vertices → is_source spec = true ↔ ∀ u, ¬ flows (pairs_of edges) u v).
  { subst wrong. rewrite <-(roots_spec vertices (pairs_of edges) Hnd). destruct vertices as [|x vertices]; cbn; [done|].
    rewrite negb_false_iff, bool_decide_eq_true. done. }
  destruct wrong; [split; [done|]; intros Hvalid; assert (true = false) by apply Hroots, Hvalid; done|].
  pose proof (topological_order_spec heappush (sorted_targets (pairs_of edges)) vertices.*1 (pairs_of edges) heappush_pushes Hnd
    (pairs_ends vertices edges Hends) (sorted_targets_perm _)) as [Hacyclic Hok].
  unfold topological_order. destruct (Nat.eqb_spec (length (Graphs.topological_order heappush (sorted_targets (pairs_of edges)) vertices.*1 (pairs_of edges)))
    (length vertices.*1)) as [E|E].
  - destruct (Hok E) as [Hp Hf]. split_and!; [split; try done; [by apply Hroots|by apply Hacyclic]|done..].
  - split; [done|]. intros Hvalid. by apply E, Hacyclic, Hvalid.
Qed.

(** The dictionary in the order of the vertices. *)
Lemma reordered vertices order :
  NoDup vertices.*1 → order ≡ₚ vertices.*1 →
  ∃ ordered, mapM_outcome (λ v, spec ← of_option KeyError (dict_get v vertices); Ok (v, spec)) order = Ok ordered ∧
    ordered.*1 = order ∧ ordered ≡ₚ vertices.
Proof.
  intros Hnd Hperm. destruct (mapM_outcome_exists (λ v, spec ← of_option KeyError (dict_get v vertices); Ok (v, spec)) order) as [ordered Eo].
  { intros v Hv. rewrite Hperm in Hv. destruct (dict_get_key v vertices Hv) as (spec & -> & _). by exists (v, spec). }
  exists ordered. split; [done|]. apply mapM_outcome_Ok in Eo.
  assert (Hkeys : ordered.*1 = order).
  { clear -Eo. induction Eo as [|v p order ordered Hp _ IH]; [done|]. cbn. rewrite IH. f_equal.
    destruct (dict_get v vertices); [|done]. by injection Hp as <-. }
  split; [done|]. apply NoDup_Permutation.
  - apply (NoDup_fmap_1 fst). by rewrite Hkeys, Hperm.
  - by apply (NoDup_fmap_1 fst).
  - assert (Hin : ∀ p, p ∈ ordered → p ∈ vertices).
    { intros p (v & Hv & Hp)%(Forall2_elem_of_r _ _ _ _ Eo). destruct (dict_get v vertices) as [spec|] eqn:Ev; [|done].
      injection Hp as <-. by apply dict_get_Some. }
    intros [v spec]. split; [apply Hin|]. intros Hv. assert (v ∈ order) as Hk by (rewrite Hperm; apply list_elem_of_fmap; by exists (v, spec)).
    rewrite <-Hkeys in Hk. apply list_elem_of_fmap in Hk as ([u spec'] & -> & Hp). cbn in *. assert (spec' = spec) as ->; [|done].
    apply Hin in Hp. apply (dict_get_Some u spec' vertices Hnd) in Hp. apply (dict_get_Some u spec vertices Hnd) in Hv. congruence.
Qed.

Lemma logical_graph_accepts job config vertices edges :
  NoDup vertices.*1 →
  match LogicalGraph_init job config vertices edges with
  | Ok g => valid job vertices edges ∧ job_name g = job ∧ lg_config g = config ∧
      lg_vertices g ≡ₚ vertices ∧ lg_edges g ≡ₚ edges ∧ inputs_first (pairs_of edges) (lg_vertices g).*1
  | Err e => e = ValueError ∧ ¬ valid job vertices edges
  end.
Proof.
  intros Hnd. unfold LogicalGraph_init. case_bool_decide as Hjob; [split; [done|]; intros Hv; by apply Hv|].
  pose proof (validate_spec job vertices edges Hnd Hjob) as Hval. destruct (validate job vertices edges) as [order|e]; [|exact Hval].
  rewrite bind_Ok. destruct Hval as (Hvalid & Hperm & Hfirst & _). destruct (reordered vertices order Hnd Hperm) as (ordered & -> & Hkeys & Hp).
  rewrite bind_Ok. cbn. rewrite Hkeys. split_and!; try done. apply merge_sort_Permutation.
Qed.
End validity.

(** ** The canonical order *)

Section canonical.
Context {F P A : Type} `{!Recipes F P A}.
Implicit Types (vertices : list (VertexId * VertexSpec F P)) (edges : list (EdgeSpec A)).

#[local] Instance index_le_total : Total index_le.
Proof. intros v u. unfold index_le. lia. Qed.
#[local] Instance index_le_trans : Transitive index_le.
Proof. intros v u w. unfold index_le. lia. Qed.

Lemma heappush_sorted v heap : StronglySorted index_le heap → StronglySorted index_le (heappush v heap).
Proof.
  induction 1 as [|u heap Hs IH Hu]; cbn; [by repeat constructor|]. case_decide as E.
  - repeat constructor; [done..|]. eapply Forall_impl; [exact Hu|]. intros w Hw. by trans u.
  - constructor; [done|]. rewrite (heappush_pushes v heap). constructor; [|done]. unfold index_le in *. lia.
Qed.

Lemma initially_ready_sorted vs pairs : StronglySorted index_le (initially_ready heappush vs pairs).
Proof.
  unfold initially_ready. cut (∀ ready, StronglySorted index_le ready →
    StronglySorted index_le (foldl (λ ready v, if bool_decide (in_degree pairs v = 0%nat) then heappush v ready else ready) ready vs)).
  { intros Hc. apply Hc. constructor. }
  induction vs as [|v vs IH]; intros ready Hr; cbn [foldl]; [done|]. apply IH. case_bool_decide; [by apply heappush_sorted|done].
Qed.

(** A list of vertices of one job, sorted by index, is determined by its elements. *)
Lemma sorted_vertices_unique job l k :
  StronglySorted index_le l → StronglySorted index_le k → l ≡ₚ k → (∀ v, v ∈ l → vx_job v = job) → l = k.
Proof.
  intros Hl Hk Hp Hjob. apply (StronglySorted_unique_strong index_le); [|done..].
  intros [j i] [j' i'] Hv Hu ??. rewrite <-Hp in Hu. apply Hjob in Hv, Hu. unfold index_le in *. cbn in *. subst. f_equal. lia.
Qed.

Lemma kahn_ext {K} `{Countable K} push (out out' : K → list K) : (∀ v, out v = out' v) →
  ∀ fuel ready remaining ordered, kahn push out fuel ready remaining ordered = kahn push out' fuel ready remaining ordered.
Proof.
  intros Hout fuel. induction fuel as [|fuel IH]; intros [|v ready] remaining ordered; cbn [kahn]; try done.
  rewrite Hout. destruct (foldl _ _ _). apply IH.
Qed.

Lemma in_degree_perm (pairs pairs' : list (VertexId * VertexId)) v : pairs ≡ₚ pairs' → in_degree pairs v = in_degree pairs' v.
Proof. intros Hp. unfold in_degree. by rewrite Hp. Qed.

Lemma topological_order_canonical job vs vs' pairs pairs' :
  NoDup vs → (∀ v, v ∈ vs → vx_job v = job) → (∀ p, p ∈ pairs → p.2 ∈ vs) → vs ≡ₚ vs' → pairs ≡ₚ pairs' →
  Graphs.topological_order heappush (sorted_targets pairs) vs pairs = Graphs.topological_order heappush (sorted_targets pairs') vs' pairs'.
Proof.
  intros Hnd Hjob Hends Hvs Hpairs. unfold Graphs.topological_order. rewrite Hvs at 1.
  rewrite (kahn_ext heappush (sorted_targets pairs) (sorted_targets pairs')).
  - f_equal.
    + apply (sorted_vertices_unique job); [apply initially_ready_sorted..| |].
      * rewrite !(initially_ready_perm heappush) by apply heappush_pushes. rewrite Hvs. apply reflexive_eq, list_filter_iff.
        intros v. by rewrite (in_degree_perm pairs pairs').
      * intros v. rewrite (initially_ready_perm heappush) by apply heappush_pushes. intros [_ ?]%list_elem_of_filter. by apply Hjob.
    + unfold degrees. apply list_to_map_proper.
      * rewrite <-list_fmap_compose. unfold compose. cbn. by rewrite list_fmap_id.
      * rewrite Hvs. apply reflexive_eq, list_fmap_ext. intros _ v _. by rewrite (in_degree_perm pairs pairs').
  - intros v. apply (sorted_vertices_unique job).
    1-2: apply Sorted_StronglySorted, Sorted_merge_sort; apply _.
    + rewrite !sorted_targets_perm. unfold successors. by rewrite Hpairs.
    + intros u. rewrite sorted_targets_perm. unfold successors. intros (p & -> & [_ Hp]%list_elem_of_filter)%list_elem_of_fmap. by apply Hjob, Hends.
Qed.

Lemma rank_inj order v u : v ∈ order → u ∈ order → rank order v = rank order u → v = u.
Proof.
  intros Hv Hu. unfold rank.
  destruct (list_find_elem_of (λ w, w = v) order v Hv eq_refl) as [[i w] Ei]. destruct (list_find_elem_of (λ w, w = u) order u Hu eq_refl) as [[k w'] Ek].
  rewrite Ei, Ek. cbn. intros ->. apply list_find_Some in Ei as (Hi & -> & _). apply list_find_Some in Ek as (Hk & -> & _). congruence.
Qed.

#[local] Instance edge_le_total order : Total (edge_le (A := A) order).
Proof. intros e d. unfold edge_le. lia. Qed.
#[local] Instance edge_le_trans order : Transitive (edge_le (A := A) order).
Proof. intros e d c. unfold edge_le. lia. Qed.

Lemma pairs_inj edges e d : NoDup (pairs_of edges) → e ∈ edges → d ∈ edges → es_pair e = es_pair d → e = d.
Proof.
  intros Hnd (i & Hi)%list_elem_of_lookup (j & Hj)%list_elem_of_lookup E.
  assert (i = j) as ->; [|congruence]. apply (NoDup_lookup (pairs_of edges) i j (es_pair e) Hnd); unfold pairs_of; rewrite list_lookup_fmap.
  - by rewrite Hi.
  - by rewrite Hj, E.
Qed.

Lemma sorted_edges_canonical vs edges edges' order :
  NoDup (pairs_of edges) → (∀ e, e ∈ edges → es_source e ∈ vs ∧ es_target e ∈ vs) → order ≡ₚ vs → edges ≡ₚ edges' →
  merge_sort (edge_le order) edges = merge_sort (edge_le order) edges'.
Proof.
  intros Hnd Hends Ho Hp. apply (StronglySorted_unique_strong (edge_le order)); [|by apply StronglySorted_merge_sort; apply _..|by rewrite !merge_sort_Permutation].
  intros e d. rewrite !merge_sort_Permutation, <-Hp. intros He Hd Hed Hde. apply (pairs_inj edges); [done..|].
  destruct (Hends e He), (Hends d Hd). unfold es_pair. unfold edge_le in *.
  f_equal; apply (rank_inj order); try (by rewrite Ho); lia.
Qed.

Lemma dict_get_perm vertices vertices' v : NoDup vertices.*1 → vertices ≡ₚ vertices' → dict_get v vertices = dict_get v vertices'.
Proof.
  intros Hnd Hp. assert (Hnd' : NoDup vertices'.*1) by (by rewrite <-Hp). apply option_eq. intros spec.
  rewrite !dict_get_Some by done. by rewrite Hp.
Qed.

Lemma mapM_outcome_ext {B C} (f g : B → outcome C) l : (∀ x, f x = g x) → mapM_outcome f l = mapM_outcome g l.
Proof. intros Hfg. induction l as [|x l IH]; cbn; [done|]. by rewrite Hfg, IH. Qed.

Lemma flows_perm (pairs pairs' : list (VertexId * VertexId)) : pairs ≡ₚ pairs' → ∀ u v, flows pairs u v ↔ flows pairs' u v.
Proof. intros Hp u v. unfold flows. by rewrite Hp. Qed.

Lemma valid_perm job vertices vertices' edges edges' :
  vertices ≡ₚ vertices' → edges ≡ₚ edges' → valid job vertices edges → valid job vertices' edges'.
Proof.
  intros Hv He [V1 V2 V3 V4 V5 V6]. assert (Hp : pairs_of edges ≡ₚ pairs_of edges') by (unfold pairs_of; by rewrite He).
  split; [done| | | | |].
  - intros v spec. rewrite <-Hv. apply V2.
  - intros e. rewrite <-He, <-Hv. apply V3.
  - by rewrite <-Hp.
  - intros v spec. rewrite <-Hv. intros Hin. rewrite (V5 v spec Hin). by setoid_rewrite (flows_perm _ _ Hp).
  - intros v Hvv. apply (V6 v). revert Hvv. apply tc_congruence with (f := id). intros x y. by apply flows_perm.
Qed.

(** C5. A logical graph is canonical: it does not depend on the order in which its
    vertices and edges were collected.  Any two collections with the same vertices and
    edges give the very same graph, vertices and edges in the same order, or are both
    refused. *)
Theorem logical_graph_canonical job config vertices vertices' edges edges' :
  NoDup vertices.*1 → vertices ≡ₚ vertices' → edges ≡ₚ edges' →
  LogicalGraph_init job config vertices edges = LogicalGraph_init job config vertices' edges'.
Proof.
  intros Hnd Hv He. assert (Hnd' : NoDup vertices'.*1) by (by rewrite <-Hv).
  unfold LogicalGraph_init. case_bool_decide as Hjob; [done|].
  pose proof (validate_spec job vertices edges Hnd Hjob) as H1. pose proof (validate_spec job vertices' edges' Hnd' Hjob) as H2.
  destruct (validate job vertices edges) as [order|e], (validate job vertices' edges') as [order'|e'].
  2: { exfalso. destruct H1 as [H1 _], H2 as [_ H2]. apply H2. by eapply valid_perm. }
  2: { exfalso. destruct H2 as [H2 _], H1 as [_ H1]. apply H1. symmetry in Hv, He. by eapply valid_perm. }
  2: { by destruct H1 as [-> _], H2 as [-> _]. }
  destruct H1 as (Hvalid & Hperm & _ & ->), H2 as (_ & _ & _ & ->).
  assert (Hends : ∀ p, p ∈ pairs_of edges → p.1 ∈ vertices.*1 ∧ p.2 ∈ vertices.*1) by (apply pairs_ends, Hvalid).
  assert (Hcanon : Graphs.topological_order heappush (sorted_targets (pairs_of edges)) vertices.*1 (pairs_of edges) =
    Graphs.topological_order heappush (sorted_targets (pairs_of edges')) vertices'.*1 (pairs_of edges')).
  { apply (topological_order_canonical job); [done| |by intros p [_ ?]%Hends|by rewrite Hv|unfold pairs_of; by rewrite He].
    intros v ([u spec] & -> & Hin)%list_elem_of_fmap. by apply (valid_vertex _ _ _ Hvalid u spec). }
  rewrite <-Hcanon. set (order := Graphs.topological_order heappush _ _ _) in *. rewrite !bind_Ok.
  rewrite (mapM_outcome_ext (λ v, spec ← of_option KeyError (dict_get v vertices); Ok (v, spec))
    (λ v, spec ← of_option KeyError (dict_get v vertices'); Ok (v, spec))) by (intros v; by rewrite (dict_get_perm vertices vertices')).
  destruct (mapM_outcome _ _); [|done]. rewrite !bind_Ok. f_equal. f_equal.
  apply (sorted_edges_canonical vertices.*1); [apply Hvalid..|done|done].
Qed.
End canonical.
