(* ===== verification/Optimizer.v ===== *)
(** * The optimizer of the logical graph

    Models [src/ray/klein/runtime/graph/rules.py] and [logical_optimizer.py]: the rule that
    fuses operators connected by FORWARD edges into chains, the rule that removes unions,
    and their composition.

    A chain is read back as the operators and edges it is made of ([parts], [inner],
    [tails], [entry]); the theorems say that fusing changes neither the operators of the
    program nor the edges between them. *)
From Stdlib Require Import QArith.Qcanon.
From S2P Require Import Prelude Dicts KeyGroups Rows InputBatching Partitioning Graphs Plans LogicalGraph.
Open Scope Z_scope.

Section optimizer.
Context {F P A : Type} `{!Recipes F P A}.

Abbreviation OperatorSpec := (OperatorSpec F P).
Abbreviation VertexSpec := (VertexSpec F P).
Abbreviation EdgeSpec := (EdgeSpec A).
Abbreviation Builder := (LogicalGraphBuilder F P A).
Abbreviation Graph := (LogicalGraph F P A).

(** ** ChainingRule *)

(** [_execution_contract_matches]. *)
Definition execution_contract_matches (root target : VertexSpec) : bool :=
  bool_decide (cpus (vs_resources root) = cpus (vs_resources target)) && bool_decide (gpus (vs_resources root) = gpus (vs_resources target))
  && (vs_concurrency root =? vs_concurrency target)
  && bool_decide (vs_batch_size root = vs_batch_size target) && bool_decide (vs_async_buffer_size root = vs_async_buffer_size target).

Definition can_chain (b : Builder) (root target : VertexId) (e : option EdgeSpec) : outcome bool :=
  match e with
  | None => Ok false
  | Some e =>
      if negb (is_forward (es_partitioner e)) then Ok false
      else if (1 <? length (upstream b target))%nat then Ok false
      else
        root_vertex ← vertex b root;
        target_vertex ← vertex b target;
        if stateful (vs_operator root_vertex) || stateful (vs_operator target_vertex) then Ok false
        else if async_enabled (runtime_info (vs_operator root_vertex)) || async_enabled (runtime_info (vs_operator target_vertex)) then Ok false
        else Ok (execution_contract_matches root_vertex target_vertex)
  end.

(** The name of a chain. *)
Fixpoint join_names (names : list string) : string :=
  match names with [] => "" | [n] => n | n :: names => n +:+ ", " +:+ join_names names end.

(** The new output edges of a root that absorbs its only target. *)
Definition rewire (root target : VertexId) (b : Builder) (d : VertexId) : outcome Builder :=
  output_edge ← of_option RuntimeError (edge b target d);
  b ← remove_edge target d b;
  add_edge (mkEdgeSpec root d (es_partitioner output_edge)) b.

(** [_chain]. *)
Definition chain_vertices (b : Builder) (root : VertexId) (targets : list VertexId) : outcome Builder :=
  root_vertex ← vertex b root;
  target_vertices ← mapM_outcome (vertex b) targets;
  let new_name := vs_name root_vertex +:+ " -> " +:+ join_names (vs_name <$> (target_vertices : list VertexSpec)) in
  chained_spec ← chain (vs_operator root_vertex) (vs_operator <$> target_vertices) new_name;
  b ← replace_vertex (with_operator chained_spec new_name root_vertex) b;
  match targets with
  | [target] =>
      b ← foldM (rewire root target) b (downstream b target);
      b ← remove_edge root target b;
      remove_vertex target b
  | _ => foldM (λ b target, b ← remove_edge root target b; remove_vertex target b) b targets
  end.

(** The loop over several targets: all are leaves, and each can be chained. *)
Fixpoint all_chainable_leaves (b : Builder) (root : VertexId) (targets : list VertexId) : outcome bool :=
  match targets with
  | [] => Ok true
  | target :: targets =>
      match downstream b target with
      | _ :: _ => Ok false
      | [] => ok ← can_chain b root target (edge b root target); if (ok : bool) then all_chainable_leaves b root targets else Ok false
      end
  end.

(** The second half of [_traverse], when the targets have been visited. *)
Definition fuse (b : Builder) (root : VertexId) : outcome Builder :=
  match downstream b root with
  | [target] => ok ← can_chain b root target (edge b root target); if (ok : bool) then chain_vertices b root [target] else Ok b
  | targets => ok ← all_chainable_leaves b root targets; if (ok : bool) then chain_vertices b root targets else Ok b
  end.

(** [_traverse]; [fuel] bounds the depth of the recursion, that is the length of a path. *)
Fixpoint traverse (fuel : nat) (root : VertexId) (acc : Builder * gset VertexId) : outcome (Builder * gset VertexId) :=
  match fuel with
  | O => Err RuntimeError
  | S fuel =>
      if bool_decide (root ∈ acc.2) then Ok acc
      else
        let visited := {[root]} ∪ acc.2 in
        match downstream acc.1 root with
        | [] => Ok (acc.1, visited)
        | targets =>
            acc ← foldM (λ acc target, traverse fuel target acc) (acc.1, visited) targets;
            b ← fuse acc.1 root;
            Ok (b, acc.2)
        end
  end.

(** [ChainingRule.apply]. *)
Definition ChainingRule_apply (g : Graph) : outcome Graph :=
  b ← to_builder g;
  b ← foldM (λ b s, acc ← traverse (S (length (lg_vertices g))) s (b, ∅); Ok acc.1) b (LogicalGraph.sources g);
  build b.

(** ** UnionRule *)

(** One pair of an input and an output of a union. *)
Definition bypass (b : Builder) (upstream_id downstream_id : VertexId) : outcome Builder :=
  upstream_vertex ← vertex b upstream_id;
  downstream_vertex ← vertex b downstream_id;
  add_edge (mkEdgeSpec upstream_id downstream_id
    (default_partitioner (Scalar (vs_concurrency upstream_vertex)) (Scalar (vs_concurrency downstream_vertex)))) b.

Definition remove_union (b : Builder) (union_id : VertexId) : outcome Builder :=
  let upstream_ids := upstream b union_id in
  let downstream_ids := downstream b union_id in
  b ← foldM (λ b upstream_id, _ ← vertex b upstream_id; foldM (λ b downstream_id, bypass b upstream_id downstream_id) b downstream_ids) b upstream_ids;
  remove_vertex union_id b.

Definition UnionRule_apply (g : Graph) : outcome Graph :=
  b ← to_builder g;
  b ← foldM remove_union b (filter (λ e, vs_node_type e.2 = NUnion) (lg_vertices g)).*1;
  build b.

(** ** LogicalOptimizer *)

(** [rules] and [optimize]. *)
Definition rules (config : Configuration) : list (Graph → outcome Graph) :=
  if operator_chaining config then [UnionRule_apply; ChainingRule_apply] else [UnionRule_apply].

Definition optimize (config : Configuration) (g : Graph) : outcome Graph := foldM (λ g rule, rule g) g (rules config).

(** ** The dataflow of a graph with chains *)

(** The operators of a chain, in the order of a depth-first walk. *)
Fixpoint parts (o : OperatorSpec) : list OperatorSpec :=
  match o with mkOperator _ _ _ _ _ _ l _ => match l with [] => [o] | _ => flat_map parts l end end.

(** The operator that reads the input of a chain, and those that write its output. *)
Fixpoint entry (o : OperatorSpec) : OperatorSpec :=
  match o with mkOperator _ _ _ _ _ _ l _ => match l with [] => o | r :: _ => entry r end end.

Fixpoint tails (o : OperatorSpec) : list OperatorSpec :=
  match o with mkOperator _ _ _ _ _ _ l _ => match l with [] => [o] | _ :: succ => flat_map tails succ end end.

(** The edges from several operators to one; an edge of the program is its two operators
    and its partitioner, unless that forwards. *)
Definition cross (sources : list OperatorSpec) (target : OperatorSpec) (p : option (PartitionerSpec A))
    : list (OperatorSpec * OperatorSpec * option (PartitionerSpec A)) := (λ s, (s, target, p)) <$> sources.

Definition label (p : PartitionerSpec A) : option (PartitionerSpec A) := if is_forward p then None else Some p.

(** The edges inside a chain. *)
Fixpoint inner (o : OperatorSpec) : list (OperatorSpec * OperatorSpec * option (PartitionerSpec A)) :=
  match o with
  | mkOperator _ _ _ _ _ _ l _ =>
      match l with [] => [] | r :: succ => flat_map inner l ++ flat_map (λ s, cross (tails r) (entry s) None) succ end
  end.

Definition flat_operators (vertices : list (VertexId * VertexSpec)) : list OperatorSpec := flat_map (λ e, parts (vs_operator e.2)) vertices.

Definition flat_edge (vertices : list (VertexId * VertexSpec)) (e : EdgeSpec) : list (OperatorSpec * OperatorSpec * option (PartitionerSpec A)) :=
  match dict_get (es_source e) vertices, dict_get (es_target e) vertices with
  | Some s, Some t => cross (tails (vs_operator s)) (entry (vs_operator t)) (label (es_partitioner e))
  | _, _ => []
  end.

Definition flat_edges (vertices : list (VertexId * VertexSpec)) (edges : list EdgeSpec)
    : list (OperatorSpec * OperatorSpec * option (PartitionerSpec A)) :=
  flat_map (λ e, inner (vs_operator e.2)) vertices ++ flat_map (flat_edge vertices) edges.

(** ** What a chain must be to run *)

(** [OperatorSpec.chain] accepts these as the first operator. *)
Definition chain_head (o : OperatorSpec) : bool := bool_decide (operator_type o = SOURCE) || bool_decide (operator_type o = ONE_INPUT).

(** Neither keeps state nor waits for asynchronous results. *)
Definition quiet (o : OperatorSpec) : bool := negb (stateful o) && negb (async_enabled (runtime_info o)).

(** [ChainedOperator.compose] refuses a first operator that is a chain. *)
Fixpoint composable (o : OperatorSpec) : bool :=
  match o with
  | mkOperator _ _ _ _ _ _ l _ =>
      match l with
      | [] => true
      | r :: succ => negb (chained r) && chain_head r && negb (bool_decide (succ = [])) && forallb quiet l && forallb composable succ
      end
  end.

(** [ChainedOperator.open] refuses an output of a chain with several last operators. *)
Fixpoint fans_out (o : OperatorSpec) : bool :=
  match o with
  | mkOperator _ _ _ _ _ _ l _ => match l with [] => false | _ :: succ => (1 <? length succ)%nat || existsb fans_out succ end
  end.
End optimizer.
