(* ===== verification/Chaining.v ===== *)
(** * Fusing operators preserves the dataflow

    What one fusion of [ChainingRule] does to the builder, that it changes neither the
    operators of the program nor the edges between them, and that the traversal of the
    rule fuses every operator at most once, so that every chain can run. *)
From Stdlib Require Import QArith.Qcanon.
From S2P Require Import Prelude Dicts KeyGroups Rows InputBatching Partitioning Graphs Plans LogicalGraph Optimizer.
Open Scope Z_scope.

Section chaining.
Context {F P A : Type} `{!Recipes F P A}.
Abbreviation OperatorSpec := (OperatorSpec F P).
Abbreviation VertexSpec := (VertexSpec F P).
Abbreviation EdgeSpec := (EdgeSpec A).
Abbreviation Builder := (LogicalGraphBuilder F P A).
Implicit Types (b : Builder) (r v u d t : VertexId) (ts : list VertexId) (e : EdgeSpec) (spec : VertexSpec).

(** ** The builder's operations on edges *)

Lemma edge_lookup b e : NoDup (pairs_of (b_edges b)) → e ∈ b_edges b → edge b (es_source e) (es_target e) = Some e.
Proof.
  unfold edge. induction (b_edges b) as [|x l IH]; intros Hnd Hin; [by apply not_elem_of_nil in Hin|]. cbn in Hnd. apply NoDup_cons in Hnd as [Hx Hnd].
  rewrite filter_cons. case_decide as E.
  - cbn. apply elem_of_cons in Hin as [->|Hin]; [done|]. exfalso. apply Hx, list_elem_of_fmap. by exists e.
  - apply elem_of_cons in Hin as [->|Hin]; [done|]. by apply IH.
Qed.

Lemma edge_None b u v : (u, v) ∉ pairs_of (b_edges b) → edge b u v = None.
Proof.
  unfold edge. intros Hno. replace (filter _ _) with (@nil EdgeSpec); [done|]. symmetry. apply filter_none.
  intros e He E. apply Hno, list_elem_of_fmap. by exists e.
Qed.

Lemma edge_exists b u v : (u, v) ∈ pairs_of (b_edges b) → ∃ e, edge b u v = Some e.
Proof.
  intros (e & [= Eu Ev] & He)%list_elem_of_fmap. unfold edge. destruct (head _) as [x|] eqn:Eh; [by exists x|]. apply head_None in Eh.
  assert (e ∈ filter (λ e, es_pair e = (u, v)) (b_edges b)) as Hin by (apply list_elem_of_filter; split; [unfold es_pair; congruence|done]).
  rewrite Eh in Hin. by apply not_elem_of_nil in Hin.
Qed.

Definition retarget r e : EdgeSpec := mkEdgeSpec r (es_target e) (es_partitioner e).

(** The loop that rewires the outputs [l] of [t]. *)
Lemma rewire_loop r t (l : list EdgeSpec) : ∀ b,
  r ≠ t → NoDup (pairs_of (b_edges b)) → r ∈ (b_vertices b).*1 → (∀ e, e ∈ b_edges b → es_target e ∈ (b_vertices b).*1) →
  filter (λ e, es_source e = t) (b_edges b) = l → (∀ e, e ∈ l → (r, es_target e) ∉ pairs_of (b_edges b)) →
  foldM (rewire r t) b (es_target <$> l) =
    Ok (mkBuilder (b_job b) (b_config b) (b_vertices b) (filter (λ e, es_source e ≠ t) (b_edges b) ++ (retarget r <$> l))).
Proof.
  induction l as [|e l IH]; intros b Hrt Hnd Hr Hends Hl Hno; cbn [foldM fmap list_fmap].
  { rewrite app_nil_r. replace (filter (λ e, es_source e ≠ t) (b_edges b)) with (b_edges b); [by destruct b|]. symmetry. apply filter_all. intros e He E.
    assert (e ∈ filter (λ e, es_source e = t) (b_edges b)) as Hin by (by apply list_elem_of_filter). rewrite Hl in Hin. by apply not_elem_of_nil in Hin. }
  assert (He : e ∈ b_edges b ∧ es_source e = t).
  { assert (e ∈ filter (λ e, es_source e = t) (b_edges b)) as [??]%list_elem_of_filter by (rewrite Hl; by left). done. }
  destruct He as [He Et]. pose proof (edge_lookup b e Hnd He) as Ee. rewrite Et in Ee.
  unfold rewire at 1. rewrite Ee. cbn [of_option]. rewrite bind_Ok. unfold remove_edge. rewrite Ee, bind_Ok. unfold add_edge at 1.
  cbn [b_vertices es_source es_target]. rewrite !bool_decide_eq_true_2 by (done || by apply Hends). cbn [andb negb].
  set (C := filter (λ x, es_pair x ≠ (t, es_target e)) (b_edges b)).
  assert (HC : ∀ x, x ∈ C → x ∈ b_edges b) by (by intros x [_ ?]%list_elem_of_filter).
  assert (Hnone : (r, es_target e) ∉ pairs_of C).
  { intros (x & E & Hx%HC)%list_elem_of_fmap. apply (Hno e); [by left|]. rewrite E. apply list_elem_of_fmap. by exists x. }
  rewrite (edge_None (mkBuilder (b_job b) (b_config b) (b_vertices b) C)) by done. cbn [b_job b_config b_edges].
  assert (HndC : NoDup (pairs_of C)) by (eapply sublist_NoDup; [exact Hnd|apply fmap_sublist, filter_sublist]).
  assert (Hlnd : e ∉ l ∧ ∀ x, x ∈ l → es_target x ≠ es_target e).
  { assert (Hpl : NoDup (es_target <$> (e :: l))).
    { assert (Hp : NoDup (pairs_of (e :: l))) by (rewrite <-Hl; eapply sublist_NoDup; [exact Hnd|apply fmap_sublist, filter_sublist]).
      assert (Hs : ∀ x, x ∈ e :: l → es_source x = t) by (rewrite <-Hl; by intros x [? _]%list_elem_of_filter).
      revert Hp Hs. generalize (e :: l). intros k. induction k as [|x k IHk]; intros Hp Hs; [constructor|]. cbn in *. apply NoDup_cons in Hp as [Hx Hp].
      constructor; [|apply IHk; [done|intros y ?; apply Hs; by right]]. intros (y & E & Hy)%list_elem_of_fmap. apply Hx, list_elem_of_fmap. exists y.
      split; [|done]. unfold es_pair. by rewrite E, (Hs x ltac:(by left)), (Hs y ltac:(by right)). }
    cbn in Hpl. apply NoDup_cons in Hpl as [Hpl _]. split; [intros ?; apply Hpl, list_elem_of_fmap; by exists e|].
    intros x Hx E. apply Hpl, list_elem_of_fmap. exists x. by rewrite E. }
  destruct Hlnd as [_ Hlt].
  assert (HlC : filter (λ x, es_source x = t) C = l).
  { subst C. rewrite list_filter_filter. rewrite (filter_ext_in _ (λ x, es_pair x ≠ (t, es_target e) ∧ es_source x = t)) by (intros; tauto).
    rewrite <-list_filter_filter, Hl. rewrite filter_cons, decide_False by (unfold es_pair; rewrite Et; tauto). apply filter_all.
    intros x Hx E. injection E as _ E. by apply (Hlt x). }
  rewrite IH; cbn [b_edges b_vertices b_job b_config]; [|done| |done| | |].
  - do 2 f_equal. rewrite filter_app, <-app_assoc. f_equal.
    + subst C. rewrite list_filter_filter. apply filter_ext_in. intros x _. unfold es_pair. split; [tauto|]. intros Hx. split; [done|]. intros E. injection E. done.
    + rewrite filter_cons, decide_True by done. done.
  - unfold pairs_of. rewrite fmap_app. apply NoDup_app. split_and!; [done| |apply NoDup_singleton].
    intros p Hp ->%list_elem_of_singleton. by apply Hnone.
  - intros x [Hx%HC| ->%list_elem_of_singleton]%elem_of_app; [by apply Hends|]. cbn. by apply Hends.
  - rewrite filter_app, HlC, filter_cons, decide_False by done. cbn. by rewrite app_nil_r.
  - intros x Hx. unfold pairs_of. rewrite fmap_app, elem_of_app. intros [(y & E & Hy%HC)%list_elem_of_fmap|E%list_elem_of_singleton].
    + apply (Hno x); [by right|]. rewrite E. apply list_elem_of_fmap. by exists y.
    + injection E as E. by apply (Hlt x).
Qed.

(** The loop that absorbs several leaves. *)
Lemma absorb_loop r ts : ∀ b,
  NoDup ts → NoDup (b_vertices b).*1 → (∀ t, t ∈ ts → t ∈ (b_vertices b).*1) →
  (∀ t, t ∈ ts → (r, t) ∈ pairs_of (b_edges b)) → r ∉ ts →
  foldM (λ b t, b ← remove_edge r t b; remove_vertex t b) b ts =
    Ok (mkBuilder (b_job b) (b_config b) (filter (λ x, x.1 ∉ ts) (b_vertices b)) (filter (λ e, es_source e ∉ ts ∧ es_target e ∉ ts) (b_edges b))).
Proof.
  induction ts as [|t ts IH]; intros b Hts Hnd Hkeys Hedges Hr; cbn [foldM].
  { rewrite !filter_all; [by destruct b|..]; intros ??; [split|]; apply not_elem_of_nil. }
  apply NoDup_cons in Hts as [Ht Hts]. assert (Hrt : (r, t) ∈ pairs_of (b_edges b)) by (apply Hedges; by left).
  destruct (edge_exists b r t Hrt) as [e Ee]. unfold remove_edge. rewrite Ee, bind_Ok. unfold remove_vertex. cbn [b_vertices b_edges b_job b_config].
  rewrite bool_decide_eq_true_2 by (apply Hkeys; by left). rewrite (dict_pop_filter t) by done.
  rewrite IH; cbn [b_vertices b_edges b_job b_config]; [|done| | | |].
  - do 2 f_equal; rewrite !list_filter_filter; apply filter_ext_in; intros x _; rewrite ?not_elem_of_cons; [tauto|].
    unfold es_pair. split; [tauto|]. intros ((Hs & ?) & Hd & ?). split_and!; try done. intros E. injection E. done.
  - eapply sublist_NoDup; [exact Hnd|apply fmap_sublist, filter_sublist].
  - intros u Hu. assert (u ∈ (b_vertices b).*1) as ([u' s] & -> & Hin)%list_elem_of_fmap by (apply Hkeys; by right).
    apply list_elem_of_fmap. exists (u', s). split; [done|]. apply list_elem_of_filter. split; [|done]. cbn in *. congruence.
  - intros u Hu. assert ((r, u) ∈ pairs_of (b_edges b)) as (x & Ex & Hin)%list_elem_of_fmap by (apply Hedges; by right).
    injection Ex as Er Eu. apply list_elem_of_fmap. exists x. split; [unfold es_pair; congruence|].
    rewrite !list_elem_of_filter. rewrite <-Er, <-Eu. unfold es_pair. apply not_elem_of_cons in Hr as [Hr _].
    assert (u ≠ t) by congruence. split_and!; congruence.
  - apply not_elem_of_cons in Hr as [_ Hr]. done.
Qed.

(** ** One fusion *)

Definition fused_vertices r ts spec (vertices : list (VertexId * VertexSpec)) : list (VertexId * VertexSpec) :=
  filter (λ x, x.1 ∉ ts) (dict_set r spec vertices).

Definition fused_edges r ts (edges : list EdgeSpec) : list EdgeSpec :=
  filter (λ e, es_source e ∉ ts ∧ es_target e ∉ ts) edges ++ (retarget r <$> filter (λ e, es_source e ∈ ts) edges).

Definition fused b r ts spec : Builder :=
  mkBuilder (b_job b) (b_config b) (fused_vertices r ts spec (b_vertices b)) (fused_edges r ts (b_edges b)).

(** What holds where the rule fuses: the targets have no other input, and there is one
    target, or they are leaves. *)
Record fusable b r ts : Prop := {
  fu_targets : downstream b r = ts;
  fu_some : ts ≠ [];
  fu_only e : e ∈ b_edges b → es_target e ∈ ts → es_source e = r;
  fu_shape : (∃ t, ts = [t]) ∨ ∀ e, e ∈ b_edges b → es_source e ∉ ts
}.

(** The operator of a chain. *)
Definition chain_operator (o : OperatorSpec) (succ : list OperatorSpec) (name : string) : OperatorSpec :=
  mkOperator (match operator_type o with SOURCE => ChainedSourceOperator | _ => ChainedOneInputOperator end)
    (logical_function o) (op_id o) name (operator_type o) no_parameters (o :: succ) (stateful o || existsb stateful succ).

Lemma chain_Ok o succ name : chain_head o = true → chain o succ name = Ok (chain_operator o succ name).
Proof.
  unfold chain_head, chain, chain_operator. rewrite orb_true_iff, !bool_decide_eq_true. by intros [-> | ->].
Qed.

(** ** The builder during the rule *)

(** [rank] grows along every edge: the position in the topological order. *)
Context (rank : VertexId → nat).

Record wf b : Prop := {
  wf_valid : valid (b_job b) (b_vertices b) (b_edges b);
  wf_keys : NoDup (b_vertices b).*1;
  wf_rank u v : flows (pairs_of (b_edges b)) u v → (rank u < rank v)%nat
}.

Lemma elem_of_downstream b v d : d ∈ downstream b v ↔ flows (pairs_of (b_edges b)) v d.
Proof.
  unfold downstream, flows, pairs_of. rewrite !list_elem_of_fmap. setoid_rewrite list_elem_of_filter. unfold es_pair. split.
  - intros (e & -> & <- & He). by exists e.
  - intros (e & [= -> ->] & He). by exists e.
Qed.

Lemma elem_of_upstream b v u : u ∈ upstream b v ↔ flows (pairs_of (b_edges b)) u v.
Proof.
  unfold upstream, flows, pairs_of. rewrite !list_elem_of_fmap. setoid_rewrite list_elem_of_filter. unfold es_pair. split.
  - intros (e & -> & <- & He). by exists e.
  - intros (e & [= -> ->] & He). by exists e.
Qed.

Lemma edge_rank b e : wf b → e ∈ b_edges b → (rank (es_source e) < rank (es_target e))%nat.
Proof. intros Hw He. apply (wf_rank b Hw), list_elem_of_fmap. by exists e. Qed.

Lemma target_not_root b r ts : wf b → fusable b r ts → r ∉ ts.
Proof.
  intros Hw [<- _ _ _]. rewrite elem_of_downstream. intros Hr%(wf_rank b Hw). lia.
Qed.

Lemma NoDup_downstream b v : wf b → NoDup (downstream b v).
Proof.
  intros Hw. pose proof (valid_pairs _ _ _ (wf_valid b Hw)) as Hnd. unfold downstream. unfold pairs_of in Hnd. clear Hw.
  induction (b_edges b) as [|e l IH]; [constructor|]. cbn in Hnd. apply NoDup_cons in Hnd as [He Hnd]. rewrite filter_cons. case_decide as E; [|by apply IH].
  cbn. constructor; [|by apply IH]. intros (x & Ex & [Es Hx]%list_elem_of_filter)%list_elem_of_fmap. apply He, list_elem_of_fmap. exists x. split; [|done].
  unfold es_pair. congruence.
Qed.

Lemma chain_vertices_Ok b r ts rspec tspecs :
  wf b → fusable b r ts → dict_get r (b_vertices b) = Some rspec → Forall2 (λ t s, dict_get t (b_vertices b) = Some s) ts tspecs →
  chain_head (vs_operator rspec) = true →
  let name := vs_name rspec +:+ " -> " +:+ join_names (vs_name <$> tspecs) in
  chain_vertices b r ts = Ok (fused b r ts (with_operator (chain_operator (vs_operator rspec) (vs_operator <$> tspecs) name) name rspec)).
Proof.
  intros Hw Hf Er Ets Hhead name. pose proof (target_not_root b r ts Hw Hf) as Hr. destruct Hf as [Hds Hne Honly Hshape].
  pose proof (wf_valid b Hw) as Hval. assert (Ev : vertex b r = Ok rspec) by (unfold vertex; by rewrite Er).
  unfold chain_vertices. rewrite Ev, bind_Ok.
  rewrite (proj2 (mapM_outcome_Ok (vertex b) ts tspecs)), bind_Ok by (eapply Forall2_impl; [exact Ets|]; intros t s Et; unfold vertex; by rewrite Et).
  fold name. rewrite (chain_Ok _ _ name Hhead), bind_Ok. set (spec := with_operator _ name rspec).
  assert (Hid : vs_id spec = r) by (apply (valid_vertex _ _ _ Hval r rspec); by apply dict_get_In).
  assert (Hrk : r ∈ (b_vertices b).*1) by (apply dict_get_In in Er; apply list_elem_of_fmap; by exists (r, rspec)).
  unfold replace_vertex, set_vertex. rewrite Hid, bool_decide_eq_true_2, bind_Ok by done.
  set (b1 := mkBuilder (b_job b) (b_config b) (dict_set r spec (b_vertices b)) (b_edges b)).
  assert (Hk1 : NoDup (b_vertices b1).*1) by (apply NoDup_dict_set, (wf_keys b Hw)).
  assert (Hin1 : ∀ v, v ∈ (b_vertices b).*1 → v ∈ (b_vertices b1).*1) by (intros v Hv; apply elem_of_dict_set_keys; auto).
  assert (Htk : ∀ t, t ∈ ts → t ∈ (b_vertices b).*1).
  { intros t Ht. destruct (Forall2_elem_of_l _ _ _ t Ets Ht) as (s & _ & Es%dict_get_In). apply list_elem_of_fmap. by exists (t, s). }
  assert (Hrt : ∀ t, t ∈ ts → (r, t) ∈ pairs_of (b_edges b)) by (intros t Ht; apply elem_of_downstream; by rewrite Hds).
  destruct ts as [|t [|t' ts']]; [done| |].
  - assert (Hnt : r ≠ t) by (intros ->; apply Hr; by left). clear Hshape.
    set (l := filter (λ e, es_source e = t) (b_edges b)). change (downstream b1 t) with (es_target <$> l).
    assert (Hlt : ∀ e, e ∈ l → es_target e ≠ t).
    { intros e [Es He]%list_elem_of_filter E. pose proof (edge_rank b e Hw He) as Hrank. rewrite Es, E in Hrank. lia. }
    rewrite (rewire_loop r t l b1 Hnt); [rewrite bind_Ok|apply Hval|by apply Hin1| |done|].
    + unfold remove_edge. destruct (edge_exists (mkBuilder (b_job b1) (b_config b1) (b_vertices b1) (filter (λ e, es_source e ≠ t) (b_edges b1) ++ (retarget r <$> l))) r t)
        as [x ->].
      { specialize (Hrt t ltac:(by left)). apply list_elem_of_fmap in Hrt as (x & [= Ex Ey] & Hx). cbn. unfold pairs_of. rewrite fmap_app. apply elem_of_app. left.
        apply list_elem_of_fmap. exists x. split; [unfold es_pair; congruence|]. apply list_elem_of_filter. split; [congruence|done]. }
      rewrite bind_Ok. unfold remove_vertex. cbn [b_vertices b_edges b_job b_config]. rewrite bool_decide_eq_true_2 by (apply Hin1, Htk; by left).
      rewrite (dict_pop_filter t _ Hk1). unfold fused. do 2 f_equal.
      * apply filter_ext_in. intros y _. by rewrite list_elem_of_singleton.
      * unfold fused_edges. rewrite !filter_app. f_equal.
        -- rewrite !list_filter_filter. apply filter_ext_in. intros y _. rewrite !list_elem_of_singleton. unfold es_pair. split; [tauto|].
           intros [? ?]. split_and!; try done. intros E. injection E. done.
        -- rewrite list_filter_filter. rewrite filter_all.
           ++ subst l. f_equal. apply filter_ext_in. intros y _. by rewrite list_elem_of_singleton.
           ++ intros y (e & -> & He)%list_elem_of_fmap. cbn. pose proof (Hlt e He). unfold es_pair. cbn. split_and!; [done|done|congruence].
    + intros e He. apply Hin1. by apply (valid_ends _ _ _ Hval e He).
    + intros e He Hin. apply (elem_of_downstream b r (es_target e)) in Hin. rewrite Hds in Hin. apply list_elem_of_singleton in Hin. by apply (Hlt e He).
  - destruct Hshape as [[x Hx]|Hleaf]; [done|]. set (ts := t :: t' :: ts') in *.
    rewrite (absorb_loop r ts b1); [|rewrite <-Hds; by apply NoDup_downstream|done|intros u Hu; by apply Hin1, Htk|done|done].
    unfold fused. do 2 f_equal. unfold fused_edges. rewrite (filter_none (λ e, es_source e ∈ ts)); [cbn; by rewrite app_nil_r|]. intros e He. by apply Hleaf.
Qed.

(** ** What a fusion leaves as it was *)

Section fusion.
Context b r ts spec (rspec : VertexSpec) (Hw : wf b) (Hf : fusable b r ts).
Context (Er : dict_get r (b_vertices b) = Some rspec).
Context (Hid : vs_id spec = r) (Hnode : vs_node_type spec = vs_node_type rspec) (Hsource : is_source spec = is_source rspec).

Abbreviation b' := (fused b r ts spec).

Lemma fused_get v : dict_get v (b_vertices b') = if decide (v ∈ ts) then None else if decide (r = v) then Some spec else dict_get v (b_vertices b).
Proof using.
  cbn. unfold fused_vertices. etrans; [exact (dict_get_filter (λ k, k ∉ ts) v _)|]. rewrite dict_get_set. destruct (decide (v ∈ ts)); [by rewrite decide_False by tauto|by rewrite decide_True].
Qed.

Lemma fused_keys v : v ∈ (b_vertices b').*1 ↔ v ∈ (b_vertices b).*1 ∧ v ∉ ts.
Proof using Er.
  destruct (decide (v ∈ (b_vertices b').*1)) as [Hv|Hv].
  - split; [|done]. intros _. destruct (dict_get_key v _ Hv) as (s & Es & _). rewrite fused_get in Es. destruct (decide (v ∈ ts)); [done|].
    split; [|done]. apply list_elem_of_fmap. destruct (decide (r = v)) as [<-|]; [exists (r, rspec)|exists (v, s)]; (split; [done|by apply dict_get_In]).
  - split; [done|]. intros [Hin Hts]. exfalso. apply Hv. apply dict_get_None in Hv. rewrite fused_get in Hv. rewrite decide_False in Hv by done.
    destruct (decide (r = v)); [done|]. by apply dict_get_None in Hv.
Qed.

Lemma NoDup_fused : NoDup (b_vertices b').*1.
Proof using Hw.
  cbn. unfold fused_vertices. eapply sublist_NoDup; [exact (NoDup_dict_set r spec _ (wf_keys b Hw))|]. apply fmap_sublist, filter_sublist.
Qed.

(** An output of an absorbed operator. *)
Lemma absorbed_output e : e ∈ b_edges b → es_source e ∈ ts → es_target e ∉ ts ∧ es_target e ≠ r.
Proof using Hw Hf.
  intros He Hs. pose proof (edge_rank b e Hw He) as H1. split.
  - intros Ht. apply (fu_only b r ts Hf e He) in Ht. rewrite Ht in Hs. by apply (target_not_root b r ts Hw Hf).
  - intros Et. rewrite <-(fu_targets b r ts Hf), elem_of_downstream in Hs. apply (wf_rank b Hw) in Hs. rewrite Et in H1. lia.
Qed.

Lemma elem_of_fused_edges e :
  e ∈ b_edges b' ↔ (e ∈ b_edges b ∧ es_source e ∉ ts ∧ es_target e ∉ ts) ∨ ∃ x : EdgeSpec, x ∈ b_edges b ∧ es_source x ∈ ts ∧ e = retarget r x.
Proof using.
  cbn. unfold fused_edges. rewrite elem_of_app, list_elem_of_filter, list_elem_of_fmap. setoid_rewrite list_elem_of_filter. clear. naive_solver.
Qed.

Lemma downstream_other y : y ≠ r → y ∉ ts → downstream b' y = downstream b y.
Proof using Hf.
  intros Hr Hts. unfold downstream. cbn. unfold fused_edges. rewrite filter_app, fmap_app, (filter_none (λ e, es_source e = y) (retarget r <$> _)).
  - cbn. rewrite app_nil_r, list_filter_filter. f_equal. apply filter_ext_in. intros e He. split; [tauto|]. intros <-. split_and!; [done..|].
    intros Ht. by apply Hr, (fu_only b r ts Hf e).
  - intros e (d & -> & _)%list_elem_of_fmap E. by apply Hr.
Qed.

Lemma downstream_root : downstream b' r = es_target <$> filter (λ e, es_source e ∈ ts) (b_edges b).
Proof using Hf.
  unfold downstream. cbn. unfold fused_edges. rewrite filter_app, fmap_app, (filter_none (λ e, es_source e = r) (filter _ _)), filter_all.
  - cbn. rewrite <-list_fmap_compose. done.
  - by intros e (d & -> & _)%list_elem_of_fmap.
  - intros e [[_ Ht] He]%list_elem_of_filter Es. apply Ht. rewrite <-(fu_targets b r ts Hf), elem_of_downstream. rewrite <-Es. apply list_elem_of_fmap. by exists e.
Qed.

Lemma fused_flows u v : flows (pairs_of (b_edges b')) u v →
  flows (pairs_of (b_edges b)) u v ∨ (u = r ∧ ∃ t, t ∈ ts ∧ flows (pairs_of (b_edges b)) r t ∧ flows (pairs_of (b_edges b)) t v).
Proof using Hf.
  intros (e & [= -> ->] & He)%list_elem_of_fmap. apply elem_of_fused_edges in He as [[He _]|(d & Hd & Hs & ->)].
  - left. apply list_elem_of_fmap. by exists e.
  - right. split; [done|]. exists (es_source d). split_and!; [done| |cbn; apply list_elem_of_fmap; by exists d].
    by rewrite <-elem_of_downstream, (fu_targets b r ts Hf).
Qed.

Lemma length_upstream v : v ∉ ts → length (upstream b' v) = length (upstream b v).
Proof using Hf.
  intros Hv. unfold upstream. cbn. unfold fused_edges. rewrite !length_fmap, filter_app, length_app. clear -Hv.
  induction (b_edges b) as [|e l IH]; [done|]. rewrite !filter_cons. destruct (decide (es_source e ∈ ts)) as [Hs|Hs].
  - rewrite (decide_False (P := es_source e ∉ ts ∧ _)) by tauto. cbn [fmap list_fmap]. rewrite filter_cons. cbn [es_target retarget].
    destruct (decide (es_target e = v)); cbn [length]; lia.
  - destruct (decide (es_target e = v)) as [Et|Et].
    + rewrite decide_True by (by rewrite Et). rewrite filter_cons, decide_True by done. cbn [length]. lia.
    + case_decide; [rewrite filter_cons, decide_False by done|]; lia.
Qed.

Lemma wf_fused : wf b'.
Proof using Hw Hf Er Hid Hnode Hsource.
  pose proof (wf_valid b Hw) as [V1 V2 V3 V4 V5 V6]. assert (Hrank : ∀ u v, flows (pairs_of (b_edges b')) u v → (rank u < rank v)%nat).
  { intros u v [H1|(-> & t & _ & H1 & H2)]%fused_flows; [by apply (wf_rank b Hw)|]. apply (wf_rank b Hw) in H1, H2. lia. }
  assert (Hin : ∀ v s, (v, s) ∈ b_vertices b' → v ∉ ts ∧ ((v = r ∧ s = spec) ∨ (v ≠ r ∧ (v, s) ∈ b_vertices b))).
  { intros v s Hv. apply (dict_get_Some _ _ _ NoDup_fused) in Hv. rewrite fused_get in Hv. destruct (decide (v ∈ ts)); [done|]. split; [done|].
    destruct (decide (r = v)) as [<-|]; [left; split; congruence|right; split; [done|by apply dict_get_In]]. }
  pose proof (dict_get_In _ _ _ Er) as Hrin.
  assert (Hinput : ∀ v, v ∉ ts → (∀ u, ¬ flows (pairs_of (b_edges b')) u v) ↔ (∀ u, ¬ flows (pairs_of (b_edges b)) u v)).
  { intros v Hv. pose proof (length_upstream v Hv) as Hlen. setoid_rewrite <-elem_of_upstream. split; intros Hno u Hu.
    - destruct (upstream b v); [by apply not_elem_of_nil in Hu|]. destruct (upstream b' v) as [|x xs] eqn:E; [done|]. apply (Hno x). by left.
    - destruct (upstream b' v); [by apply not_elem_of_nil in Hu|]. destruct (upstream b v) as [|x xs] eqn:E; [done|]. apply (Hno x). by left. }
  split; [split|by apply NoDup_fused|done].
  - done.
  - cbn [b_job fused]. intros v s [_ [[-> ->]|[_ Hv]]]%Hin; [|by apply V2]. destruct (V2 r rspec Hrin) as (_ & Hj & Hn). by rewrite Hnode, Hsource.
  - intros e He. rewrite !fused_keys. apply elem_of_fused_edges in He as [(He & ? & ?)|(d & Hd & Hs & ->)].
    + destruct (V3 e He). done.
    + destruct (absorbed_output d Hd Hs). destruct (V3 d Hd). cbn. split_and!; [apply list_elem_of_fmap; by exists (r, rspec)|by apply target_not_root with (b := b)|done|done].
  - cbn. unfold fused_edges, pairs_of. rewrite fmap_app. apply NoDup_app. split_and!.
    + eapply sublist_NoDup; [exact V4|]. apply fmap_sublist, filter_sublist.
    + intros p (e & -> & [[_ Ht] He]%list_elem_of_filter)%list_elem_of_fmap. rewrite <-list_fmap_compose. intros (d & E & _)%list_elem_of_fmap.
      unfold es_pair in E. cbn in E. injection E as Es _. apply Ht. rewrite <-(fu_targets b r ts Hf), elem_of_downstream. rewrite <-Es. apply list_elem_of_fmap. by exists e.
    + rewrite <-list_fmap_compose. apply NoDup_fmap_2_strong.
      * intros x y [Hx Hxin]%list_elem_of_filter [Hy Hyin]%list_elem_of_filter [= E]. destruct (fu_shape b r ts Hf) as [[t ->]|Hleaf]; [|by destruct (Hleaf x)].
        apply list_elem_of_singleton in Hx, Hy. apply (pairs_inj (b_edges b)); [done..|]. unfold es_pair. congruence.
      * apply NoDup_filter. by apply (NoDup_fmap_1 es_pair).
  - intros v s [Hv [[-> ->]|[_ Hin']]]%Hin; rewrite Hinput by done; [rewrite Hsource|]; by apply V5.
  - intros v Hv. assert (Htc : ∀ x y, tc (flows (pairs_of (b_edges b'))) x y → (rank x < rank y)%nat).
    { intros x y. induction 1 as [x y Hxy|x y z Hxy _ IH]; [by apply Hrank|]. apply Hrank in Hxy. lia. }
    apply Htc in Hv. lia.
Qed.
End fusion.

(** ** The dataflow *)

Lemma flat_map_ext_in {B C} (f g : B → list C) (l : list B) : (∀ x, x ∈ l → f x = g x) → flat_map f l = flat_map g l.
Proof.
  intros Hfg. induction l as [|x l IH]; [done|]. cbn. rewrite Hfg by (by left). f_equal. apply IH. intros y ?. apply Hfg. by right.
Qed.

Section dataflow.
Context b r ts (rspec : VertexSpec) (tspecs : list VertexSpec) (name : string) (Hw : wf b) (Hf : fusable b r ts).
Context (Er : dict_get r (b_vertices b) = Some rspec) (Ets : Forall2 (λ t s, dict_get t (b_vertices b) = Some s) ts tspecs).
Context (Hfwd : ∀ e, e ∈ b_edges b → es_source e = r → is_forward (es_partitioner e) = true).

Let o := chain_operator (vs_operator rspec) (vs_operator <$> tspecs) name.
Let spec := with_operator o name rspec.

Definition others : list (VertexId * VertexSpec) := filter (λ x, x.1 ≠ r ∧ x.1 ∉ ts) (b_vertices b).

Lemma vertices_before : b_vertices b ≡ₚ (r, rspec) :: zip ts tspecs ++ others.
Proof using Hw Hf Er Ets.
  pose proof (target_not_root b r ts Hw Hf) as Hr. pose proof (wf_keys b Hw) as Hnd.
  assert (Hts : NoDup ts) by (rewrite <-(fu_targets b r ts Hf); by apply NoDup_downstream).
  assert (Hzip : ∀ t s, (t, s) ∈ zip ts tspecs ↔ t ∈ ts ∧ dict_get t (b_vertices b) = Some s).
  { pose proof Ets as Hall. clear -Hall. intros t s. induction Hall as [|t' s' ts tspecs Et _ IH]; cbn; [split; [by intros ?%not_elem_of_nil|by intros [?%not_elem_of_nil _]]|].
    rewrite !elem_of_cons, IH. split; [intros [[= -> ->]|[? ?]]; auto|]. intros [[->|?] E]; [left; congruence|by right]. }
  assert (Hzk : (zip ts tspecs).*1 = ts) by (apply fst_zip; by rewrite (Forall2_length _ _ _ Ets)).
  apply NoDup_Permutation.
  - by apply (NoDup_fmap_1 fst).
  - apply (NoDup_fmap_1 fst). cbn. rewrite fmap_app, Hzk. apply NoDup_cons. split.
    + rewrite elem_of_app. intros [?|([u s] & E & [[Hu _] _]%list_elem_of_filter)%list_elem_of_fmap]; [done|]. by apply Hu.
    + apply NoDup_app. split_and!; [done| |eapply sublist_NoDup; [exact Hnd|apply fmap_sublist, filter_sublist]].
      intros t Ht ([u s] & -> & [[_ Hu] _]%list_elem_of_filter)%list_elem_of_fmap. done.
  - intros [v s]. rewrite elem_of_cons, elem_of_app, Hzip. unfold others. rewrite list_elem_of_filter. cbn. rewrite <-!(dict_get_Some v s _ Hnd). split.
    + intros Ev. destruct (decide (v = r)) as [->|Hvr]; [left; congruence|right]. destruct (decide (v ∈ ts)); auto.
    + by intros [[= -> ->]|[[_ ?]|[_ ?]]].
Qed.

Lemma vertices_after : b_vertices (fused b r ts spec) ≡ₚ (r, spec) :: others.
Proof using Hw Hf Er.
  pose proof (target_not_root b r ts Hw Hf) as Hr. pose proof (wf_keys b Hw) as Hnd. pose proof (NoDup_fused b r ts spec Hw) as Hnd'.
  apply NoDup_Permutation.
  - by apply (NoDup_fmap_1 fst).
  - apply NoDup_cons. split; [by intros [[Hu _] _]%list_elem_of_filter|]. apply NoDup_filter. by apply (NoDup_fmap_1 fst).
  - intros [v s]. rewrite elem_of_cons. unfold others. rewrite list_elem_of_filter. cbn [fst]. rewrite <-(dict_get_Some v s _ Hnd), <-(dict_get_Some v s _ Hnd').
    rewrite fused_get. destruct (decide (v ∈ ts)) as [Hv|Hv]; [split; [done|]; intros [[= -> _]|[[_ ?] _]]; done|].
    destruct (decide (r = v)) as [<-|Hne]; [split; [intros [= ->]; by left|intros [[= ->]|[[? _] _]]; done]|].
    split; [intros ?; right; split; [split; congruence|done]|by intros [[= -> _]|[_ ?]]].
Qed.

Lemma flat_map_zip {C} (f : OperatorSpec → list C) : flat_map (λ x : VertexId * VertexSpec, f (vs_operator x.2)) (zip ts tspecs) = flat_map f (vs_operator <$> tspecs).
Proof using Ets. pose proof Ets as Hall. clear -Hall. induction Hall as [|t s l k _ _ IH]; [done|]. cbn. by rewrite IH. Qed.

Lemma flat_operators_fused : flat_operators (b_vertices (fused b r ts spec)) ≡ₚ flat_operators (b_vertices b).
Proof using Hw Hf Er Ets.
  unfold flat_operators. rewrite vertices_before, vertices_after. cbn [flat_map snd]. rewrite flat_map_app, flat_map_zip, app_assoc. done.
Qed.

(** The edges: those of the root, those of the targets, the others. *)
Definition root_edges : list EdgeSpec := filter (λ e, es_source e = r) (b_edges b).
Definition target_edges : list EdgeSpec := filter (λ e, es_source e ∈ ts) (b_edges b).
Definition other_edges : list EdgeSpec := filter (λ e, es_source e ∉ ts ∧ es_target e ∉ ts) (b_edges b).

Lemma root_edge_target e : e ∈ b_edges b → es_source e = r ↔ es_target e ∈ ts.
Proof using Hf.
  intros He. split; [|by apply (fu_only b r ts Hf)]. intros Es. rewrite <-(fu_targets b r ts Hf), elem_of_downstream. apply list_elem_of_fmap. exists e.
  split; [unfold es_pair; congruence|done].
Qed.

Lemma edges_before : b_edges b ≡ₚ root_edges ++ target_edges ++ other_edges.
Proof using Hw Hf.
  pose proof (target_not_root b r ts Hw Hf) as Hr. unfold root_edges, target_edges, other_edges. pose proof root_edge_target as Hrt. clear Hf Ets Hfwd.
  induction (b_edges b) as [|e l IH]; [done|]. specialize (IH (λ x Hx, Hrt x (proj2 (elem_of_cons _ _ _) (or_intror Hx)))).
  specialize (Hrt e ltac:(by left)). rewrite !filter_cons. destruct (decide (es_source e = r)) as [E|E].
  - rewrite (decide_False (P := es_source e ∈ ts)) by congruence. rewrite decide_False by tauto. cbn. by rewrite <-IH.
  - destruct (decide (es_source e ∈ ts)) as [Hs|Hs].
    + rewrite decide_False by tauto. cbn. rewrite <-Permutation_middle. by rewrite <-IH.
    + rewrite decide_True by tauto. rewrite app_assoc, <-Permutation_middle, <-app_assoc. by rewrite <-IH.
Qed.

Lemma entry_chain : entry o = entry (vs_operator rspec).
Proof using. done. Qed.

Lemma flat_other e : e ∈ other_edges → es_source e ≠ r → flat_edge (b_vertices (fused b r ts spec)) e = flat_edge (b_vertices b) e.
Proof using Er.
  intros [[Hs Ht] _]%list_elem_of_filter Hr. unfold flat_edge. rewrite !fused_get, !(decide_False (P := _ ∈ ts)), (decide_False (P := r = es_source e)) by congruence.
  destruct (dict_get (es_source e) (b_vertices b)) as [s|]; [|done]. destruct (decide (r = es_target e)) as [<-|]; [|done]. by rewrite Er.
Qed.

Lemma flat_root : flat_map (flat_edge (b_vertices b)) root_edges = flat_map (λ s, cross (tails (vs_operator rspec)) (entry s) None) (vs_operator <$> tspecs).
Proof using Hf Er Ets Hfwd.
  assert (Hall : Forall2 (λ e s, dict_get (es_target e) (b_vertices b) = Some s) root_edges tspecs).
  { pose proof (fu_targets b r ts Hf) as Hts. unfold downstream in Hts. fold root_edges in Hts. rewrite <-Hts in Ets. by apply Forall2_fmap_l in Ets. }
  assert (Hsrc : ∀ e, e ∈ root_edges → es_source e = r ∧ is_forward (es_partitioner e) = true) by (intros e [? He]%list_elem_of_filter; split; [done|by apply Hfwd]).
  clear spec o Ets Hfwd Hf. induction Hall as [|e s l k Et _ IH]; [done|]. cbn. rewrite IH by (intros ??; apply Hsrc; by right). f_equal.
  destruct (Hsrc e ltac:(by left)) as [Es Ef]. unfold flat_edge, label. by rewrite Es, Er, Et, Ef.
Qed.

Lemma flat_targets : flat_map (flat_edge (b_vertices (fused b r ts spec))) (retarget r <$> target_edges) = flat_map (flat_edge (b_vertices b)) target_edges.
Proof using Hw Hf Er Ets.
  pose proof (target_not_root b r ts Hw Hf) as Hr. rewrite flat_map_concat_map, (flat_map_concat_map _ target_edges). f_equal.
  change (map ?f (?g <$> ?l)) with (f <$> (g <$> l)). rewrite <-list_fmap_compose. apply Forall_fmap_ext_1, Forall_forall.
  intros e He. pose proof He as [Hs Hin]%list_elem_of_filter. destruct (absorbed_output b r ts Hw Hf e Hin Hs) as [Ht Htr].
  unfold compose, flat_edge. cbn [retarget es_source es_target es_partitioner]. rewrite !fused_get, !(decide_False (P := _ ∈ ts)), decide_True, decide_False by congruence.
  destruct (fu_shape b r ts Hf) as [[t Hts]|Hleaf]; [|by destruct (Hleaf e)].
  rewrite Hts in Hs. apply list_elem_of_singleton in Hs as ->. pose proof Ets as Hall. rewrite Hts in Hall.
  destruct tspecs as [|s [|? ?]]; [by inversion Hall| |by inversion Hall as [|???? _ Hn]; inversion Hn].
  apply Forall2_cons in Hall as [Es _]. rewrite Es. destruct (dict_get (es_target e) (b_vertices b)); [|done]. cbn. by rewrite app_nil_r.
Qed.

Lemma flat_edges_fused : flat_edges (b_vertices (fused b r ts spec)) (b_edges (fused b r ts spec)) ≡ₚ flat_edges (b_vertices b) (b_edges b).
Proof using Hw Hf Er Ets Hfwd.
  unfold flat_edges. rewrite vertices_after at 1. rewrite vertices_before at 1. rewrite edges_before.
  assert (Hedges : b_edges (fused b r ts spec) = other_edges ++ (retarget r <$> target_edges)) by done. rewrite Hedges. clear Hedges.
  rewrite !flat_map_app, flat_targets, flat_root. cbn [flat_map snd]. rewrite flat_map_app, (flat_map_zip inner).
  rewrite (flat_map_ext_in (flat_edge (b_vertices (fused b r ts spec))) (flat_edge (b_vertices b)) other_edges).
  2:{ intros e He. apply flat_other; [done|]. intros Es. apply list_elem_of_filter in He as [[_ Ht] He]. apply Ht. by apply root_edge_target. }
  change (vs_operator spec) with o. assert (Hinner : inner o = (inner (vs_operator rspec) ++ flat_map inner (vs_operator <$> tspecs)) ++
    flat_map (λ s, cross (A := A) (tails (vs_operator rspec)) (entry s) None) (vs_operator <$> tspecs)) by done.
  rewrite Hinner. solve_Permutation.
Qed.
End dataflow.
End chaining.
