(* ===== verification/ChainTraversal.v ===== *)
(** * The traversal of the chaining rule

    Every operator is fused at most once, after all operators behind it have settled; so no
    chain starts with a chain, no operator is lost, and the rule never raises on a graph
    whose FORWARD edges leave sources and operators of one input. *)
From Stdlib Require Import QArith.Qcanon.
From S2P Require Import Prelude Dicts KeyGroups Rows InputBatching Partitioning Graphs Plans LogicalGraph Optimizer Chaining.
Open Scope Z_scope.

Lemma forallb_ext_elem {B} (f g : B → bool) (l : list B) : (∀ x, x ∈ l → f x = g x) → forallb f l = forallb g l.
Proof.
  intros Hfg. induction l as [|x l IH]; [done|]. cbn. rewrite Hfg by (by left). f_equal. apply IH. intros y ?. apply Hfg. by right.
Qed.

Lemma non_nil_elem {B} (l : list B) : l ≠ [] → ∃ x, x ∈ l.
Proof. destruct l as [|x l]; [done|]. exists x. by left. Qed.

Section traversal.
Context {F P A : Type} `{!Recipes F P A}.
Abbreviation OperatorSpec := (OperatorSpec F P).
Abbreviation VertexSpec := (VertexSpec F P).
Abbreviation EdgeSpec := (EdgeSpec A).
Abbreviation Builder := (LogicalGraphBuilder F P A).
Context (rank : VertexId → nat).
Abbreviation wf := (wf rank).
Implicit Types (b : Builder) (r v u d t x y : VertexId) (e : EdgeSpec) (spec : VertexSpec).

(** ** The decision of the rule, as a function *)

Definition fits_chain (xs ts : VertexSpec) : bool := quiet (vs_operator xs) && quiet (vs_operator ts) && execution_contract_matches xs ts.

Definition chainable b x t : bool :=
  match edge b x t, dict_get x (b_vertices b), dict_get t (b_vertices b) with
  | Some e, Some xs, Some ts => is_forward (es_partitioner e) && negb (1 <? length (upstream b t))%nat && fits_chain xs ts
  | _, _, _ => false
  end.

Definition is_leaf b t : bool := bool_decide (downstream b t = []).

Definition wants b x : bool :=
  match downstream b x with
  | [t] => chainable b x t
  | ts => forallb (λ t, is_leaf b t && chainable b x t) ts
  end.

Lemma flows_lookup b x t : wf b → flows (pairs_of (b_edges b)) x t →
  ∃ e xs ts, edge b x t = Some e ∧ e ∈ b_edges b ∧ es_source e = x ∧ es_target e = t ∧ dict_get x (b_vertices b) = Some xs ∧ dict_get t (b_vertices b) = Some ts.
Proof.
  intros Hw (e & [= -> ->] & He)%list_elem_of_fmap. pose proof (wf_valid rank b Hw) as Hval. destruct (valid_ends _ _ _ Hval e He) as [Hx Ht].
  destruct (dict_get_key _ _ Hx) as (xs & Ex & _), (dict_get_key _ _ Ht) as (ts & Et & _). exists e, xs, ts.
  split_and!; try done. apply edge_lookup; [apply Hval|done].
Qed.

Lemma can_chain_eq b x t : wf b → flows (pairs_of (b_edges b)) x t → can_chain b x t (edge b x t) = Ok (chainable b x t).
Proof.
  intros Hw Hxt. destruct (flows_lookup b x t Hw Hxt) as (e & xs & ts & Ee & _ & _ & _ & Ex & Et). unfold can_chain, chainable, fits_chain, quiet, vertex.
  rewrite Ee, Ex, Et. destruct (is_forward _); [|done]. destruct (1 <? _)%nat; [done|]. cbn [negb andb of_option]. rewrite !bind_Ok.
  destruct (stateful (vs_operator xs)), (stateful (vs_operator ts)), (async_enabled (runtime_info (vs_operator xs))), (async_enabled (runtime_info (vs_operator ts))); done.
Qed.

Lemma all_leaves_eq b x (ts : list VertexId) : wf b → (∀ t, t ∈ ts → flows (pairs_of (b_edges b)) x t) →
  all_chainable_leaves b x ts = Ok (forallb (λ t, is_leaf b t && chainable b x t) ts).
Proof.
  intros Hw. induction ts as [|t ts IH]; intros Hts; [done|]. cbn [all_chainable_leaves forallb]. unfold is_leaf at 1.
  destruct (downstream b t); [|done]. rewrite can_chain_eq by (done || (apply Hts; by left)). rewrite bind_Ok, bool_decide_eq_true_2 by done. cbn [andb].
  destruct (chainable b x t); [|done]. apply IH. intros u ?. apply Hts. by right.
Qed.

Lemma fuse_eq b x : wf b → fuse b x = if wants b x then chain_vertices b x (downstream b x) else Ok b.
Proof.
  intros Hw. unfold fuse, wants. assert (Hd : ∀ t, t ∈ downstream b x → flows (pairs_of (b_edges b)) x t) by (intros t; apply elem_of_downstream).
  destruct (downstream b x) as [|t [|t' ts]].
  - done.
  - rewrite can_chain_eq, bind_Ok by (done || (apply Hd; by left)). done.
  - rewrite all_leaves_eq by done. rewrite bind_Ok. done.
Qed.

(** Nothing is left to do at a vertex. *)
Definition settled b x : Prop := downstream b x = [] ∨ wants b x = false.

Lemma chainable_facts b x t : wf b → chainable b x t = true → ∃ e xs ts, edge b x t = Some e ∧ dict_get x (b_vertices b) = Some xs ∧
  dict_get t (b_vertices b) = Some ts ∧ is_forward (es_partitioner e) = true ∧ (length (upstream b t) <= 1)%nat ∧ fits_chain xs ts = true.
Proof.
  intros Hw. unfold chainable. destruct (edge b x t) as [e|]; [|done]. destruct (dict_get x _) as [xs|]; [|done]. destruct (dict_get t _) as [ts|]; [|done].
  intros [[? H2%negb_true_iff]%andb_true_iff ?]%andb_true_iff. apply Nat.ltb_ge in H2. by exists e, xs, ts.
Qed.

Lemma wants_each b x t : wants b x = true → t ∈ downstream b x → chainable b x t = true.
Proof.
  unfold wants. destruct (downstream b x) as [|t1 [|t2 ts]]; intros Hwants Ht; [by apply not_elem_of_nil in Ht|by apply list_elem_of_singleton in Ht as ->|].
  rewrite forallb_forall in Hwants. apply list_elem_of_In, Hwants in Ht. by apply andb_true_iff in Ht as [_ ?].
Qed.

Lemma wants_fusable b x : wf b → downstream b x ≠ [] → wants b x = true → fusable b x (downstream b x).
Proof.
  intros Hw Hne Hwants. split; [done|done| |].
  - intros e He Ht. destruct (chainable_facts b x _ Hw (wants_each b x _ Hwants Ht)) as (_ & _ & _ & _ & _ & _ & _ & Hlen & _).
    assert (H1 : es_source e ∈ upstream b (es_target e)) by (apply elem_of_upstream, list_elem_of_fmap; by exists e).
    assert (H2 : x ∈ upstream b (es_target e)) by (apply elem_of_upstream; by apply elem_of_downstream).
    destruct (upstream b (es_target e)) as [|u [|? ?]]; [by apply not_elem_of_nil in H1| |cbn in Hlen; lia].
    apply list_elem_of_singleton in H1, H2. congruence.
  - unfold wants in Hwants. destruct (downstream b x) as [|t [|t' ts]]; [done|left; by exists t|right].
    intros e He Hs. rewrite forallb_forall in Hwants. apply list_elem_of_In, Hwants in Hs. apply andb_true_iff in Hs as [Hs _].
    unfold is_leaf in Hs. apply bool_decide_eq_true_1 in Hs. assert (Hin : es_target e ∈ downstream b (es_source e)).
    { apply elem_of_downstream, list_elem_of_fmap. by exists e. }
    rewrite Hs in Hin. by apply not_elem_of_nil in Hin.
Qed.

(** ** What a fusion does to the decisions *)

Section after.
Context b r (ts : list VertexId) (spec rspec : VertexSpec) (Hw : wf b) (Hf : fusable b r ts).
Context (Er : dict_get r (b_vertices b) = Some rspec).
Abbreviation b' := (fused b r ts spec).

Lemma edge_other y d : y ≠ r → y ∉ ts → edge b' y d = edge b y d.
Proof using Hf.
  intros Hr Hts. unfold edge. cbn. unfold fused_edges. rewrite filter_app, (filter_none (λ e, es_pair e = (y, d)) (retarget r <$> _)), app_nil_r.
  - rewrite list_filter_filter. f_equal. apply filter_ext_in. intros e He. split; [tauto|]. intros E. pose proof E as [= Es _]. rewrite Es. split_and!; [done..|].
    intros Ht. apply Hr. by rewrite <-(fu_only b r ts Hf e He Ht).
  - intros e (x & -> & _)%list_elem_of_fmap [= E _]. by apply Hr.
Qed.

Lemma chainable_other y d : y ≠ r → y ∉ ts → d ≠ r → d ∉ ts → chainable b' y d = chainable b y d.
Proof using Hf.
  intros Hyr Hyt Hdr Hdt. unfold chainable. rewrite edge_other, !fused_get, !(decide_False (P := _ ∈ ts)), !decide_False by congruence.
  by rewrite (length_upstream b r ts spec Hf d Hdt).
Qed.

Lemma wants_other y : y ∈ (b_vertices b').*1 → y ≠ r → r ∉ downstream b y → wants b' y = wants b y.
Proof using Hf Er Hw.
  intros Hy Hr Hin. apply (fused_keys b r ts spec rspec Er) in Hy as [_ Hts]. unfold wants. rewrite (downstream_other b r ts spec Hf) by done.
  assert (Hall : ∀ d, d ∈ downstream b y → d ≠ r ∧ d ∉ ts).
  { intros d Hd. split; [by intros ->|]. intros Ht. apply Hr. apply elem_of_downstream in Hd. apply list_elem_of_fmap in Hd as (e & [= -> ->] & He).
    by apply (fu_only b r ts Hf e He). }
  assert (Heach : ∀ d, d ∈ downstream b y → is_leaf b' d && chainable b' y d = is_leaf b d && chainable b y d).
  { intros d Hd. destruct (Hall d Hd). unfold is_leaf. by rewrite (downstream_other b r ts spec Hf), chainable_other by done. }
  destruct (downstream b y) as [|d [|d' ds]]; [done| |].
  - destruct (Hall d ltac:(by left)). by apply chainable_other.
  - by apply forallb_ext_elem.
Qed.

Lemma settled_other y : y ∈ (b_vertices b').*1 → y ≠ r → r ∉ downstream b y → settled b y → settled b' y.
Proof using Hf Er Hw.
  intros Hy Hr Hin. pose proof Hy as [_ Hts]%(fused_keys b r ts spec rspec Er). unfold settled.
  rewrite (downstream_other b r ts spec Hf), wants_other by done. done.
Qed.
End after.

(** The fused operator behaves as its parts did. *)
Section fused_root.
Context b r (rspec : VertexSpec) (tspecs : list VertexSpec) (name : string) (Hw : wf b).
Let ts := downstream b r.
Context (Hne : ts ≠ []) (Hwants : wants b r = true).
Context (Er : dict_get r (b_vertices b) = Some rspec) (Ets : Forall2 (λ t s, dict_get t (b_vertices b) = Some s) ts tspecs).

Let o := chain_operator (vs_operator rspec) (vs_operator <$> tspecs) name.
Let spec := with_operator o name rspec.
Let b' := fused b r ts spec.

Lemma root_fits : Forall (λ s, fits_chain rspec s = true) tspecs.
Proof using Hw Hwants Er Ets.
  apply Forall_forall. intros s Hs. destruct (Forall2_elem_of_r _ _ _ s Ets Hs) as (t & Ht & Es).
  destruct (chainable_facts b r t Hw (wants_each b r t Hwants Ht)) as (e & xs & tv & _ & Ex & Et & _ & _ & Hfits). congruence.
Qed.

Lemma root_quiet : quiet (vs_operator rspec) = true ∧ Forall (λ s, quiet (vs_operator s) = true) tspecs.
Proof using Hw Hne Hwants Er Ets.
  pose proof root_fits as Hall. split.
  - destruct (non_nil_elem _ Hne) as [t Ht]. destruct (Forall2_elem_of_l _ _ _ t Ets Ht) as (s & Hs & _).
    rewrite Forall_forall in Hall. specialize (Hall s Hs). unfold fits_chain in Hall. by destruct (quiet (vs_operator rspec)).
  - eapply Forall_impl; [exact Hall|]. intros s Hs. unfold fits_chain in Hs. rewrite !andb_true_iff in Hs. tauto.
Qed.

Lemma chain_stateless : stateful o = false.
Proof using Hw Hne Hwants Er Ets.
  destruct root_quiet as [[Hr _]%andb_true_iff Hts]. apply negb_true_iff in Hr.
  assert (Hex : existsb stateful (vs_operator <$> tspecs) = false).
  { clear -Hts. induction Hts as [|s l [Hs _]%andb_true_iff _ IH]; [done|]. cbn. by rewrite IH, (proj1 (negb_true_iff _) Hs). }
  unfold o, chain_operator. cbn [stateful]. rewrite Hr, Hex. cbn.
  rewrite Hr. cbn [orb]. clear -Hex. induction (vs_operator <$> tspecs) as [|x l IH]; [done|]. cbn in Hex. apply orb_false_iff in Hex as [-> Hex]. by apply IH.
Qed.

Lemma chain_quiet : quiet o = true.
Proof using Hw Hne Hwants Er Ets.
  unfold quiet. rewrite chain_stateless. destruct root_quiet as [[_ Hr]%andb_true_iff _]. done.
Qed.

Lemma fits_after (q : VertexSpec) : fits_chain q spec = fits_chain q rspec.
Proof using Hw Hne Hwants Er Ets.
  unfold fits_chain. rewrite (proj1 root_quiet). unfold spec. cbn [vs_operator with_operator]. by rewrite chain_quiet.
Qed.

Lemma fits_from (s q : VertexSpec) : s ∈ tspecs → fits_chain spec q = fits_chain s q.
Proof using Hw Hne Hwants Er Ets.
  intros Hs. pose proof root_fits as Hall. rewrite Forall_forall in Hall. specialize (Hall s Hs).
  destruct root_quiet as [_ Hq]. rewrite Forall_forall in Hq. specialize (Hq s Hs).
  unfold fits_chain in *. rewrite Hq. unfold spec at 1. cbn [vs_operator with_operator]. rewrite chain_quiet. f_equal.
  rewrite !andb_true_iff in Hall. destruct Hall as [_ Hc]. unfold execution_contract_matches in *. rewrite !andb_true_iff in Hc.
  destruct Hc as [[[[E1 E2] E3] E4] E5]. apply bool_decide_eq_true_1 in E1, E2, E4, E5. apply Z.eqb_eq in E3. unfold vs_concurrency in *.
  change (vs_resources spec) with (vs_resources rspec). change (vs_batch_size spec) with (vs_batch_size rspec).
  change (vs_async_buffer_size spec) with (vs_async_buffer_size rspec). by rewrite E1, E2, E3, E4, E5.
Qed.

Lemma wf_after : wf b'.
Proof using Hw Hne Hwants Er.
  apply (wf_fused rank b r ts spec rspec Hw); try done; [by apply wants_fusable|].
  pose proof (wf_valid rank b Hw) as Hval. by apply (valid_vertex _ _ _ Hval r rspec), dict_get_In.
Qed.

Lemma settled_root : (∀ t, t ∈ ts → settled b t) → settled b' r.
Proof using Hw Hne Hwants Er Ets.
  intros Hts. pose proof (wants_fusable b r Hw Hne Hwants) as Hf. fold ts in Hf. pose proof (downstream_root b r ts spec Hf) as Hdown. fold b' in Hdown.
  destruct (fu_shape b r ts Hf) as [[t Et]|Hleaf].
  2:{ left. rewrite Hdown, (filter_none _ _ (λ e He, Hleaf e He)). done. }
  assert (Hd : downstream b' r = downstream b t).
  { rewrite Hdown, Et. unfold downstream. f_equal. apply filter_ext_in. intros e _. by rewrite list_elem_of_singleton. }
  destruct (Hts t) as [Hs|Hs]; [rewrite Et; by left|left; by rewrite Hd|]. right. unfold wants. rewrite Hd.
  destruct (Forall2_elem_of_l _ _ _ t Ets) as (s & Hsin & Es); [rewrite Et; by left|].
  assert (Heach : ∀ d, d ∈ downstream b t → is_leaf b' d = is_leaf b d ∧ chainable b' r d = chainable b t d).
  { intros d Hdin. apply elem_of_downstream in Hdin. destruct (flows_lookup b t d Hw Hdin) as (e & xs & tv & Ee & He & Esrc & Etgt & Ex & Etv).
    destruct (absorbed_output rank b r ts Hw Hf e He) as [Hdt Hdr]; [rewrite Esrc, Et; by left|]. rewrite Etgt in Hdt, Hdr.
    split; [unfold is_leaf; by rewrite (downstream_other b r ts spec Hf) by done|].
    unfold chainable. rewrite Ee, Ex, Etv.
    assert (Ee' : edge b' r d = Some (retarget r e)).
    { rewrite <-Etgt. apply (edge_lookup b' (retarget r e)); [apply (wf_valid rank b' wf_after)|]. apply elem_of_fused_edges. right. exists e.
      split_and!; [done| |done]. rewrite Esrc, Et. by left. }
    rewrite Ee'. unfold b'. rewrite !fused_get, !(decide_False (P := _ ∈ ts)), decide_True, decide_False by (done || congruence || by apply (target_not_root rank b)).
    rewrite Etv. rewrite (length_upstream b r ts spec Hf d Hdt). cbn [retarget es_partitioner]. rewrite (fits_from s tv Hsin). congruence. }
  unfold wants in Hs. destruct (downstream b t) as [|d [|d' ds]]; [done| |].
  - destruct (Heach d ltac:(by left)) as [_ ->]. done.
  - etrans; [|exact Hs]. apply forallb_ext_elem. intros z Hz. by destruct (Heach z Hz) as [-> ->].
Qed.
End fused_root.

(** ** The invariant of the traversal *)

(** The FORWARD edges leave operators that a chain can start with. *)
Definition chain_heads b : Prop := ∀ e s, e ∈ b_edges b → is_forward (es_partitioner e) = true →
  dict_get (es_source e) (b_vertices b) = Some s → chain_head (vs_operator s) = true.

(** The vertices in [D] are done: they and all behind them have settled.  Only those can be
    chains. *)
Record progress b (D : gset VertexId) : Prop := {
  pr_wf : wf b;
  pr_heads : chain_heads b;
  pr_done y : y ∈ D → y ∈ (b_vertices b).*1 → settled b y ∧ ∀ d, d ∈ downstream b y → d ∈ D;
  pr_chain v s : dict_get v (b_vertices b) = Some s →
    composable (vs_operator s) = true ∧ (chained (vs_operator s) = true → v ∈ D) ∧ (fans_out (vs_operator s) = true → downstream b v = [])
}.

(** What the traversal changes: nothing outside of [D]. *)
Record step b (b' : Builder) (D : gset VertexId) : Prop := {
  st_operators : flat_operators (b_vertices b') ≡ₚ flat_operators (b_vertices b);
  st_edges : flat_edges (b_vertices b') (b_edges b') ≡ₚ flat_edges (b_vertices b) (b_edges b);
  st_job : b_job b' = b_job b;
  st_config : b_config b' = b_config b;
  st_keys v : v ∈ (b_vertices b').*1 → v ∈ (b_vertices b).*1;
  st_frame y : y ∉ D → downstream b' y = downstream b y ∧ (y ∈ (b_vertices b).*1 → y ∈ (b_vertices b').*1)
}.

Lemma step_refl b D : step b b D.
Proof. by split. Qed.

Lemma step_trans b1 b2 b3 D1 D2 : step b1 b2 D1 → step b2 b3 D2 → D1 ⊆ D2 → step b1 b3 D2.
Proof.
  intros [A1 A2 A3 A4 A5 A6] [B1 B2 B3 B4 B5 B6] Hsub. split; [by rewrite B1|by rewrite B2|congruence|congruence|auto|].
  intros y Hy. destruct (A6 y) as [E1 K1]; [set_solver|]. destruct (B6 y Hy) as [E2 K2]. split; [congruence|auto].
Qed.

Lemma progress_settle b D r : progress b D → settled b r → (∀ d, d ∈ downstream b r → d ∈ D) → progress b ({[r]} ∪ D).
Proof.
  intros [Hw Hh Hd Hc] Hs Hr. split; [done|done| |].
  - intros y Hy Hk. destruct (decide (y ∈ D)) as [Hin|Hin].
    + destruct (Hd y Hin Hk) as [? Hall]. split; [done|]. intros d ?%Hall. set_solver.
    + assert (y = r) as -> by set_solver. split; [done|]. intros d ?%Hr. set_solver.
  - intros v s Ev. destruct (Hc v s Ev) as (? & Hch & ?). split_and!; [done| |done]. intros ?%Hch. set_solver.
Qed.

(** The composition of a new chain. *)
Lemma chain_composable (ro : OperatorSpec) (succ : list OperatorSpec) name :
  chained ro = false → chain_head ro = true → succ ≠ [] → quiet ro = true → Forall (λ s, quiet s = true) succ →
  Forall (λ s, composable s = true) succ → composable (chain_operator ro succ name) = true.
Proof.
  intros Hch Hhead Hne Hq Hqs Hcs. unfold chain_operator. cbn [composable]. rewrite Hch, Hhead, bool_decide_eq_false_2 by done. cbn [negb andb forallb].
  rewrite Hq. cbn [andb]. apply andb_true_iff. split; apply forallb_forall; [rewrite Forall_forall in Hqs|rewrite Forall_forall in Hcs];
    intros s Hs%list_elem_of_In; by auto.
Qed.

Lemma chain_fans_out (ro : OperatorSpec) (succ : list OperatorSpec) name :
  fans_out (chain_operator ro succ name) = true → (1 < length succ)%nat ∨ ∃ s, s ∈ succ ∧ fans_out s = true.
Proof.
  unfold chain_operator. cbn [fans_out]. intros [H1%Nat.ltb_lt|(s & Hs%list_elem_of_In & Hf)%existsb_exists]%orb_true_iff; [by left|right; by exists s].
Qed.

Lemma lookup_all b (ts : list VertexId) : (∀ t, t ∈ ts → t ∈ (b_vertices b).*1) → ∃ tspecs, Forall2 (λ t s, dict_get t (b_vertices b) = Some s) ts tspecs.
Proof.
  induction ts as [|t ts IH]; intros Hts; [exists []; constructor|]. destruct (dict_get_key t (b_vertices b)) as (s & Es & _); [apply Hts; by left|].
  destruct IH as [k Hk]; [intros u ?; apply Hts; by right|]. exists (s :: k). by constructor.
Qed.

Lemma wants_forward b r e : wf b → wants b r = true → e ∈ b_edges b → es_source e = r → is_forward (es_partitioner e) = true.
Proof.
  intros Hw Hwants He Es. assert (Hin : es_target e ∈ downstream b r) by (apply elem_of_downstream, list_elem_of_fmap; exists e; split; [unfold es_pair; congruence|done]).
  destruct (chainable_facts b r _ Hw (wants_each b r _ Hwants Hin)) as (e' & _ & _ & Ee' & _ & _ & Hfwd & _).
  rewrite <-Es, (edge_lookup b e) in Ee' by (done || apply (wf_valid rank b Hw)). congruence.
Qed.

Lemma downstream_keys b y d : wf b → d ∈ downstream b y → d ∈ (b_vertices b).*1.
Proof.
  intros Hw (e & [= _ ->] & He)%elem_of_downstream%list_elem_of_fmap. by apply (valid_ends _ _ _ (wf_valid rank b Hw)).
Qed.

Section fuse_step.
Context b (D : gset VertexId) r (rspec : VertexSpec) (tspecs : list VertexSpec) (name : string) (Hp : progress b D) (Hr : r ∉ D).
Context (Hne : downstream b r ≠ []) (Hwants : wants b r = true) (Hts : ∀ t, t ∈ downstream b r → t ∈ D).
Context (Er : dict_get r (b_vertices b) = Some rspec) (Ets : Forall2 (λ t s, dict_get t (b_vertices b) = Some s) (downstream b r) tspecs).
Let ts := downstream b r.
Let spec := with_operator (chain_operator (vs_operator rspec) (vs_operator <$> tspecs) name) name rspec.
Let b' := fused b r ts spec.
Let Hw := pr_wf b D Hp.
Let Hf : fusable b r ts := wants_fusable b r Hw Hne Hwants.

Lemma root_head : chain_head (vs_operator rspec) = true.
Proof using Hp Hne Hwants Er.
  destruct (non_nil_elem _ Hne) as [t Hin]. apply elem_of_downstream in Hin.
  destruct (flows_lookup b r t Hw Hin) as (e & _ & _ & _ & He & Es & _). apply (pr_heads b D Hp e); [done|by apply (wants_forward b r)|by rewrite Es].
Qed.

Lemma fused_heads : chain_heads b'.
Proof using Hp Hne Hwants Er.
  intros e s [(He & Hs & Ht)|(d & Hd & Hs & ->)]%elem_of_fused_edges Hfwd; unfold b'; rewrite fused_get.
  - rewrite decide_False by done. assert (es_source e ≠ r) as Hne' by (by intros E%(root_edge_target b r ts Hf e He)).
    rewrite decide_False by done. intros Es. by apply (pr_heads b D Hp e).
  - cbn [retarget es_source]. rewrite decide_False, decide_True by (done || by apply (target_not_root rank b r ts Hw Hf)). intros [= <-]. exact root_head.
Qed.

Lemma fused_done y : y ∈ ({[r]} ∪ D : gset VertexId) → y ∈ (b_vertices b').*1 → settled b' y ∧ ∀ d, d ∈ downstream b' y → d ∈ ({[r]} ∪ D : gset VertexId).
Proof using Hp Hr Hne Hwants Hts Er Ets.
  intros Hy Hk. destruct (decide (y = r)) as [->|Hyr].
  - split.
    + apply (settled_root b r rspec tspecs name); [done..|]. intros t Ht. apply (pr_done b D Hp); [by apply Hts|by apply (downstream_keys b r)].
    + unfold b'. rewrite (downstream_root b r ts spec Hf). intros d (e & -> & [Hs He]%list_elem_of_filter)%list_elem_of_fmap.
      destruct (pr_done b D Hp (es_source e)) as [_ Hclosed]; [by apply Hts|by apply (downstream_keys b r)|].
      apply elem_of_union_r, Hclosed, elem_of_downstream, list_elem_of_fmap. by exists e.
  - assert (Hin : y ∈ D) by set_solver. pose proof Hk as [Hkb Hyt]%(fused_keys b r ts spec rspec Er). destruct (pr_done b D Hp y Hin Hkb) as [Hs Hclosed].
    split; [apply (settled_other b r ts spec rspec); try done; by intros ?%Hclosed|].
    unfold b'. rewrite (downstream_other b r ts spec Hf) by done. intros d ?%Hclosed. set_solver.
Qed.

Lemma fused_chain v s : dict_get v (b_vertices b') = Some s →
  composable (vs_operator s) = true ∧ (chained (vs_operator s) = true → v ∈ ({[r]} ∪ D : gset VertexId)) ∧ (fans_out (vs_operator s) = true → downstream b' v = []).
Proof using Hp Hr Hne Hwants Hts Er Ets.
  unfold b'. rewrite fused_get. destruct (decide (v ∈ ts)) as [Hv|Hv]; [done|]. destruct (decide (r = v)) as [<-|Hrv]; intros Es.
  - injection Es as <-. cbn [spec vs_operator with_operator]. destruct (pr_chain b D Hp r rspec Er) as (_ & Hch & _).
    destruct (root_quiet b r rspec tspecs Hw Hne Hwants Er Ets) as [Hq Hqs]. split_and!; [|intros _; set_solver|].
    + apply chain_composable; [by destruct (chained (vs_operator rspec)); [destruct Hr; apply Hch|]|exact root_head| |done|by apply Forall_fmap|].
      * intros E. apply fmap_nil_inv in E. apply Hne. apply Forall2_length in Ets. rewrite E in Ets. by apply nil_length_inv.
      * apply Forall_fmap, Forall_forall. intros s Hs. destruct (Forall2_elem_of_r _ _ _ s Ets Hs) as (t & _ & Et). by apply (pr_chain b D Hp t s).
    + rewrite (downstream_root b r ts spec Hf). intros Hfan.
      assert (Hnone : ∀ e, e ∈ b_edges b → es_source e ∉ ts); [|by rewrite (filter_none _ _ Hnone)].
      destruct (fu_shape b r ts Hf) as [[t Et]|Hleaf]; [|done]. intros e He Hs. rewrite Et in Hs. apply list_elem_of_singleton in Hs.
      apply chain_fans_out in Hfan as [Hlen|(x & (s & -> & Hs')%list_elem_of_fmap & Hx)].
      * rewrite length_fmap, <-(Forall2_length _ _ _ Ets) in Hlen. fold ts in Hlen. rewrite Et in Hlen. cbn in Hlen. lia.
      * destruct (Forall2_elem_of_r _ _ _ s Ets Hs') as (t' & Ht' & Es'). fold ts in Ht'. rewrite Et in Ht'. apply list_elem_of_singleton in Ht' as ->.
        destruct (pr_chain b D Hp t s Es') as (_ & _ & Hdown). specialize (Hdown Hx).
        assert (Hin : es_target e ∈ downstream b t) by (apply elem_of_downstream, list_elem_of_fmap; exists e; split; [unfold es_pair; congruence|done]).
        rewrite Hdown in Hin. by apply not_elem_of_nil in Hin.
  - destruct (pr_chain b D Hp v s Es) as (? & Hch & Hfan). rewrite (downstream_other b r ts spec Hf) by congruence. split_and!; [done| |done].
    intros ?%Hch. set_solver.
Qed.

Lemma fused_step : step b b' ({[r]} ∪ D).
Proof using Hp Hr Hne Hwants Hts Er Ets.
  split; [by apply (flat_operators_fused rank b r ts rspec tspecs name)| |done|done|by intros v [? _]%(fused_keys b r ts spec rspec Er)|].
  - apply (flat_edges_fused rank b r ts rspec tspecs name); [done..|]. intros e He Es. by apply (wants_forward b r).
  - intros y Hy. assert (y ≠ r ∧ y ∉ ts) as [Hyr Hyt] by (split; [set_solver|intros ?%Hts; set_solver]).
    split; [by apply (downstream_other b r ts spec Hf)|]. intros Hk. by apply (fused_keys b r ts spec rspec Er).
Qed.
End fuse_step.

Lemma fuse_progress b D r : progress b D → r ∉ D → r ∈ (b_vertices b).*1 → downstream b r ≠ [] → (∀ t, t ∈ downstream b r → t ∈ D) →
  ∃ b', fuse b r = Ok b' ∧ progress b' ({[r]} ∪ D) ∧ step b b' ({[r]} ∪ D).
Proof.
  intros Hp Hr Hk Hne Hts. pose proof (pr_wf b D Hp) as Hw. rewrite fuse_eq by done. destruct (wants b r) eqn:Hwants.
  - destruct (dict_get_key r _ Hk) as (rspec & Er & _). destruct (lookup_all b (downstream b r)) as [tspecs Ets]; [by intros t ?%(downstream_keys b r)|].
    rewrite (chain_vertices_Ok rank b r _ rspec tspecs Hw) by (done || by apply wants_fusable || by apply (root_head b D r)).
    eexists. split_and!; [done| |by apply fused_step].
    split; [by apply wf_after|by apply (fused_heads b D)|by apply fused_done|by apply fused_chain].
  - exists b. split_and!; [done| |apply step_refl]. apply progress_settle; [done|by right|done].
Qed.

(** ** The traversal *)

Lemma edge_rank_lt b x d : wf b → d ∈ downstream b x → (rank x < rank d)%nat.
Proof. intros Hw Hd%elem_of_downstream. by apply (wf_rank rank b Hw). Qed.

(** [limit] bounds the ranks, so that [limit - rank] bounds the length of a path. *)
Context (limit : nat).
Definition ranked b : Prop := ∀ v, v ∈ (b_vertices b).*1 → (rank v < limit)%nat.

(** A second visit of what is done changes nothing. *)
Lemma traverse_done b D fuel : ∀ x vis, progress b D → ranked b → x ∈ D → x ∈ (b_vertices b).*1 → (limit <= fuel + rank x)%nat →
  ∃ vis', traverse fuel x (b, vis) = Ok (b, vis') ∧ ∀ v, v ∈ vis' → v ∈ vis ∨ v ∈ D.
Proof.
  induction fuel as [|fuel IH]; intros x vis Hp Hlim Hx Hk Hfuel; [specialize (Hlim x Hk); lia|].
  cbn [traverse fst snd]. case_bool_decide; [exists vis; by auto|]. destruct (pr_done b D Hp x Hx Hk) as [Hs Hclosed].
  assert (Hloop : ∀ l vis0, (∀ d, d ∈ l → d ∈ downstream b x) → ∃ vis', foldM (λ acc target, traverse fuel target acc) (b, vis0) l = Ok (b, vis') ∧
    ∀ v, v ∈ vis' → v ∈ vis0 ∨ v ∈ D).
  { induction l as [|d l IHl]; intros vis0 Hl; cbn [foldM]; [exists vis0; by auto|]. assert (Hd : d ∈ downstream b x) by (apply Hl; by left).
    destruct (IH d vis0 Hp Hlim) as (vis1 & E1 & H1); [by apply Hclosed|by apply (downstream_keys b x); [apply Hp|]| |].
    { pose proof (edge_rank_lt b x d (pr_wf b D Hp) Hd). lia. }
    rewrite E1. destruct (IHl vis1) as (vis2 & E2 & H2); [intros u ?; apply Hl; by right|]. exists vis2. split; [done|].
    intros v Hv. destruct (H2 v Hv) as [Hv'|]; [|by right]. by apply H1. }
  destruct (Hloop (downstream b x) ({[x]} ∪ vis)) as (vis' & E & Hvis); [done|].
  destruct (downstream b x) as [|d l] eqn:Ed.
  - exists ({[x]} ∪ vis). split; [done|]. intros v [->%elem_of_singleton|]%elem_of_union; auto.
  - rewrite E, bind_Ok. cbn [fst snd]. destruct Hs as [Hs|Hs]; [congruence|]. rewrite fuse_eq, Hs, bind_Ok by apply Hp. exists vis'. split; [done|].
    intros v Hv. destruct (Hvis v Hv) as [[->%elem_of_singleton|]%elem_of_union|]; auto.
Qed.

Lemma traverse_progress fuel : ∀ x b vis D, progress b D → ranked b → x ∈ (b_vertices b).*1 → (limit <= fuel + rank x)%nat →
  (∀ v, v ∈ vis → v ∈ D ∨ (rank v < rank x)%nat) →
  ∃ b' vis' D', traverse fuel x (b, vis) = Ok (b', vis') ∧ progress b' D' ∧ ranked b' ∧ step b b' D' ∧ D ⊆ D' ∧ x ∈ D' ∧
    (∀ v, v ∈ D' → v ∈ D ∨ (rank x <= rank v)%nat) ∧ (∀ v, v ∈ vis' → v ∈ vis ∨ v ∈ D').
Proof.
  induction fuel as [|fuel IH]; intros x b vis D Hp Hlim Hk Hfuel Hvis; [specialize (Hlim x Hk); lia|].
  destruct (decide (x ∈ D)) as [Hx|Hx].
  { destruct (traverse_done b D (S fuel) x vis) as (vis' & E & Hv); [done..|]. exists b, vis', D. split_and!; auto using step_refl. }
  cbn [traverse fst snd]. case_bool_decide as Hxv; [destruct (Hvis x Hxv); [done|lia]|].
  (* the loop over the targets *)
  assert (Hloop : ∀ l b1 vis1 D1, progress b1 D1 → ranked b1 → D ⊆ D1 → x ∉ D1 → step b b1 D1 → (∀ d, d ∈ l → d ∈ downstream b x) →
    (∀ v, v ∈ D1 → v ∈ D ∨ (rank x <= rank v)%nat) → (∀ v, v ∈ vis1 → v ∈ D1 ∨ (rank v <= rank x)%nat) →
    ∃ b2 vis2 D2, foldM (λ acc target, traverse fuel target acc) (b1, vis1) l = Ok (b2, vis2) ∧ progress b2 D2 ∧ ranked b2 ∧ D1 ⊆ D2 ∧ x ∉ D2 ∧ step b b2 D2 ∧
      (∀ d, d ∈ l → d ∈ D2) ∧ (∀ v, v ∈ D2 → v ∈ D ∨ (rank x <= rank v)%nat) ∧ (∀ v, v ∈ vis2 → v ∈ vis1 ∨ v ∈ D2)).
  { induction l as [|d l IHl]; intros b1 vis1 D1 Hp1 Hlim1 HD Hx1 Hst Hl Hrk Hv1; cbn [foldM].
    { exists b1, vis1, D1. split_and!; auto. by intros ? ?%not_elem_of_nil. }
    assert (Hd : d ∈ downstream b1 x) by (rewrite (proj1 (st_frame _ _ _ Hst x Hx1)); apply Hl; by left).
    pose proof (edge_rank_lt b1 x d (pr_wf b1 D1 Hp1) Hd) as Hlt.
    destruct (IH d b1 vis1 D1) as (b2 & vis2 & D2 & E2 & Hp2 & Hlim2 & Hst2 & HD2 & Hd2 & Hrk2 & Hv2);
      [done|done|by apply (downstream_keys b1 x); [apply Hp1|]|lia|intros v Hv; destruct (Hv1 v Hv); [by left|right; lia]|].
    rewrite E2. destruct (IHl b2 vis2 D2) as (b3 & vis3 & D3 & E3 & Hp3 & Hlim3 & HD3 & Hx3 & Hst3 & Hl3 & Hrk3 & Hv3); try done.
    - by trans D1.
    - intros Hx2. destruct (Hrk2 x Hx2); [done|lia].
    - by eapply step_trans.
    - intros u ?. apply Hl. by right.
    - intros v Hv. destruct (Hrk2 v Hv) as [?%Hrk|]; [done|right; lia].
    - intros v Hv. destruct (Hv2 v Hv) as [[?|?]%Hv1|]; [left; by apply HD2|by right|by left].
    - exists b3, vis3, D3. split_and!; try done; [by trans D2| |].
      + intros u [->|Hu]%elem_of_cons; [by apply HD3|by apply Hl3].
      + intros v Hv. destruct (Hv3 v Hv) as [Hv'|]; [|by right]. destruct (Hv2 v Hv') as [|]; [by left|right; by apply HD3]. }
  destruct (decide (downstream b x = [])) as [Ed|Ed].
  { rewrite Ed. exists b, ({[x]} ∪ vis), ({[x]} ∪ D). split_and!; try done.
    - apply progress_settle; [done|by left|]. rewrite Ed. by intros ? ?%not_elem_of_nil.
    - set_solver.
    - set_solver.
    - intros v [->%elem_of_singleton|]%elem_of_union; [right; lia|by left].
    - set_solver. }
  destruct (Hloop (downstream b x) b ({[x]} ∪ vis) D) as (b2 & vis2 & D2 & E2 & Hp2 & Hlim2 & HD2 & Hx2 & Hst2 & Hl2 & Hrk2 & Hv2); try done.
  { by left. }
  { intros v [->%elem_of_singleton|Hv]%elem_of_union; [right; lia|]. destruct (Hvis v Hv); [by left|right; lia]. }
  destruct (st_frame _ _ _ Hst2 x Hx2) as [Edown Hk2].
  destruct (fuse_progress b2 D2 x) as (b3 & E3 & Hp3 & Hst3); [done|done|by apply Hk2|by rewrite Edown|by rewrite Edown|].
  exists b3, vis2, ({[x]} ∪ D2). split_and!.
  - destruct (downstream b x) as [|d l]; [done|]. rewrite E2, bind_Ok. cbn [fst snd]. by rewrite E3, bind_Ok.
  - done.
  - intros v Hv. by apply Hlim2, (st_keys _ _ _ Hst3).
  - eapply step_trans; [done|done|set_solver].
  - set_solver.
  - set_solver.
  - intros v [->%elem_of_singleton|Hv]%elem_of_union; [right; lia|by apply Hrk2].
  - intros v Hv. destruct (Hv2 v Hv) as [[->%elem_of_singleton|]%elem_of_union|]; [right; set_solver|by left|right; set_solver].
Qed.
End traversal.

(** ** The whole rule *)

Section rule.
Context {F P A : Type} `{!Recipes F P A}.
Abbreviation VertexSpec := (VertexSpec F P).
Abbreviation EdgeSpec := (EdgeSpec A).
Abbreviation Builder := (LogicalGraphBuilder F P A).
Implicit Types (vertices : list (VertexId * VertexSpec)) (edges : list EdgeSpec) (g : LogicalGraph F P A).

(** A graph is taken apart and put together again. *)
Lemma add_all_vertices (l : list (VertexId * VertexSpec)) : ∀ b : Builder,
  NoDup ((b_vertices b).*1 ++ l.*1) → (∀ v s, (v, s) ∈ l → vs_id s = v) →
  foldM (λ b (e : VertexId * VertexSpec), add_vertex e.2 b) b l = Ok (mkBuilder (b_job b) (b_config b) (b_vertices b ++ l) (b_edges b)).
Proof.
  induction l as [|[v s] l IH]; intros b Hnd Hid; cbn [foldM]; [rewrite app_nil_r; by destruct b|].
  cbn in Hnd. pose proof Hnd as (H1 & H2 & H3)%NoDup_app. assert (Hv : v ∉ (b_vertices b).*1) by (intros Hin; apply (H2 v Hin); by left).
  unfold add_vertex at 1. cbn [snd]. rewrite (Hid v s) by (by left). rewrite (proj2 (dict_get_None v _) Hv). unfold set_vertex. rewrite (Hid v s) by (by left).
  assert (Eset : dict_set v s (b_vertices b) = b_vertices b ++ [(v, s)]).
  { clear -Hv. induction (b_vertices b) as [|[u x] k IH]; [done|]. cbn in *. apply not_elem_of_cons in Hv as [Hne Hv].
    rewrite decide_False by congruence. by rewrite IH. }
  rewrite Eset, IH; cbn [b_job b_config b_vertices b_edges].
  - by rewrite <-app_assoc.
  - rewrite fmap_app, <-app_assoc. done.
  - intros u x ?. apply Hid. by right.
Qed.

Lemma add_all_edges (l : list EdgeSpec) : ∀ b : Builder,
  NoDup (pairs_of (b_edges b ++ l)) → (∀ e, e ∈ l → es_source e ∈ (b_vertices b).*1 ∧ es_target e ∈ (b_vertices b).*1) →
  foldM (λ b e, add_edge e b) b l = Ok (mkBuilder (b_job b) (b_config b) (b_vertices b) (b_edges b ++ l)).
Proof.
  induction l as [|e l IH]; intros b Hnd Hends; cbn [foldM]; [rewrite app_nil_r; by destruct b|].
  unfold add_edge at 1. destruct (Hends e) as [Hs Ht]; [by left|]. rewrite !bool_decide_eq_true_2 by done. cbn [andb negb].
  rewrite edge_None.
  2:{ unfold pairs_of in Hnd. rewrite fmap_app in Hnd. apply NoDup_app in Hnd as (_ & Hnd & _). intros Hin. apply (Hnd _ Hin). by left. }
  rewrite IH; cbn [b_job b_config b_vertices b_edges].
  - by rewrite <-app_assoc.
  - by rewrite <-app_assoc.
  - intros d ?. apply Hends. by right.
Qed.

Lemma to_builder_Ok g : valid (job_name g) (lg_vertices g) (lg_edges g) → NoDup (lg_vertices g).*1 →
  to_builder g = Ok (mkBuilder (job_name g) (lg_config g) (lg_vertices g) (lg_edges g)).
Proof.
  intros Hval Hnd. unfold to_builder, LogicalGraphBuilder_init. rewrite bool_decide_eq_false_2, bind_Ok by apply Hval.
  rewrite add_all_vertices, bind_Ok; [|done|intros v s ?; by apply (valid_vertex _ _ _ Hval)].
  rewrite add_all_edges; [done|apply Hval|apply Hval].
Qed.

(** The dataflow does not depend on the order of the graph. *)
Lemma flat_operators_perm vertices vertices' : vertices ≡ₚ vertices' → flat_operators vertices ≡ₚ flat_operators vertices'.
Proof. intros Hp. unfold flat_operators. by rewrite Hp. Qed.

Lemma flat_edges_perm vertices vertices' edges edges' :
  NoDup vertices.*1 → vertices ≡ₚ vertices' → edges ≡ₚ edges' → flat_edges vertices edges ≡ₚ flat_edges vertices' edges'.
Proof.
  intros Hnd Hv He. unfold flat_edges. apply Permutation_app; [by apply Permutation_flat_map|]. etrans; [apply (Permutation_flat_map _ He)|]. apply reflexive_eq, flat_map_ext_in.
  intros e _. unfold flat_edge. by rewrite !(dict_get_perm vertices vertices').
Qed.

(** An edge of the program: its two operators, and how it is partitioned unless it forwards. *)
Definition program_edge vertices (e : EdgeSpec) : list (OperatorSpec F P * OperatorSpec F P * option (PartitionerSpec A)) :=
  match dict_get (es_source e) vertices, dict_get (es_target e) vertices with
  | Some s, Some t => [(vs_operator s, vs_operator t, label (es_partitioner e))]
  | _, _ => []
  end.

Lemma plain_operator (o : OperatorSpec F P) : chained o = false →
  parts o = [o] ∧ entry o = o ∧ tails o = [o] ∧ inner (A := A) o = [] ∧ composable o = true ∧ fans_out o = false.
Proof. destruct o as [c f i n ty p l s]. unfold chained. cbn. by destruct l. Qed.

Lemma plain_dataflow vertices edges : (∀ v s, (v, s) ∈ vertices → chained (vs_operator s) = false) →
  flat_operators vertices = (λ x, vs_operator x.2) <$> vertices ∧ flat_edges vertices edges = flat_map (program_edge vertices) edges.
Proof.
  intros Hplain. split.
  - unfold flat_operators. induction vertices as [|[v s] l IH]; [done|]. cbn. rewrite (proj1 (plain_operator _ (Hplain v s ltac:(by left)))), IH; [done|].
    intros u x ?. apply (Hplain u). by right.
  - unfold flat_edges. assert (Hin : flat_map (λ e : VertexId * VertexSpec, inner (A := A) (vs_operator e.2)) vertices = []).
    { induction vertices as [|[v s] l IH]; [done|]. cbn. destruct (plain_operator _ (Hplain v s ltac:(by left))) as (_ & _ & _ & -> & _).
      apply IH. intros u x ?. apply (Hplain u). by right. }
    rewrite Hin. cbn. apply flat_map_ext_in. intros e _. unfold flat_edge, program_edge.
    destruct (dict_get (es_source e) vertices) as [s|] eqn:Es; [|done]. destruct (dict_get (es_target e) vertices) as [t|] eqn:Et; [|done].
    apply dict_get_In in Es, Et. destruct (plain_operator _ (Hplain _ _ Es)) as (_ & _ & -> & _), (plain_operator _ (Hplain _ _ Et)) as (_ & -> & _). done.
Qed.

(** Positions in the topological order grow along the edges. *)
Lemma rank_position (order : list VertexId) v : v ∈ order → order !! rank order v = Some v ∧ ∀ j, order !! j = Some v → (rank order v <= j)%nat.
Proof.
  intros Hv. unfold rank. destruct (list_find_elem_of (λ w, w = v) order v Hv eq_refl) as [[i w] Ei]. rewrite Ei. cbn.
  apply list_find_Some in Ei as (Hi & -> & Hmin). split; [done|]. intros j Hj. destruct (decide (i <= j)%nat); [done|]. by destruct (Hmin j v Hj ltac:(lia)).
Qed.

Lemma rank_increases (pairs : list (VertexId * VertexId)) order u v :
  inputs_first pairs order → u ∈ order → v ∈ order → flows pairs u v → (rank order u < rank order v)%nat.
Proof.
  intros Hf Hu Hv Huv. destruct (rank_position order v Hv) as [Hi _], (rank_position order u Hu) as [_ Hmin].
  assert (Hin : u ∈ take (rank order v) order) by (eapply (Hf _ v (drop (S (rank order v)) order)); [|done]; by rewrite take_drop_middle).
  apply list_elem_of_lookup in Hin as [j Hj]. apply lookup_take_Some in Hj as [Hj Hlt]. specialize (Hmin j Hj). lia.
Qed.

(** The loop over the sources. *)
Lemma sources_loop (rk : VertexId → nat) limit fuel (l : list VertexId) : ∀ (b : Builder) (D : gset VertexId),
  (limit <= fuel)%nat → progress rk b D → ranked rk limit b →
  ∃ (b' : Builder) (D' : gset VertexId), foldM (λ b s, acc ← traverse (S fuel) s (b, ∅); Ok acc.1) b l = Ok b' ∧ progress rk b' D' ∧ D ⊆ D' ∧ step b b' D'.
Proof.
  induction l as [|s l IH]; intros b D Hfuel Hp Hlim; cbn [foldM]; [exists b, D; split_and!; [done..|apply step_refl]|].
  assert (H1 : ∃ (b1 : Builder) (vis1 D1 : gset VertexId), traverse (S fuel) s (b, ∅) = Ok (b1, vis1) ∧ progress rk b1 D1 ∧ ranked rk limit b1 ∧ D ⊆ D1 ∧ step b b1 D1).
  { destruct (decide (s ∈ (b_vertices b).*1)) as [Hs|Hs].
    - destruct (traverse_progress rk limit (S fuel) s b ∅ D) as (b1 & vis1 & D1 & E & Hp1 & Hl1 & Hst & HD & _); [done|done|done|lia|by intros v ?%not_elem_of_empty|].
      exists b1, vis1, D1. done.
    - exists b, {[s]}, D. split_and!; [|done..|apply step_refl]. cbn [traverse fst snd]. rewrite bool_decide_eq_false_2 by apply not_elem_of_empty.
      assert (Hd : downstream b s = []).
      { destruct (downstream b s) as [|d ds] eqn:Ed; [done|]. exfalso. apply Hs. assert (Hd : d ∈ downstream b s) by (rewrite Ed; by left).
        apply elem_of_downstream in Hd. apply list_elem_of_fmap in Hd as (e & [= -> _] & He). by apply (valid_ends _ _ _ (wf_valid rk b (pr_wf rk b D Hp)) e He). }
      rewrite Hd. do 3 f_equal. set_solver. }
  destruct H1 as (b1 & vis1 & D1 & E1 & Hp1 & Hl1 & HD1 & Hst1). rewrite E1, bind_Ok. cbn [fst].
  destruct (IH b1 D1 Hfuel Hp1 Hl1) as (b2 & D2 & E2 & Hp2 & HD2 & Hst2). exists b2, D2. split_and!; [done..|by trans D1|by eapply step_trans].
Qed.

(** C10. Chaining preserves the dataflow.  On every logical graph of plain operators whose
    FORWARD edges leave sources and operators of one input, the rule succeeds, and its graph
    is valid; read back from the chains, it has exactly the operators of the program and
    exactly its edges, with the partitioner of every edge that does not forward.  Every
    chain can run: its first operator is not a chain, none of its operators keeps state or
    is asynchronous, and a chain that ends in several operators has no output. *)
Theorem chaining_preserves_dataflow job config vertices edges g :
  NoDup vertices.*1 → LogicalGraph_init job config vertices edges = Ok g →
  (∀ v s, (v, s) ∈ vertices → chained (vs_operator s) = false) →
  (∀ e s, e ∈ edges → is_forward (es_partitioner e) = true → (es_source e, s) ∈ vertices → chain_head (vs_operator s) = true) →
  ∃ g', ChainingRule_apply g = Ok g' ∧ job_name g' = job ∧ lg_config g' = config ∧ valid job (lg_vertices g') (lg_edges g') ∧
    flat_operators (lg_vertices g') ≡ₚ (λ x, vs_operator x.2) <$> vertices ∧
    flat_edges (lg_vertices g') (lg_edges g') ≡ₚ flat_map (program_edge vertices) edges ∧
    ∀ v s, (v, s) ∈ lg_vertices g' → composable (vs_operator s) = true ∧
      (fans_out (vs_operator s) = true → ∀ e, e ∈ lg_edges g' → es_source e ≠ v).
Proof.
  intros Hnd Eg Hplain Hheads. pose proof (logical_graph_accepts job config vertices edges Hnd) as Hacc. rewrite Eg in Hacc.
  destruct Hacc as (Hvalid & Hjob & Hcfg & Hv & He & Hfirst).
  assert (Hvalid' : valid job (lg_vertices g) (lg_edges g)) by (by eapply valid_perm; [symmetry..|]).
  assert (Hnd' : NoDup (lg_vertices g).*1) by (by rewrite Hv).
  unfold ChainingRule_apply. rewrite to_builder_Ok by (done || by rewrite Hjob). rewrite bind_Ok.
  set (b := mkBuilder _ _ _ _). set (order := (lg_vertices g).*1) in *. set (rk := rank order).
  assert (Hends : ∀ u v, flows (pairs_of (lg_edges g)) u v → u ∈ order ∧ v ∈ order).
  { intros u v (e & [= -> ->] & Hin)%list_elem_of_fmap. by apply (valid_ends _ _ _ Hvalid'). }
  assert (Hp : progress rk b ∅).
  { split; [split| | |].
    - cbn. by rewrite Hjob.
    - done.
    - cbn. intros u v Huv. destruct (Hends u v Huv). apply (rank_increases (pairs_of edges)); [done..|]. revert Huv. unfold flows, pairs_of. by rewrite He.
    - intros e s Hin Hf Es%dict_get_In. cbn [b b_vertices b_edges] in Hin, Es. rewrite He in Hin. rewrite Hv in Es. by apply (Hheads e s).
    - by intros y ?%not_elem_of_empty.
    - cbn. intros v s Es%dict_get_In. rewrite Hv in Es. pose proof (Hplain v s Es) as Hch. destruct (plain_operator _ Hch) as (_ & _ & _ & _ & -> & ->).
      by rewrite Hch. }
  assert (Hlim : ranked rk (length order) b).
  { intros v Hin. destruct (rank_position order v Hin) as [Hi _]. by apply lookup_lt_Some in Hi. }
  destruct (sources_loop rk (length order) (length (lg_vertices g)) (LogicalGraph.sources g) b ∅) as (b' & D & E & Hp' & _ & Hst);
    [subst order; by rewrite length_fmap|done|done|].
  rewrite E, bind_Ok. unfold build. pose proof (pr_wf rk b' D Hp') as [Hval2 Hnd2 _].
  pose proof (logical_graph_accepts (b_job b') (b_config b') (b_vertices b') (b_edges b') Hnd2) as Hacc.
  destruct (LogicalGraph_init (b_job b') (b_config b') (b_vertices b') (b_edges b')) as [g'|]; [|by destruct (proj2 Hacc)]. destruct Hacc as (_ & Hjob' & Hcfg' & Hv' & He' & _).
  rewrite (st_job _ _ _ Hst) in Hjob', Hval2. rewrite (st_config _ _ _ Hst) in Hcfg'. cbn [b b_job b_config] in Hjob', Hcfg', Hval2.
  destruct (plain_dataflow vertices edges Hplain) as [Eops Eedges]. exists g'. rewrite <-Eops, <-Eedges. split_and!; [done|congruence|congruence| | | |].
  - rewrite <-Hjob. by eapply valid_perm; [symmetry..|].
  - etrans; [by apply flat_operators_perm|]. rewrite (st_operators _ _ _ Hst). by apply flat_operators_perm.
  - etrans; [apply (flat_edges_perm _ (b_vertices b') _ (b_edges b')); [by rewrite Hv'|done..]|]. rewrite (st_edges _ _ _ Hst).
    by apply flat_edges_perm.
  - intros v s. rewrite Hv'. intros Hin. apply (dict_get_Some _ _ _ Hnd2) in Hin. destruct (pr_chain rk b' D Hp' v s Hin) as (Hc & _ & Hf).
    split; [done|]. intros Hfan e Hin' Es. rewrite He' in Hin'. specialize (Hf Hfan).
    assert (Hd : es_target e ∈ downstream b' v) by (apply elem_of_downstream, list_elem_of_fmap; exists e; split; [unfold es_pair; congruence|done]).
    rewrite Hf in Hd. by apply not_elem_of_nil in Hd.
Qed.
End rule.
