(* ===== verification/PhysicalGraph.v ===== *)
(** * The execution graph

    Models [src/ray/klein/runtime/execution_graph/]: the expansion of a logical graph into
    subtasks and channels, the state machine of a subtask, and what the scheduler and the
    coordinator derive from the topology: the order of operators, the barriers every subtask
    aligns, the checkpoint domains and the affinity groups; and the resized graph of a
    rescale.  [hexdigest] is SHA-256 in hexadecimal. *)
From stdpp Require Import pretty.
From Stdlib Require Import Strings.Ascii QArith.Qcanon.
From S2P Require Import Prelude Dicts Checkpoints KeyGroups Rows InputBatching Partitioning Graphs Plans LogicalGraph.
Open Scope Z_scope.

(** ** Subtasks *)

Inductive ExecutionVertexStatus := VCREATED | VDEPLOYED | VRUNNING | VCANCELLING | VFAILED | VFINISHED | VCANCELLED.

#[export] Instance ExecutionVertexStatus_eq_dec : EqDecision ExecutionVertexStatus.
Proof. solve_decision. Defined.

Definition status_is_terminal (s : ExecutionVertexStatus) : bool :=
  match s with VFAILED | VFINISHED | VCANCELLED => true | _ => false end.

(** [_ALLOWED_TRANSITIONS]. *)
Definition allowed_transitions (s : ExecutionVertexStatus) : list ExecutionVertexStatus :=
  match s with
  | VCREATED => [VDEPLOYED; VFAILED]
  | VDEPLOYED => [VRUNNING; VFAILED; VFINISHED; VCANCELLING; VCANCELLED]
  | VRUNNING => [VFAILED; VFINISHED; VCANCELLING; VCANCELLED]
  | VCANCELLING => [VCANCELLED; VFAILED]
  | VCANCELLED | VFAILED | VFINISHED => []
  end.

(** Barrier counts: of every subtask, how many barriers of which source subtask. *)
Abbreviation alignment := (gmap vid (gmap vid Z)).

Section execution.
Context {F P A H : Type} `{!Recipes F P A}.

(** The state of the actor of a subtask; [H] is a Ray handle. *)
Record ExecutionVertexRuntimeSnapshot := mkRuntime {
  rt_status : ExecutionVertexStatus;
  rt_error_message : option string;
  rt_stream_task : option H;
  rt_task_generation : string;
  rt_restore_operation_id : option string
}.

Record ExecutionVertex := mkExecutionVertex {
  xv_vertex_name : string;
  xv_resources : Resources;
  xv_id : vid;
  xv_concurrency : Z;
  xv_operator_spec : OperatorSpec F P;
  xv_config : Configuration;
  xv_runtime : ExecutionVertexRuntimeSnapshot
}.

(** [ExecutionVertex(...)]; [generation] is the fresh [uuid4().hex]. *)
Definition ExecutionVertex_init (vertex_id : Z) (name : string) (resources : Resources) (index concurrency : Z)
    (operator : OperatorSpec F P) (config : Configuration) (generation : string) : ExecutionVertex :=
  mkExecutionVertex name resources (mkVertexId vertex_id index) concurrency operator config
    (mkRuntime VCREATED None None generation None).

(** The identity of the actor, and the label with the parallelism. *)
Definition actor_name (v : ExecutionVertex) : string := xv_vertex_name v +:+ " (" +:+ pretty (vertex_index (xv_id v) + 1) +:+ ")".
Definition display_name (v : ExecutionVertex) : string :=
  xv_vertex_name v +:+ " (" +:+ pretty (vertex_index (xv_id v) + 1) +:+ "/" +:+ pretty (xv_concurrency v) +:+ ")".

Definition set_runtime (r : ExecutionVertexRuntimeSnapshot) (v : ExecutionVertex) : ExecutionVertex :=
  mkExecutionVertex (xv_vertex_name v) (xv_resources v) (xv_id v) (xv_concurrency v) (xv_operator_spec v) (xv_config v) r.

Definition runtime_snapshot (v : ExecutionVertex) : ExecutionVertexRuntimeSnapshot := xv_runtime v.

Definition transition_to (status : ExecutionVertexStatus) (error_message : option string) (v : ExecutionVertex) : outcome ExecutionVertex :=
  let r := xv_runtime v in
  if bool_decide (status = rt_status r) then Ok v
  else if negb (bool_decide (status ∈ allowed_transitions (rt_status r))) then Err RuntimeError
  else
    let message := match error_message with Some m => Some m | None => rt_error_message r end in
    let message := match status with VCREATED | VDEPLOYED | VRUNNING | VFINISHED => None | _ => message end in
    Ok (set_runtime (mkRuntime status message (rt_stream_task r) (rt_task_generation r) (rt_restore_operation_id r)) v).

Definition reset (v : ExecutionVertex) : ExecutionVertex :=
  let r := xv_runtime v in
  set_runtime (mkRuntime VCREATED None (rt_stream_task r) (rt_task_generation r) (rt_restore_operation_id r)) v.

Definition renew_task_generation (generation : string) (v : ExecutionVertex) : ExecutionVertex :=
  let r := xv_runtime v in
  set_runtime (mkRuntime (rt_status r) (rt_error_message r) (rt_stream_task r) generation (rt_restore_operation_id r)) v.

Definition set_stream_task (task : option H) (v : ExecutionVertex) : ExecutionVertex :=
  let r := xv_runtime v in
  set_runtime (mkRuntime (rt_status r) (rt_error_message r) task (rt_task_generation r) (rt_restore_operation_id r)) v.

(** [rebind]: the subtask in a resized operator; its actor and state are kept. *)
Definition rebind (concurrency : pyarg) (resources : Resources) (operator : OperatorSpec F P) (config : Configuration)
    (generation : string) (v : ExecutionVertex) : outcome ExecutionVertex :=
  match concurrency with
  | AInt n =>
      if n <=? vertex_index (xv_id v) then Err ValueError
      else Ok (set_runtime (xv_runtime v)
             (ExecutionVertex_init (job_vertex_id (xv_id v)) (xv_vertex_name v) resources (vertex_index (xv_id v)) n operator config generation))
  | _ => Err TypeError
  end.

(** ** Operators and channels *)

Record ExecutionJobVertex := mkJobVertex {
  jv_spec : VertexSpec F P;
  jv_config : Configuration;
  jv_output_queue : option H;
  jv_vertices : list (Z * ExecutionVertex)
}.

Definition jv_id (v : ExecutionJobVertex) : Z := vx_index (vs_id (jv_spec v)).
Definition jv_concurrency (v : ExecutionJobVertex) : Z := vs_concurrency (jv_spec v).

(** [_create_execution_vertices]; [generation] gives the fresh generation of an index. *)
Definition create_execution_vertices (spec : VertexSpec F P) (config : Configuration) (generation : Z → string) : list (Z * ExecutionVertex) :=
  (λ index, (index, ExecutionVertex_init (vx_index (vs_id spec)) (vs_name spec) (vs_resources spec) index (vs_concurrency spec)
                      (vs_operator spec) config (generation index))) <$> seqZ 0 (vs_concurrency spec).

Definition ExecutionJobVertex_init (spec : VertexSpec F P) (config : Configuration) (generation : Z → string) : ExecutionJobVertex :=
  mkJobVertex spec config None (create_execution_vertices spec config generation).

Definition jv_execution_vertex (v : ExecutionJobVertex) (index : Z) : outcome ExecutionVertex := of_option KeyError (dict_get index (jv_vertices v)).

Record ExecutionJobEdge := mkJobEdge {
  je_source : Z;
  je_target : Z;
  je_partitioner : PartitionerSpec A;
  je_execution_edges : list (vid * vid)
}.

Definition je_pair (e : ExecutionJobEdge) : Z * Z := (je_source e, je_target e).

(** [_create_execution_edges]; an edge is the ids of its two subtasks. *)
Definition create_execution_edges (source target : ExecutionJobVertex) (partitioner : PartitionerSpec A) : outcome (list (vid * vid)) :=
  foldM (λ edges source_index,
    targets ← target_indices (ps_topology partitioner) (jv_concurrency source) (jv_concurrency target) source_index;
    created ← mapM_outcome (λ target_index,
      s ← jv_execution_vertex source source_index; t ← jv_execution_vertex target target_index; Ok (xv_id s, xv_id t)) targets;
    Ok (edges ++ created)) [] (seqZ 0 (jv_concurrency source)).

Definition ExecutionJobEdge_init (source target : ExecutionJobVertex) (partitioner : PartitionerSpec A) : outcome ExecutionJobEdge :=
  edges ← create_execution_edges source target partitioner;
  Ok (mkJobEdge (jv_id source) (jv_id target) partitioner edges).

(** ** The graph *)

Record ExecutionGraph := mkExecutionGraph {
  xg_namespace : string;
  xg_job_vertices : list (Z * ExecutionJobVertex);
  xg_job_edges : list ExecutionJobEdge;
  xg_topology_epochs : gmap (Z * Z) string
}.

Definition job_pairs (edges : list ExecutionJobEdge) : list (Z * Z) := je_pair <$> edges.

(** [_validate_topology]. *)
Definition validate_topology (vertices : list (Z * ExecutionJobVertex)) (edges : list ExecutionJobEdge) : outcome unit :=
  _ ← foldM (λ _ e, if negb (jv_id e.2 =? e.1) then Err ValueError else Ok ()) () vertices;
  _ ← foldM (λ pairs e,
        if negb (bool_decide (je_source e ∈ vertices.*1) && bool_decide (je_target e ∈ vertices.*1)) then Err ValueError
        else if bool_decide (je_pair e ∈ pairs) then Err ValueError
        else Ok (pairs ++ [je_pair e])) [] edges;
  let roots : gset Z := list_to_set vertices.*1 ∖ list_to_set (je_target <$> edges) in
  let declared_sources : gset Z := list_to_set (filter (λ e, source (vs_operator (jv_spec e.2)) = true) vertices).*1 in
  if negb (bool_decide (vertices = [])) && negb (bool_decide (roots = declared_sources)) then Err ValueError else Ok ().

(** [_topological_job_vertices]; the queue is filled at its end. *)
Definition enqueue (v : Z) (ready : list Z) : list Z := ready ++ [v].
Definition topological_job_vertices (vertices : list (Z * ExecutionJobVertex)) (edges : list ExecutionJobEdge) : outcome (list Z) :=
  let ordered := Graphs.topological_order enqueue (successors (job_pairs edges)) vertices.*1 (job_pairs edges) in
  if (length ordered =? length vertices)%nat then Ok ordered else Err ValueError.

Definition ExecutionGraph_init (namespace : string) (vertices : list (Z * ExecutionJobVertex)) (edges : list ExecutionJobEdge)
    (epochs : gmap (Z * Z) string) : outcome ExecutionGraph :=
  if bool_decide (namespace = "") then Err ValueError
  else
    _ ← validate_topology vertices edges;
    _ ← topological_job_vertices vertices edges;
    Ok (mkExecutionGraph namespace vertices edges epochs).

Definition job_vertex (g : ExecutionGraph) (j : Z) : outcome ExecutionJobVertex := of_option KeyError (dict_get j (xg_job_vertices g)).

Definition in_edges_by_job_vertex (g : ExecutionGraph) (j : Z) : list ExecutionJobEdge := filter (λ e, je_target e = j) (xg_job_edges g).
Definition out_edges_by_job_vertex (g : ExecutionGraph) (j : Z) : list ExecutionJobEdge := filter (λ e, je_source e = j) (xg_job_edges g).

Definition subtasks (v : ExecutionJobVertex) : list ExecutionVertex := (jv_vertices v).*2.

Definition execution_vertices (g : ExecutionGraph) : list ExecutionVertex := xg_job_vertices g ≫= λ e, subtasks e.2.

Definition find_vertex (g : ExecutionGraph) (v : vid) : option ExecutionVertex :=
  match dict_get (job_vertex_id v) (xg_job_vertices g) with None => None | Some j => dict_get (vertex_index v) (jv_vertices j) end.

Definition source_job_vertices (g : ExecutionGraph) : list Z :=
  (filter (λ e, source (vs_operator (jv_spec e.2)) = true) (xg_job_vertices g)).*1.
Definition sink_job_vertices (g : ExecutionGraph) : list Z := filter (λ j, out_edges_by_job_vertex g j = []) (xg_job_vertices g).*1.

Definition subtasks_of (g : ExecutionGraph) (jobs : list Z) : list ExecutionVertex :=
  jobs ≫= λ j, match dict_get j (xg_job_vertices g) with Some v => subtasks v | None => [] end.
Definition source_execution_vertices (g : ExecutionGraph) : list ExecutionVertex := subtasks_of g (source_job_vertices g).
Definition sink_execution_vertices (g : ExecutionGraph) : list ExecutionVertex := subtasks_of g (sink_job_vertices g).

(** All channels between subtasks. *)
Definition execution_edges (g : ExecutionGraph) : list (vid * vid) := xg_job_edges g ≫= je_execution_edges.

(** ** Barriers to align *)

(** The innermost loop of [_propagate_source_alignment]: one more barrier of every subtask
    of the source operator that the edge's source receives. *)
Definition align_edge (source_job : Z) (alignments : alignment) (e : vid * vid) : alignment :=
  let source_counts := default ∅ (alignments !! e.1) in
  let target_counts := default ∅ (alignments !! e.2) in
  <[e.2 := foldl (λ counts s, if job_vertex_id s =? source_job then <[s := default 0 (counts !! s) + 1]> counts else counts)
             target_counts (map_to_list source_counts).*1]> alignments.

Definition propagate_source_alignment (g : ExecutionGraph) (source_job : Z) (alignments : alignment) (j : Z) : alignment :=
  foldl (align_edge source_job) alignments (in_edges_by_job_vertex g j ≫= je_execution_edges).

Definition accumulate_barrier_splits (g : ExecutionGraph) (order : list Z) (alignments : alignment) (source_job : Z) : alignment :=
  let seeded := foldl (λ (al : alignment) v, <[xv_id v := {[xv_id v := 1]}]> al) alignments (subtasks_of g [source_job]) in
  foldl (λ al j, if j =? source_job then al else propagate_source_alignment g source_job al j) seeded order.

Definition barrier_splits (g : ExecutionGraph) : outcome alignment :=
  order ← topological_job_vertices (xg_job_vertices g) (xg_job_edges g);
  Ok (foldl (accumulate_barrier_splits g order) ∅ (source_job_vertices g)).

(** ** Checkpoint domains and affinity groups *)

(** [CheckpointDomain.__post_init__]. *)
Definition CheckpointDomain_init (id : string) (vertices sources sinks : list vid) : outcome CheckpointDomain :=
  if bool_decide (id = "") then Err ValueError
  else if bool_decide (vertices = []) then Err ValueError
  else if negb (bool_decide (NoDup vertices)) then Err ValueError
  else if negb (bool_decide (Forall (λ v, v ∈ vertices) sources)) then Err ValueError
  else if negb (bool_decide (Forall (λ v, v ∈ vertices) sinks)) then Err ValueError
  else Ok (mkDomain id vertices sources sinks).

Fixpoint join_with (separator : string) (parts : list string) : string :=
  match parts with [] => "" | [p] => p | p :: parts => p +:+ separator +:+ join_with separator parts end.

(** [_checkpoint_domain_id]; its argument is sorted already. *)
Definition checkpoint_domain_id (hexdigest : string → string) (members : list vid) : string :=
  "checkpoint-domain-" +:+
  hexdigest (join_with "," ((λ v, pretty (job_vertex_id v) +:+ ":" +:+ pretty (vertex_index v)) <$> merge_sort vid_le members)).

(** Comparison of tuples of keys. *)
Fixpoint component_leb (l k : list vid) : bool :=
  match l, k with
  | [], _ => true
  | _ :: _, [] => false
  | v :: l, u :: k => if decide (v = u) then component_leb l k else bool_decide (vid_le v u)
  end.
Definition component_le (l k : list vid) : Prop := component_leb l k = true.
#[export] Instance component_le_dec l k : Decision (component_le l k).
Proof. unfold component_le. apply _. Defined.

Definition vertex_ids (g : ExecutionGraph) : list vid := xv_id <$> execution_vertices g.

Definition components (g : ExecutionGraph) : list (list vid) :=
  merge_sort component_le (merge_sort vid_le <$> connected_components (vertex_ids g) (undirected (execution_edges g))).

Definition checkpoint_domains (hexdigest : string → string) (g : ExecutionGraph) : outcome (list CheckpointDomain) :=
  let source_ids : gset vid := list_to_set (xv_id <$> source_execution_vertices g) in
  let sink_ids : gset vid := list_to_set (xv_id <$> sink_execution_vertices g) in
  mapM_outcome (λ component, CheckpointDomain_init (checkpoint_domain_id hexdigest component) component
    (filter (.∈ source_ids) component) (filter (.∈ sink_ids) component)) (components g).

(** [affinity_groups]: components over FORWARD edges only. *)
Definition forward_edges (g : ExecutionGraph) : list (vid * vid) :=
  filter (λ e, is_forward (je_partitioner e) = true) (xg_job_edges g) ≫= je_execution_edges.
Definition affinity_groups (g : ExecutionGraph) : list (list vid) := connected_components (vertex_ids g) (undirected (forward_edges g)).

(** ** Expansion and resizing *)

(** [expand]; [generation] gives the fresh generation of a subtask. *)
Definition expand (logical : LogicalGraph F P A) (config : Configuration) (namespace : string) (generation : vid → string) : outcome ExecutionGraph :=
  let vertices := foldl (λ vs (e : VertexId * VertexSpec F P),
    dict_set (vx_index e.1) (ExecutionJobVertex_init e.2 config (λ i, generation (mkVertexId (vx_index (vs_id e.2)) i))) vs)
    [] (lg_vertices logical) in
  edges ← mapM_outcome (λ e,
    s ← of_option KeyError (dict_get (vx_index (es_source e)) vertices);
    t ← of_option KeyError (dict_get (vx_index (es_target e)) vertices);
    ExecutionJobEdge_init s t (es_partitioner e)) (lg_edges logical);
  ExecutionGraph_init namespace vertices edges ∅.

(** The retained subtasks of a resized operator, on top of its fresh ones. *)
Definition retain (old_target new_target : ExecutionJobVertex) (generation : Z → string) : outcome (list (Z * ExecutionVertex)) :=
  foldM (λ vertices index,
    v ← jv_execution_vertex old_target index;
    v ← rebind (AInt (jv_concurrency new_target)) (vs_resources (jv_spec new_target)) (vs_operator (jv_spec new_target)) (jv_config new_target)
          (generation index) v;
    Ok (dict_set index v vertices))
    (jv_vertices new_target) (seqZ 0 (Z.min (jv_concurrency old_target) (jv_concurrency new_target))).

(** [_rescale_operator_spec]. *)
Definition rescale_operator_spec (g : ExecutionGraph) (target_id : Z) (new_spec : VertexSpec F P)
    (edges : list (Z * Z * PartitionerSpec A)) (generation : Z → string) : outcome ExecutionGraph :=
  old_target ← job_vertex g target_id;
  if jv_concurrency old_target =? vs_concurrency new_spec then Ok g
  else
    let fresh := ExecutionJobVertex_init new_spec (jv_config old_target) generation in
    vertices ← retain old_target fresh generation;
    let new_target := mkJobVertex new_spec (jv_config old_target) (jv_output_queue old_target) vertices in
    let job_vertices := dict_set target_id new_target (xg_job_vertices g) in
    job_edges ← mapM_outcome (λ e : Z * Z * PartitionerSpec A,
      s ← of_option KeyError (dict_get e.1.1 job_vertices);
      t ← of_option KeyError (dict_get e.1.2 job_vertices);
      ExecutionJobEdge_init s t e.2) edges;
    ExecutionGraph_init (xg_namespace g) job_vertices job_edges (xg_topology_epochs g).

(** [rescale_operator], from a rescaled logical graph. *)
Definition rescale_from_logical (g : ExecutionGraph) (logical : LogicalGraph F P A) (operator_id : OperatorId) (generation : Z → string)
    : outcome ExecutionGraph :=
  target ← resolve_operator logical operator_id;
  if negb (bool_decide (list_to_set (vx_index <$> (lg_vertices logical).*1) = (list_to_set (xg_job_vertices g).*1 : gset Z))) then Err ValueError
  else
    new_spec ← of_option RuntimeError (snd <$> head (filter (λ e, vx_index e.1 = vx_index target) (lg_vertices logical)));
    rescale_operator_spec g (vx_index target) new_spec
      ((λ e, (vx_index (es_source e), vx_index (es_target e), es_partitioner e)) <$> lg_edges logical) generation.

(** The partitioner of an edge of a resized operator. *)
Definition refit (g : ExecutionGraph) (operator_id parallelism : Z) (e : ExecutionJobEdge) : outcome (Z * Z * PartitionerSpec A) :=
  partitioner ←
    (if bool_decide (operator_id = je_source e ∨ operator_id = je_target e) && is_forward (je_partitioner e) then
       source_parallelism ← (if je_source e =? operator_id then Ok parallelism else v ← job_vertex g (je_source e); Ok (jv_concurrency v));
       target_parallelism ← (if je_target e =? operator_id then Ok parallelism else v ← job_vertex g (je_target e); Ok (jv_concurrency v));
       Ok (if source_parallelism =? target_parallelism then je_partitioner e
           else default_partitioner (Scalar source_parallelism) (Scalar target_parallelism))
     else Ok (je_partitioner e));
  Ok (je_source e, je_target e, partitioner).

Definition resize_operator (g : ExecutionGraph) (operator_id parallelism : pyarg) (generation : Z → string) : outcome ExecutionGraph :=
  match operator_id, parallelism with
  | AInt j, AInt n =>
      if n <=? 0 then Err ValueError
      else
        old_target ← job_vertex g j;
        resources ← with_concurrency n (vs_resources (jv_spec old_target));
        edges ← mapM_outcome (refit g j n) (xg_job_edges g);
        rescale_operator_spec g j (with_resources resources (jv_spec old_target)) edges generation
  | _, _ => Err TypeError
  end.

Definition mark_rescale_epoch (j : Z) (operation_id : string) (g : ExecutionGraph) : outcome ExecutionGraph :=
  if negb (bool_decide (j ∈ (xg_job_vertices g).*1)) then Err KeyError
  else if bool_decide (operation_id = "") then Err ValueError
  else Ok (mkExecutionGraph (xg_namespace g) (xg_job_vertices g) (xg_job_edges g)
         (foldl (λ epochs e, if bool_decide (j = je_source e ∨ j = je_target e) then <[je_pair e := operation_id]> epochs else epochs)
            (xg_topology_epochs g) (xg_job_edges g))).

Definition topology_epoch (g : ExecutionGraph) (source target : Z) : option string := xg_topology_epochs g !! (source, target).

(** ** What the coordinator is given *)

(** The graph as [Checkpoints] reads it. *)
Definition coordinator_view (hexdigest : string → string) (g : ExecutionGraph) : outcome Checkpoints.ExecutionGraph :=
  splits ← barrier_splits g;
  domains ← checkpoint_domains hexdigest g;
  Ok (mkGraph (xg_namespace g)
        ((λ v, mkVertex (xv_id v) (bool_decide (is_Some (rt_stream_task (xv_runtime v)))) (bool_decide (rt_status (xv_runtime v) = VFINISHED))
                 (rt_restore_operation_id (xv_runtime v))) <$> execution_vertices g)
        (xv_id <$> source_execution_vertices g) (xv_id <$> sink_execution_vertices g)
        domains (execution_edges g)
        ((λ e : vid * gmap vid Z, (e.1, map_to_list e.2)) <$> map_to_list (splits : alignment))).
End execution.
Arguments ExecutionVertex : clear implicits.
Arguments ExecutionJobVertex : clear implicits.
Arguments ExecutionJobEdge : clear implicits.
Arguments ExecutionGraph : clear implicits.
