(* ===== verification/Topology.v ===== *)
(** * The topology of the execution graph

    What [PhysicalGraph] derives from a graph: [built] says how a graph's channels come
    about, every graph that [expand] and [resize_operator] make has it ([Resizing]).
    The checkpoint domains are the connected components of the channels. *)
From stdpp Require Import relations.
From Stdlib Require Import QArith.Qcanon.
From S2P Require Import Prelude Dicts Checkpoints KeyGroups Rows InputBatching Partitioning Graphs Plans LogicalGraph PhysicalGraph.
Open Scope Z_scope.

(** A loop that extends a list by what each element gives. *)
Lemma foldM_concat {B C} (f : B → outcome (list C)) l acc res :
  foldM (λ acc x, created ← f x; Ok (acc ++ created)) acc l = Ok res ↔
  ∃ parts, mapM_outcome f l = Ok parts ∧ res = acc ++ mjoin parts.
Proof.
  revert acc. induction l as [|x l IH]; intros acc; cbn.
  - split; [intros [= <-]; exists []; by rewrite app_nil_r|]. intros (parts & [= <-] & ->). by rewrite app_nil_r.
  - destruct (f x) as [c|e]; cbn; [|split; [done|]; by intros (? & ? & _)]. rewrite IH. split.
    + intros (parts & -> & ->). exists (c :: parts). split; [done|]. cbn. by rewrite app_assoc.
    + intros (parts & E & ->). destruct (mapM_outcome f l) as [ps|]; [|done]. injection E as <-. exists ps. cbn. by rewrite app_assoc.
Qed.

Lemma foldM_ext {B C} (f g : C → B → outcome C) l acc : (∀ acc x, f acc x = g acc x) → foldM f acc l = foldM g acc l.
Proof. intros Hfg. revert acc. induction l as [|x l IH]; intros acc; cbn; [done|]. rewrite Hfg. by destruct (g acc x). Qed.

Section topology.
Context {F P A H : Type} `{!Recipes F P A}.
Implicit Types (g : ExecutionGraph F P A H) (j : Z) (v u s : vid).

Abbreviation ExecutionJobVertex := (ExecutionJobVertex F P H).
Abbreviation ExecutionJobEdge := (ExecutionJobEdge A).

(** An operator has the subtasks of its parallelism. *)
Definition expanded j (o : ExecutionJobVertex) : Prop :=
  jv_id o = j ∧ (jv_vertices o).*1 = seqZ 0 (jv_concurrency o) ∧ (∀ i x, (i, x) ∈ jv_vertices o → xv_id x = mkVertexId j i).

(** A graph whose channels are those its partitioners wire, and which passed the checks
    of the constructor. *)
Record built g : Prop := {
  built_namespace : xg_namespace g ≠ "";
  built_keys : NoDup (xg_job_vertices g).*1;
  built_operator j o : (j, o) ∈ xg_job_vertices g → expanded j o;
  built_edge e : e ∈ xg_job_edges g → ∃ o t, (je_source e, o) ∈ xg_job_vertices g ∧ (je_target e, t) ∈ xg_job_vertices g ∧
    create_execution_edges o t (je_partitioner e) = Ok (je_execution_edges e);
  built_pairs : NoDup (job_pairs (xg_job_edges g));
  built_roots j o : (j, o) ∈ xg_job_vertices g →
    source (vs_operator (jv_spec o)) = true ↔ ∀ i, ¬ flows (job_pairs (xg_job_edges g)) i j;
  built_acyclic : acyclic (job_pairs (xg_job_edges g))
}.

(** The channels of one operator edge. *)
Lemma create_execution_edges_spec js jt (s t : ExecutionJobVertex) (p : PartitionerSpec A) edges :
  expanded js s → expanded jt t → create_execution_edges s t p = Ok edges →
  NoDup edges ∧ (∀ u v, (u, v) ∈ edges ↔ ∃ i k, 0 <= i < jv_concurrency s ∧ channel (ps_topology p) (jv_concurrency s) (jv_concurrency t) i k ∧
    u = mkVertexId js i ∧ v = mkVertexId jt k).
Proof.
  intros (Hs1 & Hs2 & Hs3) (Ht1 & Ht2 & Ht3) E. unfold create_execution_edges in E.
  set (row := λ i, targets ← target_indices (ps_topology p) (jv_concurrency s) (jv_concurrency t) i;
    mapM_outcome (λ k, x ← jv_execution_vertex s i; y ← jv_execution_vertex t k; Ok (xv_id x, xv_id y)) targets) in *.
  assert (E' : foldM (λ acc i, created ← row i; Ok (acc ++ created)) [] (seqZ 0 (jv_concurrency s)) = Ok edges).
  { rewrite <-E. apply foldM_ext. intros acc i. unfold row. by destruct (target_indices _ _ _ i). }
  apply foldM_concat in E' as (parts & Hparts & ->). cbn [app]. apply mapM_outcome_Ok in Hparts.
  assert (Hrow : ∀ i part, row i = Ok part → ∃ ks, target_indices (ps_topology p) (jv_concurrency s) (jv_concurrency t) i = Ok ks ∧
    part = (λ k, (mkVertexId js i, mkVertexId jt k)) <$> ks).
  { intros i part Hi. unfold row in Hi. destruct (target_indices _ _ _ i) as [ks|]; [|done]. cbn in Hi. exists ks. split; [done|].
    apply mapM_outcome_Ok in Hi. induction Hi as [|k e ks part Hk _ IH]; [done|]. cbn. rewrite IH. f_equal.
    unfold jv_execution_vertex in Hk. destruct (dict_get i (jv_vertices s)) as [x|] eqn:Ex; [|done].
    destruct (dict_get k (jv_vertices t)) as [y|] eqn:Ey; [|done]. injection Hk as <-.
    apply dict_get_In in Ex, Ey. by rewrite (Hs3 _ _ Ex), (Ht3 _ _ Ey). }
  assert (Hin : ∀ u v, (u, v) ∈ mjoin parts ↔ ∃ i k, 0 <= i < jv_concurrency s ∧ channel (ps_topology p) (jv_concurrency s) (jv_concurrency t) i k ∧
    u = mkVertexId js i ∧ v = mkVertexId jt k).
  { intros u v. rewrite list_elem_of_join. split.
    - intros (part & Hin & Hpart). destruct (Forall2_elem_of_r _ _ _ _ Hparts Hpart) as (i & Hi & Ei).
      destruct (Hrow i part Ei) as (ks & Eks & ->). apply list_elem_of_fmap in Hin as (k & [= -> ->] & Hk).
      exists i, k. apply elem_of_seqZ in Hi. split_and!; [lia|lia|by exists ks|done|done].
    - intros (i & k & Hi & (ks & Eks & Hk) & -> & ->). destruct (Forall2_elem_of_l _ _ _ i Hparts) as (part & Hpart & Ei); [apply elem_of_seqZ; lia|].
      exists part. split; [|done]. destruct (Hrow i part Ei) as (ks' & Eks' & ->). rewrite Eks in Eks'. injection Eks' as <-.
      apply list_elem_of_fmap. by exists k. }
  split; [|exact Hin]. clear Hin E Hs2.
  pose proof (NoDup_seqZ 0 (jv_concurrency s)) as Hnd. assert (Hrange : ∀ i, i ∈ seqZ 0 (jv_concurrency s) → 0 <= i < jv_concurrency s) by (intros i Hi%elem_of_seqZ; lia).
  induction Hparts as [|i part idx parts Hi Hparts IH]; [constructor|]. cbn. apply NoDup_cons in Hnd as [Hni Hnd].
  destruct (Hrow i part Hi) as (ks & Eks & ->). apply NoDup_app. split_and!.
  - apply NoDup_fmap_2_strong; [by intros ???? [= ->]|]. specialize (Hrange i ltac:(by left)).
    unfold target_indices in Eks. repeat case_match; try done; injection Eks as <-; try apply NoDup_singleton; [apply NoDup_seqZ|].
    apply NoDup_range_step. lia.
  - intros e (k & -> & _)%list_elem_of_fmap (part & Hin & Hpart)%list_elem_of_join.
    destruct (Forall2_elem_of_r _ _ _ _ Hparts Hpart) as (i' & Hi' & Ei). destruct (Hrow i' part Ei) as (ks' & _ & ->).
    apply list_elem_of_fmap in Hin as (k' & [= <- <-] & _). done.
  - apply IH; [done|]. intros i' ?. apply Hrange. by right.
Qed.

(** ** Subtasks and channels of a graph *)

Section graph.
Context g (Hg : built g).

Abbreviation channels := (execution_edges g).
Abbreviation pairs := (job_pairs (xg_job_edges g)).

Lemma operator_unique j (o o' : ExecutionJobVertex) : (j, o) ∈ xg_job_vertices g → (j, o') ∈ xg_job_vertices g → o = o'.
Proof using Hg.
  intros Ho Ho'. pose proof (built_keys g Hg) as Hnd. apply (dict_get_Some _ _ _ Hnd) in Ho, Ho'. congruence.
Qed.

Lemma elem_of_vertex_ids v :
  v ∈ vertex_ids g ↔ ∃ o : ExecutionJobVertex, (job_vertex_id v, o) ∈ xg_job_vertices g ∧ 0 <= vertex_index v < jv_concurrency o.
Proof using Hg.
  unfold vertex_ids, execution_vertices. rewrite list_elem_of_fmap. setoid_rewrite list_elem_of_bind. split.
  - intros (x & -> & ([j o] & Hx & Ho)). unfold subtasks in Hx. apply list_elem_of_fmap in Hx as ([i x'] & -> & Hx). cbn in *.
    destruct (built_operator g Hg _ _ Ho) as (_ & Hkeys & Hids). rewrite (Hids _ _ Hx). cbn. exists o. split; [done|].
    assert (i ∈ (jv_vertices o).*1) as Hi by (apply list_elem_of_fmap; by exists (i, x')). rewrite Hkeys in Hi. apply elem_of_seqZ in Hi. lia.
  - intros (o & Ho & Hi). destruct (built_operator g Hg _ _ Ho) as (_ & Hkeys & Hids).
    assert (vertex_index v ∈ (jv_vertices o).*1) as Hin by (rewrite Hkeys; apply elem_of_seqZ; lia).
    apply list_elem_of_fmap in Hin as ([i x] & Ei & Hx). cbn in Ei. exists x. rewrite (Hids _ _ Hx), <-Ei. split; [by destruct v|].
    exists (job_vertex_id v, o). split; [|done]. unfold subtasks. apply list_elem_of_fmap. by exists (i, x).
Qed.

Lemma NoDup_vertex_ids : NoDup (vertex_ids g).
Proof using Hg.
  unfold vertex_ids, execution_vertices. pose proof (built_keys g Hg) as Hnd. pose proof (built_operator g Hg) as Hop.
  clear Hg. induction (xg_job_vertices g) as [|[j o] vs IH]; [constructor|]. cbn in *. apply NoDup_cons in Hnd as [Hj Hnd].
  rewrite fmap_app. destruct (Hop j o ltac:(by left)) as (_ & Hkeys & Hids). apply NoDup_app. split_and!.
  - unfold subtasks. rewrite <-list_fmap_compose. assert (Hk : NoDup (jv_vertices o).*1) by (rewrite Hkeys; apply NoDup_seqZ).
    clear Hkeys. induction (jv_vertices o) as [|[i x] xs IHx]; [constructor|]. cbn in *. apply NoDup_cons in Hk as [Hi Hk]. constructor.
    + rewrite list_elem_of_fmap. intros ([i' x'] & E & Hx). cbn in E. rewrite (Hids i x), (Hids i' x') in E by (by left || by right).
      injection E as <-. apply Hi, list_elem_of_fmap. by exists (i, x').
    + apply IHx; [|done]. intros ???. apply Hids. by right.
  - intros v (x & -> & Hx)%list_elem_of_fmap (y & E & Hy)%list_elem_of_fmap. unfold subtasks in Hx.
    apply list_elem_of_fmap in Hx as ([i x'] & -> & Hx). apply list_elem_of_bind in Hy as ([j' o'] & Hy & Ho').
    unfold subtasks in Hy. apply list_elem_of_fmap in Hy as ([i' y'] & -> & Hy). cbn in *.
    destruct (Hop j' o' ltac:(by right)) as (_ & _ & Hids'). rewrite (Hids _ _ Hx), (Hids' _ _ Hy) in E. injection E as -> ->.
    apply Hj, list_elem_of_fmap. by exists (j', o').
  - apply IH; [done|]. intros j' o' ?. apply Hop. by right.
Qed.

(** A channel belongs to the edge between the operators of its ends. *)
Lemma channel_of e u v :
  e ∈ xg_job_edges g → (u, v) ∈ je_execution_edges e →
  job_vertex_id u = je_source e ∧ job_vertex_id v = je_target e ∧ u ∈ vertex_ids g ∧ v ∈ vertex_ids g.
Proof using Hg.
  intros He Huv. destruct (built_edge g Hg e He) as (o & t & Ho & Ht & E).
  pose proof (built_operator g Hg _ _ Ho) as Eo. pose proof (built_operator g Hg _ _ Ht) as Et.
  destruct (create_execution_edges_spec _ _ o t _ _ Eo Et E) as [_ Hin]. destruct (proj1 (Hin u v) Huv) as (i & k & Hi & Hc & Eu & Ev). rewrite Eu, Ev. cbn.
  split_and!; [done..| |]; apply elem_of_vertex_ids; cbn.
  - by exists o.
  - exists t. split; [done|].
    destruct Hc as (ks & Eks & Hk). unfold target_indices in Eks.
    repeat case_match; try done; injection Eks as <-.
    + apply elem_of_seqZ in Hk. lia.
    + apply list_elem_of_singleton in Hk as ->. lia.
    + apply list_elem_of_singleton in Hk as ->. pose proof (Z.mod_pos_bound i (jv_concurrency t)). lia.
    + apply elem_of_range_step in Hk as [? _]; lia.
Qed.

Lemma channel_flows u v : flows channels u v → flows pairs (job_vertex_id u) (job_vertex_id v) ∧ u ∈ vertex_ids g ∧ v ∈ vertex_ids g.
Proof using Hg.
  unfold flows at 1, execution_edges. intros (e & Huv & He)%list_elem_of_bind.
  destruct (channel_of e u v He Huv) as (Eu & Ev & ? & ?). split; [|done]. unfold flows. rewrite Eu, Ev.
  apply list_elem_of_fmap. by exists e.
Qed.

Lemma channels_ends e : e ∈ channels → e.1 ∈ vertex_ids g ∧ e.2 ∈ vertex_ids g.
Proof using Hg. destruct e as [u v]. intros Huv. by apply (channel_flows u v). Qed.

Lemma NoDup_channels : NoDup channels.
Proof using Hg.
  unfold execution_edges. pose proof (built_pairs g Hg) as Hnd. unfold job_pairs in Hnd.
  assert (Hall : ∀ e, e ∈ xg_job_edges g → NoDup (je_execution_edges e) ∧
    ∀ u v, (u, v) ∈ je_execution_edges e → (job_vertex_id u, job_vertex_id v) = je_pair e).
  { intros e He. destruct (built_edge g Hg e He) as (o & t & Ho & Ht & E).
    destruct (create_execution_edges_spec _ _ o t _ _ (built_operator g Hg _ _ Ho) (built_operator g Hg _ _ Ht) E) as [? _]. split; [done|].
    intros u v Huv. destruct (channel_of e u v He Huv) as (-> & -> & _). done. }
  induction (xg_job_edges g) as [|e es IH]; [constructor|]. cbn in *. apply NoDup_cons in Hnd as [He Hnd]. apply NoDup_app. split_and!.
  - apply Hall. by left.
  - intros [u v] Huv (e' & Huv' & He')%list_elem_of_bind. apply He. destruct (Hall e ltac:(by left)) as [_ H1].
    destruct (Hall e' ltac:(by right)) as [_ H2]. rewrite <-(H1 u v Huv), (H2 u v Huv'). apply list_elem_of_fmap. by exists e'.
  - apply IH; [done|]. intros e' ?. apply Hall. by right.
Qed.

(** The channels into the subtasks of one operator. *)
Lemma elem_of_in_channels j u v :
  (u, v) ∈ (in_edges_by_job_vertex g j ≫= je_execution_edges) ↔ flows channels u v ∧ job_vertex_id v = j.
Proof using Hg.
  unfold in_edges_by_job_vertex, flows, execution_edges. rewrite !list_elem_of_bind. setoid_rewrite list_elem_of_filter. split.
  - intros (e & Huv & Ej & He). split; [by exists e|]. by destruct (channel_of e u v He Huv) as (_ & -> & _).
  - intros ((e & Huv & He) & Ej). exists e. split_and!; [done| |done]. by destruct (channel_of e u v He Huv) as (_ & <- & _).
Qed.

Lemma NoDup_in_channels j : NoDup (in_edges_by_job_vertex g j ≫= je_execution_edges).
Proof using Hg.
  pose proof NoDup_channels as Hnd. unfold execution_edges in Hnd. unfold in_edges_by_job_vertex. clear Hg.
  eapply sublist_NoDup; [exact Hnd|]. induction (xg_job_edges g) as [|e es IH]; [done|]. rewrite filter_cons. cbn in *.
  apply NoDup_app in Hnd as (_ & _ & Hnd). case_decide; cbn; [by apply sublist_app, IH|]. apply sublist_inserts_l. by apply IH.
Qed.

(** ** Checkpoint domains *)

#[local] Instance vid_le_total : Total vid_le.
Proof. intros [j i] [j' i']. unfold vid_le. cbn. lia. Qed.
#[local] Instance vid_le_trans : Transitive vid_le.
Proof. intros [j i] [j' i'] [j'' i'']. unfold vid_le. cbn. lia. Qed.
#[local] Instance vid_le_antisym : AntiSymm (=) vid_le.
Proof. intros [j i] [j' i']. unfold vid_le. cbn. intros ??. f_equal; lia. Qed.

Lemma components_spec :
  mjoin (components g) ≡ₚ vertex_ids g ∧
  ∀ c, c ∈ components g → c ≠ [] ∧ StronglySorted vid_le c ∧ (∀ v u, v ∈ c → u ∈ c ↔ linked channels v u).
Proof using Hg.
  destruct (undirected_components (vertex_ids g) channels NoDup_vertex_ids channels_ends) as (H1 & H2 & H3).
  unfold components. split.
  - rewrite merge_sort_Permutation. etrans; [|exact H1]. clear. induction (connected_components _ _) as [|c cs IH]; [done|]. cbn.
    by rewrite merge_sort_Permutation, IH.
  - intros c. rewrite merge_sort_Permutation. intros (c' & -> & Hc)%list_elem_of_fmap. split_and!.
    + intros E. apply (H2 c' Hc). apply Permutation_nil. by rewrite <-E, merge_sort_Permutation.
    + apply StronglySorted_merge_sort; apply _.
    + intros v u. rewrite !merge_sort_Permutation. intros Hv. by apply (H3 c' v Hc Hv).
Qed.

Lemma component_nodup c : c ∈ components g → NoDup c.
Proof using Hg.
  intros (l & r & E)%list_elem_of_split. destruct components_spec as [Hp _]. pose proof NoDup_vertex_ids as Hnd.
  rewrite <-Hp, E, join_app in Hnd. cbn in Hnd. by apply NoDup_app in Hnd as (_ & _ & (? & _ & _)%NoDup_app).
Qed.

Lemma CheckpointDomain_init_Ok id c p q :
  id ≠ "" → c ≠ [] → NoDup c → (∀ v, v ∈ p → v ∈ c) → (∀ v, v ∈ q → v ∈ c) → CheckpointDomain_init id c p q = Ok (mkDomain id c p q).
Proof using.
  intros Hid Hc Hnd Hp Hq. unfold CheckpointDomain_init. rewrite !bool_decide_eq_false_2 by done. rewrite bool_decide_eq_true_2 by done. cbn.
  by rewrite !bool_decide_eq_true_2 by (by apply Forall_forall).
Qed.

Definition domain_of (hexdigest : string → string) (c : list vid) : CheckpointDomain :=
  mkDomain (checkpoint_domain_id hexdigest c) c (filter (.∈ (list_to_set (xv_id <$> source_execution_vertices g) : gset vid)) c)
    (filter (.∈ (list_to_set (xv_id <$> sink_execution_vertices g) : gset vid)) c).

Lemma checkpoint_domains_Ok hexdigest : checkpoint_domains hexdigest g = Ok (domain_of hexdigest <$> components g).
Proof using Hg.
  unfold checkpoint_domains. apply mapM_outcome_total. intros c Hc. destruct components_spec as [_ Hspec].
  apply CheckpointDomain_init_Ok; [done|by apply Hspec|by apply component_nodup|..]; by intros v [_ ?]%list_elem_of_filter.
Qed.
End graph.

(** C7. The checkpoint domains are the weakly connected components of the channels, and
    they are always valid domains: every subtask is in exactly one, two subtasks are in the
    same domain exactly if an undirected path of channels links them, and the sources and
    sinks of a domain are the sources and sinks of the job in it.  Members are listed in the
    order of their ids, and the id of a domain is computed from them alone. *)
Theorem checkpoint_domains_components (hexdigest : string → string) g :
  built g →
  ∃ domains, checkpoint_domains hexdigest g = Ok domains ∧
    mjoin (dom_vertex_ids <$> domains) ≡ₚ vertex_ids g ∧ NoDup (vertex_ids g) ∧
    ∀ d, d ∈ domains →
      dom_id d = checkpoint_domain_id hexdigest (dom_vertex_ids d) ∧
      dom_vertex_ids d ≠ [] ∧ StronglySorted vid_le (dom_vertex_ids d) ∧
      (∀ v u, v ∈ dom_vertex_ids d → u ∈ dom_vertex_ids d ↔ linked (execution_edges g) v u) ∧
      (∀ v, v ∈ dom_source_vertex_ids d ↔ v ∈ dom_vertex_ids d ∧ v ∈ xv_id <$> source_execution_vertices g) ∧
      (∀ v, v ∈ dom_sink_vertex_ids d ↔ v ∈ dom_vertex_ids d ∧ v ∈ xv_id <$> sink_execution_vertices g).
Proof.
  intros Hg. exists (domain_of g hexdigest <$> components g). destruct (components_spec g Hg) as [Hjoin Hspec].
  split_and!; [by apply checkpoint_domains_Ok| |by apply NoDup_vertex_ids|].
  - rewrite <-list_fmap_compose. unfold compose. cbn. by rewrite list_fmap_id.
  - intros d (c & -> & Hc)%list_elem_of_fmap. destruct (Hspec c Hc) as (Hne & Hs & Hl). cbn. split_and!; [done..| |];
      intros v; rewrite list_elem_of_filter, elem_of_list_to_set; tauto.
Qed.
End topology.
