(* ===== verification/BarrierSplits.v ===== *)
(** * Barriers and acknowledgements

    The counts of [barrier_splits] ([execution_graph.py]) are exactly the barriers a subtask
    receives from a source: one per channel from a subtask that the source reaches.  What
    the coordinator waits for ([coordinator_ack_counts] of [checkpoint_io.py]) agrees with
    the sinks it finds by its own search ([_reachable_domain_sinks]). *)
From stdpp Require Import relations.
From Stdlib Require Import QArith.Qcanon.
From S2P Require Import Prelude Dicts Checkpoints KeyGroups Rows InputBatching Partitioning Graphs Plans LogicalGraph PhysicalGraph Topology.
Open Scope Z_scope.

(** ** The loops over one dictionary *)

Definition count_of (al : alignment) (v s : vid) : option Z := al !! v ≫= λ counts, counts !! s.

Lemma count_of_default al v s : default (∅ : gmap vid Z) (al !! v) !! s = count_of al v s.
Proof. unfold count_of. by destruct (al !! v); cbn; [|rewrite lookup_empty]. Qed.

Lemma bump_counts (job : Z) (keys : list vid) s : ∀ counts : gmap vid Z, NoDup keys →
  foldl (λ (counts : gmap vid Z) k, if job_vertex_id k =? job then <[k := default 0 (counts !! k) + 1]> counts else counts) counts keys !! s =
  (if decide (job_vertex_id s = job ∧ s ∈ keys) then Some (default 0 (counts !! s) + 1) else counts !! s).
Proof.
  induction keys as [|k keys IH]; intros counts Hnd; cbn [foldl].
  { rewrite decide_False; [done|]. by intros [_ ?%not_elem_of_nil]. }
  apply NoDup_cons in Hnd as [Hk Hnd]. rewrite IH by done. destruct (decide (k = s)) as [->|Hne].
  - rewrite (decide_False (P := _ ∧ s ∈ keys)) by tauto. destruct (Z.eqb_spec (job_vertex_id s) job) as [E|E].
    + rewrite decide_True by (split; [done|by left]). by rewrite lookup_insert_eq.
    + by rewrite decide_False by tauto.
  - assert (Hl : (if job_vertex_id k =? job then <[k := default 0 (counts !! k) + 1]> counts else counts) !! s = counts !! s).
    { destruct (_ =? _); [by rewrite lookup_insert_ne|done]. }
    rewrite Hl. destruct (decide (job_vertex_id s = job ∧ s ∈ keys)) as [[? ?]|Hno].
    + rewrite decide_True; [done|]. split; [done|by right].
    + rewrite decide_False; [done|]. intros [? [?|?]%elem_of_cons]; [congruence|tauto].
Qed.

Lemma align_edge_count job al e v s :
  count_of (align_edge job al e) v s =
  if decide (e.2 = v ∧ job_vertex_id s = job ∧ is_Some (count_of al e.1 s)) then Some (default 0 (count_of al v s) + 1) else count_of al v s.
Proof.
  unfold align_edge. destruct (decide (e.2 = v)) as [<-|Hne].
  - unfold count_of at 1. rewrite lookup_insert_eq. cbn. rewrite bump_counts by apply NoDup_fst_map_to_list. rewrite count_of_default.
    assert (Hiff : s ∈ (map_to_list (default (∅ : gmap vid Z) (al !! e.1))).*1 ↔ is_Some (count_of al e.1 s)).
    { rewrite <-count_of_default, list_elem_of_fmap. split.
      - intros ([s' n] & -> & Hin). apply elem_of_map_to_list in Hin. by exists n.
      - intros [n Hn]. exists (s, n). split; [done|]. by apply elem_of_map_to_list. }
    destruct (decide (job_vertex_id s = job ∧ s ∈ _)) as [[? ?]|Hno].
    + rewrite decide_True; [done|]. tauto.
    + rewrite decide_False; [done|]. tauto.
  - rewrite (decide_False (P := e.2 = v ∧ _)) by tauto. unfold count_of. by rewrite lookup_insert_ne.
Qed.

Definition counted (al : alignment) (v s : vid) (edges : list (vid * vid)) : list (vid * vid) :=
  filter (λ e, e.2 = v ∧ is_Some (count_of al e.1 s)) edges.

(** A pass over edges none of which continues another. *)
Lemma align_edges_count job edges v s : ∀ al,
  (∀ e e', e ∈ edges → e' ∈ edges → e.1 ≠ e'.2) →
  count_of (foldl (align_edge job) al edges) v s =
  if decide (job_vertex_id s = job ∧ counted al v s edges ≠ []) then Some (default 0 (count_of al v s) + Z.of_nat (length (counted al v s edges)))
  else count_of al v s.
Proof.
  induction edges as [|e edges IH]; intros al Hends; cbn [foldl].
  { rewrite decide_False by (by intros [_ ?]). done. }
  assert (Hsrc : ∀ e' , e' ∈ edges → ∀ s, count_of (align_edge job al e) e'.1 s = count_of al e'.1 s).
  { intros e' He' s'. rewrite align_edge_count, decide_False; [done|]. intros [E _]. apply (Hends e' e); [by right|by left|done]. }
  rewrite IH by (intros e1 e2 ??; apply Hends; by right). rewrite align_edge_count.
  assert (Hc : counted (align_edge job al e) v s edges = counted al v s edges).
  { apply Prelude.filter_ext_in. intros e' He'. by rewrite Hsrc. }
  assert (Hcons : counted al v s (e :: edges) = if decide (e.2 = v ∧ is_Some (count_of al e.1 s)) then e :: counted al v s edges else counted al v s edges).
  { unfold counted. by rewrite filter_cons. }
  rewrite Hc, Hcons.
  destruct (decide (job_vertex_id s = job)) as [Hj|Hj].
  - destruct (decide (e.2 = v ∧ is_Some (count_of al e.1 s))) as [[? ?]|He].
    + rewrite (decide_True (P := e.2 = v ∧ _ ∧ _)) by done. rewrite (decide_True (P := _ ∧ _ :: _ ≠ [])) by done. cbn [default length].
      destruct (counted al v s edges); [|rewrite decide_True by done; cbn; f_equal; lia].
      rewrite decide_False by (by intros [_ ?]). done.
    + rewrite (decide_False (P := e.2 = v ∧ _ ∧ _)) by tauto. done.
  - rewrite !decide_False by tauto. done.
Qed.

Lemma seed_counts (seeds : list vid) v s : ∀ al : alignment,
  count_of (foldl (λ (al : alignment) x, <[x := {[x := 1]}]> al) al seeds) v s =
  if decide (v ∈ seeds) then (if decide (v = s) then Some 1 else None) else count_of al v s.
Proof.
  induction seeds as [|x seeds IH]; intros al; cbn [foldl]; [rewrite decide_False; [done|apply not_elem_of_nil]|]. rewrite IH.
  destruct (decide (v ∈ seeds)) as [?|Hv]; [rewrite (decide_True (P := v ∈ x :: seeds)) by (by right); done|].
  unfold count_of at 1. destruct (decide (x = v)) as [->|Hne].
  - rewrite lookup_insert_eq, (decide_True (P := v ∈ v :: seeds)) by (by left). cbn. case_decide; [subst; apply lookup_singleton_eq|by apply lookup_singleton_ne].
  - rewrite lookup_insert_ne, (decide_False (P := v ∈ x :: seeds)); [done| |done]. intros [?|?]%elem_of_cons; [congruence|done].
Qed.

(** ** The counts of a graph *)

Section splits.
Context {F P A H : Type} `{!Recipes F P A}.
Context (g : ExecutionGraph F P A H) (Hg : built g).
Implicit Types (v u s : vid) (al : alignment) (j : Z).

Abbreviation channels := (execution_edges g).

(** A subtask sends, directly or over others, to another. *)
Definition reaches s v : Prop := rtc (flows channels) s v.

(** The barriers of a source that a subtask receives: its own trigger, or one per channel
    from a subtask that the source reaches. *)
Definition barriers_from s v (n : Z) : Prop :=
  (v = s ∧ n = 1) ∨
  (v ≠ s ∧ ∃ inputs, NoDup inputs ∧ inputs ≠ [] ∧ (∀ u, u ∈ inputs ↔ flows channels u v ∧ reaches s u) ∧ n = Z.of_nat (length inputs)).

Definition split_ok s v (n : option Z) : Prop :=
  match n with Some n => barriers_from s v n | None => ¬ reaches s v end.

Lemma split_ok_reaches s v n : split_ok s v n → is_Some n ↔ reaches s v.
Proof using.
  destruct n as [n|]; cbn; [|intros Hno; split; [by intros [? ?]|by intros ?]]. intros Hn. split; [intros _|by eexists].
  destruct Hn as [[-> _]|(_ & inputs & _ & Hne & Hin & _)]; [apply rtc_refl|]. destruct inputs as [|u inputs]; [done|].
  destruct (proj1 (Hin u)) as [Huv Hsu]; [by left|]. by eapply rtc_r.
Qed.

(** The last channel of a path. *)
Lemma reaches_inv s v : reaches s v → v = s ∨ ∃ u, flows channels u v ∧ reaches s u.
Proof using. intros [->|(u & ? & ?)]%rtc_inv_r; [by left|right; by exists u]. Qed.

Lemma root_not_reached s v : (∀ i, ¬ flows (job_pairs (xg_job_edges g)) i (job_vertex_id v)) → v ≠ s → ¬ reaches s v.
Proof using Hg.
  intros Hroot Hne [?|(u & Huv & _)]%reaches_inv; [done|]. apply (channel_flows g Hg) in Huv as [Huv _]. by eapply Hroot.
Qed.

(** After the operators [before], with [job] the operator of the sources. *)
Definition aligned_up_to (job : Z) (before : list Z) al : Prop :=
  ∀ s, s ∈ vertex_ids g → job_vertex_id s = job → ∀ v,
    ((job_vertex_id v = job ∨ job_vertex_id v ∈ before) → split_ok s v (count_of al v s)) ∧
    (job_vertex_id v ≠ job → job_vertex_id v ∉ before → count_of al v s = None).

Lemma propagate_count job al j v s :
  count_of (propagate_source_alignment g job al j) v s =
  let edges := in_edges_by_job_vertex g j ≫= je_execution_edges in
  if decide (job_vertex_id s = job ∧ counted al v s edges ≠ []) then Some (default 0 (count_of al v s) + Z.of_nat (length (counted al v s edges)))
  else count_of al v s.
Proof using Hg.
  unfold propagate_source_alignment. apply align_edges_count. intros [u x] [u' x'] He He'. cbn. intros <-.
  apply (elem_of_in_channels g Hg) in He as [Hux Hx], He' as [_ Hu]. apply (channel_flows g Hg) in Hux as [Hux _].
  rewrite Hu, Hx in Hux. apply (built_acyclic g Hg j). by apply tc_once.
Qed.

Lemma counted_elsewhere al v s j : job_vertex_id v ≠ j → counted al v s (in_edges_by_job_vertex g j ≫= je_execution_edges) = [].
Proof using Hg.
  intros Hv. destruct (counted _ _ _ _) as [|[u x] l] eqn:E; [done|]. exfalso.
  assert ((u, x) ∈ counted al v s (in_edges_by_job_vertex g j ≫= je_execution_edges)) as [[Hx _] Hin]%list_elem_of_filter by (rewrite E; by left).
  cbn in Hx. subst x. apply (elem_of_in_channels g Hg) in Hin as [_ ?]. done.
Qed.

Lemma aligned_step job before al j :
  aligned_up_to job before al → j ≠ job → j ∉ before →
  (∀ i, flows (job_pairs (xg_job_edges g)) i j → i = job ∨ i ∈ before) →
  aligned_up_to job (before ++ [j]) (propagate_source_alignment g job al j).
Proof using Hg.
  intros Hal Hj Hbefore Hinputs s Hs Hsj v. rewrite propagate_count. cbn zeta. destruct (Hal s Hs Hsj v) as [H1 H2].
  destruct (decide (job_vertex_id v = j)) as [Ev|Ev].
  2:{ rewrite counted_elsewhere, decide_False by (done || by intros [_ ?]). split; [|set_solver]. intros Hv. apply H1. set_solver. }
  split; [intros _|set_solver]. assert (Hnone : count_of al v s = None) by (apply H2; congruence). rewrite Hnone. cbn [default].
  assert (Hsome : ∀ u, flows channels u v → is_Some (count_of al u s) ↔ reaches s u).
  { intros u Huv. apply split_ok_reaches, Hal; [done..|]. apply Hinputs. apply (channel_flows g Hg) in Huv as [Huv _]. by rewrite Ev in Huv. }
  assert (Hcounted : ∀ e, e ∈ counted al v s (in_edges_by_job_vertex g j ≫= je_execution_edges) ↔ e.2 = v ∧ flows channels e.1 v ∧ reaches s e.1).
  { intros [u x]. unfold counted. rewrite list_elem_of_filter, (elem_of_in_channels g Hg). cbn. split.
    - intros [[-> Hu] [Hux _]]. split_and!; [done..|]. by apply Hsome.
    - intros (-> & Huv & Hsu). split_and!; [done| |done..]. by apply Hsome. }
  assert (Hvs : v ≠ s) by (intros ->; congruence).
  destruct (decide _) as [[_ Hne]|Hno]; cbn.
  - right. split; [done|]. exists (counted al v s (in_edges_by_job_vertex g j ≫= je_execution_edges)).*1. split_and!.
    + apply NoDup_fmap_2_strong; [|by apply NoDup_filter, (NoDup_in_channels g Hg)].
      intros [u x] [u' x'] [Hx _]%Hcounted [Hx' _]%Hcounted E. cbn in *. congruence.
    + by intros ?%fmap_nil_inv.
    + intros u. rewrite list_elem_of_fmap. split.
      * by intros ([u' x] & -> & (_ & ? & ?)%Hcounted).
      * intros [Huv Hsu]. exists (u, v). split; [done|]. by apply Hcounted.
    + by rewrite length_fmap.
  - intros [?|(u & Huv & Hsu)]%reaches_inv; [done|]. apply Hno. split; [done|]. intros E.
    assert ((u, v) ∈ counted al v s (in_edges_by_job_vertex g j ≫= je_execution_edges)) as Hin by (by apply Hcounted).
    rewrite E in Hin. by apply not_elem_of_nil in Hin.
Qed.

Lemma propagate_other job al j v s : job_vertex_id s ≠ job → count_of (propagate_source_alignment g job al j) v s = count_of al v s.
Proof using Hg. intros Hs. rewrite propagate_count. cbn zeta. by rewrite decide_False by tauto. Qed.

(** ** The order of the operators *)

Lemma enqueue_pushes : pushes enqueue.
Proof using. intros j ready. unfold enqueue. symmetry. apply Permutation_cons_append. Qed.

Lemma job_pairs_ends p : p ∈ job_pairs (xg_job_edges g) → p.1 ∈ (xg_job_vertices g).*1 ∧ p.2 ∈ (xg_job_vertices g).*1.
Proof using Hg.
  intros (e & -> & He)%list_elem_of_fmap. destruct (built_edge g Hg e He) as (o & t & Ho & Ht & _). cbn.
  split; apply list_elem_of_fmap; [by exists (je_source e, o)|by exists (je_target e, t)].
Qed.

Lemma topological_job_vertices_Ok :
  ∃ order, topological_job_vertices (xg_job_vertices g) (xg_job_edges g) = Ok order ∧
    order ≡ₚ (xg_job_vertices g).*1 ∧ inputs_first (job_pairs (xg_job_edges g)) order.
Proof using Hg.
  destruct (topological_order_spec enqueue (successors (job_pairs (xg_job_edges g))) (xg_job_vertices g).*1 (job_pairs (xg_job_edges g))
    enqueue_pushes (built_keys g Hg) job_pairs_ends (λ _, reflexivity _)) as [Hlen Hok].
  pose proof (proj2 Hlen (built_acyclic g Hg)) as E. destruct (Hok E) as [Hp Hf].
  eexists. split_and!; [|exact Hp|exact Hf]. unfold topological_job_vertices. rewrite length_fmap in E. by rewrite E, Nat.eqb_refl.
Qed.

(** ** One source operator *)

Lemma elem_of_subtasks_of jobs v : v ∈ xv_id <$> subtasks_of g jobs ↔ v ∈ vertex_ids g ∧ job_vertex_id v ∈ jobs.
Proof using Hg.
  rewrite (elem_of_vertex_ids g Hg). unfold subtasks_of. rewrite list_elem_of_fmap. setoid_rewrite list_elem_of_bind. split.
  - intros (x & -> & (j & Hx & Hj)). destruct (dict_get j (xg_job_vertices g)) as [o|] eqn:Eo; [|by apply not_elem_of_nil in Hx].
    apply dict_get_In in Eo. apply list_elem_of_fmap in Hx as ([i x'] & -> & Hx).
    destruct (built_operator g Hg _ _ Eo) as (_ & Hkeys & Hids). cbn. rewrite (Hids _ _ Hx). cbn. split; [|done]. exists o. split; [done|].
    assert (i ∈ (jv_vertices o).*1) as Hi by (apply list_elem_of_fmap; by exists (i, x')). rewrite Hkeys in Hi. apply elem_of_seqZ in Hi. lia.
  - intros ((o & Ho & Hi) & Hj). destruct (built_operator g Hg _ _ Ho) as (_ & Hkeys & Hids).
    assert (vertex_index v ∈ (jv_vertices o).*1) as Hin by (rewrite Hkeys; apply elem_of_seqZ; lia).
    apply list_elem_of_fmap in Hin as ([i x] & Ei & Hx). cbn in Ei. exists x. rewrite (Hids _ _ Hx), <-Ei. split; [by destruct v|].
    exists (job_vertex_id v). split; [|done]. rewrite (proj2 (dict_get_Some _ _ _ (built_keys g Hg)) Ho). unfold subtasks. apply list_elem_of_fmap. by exists (i, x).
Qed.

Definition seeded job al : alignment := foldl (λ al x, <[xv_id x := {[xv_id x := 1]}]> al) al (subtasks_of g [job]).

Lemma seeded_count job al v s :
  count_of (seeded job al) v s =
  if decide (v ∈ vertex_ids g ∧ job_vertex_id v = job) then (if decide (v = s) then Some 1 else None) else count_of al v s.
Proof using Hg.
  assert (E : seeded job al = foldl (λ (al : alignment) x, <[x := {[x := 1]}]> al) al (xv_id <$> subtasks_of g [job])).
  { unfold seeded. generalize al. induction (subtasks_of g [job]) as [|x xs IH]; intros a; [done|]. cbn. apply IH. }
  rewrite E, seed_counts. assert (Hiff : v ∈ xv_id <$> subtasks_of g [job] ↔ v ∈ vertex_ids g ∧ job_vertex_id v = job).
  { by rewrite elem_of_subtasks_of, list_elem_of_singleton. }
  destruct (decide (v ∈ xv_id <$> _)); [rewrite (decide_True (P := _ ∧ _)) by tauto|rewrite (decide_False (P := _ ∧ _)) by tauto]; done.
Qed.

Definition pass job (order : list Z) al : alignment :=
  foldl (λ al j, if j =? job then al else propagate_source_alignment g job al j) al order.

Lemma pass_aligned job rest : ∀ before al,
  NoDup (before ++ rest) → inputs_first (job_pairs (xg_job_edges g)) (before ++ rest) →
  aligned_up_to job before al → aligned_up_to job (before ++ rest) (pass job rest al).
Proof using Hg.
  induction rest as [|j rest IH]; intros before al Hnd Hf Hal; [by rewrite app_nil_r|]. cbn.
  rewrite (cons_middle j before rest), app_assoc in *. apply IH; [done..|]. rewrite <-app_assoc in Hnd, Hf. destruct (Z.eqb_spec j job) as [->|Hj].
  - intros s Hs Hsj v. destruct (Hal s Hs Hsj v) as [H1 H2]. split; [intros Hv; apply H1; set_solver|intros ??; apply H2; set_solver].
  - apply aligned_step; [done..| |].
    + apply NoDup_app in Hnd as (_ & Hnd & _). intros Hin. apply (Hnd j Hin). by left.
    + intros i Hi. right. by eapply Hf.
Qed.

Lemma pass_other job order v s : job_vertex_id s ≠ job → ∀ al, count_of (pass job order al) v s = count_of al v s.
Proof using Hg.
  intros Hs. unfold pass. induction order as [|j order IH]; intros al; [done|]. cbn. rewrite IH. destruct (_ =? _); [done|].
  by apply propagate_other.
Qed.

Lemma accumulate_aligned order job al :
  NoDup order → inputs_first (job_pairs (xg_job_edges g)) order → (∀ i, ¬ flows (job_pairs (xg_job_edges g)) i job) →
  (∀ v s, job_vertex_id s = job → count_of al v s = None) →
  aligned_up_to job order (accumulate_barrier_splits g order al job).
Proof using Hg.
  intros Hnd Hf Hroot Hal. apply (pass_aligned job order [] (seeded job al)); [done..|].
  intros s Hs Hsj v. rewrite seeded_count. split.
  - intros [Hv|?%not_elem_of_nil]; [|done]. destruct (decide (v = s)) as [->|Hvs].
    { rewrite decide_True by done. by left. }
    assert (Hn : (if decide (v ∈ vertex_ids g ∧ job_vertex_id v = job) then None else count_of al v s) = None) by (case_decide; [done|by apply Hal]).
    rewrite Hn. apply root_not_reached; [|done]. by rewrite Hv.
  - intros Hv _. rewrite decide_False by tauto. by apply Hal.
Qed.

(** What was counted for the sources of other operators stays. *)
Lemma accumulate_other order job al v s :
  job_vertex_id s ≠ job → (job_vertex_id v = job → count_of al v s = None) →
  count_of (accumulate_barrier_splits g order al job) v s = count_of al v s.
Proof using Hg.
  intros Hs Hv. etrans; [exact (pass_other job order v s Hs (seeded job al))|]. rewrite seeded_count. case_decide as Hd; [|done].
  destruct Hd as [_ Hd]. rewrite decide_False by congruence. by rewrite Hv.
Qed.

Lemma accumulate_strange order job al v s :
  s ∉ vertex_ids g → (∀ v, count_of al v s = None) → count_of (accumulate_barrier_splits g order al job) v s = None.
Proof using Hg.
  intros Hs Hal. unfold accumulate_barrier_splits. fold (seeded job al). fold (pass job order (seeded job al)).
  assert (Hseed : ∀ v, count_of (seeded job al) v s = None).
  { intros w. rewrite seeded_count. case_decide as Hd; [|done]. rewrite decide_False; [done|]. intros ->. tauto. }
  revert v. unfold pass. generalize (seeded job al) Hseed. clear Hseed. induction order as [|j order IH]; intros a Ha v; [done|]. cbn.
  apply IH. intros w. destruct (_ =? _); [done|]. rewrite propagate_count. cbn zeta. rewrite decide_False; [done|]. intros [_ Hne]. apply Hne.
  destruct (counted _ _ _ _) as [|e l] eqn:E; [done|]. exfalso.
  assert (e ∈ counted a w s (in_edges_by_job_vertex g j ≫= je_execution_edges)) as [[_ Hsome] _]%list_elem_of_filter by (rewrite E; by left).
  rewrite Ha in Hsome. by destruct Hsome.
Qed.

(** ** All of them *)

Definition all_splits_ok (jobs : list Z) al : Prop := ∀ s v,
  (s ∈ vertex_ids g → job_vertex_id s ∈ jobs → split_ok s v (count_of al v s)) ∧
  (s ∉ vertex_ids g ∨ job_vertex_id s ∉ jobs → count_of al v s = None).

Lemma vertex_job v : v ∈ vertex_ids g → job_vertex_id v ∈ (xg_job_vertices g).*1.
Proof using Hg. rewrite (elem_of_vertex_ids g Hg). intros (o & Ho & _). apply list_elem_of_fmap. by exists (job_vertex_id v, o). Qed.

Lemma all_splits order rest : ∀ jobs al,
  order ≡ₚ (xg_job_vertices g).*1 → inputs_first (job_pairs (xg_job_edges g)) order →
  (∀ j i, j ∈ rest → ¬ flows (job_pairs (xg_job_edges g)) i j) → NoDup (jobs ++ rest) →
  all_splits_ok jobs al → all_splits_ok (jobs ++ rest) (foldl (accumulate_barrier_splits g order) al rest).
Proof using Hg.
  induction rest as [|job rest IH]; intros jobs al Hp Hf Hroots Hnd Hal; [by rewrite app_nil_r|]. cbn.
  assert (Hjob : job ∉ jobs) by (apply NoDup_app in Hnd as (_ & Hnd & _); intros Hin; apply (Hnd job Hin); by left).
  rewrite (cons_middle job jobs rest), app_assoc in *. apply IH; [done..|by intros; apply Hroots; right|done|].
  assert (Hroot : ∀ i, ¬ flows (job_pairs (xg_job_edges g)) i job) by (intros i; apply Hroots; by left).
  assert (Hnd' : NoDup order) by (rewrite Hp; apply (built_keys g Hg)).
  pose proof (accumulate_aligned order job al Hnd' Hf Hroot (λ v s Hs, proj2 (Hal s v) (or_intror (eq_ind_r (λ x, x ∉ jobs) Hjob Hs)))) as Hnew.
  intros s v. destruct (Hal s v) as [H1 H2]. split.
  - intros Hs [Hin|Hin%list_elem_of_singleton]%elem_of_app.
    + rewrite accumulate_other; [by apply H1|congruence|]. intros Hv. specialize (H1 Hs Hin). destruct (count_of al v s) as [n|] eqn:En; [|done].
      exfalso. eapply root_not_reached; [by rewrite Hv| |]; [|by apply (split_ok_reaches s v (Some n))]. intros ->. congruence.
    + destruct (Hnew s Hs Hin v) as [Hok Hnone]. destruct (decide (job_vertex_id v = job ∨ job_vertex_id v ∈ order)) as [|Hno]; [by apply Hok|].
      rewrite Hnone by tauto. intros [->|(u & Huv & _)]%reaches_inv; [tauto|]. apply (channel_flows g Hg) in Huv as (_ & _ & Hv%vertex_job).
      rewrite Hp in Hno. tauto.
  - intros [Hs|Hs].
    + apply accumulate_strange; [done|]. intros w. apply (Hal s w). by left.
    + rewrite accumulate_other; [apply H2; right; set_solver|set_solver|]. intros _. apply H2. right. set_solver.
Qed.

Lemma source_job_vertices_root j : j ∈ source_job_vertices g → ∀ i, ¬ flows (job_pairs (xg_job_edges g)) i j.
Proof using Hg.
  unfold source_job_vertices. intros ([j' o] & -> & [Hs Ho]%list_elem_of_filter)%list_elem_of_fmap. cbn in *. by apply (built_roots g Hg j' o).
Qed.

Lemma barrier_splits_ok : ∃ splits, barrier_splits g = Ok splits ∧ all_splits_ok (source_job_vertices g) splits.
Proof using Hg.
  destruct topological_job_vertices_Ok as (order & E & Hp & Hf). unfold barrier_splits. rewrite E, bind_Ok. eexists. split; [done|].
  apply (all_splits order (source_job_vertices g) []); [done..| | |].
  - intros j i Hj. by apply source_job_vertices_root.
  - cbn. unfold source_job_vertices. eapply sublist_NoDup; [apply (built_keys g Hg)|]. apply fmap_sublist, filter_sublist.
  - intros s v. split; [by intros _ ?%not_elem_of_nil|]. intros _. unfold count_of. by rewrite lookup_empty.
Qed.

Lemma barriers_from_pos s v n : barriers_from s v n → n ≠ 0.
Proof using. intros [[_ ->]|(_ & inputs & _ & Hne & _ & ->)]; [done|]. destruct inputs; [done|]. cbn. lia. Qed.

Lemma split_count_pos jobs al v s n : all_splits_ok jobs al → count_of al v s = Some n → n ≠ 0.
Proof using.
  intros Hok En. destruct (Hok s v) as [H1 H2]. destruct (decide (s ∈ vertex_ids g ∧ job_vertex_id s ∈ jobs)) as [[Hs Hj]|Hs].
  - specialize (H1 Hs Hj). rewrite En in H1. by eapply barriers_from_pos.
  - rewrite H2 in En; [done|]. destruct (decide (s ∈ vertex_ids g)); tauto.
Qed.

Lemma barriers_from_unique s v n m : barriers_from s v n → barriers_from s v m → n = m.
Proof using.
  intros [[-> ->]|(Hne & l & Hl & _ & Hin & ->)] [[? ->]|(Hne' & k & Hk & _ & Hin' & ->)]; [done..|].
  f_equal. apply Permutation_length, NoDup_Permutation; [done..|]. intros u. by rewrite Hin, Hin'.
Qed.
End splits.

(** C8. The barriers a subtask aligns are counted exactly: [barrier_splits] has an entry
    for a subtask and a source subtask if and only if the source reaches it over the
    channels, and the count is one for the source itself and otherwise the number of its
    input channels that come from subtasks the source reaches, which is what every barrier
    of this source is multiplied into on its way. *)
Theorem barrier_splits_exact {F P A H} `{!Recipes F P A} (g : ExecutionGraph F P A H) :
  built g →
  ∃ splits, barrier_splits g = Ok splits ∧
    ∀ v s n, count_of splits v s = Some n ↔ s ∈ xv_id <$> source_execution_vertices g ∧ barriers_from g s v n.
Proof.
  intros Hg. destruct (barrier_splits_ok g Hg) as (splits & E & Hok). exists splits. split; [done|]. intros v s n.
  unfold source_execution_vertices. rewrite (elem_of_subtasks_of g Hg). destruct (Hok s v) as [H1 H2]. split.
  - intros En. destruct (decide (s ∈ vertex_ids g ∧ job_vertex_id s ∈ source_job_vertices g)) as [Hs|Hs].
    + split; [done|]. specialize (H1 (proj1 Hs) (proj2 Hs)). by rewrite En in H1.
    + rewrite H2 in En; [done|]. destruct (decide (s ∈ vertex_ids g)); tauto.
  - intros [[Hs Hj] Hn]. specialize (H1 Hs Hj). destruct (count_of splits v s) as [m|] eqn:Em; cbn in H1.
    + f_equal. by eapply barriers_from_unique.
    + exfalso. apply H1. apply (split_ok_reaches g s v (Some n) Hn). by eexists.
Qed.

(** ** What the coordinator waits for *)

(** The search of [_reachable_domain_sinks]. *)
Lemma reach_spec (edges : list (vid * vid)) fuel : ∀ stack (seen : gset vid),
  (length stack + length (filter (λ e, e.1 ∉ seen) edges) <= fuel)%nat →
  let result := reach fuel (λ v, snd <$> filter (λ e, e.1 = v) edges) stack seen in
  (∀ v, v ∈ seen ∨ v ∈ stack → v ∈ result) ∧
  (∀ v, v ∈ result → v ∈ seen ∨ ∃ s, s ∈ stack ∧ rtc (flows edges) s v) ∧
  (∀ v u, v ∈ result → v ∉ seen → flows edges v u → u ∈ result).
Proof.
  induction fuel as [|fuel IH]; intros [|v stack] seen Hf; cbn [reach]; try (cbn in Hf; lia).
  1-2: split_and!; [intros v [?|?%not_elem_of_nil]; done|by left|done].
  case_bool_decide as Hv.
  - destruct (IH stack seen) as (H1 & H2 & H3); [cbn in Hf; lia|]. split_and!; [| |done].
    + intros u [?|[->|?]%elem_of_cons]; apply H1; auto.
    + intros u [?|(s & ? & ?)]%H2; [by left|]. right. exists s. split; [by right|done].
  - set (targets := snd <$> filter (λ e, e.1 = v) edges).
    assert (Htargets : ∀ u, u ∈ targets ↔ flows edges v u).
    { intros u. subst targets. unfold flows. rewrite list_elem_of_fmap. split.
      - intros ([a b] & -> & [Ha Hin]%list_elem_of_filter). cbn in *. by subst.
      - intros Hin. exists (v, u). split; [done|]. by apply list_elem_of_filter. }
    assert (Hsplit : (length targets + length (filter (λ e, e.1 ∉ {[v]} ∪ seen) edges) = length (filter (λ e, e.1 ∉ seen) edges))%nat).
    { subst targets. rewrite length_fmap. clear -Hv. induction edges as [|[a b] edges IH]; [done|]. rewrite !filter_cons. cbn [fst].
      destruct (decide (a = v)) as [->|Hne]; [rewrite decide_False, decide_True by set_solver; cbn; lia|].
      destruct (decide (a ∈ seen)); [rewrite !decide_False by set_solver; done|]. rewrite !decide_True by set_solver. cbn. lia. }
    destruct (IH (reverse targets ++ stack) ({[v]} ∪ seen)) as (H1 & H2 & H3); [rewrite length_app, length_reverse; cbn in Hf; lia|].
    split_and!.
    + intros u [?|[->|?]%elem_of_cons]; apply H1; [left; set_solver|left; set_solver|right; apply elem_of_app; by right].
    + intros u [[->%elem_of_singleton|?]%elem_of_union|(s & [Hs|Hs]%elem_of_app & Hsu)]%H2.
      * right. exists v. split; [by left|done].
      * by left.
      * rewrite elem_of_reverse, Htargets in Hs. right. exists v. split; [by left|]. by eapply rtc_l.
      * right. exists s. split; [by right|done].
    + intros x u Hx Hxs Hxu. destruct (decide (x = v)) as [->|Hne]; [|apply (H3 x); [done|set_solver|done]].
      apply H1. right. apply elem_of_app. left. by rewrite elem_of_reverse, Htargets.
Qed.

(** The acknowledgements of one sink. *)
Lemma count_splits_lookup (counts : gmap vid Z) (acks : gmap vid Z) s :
  (∀ s n, counts !! s = Some n → n ≠ 0) →
  default 0 (foldl count_split acks (map_to_list counts) !! s) = default 0 (acks !! s) + (if decide (is_Some (counts !! s)) then 1 else 0).
Proof.
  intros Hpos. assert (Hall : ∀ l : list (vid * Z), NoDup l.*1 → (∀ p, p ∈ l → p.2 ≠ 0) → ∀ acks : gmap vid Z,
    default 0 (foldl count_split acks l !! s) = default 0 (acks !! s) + (if decide (s ∈ l.*1) then 1 else 0)).
  { induction l as [|[x n] l IH]; intros Hnd Hp a; cbn [foldl fmap list_fmap].
    { rewrite decide_False by apply not_elem_of_nil. lia. }
    cbn in Hnd. apply NoDup_cons in Hnd as [Hx Hnd]. rewrite IH by (done || (intros ??; apply Hp; by right)). unfold count_split at 1. cbn [fst snd].
    assert (n ≠ 0) as Hn by (apply (Hp (x, n)); by left). rewrite (proj2 (Z.eqb_neq n 0) Hn). destruct (decide (x = s)) as [->|Hne].
    - rewrite lookup_insert_eq, (decide_False (P := s ∈ l.*1)), (decide_True (P := s ∈ s :: _)) by (done || by left). cbn. lia.
    - rewrite lookup_insert_ne by done. destruct (decide (s ∈ l.*1)) as [Hs|Hs].
      + rewrite (decide_True (P := s ∈ x :: _)) by (by right). lia.
      + rewrite (decide_False (P := s ∈ x :: _)); [lia|]. intros [?|?]%elem_of_cons; congruence. }
  rewrite Hall.
  - f_equal. assert (Hiff : s ∈ (map_to_list counts).*1 ↔ is_Some (counts !! s)).
    { rewrite list_elem_of_fmap. split; [intros ([? n] & -> & Hin); apply elem_of_map_to_list in Hin; by exists n|].
      intros [n Hn]. exists (s, n). split; [done|]. by apply elem_of_map_to_list. }
    destruct (decide (s ∈ _)); [rewrite decide_True by tauto|rewrite decide_False by tauto]; done.
  - apply NoDup_fst_map_to_list.
  - intros [x n] Hin%elem_of_map_to_list. by eapply Hpos.
Qed.

Lemma find_first_exists {B} (p : B → bool) (l : list B) x : x ∈ l → p x = true → ∃ y, find_first p l = Some y ∧ y ∈ l ∧ p y = true.
Proof.
  intros Hx Hp. induction l as [|y l IH]; [by apply not_elem_of_nil in Hx|]. cbn. destruct (p y) eqn:Ey.
  - exists y. split_and!; [done|by left|done].
  - apply elem_of_cons in Hx as [->|Hx]; [congruence|]. destruct (IH Hx) as (z & ? & ? & ?). exists z. split_and!; [done|by right|done].
Qed.

(** FORWARD channels are only created between operators of equal parallelism. *)
Lemma created_forward {F P A H} (o t : ExecutionJobVertex F P H) (p : PartitionerSpec A) edges :
  create_execution_edges o t p = Ok edges → 0 < jv_concurrency o → 0 < jv_concurrency t →
  ps_topology p = FORWARD → jv_concurrency o = jv_concurrency t.
Proof.
  intros E Ho Ht Ef. unfold create_execution_edges in E. rewrite Ef in E.
  rewrite (seqZ_cons 0 (jv_concurrency o)) in E by lia. cbn [foldM] in E.
  destruct (target_indices FORWARD (jv_concurrency o) (jv_concurrency t) 0) eqn:Et; [|done]. clear E. unfold target_indices in Et.
  repeat case_match; try done. by apply Z.eqb_eq, negb_false_iff.
Qed.

Section acknowledgements.
Context {F P A H : Type} `{!Recipes F P A}.
Context (g : ExecutionGraph F P A H) (Hg : built g).
Context (positive : ∀ j o, (j, o) ∈ xg_job_vertices g → 0 < jv_concurrency o).
Implicit Types (v u s : vid) (j i : Z).

(** Every input operator feeds every subtask. *)
Lemma input_exists v i :
  v ∈ vertex_ids g → flows (job_pairs (xg_job_edges g)) i (job_vertex_id v) → ∃ u, flows (execution_edges g) u v ∧ job_vertex_id u = i.
Proof using Hg positive.
  intros Hv (e & [= Ei Ej] & He)%list_elem_of_fmap. destruct (built_edge g Hg e He) as (o & t & Ho & Ht & E).
  pose proof (proj2 (create_execution_edges_spec _ _ o t _ _ (built_operator g Hg _ _ Ho) (built_operator g Hg _ _ Ht) E)) as Hin.
  apply (elem_of_vertex_ids g Hg) in Hv as (t' & Ht' & Hv). rewrite Ej in Ht'. rewrite <-(operator_unique g Hg _ _ _ Ht Ht') in Hv.
  pose proof (positive _ _ Ho) as Hpo. pose proof (positive _ _ Ht) as Hpt.
  pose proof (created_forward o t _ _ E Hpo Hpt) as Hfwd.
  destruct (targets_reached (ps_topology (je_partitioner e)) _ _ (vertex_index v) Hpo Hpt Hfwd Hv) as (k & Hk & Hc).
  exists (mkVertexId (je_source e) k). split; [|done]. unfold flows, execution_edges. apply list_elem_of_bind. exists e. split; [|done].
  apply Hin. exists k, (vertex_index v). split_and!; [lia|lia|done|done|]. rewrite <-Ej. by destruct v.
Qed.

(** Every subtask is reached by a source. *)
Lemma source_exists v : v ∈ vertex_ids g → ∃ s, s ∈ xv_id <$> source_execution_vertices g ∧ reaches g s v.
Proof using Hg positive.
  destruct (topological_job_vertices_Ok g Hg) as (order & _ & Hp & Hf). intros Hv.
  assert (Hj : job_vertex_id v ∈ order) by (rewrite Hp; by apply vertex_job).
  apply list_elem_of_split in Hj as (before & after & E). remember (length before) as n eqn:En. revert v Hv before after E En.
  induction (lt_wf n) as [n _ IH]. intros v Hv before after E En.
  destruct (decide (in_degree (job_pairs (xg_job_edges g)) (job_vertex_id v) = 0%nat)) as [Hz|Hz].
  - exists v. split; [|apply rtc_refl]. unfold source_execution_vertices. rewrite (elem_of_subtasks_of g Hg). split; [done|].
    apply (elem_of_vertex_ids g Hg) in Hv as (o & Ho & _). unfold source_job_vertices. apply list_elem_of_fmap. exists (job_vertex_id v, o).
    split; [done|]. apply list_elem_of_filter. split; [|done]. apply (built_roots g Hg _ _ Ho). intros i Hi.
    assert (0 < open_inputs (job_pairs (xg_job_edges g)) [] (job_vertex_id v))%nat; [|rewrite open_inputs_nil in *; lia].
    apply open_inputs_pos. exists i. split; [done|apply not_elem_of_nil].
  - assert (0 < open_inputs (job_pairs (xg_job_edges g)) [] (job_vertex_id v))%nat as (i & Hi & _)%open_inputs_pos by (rewrite open_inputs_nil; lia).
    destruct (input_exists v i Hv Hi) as (u & Huv & Eu). pose proof (Hf before _ after E i Hi) as Hin.
    apply list_elem_of_split in Hin as (b & a & Eb). destruct (channel_flows g Hg u v Huv) as (_ & Hu & _).
    destruct (IH (length b)) with (v := u) (before := b) (after := a ++ job_vertex_id v :: after) as (s & Hs & Hsu); [|done| |done|].
    + subst. rewrite length_app. cbn. lia.
    + rewrite Eu, E, Eb, <-app_assoc. done.
    + exists s. split; [done|]. by eapply rtc_r.
Qed.

Lemma NoDup_subtasks_of jobs : NoDup jobs → NoDup (xv_id <$> subtasks_of g jobs).
Proof using Hg.
  induction jobs as [|j jobs IH]; intros Hnd; [constructor|]. apply NoDup_cons in Hnd as [Hj Hnd].
  change (subtasks_of g (j :: jobs)) with ((match dict_get j (xg_job_vertices g) with Some v => subtasks v | None => [] end) ++ subtasks_of g jobs).
  rewrite fmap_app. apply NoDup_app. split_and!; [| |by apply IH].
  - destruct (dict_get j (xg_job_vertices g)) as [o|] eqn:Eo; [|constructor]. apply dict_get_In in Eo.
    destruct (built_operator g Hg _ _ Eo) as (_ & Hkeys & Hids). unfold subtasks. rewrite <-list_fmap_compose.
    apply NoDup_fmap_2_strong.
    + intros [k x] [k' x'] Hx Hx' E. cbn in E. rewrite (Hids _ _ Hx), (Hids _ _ Hx') in E. injection E as <-.
      assert (Hk : NoDup (jv_vertices o).*1) by (rewrite Hkeys; apply NoDup_seqZ).
      apply (dict_get_Some _ _ _ Hk) in Hx, Hx'. congruence.
    + apply (NoDup_fmap_1 fst). rewrite Hkeys. apply NoDup_seqZ.
  - intros v Hv Hv'. apply elem_of_subtasks_of in Hv' as [_ Hv']; [|done]. assert (Hv1 : v ∈ xv_id <$> subtasks_of g [j]).
    { cbn. rewrite app_nil_r. done. }
    apply elem_of_subtasks_of in Hv1 as [_ E%list_elem_of_singleton]; [|done]. by rewrite E in Hv'.
Qed.

Lemma NoDup_sinks : NoDup (xv_id <$> sink_execution_vertices g).
Proof using Hg. apply NoDup_subtasks_of. unfold sink_job_vertices. apply NoDup_filter, (built_keys g Hg). Qed.

Lemma reach_ext (adj adj' : vid → list vid) fuel : (∀ v, adj v = adj' v) → ∀ stack seen, reach fuel adj stack seen = reach fuel adj' stack seen.
Proof using.
  intros Hadj. induction fuel as [|fuel IH]; intros [|v stack] seen; cbn [reach]; try done. rewrite Hadj. by destruct (bool_decide _).
Qed.

(** The search inside a domain finds what the source reaches. *)
Lemma domain_search hexdigest cv d s :
  coordinator_view hexdigest g = Ok cv → d ∈ eg_domains cv → s ∈ dom_vertex_ids d →
  ∀ v, v ∈ reachable_domain_sinks cv d [s] ↔ v ∈ xv_id <$> sink_execution_vertices g ∧ reaches g s v.
Proof using Hg.
  intros Ecv Hd Hs. unfold coordinator_view in Ecv. destruct (barrier_splits g) as [splits|]; [|done].
  rewrite bind_Ok, (checkpoint_domains_Ok g Hg), bind_Ok in Ecv. injection Ecv as <-. cbn [eg_domains] in Hd.
  apply list_elem_of_fmap in Hd as (c & -> & Hc). destruct (components_spec g Hg) as [_ Hspec]. destruct (Hspec c Hc) as (_ & _ & Hlinked). cbn in Hs.
  set (inside := filter (λ e, e.1 ∈ c ∧ e.2 ∈ c) (execution_edges g)).
  assert (Hinside : ∀ v, reaches g s v ↔ rtc (flows inside) s v).
  { assert (Hin : ∀ u v, u ∈ c → flows (execution_edges g) u v → flows inside u v ∧ v ∈ c).
    { intros u v Hu Huv. assert (v ∈ c) by (apply (Hlinked u v Hu); by apply rtsc_lr). split; [|done]. by apply list_elem_of_filter. }
    intros v. split.
    - intros Hsv. induction Hsv as [|x y z Hxy _ IH]; [apply rtc_refl|]. destruct (Hin x y Hs Hxy) as [? ?]. eapply rtc_l; [done|by apply IH].
    - apply rtc_congruence with (f := id). intros x y [_ ?]%list_elem_of_filter. done. }
  intros v. unfold reachable_domain_sinks, sort_vertices. rewrite merge_sort_Permutation, elem_of_elements, elem_of_intersection.
  cbn [eg_edges dom_sink_vertex_ids domain_of]. rewrite elem_of_list_to_set, list_elem_of_filter, elem_of_list_to_set, Hinside.
  rewrite (reach_ext _ (λ v, snd <$> filter (λ e, e.1 = v) inside)).
  2:{ intros u. unfold domain_successors. cbn. f_equal. subst inside. rewrite list_filter_filter. apply list_filter_iff. intros e. tauto. }
  destruct (reach_spec inside (length [s] + length (execution_edges g)) (reverse [s]) ∅) as (H1 & H2 & H3).
  { rewrite length_reverse. apply Nat.add_le_mono_l. subst inside. etrans; apply length_filter. }
  change (reverse [s]) with [s] in *.
  assert (Hreach : v ∈ reach (length [s] + length (execution_edges g)) (λ v, snd <$> filter (λ e, e.1 = v) inside) [s] ∅ ↔ rtc (flows inside) s v).
  { split; [by intros [?%not_elem_of_empty|(x & ->%list_elem_of_singleton & ?)]%H2|]. intros Hsv.
    assert (Hstart : s ∈ reach (length [s] + length (execution_edges g)) (λ v, snd <$> filter (λ e, e.1 = v) inside) [s] ∅) by (apply H1; right; by left).
    set (r := reach _ _ _ _) in *. clear -H3 Hsv Hstart. clearbody r. induction Hsv as [|x y z Hxy _ IH]; [done|]. apply IH.
    apply (H3 x); [done|apply not_elem_of_empty|done]. }
  rewrite Hreach. split; [tauto|]. intros [Hv Hsv]. split_and!; [done..|].
  apply (Hlinked s v Hs). apply rtc_rtsc_rl. by apply Hinside.
Qed.

(** The loop over the sinks. *)
Lemma ack_loop (splits : alignment) sinks : ∀ acks : gmap vid Z,
  (∀ v, v ∈ sinks → is_Some (splits !! v)) → (∀ v s n, count_of splits v s = Some n → n ≠ 0) →
  ∃ acks', foldM (λ acks sink, counts ← of_option KeyError (dict_get sink ((λ e : vid * gmap vid Z, (e.1, map_to_list e.2)) <$> map_to_list splits));
                   Ok (foldl count_split acks counts)) acks sinks = Ok acks' ∧
    ∀ s, default 0 (acks' !! s) = default 0 (acks !! s) + Z.of_nat (length (filter (λ v, is_Some (count_of splits v s)) sinks)).
Proof using.
  induction sinks as [|v sinks IH]; intros acks Hin Hpos; cbn [foldM]; [exists acks; split; [done|]; intros s; cbn; lia|].
  destruct (Hin v ltac:(by left)) as [counts Ev].
  assert (Eget : dict_get v ((λ e : vid * gmap vid Z, (e.1, map_to_list e.2)) <$> map_to_list splits) = Some (map_to_list counts)).
  { apply dict_get_Some.
    - rewrite <-list_fmap_compose. unfold compose. cbn. apply NoDup_fst_map_to_list.
    - apply list_elem_of_fmap. exists (v, counts). split; [done|]. by apply elem_of_map_to_list. }
  rewrite Eget. cbn [of_option]. rewrite bind_Ok. destruct (IH (foldl count_split acks (map_to_list counts))) as (acks' & E & Hacks); [intros u ?; apply Hin; by right|done|].
  exists acks'. split; [exact E|]. intros s. rewrite Hacks, count_splits_lookup.
  - assert (Hc : count_of splits v s = counts !! s) by (unfold count_of; by rewrite Ev). rewrite filter_cons, Hc.
    destruct (decide (is_Some (counts !! s))); cbn [length]; lia.
  - intros u n Hu. apply (Hpos v u). unfold count_of. by rewrite Ev.
Qed.

End acknowledgements.

(** C3. What the coordinator waits for is what the sinks will send.  Of a graph whose
    operators have subtasks, the view the coordinator is given always exists; the
    acknowledgements it requires of a source subtask, counted from the barriers the sinks
    align, are as many as the sinks it finds reachable from this source by searching the
    source's checkpoint domain; and these are exactly the sink subtasks that the source
    reaches over the channels of the whole graph. *)
Theorem acknowledgements_agree {F P A H} `{!Recipes F P A} (hexdigest : string → string) (g : ExecutionGraph F P A H) :
  built g → (∀ j o, (j, o) ∈ xg_job_vertices g → 0 < jv_concurrency o) →
  ∃ view acks, coordinator_view hexdigest g = Ok view ∧ coordinator_ack_counts view = Ok acks ∧
    ∀ s, s ∈ xv_id <$> source_execution_vertices g →
      ∃ d, find_checkpoint_domain view s = Some d ∧
        default 0 (acks !! s) = Z.of_nat (length (reachable_domain_sinks view d [s])) ∧
        ∀ v, v ∈ reachable_domain_sinks view d [s] ↔ v ∈ xv_id <$> sink_execution_vertices g ∧ reaches g s v.
Proof.
  intros Hg Hpos. destruct (barrier_splits_ok g Hg) as (splits & Es & Hok).
  destruct (coordinator_view hexdigest g) as [view|] eqn:Ev.
  2:{ unfold coordinator_view in Ev. by rewrite Es, bind_Ok, (checkpoint_domains_Ok g Hg), bind_Ok in Ev. }
  assert (Hview : eg_sinks view = xv_id <$> sink_execution_vertices g ∧
    eg_barrier_splits view = (λ e : vid * gmap vid Z, (e.1, map_to_list e.2)) <$> map_to_list splits ∧
    eg_domains view = domain_of g hexdigest <$> components g).
  { pose proof Ev as Ev'. unfold coordinator_view in Ev'. rewrite Es, bind_Ok, (checkpoint_domains_Ok g Hg), bind_Ok in Ev'. by injection Ev' as <-. }
  destruct Hview as (Hsinks & Hsplits & Hdomains).
  destruct (ack_loop splits (xv_id <$> sink_execution_vertices g) ∅) as (acks & Ea & Hacks).
  { intros v Hv. unfold sink_execution_vertices in Hv. rewrite (elem_of_subtasks_of g Hg) in Hv. destruct Hv as [Hv _].
    destruct (source_exists g Hg Hpos v Hv) as (s & Hs & Hsv). unfold source_execution_vertices in Hs.
    rewrite (elem_of_subtasks_of g Hg) in Hs. apply (split_ok_reaches g s v _ (proj1 (Hok s v) (proj1 Hs) (proj2 Hs))) in Hsv as [n Hn].
    unfold count_of in Hn. destruct (splits !! v); [by eexists|done]. }
  { intros v s n. by eapply split_count_pos. }
  exists view, acks. split_and!; [done| |].
  { unfold coordinator_ack_counts. by rewrite Hsinks, Hsplits. }
  intros s Hs. assert (Hin : s ∈ vertex_ids g).
  { unfold source_execution_vertices in Hs. by apply (elem_of_subtasks_of g Hg) in Hs as [? _]. }
  destruct (components_spec g Hg) as [Hjoin _]. rewrite <-Hjoin in Hin. apply list_elem_of_join in Hin as (c & Hsc & Hc).
  destruct (find_first_exists (λ d, bool_decide (s ∈ dom_vertex_ids d)) (eg_domains view) (domain_of g hexdigest c)) as (d & Ed & Hd & Hsd).
  { rewrite Hdomains. apply list_elem_of_fmap. by exists c. }
  { by apply bool_decide_eq_true_2. }
  apply bool_decide_eq_true_1 in Hsd. pose proof (domain_search g Hg hexdigest view d s Ev Hd Hsd) as Hsearch.
  exists d. split_and!; [done| |done]. rewrite Hacks, lookup_empty. cbn [default]. rewrite Z.add_0_l. f_equal.
  apply Permutation_length, NoDup_Permutation.
  - apply NoDup_filter, (NoDup_sinks g Hg).
  - unfold reachable_domain_sinks, sort_vertices. rewrite merge_sort_Permutation. apply NoDup_elements.
  - intros v. rewrite Hsearch, list_elem_of_filter. unfold source_execution_vertices in Hs. apply (elem_of_subtasks_of g Hg) in Hs as [Hs1 Hs2].
    rewrite (split_ok_reaches g s v _ (proj1 (Hok s v) Hs1 Hs2)). tauto.
Qed.
