(* ===== verification/Resizing.v ===== *)
(** * Expansion and resizing of the execution graph

    Every graph that [expand] makes, and every graph that [resize_operator] makes of such a
    graph, is well formed ([built], [Topology]); a resize always succeeds, and keeps the
    actors of all subtasks but those it adds or removes. *)
From stdpp Require Import pretty relations.
From Stdlib Require Import QArith.Qcanon.
From S2P Require Import Prelude Dicts Checkpoints KeyGroups Rows InputBatching Partitioning Graphs Plans LogicalGraph PhysicalGraph Topology BarrierSplits.
Open Scope Z_scope.

Section construction.
Context {F P A H : Type} `{!Recipes F P A}.
Abbreviation JobVertex := (ExecutionJobVertex F P H).
Abbreviation JobEdge := (ExecutionJobEdge A).
Implicit Types (vertices : list (Z * JobVertex)) (edges : list JobEdge).

(** What the constructor checks. *)
Record checked vertices edges : Prop := {
  checked_ids j (o : JobVertex) : (j, o) ∈ vertices → jv_id o = j;
  checked_ends (e : JobEdge) : e ∈ edges → je_source e ∈ vertices.*1 ∧ je_target e ∈ vertices.*1;
  checked_pairs : NoDup (job_pairs edges);
  checked_roots j (o : JobVertex) : (j, o) ∈ vertices → source (vs_operator (jv_spec o)) = true ↔ ∀ i, ¬ flows (job_pairs edges) i j;
  checked_acyclic : acyclic (job_pairs edges)
}.

Lemma ids_loop vertices :
  (foldM (λ _ (e : Z * JobVertex), if negb (jv_id e.2 =? e.1) then Err ValueError else Ok ()) () vertices = Ok () ∧
     ∀ j (o : JobVertex), (j, o) ∈ vertices → jv_id o = j) ∨
  (foldM (λ _ (e : Z * JobVertex), if negb (jv_id e.2 =? e.1) then Err ValueError else Ok ()) () vertices = Err ValueError ∧
     ¬ ∀ j (o : JobVertex), (j, o) ∈ vertices → jv_id o = j).
Proof.
  induction vertices as [|[j o] vertices IH]; cbn [foldM fst snd]; [left; split; [done|]; by intros ?? ?%not_elem_of_nil|].
  destruct (Z.eqb_spec (jv_id o) j) as [E|E]; cbn [negb]; [|right; split; [done|]; intros Hall; apply E, Hall; by left].
  destruct IH as [[-> IH]|[-> IH]]; [left|right]; (split; [done|]).
  - intros k x [[= -> ->]|?]%elem_of_cons; [done|by apply IH].
  - intros Hall. apply IH. intros k x ?. apply Hall. by right.
Qed.

Lemma edges_loop vertices edges : ∀ seen, NoDup seen →
  let loop := foldM (λ pairs (e : JobEdge),
    if negb (bool_decide (je_source e ∈ vertices.*1) && bool_decide (je_target e ∈ vertices.*1)) then Err ValueError
    else if bool_decide (je_pair e ∈ pairs) then Err ValueError else Ok (pairs ++ [je_pair e])) seen edges in
  let fine := (∀ e : JobEdge, e ∈ edges → je_source e ∈ vertices.*1 ∧ je_target e ∈ vertices.*1) ∧ NoDup (seen ++ job_pairs edges) in
  (loop = Ok (seen ++ job_pairs edges) ∧ fine) ∨ (loop = Err ValueError ∧ ¬ fine).
Proof.
  induction edges as [|e edges IH]; intros seen Hseen loop fine; subst loop fine; cbn [foldM].
  { left. cbn. rewrite app_nil_r. split_and!; [done| |done]. by intros e ?%not_elem_of_nil. }
  destruct (bool_decide_reflect (je_source e ∈ vertices.*1)) as [E1|E1]; cbn [andb negb];
    [|right; split; [done|]; intros [Hall _]; apply E1, (Hall e); by left].
  destruct (bool_decide_reflect (je_target e ∈ vertices.*1)) as [E2|E2]; cbn [andb negb];
    [|right; split; [done|]; intros [Hall _]; apply E2, (Hall e); by left].
  case_bool_decide as E3.
  { right. split; [done|]. intros [_ Hnd]. unfold job_pairs in Hnd. cbn in Hnd. apply NoDup_app in Hnd as (_ & Hnd & _).
    apply (Hnd _ E3). by left. }
  cbv beta iota. unfold job_pairs. cbn [fmap list_fmap]. rewrite (cons_middle (je_pair e) seen (je_pair <$> edges)), (app_assoc seen).
  destruct (IH (seen ++ [je_pair e])) as [[-> [H1 H2]]|[-> Hno]].
  { apply NoDup_app. split_and!; [done| |apply NoDup_singleton]. by intros p Hp ->%list_elem_of_singleton. }
  - left. split_and!; [done| |done]. by intros d [->|?]%elem_of_cons; [|apply H1].
  - right. split; [done|]. intros [H1 H2]. apply Hno. split; [|done]. intros d ?. apply H1. by right.
Qed.

Lemma job_roots_spec vertices edges :
  NoDup vertices.*1 →
  (list_to_set vertices.*1 ∖ list_to_set (je_target <$> edges) : gset Z) =
    list_to_set (filter (λ e, source (vs_operator (jv_spec e.2)) = true) vertices).*1 ↔
  ∀ j (o : JobVertex), (j, o) ∈ vertices → source (vs_operator (jv_spec o)) = true ↔ ∀ i, ¬ flows (job_pairs edges) i j.
Proof.
  intros Hnd.
  assert (Htarget : ∀ j, j ∈ je_target <$> edges ↔ ∃ i, flows (job_pairs edges) i j).
  { intros j. unfold flows, job_pairs. setoid_rewrite list_elem_of_fmap. split.
    - intros (e & -> & He). exists (je_source e), e. done.
    - intros (i & e & [= -> ->] & He). by exists e. }
  assert (Hsrc : ∀ j, j ∈ (filter (λ e, source (vs_operator (jv_spec e.2)) = true) vertices).*1 ↔
    ∃ o : JobVertex, (j, o) ∈ vertices ∧ source (vs_operator (jv_spec o)) = true).
  { intros j. rewrite list_elem_of_fmap. split.
    - intros ([k o] & -> & [Hs Hin]%list_elem_of_filter). by exists o.
    - intros (o & Hin & Hs). exists (j, o). split; [done|]. by apply list_elem_of_filter. }
  rewrite set_eq. setoid_rewrite elem_of_difference. setoid_rewrite elem_of_list_to_set. setoid_rewrite Htarget. setoid_rewrite Hsrc. split.
  - intros Hall j o Hin. specialize (Hall j). split.
    + intros Hs i Hi. apply (proj2 Hall); [by exists o|by exists i].
    + intros Hno. destruct (proj1 Hall) as (o' & Hin' & Hs).
      { split; [apply list_elem_of_fmap; by exists (j, o)|]. by intros [i Hi%Hno]. }
      assert (Some o = Some o') as [= ->]; [|done].
      by rewrite <-(proj2 (dict_get_Some j o vertices Hnd)), <-(proj2 (dict_get_Some j o' vertices Hnd)).
  - intros Hall j. split.
    + intros [([k o] & -> & Hin)%list_elem_of_fmap Hno]. exists o. split; [done|]. apply (Hall k o Hin). intros i Hi. apply Hno. by exists i.
    + intros (o & Hin & Hs). split; [apply list_elem_of_fmap; by exists (j, o)|]. intros [i Hi]. by apply (proj1 (Hall j o Hin) Hs i).
Qed.

Lemma ExecutionGraph_init_spec ns vertices edges epochs :
  NoDup vertices.*1 → ns ≠ "" →
  match ExecutionGraph_init ns vertices edges epochs with
  | Ok g => g = mkExecutionGraph ns vertices edges epochs ∧ checked vertices edges
  | Err e => e = ValueError ∧ ¬ checked vertices edges
  end.
Proof.
  intros Hnd Hns. unfold ExecutionGraph_init. rewrite bool_decide_eq_false_2 by done. unfold validate_topology.
  destruct (ids_loop vertices) as [[-> Hids]|[-> Hids]]; [|split; [done|]; intros Hc; by apply Hids, Hc]. rewrite bind_Ok.
  destruct (edges_loop vertices edges [] (NoDup_nil_2)) as [[-> [Hends Hpairs]]|[-> Hno]]; [|split; [done|]; intros Hc; apply Hno; split; apply Hc].
  rewrite bind_Ok. set (wrong := negb (bool_decide (vertices = [])) && _).
  assert (Hroots : wrong = false ↔ ∀ j (o : JobVertex), (j, o) ∈ vertices → source (vs_operator (jv_spec o)) = true ↔ ∀ i, ¬ flows (job_pairs edges) i j).
  { subst wrong. rewrite <-(job_roots_spec vertices edges Hnd). destruct vertices as [|x vertices]; cbn.
    - split; [|done]. intros _. apply set_eq. intros j. set_solver.
    - rewrite negb_false_iff, bool_decide_eq_true. done. }
  destruct wrong; cbn; [split; [done|]; intros Hc; assert (true = false) by apply Hroots, Hc; done|].
  assert (Hpe : ∀ p, p ∈ job_pairs edges → p.1 ∈ vertices.*1 ∧ p.2 ∈ vertices.*1) by (intros p (e & -> & He)%list_elem_of_fmap; by apply Hends).
  destruct (topological_order_spec enqueue (successors (job_pairs edges)) vertices.*1 (job_pairs edges) enqueue_pushes Hnd Hpe (λ _, reflexivity _)) as [Hacyclic _].
  unfold topological_job_vertices. rewrite length_fmap in Hacyclic.
  destruct (Nat.eqb_spec (length (Graphs.topological_order enqueue (successors (job_pairs edges)) vertices.*1 (job_pairs edges))) (length vertices)) as [E|E]; cbn.
  - split; [done|]. split; [done..| |by apply Hacyclic]. by apply Hroots.
  - split; [done|]. intros Hc. by apply E, Hacyclic, Hc.
Qed.

(** ** Construction of operators and edges *)

Lemma init_expanded spec config generation : expanded (vx_index (vs_id spec)) (ExecutionJobVertex_init spec config generation : JobVertex).
Proof.
  split_and!; [done| |].
  - cbn. unfold create_execution_vertices, jv_concurrency. cbn. rewrite <-list_fmap_compose. unfold compose. cbn. by rewrite list_fmap_id.
  - cbn. unfold create_execution_vertices. intros i x (k & [= -> ->] & _)%list_elem_of_fmap. done.
Qed.

Lemma expanded_subtask j (o : JobVertex) i : expanded j o → 0 <= i < jv_concurrency o → ∃ x, dict_get i (jv_vertices o) = Some x ∧ xv_id x = mkVertexId j i.
Proof.
  intros (_ & Hkeys & Hids) Hi. destruct (dict_get_key i (jv_vertices o)) as (x & Ex & Hx); [rewrite Hkeys; apply elem_of_seqZ; lia|].
  exists x. split; [done|]. by apply Hids.
Qed.

Lemma create_execution_edges_exists js jt (o t : JobVertex) (p : PartitionerSpec A) :
  expanded js o → expanded jt t → 0 < jv_concurrency o → 0 < jv_concurrency t →
  (ps_topology p = FORWARD → jv_concurrency o = jv_concurrency t) → ∃ created, create_execution_edges o t p = Ok created.
Proof.
  intros Ho Ht Hpo Hpt Hf. unfold create_execution_edges.
  assert (Hrow : ∀ i, i ∈ seqZ 0 (jv_concurrency o) → ∃ ks part, target_indices (ps_topology p) (jv_concurrency o) (jv_concurrency t) i = Ok ks ∧
    mapM_outcome (λ k, x ← jv_execution_vertex o i; y ← jv_execution_vertex t k; Ok (xv_id x, xv_id y)) ks = Ok part).
  { intros i Hi%elem_of_seqZ. destruct (targets_valid (ps_topology p) _ _ i Hpo Hpt Hf ltac:(lia)) as (ks & Eks & _ & _ & Hks).
    destruct (mapM_outcome_exists (λ k, x ← jv_execution_vertex o i; y ← jv_execution_vertex t k; Ok (xv_id x, xv_id y)) ks) as [part Ep]; [|by exists ks, part].
    intros k Hk%Hks. unfold jv_execution_vertex. destruct (expanded_subtask js o i Ho ltac:(lia)) as (x & -> & _).
    destruct (expanded_subtask jt t k Ht Hk) as (y & -> & _). by eexists. }
  generalize (@nil (vid * vid)). induction (seqZ 0 (jv_concurrency o)) as [|i l IH]; intros acc; cbn [foldM]; [by eexists|].
  destruct (Hrow i ltac:(by left)) as (ks & part & -> & Ep). rewrite bind_Ok, Ep, bind_Ok. apply IH. intros k ?. apply Hrow. by right.
Qed.

Lemma edge_init_inv (o t : JobVertex) (p : PartitionerSpec A) (e : JobEdge) :
  ExecutionJobEdge_init o t p = Ok e →
  je_source e = jv_id o ∧ je_target e = jv_id t ∧ je_partitioner e = p ∧ create_execution_edges o t p = Ok (je_execution_edges e).
Proof. unfold ExecutionJobEdge_init. destruct (create_execution_edges o t p); [|done]. rewrite bind_Ok. by intros [= <-]. Qed.

(** A graph made of operators with their subtasks and of edges between them. *)
Lemma built_of (ns : string) vertices edges epochs g :
  NoDup vertices.*1 → (∀ j (o : JobVertex), (j, o) ∈ vertices → expanded (jv_id o) o) →
  (∀ e : JobEdge, e ∈ edges → ∃ j k (o t : JobVertex), (j, o) ∈ vertices ∧ (k, t) ∈ vertices ∧ ExecutionJobEdge_init o t (je_partitioner e) = Ok e) →
  ExecutionGraph_init ns vertices edges epochs = Ok g →
  g = mkExecutionGraph ns vertices edges epochs ∧ built g.
Proof.
  intros Hnd Hexp Hedges Eg. assert (Hns : ns ≠ "").
  { intros ->. unfold ExecutionGraph_init in Eg. by rewrite bool_decide_eq_true_2 in Eg. }
  pose proof (ExecutionGraph_init_spec ns vertices edges epochs Hnd Hns) as Hspec. rewrite Eg in Hspec. destruct Hspec as [-> [C1 C2 C3 C4 C5]].
  split; [done|]. split; cbn; try done.
  - intros j o Ho. rewrite <-(C1 j o Ho). by eapply Hexp.
  - intros e He. destruct (Hedges e He) as (j & k & o & t & Ho & Ht & Ee). apply edge_init_inv in Ee as (Es & Et & _ & Ec).
    rewrite Es, Et, (C1 j o Ho), (C1 k t Ht). by exists o, t.
Qed.

(** Edges between operators that have their subtasks, from any description of them. *)
Lemma connect_operators {E} (src tgt : E → Z) (part : E → PartitionerSpec A) vertices (l : list E) :
  NoDup vertices.*1 → (∀ k (o : JobVertex), (k, o) ∈ vertices → expanded k o ∧ 0 < jv_concurrency o) →
  (∀ e, e ∈ l → ∃ o t : JobVertex, (src e, o) ∈ vertices ∧ (tgt e, t) ∈ vertices ∧ (ps_topology (part e) = FORWARD → jv_concurrency o = jv_concurrency t)) →
  ∃ edges, mapM_outcome (λ e, s ← of_option KeyError (dict_get (src e) vertices); t ← of_option KeyError (dict_get (tgt e) vertices);
                           ExecutionJobEdge_init s t (part e)) l = Ok edges ∧
    (λ x, (je_source x, je_target x, je_partitioner x)) <$> edges = (λ e, (src e, tgt e, part e)) <$> l ∧
    (∀ x : JobEdge, x ∈ edges → ∃ j k (o t : JobVertex), (j, o) ∈ vertices ∧ (k, t) ∈ vertices ∧ ExecutionJobEdge_init o t (je_partitioner x) = Ok x).
Proof.
  intros Hnd Hops. induction l as [|e l IH]; intros Hl; [exists []; split_and!; [done..|by intros x ?%not_elem_of_nil]|].
  destruct IH as (edges & El & Hshape & Hedges); [intros d Hd; apply Hl; by right|].
  destruct (Hl e ltac:(by left)) as (o & t & Ho & Ht & Hf). destruct (Hops _ _ Ho) as [Xo Po], (Hops _ _ Ht) as [Xt Pt].
  destruct (create_execution_edges_exists _ _ o t (part e) Xo Xt Po Pt Hf) as [created Ec].
  set (x := mkJobEdge (jv_id o) (jv_id t) (part e) created). assert (Ex : ExecutionJobEdge_init o t (part e) = Ok x) by (unfold ExecutionJobEdge_init; by rewrite Ec).
  exists (x :: edges). split_and!.
  - cbn [mapM_outcome]. rewrite (proj2 (dict_get_Some _ _ _ Hnd) Ho), (proj2 (dict_get_Some _ _ _ Hnd) Ht). cbn [of_option]. by rewrite !bind_Ok, Ex, El.
  - cbn. rewrite Hshape. by rewrite (proj1 Xo), (proj1 Xt).
  - intros y [->|Hy]%elem_of_cons; [by exists (src e), (tgt e), o, t|by apply Hedges].
Qed.

(** The constructor accepts them, and the graph is well formed. *)
Lemma assemble ns vertices edges epochs :
  NoDup vertices.*1 → (∀ k (o : JobVertex), (k, o) ∈ vertices → expanded k o) → checked vertices edges → ns ≠ "" →
  (∀ x : JobEdge, x ∈ edges → ∃ j k (o t : JobVertex), (j, o) ∈ vertices ∧ (k, t) ∈ vertices ∧ ExecutionJobEdge_init o t (je_partitioner x) = Ok x) →
  ExecutionGraph_init ns vertices edges epochs = Ok (mkExecutionGraph ns vertices edges epochs) ∧ built (mkExecutionGraph ns vertices edges epochs).
Proof.
  intros Hnd Hops Hc Hns Hedges. pose proof (ExecutionGraph_init_spec ns vertices edges epochs Hnd Hns) as Hinit.
  destruct (ExecutionGraph_init ns vertices edges epochs) as [g|] eqn:Eg; [|by destruct Hinit].
  destruct (built_of ns vertices edges epochs g Hnd) as [-> Hb]; [|done..|done].
  intros k o Ho. pose proof (Hops k o Ho) as Hx. by rewrite (proj1 Hx).
Qed.

(** The pairs of edges, and the list they were described by. *)
Lemma pairs_of_shape {E} (pair : E → Z * Z) (part : E → PartitionerSpec A) edges (l : list E) :
  (λ x, (je_source x, je_target x, je_partitioner x)) <$> edges = (λ e, (pair e, part e)) <$> l → job_pairs edges = pair <$> l.
Proof. intros Hs. apply (f_equal (fmap fst)) in Hs. rewrite <-!list_fmap_compose in Hs. exact Hs. Qed.
End construction.

(** ** Expansion *)

Section expansion.
Context {F P A H : Type} `{!Recipes F P A}.
Abbreviation JobVertex := (ExecutionJobVertex F P H).
Context (config : Configuration) (generation : vid → string).
Implicit Types (logical : LogicalGraph F P A).

Definition operator_of (spec : VertexSpec F P) : JobVertex :=
  ExecutionJobVertex_init spec config (λ i, generation (mkVertexId (vx_index (vs_id spec)) i)).

Lemma expanded_operators (l : list (VertexId * VertexSpec F P)) : ∀ vs : list (Z * JobVertex),
  NoDup vs.*1 → (∀ e, e ∈ l → vx_index e.1 ∉ vs.*1) → NoDup ((λ e, vx_index e.1) <$> l) →
  foldl (λ vs (e : VertexId * VertexSpec F P), dict_set (vx_index e.1) (operator_of e.2) vs) vs l =
  vs ++ ((λ e, (vx_index e.1, operator_of e.2)) <$> l).
Proof.
  induction l as [|e l IH]; intros vs Hnd Hin Hl; cbn [foldl]; [by rewrite app_nil_r|]. cbn in Hl. apply NoDup_cons in Hl as [He Hl].
  assert (Hset : dict_set (vx_index e.1) (operator_of e.2) vs = vs ++ [(vx_index e.1, operator_of e.2)]).
  { specialize (Hin e ltac:(by left)). clear -Hin. induction vs as [|[j o] vs IH]; [done|]. cbn in *. apply not_elem_of_cons in Hin as [Hne Hin].
    rewrite decide_False by congruence. by rewrite IH. }
  rewrite Hset, IH; [by rewrite <-app_assoc| | |done].
  - rewrite fmap_app. apply NoDup_app. split_and!; [done| |apply NoDup_singleton]. intros j Hj ->%list_elem_of_singleton. by apply (Hin e); [left|].
  - intros d Hd. rewrite fmap_app, elem_of_app. cbn. rewrite list_elem_of_singleton. intros [Hj|Hj]; [by apply (Hin d); [right|]|].
    apply He, list_elem_of_fmap. by exists d.
Qed.

(** What makes a logical graph deployable: parallelism is positive (as [Resources] checks),
    and FORWARD channels connect operators of the same parallelism. *)
Definition fits logical : Prop :=
  (∀ v spec, (v, spec) ∈ lg_vertices logical → 0 < vs_concurrency spec) ∧
  (∀ e s t, e ∈ lg_edges logical → (es_source e, s) ∈ lg_vertices logical → (es_target e, t) ∈ lg_vertices logical →
     ps_topology (es_partitioner e) = FORWARD → vs_concurrency s = vs_concurrency t).

Definition index_pair (e : EdgeSpec A) : Z * Z := (vx_index (es_source e), vx_index (es_target e)).

Lemma flows_index job (edges : list (EdgeSpec A)) v u :
  (∀ e, e ∈ edges → vx_job (es_source e) = job ∧ vx_job (es_target e) = job) → vx_job v = job → vx_job u = job →
  flows (index_pair <$> edges) (vx_index v) (vx_index u) ↔ flows (pairs_of edges) v u.
Proof.
  intros Hjob Hv Hu. unfold flows, pairs_of. rewrite !list_elem_of_fmap. split; intros (e & E & He); exists e; (split; [|done]).
  - destruct (Hjob e He) as [Hs Ht]. unfold index_pair in E. injection E as E1 E2. unfold es_pair.
    destruct v as [jv iv], u as [ju iu], (es_source e), (es_target e). cbn in *. congruence.
  - unfold es_pair in E. injection E as -> ->. done.
Qed.

(** The operator a vertex of a valid graph becomes. *)
Lemma operators_lookup job logical (edges : list (EdgeSpec A)) v spec :
  valid job (lg_vertices logical) edges → (v, spec) ∈ lg_vertices logical →
  vx_index (vs_id spec) = vx_index v ∧ (vx_index v, operator_of spec) ∈ (λ e, (vx_index e.1, operator_of e.2)) <$> lg_vertices logical.
Proof using.
  intros Hvalid Hin. destruct (valid_vertex _ _ _ Hvalid v spec Hin) as (-> & _). split; [done|].
  apply list_elem_of_fmap. by exists (v, spec).
Qed.

Lemma index_nodup job logical (edges : list (EdgeSpec A)) :
  valid job (lg_vertices logical) edges → NoDup (lg_vertices logical).*1 →
  NoDup ((λ e : VertexId * VertexSpec F P, vx_index e.1) <$> lg_vertices logical).
Proof using.
  intros Hvalid Hkeys. change (NoDup ((vx_index ∘ fst) <$> lg_vertices logical)). rewrite list_fmap_compose. apply NoDup_fmap_2_strong; [|done].
  intros v u ([v' sv] & -> & H1)%list_elem_of_fmap ([u' su] & -> & H2)%list_elem_of_fmap. cbn. intros E.
  destruct (valid_vertex _ _ _ Hvalid v' sv H1) as (_ & J1 & _), (valid_vertex _ _ _ Hvalid u' su H2) as (_ & J2 & _).
  destruct v', u'. cbn in *. congruence.
Qed.

(** The conditions of the logical graph carry over to the operators' indices. *)
Lemma checked_expanded job logical (edges : list (ExecutionJobEdge A)) :
  valid job (lg_vertices logical) (lg_edges logical) → job_pairs edges = index_pair <$> lg_edges logical →
  checked ((λ e, (vx_index e.1, operator_of e.2)) <$> lg_vertices logical) edges.
Proof using.
  intros Hvalid Hpairs. pose proof Hvalid as [V1 V2 V3 V4 V5 V6].
  assert (Hjob : ∀ e, e ∈ lg_edges logical → vx_job (es_source e) = job ∧ vx_job (es_target e) = job).
  { intros e He. destruct (V3 e He) as [([v s] & -> & Hs)%list_elem_of_fmap ([u t] & -> & Ht)%list_elem_of_fmap].
    destruct (V2 v s Hs) as (_ & ? & _), (V2 u t Ht) as (_ & ? & _). done. }
  split.
  - intros j o ([v spec] & [= -> ->] & Hin)%list_elem_of_fmap. destruct (V2 v spec Hin) as (Ev & _). unfold jv_id. cbn. by rewrite Ev.
  - intros e He. assert (je_pair e ∈ index_pair <$> lg_edges logical) as (d & Ed & Hd)%list_elem_of_fmap.
    { rewrite <-Hpairs. apply list_elem_of_fmap. by exists e. }
    unfold je_pair, index_pair in Ed. injection Ed as -> ->. destruct (V3 d Hd) as [Hs Ht].
    rewrite <-list_fmap_compose. split; apply list_elem_of_fmap.
    + apply list_elem_of_fmap in Hs as (x & -> & Hx). by exists x.
    + apply list_elem_of_fmap in Ht as (x & -> & Hx). by exists x.
  - rewrite Hpairs. apply NoDup_fmap_2_strong; [|by eapply NoDup_fmap_1]. intros e d He Hd E. apply (pairs_inj (lg_edges logical)); [done..|].
    destruct (Hjob e He) as [J1 J2], (Hjob d Hd) as [J3 J4]. unfold index_pair in E. unfold es_pair. injection E as E1 E2.
    destruct (es_source e), (es_target e), (es_source d), (es_target d). cbn in *. congruence.
  - intros j o ([v spec] & [= -> ->] & Hin)%list_elem_of_fmap. cbn. destruct (V2 v spec Hin) as (_ & Jv & _).
    change (source (vs_operator spec)) with (is_source spec). rewrite (V5 v spec Hin), Hpairs. split.
    + intros Hno i (e & Ee & He)%list_elem_of_fmap. unfold index_pair in Ee. injection Ee as -> Et. destruct (Hjob e He) as [_ Jt].
      apply (Hno (es_source e)), list_elem_of_fmap. exists e. split; [|done]. unfold es_pair. f_equal. destruct v, (es_target e). cbn in *. congruence.
    + intros Hno u (e & Ee & He)%list_elem_of_fmap. unfold es_pair in Ee. injection Ee as -> Et.
      apply (Hno (vx_index (es_source e))), list_elem_of_fmap. exists e. split; [|done]. unfold index_pair. by rewrite Et.
  - rewrite Hpairs. intros j Hj. apply (V6 (mkLogicalId job j)). revert Hj. apply tc_congruence with (f := mkLogicalId job).
    intros i k. intros Hik. by apply (flows_index job (lg_edges logical) (mkLogicalId job i) (mkLogicalId job k) Hjob).
Qed.

(** C25. Every logical graph deploys.  Let a logical graph be built, its parallelism be
    positive, and its FORWARD channels connect operators of equal parallelism.  Then its
    expansion succeeds: every vertex becomes one operator with as many fresh subtasks as its
    parallelism, every edge becomes the channels its partitioner wires, and the resulting
    graph has the operators, edges and order the logical graph has. *)
Theorem expand_deployable job cfg vertices edges logical ns :
  NoDup vertices.*1 → LogicalGraph_init job cfg vertices edges = Ok logical → fits logical → ns ≠ "" →
  ∃ g : ExecutionGraph F P A H, expand logical config ns generation = Ok g ∧ built g ∧
    (∀ j o, (j, o) ∈ xg_job_vertices g → 0 < jv_concurrency o) ∧
    xg_job_vertices g = (λ e, (vx_index e.1, operator_of e.2)) <$> lg_vertices logical ∧
    (λ e, (je_source e, je_target e, je_partitioner e)) <$> xg_job_edges g = (λ e, (index_pair e, es_partitioner e)) <$> lg_edges logical.
Proof using.
  intros Hnd Elg [Hpos Hfit] Hns. pose proof (logical_graph_accepts job cfg vertices edges Hnd) as Hacc. rewrite Elg in Hacc.
  destruct Hacc as (Hvalid & _ & _ & Hv & He & _). symmetry in Hv, He. apply (valid_perm _ _ _ _ _ Hv He) in Hvalid.
  assert (Hkeys : NoDup (lg_vertices logical).*1) by (by rewrite <-Hv). clear Hv He Elg.
  pose proof (index_nodup job logical (lg_edges logical) Hvalid Hkeys) as Hindex.
  unfold expand. change (foldl _ [] (lg_vertices logical)) with
    (foldl (λ (vs : list (Z * JobVertex)) (e : VertexId * VertexSpec F P), dict_set (vx_index e.1) (operator_of e.2) vs) [] (lg_vertices logical)).
  rewrite (expanded_operators (lg_vertices logical) []); [|constructor|intros ??; apply not_elem_of_nil|done]. cbn [app].
  set (ops := (λ e : VertexId * VertexSpec F P, (vx_index e.1, operator_of e.2)) <$> lg_vertices logical).
  assert (Hops : NoDup ops.*1) by (subst ops; rewrite <-list_fmap_compose; exact Hindex).
  assert (Hops' : ∀ k o, (k, o) ∈ ops → expanded k o ∧ 0 < jv_concurrency o).
  { intros k o ([v spec] & [= -> ->] & Hin)%list_elem_of_fmap. destruct (operators_lookup job logical _ v spec Hvalid Hin) as [<- _].
    split; [apply init_expanded|by apply (Hpos v spec)]. }
  destruct (connect_operators (λ e, vx_index (es_source e)) (λ e, vx_index (es_target e)) es_partitioner ops (lg_edges logical) Hops Hops')
    as (created & Ecreated & Hshape & Hedges).
  { intros e He. destruct (valid_ends _ _ _ Hvalid e He) as [([v s] & Ev & Hs)%list_elem_of_fmap ([u t] & Eu & Ht)%list_elem_of_fmap]. cbn in Ev, Eu.
    destruct (operators_lookup job logical _ v s Hvalid Hs) as [_ Os], (operators_lookup job logical _ u t Hvalid Ht) as [_ Ot].
    exists (operator_of s), (operator_of t). rewrite Ev, Eu. split_and!; [done..|]. intros Hf. apply (Hfit e s t); [done|by rewrite Ev|by rewrite Eu|done]. }
  rewrite Ecreated, bind_Ok.
  destruct (assemble ns ops created ∅ Hops) as [-> Hbuilt]; [by intros k o [? _]%Hops'| |done|done|].
  { apply (checked_expanded job); [done|]. by apply (pairs_of_shape _ es_partitioner). }
  eexists. split_and!; [done|done| |done|done]. cbn. by intros k o [_ ?]%Hops'.
Qed.
End expansion.

(** ** Resizing *)

Section resizing.
Context {F P A H : Type} `{!Recipes F P A}.
Abbreviation JobVertex := (ExecutionJobVertex F P H).
Abbreviation Subtask := (ExecutionVertex F P H).
Implicit Types (g : ExecutionGraph F P A H).

(** The subtask in the resized operator. *)
Definition rebound (spec : VertexSpec F P) (config : Configuration) (generation : Z → string) (x : Subtask) : Subtask :=
  set_runtime (xv_runtime x) (ExecutionVertex_init (job_vertex_id (xv_id x)) (xv_vertex_name x) (vs_resources spec) (vertex_index (xv_id x))
    (vs_concurrency spec) (vs_operator spec) config (generation (vertex_index (xv_id x)))).

Lemma retain_loop (old fresh : JobVertex) j generation (l : list Z) : ∀ vs : list (Z * Subtask),
  expanded j old → (∀ i, i ∈ l → 0 <= i < jv_concurrency old ∧ i < jv_concurrency fresh ∧ i ∈ vs.*1) →
  ∃ vs', foldM (λ vertices index,
    v ← jv_execution_vertex old index;
    v ← rebind (AInt (jv_concurrency fresh)) (vs_resources (jv_spec fresh)) (vs_operator (jv_spec fresh)) (jv_config fresh) (generation index) v;
    Ok (dict_set index v vertices)) vs l = Ok vs' ∧ vs'.*1 = vs.*1 ∧
  ∀ i, dict_get i vs' = if decide (i ∈ l) then rebound (jv_spec fresh) (jv_config fresh) generation <$> dict_get i (jv_vertices old) else dict_get i vs.
Proof.
  induction l as [|i l IH]; intros vs Hold Hin; cbn [foldM].
  { exists vs. split_and!; [done..|]. intros i. by rewrite decide_False by apply not_elem_of_nil. }
  destruct (Hin i ltac:(by left)) as (Hi & Hn & Hk). destruct (expanded_subtask j old i Hold Hi) as (x & Ex & Hid).
  unfold jv_execution_vertex at 1. rewrite Ex. cbn [of_option]. rewrite bind_Ok. unfold rebind. rewrite Hid. cbn [vertex_index job_vertex_id].
  rewrite (proj2 (Z.leb_gt _ _) Hn), bind_Ok.
  set (x' := set_runtime _ _). assert (Ex' : x' = rebound (jv_spec fresh) (jv_config fresh) generation x) by (unfold rebound; by rewrite Hid).
  destruct (IH (dict_set i x' vs) Hold) as (vs' & E & Hkeys & Hget).
  { intros k Hk'. destruct (Hin k ltac:(by right)) as (? & ? & ?). split_and!; [lia|lia|lia|]. by rewrite dict_set_same_keys. }
  exists vs'. split_and!; [exact E|by rewrite Hkeys, dict_set_same_keys|]. intros k. rewrite Hget, dict_get_set. destruct (decide (k ∈ l)) as [Hkl|Hkl].
  - by rewrite decide_True by (by right).
  - destruct (decide (i = k)) as [<-|Hne].
    + rewrite decide_True by (by left). by rewrite Ex, Ex'.
    + rewrite decide_False; [done|]. intros [?|?]%elem_of_cons; congruence.
Qed.

Lemma retain_spec (old : JobVertex) j spec config generation :
  expanded j old →
  let fresh := ExecutionJobVertex_init spec config generation in
  ∃ vs, retain old fresh generation = Ok vs ∧ vs.*1 = seqZ 0 (vs_concurrency spec) ∧
    ∀ i, dict_get i vs = if decide (0 <= i < jv_concurrency old ∧ i < vs_concurrency spec)
                         then rebound spec config generation <$> dict_get i (jv_vertices old) else dict_get i (jv_vertices fresh).
Proof.
  intros Hold fresh. destruct (init_expanded (H := H) spec config generation) as (_ & Hkeys & _). fold fresh in Hkeys.
  destruct (retain_loop old fresh j generation (seqZ 0 (Z.min (jv_concurrency old) (jv_concurrency fresh))) (jv_vertices fresh) Hold) as (vs & E & Hvs & Hget).
  { intros i Hi%elem_of_seqZ. rewrite Hkeys. split_and!; [lia|lia|lia|]. apply elem_of_seqZ. lia. }
  exists vs. split_and!; [exact E|by rewrite Hvs|]. intros i. rewrite Hget. change (jv_concurrency fresh) with (vs_concurrency spec).
  destruct (decide (i ∈ _)) as [Hi|Hi]; rewrite elem_of_seqZ in Hi; [rewrite decide_True by lia|rewrite decide_False by lia]; done.
Qed.

Lemma with_concurrency_Ok n (r : Resources) :
  0 < n → validate_resource (num_cpus r) = Ok () → validate_resource (num_gpus r) = Ok () →
  with_concurrency n r = Ok (mkResources (num_cpus r) (num_gpus r) (Some (Scalar n))).
Proof.
  intros Hn Hc Hg. unfold with_concurrency, Resources_init. rewrite Hc, Hg, !bind_Ok. cbn. by rewrite (proj2 (Z.leb_gt n 0)) by lia.
Qed.

(** The package's recipes: the FORWARD topology belongs to [ForwardPartitioner]. *)
Definition forward_recipes g : Prop := ∀ e, e ∈ xg_job_edges g → ps_topology (je_partitioner e) = FORWARD → is_forward (je_partitioner e) = true.

Definition positive g : Prop := ∀ j o, (j, o) ∈ xg_job_vertices g → 0 < jv_concurrency o.

Lemma default_partitioner_forward (s t : Z) :
  ps_topology (default_partitioner (A := A) (Scalar s) (Scalar t)) = FORWARD → s = t.
Proof. unfold default_partitioner. destruct (Z.eqb_spec s t); [done|]. by destruct ((s mod t =? 0) || (t mod s =? 0)). Qed.

Lemma default_partitioner_recipe (s t : Z) :
  ps_topology (default_partitioner (A := A) (Scalar s) (Scalar t)) = FORWARD → is_forward (default_partitioner (A := A) (Scalar s) (Scalar t)) = true.
Proof. unfold default_partitioner. destruct (s =? t); [done|]. by destruct ((s mod t =? 0) || (t mod s =? 0)). Qed.

(** The parallelism of an operator after the resize. *)
Definition resized (j n : Z) (k : Z) (o : JobVertex) : Z := if k =? j then n else jv_concurrency o.

Lemma refit_Ok g j n e s t :
  built g → positive g → forward_recipes g → e ∈ xg_job_edges g →
  (je_source e, s) ∈ xg_job_vertices g → (je_target e, t) ∈ xg_job_vertices g →
  ∃ p, refit g j n e = Ok (je_source e, je_target e, p) ∧ (ps_topology p = FORWARD → is_forward p = true) ∧
    (ps_topology p = FORWARD → resized j n (je_source e) s = resized j n (je_target e) t).
Proof.
  intros Hg Hpos Hrec He Hs Ht. unfold refit.
  pose proof (proj2 (dict_get_Some _ _ _ (built_keys g Hg)) Hs) as Es. pose proof (proj2 (dict_get_Some _ _ _ (built_keys g Hg)) Ht) as Et.
  destruct (bool_decide_reflect (j = je_source e ∨ j = je_target e)) as [Hj|Hj]; cbn [andb].
  - destruct (is_forward (je_partitioner e)) eqn:Ef; cbn [andb].
    + unfold job_vertex. rewrite Es, Et. cbn [of_option].
      assert (E1 : (if je_source e =? j then Ok n else v ← Ok s; Ok (jv_concurrency v)) = Ok (resized j n (je_source e) s)) by (unfold resized; by destruct (je_source e =? j)).
      assert (E2 : (if je_target e =? j then Ok n else v ← Ok t; Ok (jv_concurrency v)) = Ok (resized j n (je_target e) t)) by (unfold resized; by destruct (je_target e =? j)).
      rewrite E1, E2, !bind_Ok. destruct (Z.eqb_spec (resized j n (je_source e) s) (resized j n (je_target e) t)) as [E|E]; cbn.
      * exists (je_partitioner e). done.
      * eexists. split_and!; [done|apply default_partitioner_recipe|]. by intros ?%default_partitioner_forward.
    + exists (je_partitioner e). split_and!; [done|by apply Hrec|]. intros Hf. rewrite (Hrec e He Hf) in Ef. done.
  - exists (je_partitioner e). split_and!; [done|by apply Hrec|]. intros Hf. unfold resized.
    rewrite !(proj2 (Z.eqb_neq _ _)) by (intros E; apply Hj; auto).
    destruct (built_edge g Hg e He) as (s' & t' & Hs' & Ht' & Ec).
    rewrite (operator_unique g Hg _ _ _ Hs Hs'), (operator_unique g Hg _ _ _ Ht Ht').
    by apply (created_forward s' t' _ _ Ec); [eapply Hpos..|].
Qed.

(** The resized operator has its subtasks. *)
Lemma resized_expanded g j (old : JobVertex) spec generation vertices :
  built g → (j, old) ∈ xg_job_vertices g → vx_index (vs_id spec) = j → vertices.*1 = seqZ 0 (vs_concurrency spec) →
  (∀ i, dict_get i vertices = if decide (0 <= i < jv_concurrency old ∧ i < vs_concurrency spec)
     then rebound spec (jv_config old) generation <$> dict_get i (jv_vertices old)
     else dict_get i (jv_vertices (ExecutionJobVertex_init (H := H) spec (jv_config old) generation))) →
  expanded j (mkJobVertex spec (jv_config old) (jv_output_queue old) vertices).
Proof.
  intros Hg Hold Hid Hkeys Hget. destruct (built_operator g Hg _ _ Hold) as (_ & Hko & Hio).
  destruct (init_expanded (H := H) spec (jv_config old) generation) as (_ & Hkf & Hif). split_and!; [done|done|].
  cbn [jv_vertices]. intros i x Hx. assert (Hnd : NoDup vertices.*1) by (rewrite Hkeys; apply NoDup_seqZ).
  apply (dict_get_Some _ _ _ Hnd) in Hx. rewrite Hget in Hx. case_decide.
  - destruct (dict_get i (jv_vertices old)) as [y|] eqn:Ey; [|done]. injection Hx as <-. apply dict_get_In in Ey. cbn.
    by rewrite (Hio _ _ Ey).
  - apply dict_get_In in Hx. rewrite (Hif _ _ Hx). by rewrite Hid.
Qed.

(** A graph with one operator replaced by one with the same operator recipe, and with the
    same pairs, passes the checks of the constructor. *)
Lemma checked_replaced g j (old new : JobVertex) (edges : list (ExecutionJobEdge A)) :
  built g → (j, old) ∈ xg_job_vertices g → jv_id new = j → vs_operator (jv_spec new) = vs_operator (jv_spec old) →
  job_pairs edges = job_pairs (xg_job_edges g) → checked (dict_set j new (xg_job_vertices g)) edges.
Proof.
  intros Hg Hold Hid Hop Hpairs. pose proof (built_keys g Hg) as Hnd.
  assert (Hkeys : (dict_set j new (xg_job_vertices g)).*1 = (xg_job_vertices g).*1).
  { apply dict_set_same_keys. apply list_elem_of_fmap. by exists (j, old). }
  split.
  - intros k o [[-> ->]|[_ Ho]]%elem_of_dict_set; [done| |done]. by destruct (built_operator g Hg _ _ Ho) as [? _].
  - intros e He. assert (je_pair e ∈ job_pairs (xg_job_edges g)) as Hin by (rewrite <-Hpairs; apply list_elem_of_fmap; by exists e).
    rewrite Hkeys. by apply (job_pairs_ends g Hg) in Hin.
  - rewrite Hpairs. apply (built_pairs g Hg).
  - rewrite Hpairs. intros k o [[-> ->]|[_ Ho]]%elem_of_dict_set; [rewrite Hop; by apply (built_roots g Hg)| |done]. by apply (built_roots g Hg).
  - rewrite Hpairs. apply (built_acyclic g Hg).
Qed.

(** The triples of a resize. *)
Lemma refit_all g j n :
  built g → positive g → forward_recipes g →
  ∃ triples, mapM_outcome (refit g j n) (xg_job_edges g) = Ok triples ∧ triples.*1 = job_pairs (xg_job_edges g) ∧
    ∀ e, e ∈ triples → (ps_topology e.2 = FORWARD → is_forward e.2 = true) ∧
      ∃ s t, (e.1.1, s) ∈ xg_job_vertices g ∧ (e.1.2, t) ∈ xg_job_vertices g ∧ (ps_topology e.2 = FORWARD → resized j n e.1.1 s = resized j n e.1.2 t).
Proof.
  intros Hg Hpos Hrec. assert (Hedges : ∀ e, e ∈ xg_job_edges g → e ∈ xg_job_edges g) by done. revert Hedges.
  generalize (xg_job_edges g) at 1 3 4. intros l. induction l as [|e l IH]; intros Hl; [exists []; split_and!; [done..|by intros ? ?%not_elem_of_nil]|].
  destruct IH as (triples & El & Hp & Hall); [intros d ?; apply Hl; by right|]. assert (He : e ∈ xg_job_edges g) by (apply Hl; by left).
  destruct (built_edge g Hg e He) as (s & t & Hs & Ht & _). destruct (refit_Ok g j n e s t) as (p & Ep & Hf & Hfit); [done..|].
  exists ((je_source e, je_target e, p) :: triples). split_and!.
  - cbn [mapM_outcome]. by rewrite Ep, El.
  - cbn. by rewrite Hp.
  - intros x [->|Hx]%elem_of_cons; [|by apply Hall]. split; [done|]. by exists s, t.
Qed.

(** The subtasks of the resized operator are the retained and the fresh ones. *)
Lemma resized_subtasks j (old : JobVertex) spec generation vertices :
  expanded j old →
  (∀ i, dict_get i vertices = if decide (0 <= i < jv_concurrency old ∧ i < vs_concurrency spec)
     then rebound spec (jv_config old) generation <$> dict_get i (jv_vertices old)
     else dict_get i (jv_vertices (ExecutionJobVertex_init (H := H) spec (jv_config old) generation))) →
  (∀ i x, dict_get i (jv_vertices old) = Some x → i < vs_concurrency spec → ∃ x', dict_get i vertices = Some x' ∧
     xv_id x' = xv_id x ∧ actor_name x' = actor_name x ∧ runtime_snapshot x' = runtime_snapshot x) ∧
  (∀ i x', dict_get i vertices = Some x' → dict_get i (jv_vertices old) = None →
     runtime_snapshot x' = mkRuntime VCREATED None None (generation i) None).
Proof.
  intros (_ & Hko & _) Hget. split.
  - intros i x Ex Hi. rewrite Hget, Ex. assert (i ∈ (jv_vertices old).*1) as Hin by (apply dict_get_In in Ex; apply list_elem_of_fmap; by exists (i, x)).
    rewrite Hko in Hin. apply elem_of_seqZ in Hin. rewrite decide_True by lia. exists (rebound spec (jv_config old) generation x).
    split_and!; [done| |done|done]. cbn. by destruct (xv_id x).
  - intros i x' Ex' Eno. rewrite Hget, Eno in Ex'. case_decide; [done|]. apply dict_get_In in Ex'. cbn in Ex'.
    unfold create_execution_vertices in Ex'. apply list_elem_of_fmap in Ex' as (k & [= -> ->] & _). done.
Qed.

(** C16. A resize always succeeds, and it keeps every actor that can stay.  For an operator of
    a well-formed graph and any positive parallelism, [resize_operator] returns a well-formed
    graph with the same operators and edges; the other operators are untouched; every subtask
    below the new parallelism keeps its id, its actor's name, its handle, generation, status
    and restore point; and a subtask that is added has never run. *)
Theorem resize_keeps_actors g j n generation old :
  built g → positive g → forward_recipes g → dict_get j (xg_job_vertices g) = Some old → 0 < n →
  validate_resource (num_cpus (vs_resources (jv_spec old))) = Ok () → validate_resource (num_gpus (vs_resources (jv_spec old))) = Ok () →
  ∃ g' new, resize_operator g (AInt j) (AInt n) generation = Ok g' ∧ built g' ∧ positive g' ∧ forward_recipes g' ∧
    job_pairs (xg_job_edges g') = job_pairs (xg_job_edges g) ∧
    (∀ k, k ≠ j → dict_get k (xg_job_vertices g') = dict_get k (xg_job_vertices g)) ∧
    dict_get j (xg_job_vertices g') = Some new ∧ jv_concurrency new = n ∧
    (∀ i x, dict_get i (jv_vertices old) = Some x → i < n → ∃ x', dict_get i (jv_vertices new) = Some x' ∧
       xv_id x' = xv_id x ∧ actor_name x' = actor_name x ∧ runtime_snapshot x' = runtime_snapshot x) ∧
    (∀ i x', dict_get i (jv_vertices new) = Some x' → dict_get i (jv_vertices old) = None →
       runtime_snapshot x' = mkRuntime VCREATED None None (generation i) None).
Proof.
  intros Hg Hpos Hrec Eold Hn Hcpu Hgpu. pose proof (dict_get_In _ _ _ Eold) as Hold. pose proof (built_keys g Hg) as Hnd.
  pose proof (built_operator g Hg _ _ Hold) as Hexp.
  unfold resize_operator. rewrite (proj2 (Z.leb_gt n 0)) by lia. unfold job_vertex at 1. rewrite Eold. cbn [of_option]. rewrite bind_Ok.
  rewrite (with_concurrency_Ok n _ Hn Hcpu Hgpu), bind_Ok. set (spec := with_resources _ (jv_spec old)).
  destruct (refit_all g j n Hg Hpos Hrec) as (triples & -> & Htp & Htriples). rewrite bind_Ok.
  unfold rescale_operator_spec, job_vertex. rewrite Eold. cbn [of_option]. rewrite bind_Ok. change (vs_concurrency spec) with n.
  destruct (Z.eqb_spec (jv_concurrency old) n) as [En|En].
  { exists g, old. split_and!; [done..| |]; [|intros i x' -> ?; done]. intros i x Ex _. by exists x. }
  destruct (retain_spec old j spec (jv_config old) generation Hexp) as (vertices & -> & Hkeys & Hget). rewrite bind_Ok.
  set (new := mkJobVertex spec (jv_config old) (jv_output_queue old) vertices). set (jvs := dict_set j new (xg_job_vertices g)).
  pose proof (resized_expanded g j old spec generation vertices Hg Hold (proj1 Hexp) Hkeys Hget) as Hnew. fold new in Hnew.
  assert (Hjvs : NoDup jvs.*1) by (by apply NoDup_dict_set).
  assert (Hops : ∀ k o, (k, o) ∈ jvs → expanded k o ∧ 0 < jv_concurrency o).
  { intros k o [[-> ->]|[_ Ho]]%elem_of_dict_set; [by split|split; [by apply (built_operator g Hg)|by eapply Hpos]|done]. }
  assert (Hlook : ∀ k o, (k, o) ∈ xg_job_vertices g → ∃ o', (k, o') ∈ jvs ∧ jv_concurrency o' = resized j n k o).
  { intros k o Ho. unfold resized. destruct (Z.eqb_spec k j) as [->|Hne]; [exists new|exists o]; (split; [apply elem_of_dict_set; auto|done]). }
  destruct (connect_operators (λ e : Z * Z * PartitionerSpec A, e.1.1) (λ e, e.1.2) snd jvs triples Hjvs Hops) as (edges & -> & Hshape & Hedges).
  { intros e He. destruct (Htriples e He) as (_ & s & t & Hs & Ht & Hfit). destruct (Hlook _ _ Hs) as (s' & ? & Cs), (Hlook _ _ Ht) as (t' & ? & Ct). exists s', t'. by rewrite Cs, Ct. }
  rewrite bind_Ok. assert (Hpairs : job_pairs edges = job_pairs (xg_job_edges g)).
  { rewrite <-Htp. apply (pairs_of_shape fst snd). rewrite Hshape. apply list_fmap_ext. by intros _ [[] ?] _. }
  destruct (assemble (xg_namespace g) jvs edges (xg_topology_epochs g) Hjvs) as [-> Hbuilt];
    [by intros k o [? _]%Hops|by apply (checked_replaced g j old new); [..|apply Hnew| |]|apply (built_namespace g Hg)|done|].
  destruct (resized_subtasks j old spec generation vertices Hexp Hget) as [Hkept Hfresh].
  eexists _, new. split_and!; [done|done|by intros k o [_ ?]%Hops| |done| | |done|done|done]; cbn.
  - intros x Hx. assert ((je_source x, je_target x, je_partitioner x) ∈ (λ e : Z * Z * PartitionerSpec A, (e.1.1, e.1.2, e.2)) <$> triples) as (e & Ee & He)%list_elem_of_fmap.
    { rewrite <-Hshape. apply list_elem_of_fmap. by exists x. }
    injection Ee as _ _ ->. by apply Htriples.
  - intros k Hk. subst jvs. by rewrite dict_get_set, decide_False.
  - subst jvs. by rewrite dict_get_set, decide_True.
Qed.
End resizing.
