(* ===== verification/GraphExamples.v ===== *)
(** * A job as a graph: the theorems on graphs at a concrete input

    Two pipelines in one job: a source of two subtasks that sends to three mappers,
    which feed one sink; and a source that forwards to a sink, two subtasks each.  Their
    channels are three checkpoint domains. *)
From stdpp Require Import relations.
From Stdlib Require Import QArith.Qcanon.
From S2P Require Import Prelude Dicts Checkpoints KeyGroups Rows InputBatching Partitioning Graphs Plans LogicalGraph Optimizer Chaining ChainTraversal PhysicalGraph Topology BarrierSplits Resizing.
Open Scope Z_scope.

(** User code without parameters. *)
#[export] Instance unit_recipes : Recipes unit unit unit :=
  { runtime_info_of := λ _, default_runtime_info; no_parameters := (); no_arguments := () }.

Definition two_pipelines_vertex (index : Z) (kind : OperatorType) (node : NodeType) (parallelism : Z) : VertexId * VertexSpec unit unit :=
  (mkLogicalId "job" index,
   mkVertexSpec (mkLogicalId "job" index) "vertex" (mkOperator (OtherOperator "operator") None index "vertex" kind () [] false) node
     (mkResources None None (Some (Scalar parallelism))) false).

Definition two_pipelines_vertices : list (VertexId * VertexSpec unit unit) :=
  [two_pipelines_vertex 3 SOURCE NSource 2; two_pipelines_vertex 4 ONE_INPUT NSink 2; two_pipelines_vertex 0 SOURCE NSource 2;
   two_pipelines_vertex 2 ONE_INPUT NSink 1; two_pipelines_vertex 1 ONE_INPUT NTransform 3].

Definition two_pipelines_edge (i j p q : Z) : EdgeSpec unit :=
  mkEdgeSpec (mkLogicalId "job" i) (mkLogicalId "job" j) (default_partitioner (Scalar p) (Scalar q)).

Definition two_pipelines_edges : list (EdgeSpec unit) := [two_pipelines_edge 3 4 2 2; two_pipelines_edge 1 2 3 1; two_pipelines_edge 0 1 2 3].

Definition example_config : Configuration := mkConfiguration false true.

(** The graph does not remember the order of its parts. *)
Lemma logical_graph_canonical_witness :
  LogicalGraph_init "job" example_config two_pipelines_vertices two_pipelines_edges =
    LogicalGraph_init "job" example_config (reverse two_pipelines_vertices) (reverse two_pipelines_edges) ∧
  (λ g, ((vx_index <$> (lg_vertices g).*1), (λ e, (vx_index (es_source e), vx_index (es_target e))) <$> lg_edges g)) <$>
    LogicalGraph_init "job" example_config two_pipelines_vertices two_pipelines_edges = Ok ([0; 1; 2; 3; 4], [(0, 1); (1, 2); (3, 4)]).
Proof.
  split; [|by vm_compute]. apply logical_graph_canonical; [apply (bool_decide_eq_true_1 _); by vm_compute|by rewrite reverse_Permutation..].
Defined.

Definition two_pipelines : LogicalGraph unit unit unit :=
  match LogicalGraph_init "job" example_config two_pipelines_vertices two_pipelines_edges with
  | Ok g => g
  | Err _ => mkLogicalGraph "" example_config [] []
  end.

Lemma two_pipelines_fits : fits two_pipelines.
Proof.
  split.
  - assert (Hall : forallb (λ e, 0 <? vs_concurrency e.2) (lg_vertices two_pipelines) = true) by (by vm_compute).
    rewrite forallb_forall in Hall. intros v spec Hin%list_elem_of_In%Hall. by apply Z.ltb_lt.
  - assert (Hall : forallb (λ e, forallb (λ s, forallb (λ t,
      negb (bool_decide (s.1 = es_source e)) || negb (bool_decide (t.1 = es_target e)) ||
      negb (bool_decide (ps_topology (es_partitioner e) = FORWARD)) || (vs_concurrency s.2 =? vs_concurrency t.2))
      (lg_vertices two_pipelines)) (lg_vertices two_pipelines)) (lg_edges two_pipelines) = true) by (by vm_compute).
    intros e s t He Hs Ht Hf. rewrite forallb_forall in Hall. apply list_elem_of_In, Hall in He. cbn beta in He.
    rewrite forallb_forall in He. apply list_elem_of_In, He in Hs. cbn beta in Hs. rewrite forallb_forall in Hs.
    apply list_elem_of_In, Hs in Ht. cbn beta in Ht. rewrite !bool_decide_eq_true_2 in Ht by done. by apply Z.eqb_eq.
Qed.

Definition example_generation (v : vid) : string := "fresh".

(** It deploys. *)
Lemma expand_deployable_witness :
  fits two_pipelines ∧
  ∃ g : ExecutionGraph unit unit unit unit, expand two_pipelines example_config "namespace" example_generation = Ok g ∧ built g ∧
    (∀ j o, (j, o) ∈ xg_job_vertices g → 0 < jv_concurrency o).
Proof.
  split; [exact two_pipelines_fits|].
  destruct (expand_deployable (H := unit) example_config example_generation "job" example_config two_pipelines_vertices two_pipelines_edges two_pipelines "namespace")
    as (g & E & Hb & Hpos & _); [apply (bool_decide_eq_true_1 _); by vm_compute|by vm_compute|exact two_pipelines_fits|done|].
  exact (ex_intro _ g (conj E (conj Hb Hpos))).
Defined.

(** ** The graph of the job *)

Definition two_pipelines_operators : list (Z * ExecutionJobVertex unit unit unit) :=
  (λ e, (vx_index e.1, operator_of example_config example_generation e.2)) <$> lg_vertices two_pipelines.

Definition two_pipelines_connections : list (ExecutionJobEdge unit) :=
  match mapM_outcome (λ e,
      s ← of_option KeyError (dict_get (vx_index (es_source e)) two_pipelines_operators);
      t ← of_option KeyError (dict_get (vx_index (es_target e)) two_pipelines_operators);
      ExecutionJobEdge_init s t (es_partitioner e)) (lg_edges two_pipelines) with
  | Ok l => l
  | Err _ => []
  end.

Definition deployed : ExecutionGraph unit unit unit unit := mkExecutionGraph "namespace" two_pipelines_operators two_pipelines_connections ∅.

Lemma deployed_operators j o : (j, o) ∈ two_pipelines_operators → expanded (jv_id o) o ∧ 0 < jv_concurrency o.
Proof.
  intros ([v spec] & [= -> ->] & Hin)%list_elem_of_fmap. split; [apply init_expanded|]. by apply (proj1 two_pipelines_fits v spec).
Qed.

Lemma deployed_built : built deployed.
Proof.
  destruct (built_of (A := unit) "namespace" two_pipelines_operators two_pipelines_connections ∅ deployed) as [_ Hb]; [| | | |exact Hb].
  - apply (bool_decide_eq_true_1 _). by vm_compute.
  - intros j o [? _]%deployed_operators. done.
  - assert (Hall : forallb (λ x : ExecutionJobEdge unit,
      match dict_get (je_source x) two_pipelines_operators, dict_get (je_target x) two_pipelines_operators with
      | Some o, Some t => match ExecutionJobEdge_init o t (je_partitioner x) with
                          | Ok y => bool_decide (je_source y = je_source x ∧ je_target y = je_target x ∧ je_partitioner y = je_partitioner x ∧
                                                 je_execution_edges y = je_execution_edges x)
                          | Err _ => false end
      | _, _ => false end) two_pipelines_connections = true) by (by vm_compute).
    intros x Hx. rewrite forallb_forall in Hall. apply list_elem_of_In, Hall in Hx. cbn beta in Hx.
    destruct (dict_get (je_source x) _) as [o|] eqn:Eo; [|done]. destruct (dict_get (je_target x) _) as [t|] eqn:Et; [|done].
    exists (je_source x), (je_target x), o, t. split_and!; [by apply dict_get_In..|].
    destruct (ExecutionJobEdge_init o t (je_partitioner x)) as [y|]; [|done]. apply bool_decide_eq_true_1 in Hx as (? & ? & ? & ?).
    f_equal. destruct x, y; cbn in *; congruence.
  - by vm_compute.
Qed.

Lemma deployed_positive : positive deployed.
Proof. intros j o [_ ?]%deployed_operators. done. Qed.

Lemma deployed_recipes : forward_recipes deployed.
Proof.
  assert (Hall : forallb (λ x : ExecutionJobEdge unit, negb (bool_decide (ps_topology (je_partitioner x) = FORWARD)) || is_forward (je_partitioner x))
    two_pipelines_connections = true) by (by vm_compute).
  intros x Hx Hf. rewrite forallb_forall in Hall. apply list_elem_of_In, Hall in Hx. cbn beta in Hx. by rewrite bool_decide_eq_true_2 in Hx.
Qed.

Definition example_digest (text : string) : string := text.

Lemma checkpoint_domains_components_witness :
  (λ ds : list CheckpointDomain, (λ d, (dom_vertex_ids d, dom_sink_vertex_ids d)) <$> ds) <$> checkpoint_domains example_digest deployed =
    Ok [([mkVertexId 0 0; mkVertexId 0 1; mkVertexId 1 0; mkVertexId 1 1; mkVertexId 1 2; mkVertexId 2 0], [mkVertexId 2 0]);
        ([mkVertexId 3 0; mkVertexId 4 0], [mkVertexId 4 0]); ([mkVertexId 3 1; mkVertexId 4 1], [mkVertexId 4 1])] ∧
  ∃ domains, checkpoint_domains example_digest deployed = Ok domains ∧ mjoin (dom_vertex_ids <$> domains) ≡ₚ vertex_ids deployed.
Proof.
  split; [by vm_compute|]. destruct (checkpoint_domains_components example_digest deployed deployed_built) as (domains & E & Hj & _).
  exact (ex_intro _ domains (conj E Hj)).
Defined.

Lemma barrier_splits_exact_witness :
  built deployed ∧ ∃ splits, barrier_splits deployed = Ok splits ∧
    count_of splits (mkVertexId 1 2) (mkVertexId 0 1) = Some 1 ∧ count_of splits (mkVertexId 2 0) (mkVertexId 0 1) = Some 3 ∧
    barriers_from deployed (mkVertexId 0 1) (mkVertexId 2 0) 3 ∧ count_of splits (mkVertexId 4 1) (mkVertexId 3 0) = None.
Proof.
  split; [exact deployed_built|]. destruct (barrier_splits_exact deployed deployed_built) as (splits & E & Hexact). exists splits.
  assert (E' : splits = match barrier_splits deployed with Ok s => s | Err _ => ∅ end) by (by rewrite E).
  assert (Hc : count_of splits (mkVertexId 2 0) (mkVertexId 0 1) = Some 3) by (rewrite E'; by vm_compute).
  split_and!; [exact E|rewrite E'; by vm_compute|exact Hc|exact (proj2 (proj1 (Hexact _ _ _) Hc))|rewrite E'; by vm_compute].
Defined.

Lemma acknowledgements_agree_witness :
  ∃ view acks, coordinator_view example_digest deployed = Ok view ∧ coordinator_ack_counts view = Ok acks ∧
    acks !! mkVertexId 0 1 = Some 1 ∧
    ∃ d, find_checkpoint_domain view (mkVertexId 0 1) = Some d ∧ mkVertexId 2 0 ∈ reachable_domain_sinks view d [mkVertexId 0 1].
Proof.
  destruct (acknowledgements_agree example_digest deployed deployed_built deployed_positive) as (view & acks & Ev & Ea & Hacks).
  assert (Ev' : view = match coordinator_view example_digest deployed with Ok v => v | Err _ => view end) by (by rewrite Ev).
  exists view, acks. split_and!; [exact Ev|exact Ea| |].
  - assert (Ea' : match (view ← coordinator_view example_digest deployed; coordinator_ack_counts view) with Ok a => a !! mkVertexId 0 1 | Err _ => None end = Some 1)
      by (by vm_compute).
    by rewrite Ev, bind_Ok, Ea in Ea'.
  - destruct (Hacks (mkVertexId 0 1)) as (d & Ed & Hn & Hreach); [apply (bool_decide_eq_true_1 _); by vm_compute|].
    exists d. split; [exact Ed|]. apply Hreach. split; [apply (bool_decide_eq_true_1 _); by vm_compute|].
    apply (rtc_l _ _ (mkVertexId 1 1)); [|apply rtc_once]; unfold flows; apply (bool_decide_eq_true_1 _); by vm_compute.
Defined.

(** Three mappers become five. *)
Lemma resize_keeps_actors_witness :
  ∃ old g', dict_get 1 (xg_job_vertices deployed) = Some old ∧
    resize_operator deployed (AInt 1) (AInt 5) (λ _, "grown") = Ok g' ∧ built g' ∧ length (vertex_ids deployed) = 10%nat ∧ length (vertex_ids g') = 12%nat.
Proof.
  assert (Eold : ∃ old, dict_get 1 (xg_job_vertices deployed) = Some old ∧ num_cpus (vs_resources (jv_spec old)) = None ∧ num_gpus (vs_resources (jv_spec old)) = None)
    by (eexists; split_and!; by vm_compute).
  destruct Eold as (old & Eold & Hcpu & Hgpu).
  destruct (resize_keeps_actors deployed 1 5 (λ _, "grown") old deployed_built deployed_positive deployed_recipes Eold) as (g' & new & E & Hb & _);
    [done|by rewrite Hcpu|by rewrite Hgpu|].
  exists old, g'. split_and!; [exact Eold|exact E|exact Hb|by vm_compute|].
  assert (El : match resize_operator deployed (AInt 1) (AInt 5) (λ _, "grown") with Ok g => length (vertex_ids g) | Err _ => 0%nat end = 12%nat) by (by vm_compute).
  by rewrite E in El.
Defined.

(** ** Optimizing *)

(** A vertex of the example job, with its operator. *)
Definition example_vertex (index : Z) (name : string) (kind : OperatorType) (node : NodeType) (parallelism : Z) : VertexId * VertexSpec unit unit :=
  (mkLogicalId "job" index,
   mkVertexSpec (mkLogicalId "job" index) name (mkOperator (OtherOperator name) None index name kind () [] false) node
     (mkResources None None (Some (Scalar parallelism))) false).

Definition example_edge (i j : Z) (p : PartitionerSpec unit) : EdgeSpec unit := mkEdgeSpec (mkLogicalId "job" i) (mkLogicalId "job" j) p.

(** A source, two maps and two sinks, all of parallelism one: one chain. *)
Definition straight_vertices : list (VertexId * VertexSpec unit unit) :=
  [example_vertex 1 "read" SOURCE NSource 1; example_vertex 2 "parse" ONE_INPUT NTransform 1; example_vertex 3 "score" ONE_INPUT NTransform 1;
   example_vertex 4 "store" SINK NSink 1; example_vertex 5 "log" SINK NSink 1].

Definition straight_edges : list (EdgeSpec unit) :=
  [example_edge 1 2 forward_spec; example_edge 2 3 forward_spec; example_edge 3 4 forward_spec; example_edge 3 5 forward_spec].

Definition straight : LogicalGraph unit unit unit :=
  match LogicalGraph_init "job" example_config straight_vertices straight_edges with
  | Ok g => g
  | Err _ => mkLogicalGraph "" example_config [] []
  end.

Lemma chaining_preserves_dataflow_witness :
  (λ g, (λ x, vs_name x.2) <$> lg_vertices g) <$> ChainingRule_apply straight = Ok ["read -> parse -> score -> store, log"] ∧
  ∃ g', ChainingRule_apply straight = Ok g' ∧ flat_operators (lg_vertices g') ≡ₚ (λ x, vs_operator x.2) <$> straight_vertices ∧
    flat_edges (lg_vertices g') (lg_edges g') ≡ₚ flat_map (program_edge straight_vertices) straight_edges.
Proof.
  split; [by vm_compute|].
  destruct (chaining_preserves_dataflow "job" example_config straight_vertices straight_edges straight) as (g' & E & _ & _ & _ & Hops & Hedges & _).
  - apply (bool_decide_eq_true_1 _). by vm_compute.
  - by vm_compute.
  - assert (Hall : forallb (λ x, negb (chained (vs_operator x.2))) straight_vertices = true) by (by vm_compute).
    rewrite forallb_forall in Hall. intros v s Hin%list_elem_of_In%Hall. by apply negb_true_iff.
  - assert (Hall : forallb (λ e, forallb (λ x, negb (bool_decide (x.1 = es_source e)) || chain_head (vs_operator x.2)) straight_vertices) straight_edges = true)
      by (by vm_compute).
    intros e s He _ Hs. rewrite forallb_forall in Hall. apply list_elem_of_In, Hall in He. cbn beta in He. rewrite forallb_forall in He.
    apply list_elem_of_In, He in Hs. cbn beta in Hs. by rewrite bool_decide_eq_true_2 in Hs.
  - exact (ex_intro _ g' (conj E (conj Hops Hedges))).
Defined.

(** An operator of another type before a FORWARD edge, as [map_reduce] makes one: the rule
    decides to chain it, and then cannot. *)
Example chaining_refuses_reduce :
  (g ← LogicalGraph_init "job" example_config
         [example_vertex 1 "read" SOURCE NSource 1; example_vertex 2 "reduce" REDUCE NTransform 1; example_vertex 3 "take" COLLECT NTake 1]
         [example_edge 1 2 (mkPartitionerSpec CKey () ALL_TO_ALL); example_edge 2 3 forward_spec];
   optimize example_config g) = Err ValueError.
Proof. by vm_compute. Qed.

(** The output of a union that is to be broadcast to two subtasks is not: the partitioner
    of the union's edge is replaced by the default one. *)
Example union_forgets_broadcast :
  (g ← LogicalGraph_init "job" example_config
         [example_vertex 1 "left" SOURCE NSource 1; example_vertex 2 "right" SOURCE NSource 1; example_vertex 3 "union" ONE_INPUT NUnion 1;
          example_vertex 4 "store" SINK NSink 2]
         [example_edge 1 3 forward_spec; example_edge 2 3 forward_spec; example_edge 3 4 (mkPartitionerSpec CBroadcast () ALL_TO_ALL)];
   g ← UnionRule_apply g; Ok ((λ e, ps_class (es_partitioner e)) <$> lg_edges g)) = Ok [CRescale; CRescale].
Proof. by vm_compute. Qed.
