(* ===== verification/Assignment.v ===== *)
(** * Round-robin assignment of subtasks to nodes

    Models [src/ray/klein/runtime/scheduler/assignment.py] and the functions of
    [scheduler/placement.py] that pin the added subtasks of a rescale to nodes.  The
    amounts are finite floats, kept as the rationals they denote; a subtraction rounds to
    the nearest float. *)
From Stdlib Require Import QArith.QArith QArith.Qcanon.
From S2P Require Import Prelude Dicts KeyGroups Checkpoints Graphs Plans LogicalGraph PhysicalGraph.
Open Scope Z_scope.

(** ** Floats *)

(** [n / d] to the nearest integer, ties to even. *)
Definition round_half_even (n d : Z) : Z :=
  let q := n / d in
  match 2 * (n mod d) ?= d with
  | Lt => q
  | Gt => q + 1
  | Eq => if Z.even q then q else q + 1
  end.

(** The binary64 float nearest to [n / d], for non-negative [n] below the overflow
    threshold: its 53-bit significand and its exponent. *)
Definition round64_parts (n d : Z) : Z * Z :=
  let l := Z.log2 n - Z.log2 d in
  let floor_log2 := if d * 2 ^ Z.max 0 l <=? n * 2 ^ Z.max 0 (- l) then l else l - 1 in
  let e := Z.max (-1074) (floor_log2 - 52) in
  (round_half_even (n * 2 ^ Z.max 0 (- e)) (d * 2 ^ Z.max 0 e), e).

Definition Qc_of_parts (m e : Z) : Qc := Q2Qc (Qmake (m * 2 ^ Z.max 0 e) (Z.to_pos (2 ^ Z.max 0 (- e)))).

Definition round64 (q : Qc) : Qc :=
  let n := Qnum (this q) in
  let '(m, e) := round64_parts (Z.abs n) (Zpos (Qden (this q))) in
  if n <? 0 then (- Qc_of_parts m e)%Qc else Qc_of_parts m e.

Definition float_sub (x y : Qc) : Qc := round64 (x - y)%Qc.

Definition Qc_ltb (x y : Qc) : bool := match (x ?= y)%Qc with Lt => true | _ => false end.

(** ** Sorting by a tuple, largest first *)

Fixpoint tuple_leb (x y : list Qc) : bool :=
  match x, y with
  | [], _ => true
  | _ :: _, [] => false
  | a :: x, b :: y => if decide (a = b) then tuple_leb x y else Qc_ltb a b
  end.

(** [sorted(values, key=key, reverse=True)], which keeps the order of equal keys. *)
Section sorting.
Context {A : Type} (key : A → list Qc).

Fixpoint insert_desc (a : A) (l : list A) : list A :=
  match l with
  | [] => [a]
  | b :: l => if tuple_leb (key b) (key a) then a :: b :: l else b :: insert_desc a l
  end.
Definition sorted_desc (l : list A) : list A := foldr insert_desc [] l.
End sorting.

Definition Qc_of (z : Z) : Qc := Q2Qc (inject_Z z).

(** ** Nodes *)

Record WorkerNode := mkWorkerNode { wn_index : Z; wn_cpu : Qc; wn_gpu : Qc; wn_assigned_tasks : Z }.

Definition can_host (r : Resources) (node : WorkerNode) : bool :=
  negb (Qc_ltb (wn_cpu node) (cpus r)) && negb (Qc_ltb (wn_gpu node) (gpus r)).

(** What [assign] and the two loops of [placement.py] take from a node. *)
Definition take_resources (r : Resources) (node : WorkerNode) : WorkerNode :=
  mkWorkerNode (wn_index node) (float_sub (wn_cpu node) (cpus r)) (float_sub (wn_gpu node) (gpus r)) (wn_assigned_tasks node + 1).

Definition assign (r : Resources) (node : WorkerNode) : outcome WorkerNode :=
  if negb (can_host r node) then Err ValueError else Ok (take_resources r node).

(** A row of [ray.nodes()]. *)
Record ray_node := mkRayNode { rn_alive : bool; rn_id : string; rn_resources : list (string * Qc) }.

Definition cluster_worker_nodes (ray_nodes : list ray_node) : list WorkerNode * list string :=
  let live := filter (λ n, rn_alive n = true ∧ "node:__internal_head__" ∉ (rn_resources n).*1) ray_nodes in
  (imap (λ i n, mkWorkerNode (Z.of_nat i) (default 0%Qc (dict_get "CPU" (rn_resources n)))
                  (default 0%Qc (dict_get "GPU" (rn_resources n))) 0) live,
   rn_id <$> live).

Definition node_key (n : WorkerNode) : list Qc :=
  [wn_gpu n; wn_cpu n; Qc_of (- wn_assigned_tasks n); Qc_of (- wn_index n)].

(** The search both allocators make for one subtask: at most [tries] nodes from the cursor
    on, and the first that can host it takes it.  Returns the node's index, the next cursor
    and the nodes. *)
Fixpoint probe_nodes (tries : nat) (r : Resources) (cursor : nat) (nodes : list WorkerNode) : option (Z * nat * list WorkerNode) :=
  match tries with
  | O => None
  | S tries =>
      match nodes !! cursor with
      | None => None
      | Some node =>
          let next := ((cursor + 1) mod length nodes)%nat in
          if can_host r node then Some (wn_index node, next, <[cursor := take_resources r node]> nodes)
          else probe_nodes tries r next nodes
      end
  end.

Section assignment.
Context {F P H : Type}.
Abbreviation JobVertex := (ExecutionJobVertex F P H).
Abbreviation Vertex := (ExecutionVertex F P H).

(** ** The whole graph *)

Definition job_vertex_key (v : JobVertex) : list Qc :=
  [gpus (vs_resources (jv_spec v)); cpus (vs_resources (jv_spec v)); Qc_of (jv_concurrency v)].

(** The subtasks of one operator. *)
Fixpoint allocate_subtasks (r : Resources) (subtask_indices : list nat) (cursor : nat) (nodes : list WorkerNode) (row : list Z)
    : option (list Z * list WorkerNode) :=
  match subtask_indices with
  | [] => Some (row, nodes)
  | i :: subtask_indices =>
      match probe_nodes (length nodes) r cursor nodes with
      | None => None
      | Some (node, cursor, nodes) => allocate_subtasks r subtask_indices cursor nodes (<[i := node]> row)
      end
  end.

Fixpoint allocate_job_vertices (ordered : list JobVertex) (nodes : list WorkerNode) (assignments : list (Z * list Z))
    : option (list (Z * list Z) * list WorkerNode) :=
  match ordered with
  | [] => Some (assignments, nodes)
  | v :: ordered =>
      let row := default [] (dict_get (jv_id v) assignments) in
      match allocate_subtasks (vs_resources (jv_spec v)) (seq 0 (Z.to_nat (jv_concurrency v))) 0 (sorted_desc node_key nodes) row with
      | None => None
      | Some (row, nodes) => allocate_job_vertices ordered nodes (dict_set (jv_id v) row assignments)
      end
  end.

Definition round_robin_allocate (job_vertices : list JobVertex) (nodes : list WorkerNode) : list (Z * list Z) * bool :=
  let assignments := foldl (λ a v, dict_set (jv_id v) (replicate (Z.to_nat (jv_concurrency v)) (-1)) a) [] job_vertices in
  let ordered := sorted_desc job_vertex_key job_vertices in
  if bool_decide (nodes = [] ∧ Exists (λ v, jv_concurrency v ≠ 0) ordered) then ([], false)
  else match allocate_job_vertices ordered nodes assignments with Some (assignments, _) => (assignments, true) | None => ([], false) end.

(** [_node_pin_plan]: the node of every subtask, by id; Python's negative indices count
    from the end. *)
Definition py_index {A} (l : list A) (i : Z) : outcome A :=
  of_option IndexError (if i <? 0 then (if i + Z.of_nat (length l) <? 0 then None else l !! Z.to_nat (i + Z.of_nat (length l))) else l !! Z.to_nat i).

Definition node_pin_plan {A} (g : ExecutionGraph F P A H) (assignments : list (Z * list Z)) (node_ids : list string) : outcome (list (vid * string)) :=
  foldM (λ pins (row : Z * list Z),
    v ← of_option ValueError (dict_get row.1 (xg_job_vertices g));
    foldM (λ pins (e : Z * Vertex),
      node ← py_index row.2 e.1; id ← py_index node_ids node; Ok (dict_set (xv_id e.2) id pins)) pins (jv_vertices v)) [] assignments.

(** ** The added subtasks of a rescale *)

(** The position of the node with an id; a later node hides an earlier one. *)
Definition node_position (node_ids : list string) (id : string) : option nat :=
  foldl (λ found e, if bool_decide (e.2 = id) then Some e.1 else found) None (imap pair node_ids).

Definition reserve_retained_round_robin_nodes (vertices : list Vertex) (requested_ids : list vid) (node_by_vertex : list (vid * string))
    (nodes : list WorkerNode) (node_ids : list string) : outcome (list WorkerNode) :=
  if negb (length nodes =? length node_ids)%nat then Err ValueError
  else foldM (λ nodes v,
    if bool_decide (xv_id v ∈ requested_ids) then Ok nodes
    else
      i ← of_option PlacementError (id ← dict_get (xv_id v) node_by_vertex; node_position node_ids id);
      node ← of_option PlacementError (nodes !! i);
      if negb (can_host (xv_resources v) node) then Err PlacementError else Ok (<[i := take_resources (xv_resources v) node]> nodes)) nodes vertices.

Definition vertex_key (v : Vertex) : list Qc := [gpus (xv_resources v); cpus (xv_resources v); Qc_of (- vertex_index (xv_id v))].

Fixpoint allocate_delta (vertices : list Vertex) (cursor : nat) (nodes : list WorkerNode) (node_id : Z → option string) (pins : list (vid * string))
    : outcome (list (vid * string)) :=
  match vertices with
  | [] => Ok pins
  | v :: vertices =>
      match probe_nodes (length nodes) (xv_resources v) cursor nodes with
      | None => Err PlacementError
      | Some (node, cursor, nodes) =>
          id ← of_option KeyError (node_id node);
          allocate_delta vertices cursor nodes node_id (dict_set (xv_id v) id pins)
      end
  end.

Definition allocate_round_robin_delta (selected : list Vertex) (nodes : list WorkerNode) (node_ids : list string) : outcome (list (vid * string)) :=
  let available_nodes := sorted_desc node_key nodes in
  if bool_decide (available_nodes = []) then Err PlacementError
  else if negb (length nodes =? length node_ids)%nat then Err ValueError
  else
    let node_id_by_index := foldl (λ d (e : WorkerNode * string), dict_set (wn_index e.1) e.2 d) [] (zip nodes node_ids) in
    allocate_delta (sorted_desc vertex_key selected) 0 available_nodes (λ i, dict_get i node_id_by_index) [].
End assignment.
