(* ===== verification/Placement.v ===== *)
(** * Placement plans: who owns the reservations of a job

    Models [src/ray/klein/runtime/scheduler/placement.py].  Plans and transitions are
    mutable objects that a transition, the job master and its list of pending cleanups
    share: they live in a store, and a reference is an index into it.  Ray is a [ray]: a
    function of an abstract world per call. *)
From Stdlib Require Import QArith.QArith QArith.Qcanon.
From S2P Require Import Prelude Dicts Effects KeyGroups Checkpoints Graphs Plans LogicalGraph PhysicalGraph Assignment.
Open Scope Z_scope.

(** A bundle: its CPUs and, unless zero, its GPUs. *)
Abbreviation bundle := (Qc * option Qc)%type.

(** The calls of Ray; [ray_get_ready groups timeout] is
    [klein.get([group.ready() for group in groups], timeout)]. *)
Record ray (W G : Type) := mkRay {
  ray_placement_group : bundle → string → W → outcome G * W;
  ray_remove_placement_group : G → W → outcome unit * W;
  ray_get_ready : list G → Qc → W → outcome unit * W;
  ray_nodes : W → outcome (list ray_node) * W
}.
Arguments mkRay {W G}.
Arguments ray_placement_group {W G}.
Arguments ray_remove_placement_group {W G}.
Arguments ray_get_ready {W G}.
Arguments ray_nodes {W G}.

Inductive PlacementStrategy :=
  | PlacementGroupStrategy (strategy : string) (ready_timeout : Qc)
  | RoundRobinStrategy
  | NativeStrategy.

(** [PlacementGroupStrategy(strategy, ready_timeout)]. *)
Definition PlacementGroupStrategy_init (strategy : string) (ready_timeout : Qc) : outcome PlacementStrategy :=
  if negb (bool_decide (strategy ∈ ["PACK"; "SPREAD"])) then Err ValueError else Ok (PlacementGroupStrategy strategy ready_timeout).

Record PlacementPlan (W G : Type) := mkPlan {
  node_by_vertex : list (vid * string);
  placement_group : option G;
  placement_group_by_vertex : list (vid * G);
  bundle_by_vertex : list (vid * Z);
  on_rollback : option (W → outcome unit * W);
  plan_strategy : option PlacementStrategy;
  remove_group : option (G → W → outcome unit * W);
  plan_closed : bool
}.
Arguments mkPlan {W G}.
Arguments node_by_vertex {W G}.
Arguments placement_group {W G}.
Arguments placement_group_by_vertex {W G}.
Arguments bundle_by_vertex {W G}.
Arguments on_rollback {W G}.
Arguments plan_strategy {W G}.
Arguments remove_group {W G}.
Arguments plan_closed {W G}.

Abbreviation plan_ref := nat.
Abbreviation transition_ref := nat.

Record PlacementTransition := mkTransition {
  owner : plan_ref;
  candidate_plan : plan_ref;
  removed_vertex_ids : list vid;
  committed : bool;
  retired_released : bool
}.

(** The objects, and the world. *)
Record store (W G : Type) := mkStore {
  plans : list (PlacementPlan W G);
  transitions : list PlacementTransition;
  world : W
}.
Arguments mkStore {W G}.
Arguments plans {W G}.
Arguments transitions {W G}.
Arguments world {W G}.

(** A plan, or the plan a [PlacementCleanupError] carries. *)
Inductive planned := Planned (plan : plan_ref) | CleanupIncomplete (plan : plan_ref).

(** [_unique_objects]: the first occurrence of every object. *)
Definition unique_objects {G} `{EqDecision G} (values : list G) : list G :=
  foldl (λ unique v, if bool_decide (v ∈ unique) then unique else unique ++ [v]) [] values.

Section placement.
Context {W G F P A H : Type} `{EqDecision G} (R : ray W G).
Abbreviation Plan := (PlacementPlan W G).
Abbreviation Vertex := (ExecutionVertex F P H).
Abbreviation Graph := (ExecutionGraph F P A H).
Abbreviation pl := (exec (store W G)).
Implicit Types (p : Plan) (i : plan_ref) (t : transition_ref).

(** ** The store *)

Definition set_plans (ps : list Plan) (s : store W G) : store W G := mkStore ps (transitions s) (world s).
Definition set_transitions (ts : list PlacementTransition) (s : store W G) : store W G := mkStore (plans s) ts (world s).
Definition set_world (w : W) (s : store W G) : store W G := mkStore (plans s) (transitions s) w.

Definition outside {B} (f : W → outcome B * W) : pl B := λ s, let '(o, w) := f (world s) in (o, set_world w s).

Definition read_plan i : pl Plan := λ s, (of_option AttributeError (plans s !! i), s).
Definition new_plan p : pl plan_ref := λ s, (Ok (length (plans s)), set_plans (plans s ++ [p]) s).
Definition update_plan i (f : Plan → Plan) : pl unit := modify (λ s, set_plans (alter f i (plans s)) s).

Definition read_transition t : pl PlacementTransition := λ s, (of_option AttributeError (transitions s !! t), s).
Definition new_transition (x : PlacementTransition) : pl transition_ref :=
  λ s, (Ok (length (transitions s)), set_transitions (transitions s ++ [x]) s).
Definition update_transition t (f : PlacementTransition → PlacementTransition) : pl unit :=
  modify (λ s, set_transitions (alter f t (transitions s)) s).

(** ** Plans *)

Definition empty_plan : Plan := mkPlan [] None [] [] None None None false.

Definition node_for (v : vid) p : option string := dict_get v (node_by_vertex p).
Definition bundle_for (v : vid) p : Z := default (-1) (dict_get v (bundle_by_vertex p)).
Definition placement_group_for (v : vid) p : option G :=
  match dict_get v (placement_group_by_vertex p) with Some g => Some g | None => placement_group p end.
Definition uses_placement_group p : bool :=
  bool_decide (is_Some (placement_group p)) || negb (bool_decide (placement_group_by_vertex p = [])).

(** The groups a plan owns. *)
Definition owned_groups p : list G := (placement_group_by_vertex p).*2 ++ option_list (placement_group p).

(** Ownership of a group ends, once it is removed. *)
Definition forget_group (g : G) p : Plan :=
  let released := (filter (λ e : vid * G, e.2 = g) (placement_group_by_vertex p)).*1 in
  mkPlan (node_by_vertex p) (if decide (placement_group p = Some g) then None else placement_group p)
    (foldl (λ d v, dict_pop v d) (placement_group_by_vertex p) released)
    (foldl (λ d v, dict_pop v d) (bundle_by_vertex p) released)
    (on_rollback p) (plan_strategy p) (remove_group p) (plan_closed p).

Definition forget_callback p : Plan :=
  mkPlan (node_by_vertex p) (placement_group p) (placement_group_by_vertex p) (bundle_by_vertex p)
    None (plan_strategy p) (remove_group p) (plan_closed p).

Definition closed_plan p : Plan := mkPlan [] None [] [] None (plan_strategy p) (remove_group p) true.

(** One turn of the loop of [close]: the exception, if Ray raises. *)
Definition release_group i (remove : G → W → outcome unit * W) (g : G) : pl (list exn) :=
  r ← attempt (outside (remove g));
  match r with
  | Err e => mret [e]
  | Ok _ => _ ← update_plan i (forget_group g); mret []
  end.

Definition close i : pl unit :=
  p ← read_plan i;
  if plan_closed p then mret ()
  else
    cleanup_errors ←
      match remove_group p with
      | Some remove => mjoin <$> exec_map (release_group i remove) (unique_objects (owned_groups p))
      | None =>
          match on_rollback p with
          | Some callback => _ ← outside callback; _ ← update_plan i forget_callback; mret []
          | None => mret []
          end
      end;
    if bool_decide (cleanup_errors = []) then update_plan i closed_plan else throw RuntimeError.

Definition rollback i : pl unit := close i.
Definition reconcile i : pl unit := close i.

(** ** Strategies *)

(** The cluster, as [round_robin_allocate] reads it. *)
Definition worker_nodes : pl (list WorkerNode * list string) := cluster_worker_nodes <$> outside (ray_nodes R).

Definition bundle_of (r : Resources) : bundle := (cpus r, if decide (gpus r = 0%Qc) then None else Some (gpus r)).

(** The two dictionaries [plan_vertices] fills. *)
Definition group_plan (strategy : PlacementStrategy) (groups : list (vid * G)) (bundles : list (vid * Z)) : Plan :=
  mkPlan [] None groups bundles None (Some strategy) (Some (ray_remove_placement_group R)) false.

(** The loop of [plan_vertices]: the dictionaries it has filled when it ends, the groups it
    has asked for, and the exception it ends with, if any. *)
Fixpoint reserve_groups (strategy : string) (selected : list Vertex) (groups : list (vid * G)) (bundles : list (vid * Z)) (made : list G)
    : pl (list (vid * G) * list (vid * Z) * outcome (list G)) :=
  match selected with
  | [] => mret (groups, bundles, Ok made)
  | v :: selected =>
      r ← attempt (outside (ray_placement_group R (bundle_of (xv_resources v)) strategy));
      match r with
      | Err e => mret (groups, bundles, Err e)
      | Ok g => reserve_groups strategy selected (dict_set (xv_id v) g groups) (dict_set (xv_id v) 0 bundles) (made ++ [g])
      end
  end.

Definition Qc_min (x y : Qc) : Qc := if Qc_ltb y x then y else x.

(** [PlacementGroupStrategy.plan_vertices]. *)
Definition plan_group_vertices (strategy : string) (ready_timeout : Qc) (selected : list Vertex) (timeout : option Qc) : pl planned :=
  let self := PlacementGroupStrategy strategy ready_timeout in
  if bool_decide (length selected = 0%nat) then Planned <$> new_plan (group_plan self [] [])
  else
    filled ← reserve_groups strategy selected [] [] [];
    let '(groups, bundles, made) := filled in
    reserved ← attempt (
      made ← of_outcome made;
      let ready_timeout := match timeout with None => ready_timeout | Some t => Qc_min ready_timeout t end in
      if negb (Qc_ltb 0 ready_timeout) then throw TimeoutError
      else outside (ray_get_ready R made ready_timeout));
    match reserved with
    | Ok _ => Planned <$> new_plan (group_plan self groups bundles)
    | Err _ =>
        partial_plan ← new_plan (group_plan self groups bundles);
        r ← attempt (close partial_plan);
        match r with Err _ => mret (CleanupIncomplete partial_plan) | Ok _ => throw PlacementError end
    end.

(** [strategy.plan(execution_graph)]. *)
Definition strategy_plan (strategy : PlacementStrategy) (g : Graph) : pl planned :=
  match strategy with
  | PlacementGroupStrategy kind ready_timeout => plan_group_vertices kind ready_timeout (execution_vertices g) None
  | NativeStrategy => Planned <$> new_plan (mkPlan [] None [] [] None (Some NativeStrategy) None false)
  | RoundRobinStrategy =>
      nodes ← worker_nodes;
      let '(assignments, allocated) := round_robin_allocate (xg_job_vertices g).*2 nodes.1 in
      if negb allocated then throw PlacementError
      else
        pins ← of_outcome (node_pin_plan g assignments nodes.2);
        Planned <$> new_plan (mkPlan pins None [] [] None (Some RoundRobinStrategy) None false)
  end.

(** [PlacementStrategy.plan_vertices], which only [NativeStrategy] inherits. *)
Definition restrict_plan (requested : list vid) p : Plan :=
  mkPlan (filter (λ e, e.1 ∈ requested) (node_by_vertex p)) (placement_group p) (filter (λ e, e.1 ∈ requested) (placement_group_by_vertex p))
    (filter (λ e, e.1 ∈ requested) (bundle_by_vertex p)) (on_rollback p) (plan_strategy p) (remove_group p) (plan_closed p).

Definition inherited_plan_vertices (strategy : PlacementStrategy) (g : Graph) (vertices : list Vertex) : pl planned :=
  r ← strategy_plan strategy g;
  match r with
  | CleanupIncomplete leftover => mret (CleanupIncomplete leftover)
  | Planned i =>
      p ← read_plan i;
      if uses_placement_group p then _ ← close i; throw PlacementError
      else _ ← update_plan i (restrict_plan (xv_id <$> vertices)); mret (Planned i)
  end.

(** [strategy.plan_rescale(execution_graph, vertices, owner, timeout)]. *)
Definition strategy_plan_rescale (strategy : PlacementStrategy) (g : Graph) (added : list Vertex) (owner : Plan) (timeout : option Qc) : pl planned :=
  match strategy with
  | PlacementGroupStrategy kind ready_timeout => plan_group_vertices kind ready_timeout added timeout
  | NativeStrategy => inherited_plan_vertices NativeStrategy g added
  | RoundRobinStrategy =>
      if bool_decide (length added = 0%nat) then Planned <$> new_plan (mkPlan [] None [] [] None (Some RoundRobinStrategy) None false)
      else
        nodes ← worker_nodes;
        left_over ← of_outcome (reserve_retained_round_robin_nodes (execution_vertices g) (xv_id <$> added) (node_by_vertex owner) nodes.1 nodes.2);
        pins ← of_outcome (allocate_round_robin_delta added left_over nodes.2);
        Planned <$> new_plan (mkPlan pins None [] [] None (Some RoundRobinStrategy) None false)
  end.

(** ** Rescaling a plan *)

(** The result names the transition, or the plan of a [PlacementCleanupError]. *)
Definition begin_rescale i (g : Graph) (added : list Vertex) (removed : list vid) (timeout : option Qc) : pl (transition_ref + plan_ref) :=
  p ← read_plan i;
  if plan_closed p then throw RuntimeError
  else
    match plan_strategy p with
    | None => throw PlacementError
    | Some strategy =>
        candidate ← strategy_plan_rescale strategy g added p timeout;
        match candidate with
        | CleanupIncomplete leftover => mret (inr leftover)
        | Planned candidate => inl <$> new_transition (mkTransition i candidate removed false false)
        end
    end.

(** What [_adopt] takes over, and what it leaves of the candidate. *)
Definition take_over (candidate p : Plan) : Plan :=
  mkPlan (dict_update (node_by_vertex p) (node_by_vertex candidate)) (placement_group p)
    (dict_update (placement_group_by_vertex p) (placement_group_by_vertex candidate))
    (dict_update (bundle_by_vertex p) (bundle_by_vertex candidate)) (on_rollback p) (plan_strategy p) (remove_group p) (plan_closed p).

Definition adopt i (candidate : plan_ref) : pl unit :=
  c ← read_plan candidate;
  if plan_closed c then throw RuntimeError
  else _ ← update_plan i (take_over c); update_plan candidate closed_plan.

Definition forget_vertices (vertex_ids : list vid) (groups : list (vid * G)) (nodes : list (vid * string)) p : Plan :=
  mkPlan nodes (placement_group p) groups (foldl (λ d v, dict_pop v d) (bundle_by_vertex p) vertex_ids)
    (on_rollback p) (plan_strategy p) (remove_group p) (plan_closed p).

Definition pop_all {B} (vertex_ids : list vid) (d : list (vid * B)) : list (vid * B) := foldl (λ d v, dict_pop v d) d vertex_ids.

(** One turn of the loop of [_release_vertices]. *)
Definition release_owners i (remove : G → W → outcome unit * W) (selected : list vid) (g : G) : pl (list exn) :=
  p ← read_plan i;
  let owners := (filter (λ e : vid * G, e.2 = g) (placement_group_by_vertex p)).*1 in
  if negb (bool_decide (Forall (λ v, v ∈ selected) owners)) then throw PlacementError
  else
    r ← attempt (outside (remove g));
    match r with
    | Err e => mret [e]
    | Ok _ => _ ← update_plan i (λ p, forget_vertices owners (pop_all owners (placement_group_by_vertex p)) (node_by_vertex p) p); mret []
    end.

Definition release_vertices i (selected : list vid) : pl unit :=
  p ← read_plan i;
  if bool_decide (is_Some (placement_group p)) && negb (bool_decide (selected = [])) then throw PlacementError
  else
    let groups := unique_objects (omap (λ v, dict_get v (placement_group_by_vertex p)) selected) in
    cleanup_errors ←
      match remove_group p with
      | None => if bool_decide (groups = []) then mret [] else throw PlacementError
      | Some remove => mjoin <$> exec_map (release_owners i remove selected) groups
      end;
    if bool_decide (cleanup_errors = [])
    then update_plan i (λ p, forget_vertices selected (placement_group_by_vertex p) (pop_all selected (node_by_vertex p)) p)
    else throw RuntimeError.

(** ** Transitions *)

Definition set_committed (x : PlacementTransition) : PlacementTransition :=
  mkTransition (owner x) (candidate_plan x) (removed_vertex_ids x) true (retired_released x).
Definition set_retired_released (x : PlacementTransition) : PlacementTransition :=
  mkTransition (owner x) (candidate_plan x) (removed_vertex_ids x) (committed x) true.

Definition commit_transition t : pl unit :=
  x ← read_transition t;
  if committed x then mret ()
  else _ ← adopt (owner x) (candidate_plan x); update_transition t set_committed.

Definition release_retired t : pl unit :=
  x ← read_transition t;
  if negb (committed x) then throw RuntimeError
  else if retired_released x then mret ()
  else _ ← release_vertices (owner x) (removed_vertex_ids x); update_transition t set_retired_released.

Definition rollback_transition t : pl unit :=
  x ← read_transition t;
  if committed x then throw RuntimeError else rollback (candidate_plan x).

Definition reconcile_transition t : pl unit :=
  x ← read_transition t;
  if committed x then release_retired t else rollback_transition t.
End placement.
