(* ===== verification/Reservations.v ===== *)
(** * Reservations: no placement group is lost

    What [Placement] relies on from Ray ([honest]), and what its operations keep: every
    group Ray holds for the job stays owned by a plan until Ray has removed it, and an
    operation on one plan touches no group of another. *)
From Stdlib Require Import QArith.QArith QArith.Qcanon.
From S2P Require Import Prelude Dicts Effects KeyGroups Checkpoints Graphs Plans LogicalGraph PhysicalGraph Assignment Placement.
Open Scope Z_scope.

(** ** Dictionaries *)

Lemma pop_all_spec {K B} `{EqDecision K} (ks : list K) (d : list (K * B)) k b :
  NoDup d.*1 → (k, b) ∈ foldl (λ d k, dict_pop k d) d ks ↔ k ∉ ks ∧ (k, b) ∈ d.
Proof.
  revert d. induction ks as [|k0 ks IH]; intros d Hd; cbn [foldl]; [set_solver|].
  rewrite IH by (by apply NoDup_dict_pop). rewrite elem_of_dict_pop by done. set_solver.
Qed.

Lemma dict_set_fresh {K B} `{EqDecision K} (k : K) (b : B) l : k ∉ l.*1 → dict_set k b l = l ++ [(k, b)].
Proof.
  induction l as [|[k0 b0] l IH]; cbn; [done|]. rewrite not_elem_of_cons. intros [Hne Hin].
  rewrite decide_False by done. by rewrite IH.
Qed.

Lemma NoDup_pop_all {K B} `{EqDecision K} (ks : list K) (d : list (K * B)) :
  NoDup d.*1 → NoDup (foldl (λ d k, dict_pop k d) d ks).*1.
Proof. revert d. induction ks as [|k ks IH]; intros d Hd; cbn [foldl]; [done|]. apply IH. by apply NoDup_dict_pop. Qed.

Lemma elem_of_unique_objects {G} `{EqDecision G} (l : list G) g : g ∈ unique_objects l ↔ g ∈ l.
Proof.
  unfold unique_objects. enough (∀ acc, g ∈ foldl (λ u v, if bool_decide (v ∈ u) then u else u ++ [v]) acc l ↔ g ∈ acc ++ l) as E by apply E.
  induction l as [|x l IH]; intros acc; cbn [foldl]; [by rewrite app_nil_r|].
  rewrite IH, !elem_of_app, elem_of_cons. case_bool_decide; [set_solver|]. rewrite elem_of_app, list_elem_of_singleton. tauto.
Qed.

Section reservations.
Context {W G F P A H : Type} `{!EqDecision G, !Countable G} (R : ray W G).
Context (reserved issued : W → gset G).
Abbreviation Plan := (PlacementPlan W G).
Abbreviation Store := (store W G).
Abbreviation Vertex := (ExecutionVertex F P H).
Implicit Types (p : Plan) (s : Store) (g : G).

(** What Ray documents of its placement groups: a request that returns reserves a group
    with a new id, one that raises reserves nothing; a group whose removal returns is gone,
    one whose removal raises may be; nothing else changes the groups of the job. *)
Record honest : Prop := {
  honest_issued w : reserved w ⊆ issued w;
  honest_created b kind w :
    match ray_placement_group R b kind w with
    | (Ok g, w') => g ∉ issued w ∧ reserved w' = {[g]} ∪ reserved w ∧ issued w' = {[g]} ∪ issued w
    | (Err _, w') => reserved w' = reserved w ∧ issued w' = issued w
    end;
  honest_removed g w :
    match ray_remove_placement_group R g w with
    | (Ok _, w') => reserved w' = reserved w ∖ {[g]} ∧ issued w' = issued w
    | (Err _, w') => reserved w ∖ {[g]} ⊆ reserved w' ∧ reserved w' ⊆ reserved w ∧ issued w' = issued w
    end;
  honest_ready groups timeout w :
    let w' := (ray_get_ready R groups timeout w).2 in reserved w' = reserved w ∧ issued w' = issued w;
  honest_nodes w : let w' := (ray_nodes R w).2 in reserved w' = reserved w ∧ issued w' = issued w
}.

Definition owned_by p : gset G := list_to_set (owned_groups p).
Definition owned s (i : plan_ref) : gset G := match plans s !! i with Some p => owned_by p | None => ∅ end.

(** The plans of the built-in strategies. *)
Record tidy_plan p : Prop := {
  tidy_aggregate : placement_group p = None;
  tidy_callback : on_rollback p = None;
  tidy_keys : NoDup (placement_group_by_vertex p).*1;
  tidy_remove : remove_group p = Some (ray_remove_placement_group R) ∨ placement_group_by_vertex p = [];
  tidy_closed : plan_closed p = true → placement_group_by_vertex p = []
}.

Record tidy s : Prop := {
  tidy_plans i p : plans s !! i = Some p → tidy_plan p;
  tidy_issued i : owned s i ⊆ issued (world s);
  tidy_disjoint i j : i ≠ j → owned s i ## owned s j
}.

Lemma owned_by_entry p g : tidy_plan p → g ∈ owned_by p ↔ ∃ v, (v, g) ∈ placement_group_by_vertex p.
Proof.
  intros Hp. unfold owned_by, owned_groups. rewrite (tidy_aggregate _ Hp), elem_of_list_to_set, app_nil_r, list_elem_of_fmap. split.
  - intros ([v x] & -> & Hin). by exists v.
  - intros [v Hin]. by exists (v, g).
Qed.

(** ** Giving groups up *)

(** From [s] to [s'], only plan [i] changes, and it gives up groups of [X] at most; what it
    gives up is no longer reserved. *)
Record shrinks (i : plan_ref) (X : gset G) s s' : Prop := {
  shrinks_tidy : tidy s';
  shrinks_transitions : transitions s' = transitions s;
  shrinks_others j : j ≠ i → plans s' !! j = plans s !! j;
  shrinks_length : length (plans s') = length (plans s);
  shrinks_issued : issued (world s') = issued (world s);
  shrinks_reserved : reserved (world s') ⊆ reserved (world s);
  shrinks_owned : owned s' i ⊆ owned s i;
  shrinks_kept : reserved (world s) ⊆ reserved (world s') ∪ X;
  shrinks_kept_owned : owned s i ⊆ owned s' i ∪ X;
  shrinks_still : reserved (world s') ∩ owned s i ⊆ owned s' i
}.

Definition gives_up i X s s' : Prop := tidy s → shrinks i X s s'.

#[local] Instance gives_up_preorder i X : PreOrder (gives_up i X).
Proof.
  split.
  - intros s Hs. split; done || set_solver.
  - intros s1 s2 s3 H12 H23 H1. specialize (H12 H1). specialize (H23 (shrinks_tidy _ _ _ _ H12)).
    destruct H12 as [_ T1 O1 L1 I1 R1 W1 K1 KO1 S1], H23 as [Hs T2 O2 L2 I2 R2 W2 K2 KO2 S2]. split; [done|by rewrite T2|..].
    + intros j Hj. by rewrite O2, O1.
    + by rewrite L2.
    + by rewrite I2.
    + by transitivity (reserved (world s2)).
    + by transitivity (owned s2 i).
    + clear -K1 K2. set_solver.
    + clear -KO1 KO2. set_solver.
    + clear -S1 S2 R2. set_solver.
Qed.

Lemma owned_alter f i s w' : owned (mkStore (alter f i (plans s)) (transitions s) w') i = match plans s !! i with Some p => owned_by (f p) | None => ∅ end.
Proof. unfold owned. cbn. rewrite list_lookup_alter_eq. by destruct (plans s !! i). Qed.

Lemma owned_alter_ne f i j s w' : j ≠ i → owned (mkStore (alter f i (plans s)) (transitions s) w') j = owned s j.
Proof. intros Hj. unfold owned. cbn. by rewrite list_lookup_alter_ne. Qed.

(** A change of plan [i], and of the world. *)
Lemma shrinks_change i X f s w' :
  tidy s →
  (∀ p, plans s !! i = Some p → tidy_plan (f p) ∧ owned_by (f p) ⊆ owned_by p ∧ owned_by p ⊆ owned_by (f p) ∪ X ∧
          reserved w' ∩ owned_by p ⊆ owned_by (f p)) →
  reserved w' ⊆ reserved (world s) → reserved (world s) ⊆ reserved w' ∪ X → issued w' = issued (world s) →
  shrinks i X s (mkStore (alter f i (plans s)) (transitions s) w').
Proof.
  intros Hs Hf Hr Hk Hi.
  assert (Ho : owned (mkStore (alter f i (plans s)) (transitions s) w') i ⊆ owned s i).
  { rewrite owned_alter. unfold owned. destruct (plans s !! i) as [p|] eqn:E; [by edestruct Hf as (? & ? & ? & ?); [first [exact E|reflexivity]|..]|done]. }
  assert (Hall : ∀ j, owned (mkStore (alter f i (plans s)) (transitions s) w') j ⊆ owned s j).
  { intros j. destruct (decide (j = i)) as [->|Hj]; [done|]. by rewrite owned_alter_ne. }
  split; try done.
  - split.
    + intros j p. cbn. destruct (decide (j = i)) as [->|Hj].
      * rewrite list_lookup_alter_eq, fmap_Some. intros (q & E & ->). by apply Hf.
      * rewrite list_lookup_alter_ne by done. apply Hs.
    + intros j. cbn. rewrite Hi. etransitivity; [apply Hall|apply Hs].
    + intros j k Hjk. pose proof (tidy_disjoint s Hs j k Hjk). pose proof (Hall j). pose proof (Hall k). clear -H0 H1 H2. set_solver.
  - intros j Hj. cbn. by apply list_lookup_alter_ne.
  - cbn. apply length_alter.
  - rewrite owned_alter. unfold owned. destruct (plans s !! i) as [p|] eqn:E; [by edestruct Hf as (? & ? & ? & ?); [first [exact E|reflexivity]|..]|clear; set_solver].
  - rewrite owned_alter. unfold owned. destruct (plans s !! i) as [p|] eqn:E; [by edestruct Hf as (? & ? & ? & ?); [first [exact E|reflexivity]|..]|clear; set_solver].
Qed.

(** A change of the world only. *)
Lemma shrinks_world i X s w' :
  tidy s → reserved w' ⊆ reserved (world s) → reserved (world s) ⊆ reserved w' ∪ X → issued w' = issued (world s) →
  shrinks i X s (set_world w' s).
Proof.
  intros Hs Hr Hk Hi. split; try done; [|unfold owned; cbn; clear; set_solver..].
  destruct Hs as [H1 H2 H3]. split; [done| |done]. intros j. cbn. rewrite Hi. apply H2.
Qed.

(** *** One group *)

Lemma tidy_forget_entries p (vs : list vid) nodes bundles closed :
  tidy_plan p → (closed = true → plan_closed p = true) →
  tidy_plan (mkPlan nodes (placement_group p) (pop_all vs (placement_group_by_vertex p)) bundles (on_rollback p) (plan_strategy p) (remove_group p) closed).
Proof.
  intros [H1 H2 H3 H4 H5] Hc. split; cbn; try done.
  - by apply NoDup_pop_all.
  - destruct H4 as [?|E]; [by left|right]. rewrite E. clear. by induction vs.
  - intros E. rewrite (H5 (Hc E)). clear. by induction vs.
Qed.

Lemma forget_group_entries g p v x :
  tidy_plan p → (v, x) ∈ placement_group_by_vertex (forget_group g p) ↔ (v, x) ∈ placement_group_by_vertex p ∧ x ≠ g.
Proof.
  intros Hp. cbn. rewrite pop_all_spec by apply Hp. rewrite list_elem_of_fmap. split.
  - intros [Hn Hin]. split; [done|]. intros ->. apply Hn. exists (v, g). split; [done|]. by apply list_elem_of_filter.
  - intros [Hin Hx]. split; [|done]. intros ([u y] & -> & [Hy Hin']%list_elem_of_filter). cbn in Hy. subst y. apply Hx.
    assert (Some x = Some g) as [= E]; [|done].
    rewrite <-(proj2 (dict_get_Some u x _ (tidy_keys p Hp)) Hin). by apply dict_get_Some; [apply Hp|].
Qed.

Lemma tidy_forget_group g p : tidy_plan p → tidy_plan (forget_group g p).
Proof.
  intros Hp. unfold forget_group. rewrite (tidy_aggregate p Hp). rewrite decide_False by done.
  pose proof (tidy_forget_entries p (filter (λ e : vid * G, e.2 = g) (placement_group_by_vertex p)).*1 (node_by_vertex p)
    (foldl (λ d v, dict_pop v d) (bundle_by_vertex p) (filter (λ e : vid * G, e.2 = g) (placement_group_by_vertex p)).*1) (plan_closed p) Hp id) as Ht.
  by rewrite (tidy_aggregate p Hp) in Ht.
Qed.

Lemma owned_forget_group g p : tidy_plan p → owned_by (forget_group g p) = owned_by p ∖ {[g]}.
Proof.
  intros Hp. apply set_eq. intros x. rewrite elem_of_difference, elem_of_singleton, !owned_by_entry by (try done; by apply tidy_forget_group).
  setoid_rewrite forget_group_entries; [|done]. naive_solver.
Qed.

(** *** Closing a plan *)

Context (HR : honest).

Lemma set_subsets {X Y Z : gset G} g : X = Y ∖ {[g]} → g ∈ Z → X ⊆ Y ∧ Y ⊆ X ∪ Z.
Proof. intros -> Hg. split; [set_solver|]. intros x Hx. destruct (decide (x = g)); set_solver. Qed.

Lemma release_group_keeps i X g : g ∈ X → keeps (gives_up i X) (release_group i (ray_remove_placement_group R) g).
Proof using HR.
  intros Hg s Hs. pose proof (honest_removed HR g (world s)) as Hr.
  unfold release_group, outside, attempt, mbind, exec_bind. destruct (ray_remove_placement_group R g (world s)) as [[[]|e] w'].
  - destruct Hr as [Hr Hi]. destruct (set_subsets (Z := X) g Hr Hg) as [Hr1 Hr2].
    cbn. unfold set_plans, set_world. cbn. apply shrinks_change; try done. intros p E. pose proof (tidy_plans s Hs i p E) as Hp.
    split; [by apply tidy_forget_group|]. rewrite owned_forget_group by done. rewrite Hr.
    split_and!; [clear; set_solver| |clear; set_solver].
    intros x Hx. destruct (decide (x = g)) as [->|]; [by apply elem_of_union_r|]. set_solver.
  - destruct Hr as (Hr1 & Hr2 & Hi). apply shrinks_world; try done.
    intros x Hx. destruct (decide (x = g)) as [->|]; [by apply elem_of_union_r|]. apply elem_of_union_l, Hr1. set_solver.
Qed.

(** Without an exception, the group is not owned any more. *)
Lemma release_group_done i g s :
  tidy s → match release_group i (ray_remove_placement_group R) g s with (Ok [], s') => g ∉ owned s' i | _ => True end.
Proof using HR.
  intros Hs. unfold release_group, outside, attempt, mbind, exec_bind. destruct (ray_remove_placement_group R g (world s)) as [[[]|e] w']; [|done].
  cbn. unfold set_plans, set_world. cbn. rewrite owned_alter. destruct (plans s !! i) as [p|] eqn:E; [|done].
  rewrite owned_forget_group by (by apply (tidy_plans s Hs i)). set_solver.
Qed.

(** A loop of releases; [f g] gives [g] up unless it raises or returns an exception. *)
Lemma release_loop i X (f : G → exec Store (list exn)) gs s :
  tidy s → (∀ g, g ∈ gs → keeps (gives_up i X) (f g)) →
  (∀ g s, tidy s → match f g s with (Ok [], s') => g ∉ owned s' i | _ => True end) →
  let r := (mjoin <$> exec_map f gs) s in
  shrinks i X s r.2 ∧ (r.1 = Ok [] → ∀ g, g ∈ gs → g ∉ owned r.2 i).
Proof.
  intros Hs Hf Hd. cbn zeta. unfold fmap, exec_fmap, mbind, exec_bind. revert s Hs.
  enough (∀ s, tidy s → let r := exec_map f gs s in shrinks i X s r.2 ∧ ∀ es, r.1 = Ok es → mjoin es = [] → ∀ g, g ∈ gs → g ∉ owned r.2 i) as Hl.
  { intros s Hs. destruct (Hl s Hs) as [H1 H2]. destruct (exec_map f gs s) as [[es|e] s1]; [|done]. cbn in *. split; [done|].
    intros [= E]. by apply (H2 es). }
  induction gs as [|g gs IH]; intros s Hs; cbn zeta.
  { split; [by apply (gives_up_preorder i X)|]. by intros es _ _ g ?%not_elem_of_nil. }
  pose proof (Hf g ltac:(by left) s Hs) as H1. pose proof (Hd g s Hs) as Hdone.
  rewrite exec_map_cons. destruct (f g s) as [[e|e] s1]; [|done]. cbn [snd] in H1.
  destruct (IH ltac:(intros x ?; apply Hf; by right) s1 (shrinks_tidy _ _ _ _ H1)) as [H2 H3].
  assert (Ht : ∀ s2, shrinks i X s1 s2 → shrinks i X s s2).
  { intros s2 ?. apply (PreOrder_Transitive s s1 s2 (R := gives_up i X)); [by intros _|by intros _|done]. }
  destruct (exec_map f gs s1) as [[es|e'] s2]; [|split; [by apply Ht|done]]. cbn [fst snd] in *. split; [by apply Ht|].
  intros es' [= <-]. cbn. intros [-> Hnil]%app_nil x [->|Hx]%elem_of_cons; [|by apply (H3 es)].
  intros Hx. apply Hdone. by apply (shrinks_owned _ _ _ _ H2).
Qed.

Lemma tidy_closed_plan p : tidy_plan p → tidy_plan (closed_plan p) ∧ owned_by (closed_plan p) = ∅.
Proof. intros Hp. split; [|done]. split; cbn; try done; [apply NoDup_nil_2|by right]. Qed.

Lemma shrinks_closed i X s :
  tidy s → owned s i = ∅ → shrinks i X s (set_plans (alter closed_plan i (plans s)) s).
Proof.
  intros Hs He. apply shrinks_change; try done; [|set_solver]. intros p E. destruct (tidy_closed_plan p (tidy_plans s Hs i p E)) as [H1 ->].
  assert (owned_by p = ∅) as -> by (unfold owned in He; by rewrite E in He). split; [done|]. clear. set_solver.
Qed.

Lemma owned_closed i s : owned (set_plans (alter closed_plan i (plans s)) s) i = ∅.
Proof. unfold set_plans. rewrite owned_alter. by destruct (plans s !! i). Qed.

Lemma read_plan_bind {B} i (k : Plan → exec Store B) s :
  (read_plan i ≫= k) s = match plans s !! i with Some p => k p s | None => (Err AttributeError, s) end.
Proof. unfold mbind, exec_bind, read_plan. by destruct (plans s !! i). Qed.

Lemma close_spec i s :
  tidy s → shrinks i (owned s i) s (close i s).2 ∧ ((close i s).1 = Ok () → owned (close i s).2 i = ∅).
Proof using HR.
  intros Hs. unfold close. rewrite read_plan_bind. destruct (plans s !! i) as [p|] eqn:E.
  2: { split; [by apply (gives_up_preorder i (owned s i))|done]. }
  pose proof (tidy_plans s Hs i p E) as Hp.
  assert (Eo : owned s i = owned_by p) by (unfold owned; by rewrite E).
  destruct (plan_closed p) eqn:Ec.
  { split; [by apply (gives_up_preorder i (owned s i))|]. intros _. cbn. rewrite Eo. unfold owned_by, owned_groups.
    by rewrite (tidy_closed p Hp Ec), (tidy_aggregate p Hp). }
  set (loop := match remove_group p with Some _ => _ | None => _ end).
  assert (Hloop : shrinks i (owned s i) s (loop s).2 ∧ ((loop s).1 = Ok [] → owned (loop s).2 i = ∅)).
  { subst loop. destruct (tidy_remove p Hp) as [->|En].
    - destruct (release_loop i (owned s i) (release_group i (ray_remove_placement_group R)) (unique_objects (owned_groups p)) s) as [H1 H2]; [done| |intros g s'; apply release_group_done|].
      { intros g Hg. apply release_group_keeps. rewrite Eo. unfold owned_by. by rewrite elem_of_list_to_set, <-elem_of_unique_objects. }
      split; [done|]. intros E1. apply set_eq. intros x. split; [|set_solver].
      intros Hx. exfalso. apply (H2 E1 x); [|done]. apply elem_of_unique_objects. apply (shrinks_owned _ _ _ _ H1) in Hx. rewrite Eo in Hx.
      unfold owned_by in Hx. by rewrite elem_of_list_to_set in Hx.
    - assert (Eg : owned_groups p = []) by (unfold owned_groups; by rewrite En, (tidy_aggregate p Hp)).
      rewrite Eg, (tidy_callback p Hp). assert (owned s i = ∅) as E0 by (rewrite Eo; unfold owned_by; by rewrite Eg).
      destruct (remove_group p); (split; [by apply (gives_up_preorder i (owned s i))|by intros _]). }
  destruct Hloop as [H1 Hdone]. unfold mbind, exec_bind. destruct (loop s) as [[errors|e] s1]; [|done]. cbn [fst snd] in *.
  case_bool_decide as Ee; cbn; [|done]. subst errors. specialize (Hdone eq_refl). split; [|intros _; apply owned_closed].
  apply (PreOrder_Transitive s s1 _ (R := gives_up i (owned s i))); [by intros _|by intros Hs1; apply shrinks_closed|done].
Qed.

(** *** Releasing the groups of some vertices *)

Definition forget_owners g p : Plan :=
  let owners := (filter (λ e : vid * G, e.2 = g) (placement_group_by_vertex p)).*1 in
  forget_vertices owners (pop_all owners (placement_group_by_vertex p)) (node_by_vertex p) p.

Lemma forget_owners_spec g p : tidy_plan p → tidy_plan (forget_owners g p) ∧ owned_by (forget_owners g p) = owned_by p ∖ {[g]}.
Proof.
  intros Hp. rewrite <-(owned_forget_group g p Hp).
  pose proof (tidy_forget_entries p (filter (λ e : vid * G, e.2 = g) (placement_group_by_vertex p)).*1 (node_by_vertex p)
    (foldl (λ d v, dict_pop v d) (bundle_by_vertex p) (filter (λ e : vid * G, e.2 = g) (placement_group_by_vertex p)).*1) (plan_closed p) Hp id) as Ht.
  split; [exact Ht|]. unfold owned_by, owned_groups. cbn. rewrite (tidy_aggregate p Hp). by destruct (decide _).
Qed.

Lemma forget_selected_spec (vs : list vid) p :
  tidy_plan p → tidy_plan (forget_vertices vs (placement_group_by_vertex p) (pop_all vs (node_by_vertex p)) p) ∧
    owned_by (forget_vertices vs (placement_group_by_vertex p) (pop_all vs (node_by_vertex p)) p) = owned_by p.
Proof. intros [H1 H2 H3 H4 H5]. by split. Qed.

Lemma forget_reserved g w w' X p : tidy_plan p →
  reserved w' = reserved w ∖ {[g]} → g ∈ X → owned_by p ⊆ (owned_by p ∖ {[g]}) ∪ X ∧ reserved w' ∩ owned_by p ⊆ owned_by p ∖ {[g]}.
Proof.
  intros Hp -> Hg. split; [|clear; set_solver].
  intros x Hx. destruct (decide (x = g)) as [->|]; [by apply elem_of_union_r|]. set_solver.
Qed.

Lemma release_owners_cases i selected g s :
  tidy s →
  (∃ e, release_owners i (ray_remove_placement_group R) selected g s = (Err e, s)) ∨
  ∃ p r w', plans s !! i = Some p ∧ ray_remove_placement_group R g (world s) = (r, w') ∧
    release_owners i (ray_remove_placement_group R) selected g s =
      match r with
      | Ok _ => (Ok [], mkStore (alter (λ _, forget_owners g p) i (plans s)) (transitions s) w')
      | Err e => (Ok [e], set_world w' s)
      end.
Proof.
  intros Hs. unfold release_owners. rewrite read_plan_bind. destruct (plans s !! i) as [p|] eqn:E; [|left; by eexists].
  cbn zeta. destruct (bool_decide_reflect (Forall (λ v, v ∈ selected) (filter (λ e : vid * G, e.2 = g) (placement_group_by_vertex p)).*1)) as [Hall|Hall]; cbn [negb]; [|left; by eexists].
  right. unfold mbind, exec_bind, attempt, outside. destruct (ray_remove_placement_group R g (world s)) as [[[]|e] w'] eqn:Er.
  - exists p, (Ok ()), w'. split_and!; [done..|]. cbn. unfold set_plans, set_world. cbn. do 2 f_equal.
    apply list_eq. intros k. destruct (decide (k = i)) as [->|Hk].
    + by rewrite !list_lookup_alter_eq, E.
    + by rewrite !list_lookup_alter_ne.
  - by exists p, (Err e), w'.
Qed.

Lemma release_owners_keeps i X selected g : g ∈ X → keeps (gives_up i X) (release_owners i (ray_remove_placement_group R) selected g).
Proof using HR.
  intros Hg s Hs. destruct (release_owners_cases i selected g s Hs) as [[e ->]|(p & r & w' & E & Er & ->)]; [by apply (gives_up_preorder i X)|].
  pose proof (honest_removed HR g (world s)) as Hr. rewrite Er in Hr. destruct r as [[]|e].
  - destruct Hr as [Hr Hi]. destruct (set_subsets (Z := X) g Hr Hg) as [Hr1 Hr2].
    apply shrinks_change; try done. intros q [= <-]%(eq_trans (eq_sym E)). pose proof (tidy_plans s Hs i p E) as Hp.
    destruct (forget_owners_spec g p Hp) as [Ht ->]. split; [done|]. split; [clear; set_solver|]. by eapply forget_reserved.
  - destruct Hr as (Hr1 & Hr2 & Hi). apply shrinks_world; try done.
    intros x Hx. destruct (decide (x = g)) as [->|]; [by apply elem_of_union_r|]. apply elem_of_union_l, Hr1. set_solver.
Qed.

Lemma release_owners_done i selected g s :
  tidy s → match release_owners i (ray_remove_placement_group R) selected g s with (Ok [], s') => g ∉ owned s' i | _ => True end.
Proof.
  intros Hs. destruct (release_owners_cases i selected g s Hs) as [[e ->]|(p & [[]|e] & w' & E & Er & ->)]; [done| |done].
  rewrite owned_alter, E. destruct (forget_owners_spec g p (tidy_plans s Hs i p E)) as [_ ->]. set_solver.
Qed.

Definition groups_of (selected : list vid) p : gset G := list_to_set (omap (λ v, dict_get v (placement_group_by_vertex p)) selected).

Lemma release_vertices_spec i p selected s :
  tidy s → plans s !! i = Some p →
  shrinks i (groups_of selected p) s (release_vertices i selected s).2 ∧
    ((release_vertices i selected s).1 = Ok () → groups_of selected p ## owned (release_vertices i selected s).2 i).
Proof using HR.
  intros Hs E. pose proof (tidy_plans s Hs i p E) as Hp. unfold release_vertices. rewrite read_plan_bind, E.
  rewrite (tidy_aggregate p Hp). rewrite (bool_decide_eq_false_2 (is_Some None)) by apply is_Some_None. cbn [andb]. cbn zeta.
  set (gs := unique_objects _). set (X := groups_of selected p).
  assert (Hgs : ∀ g, g ∈ gs ↔ g ∈ X) by (intros g; subst gs X; unfold groups_of; by rewrite elem_of_unique_objects, elem_of_list_to_set).
  set (loop := match remove_group p with Some _ => _ | None => _ end).
  assert (Hloop : shrinks i X s (loop s).2 ∧ ((loop s).1 = Ok [] → ∀ g, g ∈ gs → g ∉ owned (loop s).2 i)).
  { subst loop. destruct (tidy_remove p Hp) as [->|En].
    - apply release_loop; [done| |intros g s'; apply release_owners_done]. intros g Hg. by apply release_owners_keeps, Hgs.
    - assert (Eg : gs = []).
      { subst gs. rewrite En. clear. replace (omap _ selected) with (@nil G); [done|]. by induction selected. }
      rewrite Eg. destruct (remove_group p); (split; [by apply (gives_up_preorder i X)|]; by intros _ g ?%not_elem_of_nil). }
  destruct Hloop as [H1 Hdone]. unfold mbind, exec_bind. destruct (loop s) as [[errors|e] s1]; [|done]. cbn [fst snd] in *.
  case_bool_decide as Ee; cbn; [|done]. subst errors. specialize (Hdone eq_refl). unfold set_plans.
  set (f := λ p : Plan, forget_vertices selected (placement_group_by_vertex p) (pop_all selected (node_by_vertex p)) p).
  assert (H2 : shrinks i X s1 (mkStore (alter f i (plans s1)) (transitions s1) (world s1))).
  { apply shrinks_change; try done; [by apply (shrinks_tidy _ _ _ _ H1)| |clear; set_solver].
    intros q Eq. destruct (forget_selected_spec selected q (tidy_plans s1 (shrinks_tidy _ _ _ _ H1) i q Eq)) as [Ht Ho].
    fold (f q) in Ht, Ho. rewrite Ho. split; [done|]. clear. set_solver. }
  split; [apply (PreOrder_Transitive s s1 _ (R := gives_up i X)); [by intros _|by intros _|done]|].
  intros _ g Hg%Hgs Ho. apply (Hdone g Hg). apply (shrinks_owned _ _ _ _ H2), Ho.
Qed.

(** ** Reserving groups *)

Lemma reserve_groups_spec kind (selected : list Vertex) groups bundles made s :
  NoDup (groups.*1 ++ (xv_id <$> selected)) →
  ∃ (new : list (vid * G)) bundles' r w',
    reserve_groups R kind selected groups bundles made s = (Ok (groups ++ new, bundles', r), set_world w' s) ∧
    NoDup (groups ++ new).*1 ∧ NoDup new.*2 ∧
    reserved w' = list_to_set new.*2 ∪ reserved (world s) ∧ issued w' = list_to_set new.*2 ∪ issued (world s) ∧
    (∀ g, g ∈ new.*2 → g ∉ issued (world s)) ∧ (is_ok r = true → new.*1 = xv_id <$> selected ∧ r = Ok (made ++ new.*2)).
Proof using HR.
  revert groups bundles made s. induction selected as [|v selected IH]; intros groups bundles made s Hnd; cbn [reserve_groups].
  { exists [], bundles, (Ok made), (world s). rewrite !app_nil_r in *. split_and!; try done; [by destruct s|by apply NoDup_nil_2|set_solver|set_solver|].
    by intros g ?%not_elem_of_nil. }
  pose proof (honest_created HR (bundle_of (xv_resources v)) kind (world s)) as Hc.
  unfold mbind, exec_bind, attempt, outside. destruct (ray_placement_group R _ kind (world s)) as [[g|e] w1].
  2: { exists [], bundles, (Err e), w1. destruct Hc as [Hc1 Hc2]. cbn. rewrite app_nil_r, Hc1, Hc2.
       apply NoDup_app in Hnd as (Hnd & _). split_and!; try done; [by apply NoDup_nil_2|set_solver|set_solver|]. by intros g ?%not_elem_of_nil. }
  destruct Hc as (Hfresh & Hr1 & Hi1). cbn [fmap list_fmap] in Hnd.
  assert (Hv : xv_id v ∉ groups.*1) by (intros Hin; apply NoDup_app in Hnd as (_ & Hnd & _); apply (Hnd _ Hin); by left).
  rewrite (dict_set_fresh (xv_id v) g groups Hv).
  destruct (IH (groups ++ [(xv_id v, g)]) (dict_set (xv_id v) 0 bundles) (made ++ [g]) (set_world w1 s)) as (new & b' & r & w' & E & H1 & H2 & H3 & H4 & H5 & H6).
  { rewrite fmap_app. cbn. rewrite <-app_assoc. done. }
  exists ((xv_id v, g) :: new), b', r, w'. rewrite (cons_middle _ groups new), (app_assoc groups). cbn [world] in *. split_and!.
  - rewrite E. by destruct s.
  - done.
  - cbn. apply NoDup_cons. split; [|done]. intros Hin%H5. apply Hin. cbn. rewrite Hi1. set_solver.
  - cbn. rewrite H3. cbn. rewrite Hr1. set_solver.
  - cbn. rewrite H4. cbn. rewrite Hi1. set_solver.
  - intros x. cbn. intros [->|Hin%H5]%elem_of_cons; [done|]. cbn in Hin. rewrite Hi1 in Hin. set_solver.
  - intros Hok%H6. destruct Hok as [Ek Er]. cbn. split; [by rewrite Ek|]. rewrite Er. by rewrite <-app_assoc.
Qed.

(** From [s] to [s'], at most a plan [n] with new groups was made. *)
Record grows (n : plan_ref) s s' : Prop := {
  grows_tidy : tidy s';
  grows_transitions : transitions s' = transitions s;
  grows_old k : (k < n)%nat → plans s' !! k = plans s !! k;
  grows_others k : (n < k)%nat → plans s' !! k = None;
  grows_reserved : reserved (world s) ⊆ reserved (world s');
  grows_kept : reserved (world s') ⊆ reserved (world s) ∪ owned s' n;
  grows_issued : issued (world s) ⊆ issued (world s')
}.

Definition push p w' s : Store := mkStore (plans s ++ [p]) (transitions s) w'.

Lemma owned_push p w' s k : owned (push p w' s) k = if decide (k = length (plans s)) then owned_by p else owned s k.
Proof.
  unfold owned, push. cbn. case_decide as Hk.
  - subst k. by rewrite lookup_app_r, Nat.sub_diag.
  - destruct (decide (k < length (plans s))%nat) as [Hl|Hl].
    + by rewrite lookup_app_l.
    + rewrite (lookup_ge_None_2 (plans s ++ [p])) by (rewrite length_app; cbn; lia). by rewrite (lookup_ge_None_2 (plans s)) by lia.
Qed.

Lemma owned_beyond s k : (length (plans s) <= k)%nat → owned s k = ∅.
Proof. intros Hk. unfold owned. by rewrite lookup_ge_None_2. Qed.

Lemma grows_push p w' s :
  tidy s → tidy_plan p → issued (world s) ⊆ issued w' → owned_by p ⊆ issued w' → owned_by p ## issued (world s) →
  reserved (world s) ⊆ reserved w' → reserved w' ⊆ reserved (world s) ∪ owned_by p →
  grows (length (plans s)) s (push p w' s).
Proof.
  intros Hs Hp Hi Hpi Hd Hr Hk.
  assert (Hn : owned (push p w' s) (length (plans s)) = owned_by p) by (rewrite owned_push; by rewrite decide_True).
  split; try done.
  - split.
    + intros k q. cbn. intros [Hq|[_ [_ <-]%list_lookup_singleton_Some]]%lookup_app_Some; [by apply (tidy_plans s Hs k)|done].
    + intros k. rewrite owned_push. case_decide; [done|]. cbn. etransitivity; [apply (tidy_issued s Hs)|done].
    + intros k l Hkl. rewrite !owned_push. do 2 case_decide; subst; try done; [..|by apply (tidy_disjoint s Hs)].
      * pose proof (tidy_issued s Hs l). set_solver.
      * pose proof (tidy_issued s Hs k). set_solver.
  - intros k Hk'. cbn. by rewrite lookup_app_l.
  - intros k Hk'. cbn. apply lookup_ge_None_2. rewrite length_app. cbn. lia.
  - by rewrite Hn.
Qed.

Lemma grows_same n s w' :
  n = length (plans s) → tidy s → reserved w' = reserved (world s) → issued w' = issued (world s) → grows n s (set_world w' s).
Proof.
  intros -> Hs Hr Hi. split; cbn; try done; [| |rewrite Hr; done|rewrite Hr; apply union_subseteq_l|by rewrite Hi].
  - destruct Hs as [H1 H2 H3]. split; [done| |done]. intros k. cbn. rewrite Hi. apply H2.
  - intros k Hk. apply lookup_ge_None_2. lia.
Qed.

(** A plan whose groups are new, of which some are given up again. *)
Lemma grows_shrinks n s s2 s3 :
  grows n s s2 → owned s2 n ## reserved (world s) → shrinks n (owned s2 n) s2 s3 → grows n s s3.
Proof.
  intros [_ T1 O1 N1 R1 K1 I1] Hd [Hs T2 O2 L2 I2 R2 W2 K2 KO2 S2]. split; [done|by rewrite T2|..].
  - intros k Hk. rewrite O2 by lia. by apply O1.
  - intros k Hk. rewrite O2 by lia. by apply N1.
  - clear -R1 Hd K2. set_solver.
  - clear -R2 K1 S2. set_solver.
  - by rewrite I2.
Qed.

(** What a new plan of groups holds. *)
Record fresh_plan (n : plan_ref) (ids : list vid) s s' p : Prop := {
  fresh_lookup : plans s' !! n = Some p;
  fresh_open : plan_closed p = false;
  fresh_keys : (placement_group_by_vertex p).*1 = ids;
  fresh_distinct : NoDup (placement_group_by_vertex p).*2;
  fresh_reserved : owned s' n ⊆ reserved (world s');
  fresh_issued : owned s' n ## issued (world s)
}.

Lemma tidy_group_plan self (groups : list (vid * G)) bundles : NoDup groups.*1 → tidy_plan (group_plan R self groups bundles).
Proof. intros Hnd. split; cbn; try done. by left. Qed.

Lemma owned_group_plan self (groups : list (vid * G)) bundles : owned_by (group_plan R self groups bundles) = list_to_set groups.*2.
Proof. unfold owned_by, owned_groups. cbn. by rewrite app_nil_r. Qed.

Lemma plan_group_vertices_spec kind ready_timeout (selected : list Vertex) timeout s :
  tidy s → NoDup (xv_id <$> selected) →
  let '(r, s') := plan_group_vertices R kind ready_timeout selected timeout s in
  grows (length (plans s)) s s' ∧
  match r with
  | Ok (Planned j) => j = length (plans s) ∧ ∃ p, fresh_plan j (xv_id <$> selected) s s' p
  | Ok (CleanupIncomplete j) => j = length (plans s)
  | Err _ => owned s' (length (plans s)) = ∅
  end.
Proof using HR.
  intros Hs Hnd. set (n := length (plans s)). set (self := PlacementGroupStrategy kind ready_timeout).
  assert (Hpush : ∀ groups bundles w',
    NoDup groups.*1 → NoDup groups.*2 → (∀ g, g ∈ groups.*2 → g ∉ issued (world s)) →
    reserved w' = list_to_set groups.*2 ∪ reserved (world s) → issued w' = list_to_set groups.*2 ∪ issued (world s) →
    let s' := push (group_plan R self groups bundles) w' s in
    grows n s s' ∧ fresh_plan n groups.*1 s s' (group_plan R self groups bundles)).
  { intros groups bundles w' Hk Hg Hf Hr Hi s'.
    assert (Hn : owned s' n = list_to_set groups.*2) by (unfold s', n; rewrite owned_push, decide_True by done; apply owned_group_plan).
    assert (Hdis : list_to_set groups.*2 ## issued (world s)) by (intros g Hg1%elem_of_list_to_set; by apply Hf).
    split.
    - apply grows_push; [done|by apply tidy_group_plan|..]; rewrite ?owned_group_plan, ?Hr, ?Hi; try done; clear; set_solver.
    - split; cbn; try done; [by rewrite lookup_app_r, Nat.sub_diag|by rewrite Hn, Hr; apply union_subseteq_l|by rewrite Hn]. }
  unfold plan_group_vertices. fold self. case_bool_decide as E0.
  { destruct selected; [|done]. cbn. change (mkStore _ _ _) with (push (group_plan R self [] []) (world s) s).
    destruct (Hpush [] [] (world s)) as [H1 H2]; [apply NoDup_nil_2|apply NoDup_nil_2|by intros g ?%not_elem_of_nil|set_solver|set_solver|].
    split; [done|]. split; [done|]. by eexists. }
  destruct (reserve_groups_spec kind selected [] [] [] s Hnd) as (new & bundles & r & w1 & E & Hk & Hg & Hr & Hi & Hf & Hok).
  rewrite (exec_bind_Ok _ _ _ _ _ E). cbn [app] in *.
  set (attempted := attempt _).
  assert (Ha : ∃ o w2, attempted (set_world w1 s) = (Ok o, set_world w2 s) ∧ reserved w2 = reserved w1 ∧ issued w2 = issued w1 ∧ (is_ok o = true → is_ok r = true)).
  { subst attempted. unfold attempt. rewrite exec_bind_of_outcome. destruct r as [made|e]; [|by exists (Err e), w1].
    cbn zeta. destruct (negb _); [by exists (Err TimeoutError), w1|].
    unfold outside. destruct (ray_get_ready R made _ (world (set_world w1 s))) as [o w2] eqn:Eg. exists o, w2.
    match type of Eg with ray_get_ready _ _ ?t _ = _ => pose proof (honest_ready HR made t w1) as [H1 H2] end.
    cbn in Eg. rewrite Eg in H1, H2. by split_and!. }
  destruct Ha as (o & w2 & Ea & Hr2 & Hi2 & Hor). rewrite (exec_bind_Ok _ _ _ _ _ Ea).
  destruct (Hpush new bundles w2) as [H1 H2]; [done|done|done|by rewrite Hr2|by rewrite Hi2|].
  destruct o as [[]|e].
  - cbn. change (mkStore (plans s ++ _) _ _) with (push (group_plan R self new bundles) w2 s).
    split; [done|]. split; [done|]. exists (group_plan R self new bundles). by rewrite <-(proj1 (Hok (Hor eq_refl))).
  - rewrite (exec_bind_Ok _ _ _ n (push (group_plan R self new bundles) w2 s)) by done.
    destruct (close_spec n (push (group_plan R self new bundles) w2 s) (grows_tidy _ _ _ H1)) as [Hc Hc'].
    unfold attempt, mbind, exec_bind. destruct (close n _) as [[[]|e'] s3]; cbn [fst snd] in *.
    + split; [|by apply Hc']. apply (grows_shrinks _ _ _ _ H1); [|done]. pose proof (fresh_issued _ _ _ _ _ H2) as Hd. pose proof (honest_issued HR (world s)). clear -Hd H0. set_solver.
    + split; [|done]. apply (grows_shrinks _ _ _ _ H1); [|done]. pose proof (fresh_issued _ _ _ _ _ H2) as Hd. pose proof (honest_issued HR (world s)). clear -Hd H0. set_solver.
Qed.
End reservations.
