(* ===== verification/RescaleTransaction.v ===== *)
(** * The transaction of a local rescale

    Models [src/ray/klein/runtime/scheduler/rescale_plan.py] and the methods of
    [scheduler/job_master.py] that resize one operator of a running job: preparation of
    the added actors, the gate of the coordinator, the fence and the cut of the data plane,
    the two-phase change of runtimes and routes, the commit, and the compensation of what
    was attempted.  The calls of actors and of the deployer are a [task_platform], which may
    answer anything, and raise; what was sent and answered is kept in a log. *)
From Stdlib Require Import QArith.QArith QArith.Qcanon.
From S2P Require Import Prelude Dicts Effects KeyGroups Checkpoints Graphs Plans LogicalGraph PhysicalGraph Assignment Placement Failover.
Open Scope Z_scope.

(** ** The plan *)

Inductive RescalePhase := INITIAL | CANDIDATES | CHECKPOINT_GATE | PARTICIPANTS | RUNTIMES | ROUTES | COORDINATOR | COMMITTED | RELEASED.

Definition phase_value (p : RescalePhase) : Z :=
  match p with
  | INITIAL => 0 | CANDIDATES => 1 | CHECKPOINT_GATE => 2 | PARTICIPANTS => 3 | RUNTIMES => 4
  | ROUTES => 5 | COORDINATOR => 6 | COMMITTED => 7 | RELEASED => 8
  end.

(** The new phase, of [RescaleTransaction.enter]. *)
Definition enter_phase (current phase : RescalePhase) : outcome RescalePhase :=
  if phase_value phase <=? phase_value current then Err RuntimeError
  else if negb (phase_value phase =? phase_value current + 1) then Err RuntimeError
  else Ok phase.

Definition phase_attempted (current phase : RescalePhase) : bool := phase_value phase <=? phase_value current.

(** The elements of the rows of a comprehension. *)
Definition flatten {X} (rows : list (list X)) : list X := rows ≫= id.

Section rescale.
Context {F P A H : Type} `{!Recipes F P A} {W G D V J C : Type} `{EqDecision G, EqDecision D, EqDecision J}.
Abbreviation Graph := (ExecutionGraph F P A H).
Abbreviation Vertex := (ExecutionVertex F P H).
Abbreviation JobVertex := (ExecutionJobVertex F P H).

Record RescaleDelta := mkDelta { retained : list Vertex; added : list Vertex; removed : list Vertex }.

(** [RescaleDelta.between]: over the sorted indices of the two operators. *)
Definition delta_between (old_target new_target : JobVertex) : outcome RescaleDelta :=
  let old_indices := (jv_vertices old_target).*1 in
  let new_indices := (jv_vertices new_target).*1 in
  retained ← mapM_outcome (jv_execution_vertex new_target) (merge_sort Z.le (filter (.∈ new_indices) old_indices));
  added ← mapM_outcome (jv_execution_vertex new_target) (merge_sort Z.le (filter (.∉ old_indices) new_indices));
  removed ← mapM_outcome (jv_execution_vertex old_target) (merge_sort Z.le (filter (.∉ new_indices) old_indices));
  Ok (mkDelta retained added removed).

Record RescalePlan := mkRescalePlan {
  operation_id : string;
  target_id : Z;
  old_graph : Graph;
  new_graph : Graph;
  old_target : JobVertex;
  new_target : JobVertex;
  delta : RescaleDelta
}.

(** [RescalePlan.build]; [resize_operator] returns the graph itself exactly when the
    parallelism is the current one. *)
Definition build_plan (current : Graph) (target : Z) (parallelism : pyarg) (operation : string) (generation : Z → string) : outcome RescalePlan :=
  if bool_decide (operation = "") then Err ValueError
  else
    new_graph ← resize_operator current (AInt target) parallelism generation;
    old_target ← job_vertex current target;
    if bool_decide (parallelism = AInt (jv_concurrency old_target)) then Err ValueError
    else
      new_target ← job_vertex new_graph target;
      delta ← delta_between old_target new_target;
      Ok (mkRescalePlan operation target current new_graph old_target new_target delta).

(** ** The graph, as the scheduler reads it *)

Definition input_job_edges (g : Graph) (j : Z) : outcome (list (ExecutionJobEdge A)) := _ ← job_vertex g j; Ok (in_edges_by_job_vertex g j).
Definition output_job_edges (g : Graph) (j : Z) : outcome (list (ExecutionJobEdge A)) := _ ← job_vertex g j; Ok (out_edges_by_job_vertex g j).
Definition downstream_job_vertices (g : Graph) (j : Z) : outcome (list Z) := _ ← job_vertex g j; Ok (je_target <$> out_edges_by_job_vertex g j).

(** The elements of a set that code iterates over, once each. *)
Definition distinct (l : list Z) : list Z := unique_objects l.

(** ** Calls *)

Inductive peer := CheckpointCoordinator | Task (job : J) (vertex : vid).

Inductive answer := ATrue | ANone | AValue (v : V).

Inductive request :=
  (* of the checkpoint coordinator *)
  | BeginOperatorRescale (operation : string)
  | StageOperatorRescaleState (operation : string) (target concurrency : Z) (snapshots : list answer)
  | ReconfigureExecutionGraph (g : Graph)
  | FinishOperatorRescale (operation : string) (committed : bool) (target : option Z)
  | DiscardOperatorRescaleState (operation : string) (target : Z)
  (* of a task *)
  | PrepareRescaleTarget (operation : string)
  | PrepareRescaleDownstream (operation : string) (expected : list vid)
  | PrepareRescaleUpstream (operation : string) (target : Z) (edge_indices : list nat)
  | AwaitRescaleReady (operation : string)
  | ProgressCounts
  | PrepareRuntimeRescale (operation : string) (descriptor : D)
  | CommitRuntimeRescale (operation : string)
  | RollbackRuntimeRescale (operation : string)
  | PrepareTopologyReconfiguration (operation : string) (descriptor : D)
  | ActivateTopologyReconfiguration (operation : string)
  | CommitTopologyReconfiguration (operation : string)
  | RollbackTopologyReconfiguration (operation : string)
  | ResumeRescale (operation : string)
  | RequestCheckpoint.

(** A reference is known by the call it belongs to. *)
Abbreviation call := (peer * request)%type.

Inductive event :=
  | Sent (c : call)
  | Answered (calls : list call) (r : outcome (list answer)).

(** What the transaction calls besides placement.  The runtime fields of a task's wrapper
    are read in the world, as the deployer and the terminator change them; a wrapper is
    known by its operator's object and its id.  A descriptor ([build_descriptor]) is a
    function of the graph.  [t_expired]: the current deadline. *)
Record task_platform := mkTasks {
  t_task : J → vid → W → option H;
  t_running : J → vid → W → bool;
  t_set_restore_id : J → vid → string → W → W;
  t_instantiate : Graph → J → PlacementPlan W G → string → list Vertex → W → outcome unit * W;
  t_deploy : J → list Vertex → W → outcome unit * W;
  t_wait_created : J → list Vertex → W → outcome unit * W;
  t_start : J → string → list Vertex → W → outcome unit * W;
  t_stop : J → bool → option string → list Vertex → W → outcome unit * W;
  t_submit : H → request → W → outcome unit * W;
  t_get : list call → W → outcome (list answer) * W;
  t_clear_stable_rescale_metadata : Graph → W → bool * W;
  t_expired : W → bool;
  t_descriptor : Graph → vid → option string → outcome D;
  t_input_vertex_ids : D → list vid;
  t_counts : V → option C;
  t_identity : Graph → Z → J;
  t_hexdigest : string → string
}.

(** What an operator's recipe says of a rescale. *)
Record rescale_rules := mkRules {
  r_collect_class : OperatorClass → bool;
  r_two_phase_sink : F → bool;
  r_concurrent_rescale : F → bool
}.

(** ** Operators that cannot be rescaled *)

Context (T : task_platform) (rules : rescale_rules).

Fixpoint collecting (o : OperatorSpec F P) : bool :=
  match o with mkOperator cls _ _ _ _ _ children _ =>
    match children with [] => r_collect_class rules cls | _ => existsb collecting children end end.

Fixpoint transactional_sink (o : OperatorSpec F P) : bool :=
  match o with mkOperator _ f _ _ _ _ children _ =>
    match children with [] => match f with None => false | Some f => r_two_phase_sink rules f end | _ => existsb transactional_sink children end end.

Fixpoint supports_concurrent_rescale (o : OperatorSpec F P) : bool :=
  match o with mkOperator _ f _ _ _ _ children _ =>
    match children with [] => match f with None => true | Some f => r_concurrent_rescale rules f end | _ => forallb supports_concurrent_rescale children end end.

(** ** The job master *)

(** A [RecoveryManager]: its graph, and whether a reason to recover globally is set. *)
Record RecoveryManager := mkRecovery { rm_graph : Graph; rm_force_global : bool }.

Abbreviation ctrl := (control (store W G) H plan_ref (plan_ref + transition_ref) J Vertex RecoveryManager).

(** [m_phase] is the cursor of the running transaction. *)
Record master := mkMaster {
  m_control : ctrl;
  m_graph : Graph;
  m_retired : list (vid * C);
  m_pending_state : list (string * Z);
  m_phase : RescalePhase;
  m_log : list event
}.

Abbreviation rm := (exec master).
Implicit Types (m : master) (plan : RescalePlan).

Definition set_control x m := mkMaster x (m_graph m) (m_retired m) (m_pending_state m) (m_phase m) (m_log m).
Definition set_graph x m := mkMaster (m_control m) x (m_retired m) (m_pending_state m) (m_phase m) (m_log m).
Definition set_retired x m := mkMaster (m_control m) (m_graph m) x (m_pending_state m) (m_phase m) (m_log m).
Definition set_pending_state x m := mkMaster (m_control m) (m_graph m) (m_retired m) x (m_phase m) (m_log m).
Definition set_phase x m := mkMaster (m_control m) (m_graph m) (m_retired m) (m_pending_state m) x (m_log m).
Definition set_log x m := mkMaster (m_control m) (m_graph m) (m_retired m) (m_pending_state m) (m_phase m) x.

Definition m_store m : store W G := c_world (m_control m).
Definition m_world m : W := world (m_store m).

Definition in_control {B} (f : exec ctrl B) : rm B := λ m, let '(o, c) := f (m_control m) in (o, set_control c m).
Definition on_store {B} (f : exec (store W G) B) : rm B := in_control (Failover.outside f).
Definition on_world {B} (f : W → outcome B * W) : rm B := on_store (Placement.outside f).
Definition change_world (f : W → W) : rm unit := on_world (λ w, (Ok (), f w)).
Definition note (e : event) : rm unit := modify (λ m, set_log (m_log m ++ [e]) m).

(** [try: m finally: f]. *)
Definition try_finally {B} (x : rm B) (f : rm unit) : rm B := r ← attempt x; _ ← f; of_outcome r.

(** A call of an actor handle, which may be missing. *)
Definition submit (h : option H) (c : call) : rm call :=
  match h with
  | None => throw AttributeError
  | Some h => _ ← on_world (t_submit T h c.2); _ ← note (Sent c); mret c
  end.

(** [klein.get(references, timeout)]. *)
Definition get (calls : list call) : rm (list answer) :=
  r ← attempt (on_world (t_get T calls)); _ ← note (Answered calls r); of_outcome r.

Definition handle_of (j : J) (v : vid) : rm (option H) := gets (λ m, t_task T j v (m_world m)).

Definition call_task (j : J) (v : vid) (r : request) : rm call := h ← handle_of j v; submit h (Task j v, r).

Definition call_coordinator (r : request) : rm (list answer) :=
  h ← gets (λ m, c_coordinator (m_control m)); c ← submit h (CheckpointCoordinator, r); get [c].

Definition all_true (results : list answer) : bool := forallb (λ a, match a with ATrue => true | _ => false end) results.

(** [results = klein.get(calls); if not all(...): raise], when there are calls. *)
Definition get_all_true (calls : list call) : rm unit :=
  if bool_decide (length calls = 0%nat) then mret ()
  else results ← get calls; if all_true results then mret () else throw RuntimeError.

Definition identity_of (g : Graph) (j : Z) : J := t_identity T g j.
Definition old_ref plan : J := identity_of (old_graph plan) (target_id plan).
Definition new_ref plan : J := identity_of (new_graph plan) (target_id plan).

(** A call of every wrapper of some operators. *)
Definition call_vertices (g : Graph) (j : Z) (r : request) : rm (list call) :=
  jv ← of_outcome (job_vertex g j); exec_map (λ v, call_task (identity_of g j) (xv_id v) r) (subtasks jv).

(** *** Recovery *)

Definition require_global_recovery : rm unit :=
  in_control (modify (λ c, Failover.set_recovery (mkRecovery (rm_graph (c_recovery c)) true) c)).

Definition replace_recovery_graph (g : Graph) : rm unit := in_control (modify (Failover.set_recovery (mkRecovery g false))).

(** *** Placement *)

Context (P0 : platform (store W G) H string plan_ref (plan_ref + transition_ref) J Vertex RecoveryManager) (R : ray W G).

Definition remember_placement (cleanup : plan_ref + transition_ref) : rm unit := in_control (remember_pending_placement_cleanup cleanup).

Definition begin_rescale_placement plan (timeout : option Qc) : rm transition_ref :=
  active ← gets (λ m, c_plan (m_control m));
  match active with
  | None => throw RuntimeError
  | Some i =>
      begun ← on_store (begin_rescale R i (new_graph plan) (added (delta plan)) (xv_id <$> removed (delta plan)) timeout);
      match begun with
      | inl transition => mret transition
      | inr leftover => _ ← remember_placement (inl leftover); throw DeploymentError
      end
  end.

(** *** Transient state *)

Definition discard_local_rescale_state (operation : string) (target : Z) : rm unit :=
  _ ← try_except (_ ← call_coordinator (DiscardOperatorRescaleState operation target); mret ())
        (λ e, _ ← modify (λ m, if decide ((operation, target) ∈ m_pending_state m) then m
                               else set_pending_state (m_pending_state m ++ [(operation, target)]) m); throw e);
  modify (λ m, set_pending_state (filter (λ c, c ≠ (operation, target)) (m_pending_state m)) m).

(** The loop, left when the deadline expires. *)
Fixpoint reconcile_states (cleanups : list (string * Z)) : rm unit :=
  match cleanups with
  | [] => mret ()
  | (operation, target) :: cleanups =>
      expired ← gets (λ m, t_expired T (m_world m));
      if expired : bool then mret ()
      else _ ← attempt (discard_local_rescale_state operation target); reconcile_states cleanups
  end.

Definition reconcile_pending_rescale_state_cleanup : rm unit :=
  pending ← gets m_pending_state;
  if bool_decide (pending = []) then mret ()
  else
    _ ← reconcile_states pending;
    left_over ← gets m_pending_state;
    if bool_decide (left_over = []) then mret () else throw RuntimeError.

(** *** Actors that could not be killed *)

Definition remember_pending_rescale_actors (j : J) (vertices : list Vertex) : rm unit :=
  in_control (modify (λ c, Failover.set_pending_actors
    (foldl (λ d v, dict_set (actor_name v) (j, v) d) (c_pending_actors c) vertices) c)).

(** *** Preconditions *)

Definition rescale_stabilization_sources (g : Graph) (target : Z) : outcome (list Vertex) :=
  view ← coordinator_view (t_hexdigest T) g;
  domains ← Checkpoints.checkpoint_domains_for_job_vertex view target;
  let source_ids := domains ≫= dom_source_vertex_ids in
  Ok (filter (λ v, xv_id v ∈ source_ids) (source_execution_vertices g)).

(** The sources that are not running. *)
Definition unavailable_sources (g : Graph) (sources : list Vertex) (w : W) : list Vertex :=
  filter (λ v, let j := identity_of g (job_vertex_id (xv_id v)) in t_task T j (xv_id v) w = None ∨ t_running T j (xv_id v) w = false) sources.

Definition validate_local_rescale plan : rm unit :=
  let o := vs_operator (jv_spec (old_target plan)) in
  if source o then throw ValueError
  else if transactional_sink o then throw ValueError
  else if collecting o then throw ValueError
  else if negb (supports_concurrent_rescale o) then throw ValueError
  else
    sources ← of_outcome (rescale_stabilization_sources (old_graph plan) (target_id plan));
    unavailable ← gets (λ m, unavailable_sources (old_graph plan) sources (m_world m));
    if negb (bool_decide (length unavailable = 0%nat)) then throw RuntimeError
    else
      coordinator ← gets (λ m, c_coordinator (m_control m));
      alive ← match coordinator with None => mret false | Some _ => in_control (Failover.outside (p_coordinator_alive P0)) end;
      if alive : bool then mret () else throw RuntimeError.

(** *** The fence and the cut *)

Definition prepare_local_rescale (g : Graph) (target : Z) (operation : string) : rm (list call * list call) :=
  target_calls ← call_vertices g target (PrepareRescaleTarget operation);
  downstream ← of_outcome (downstream_job_vertices g target);
  downstream_parts ← exec_map (λ j,
    jv ← of_outcome (job_vertex g j);
    exec_map (λ v : Vertex,
      descriptor ← of_outcome (t_descriptor T g (xv_id v) None);
      let expected := filter (λ s, job_vertex_id s = target) (t_input_vertex_ids T descriptor) in
      c ← call_task (identity_of g j) (xv_id v) (PrepareRescaleDownstream operation expected);
      mret (c, (identity_of g j, xv_id v))) (subtasks jv)) downstream;
  let prepared := flatten downstream_parts in
  let prepare_calls := target_calls ++ prepared.*1 in
  _ ← (if bool_decide (length prepare_calls = 0%nat) then mret () else _ ← get prepare_calls; mret ());
  downstream_waits ← exec_map (λ v : J * vid, call_task v.1 v.2 (AwaitRescaleReady operation)) prepared.*2;
  inputs ← of_outcome (input_job_edges g target);
  upstream_parts ← exec_map (λ j,
    _ ← of_outcome (job_vertex g j);
    outputs ← of_outcome (output_job_edges g j);
    let edge_indices := (filter (λ e : nat * ExecutionJobEdge A, je_target e.2 = target) (imap pair outputs)).*1 in
    call_vertices g j (PrepareRescaleUpstream operation target edge_indices)) (distinct (je_source <$> inputs));
  mret (flatten upstream_parts, downstream_waits).

Definition await_local_rescale_cut plan (participants : list call * list call) : rm (list answer) :=
  target_waits ← exec_map (λ v, call_task (old_ref plan) (xv_id v) (AwaitRescaleReady (operation_id plan))) (subtasks (old_target plan));
  let all_waits := participants.1 ++ target_waits ++ participants.2 in
  results ← (if bool_decide (length all_waits = 0%nat) then mret [] else get all_waits);
  mret (take (length target_waits) (drop (length participants.1) results)).

Definition counts_of (a : answer) : option C := match a with AValue v => t_counts T v | _ => None end.

Definition capture_retired_progress plan : rm unit :=
  let removed := removed (delta plan) in
  if bool_decide (length removed = 0%nat) then mret ()
  else
    results ← attempt (calls ← exec_map (λ v, call_task (old_ref plan) (xv_id v) ProgressCounts) removed; get calls);
    match results with
    | Err _ => mret ()
    | Ok results =>
        pairs ← of_outcome (zip_strict removed results);
        modify (set_retired (foldl (λ d (e : Vertex * answer),
          match counts_of e.2 with Some n => dict_set (xv_id e.1) n d | None => d end) [] pairs))
    end.

Definition is_none (a : answer) : bool := match a with ANone => true | _ => false end.

Definition stage_local_rescale_state plan (snapshots : list answer) : rm unit :=
  if negb (stateful (vs_operator (jv_spec (old_target plan)))) then mret ()
  else if negb (Z.of_nat (length snapshots) =? jv_concurrency (old_target plan)) || existsb is_none snapshots then throw RuntimeError
  else
    _ ← call_coordinator (StageOperatorRescaleState (operation_id plan) (target_id plan) (jv_concurrency (new_target plan)) snapshots);
    mret ().

(** *** Runtimes and routes *)

Definition retained_calls plan (r : request) : rm (list call) :=
  exec_map (λ v : Vertex, call_task (new_ref plan) (xv_id v) r) (retained (delta plan)).

Definition prepare_retained_target_runtimes plan : rm unit :=
  calls ← exec_map (λ v : Vertex,
    h ← handle_of (new_ref plan) (xv_id v);
    descriptor ← (if decide (h = None) then throw AttributeError
                  else of_outcome (t_descriptor T (new_graph plan) (xv_id v) (Some (operation_id plan))));
    submit h (Task (new_ref plan) (xv_id v), PrepareRuntimeRescale (operation_id plan) descriptor)) (retained (delta plan));
  get_all_true calls.

Definition commit_retained_target_runtimes plan : rm unit :=
  calls ← retained_calls plan (CommitRuntimeRescale (operation_id plan)); get_all_true calls.

(** The list of calls is made outside of the [try]. *)
Definition rollback_retained_target_runtimes plan : rm bool :=
  calls ← retained_calls plan (RollbackRuntimeRescale (operation_id plan));
  if bool_decide (length calls = 0%nat) then mret true
  else results ← attempt (get calls); mret (match results with Ok results => all_true results | Err _ => false end).

(** The live wrappers whose descriptor another graph changes, with that descriptor. *)
Definition changed_in (descriptor_graph live_graph : Graph) (j : Z) (v x : Vertex) : outcome (list (J * vid * D)) :=
  descriptor ← t_descriptor T descriptor_graph (xv_id v) None;
  current ← t_descriptor T live_graph (xv_id x) None;
  Ok (if decide (descriptor = current) then [] else [(identity_of live_graph j, xv_id x, descriptor)]).

Definition changed_subtask (descriptor_graph live_graph : Graph) (e : Z * JobVertex) (x : Z * Vertex) : outcome (list (J * vid * D)) :=
  v ← jv_execution_vertex e.2 x.1; changed_in descriptor_graph live_graph e.1 v x.2.

Definition changed_job_vertex (descriptor_graph live_graph : Graph) (target : Z) (e : Z * JobVertex) : outcome (list (J * vid * D)) :=
  if e.1 =? target then Ok []
  else live ← job_vertex live_graph e.1; flatten <$> mapM_outcome (changed_subtask descriptor_graph live_graph e) (jv_vertices live).

Definition changed_live_task_handles (descriptor_graph live_graph : Graph) (target : Z) : outcome (list (J * vid * D)) :=
  flatten <$> mapM_outcome (changed_job_vertex descriptor_graph live_graph target) (xg_job_vertices descriptor_graph).

(** A live task and the handle its wrapper had. *)
Abbreviation live_handle := (peer * option H)%type.

Definition prepare_live_task_topologies plan : rm (list live_handle) :=
  handles ← of_outcome (changed_live_task_handles (new_graph plan) (old_graph plan) (target_id plan));
  calls ← exec_map (λ x : J * vid * D, call_task x.1.1 x.1.2 (PrepareTopologyReconfiguration (operation_id plan) x.2)) handles;
  _ ← get_all_true calls;
  exec_map (λ x : J * vid * D, h ← handle_of x.1.1 x.1.2; mret (Task x.1.1 x.1.2, h)) handles.

Definition live_calls (handles : list live_handle) (r : request) : rm (list call) := exec_map (λ x : live_handle, submit x.2 (x.1, r)) handles.

Definition activate_live_task_topologies plan (handles : list live_handle) : rm unit :=
  calls ← live_calls handles (ActivateTopologyReconfiguration (operation_id plan)); get_all_true calls.

Definition commit_live_task_topologies plan (handles : list live_handle) : rm unit :=
  calls ← live_calls handles (CommitTopologyReconfiguration (operation_id plan)); get_all_true calls.

Definition rollback_live_task_topologies plan : rm bool :=
  vertices ← of_outcome (changed_live_task_handles (new_graph plan) (old_graph plan) (target_id plan));
  if bool_decide (length vertices = 0%nat) then mret true
  else
    results ← attempt (calls ← exec_map (λ x : J * vid * D, call_task x.1.1 x.1.2 (RollbackTopologyReconfiguration (operation_id plan))) vertices; get calls);
    mret (match results with Ok results => all_true results | Err _ => false end).

(** *** The gate, the checkpoint and the release *)

(** At most three attempts, and none once the deadline has expired. *)
Fixpoint finish_gate (attempts : nat) (operation : string) (committed : bool) (target : option Z) : rm unit :=
  match attempts with
  | O => throw RuntimeError
  | S attempts =>
      expired ← gets (λ m, t_expired T (m_world m));
      if expired : bool then throw RuntimeError
      else
        released ← attempt (call_coordinator (FinishOperatorRescale operation committed target));
        match released with Ok [ATrue] => mret () | _ => finish_gate attempts operation committed target end
  end.

Definition finish_local_rescale_gate (operation : string) (committed : bool) (target : option Z) : rm unit := finish_gate 3 operation committed target.

Definition request_rescale_stabilization_checkpoint (g : Graph) (target : Z) : rm unit :=
  sources ← of_outcome (rescale_stabilization_sources g target);
  unavailable ← gets (λ m, unavailable_sources g sources (m_world m));
  if negb (bool_decide (length unavailable = 0%nat)) then throw RuntimeError
  else
    calls ← exec_map (λ v : Vertex, call_task (identity_of g (job_vertex_id (xv_id v))) (xv_id v) RequestCheckpoint) sources;
    accepted ← try_except (get calls) (λ _, throw RuntimeError);
    if all_true accepted then mret () else throw RuntimeError.

(** The calls that resume the wrappers that have an actor. *)
Definition resume_vertices (j : J) (vertices : list Vertex) (operation : string) : rm (list call) :=
  parts ← exec_map (λ v : Vertex,
    h ← handle_of j (xv_id v);
    match h with None => mret [] | Some h => c ← submit (Some h) (Task j (xv_id v), ResumeRescale operation); mret [c] end) vertices;
  mret (flatten parts).

Definition rescale_participant_calls (g : Graph) (target : Z) (operation : string) (include_target : bool) : rm (list call) :=
  downstream ← of_outcome (downstream_job_vertices g target);
  inputs ← of_outcome (input_job_edges g target);
  parts ← exec_map (λ j, jv ← of_outcome (job_vertex g j); resume_vertices (identity_of g j) (subtasks jv) operation)
    (distinct (downstream ++ (je_source <$> inputs) ++ (if include_target then [target] else [])));
  mret (flatten parts).

Definition release_committed_rescale plan : rm unit :=
  calls ← resume_vertices (new_ref plan) (subtasks (new_target plan)) (operation_id plan);
  others ← rescale_participant_calls (old_graph plan) (target_id plan) (operation_id plan) false;
  get_all_true (calls ++ others).

Definition release_rescale_participants plan : rm unit :=
  calls ← rescale_participant_calls (old_graph plan) (target_id plan) (operation_id plan) true; get_all_true calls.

(** *** The transaction *)

Definition enter (phase : RescalePhase) : rm unit :=
  current ← gets m_phase; next ← of_outcome (enter_phase current phase); modify (set_phase next).

Definition attempted (phase : RescalePhase) : rm bool := gets (λ m, phase_attempted (m_phase m) phase).

(** [mark_rescale_epoch] changes the new graph of the plan. *)
Definition marked plan : RescalePlan :=
  match mark_rescale_epoch (target_id plan) (operation_id plan) (new_graph plan) with
  | Ok g => mkRescalePlan (operation_id plan) (target_id plan) (old_graph plan) g (old_target plan) (new_target plan) (delta plan)
  | Err _ => plan
  end.

Definition any_of (l : list Vertex) : bool := negb (bool_decide (length l = 0%nat)).

(** The actors of a scale-out. *)
Definition create_candidates plan (transition : transition_ref) : rm unit :=
  let added := added (delta plan) in
  if any_of added then
    x ← on_store (read_transition transition);
    candidate ← on_store (read_plan (candidate_plan x));
    _ ← on_world (t_instantiate T (new_graph plan) (new_ref plan) candidate (operation_id plan) added);
    _ ← on_world (t_deploy T (new_ref plan) added);
    on_world (t_wait_created T (new_ref plan) added)
  else mret ().

Definition retire_removed_actors plan (transition : transition_ref) : rm unit :=
  let removed := removed (delta plan) in
  stopped ← attempt (on_world (t_stop T (old_ref plan) false (Some (operation_id plan)) removed));
  _ ← match stopped with
      | Ok _ => mret ()
      | Err _ =>
          try_except (on_world (t_stop T (old_ref plan) true None removed)) (λ e,
            _ ← remember_pending_rescale_actors (old_ref plan) removed;
            _ ← remember_placement (inr transition);
            _ ← require_global_recovery;
            throw e)
      end;
  try_except (on_store (release_retired transition)) (λ e, _ ← remember_placement (inr transition); throw e).

(** From the commit point on. *)
Definition commit_and_release plan (live_handles : list live_handle) : rm unit :=
  _ ← commit_live_task_topologies plan live_handles;
  _ ← commit_retained_target_runtimes plan;
  _ ← finish_local_rescale_gate (operation_id plan) true (Some (target_id plan));
  _ ← request_rescale_stabilization_checkpoint (new_graph plan) (target_id plan);
  release_committed_rescale plan.

Definition after_commit plan (transition : transition_ref) (live_handles : list live_handle) : rm unit :=
  try_finally
    (try_except (_ ← commit_and_release plan live_handles; enter RELEASED) (λ e,
       _ ← require_global_recovery;
       _ ← attempt (finish_local_rescale_gate (operation_id plan) true (Some (target_id plan)));
       throw e))
    (if any_of (removed (delta plan)) then retire_removed_actors plan transition else mret ()).

Definition apply_local_rescale plan (transition : transition_ref) : rm unit :=
  _ ← of_outcome (mark_rescale_epoch (target_id plan) (operation_id plan) (new_graph plan));
  let plan := marked plan in
  _ ← change_world (λ w, foldl (λ w v, t_set_restore_id T (new_ref plan) (xv_id v) (operation_id plan) w) w (subtasks (new_target plan)));
  _ ← enter CANDIDATES;
  _ ← create_candidates plan transition;
  _ ← enter CHECKPOINT_GATE;
  gate_acquired ← call_coordinator (BeginOperatorRescale (operation_id plan));
  _ ← (match gate_acquired with [ATrue] => mret () | _ => throw RuntimeError end);
  recovery ← gets (λ m, c_recovery (m_control m));
  cleared ← on_world (λ w, let '(b, w) := t_clear_stable_rescale_metadata T (rm_graph recovery) w in (Ok b, w));
  _ ← (if cleared : bool then mret () else throw RuntimeError);
  _ ← enter PARTICIPANTS;
  participants ← prepare_local_rescale (old_graph plan) (target_id plan) (operation_id plan);
  snapshots ← await_local_rescale_cut plan participants;
  _ ← capture_retired_progress plan;
  _ ← stage_local_rescale_state plan snapshots;
  _ ← (if any_of (added (delta plan)) then on_world (t_start T (new_ref plan) (operation_id plan) (added (delta plan))) else mret ());
  _ ← enter RUNTIMES;
  _ ← prepare_retained_target_runtimes plan;
  _ ← enter ROUTES;
  live_handles ← prepare_live_task_topologies plan;
  _ ← activate_live_task_topologies plan live_handles;
  _ ← enter COORDINATOR;
  _ ← call_coordinator (ReconfigureExecutionGraph (new_graph plan));
  _ ← modify (set_graph (new_graph plan));
  _ ← replace_recovery_graph (new_graph plan);
  _ ← on_store (commit_transition transition);
  _ ← enter COMMITTED;
  after_commit plan transition live_handles.

(** *** Compensation *)

Definition restore_precommit_topologies plan : rm bool :=
  coordinator ← attempted COORDINATOR;
  restored ← (if coordinator : bool then r ← attempt (call_coordinator (ReconfigureExecutionGraph (old_graph plan))); mret (is_ok r) else mret true);
  routes ← attempted ROUTES;
  if routes : bool then
    r ← attempt (rollback_live_task_topologies plan);
    mret (match r with Ok b => b && restored | Err _ => false end)
  else mret restored.

Definition restore_precommit_runtime plan (transition : transition_ref) : rm bool :=
  runtimes ← attempted RUNTIMES;
  restored ← (if runtimes : bool then rollback_retained_target_runtimes plan else mret true);
  candidates ← attempted CANDIDATES;
  stopped ← (if candidates && any_of (added (delta plan)) then
               r ← attempt (on_world (t_stop T (new_ref plan) true None (added (delta plan))));
               match r with Ok _ => mret true | Err _ => _ ← remember_pending_rescale_actors (new_ref plan) (added (delta plan)); mret false end
             else mret true);
  released ← attempt (on_store (rollback_transition transition));
  _ ← (match released with Ok _ => mret () | Err _ => remember_placement (inr transition) end);
  _ ← modify (set_graph (old_graph plan));
  _ ← replace_recovery_graph (old_graph plan);
  _ ← attempt (discard_local_rescale_state (operation_id plan) (target_id plan));
  mret (restored && stopped && is_ok released).

(** The [finally] of [_rollback_local_rescale]; whether the rollback is safe in the end. *)
Definition finish_rollback plan (rollback_safe : bool) : rm bool :=
  participants ← attempted PARTICIPANTS;
  rollback_safe ← (if rollback_safe && participants then r ← attempt (release_rescale_participants plan); mret (is_ok r) else mret rollback_safe);
  gate ← attempted CHECKPOINT_GATE;
  rollback_safe ← (if rollback_safe && gate then r ← attempt (finish_local_rescale_gate (operation_id plan) false None); mret (is_ok r) else mret rollback_safe);
  _ ← (if rollback_safe : bool then mret ()
       else _ ← require_global_recovery; _ ← attempt (finish_local_rescale_gate (operation_id plan) true (Some (target_id plan))); mret ());
  mret rollback_safe.

Definition rollback_local_rescale plan (transition : transition_ref) : rm unit :=
  topologies ← restore_precommit_topologies plan;
  runtime ← attempt (restore_precommit_runtime plan transition);
  rollback_safe ← finish_rollback plan (match runtime with Ok restored => restored && topologies | Err _ => topologies end);
  _ ← of_outcome runtime;
  if rollback_safe : bool then mret () else throw RuntimeError.

(** [rescale_operator]; [generation] gives fresh task generations, [timeout] is what is left
    of the deadline for placement. *)
Definition rescale_operator (target : Z) (parallelism : pyarg) (operation : string) (generation : Z → string) (timeout : option Qc) : rm unit :=
  _ ← modify (set_retired []);
  _ ← in_control (cleanup_pending_rescale_actors P0);
  _ ← in_control (reconcile_pending_placement_cleanup P0);
  _ ← reconcile_pending_rescale_state_cleanup;
  current ← gets m_graph;
  plan ← of_outcome (build_plan current target parallelism operation generation);
  _ ← validate_local_rescale plan;
  _ ← modify (set_phase INITIAL);
  transition ← begin_rescale_placement plan timeout;
  try_except (apply_local_rescale plan transition) (λ e,
    committed ← attempted COMMITTED;
    if committed : bool then throw e
    else _ ← rollback_local_rescale (marked plan) transition; throw e).

Definition take_retired_rescale_counts : rm (list (vid * C)) :=
  counts ← gets m_retired; _ ← modify (set_retired []); mret counts.
End rescale.
