(* ===== verification/RescaleCalls.v ===== *)
(** * What the steps of a rescale send

    A calculus for the computations of [RescaleTransaction]: [does x X] says what [x] adds
    to the log of calls and answers, while the graph, the recovery manager and the phase
    stay; [only K x] that every call it sends satisfies [K]; [broadcast] that a batch of
    calls which returns was confirmed by everybody. *)
From Stdlib Require Import QArith.QArith QArith.Qcanon.
From S2P Require Import Prelude Dicts Effects KeyGroups Checkpoints Graphs Plans LogicalGraph PhysicalGraph Assignment Placement Failover RescaleTransaction.
Open Scope Z_scope.

Section calls.
Context {F P A H : Type} `{!Recipes F P A} {W G D V J C : Type} `{!EqDecision G, !EqDecision D, !EqDecision J}.
Abbreviation Master := (@master F P A H W G D V J C).
Abbreviation Graph := (ExecutionGraph F P A H).
Abbreviation Vertex := (ExecutionVertex F P H).
Abbreviation Event := (@event F P A H D V J).
Abbreviation Request := (@request F P A H D V).
Abbreviation Answer := (@answer V).
Abbreviation Call := ((@peer J) * Request)%type.
Abbreviation Plan := (@RescalePlan F P A H).
Abbreviation rmo := (exec Master).
Context (T : @task_platform F P A H W G D V J C).
Implicit Types (m : Master) (plan : Plan) (l ext : list Event) (K : Call → Prop).

(** ** What a computation sends *)

Definition recovery_of m := c_recovery (m_control m).

(** [x] keeps the graph, the recovery manager and the phase, and adds [ext] to the log
    with [X r ext] for its result [r]. *)
Definition does {B} (x : rmo B) (X : outcome B → list Event → Prop) : Prop :=
  ∀ m, let '(r, m') := x m in
    m_graph m' = m_graph m ∧ recovery_of m' = recovery_of m ∧ m_phase m' = m_phase m ∧
    ∃ ext, m_log m' = m_log m ++ ext ∧ X r ext.

Lemma does_weaken {B} (x : rmo B) (X Y : outcome B → list Event → Prop) : does x X → (∀ r ext, X r ext → Y r ext) → does x Y.
Proof. intros Hx HXY m. specialize (Hx m). destruct (x m) as [r m']. destruct Hx as (? & ? & ? & ext & ? & ?). naive_solver. Qed.

Lemma does_pure {B} (r : outcome B) (X : outcome B → list Event → Prop) : X r [] → does (of_outcome r) X.
Proof. intros HX m. cbn. split_and!; [done..|]. exists []. by rewrite app_nil_r. Qed.

Lemma does_gets {B} (f : Master → B) (X : outcome B → list Event → Prop) : (∀ m, X (Ok (f m)) []) → does (gets f) X.
Proof. intros HX m. cbn. split_and!; [done..|]. exists []. by rewrite app_nil_r. Qed.

Lemma does_ret {B} (b : B) (X : outcome B → list Event → Prop) : X (Ok b) [] → does (mret b) X.
Proof. apply (does_pure (Ok b)). Qed.

Lemma does_throw {B} e (X : outcome B → list Event → Prop) : X (Err e) [] → does (throw e) X.
Proof. apply (does_pure (Err e)). Qed.

Lemma does_bind {B E} (x : rmo B) (f : B → rmo E) (X : outcome B → list Event → Prop) (Z : outcome E → list Event → Prop) :
  does x X → (∀ e ext, X (Err e) ext → Z (Err e) ext) →
  (∀ b ext, X (Ok b) ext → does (f b) (λ r ext', Z r (ext ++ ext'))) → does (x ≫= f) Z.
Proof.
  intros Hx He Hf m. specialize (Hx m). unfold mbind, exec_bind. destruct (x m) as [[b|e] m1].
  - destruct Hx as (E1 & E2 & E3 & ext & El & HX). specialize (Hf b ext HX m1). destruct (f b m1) as [r m2].
    destruct Hf as (E4 & E5 & E6 & ext' & El' & HZ). rewrite E4, E5, E6, El', El. split_and!; [done..|]. exists (ext ++ ext').
    by rewrite app_assoc.
  - destruct Hx as (E1 & E2 & E3 & ext & El & HX). split_and!; [done..|]. exists ext. auto.
Qed.

Lemma does_attempt {B} (x : rmo B) (X : outcome B → list Event → Prop) :
  does x X → does (attempt x) (λ r ext, match r with Ok o => X o ext | Err _ => False end).
Proof. intros Hx m. specialize (Hx m). unfold attempt. by destruct (x m). Qed.

Lemma does_try {B} (x : rmo B) h (X Z : outcome B → list Event → Prop) :
  does x X → (∀ b ext, X (Ok b) ext → Z (Ok b) ext) → (∀ e ext, X (Err e) ext → does (h e) (λ r ext', Z r (ext ++ ext'))) →
  does (try_except x h) Z.
Proof.
  intros Hx Hb Hh m. specialize (Hx m). unfold try_except. destruct (x m) as [[b|e] m1].
  - destruct Hx as (? & ? & ? & ext & ? & ?). split_and!; [done..|]. exists ext. auto.
  - destruct Hx as (E1 & E2 & E3 & ext & El & HX). specialize (Hh e ext HX m1). destruct (h e m1) as [r m2].
    destruct Hh as (E4 & E5 & E6 & ext' & El' & HZ). rewrite E4, E5, E6, El', El. split_and!; [done..|]. exists (ext ++ ext').
    by rewrite app_assoc.
Qed.

(** *** Steps that send a kind of call only *)

Definition allowed K (e : Event) : Prop := match e with Sent c => K c | Answered _ _ => True end.
Definition only K {B} (x : rmo B) : Prop := does x (λ _ ext, Forall (allowed K) ext).

Lemma only_weaken K K' {B} (x : rmo B) : only K x → (∀ c, K c → K' c) → only K' x.
Proof. intros Hx HK. eapply does_weaken; [exact Hx|]. intros r ext Hext. eapply Forall_impl; [exact Hext|]. intros []; cbn; auto. Qed.

Lemma allowed_none K ext : Forall (allowed (λ _, False)) ext → Forall (allowed K) ext.
Proof. intros Hext. eapply Forall_impl; [exact Hext|]. by intros []. Qed.

Lemma only_bind K {B E} (x : rmo B) (f : B → rmo E) : only K x → (∀ b, only K (f b)) → only K (x ≫= f).
Proof.
  intros Hx Hf. eapply does_bind; [exact Hx|done|]. intros b ext Hext. eapply does_weaken; [apply Hf|].
  intros r ext' Hext'. by apply Forall_app.
Qed.

Lemma only_ret K {B} (b : B) : only K (mret b).
Proof. by apply does_ret. Qed.
Lemma only_throw K {B} e : only K (throw (A := B) e).
Proof. by apply does_throw. Qed.
Lemma only_of_outcome K {B} (o : outcome B) : only K (of_outcome o).
Proof. by apply does_pure. Qed.
Lemma only_gets K {B} (f : Master → B) : only K (gets f).
Proof. by apply does_gets. Qed.

Lemma only_attempt K {B} (x : rmo B) : only K x → only K (attempt x).
Proof. intros Hx. eapply does_weaken; [by apply does_attempt|]. by intros []. Qed.

Lemma only_try K {B} (x : rmo B) h : only K x → (∀ e, only K (h e)) → only K (try_except x h).
Proof.
  intros Hx Hh. eapply does_try; [exact Hx|done|]. intros e ext Hext. eapply does_weaken; [apply Hh|].
  intros r ext' Hext'. by apply Forall_app.
Qed.

Lemma only_map K {B E} (f : B → rmo E) bs : (∀ b, b ∈ bs → only K (f b)) → only K (exec_map f bs).
Proof.
  induction bs as [|b bs IH]; intros Hf; cbn [exec_map]; [apply only_ret|].
  apply only_bind; [apply Hf; by left|]. intros x. apply only_bind; [|intros; apply only_ret]. apply IH. intros c ?. apply Hf. by right.
Qed.

(** A change of the state that the decision does not depend on. *)
Lemma only_modify K (f : Master → Master) :
  (∀ m, m_graph (f m) = m_graph m ∧ recovery_of (f m) = recovery_of m ∧ m_phase (f m) = m_phase m ∧ m_log (f m) = m_log m) →
  only K (modify f).
Proof. intros Hf m. cbn. destruct (Hf m) as (? & ? & ? & El). split_and!; [done..|]. exists []. by rewrite El, app_nil_r. Qed.

Lemma only_in_control K {B} (f : exec (control (store W G) H plan_ref (plan_ref + transition_ref) J Vertex RecoveryManager) B) :
  keeps (λ c c', c_recovery c' = c_recovery c) f → only K (in_control f).
Proof.
  intros Hf m. unfold in_control. specialize (Hf (m_control m)). destruct (f (m_control m)) as [r c]. cbn in *.
  split_and!; [done..|]. exists []. by rewrite app_nil_r.
Qed.

Lemma only_on_store K {B} (f : exec (store W G) B) : only K (on_store f).
Proof. apply only_in_control. intros c. unfold Failover.outside. by destruct (f (c_world c)). Qed.

Lemma only_on_world K {B} (f : W → outcome B * W) : only K (on_world f).
Proof. apply only_on_store. Qed.

Lemma only_note K (e : Event) : allowed K e → only K (note e).
Proof. intros He m. cbn. split_and!; [done..|]. exists [e]. split; [done|]. by apply Forall_singleton. Qed.

Lemma only_submit K h c : K c → only K (submit T h c).
Proof.
  intros Hc. unfold submit. destruct h; [|apply only_throw]. apply only_bind; [apply only_on_world|]. intros _.
  apply only_bind; [by apply only_note|]. intros _. apply only_ret.
Qed.

Lemma only_get K calls : only K (get T calls).
Proof.
  unfold get. apply only_bind; [apply only_attempt, only_on_world|]. intros r. apply only_bind; [by apply only_note|]. intros _. apply only_of_outcome.
Qed.

Lemma only_get_all_true K calls : only K (get_all_true T calls).
Proof.
  unfold get_all_true. case_bool_decide; [apply only_ret|]. apply only_bind; [apply only_get|]. intros rs.
  destruct (all_true rs); [apply only_ret|apply only_throw].
Qed.

Lemma only_handle_of K j v : only K (handle_of T j v).
Proof. apply only_gets. Qed.

Lemma only_call_task K j v r : K (Task j v, r) → only K (call_task T j v r).
Proof. intros Hc. unfold call_task. apply only_bind; [apply only_handle_of|]. intros h. by apply only_submit. Qed.

Lemma only_call_coordinator K r : K (CheckpointCoordinator, r) → only K (call_coordinator T r).
Proof.
  intros Hc. unfold call_coordinator. apply only_bind; [apply only_gets|]. intros h. apply only_bind; [by apply only_submit|]. intros c. apply only_get.
Qed.

(** *** Broadcasts *)

(** [c] was sent, in a batch that everybody answered with [True]. *)
Definition unanimous ext (c : Call) : Prop := ∃ calls rs, c ∈ calls ∧ Answered calls (Ok rs) ∈ ext ∧ all_true rs = true.
Definition agreed ext (c : Call) : Prop := Sent c ∈ ext ∧ unanimous ext c.

Lemma agreed_app_l ext ext' c : agreed ext c → agreed (ext ++ ext') c.
Proof. intros [? (calls & rs & ? & ? & ?)]. split; [set_solver|]. exists calls, rs. set_solver. Qed.

Lemma agreed_app_r ext ext' c : agreed ext' c → agreed (ext ++ ext') c.
Proof. intros [? (calls & rs & ? & ? & ?)]. split; [set_solver|]. exists calls, rs. set_solver. Qed.

(** [f] sends one call, which satisfies [S], or raises. *)
Definition submits (S : Call → Prop) (f : rmo Call) : Prop :=
  does f (λ r ext, match r with Ok c => ext = [Sent c] ∧ S c | Err _ => ext = [] end).

Lemma submits_submit (S : Call → Prop) h c : S c → submits S (submit T h c).
Proof.
  intros Hc m. unfold submit. destruct h as [h|].
  - unfold mbind, exec_bind, on_world, on_store, in_control, Failover.outside, Placement.outside.
    destruct (t_submit T h c.2 _) as [[[]|e] w]; cbn; (split_and!; [done..|]).
    + exists [Sent c]. done.
    + exists []. by rewrite app_nil_r.
  - cbn. split_and!; [done..|]. exists []. by rewrite app_nil_r.
Qed.

Lemma submits_call_task (S : Call → Prop) j v r : S (Task j v, r) → submits S (call_task T j v r).
Proof.
  intros Hc. unfold call_task, submits. eapply does_bind; [by apply (does_gets _ (λ r ext, ext = [] ∧ is_ok r = true))|by intros e ext [_ ?]|].
  intros h ext [-> _]. by apply submits_submit.
Qed.

Lemma submits_bind {B} (S : Call → Prop) (o : outcome B) (f : B → rmo Call) : (∀ b, submits S (f b)) → submits S (of_outcome o ≫= f).
Proof.
  intros Hf. eapply does_bind; [by apply (does_pure o (λ r ext, ext = []))|by intros e ext ->|]. intros b ext ->. apply Hf.
Qed.

Lemma does_map {B} (S : B → Call → Prop) (f : B → rmo Call) bs :
  (∀ b, b ∈ bs → submits (S b) (f b)) →
  does (exec_map f bs) (λ r ext, Forall (allowed (λ c, ∃ b, b ∈ bs ∧ S b c)) ext ∧
    match r with Ok cs => ext = Sent <$> cs ∧ Forall2 S bs cs | Err _ => True end).
Proof.
  induction bs as [|b bs IH]; intros Hf; cbn [exec_map].
  { apply does_ret. split; [done|]. split; [done|]. constructor. }
  eapply does_bind; [apply Hf; by left|by intros e ext ->|]. intros c ext [-> Hc].
  eapply does_bind; [apply IH; intros x ?; apply Hf; by right| |].
  - intros e ext [Hext _]. split; [|done]. apply Forall_cons. split; [exists b; split; [by left|done]|].
    eapply Forall_impl; [exact Hext|]. intros []; cbn; [|done]. intros (x & ? & ?). exists x. split; [by right|done].
  - intros cs ext [Hext [-> Hcs]]. apply does_ret. rewrite app_nil_r. split; [|split; [done|by constructor]]. apply Forall_cons. split; [exists b; split; [by left|done]|].
    eapply Forall_impl; [exact Hext|]. intros []; cbn; [|done]. intros (x & ? & ?). exists x. split; [by right|done].
Qed.

Lemma does_get calls : does (get T calls) (λ r ext, ext = [Answered calls r]).
Proof.
  intros m. unfold get, attempt, mbind, exec_bind, on_world, on_store, in_control, Failover.outside, Placement.outside.
  destruct (t_get T calls _) as [r w]. cbn. split_and!; [by destruct r..|]. exists [Answered calls r]. by destruct r.
Qed.

Lemma does_get_all_true calls :
  does (get_all_true T calls) (λ r ext, Forall (allowed (λ _, False)) ext ∧
    (r = Ok () → ∀ c, c ∈ calls → unanimous ext c)).
Proof.
  unfold get_all_true. case_bool_decide as E.
  { apply does_ret. split; [done|]. destruct calls; [|done]. by intros _ c ?%not_elem_of_nil. }
  eapply does_bind; [apply does_get|by intros e ext ->; split; [by apply Forall_singleton|]|]. intros rs ext ->.
  destruct (all_true rs) eqn:Ers; [apply does_ret|apply does_throw]; (split; [by apply Forall_singleton|]); [|done].
  intros _ c Hc. exists calls, rs. split_and!; [done| |done]. by left.
Qed.

(** A batch to [bs], of which [S] says what each is sent. *)
Definition broadcast {B} (S : B → Call → Prop) (bs : list B) (r : outcome ()) ext : Prop :=
  Forall (allowed (λ c, ∃ b, b ∈ bs ∧ S b c)) ext ∧ (r = Ok () → ∀ b, b ∈ bs → ∃ c, S b c ∧ agreed ext c).

Lemma does_broadcast {B} (S : B → Call → Prop) (f : B → rmo Call) bs :
  (∀ b, b ∈ bs → submits (S b) (f b)) → does (calls ← exec_map f bs; get_all_true T calls) (broadcast S bs).
Proof.
  intros Hf. eapply does_bind; [by apply does_map| |].
  - intros e ext [Hext _]. by split.
  - intros cs ext [Hext [-> Hcs]]. eapply does_weaken; [apply does_get_all_true|]. intros r ext [Hn Hr]. split.
    + apply Forall_app. split; [done|]. eapply Forall_impl; [exact Hn|]. by intros [].
    + intros Er b (i & Hi)%list_elem_of_lookup. destruct (Forall2_lookup_l _ _ _ _ _ Hcs Hi) as (c & Hc & HS). exists c. split; [done|].
      assert (c ∈ cs) by (by eapply list_elem_of_lookup_2). split; [|destruct (Hr Er c) as (calls & rs & ? & ? & ?); [done|]; exists calls, rs; set_solver].
      apply elem_of_app. left. by apply list_elem_of_fmap_2.
Qed.

Lemma does_coordinator r :
  does (call_coordinator T r) (λ o ext, Forall (allowed (λ c, c = (CheckpointCoordinator, r))) ext ∧
    match o with Ok rs => Answered [(CheckpointCoordinator, r)] (Ok rs) ∈ ext | Err _ => True end).
Proof.
  unfold call_coordinator. eapply does_bind; [by apply (does_gets _ (λ r ext, ext = [] ∧ is_ok r = true))|by intros e ext [_ ?]|].
  intros h ext [-> _]. eapply does_bind; [by apply (submits_submit (λ c, c = (CheckpointCoordinator, r)))|by intros e ext ->|].
  intros c ext [-> ->]. eapply does_weaken; [apply does_get|]. intros o ext ->. split; [by repeat constructor|].
  destruct o; [set_solver|done].
Qed.
End calls.
