(* ===== verification/RescaleSafety.v ===== *)
(** * No task resumes before the decision is known everywhere

    The safety of the transaction of [RescaleTransaction].  [forward] says that everybody
    has confirmed the commit, [backward] that everybody who may have prepared has confirmed
    the rollback, [guarded X] that [X] holds before every call that resumes a task.  Up to
    the commit point a triple per step bounds what may have been sent ([before]); then
    [after_commit_spec] and [rollback_spec] give the two ways out, and
    [rescale_operator_decides] the whole operation. *)
From Stdlib Require Import QArith.QArith QArith.Qcanon.
From S2P Require Import Prelude Dicts Effects KeyGroups Checkpoints Graphs Plans LogicalGraph PhysicalGraph Assignment Placement Reservations Failover RescaleTransaction RescaleCalls.
Open Scope Z_scope.

Section safety.
Context {F P A H : Type} `{!Recipes F P A} {W G D V J C : Type} `{!EqDecision G, !EqDecision D, !EqDecision J}.
Abbreviation Master := (@master F P A H W G D V J C).
Abbreviation Graph := (ExecutionGraph F P A H).
Abbreviation Vertex := (ExecutionVertex F P H).
Abbreviation Event := (@event F P A H D V J).
Abbreviation Request := (@request F P A H D V).
Abbreviation Answer := (@answer V).
Abbreviation Call := ((@peer J) * Request)%type.
Abbreviation Plan := (@RescalePlan F P A H).
Abbreviation rmo := (exec Master).
Context (T : @task_platform F P A H W G D V J C) (rules : @rescale_rules F).
Context (P0 : platform (store W G) H string plan_ref (plan_ref + transition_ref) J Vertex (@RecoveryManager F P A H)) (R : ray W G).
Implicit Types (m : Master) (plan : Plan) (l ext : list Event) (K : Call → Prop).

(** *** The steps of the decision *)

Definition is_resume (r : Request) : bool := match r with ResumeRescale _ => true | _ => false end.
Definition prepares_runtime (r : Request) : bool := match r with PrepareRuntimeRescale _ _ => true | _ => false end.
Definition prepares_routes (r : Request) : bool :=
  match r with PrepareTopologyReconfiguration _ _ | ActivateTopologyReconfiguration _ => true | _ => false end.
Definition commits (r : Request) : bool := match r with CommitRuntimeRescale _ | CommitTopologyReconfiguration _ => true | _ => false end.
Definition rolls_back (r : Request) : bool := match r with RollbackRuntimeRescale _ | RollbackTopologyReconfiguration _ => true | _ => false end.
Definition reconfigures (r : Request) : bool := match r with ReconfigureExecutionGraph _ => true | _ => false end.

(** The tasks whose runtime is exchanged, and those whose routes change. *)
Definition runtime_peers plan : list (@peer J) := (λ v, Task (new_ref T plan) (xv_id v)) <$> retained (delta plan).
Definition route_peers plan : list (@peer J) :=
  match changed_live_task_handles T (new_graph plan) (old_graph plan) (target_id plan) with
  | Ok handles => (λ x : J * vid * D, Task x.1.1 x.1.2) <$> handles
  | Err _ => []
  end.

(** The answer to a broadcast of one request to given tasks. *)
Definition told (peers : list (@peer J)) (q : Request) (r : outcome ()) ext : Prop :=
  Forall (allowed (λ c, c.1 ∈ peers ∧ c.2 = q)) ext ∧ (r = Ok () → ∀ p, p ∈ peers → agreed ext (p, q)).

Lemma told_of {B} (to : B → @peer J) (q : Request) bs r ext :
  broadcast (λ b c, c = (to b, q)) bs r ext → told (to <$> bs) q r ext.
Proof.
  intros [H1 H2]. split.
  - eapply Forall_impl; [exact H1|]. intros [c|]; cbn; [|done]. intros (b & Hb & ->). split; [by apply (list_elem_of_fmap_2 to)|done].
  - intros Hr p (b & -> & Hb)%list_elem_of_fmap. by destruct (H2 Hr b Hb) as (c & -> & ?).
Qed.

Lemma does_commit_routes plan handles :
  does (commit_live_task_topologies T plan handles) (told handles.*1 (CommitTopologyReconfiguration (operation_id plan))).
Proof.
  eapply does_weaken; [|intros r ext; apply (told_of fst)].
  unfold commit_live_task_topologies, live_calls. apply does_broadcast. intros x _. by apply submits_submit.
Qed.

Lemma does_activate_routes plan handles :
  does (activate_live_task_topologies T plan handles) (told handles.*1 (ActivateTopologyReconfiguration (operation_id plan))).
Proof.
  eapply does_weaken; [|intros r ext; apply (told_of fst)].
  unfold activate_live_task_topologies, live_calls. apply does_broadcast. intros x _. by apply submits_submit.
Qed.

Lemma does_commit_runtimes plan :
  does (commit_retained_target_runtimes T plan) (told (runtime_peers plan) (CommitRuntimeRescale (operation_id plan))).
Proof.
  eapply does_weaken; [|intros r ext; apply told_of].
  unfold commit_retained_target_runtimes, retained_calls. apply does_broadcast. intros v _. by apply submits_call_task.
Qed.

Lemma only_prepare_runtimes plan :
  only (λ c, prepares_runtime c.2 = true ∧ c.1 ∈ runtime_peers plan) (prepare_retained_target_runtimes T plan).
Proof.
  unfold prepare_retained_target_runtimes. apply only_bind; [|intros; apply only_get_all_true].
  apply only_map. intros v Hv. apply only_bind; [apply only_handle_of|]. intros h. apply only_bind; [case_decide; [apply only_throw|apply only_of_outcome]|]. intros d.
  apply only_submit. split; [done|]. cbn. unfold runtime_peers. by apply (list_elem_of_fmap_2 (λ v, Task (new_ref T plan) (xv_id v))).
Qed.

Lemma does_read_handles (handles : list (J * vid * D)) :
  does (exec_map (λ x : J * vid * D, h ← handle_of T x.1.1 x.1.2; mret (Task x.1.1 x.1.2, h)) handles)
    (λ r ext, ext = [] ∧ match r with Ok l => l.*1 = (λ x : J * vid * D, Task x.1.1 x.1.2) <$> handles | Err _ => True end).
Proof.
  induction handles as [|x handles IH]; cbn [exec_map]; [by apply does_ret|].
  eapply (does_bind _ _ (λ r ext, ext = [] ∧ match r with Ok b => b.1 = Task x.1.1 x.1.2 | Err _ => True end)).
  { eapply does_bind; [by apply (does_gets _ (λ r ext, ext = [] ∧ is_ok r = true))|by intros e ext [_ ?]|].
    intros h ext [-> _]. by apply does_ret. }
  { by intros e ext [-> _]. }
  intros b ext [-> Eb]. eapply does_bind; [exact IH|by intros e ext [-> _]|]. intros l ext [-> El]. apply does_ret. split; [done|].
  cbn. by rewrite Eb, El.
Qed.

Lemma does_prepare_routes plan :
  does (prepare_live_task_topologies T plan) (λ r ext,
    Forall (allowed (λ c, prepares_routes c.2 = true ∧ c.1 ∈ route_peers plan)) ext ∧
    match r with Ok handles => handles.*1 = route_peers plan | Err _ => True end).
Proof.
  unfold prepare_live_task_topologies, route_peers. destruct (changed_live_task_handles T _ _ _) as [handles|e]; cbn [of_outcome].
  2: { eapply does_bind; [by apply (does_pure (Err e) (λ r ext, ext = [] ∧ is_ok r = false))|by intros ? ? [-> _]|by intros ? ? [_ ?]]. }
  eapply does_bind; [by apply (does_pure (Ok handles) (λ r ext, ext = [] ∧ r = Ok handles))|by intros ? ? [_ ?]|]. intros hs ext [-> [= ->]].
  eapply does_bind.
  { apply (only_map (λ c, prepares_routes c.2 = true ∧ c.1 ∈ (λ x : J * vid * D, Task x.1.1 x.1.2) <$> handles)).
    intros x Hx. apply only_call_task. split; [done|]. cbn. by apply (list_elem_of_fmap_2 (λ x : J * vid * D, Task x.1.1 x.1.2)). }
  { by intros e ext Hext. }
  intros cs ext Hext. eapply does_bind; [apply (only_get_all_true T (λ _, False))| |].
  { intros e ext' Hext'. split; [|done]. cbn [app]. rewrite Forall_app. split; [done|by apply allowed_none]. }
  intros [] ext' Hext'. eapply does_weaken.
  { apply does_read_handles. }
  intros r ext'' [-> Hr]. split; [|done]. cbn [app]. rewrite app_nil_r, Forall_app. split; [done|by apply allowed_none].
Qed.

Definition gate_answered (operation : string) (committed : bool) (target : option Z) ext : Prop :=
  Answered [(CheckpointCoordinator, FinishOperatorRescale operation committed target)] (Ok [ATrue]) ∈ ext.

Lemma does_finish_gate operation committed target :
  does (finish_local_rescale_gate T operation committed target) (λ r ext,
    Forall (allowed (λ c, c = (CheckpointCoordinator, FinishOperatorRescale operation committed target))) ext ∧
    (r = Ok () → gate_answered operation committed target ext)).
Proof.
  unfold finish_local_rescale_gate. generalize 3%nat. intros attempts.
  induction attempts as [|attempts IH]; cbn [finish_gate]; [by apply does_throw|].
  eapply does_bind; [by apply (does_gets _ (λ r ext, ext = [] ∧ is_ok r = true))|by intros e ext [_ ?]|]. intros [] ext [-> _]; [by apply does_throw|].
  eapply does_bind; [apply does_attempt, does_coordinator|by intros ? ? []|]. intros o ext [Hext Hans].
  assert (Hret : does (finish_gate T attempts operation committed target) (λ r ext',
    Forall (allowed (λ c, c = (CheckpointCoordinator, FinishOperatorRescale operation committed target))) ([] ++ ext ++ ext') ∧
    (r = Ok () → gate_answered operation committed target ([] ++ ext ++ ext')))).
  { eapply does_weaken; [exact IH|]. intros r ext' [H1 H2]. cbn [app]. split; [by apply Forall_app_2|].
    intros Hr. unfold gate_answered. apply elem_of_app. right. by apply H2. }
  destruct o as [[|[] []]|e]; try exact Hret. apply does_ret. cbn [app]. rewrite app_nil_r. by split.
Qed.

(** The sources of the component of the target, asked for a checkpoint. *)
Definition source_calls (g : Graph) (sources : list Vertex) : list Call :=
  (λ v, (Task (identity_of T g (job_vertex_id (xv_id v))) (xv_id v), RequestCheckpoint)) <$> sources.

Definition armed plan ext : Prop :=
  ∃ sources, rescale_stabilization_sources T (new_graph plan) (target_id plan) = Ok sources ∧
    ∀ c, c ∈ source_calls (new_graph plan) sources → agreed ext c.

Lemma does_request_checkpoint plan :
  does (request_rescale_stabilization_checkpoint T (new_graph plan) (target_id plan)) (λ r ext,
    Forall (allowed (λ c, c.2 = RequestCheckpoint)) ext ∧ (r = Ok () → armed plan ext)).
Proof.
  unfold request_rescale_stabilization_checkpoint, armed. destruct (rescale_stabilization_sources _ _ _) as [sources|e]; cbn [of_outcome].
  2: { eapply does_bind; [by apply (does_pure (Err e) (λ r ext, ext = [] ∧ is_ok r = false))|by intros ? ? [-> _]|by intros ? ? [_ ?]]. }
  eapply does_bind; [by apply (does_pure (Ok sources) (λ r ext, ext = [] ∧ r = Ok sources))|by intros ? ? [_ ?]|]. intros hs ext [-> [= ->]].
  eapply does_bind; [by apply (does_gets _ (λ r ext, ext = [] ∧ is_ok r = true))|by intros e ext [_ ?]|]. intros us ext [-> _].
  destruct (negb _); [by apply does_throw|].
  eapply does_bind.
  { apply (does_map (λ v c, c = (Task (identity_of T (new_graph plan) (job_vertex_id (xv_id v))) (xv_id v), RequestCheckpoint))).
    intros v _. by apply submits_call_task. }
  { intros e ext [Hext _]. split; [|done]. cbn [app]. eapply Forall_impl; [exact Hext|]. intros []; cbn; [|done]. by intros (v & _ & ->). }
  intros cs ext [Hext [-> Hcs]].
  assert (Hsent : Forall (allowed (λ c, c.2 = RequestCheckpoint)) (Sent <$> cs)).
  { eapply Forall_impl; [exact Hext|]. intros []; cbn; [|done]. by intros (v & _ & ->). }
  eapply does_bind.
  { eapply (does_try _ _ _ (λ r ext, Forall (allowed (λ _, False)) ext ∧ match r with Ok rs => ext = [Answered cs (Ok rs)] | Err _ => True end)); [apply does_get|..].
    - intros rs ext ->. split; [by repeat constructor|done].
    - intros e ext ->. apply does_throw. split; [by repeat constructor|done]. }
  { intros e ext [Hn _]. split; [|done]. cbn [app]. rewrite Forall_app. split; [done|by apply allowed_none]. }
  intros rs ext [_ ->]. destruct (all_true rs) eqn:Ers; [apply does_ret|apply does_throw]; cbn [app]; rewrite ?app_nil_r.
  2: { split; [|done]. rewrite Forall_app. split; [done|by repeat constructor]. }
  split; [rewrite Forall_app; split; [done|by repeat constructor]|]. intros _. exists sources. split; [done|].
  intros c Hc. assert (Hin : c ∈ cs).
  { unfold source_calls in Hc. apply list_elem_of_fmap in Hc as (v & -> & (i & Hi)%list_elem_of_lookup).
    destruct (Forall2_lookup_l _ _ _ _ _ Hcs Hi) as (c & Hc & ->). by eapply list_elem_of_lookup_2. }
  split; [apply elem_of_app; left; by apply list_elem_of_fmap_2|]. exists cs, rs. split_and!; [done|set_solver|done].
Qed.

(** *** Releases *)

(** The wrapper of a subtask keeps its actor. *)
Definition held (j : J) (v : Vertex) : Prop := ∀ w, is_Some (t_task T j (xv_id v) w).

(** Who is told to resume: some subtasks, and those of the neighbours of an operator. *)
Definition resumes (operation : string) (j : J) (vertices : list Vertex) (c : Call) : Prop :=
  ∃ v, v ∈ vertices ∧ held j v ∧ c = (Task j (xv_id v), ResumeRescale operation).

Definition neighbour (g : Graph) (target j : Z) : Prop :=
  j ∈ je_target <$> out_edges_by_job_vertex g target ∨ j ∈ je_source <$> in_edges_by_job_vertex g target.

Definition resumes_participants (g : Graph) (target : Z) (operation : string) (include : bool) (c : Call) : Prop :=
  ∃ j jv, (neighbour g target j ∨ include = true ∧ j = target) ∧ job_vertex g j = Ok jv ∧
    resumes operation (identity_of T g j) (subtasks jv) c.

(** [f] returns all the calls it has sent, those of [E] among them. *)
Definition collects (E : Call → Prop) (f : rmo (list Call)) : Prop :=
  does f (λ r ext, Forall (allowed (λ c, is_resume c.2 = true)) ext ∧
    ∀ cs, r = Ok cs → (∀ c, Sent c ∈ ext → c ∈ cs) ∧ (∀ c, E c → Sent c ∈ ext)).

Lemma collects_flatten {B} (E : B → Call → Prop) (f : B → rmo (list Call)) bs :
  (∀ b, b ∈ bs → collects (E b) (f b)) → collects (λ c, ∃ b, b ∈ bs ∧ E b c) (parts ← exec_map f bs; mret (flatten parts)).
Proof.
  intros Hf. eapply does_bind.
  { instantiate (1 := λ r ext, Forall (allowed (λ c, is_resume c.2 = true)) ext ∧
      ∀ css, r = Ok css → (∀ c, Sent c ∈ ext → c ∈ flatten css) ∧ (∀ b c, b ∈ bs → E b c → Sent c ∈ ext)).
    induction bs as [|b bs IH]; cbn [exec_map].
    - apply does_ret. split; [done|]. intros css _. split; [by intros c ?%not_elem_of_nil|by intros b c ?%not_elem_of_nil].
    - eapply does_bind; [apply Hf; by left|by intros e ext [? _]|]. intros cs ext [H1 H2].
      eapply does_bind; [apply IH; intros; apply Hf; by right| |].
      + intros e ext' [H3 _]. split; [by apply Forall_app_2|done].
      + intros css ext' [H3 H4]. apply does_ret. rewrite app_nil_r. split; [by apply Forall_app_2|]. intros _ [= <-].
        destruct (H2 cs eq_refl) as [H5 H6], (H4 css eq_refl) as [H7 H8]. unfold flatten. cbn. split.
        * intros c. rewrite !elem_of_app. intros [?|?]; [left; by apply H5|right; by apply H7].
        * intros x c [->|Hx]%elem_of_cons Hc; apply elem_of_app; [left; by apply H6|right; by eapply H8]. }
  - by intros e ext [? _].
  - intros css ext [H1 H2]. apply does_ret. rewrite app_nil_r. split; [done|]. intros cs [= <-]. destruct (H2 css eq_refl) as [H3 H4].
    split; [done|]. intros c (b & Hb & Hc). by eapply H4.
Qed.

Lemma collects_outcome {B} (E : Call → Prop) (o : outcome B) (f : B → rmo (list Call)) :
  (∀ b, o = Ok b → collects E (f b)) → collects E (of_outcome o ≫= f).
Proof.
  intros Hf. eapply does_bind; [by apply (does_pure o (λ r ext, ext = [] ∧ r = o))| |].
  - by intros e ext [-> _].
  - intros b ext [-> Eb]. by apply Hf.
Qed.

Lemma collects_weaken (E E' : Call → Prop) f : collects E f → (∀ c, E' c → E c) → collects E' f.
Proof. intros Hf HE. eapply does_weaken; [exact Hf|]. intros r ext [H1 H2]. split; [done|]. intros cs Hr. destruct (H2 cs Hr). auto. Qed.

Lemma collects_resume j vertices operation : collects (resumes operation j vertices) (resume_vertices T j vertices operation).
Proof.
  apply (collects_flatten (λ (v : Vertex) c, held j v ∧ c = (Task j (xv_id v), ResumeRescale operation))).
  intros v _ m. unfold handle_of. rewrite exec_bind_gets.
  destruct (t_task T j (xv_id v) (m_world m)) as [h|] eqn:Eh.
  2: { cbn. split_and!; [done..|]. exists []. rewrite app_nil_r. split; [done|]. split; [done|]. intros cs [= <-].
       split; [by intros c ?%not_elem_of_nil|]. intros c [Hheld _]. destruct (Hheld (m_world m)) as [h Eh']. congruence. }
  revert m Eh. enough (does (c ← submit T (Some h) (Task j (xv_id v), ResumeRescale operation); mret [c]) (λ r ext,
    Forall (allowed (λ c, is_resume c.2 = true)) ext ∧ ∀ cs, r = Ok cs → (∀ c, Sent c ∈ ext → c ∈ cs) ∧
      (∀ c, held j v ∧ c = (Task j (xv_id v), ResumeRescale operation) → Sent c ∈ ext))) as Hd by (intros m _; exact (Hd m)).
  eapply does_bind; [by apply (submits_submit T (λ c, c = (Task j (xv_id v), ResumeRescale operation)))| |].
  - intros e ext ->. split; [done|]. by intros.
  - intros c ext [-> ->]. apply does_ret. split; [by repeat constructor|]. intros cs [= <-]. split.
    + intros d [[= ->]|?%not_elem_of_nil]%elem_of_cons; [by left|done].
    + intros d [_ ->]. by left.
Qed.

Lemma collects_participants g target operation include :
  collects (resumes_participants g target operation include) (rescale_participant_calls T g target operation include).
Proof.
  unfold rescale_participant_calls. apply collects_outcome. intros downstream Hd. apply collects_outcome. intros inputs Hi.
  unfold downstream_job_vertices in Hd. destruct (job_vertex g target) as [jt|]; cbn in Hd; [|done]. injection Hd as <-.
  unfold input_job_edges in Hi. destruct (job_vertex g target) as [jt'|]; cbn in Hi; [|done]. injection Hi as <-.
  eapply collects_weaken.
  - apply (collects_flatten (λ j c, ∃ jv, job_vertex g j = Ok jv ∧ resumes operation (identity_of T g j) (subtasks jv) c)).
    intros j _. apply collects_outcome. intros jv Hjv. eapply collects_weaken; [apply collects_resume|]. intros c (jv' & Hjv' & Hc).
    rewrite Hjv in Hjv'. by injection Hjv' as <-.
  - intros c (j & jv & Hj & Hjv & Hc). exists j. split; [|by exists jv]. apply elem_of_unique_objects. rewrite !elem_of_app.
    destruct Hj as [[?|?]|[-> ->]]; [by left|by right; left|]. right; right. by left.
Qed.

(** Tasks resumed, and if the release returns all of them confirmed, those of [E] among
    them. *)
Definition release_outcome (E : Call → Prop) (r : outcome ()) ext : Prop :=
  Forall (allowed (λ c, is_resume c.2 = true)) ext ∧
  (r = Ok () → (∀ c, Sent c ∈ ext → unanimous ext c) ∧ (∀ c, E c → Sent c ∈ ext)).

Lemma unanimous_app_r ext ext' c : unanimous ext' c → unanimous (ext ++ ext') c.
Proof. intros (calls & rs & ? & ? & ?). exists calls, rs. set_solver. Qed.

Lemma allowed_sent K ext c : Forall (allowed K) ext → Sent c ∈ ext → K c.
Proof. intros Hext Hc. by apply (proj1 (Forall_forall _ _) Hext (Sent c)). Qed.

Lemma released_get (E : Call → Prop) calls ext :
  (∀ c, Sent c ∈ ext → c ∈ calls) → (∀ c, E c → Sent c ∈ ext) → Forall (allowed (λ c, is_resume c.2 = true)) ext →
  does (get_all_true T calls) (λ r ext', release_outcome E r (ext ++ ext')).
Proof.
  intros Hc HE Hext. eapply does_weaken; [apply does_get_all_true|]. intros r ext' [Hn Hr]. split.
  - apply Forall_app_2; [done|]. by apply allowed_none.
  - intros Er. split; [|intros c ?%HE; apply elem_of_app; by left].
    intros c [Hin|Hin]%elem_of_app; [apply unanimous_app_r; by apply Hr, Hc|]. by apply (allowed_sent _ _ _ Hn) in Hin.
Qed.

(** The tasks that resume after a commit, and after a rollback. *)
Definition resumes_committed plan (c : Call) : Prop :=
  resumes (operation_id plan) (new_ref T plan) (subtasks (new_target plan)) c ∨
  resumes_participants (old_graph plan) (target_id plan) (operation_id plan) false c.

Definition resumes_restored plan (c : Call) : Prop := resumes_participants (old_graph plan) (target_id plan) (operation_id plan) true c.

Lemma does_release plan : does (release_committed_rescale T plan) (release_outcome (resumes_committed plan)).
Proof.
  unfold release_committed_rescale. eapply does_bind; [apply collects_resume|by intros e ext [? _]|]. intros calls ext [H1 H2].
  destruct (H2 calls eq_refl) as [H3 H4]. eapply does_bind; [apply collects_participants| |].
  - intros e ext' [? _]. split; [by apply Forall_app_2|done].
  - intros others ext' [H5 H6]. destruct (H6 others eq_refl) as [H7 H8]. eapply does_weaken.
    { apply (released_get (resumes_committed plan) (calls ++ others) (ext ++ ext')); [| |by apply Forall_app_2].
      - intros c. rewrite !elem_of_app. intros [?|?]; [left; by apply H3|right; by apply H7].
      - intros c [Hc|Hc]; apply elem_of_app; [left; by apply H4|right; by apply H8]. }
    intros r ext''. by rewrite app_assoc.
Qed.

Lemma does_release_participants plan : does (release_rescale_participants T plan) (release_outcome (resumes_restored plan)).
Proof.
  unfold release_rescale_participants. eapply does_bind; [apply collects_participants|by intros e ext [? _]|].
  intros calls ext [H1 H2]. destruct (H2 calls eq_refl). by apply released_get.
Qed.

(** ** The decision *)

(** Everybody has confirmed the commit. *)
Record forward plan ext : Prop := {
  fw_runtimes p : p ∈ runtime_peers plan → agreed ext (p, CommitRuntimeRescale (operation_id plan));
  fw_routes p : p ∈ route_peers plan → agreed ext (p, CommitTopologyReconfiguration (operation_id plan));
  fw_coordinator : ∃ rs, Answered [(CheckpointCoordinator, ReconfigureExecutionGraph (new_graph plan))] (Ok rs) ∈ ext;
  fw_gate : gate_answered (operation_id plan) true (Some (target_id plan)) ext;
  fw_sources : armed plan ext;
  fw_runtimes_only p r : Sent (p, r) ∈ ext → prepares_runtime r = true → p ∈ runtime_peers plan;
  fw_routes_only p r : Sent (p, r) ∈ ext → prepares_routes r = true → p ∈ route_peers plan;
  fw_no_rollback c : Sent c ∈ ext → rolls_back c.2 = false
}.

(** Everybody who may have prepared has confirmed the rollback. *)
Record backward plan ext : Prop := {
  bw_runtimes p r : Sent (p, r) ∈ ext → prepares_runtime r = true → agreed ext (p, RollbackRuntimeRescale (operation_id plan));
  bw_routes p r : Sent (p, r) ∈ ext → prepares_routes r = true → agreed ext (p, RollbackTopologyReconfiguration (operation_id plan));
  bw_coordinator p : Sent (p, ReconfigureExecutionGraph (new_graph plan)) ∈ ext →
    ∃ rs, Answered [(CheckpointCoordinator, ReconfigureExecutionGraph (old_graph plan))] (Ok rs) ∈ ext;
  bw_no_commit c : Sent c ∈ ext → commits c.2 = false
}.

(** What stands before every call that resumes a task. *)
Definition guarded (X : list Event → Prop) ext : Prop :=
  ∀ ext1 c ext2, ext = ext1 ++ Sent c :: ext2 → is_resume c.2 = true → X ext1.

Lemma guarded_none X ext : Forall (allowed (λ c, is_resume c.2 = false)) ext → guarded X ext.
Proof.
  intros Hext e1 c e2 -> Hc. exfalso. apply Forall_app in Hext as [_ [Hc' _]%Forall_cons]. cbn in Hc'. congruence.
Qed.

Lemma guarded_app X ext ext' : guarded X ext → (∀ e1 c e2, ext' = e1 ++ Sent c :: e2 → is_resume c.2 = true → X (ext ++ e1)) → guarded X (ext ++ ext').
Proof.
  intros H1 H2 e1 c e2 E Hc. destruct (app_eq_inv _ _ _ _ E) as [(k & -> & Ek)|(k & -> & Ek)].
  - destruct k as [|x k]; cbn in Ek.
    + specialize (H2 [] c e2). rewrite !app_nil_r in H2. by apply H2.
    + injection Ek as <- ->. by apply (H1 e1 c k).
  - apply (H2 k c e2); done.
Qed.

(** *** The way forward *)

Definition benign (c : Call) : Prop := prepares_runtime c.2 = false ∧ prepares_routes c.2 = false ∧ rolls_back c.2 = false.

(** What holds at the commit point. *)
Record ready plan ext : Prop := {
  rd_coordinator : ∃ rs, Answered [(CheckpointCoordinator, ReconfigureExecutionGraph (new_graph plan))] (Ok rs) ∈ ext;
  rd_runtimes_only p r : Sent (p, r) ∈ ext → prepares_runtime r = true → p ∈ runtime_peers plan;
  rd_routes_only p r : Sent (p, r) ∈ ext → prepares_routes r = true → p ∈ route_peers plan;
  rd_no_rollback c : Sent c ∈ ext → rolls_back c.2 = false
}.

Lemma ready_app plan ext ext' : ready plan ext → Forall (allowed benign) ext' → ready plan (ext ++ ext').
Proof.
  intros [(rs & H1) H2 H3 H4] Hext. split.
  - exists rs. set_solver.
  - intros p r [Hin|Hin]%elem_of_app Hr; [by eapply H2|]. destruct (allowed_sent _ _ _ Hext Hin) as (E & _ & _). cbn in E. congruence.
  - intros p r [Hin|Hin]%elem_of_app Hr; [by eapply H3|]. destruct (allowed_sent _ _ _ Hext Hin) as (_ & E & _). cbn in E. congruence.
  - intros c [Hin|Hin]%elem_of_app; [by apply H4|]. by destruct (allowed_sent _ _ _ Hext Hin) as (_ & _ & E).
Qed.

Lemma armed_app_l plan ext ext' : armed plan ext → armed plan (ext ++ ext').
Proof. intros (sources & E & Hc). exists sources. split; [done|]. intros c Hin. by apply agreed_app_l, Hc. Qed.

Lemma armed_app_r plan ext ext' : armed plan ext' → armed plan (ext ++ ext').
Proof. intros (sources & E & Hc). exists sources. split; [done|]. intros c Hin. by apply agreed_app_r, Hc. Qed.

Lemma gate_app_r operation committed target ext ext' : gate_answered operation committed target ext' → gate_answered operation committed target (ext ++ ext').
Proof. unfold gate_answered. set_solver. Qed.

Lemma forward_ready plan ext : forward plan ext → ready plan ext.
Proof. by intros []. Qed.

Lemma forward_app plan ext ext' : forward plan ext → Forall (allowed benign) ext' → forward plan (ext ++ ext').
Proof.
  intros Hf Hext. destruct (ready_app plan ext ext' (forward_ready plan ext Hf) Hext) as [R1 R2 R3 R4]. destruct Hf. split; try done.
  - intros p Hp. by apply agreed_app_l, fw_runtimes0.
  - intros p Hp. by apply agreed_app_l, fw_routes0.
  - unfold gate_answered in *. set_solver.
  - by apply armed_app_l.
Qed.

Lemma only_kind K K' ext : Forall (allowed K) ext → (∀ c, K c → K' c) → Forall (allowed K') ext.
Proof. intros Hext HK. eapply Forall_impl; [exact Hext|]. intros []; cbn; auto. Qed.

Definition unresumed (c : Call) : Prop := is_resume c.2 = false.

(** Every task that was resumed has confirmed it, and those of [E] were. *)
Definition all_resumed (E : Call → Prop) ext : Prop :=
  (∀ c, Sent c ∈ ext → is_resume c.2 = true → unanimous ext c) ∧ (∀ c, E c → agreed ext c).

Lemma released_all E ext : release_outcome E (Ok ()) ext → all_resumed E ext.
Proof. intros [_ Hr]. destruct (Hr eq_refl) as [H1 H2]. split; [auto|]. intros c Hc. split; auto. Qed.

Lemma all_resumed_after E pre ext : Forall (allowed unresumed) pre → all_resumed E ext → all_resumed E (pre ++ ext).
Proof.
  intros Hpre [H1 H2]. split; [|intros c Hc; by apply agreed_app_r, H2]. intros c [Hin|Hin]%elem_of_app Hc; [|by apply unanimous_app_r, H1].
  pose proof (allowed_sent _ _ _ Hpre Hin) as E'. unfold unresumed in E'. congruence.
Qed.

Lemma all_resumed_before E ext ext' : all_resumed E ext → Forall (allowed unresumed) ext' → all_resumed E (ext ++ ext').
Proof.
  intros [H1 H2] Hext. split; [|intros c Hc; by apply agreed_app_l, H2]. intros c [Hin|Hin]%elem_of_app Hc.
  - destruct (H1 c Hin Hc) as (calls & rs & ? & ? & ?). exists calls, rs. set_solver.
  - pose proof (allowed_sent _ _ _ Hext Hin) as E'. unfold unresumed in E'. congruence.
Qed.

Lemma does_commit_and_release plan handles pre :
  handles.*1 = route_peers plan → ready plan pre →
  does (commit_and_release T plan handles) (λ r ext,
    guarded (λ e, forward plan (pre ++ e)) ext ∧ Forall (allowed benign) ext ∧
    (r = Ok () → forward plan (pre ++ ext) ∧ all_resumed (resumes_committed plan) ext)).
Proof.
  intros Eh Hready. unfold commit_and_release.
  (* a part that resumes nothing *)
  assert (Herr : ∀ (e : exn) ext, Forall (allowed (λ c, benign c ∧ unresumed c)) ext →
    guarded (λ e, forward plan (pre ++ e)) ext ∧ Forall (allowed benign) ext ∧
    (Err e = Ok () → forward plan (pre ++ ext) ∧ all_resumed (resumes_committed plan) ext)).
  { intros e ext Hext. split_and!; [|by eapply only_kind; [exact Hext|intros c []]|done].
    apply guarded_none. eapply only_kind; [exact Hext|]. by intros c []. }
  eapply does_bind; [apply does_commit_routes|..].
  { intros e ext [H1 _]. apply Herr. eapply only_kind; [exact H1|]. intros [p r] [_ E]. cbn in E. by subst r. }
  intros [] e1 [H1 A1]. specialize (A1 eq_refl). rewrite Eh in A1.
  assert (K1 : Forall (allowed (λ c, benign c ∧ unresumed c)) e1) by (eapply only_kind; [exact H1|]; intros [p r] [_ E]; cbn in E; by subst r).
  eapply does_bind; [apply does_commit_runtimes|..].
  { intros e ext [H2 _]. apply Herr. apply Forall_app_2; [done|]. eapply only_kind; [exact H2|]. intros [p r] [_ E]. cbn in E. by subst r. }
  intros [] e2 [H2 A2]. specialize (A2 eq_refl).
  assert (K2 : Forall (allowed (λ c, benign c ∧ unresumed c)) e2) by (eapply only_kind; [exact H2|]; intros [p r] [_ E]; cbn in E; by subst r).
  eapply does_bind; [apply does_finish_gate|..].
  { intros e ext [H3 _]. apply Herr. apply Forall_app_2; [done|]. apply Forall_app_2; [done|]. eapply only_kind; [exact H3|]. by intros c ->. }
  intros [] e3 [H3 A3]. specialize (A3 eq_refl).
  assert (K3 : Forall (allowed (λ c, benign c ∧ unresumed c)) e3) by (eapply only_kind; [exact H3|]; by intros c ->).
  eapply does_bind; [apply does_request_checkpoint|..].
  { intros e ext [H4 _]. apply Herr. do 3 (apply Forall_app_2; [done|]). eapply only_kind; [exact H4|]. intros [p r] E. cbn in E. by subst r. }
  intros [] e4 [H4 A4]. specialize (A4 eq_refl).
  assert (K4 : Forall (allowed (λ c, benign c ∧ unresumed c)) e4) by (eapply only_kind; [exact H4|]; intros [p r] E; cbn in E; by subst r).
  set (ext0 := e1 ++ e2 ++ e3 ++ e4).
  assert (K0 : Forall (allowed (λ c, benign c ∧ unresumed c)) ext0) by (unfold ext0; rewrite !Forall_app; done).
  assert (Hforward : forward plan (pre ++ ext0)).
  { destruct (ready_app plan pre ext0 Hready) as [R1 R2 R3 R4]; [by eapply only_kind; [exact K0|intros c []]|]. split; try done; unfold ext0.
    - intros p Hp. apply agreed_app_r, agreed_app_r, agreed_app_l. by apply A2.
    - intros p Hp. apply agreed_app_r, agreed_app_l. by apply A1.
    - do 3 apply gate_app_r. unfold gate_answered in *. set_solver.
    - do 4 apply armed_app_r. done. }
  eapply does_weaken; [apply does_release|]. intros r e5 [H5 A5]. replace (e1 ++ e2 ++ e3 ++ e4 ++ e5) with (ext0 ++ e5) by (unfold ext0; by rewrite <-!app_assoc).
  assert (K5 : Forall (allowed benign) e5) by (eapply only_kind; [exact H5|]; intros [p []]; done).
  split_and!.
  - apply guarded_app; [apply guarded_none; eapply only_kind; [exact K0|by intros c []]|].
    intros l c l' -> Hc. rewrite app_assoc. apply forward_app; [done|]. by apply Forall_app in K5 as [? _].
  - apply Forall_app_2; [|done]. eapply only_kind; [exact K0|by intros c []].
  - intros ->. split; [rewrite app_assoc; by apply forward_app|].
    apply all_resumed_after; [by eapply only_kind; [exact K0|intros c []]|by apply released_all].
Qed.

(** ** Up to the commit point *)

(** Calls that decide nothing. *)
Definition plain (c : Call) : Prop :=
  commits c.2 = false ∧ rolls_back c.2 = false ∧ is_resume c.2 = false ∧ prepares_runtime c.2 = false ∧
  prepares_routes c.2 = false ∧ reconfigures c.2 = false.

Ltac only_step :=
  match goal with
  | |- only _ (mbind _ _) => apply only_bind; [|intros]
  | |- only _ (mret _) => apply only_ret
  | |- only _ (throw _) => apply only_throw
  | |- only _ (of_outcome _) => apply only_of_outcome
  | |- only _ (gets _) => apply only_gets
  | |- only _ (attempt _) => apply only_attempt
  | |- only _ (try_except _ _) => apply only_try; [|intros]
  | |- only _ (exec_map _ _) => apply only_map; intros
  | |- only _ (on_world _) => apply only_on_world
  | |- only _ (on_store _) => apply only_on_store
  | |- only _ (change_world _) => apply only_on_world
  | |- only _ (get _ _) => apply only_get
  | |- only _ (get_all_true _ _) => apply only_get_all_true
  | |- only _ (handle_of _ _ _) => apply only_handle_of
  | |- only _ (submit _ _ _) => apply only_submit
  | |- only _ (call_task _ _ _ _) => apply only_call_task
  | |- only _ (call_coordinator _ _) => apply only_call_coordinator
  | |- only _ (modify _) => apply only_modify; intros; done
  | |- only _ (if ?b then _ else _) => destruct b
  | |- only _ (match ?b with _ => _ end) => destruct b
  | |- plain _ => done
  end.
Ltac only_tac := cbn zeta; repeat only_step.

Lemma only_call_vertices K g j r : (∀ p, K (p, r)) → only K (call_vertices T g j r).
Proof. intros HK. unfold call_vertices. only_tac. apply HK. Qed.

Lemma only_prepare_local g target operation : only plain (prepare_local_rescale T g target operation).
Proof. unfold prepare_local_rescale. only_tac; by apply only_call_vertices. Qed.

Lemma only_await plan participants : only plain (await_local_rescale_cut T plan participants).
Proof. unfold await_local_rescale_cut. only_tac. Qed.

Lemma only_capture plan : only plain (capture_retired_progress T plan).
Proof. unfold capture_retired_progress. only_tac. Qed.

Lemma only_stage plan snapshots : only plain (stage_local_rescale_state T plan snapshots).
Proof. unfold stage_local_rescale_state. only_tac. Qed.

Lemma only_candidates plan transition : only plain (create_candidates T plan transition).
Proof. unfold create_candidates. only_tac. Qed.

Section until_commit.
Context (plan : Plan) (L : list Event).

(** What may have been sent when phase number [n] was entered. *)
Definition before (n : Z) (c : Call) : Prop :=
  commits c.2 = false ∧ rolls_back c.2 = false ∧ is_resume c.2 = false ∧
  (prepares_runtime c.2 = true → 4 <= n ∧ c.1 ∈ runtime_peers plan) ∧
  (prepares_routes c.2 = true → 5 <= n ∧ c.1 ∈ route_peers plan) ∧
  (reconfigures c.2 = true → 6 <= n ∧ c.2 = ReconfigureExecutionGraph (new_graph plan)).

Lemma plain_before n c : plain c → before n c.
Proof. intros (? & ? & ? & ? & ? & ?). split_and!; try done; congruence. Qed.

Lemma before_mono n n' c : n <= n' → before n c → before n' c.
Proof. intros Hn (? & ? & ? & H4 & H5 & H6). split_and!; try done; intros E; [destruct (H4 E)|destruct (H5 E)|destruct (H6 E)]; (split; [lia|done]). Qed.

Definition sent (K : Call → Prop) m : Prop := ∃ ext, m_log m = L ++ ext ∧ Forall (allowed K) ext.

Definition at_phase (phase : RescalePhase) m : Prop := m_phase m = phase ∧ sent (before (phase_value phase)) m.

(** The transaction has stopped before the commit point. *)
Definition stopped m : Prop := phase_value (m_phase m) < 7 ∧ sent (before (phase_value (m_phase m))) m.

Definition triple {B} (Pre : Master → Prop) (x : rmo B) (Q : B → Master → Prop) (E : exn → Master → Prop) : Prop :=
  ∀ m, Pre m → match x m with (Ok b, m') => Q b m' | (Err e, m') => E e m' end.

Lemma stage_bind {B B'} Pre (x : rmo B) (f : B → rmo B') Q Q' E :
  triple Pre x Q E → (∀ b, triple (Q b) (f b) Q' E) → triple Pre (x ≫= f) Q' E.
Proof.
  intros Hx Hf m Hm. specialize (Hx m Hm). unfold mbind, exec_bind. destruct (x m) as [[b|e] m1]; [|done]. by apply Hf.
Qed.

Lemma quiet_step {B} (K : Call → Prop) (x : rmo B) phase :
  only K x → (∀ c, K c → before (phase_value phase) c) → phase_value phase < 7 →
  triple (at_phase phase) x (λ _, at_phase phase) (λ _, stopped).
Proof.
  intros Hx HK Hp m [Em (ext & El & Hext)]. specialize (Hx m). destruct (x m) as [r m'].
  destruct Hx as (_ & _ & Ep & ext' & El' & Hext').
  assert (sent (before (phase_value phase)) m').
  { exists (ext ++ ext'). split; [by rewrite El', El, app_assoc|]. apply Forall_app_2; [done|]. by eapply only_kind. }
  destruct r; [split; congruence|]. split; rewrite Ep, Em; done.
Qed.

Lemma enter_step phase phase' :
  phase_value phase' = phase_value phase + 1 → phase_value phase < 7 →
  triple (at_phase phase) (enter phase') (λ _, at_phase phase') (λ _, stopped).
Proof.
  intros Hp Hp7 m [Em (ext & El & Hext)]. unfold enter. rewrite exec_bind_gets, exec_bind_of_outcome, Em. unfold enter_phase.
  rewrite (proj2 (Z.leb_gt _ _)) by lia. rewrite (proj2 (Z.eqb_eq _ _)) by lia. cbn. split; [done|]. exists ext. split; [done|].
  eapply only_kind; [exact Hext|]. intros c. apply before_mono. lia.
Qed.

(** A step of which more is known. *)
Lemma known_step {B} (x : rmo B) (X : outcome B → list Event → Prop) phase :
  does x X → (∀ r ext, X r ext → Forall (allowed (before (phase_value phase))) ext) → phase_value phase < 7 →
  triple (at_phase phase) x (λ b m, m_phase m = phase ∧ ∃ pre ext, m_log m = L ++ pre ++ ext ∧ X (Ok b) ext ∧
    Forall (allowed (before (phase_value phase))) (pre ++ ext)) (λ _, stopped).
Proof.
  intros Hx HX Hp m [Em (ext & El & Hext)]. specialize (Hx m). destruct (x m) as [r m'].
  destruct Hx as (_ & _ & Ep & ext' & El' & Hext'). specialize (HX r ext' Hext').
  destruct r.
  - split; [congruence|]. exists ext, ext'. rewrite El', El, app_assoc. split_and!; [done|done|]. by apply Forall_app_2.
  - split; rewrite Ep, Em; [done|]. exists (ext ++ ext'). rewrite El', El, app_assoc. split; [done|]. by apply Forall_app_2.
Qed.

(** *** After the commit point *)

Context (transition : transition_ref).

Definition force_global m : bool := rm_force_global (recovery_of m).

(** Retiring the removed actors sends nothing to a task. *)
Lemma retire_spec m :
  let '(r, m') := retire_removed_actors T plan transition m in
  m_graph m' = m_graph m ∧ m_log m' = m_log m ∧ m_phase m' = m_phase m ∧ rm_graph (recovery_of m') = rm_graph (recovery_of m) ∧
  (force_global m = true → force_global m' = true) ∧
  match r with
  | Ok _ => recovery_of m' = recovery_of m
  | Err _ => force_global m' = true ∨ inr transition ∈ c_pending_placement (m_control m')
  end.
Proof.
  unfold retire_removed_actors.
  assert (Hrel : ∀ m, let '(r, m') := try_except (on_store (release_retired transition)) (λ e, _ ← remember_placement (inr transition); throw e) m in
    m_graph m' = m_graph m ∧ m_log m' = m_log m ∧ m_phase m' = m_phase m ∧ recovery_of m' = recovery_of m ∧
    match r with Ok _ => True | Err _ => inr transition ∈ c_pending_placement (m_control m') end).
  { intros m0. unfold try_except, on_store, in_control, Failover.outside. destruct (release_retired transition _) as [[[]|e] s]; [done|].
    cbn. split_and!; [done..| |]; case_decide; cbn; try done. set_solver. }
  assert (Hafter : ∀ m1, m_graph m1 = m_graph m → m_log m1 = m_log m → m_phase m1 = m_phase m → recovery_of m1 = recovery_of m →
    let '(r, m') := try_except (on_store (release_retired transition)) (λ e, _ ← remember_placement (inr transition); throw e) m1 in
    m_graph m' = m_graph m ∧ m_log m' = m_log m ∧ m_phase m' = m_phase m ∧ rm_graph (recovery_of m') = rm_graph (recovery_of m) ∧
    (force_global m = true → force_global m' = true) ∧
    match r with Ok _ => recovery_of m' = recovery_of m | Err _ => force_global m' = true ∨ inr transition ∈ c_pending_placement (m_control m') end).
  { intros m1 E1 E2 E3 E4. specialize (Hrel m1). destruct (try_except _ _ m1) as [r m']. destruct Hrel as (F1 & F2 & F3 & F4 & F5).
    unfold force_global. rewrite F1, F2, F3, F4, E1, E2, E3, E4. split_and!; try done. destruct r; [done|by right]. }
  unfold mbind at 1, exec_bind at 1, attempt, on_world at 1, on_store at 1, in_control at 1, Failover.outside at 1, Placement.outside at 1.
  destruct (t_stop T (old_ref T plan) false _ _ _) as [[[]|e] w1]; cbn [snd].
  - rewrite exec_bind_ret. by apply Hafter.
  - unfold mbind at 1, exec_bind at 1, try_except at 1, on_world, on_store, in_control, Failover.outside, Placement.outside.
    destruct (t_stop T (old_ref T plan) true _ _ _) as [[[]|e'] w2].
    + by apply Hafter.
    + cbn. unfold force_global, recovery_of, mbind, exec_bind. cbn. case_decide; cbn; (split_and!; try done; by left).
Qed.

(** The transaction has passed the commit point: the new graph is installed, and a failure
    leaves an order to recover globally, or all tasks running on it and a reservation to
    release. *)
Record rolled_forward (r : outcome ()) m : Prop := {
  rf_phase : 7 <= phase_value (m_phase m);
  rf_graph : m_graph m = new_graph plan;
  rf_recovery : rm_graph (recovery_of m) = new_graph plan;
  rf_log : ∃ ext, m_log m = L ++ ext ∧ guarded (forward plan) ext ∧
    match r with
    | Ok _ => force_global m = false ∧ forward plan ext ∧ all_resumed (resumes_committed plan) ext
    | Err _ => force_global m = true ∨
        (forward plan ext ∧ all_resumed (resumes_committed plan) ext ∧ inr transition ∈ c_pending_placement (m_control m))
    end
}.

Lemma unresumed_guarded X ext : Forall (allowed unresumed) ext → guarded X ext.
Proof. apply guarded_none. Qed.

(** What the body of [after_commit] leaves. *)
Definition activated (pre : list Event) (r : outcome ()) m : Prop :=
  7 <= phase_value (m_phase m) ∧ m_graph m = new_graph plan ∧ rm_graph (recovery_of m) = new_graph plan ∧
  ∃ ext, m_log m = L ++ ext ∧ guarded (forward plan) ext ∧
    match r with
    | Ok _ => force_global m = false ∧ forward plan ext ∧ all_resumed (resumes_committed plan) ext
    | Err _ => force_global m = true
    end.

Lemma guarded_shift pre ext : Forall (allowed unresumed) pre → guarded (λ e, forward plan (pre ++ e)) ext → guarded (forward plan) (pre ++ ext).
Proof. intros Hpre Hg. apply guarded_app; [by apply guarded_none|]. intros e1 c e2 -> Hc. by apply (Hg e1 c e2). Qed.

Lemma enter_released m : m_phase m = COMMITTED → enter RELEASED m = (Ok (), set_phase RELEASED m).
Proof. intros E. unfold enter. by rewrite exec_bind_gets, exec_bind_of_outcome, E. Qed.

Lemma activate_spec pre handles m :
  m_phase m = COMMITTED → m_graph m = new_graph plan → recovery_of m = mkRecovery (new_graph plan) false → m_log m = L ++ pre →
  handles.*1 = route_peers plan → ready plan pre → Forall (allowed unresumed) pre →
  let '(r, m') := try_except (_ ← commit_and_release T plan handles; enter RELEASED) (λ e,
     _ ← require_global_recovery;
     _ ← attempt (finish_local_rescale_gate T (operation_id plan) true (Some (target_id plan)));
     throw e) m in activated pre r m'.
Proof.
  intros Hp Hg Hr Hl Hh Hready Hpre. unfold try_except.
  pose proof (does_commit_and_release plan handles pre Hh Hready m) as Hc.
  unfold mbind at 1, exec_bind at 1. destruct (commit_and_release T plan handles m) as [[[]|e] m1].
  - destruct Hc as (E1 & E2 & E3 & ext & El & H1 & H2 & H3). destruct (H3 eq_refl) as [Hf Hres].
    rewrite enter_released by congruence. unfold activated, force_global. cbn [m_phase m_graph m_log set_phase].
    change (recovery_of (set_phase RELEASED m1)) with (recovery_of m1). rewrite E2, Hr. split_and!; [done|by rewrite E1|done|].
    exists (pre ++ ext). rewrite El, Hl, app_assoc. split_and!; [done|by apply guarded_shift|done|done|].
    by apply all_resumed_after.
  - destruct Hc as (E1 & E2 & E3 & ext & El & H1 & H2 & _).
    set (m2 := set_control (Failover.set_recovery (mkRecovery (rm_graph (recovery_of m1)) true) (m_control m1)) m1).
    rewrite (exec_bind_Ok require_global_recovery _ m1 () m2) by done.
    pose proof (does_attempt _ _ (does_finish_gate (operation_id plan) true (Some (target_id plan))) m2) as Hf.
    unfold mbind at 1, exec_bind at 1.
    destruct (attempt (finish_local_rescale_gate T (operation_id plan) true (Some (target_id plan))) m2) as [[o|e'] m3].
    2: { by destruct Hf as (_ & _ & _ & ? & _ & []). }
    destruct Hf as (F1 & F2 & F3 & ext' & Fl & F4 & _). unfold activated, force_global, throw. rewrite F1, F2, F3.
    change (m_phase m2) with (m_phase m1). change (m_graph m2) with (m_graph m1).
    change (recovery_of m2) with (mkRecovery (rm_graph (recovery_of m1)) true). rewrite E3, Hp, E1, E2, Hr. split_and!; [done|done|done|].
    exists ((pre ++ ext) ++ ext'). rewrite Fl. change (m_log m2) with (m_log m1). rewrite El, Hl, !app_assoc. split_and!; [done| |done].
    apply guarded_app; [by apply guarded_shift|].
    intros e1 c e2 -> Hc. exfalso. apply Forall_app in F4 as [_ F4]. apply Forall_cons in F4 as [E _]. cbn in E. by subst c.
Qed.

Lemma after_commit_spec pre handles m :
  m_phase m = COMMITTED → m_graph m = new_graph plan → recovery_of m = mkRecovery (new_graph plan) false → m_log m = L ++ pre →
  handles.*1 = route_peers plan → ready plan pre → Forall (allowed unresumed) pre →
  let '(r, m') := after_commit T plan transition handles m in rolled_forward r m'.
Proof.
  intros Hp Hg Hr Hl Hh Hready Hpre. unfold after_commit, try_finally.
  pose proof (activate_spec pre handles m Hp Hg Hr Hl Hh Hready Hpre) as Ha. unfold mbind at 1, exec_bind at 1, attempt at 1.
  destruct (try_except _ _ m) as [r m1]. destruct Ha as (A1 & A2 & A3 & ext & A4 & A5 & A6).
  destruct (any_of _).
  - pose proof (retire_spec m1) as Ht. unfold mbind at 1, exec_bind at 1. destruct (retire_removed_actors T plan transition m1) as [[[]|e] m2];
      destruct Ht as (T1 & T2 & T3 & T4 & T5 & T6).
    + cbn. split; [by rewrite T3|by rewrite T1|by rewrite T4|]. exists ext. rewrite T2. split_and!; [done..|].
      unfold force_global in *. rewrite T6. destruct r; [done|by left].
    + split; [by rewrite T3|by rewrite T1|by rewrite T4|]. exists ext. rewrite T2. split_and!; [done..|].
      destruct T6 as [T6|T6]; [by left|]. destruct r as [[]|e']; [by right; destruct A6 as (_ & ? & ?)|left; by apply T5].
  - rewrite exec_bind_ret. cbn. split; [done..|]. exists ext. split_and!; [done..|]. destruct r; [done|by left].
Qed.

(** How [_apply_local_rescale] ends. *)
Definition ends_applied (r : outcome ()) m : Prop := (is_ok r = false ∧ stopped m) ∨ rolled_forward r m.

Lemma step {B} Pre (x : rmo B) (f : B → rmo ()) Q :
  triple Pre x Q (λ _, stopped) → (∀ b, triple (Q b) (f b) (λ r m, ends_applied (Ok r) m) (λ e m, ends_applied (Err e) m)) →
  triple Pre (x ≫= f) (λ r m, ends_applied (Ok r) m) (λ e m, ends_applied (Err e) m).
Proof.
  intros Hx Hf. eapply stage_bind; [|exact Hf]. intros m Hm. specialize (Hx m Hm). destruct (x m) as [[b|e] m']; [done|]. by left.
Qed.

Lemma step_quiet {B} (x : rmo B) (f : B → rmo ()) phase :
  only plain x → phase_value phase < 7 →
  (∀ b, triple (at_phase phase) (f b) (λ r m, ends_applied (Ok r) m) (λ e m, ends_applied (Err e) m)) →
  triple (at_phase phase) (x ≫= f) (λ r m, ends_applied (Ok r) m) (λ e m, ends_applied (Err e) m).
Proof. intros Hx Hp Hf. eapply step; [|exact Hf]. apply (quiet_step plain); [done| |done]. intros c. apply plain_before. Qed.

Lemma step_enter (f : () → rmo ()) phase phase' :
  phase_value phase' = phase_value phase + 1 → phase_value phase < 7 →
  (∀ b, triple (at_phase phase') (f b) (λ r m, ends_applied (Ok r) m) (λ e m, ends_applied (Err e) m)) →
  triple (at_phase phase) (enter phase' ≫= f) (λ r m, ends_applied (Ok r) m) (λ e m, ends_applied (Err e) m).
Proof. intros Hp Hp7 Hf. eapply step; [by apply enter_step|exact Hf]. Qed.

(** At the commit point: the new graph is installed. *)
Lemma commit_spec pre rs handles m :
  m_phase m = COORDINATOR → m_log m = L ++ pre → Forall (allowed (before 6)) pre →
  Answered [(CheckpointCoordinator, ReconfigureExecutionGraph (new_graph plan))] (Ok rs) ∈ pre → handles.*1 = route_peers plan →
  let '(r, m') := (_ ← modify (set_graph (new_graph plan));
    _ ← replace_recovery_graph (new_graph plan);
    _ ← on_store (commit_transition transition);
    _ ← enter COMMITTED;
    after_commit T plan transition handles) m in ends_applied r m'.
Proof.
  intros Hp Hl Hpre Hans Hh. rewrite exec_bind_modify.
  set (m1 := set_control (Failover.set_recovery (mkRecovery (new_graph plan) false) (m_control m)) (set_graph (new_graph plan) m)).
  rewrite (exec_bind_Ok (replace_recovery_graph (new_graph plan)) _ _ () m1) by done.
  destruct (on_store (commit_transition transition) m1) as [[[]|e] m2] eqn:Ec.
  - rewrite (exec_bind_Ok _ _ _ _ _ Ec).
    assert (E2 : m2 = set_control (m_control m2) m1 ∧ recovery_of m2 = recovery_of m1).
    { revert Ec. unfold on_store, in_control, Failover.outside. destruct (commit_transition transition _) as [o s]. by intros [= -> <-]. }
    destruct E2 as [E2 Er]. unfold enter. rewrite exec_bind_assoc, exec_bind_gets.
    assert (Ep : m_phase m2 = COORDINATOR) by (rewrite E2; exact Hp). rewrite Ep. rewrite exec_bind_assoc. cbn [of_outcome enter_phase].
    rewrite exec_bind_of_outcome. change (enter_phase COORDINATOR COMMITTED) with (Ok (A := RescalePhase) COMMITTED). cbv iota beta.
    rewrite exec_bind_modify. pose proof (after_commit_spec pre handles (set_phase COMMITTED m2)) as Ha.
    destruct (after_commit T plan transition handles (set_phase COMMITTED m2)) as [r m']. right. apply Ha; try done.
    + cbn. by rewrite E2.
    + cbn. rewrite E2. exact Hl.
    + split; [by exists rs|..].
      * intros p q Hin Hq. destruct (allowed_sent _ _ _ Hpre Hin) as (_ & _ & _ & E & _). by apply E.
      * intros p q Hin Hq. destruct (allowed_sent _ _ _ Hpre Hin) as (_ & _ & _ & _ & E & _). by apply E.
      * intros c Hin. by destruct (allowed_sent _ _ _ Hpre Hin) as (_ & E & _).
    + eapply only_kind; [exact Hpre|]. by intros c (_ & _ & E & _).
  - rewrite (exec_bind_Err _ _ _ _ _ Ec). left. split; [done|].
    assert (E2 : m_phase m2 = COORDINATOR ∧ m_log m2 = m_log m).
    { revert Ec. unfold on_store, in_control, Failover.outside. destruct (commit_transition transition _) as [o s]. by intros [= -> <-]. }
    destruct E2 as [Ep El]. split; rewrite Ep; [done|]. exists pre. by rewrite El.
Qed.

(** From the routes on. *)
Lemma from_routes_spec handles :
  handles.*1 = route_peers plan →
  triple (at_phase ROUTES) (_ ← activate_live_task_topologies T plan handles;
      _ ← enter COORDINATOR;
      _ ← call_coordinator T (ReconfigureExecutionGraph (new_graph plan));
      _ ← modify (set_graph (new_graph plan));
      _ ← replace_recovery_graph (new_graph plan);
      _ ← on_store (commit_transition transition);
      _ ← enter COMMITTED;
      after_commit T plan transition handles) (λ r m, ends_applied (Ok r) m) (λ e m, ends_applied (Err e) m).
Proof.
  intros Eh.
  eapply step; [eapply quiet_step; [|intros c Hc; exact Hc|done]|].
  { eapply does_weaken; [apply does_activate_routes|]. intros r ext [Hext _]. eapply only_kind; [exact Hext|].
    intros [p q] [Hin E]. cbn in Hin, E. subst q. rewrite Eh in Hin. split_and!; done. }
  intros []. apply step_enter; [done..|]. intros _.
  eapply step; [eapply known_step; [apply does_coordinator| |done]|].
  { intros r ext [Hext _]. eapply only_kind; [exact Hext|]. intros c ->. split_and!; done. }
  intros rs m2 (Ep2 & pre2 & ext2 & El2 & [_ Hans] & Hext2).
  pose proof (commit_spec (pre2 ++ ext2) rs handles m2 Ep2 El2 Hext2) as Hc. specialize (Hc ltac:(set_solver) Eh).
  match goal with |- match ?x with _ => _ end => destruct x as [[r|e] m'] end; exact Hc.
Qed.

Lemma apply_spec unmarked m :
  marked unmarked = plan → m_phase m = INITIAL → m_log m = L →
  let '(r, m') := apply_local_rescale T unmarked transition m in ends_applied r m'.
Proof.
  intros Em Hp Hl.
  enough (triple (at_phase INITIAL) (apply_local_rescale T unmarked transition) (λ r m, ends_applied (Ok r) m) (λ e m, ends_applied (Err e) m)) as Ht.
  { specialize (Ht m). destruct (apply_local_rescale T unmarked transition m) as [[r|e] m']; apply Ht; (split; [done|]); exists []; by rewrite app_nil_r. }
  unfold apply_local_rescale. cbn zeta. rewrite Em.
  apply step_quiet; [apply only_of_outcome|done|]. intros _.
  apply step_quiet; [apply only_on_world|done|]. intros _.
  apply step_enter; [done..|]. intros _.
  apply step_quiet; [apply only_candidates|done|]. intros _.
  apply step_enter; [done..|]. intros _.
  apply step_quiet; [by apply only_call_coordinator|done|]. intros acquired.
  apply step_quiet; [only_tac|done|]. intros _.
  apply step_quiet; [apply only_gets|done|]. intros recovery.
  apply step_quiet; [apply only_on_world|done|]. intros cleared.
  apply step_quiet; [only_tac|done|]. intros _.
  apply step_enter; [done..|]. intros _.
  apply step_quiet; [apply only_prepare_local|done|]. intros participants.
  apply step_quiet; [apply only_await|done|]. intros snapshots.
  apply step_quiet; [apply only_capture|done|]. intros _.
  apply step_quiet; [apply only_stage|done|]. intros _.
  apply step_quiet; [only_tac|done|]. intros _.
  apply step_enter; [done..|]. intros _.
  eapply step; [eapply quiet_step; [apply only_prepare_runtimes| |done]|].
  { intros [p []]; cbn; intros [? ?]; try done. }
  intros []. apply step_enter; [done..|]. intros _.
  eapply step; [eapply known_step; [apply does_prepare_routes| |done]|].
  { intros r ext [Hext _]. eapply only_kind; [exact Hext|]. intros [p []]; cbn; intros [? ?]; try done; split_and!; done. }
  intros handles m1 (Ep1 & pre1 & ext1 & El1 & [_ Eh] & Hext1). apply from_routes_spec; [done|]. split; [done|]. by exists (pre1 ++ ext1).
Qed.

(** *** The way back *)

(** A batch of rollbacks, and whether everybody confirms. *)
Lemma does_confirm {B} (to : B → @peer J) (q : Request) (f : B → rmo Call) bs :
  (∀ b, submits (λ c, c = (to b, q)) (f b)) →
  does (results ← attempt (calls ← exec_map f bs; get T calls); mret (match results with Ok results => all_true results | Err _ => false end))
    (λ r ext, Forall (allowed (λ c, c.2 = q)) ext ∧ (r = Ok true → ∀ b, b ∈ bs → agreed ext (to b, q)) ∧ is_ok r = true).
Proof.
  intros Hf. eapply does_bind.
  { apply does_attempt. eapply (does_bind _ _ _ (λ r ext, Forall (allowed (λ c, c.2 = q)) ext ∧
      ∀ rs, r = Ok rs → ∃ cs, Forall2 (λ b c, c = (to b, q)) bs cs ∧ ext = (Sent <$> cs) ++ [Answered cs (Ok rs)])).
    - apply (does_map (λ b c, c = (to b, q))). auto.
    - intros e ext [Hext _]. split; [|done]. eapply only_kind; [exact Hext|]. by intros c (b & _ & ->).
    - intros cs ext [Hext [-> Hcs]]. eapply does_weaken; [apply does_get|]. intros r ext ->. split.
      + apply Forall_app_2; [|by repeat constructor]. eapply only_kind; [exact Hext|]. by intros c (b & _ & ->).
      + intros rs ->. by exists cs. }
  { by intros e ext []. }
  intros results ext [Hext Hrs]. apply does_ret. rewrite app_nil_r. split_and!; [done| |done]. intros [= Hall] b (k & Hk)%list_elem_of_lookup.
  destruct results as [rs|e]; [|done]. destruct (Hrs rs eq_refl) as (cs & Hcs & ->).
  destruct (Forall2_lookup_l _ _ _ _ _ Hcs Hk) as (c & Hc & ->). apply list_elem_of_lookup_2 in Hc.
  split; [apply elem_of_app; left; by apply list_elem_of_fmap_2|]. exists cs, rs. split_and!; [done|set_solver|done].
Qed.

Definition route_rollback : Request := RollbackTopologyReconfiguration (operation_id plan).
Definition runtime_rollback : Request := RollbackRuntimeRescale (operation_id plan).

Lemma does_rollback_routes :
  does (rollback_live_task_topologies T plan) (λ r ext,
    Forall (allowed (λ c, c.2 = route_rollback)) ext ∧ (r = Ok true → ∀ p, p ∈ route_peers plan → agreed ext (p, route_rollback))).
Proof.
  unfold rollback_live_task_topologies, route_peers. destruct (changed_live_task_handles T _ _ _) as [handles|e]; cbn [of_outcome].
  2: { eapply does_bind; [by apply (does_pure (Err e) (λ r ext, ext = [] ∧ is_ok r = false))|by intros ? ? [-> _]|by intros ? ? [_ ?]]. }
  eapply does_bind; [by apply (does_pure (Ok handles) (λ r ext, ext = [] ∧ r = Ok handles))|by intros ? ? [_ ?]|]. intros hs ext [-> [= ->]].
  case_bool_decide as E.
  { destruct handles; [|done]. apply does_ret. split; [done|]. by intros _ p ?%not_elem_of_nil. }
  eapply does_weaken; [apply (does_confirm (λ x : J * vid * D, Task x.1.1 x.1.2)); intros x; by apply submits_call_task|].
  intros r ext (H1 & H2 & _). split; [done|]. intros Hr p (x & -> & Hx)%list_elem_of_fmap. by apply H2.
Qed.

(** The submission of the rollbacks of runtimes does not raise. *)
Definition rollbacks_submitted : Prop := ∀ m, is_ok (retained_calls T plan runtime_rollback m).1 = true.

Lemma does_rollback_runtimes :
  rollbacks_submitted →
  does (rollback_retained_target_runtimes T plan) (λ r ext,
    Forall (allowed (λ c, c.2 = runtime_rollback)) ext ∧ (r = Ok true → ∀ p, p ∈ runtime_peers plan → agreed ext (p, runtime_rollback)) ∧ is_ok r = true).
Proof.
  intros Hsub. unfold rollback_retained_target_runtimes.
  assert (Hcalls : does (retained_calls T plan runtime_rollback) (λ r ext, Forall (allowed (λ c, c.2 = runtime_rollback)) ext ∧
    is_ok r = true ∧ ∀ cs, r = Ok cs → ext = Sent <$> cs ∧ Forall2 (λ (v : Vertex) c, c = (Task (new_ref T plan) (xv_id v), runtime_rollback)) (retained (delta plan)) cs)).
  { intros m. pose proof (Hsub m) as Hok.
    assert (Hm : does (retained_calls T plan runtime_rollback) (λ r ext,
      Forall (allowed (λ c, ∃ v : Vertex, v ∈ retained (delta plan) ∧ c = (Task (new_ref T plan) (xv_id v), runtime_rollback))) ext ∧
      match r with Ok cs => ext = Sent <$> cs ∧ Forall2 (λ (v : Vertex) c, c = (Task (new_ref T plan) (xv_id v), runtime_rollback)) (retained (delta plan)) cs | Err _ => True end)).
    { apply (does_map (λ v c, c = (Task (new_ref T plan) (xv_id v), runtime_rollback))). intros v _. by apply submits_call_task. }
    specialize (Hm m). destruct (retained_calls T plan runtime_rollback m) as [r m']. destruct Hm as (E1 & E2 & E3 & ext & El & Hext & Hr).
    split_and!; [done..|]. exists ext. split_and!; [done| |done|by intros cs ->]. eapply only_kind; [exact Hext|]. by intros c (v & _ & ->). }
  eapply does_bind; [exact Hcalls|by intros e ext (_ & ? & _)|]. intros cs ext (Hext & _ & Hcs). destruct (Hcs cs eq_refl) as [-> Hcs2]. clear Hcs.
  case_bool_decide as E.
  { destruct cs; [|done]. apply does_ret. split_and!; [done| |done]. intros _ p Hp. unfold runtime_peers in Hp.
    inversion Hcs2 as [Er|]. rewrite <-Er in Hp. by apply not_elem_of_nil in Hp. }
  eapply does_bind; [apply does_attempt, does_get|by intros e ext []|]. intros o ext ->. apply does_ret. rewrite app_nil_r. split_and!; [|..|done].
  - apply Forall_app_2; [done|by repeat constructor].
  - intros [= Hall] p (v & -> & (k & Hk)%list_elem_of_lookup)%list_elem_of_fmap. destruct o as [rs|]; [|done].
    destruct (Forall2_lookup_l _ _ _ _ _ Hcs2 Hk) as (c & Hc & ->). apply list_elem_of_lookup_2 in Hc.
    split; [apply elem_of_app; left; by apply list_elem_of_fmap_2|]. exists cs, rs. split_and!; [done|set_solver|done].
Qed.

(** Calls of a rollback, before anything resumes. *)
Definition undoing (n : Z) (c : Call) : Prop :=
  commits c.2 = false ∧ is_resume c.2 = false ∧ prepares_runtime c.2 = false ∧ prepares_routes c.2 = false ∧ (reconfigures c.2 = true → 6 <= n).

Definition old_restored ext : Prop := ∃ rs, Answered [(CheckpointCoordinator, ReconfigureExecutionGraph (old_graph plan))] (Ok rs) ∈ ext.

Lemma phase_attempted_true phase phase' : phase_attempted phase phase' = true ↔ phase_value phase' <= phase_value phase.
Proof. apply Z.leb_le. Qed.

(** [does], in a given phase. *)
Definition does_in (phase : RescalePhase) {B} (x : rmo B) (X : outcome B → list Event → Prop) : Prop :=
  ∀ m, m_phase m = phase → let '(r, m') := x m in
    m_graph m' = m_graph m ∧ recovery_of m' = recovery_of m ∧ m_phase m' = phase ∧
    ∃ ext, m_log m' = m_log m ++ ext ∧ X r ext.

Lemma does_in_of phase {B} (x : rmo B) (X Y : outcome B → list Event → Prop) : does x X → (∀ r ext, X r ext → Y r ext) → does_in phase x Y.
Proof. intros Hx HXY m Em. specialize (Hx m). destruct (x m) as [r m']. destruct Hx as (? & ? & ? & ext & ? & ?). split_and!; [done..|congruence|]. eauto. Qed.

Lemma does_in_bind phase {B E} (x : rmo B) (f : B → rmo E) (X : outcome B → list Event → Prop) (Z : outcome E → list Event → Prop) :
  does_in phase x X → (∀ e ext, X (Err e) ext → Z (Err e) ext) →
  (∀ b ext, X (Ok b) ext → does_in phase (f b) (λ r ext', Z r (ext ++ ext'))) → does_in phase (x ≫= f) Z.
Proof.
  intros Hx He Hf m Em. specialize (Hx m Em). unfold mbind, exec_bind. destruct (x m) as [[b|e] m1].
  - destruct Hx as (E1 & E2 & E3 & ext & El & HX). specialize (Hf b ext HX m1 E3). destruct (f b m1) as [r m2].
    destruct Hf as (E4 & E5 & E6 & ext' & El' & HZ). rewrite E4, E5, El', El. split_and!; [done..|]. exists (ext ++ ext').
    by rewrite app_assoc.
  - destruct Hx as (E1 & E2 & E3 & ext & El & HX). split_and!; [done..|]. exists ext. auto.
Qed.

Lemma does_in_attempted phase p {B} (f : bool → rmo B) (Z : outcome B → list Event → Prop) :
  does_in phase (f (phase_attempted phase p)) Z → does_in phase (attempted p ≫= f) Z.
Proof. intros Hf m Em. unfold attempted. rewrite exec_bind_gets, Em. by apply Hf. Qed.

Lemma does_in_ret phase {B} (b : B) (X : outcome B → list Event → Prop) : X (Ok b) [] → does_in phase (mret b) X.
Proof. intros HX. eapply does_in_of; [by apply (does_ret b X)|done]. Qed.

Definition topologies_back (n : Z) (r : outcome bool) ext : Prop :=
  ∃ b, r = Ok b ∧ Forall (allowed (undoing n)) ext ∧
    (b = true → (6 <= n → old_restored ext) ∧ (5 <= n → ∀ p, p ∈ route_peers plan → agreed ext (p, route_rollback))).

Lemma does_restore_topologies phase : does_in phase (restore_precommit_topologies T plan) (topologies_back (phase_value phase)).
Proof.
  unfold restore_precommit_topologies. set (n := phase_value phase). apply does_in_attempted.
  eapply (does_in_bind _ _ _ (λ r ext, ∃ b, r = Ok b ∧ Forall (allowed (undoing n)) ext ∧ (b = true → 6 <= n → old_restored ext))).
  { destruct (phase_attempted phase COORDINATOR) eqn:E.
    - apply phase_attempted_true in E. eapply does_in_of; [|intros r ext Hr; exact Hr].
      eapply does_bind; [apply does_attempt, does_coordinator|by intros e ext []|].
      intros o ext [Hext Hans]. apply does_ret. rewrite app_nil_r. exists (is_ok o). split_and!; [done| |].
      + eapply only_kind; [exact Hext|]. by intros c ->.
      + intros Ho _. destruct o as [rs|]; [by exists rs|done].
    - apply does_in_ret. exists true. split_and!; [done..|]. intros _ Hn. exfalso.
      assert (phase_attempted phase COORDINATOR = true) by (by apply phase_attempted_true). congruence. }
  { by intros e ext (b & ? & _). }
  intros restored ext (b & [= <-] & Hext & Hrest). apply does_in_attempted. destruct (phase_attempted phase ROUTES) eqn:E.
  - eapply does_in_of; [|intros r ext' Hr; exact Hr]. eapply does_bind; [apply does_attempt, does_rollback_routes|by intros e ext' []|].
    intros o ext' [Hext' Hall]. apply does_ret. rewrite app_nil_r. eexists. split; [done|]. split.
    + apply Forall_app_2; [done|]. eapply only_kind; [exact Hext'|]. intros [p q] Eq. cbn in Eq. by subst q.
    + destruct o as [ok|]; [|done]. intros [-> ->]%andb_prop. split.
      * intros Hn. destruct (Hrest eq_refl Hn) as [rs Hin]. exists rs. set_solver.
      * intros _ p Hp. apply agreed_app_r. by apply Hall.
  - apply does_in_ret. rewrite !app_nil_r. exists restored. split_and!; [done..|]. intros Hr. split; [by apply Hrest|].
    intros Hn. exfalso. assert (phase_attempted phase ROUTES = true) by (by apply phase_attempted_true). congruence.
Qed.

Lemma only_discard operation target : only (λ c, c.2 = DiscardOperatorRescaleState operation target) (discard_local_rescale_state T operation target).
Proof.
  unfold discard_local_rescale_state. only_tac; [done|]. apply only_modify. intros m. by case_decide.
Qed.

Lemma only_remember_actors K j vertices : only K (remember_pending_rescale_actors j vertices : rmo ()).
Proof. apply only_in_control. intros c. done. Qed.

Lemma only_remember_placement K cleanup : only K (remember_placement cleanup : rmo ()).
Proof. apply only_in_control. intros c. unfold remember_pending_placement_cleanup, modify. cbn. by case_decide. Qed.

Definition runtimes_back (n : Z) (b : bool) ext : Prop :=
  Forall (allowed (undoing n)) ext ∧ (b = true → 4 <= n → ∀ p, p ∈ runtime_peers plan → agreed ext (p, runtime_rollback)).

Lemma runtimes_back_only n b ext ext' (K : Call → Prop) :
  runtimes_back n b ext → Forall (allowed K) ext' → (∀ c, K c → undoing n c) → runtimes_back n b (ext ++ ext').
Proof.
  intros [H1 H2] Hext HK. split; [apply Forall_app_2; [done|by eapply only_kind]|]. intros Hb Hn p Hp. by apply agreed_app_l, H2.
Qed.

(** The state of a rollback: nothing raises, and [b] says whether all went well so far. *)
Definition undone (phase : RescalePhase) (X : bool → list Event → Prop) (b : bool) m : Prop :=
  m_phase m = phase ∧ ∃ ext, m_log m = L ++ ext ∧ X b ext.

Lemma undone_quiet {B} (x : rmo B) phase (X : bool → list Event → Prop) K b :
  only K x → (∀ b ext ext', X b ext → Forall (allowed K) ext' → X b (ext ++ ext')) → (∀ m, is_ok (x m).1 = true) →
  triple (undone phase X b) x (λ _, undone phase X b) (λ _ _, False).
Proof.
  intros Hx HX Hok m [Ep (ext & El & Hext)]. specialize (Hx m). specialize (Hok m). destruct (x m) as [[c|e] m']; [|done].
  destruct Hx as (_ & _ & Ep' & ext' & El' & Hext'). split; [congruence|]. exists (ext ++ ext'). rewrite El', El, app_assoc. auto.
Qed.

Lemma bind_attempted p {B} (f : bool → rmo B) m : (attempted p ≫= f) m = f (phase_attempted (m_phase m) p) m.
Proof. done. Qed.

Lemma stage_attempted {B} phase p (X : bool → list Event → Prop) b (f : bool → rmo B) Q E :
  triple (undone phase X b) (f (phase_attempted phase p)) Q E → triple (undone phase X b) (attempted p ≫= f) Q E.
Proof. intros Hf m Hm. unfold attempted. rewrite exec_bind_gets. destruct Hm as [Ep Hm]. rewrite Ep. by apply Hf. Qed.

Lemma stage_ret {B} (Pre : Master → Prop) (c : B) Q E : (∀ m, Pre m → Q c m) → triple Pre (mret c) Q E.
Proof. intros H0 m Hm. by apply H0. Qed.
(** *** The runtimes, the candidates and the graph *)

Section undo.
Context (phase : RescalePhase) (Y : list Event → Prop).
Context (Y_grows : ∀ ext ext', Y ext → Forall (allowed (undoing (phase_value phase))) ext' → Y (ext ++ ext')).

Definition runtimes_undone ext : Prop := 4 <= phase_value phase → ∀ p, p ∈ runtime_peers plan → agreed ext (p, runtime_rollback).
Definition undoing_runtimes (b : bool) ext : Prop := Y ext ∧ (b = true → runtimes_undone ext).

Lemma undoing_runtimes_grows b ext ext' :
  undoing_runtimes b ext → Forall (allowed (undoing (phase_value phase))) ext' → undoing_runtimes b (ext ++ ext').
Proof. intros [H1 H2] Hext. split; [auto|]. intros Hb Hn p Hp. by apply agreed_app_l, H2. Qed.

Lemma undo_quiet {B} (x : rmo B) b :
  only (undoing (phase_value phase)) x → (∀ m, is_ok (x m).1 = true) →
  triple (undone phase undoing_runtimes b) x (λ _, undone phase undoing_runtimes b) (λ _ _, False).
Proof. intros Hx. eapply undone_quiet; [exact Hx|apply undoing_runtimes_grows]. Qed.

Lemma undo_runtimes : rollbacks_submitted →
  triple (undone phase undoing_runtimes false)
    (if phase_attempted phase RUNTIMES then rollback_retained_target_runtimes T plan else mret true)
    (undone phase undoing_runtimes) (λ _ _, False).
Proof.
  intros Hsub. destruct (phase_attempted phase RUNTIMES) eqn:E.
  - intros m [Ep (ext & El & [HY _])]. pose proof (does_rollback_runtimes Hsub m) as Hd.
    destruct (rollback_retained_target_runtimes T plan m) as [[b|e] m']; destruct Hd as (_ & _ & Ep' & ext' & El' & Hext & Hall & Hok); [|done].
    split; [congruence|]. exists (ext ++ ext'). rewrite El', El, app_assoc. split; [done|]. split.
    + apply Y_grows; [done|]. eapply only_kind; [exact Hext|]. intros [p q] Eq. cbn in Eq. by subst q.
    + intros -> _ p Hp. by apply agreed_app_r, Hall.
  - apply stage_ret. intros m [Ep (ext & El & [HY _])]. split; [done|]. exists ext. split; [done|]. split; [done|]. intros _ Hn.
    exfalso. assert (phase_attempted phase RUNTIMES = true) by (by apply phase_attempted_true). congruence.
Qed.

Lemma restore_runtime_spec : rollbacks_submitted →
  triple (λ m, m_phase m = phase ∧ ∃ ext, m_log m = L ++ ext ∧ Y ext) (restore_precommit_runtime T plan transition)
    (λ b m, m_graph m = old_graph plan ∧ recovery_of m = mkRecovery (old_graph plan) false ∧ undone phase undoing_runtimes b m)
    (λ _ _, False).
Proof.
  intros Hsub. unfold restore_precommit_runtime.
  enough (Ht : triple (undone phase undoing_runtimes false) (restore_precommit_runtime T plan transition)
    (λ b m, m_graph m = old_graph plan ∧ recovery_of m = mkRecovery (old_graph plan) false ∧ undone phase undoing_runtimes b m) (λ _ _, False)).
  { intros m [Ep (ext & El & HY)]. apply Ht. split; [done|]. exists ext. by split. }
  unfold restore_precommit_runtime. apply stage_attempted. eapply stage_bind; [by apply undo_runtimes|]. intros restored.
  apply stage_attempted. eapply stage_bind.
  { apply undo_quiet.
    - only_tac. apply only_remember_actors.
    - intros m. destruct (_ && _); [|done]. unfold mbind, exec_bind, attempt. by destruct (on_world _ m) as [[]]. }
  intros stopped. eapply stage_bind.
  { apply undo_quiet; [only_tac|]. intros m. unfold attempt. by destruct (on_store _ m). }
  intros released. eapply stage_bind.
  { apply undo_quiet; [destruct released; [apply only_ret|apply only_remember_placement]|].
    intros m. destruct released; [done|]. unfold remember_placement, in_control, remember_pending_placement_cleanup, modify. by case_decide. }
  intros []. intros m (Ep & ext & El & Hx). rewrite exec_bind_modify.
  set (m1 := set_control (Failover.set_recovery (mkRecovery (old_graph plan) false) (m_control m)) (set_graph (old_graph plan) m)).
  rewrite (exec_bind_Ok (replace_recovery_graph (old_graph plan)) _ _ () m1) by done.
  pose proof (only_discard (operation_id plan) (target_id plan)) as Hd. apply only_attempt in Hd. specialize (Hd m1).
  unfold mbind at 1, exec_bind at 1. unfold attempt at 1. unfold attempt in Hd.
  destruct (discard_local_rescale_state T _ _ m1) as [o m2]. destruct Hd as (E1 & E2 & E3 & ext' & El' & Hext).
  cbn. rewrite E1, E2. split_and!; [done|done|]. split; [rewrite E3; exact Ep|]. exists (ext ++ ext'). rewrite El'.
  change (m_log m1) with (m_log m). rewrite El, app_assoc. split; [done|].
  apply (undoing_runtimes_grows _ _ ext') in Hx; [|by eapply only_kind; [exact Hext|intros [p q] Eq; cbn in Eq; by subst q]].
  destruct Hx as [HY Hall]. split; [done|]. intros [[-> _]%andb_prop _]%andb_prop. by apply Hall.
Qed.
End undo.

(** *** The end of a rollback *)

Definition neutral (c : Call) : Prop :=
  prepares_runtime c.2 = false ∧ prepares_routes c.2 = false ∧ commits c.2 = false ∧ reconfigures c.2 = false.

Lemma backward_app ext ext' : backward plan ext → Forall (allowed neutral) ext' → backward plan (ext ++ ext').
Proof.
  intros [H1 H2 H3 H4] Hext. split.
  - intros p r [Hin|Hin]%elem_of_app Hr; [by eapply agreed_app_l, H1|]. destruct (allowed_sent _ _ _ Hext Hin) as (E & _). cbn in E. congruence.
  - intros p r [Hin|Hin]%elem_of_app Hr; [by eapply agreed_app_l, H2|]. destruct (allowed_sent _ _ _ Hext Hin) as (_ & E & _). cbn in E. congruence.
  - intros p [Hin|Hin]%elem_of_app; [|by destruct (allowed_sent _ _ _ Hext Hin) as (_ & _ & _ & ?)].
    destruct (H3 p Hin) as [rs ?]. exists rs. set_solver.
  - intros c [Hin|Hin]%elem_of_app; [by apply H4|]. by destruct (allowed_sent _ _ _ Hext Hin) as (_ & _ & ? & _).
Qed.

Definition resuming_participants (safe participants : bool) : rmo bool :=
  if safe && participants then r ← attempt (release_rescale_participants T plan); mret (is_ok r) else mret safe.

Lemma does_resume_participants safe participants :
  does (resuming_participants safe participants) (λ r ext, ∃ b, r = Ok b ∧ Forall (allowed (λ c, is_resume c.2 = true)) ext ∧
    (safe = false → ext = []) ∧ (b = true → safe = true ∧ all_resumed (λ c, participants = true ∧ resumes_restored plan c) ext)).
Proof.
  unfold resuming_participants. destruct safe; [|by apply does_ret; exists false].
  destruct participants; cbn.
  2: { apply does_ret. exists true. split_and!; [done..|]. intros _. split; [done|]. split; [by intros c ?%not_elem_of_nil|by intros c [? _]]. }
  eapply does_bind; [apply does_attempt, does_release_participants|by intros e ext []|]. intros o ext [H1 H2]. apply does_ret.
  rewrite app_nil_r. exists (is_ok o). split_and!; [done..|]. intros Ho. split; [done|].
  destruct o as [[]|]; [|done]. destruct (released_all _ _ (conj H1 H2)) as [H3 H4]. split; [done|]. intros c [_ Hc]. by apply H4.
Qed.

Definition releasing_gate (safe gate : bool) : rmo bool :=
  if safe && gate then r ← attempt (finish_local_rescale_gate T (operation_id plan) false None); mret (is_ok r) else mret safe.

Lemma does_release_gate safe gate :
  does (releasing_gate safe gate) (λ r ext, ∃ b, r = Ok b ∧
    Forall (allowed (λ c, c = (CheckpointCoordinator, FinishOperatorRescale (operation_id plan) false None))) ext ∧
    (b = true → safe = true ∧ (gate = true → gate_answered (operation_id plan) false None ext))).
Proof.
  unfold releasing_gate. destruct safe; [|by apply does_ret; exists false].
  destruct gate; cbn; [|by apply does_ret; exists true].
  eapply does_bind; [apply does_attempt, does_finish_gate|by intros e ext []|]. intros o ext [H1 H2]. apply does_ret.
  rewrite app_nil_r. exists (is_ok o). split_and!; [done..|]. intros Ho. split; [done|]. intros _. apply H2. by destruct o as [[]|].
Qed.

(** The transaction was undone: the old graph is installed, and a failure leaves an order
    to recover globally. *)
Definition undone_or_forced (b : bool) m : Prop :=
  phase_value (m_phase m) < 7 ∧ m_graph m = old_graph plan ∧ rm_graph (recovery_of m) = old_graph plan ∧
  ∃ ext, m_log m = L ++ ext ∧ guarded (backward plan) ext ∧
    if b then force_global m = false ∧ backward plan ext ∧ all_resumed (λ c, 3 <= phase_value (m_phase m) ∧ resumes_restored plan c) ext ∧
      (2 <= phase_value (m_phase m) → gate_answered (operation_id plan) false None ext)
    else force_global m = true.

Lemma finish_rollback_spec safe m ext :
  phase_value (m_phase m) < 7 → m_graph m = old_graph plan → recovery_of m = mkRecovery (old_graph plan) false →
  m_log m = L ++ ext → Forall (allowed unresumed) ext → (safe = true → backward plan ext) →
  let '(r, m') := finish_rollback T plan safe m in ∃ b, r = Ok b ∧ undone_or_forced b m'.
Proof.
  intros Hp Hg Hr Hl Hext Hback. unfold finish_rollback. rewrite bind_attempted.
  fold (resuming_participants safe (phase_attempted (m_phase m) PARTICIPANTS)).
  pose proof (does_resume_participants safe (phase_attempted (m_phase m) PARTICIPANTS) m) as H1.
  destruct (resuming_participants _ _ m) as [o1 m1] eqn:E1. destruct H1 as (G1 & R1 & P1 & x1 & L1 & b1 & -> & A1 & N1 & C1).
  rewrite (exec_bind_Ok _ _ _ _ _ E1), bind_attempted.
  fold (releasing_gate b1 (phase_attempted (m_phase m1) CHECKPOINT_GATE)).
  pose proof (does_release_gate b1 (phase_attempted (m_phase m1) CHECKPOINT_GATE) m1) as H2.
  destruct (releasing_gate _ _ m1) as [o2 m2] eqn:E2. destruct H2 as (G2 & R2 & P2 & x2 & L2 & b2 & -> & A2 & C2).
  rewrite (exec_bind_Ok _ _ _ _ _ E2).
  assert (Hguard : guarded (backward plan) (ext ++ x1 ++ x2)).
  { apply guarded_app; [by apply guarded_none|]. intros e1 c e2 E Hc.
    destruct safe; [|rewrite N1 in E by done; cbn in E; exfalso; rewrite E in A2; apply Forall_app in A2 as [_ [A2 _]%Forall_cons]; cbn in A2; by subst c].
    apply backward_app; [by apply Hback|].
    assert (Hn : Forall (allowed neutral) (x1 ++ x2)).
    { apply Forall_app_2; [eapply only_kind; [exact A1|]; by intros [p []]|]. eapply only_kind; [exact A2|]. by intros c' ->. }
    rewrite E in Hn. by apply Forall_app in Hn as [? _]. }
  assert (Hl2 : m_log m2 = L ++ (ext ++ x1 ++ x2)) by (by rewrite L2, L1, Hl, !app_assoc).
  destruct b2.
  - rewrite exec_bind_ret. cbn. exists true. split; [done|]. destruct (C2 eq_refl) as [-> Hgate]. destruct (C1 eq_refl) as [-> Hconf].
    unfold undone_or_forced, force_global. rewrite P2, P1, G2, G1, R2, R1, Hr. split_and!; [done..|]. exists (ext ++ x1 ++ x2).
    split_and!; [done|done|done|apply backward_app; [by apply Hback|]| |].
    + apply Forall_app_2; [eapply only_kind; [exact A1|]; by intros [p []]|]. eapply only_kind; [exact A2|]. by intros c' ->.
    + apply all_resumed_after; [done|]. apply all_resumed_before; [|eapply only_kind; [exact A2|]; by intros c ->].
      destruct Hconf as [H3 H4]. split; [done|]. intros c [Hn Hc]. apply H4. split; [by apply phase_attempted_true|done].
    + intros Hn. do 2 apply gate_app_r. apply Hgate. rewrite P1. by apply phase_attempted_true.
  - set (m3 := set_control (Failover.set_recovery (mkRecovery (rm_graph (recovery_of m2)) true) (m_control m2)) m2).
    rewrite exec_bind_assoc. rewrite (exec_bind_Ok require_global_recovery _ m2 () m3) by done. rewrite exec_bind_assoc.
    pose proof (does_attempt _ _ (does_finish_gate (operation_id plan) true (Some (target_id plan))) m3) as H3.
    destruct (attempt (finish_local_rescale_gate T (operation_id plan) true (Some (target_id plan))) m3) as [[o3|e] m4] eqn:E3;
      destruct H3 as (G3 & R3 & P3 & x3 & L3 & H3); [|done]. rewrite (exec_bind_Ok _ _ _ _ _ E3). cbn. exists false. split; [done|].
    unfold undone_or_forced, force_global. rewrite P3, G3, R3. change (m_phase m3) with (m_phase m2). change (m_graph m3) with (m_graph m2).
    change (recovery_of m3) with (mkRecovery (rm_graph (recovery_of m2)) true). rewrite P2, P1, G2, G1, R2, R1, Hr. split_and!; [done..|].
    exists ((ext ++ x1 ++ x2) ++ x3). rewrite L3. change (m_log m3) with (m_log m2). rewrite Hl2, !app_assoc. split_and!; [done| |done].
    rewrite <-(app_assoc ext x1 x2). apply guarded_app; [done|]. intros e1 c e2 -> Hc. exfalso. destruct H3 as [H3 _].
    apply Forall_app in H3 as [_ [H3 _]%Forall_cons]. cbn in H3. by subst c.
Qed.

(** What is known of the log between the routes and the runtimes. *)
Definition routes_undone (n : Z) (topologies : bool) ext : Prop :=
  Forall (allowed (λ c, before n c ∨ undoing n c)) ext ∧
  (topologies = true → (6 <= n → old_restored ext) ∧ (5 <= n → ∀ p, p ∈ route_peers plan → agreed ext (p, route_rollback))).

Lemma routes_undone_grows n topologies ext ext' :
  routes_undone n topologies ext → Forall (allowed (undoing n)) ext' → routes_undone n topologies (ext ++ ext').
Proof.
  intros [H1 H2] Hext. split; [apply Forall_app_2; [done|]; eapply only_kind; [exact Hext|]; by right|].
  intros Ht. destruct (H2 Ht) as [H3 H4]. split; [intros Hn; destruct (H3 Hn) as [rs ?]; exists rs; set_solver|].
  intros Hn p Hp. by apply agreed_app_l, H4.
Qed.

Lemma backward_undone phase topologies ext :
  undoing_runtimes phase (routes_undone (phase_value phase) topologies) true ext → topologies = true → backward plan ext.
Proof.
  intros [[Hext Hroutes] Hruntimes] Ht. destruct (Hroutes Ht) as [Hold Hr]. specialize (Hruntimes eq_refl).
  split.
  - intros p r Hin Hp. destruct (allowed_sent _ _ _ Hext Hin) as [(_ & _ & _ & E & _)|(_ & _ & E & _)]; [|cbn in E; congruence].
    destruct (E Hp) as [? ?]. by apply Hruntimes.
  - intros p r Hin Hp. destruct (allowed_sent _ _ _ Hext Hin) as [(_ & _ & _ & _ & E & _)|(_ & _ & _ & E & _)]; [|cbn in E; congruence].
    destruct (E Hp) as [? ?]. by apply Hr.
  - intros p Hin. destruct (allowed_sent _ _ _ Hext Hin) as [(_ & _ & _ & _ & _ & E)|(_ & _ & _ & _ & E)]; apply Hold.
    + by destruct (E eq_refl).
    + by apply E.
  - intros c Hin. by destruct (allowed_sent _ _ _ Hext Hin) as [(? & _)|(? & _)].
Qed.

Lemma rollback_spec m : rollbacks_submitted → stopped m →
  let '(r, m') := rollback_local_rescale T plan transition m in undone_or_forced (is_ok r) m'.
Proof.
  intros Hsub [Hp (ext & El & Hext)]. set (phase := m_phase m) in *. set (n := phase_value phase) in *.
  unfold rollback_local_rescale. pose proof (does_restore_topologies phase m eq_refl) as H1.
  destruct (restore_precommit_topologies T plan m) as [o1 m1] eqn:E1. destruct H1 as (_ & _ & P1 & x1 & L1 & topologies & -> & A1 & B1).
  rewrite (exec_bind_Ok _ _ _ _ _ E1).
  assert (HY : routes_undone n topologies (ext ++ x1)).
  { split; [apply Forall_app_2; (eapply only_kind; [done|]); auto|]. intros Ht. destruct (B1 Ht) as [H3 H4].
    split; [intros Hn; destruct (H3 Hn) as [rs ?]; exists rs; set_solver|]. intros Hn p Hpp. by apply agreed_app_r, H4. }
  pose proof (restore_runtime_spec phase (routes_undone n topologies) (routes_undone_grows n topologies) Hsub m1) as H2.
  destruct (restore_precommit_runtime T plan transition m1) as [[b|e] m2] eqn:E2.
  2: { exfalso. apply H2. split; [done|]. exists (ext ++ x1). by rewrite L1, El, app_assoc. }
  destruct H2 as (G2 & R2 & P2 & x2 & L2 & Hx2); [split; [done|]; exists (ext ++ x1); by rewrite L1, El, app_assoc|].
  rewrite (exec_bind_Ok (attempt _) _ _ (Ok b) m2) by (unfold attempt; by rewrite E2).
  pose proof (finish_rollback_spec (b && topologies) m2 x2) as H3. rewrite P2 in H3. specialize (H3 Hp G2 R2 L2).
  assert (Hun : Forall (allowed unresumed) x2).
  { destruct Hx2 as [[Hx2 _] _]. eapply only_kind; [exact Hx2|]. by intros c [(_ & _ & ? & _)|(_ & ? & _)]. }
  specialize (H3 Hun). destruct (finish_rollback T plan (b && topologies) m2) as [o3 m3] eqn:E3.
  destruct H3 as (safe & -> & Hend).
  { intros [-> ->]%andb_prop. by eapply backward_undone. }
  rewrite (exec_bind_Ok _ _ _ _ _ E3). cbn. by destruct safe.
Qed.

End until_commit.

(** ** The operation *)

(** The submissions of the rollback of runtimes do not raise: the wrappers of the retained
    subtasks keep their actors, and Ray takes the calls. *)
Lemma rollbacks_are_submitted plan :
  (∀ v w, v ∈ retained (delta plan) → is_Some (t_task T (new_ref T plan) (xv_id v) w)) →
  (∀ h w, is_ok (t_submit T h (runtime_rollback plan) w).1 = true) → rollbacks_submitted plan.
Proof.
  intros Htask Hsubmit m. unfold retained_calls. revert m. generalize (retained (delta plan)) Htask. clear Htask.
  intros vs. induction vs as [|v vs IH]; intros Htask m; [done|]. rewrite exec_map_cons.
  assert (Hv : is_ok (call_task T (new_ref T plan) (xv_id v) (runtime_rollback plan) m).1 = true).
  { unfold call_task, handle_of. rewrite exec_bind_gets. destruct (Htask v (m_world m)) as [h ->]; [by left|].
    unfold submit, mbind, exec_bind, on_world, on_store, in_control, Failover.outside, Placement.outside.
    specialize (Hsubmit h (world (c_world (m_control m)))). by destruct (t_submit T h _ _) as [[[]|] w]. }
  destruct (call_task _ _ _ _ m) as [[c|] m']; [|done]. specialize (IH (λ u w Hu, Htask u w (list_elem_of_further _ _ _ Hu)) m').
  by destruct (exec_map _ vs m') as [[]].
Qed.

Definition discards (c : Call) : Prop := ∃ operation target, c.2 = DiscardOperatorRescaleState operation target.

Lemma only_reconcile_states cleanups : only discards (reconcile_states T cleanups).
Proof.
  induction cleanups as [|[operation target] cleanups IH]; cbn [reconcile_states]; [apply only_ret|]. only_tac; [|done].
  eapply only_weaken; [apply only_discard|]. intros c E. by exists operation, target.
Qed.

Lemma only_reconcile : only discards (reconcile_pending_rescale_state_cleanup T).
Proof. unfold reconcile_pending_rescale_state_cleanup. only_tac. apply only_reconcile_states. Qed.

(** Steps of the control plane that keep the recovery manager. *)
Definition same_recovery (c c' : control (store W G) H plan_ref (plan_ref + transition_ref) J Vertex (@RecoveryManager F P A H)) : Prop :=
  c_recovery c' = c_recovery c.

#[local] Instance same_recovery_preorder : PreOrder same_recovery.
Proof. split; unfold same_recovery; [done|]. intros c1 c2 c3. congruence. Qed.

Lemma keeps_outside {B} (f : exec (store W G) B) : keeps same_recovery (Failover.outside f).
Proof. intros c. unfold Failover.outside. by destruct (f _). Qed.

#[local] Hint Resolve keeps_outside : keeps.

Lemma only_cleanup_actors K : only K (in_control (cleanup_pending_rescale_actors P0) : rmo ()).
Proof.
  apply only_in_control. change (keeps same_recovery (cleanup_pending_rescale_actors P0)). unfold cleanup_pending_rescale_actors.
  apply keeps_bind; [apply _|apply keeps_gets, _|]. intros pending. apply keeps_exec_each; [apply _|]. intros [j vs].
  apply keeps_bind; [apply _|apply keeps_outside|]. intros _. by apply keeps_modify.
Qed.

Lemma only_reconcile_placement K : only K (in_control (reconcile_pending_placement_cleanup P0) : rmo ()).
Proof.
  apply only_in_control. change (keeps same_recovery (reconcile_pending_placement_cleanup P0)). unfold reconcile_pending_placement_cleanup.
  apply keeps_bind; [apply _|apply keeps_gets, _|]. intros pending. apply keeps_bind; [apply _| |].
  - apply keeps_exec_map; [apply _|]. intros t. apply keeps_bind; [apply _|apply keeps_attempt, keeps_outside|]. intros r. apply keeps_ret, _.
  - intros kept. apply keeps_bind; [apply _|by apply keeps_modify|]. intros _. case_decide; [apply keeps_ret|apply keeps_throw]; apply _.
Qed.

(** ** The operation *)

Lemma only_validate plan : only (λ _, False) (validate_local_rescale T rules P0 plan).
Proof. unfold validate_local_rescale. only_tac. apply only_in_control, keeps_outside. Qed.

Lemma only_begin_placement K plan timeout : only K (begin_rescale_placement R plan timeout : rmo transition_ref).
Proof. unfold begin_rescale_placement. only_tac. apply only_remember_placement. Qed.

(** Nothing was changed. *)
Definition refused L (m m' : Master) : Prop := m_graph m' = m_graph m ∧ recovery_of m' = recovery_of m ∧ m_log m' = L.

(** A transaction has ended, with the log [L] at its start. *)
Inductive decided L plan (transition : transition_ref) (r : outcome ()) m : Prop :=
  | GoesForward : rolled_forward plan L transition r m → decided L plan transition r m
  | GoesBack safe : is_ok r = false → undone_or_forced plan L safe m → decided L plan transition r m.

Lemma transaction_spec plan transition m :
  rollbacks_submitted (marked plan) → m_phase m = INITIAL →
  let '(r, m') := try_except (apply_local_rescale T plan transition) (λ e,
    committed ← attempted COMMITTED;
    if committed : bool then throw e else _ ← rollback_local_rescale T (marked plan) transition; throw e) m in
  decided (m_log m) (marked plan) transition r m'.
Proof.
  intros Hsub Hp. unfold try_except. pose proof (apply_spec (marked plan) (m_log m) transition plan m eq_refl Hp eq_refl) as Ha.
  destruct (apply_local_rescale T plan transition m) as [[r|e] m1].
  { destruct Ha as [[? _]|Ha]; [done|]. by apply GoesForward. }
  rewrite bind_attempted. destruct Ha as [[_ Hs]|Ha].
  - assert (phase_attempted (m_phase m1) COMMITTED = false) as -> by (apply Z.leb_gt; exact (proj1 Hs)).
    pose proof (rollback_spec (marked plan) (m_log m) transition m1 Hsub Hs) as Hr. unfold mbind, exec_bind.
    destruct (rollback_local_rescale _ _ _ m1) as [[r|e'] m2]; by eapply GoesBack.
  - rewrite (proj2 (phase_attempted_true (m_phase m1) COMMITTED)) by apply Ha. by apply GoesForward.
Qed.

(** *** What precedes the transaction *)

Section operation.
Context (target : Z) (parallelism : pyarg) (operation : string) (generation : Z → string) (m0 : Master).

Definition ends (x : outcome () * Master) : Prop :=
  let '(r, m') := x in ∃ ext, Forall (allowed discards) ext ∧
    ((is_ok r = false ∧ refused (m_log m0 ++ ext) m0 m') ∨
     ∃ plan transition, build_plan (m_graph m0) target parallelism operation generation = Ok plan ∧
       decided (m_log m0 ++ ext) (marked plan) transition r m').

Definition quietly m : Prop := ∃ ext, Forall (allowed discards) ext ∧ refused (m_log m0 ++ ext) m0 m.

Lemma quietly_bind {B} (x : rmo B) (f : B → rmo ()) m :
  only discards x → quietly m → (∀ b m1, quietly m1 → m_phase m1 = m_phase m → ends (f b m1)) → ends ((x ≫= f) m).
Proof.
  intros Hx (ext & Hext & Hg & Hr & Hl) Hf. specialize (Hx m). unfold mbind, exec_bind. destruct (x m) as [[b|e] m1];
    destruct Hx as (G1 & R1 & P1 & ext1 & L1 & Hext1).
  - apply Hf; [|done]. exists (ext ++ ext1). split; [by apply Forall_app_2|]. split_and!; [congruence|congruence|]. by rewrite L1, Hl, app_assoc.
  - exists (ext ++ ext1). split; [by apply Forall_app_2|]. left. split; [done|]. split_and!; [congruence|congruence|]. by rewrite L1, Hl, app_assoc.
Qed.
End operation.

(** C19. Provided the calls that submit the rollback of a retained runtime do not raise
    ([rollbacks_submitted]; [unsubmitted_rollback_resumes] is what happens otherwise),
    whatever the tasks, the coordinator and Ray answer, and whichever other calls raise, an
    operation that resizes an operator ends in one of three ways.  It was refused: nothing
    is changed.  It went forward: the new graph is installed for the job and for its recovery, and no task was
    told to resume before every retained runtime and every changed route confirmed the
    commit, the coordinator installed the new graph and reopened its gate, and every source
    accepted the stabilization checkpoint; if it returns, all tasks that take part and keep
    their actors have confirmed that they resume, otherwise a global recovery on the new
    graph is ordered, or only a reservation is left to be released.  It went back: the old
    graph is installed, no commit was sent, and no task was told to resume before everybody
    who was asked to prepare confirmed the rollback; if that did not succeed a global
    recovery is ordered. *)
Theorem rescale_operator_decides target parallelism operation generation timeout m :
  (∀ plan, build_plan (m_graph m) target parallelism operation generation = Ok plan → rollbacks_submitted (marked plan)) →
  ends target parallelism operation generation m
    (rescale_operator T rules P0 R target parallelism operation generation timeout m).
Proof.
  intros Hsub. assert (H0 : quietly m m) by (exists []; split; [done|]; split_and!; [done..|by rewrite app_nil_r]).
  unfold rescale_operator.
  apply quietly_bind; [by apply only_modify|done|]. intros _ m1 H1 _.
  apply quietly_bind; [apply only_cleanup_actors|done|]. intros _ m2 H2 _; clear m1 H1; rename m2 into m1, H2 into H1.
  apply quietly_bind; [apply only_reconcile_placement|done|]. intros _ m2 H2 _; clear m1 H1; rename m2 into m1, H2 into H1.
  apply quietly_bind; [apply only_reconcile|done|]. intros _ m2 H2 _; clear m1 H1; rename m2 into m1, H2 into H1.
  rewrite exec_bind_gets, exec_bind_of_outcome. assert (m_graph m1 = m_graph m) as -> by (by destruct H1 as (? & _ & ? & _)).
  destruct (build_plan _ _ _ _ _) as [plan|e] eqn:Eplan.
  2: { destruct H1 as (ext & ? & ?). exists ext. by split; [|left]. }
  apply quietly_bind; [eapply only_weaken; [apply only_validate|done]|done|]. intros _ m2 (ext1 & Hext1 & H2) _; clear m1 H1.
  rewrite exec_bind_modify. apply quietly_bind; [apply only_begin_placement|by exists ext1|]. clear ext1 Hext1 H2.
  intros transition m1 (ext & Hext & _ & _ & Hl) Hp.
  pose proof (transaction_spec plan transition m1 (Hsub plan eq_refl) Hp) as Ht. rewrite Hl in Ht.
  destruct (try_except _ _ m1) as [r m']. exists ext. split; [done|]. right. by exists plan, transition.
Qed.
End safety.
