(* ===== verification/RescaleExamples.v ===== *)
(** * Rescales of a small job

    [GraphExamples]' job under the job master: the same operator is resized on a cluster
    that obeys, on one where a task rejects the new routes, on one that loses the commit,
    and on one where the call that undoes a runtime cannot be submitted. *)
From Stdlib Require Import QArith.QArith QArith.Qcanon.
From S2P Require Import Prelude Dicts Effects Checkpoints KeyGroups Rows InputBatching Partitioning Graphs Plans LogicalGraph PhysicalGraph Assignment Placement Failover GraphExamples RescaleTransaction RescaleCalls RescaleSafety.
Open Scope Z_scope.

Module RescaleSamples.
Abbreviation Request := (@request unit unit unit unit (list Z) unit).
Abbreviation Graph := (ExecutionGraph unit unit unit unit).
Abbreviation Vertex := (ExecutionVertex unit unit unit).
Abbreviation Store := (store unit string).
Abbreviation Recovery := (@RecoveryManager unit unit unit unit).

Definition fine {X} (x : X) : unit → outcome X * unit := λ w, (Ok x, w).

(** A cluster whose tasks answer [True], except to the requests [rejected], and that takes
    every call except [refused].  The descriptor of a subtask is the parallelism of every
    operator of the graph. *)
Definition tasks (rejected refused : Request → bool) : @task_platform unit unit unit unit unit string (list Z) unit Z unit :=
  mkTasks (λ _ _ _, Some ()) (λ _ _ _, true) (λ _ _ _ w, w) (λ _ _ _ _ _, fine ()) (λ _ _, fine ()) (λ _ _, fine ()) (λ _ _ _, fine ())
    (λ _ _ _ _, fine ())
    (λ _ q w, (if refused q then Err RuntimeError else Ok (), w))
    (λ calls, fine ((λ c, if rejected c.2 then ANone else ATrue) <$> calls))
    (λ _ w, (true, w)) (λ _, false)
    (λ g _ _, Ok ((λ e, jv_concurrency e.2) <$> xg_job_vertices g)) (λ _, []) (λ _, None) (λ _ j, j) id.

Definition sample_rules : @rescale_rules unit := mkRules (λ _, false) (λ _, false) (λ _, true).

Definition control_plane : platform Store unit string plan_ref (plan_ref + transition_ref) Z Vertex Recovery :=
  let quiet {X} (x : X) : Store → outcome X * Store := λ w, (Ok x, w) in
  mkPlatform _ _ _ _ _ _ _ _ (λ w, (0, w)) (λ _, false) (λ w, w) (λ w, (Completed, w)) (λ w, w)
    (quiet true) (quiet ()) (λ _ _, quiet ()) (λ _, quiet ()) (λ _ _ _ _, quiet ()) (λ _, quiet ())
    (λ _, quiet None) (quiet ()) (λ _ w, (Infeasible, w)) (λ _, quiet ()) (λ _, quiet ()) (quiet ())
    (quiet ()) (λ _, quiet ()) (quiet ()) (λ _ _, quiet ()) (mkRecovery deployed false) (λ _, quiet ()) (λ _, quiet true) (quiet ()) (λ _, [])
    (λ _, quiet []) (λ _, quiet true) (λ _, false) (quiet true) (quiet ()) (λ w, w) (λ w, w).

Definition no_groups : ray unit string :=
  mkRay (λ _ _ w, (Err RuntimeError, w)) (λ _ w, (Ok (), w)) (λ _ _ w, (Ok (), w)) (λ w, (Ok [], w)).

(** The job runs, placed by Ray's own scheduler. *)
Definition running : @master unit unit unit unit unit string (list Z) unit Z unit :=
  mkMaster (mkControl FailoverSamples.strategy (Some ()) (Some 0%nat) [] [] (mkRecovery deployed false) JRunning []
      (mkStore [mkPlan [] None [] [] None (Some Placement.NativeStrategy) None false] [] ()))
    deployed [] [] INITIAL [].

Definition nothing (q : Request) : bool := false.
Definition activation (q : Request) : bool := match q with ActivateTopologyReconfiguration _ => true | _ => false end.
Definition route_commit (q : Request) : bool := match q with CommitTopologyReconfiguration _ => true | _ => false end.
Definition runtime_undo (q : Request) : bool := match q with RollbackRuntimeRescale _ => true | _ => false end.

(** The mapper, with [parallelism] subtasks. *)
Definition rescale rejected refused (parallelism : Z) :=
  rescale_operator (tasks rejected refused) sample_rules control_plane no_groups 1 (AInt parallelism) "operation" (λ _, "fresh") None running.

(** The result, the parallelism of the mapper, whether the recovery must be global, and
    how many calls resumed a task. *)
Definition summary rejected refused parallelism :=
  let '(r, m) := rescale rejected refused parallelism in
  (r, jv_concurrency <$> dict_get 1 (xg_job_vertices (m_graph m)), rm_force_global (c_recovery (m_control m)),
   length (List.filter (λ e, match e with Sent (_, ResumeRescale _) => true | _ => false end) (m_log m))).
End RescaleSamples.

Section rescale_samples.
Import RescaleSamples.

(** The operation succeeds: the four, or two, subtasks of the mapper, the two of the source
    and the sink resume. *)
Example rescale_both_ways :
  summary nothing nothing 4 = (Ok (), Some 4, false, 7%nat) ∧ summary nothing nothing 2 = (Ok (), Some 2, false, 5%nat).
Proof. vm_compute. done. Qed.

(** The parallelism is the current one, or none. *)
Example rescale_refused :
  summary nothing nothing 3 = (Err ValueError, Some 3, false, 0%nat) ∧ (rescale nothing nothing 0).1 = Err ValueError.
Proof. vm_compute. done. Qed.

(** A task rejects the new routes: the old subtasks resume. *)
Example rejected_routes_roll_back : summary activation nothing 4 = (Err RuntimeError, Some 3, false, 6%nat).
Proof. vm_compute. done. Qed.

(** A commit that is not confirmed: nothing resumes, and the new graph is to be recovered. *)
Example unconfirmed_commit_forces_recovery : summary route_commit nothing 4 = (Err RuntimeError, Some 4, true, 0%nat).
Proof. vm_compute. done. Qed.

(** The calls that undo the runtimes are made outside of the [try]: if one cannot be
    submitted the rollback still counts as safe, all tasks resume, no global recovery is
    ordered, and no runtime was told to roll back although all were prepared. *)
Example unsubmitted_rollback_resumes :
  summary activation runtime_undo 4 = (Err RuntimeError, Some 3, false, 6%nat) ∧
  (λ p, length (List.filter (λ e, match e with Sent (_, q) => p q | _ => false end) (m_log (rescale activation runtime_undo 4).2))) <$>
    [prepares_runtime; runtime_undo] = [3%nat; 0%nat].
Proof. vm_compute. done. Qed.

Lemma rescale_operator_decides_witness :
  summary nothing nothing 4 = (Ok (), Some 4, false, 7%nat) ∧
  ends (tasks nothing nothing) 1 (AInt 4) "operation" (λ _, "fresh") running (rescale nothing nothing 4).
Proof.
  split; [vm_compute; reflexivity|]. unfold rescale.
  apply (rescale_operator_decides (tasks nothing nothing) sample_rules control_plane no_groups 1 (AInt 4) "operation" (λ _, "fresh") None running).
  intros plan _. apply rollbacks_are_submitted.
  - intros v w _. exact (ex_intro _ tt eq_refl).
  - intros h w. reflexivity.
Defined.
End rescale_samples.
