(* ===== verification/SqlValues.v ===== *)
(** * SQL values of the stateful operators

    Models [src/ray/klein/runtime/operator/sql_value_semantics.py] on NULL, booleans,
    integers, floats and strings: the identity of a value in durable state, NaN and
    infinity tests, and the order of ORDER BY, MIN and MAX.

    A float is its exact value.  [encode_key] of a value is the pickle of its canonical
    form ([src/ray/klein/state/key_encoding.py], [_canonicalize]), in which equal
    numbers of any type are one.  The pickle is an interface: it determines the canonical
    form, but pickling a row also tells which of its strings are one object, because
    pickle refers back to an object it has already written.  A row is therefore an
    object: its values, and how its strings are shared. *)
From Stdlib Require Import QArith.QArith QArith.Qcanon Floats.SpecFloat Structures.OrdersEx.
From S2P Require Import Prelude Durations.
Open Scope Z_scope.

(** ** Values *)

Inductive float := FNaN | FInf (negative : bool) | FFin (q : Qc).

Inductive sqlval :=
  | SNull
  | SBool (b : bool)
  | SInt (z : Z)
  | SFloat (f : float)
  | SStr (s : string).

#[export] Instance Qc_eq_decision : EqDecision Qc := Qc_eq_dec.
#[export] Instance float_eq_dec : EqDecision float.
Proof. solve_decision. Defined.
#[export] Instance sqlval_eq_dec : EqDecision sqlval.
Proof. solve_decision. Defined.

Definition Qc_of_Z (z : Z) : Qc := Q2Qc (inject_Z z).

Lemma Qc_of_Z_inj x y : Qc_of_Z x = Qc_of_Z y → x = y.
Proof. intros E%Q2Qc_eq_iff. by apply inject_Z_injective. Qed.
Definition Z_of_bool (b : bool) : Z := if b then 1 else 0.

(** ** Floats of integers *)

(** A binary64 as an exact float. *)
Definition float_of_SF (x : spec_float) : float :=
  match x with
  | S754_nan => FNaN
  | S754_infinity s => FInf s
  | S754_zero _ => FFin (Qc_of_Z 0)
  | S754_finite s m e =>
      let m := if s then Zneg m else Zpos m in
      FFin (if 0 <=? e then Qc_of_Z (m * 2 ^ e) else Q2Qc (Qmake m (Z.to_pos (2 ^ (- e)))))
  end.

(** The double nearest to a quotient of integers: [float(Fraction(n, d))] and [n / d]. *)
Definition nearest (n d : Z) : spec_float := SFdiv 53 1024 (SF_of_Z n) (SF_of_Z d).

(** [float(z)]: an integer that rounds to no double raises. *)
Definition int_to_float (z : Z) : outcome float :=
  match float_of_SF (nearest z 1) with FInf _ => Err OverflowError | f => Ok f end.

(** ** Tests *)

Definition is_nan_value (v : sqlval) : bool := match v with SFloat FNaN => true | _ => false end.

(** [math.isinf] converts an integer to a double first; only [TypeError] and
    [ValueError] are caught. *)
Definition infinity_sign (v : sqlval) : outcome Z :=
  match v with
  | SFloat (FInf negative) => Ok (if negative then -1 else 1)
  | SInt z => _ ← int_to_float z; Ok 0
  | _ => Ok 0
  end.


(** ** Canonical form and state keys *)

Inductive canon :=
  | CNull
  | CNumber (q : Qc)
  | CInf (negative : bool)
  | CNaN
  | CStr (s : string).

#[export] Instance canon_eq_dec : EqDecision canon.
Proof. solve_decision. Defined.

(** [_canonicalize] after [_normalize_nan]. *)
Definition canonical (v : sqlval) : canon :=
  match v with
  | SNull => CNull
  | SBool b => CNumber (Qc_of_Z (Z_of_bool b))
  | SInt z => CNumber (Qc_of_Z z)
  | SFloat FNaN => CNaN
  | SFloat (FInf negative) => CInf negative
  | SFloat (FFin q) => CNumber q
  | SStr s => CStr s
  end.

(** A row object: the values by column, and the sharing of its strings: for each string
    that pickle meets (column names and values, in its order), the number of the object
    it is, objects being numbered as they come.  Storing a row and reading it back keeps
    both. *)
Abbreviation sqlvalues := (gmap string sqlval).
Record sqlrow := mkSqlRow { row_data : sqlvalues; row_sharing : list nat }.

#[export] Instance sqlrow_eq_dec : EqDecision sqlrow.
Proof. solve_decision. Defined.

Definition canonical_row (row : sqlrow) : gmap string canon := canonical <$> row_data row.

(** The pickle of a canonical value, and of a canonical row with its sharing. *)
Class CanonPickle := {
  pickle_value : canon → bytes;
  pickle_row : gmap string canon → list nat → bytes;
  pickle_value_inj : Inj (=) (=) pickle_value;
  pickle_row_canon c s c' s' : pickle_row c s = pickle_row c' s' → c = c'
}.
#[export] Existing Instance pickle_value_inj.

(** [state_value_key] of a value and of a row. *)
Definition state_value_key `{CanonPickle} (v : sqlval) : bytes := pickle_value (canonical v).
Definition state_row_key `{CanonPickle} (row : sqlrow) : bytes := pickle_row (canonical_row row) (row_sharing row).

(** Rows with one key are equal by value; the converse takes equal sharing. *)
Lemma state_row_key_canonical `{CanonPickle} x y : state_row_key x = state_row_key y → canonical_row x = canonical_row y.
Proof. apply pickle_row_canon. Qed.

(** ** Order *)

(** A number as Python compares it: exactly, across types. *)
Inductive extended := NegInf | Finite (q : Qc) | PosInf.

Definition number_of (v : sqlval) : option extended :=
  match v with
  | SBool b => Some (Finite (Qc_of_Z (Z_of_bool b)))
  | SInt z => Some (Finite (Qc_of_Z z))
  | SFloat (FFin q) => Some (Finite q)
  | SFloat (FInf negative) => Some (if negative then NegInf else PosInf)
  | _ => None
  end.

Definition compare_extended (x y : extended) : comparison :=
  match x, y with
  | NegInf, NegInf | PosInf, PosInf => Eq
  | NegInf, _ | _, PosInf => Lt
  | _, NegInf | PosInf, _ => Gt
  | Finite q, Finite r => Qccompare q r
  end.

(** [left > right] and [left < right] at once; unlike types raise. *)
Definition python_compare (left right : sqlval) : outcome comparison :=
  match left, right with
  | SStr s, SStr t => Ok (String.compare s t)
  | _, _ =>
      match number_of left, number_of right with
      | Some x, Some y => Ok (compare_extended x y)
      | _, _ => Err TypeError
      end
  end.

Definition compare_non_null_values (left right : sqlval) : outcome Z :=
  if is_nan_value left || is_nan_value right then
    Ok (if is_nan_value left && is_nan_value right then 0 else if is_nan_value left then 1 else -1)
  else c ← python_compare left right; Ok (match c with Gt => 1 | Lt => -1 | Eq => 0 end).

(** ** Arithmetic results *)

Definition float_of_fraction (q : Qc) : float := float_of_SF (nearest (Qnum q) (Zpos (Qden q))).

Definition SF_of_float (f : float) : spec_float :=
  match f with
  | FNaN => S754_nan
  | FInf s => S754_infinity s
  | FFin q => nearest (Qnum q) (Zpos (Qden q))
  end.

(** [value / count] for a sum and a positive count. *)
Definition true_divide (value : sqlval) (count : Z) : outcome sqlval :=
  match value with
  | SFloat f => Ok (SFloat (float_of_SF (SFdiv 53 1024 (SF_of_float f) (SF_of_Z count))))
  | SInt z =>
      match float_of_SF (nearest z count) with
      | FInf _ => Err OverflowError
      | f => Ok (SFloat f)
      end
  | _ => Err TypeError
  end.

(** ** Facts *)

(** Values that may meet in one MIN, MAX or ORDER BY column. *)
Definition same_kind (v w : sqlval) : Prop :=
  match v, w with
  | SNull, _ | _, SNull => False
  | SStr _, SStr _ => True
  | SStr _, _ | _, SStr _ => False
  | _, _ => True
  end.

(** The order as a comparison of ranks: NaN is the greatest number. *)
Inductive rank := RNumber (x : extended) | RNaN | RStr (s : string).

Definition rank_of (v : sqlval) : option rank :=
  match v with
  | SNull => None
  | SStr s => Some (RStr s)
  | SFloat FNaN => Some RNaN
  | _ => RNumber <$> number_of v
  end.

Definition compare_rank (x y : rank) : comparison :=
  match x, y with
  | RStr s, RStr t => String.compare s t
  | RNaN, RNaN => Eq
  | RNaN, _ => Gt
  | _, RNaN => Lt
  | RNumber x, RNumber y => compare_extended x y
  | RStr _, _ => Gt
  | _, RStr _ => Lt
  end.

Definition comparison_Z (c : comparison) : Z := match c with Gt => 1 | Lt => -1 | Eq => 0 end.

Lemma compare_non_null_rank v w x y :
  same_kind v w → rank_of v = Some x → rank_of w = Some y →
  compare_non_null_values v w = Ok (comparison_Z (compare_rank x y)).
Proof.
  destruct v as [|?|?|[|[]|?]|?], w as [|?|?|[|[]|?]|?]; cbn; try done; intros _ [= <-] [= <-]; try done.
Qed.

(** A three-way comparison that decides a total order. *)
Class TotalCompare {A} (cmp : A → A → comparison) : Prop := {
  compare_eq x y : cmp x y = Eq ↔ x = y;
  compare_opp x y : cmp y x = CompOpp (cmp x y);
  compare_trans x y z : cmp x y = Lt → cmp y z = Lt → cmp x z = Lt
}.

#[export] Instance Qccompare_total : TotalCompare Qccompare.
Proof.
  split.
  - intros x y. by rewrite <-Qceq_alt.
  - intros x y. destruct (Qccompare x y) eqn:E; cbn.
    + apply Qceq_alt in E as ->. by apply Qceq_alt.
    + apply Qclt_alt in E. by apply Qcgt_alt.
    + apply Qcgt_alt in E. by apply Qclt_alt.
  - intros x y z. rewrite <-!Qclt_alt. apply Qclt_trans.
Qed.

#[export] Instance string_compare_total : TotalCompare String.compare.
Proof.
  split.
  - intros x y. split; [apply String.compare_eq_iff|intros ->].
    pose proof (String.compare_antisym y y) as E. by destruct (String.compare y y).
  - intros x y. apply String.compare_antisym.
  - intros x y z. exact (@StrictOrder_Transitive _ _ String_as_OT.lt_strorder x y z).
Qed.

#[export] Instance compare_extended_total : TotalCompare compare_extended.
Proof.
  split.
  - intros [|x|] [|y|]; cbn; try (split; congruence). rewrite compare_eq. split; congruence.
  - intros [|x|] [|y|]; cbn; try done. apply compare_opp.
  - intros [|x|] [|y|] [|z|]; cbn; try done. apply compare_trans.
Qed.

#[export] Instance compare_rank_total : TotalCompare compare_rank.
Proof.
  split.
  - intros [x| |x] [y| |y]; cbn; try (split; congruence); rewrite compare_eq; split; congruence.
  - intros [x| |x] [y| |y]; cbn; try done; apply compare_opp.
  - intros [x| |x] [y| |y] [z| |z]; cbn; try done; apply compare_trans.
Qed.

Section total_compare.
Context {A} (cmp : A → A → comparison) `{!TotalCompare cmp}.

Lemma compare_refl x : cmp x x = Eq.
Proof. by apply compare_eq. Qed.

(** The order it decides. *)
Definition cmp_le (x y : A) : Prop := cmp x y ≠ Gt.

#[export] Instance cmp_le_dec x y : Decision (cmp_le x y).
Proof. unfold cmp_le. apply _. Defined.

Lemma cmp_le_refl x : cmp_le x x.
Proof. unfold cmp_le. by rewrite compare_refl. Qed.

Lemma cmp_le_trans x y z : cmp_le x y → cmp_le y z → cmp_le x z.
Proof.
  unfold cmp_le. intros Hxy Hyz. destruct (cmp x y) eqn:E1; [| |done].
  - apply compare_eq in E1 as ->. done.
  - destruct (cmp y z) eqn:E2; [| |done].
    + apply compare_eq in E2 as <-. by rewrite E1.
    + by rewrite (compare_trans (cmp := cmp) _ _ _ E1 E2).
Qed.

Lemma cmp_le_antisym x y : cmp_le x y → cmp_le y x → x = y.
Proof.
  unfold cmp_le. rewrite (compare_opp (cmp := cmp) x y). destruct (cmp x y) eqn:E; cbn; [by apply compare_eq in E|done|done].
Qed.

Lemma cmp_le_total x y : cmp_le x y ∨ cmp_le y x.
Proof. unfold cmp_le. rewrite (compare_opp (cmp := cmp) x y). destruct (cmp x y); cbn; auto. Qed.

Lemma cmp_not_le x y : ¬ cmp_le x y → cmp y x = Lt.
Proof. unfold cmp_le. rewrite (compare_opp (cmp := cmp) x y). destruct (cmp x y); cbn; [by intros []|by intros []|done]. Qed.
End total_compare.

(** Canonical values have ranks, one each. *)
Lemma canonical_rank v w : v ≠ SNull → w ≠ SNull → canonical v = canonical w ↔ rank_of v = rank_of w.
Proof.
  destruct v as [|?|?|[|[]|?]|?], w as [|?|?|[|[]|?]|?]; cbn; intros ? ?; try done; split; congruence.
Qed.

Lemma rank_of_Some v : v ≠ SNull → ∃ x, rank_of v = Some x.
Proof. destruct v as [|?|?|[|?|?]|?]; cbn; intros ?; try done; by eexists. Qed.

(** ** Countability, for concrete codecs *)

#[export] Instance Qc_countable : Countable Qc :=
  inj_countable' (A := Z * positive) (λ q : Qc, (Qnum q, Qden q)) (λ '(n, d), Q2Qc (Qmake n d))
    ltac:(by intros [[n d] Hq]; apply Qc_is_canon; cbn; apply Qred_correct).

#[export] Instance float_countable : Countable float :=
  inj_countable' (A := () + bool + Qc)
    (λ f, match f with FNaN => inl (inl ()) | FInf b => inl (inr b) | FFin q => inr q end)
    (λ x, match x with inl (inl _) => FNaN | inl (inr b) => FInf b | inr q => FFin q end) ltac:(by intros []).

#[export] Instance sqlval_countable : Countable sqlval :=
  inj_countable' (A := () + bool + Z + float + string)
    (λ v, match v with SNull => inl (inl (inl (inl ()))) | SBool b => inl (inl (inl (inr b))) | SInt z => inl (inl (inr z))
          | SFloat f => inl (inr f) | SStr s => inr s end)
    (λ x, match x with inl (inl (inl (inl _))) => SNull | inl (inl (inl (inr b))) => SBool b | inl (inl (inr z)) => SInt z
          | inl (inr f) => SFloat f | inr s => SStr s end) ltac:(by intros []).

#[export] Instance sqlrow_countable : Countable sqlrow :=
  inj_countable' (λ r, (row_data r, row_sharing r)) (λ '(d, s), mkSqlRow d s) ltac:(by intros []).

#[export] Instance canon_countable : Countable canon :=
  inj_countable' (A := () + Qc + bool + () + string)
    (λ c, match c with CNull => inl (inl (inl (inl ()))) | CNumber q => inl (inl (inl (inr q))) | CInf b => inl (inl (inr b))
          | CNaN => inl (inr ()) | CStr s => inr s end)
    (λ x, match x with inl (inl (inl (inl _))) => CNull | inl (inl (inl (inr q))) => CNumber q | inl (inl (inr b)) => CInf b
          | inl (inr _) => CNaN | inr s => CStr s end) ltac:(by intros []).
