(* ===== verification/SqlState.v ===== *)
(** * Stateful SQL operators: what they share

    The SQL join, aggregate and Top-N operators of [src/ray/klein/runtime/operator]
    are managed-state operators that register no timers and keep one value or list per
    key, in the default namespace.  This file gives them one step of
    [process_element], the deletion of a list item, and the choice of the time to live
    made by their [open]. *)
From S2P Require Import Prelude Concrete Durations KeyGroups StateCodec StateBackend BackendContract ManagedState Rows SqlValues.
Open Scope Z_scope.

(** [self._configured_ttl or default_ttl]: a [timedelta] of zero is false. *)
Definition effective_ttl (configured default : option Z) : option Z :=
  match configured with Some us => if us =? 0 then default else configured | None => default end.

(** [StateTTLConfig(ttl)], with the duration in microseconds. *)
Definition StateTTLConfig_init (us : Z) : outcome StateTTLConfig :=
  if us <=? 0 then Err ValueError
  else ms ← timedelta_milliseconds us; Ok (mkStateTTLConfig (Z.max 1 ms) ON_CREATE_AND_WRITE NEVER_RETURN_EXPIRED).

(** [_state_descriptor(name, ttl)]. *)
Definition sql_state_descriptor {V} (ser : Serializer V) (name : bytes) (ttl : option Z) : outcome (StateDescriptor V) :=
  config ← match ttl with None => Ok None | Some us => c ← StateTTLConfig_init us; Ok (Some c) end;
  Ok (mkStateDescriptor name ser config).

(** ** One element of an operator without timers *)

Section untimed.
Context {B K NS V R In : Type} `{Countable K, Countable NS, !ManagedStateBackend B K NS V, !KeyCodec K, !Blake2b}
  (descriptors : StateDescriptor V → Prop) (universe : K → NS → Prop) (repr : B → keyed_model K NS V → Prop)
  `{!BackendRefines B K NS V descriptors universe repr} (clock : nat → Z) (cfg : operator_config)
  (h : @operator_hooks B K NS In R).

Implicit Types (a : op_model K NS V R) (r : In) (k : K).

(** A record the operator accepts: its key and time, and a key group it owns. *)
Definition accepted k (t : option Z) r : Prop :=
  (∃ ts, key_and_timestamp h r = Ok (k, ts) ∧ check_timestamp ts = Ok t) ∧
  ∃ g, key_group_for_key k (AInt (oc_max_parallelism cfg)) = Ok g ∧ KeyGroupRange_contains (oc_key_group_range cfg) g = true.

Lemma triple_untimed_element r k t a (Q : op_model K NS V R → Prop) :
  accepted k t r → after_time_advanced h = mret () →
  triple repr (a_bind k t a) (process_managed_element h r) (λ _ a', Q a' ∧ km_timers (am_backend a') = ∅) →
  triple repr a (process_element (V := V) clock cfg h r) (λ _ a', Q a' ∧ km_timers (am_backend a') = ∅).
Proof.
  intros [(ts & Hkt & Hts) (g & Hg & Hrange)] Hafter Hbody. unfold process_element. rewrite Hkt.
  eapply triple_runs; [apply runs_lift|]. cbn [fst snd]. rewrite Hts. eapply triple_runs; [apply runs_lift|].
  rewrite Hg. eapply triple_runs; [apply runs_lift|]. rewrite Hrange. cbn [negb].
  eapply triple_runs; [by apply (runs_bind_key descriptors universe repr)|].
  eapply triple_bind; [exact Hbody|]. intros ? a' [HQ Ht].
  eapply triple_runs; [apply (triple_no_processing_timers descriptors universe repr); by rewrite Ht|].
  cbn [for_each]. eapply triple_runs; [apply runs_ret|]. rewrite Hafter. eapply triple_runs; [apply runs_ret|].
  eapply triple_mono; [apply (triple_cleanup descriptors universe repr)|]. by intros ? ? [_ ->].
Qed.

Lemma runs_collect_all (rs : list R) a : runs repr a (for_each collect rs) () (a_collect rs a).
Proof.
  revert a. induction rs as [|x rs IH]; intros a; cbn [for_each]; [rewrite a_collect_nil; apply runs_ret|].
  assert (a_collect (x :: rs) a = a_collect rs (a_collect [x] a)) as -> by (by rewrite a_collect_app).
  eapply triple_runs; [apply runs_collect|]. apply IH.
Qed.
End untimed.

(** ** Deleting an item of a list state *)

Section list_deletion.
Context {B K NS A R : Type} `{Countable K, Countable NS, !ManagedStateBackend B K NS (list A)}
  (descriptors : StateDescriptor (list A) → Prop) (universe : K → NS → Prop) (repr : B → keyed_model K NS (list A) → Prop)
  `{!BackendRefines B K NS (list A) descriptors universe repr} (clock : nat → Z).

Implicit Types (a : op_model K NS (list A) R) (k : K) (ns : NS) (d : StateDescriptor (list A)).

(** A list state never holds an empty list: [nonempty] is what is stored for [l]. *)
Definition stored_list (l : list A) : option (list A) := match l with [] => None | _ => Some l end.

Lemma default_stored_list l : default [] (stored_list l) = l.
Proof. by destruct l. Qed.

Definition a_store d k ns (l : list A) a : op_model K NS (list A) R :=
  a_with_backend (m_update (partial_alter (λ _, stored_list l) (sd_name d, k, ns))) a.

Lemma runs_list_delitem a d k ns i :
  descriptors d → km_key (am_backend a) = Some k → universe k ns → (i < length (list_at a d k ns))%nat →
  runs repr a (list_delitem clock d ns i) () (a_store d k ns (delete i (list_at a d k ns)) a).
Proof.
  intros Hd Hk Hu Hi. unfold list_delitem. eapply triple_runs; [by apply (runs_list_values descriptors universe repr)|].
  rewrite (proj2 (Nat.ltb_lt _ _) Hi). unfold a_store. case_bool_decide as Hnil.
  - rewrite Hnil. by apply (runs_clear descriptors universe repr).
  - destruct (delete i (list_at a d k ns)) as [|x l] eqn:E; [done|]. by apply (runs_value_set descriptors universe repr).
Qed.

Lemma runs_list_append_stored a d k ns x :
  descriptors d → km_key (am_backend a) = Some k → universe k ns →
  runs repr a (list_append clock d ns x) () (a_store d k ns (list_at a d k ns ++ [x]) a).
Proof.
  intros Hd Hk Hu. unfold a_store. assert (stored_list (list_at a d k ns ++ [x]) = Some (list_at a d k ns ++ [x])) as ->
    by (by destruct (list_at a d k ns)).
  by apply (runs_list_append descriptors universe repr).
Qed.
End list_deletion.

(** ** Canonical rows *)

(** Rows of a changelog in canonical form. *)
Definition canonical_change (r : Row sqlrow) : Row (gmap string canon) := mkRow (canonical_row (row_values r)) (row_changelog r).

(** Counting in a list by a decidable equality. *)
Section counts.
Context {A : Type} `{EqDecision A}.

Abbreviation count l k := (Z.of_nat (count_occ (decide_rel (=)) l k)).

Lemma count_cons (x k : A) l : count (x :: l) k = (if decide (x = k) then 1 else 0) + count l k.
Proof. cbn [count_occ]. unfold decide_rel, decide. destruct (EqDecision0 x k); lia. Qed.

Lemma lookup_count `{Countable A} (m : gmap A Z) (x k : A) v :
  default 0 (<[x := v]> m !! k) = if decide (x = k) then v else default 0 (m !! k).
Proof. case_decide as Hx; [subst; by rewrite lookup_insert_eq|by rewrite lookup_insert_ne]. Qed.
End counts.

(** What a finer key permutes, a coarser one permutes. *)
Lemma fmap_Permutation_through {A B C} (f : A → B) (g : A → C) l1 l2 :
  (∀ x y, f x = f y → g x = g y) → f <$> l1 ≡ₚ f <$> l2 → g <$> l1 ≡ₚ g <$> l2.
Proof.
  intros Hfg (l & E & Hp)%Permutation_map_inv. rewrite Hp. clear Hp. revert l E.
  induction l1 as [|x l1 IH]; intros [|y l] E; try discriminate E; [done|]. injection E as E1 E2.
  rewrite !fmap_cons, (Hfg x y E1). constructor. by apply IH.
Qed.

(** ** Samples *)

(** A pickle that writes the value and the sharing. *)
#[program] Definition sql_sample_pickle : CanonPickle := {|
  pickle_value := countable_dumps;
  pickle_row c sharing := countable_dumps (c, sharing)
|}.
Next Obligation. intros x y E%(f_equal (countable_loads (A := canon))). rewrite !countable_loads_dumps in E. by injection E. Qed.
Next Obligation.
  intros c s c' s' E%(f_equal (countable_loads (A := gmap string canon * list nat))). rewrite !countable_loads_dumps in E.
  by injection E.
Qed.
