(* ===== verification/SqlJoin.v ===== *)
(** * The regular SQL join

    Models [src/ray/klein/runtime/operator/sql_join_operator.py]: an inner join of
    two dynamic tables, one list of rows per side and join key in managed state; a change
    of one table is joined with the rows the other one has.

    Rows are the columns the code reads ([getitem]) and Python's [==] on them ([eqb]);
    what an output row holds ([merge], the code's [{**left, **right}]) is a parameter.
    A join key is encoded with the sharing of its strings, as a group key is. *)
From S2P Require Import Prelude Concrete KeyGroups StateCodec StateBackend BackendContract ManagedState Rows SqlState.
Open Scope Z_scope.

Section sql_join.
Context {B Val D In : Type}.
(** A join key as it is encoded: the tuple of its column values, and the sharing of
    their strings. *)
Abbreviation K := (list Val * list nat)%type.
(** The default namespace. *)
Abbreviation NS := unit.
Abbreviation V := (list D).
Abbreviation R := (Row D).
Context `{ManagedStateBackend B K NS V, KeyCodec K, Blake2b} (clock : nat → Z).

Context (getitem : D → string → outcome Val) (is_none : Val → bool) (eqb : D → D → bool) (merge : D → D → D)
  (input_tag : In → option Z) (block_of : In → option (Row D)) (record_timestamp : In → option pyarg)
  (key_sharing : In → list nat)
  (left_keys right_keys : list string) (left_state right_state : StateDescriptor V).

(** [SQLJoinKeySelector.for_record]. *)
Definition for_record (r : In) : outcome (list Val) :=
  mapM_outcome (λ key, match block_of r with None => Err TypeError | Some b => getitem (row_values b) key end)
    (if bool_decide (input_tag r = Some 0) then left_keys else right_keys).

Definition sql_join_key_and_timestamp (r : In) : outcome (K * option pyarg) :=
  if negb (bool_decide (input_tag r = Some 0) || bool_decide (input_tag r = Some 1)) then Err ValueError
  else key ← for_record r; Ok ((key, key_sharing r), record_timestamp r).

(** [any(record.block[field] is None for field in key_fields)]. *)
Fixpoint any_none (row : D) (fields : list string) : outcome bool :=
  match fields with
  | [] => Ok false
  | field :: fields => v ← getitem row field; if is_none v then Ok true else any_none row fields
  end.

(** [_retract]: the loop over [enumerate(state)], left at the first equal row. *)
Fixpoint retract_from (fuel : nat) (state : StateDescriptor V) (row : D) (index : nat) : op B R unit :=
  match fuel with
  | O => raise RuntimeError
  | S fuel =>
      item ← list_getitem clock state () index;
      match item with
      | None => mret ()
      | Some existing =>
          if eqb existing row then list_delitem clock state () index else retract_from fuel state row (S index)
      end
  end.

Definition retract (state : StateDescriptor V) (row : D) : op B R unit :=
  λ s, retract_from (list_fuel clock state () s) state row 0 s.

Definition sql_join_process (r : In) : op B R unit :=
  match block_of r with
  | None => mret ()
  | Some block =>
      let is_left := bool_decide (input_tag r = Some 0) in
      null_key ← lift (any_none (row_values block) (if is_left then left_keys else right_keys));
      if null_key : bool then mret ()
      else
        let own := if is_left then left_state else right_state in
        let other := if is_left then right_state else left_state in
        let row := row_values block in
        let kind := row_kind_of block in
        let output_kind := if is_addition kind then INSERT else DELETE in
        _ ← list_for clock other () (λ _ counterpart,
              collect (mkRow (if is_left then merge row counterpart else merge counterpart row) (Some output_kind)));
        if is_addition kind then list_append clock own () row else retract own row
  end.

Definition SQLRegularJoinOperator : @operator_hooks B K NS In R :=
  mkHooks sql_join_process (λ _, mret ()) (mret ()) sql_join_key_and_timestamp.
End sql_join.

(** The descriptors chosen by [open]. *)
Definition sql_join_open {D} (ser : Serializer (list D)) (left_ttl right_ttl default_ttl : option Z)
    : outcome (StateDescriptor (list D) * StateDescriptor (list D)) :=
  l ← sql_state_descriptor ser (String.list_byte_of_string "sql-join-left") (effective_ttl left_ttl default_ttl);
  r ← sql_state_descriptor ser (String.list_byte_of_string "sql-join-right") (effective_ttl right_ttl default_ttl);
  Ok (l, r).


(** ** The join of the tables *)

Lemma any_none_spec {Val D} (getitem : D → string → outcome Val) (is_none : Val → bool) row fields k :
  mapM_outcome (getitem row) fields = Ok k → any_none getitem is_none row fields = Ok (existsb is_none k).
Proof.
  revert k. induction fields as [|field fields IH]; intros k; cbn [mapM_outcome any_none]; [by intros [= <-]|].
  destruct (getitem row field) as [v|]; [|done]. destruct (mapM_outcome _ fields) as [vs|]; [|done]. intros [= <-].
  rewrite bind_Ok. cbn [existsb]. rewrite (IH vs) by done. by destruct (is_none v).
Qed.

Section tables.
Context {Val D : Type} `{EqDecision Val, EqDecision D} (is_none : Val → bool) (merge : D → D → D)
  (key : bool → D → list Val).
Implicit Types (t : list D) (tables : bool → list D) (left : bool).

Definition null (k : list Val) : bool := existsb is_none k.

(** SQL equality of the join columns: NULL equals nothing. *)
Definition joins (l r : D) : Prop := key true l = key false r ∧ null (key true l) = false.

#[export] Instance joins_dec l r : Decision (joins l r).
Proof. unfold joins. apply _. Defined.

(** The inner join of two tables. *)
Definition inner_join (ls rs : list D) : list D :=
  l ← ls; r ← rs; if decide (joins l r) then [merge l r] else [].

(** The output rows a row of one side makes with a table of the other. *)
Definition pairs_of left (row : D) t : list D :=
  (λ c, if left then merge row c else merge c row) <$>
    filter (λ c, key (negb left) c = key left row ∧ null (key left row) = false) t.

Definition alter_table left (f : list D → list D) tables : bool → list D :=
  λ side, if decide (side = left) then f (tables side) else tables side.

Definition join_of tables : list D := inner_join (tables true) (tables false).

Lemma inner_join_perm_l t1 t2 rs : t1 ≡ₚ t2 → inner_join t1 rs ≡ₚ inner_join t2 rs.
Proof. intros Hp. unfold inner_join. by rewrite Hp. Qed.

Lemma bind_if_filter {E} (P : D → Prop) `{∀ x, Decision (P x)} (g : D → E) (l : list D) :
  (l ≫= λ x, if decide (P x) then [g x] else []) = g <$> filter P l.
Proof.
  induction l as [|x l IH]; [done|]. rewrite bind_cons, filter_cons, IH. by case_decide.
Qed.

Lemma inner_join_cons_l row ls rs :
  inner_join (row :: ls) rs = pairs_of true row rs ++ inner_join ls rs.
Proof.
  unfold inner_join, pairs_of. rewrite bind_cons. f_equal. rewrite bind_if_filter. f_equal.
  apply filter_ext_in. intros c _. unfold joins. cbn [negb]. intuition congruence.
Qed.

Lemma inner_join_nil_r ls : inner_join ls [] = [].
Proof. unfold inner_join. induction ls as [|x ls IH]; [done|]. by rewrite bind_cons, IH. Qed.

Lemma inner_join_cons_r row ls rs :
  inner_join ls (row :: rs) ≡ₚ pairs_of false row ls ++ inner_join ls rs.
Proof.
  induction ls as [|x ls IH]; [done|]. rewrite !inner_join_cons_l, IH. unfold pairs_of.
  rewrite !filter_cons. cbn [negb].
  assert (key false row = key true x ∧ null (key true x) = false ↔ key true x = key false row ∧ null (key false row) = false)
    as Hiff by (intuition congruence).
  destruct (decide (key true x = key false row ∧ null (key false row) = false)) as [Hx|Hx].
  - rewrite decide_True by tauto. cbn [fmap list_fmap app]. rewrite Permutation_app_swap_app. constructor. done.
  - rewrite decide_False by tauto. apply Permutation_app_swap_app.
Qed.

Lemma inner_join_perm_r ls t1 t2 : t1 ≡ₚ t2 → inner_join ls t1 ≡ₚ inner_join ls t2.
Proof.
  induction 1 as [|x t1 t2 _ IH|x y t|t1 t2 t3 _ IH1 _ IH2]; [done| | |by rewrite IH1].
  - rewrite !inner_join_cons_r, IH. done.
  - rewrite !inner_join_cons_r. apply Permutation_app_swap_app.
Qed.

(** A row more in one table: the pairs it makes with the other one. *)
Lemma join_of_more left row tables t :
  tables left ≡ₚ row :: t →
  join_of tables ≡ₚ pairs_of left row (tables (negb left)) ++ join_of (alter_table left (λ _, t) tables).
Proof.
  unfold join_of, alter_table. intros Hp. destruct left; cbn -[inner_join pairs_of].
  - by rewrite (inner_join_perm_l _ _ _ Hp), inner_join_cons_l.
  - by rewrite (inner_join_perm_r _ _ _ Hp), inner_join_cons_r.
Qed.
End tables.

(** ** The operator on the abstract backend *)

Section sql_join_proof.
Context {B Val D In : Type} `{Countable Val, EqDecision D}.
Abbreviation K := (list Val * list nat)%type.
Abbreviation V := (list D).
Abbreviation R := (Row D).
Context `{!ManagedStateBackend B K unit V, !KeyCodec K, !Blake2b}
  (descriptors : StateDescriptor V → Prop) (universe : K → unit → Prop) (repr : B → keyed_model K unit V → Prop)
  `{!BackendRefines B K unit V descriptors universe repr} (clock : nat → Z) (cfg : operator_config).

Context (getitem : D → string → outcome Val) (is_none : Val → bool) (eqb : D → D → bool) (merge : D → D → D)
  (input_tag : In → option Z) (block_of : In → option R) (record_timestamp : In → option pyarg) (key_sharing : In → list nat)
  (left_keys right_keys : list string) (left_state right_state : StateDescriptor V).

(** The side of an input, the row it changes, the join key of a row, and how the strings
    of a join key are shared. *)
Context (on_left : In → bool) (row_of : In → R) (key : bool → D → list Val) (share : list Val → list nat).

Implicit Types (a : op_model K unit V R) (k : list Val) (r : In) (left : bool).

Abbreviation hooks := (SQLRegularJoinOperator clock getitem is_none eqb merge input_tag block_of record_timestamp key_sharing
  left_keys right_keys left_state right_state).

(** The key under which the rows of a join key are stored. *)
Definition join_ident k : K := (k, share k).

Definition state_of left : StateDescriptor V := if left then left_state else right_state.
Definition fields_of left : list string := if left then left_keys else right_keys.

Record sql_join_setup : Prop := {
  sj_left : descriptors left_state;
  sj_right : descriptors right_state;
  sj_names : sd_name left_state ≠ sd_name right_state
}.

(** The tables after a sequence of changes. *)
Definition apply_input (tables : bool → list D) r : bool → list D :=
  alter_table (on_left r) (change (is_addition (row_kind_of (row_of r))) (row_values (row_of r))) tables.

Definition tables_after (inputs : list In) : bool → list D := foldl apply_input (λ _, []) inputs.

(** An input the operator accepts.  On the rows in use Python's [==] is equality: no
    NaNs, no equal values of different types.  Equal join keys share their strings alike. *)
Record valid_change (ordinary : D → Prop) r : Prop := {
  vc_tag : input_tag r = Some (if on_left r then 0 else 1);
  vc_block : block_of r = Some (row_of r);
  vc_ordinary : ordinary (row_values (row_of r));
  vc_key : mapM_outcome (getitem (row_values (row_of r))) (fields_of (on_left r)) = Ok (key (on_left r) (row_values (row_of r)));
  vc_shared : key_sharing r = share (key (on_left r) (row_values (row_of r)));
  vc_timestamp : ∃ t, check_timestamp (record_timestamp r) = Ok t;
  vc_universe : universe (join_ident (key (on_left r) (row_values (row_of r)))) ();
  vc_owned : ∃ g, key_group_for_key (join_ident (key (on_left r) (row_values (row_of r)))) (AInt (oc_max_parallelism cfg)) = Ok g ∧
    KeyGroupRange_contains (oc_key_group_range cfg) g = true
}.

(** Every retraction retracts a row its table has. *)
Fixpoint retracts_present (tables : bool → list D) (inputs : list In) : Prop :=
  match inputs with
  | [] => True
  | r :: inputs =>
      (is_addition (row_kind_of (row_of r)) = false → row_values (row_of r) ∈ tables (on_left r)) ∧
      retracts_present (apply_input tables r) inputs
  end.

Context (Hsetup : sql_join_setup) (ordinary : D → Prop)
  (Heqb : ∀ x y, ordinary x → ordinary y → eqb x y = bool_decide (x = y)).

Lemma side_state_descriptor left : descriptors (state_of left).
Proof. destruct left; [apply (sj_left Hsetup)|apply (sj_right Hsetup)]. Qed.

Lemma side_state_inj left left' : sd_name (state_of left) = sd_name (state_of left') → left = left'.
Proof. pose proof (sj_names Hsetup). destruct left, left'; cbn; congruence. Qed.

(** The rows of a key. *)
Definition group left k (t : list D) : list D := filter (λ x, key left x = k) t.

Record sql_join_inv (tables : bool → list D) a : Prop := {
  si_values left k : km_values (am_backend a) !! (sd_name (state_of left), join_ident k, ()) =
    if null is_none k then None else stored_list (group left k (tables left));
  si_timers : km_timers (am_backend a) = ∅;
  si_ordinary left : Forall ordinary (tables left);
  si_out : builds (am_out a) (join_of is_none merge key tables)
}.

Lemma list_at_group tables a left k :
  sql_join_inv tables a → null is_none k = false → list_at a (state_of left) (join_ident k) () = group left k (tables left).
Proof. intros Hi Hk. unfold list_at. rewrite (si_values _ _ Hi), Hk. apply default_stored_list. Qed.

Lemma group_ordinary left k t : Forall ordinary t → Forall ordinary (group left k t).
Proof. rewrite !Forall_forall. intros Ht x [_ Hx]%list_elem_of_filter. auto. Qed.

(** The retraction loop deletes the first occurrence. *)
Lemma runs_retract a d (k : K) row :
  descriptors d → km_key (am_backend a) = Some k → universe k () → ordinary row →
  Forall ordinary (list_at a d k ()) → row ∈ list_at a d k () →
  runs repr a (retract clock eqb d row) () (a_store d k () (remove_row row (list_at a d k ())) a).
Proof.
  intros Hd Hk Hu Hrow Hall Hin s Hs. unfold retract, list_fuel.
  destruct (runs_list_values descriptors universe repr clock a d k () Hd Hk Hu s Hs) as (l0 & s1 & a1 & E & _ & -> & _).
  rewrite E. cbn [fst]. clear E. revert s Hs.
  assert (∀ fuel old rest, list_at a d k () = old ++ rest → row ∉ old → row ∈ rest → (length rest < fuel)%nat →
    runs repr a (retract_from clock eqb fuel d row (length old)) () (a_store d k () (old ++ remove_row row rest) a)) as Hloop.
  { induction fuel as [|fuel IH]; intros old rest El Hold Hrest Hlen; [lia|]. cbn [retract_from]. unfold list_getitem.
    eapply triple_runs; [eapply triple_runs; [by apply (runs_list_values descriptors universe repr)|]; apply runs_ret|].
    destruct rest as [|x rest]; [by apply not_elem_of_nil in Hrest|]. rewrite El, list_lookup_middle by done.
    assert (ordinary x) as Hx by (rewrite El in Hall; apply Forall_app in Hall as [_ Hr]; by apply Forall_cons in Hr as [? _]).
    rewrite Heqb by done. cbn [remove_row]. case_bool_decide as Ex.
    - rewrite decide_True by done.
      assert (delete (length old) (list_at a d k ()) = old ++ rest) as <- by (rewrite El; by rewrite delete_middle).
      apply (runs_list_delitem descriptors universe repr); try done. rewrite El, length_app. cbn. lia.
    - rewrite decide_False by done. pose proof (IH (old ++ [x]) rest) as Hstep.
      rewrite length_app, Nat.add_1_r, <-!app_assoc in Hstep. cbn [app] in Hstep. apply Hstep; [done| | |cbn in Hlen; lia].
      + rewrite elem_of_app, list_elem_of_singleton. naive_solver.
      + apply elem_of_cons in Hrest as [?|?]; [congruence|done]. }
  intros s Hs. refine (Hloop _ [] _ eq_refl _ Hin _ s Hs); [by apply not_elem_of_nil|lia].
Qed.

(** *** One input *)

Lemma tables_negb (tables : bool → list D) left f : alter_table left f tables (negb left) = tables (negb left).
Proof. by destruct left. Qed.

Lemma tables_same (tables : bool → list D) left f : alter_table left f tables left = f (tables left).
Proof. by destruct left. Qed.

(** What a change of one table does to the join. *)
Lemma builds_change tables r out :
  let left := on_left r in let row := row_values (row_of r) in let kind := row_kind_of (row_of r) in
  (is_addition kind = false → row ∈ tables left) →
  builds out (join_of is_none merge key tables) →
  builds (out ++ ((λ x, mkRow x (Some (if is_addition kind then INSERT else DELETE))) <$>
      pairs_of is_none merge key left row (tables (negb left))))
    (join_of is_none merge key (apply_input tables r)).
Proof.
  cbn zeta. intros Hpresent Hb. unfold apply_input.
  set (left := on_left r) in *. set (row := row_values (row_of r)) in *.
  destruct (is_addition (row_kind_of (row_of r))) eqn:Ek.
  - eapply builds_proper; [|by apply (builds_added _ (join_of is_none merge key tables))].
    rewrite (join_of_more is_none merge key left row (alter_table left (Rows.change true row) tables) (tables left)).
    + rewrite tables_negb. rewrite (comm (++)). f_equiv. unfold join_of, alter_table. by destruct left.
    + rewrite tables_same. cbn. by rewrite (comm (++)).
  - apply builds_retracted; [done|]. eapply builds_proper; [|exact Hb].
    rewrite (join_of_more is_none merge key left row tables (remove_row row (tables left)) (remove_row_perm _ _ (Hpresent eq_refl))).
    f_equiv. unfold join_of, alter_table. by destruct left.
Qed.

(** A row with a NULL join key changes no group and no join. *)
Lemma join_of_null tables r out :
  null is_none (key (on_left r) (row_values (row_of r))) = true →
  (is_addition (row_kind_of (row_of r)) = false → row_values (row_of r) ∈ tables (on_left r)) →
  builds out (join_of is_none merge key tables) → builds out (join_of is_none merge key (apply_input tables r)).
Proof.
  intros Hnull Hpresent Hb. pose proof (builds_change tables r out Hpresent Hb) as Hc. cbn zeta in Hc.
  unfold pairs_of in Hc. rewrite filter_none, fmap_nil, fmap_nil, app_nil_r in Hc; [done|]. intros c _ [_ ?]. congruence.
Qed.

Lemma values_change tables a a' r :
  sql_join_inv tables a →
  (if null is_none (key (on_left r) (row_values (row_of r))) then km_values (am_backend a') = km_values (am_backend a)
   else km_values (am_backend a') = partial_alter (λ _, stored_list (change (is_addition (row_kind_of (row_of r)))
          (row_values (row_of r)) (group (on_left r) (key (on_left r) (row_values (row_of r))) (tables (on_left r)))))
          (sd_name (state_of (on_left r)), join_ident (key (on_left r) (row_values (row_of r))), ()) (km_values (am_backend a))) →
  ∀ left k, km_values (am_backend a') !! (sd_name (state_of left), join_ident k, ()) =
    if null is_none k then None else stored_list (group left k (apply_input tables r left)).
Proof.
  intros Hi Hv left k. unfold apply_input, alter_table. set (row := row_values (row_of r)) in *. set (k0 := key (on_left r) row) in *.
  destruct (null is_none k0) eqn:Hnull.
  - rewrite Hv, (si_values _ _ Hi). destruct (null is_none k) eqn:Hk; [done|]. case_decide as Hl; [subst left|done].
    unfold group. rewrite filter_change, decide_False; [done|]. intros Ek. fold k0 in Ek. congruence.
  - rewrite Hv. destruct (decide ((sd_name (state_of (on_left r)), join_ident k0, ()) = (sd_name (state_of left), join_ident k, ()))) as [E|Hne].
    + injection E as El Ek _. apply side_state_inj in El. subst left k. rewrite lookup_partial_alter_eq, Hnull, decide_True by done.
      unfold group. by rewrite filter_change, decide_True.
    + rewrite lookup_partial_alter_ne by exact Hne. rewrite (si_values _ _ Hi). destruct (null is_none k); [done|].
      case_decide as Hl; [|done]. subst left. unfold group. rewrite filter_change, decide_False; [done|].
      intros Ek. fold k0 in Ek. congruence.
Qed.

Lemma change_ordinary addition row t : ordinary row → Forall ordinary t → Forall ordinary (change addition row t).
Proof.
  intros Hrow Ht. destruct addition; cbn [change]; [apply Forall_app; split; [done|by repeat constructor]|].
  apply Forall_forall. intros x Hx%elem_of_remove_row. by apply (proj1 (Forall_forall _ _) Ht).
Qed.

Lemma ordinary_change tables r :
  ordinary (row_values (row_of r)) → (∀ left, Forall ordinary (tables left)) → ∀ left, Forall ordinary (apply_input tables r left).
Proof. intros Hr Ht left. unfold apply_input, alter_table. case_decide; [by apply change_ordinary|done]. Qed.

Lemma sql_join_step tables a r :
  sql_join_inv tables a → valid_change ordinary r →
  (is_addition (row_kind_of (row_of r)) = false → row_values (row_of r) ∈ tables (on_left r)) →
  triple repr a (process_element (V := V) clock cfg hooks r) (λ _ a', sql_join_inv (apply_input tables r) a').
Proof.
  intros Hi Hv Hpresent. set (left := on_left r) in *. set (row := row_values (row_of r)) in *. set (k := key left row).
  destruct (vc_timestamp _ _ Hv) as [t Ht].
  assert (Hkey : for_record getitem input_tag block_of left_keys right_keys r = Ok k).
  { unfold for_record. rewrite (vc_block _ _ Hv), (vc_tag _ _ Hv). etransitivity; [|apply (vc_key _ _ Hv)].
    unfold fields_of. by destruct (on_left r). }
  eapply triple_mono; [apply (triple_untimed_element descriptors universe repr clock cfg hooks r (join_ident k) t a
    (sql_join_inv (apply_input tables r)))|by intros ? ? [? _]].
  { split; [|apply (vc_owned _ _ Hv)]. exists (record_timestamp r). split; [|done].
    cbn [ManagedState.key_and_timestamp SQLRegularJoinOperator]. unfold sql_join_key_and_timestamp.
    rewrite (vc_tag _ _ Hv), Hkey, bind_Ok, (vc_shared _ _ Hv). unfold k, row, left, join_ident. by destruct (on_left r). }
  { done. }
  cbn [process_managed_element SQLRegularJoinOperator]. unfold sql_join_process. rewrite (vc_block _ _ Hv), (vc_tag _ _ Hv).
  assert (bool_decide (Some (if on_left r then 0 else 1) = Some 0) = left) as -> by (unfold left; by destruct (on_left r)).
  fold (fields_of left). fold row. 
  rewrite (any_none_spec getitem is_none row (fields_of left) k) by apply (vc_key _ _ Hv).
  eapply triple_runs; [apply runs_lift|]. fold (null is_none k).
  pose proof (values_change tables a) as Hvals. pose proof (vc_ordinary _ _ Hv) as Hrow. fold row in Hrow.
  destruct (null is_none k) eqn:Hnull.
  - apply triple_ret. split; [|exact (si_timers _ _ Hi)]. split.
    + apply Hvals; [done|]. fold left row k. by rewrite Hnull.
    + exact (si_timers _ _ Hi).
    + apply ordinary_change; [done|]. apply (si_ordinary _ _ Hi).
    + apply join_of_null; [done..|]. apply (si_out _ _ Hi).
  - fold (state_of left). assert ((if left then right_state else left_state) = state_of (negb left)) as -> by (by destruct left).
    set (a0 := a_bind (join_ident k) t a). assert (sql_join_inv tables a0) as Hi0 by (destruct Hi; by split).
    pose proof (side_state_descriptor left) as Hown. pose proof (side_state_descriptor (negb left)) as Hother.
    pose proof (vc_universe _ _ Hv) as Hu. fold left row k in Hu.
    set (out := (λ x, mkRow x (Some (if is_addition (row_kind_of (row_of r)) then INSERT else DELETE))) <$>
      pairs_of is_none merge key left row (tables (negb left))).
    eapply triple_bind; [apply (runs_list_for descriptors universe repr clock a0 (state_of (negb left)) (join_ident k) () _
      (λ c, [mkRow (if left then merge row c else merge c row) (Some (if is_addition (row_kind_of (row_of r)) then INSERT else DELETE))])
      Hother eq_refl Hu); intros; apply runs_collect|].
    intros ? a1 [_ ->]. rewrite (list_at_group tables a0 _ _ Hi0 Hnull).
    assert (mjoin ((λ c, [mkRow (if left then merge row c else merge c row)
        (Some (if is_addition (row_kind_of (row_of r)) then INSERT else DELETE))]) <$> group (negb left) k (tables (negb left))) = out) as ->.
    { unfold out, pairs_of. rewrite <-list_fmap_compose.
      rewrite (filter_ext_in (λ c, key (negb left) c = key left row ∧ null is_none (key left row) = false)
        (λ c, key (negb left) c = k)) by (intros; tauto). fold (group (negb left) k (tables (negb left))).
      induction (group _ _ _) as [|c l IH]; [done|]. cbn. by f_equal. }
    eapply triple_mono; [|intros ? a' Ha'; exact Ha'].
    assert (runs repr (a_collect out a0) (if is_addition (row_kind_of (row_of r)) then list_append clock (state_of left) () row
        else retract clock eqb (state_of left) row) ()
      (a_store (state_of left) (join_ident k) () (Rows.change (is_addition (row_kind_of (row_of r))) row (group left k (tables left))) (a_collect out a0))) as Hrun.
    { assert (list_at (a_collect out a0) (state_of left) (join_ident k) () = group left k (tables left)) as El
        by exact (list_at_group tables a0 left k Hi0 Hnull).
      rewrite <-El. destruct (is_addition (row_kind_of (row_of r))) eqn:Ek; cbn [Rows.change].
      - by apply (runs_list_append_stored descriptors universe repr).
      - apply runs_retract; try done; rewrite El; [by apply group_ordinary, (si_ordinary _ _ Hi)|].
        apply list_elem_of_filter. split; [done|]. by apply Hpresent. }
    eapply triple_mono; [exact Hrun|]. intros ? a' [_ ->]. split; [|apply (si_timers _ _ Hi)]. split.
    + apply Hvals; [done|]. fold left row k. by rewrite Hnull.
    + apply (si_timers _ _ Hi).
    + apply ordinary_change; [done|]. apply (si_ordinary _ _ Hi).
    + apply builds_change; [done|]. apply (si_out _ _ Hi).
Qed.
End sql_join_proof.

(** C36. The incremental join is the join: for every sequence of changes of the two
    tables that only retracts rows the tables have, on any backend that meets the
    contract, the operator never raises, and the changelog it puts out builds the inner
    join of the tables as they then are, up to order (NULL keys join with nothing).  The
    rows are such that Python's [==] on them is equality, so none holds a NaN
    ([nan_row_never_retracted]), and equal join keys share their strings alike
    ([unshared_key_does_not_join]). *)
Theorem sql_join_incremental {B Val D In : Type} `{Countable Val, EqDecision D}
    `{!ManagedStateBackend B (list Val * list nat) unit (list D), !KeyCodec (list Val * list nat), !Blake2b}
    descriptors universe repr `{!BackendRefines B (list Val * list nat) unit (list D) descriptors universe repr} clock cfg
    (getitem : D → string → outcome Val) is_none eqb merge input_tag (block_of : In → option (Row D)) record_timestamp key_sharing
    left_keys right_keys left_state right_state on_left row_of key share (ordinary : D → Prop) (inputs : list In) s0 bound_key bound_time :
  sql_join_setup descriptors left_state right_state →
  (∀ x y, ordinary x → ordinary y → eqb x y = bool_decide (x = y)) →
  (∀ r, r ∈ inputs → valid_change universe cfg getitem input_tag block_of record_timestamp key_sharing left_keys right_keys
    on_left row_of key share ordinary r) →
  retracts_present on_left row_of (λ _, []) inputs →
  op_repr repr s0 (mkOpModel (mkModel bound_key ∅ ∅) (-1) bound_time [] 0) →
  ∃ s',
    for_each (process_element (V := list D) clock cfg (SQLRegularJoinOperator clock getitem is_none eqb merge input_tag block_of
      record_timestamp key_sharing left_keys right_keys left_state right_state)) inputs s0 = (Ok (), s') ∧
    let tables := tables_after on_left row_of inputs in
    builds (os_out s') (inner_join is_none merge key (tables true) (tables false)).
Proof.
  intros Hsetup Heqb Hvalid Hpresent Hs0.
  set (run := process_element (V := list D) clock cfg (SQLRegularJoinOperator clock getitem is_none eqb merge input_tag block_of
      record_timestamp key_sharing left_keys right_keys left_state right_state)).
  set (inv := λ tables, sql_join_inv is_none merge left_state right_state key share ordinary tables).
  set (a0 := mkOpModel (mkModel bound_key ∅ ∅) (-1) bound_time [] 0 : op_model (list Val * list nat) unit (list D) (Row D)).
  assert (triple repr a0 (for_each run inputs) (λ _ a', inv (tables_after on_left row_of inputs) a')) as Ht.
  { assert (inv (λ _, []) a0) as Hinit.
    { split; cbn; [intros left k; rewrite lookup_empty; by destruct (null _ _)|done|by constructor|].
      unfold builds. by rewrite !filter_nil. }
    eapply triple_mono; [apply (triple_for_each repr run (λ rest a, ∃ tables, inv tables a ∧
      (∀ r, r ∈ rest → r ∈ inputs) ∧ retracts_present on_left row_of tables rest ∧
      foldl (apply_input on_left row_of) tables rest = tables_after on_left row_of inputs) inputs)|].
    - by exists (λ _, []).
    - intros r rest a (tables & Hi & Hsub & [Hp Hrest] & Hfold).
      eapply triple_mono; [apply (sql_join_step descriptors universe repr clock cfg) with (ordinary := ordinary) (5 := Hp);
        [exact Hsetup|exact Heqb|exact Hi|apply Hvalid, Hsub; by left]|].
      intros ? a' Hi'. exists (apply_input on_left row_of tables r). split_and!; [done| |done|done].
      intros q Hq. apply Hsub. by right.
    - intros ? a (tables & Hi & _ & _ & Hfold). cbn in Hfold. by subst. }
  destruct (Ht s0 Hs0) as ([] & s' & a' & E & Hs' & Hi). exists s'. split; [done|]. cbn zeta.
  rewrite (or_out _ _ _ Hs'). apply (si_out _ _ _ _ _ _ _ _ _ Hi).
Qed.

(** ** Examples *)

Module SqlJoinSamples.
Import Samples.
(** Rows: a nullable name, which every column but [v] holds, and a number. *)
Definition row : Type := option string * Z.
#[export] Instance key_codec : KeyCodec (list (option string) * list nat) := countable_codec.
#[export] Instance namespace_codec : KeyCodec unit := countable_codec.
#[export] Instance address_codec : KeyCodec (list (option string) * list nat * unit) := countable_codec.
#[export] Instance address_serializer : Serializer (list (option string) * list nat * unit) := countable_serializer.
#[export] Instance rows_serializer : Serializer (list row) := countable_serializer.

Definition getitem (r : row) (column : string) : outcome (option string) :=
  if String.eqb column "v" then Err TypeError else Ok r.1.
Definition is_none (v : option string) : bool := match v with None => true | Some _ => false end.
Definition merge (l r : row) : row := (l.1, 10 * l.2 + r.2).

(** Changes: side and row. *)
Definition input : Type := bool * Row row.
Definition left_state : StateDescriptor (list row) := mkStateDescriptor [x01] rows_serializer None.
Definition right_state : StateDescriptor (list row) := mkStateDescriptor [x02] rows_serializer None.
Definition descriptors (d : StateDescriptor (list row)) : Prop := d = left_state ∨ d = right_state.
Definition config : operator_config := mkConfig 1 (mkKeyGroupRange 0 0) 10.
Definition start : op_state (backend (list (option string) * list nat)) (Row row) := mkOp MemoryStateBackend_init (-1) None 0 [] 0 0 0.
Definition run (eqb : row → row → bool) (key_sharing : input → list nat) (left_keys right_keys : list string) : list input → op (backend (list (option string) * list nat)) (Row row) unit :=
  for_each (process_element (V := list row) (NS := unit) (λ _, 0) config (SQLRegularJoinOperator (λ _, 0) getitem is_none eqb merge
    (λ r : input, Some (if r.1 then 0 else 1)) (λ r, Some r.2) (λ _, None) key_sharing left_keys right_keys left_state right_state)).

Definition equal (x y : row) : bool := bool_decide (x = y).
Definition key (left : bool) (x : row) : list (option string) := [x.1].
(** A key of one column holds one string, or none. *)
Definition share (k : list (option string)) : list nat := match k with [Some _] => [0%nat] | _ => [] end.
Definition key_sharing (r : input) : list nat := share (key r.1 (row_values r.2)).
Definition universe (k : list (option string) * list nat) (ns : unit) : Prop := k ∈ [([Some "ab"%string], [0%nat]); ([None], [])].

(** A NULL key, two rows on each side, one of them retracted. *)
Definition inputs : list input :=
  [(true, ChangelogRow_insert (Some "ab"%string, 2)); (false, ChangelogRow_insert (Some "ab"%string, 5)); (false, ChangelogRow_insert (None, 6));
   (true, ChangelogRow_insert (None, 3)); (true, mkRow (Some "ab"%string, 4) None); (true, ChangelogRow_delete (Some "ab"%string, 2))].

Lemma join_contract_domain : contract_domain descriptors universe.
Proof.
  split.
  - intros d [-> | ->]; vm_compute; done.
  - intros d d' [-> | ->] [-> | ->]; done.
  - intros d k [] [-> | ->] Hk; revert k Hk; apply Forall_forall; repeat constructor; eexists; vm_compute; reflexivity.
  - intros k [] k' [] Hk Hk'. revert k' Hk'. revert k Hk.
    refine (proj1 (Forall_forall (λ k, ∀ k', universe k' () → sha256 (encode_key (k, ())) = sha256 (encode_key (k', ())) →
      (k, ()) = (k', ())) _) _).
    repeat constructor; (refine (proj1 (Forall_forall (λ k', sha256 _ = sha256 (encode_key (k', ())) → (_, ()) = (k', ())) _) _));
      repeat constructor; intros E; try done; vm_compute in E; done.
Defined.
End SqlJoinSamples.

Section sql_join_samples.
Import Samples SqlJoinSamples.

(** Python's [==] is false on a row that holds a NaN read back from the state: its
    retraction deletes nothing, and the row goes on joining. *)
Example nan_row_never_retracted :
  let nan_equal := λ x y, equal x y && negb (x.2 =? 0) in
  row_kind_of <$> os_out (SqlJoinSamples.run nan_equal SqlJoinSamples.key_sharing ["k"] ["k"]
    [(true, ChangelogRow_insert (Some "ab", 0)); (true, ChangelogRow_delete (Some "ab", 0)); (false, ChangelogRow_insert (Some "ab", 5))]
    SqlJoinSamples.start).2%string = [INSERT].
Proof. vm_compute. reflexivity. Qed.

(** ON l.k = r.a AND l.k = r.b: the key of a left row is one string twice, that of a
    right row two equal strings.  They are stored apart, and nothing joins. *)
Example unshared_key_does_not_join :
  let key_sharing (r : SqlJoinSamples.input) := if r.1 then [0; 0]%nat else [0; 1]%nat in
  os_out (SqlJoinSamples.run equal key_sharing ["k"; "k"] ["a"; "b"]
    [(true, ChangelogRow_insert (Some "ab", 2)); (false, ChangelogRow_insert (Some "ab", 5))] SqlJoinSamples.start).2%string = [].
Proof. vm_compute. reflexivity. Qed.

Lemma sql_join_incremental_witness :
  os_out (SqlJoinSamples.run equal SqlJoinSamples.key_sharing ["k"%string] ["k"%string] SqlJoinSamples.inputs SqlJoinSamples.start).2 =
    [mkRow (Some "ab"%string, 25) (Some INSERT); mkRow (Some "ab"%string, 45) (Some INSERT); mkRow (Some "ab"%string, 25) (Some DELETE)] ∧
  ∃ s', SqlJoinSamples.run equal SqlJoinSamples.key_sharing ["k"%string] ["k"%string] SqlJoinSamples.inputs SqlJoinSamples.start = (Ok (), s') ∧ builds (os_out s') [(Some "ab"%string, 45)].
Proof.
  split; [vm_compute; reflexivity|].
  pose proof (memory_refines _ _ SqlJoinSamples.join_contract_domain) as Hrefines.
  destruct (sql_join_incremental SqlJoinSamples.descriptors SqlJoinSamples.universe
    (memory_repr SqlJoinSamples.descriptors SqlJoinSamples.universe) (λ _, 0) SqlJoinSamples.config
    SqlJoinSamples.getitem SqlJoinSamples.is_none equal SqlJoinSamples.merge (λ r : SqlJoinSamples.input, Some (if r.1 then 0 else 1))
    (λ r, Some r.2) (λ _, None) SqlJoinSamples.key_sharing ["k"%string] ["k"%string] SqlJoinSamples.left_state SqlJoinSamples.right_state fst snd
    SqlJoinSamples.key SqlJoinSamples.share (λ _, True) SqlJoinSamples.inputs SqlJoinSamples.start None None) as (s' & Hrun & Hout).
  - split; [by left|by right|done].
  - done.
  - refine (proj1 (Forall_forall (λ r, valid_change SqlJoinSamples.universe _ _ _ _ _ _ _ _ _ _ _ _ _ r) _) _).
    repeat constructor; try (by eexists); try (exists 0; split; vm_compute; reflexivity); vm_compute; set_solver.
  - vm_compute. repeat split; try done. intros _. set_solver.
  - split; try done. apply memory_repr_init. exact SqlJoinSamples.join_contract_domain.
  - exists s'. split; [exact Hrun|exact Hout].
Defined.
End sql_join_samples.
