(* ===== verification/SqlTopN.v ===== *)
(** * Streaming ORDER BY ... LIMIT

    Models [src/ray/klein/runtime/operator/sql_top_n_operator.py]: one sorted list of
    rows in managed state, of which the first [limit] are the result; every change of the
    input puts out the difference of the results before and after it.

    Expressions are a parameter ([evaluate_expression] of [_internal/sql]). *)
From S2P Require Import Prelude Concrete KeyGroups StateCodec StateBackend BackendContract ManagedState Rows SqlValues SqlState.
Open Scope Z_scope.

(** [exp.Ordered]. *)
Record ordered (E : Type) := mkOrdered { o_this : E; o_desc : bool; o_nulls_first : bool }.
Arguments mkOrdered {E}.
Arguments o_this {E}.
Arguments o_desc {E}.
Arguments o_nulls_first {E}.

(** What the state may hold: a versioned dictionary, the plain list of an older
    checkpoint, or something else. *)
Inductive top_n_state :=
  | TopNRows (rows : list sqlrow)
  | TopNList (rows : list sqlrow)
  | TopNOther.

Section top_n.
Context {E : Type} `{CanonPickle} (evaluate_expression : E → sqlrow → outcome sqlval).
Context (order : list (ordered E)) (limit : nat) (retractable : bool).
Implicit Types (row : sqlrow) (rows : list sqlrow).

(** ** Order *)

Definition compare_values (left right : sqlval) (nulls_first : bool) : outcome Z :=
  match left, right with
  | SNull, SNull => Ok 0
  | SNull, _ => Ok (if nulls_first then -1 else 1)
  | _, SNull => Ok (if nulls_first then 1 else -1)
  | _, _ => compare_non_null_values left right
  end.

Fixpoint compare_rows (order : list (ordered E)) (left right : sqlrow) : outcome Z :=
  match order with
  | [] => Ok 0
  | o :: order =>
      left_value ← evaluate_expression (o_this o) left;
      right_value ← evaluate_expression (o_this o) right;
      comparison ← compare_values left_value right_value (o_nulls_first o);
      if comparison =? 0 then compare_rows order left right
      else if bool_decide (left_value = SNull) || bool_decide (right_value = SNull) then Ok comparison
      else Ok (if o_desc o then - comparison else comparison)
  end.

(** ** The sorted list *)

(** The [while] loop of [_insert_sorted]; [fuel] bounds it. *)
Fixpoint bisect (fuel : nat) row rows (low high : nat) : outcome nat :=
  if (low <? high)%nat then
    match fuel with
    | O => Err RuntimeError
    | S fuel =>
        let middle := ((low + high) / 2)%nat in
        match rows !! middle with
        | None => Err IndexError
        | Some x =>
            c ← compare_rows order row x;
            if c <? 0 then bisect fuel row rows low middle else bisect fuel row rows (S middle) high
        end
    end
  else Ok low.

Definition insert_sorted rows row : outcome (list sqlrow) :=
  low ← bisect (length rows) row rows 0 (length rows);
  Ok (take low rows ++ row :: drop low rows).

(** [_retract]: the rows without the first of that identity, if there is one. *)
Fixpoint retract_row rows row : option (list sqlrow) :=
  match rows with
  | [] => None
  | existing :: rest =>
      if decide (state_row_key existing = state_row_key row) then Some rest else cons existing <$> retract_row rest row
  end.

(** [sorted(stored, key=cmp_to_key(self._compare))]: a stable sort. *)
Definition sort_rows rows : outcome (list sqlrow) := foldM insert_sorted [] rows.

Definition restore_rows (stored : option top_n_state) : outcome (list sqlrow) :=
  rows ← match stored with
         | None => Ok []
         | Some (TopNList rows) => sort_rows rows
         | Some (TopNRows rows) => Ok rows
         | Some TopNOther => Err SQLQueryError
         end;
  Ok (if negb retractable && (limit <? length rows)%nat then take limit rows else rows).

(** ** The difference of two results *)

Definition row_counts rows : gmap bytes Z :=
  foldl (λ counts row, <[state_row_key row := default 0 (counts !! state_row_key row) + 1]> counts) ∅ rows.

(** The rows that [counts] does not cover. *)
Fixpoint uncovered (counts : gmap bytes Z) rows : list sqlrow :=
  match rows with
  | [] => []
  | row :: rows =>
      let n := default 0 (counts !! state_row_key row) in
      if n =? 0 then row :: uncovered counts rows else uncovered (<[state_row_key row := n - 1]> counts) rows
  end.

Definition emit_diff_rows (previous current : list sqlrow) : list (Row sqlrow) :=
  ((λ row, mkRow row (Some DELETE)) <$> uncovered (row_counts current) previous) ++
  ((λ row, mkRow row (Some INSERT)) <$> uncovered (row_counts previous) current).

(** ** The operator *)

Context {B In : Type} `{ManagedStateBackend B string unit top_n_state, KeyCodec string, Blake2b} (clock : nat → Z)
  (block_of : In → option (Row sqlrow)) (record_timestamp : In → option pyarg) (rows_state : StateDescriptor top_n_state).

Definition global_top_n_key : string := "__klein_global_top_n__".

Definition emit_diff (previous current : list sqlrow) : op B (Row sqlrow) unit :=
  for_each collect (emit_diff_rows previous current).

Definition top_n_process (r : In) : op B (Row sqlrow) unit :=
  match block_of r with
  | None => mret ()
  | Some block =>
      if (limit =? 0)%nat then mret ()
      else
        stored ← value_state_get clock rows_state ();
        rows ← lift (restore_rows stored);
        let previous := take limit rows in
        let row := row_values block in
        changed ← (if is_addition (row_kind_of block) then
                     rows ← lift (insert_sorted rows row);
                     mret (Some (if negb retractable && (limit <? length rows)%nat then take (length rows - 1) rows else rows))
                   else if negb retractable then raise SQLQueryError
                   else mret (retract_row rows row));
        match changed with
        | None => mret ()
        | Some rows =>
            let current := take limit rows in
            _ ← (if decide (rows = []) then state_clear rows_state ()
                 else value_state_set clock rows_state () (TopNRows rows));
            emit_diff previous current
        end
  end.

Definition SQLTopNOperator : @operator_hooks B string unit In (Row sqlrow) :=
  mkHooks top_n_process (λ _, mret ()) (mret ())
    (default_key_and_timestamp id record_timestamp (λ _, Ok global_top_n_key) None).
End top_n.

(** The constructor, and the descriptor chosen by [open]. *)
Definition SQLTopN_init (limit : Z) : outcome nat := if limit <? 0 then Err ValueError else Ok (Z.to_nat limit).

Definition top_n_open (ser : Serializer top_n_state) (state_ttl default_ttl : option Z) : outcome (StateDescriptor top_n_state) :=
  sql_state_descriptor ser (String.list_byte_of_string "sql-top-n-rows") (effective_ttl state_ttl default_ttl).

(** ** The order of rows *)

Section row_order.
Context {E : Type} (evaluate_expression : E → sqlrow → outcome sqlval).
Implicit Types (row : sqlrow) (order : list (ordered E)).

(** One column: NULLs first or last, whatever the direction. *)
Definition compare_column (o : ordered E) (x y : option rank) : comparison :=
  match x, y with
  | None, None => Eq
  | None, Some _ => if o_nulls_first o then Lt else Gt
  | Some _, None => if o_nulls_first o then Gt else Lt
  | Some x, Some y => if o_desc o then CompOpp (compare_rank x y) else compare_rank x y
  end.

Lemma compare_column_eq o x y : compare_column o x y = Eq ↔ x = y.
Proof.
  assert (∀ x y, compare_rank x y = Eq ↔ Some x = Some y) as Hrank
    by (intros; rewrite (compare_eq (cmp := compare_rank)); split; congruence).
  destruct x as [x|], y as [y|]; cbn; try (split; [by destruct (o_nulls_first o)|done]).
  rewrite <-Hrank. destruct (o_desc o); [|done]. by destruct (compare_rank x y).
Qed.

Lemma compare_column_opp o x y : compare_column o y x = CompOpp (compare_column o x y).
Proof.
  destruct x as [x|], y as [y|]; cbn; try (by destruct (o_nulls_first o)).
  rewrite (compare_opp (cmp := compare_rank) x y). by destruct (o_desc o).
Qed.

Lemma compare_column_trans o x y z : compare_column o x y = Lt → compare_column o y z = Lt → compare_column o x z = Lt.
Proof.
  destruct x as [x|], y as [y|], z as [z|]; cbn; try (destruct (o_nulls_first o); congruence).
  destruct (o_desc o); [|apply (compare_trans (cmp := compare_rank))].
  rewrite <-!(compare_opp (cmp := compare_rank)). intros H1 H2. by eapply (compare_trans (cmp := compare_rank)).
Qed.

#[export] Instance compare_column_total o : TotalCompare (compare_column o).
Proof. split; [apply compare_column_eq|apply compare_column_opp|apply compare_column_trans]. Qed.

(** The columns of a row, and their lexicographic order. *)
Definition key_of (o : ordered E) row : option rank :=
  match evaluate_expression (o_this o) row with Ok v => rank_of v | Err _ => None end.

Fixpoint compare_keys order (x y : sqlrow) : comparison :=
  match order with
  | [] => Eq
  | o :: order => match compare_column o (key_of o x) (key_of o y) with Eq => compare_keys order x y | c => c end
  end.

Lemma compare_keys_opp order x y : compare_keys order y x = CompOpp (compare_keys order x y).
Proof.
  induction order as [|o order IH]; [done|]. cbn [compare_keys].
  rewrite (compare_column_opp o (key_of o x)). by destruct (compare_column o _ _).
Qed.

Definition row_le order x y : Prop := compare_keys order x y ≠ Gt.

#[export] Instance row_le_dec order x y : Decision (row_le order x y).
Proof. unfold row_le. apply _. Defined.

#[export] Instance row_le_trans order : Transitive (row_le order).
Proof.
  unfold row_le. induction order as [|o order IH]; intros x y z; [done|]. cbn [compare_keys]. intros Hxy Hyz.
  destruct (compare_column o (key_of o x) (key_of o y)) eqn:E1; [| |done].
  - apply compare_column_eq in E1 as ->. destruct (compare_column o (key_of o y) (key_of o z)); [by eapply IH|done|done].
  - destruct (compare_column o (key_of o y) (key_of o z)) eqn:E2; [| |done].
    + apply compare_column_eq in E2 as <-. by rewrite E1.
    + by rewrite (compare_column_trans _ _ _ _ E1 E2).
Qed.

Lemma row_le_total order x y : row_le order x y ∨ row_le order y x.
Proof. unfold row_le. rewrite (compare_keys_opp order x y). destruct (compare_keys order x y); cbn; auto. Qed.

(** Rows the order can compare: every column evaluates, and has values of one kind. *)
Definition orderable order (x y : sqlrow) : Prop :=
  Forall (λ o, ∃ v w, evaluate_expression (o_this o) x = Ok v ∧ evaluate_expression (o_this o) y = Ok w ∧
    (v ≠ SNull → w ≠ SNull → same_kind v w)) order.

Lemma compare_values_column o v w :
  (v ≠ SNull → w ≠ SNull → same_kind v w) →
  compare_values v w (o_nulls_first o) =
    Ok (comparison_Z (compare_column (mkOrdered (o_this o) false (o_nulls_first o)) (rank_of v) (rank_of w))).
Proof.
  intros Hk. unfold compare_column. cbn [o_nulls_first o_desc].
  destruct (decide (v = SNull)) as [->|Hv], (decide (w = SNull)) as [->|Hw].
  - done.
  - destruct (rank_of_Some w Hw) as [y ->]. cbn. by destruct w, (o_nulls_first o).
  - destruct (rank_of_Some v Hv) as [x ->]. cbn. by destruct v, (o_nulls_first o).
  - destruct (rank_of_Some v Hv) as [x Ex], (rank_of_Some w Hw) as [y Ey]. rewrite Ex, Ey.
    rewrite <-(compare_non_null_rank v w x y) by auto. by destruct v, w.
Qed.

Lemma compare_rows_spec order x y :
  orderable order x y → compare_rows evaluate_expression order x y = Ok (comparison_Z (compare_keys order x y)).
Proof.
  induction 1 as [|o order (v & w & Ev & Ew & Hk) _ IH]; [done|]. cbn [compare_rows compare_keys].
  rewrite Ev, bind_Ok, Ew, bind_Ok, compare_values_column, bind_Ok by done. unfold key_of. rewrite Ev, Ew.
  destruct (decide (v = SNull)) as [->|Hv], (decide (w = SNull)) as [->|Hw].
  - cbn. exact IH.
  - destruct (rank_of_Some w Hw) as [y' ->]. cbn. by destruct (o_nulls_first o).
  - destruct (rank_of_Some v Hv) as [x' ->]. cbn. rewrite bool_decide_eq_false_2 by done. by destruct (o_nulls_first o).
  - destruct (rank_of_Some v Hv) as [x' ->], (rank_of_Some w Hw) as [y' ->].
    rewrite !bool_decide_eq_false_2 by done. cbn [compare_column o_desc orb].
    by destruct (compare_rank x' y'), (o_desc o).
Qed.
End row_order.

(** ** The sorted list stays sorted *)

Section sorted_rows.
Context {E : Type} (evaluate_expression : E → sqlrow → outcome sqlval) (order : list (ordered E)).
Implicit Types (row x y : sqlrow) (rows : list sqlrow).

Abbreviation le := (row_le evaluate_expression order).
Abbreviation keys := (compare_keys evaluate_expression order).

Definition sorted rows : Prop := StronglySorted le rows.

Lemma keys_lt_le x y z : keys x y = Lt → le y z → keys x z = Lt.
Proof.
  intros Hlt Hle. destruct (keys x z) eqn:Exz; [exfalso|done|exfalso].
  all: assert (le z x) as Hzx by (unfold row_le; rewrite (compare_keys_opp _ order x z), Exz; done).
  all: pose proof (row_le_trans _ order _ _ _ Hle Hzx) as Hyx; unfold row_le in Hyx;
    rewrite (compare_keys_opp _ order x y), Hlt in Hyx; done.
Qed.

Lemma not_lt_le x y : keys x y ≠ Lt ↔ le y x.
Proof. unfold row_le. rewrite (compare_keys_opp _ order x y). destruct (keys x y); cbn; intuition congruence. Qed.

Lemma sorted_lookup rows i j x y : sorted rows → rows !! i = Some x → rows !! j = Some y → (i < j)%nat → le x y.
Proof.
  intros Hs. revert i j. induction Hs as [|z rows Hs IH Hz]; intros i j Hx Hy Hij; [done|].
  destruct j as [|j]; [lia|]. destruct i as [|i]; cbn in Hx, Hy.
  - injection Hx as <-. apply (proj1 (Forall_forall _ _) Hz). by eapply list_elem_of_lookup_2.
  - by apply (IH i j); [..|lia].
Qed.

Lemma bisect_spec row rows fuel low high :
  sorted rows → Forall (orderable evaluate_expression order row) rows →
  (low <= high <= length rows)%nat → (high - low <= fuel)%nat →
  (∀ j x, (j < low)%nat → rows !! j = Some x → le x row) →
  (∀ j x, (high <= j)%nat → rows !! j = Some x → keys row x = Lt) →
  ∃ i, bisect evaluate_expression order fuel row rows low high = Ok i ∧ (i <= length rows)%nat ∧
    (∀ j x, (j < i)%nat → rows !! j = Some x → le x row) ∧
    (∀ j x, (i <= j)%nat → rows !! j = Some x → keys row x = Lt).
Proof.
  intros Hs Hord. revert low high. induction fuel as [|fuel IH]; intros low high Hlh Hf Hlow Hhigh; cbn [bisect].
  all: destruct (Nat.ltb_spec low high) as [Hlt|Hge]; [try lia|exists low; assert (low = high) as -> by lia; split_and!; done || lia].
  set (middle := ((low + high) / 2)%nat).
  assert (low <= middle < high)%nat as Hm by (unfold middle; split; [apply Nat.div_le_lower_bound|apply Nat.div_lt_upper_bound]; lia).
  destruct (lookup_lt_is_Some_2 rows middle) as [x Hx]; [lia|]. rewrite Hx.
  rewrite compare_rows_spec by (apply (proj1 (Forall_forall _ _) Hord); by eapply list_elem_of_lookup_2). rewrite bind_Ok.
  destruct (keys row x) eqn:Ek; cbn [comparison_Z Z.ltb Z.compare].
  2: { apply IH; [lia|lia|done|]. intros j y Hj Hy. destruct (decide (j = middle)) as [->|]; [congruence|].
       apply (keys_lt_le _ x); [done|]. apply (sorted_lookup rows middle j); [done..|lia]. }
  all: apply IH; [lia|lia| |done].
  all: intros j y Hj Hy; destruct (decide (j = middle)) as [->|].
  1,3: assert (y = x) as -> by congruence; apply not_lt_le; congruence.
  all: apply (row_le_trans _ _ _ x); [apply (sorted_lookup rows j middle); [done..|lia]|apply not_lt_le; congruence].
Qed.

Lemma insert_sorted_spec rows row :
  sorted rows → Forall (orderable evaluate_expression order row) rows →
  ∃ rows', insert_sorted evaluate_expression order rows row = Ok rows' ∧ sorted rows' ∧ rows' ≡ₚ row :: rows.
Proof.
  intros Hs Hord. unfold insert_sorted.
  destruct (bisect_spec row rows (length rows) 0 (length rows)) as (i & -> & Hi & Hlow & Hhigh); try done; try lia.
  { intros j x Hj Hx. apply lookup_lt_Some in Hx. lia. }
  rewrite bind_Ok. eexists. split; [done|]. split.
  - pose proof Hs as Hs'. unfold sorted in Hs'. rewrite <-(take_drop i rows) in Hs'.
    apply StronglySorted_app in Hs' as (H12 & H1 & H2).
    assert (∀ x, x ∈ take i rows → le x row) as Hbefore.
    { intros x (j & Hj)%list_elem_of_lookup_1. apply lookup_take_Some in Hj as [Hx Hji]. by apply (Hlow j). }
    assert (∀ x, x ∈ drop i rows → le row x) as Hafter.
    { intros x (j & Hj)%list_elem_of_lookup_1. rewrite lookup_drop in Hj. unfold row_le.
      rewrite (Hhigh (i + j)%nat x); [done|lia|done]. }
    apply StronglySorted_app. split_and!; [|done|].
    + intros x y Hx [->|Hy]%elem_of_cons; [by apply Hbefore|by apply H12].
    + constructor; [done|]. by apply Forall_forall.
  - rewrite <-Permutation_middle, take_drop. done.
Qed.
End sorted_rows.

(** ** The emitted difference *)

Section difference.
Context `{CanonPickle}.
Implicit Types (rows : list sqlrow) (k : bytes).

Abbreviation canons rows := (canonical_row <$> rows).
Abbreviation row_keys rows := (state_row_key <$> rows).
Abbreviation count l k := (Z.of_nat (count_occ (decide_rel (=)) l k)).

Lemma row_counts_spec rows k : default 0 (row_counts rows !! k) = count (row_keys rows) k.
Proof.
  unfold row_counts. assert (∀ m, default 0 (foldl (λ (counts : gmap bytes Z) row, <[state_row_key row := default 0 (counts !! state_row_key row) + 1]> counts)
    m rows !! k) = default 0 (m !! k) + count (row_keys rows) k) as Hm; [|by rewrite Hm, lookup_empty].
  induction rows as [|row rows IH]; intros m; [cbn; lia|]. cbn [foldl]. rewrite IH, lookup_count, fmap_cons, count_cons.
  case_decide as Hx; [subst|]; lia.
Qed.

Lemma uncovered_spec counts rows k :
  (∀ k, 0 <= default 0 (counts !! k)) →
  count (row_keys (uncovered counts rows)) k = Z.max 0 (count (row_keys rows) k - default 0 (counts !! k)).
Proof.
  revert counts. induction rows as [|row rows IH]; intros counts Hpos; [cbn; specialize (Hpos k); lia|].
  cbn [uncovered]. pose proof (Hpos (state_row_key row)) as Hrow. pose proof (Hpos k) as Hk.
  destruct (Z.eqb_spec (default 0 (counts !! state_row_key row)) 0) as [E|E].
  - rewrite !fmap_cons, !count_cons, IH by done. case_decide as Hx; [subst k; lia|lia].
  - rewrite IH.
    + rewrite lookup_count, fmap_cons, count_cons. case_decide as Hx; [subst k; lia|lia].
    + intros k'. rewrite lookup_count. case_decide; [lia|apply Hpos].
Qed.

Lemma uncovered_sublist counts rows : uncovered counts rows `sublist_of` rows.
Proof.
  revert counts. induction rows as [|row rows IH]; intros counts; cbn [uncovered]; [done|].
  destruct (_ =? 0); [by apply sublist_skip|by apply sublist_cons].
Qed.

(** What one result has more than the other, on either side: by key, and so by value. *)
Lemma difference_balances previous current :
  canons previous ++ canons (uncovered (row_counts previous) current) ≡ₚ
  canons (uncovered (row_counts current) previous) ++ canons current.
Proof.
  rewrite <-!fmap_app. apply (fmap_Permutation_through state_row_key); [apply state_row_key_canonical|]. rewrite !fmap_app.
  apply (Permutation_count_occ (decide_rel (=))). intros k. apply Nat2Z.inj. rewrite !count_occ_app, !Nat2Z.inj_add.
  rewrite !uncovered_spec, !row_counts_spec; [lia|intros k'; rewrite row_counts_spec; lia..].
Qed.

Lemma builds_difference out previous current :
  builds (canonical_change <$> out) (canons previous) →
  builds (canonical_change <$> (out ++ emit_diff_rows previous current)) (canons current).
Proof.
  intros Hb. unfold emit_diff_rows. rewrite !fmap_app, app_assoc, <-!list_fmap_compose.
  set (removed := uncovered _ previous). set (added := uncovered _ current).
  assert (∀ kind rows, canonical_change ∘ (λ row, mkRow row (Some kind)) <$> rows = (λ x, mkRow x (Some kind)) <$> canons rows) as Hf
    by (intros; by rewrite <-list_fmap_compose).
  rewrite !Hf. pose proof (difference_balances previous current) as Hp. fold removed added in Hp.
  assert (∃ rest, canons previous ≡ₚ canons removed ++ rest ∧ rest ++ canons added ≡ₚ canons current) as (rest & Hr1 & Hr2).
  { destruct (submseteq_Permutation (canons removed) (canons previous)) as [rest Hrest].
    { apply sublist_submseteq. exact (fmap_sublist canonical_row _ _ (uncovered_sublist _ _)). }
    exists rest. split; [done|]. rewrite Hrest, <-app_assoc in Hp. by apply (inj (canons removed ++.)) in Hp. }
  eapply builds_proper; [exact Hr2|]. apply builds_added; [done|]. apply builds_retracted; [done|].
  by eapply builds_proper.
Qed.
End difference.

(** ** Truncation commutes with insertion *)

Section truncation.
Context {E : Type} (evaluate_expression : E → sqlrow → outcome sqlval) (order : list (ordered E)).
Implicit Types (row x y : sqlrow) (rows all : list sqlrow).

Abbreviation le := (row_le evaluate_expression order).
Abbreviation keys := (compare_keys evaluate_expression order).

(** Where [row] belongs: after the rows that are not greater. *)
Record position row rows (i : nat) : Prop := {
  po_length : (i <= length rows)%nat;
  po_before j x : (j < i)%nat → rows !! j = Some x → le x row;
  po_after j x : (i <= j)%nat → rows !! j = Some x → keys row x = Lt
}.

Lemma position_unique row rows i i' : position row rows i → position row rows i' → i = i'.
Proof.
  assert (∀ i i', position row rows i → position row rows i' → (i' <= i)%nat) as Hle.
  { clear i i'. intros i i' Hi Hi'. destruct (decide (i' <= i)%nat) as [|Hlt]; [done|exfalso].
    pose proof (po_length _ _ _ Hi'). destruct (lookup_lt_is_Some_2 rows i) as [x Hx]; [lia|].
    pose proof (po_before _ _ _ Hi' i x ltac:(lia) Hx) as Hb. pose proof (po_after _ _ _ Hi i x ltac:(lia) Hx) as Ha.
    by apply not_lt_le in Hb. }
  intros Hi Hi'. apply Nat.le_antisymm; by apply Hle.
Qed.

Definition insert_at (i : nat) row rows : list sqlrow := take i rows ++ row :: drop i rows.

Lemma insert_sorted_position row rows :
  sorted evaluate_expression order rows → Forall (orderable evaluate_expression order row) rows →
  ∃ i, position row rows i ∧ insert_sorted evaluate_expression order rows row = Ok (insert_at i row rows) ∧
    sorted evaluate_expression order (insert_at i row rows).
Proof.
  intros Hs Hord. destruct (bisect_spec evaluate_expression order row rows (length rows) 0 (length rows)) as (i & E1 & Hi & Hb & Ha);
    try done; try lia; [intros j x Hj Hx; apply lookup_lt_Some in Hx; lia|].
  exists i. split; [by split|]. destruct (insert_sorted_spec evaluate_expression order rows row Hs Hord) as (rows' & E2 & Hs' & _).
  revert E2. unfold insert_sorted. rewrite E1, bind_Ok. intros [= <-]. done.
Qed.

Lemma position_take row all i n : position row all i → position row (take n all) (i `min` n).
Proof.
  intros [Hl Hb Ha]. split.
  - rewrite length_take. lia.
  - intros j x Hj Hx%lookup_take_Some. apply (Hb j); [lia|tauto].
  - intros j x Hj [Hx Hn]%lookup_take_Some. apply (Ha j); [lia|done].
Qed.

(** Inserting into the first [n] rows and dropping what is then too much gives the
    first [n] rows of the full list. *)
Lemma insert_truncated row all i n :
  (i <= length all)%nat →
  let rows := insert_at (i `min` n) row (take n all) in
  (if (n <? length rows)%nat then take (length rows - 1) rows else rows) = take n (insert_at i row all).
Proof.
  intros Hi rows. assert (length rows = S (length all `min` n))%nat as Hlen.
  { unfold rows, insert_at. rewrite length_app, length_take. cbn. rewrite length_drop, length_take. lia. }
  rewrite Hlen. destruct (Nat.ltb_spec n (S (length all `min` n))) as [Hlt|Hge].
  - assert (length all `min` n = n)%nat as -> by lia. replace (S n - 1)%nat with n by lia. unfold rows, insert_at.
    destruct (Nat.le_gt_cases i n) as [Hin|Hin].
    + rewrite Nat.min_l, take_take, Nat.min_l by lia. rewrite !take_app, length_take, Nat.min_l by lia. f_equal.
      destruct (n - i)%nat as [|m] eqn:Em; [done|]. cbn. f_equal. rewrite skipn_firstn_comm, take_take. f_equal. lia.
    + rewrite Nat.min_r, take_take, Nat.min_id by lia. rewrite !take_app, !length_take.
      replace (n - n `min` length all)%nat with 0%nat by lia. replace (n - i `min` length all)%nat with 0%nat by lia.
      rewrite !take_0, !app_nil_r, !take_take. f_equal. lia.
  - unfold rows, insert_at. rewrite Nat.min_l by lia. rewrite (take_ge all) by lia. symmetry. apply take_ge.
    rewrite length_app, length_take. cbn. rewrite length_drop. lia.
Qed.

Lemma insert_at_perm i row rows : insert_at i row rows ≡ₚ row :: rows.
Proof. unfold insert_at. by rewrite <-Permutation_middle, take_drop. Qed.
End truncation.

(** A retraction takes out a row that is equal by value; it finds one when rows equal to
    it by value have its key. *)
Lemma retract_row_spec `{CanonPickle} rows row :
  (∀ x, x ∈ rows → canonical_row x = canonical_row row → state_row_key x = state_row_key row) →
  match retract_row rows row with
  | Some rows' => rows' `sublist_of` rows ∧ (canonical_row <$> rows) ≡ₚ canonical_row row :: (canonical_row <$> rows')
  | None => canonical_row row ∉ (canonical_row <$> rows)
  end.
Proof.
  intros Henc. induction rows as [|x rows IH]; cbn [retract_row]; [apply not_elem_of_nil|]. case_decide as Hx.
  - apply state_row_key_canonical in Hx. rewrite fmap_cons, Hx. split; [by apply sublist_cons|done].
  - specialize (IH ltac:(intros y Hy; apply Henc; by right)). destruct (retract_row rows row) as [rows'|]; cbn.
    + destruct IH as [Hs Hp]. split; [by apply sublist_skip|]. rewrite Hp. apply Permutation_swap.
    + intros [E|?]%elem_of_cons; [|done]. apply Hx, Henc; [by left|done].
Qed.

Lemma sublist_Forall_inv {A} (P : A → Prop) (l k : list A) : l `sublist_of` k → Forall P k → Forall P l.
Proof. induction 1; intros Hk; [done|..]; apply Forall_cons in Hk as [? ?]; [constructor|]; auto. Qed.

(** ** The operator on the abstract backend *)

Section top_n_proof.
Context {E B In : Type} `{CanonPickle} (evaluate_expression : E → sqlrow → outcome sqlval).
Context (order : list (ordered E)) (limit : nat) (retractable : bool).
Context `{!ManagedStateBackend B string unit top_n_state, !KeyCodec string, !Blake2b}
  (descriptors : StateDescriptor top_n_state → Prop) (universe : string → unit → Prop)
  (repr : B → keyed_model string unit top_n_state → Prop)
  `{!BackendRefines B string unit top_n_state descriptors universe repr} (clock : nat → Z) (cfg : operator_config).
Context (block_of : In → option (Row sqlrow)) (record_timestamp : In → option pyarg) (rows_state : StateDescriptor top_n_state)
  (row_of : In → Row sqlrow) (domain : sqlrow → Prop).

Implicit Types (a : op_model string unit top_n_state (Row sqlrow)) (r : In) (rows all : list sqlrow).

Abbreviation hooks := (SQLTopNOperator evaluate_expression order limit retractable clock block_of record_timestamp rows_state).

(** The table of the canonical rows; a retraction of an absent row is ignored. *)
Definition top_n_table (inputs : list In) : list (gmap string canon) :=
  foldl (λ t r, change (is_addition (row_kind_of (row_of r))) (canonical_row (row_values (row_of r))) t) [] inputs.

(** The rows in use can be ordered, and those that are equal by value have one key: they
    share their strings alike. *)
Record top_n_setup : Prop := {
  ts_descriptor : descriptors rows_state;
  ts_limit : (0 < limit)%nat;
  ts_domain x y : domain x → domain y → orderable evaluate_expression order x y;
  ts_encoded x y : domain x → domain y → canonical_row x = canonical_row y → state_row_key x = state_row_key y;
  ts_universe : universe global_top_n_key ();
  ts_owned : ∃ g, key_group_for_key global_top_n_key (AInt (oc_max_parallelism cfg)) = Ok g ∧
    KeyGroupRange_contains (oc_key_group_range cfg) g = true
}.

Record valid_top_n_input r : Prop := {
  vt_block : block_of r = Some (row_of r);
  vt_domain : domain (row_values (row_of r));
  vt_timestamp : ∃ t, check_timestamp (record_timestamp r) = Ok t;
  vt_kind : retractable = true ∨ is_addition (row_kind_of (row_of r)) = true
}.

(** What is kept of a sorted arrangement [all] of the table. *)
Definition kept all : list sqlrow := if retractable then all else take limit all.

Definition stored_rows rows : option top_n_state := match rows with [] => None | _ => Some (TopNRows rows) end.

Record top_n_inv (t : list (gmap string canon)) all a : Prop := {
  tn_sorted : sorted evaluate_expression order all;
  tn_domain : Forall domain all;
  tn_table : (canonical_row <$> all) ≡ₚ t;
  tn_value : km_values (am_backend a) !! (sd_name rows_state, global_top_n_key, ()) = stored_rows (kept all);
  tn_timers : km_timers (am_backend a) = ∅;
  tn_out : builds (canonical_change <$> am_out a) (canonical_row <$> take limit all)
}.

Context (Hsetup : top_n_setup).

Lemma take_kept all : take limit (kept all) = take limit all.
Proof. unfold kept. destruct retractable; [done|]. rewrite take_take. f_equal. lia. Qed.

Lemma restore_stored all : restore_rows evaluate_expression order limit retractable (stored_rows (kept all)) = Ok (kept all).
Proof.
  unfold restore_rows. assert ((match stored_rows (kept all) with None => Ok [] | Some (TopNList rows) => sort_rows evaluate_expression order rows
    | Some (TopNRows rows) => Ok rows | Some TopNOther => Err SQLQueryError end) = Ok (kept all)) as -> by (by destruct (kept all)).
  rewrite bind_Ok. f_equal. unfold kept. destruct retractable; [done|]. cbn [negb andb].
  destruct (Nat.ltb_spec limit (length (take limit all))) as [Hlt|]; [|done]. rewrite length_take in Hlt. lia.
Qed.

Lemma domain_orderable row all : domain row → Forall domain all → Forall (orderable evaluate_expression order row) all.
Proof. intros Hrow. rewrite !Forall_forall. intros Hall x Hx. apply (ts_domain Hsetup); auto. Qed.

Lemma kept_sublist all : kept all `sublist_of` all.
Proof. unfold kept. destruct retractable; [done|apply sublist_take]. Qed.

(** Inserting a row into what is kept. *)
Lemma insert_kept row all :
  sorted evaluate_expression order all → Forall domain all → domain row →
  ∃ i rows', insert_sorted evaluate_expression order (kept all) row = Ok rows' ∧
    (if negb retractable && (limit <? length rows')%nat then take (length rows' - 1) rows' else rows') = kept (insert_at i row all) ∧
    sorted evaluate_expression order (insert_at i row all).
Proof.
  intros Hs Hall Hrow.
  destruct (insert_sorted_position evaluate_expression order row all Hs (domain_orderable _ _ Hrow Hall)) as (i & Hi & _ & Hs').
  destruct (insert_sorted_position evaluate_expression order row (kept all)) as (j & Hj & Hins & _).
  { eapply StronglySorted_sublist; [exact Hs|apply kept_sublist]. }
  { apply domain_orderable; [done|]. eapply sublist_Forall_inv; [apply kept_sublist|done]. }
  exists i. eexists. split; [exact Hins|]. split; [|done]. unfold kept in *. destruct retractable; cbn [negb andb].
  - by rewrite (position_unique _ _ _ _ _ _ Hj Hi).
  - rewrite (position_unique _ _ _ _ _ _ Hj (position_take _ _ _ _ _ limit Hi)).
    apply insert_truncated, (po_length _ _ _ _ _ Hi).
Qed.

(** Writing the new list and the difference of the two results. *)
Lemma runs_store k (rows : list sqlrow) a :
  k = global_top_n_key → km_key (am_backend a) = Some k →
  runs repr a (if decide (rows = []) then state_clear rows_state () else value_state_set clock rows_state () (TopNRows rows)) ()
    (a_with_backend (m_update (partial_alter (λ _, stored_rows rows) (sd_name rows_state, k, ()))) a).
Proof.
  intros -> Hk. pose proof (ts_universe Hsetup). pose proof (ts_descriptor Hsetup). case_decide as Hnil.
  - rewrite Hnil. by apply (runs_clear descriptors universe repr).
  - destruct rows as [|x rows]; [done|]. by apply (runs_value_set descriptors universe repr).
Qed.

Lemma top_n_step t all a r :
  top_n_inv t all a → valid_top_n_input r →
  triple repr a (process_element (V := top_n_state) clock cfg hooks r)
    (λ _ a', ∃ all', top_n_inv (change (is_addition (row_kind_of (row_of r))) (canonical_row (row_values (row_of r))) t) all' a').
Proof.
  intros Hi Hv. destruct (vt_timestamp _ Hv) as [ts Hts].
  eapply triple_mono; [apply (triple_untimed_element descriptors universe repr clock cfg hooks r global_top_n_key ts a
    (λ a', ∃ all', top_n_inv (change (is_addition (row_kind_of (row_of r))) (canonical_row (row_values (row_of r))) t) all' a'))
    |by intros ? ? [? _]].
  { split; [|apply (ts_owned Hsetup)]. by exists (record_timestamp r). }
  { done. }
  cbn [process_managed_element SQLTopNOperator]. unfold top_n_process. rewrite (vt_block _ Hv).
  rewrite (proj2 (Nat.eqb_neq limit 0)) by (pose proof (ts_limit Hsetup); lia).
  set (a0 := a_bind global_top_n_key ts a). set (row := row_values (row_of r)).
  eapply triple_runs; [apply (runs_value_get descriptors universe repr clock a0 rows_state global_top_n_key ());
    [apply (ts_descriptor Hsetup)|done|apply (ts_universe Hsetup)]|].
  change (km_values (am_backend a0)) with (km_values (am_backend a)). rewrite (tn_value _ _ _ Hi), restore_stored.
  eapply triple_runs; [apply runs_lift|].
  assert (Hdone : ∀ all', sorted evaluate_expression order all' → Forall domain all' →
    (canonical_row <$> all') ≡ₚ change (is_addition (row_kind_of (row_of r))) (canonical_row row) t →
    triple repr a0 (_ ← (if decide (kept all' = []) then state_clear rows_state ()
        else value_state_set clock rows_state () (TopNRows (kept all'))); emit_diff (take limit (kept all)) (take limit (kept all')))
      (λ _ a', (∃ all', top_n_inv (change (is_addition (row_kind_of (row_of r))) (canonical_row row) t) all' a') ∧
        km_timers (am_backend a') = ∅)).
  { intros all' Hs' Hd' Hp'. eapply triple_runs; [by apply runs_store|]. unfold emit_diff. rewrite !take_kept.
    eapply triple_mono; [apply runs_collect_all|]. intros ? a' [_ ->]. split; [|apply (tn_timers _ _ _ Hi)].
    exists all'. split; try done.
    - cbn. by rewrite lookup_partial_alter_eq.
    - apply (tn_timers _ _ _ Hi).
    - cbn. apply builds_difference. apply (tn_out _ _ _ Hi). }
  destruct (is_addition (row_kind_of (row_of r))) eqn:Ek.
  - destruct (insert_kept row all (tn_sorted _ _ _ Hi) (tn_domain _ _ _ Hi) (vt_domain _ Hv)) as (i & rows' & -> & Ekept & Hs').
    eapply triple_runs; [eapply triple_runs; [apply runs_lift|]; apply runs_ret|]. cbn beta iota. rewrite Ekept.
    apply Hdone; [done| |].
    + rewrite insert_at_perm. constructor; [apply (vt_domain _ Hv)|apply (tn_domain _ _ _ Hi)].
    + cbn [change]. by rewrite insert_at_perm, fmap_cons, (tn_table _ _ _ Hi), (comm (++)).
  - destruct (vt_kind _ Hv) as [Hret|?]; [|congruence]. assert (∀ l, kept l = l) as Hkept by (intros; unfold kept; by rewrite Hret).
    rewrite Hret. cbn [negb]. eapply triple_runs; [apply runs_ret|]. rewrite Hkept.
    assert (∀ x, x ∈ all → canonical_row x = canonical_row row → state_row_key x = state_row_key row) as Henc.
    { intros x Hx. apply (ts_encoded Hsetup); [|apply (vt_domain _ Hv)].
      by apply (proj1 (Forall_forall _ _) (tn_domain _ _ _ Hi)). }
    pose proof (retract_row_spec all row Henc) as Hret_row. destruct (retract_row all row) as [rows'|].
    + destruct Hret_row as [Hsub Hp]. rewrite <-(Hkept rows'), <-(Hkept all). apply Hdone.
      * eapply StronglySorted_sublist; [apply (tn_sorted _ _ _ Hi)|done].
      * eapply sublist_Forall_inv; [done|apply (tn_domain _ _ _ Hi)].
      * cbn [change]. rewrite (tn_table _ _ _ Hi) in Hp. apply (inj (canonical_row row ::.)).
        rewrite <-Hp. apply remove_row_perm. rewrite Hp. by left.
    + apply triple_ret. split; [|apply (tn_timers _ _ _ Hi)]. exists all. cbn [change].
      rewrite remove_row_absent by (by rewrite <-(tn_table _ _ _ Hi)). destruct Hi. by split.
Qed.
End top_n_proof.

(** C37. Top-N is ORDER BY ... LIMIT: for every sequence of changes of the input table,
    retractions of absent rows included, on any backend that meets the contract, the
    operator never raises, and the changelog it puts out builds the first [limit] rows
    of a sorted arrangement of the table.  An insert-only operator, which forgets all
    but [limit] rows, puts out the same result.  Rows are taken up to the equality of
    their values.  The rows are such that ORDER BY can compare them, and that those equal
    by value are encoded alike ([ts_encoded]): the key of a row depends on which of its
    strings are one object, and a retraction whose strings are shared otherwise does not
    find its row ([unshared_row_not_retracted]). *)
Theorem top_n_incremental {E B In : Type} `{CanonPickle} (evaluate_expression : E → sqlrow → outcome sqlval)
    (order : list (ordered E)) (limit : nat) (retractable : bool)
    `{!ManagedStateBackend B string unit top_n_state, !KeyCodec string, !Blake2b} descriptors universe repr
    `{!BackendRefines B string unit top_n_state descriptors universe repr} clock cfg
    (block_of : In → option (Row sqlrow)) record_timestamp rows_state row_of (domain : sqlrow → Prop) (inputs : list In)
    s0 bound_key bound_time :
  top_n_setup evaluate_expression order limit descriptors universe cfg rows_state domain →
  (∀ r, r ∈ inputs → valid_top_n_input retractable block_of record_timestamp row_of domain r) →
  op_repr repr s0 (mkOpModel (mkModel bound_key ∅ ∅) (-1) bound_time [] 0) →
  ∃ s' all,
    for_each (process_element (V := top_n_state) clock cfg (SQLTopNOperator evaluate_expression order limit retractable clock
      block_of record_timestamp rows_state)) inputs s0 = (Ok (), s') ∧
    sorted evaluate_expression order all ∧ (canonical_row <$> all) ≡ₚ top_n_table row_of inputs ∧
    builds (canonical_change <$> os_out s') (canonical_row <$> take limit all).
Proof.
  intros Hsetup Hvalid Hs0.
  set (run := process_element (V := top_n_state) clock cfg (SQLTopNOperator evaluate_expression order limit retractable clock
      block_of record_timestamp rows_state)).
  set (inv := λ t a, ∃ all, top_n_inv evaluate_expression order limit retractable rows_state domain t all a).
  set (a0 := mkOpModel (mkModel bound_key ∅ ∅) (-1) bound_time [] 0 : op_model string unit top_n_state (Row sqlrow)).
  assert (triple repr a0 (for_each run inputs) (λ _ a', inv (top_n_table row_of inputs) a')) as Ht.
  { eapply triple_mono; [apply (triple_for_each repr run (λ rest a, ∃ hist, inputs = hist ++ rest ∧
      inv (top_n_table row_of hist) a) inputs)|].
    - exists []. split; [done|]. exists []. split; try done.
      + apply SSorted_nil.
      + cbn. rewrite lookup_empty. unfold kept. rewrite take_nil. by destruct retractable.
      + cbn. rewrite take_nil. unfold builds. by rewrite !filter_nil.
    - intros r rest a (hist & Eq & all & Hi).
      eapply triple_mono; [apply (top_n_step evaluate_expression order limit retractable descriptors universe repr clock cfg)
        with (2 := Hi); [exact Hsetup|apply Hvalid; rewrite Eq; set_solver]|].
      intros ? a' Hi'. exists (hist ++ [r]). rewrite <-app_assoc. split; [done|].
      unfold inv, top_n_table. by rewrite foldl_app.
    - intros ? a (hist & Eq & Hi). rewrite app_nil_r in Eq. by rewrite Eq. }
  destruct (Ht s0 Hs0) as ([] & s' & a' & Erun & Hs' & all & Hi). exists s', all. split; [done|].
  rewrite (or_out _ _ _ Hs'). destruct Hi. done.
Qed.

(** ** Examples *)

Module TopNSamples.
Import Samples.
#[export] Instance sample_pickle : CanonPickle := sql_sample_pickle.
#[export] Instance top_n_state_eq_dec : EqDecision top_n_state.
Proof. solve_decision. Defined.
#[export] Instance top_n_state_countable : Countable top_n_state :=
  inj_countable' (A := list sqlrow + list sqlrow + ())
    (λ s, match s with TopNRows l => inl (inl l) | TopNList l => inl (inr l) | TopNOther => inr () end)
    (λ x, match x with inl (inl l) => TopNRows l | inl (inr l) => TopNList l | inr _ => TopNOther end) ltac:(by intros []).
(** The operator has one key. *)
#[export] Instance one_key_codec : KeyCodec string := countable_codec.
#[export] Instance namespace_codec : KeyCodec unit := countable_codec.
#[export] Instance address_codec : KeyCodec (string * unit) := countable_codec.
#[export] Instance address_serializer : Serializer (string * unit) := countable_serializer.
#[export] Instance state_serializer : Serializer top_n_state := countable_serializer.

Definition rows_state : StateDescriptor top_n_state := mkStateDescriptor [x01] state_serializer None.
Definition column (name : string) (row : sqlrow) : outcome sqlval := of_option SQLQueryError (row_data row !! name).
(** ORDER BY v DESC NULLS LAST LIMIT 2. *)
Definition by_v : list (ordered string) := [mkOrdered "v"%string true false].
(** A row of one number; its only string is the name of the column. *)
Definition row (v : sqlval) : sqlrow := mkSqlRow {["v"%string := v]} [0]%nat.
Definition config : operator_config := mkConfig 1 (mkKeyGroupRange 0 0) 10.
Definition start : op_state (backend string) (Row sqlrow) := mkOp MemoryStateBackend_init (-1) None 0 [] 0 0 0.
Definition run (retractable : bool) (inputs : list (Row sqlrow)) : outcome unit * op_state (backend string) (Row sqlrow) :=
  for_each (process_element (V := top_n_state) (NS := unit) (λ _, 0) config
    (SQLTopNOperator column by_v 2 retractable (λ _, 0) Some (λ _, None) rows_state)) inputs start.

(** The row of the integer 3 is retracted as the float 3.0; then a row that is absent. *)
Definition inputs : list (Row sqlrow) :=
  [ChangelogRow_insert (row (SInt 1)); ChangelogRow_insert (row SNull); ChangelogRow_insert (row (SInt 3));
   ChangelogRow_delete (row (SFloat (FFin (Qc_of_Z 3)))); ChangelogRow_delete (row (SInt 7))].

(** A row of a number and of a name that stands in it twice: as one string, and as two
    equal ones. *)
Definition named (sharing : list nat) : sqlrow :=
  mkSqlRow {["v"%string := SInt 1; "w"%string := SStr "ab"; "z"%string := SStr "ab"]} sharing.

Definition descriptors (d : StateDescriptor top_n_state) : Prop := d = rows_state.
Definition universe (k : string) (ns : unit) : Prop := k = global_top_n_key.

Lemma top_n_contract_domain : contract_domain descriptors universe.
Proof.
  split.
  - by intros d ->.
  - by intros d d' -> ->.
  - intros d k [] -> ->. eexists. vm_compute. reflexivity.
  - by intros k [] k' [] -> ->.
Defined.
End TopNSamples.

Section top_n_samples.
Import Samples TopNSamples.

Definition is_number (v : sqlval) : bool := match v with SNull | SInt _ | SFloat _ => true | _ => false end.
Definition numeric (x : sqlrow) : Prop :=
  row_sharing x = [0]%nat ∧ match row_data x !! "v"%string with Some v => is_number v = true | None => False end.

(** A row is not retracted by a row of the same values in which the two equal strings
    are not one object: the retraction leaves it in the result. *)
Example unshared_row_not_retracted :
  let inserted := TopNSamples.named [0; 1; 2; 3; 2]%nat in
  let deleted := TopNSamples.named [0; 1; 2; 3; 4]%nat in
  row_data inserted = row_data deleted ∧
  let s := TopNSamples.run true [ChangelogRow_insert inserted; ChangelogRow_delete deleted] in
  s.1 = Ok () ∧ os_out s.2 = [mkRow inserted (Some INSERT)].
Proof. split; [done|]. vm_compute. by split. Qed.

Lemma top_n_incremental_witness :
  os_out (TopNSamples.run true TopNSamples.inputs).2 =
    [mkRow (TopNSamples.row (SInt 1)) (Some INSERT); mkRow (TopNSamples.row SNull) (Some INSERT);
     mkRow (TopNSamples.row SNull) (Some DELETE); mkRow (TopNSamples.row (SInt 3)) (Some INSERT);
     mkRow (TopNSamples.row (SInt 3)) (Some DELETE); mkRow (TopNSamples.row SNull) (Some INSERT)] ∧
  ∃ s' all, TopNSamples.run true TopNSamples.inputs = (Ok (), s') ∧ sorted TopNSamples.column by_v all ∧
    (canonical_row <$> all) ≡ₚ top_n_table id TopNSamples.inputs ∧
    builds (canonical_change <$> os_out s') (canonical_row <$> take 2 all).
Proof.
  split; [vm_compute; reflexivity|].
  pose proof (memory_refines _ _ TopNSamples.top_n_contract_domain) as Hrefines.
  apply (top_n_incremental TopNSamples.column by_v 2 true TopNSamples.descriptors TopNSamples.universe
    (memory_repr TopNSamples.descriptors TopNSamples.universe) (λ _, 0) TopNSamples.config Some (λ _, None)
    TopNSamples.rows_state id numeric TopNSamples.inputs TopNSamples.start None None).
  - split; [done|lia| |intros x y [Ex _] [Ey _] E; unfold state_row_key; by rewrite E, Ex, Ey
      |done|exists 0; split; vm_compute; reflexivity].
    intros x y [_ Hx] [_ Hy]. repeat constructor. cbn [o_this]. unfold TopNSamples.column.
    destruct (row_data x !! _) as [v|]; [|done]. destruct (row_data y !! _) as [w|]; [|done]. exists v, w. split_and!; [done..|].
    destruct v as [|?|?|?|?], w as [|?|?|?|?]; done.
  - refine (proj1 (Forall_forall (valid_top_n_input true _ _ _ _) _) _).
    repeat constructor; try (by eexists); try by left.
  - split; try done. apply memory_repr_init. exact TopNSamples.top_n_contract_domain.
Defined.
End top_n_samples.
