(* ===== verification/SqlAggregate.v ===== *)
(** * Streaming GROUP BY aggregation

    Models [src/ray/klein/runtime/operator/sql_aggregate_operator.py]: one
    accumulator per group in managed state, updated by every change of the input, and
    the changelog of the aggregate row it makes.

    A group key is the canonical form of its values and the sharing of its strings, which
    is what its encoding depends on; the values shown in the result are those of the
    current row, as the key object of the code carries them.  [Decimal] and complex
    values are not modelled; expressions are a parameter, and so is which strings of a
    group key or of a result are one object. *)
From Stdlib Require Import QArith.QArith QArith.Qcanon.
From S2P Require Import Prelude Dicts Concrete KeyGroups StateCodec StateBackend BackendContract ManagedState Rows SqlValues SqlState.
Open Scope Z_scope.

(** ** Queries *)

Inductive agg_kind := ACount | ASum | AAvg | AMin | AMax | AOtherAgg.

(** [exp.AggFunc]: [agg_this] is [None] for a missing argument or a star. *)
Record aggregate (E : Type) := mkAggregate { agg_type : agg_kind; agg_this : option E }.
Arguments mkAggregate {E}.
Arguments agg_type {E}.
Arguments agg_this {E}.

(** A projection: the output name and an aggregate, or the text of another expression. *)
Record projection (E : Type) := mkProjection { p_name : string; p_expression : aggregate E + string }.
Arguments mkProjection {E}.
Arguments p_name {E}.
Arguments p_expression {E}.

(** ** Accumulators *)

(** The dictionary of one aggregate; the entries an aggregate does not use keep their
    initial values. *)
Record agg_item := mkItem {
  it_count : Z;
  it_sum : Z;
  it_floating_sum : Qc;
  it_floating_count : Z;
  it_nan_count : Z;
  it_nan_value : option sqlval;
  it_positive_count : Z;
  it_positive_value : option sqlval;
  it_negative_count : Z;
  it_negative_value : option sqlval;
  it_values : list (bytes * (sqlval * Z));
  it_current : option sqlval;
  it_current_key : option bytes
}.

Record accumulator := mkAccumulator {
  acc_row_count : Z;
  acc_aggregates : list agg_item;
  acc_row_counts : option (gmap bytes Z)
}.

(** What the state may hold: an accumulator of the current version, the list of rows of
    an older checkpoint, or something else. *)
Inductive agg_state :=
  | AggAccumulator (a : accumulator)
  | AggRows (rows : list sqlrow)
  | AggOther.

(** A group key: canonical values, and the sharing of their strings. *)
Abbreviation group_id := (list canon * list nat)%type.

Definition empty_item : agg_item := mkItem 0 0 (Qc_of_Z 0) 0 0 None 0 None 0 None [] None None.

Definition set_count n i := mkItem n (it_sum i) (it_floating_sum i) (it_floating_count i) (it_nan_count i) (it_nan_value i)
  (it_positive_count i) (it_positive_value i) (it_negative_count i) (it_negative_value i) (it_values i) (it_current i) (it_current_key i).
Definition set_sum n i := mkItem (it_count i) n (it_floating_sum i) (it_floating_count i) (it_nan_count i) (it_nan_value i)
  (it_positive_count i) (it_positive_value i) (it_negative_count i) (it_negative_value i) (it_values i) (it_current i) (it_current_key i).
Definition set_floating q n i := mkItem (it_count i) (it_sum i) q n (it_nan_count i) (it_nan_value i)
  (it_positive_count i) (it_positive_value i) (it_negative_count i) (it_negative_value i) (it_values i) (it_current i) (it_current_key i).
Definition set_nan n v i := mkItem (it_count i) (it_sum i) (it_floating_sum i) (it_floating_count i) n v
  (it_positive_count i) (it_positive_value i) (it_negative_count i) (it_negative_value i) (it_values i) (it_current i) (it_current_key i).
Definition set_positive n v i := mkItem (it_count i) (it_sum i) (it_floating_sum i) (it_floating_count i) (it_nan_count i) (it_nan_value i)
  n v (it_negative_count i) (it_negative_value i) (it_values i) (it_current i) (it_current_key i).
Definition set_negative n v i := mkItem (it_count i) (it_sum i) (it_floating_sum i) (it_floating_count i) (it_nan_count i) (it_nan_value i)
  (it_positive_count i) (it_positive_value i) n v (it_values i) (it_current i) (it_current_key i).
Definition set_values l i := mkItem (it_count i) (it_sum i) (it_floating_sum i) (it_floating_count i) (it_nan_count i) (it_nan_value i)
  (it_positive_count i) (it_positive_value i) (it_negative_count i) (it_negative_value i) l (it_current i) (it_current_key i).
Definition set_current v k i := mkItem (it_count i) (it_sum i) (it_floating_sum i) (it_floating_count i) (it_nan_count i) (it_nan_value i)
  (it_positive_count i) (it_positive_value i) (it_negative_count i) (it_negative_value i) (it_values i) v k.

Section aggregation.
Context {E : Type} `{CanonPickle} (evaluate_expression : E → sqlrow → outcome sqlval).
Implicit Types (row : sqlrow) (item : agg_item) (acc : accumulator) (addition : bool).

Definition direction_of addition : Z := if addition then 1 else -1.

(** *** Sums *)

(** [item["sum"] += value]: the running sum is an integer. *)
Definition add_to_sum (value : sqlval) (direction : Z) item : outcome agg_item :=
  match value with
  | SInt z => Ok (set_sum (it_sum item + direction * z) item)
  | SBool b => Ok (set_sum (it_sum item + direction * Z_of_bool b) item)
  | _ => Err TypeError
  end.

Definition update_sum item (value : sqlval) addition : outcome agg_item :=
  let direction := direction_of addition in
  if is_nan_value value then
    let previous_count := it_nan_count item in
    let nan_count := previous_count + direction in
    Ok (set_nan nan_count (if addition && (previous_count =? 0) then Some value
                           else if nan_count =? 0 then None else it_nan_value item) item)
  else
    sign ← infinity_sign value;
    if negb (sign =? 0) then
      if 0 <? sign then
        let count := it_positive_count item + direction in
        Ok (set_positive count (if count =? 0 then None else Some value) item)
      else
        let count := it_negative_count item + direction in
        Ok (set_negative count (if count =? 0 then None else Some value) item)
    else
      match value with
      | SFloat (FFin q) => Ok (set_floating (it_floating_sum item + Qc_of_Z direction * q)%Qc (it_floating_count item + direction) item)
      | _ => add_to_sum value direction item
      end.

(** *** Extremes *)

(** [(comparison < 0) if minimum else (comparison > 0)]. *)
Definition better (minimum : bool) (comparison : Z) : bool := if minimum then comparison <? 0 else 0 <? comparison.

(** The loop of [_replace_extreme]. *)
Fixpoint best_of (minimum : bool) (best : bytes * sqlval) (l : list (bytes * (sqlval * Z))) : outcome (bytes * sqlval) :=
  match l with
  | [] => Ok best
  | (candidate_key, (candidate, _)) :: l =>
      comparison ← compare_non_null_values candidate best.2;
      best_of minimum (if better minimum comparison then (candidate_key, candidate) else best) l
  end.

Definition replace_extreme (minimum : bool) item : outcome agg_item :=
  match it_values item with
  | [] => Ok (set_current None None item)
  | (key, (value, _)) :: _ =>
      best ← best_of minimum (key, value) (it_values item);
      Ok (set_current (Some best.2) (Some best.1) item)
  end.

Definition update_extreme (minimum : bool) item (value : sqlval) addition : outcome agg_item :=
  let value_key := state_value_key value in
  let existing := dict_get value_key (it_values item) in
  if addition then
    let item := set_values (dict_set value_key (value, match existing with None => 1 | Some (_, n) => n + 1 end) (it_values item)) item in
    match it_current item with
    | None => Ok (set_current (Some value) (Some value_key) item)
    | Some current =>
        comparison ← compare_non_null_values value current;
        Ok (if better minimum comparison then set_current (Some value) (Some value_key) item else item)
    end
  else
    match existing with
    | None => Ok item
    | Some (v, n) =>
        if 1 <? n then Ok (set_values (dict_set value_key (v, n - 1) (it_values item)) item)
        else
          let item := set_values (dict_pop value_key (it_values item)) item in
          if decide (it_current_key item = Some value_key) then replace_extreme minimum item else Ok item
    end.

(** *** One row *)

Definition update_aggregate (aggregate : aggregate E) item row addition : outcome agg_item :=
  match agg_type aggregate, agg_this aggregate with
  | ACount, None => Ok (set_count (it_count item + direction_of addition) item)
  | _, None => Err SQLQueryError
  | kind, Some argument =>
      value ← evaluate_expression argument row;
      match value with
      | SNull => Ok item
      | _ =>
          let item := set_count (it_count item + direction_of addition) item in
          match kind with
          | ACount => Ok item
          | ASum | AAvg => update_sum item value addition
          | AMin => update_extreme true item value addition
          | AMax => update_extreme false item value addition
          | AOtherAgg => Err SQLQueryError
          end
      end
  end.

(** [_accept_row]: the new row counts, or that the row is not accepted. *)
Definition accept_row (row_counts : option (gmap bytes Z)) row addition : outcome (option (option (gmap bytes Z))) :=
  match row_counts with
  | None => if addition then Ok (Some None) else Err SQLQueryError
  | Some counts =>
      let row_key := state_row_key row in
      let existing := default 0 (counts !! row_key) in
      if negb addition && (existing =? 0) then Ok None
      else if addition then Ok (Some (Some (<[row_key := existing + 1]> counts)))
      else if existing =? 1 then Ok (Some (Some (delete row_key counts)))
      else Ok (Some (Some (<[row_key := existing - 1]> counts)))
  end.

Fixpoint update_aggregates (aggregates : list (aggregate E)) (items : list agg_item) row addition : outcome (list agg_item) :=
  match aggregates, items with
  | [], [] => Ok []
  | a :: aggregates, i :: items =>
      i ← update_aggregate a i row addition; items ← update_aggregates aggregates items row addition; Ok (i :: items)
  | _, _ => Err ValueError
  end.

Context (group_expressions : list (string * E)) (projections : list (projection E)) (retractable : bool).

(** [self._aggregate_expressions]. *)
Definition aggregate_expressions : list (aggregate E) :=
  omap (λ p, match p_expression p with inl a => Some a | inr _ => None end) projections.

(** [_apply_row]: the new accumulator, or that nothing changed. *)
Definition apply_row acc row addition : outcome (option accumulator) :=
  accepted ← accept_row (acc_row_counts acc) row addition;
  match accepted with
  | None => Ok None
  | Some row_counts =>
      items ← update_aggregates aggregate_expressions (acc_aggregates acc) row addition;
      Ok (Some (mkAccumulator (acc_row_count acc + direction_of addition) items row_counts))
  end.

Definition empty_accumulator : accumulator :=
  mkAccumulator 0 ((λ _, empty_item) <$> aggregate_expressions) (if retractable then Some ∅ else None).

(** The migration of a list of rows. *)
Definition accumulate_row acc row : outcome accumulator :=
  r ← apply_row acc row true; Ok (default acc r).

Definition restore_accumulator (stored : option agg_state) : outcome accumulator :=
  match stored with
  | None => Ok empty_accumulator
  | Some (AggAccumulator acc) =>
      if (length (acc_aggregates acc) =? length aggregate_expressions)%nat then Ok acc else Err SQLQueryError
  | Some (AggRows rows) => foldM accumulate_row empty_accumulator rows
  | Some AggOther => Err SQLQueryError
  end.

(** *** Results *)

Definition sum_value item : outcome sqlval :=
  if negb (it_nan_count item =? 0) then Ok (default SNull (it_nan_value item))
  else
    let positive := it_positive_count item in
    let negative := it_negative_count item in
    if negb (positive =? 0) && negb (negative =? 0) then Ok (SFloat FNaN)
    else if negb (positive =? 0) then Ok (default SNull (it_positive_value item))
    else if negb (negative =? 0) then Ok (default SNull (it_negative_value item))
    else if negb (it_floating_count item =? 0)
    then Ok (SFloat (float_of_fraction (it_floating_sum item + Qc_of_Z (it_sum item))%Qc))
    else Ok (SInt (it_sum item)).

Definition aggregate_value (aggregate : aggregate E) item : outcome sqlval :=
  match agg_type aggregate with
  | ACount => Ok (SInt (it_count item))
  | ASum => if it_count item =? 0 then Ok SNull else sum_value item
  | AAvg => if it_count item =? 0 then Ok SNull else v ← sum_value item; true_divide v (it_count item)
  | AMin | AMax => Ok (default SNull (it_current item))
  | AOtherAgg => Err SQLQueryError
  end.

(** The loop of [_result] over the projections, with the items still to use. *)
Fixpoint project (group_lookup : gmap string sqlval) (projections : list (projection E)) (items : list agg_item) (result : sqlvalues)
    : outcome sqlvalues :=
  match projections with
  | [] => Ok result
  | p :: projections =>
      if decide (is_Some (result !! p_name p)) then Err SQLQueryError
      else
        match p_expression p with
        | inl aggregate =>
            match items with
            | [] => Err IndexError
            | item :: items =>
                value ← aggregate_value aggregate item;
                project group_lookup projections items (<[p_name p := value]> result)
            end
        | inr sql =>
            match group_lookup !! sql with
            | None => Err SQLQueryError
            | Some value => project group_lookup projections items (<[p_name p := value]> result)
            end
        end
  end.

Definition group_values row : outcome (list sqlval) := mapM_outcome (λ e, evaluate_expression e.2 row) group_expressions.

(** [{expression.sql(): group_values[index]}]. *)
Definition group_lookup {A} (values : list A) : gmap string A :=
  foldl (λ (m : gmap string A) '(name, v), <[name := v]> m) ∅ (zip group_expressions.*1 values).

(** A new row object; [sharing] tells which of its strings are one object. *)
Definition result acc (values : list sqlval) (sharing : list nat) : outcome (option sqlrow) :=
  if (acc_row_count acc =? 0) && negb (bool_decide (group_expressions = [])) then Ok None
  else r ← project (group_lookup values) projections (acc_aggregates acc) ∅; Ok (Some (mkSqlRow r sharing)).

(** [_emit_change]. *)
Definition changes (previous current : option sqlrow) : list (Row sqlrow) :=
  match previous, current with
  | None, None => []
  | None, Some current => [mkRow current (Some INSERT)]
  | Some previous, None => [mkRow previous (Some DELETE)]
  | Some previous, Some current =>
      if decide (state_row_key previous = state_row_key current) then []
      else [mkRow previous (Some UPDATE_BEFORE); mkRow current (Some UPDATE_AFTER)]
  end.

(** ** The operator *)

Context {B In : Type} `{ManagedStateBackend B group_id unit agg_state, KeyCodec group_id, Blake2b} (clock : nat → Z)
  (block_of : In → option (Row sqlrow)) (record_timestamp : In → option pyarg) (aggregate_state : StateDescriptor agg_state).

(** Which strings are one object: of the group key of a row, and of the result computed
    from an accumulator while a record is processed. *)
Context (group_sharing : sqlrow → list nat) (result_sharing : In → accumulator → list nat).

(** [SQLGroupKeySelector], as it is encoded; the key of a global aggregate is a constant. *)
Definition group_key row : outcome group_id :=
  if bool_decide (group_expressions = []) then Ok ([CStr "__klein_global_aggregate__"], [0%nat])
  else values ← group_values row; Ok (canonical <$> (values : list sqlval), group_sharing row).

Definition aggregate_process (r : In) : op B (Row sqlrow) unit :=
  match block_of r with
  | None => mret ()
  | Some block =>
      let row := row_values block in
      let addition := is_addition (row_kind_of block) in
      values ← lift (group_values row);
      stored ← value_state_get clock aggregate_state ();
      acc ← lift (restore_accumulator stored);
      previous_result ← lift (result acc values (result_sharing r acc));
      changed ← lift (apply_row acc row addition);
      match changed with
      | None => mret ()
      | Some acc =>
          current_result ← lift (result acc values (result_sharing r acc));
          _ ← (if acc_row_count acc =? 0 then state_clear aggregate_state ()
               else value_state_set clock aggregate_state () (AggAccumulator acc));
          for_each collect (changes previous_result current_result)
      end
  end.

Definition SQLAggregateOperator : @operator_hooks B group_id unit In (Row sqlrow) :=
  mkHooks aggregate_process (λ _, mret ()) (mret ())
    (default_key_and_timestamp block_of record_timestamp
      (λ block, match block with None => Err TypeError | Some b => group_key (row_values b) end) None).
End aggregation.

Definition aggregate_open (ser : Serializer agg_state) (state_ttl default_ttl : option Z) : outcome (StateDescriptor agg_state) :=
  sql_state_descriptor ser (String.list_byte_of_string "sql-group-rows") (effective_ttl state_ttl default_ttl).

(** ** Reference aggregates over a list of values *)

Section reference.
Implicit Types (v w : sqlval) (vs : list sqlval).

Definition count_if (p : sqlval → bool) vs : Z := foldr (λ v n, (if p v then 1 else 0) + n) 0 vs.
Definition total (f : sqlval → Qc) vs : Qc := foldr (λ v q, (f v + q)%Qc) (Qc_of_Z 0) vs.
Definition total_Z (f : sqlval → Z) vs : Z := foldr (λ v n, f v + n) 0 vs.

Definition is_infinity (negative : bool) v : bool := match v with SFloat (FInf b) => Bool.eqb b negative | _ => false end.
Definition is_finite_float v : bool := match v with SFloat (FFin _) => true | _ => false end.
Definition float_part v : Qc := match v with SFloat (FFin q) => q | _ => Qc_of_Z 0 end.
Definition integer_part v : Z := match v with SInt z => z | SBool b => Z_of_bool b | _ => 0 end.

(** SUM: NaN and infinities first, then the exact sum, rounded once if a float takes part. *)
Definition sum_of vs : sqlval :=
  if negb (count_if is_nan_value vs =? 0) then SFloat FNaN
  else if negb (count_if (is_infinity false) vs =? 0) && negb (count_if (is_infinity true) vs =? 0) then SFloat FNaN
  else if negb (count_if (is_infinity false) vs =? 0) then SFloat (FInf false)
  else if negb (count_if (is_infinity true) vs =? 0) then SFloat (FInf true)
  else if negb (count_if is_finite_float vs =? 0)
  then SFloat (float_of_fraction (total float_part vs + Qc_of_Z (total_Z integer_part vs))%Qc)
  else SInt (total_Z integer_part vs).

(** MIN and MAX, by rank. *)
Definition no_worse (minimum : bool) (x y : rank) : Prop := if minimum then cmp_le compare_rank x y else cmp_le compare_rank y x.

#[export] Instance no_worse_dec minimum x y : Decision (no_worse minimum x y).
Proof. unfold no_worse. destruct minimum; apply _. Defined.

Fixpoint extreme_of (minimum : bool) vs : sqlval :=
  match vs with
  | [] => SNull
  | v :: vs =>
      match rank_of v, rank_of (extreme_of minimum vs) with
      | Some x, Some y => if decide (no_worse minimum x y) then v else extreme_of minimum vs
      | Some _, None => v
      | None, _ => extreme_of minimum vs
      end
  end.

Lemma count_if_perm p vs vs' : vs ≡ₚ vs' → count_if p vs = count_if p vs'.
Proof. unfold count_if. induction 1; cbn in *; lia. Qed.

Lemma total_perm f vs vs' : vs ≡ₚ vs' → total f vs = total f vs'.
Proof.
  unfold total. induction 1 as [|v vs vs' _ IH|v w vs|vs vs' vs'' _ IH1 _ IH2]; cbn; [done|by rewrite IH|ring|congruence].
Qed.

Lemma total_Z_perm f vs vs' : vs ≡ₚ vs' → total_Z f vs = total_Z f vs'.
Proof. unfold total_Z. induction 1; cbn in *; lia. Qed.

Lemma count_if_nonneg p vs : 0 <= count_if p vs.
Proof. unfold count_if. induction vs as [|v vs IH]; cbn; [lia|]. destruct (p v); lia. Qed.

(** What [extreme_of] is: a value no other is better than. *)
Lemma no_worse_refl minimum x : no_worse minimum x x.
Proof. destruct minimum; apply (cmp_le_refl compare_rank). Qed.

Lemma no_worse_trans minimum x y z : no_worse minimum x y → no_worse minimum y z → no_worse minimum x z.
Proof. destruct minimum; cbn; intros; by eapply (cmp_le_trans compare_rank). Qed.

Lemma no_worse_antisym minimum x y : no_worse minimum x y → no_worse minimum y x → x = y.
Proof. destruct minimum; cbn; intros; by apply (cmp_le_antisym compare_rank). Qed.

Lemma no_worse_total minimum x y : no_worse minimum x y ∨ no_worse minimum y x.
Proof. destruct minimum; cbn; apply (cmp_le_total compare_rank). Qed.

Definition is_extreme (minimum : bool) vs v : Prop :=
  ∃ x, rank_of v = Some x ∧ (∃ w, w ∈ vs ∧ rank_of w = Some x) ∧ ∀ w y, w ∈ vs → rank_of w = Some y → no_worse minimum x y.

Lemma extreme_of_spec minimum vs : Forall (λ v, v ≠ SNull) vs → vs ≠ [] → is_extreme minimum vs (extreme_of minimum vs).
Proof.
  induction 1 as [|v vs Hv Hvs IH]; intros Hne; [done|]. cbn [extreme_of]. destruct (rank_of_Some v Hv) as [x Ex]. rewrite Ex.
  destruct vs as [|w0 vs].
  - cbn. exists x. split; [done|]. split; [exists v; split; [by left|done]|].
    intros w y ->%list_elem_of_singleton Ey. rewrite Ex in Ey. injection Ey as <-. apply no_worse_refl.
  - destruct IH as (z & Ez & (w & Hw & Ew) & Hz); [done|]. rewrite Ez. case_decide as Hxz.
    + exists x. split; [done|]. split; [exists v; split; [by left|done]|].
      intros u y [->|Hu]%elem_of_cons Ey; [rewrite Ex in Ey; injection Ey as <-; apply no_worse_refl|].
      eapply no_worse_trans; [exact Hxz|]. by apply (Hz u).
    + exists z. split; [done|]. split; [exists w; split; [by right|done]|].
      intros u y [->|Hu]%elem_of_cons Ey; [|by apply (Hz u)]. rewrite Ex in Ey. injection Ey as <-.
      destruct (no_worse_total minimum x z); [done|done].
Qed.

Lemma is_extreme_canonical minimum vs v w :
  is_extreme minimum vs v → is_extreme minimum vs w → canonical v = canonical w.
Proof.
  intros (x & Ex & (v' & Hv' & Ev') & Hx) (y & Ey & (w' & Hw' & Ew') & Hy).
  apply canonical_rank; [by intros ->|by intros ->|]. rewrite Ex, Ey. f_equal.
  apply (no_worse_antisym minimum); [by apply (Hx w')|by apply (Hy v')].
Qed.
End reference.

(** ** Sums are exact *)

Definition when_positive (n : Z) (v : sqlval) : option sqlval := if n =? 0 then None else Some v.

Record sums_ok (vs : list sqlval) (i : agg_item) : Prop := {
  su_nan : it_nan_count i = count_if is_nan_value vs;
  su_nan_value : it_nan_value i = when_positive (count_if is_nan_value vs) (SFloat FNaN);
  su_positive : it_positive_count i = count_if (is_infinity false) vs;
  su_positive_value : it_positive_value i = when_positive (count_if (is_infinity false) vs) (SFloat (FInf false));
  su_negative : it_negative_count i = count_if (is_infinity true) vs;
  su_negative_value : it_negative_value i = when_positive (count_if (is_infinity true) vs) (SFloat (FInf true));
  su_float_count : it_floating_count i = count_if is_finite_float vs;
  su_float_sum : it_floating_sum i = total float_part vs;
  su_sum : it_sum i = total_Z integer_part vs
}.

Lemma sums_ok_perm vs vs' i : vs ≡ₚ vs' → sums_ok vs i → sums_ok vs' i.
Proof.
  intros Hp [? ? ? ? ? ? ? ? ?].
  split; rewrite <-?(count_if_perm _ _ _ Hp), <-?(total_perm _ _ _ Hp), <-?(total_Z_perm _ _ _ Hp); done.
Qed.

(** What SUM takes: the range of integers is that of [math.isinf]. *)
Definition is_numeric (v : sqlval) : Prop :=
  match v with
  | SNull | SStr _ => False
  | SInt z => ∃ f, int_to_float z = Ok f
  | _ => True
  end.

Lemma count_if_cons p v vs : count_if p (v :: vs) = (if p v then 1 else 0) + count_if p vs.
Proof. done. Qed.
Lemma total_cons f v vs : total f (v :: vs) = (f v + total f vs)%Qc.
Proof. done. Qed.
Lemma total_Z_cons f v vs : total_Z f (v :: vs) = f v + total_Z f vs.
Proof. done. Qed.

Arguments count_if : simpl never.
Arguments total : simpl never.
Arguments total_Z : simpl never.

(** A field of the sums after a value came or went. *)
Ltac sums_field :=
  rewrite ?count_if_cons, ?total_cons, ?total_Z_cons;
  cbn [is_nan_value is_infinity is_finite_float float_part integer_part Bool.eqb direction_of andb];
  change (Qc_of_Z 0) with (Q2Qc 0); change (Qc_of_Z 1) with (Q2Qc 1); change (Qc_of_Z (-1)) with (- Q2Qc 1)%Qc;
  first [done | lia | ring | unfold when_positive; repeat match goal with |- context [?n =? 0] => destruct (Z.eqb_spec n 0) end; first [done | lia]].

(** A numeric value, and what the update of the sums computes for it. *)
Ltac update_sum_cases v Hv :=
  destruct v as [|b|z|[|[]|q]|s]; try done;
    [|destruct Hv as [f Hf]; unfold update_sum; cbn [is_nan_value infinity_sign]; rewrite Hf|..];
    (eexists; split; [reflexivity|]; split; [|done]).

Lemma update_sum_add vs i v :
  sums_ok vs i → is_numeric v → ∃ i', update_sum i v true = Ok i' ∧ sums_ok (v :: vs) i' ∧ it_count i' = it_count i.
Proof.
  intros Hs Hv. pose proof (count_if_nonneg is_nan_value vs). pose proof (count_if_nonneg (is_infinity false) vs).
  pose proof (count_if_nonneg (is_infinity true) vs). destruct Hs as [Hn Hnv Hp Hpv Hm Hmv Hfc Hfs Hz].
  update_sum_cases v Hv. all: split; cbn; rewrite ?Hn, ?Hnv, ?Hp, ?Hpv, ?Hm, ?Hmv, ?Hfc, ?Hfs, ?Hz; sums_field.
Qed.

Lemma update_sum_retract vs i v :
  sums_ok (v :: vs) i → is_numeric v → ∃ i', update_sum i v false = Ok i' ∧ sums_ok vs i' ∧ it_count i' = it_count i.
Proof.
  intros Hs Hv. pose proof (count_if_nonneg is_nan_value vs). pose proof (count_if_nonneg (is_infinity false) vs).
  pose proof (count_if_nonneg (is_infinity true) vs). destruct Hs as [Hn Hnv Hp Hpv Hm Hmv Hfc Hfs Hz].
  update_sum_cases v Hv. all: split; cbn; rewrite ?Hn, ?Hnv, ?Hp, ?Hpv, ?Hm, ?Hmv, ?Hfc, ?Hfs, ?Hz; sums_field.
Qed.

Lemma sums_ok_empty : sums_ok [] empty_item.
Proof. by split. Qed.

Lemma sum_value_spec vs i : sums_ok vs i → sum_value i = Ok (sum_of vs).
Proof.
  intros [Hn Hnv Hp Hpv Hm Hmv Hfc Hfs Hz]. unfold sum_value, sum_of.
  rewrite Hn, Hnv, Hp, Hpv, Hm, Hmv, Hfc, Hfs, Hz. unfold when_positive.
  destruct (count_if is_nan_value vs =? 0); [cbn [negb]|done].
  destruct (count_if (is_infinity false) vs =? 0), (count_if (is_infinity true) vs =? 0); cbn; try done.
  by destruct (count_if is_finite_float vs =? 0).
Qed.

(** ** Extremes *)

Lemma better_spec minimum x y : better minimum (comparison_Z (compare_rank x y)) = negb (bool_decide (no_worse minimum y x)).
Proof.
  unfold better. case_bool_decide as Hn; unfold no_worse, cmp_le in Hn; destruct minimum;
    rewrite ?(compare_opp (cmp := compare_rank) x y) in Hn; destruct (compare_rank x y); cbn in *; naive_solver.
Qed.

Lemma same_kind_rank v w w' : rank_of w = rank_of w' → same_kind v w → same_kind v w'.
Proof. destruct v as [|?|?|[|[]|?]|?], w as [|?|?|[|[]|?]|?], w' as [|?|?|[|[]|?]|?]; cbn; intros; done. Qed.

Lemma same_kind_sym v w : same_kind v w → same_kind w v.
Proof. by destruct v as [|?|?|?|?], w as [|?|?|?|?]. Qed.

Section extremes.
Context `{CanonPickle} (minimum : bool).
Implicit Types (v w : sqlval) (vs : list sqlval) (i : agg_item).

Definition comparable vs : Prop := ∀ v w, v ∈ vs → w ∈ vs → same_kind v w.

Lemma comparable_rank vs v : comparable vs → v ∈ vs → ∃ x, rank_of v = Some x.
Proof. intros Hc Hv. apply rank_of_Some. intros ->. apply (Hc SNull SNull Hv Hv). Qed.

Definition multiplicity (c : canon) vs : Z := count_if (λ v, bool_decide (canonical v = c)) vs.

Lemma multiplicity_pos c vs : 0 < multiplicity c vs ↔ ∃ v, v ∈ vs ∧ canonical v = c.
Proof.
  unfold multiplicity. induction vs as [|v vs IH].
  - split; [unfold count_if; cbn; lia|]. by intros (v & ?%not_elem_of_nil & _).
  - rewrite count_if_cons. pose proof (count_if_nonneg (λ v, bool_decide (canonical v = c)) vs). case_bool_decide as Hc.
    + split; [|lia]. intros _. exists v. split; [by left|done].
    + rewrite Z.add_0_l, IH. split; intros (w & Hw & Ew); exists w; split; try done; [by right|].
      apply elem_of_cons in Hw as [->|?]; [done|done].
Qed.

Record extreme_ok vs i : Prop := {
  ex_keys : NoDup (it_values i).*1;
  ex_entries k w n : (k, (w, n)) ∈ it_values i → k = state_value_key w ∧ n = multiplicity (canonical w) vs ∧ 0 < n;
  ex_all v : v ∈ vs → ∃ w n, (state_value_key v, (w, n)) ∈ it_values i;
  ex_current : match it_current i with
               | None => vs = [] ∧ it_current_key i = None
               | Some v => it_current_key i = Some (state_value_key v) ∧ is_extreme minimum vs v
               end
}.

Lemma state_value_key_inj v w : state_value_key v = state_value_key w ↔ canonical v = canonical w.
Proof. unfold state_value_key. split; [apply (inj pickle_value)|by intros ->]. Qed.

Lemma multiplicity_cons c v vs : multiplicity c (v :: vs) = (if decide (canonical v = c) then 1 else 0) + multiplicity c vs.
Proof. unfold multiplicity. rewrite count_if_cons. by case_bool_decide; case_decide. Qed.

Lemma extreme_ok_empty : extreme_ok [] empty_item.
Proof. split; cbn; [constructor|by intros ? ? ? ?%not_elem_of_nil|by intros ? ?%not_elem_of_nil|done]. Qed.

Lemma is_extreme_perm vs vs' v : vs ≡ₚ vs' → is_extreme minimum vs v → is_extreme minimum vs' v.
Proof.
  intros Hp (x & Ex & (w & Hw & Ew) & Hx). exists x. split; [done|]. split; [exists w; by rewrite <-Hp|].
  intros u y Hu. apply Hx. by rewrite Hp.
Qed.

Lemma extreme_ok_perm vs vs' i : vs ≡ₚ vs' → extreme_ok vs i → extreme_ok vs' i.
Proof.
  intros Hp [Hk He Ha Hc]. split; [done| | |].
  - intros k w n Hin. destruct (He k w n Hin) as (-> & -> & Hn). unfold multiplicity in *. by rewrite <-(count_if_perm _ _ _ Hp).
  - intros v Hv. apply Ha. by rewrite Hp.
  - destruct (it_current i); [|].
    + destruct Hc as [? Hx]. split; [done|]. by eapply is_extreme_perm.
    + destruct Hc as [-> ?]. by apply Permutation_nil_l in Hp as ->.
Qed.

(** The entry of a value in the dictionary. *)
Lemma entry_of vs i v :
  extreme_ok vs i →
  match dict_get (state_value_key v) (it_values i) with
  | None => multiplicity (canonical v) vs = 0
  | Some (w, n) => canonical w = canonical v ∧ n = multiplicity (canonical v) vs ∧ 0 < n
  end.
Proof.
  intros [Hk He Ha _]. destruct (dict_get _ _) as [[w n]|] eqn:Eget.
  - apply dict_get_Some in Eget; [|done]. destruct (He _ _ _ Eget) as (Ek & -> & Hn). apply state_value_key_inj in Ek.
    by rewrite <-Ek in *.
  - pose proof (count_if_nonneg (λ w, bool_decide (canonical w = canonical v)) vs) as Hn.
    fold (multiplicity (canonical v) vs) in Hn.
    destruct (decide (multiplicity (canonical v) vs = 0)) as [|Hne]; [done|exfalso].
    destruct (proj1 (multiplicity_pos (canonical v) vs) ltac:(lia)) as (w & Hw & Ew). destruct (Ha w Hw) as (u & n & Hin).
    apply dict_get_None in Eget. apply Eget. apply list_elem_of_fmap. eexists. split; [|exact Hin].
    cbn. symmetry. by apply state_value_key_inj.
Qed.

Lemma update_extreme_add vs i v :
  extreme_ok vs i → comparable (v :: vs) →
  ∃ i', update_extreme minimum i v true = Ok i' ∧ extreme_ok (v :: vs) i' ∧ it_count i' = it_count i.
Proof.
  intros Hok Hc. pose proof (entry_of vs i v Hok) as Hentry. destruct Hok as [Hk He Ha Hcur].
  destruct (comparable_rank _ v Hc) as [x Ex]; [by left|].
  set (n := match dict_get (state_value_key v) (it_values i) with None => 1 | Some (_, n) => n + 1 end).
  assert (n = multiplicity (canonical v) (v :: vs)) as Hn.
  { unfold n. rewrite multiplicity_cons, decide_True by done. destruct (dict_get _ _) as [[w m]|]; lia. }
  set (i1 := set_values (dict_set (state_value_key v) (v, n) (it_values i)) i).
  assert (Hdict : ∀ cur, (match cur with None => False | Some w => is_extreme minimum (v :: vs) w end) →
    extreme_ok (v :: vs) (set_current cur (state_value_key <$> cur) i1)).
  { intros cur Hx. split; cbn.
    - by apply NoDup_dict_set.
    - intros k w m [[-> [= -> ->]]|[Hne Hin]]%elem_of_dict_set; [| |done].
      + split; [done|]. split; [done|]. rewrite Hn. apply multiplicity_pos. exists v. split; [by left|done].
      + destruct (He k w m Hin) as (-> & -> & Hm). split; [done|]. rewrite multiplicity_cons, decide_False; [done|].
        intros E. apply Hne. symmetry. by apply state_value_key_inj.
    - intros w Hw. destruct (decide (state_value_key w = state_value_key v)) as [E|Hne].
      + exists v, n. rewrite E. apply elem_of_dict_set; auto.
      + apply elem_of_cons in Hw as [->|Hw]; [done|]. destruct (Ha w Hw) as (u & m & Hin). exists u, m.
        apply elem_of_dict_set; auto.
    - destruct cur as [w|]; [|done]. split; [done|done]. }
  unfold update_extreme. fold n i1. change (it_current i1) with (it_current i). destruct (it_current i) as [cur|] eqn:Ecur.
  - destruct Hcur as [Ekey (y & Ey & (w & Hw & Ew) & Hy)].
    rewrite (compare_non_null_rank v cur x y) by first [done | apply (same_kind_rank v w); [by rewrite Ey|apply Hc; [by left|by right]]].
    rewrite bind_Ok, better_spec. case_bool_decide as Hworse; cbn [negb]; (eexists; split; [reflexivity|]; split; [|done]).
    + assert (i1 = set_current (Some cur) (state_value_key <$> Some cur) i1) as -> by (destruct i; cbn in *; subst; done).
      apply Hdict. exists y. split; [done|]. split; [exists w; split; [by right|done]|].
      intros u z [->|Hu]%elem_of_cons Ez; [rewrite Ex in Ez; by injection Ez as <-|by apply (Hy u)].
    + apply (Hdict (Some v)). exists x. split; [done|]. split; [exists v; split; [by left|done]|].
      assert (no_worse minimum x y) as Hxy by (by destruct (no_worse_total minimum x y)).
      intros u z [->|Hu]%elem_of_cons Ez; [rewrite Ex in Ez; injection Ez as <-; apply no_worse_refl|].
      eapply no_worse_trans; [exact Hxy|]. by apply (Hy u).
  - destruct Hcur as [-> _]. eexists. split; [reflexivity|]. split; [|done]. apply (Hdict (Some v)).
    exists x. split; [done|]. split; [exists v; split; [by left|done]|].
    intros u z ->%list_elem_of_singleton Ez. rewrite Ex in Ez. injection Ez as <-. apply no_worse_refl.
Qed.

(** The scan for a new extreme. *)
Definition entry_value (e : bytes * (sqlval * Z)) : sqlval := e.2.1.

Lemma best_of_spec best (l : list (bytes * (sqlval * Z))) :
  comparable (best.2 :: (entry_value <$> l)) → best.1 = state_value_key best.2 →
  (∀ k w n, (k, (w, n)) ∈ l → k = state_value_key w) →
  ∃ b, best_of minimum best l = Ok b ∧ b.1 = state_value_key b.2 ∧ is_extreme minimum (best.2 :: (entry_value <$> l)) b.2.
Proof.
  revert best. induction l as [|[k [w n]] l IH]; intros best Hc Hbest Hl; cbn [best_of].
  - exists best. split; [done|]. split; [done|]. destruct (comparable_rank _ best.2 Hc) as [x Ex]; [by left|].
    exists x. split; [done|]. split; [exists best.2; split; [by left|done]|].
    intros u z ->%list_elem_of_singleton Ez. rewrite Ex in Ez. injection Ez as <-. apply no_worse_refl.
  - rewrite fmap_cons in Hc. cbn [entry_value fst snd] in Hc.
    destruct (comparable_rank _ w Hc) as [x Ex]; [right; by left|]. destruct (comparable_rank _ best.2 Hc) as [y Ey]; [by left|].
    rewrite (compare_non_null_rank w best.2 x y), bind_Ok, better_spec by first [done|apply Hc; set_solver].
    set (best' := if negb (bool_decide (no_worse minimum y x)) then (k, w) else best).
    assert (best'.2 = w ∨ best'.2 = best.2) as Hwhich by (unfold best'; case_bool_decide; cbn; auto).
    destruct (IH best') as (b & E & Eb & (z & Ez & (u & Hu & Eu) & Hz)).
    + intros v1 v2 H1 H2. apply Hc; destruct Hwhich as [Eq|Eq]; rewrite Eq in *; set_solver.
    + unfold best'. case_bool_decide; cbn [negb]; [done|]. cbn. apply (Hl k w n). by left.
    + intros k' w' n' Hin. apply (Hl k' w' n'). by right.
    + exists b. split; [done|]. split; [done|]. exists z. split; [done|]. split.
      * exists u. split; [|done]. rewrite fmap_cons. cbn [entry_value fst snd]. destruct Hwhich as [Eq|Eq]; rewrite Eq in *; set_solver.
      * assert (∃ t, rank_of best'.2 = Some t ∧ no_worse minimum t x ∧ no_worse minimum t y) as (t & Et & Htx & Hty).
        { unfold best'. case_bool_decide as Hw; cbn.
          - exists y. split; [done|]. split; [done|apply no_worse_refl].
          - exists x. split; [done|]. split; [apply no_worse_refl|]. by destruct (no_worse_total minimum x y). }
        assert (no_worse minimum z t) as Hzt by (apply (Hz best'.2); [by left|done]).
        intros v0 r0 Hv0 Er0. rewrite fmap_cons in Hv0. cbn [entry_value fst snd] in Hv0.
        apply elem_of_cons in Hv0 as [->|[->|Hv0]%elem_of_cons].
        -- rewrite Ey in Er0. injection Er0 as <-. by eapply no_worse_trans.
        -- rewrite Ex in Er0. injection Er0 as <-. by eapply no_worse_trans.
        -- apply (Hz v0); [by right|done].
Qed.

(** Extremes only depend on the ranks that occur. *)
Lemma is_extreme_ranks vs vs' v :
  (∀ w, w ∈ vs → ∃ w', w' ∈ vs' ∧ rank_of w' = rank_of w) → (∀ w, w ∈ vs' → ∃ w', w' ∈ vs ∧ rank_of w' = rank_of w) →
  is_extreme minimum vs v → is_extreme minimum vs' v.
Proof.
  intros H1 H2 (x & Ex & (w & Hw & Ew) & Hx). exists x. split; [done|]. split.
  - destruct (H1 w Hw) as (w' & Hw' & E). exists w'. by rewrite E.
  - intros u y Hu Eu. destruct (H2 u Hu) as (u' & Hu' & E). apply (Hx u'); [done|by rewrite E].
Qed.

(** Values of one canonical form have one rank. *)
Lemma canonical_same_rank vs v w : comparable vs → v ∈ vs → canonical w = canonical v → rank_of w = rank_of v ∧ w ≠ SNull.
Proof.
  intros Hc Hv E. assert (v ≠ SNull) as Hnv by (intros ->; apply (Hc SNull SNull Hv Hv)).
  assert (w ≠ SNull) as Hnw by (intros ->; destruct v as [|?|?|[|?|?]|?]; done). split; [|done]. by apply canonical_rank.
Qed.

Lemma replace_extreme_spec vs i :
  comparable vs → NoDup (it_values i).*1 →
  (∀ k w n, (k, (w, n)) ∈ it_values i → k = state_value_key w ∧ n = multiplicity (canonical w) vs ∧ 0 < n) →
  (∀ v, v ∈ vs → ∃ w n, (state_value_key v, (w, n)) ∈ it_values i) →
  ∃ i', replace_extreme minimum i = Ok i' ∧ extreme_ok vs i' ∧ it_count i' = it_count i.
Proof.
  intros Hc Hk He Ha. unfold replace_extreme. destruct (it_values i) as [|[k0 [w0 n0]] l0] eqn:El.
  - eexists. split; [reflexivity|]. split; [|done]. assert (vs = []) as ->.
    { destruct vs as [|v vs]; [done|]. destruct (Ha v) as (w & n & Hin%not_elem_of_nil); [by left|done]. }
    split; cbn; rewrite ?El; done.
  - rewrite <-El in *.
    assert (Hval : ∀ k w n, (k, (w, n)) ∈ it_values i → ∃ v, v ∈ vs ∧ rank_of v = rank_of w ∧ canonical v = canonical w).
    { intros k w n Hin. destruct (He k w n Hin) as (_ & -> & Hn). apply multiplicity_pos in Hn as (v & Hv & Ev).
      exists v. split; [done|]. split; [|done]. symmetry. by apply (canonical_same_rank vs v w). }
    assert (Hsub : ∀ w, w ∈ entry_value <$> it_values i → ∃ v, v ∈ vs ∧ rank_of v = rank_of w).
    { intros w ([k [w' n]] & -> & Hin)%list_elem_of_fmap. destruct (Hval _ _ _ Hin) as (v & ? & ? & _). by exists v. }
    assert ((k0, (w0, n0)) ∈ it_values i) as Hin0 by (rewrite El; by left).
    assert (Hcomp : comparable (w0 :: (entry_value <$> it_values i))).
    { intros v1 v2 H1 H2. assert (∀ u, u ∈ w0 :: (entry_value <$> it_values i) → ∃ v, v ∈ vs ∧ rank_of v = rank_of u) as Hu.
      { intros u [->|?]%elem_of_cons; [|by apply Hsub]. apply Hsub. apply list_elem_of_fmap. by exists (k0, (w0, n0)). }
      destruct (Hu v1 H1) as (u1 & Hu1 & E1), (Hu v2 H2) as (u2 & Hu2 & E2). apply (same_kind_rank _ u2 _ E2), same_kind_sym.
      apply (same_kind_rank _ u1 _ E1), same_kind_sym. by apply Hc. }
    destruct (best_of_spec (k0, w0) (it_values i) Hcomp) as (b & -> & Eb & Hx).
    { cbn. by destruct (He _ _ _ Hin0). } { intros k w n Hin. by destruct (He _ _ _ Hin). }
    eexists. split; [reflexivity|]. split; [|done]. split; cbn; [done|done|done|]. split; [by rewrite Eb|].
    eapply is_extreme_ranks; [| |exact Hx].
    + cbn [snd]. intros u [->|Hu]%elem_of_cons; [|by apply Hsub]. apply Hsub, list_elem_of_fmap. by exists (k0, (w0, n0)).
    + cbn [snd]. intros v Hv. destruct (Ha v Hv) as (w & n & Hin). exists w. split.
      * right. apply list_elem_of_fmap. by exists (state_value_key v, (w, n)).
      * destruct (He _ _ _ Hin) as (E & _ & _). apply state_value_key_inj in E. by apply (canonical_same_rank vs v w).
Qed.

Lemma update_extreme_retract vs i v :
  extreme_ok (v :: vs) i → comparable (v :: vs) →
  ∃ i', update_extreme minimum i v false = Ok i' ∧ extreme_ok vs i' ∧ it_count i' = it_count i.
Proof.
  intros Hok Hc. pose proof (entry_of _ i v Hok) as Hentry. destruct Hok as [Hk He Ha Hcur]. unfold update_extreme.
  rewrite multiplicity_cons, decide_True in Hentry by done.
  assert (Hcv : comparable vs) by (intros u w Hu Hw; apply Hc; by right).
  pose proof (count_if_nonneg (λ w, bool_decide (canonical w = canonical v)) vs) as Hnn. fold (multiplicity (canonical v) vs) in Hnn.
  destruct (dict_get (state_value_key v) (it_values i)) as [[w n]|] eqn:Eget; [|lia]. destruct Hentry as (Ew & -> & Hn).
  assert (Hother : ∀ k u m, (k, (u, m)) ∈ it_values i → k ≠ state_value_key v → k = state_value_key u ∧ m = multiplicity (canonical u) vs ∧ 0 < m).
  { intros k u m Hin Hne. destruct (He k u m Hin) as (-> & -> & Hm). rewrite multiplicity_cons, decide_False in * by (intros E; apply Hne; symmetry; by apply state_value_key_inj).
    done. }
  destruct (Z.ltb_spec 1 (1 + multiplicity (canonical v) vs)) as [Hlt|Hge].
  - eexists. split; [reflexivity|]. split; [|done]. destruct (proj1 (multiplicity_pos (canonical v) vs) ltac:(lia)) as (v' & Hv' & Ev').
    assert (rank_of v' = rank_of v) as Er by (by apply (canonical_same_rank (v :: vs) v v' Hc); [left|]).
    split; cbn.
    + by apply NoDup_dict_set.
    + intros k u m [[-> [= -> ->]]|[Hne Hin]]%elem_of_dict_set; [|by apply Hother|done].
      split; [by apply state_value_key_inj|]. rewrite Ew. lia.
    + intros u Hu. destruct (decide (state_value_key u = state_value_key v)) as [E|Hne].
      * eexists _, _. rewrite E. apply elem_of_dict_set; [done|]. by left.
      * destruct (Ha u) as (w' & m & Hin); [by right|]. exists w', m. apply elem_of_dict_set; auto.
    + destruct (it_current i) as [cur|]; [|by destruct Hcur]. destruct Hcur as [? Hx]. split; [done|].
      eapply is_extreme_ranks; [| |exact Hx].
      * intros u [->|Hu]%elem_of_cons; [by exists v'|by exists u].
      * intros u Hu. exists u. split; [by right|done].
  - assert (multiplicity (canonical v) vs = 0) as Hzero by lia.
    assert (Hne : ∀ u, u ∈ vs → state_value_key u ≠ state_value_key v).
    { intros u Hu E. apply state_value_key_inj in E. pose proof (proj2 (multiplicity_pos (canonical v) vs)) as Hpos.
      rewrite Hzero in Hpos. enough (0 < 0) by lia. apply Hpos. by exists u. }
    set (i1 := set_values (dict_pop (state_value_key v) (it_values i)) i).
    assert (Hk1 : NoDup (it_values i1).*1) by (by apply NoDup_dict_pop).
    assert (He1 : ∀ k u m, (k, (u, m)) ∈ it_values i1 → k = state_value_key u ∧ m = multiplicity (canonical u) vs ∧ 0 < m).
    { intros k u m [Hkv Hin]%elem_of_dict_pop; [|done]. by apply Hother. }
    assert (Ha1 : ∀ u, u ∈ vs → ∃ w m, (state_value_key u, (w, m)) ∈ it_values i1).
    { intros u Hu. destruct (Ha u) as (w' & m & Hin); [by right|]. exists w', m. apply elem_of_dict_pop; [done|]. split; [by apply Hne|done]. }
    change (it_current_key i1) with (it_current_key i). case_decide as Hkey.
    + by apply (replace_extreme_spec vs i1).
    + exists i1. split; [done|]. split; [|done]. split; [done..|]. change (it_current i1) with (it_current i).
      change (it_current_key i1) with (it_current_key i).
      destruct (it_current i) as [cur|]; [|by destruct Hcur]. destruct Hcur as [Ecur (x & Ex & (u & Hu & Eu) & Hx)]. split; [done|].
      exists x. split; [done|]. split; [|intros u' y Hu'; apply Hx; by right].
      apply elem_of_cons in Hu as [->|Hu]; [|by exists u]. exfalso. apply Hkey. rewrite Ecur. f_equal. apply state_value_key_inj.
      apply canonical_rank; [intros ->; done|intros ->; apply (Hc SNull SNull); by left|]. by rewrite Ex, Eu.
Qed.

Lemma extreme_value vs i :
  extreme_ok vs i → Forall (λ v, v ≠ SNull) vs → canonical (default SNull (it_current i)) = canonical (extreme_of minimum vs).
Proof.
  intros Hok Hnn. pose proof (ex_current _ _ Hok) as Hcur. destruct (it_current i) as [w|]; cbn.
  - destruct Hcur as [_ Hx]. eapply is_extreme_canonical; [exact Hx|]. apply extreme_of_spec; [done|].
    intros Hnil. rewrite Hnil in Hx. by destruct Hx as (? & _ & (? & ?%not_elem_of_nil & _) & _).
  - by destruct Hcur as [-> _].
Qed.
End extremes.

(** ** An accumulator stands for the rows of its group *)

Section accumulators.
Context {E : Type} `{CanonPickle} (evaluate_expression : E → sqlrow → outcome sqlval).
Context (group_expressions : list (string * E)) (projections : list (projection E)) (retractable : bool).
Implicit Types (row : sqlrow) (rows : list sqlrow) (i : agg_item) (acc : accumulator) (key : list canon).

Abbreviation count l k := (Z.of_nat (count_occ (decide_rel (=)) l k)).

(** The values that are not NULL of an argument. *)
Definition argument_of (e : E) row : option sqlval :=
  match evaluate_expression e row with Ok SNull | Err _ => None | Ok v => Some v end.

Definition arguments (e : E) rows : list sqlval := omap (argument_of e) rows.

(** *** The reference result of a group *)

Definition reference_aggregate (a : aggregate E) rows : outcome sqlval :=
  match agg_type a, agg_this a with
  | ACount, None => Ok (SInt (Z.of_nat (length rows)))
  | _, None | AOtherAgg, _ => Err SQLQueryError
  | ACount, Some e => Ok (SInt (Z.of_nat (length (arguments e rows))))
  | ASum, Some e => Ok (if decide (arguments e rows = []) then SNull else sum_of (arguments e rows))
  | AAvg, Some e =>
      if decide (arguments e rows = []) then Ok SNull
      else true_divide (sum_of (arguments e rows)) (Z.of_nat (length (arguments e rows)))
  | AMin, Some e => Ok (extreme_of true (arguments e rows))
  | AMax, Some e => Ok (extreme_of false (arguments e rows))
  end.

(** One output column. *)
Definition reference_value key rows (p : projection E) : outcome canon :=
  match p_expression p with
  | inl a => v ← reference_aggregate a rows; Ok (canonical v)
  | inr sql => of_option SQLQueryError (group_lookup group_expressions key !! sql)
  end.

Definition reference_column key rows (result : gmap string canon) (p : projection E) : outcome (gmap string canon) :=
  if decide (is_Some (result !! p_name p)) then Err SQLQueryError
  else c ← reference_value key rows p; Ok (<[p_name p := c]> result).

Definition reference_row key rows : outcome (gmap string canon) := foldM (reference_column key rows) ∅ projections.

(** A group without rows has no result. *)
Definition reference_result key rows : option (gmap string canon) :=
  match rows with [] => None | _ => match reference_row key rows with Ok x => Some x | Err _ => None end end.

(** The result is defined when its columns are, and have distinct names. *)
Lemma reference_row_defined key rows :
  NoDup (p_name <$> projections) → Forall (λ p, ∃ c, reference_value key rows p = Ok c) projections →
  ∃ x, reference_row key rows = Ok x.
Proof.
  unfold reference_row. assert (∀ p, p ∈ projections → (∅ : gmap string canon) !! p_name p = None) as Hfresh by done. revert Hfresh.
  generalize (∅ : gmap string canon). induction projections as [|p projs IH]; intros result Hfresh Hnd Hdef; [by exists result|].
  rewrite fmap_cons in Hnd. apply NoDup_cons in Hnd as [Hp Hnd]. apply Forall_cons in Hdef as [[c Ec] Hdef].
  cbn [foldM]. unfold reference_column at 1. rewrite decide_False by (rewrite (Hfresh p) by (by left); apply is_Some_None).
  rewrite Ec, bind_Ok. apply IH; [|done..]. intros q Hq. rewrite lookup_insert_ne; [apply Hfresh; by right|].
  intros En. apply Hp. rewrite En. by apply list_elem_of_fmap_2.
Qed.

(** *** What the items hold *)

Definition item_ok (a : aggregate E) rows i : Prop :=
  match agg_type a, agg_this a with
  | ACount, None => it_count i = Z.of_nat (length rows)
  | _, None | AOtherAgg, _ => False
  | kind, Some e =>
      it_count i = Z.of_nat (length (arguments e rows)) ∧
      match kind with
      | ASum | AAvg => sums_ok (arguments e rows) i
      | AMin => extreme_ok true (arguments e rows) i
      | AMax => extreme_ok false (arguments e rows) i
      | _ => True
      end
  end.

(** An aggregate of the query on the rows in use. *)
Definition suited (domain : sqlrow → Prop) (a : aggregate E) : Prop :=
  match agg_type a, agg_this a with
  | ACount, None => True
  | _, None | AOtherAgg, _ => False
  | kind, Some e =>
      (∀ row, domain row → ∃ v, evaluate_expression e row = Ok v) ∧
      match kind with
      | ASum | AAvg => ∀ row v, domain row → argument_of e row = Some v → is_numeric v
      | AMin | AMax => ∀ x y v w, domain x → domain y → argument_of e x = Some v → argument_of e y = Some w → same_kind v w
      | _ => True
      end
  end.

Lemma arguments_cons e row rows :
  arguments e (row :: rows) = match argument_of e row with Some v => v :: arguments e rows | None => arguments e rows end.
Proof. done. Qed.

Lemma arguments_perm e rows rows' : rows ≡ₚ rows' → arguments e rows ≡ₚ arguments e rows'.
Proof. unfold arguments. by intros ->. Qed.

Lemma item_ok_perm a rows rows' i : rows ≡ₚ rows' → item_ok a rows i → item_ok a rows' i.
Proof.
  intros Hp. unfold item_ok. destruct (agg_type a), (agg_this a) as [e|]; try done.
  all: try (pose proof (arguments_perm e _ _ Hp) as Ha; rewrite <-(Permutation_length Ha)).
  all: rewrite <-?(Permutation_length Hp); try done.
  all: intros [? Hok]; split; [done|]; eauto using sums_ok_perm, extreme_ok_perm.
Qed.

Lemma item_ok_empty domain a : suited domain a → item_ok a [] empty_item.
Proof.
  unfold suited, item_ok. destruct (agg_type a), (agg_this a); try done; intros _; (split; [done|]);
    eauto using sums_ok_empty, extreme_ok_empty.
Qed.

Lemma comparable_arguments domain e rows :
  (∀ x y v w, domain x → domain y → argument_of e x = Some v → argument_of e y = Some w → same_kind v w) →
  Forall domain rows → comparable (arguments e rows).
Proof.
  intros Hk Hd v w (x & Hx & Ev)%list_elem_of_omap (y & Hy & Ew)%list_elem_of_omap.
  rewrite Forall_forall in Hd. eapply (Hk x y); eauto.
Qed.

(** The value an update sees. *)
Lemma update_aggregate_value a e row addition i v :
  agg_this a = Some e → evaluate_expression e row = Ok v →
  update_aggregate evaluate_expression a i row addition =
  match argument_of e row with
  | None => Ok i
  | Some v =>
      let i := set_count (it_count i + direction_of addition) i in
      match agg_type a with
      | ACount => Ok i
      | ASum | AAvg => update_sum i v addition
      | AMin => update_extreme true i v addition
      | AMax => update_extreme false i v addition
      | AOtherAgg => Err SQLQueryError
      end
  end.
Proof.
  intros Ha Hv. unfold update_aggregate, argument_of. rewrite Ha, Hv. by destruct (agg_type a), v.
Qed.

Lemma sums_ok_count vs i n : sums_ok vs i → sums_ok vs (set_count n i).
Proof. intros []. by split. Qed.

Lemma extreme_ok_count m vs i n : extreme_ok m vs i → extreme_ok m vs (set_count n i).
Proof. intros []. by split. Qed.

(** An update of the sums or of an extreme, by its lemma. *)
Ltac apply_update L := destruct L as (i' & -> & ? & Hi'); exists i'; (split; [done|]); (split; [rewrite Hi'; cbn; lia|done]).

Lemma comparable_row domain e row rows v :
  (∀ x y v w, domain x → domain y → argument_of e x = Some v → argument_of e y = Some w → same_kind v w) →
  domain row → Forall domain rows → argument_of e row = Some v → comparable (v :: arguments e rows).
Proof.
  intros Hk Hrow Hrows Ev. pose proof (comparable_arguments domain e (row :: rows) Hk) as Hc.
  rewrite arguments_cons, Ev in Hc. apply Hc. by constructor.
Qed.

Lemma update_aggregate_add domain a row rows i :
  suited domain a → domain row → Forall domain rows → item_ok a rows i →
  ∃ i', update_aggregate evaluate_expression a i row true = Ok i' ∧ item_ok a (row :: rows) i'.
Proof.
  intros Hs Hrow Hrows Hok. unfold suited, item_ok in *. destruct (agg_this a) as [e|] eqn:Ea.
  2: { destruct (agg_type a) eqn:Et; try done. unfold update_aggregate. rewrite Et, Ea. eexists. split; [done|].
       cbn [it_count set_count length direction_of]. lia. }
  assert (∃ v, evaluate_expression e row = Ok v) as [v Ev] by (destruct (agg_type a); try done; by apply Hs).
  rewrite (update_aggregate_value a e row true i v Ea Ev), arguments_cons.
  destruct (argument_of e row) as [w|] eqn:Ew; [|by exists i]. cbn zeta. cbn [direction_of length].
  set (i1 := set_count (it_count i + 1) i).
  destruct (agg_type a); try done; destruct Hs as [_ Hs], Hok as [Hc Hok]; subst i1.
  - eexists. split; [done|]. split; [|done]. cbn. lia.
  - apply_update (update_sum_add _ _ w (sums_ok_count _ i (it_count i + 1) Hok) (Hs _ _ Hrow Ew)).
  - apply_update (update_sum_add _ _ w (sums_ok_count _ i (it_count i + 1) Hok) (Hs _ _ Hrow Ew)).
  - apply_update (update_extreme_add true _ _ w (extreme_ok_count _ _ i (it_count i + 1) Hok) (comparable_row _ _ _ _ _ Hs Hrow Hrows Ew)).
  - apply_update (update_extreme_add false _ _ w (extreme_ok_count _ _ i (it_count i + 1) Hok) (comparable_row _ _ _ _ _ Hs Hrow Hrows Ew)).
Qed.

Lemma update_aggregate_retract domain a row rows i :
  suited domain a → domain row → Forall domain rows → item_ok a (row :: rows) i →
  ∃ i', update_aggregate evaluate_expression a i row false = Ok i' ∧ item_ok a rows i'.
Proof.
  intros Hs Hrow Hrows Hok. unfold suited, item_ok in *. destruct (agg_this a) as [e|] eqn:Ea.
  2: { destruct (agg_type a) eqn:Et; try done. unfold update_aggregate. rewrite Et, Ea. eexists. split; [done|].
       cbn [it_count set_count length direction_of] in *. lia. }
  assert (∃ v, evaluate_expression e row = Ok v) as [v Ev] by (destruct (agg_type a); try done; by apply Hs).
  rewrite (update_aggregate_value a e row false i v Ea Ev), arguments_cons in *.
  destruct (argument_of e row) as [w|] eqn:Ew; [|by exists i]. cbn zeta. cbn [direction_of length] in *.
  set (i1 := set_count (it_count i + -1) i).
  destruct (agg_type a); try done; destruct Hs as [_ Hs], Hok as [Hc Hok]; subst i1.
  - eexists. split; [done|]. split; [|done]. cbn. lia.
  - apply_update (update_sum_retract _ _ w (sums_ok_count _ i (it_count i + -1) Hok) (Hs _ _ Hrow Ew)).
  - apply_update (update_sum_retract _ _ w (sums_ok_count _ i (it_count i + -1) Hok) (Hs _ _ Hrow Ew)).
  - apply_update (update_extreme_retract true _ _ w (extreme_ok_count _ _ i (it_count i + -1) Hok) (comparable_row _ _ _ _ _ Hs Hrow Hrows Ew)).
  - apply_update (update_extreme_retract false _ _ w (extreme_ok_count _ _ i (it_count i + -1) Hok) (comparable_row _ _ _ _ _ Hs Hrow Hrows Ew)).
Qed.

Lemma aggregate_value_spec domain a rows i v :
  suited domain a → Forall domain rows → item_ok a rows i → reference_aggregate a rows = Ok v →
  ∃ v', aggregate_value a i = Ok v' ∧ canonical v' = canonical v.
Proof.
  intros Hs Hd Hok Hr. unfold suited, item_ok, reference_aggregate, aggregate_value in *.
  assert (∀ e n, n = Z.of_nat (length (arguments e rows)) → (n =? 0) = bool_decide (arguments e rows = [])) as Hz.
  { intros e n ->. destruct (arguments e rows); [done|]. rewrite bool_decide_eq_false_2 by done. apply Z.eqb_neq. cbn. lia. }
  assert (∀ e, Forall (λ v, v ≠ SNull) (arguments e rows)) as Hnn.
  { intros e. apply Forall_forall. intros w (x & _ & Ew)%list_elem_of_omap. unfold argument_of in Ew.
    destruct (evaluate_expression e x) as [[]|]; by simplify_eq. }
  destruct (agg_this a) as [e|].
  2: { destruct (agg_type a); try done. rewrite Hok. eauto. }
  destruct (agg_type a); try done; destruct Hok as [Hc Hok]; rewrite ?(Hz e _ Hc).
  - rewrite Hc. eauto.
  - case_decide as Hnil; [rewrite bool_decide_eq_true_2 by done; eauto|]. rewrite bool_decide_eq_false_2 by done.
    injection Hr as <-. rewrite (sum_value_spec _ _ Hok). eauto.
  - case_decide as Hnil; [rewrite bool_decide_eq_true_2 by done; eauto|]. rewrite bool_decide_eq_false_2 by done.
    rewrite (sum_value_spec _ _ Hok), bind_Ok, Hc. eauto.
  - injection Hr as <-. eexists. split; [done|]. by apply extreme_value.
  - injection Hr as <-. eexists. split; [done|]. by apply extreme_value.
Qed.

(** *** Accumulators *)

Record acc_ok rows acc : Prop := {
  ac_count : acc_row_count acc = Z.of_nat (length rows);
  ac_items : Forall2 (λ a, item_ok a rows) (aggregate_expressions projections) (acc_aggregates acc);
  ac_rows : match acc_row_counts acc with
            | None => retractable = false
            | Some counts => retractable = true ∧ ∀ b, default 0 (counts !! b) = count (state_row_key <$> rows) b
            end
}.

Lemma acc_ok_perm rows rows' acc : rows ≡ₚ rows' → acc_ok rows acc → acc_ok rows' acc.
Proof.
  intros Hp [Hc Hi Hr]. split.
  - by rewrite <-Hp.
  - eapply Forall2_impl; [exact Hi|]. intros a i. by apply item_ok_perm.
  - destruct (acc_row_counts acc); [|done]. destruct Hr as [? Hr]. split; [done|]. intros k. rewrite Hr. f_equal.
    assert ((state_row_key <$> rows) ≡ₚ (state_row_key <$> rows')) as Hf by (by rewrite Hp).
    by apply (Permutation_count_occ (decide_rel (=))).
Qed.

Context (domain : sqlrow → Prop) (Hsuited : Forall (suited domain) (aggregate_expressions projections)).

Lemma acc_ok_empty : acc_ok [] (empty_accumulator projections retractable).
Proof.
  split; [done| |].
  - cbn. induction Hsuited; cbn; constructor; eauto using item_ok_empty.
  - cbn. destruct retractable; [|done]. split; [done|]. intros k. by rewrite lookup_empty.
Qed.

Lemma restore_stored_accumulator rows acc :
  acc_ok rows acc → restore_accumulator evaluate_expression projections retractable (Some (AggAccumulator acc)) = Ok acc.
Proof.
  intros [_ Hi _]. unfold restore_accumulator. rewrite <-(Forall2_length _ _ _ Hi). by rewrite Nat.eqb_refl.
Qed.

(** All the aggregates of a row. *)
Lemma update_aggregates_ok aggregates rows rows' items row addition :
  (∀ a i, suited domain a → item_ok a rows i → ∃ i', update_aggregate evaluate_expression a i row addition = Ok i' ∧ item_ok a rows' i') →
  Forall (suited domain) aggregates → Forall2 (λ a, item_ok a rows) aggregates items →
  ∃ items', update_aggregates evaluate_expression aggregates items row addition = Ok items' ∧ Forall2 (λ a, item_ok a rows') aggregates items'.
Proof.
  intros Hstep Hs Hi. induction Hi as [|a i aggregates items Ha Hi IH]; cbn [update_aggregates]; [by eexists|].
  apply Forall_cons in Hs as [Hsa Hs]. destruct (Hstep a i Hsa Ha) as (i' & -> & Hi'), (IH Hs) as (items' & Eq & Hitems').
  rewrite bind_Ok, Eq, bind_Ok. eexists. split; [done|]. by constructor.
Qed.

Lemma apply_row_add rows acc row :
  acc_ok rows acc → domain row → Forall domain rows →
  ∃ acc', apply_row evaluate_expression projections acc row true = Ok (Some acc') ∧ acc_ok (row :: rows) acc'.
Proof.
  intros [Hc Hi Hr] Hrow Hrows. unfold apply_row, accept_row.
  destruct (update_aggregates_ok (aggregate_expressions projections) rows (row :: rows) (acc_aggregates acc) row true) as (items & Eitems & Hitems); try done.
  { intros a i Ha Hok. by apply (update_aggregate_add domain). }
  destruct (acc_row_counts acc) as [counts|]; cbn [negb andb]; rewrite bind_Ok, Eitems, bind_Ok; (eexists; split; [reflexivity|]).
  all: split; cbn [acc_row_count acc_aggregates acc_row_counts length direction_of]; [lia|done|].
  - destruct Hr as [? Hr]. split; [done|]. intros k. rewrite lookup_count, fmap_cons, count_cons, !Hr.
    case_decide; [subst|]; lia.
  - done.
Qed.

Lemma apply_row_retract rows acc row :
  retractable = true → acc_ok (row :: rows) acc → domain row → Forall domain rows →
  ∃ acc', apply_row evaluate_expression projections acc row false = Ok (Some acc') ∧ acc_ok rows acc'.
Proof.
  intros Hret [Hc Hi Hr] Hrow Hrows. unfold apply_row, accept_row.
  destruct (update_aggregates_ok (aggregate_expressions projections) (row :: rows) rows (acc_aggregates acc) row false) as (items & Eitems & Hitems); try done.
  { intros a i Ha Hok. by apply (update_aggregate_retract domain). }
  destruct (acc_row_counts acc) as [counts|]; [|congruence]. destruct Hr as [_ Hr].
  pose proof (Hr (state_row_key row)) as Hrow_count. rewrite fmap_cons, count_cons, decide_True in Hrow_count by done.
  rewrite Hrow_count. cbn [negb andb]. rewrite (proj2 (Z.eqb_neq _ 0)) by lia.
  destruct (Z.eqb_spec (1 + count (state_row_key <$> rows) (state_row_key row)) 1) as [En|En];
    rewrite bind_Ok, Eitems, bind_Ok; (eexists; split; [reflexivity|]).
  all: split; cbn [acc_row_count acc_aggregates acc_row_counts length direction_of] in *; [lia|done|split; [done|]]; intros k.
  - destruct (decide (state_row_key row = k)) as [<-|Hne]; [rewrite lookup_delete_eq; cbn; lia|].
    rewrite lookup_delete_ne by done. rewrite Hr, fmap_cons, count_cons, decide_False by done. lia.
  - rewrite lookup_count. case_decide as Hk; [subst; lia|]. rewrite Hr, fmap_cons, count_cons, decide_False by done. lia.
Qed.

(** A retraction of a row the group does not have changes nothing. *)
Lemma apply_row_absent rows acc row :
  retractable = true → acc_ok rows acc → canonical_row row ∉ canonical_row <$> rows →
  apply_row evaluate_expression projections acc row false = Ok None.
Proof.
  intros Hret [_ _ Hr] Habs. unfold apply_row, accept_row. destruct (acc_row_counts acc) as [counts|]; [|congruence].
  destruct Hr as [_ Hr]. rewrite Hr.
  assert (count (state_row_key <$> rows) (state_row_key row) = 0) as ->.
  { apply (Nat2Z.inj_iff _ 0). apply count_occ_not_In. rewrite <-list_elem_of_In. intros (x & Ex & Hx)%list_elem_of_fmap.
    apply Habs, list_elem_of_fmap. exists x. split; [by apply state_row_key_canonical|done]. }
  done.
Qed.

(** *** Results *)

Lemma canonical_group_lookup (values : list sqlval) :
  canonical <$> group_lookup group_expressions values = group_lookup group_expressions (canonical <$> values).
Proof.
  unfold group_lookup. generalize (group_expressions.*1). intros names.
  assert (∀ (m : gmap string sqlval), canonical <$> foldl (λ (m : gmap string sqlval) '(name, v), <[name := v]> m) m (zip names values) =
    foldl (λ (m : gmap string canon) '(name, v), <[name := v]> m) (canonical <$> m) (zip names (canonical <$> values))) as Hm.
  { revert values. induction names as [|n names IH]; intros [|v values] m; cbn; [done..|]. by rewrite IH, fmap_insert. }
  by rewrite Hm, fmap_empty.
Qed.

Lemma project_spec values rows projs items result x :
  Forall domain rows → Forall (suited domain) (aggregate_expressions projs) →
  Forall2 (λ a, item_ok a rows) (aggregate_expressions projs) items →
  foldM (reference_column (canonical <$> values) rows) (canonical <$> result) projs = Ok x →
  ∃ r, project (group_lookup group_expressions values) projs items result = Ok r ∧ canonical <$> r = x.
Proof.
  intros Hd. revert items result. induction projs as [|[name e] projs IH]; intros items result Hs Hi Hx.
  { cbn in Hx. injection Hx as <-. by exists result. }
  cbn [foldM] in Hx. unfold reference_column at 1 in Hx. cbn [project p_name p_expression] in *.
  assert (is_Some ((canonical <$> result) !! name) ↔ is_Some (result !! name)) as Hname
    by (by rewrite lookup_fmap, fmap_is_Some).
  unfold reference_value in Hx. cbn [p_name p_expression] in Hx.
  destruct (decide (is_Some ((canonical <$> result) !! name))) as [?|Hn1]; [by cbn in Hx|].
  rewrite decide_False by (by rewrite <-Hname). destruct e as [a|sql].
  - change (aggregate_expressions (mkProjection name (inl a) :: projs)) with (a :: aggregate_expressions projs) in *.
    apply Forall_cons in Hs as [Hsa Hs]. inversion Hi as [|? i ? items' Hia Hi' E1 E2]; subst.
    destruct (reference_aggregate a rows) as [v|] eqn:Ev; [|done]. rewrite !bind_Ok in Hx.
    destruct (aggregate_value_spec domain a rows i v Hsa Hd Hia Ev) as (v' & -> & Ecan). rewrite bind_Ok.
    apply IH; [done..|]. rewrite fmap_insert, Ecan. exact Hx.
  - change (aggregate_expressions (mkProjection name (inr sql) :: projs)) with (aggregate_expressions projs) in *.
    rewrite <-canonical_group_lookup, lookup_fmap in Hx. destruct (group_lookup _ values !! sql) as [v|]; [|done]. cbn in Hx.
    apply IH; [done..|]. rewrite fmap_insert. exact Hx.
Qed.

Lemma result_spec values sharing rows acc :
  group_expressions ≠ [] → Forall domain rows → acc_ok rows acc →
  (rows ≠ [] → ∃ x, reference_row (canonical <$> values) rows = Ok x) →
  ∃ r, result group_expressions projections acc values sharing = Ok r ∧ canonical_row <$> r = reference_result (canonical <$> values) rows.
Proof.
  intros Hne Hd [Hc Hi _] Hdef. unfold result. rewrite Hc, bool_decide_eq_false_2, andb_true_r by done.
  destruct rows as [|row rows]; [by exists None|]. rewrite (proj2 (Z.eqb_neq _ 0)) by (cbn; lia).
  destruct Hdef as [x Ex]; [done|].
  destruct (project_spec values (row :: rows) projections (acc_aggregates acc) ∅ x) as (r & -> & Er); try done.
  exists (Some (mkSqlRow r sharing)). split; [done|]. cbn. unfold canonical_row. by rewrite Ex, Er.
Qed.
End accumulators.

(** ** The operator *)

Section aggregate_proof.
Context {E B In : Type} `{CanonPickle} (evaluate_expression : E → sqlrow → outcome sqlval).
Context (group_expressions : list (string * E)) (projections : list (projection E)) (retractable : bool).
Context `{!ManagedStateBackend B group_id unit agg_state, !KeyCodec group_id, !Blake2b}
  (descriptors : StateDescriptor agg_state → Prop) (universe : group_id → unit → Prop)
  (repr : B → keyed_model group_id unit agg_state → Prop)
  `{!BackendRefines B group_id unit agg_state descriptors universe repr} (clock : nat → Z) (cfg : operator_config).
Context (block_of : In → option (Row sqlrow)) (record_timestamp : In → option pyarg) (aggregate_state : StateDescriptor agg_state)
  (group_sharing : sqlrow → list nat) (result_sharing : In → accumulator → list nat)
  (row_of : In → Row sqlrow) (domain : sqlrow → Prop) (key_of : sqlrow → list canon) (share : list canon → list nat).

Implicit Types (a : op_model group_id unit agg_state (Row sqlrow)) (r : In) (row : sqlrow) (rows : list sqlrow) (k : list canon).

Abbreviation hooks := (SQLAggregateOperator evaluate_expression group_expressions projections retractable clock block_of
  record_timestamp aggregate_state group_sharing result_sharing).

(** The key under which the rows of a group are stored. *)
Definition ident k : group_id := (k, share k).

(** The input table; a retraction of an absent row is ignored. *)
Definition aggregate_table (inputs : list In) : list sqlrow :=
  foldl (λ t r, change (is_addition (row_kind_of (row_of r))) (row_values (row_of r)) t) [] inputs.

(** The rows of a group. *)
Definition group_rows k rows : list sqlrow := filter (λ row, key_of row = k) rows.

(** What the query says the result of a group is. *)
Definition group_result k rows : option (gmap string canon) :=
  reference_result evaluate_expression group_expressions projections k (group_rows k rows).

(** A GROUP BY query whose aggregates and result are defined on the rows in use; equal
    rows are identical, in the types and the sharing of their values, and equal group
    keys share their strings alike. *)
Record aggregate_setup : Prop := {
  as_descriptor : descriptors aggregate_state;
  as_grouped : group_expressions ≠ [];
  as_suited : Forall (suited evaluate_expression domain) (aggregate_expressions projections);
  as_key row : domain row → ∃ values, group_values evaluate_expression group_expressions row = Ok values ∧ key_of row = canonical <$> values;
  as_shared row : domain row → group_sharing row = share (key_of row);
  as_canonical x y : domain x → domain y → canonical_row x = canonical_row y → x = y;
  as_defined k rows : Forall domain rows → group_rows k rows ≠ [] →
    ∃ x, reference_row evaluate_expression group_expressions projections k (group_rows k rows) = Ok x
}.

Record valid_aggregate_input r : Prop := {
  va_block : block_of r = Some (row_of r);
  va_domain : domain (row_values (row_of r));
  va_timestamp : ∃ t, check_timestamp (record_timestamp r) = Ok t;
  va_kind : retractable = true ∨ is_addition (row_kind_of (row_of r)) = true;
  va_universe : universe (ident (key_of (row_values (row_of r)))) ();
  va_owned : ∃ g, key_group_for_key (ident (key_of (row_values (row_of r)))) (AInt (oc_max_parallelism cfg)) = Ok g ∧
    KeyGroupRange_contains (oc_key_group_range cfg) g = true
}.

(** What the state holds for a group. *)
Definition stored_group (stored : option agg_state) rows : Prop :=
  match rows with
  | [] => stored = None
  | _ => ∃ acc, stored = Some (AggAccumulator acc) ∧ acc_ok evaluate_expression projections retractable rows acc
  end.

(** A table of results, one row per group. *)
Definition result_table (results : gmap (list canon) (gmap string canon)) : list (gmap string canon) := (map_to_list results).*2.

Record aggregate_inv rows a : Prop := {
  ai_values k : stored_group (km_values (am_backend a) !! (sd_name aggregate_state, ident k, ())) (group_rows k rows);
  ai_timers : km_timers (am_backend a) = ∅;
  ai_domain : Forall domain rows;
  ai_out : ∃ results, (∀ k, results !! k = group_result k rows) ∧ builds (canonical_change <$> am_out a) (result_table results)
}.

(** *** The changelog *)

Lemma result_table_insert results k x : results !! k = Some x → result_table results ≡ₚ x :: result_table (delete k results).
Proof.
  intros Hk. unfold result_table. rewrite <-(insert_delete_id results k x Hk) at 1.
  by rewrite map_to_list_insert by apply lookup_delete_eq.
Qed.

(** What [_emit_change] puts out moves the table from the old result of a group to the new. *)
Lemma builds_emit_change out results k previous current :
  results !! k = canonical_row <$> previous →
  builds (canonical_change <$> out) (result_table results) →
  builds (canonical_change <$> (out ++ changes previous current))
    (result_table (partial_alter (λ _, canonical_row <$> current) k results)).
Proof.
  intros Hk Hb. set (results' := partial_alter _ k results). set (rest := result_table (delete k results)).
  assert (result_table results ≡ₚ option_list (canonical_row <$> previous) ++ rest) as Hold.
  { destruct previous as [p|]; cbn in *; [by apply result_table_insert|]. unfold rest. by rewrite delete_id. }
  assert (result_table results' ≡ₚ option_list (canonical_row <$> current) ++ rest) as Hnew.
  { assert (results' !! k = canonical_row <$> current) as Hk' by (by unfold results'; rewrite lookup_partial_alter_eq).
    assert (delete k results' = delete k results) as Hdel by (unfold results'; by rewrite delete_partial_alter_eq).
    destruct current as [c|]; cbn in *.
    - rewrite (result_table_insert _ _ _ Hk'). by rewrite Hdel.
    - unfold rest. rewrite <-Hdel. by rewrite delete_id. }
  eapply builds_proper; [symmetry; exact Hnew|]. eapply builds_proper in Hb; [|exact Hold].
  rewrite fmap_app. destruct previous as [p|], current as [c|]; cbn [changes option_list fmap option_fmap option_map] in *.
  - case_decide as Heq.
    + apply state_row_key_canonical in Heq. rewrite <-Heq. cbn. by rewrite app_nil_r.
    + cbn. change [?x; ?y] with ([x] ++ [y]). rewrite app_assoc.
      apply (builds_proper _ (rest ++ [canonical_row c])); [by rewrite (comm (++))|].
      apply (builds_added _ rest [canonical_row c] UPDATE_AFTER eq_refl). by apply (builds_retracted _ rest [canonical_row p] UPDATE_BEFORE eq_refl).
  - by apply (builds_retracted _ rest [canonical_row p] DELETE eq_refl).
  - apply (builds_proper _ (rest ++ [canonical_row c])); [by rewrite (comm (++))|].
    by apply (builds_added _ rest [canonical_row c] INSERT eq_refl).
  - cbn. by rewrite app_nil_r.
Qed.

(** *** One input *)

Context (Hsetup : aggregate_setup).

Lemma restore_group stored rows :
  stored_group stored rows →
  ∃ acc, restore_accumulator evaluate_expression projections retractable stored = Ok acc ∧
    acc_ok evaluate_expression projections retractable rows acc.
Proof.
  destruct rows as [|row rows]; cbn.
  - intros ->. eexists. split; [done|]. eapply acc_ok_empty, (as_suited Hsetup).
  - intros (acc & -> & Hok). exists acc. split; [by eapply restore_stored_accumulator|done].
Qed.

Lemma group_domain k rows : Forall domain rows → Forall domain (group_rows k rows).
Proof. rewrite !Forall_forall. intros Hd x [_ Hx]%list_elem_of_filter. auto. Qed.

(** What is stored for a new accumulator. *)
Definition store_of (acc : accumulator) : option agg_state := if acc_row_count acc =? 0 then None else Some (AggAccumulator acc).

Lemma stored_group_store acc rows : acc_ok evaluate_expression projections retractable rows acc → stored_group (store_of acc) rows.
Proof.
  intros Hok. unfold store_of. rewrite (ac_count _ _ _ _ _ Hok). destruct rows as [|row rows]; [done|].
  rewrite (proj2 (Z.eqb_neq _ 0)) by (cbn; lia). by exists acc.
Qed.

Lemma runs_store_accumulator k acc a :
  km_key (am_backend a) = Some (ident k) → universe (ident k) () →
  runs repr a (if acc_row_count acc =? 0 then state_clear aggregate_state ()
      else value_state_set clock aggregate_state () (AggAccumulator acc)) ()
    (a_with_backend (m_update (partial_alter (λ _, store_of acc) (sd_name aggregate_state, ident k, ()))) a).
Proof.
  intros Hk Hu. pose proof (as_descriptor Hsetup). unfold store_of. destruct (acc_row_count acc =? 0).
  - by apply (runs_clear descriptors universe repr).
  - by apply (runs_value_set descriptors universe repr).
Qed.

(** What applying a row does to the accumulator of its group. *)
Lemma apply_change rows row addition acc :
  retractable = true ∨ addition = true → Forall domain rows → domain row →
  acc_ok evaluate_expression projections retractable (group_rows (key_of row) rows) acc →
  (addition = false ∧ row ∉ rows ∧ apply_row evaluate_expression projections acc row addition = Ok None) ∨
  ∃ acc', apply_row evaluate_expression projections acc row addition = Ok (Some acc') ∧
    acc_ok evaluate_expression projections retractable (group_rows (key_of row) (change addition row rows)) acc'.
Proof.
  intros Hkind Hd Hrow Hok. unfold group_rows in *. rewrite filter_change, decide_True by done. fold (group_rows (key_of row) rows) in *.
  pose proof (group_domain (key_of row) rows Hd) as Hgd. pose proof (as_suited Hsetup) as Hs. destruct addition; cbn [change].
  - right. destruct (apply_row_add evaluate_expression projections retractable domain Hs _ _ row Hok Hrow Hgd) as (acc' & Eq & Hok').
    exists acc'. split; [done|]. eapply acc_ok_perm; [|exact Hok']. apply Permutation_cons_append.
  - destruct Hkind as [Hret|?]; [|done]. destruct (decide (row ∈ group_rows (key_of row) rows)) as [Hin|Hin].
    + right. assert (Forall domain (remove_row row (group_rows (key_of row) rows))) as Hgd'.
      { apply Forall_forall. intros x Hx%elem_of_remove_row. by apply (proj1 (Forall_forall _ _) Hgd). }
      eapply (apply_row_retract evaluate_expression projections retractable domain Hs); try done.
      eapply acc_ok_perm; [|exact Hok]. by apply remove_row_perm.
    + left. split; [done|]. split.
      * intros Hrows. apply Hin, list_elem_of_filter. done.
      * eapply apply_row_absent; [done|exact Hok|]. intros (x & Ex & Hx)%list_elem_of_fmap. apply Hin.
        assert (row = x) as <-; [|done]. apply (as_canonical Hsetup); try done. by apply (proj1 (Forall_forall _ _) Hgd).
Qed.

Lemma change_domain addition row rows : domain row → Forall domain rows → Forall domain (change addition row rows).
Proof.
  intros Hrow Ht. destruct addition; cbn [change]; [apply Forall_app; split; [done|by repeat constructor]|].
  apply Forall_forall. intros x Hx%elem_of_remove_row. by apply (proj1 (Forall_forall _ _) Ht).
Qed.

(** The result of a group, from its accumulator. *)
Lemma result_of_group rows row values sharing acc :
  Forall domain rows → key_of row = canonical <$> values →
  acc_ok evaluate_expression projections retractable (group_rows (key_of row) rows) acc →
  ∃ x, result group_expressions projections acc values sharing = Ok x ∧ canonical_row <$> x = group_result (key_of row) rows.
Proof.
  intros Hd Ek Hok. unfold group_result. rewrite Ek in *.
  eapply result_spec; [apply (as_suited Hsetup)|apply (as_grouped Hsetup)|by apply group_domain|exact Hok|].
  by apply (as_defined Hsetup).
Qed.

Lemma aggregate_step rows a r :
  aggregate_inv rows a → valid_aggregate_input r →
  triple repr a (process_element (V := agg_state) clock cfg hooks r)
    (λ _ a', aggregate_inv (change (is_addition (row_kind_of (row_of r))) (row_values (row_of r)) rows) a').
Proof.
  intros Hi Hv. destruct (va_timestamp _ Hv) as [ts Hts]. pose proof (va_domain _ Hv) as Hrow.
  set (row := row_values (row_of r)) in *. set (addition := is_addition (row_kind_of (row_of r))). set (k := key_of row).
  destruct (as_key Hsetup row Hrow) as (values & Evals & Ekey).
  eapply triple_mono; [apply (triple_untimed_element descriptors universe repr clock cfg hooks r (ident k) ts a
    (aggregate_inv (change addition row rows)))|by intros ? ? [? _]].
  { split; [|apply (va_owned _ Hv)]. exists (record_timestamp r). split; [|done]. cbn. unfold default_key_and_timestamp.
    rewrite (va_block _ Hv). unfold group_key. rewrite bool_decide_eq_false_2 by apply (as_grouped Hsetup). fold row.
    rewrite Evals. cbn. unfold k, ident. by rewrite <-(as_shared Hsetup row Hrow), Ekey. }
  { done. }
  cbn [process_managed_element SQLAggregateOperator]. unfold aggregate_process. rewrite (va_block _ Hv). fold row addition.
  rewrite Evals. eapply triple_runs; [apply runs_lift|]. pose proof (va_universe _ Hv) as Hu. fold row k in Hu.
  set (a0 := a_bind (ident k) ts a).
  eapply triple_runs; [by apply (runs_value_get descriptors universe repr clock a0 aggregate_state (ident k) ()); [apply (as_descriptor Hsetup)| |]|].
  change (km_values (am_backend a0)) with (km_values (am_backend a)).
  pose proof (ai_domain _ _ Hi) as Hd. destruct (restore_group _ _ (ai_values _ _ Hi k)) as (acc & -> & Hacc).
  eapply triple_runs; [apply runs_lift|].
  destruct (result_of_group rows row values (result_sharing r acc) acc Hd Ekey Hacc) as (previous & -> & Hprev). eapply triple_runs; [apply runs_lift|].
  destruct (apply_change rows row addition acc (va_kind _ Hv) Hd Hrow Hacc) as [(Hadd & Habs & ->)|(acc' & -> & Hacc')];
    (eapply triple_runs; [apply runs_lift|]).
  - apply triple_ret. split; [|apply (ai_timers _ _ Hi)]. rewrite Hadd. cbn [change]. rewrite remove_row_absent by done.
    destruct Hi. by split.
  - destruct (result_of_group (change addition row rows) row values (result_sharing r acc') acc' (change_domain _ _ _ Hrow Hd) Ekey Hacc') as (current & -> & Hcur).
    eapply triple_runs; [apply runs_lift|]. eapply triple_runs; [by apply runs_store_accumulator|].
    eapply triple_mono; [apply (runs_collect_all (R := Row sqlrow) repr)|]. intros ? a' [_ ->]. split; [|apply (ai_timers _ _ Hi)].
    assert (∀ k', k' ≠ k → group_rows k' (change addition row rows) = group_rows k' rows) as Hother.
    { intros k' Hne. unfold group_rows. by rewrite filter_change, decide_False by (intros E'; by apply Hne). }
    split.
    + intros k'. cbn. destruct (decide (k' = k)) as [->|Hne].
      * rewrite lookup_partial_alter_eq. by apply stored_group_store.
      * rewrite lookup_partial_alter_ne by (unfold ident; congruence). rewrite Hother by done. apply (ai_values _ _ Hi).
    + apply (ai_timers _ _ Hi).
    + by apply change_domain.
    + destruct (ai_out _ _ Hi) as (results & Hres & Hb). exists (partial_alter (λ _, canonical_row <$> current) k results). split.
      * intros k'. destruct (decide (k' = k)) as [->|Hne]; [by rewrite lookup_partial_alter_eq|].
        rewrite lookup_partial_alter_ne by congruence. rewrite Hres. unfold group_result. by rewrite Hother.
      * apply builds_emit_change; [|exact Hb]. by rewrite Hres.
Qed.
End aggregate_proof.

(** C38. Streaming GROUP BY is GROUP BY: for every sequence of changes of the input
    table, retractions of absent rows included, on any backend that meets the contract,
    the operator never raises, and the changelog it puts out builds the table with one
    row per group: COUNT, SUM, AVG, MIN and MAX of the rows the group then has, and
    nothing for a group whose last row is retracted.  Sums are of the exact values,
    rounded once.  The query groups by at least one expression ([global_first_change]
    otherwise); the integers it sums are in the range of doubles ([huge_integer_raises]);
    equal rows are identical, in the types of their values ([mixed_type_retraction]) and
    in which of their strings are one object; and equal group keys share their strings
    alike ([unshared_group_splits]). *)
Theorem aggregate_incremental {E B In : Type} `{CanonPickle} (evaluate_expression : E → sqlrow → outcome sqlval)
    (group_expressions : list (string * E)) (projections : list (projection E)) (retractable : bool)
    `{!ManagedStateBackend B group_id unit agg_state, !KeyCodec group_id, !Blake2b} descriptors universe repr
    `{!BackendRefines B group_id unit agg_state descriptors universe repr} clock cfg
    (block_of : In → option (Row sqlrow)) record_timestamp aggregate_state
    (group_sharing : sqlrow → list nat) (result_sharing : In → accumulator → list nat) row_of (domain : sqlrow → Prop)
    (key_of : sqlrow → list canon) (share : list canon → list nat) (inputs : list In) s0 bound_key bound_time :
  aggregate_setup evaluate_expression group_expressions projections descriptors aggregate_state group_sharing domain key_of share →
  (∀ r, r ∈ inputs → valid_aggregate_input retractable universe cfg block_of record_timestamp row_of domain key_of share r) →
  op_repr repr s0 (mkOpModel (mkModel bound_key ∅ ∅) (-1) bound_time [] 0) →
  ∃ s' results,
    for_each (process_element (V := agg_state) clock cfg (SQLAggregateOperator evaluate_expression group_expressions projections
      retractable clock block_of record_timestamp aggregate_state group_sharing result_sharing)) inputs s0 = (Ok (), s') ∧
    (∀ k, results !! k = group_result evaluate_expression group_expressions projections key_of k (aggregate_table row_of inputs)) ∧
    builds (canonical_change <$> os_out s') (result_table results).
Proof.
  intros Hsetup Hvalid Hs0.
  set (run := process_element (V := agg_state) clock cfg (SQLAggregateOperator evaluate_expression group_expressions projections
      retractable clock block_of record_timestamp aggregate_state group_sharing result_sharing)).
  set (inv := aggregate_inv evaluate_expression group_expressions projections retractable aggregate_state domain key_of share).
  set (a0 := mkOpModel (mkModel bound_key ∅ ∅) (-1) bound_time [] 0 : op_model group_id unit agg_state (Row sqlrow)).
  assert (triple repr a0 (for_each run inputs) (λ _ a', inv (aggregate_table row_of inputs) a')) as Ht.
  { eapply triple_mono; [apply (triple_for_each repr run (λ rest a, ∃ hist, inputs = hist ++ rest ∧
      inv (aggregate_table row_of hist) a) inputs)|].
    - exists []. split; [done|]. split; try done. exists ∅. split; [by intros k; rewrite lookup_empty|].
      cbn. unfold builds, result_table. by rewrite !filter_nil, map_to_list_empty.
    - intros r rest a (hist & Eq & Hi).
      eapply triple_mono; [apply (aggregate_step evaluate_expression group_expressions projections retractable descriptors universe
        repr clock cfg) with (2 := Hi); [exact Hsetup|apply Hvalid; rewrite Eq; set_solver]|].
      intros ? a' Hi'. exists (hist ++ [r]). rewrite <-app_assoc. split; [done|].
      unfold aggregate_table. rewrite foldl_app. exact Hi'.
    - intros ? a (hist & Eq & Hi). rewrite app_nil_r in Eq. by rewrite Eq. }
  destruct (Ht s0 Hs0) as ([] & s' & a' & Erun & Hs' & Hi). destruct (ai_out _ _ _ _ _ _ _ _ _ _ Hi) as (results & Hres & Hb).
  exists s', results. split; [done|]. split; [done|]. by rewrite (or_out _ _ _ Hs').
Qed.

(** ** Examples *)

Module AggregateSamples.
Import Samples.
#[export] Instance sample_pickle : CanonPickle := sql_sample_pickle.
#[export] Instance agg_item_eq_dec : EqDecision agg_item.
Proof. solve_decision. Defined.
#[export] Instance agg_item_countable : Countable agg_item :=
  inj_countable'
    (λ i, (it_count i, it_sum i, it_floating_sum i, it_floating_count i, it_nan_count i, it_nan_value i, it_positive_count i,
      it_positive_value i, it_negative_count i, it_negative_value i, it_values i, it_current i, it_current_key i))
    (λ '(a, b, c, d, e, f, g, h, i, j, k, l, m), mkItem a b c d e f g h i j k l m) ltac:(by intros []).
#[export] Instance accumulator_eq_dec : EqDecision accumulator.
Proof. solve_decision. Defined.
#[export] Instance accumulator_countable : Countable accumulator :=
  inj_countable' (λ a, (acc_row_count a, acc_aggregates a, acc_row_counts a)) (λ '(a, b, c), mkAccumulator a b c) ltac:(by intros []).
#[export] Instance agg_state_eq_dec : EqDecision agg_state.
Proof. solve_decision. Defined.
#[export] Instance agg_state_countable : Countable agg_state :=
  inj_countable' (A := accumulator + list sqlrow + ())
    (λ s, match s with AggAccumulator a => inl (inl a) | AggRows l => inl (inr l) | AggOther => inr () end)
    (λ x, match x with inl (inl a) => AggAccumulator a | inl (inr l) => AggRows l | inr _ => AggOther end) ltac:(by intros []).
#[export] Instance key_codec : KeyCodec group_id := countable_codec.
#[export] Instance namespace_codec : KeyCodec unit := countable_codec.
#[export] Instance address_codec : KeyCodec (group_id * unit) := countable_codec.
#[export] Instance address_serializer : Serializer (group_id * unit) := countable_serializer.
#[export] Instance state_serializer : Serializer agg_state := countable_serializer.

Definition aggregate_state : StateDescriptor agg_state := mkStateDescriptor [x01] state_serializer None.
Definition column (name : string) (row : sqlrow) : outcome sqlval := of_option SQLQueryError (row_data row !! name).
(** SELECT k, COUNT( * ), SUM(v), MAX(v) ... GROUP BY k. *)
Definition by_k : list (string * string) := [("k", "k")]%string.
Definition query : list (projection string) :=
  [mkProjection "k" (inr "k"); mkProjection "n" (inl (mkAggregate ACount None)); mkProjection "s" (inl (mkAggregate ASum (Some "v")));
   mkProjection "m" (inl (mkAggregate AMax (Some "v")))]%string.
(** The strings of this row are the names of its columns. *)
Definition row (k : Z) (v : sqlval) : sqlrow := mkSqlRow {["k" := SInt k; "v" := v]}%string [0; 1]%nat.
(** A row of two equal strings, which are one object or two. *)
Definition pair_row (shared : bool) : sqlrow :=
  mkSqlRow {["a" := SStr "ab"; "b" := SStr "ab"]}%string (if shared then [0; 1; 2; 1] else [0; 1; 2; 3])%nat.
(** The strings of the group key of such a row. *)
Definition group_sharing (row : sqlrow) : list nat :=
  match row_sharing row with
  | [_; x; _; y] => if decide (x = y) then [0; 0] else [0; 1]
  | _ => []
  end%nat.
Definition config : operator_config := mkConfig 1 (mkKeyGroupRange 0 0) 10.
Definition start : op_state (backend group_id) (Row sqlrow) := mkOp MemoryStateBackend_init (-1) None 0 [] 0 0 0.
Definition run (groups : list (string * string)) (query : list (projection string)) (inputs : list (Row sqlrow))
    : outcome unit * op_state (backend group_id) (Row sqlrow) :=
  for_each (process_element (V := agg_state) (NS := unit) (λ _, 0) config
    (SQLAggregateOperator column groups query true (λ _, 0) Some (λ _, None) aggregate_state group_sharing (λ _ _, seq 0 (length query)))) inputs start.

(** Two groups; one loses its maximum, the other its last row, and then a row it does not have. *)
Definition inputs : list (Row sqlrow) :=
  [ChangelogRow_insert (row 1 (SInt 5)); ChangelogRow_insert (row 1 SNull); ChangelogRow_insert (row 2 (SInt 7));
   ChangelogRow_insert (row 1 (SInt 3)); ChangelogRow_delete (row 1 (SInt 5)); ChangelogRow_delete (row 2 (SInt 7));
   ChangelogRow_delete (row 2 (SInt 9))].

Definition descriptors (d : StateDescriptor agg_state) : Prop := d = aggregate_state.
Definition key (z : Z) : list canon := [CNumber (Qc_of_Z z)].
Definition share (k : list canon) : list nat := [].
Definition universe (k : group_id) (ns : unit) : Prop := k ∈ [(key 1, []); (key 2, [])].
Definition key_of (row : sqlrow) : list canon := match row_data row !! "k"%string with Some v => [canonical v] | None => [] end.
Definition integral (v : sqlval) : bool :=
  match v with SNull => true | SInt z => match int_to_float z with Ok _ => true | Err _ => false end | _ => false end.
Definition domain (x : sqlrow) : Prop := ∃ k v, x = row k v ∧ integral v = true.

Lemma aggregate_contract_domain : contract_domain descriptors universe.
Proof.
  split.
  - by intros d ->.
  - by intros d d' -> ->.
  - intros d k [] -> Hk. revert k Hk. apply Forall_forall. repeat constructor; eexists; vm_compute; reflexivity.
  - intros k [] k' [] Hk Hk'. revert k' Hk'. revert k Hk.
    refine (proj1 (Forall_forall (λ k, ∀ k', universe k' () → sha256 (encode_key (k, ())) = sha256 (encode_key (k', ())) →
      (k, ()) = (k', ())) _) _).
    repeat constructor; (refine (proj1 (Forall_forall (λ k', sha256 _ = sha256 (encode_key (k', ())) → (_, ()) = (k', ())) _) _));
      repeat constructor; intros E; try done; vm_compute in E; done.
Defined.

Lemma column_row k v name : column name (row k v) = if decide (name = "k"%string) then Ok (SInt k) else
  if decide (name = "v"%string) then Ok v else Err SQLQueryError.
Proof.
  destruct (decide (name = "k"%string)) as [->|Hk]; [done|]. destruct (decide (name = "v"%string)) as [->|Hv]; [done|].
  unfold column, row. cbn [row_data]. by rewrite lookup_insert_ne, lookup_singleton_ne by done.
Qed.
End AggregateSamples.

Section aggregate_samples.
Import Samples AggregateSamples.

(** The first row of a global aggregate is announced as an update of a row that was
    never put out. *)
Example global_first_change :
  os_out (AggregateSamples.run [] [mkProjection "n"%string (inl (mkAggregate ACount None))]
    [ChangelogRow_insert (AggregateSamples.row 1 (SInt 5))]).2 =
  [mkRow (mkSqlRow {["n"%string := SInt 0]} [0%nat]) (Some UPDATE_BEFORE);
   mkRow (mkSqlRow {["n"%string := SInt 1]} [0%nat]) (Some UPDATE_AFTER)].
Proof. vm_compute. reflexivity. Qed.

(** The row of the integer 1 is retracted as the equal row of the float 1.0: the
    float comes off the float sum, and the sum of the remaining 2.5 is the integer 1. *)
Example mixed_type_retraction :
  (λ r, row_data (row_values r) !! "s"%string) <$> last (os_out (AggregateSamples.run AggregateSamples.by_k
      [mkProjection "s"%string (inl (mkAggregate ASum (Some "v"%string)))]
      [ChangelogRow_insert (AggregateSamples.row 1 (SInt 1)); ChangelogRow_insert (AggregateSamples.row 1 (SFloat (FFin (Q2Qc (5 # 2)))));
       ChangelogRow_delete (AggregateSamples.row 1 (SFloat (FFin (Qc_of_Z 1))))]).2) =
  Some (Some (SInt 1)).
Proof. vm_compute. reflexivity. Qed.

(** Two rows of one group whose equal strings are one object in the first and two in the
    second: two groups of one row. *)
Example unshared_group_splits :
  os_out (AggregateSamples.run [("a", "a"); ("b", "b")]%string [mkProjection "n"%string (inl (mkAggregate ACount None))]
    [ChangelogRow_insert (AggregateSamples.pair_row true); ChangelogRow_insert (AggregateSamples.pair_row false)]).2 =
  [mkRow (mkSqlRow {["n"%string := SInt 1]} [0%nat]) (Some INSERT); mkRow (mkSqlRow {["n"%string := SInt 1]} [0%nat]) (Some INSERT)].
Proof. vm_compute. reflexivity. Qed.

(** An integer beyond the range of doubles cannot be summed. *)
Example huge_integer_raises :
  (AggregateSamples.run AggregateSamples.by_k AggregateSamples.query
    [ChangelogRow_insert (AggregateSamples.row 1 (SInt (2 ^ 1024)))]).1 = Err OverflowError.
Proof. vm_compute. reflexivity. Qed.

Lemma aggregate_sample_setup :
  aggregate_setup AggregateSamples.column AggregateSamples.by_k AggregateSamples.query AggregateSamples.descriptors
    AggregateSamples.aggregate_state AggregateSamples.group_sharing AggregateSamples.domain AggregateSamples.key_of AggregateSamples.share.
Proof.
  assert (Hv : ∀ x, AggregateSamples.domain x → ∃ v, AggregateSamples.column "v" x = Ok v ∧ AggregateSamples.integral v = true).
  { intros x (k & v & -> & Hv). exists v. by rewrite AggregateSamples.column_row. }
  assert (Harg : ∀ x v, AggregateSamples.domain x → argument_of AggregateSamples.column "v"%string x = Some v → ∃ z f, v = SInt z ∧ int_to_float z = Ok f).
  { intros x v (v' & Ev & Hi)%Hv. unfold argument_of. rewrite Ev. destruct v' as [|?|z|?|?]; try done. intros [= <-]. cbn [AggregateSamples.integral] in Hi.
    destruct (int_to_float z) as [f|] eqn:Hf; [|done]. by exists z, f. }
  split; try done.
  - repeat constructor.
    + intros x (v & ? & _)%Hv. by exists v.
    + intros x v Hx Ev. destruct (Harg x v Hx Ev) as (z & f & -> & Hf). by exists f.
    + intros x (v & ? & _)%Hv. by exists v.
    + intros x y v w Hx Hy Ev Ew. destruct (Harg x v Hx Ev) as (z & ? & -> & _), (Harg y w Hy Ew) as (z' & ? & -> & _). done.
  - intros x (k & v & -> & _). exists [SInt k]. unfold group_values. cbn. by rewrite AggregateSamples.column_row.
  - intros x (k & v & -> & _). done.
  - intros x y (k & v & -> & Hi) (k' & v' & -> & Hi') E.
    assert (Some (CNumber (Qc_of_Z k)) = Some (CNumber (Qc_of_Z k'))) as Ek by exact (f_equal (.!! "k"%string) E).
    assert (Some (canonical v) = Some (canonical v')) as Ev by exact (f_equal (.!! "v"%string) E).
    assert (∀ p q, Some (CNumber p) = Some (CNumber q) → p = q) as Hnum by (by intros p q [= ->]).
    f_equal; [by apply Qc_of_Z_inj, Hnum|].
    destruct v as [|?|z|?|?], v' as [|?|z'|?|?]; try done. f_equal. by apply Qc_of_Z_inj, Hnum.
  - intros k rows Hd Hne. destruct (group_rows AggregateSamples.key_of k rows) as [|x g] eqn:Eg; [done|].
    assert (∃ c, k = [c]) as [c ->].
    { assert (x ∈ group_rows AggregateSamples.key_of k rows) as [Ek Hx]%list_elem_of_filter by (rewrite Eg; by left).
      rewrite Forall_forall in Hd. destruct (Hd x Hx) as (z & v & -> & _). rewrite <-Ek. by eexists. }
    apply reference_row_defined; [apply (bool_decide_unpack _); vm_compute; done|].
    repeat constructor; by eexists.
Defined.

Lemma aggregate_incremental_witness :
  row_kind_of <$> os_out (AggregateSamples.run AggregateSamples.by_k AggregateSamples.query AggregateSamples.inputs).2 =
    [INSERT; UPDATE_BEFORE; UPDATE_AFTER; INSERT; UPDATE_BEFORE; UPDATE_AFTER; UPDATE_BEFORE; UPDATE_AFTER; DELETE] ∧
  ∃ s' results, AggregateSamples.run AggregateSamples.by_k AggregateSamples.query AggregateSamples.inputs = (Ok (), s') ∧
    (∀ k, results !! k = group_result AggregateSamples.column AggregateSamples.by_k AggregateSamples.query AggregateSamples.key_of k
      [AggregateSamples.row 1 SNull; AggregateSamples.row 1 (SInt 3)]) ∧
    builds (canonical_change <$> os_out s') (result_table results).
Proof.
  split; [vm_compute; reflexivity|].
  pose proof (memory_refines _ _ AggregateSamples.aggregate_contract_domain) as Hrefines.
  destruct (aggregate_incremental (In := Row sqlrow) AggregateSamples.column AggregateSamples.by_k AggregateSamples.query true
    AggregateSamples.descriptors AggregateSamples.universe (memory_repr AggregateSamples.descriptors AggregateSamples.universe)
    (λ _, 0) AggregateSamples.config Some (λ _, None) AggregateSamples.aggregate_state AggregateSamples.group_sharing
    (λ _ _, seq 0 (length AggregateSamples.query)) id AggregateSamples.domain
    AggregateSamples.key_of AggregateSamples.share AggregateSamples.inputs AggregateSamples.start None None) as (s' & results & Hrun & Hres & Hout).
  - exact aggregate_sample_setup.
  - refine (proj1 (Forall_forall (valid_aggregate_input true AggregateSamples.universe _ _ _ _ _ _ _) _) _).
    repeat constructor; try (eexists _, _; split; [reflexivity|vm_compute; reflexivity]); try (exists 0; split; vm_compute; reflexivity); try (by exists None);
      unfold AggregateSamples.universe; vm_compute; set_solver.
  - split; try done. apply memory_repr_init. exact AggregateSamples.aggregate_contract_domain.
  - exists s', results. split; [exact Hrun|]. split; [|exact Hout]. intros k. by rewrite Hres.
Defined.
End aggregate_samples.
