(* ===== verification/ManagedSnapshot.v ===== *)
(** * Snapshots of stateful operators and their redistribution

    Models [src/ray/klein/state/managed_state_snapshot.py] (the envelope around a
    backend's key-group snapshots, its validation, and the redistribution of the key
    groups over another number of subtasks) and the snapshot and restore paths of
    [src/ray/klein/runtime/operator/managed_state_operator.py].

    Pickling is a [Serializer] at the type of the objects the code may read: a mapping
    with optional entries of any type, or something else.  A mapping of key groups is a
    list of entries; the operators run over the in-memory backend. *)
From S2P Require Import Prelude Concrete KeyGroups StateCodec StateBackend BackendContract ManagedState StateSnapshot.
Open Scope Z_scope.

(** ** The envelope *)

(** A [KeyGroupRange] whose fields were not checked, or another object. *)
Inductive range_value := VRange (start stop : pyarg) | VNoRange.

(** A mapping from any keys; an entry that is not [bytes] is [None]. *)
Inductive groups_value := VGroups (entries : list (pyarg * option bytes)) | VNotMapping.

Record managed_payload := mkManagedPayload {
  mp_format_version : option pyarg;
  mp_key_encoding_version : option pyarg;
  mp_max_parallelism : option pyarg;
  mp_key_group_range : option range_value;
  mp_key_groups : option groups_value;
  mp_watermark : option pyarg
}.

(** What unpickling returns; an argument that should be [bytes]. *)
Inductive managed_object := MDict (p : managed_payload) | MNotDict.
Inductive snapshot_arg := SBytes (b : bytes) | SNotBytes.

Definition max_parallelism_of (p : managed_payload) : outcome Z :=
  match mp_max_parallelism p ≫= arg_int with
  | Some value => if value <? 1 then Err ValueError else Ok value
  | None => Err ValueError
  end.

(** [payload.get("watermark", -1)], an integer. *)
Definition watermark_of (p : managed_payload) : outcome Z :=
  match arg_int (default (AInt (-1)) (mp_watermark p)) with Some value => Ok value | None => Err ValueError end.

Definition check_group_entry (entry : pyarg * option bytes) : outcome (Z * bytes) :=
  match arg_int entry.1 with
  | None => Err ValueError
  | Some key_group => match entry.2 with None => Err ValueError | Some snapshot => Ok (key_group, snapshot) end
  end.

Definition key_groups_of (p : managed_payload) : outcome (list (Z * bytes)) :=
  match default (VGroups []) (mp_key_groups p) with
  | VNotMapping => Err ValueError
  | VGroups entries => mapM_outcome check_group_entry entries
  end.

(** The condition on [key_group_range]. *)
Definition check_range (max_parallelism : Z) (r : option range_value) : outcome KeyGroupRange :=
  match r with
  | Some (VRange start stop) =>
      match arg_int start, arg_int stop with
      | Some start, Some stop =>
          if (start <? 0) || (stop <? start) || (max_parallelism <=? stop) then Err ValueError
          else Ok (mkKeyGroupRange start stop)
      | _, _ => Err ValueError
      end
  | _ => Err ValueError
  end.

Definition validate_snapshot_payload (p : managed_payload) : outcome unit :=
  _ ← require (bool_decide (mp_format_version p = Some (AInt FORMAT_VERSION))) ValueError;
  _ ← require_key_encoding_version (mp_key_encoding_version p);
  max_parallelism ← max_parallelism_of p;
  key_group_range ← check_range max_parallelism (mp_key_group_range p);
  _ ← watermark_of p;
  key_groups ← key_groups_of p;
  require (forallb (λ e, negb ((max_parallelism <=? e.1) || negb (KeyGroupRange_contains key_group_range e.1))) (key_groups : list (Z * bytes))) ValueError.

Section envelope.
Context `{Serializer managed_object}.

Definition managed_payload_of (max_parallelism : Z) (r : KeyGroupRange) (key_groups : list (Z * bytes)) (watermark : Z) : managed_payload :=
  mkManagedPayload (Some (AInt FORMAT_VERSION)) (Some (AInt KEY_ENCODING_VERSION)) (Some (AInt max_parallelism))
    (Some (VRange (AInt (kgr_start r)) (AInt (kgr_end r)))) (Some (VGroups ((λ e, (AInt e.1, Some e.2)) <$> key_groups)))
    (Some (AInt watermark)).

Definition encode_managed_state_snapshot (max_parallelism : Z) (r : KeyGroupRange) (key_groups : list (Z * bytes)) (watermark : Z)
    : outcome bytes :=
  let payload := managed_payload_of max_parallelism r key_groups watermark in
  _ ← validate_snapshot_payload payload;
  Ok (ser_dumps (MDict payload)).

Definition decode_managed_state_snapshot (snapshot : snapshot_arg) : outcome managed_payload :=
  match snapshot with
  | SNotBytes => Err TypeError
  | SBytes b =>
      o ← ser_loads b;
      match o with
      | MNotDict => Err ValueError
      | MDict p => _ ← validate_snapshot_payload p; Ok p
      end
  end.

(** ** Redistribution *)

(** A group's snapshot enters a dictionary, unless another one is there. *)
Definition record_group (groups : gmap Z bytes) (entry : Z * bytes) : outcome (gmap Z bytes) :=
  match groups !! entry.1 with
  | Some previous => if decide (previous = entry.2) then Ok (<[entry.1 := entry.2]> groups) else Err ValueError
  | None => Ok (<[entry.1 := entry.2]> groups)
  end.

(** One round of the loop of [_redistribute_key_groups]. *)
Definition redistribute_one (max_parallelism target_parallelism : Z) (buckets : list (gmap Z bytes)) (entry : Z * bytes)
    : outcome (list (gmap Z bytes)) :=
  owner ← key_group_owner (AInt entry.1) (AInt max_parallelism) (AInt target_parallelism);
  bucket ← of_option IndexError (buckets !! Z.to_nat owner);
  bucket ← record_group bucket entry;
  Ok (<[Z.to_nat owner := bucket]> buckets).

Definition redistribute_key_groups (max_parallelism target_parallelism : Z) (payload : managed_payload) (buckets : list (gmap Z bytes))
    : outcome (list (gmap Z bytes)) :=
  key_groups ← key_groups_of payload;
  foldM (redistribute_one max_parallelism target_parallelism) buckets (key_groups : list (Z * bytes)).

Definition validate_target_parallelism (target_parallelism : pyarg) : outcome Z :=
  match arg_int target_parallelism with
  | None => Err TypeError
  | Some t => if t <? 1 then Err ValueError else Ok t
  end.

(** One round of the loop over the snapshots after the first. *)
Definition repartition_one (max_parallelism target_parallelism : Z) (acc : Z * list (gmap Z bytes)) (snapshot : snapshot_arg)
    : outcome (Z * list (gmap Z bytes)) :=
  let '(watermark, buckets) := acc in
  payload ← decode_managed_state_snapshot snapshot;
  mp ← max_parallelism_of payload;
  _ ← require (mp =? max_parallelism) ValueError;
  w ← watermark_of payload;
  buckets ← redistribute_key_groups max_parallelism target_parallelism payload buckets;
  Ok (Z.min watermark w, buckets).

Definition entry_le (x y : Z * bytes) : Prop := x.1 <= y.1.
#[export] Instance entry_le_dec x y : Decision (entry_le x y) := decide (x.1 <= y.1).

(** [{key: bucket[key] for key in sorted(bucket)}]. *)
Definition sorted_items (bucket : gmap Z bytes) : list (Z * bytes) := merge_sort entry_le (map_to_list bucket).

Definition repartition_managed_state_snapshots (snapshots : list snapshot_arg) (target_parallelism : pyarg) : outcome (list bytes) :=
  target ← validate_target_parallelism target_parallelism;
  match snapshots with
  | [] => Err ValueError
  | first :: rest =>
      first_payload ← decode_managed_state_snapshot first;
      max_parallelism ← max_parallelism_of first_payload;
      _ ← assign_key_group_range (AInt max_parallelism) (AInt target) (AInt 0);
      let buckets : list (gmap Z bytes) := replicate (Z.to_nat target) ∅ in
      watermark ← watermark_of first_payload;
      buckets ← redistribute_key_groups max_parallelism target first_payload buckets;
      acc ← foldM (repartition_one max_parallelism target) (watermark, buckets) rest;
      let '(watermark, buckets) := (acc : Z * list (gmap Z bytes)) in
      mapM_outcome (λ ib : nat * gmap Z bytes,
        r ← assign_key_group_range (AInt max_parallelism) (AInt target) (AInt (Z.of_nat ib.1));
        encode_managed_state_snapshot max_parallelism r (sorted_items ib.2) watermark) (imap pair buckets)
  end.
End envelope.

(** ** The operator's snapshot and restore *)

Section operator_snapshots.
Context {K NS R : Type} `{KeyCodec K, KeyCodec NS, KeyCodec (K * NS), Serializer (K * NS), Sha256, Blake2b}
  `{!Serializer pickled, !Serializer managed_object} (cfg : operator_config).
Abbreviation state := (op_state (backend K) R).

Definition snapshot_state (s : state) : outcome bytes :=
  key_groups ← backend_snapshot_key_groups (NS := NS) (AInt (oc_max_parallelism cfg))
    (KeyGroupRange_iter (oc_key_group_range cfg)) (os_backend s);
  encode_managed_state_snapshot (oc_max_parallelism cfg) (oc_key_group_range cfg)
    (map_to_list (key_groups : gmap Z bytes)) (os_watermark s).

Definition validate_key_group_payload (p : managed_payload) : outcome unit :=
  require (bool_decide (mp_max_parallelism p = Some (AInt (oc_max_parallelism cfg)))) ValueError.

(** One round of the loop of [_select_owned_key_groups]. *)
Definition select_owned_one (selected : gmap Z bytes) (entry : Z * bytes) : outcome (gmap Z bytes) :=
  if negb (KeyGroupRange_contains (oc_key_group_range cfg) entry.1) then Ok selected
  else record_group selected entry.

Definition select_owned_key_groups (selected : gmap Z bytes) (key_groups : list (Z * bytes)) : outcome (gmap Z bytes) :=
  foldM select_owned_one selected key_groups.

(** One round of the loop of [_restore_key_group_payloads]. *)
Definition restore_payload (acc : gmap Z bytes * list Z) (p : managed_payload) : outcome (gmap Z bytes * list Z) :=
  let '(selected, watermarks) := acc in
  _ ← validate_key_group_payload p;
  w ← watermark_of p;
  key_groups ← key_groups_of p;
  selected ← select_owned_key_groups selected key_groups;
  Ok (selected, watermarks ++ [w]).

(** [min(watermarks, default=-1)]. *)
Definition min_watermark (watermarks : list Z) : Z :=
  match watermarks with [] => -1 | w :: ws => foldl Z.min w ws end.

Definition restore_key_group_payloads (payloads : list managed_payload) : op (backend K) R unit :=
  acc ← lift (foldM restore_payload (∅, []) payloads);
  let '(selected, watermarks) := (acc : gmap Z bytes * list Z) in
  _ ← on_backend (backend_restore_key_groups (map_to_list selected).*2);
  restore_watermark (min_watermark watermarks).

Definition restore_state_fragments (snapshots : list snapshot_arg) : op (backend K) R unit :=
  payloads ← lift (mapM_outcome decode_managed_state_snapshot snapshots);
  match (payloads : list managed_payload) with
  | [] => mret ()
  | _ => restore_key_group_payloads payloads
  end.

Definition restore_state (snapshot : snapshot_arg) : op (backend K) R unit := restore_state_fragments [snapshot].
End operator_snapshots.

(** ** Lemmas: the envelope *)

(** The groups and watermark of a payload that was validated. *)
Definition groups_in (p : managed_payload) : list (Z * bytes) := match key_groups_of p with Ok gs => gs | Err _ => [] end.
Definition watermark_in (p : managed_payload) : Z := match watermark_of p with Ok w => w | Err _ => -1 end.

Record payload_valid (mp : Z) (p : managed_payload) : Prop := {
  pv_max : mp_max_parallelism p = Some (AInt mp);
  pv_positive : 1 <= mp;
  pv_groups : key_groups_of p = Ok (groups_in p);
  pv_watermark : watermark_of p = Ok (watermark_in p);
  pv_range e : e ∈ groups_in p → 0 <= e.1 < mp
}.

Lemma arg_int_Some_inv a z : arg_int a = Some z → a = AInt z.
Proof. destruct a; cbn; congruence. Qed.

Lemma max_parallelism_of_inv p mp : max_parallelism_of p = Ok mp → mp_max_parallelism p = Some (AInt mp) ∧ 1 <= mp.
Proof.
  unfold max_parallelism_of. destruct (mp_max_parallelism p) as [a|]; cbn; [|done].
  destruct (arg_int a) as [z|] eqn:E; [|done]. destruct (Z.ltb_spec z 1); [done|]. intros [= <-].
  by rewrite (arg_int_Some_inv _ _ E).
Qed.

Lemma max_parallelism_of_Ok p mp : mp_max_parallelism p = Some (AInt mp) → 1 <= mp → max_parallelism_of p = Ok mp.
Proof. unfold max_parallelism_of. intros -> ?. cbn. by rewrite (proj2 (Z.ltb_ge _ _)) by lia. Qed.

Lemma check_range_inv mp v r : check_range mp v = Ok r → 0 <= kgr_start r ∧ kgr_end r < mp.
Proof.
  unfold check_range. destruct v as [[a b|]|]; try done. destruct (arg_int a) as [x|], (arg_int b) as [y|]; try done.
  destruct (Z.ltb_spec x 0), (Z.ltb_spec y x), (Z.leb_spec mp y); try done. intros [= <-]. cbn. lia.
Qed.

Lemma validate_inv p : validate_snapshot_payload p = Ok () → ∃ mp, payload_valid mp p.
Proof.
  unfold validate_snapshot_payload. intros H.
  apply bind_Ok_inv in H as (? & _ & H). apply bind_Ok_inv in H as (? & _ & H).
  apply bind_Ok_inv in H as (mp & Hmp & H). apply bind_Ok_inv in H as (r & Hr & H).
  apply bind_Ok_inv in H as (w & Hw & H). apply bind_Ok_inv in H as (gs & Hgs & H).
  apply max_parallelism_of_inv in Hmp as [Hmp Hpos]. apply check_range_inv in Hr.
  apply require_Ok_inv in H. rewrite forallb_True', Forall_forall in H.
  exists mp. split; try done.
  - unfold groups_in. by rewrite Hgs.
  - unfold watermark_in. by rewrite Hw.
  - unfold groups_in. rewrite Hgs. intros e He. specialize (H e He). cbn in H.
    apply negb_true_iff, orb_false_iff in H as [Hlt Hc%negb_false_iff]. apply Z.leb_gt in Hlt.
    apply KeyGroupRange_contains_spec in Hc. lia.
Qed.

Lemma decode_inv `{Serializer managed_object} a p : decode_managed_state_snapshot a = Ok p → ∃ mp, payload_valid mp p.
Proof.
  destruct a as [b|]; [|done]. cbn. intros (o & _ & Ho)%bind_Ok_inv. destruct o as [q|]; [|done].
  apply bind_Ok_inv in Ho as ([] & Hv & [= <-]). by apply validate_inv.
Qed.

Lemma key_groups_of_payload_of mp r gs w : key_groups_of (managed_payload_of mp r gs w) = Ok gs.
Proof.
  unfold key_groups_of, managed_payload_of. cbn. induction gs as [|[kg b] gs IH]; [done|]. cbn. by rewrite IH.
Qed.

Lemma validate_payload_of mp r gs w :
  1 <= mp → 0 <= kgr_start r <= kgr_end r → kgr_end r < mp → (∀ e, e ∈ gs → KeyGroupRange_contains r e.1 = true) →
  validate_snapshot_payload (managed_payload_of mp r gs w) = Ok ().
Proof.
  intros Hmp Hr Hend Hgs. unfold validate_snapshot_payload.
  rewrite (max_parallelism_of_Ok _ mp), key_groups_of_payload_of by done. cbn.
  rewrite (proj2 (Z.ltb_ge _ _)), (proj2 (Z.ltb_ge _ _)), (proj2 (Z.leb_gt mp _)) by lia. cbn.
  rewrite (proj2 (forallb_True' _ _)); [done|]. apply Forall_forall. intros e He. specialize (Hgs e He).
  pose proof (proj1 (KeyGroupRange_contains_spec _ _) Hgs). destruct r as [a b]. cbn in *. rewrite Hgs.
  by rewrite (proj2 (Z.leb_gt mp _)) by lia.
Qed.

Lemma decode_encode `{Serializer managed_object} mp r gs w b :
  encode_managed_state_snapshot mp r gs w = Ok b → decode_managed_state_snapshot (SBytes b) = Ok (managed_payload_of mp r gs w).
Proof.
  unfold encode_managed_state_snapshot. intros ([] & Hv & [= <-])%bind_Ok_inv. cbn. rewrite ser_loads_dumps. cbn.
  by rewrite Hv.
Qed.

(** ** Lemmas: collecting key groups *)

(** No key group comes with two snapshots. *)
Definition consistent (gs : list (Z * bytes)) : Prop := ∀ kg s s', (kg, s) ∈ gs → (kg, s') ∈ gs → s = s'.

Definition holds (gs : list (Z * bytes)) (m : gmap Z bytes) : Prop := ∀ kg s, m !! kg = Some s ↔ (kg, s) ∈ gs.

Lemma holds_empty : holds [] ∅.
Proof. intros kg s. rewrite lookup_empty. split; [done|by intros ?%not_elem_of_nil]. Qed.

Lemma holds_consistent gs m : holds gs m → consistent gs.
Proof. intros Hm kg s s' H1%Hm H2%Hm. congruence. Qed.

Lemma consistent_subset gs gs' : (∀ e, e ∈ gs → e ∈ gs') → consistent gs' → consistent gs.
Proof. intros Hsub Hc kg s s' H1 H2. eapply Hc; by apply Hsub. Qed.

Lemma holds_eq gs gs' m m' : (∀ e, e ∈ gs ↔ e ∈ gs') → holds gs m → holds gs' m' → m = m'.
Proof.
  intros He Hm Hm'. apply map_eq. intros kg. apply option_eq. intros s. by rewrite (Hm kg s), (Hm' kg s), He.
Qed.

Lemma record_group_spec gs m e :
  holds gs m → consistent (gs ++ [e]) → ∃ m', record_group m e = Ok m' ∧ holds (gs ++ [e]) m'.
Proof.
  destruct e as [kg b]. intros Hm Hc. exists (<[kg := b]> m). split.
  - unfold record_group. cbn. destruct (m !! kg) as [b'|] eqn:E; [|done]. apply Hm in E.
    rewrite decide_True; [done|]. apply (Hc kg); set_solver.
  - intros kg' s. rewrite elem_of_app, list_elem_of_singleton. destruct (decide (kg = kg')) as [<-|Hne].
    + rewrite lookup_insert_eq. split; [intros [= ->]; by right|]. intros [Hin|[= ->]]; [|done].
      f_equal. apply (Hc kg); set_solver.
    + rewrite lookup_insert_ne, (Hm kg' s) by done. split; [by left|]. intros [?|Heq]; [done|]. by injection Heq as -> _.
Qed.

Lemma record_group_inv gs m e m' :
  holds gs m → record_group m e = Ok m' → holds (gs ++ [e]) m'.
Proof.
  intros Hm Hr. assert (consistent (gs ++ [e])) as Hc.
  { pose proof (holds_consistent _ _ Hm) as Hcons. destruct e as [kg b]. unfold record_group in Hr. cbn in Hr.
    assert (∀ s, (kg, s) ∈ gs → s = b) as Hsame.
    { intros s Hs%Hm. rewrite Hs in Hr. by destruct (decide (s = b)). }
    intros kg' s s' [H1|H1%list_elem_of_singleton]%elem_of_app [H2|H2%list_elem_of_singleton]%elem_of_app; simplify_eq; try done.
    - by eapply Hcons.
    - by apply Hsame.
    - symmetry. by apply Hsame. }
  destruct (record_group_spec gs m e Hm Hc) as (m2 & E & Hm2). rewrite E in Hr. by injection Hr as <-.
Qed.

Lemma cons_snoc {A} (l : list A) x k : l ++ x :: k = (l ++ [x]) ++ k.
Proof. by rewrite <-app_assoc. Qed.

(** *** Into one dictionary: the groups of a range *)

Section selecting.
Context (cfg : operator_config).

Definition in_range (e : Z * bytes) : Prop := KeyGroupRange_contains (oc_key_group_range cfg) e.1 = true.
#[export] Instance in_range_dec e : Decision (in_range e).
Proof. unfold in_range. apply _. Defined.

Lemma select_owned_spec gs l m :
  holds (filter in_range gs) m → consistent (filter in_range (gs ++ l)) →
  ∃ m', select_owned_key_groups cfg m l = Ok m' ∧ holds (filter in_range (gs ++ l)) m'.
Proof.
  revert gs m. induction l as [|e l IH]; intros gs m Hm Hc; [exists m; by rewrite app_nil_r in *|].
  rewrite cons_snoc in Hc |- *. cbn [select_owned_key_groups foldM].
  assert (∃ m1, select_owned_one cfg m e = Ok m1 ∧ holds (filter in_range (gs ++ [e])) m1) as (m1 & -> & Hm1).
  { rewrite filter_app, filter_cons, filter_nil. destruct (decide (in_range e)) as [E|E].
    - unfold select_owned_one. rewrite E. cbn [negb]. apply record_group_spec; [done|].
      eapply consistent_subset; [|exact Hc]. intros x. rewrite !filter_app, filter_cons, filter_nil, decide_True by done. set_solver.
    - unfold select_owned_one. rewrite (not_true_is_false _ E). rewrite app_nil_r. by exists m. }
  by apply IH.
Qed.
End selecting.

(** *** Into buckets: the groups of every target *)

Section redistributing.
Context (mp target : Z) (Htarget : 1 <= target <= mp).

Definition owned_by (i : nat) (e : Z * bytes) : Prop := e.1 * target / mp = Z.of_nat i.
#[export] Instance owned_by_dec i e : Decision (owned_by i e).
Proof. unfold owned_by. apply _. Defined.

Definition redistributed (gs : list (Z * bytes)) (buckets : list (gmap Z bytes)) : Prop :=
  length buckets = Z.to_nat target ∧ ∀ i m, buckets !! i = Some m → holds (filter (owned_by i) gs) m.

Lemma redistributed_empty : redistributed [] (replicate (Z.to_nat target) ∅).
Proof.
  split; [apply length_replicate|]. intros i m [-> _]%lookup_replicate. rewrite filter_nil. apply holds_empty.
Qed.

(** One step goes to the owner's bucket. *)
Lemma redistribute_one_owner gs buckets e :
  redistributed gs buckets → 0 <= e.1 < mp →
  ∃ i m, buckets !! i = Some m ∧ owned_by i e ∧
    redistribute_one mp target buckets e = (m' ← record_group m e; Ok (<[i := m']> buckets)).
Proof.
  intros [Hlen Hb] He. pose proof (key_group_owner_range mp target e.1 Htarget He) as Ho.
  destruct (lookup_lt_is_Some_2 buckets (Z.to_nat (e.1 * target / mp))) as [m Hm]; [lia|].
  exists (Z.to_nat (e.1 * target / mp)), m. split_and!; [done|unfold owned_by; lia|].
  unfold redistribute_one. rewrite key_group_owner_Ok by done. cbn. rewrite Hm. done.
Qed.

Lemma redistributed_insert gs buckets e i m m' :
  redistributed gs buckets → buckets !! i = Some m → owned_by i e → holds (filter (owned_by i) gs ++ [e]) m' →
  redistributed (gs ++ [e]) (<[i := m']> buckets).
Proof.
  intros [Hlen Hb] Hi He Hm'. split; [by rewrite length_insert|]. intros j mj Hj.
  rewrite filter_app, filter_cons, filter_nil. apply list_lookup_insert_Some in Hj as [(-> & -> & _)|[Hne Hj]].
  - by rewrite decide_True.
  - rewrite decide_False, app_nil_r by (unfold owned_by in *; lia). by apply Hb.
Qed.

Lemma redistribute_spec gs l buckets :
  redistributed gs buckets → (∀ e, e ∈ l → 0 <= e.1 < mp) → consistent (gs ++ l) →
  ∃ buckets', foldM (redistribute_one mp target) buckets l = Ok buckets' ∧ redistributed (gs ++ l) buckets'.
Proof.
  revert gs buckets. induction l as [|e l IH]; intros gs buckets Hb Hl Hc; [exists buckets; by rewrite app_nil_r|].
  rewrite cons_snoc in Hc |- *. cbn [foldM].
  destruct (redistribute_one_owner gs buckets e Hb) as (i & m & Hi & He & ->); [apply Hl; by left|].
  destruct (record_group_spec (filter (owned_by i) gs) m e) as (m' & -> & Hm').
  { by apply Hb. }
  { eapply consistent_subset; [|exact Hc]. intros x [Hx|Hx]%elem_of_app; [|set_solver].
    apply list_elem_of_filter in Hx. set_solver. }
  cbn. apply IH; [by eapply redistributed_insert|intros; apply Hl; by right|done].
Qed.

Lemma redistribute_inv gs l buckets buckets' :
  redistributed gs buckets → (∀ e, e ∈ l → 0 <= e.1 < mp) → foldM (redistribute_one mp target) buckets l = Ok buckets' →
  redistributed (gs ++ l) buckets'.
Proof.
  revert gs buckets. induction l as [|e l IH]; intros gs buckets Hb Hl Hf; [injection Hf as <-; by rewrite app_nil_r|].
  rewrite cons_snoc. cbn [foldM] in Hf.
  destruct (redistribute_one_owner gs buckets e Hb) as (i & m & Hi & He & E); [apply Hl; by left|].
  rewrite E in Hf. apply bind_Ok_inv in Hf as (b1 & Hone & Hf). apply bind_Ok_inv in Hone as (m' & Hm' & [= <-]).
  eapply IH; [|intros; apply Hl; by right|exact Hf]. eapply redistributed_insert; [done|done|done|].
  eapply record_group_inv; [by apply Hb|done].
Qed.

(** Buckets exist only for consistent groups. *)
Lemma redistributed_consistent gs buckets : redistributed gs buckets → (∀ e, e ∈ gs → 0 <= e.1 < mp) → consistent gs.
Proof.
  intros [Hlen Hb] Hr kg s s' H1 H2. pose proof (key_group_owner_range mp target kg Htarget (Hr _ H1)) as Ho.
  destruct (lookup_lt_is_Some_2 buckets (Z.to_nat (kg * target / mp))) as [m Hm]; [lia|].
  apply (holds_consistent _ _ (Hb _ _ Hm) kg); apply list_elem_of_filter; (split; [unfold owned_by; cbn; lia|done]).
Qed.
End redistributing.

(** ** Lemmas: repartitioning *)

Lemma range_bound_mono mp p i j : 1 <= p <= mp → i <= j → range_bound mp p i <= range_bound mp p j.
Proof. intros ??. unfold range_bound. apply Z.div_le_mono; nia. Qed.

Section repartitioning.
Context `{Serializer managed_object}.

Lemma redistribute_payload mp t p buckets :
  payload_valid mp p → redistribute_key_groups mp t p buckets = foldM (redistribute_one mp t) buckets (groups_in p).
Proof. intros Hp. unfold redistribute_key_groups. by rewrite (pv_groups _ _ Hp). Qed.

Lemma payload_valid_max mp p : payload_valid mp p → max_parallelism_of p = Ok mp.
Proof. intros []. by apply max_parallelism_of_Ok. Qed.

Lemma decode_valid a p mp : decode_managed_state_snapshot a = Ok p → max_parallelism_of p = Ok mp → payload_valid mp p.
Proof. intros [mp' Hv]%decode_inv Hmp. rewrite (payload_valid_max _ _ Hv) in Hmp. by injection Hmp as <-. Qed.

Lemma repartition_fold_inv mp t gs w buckets rest w' buckets' :
  1 <= t <= mp → redistributed mp t gs buckets → foldM (repartition_one mp t) (w, buckets) rest = Ok (w', buckets') →
  ∃ ps, mapM_outcome decode_managed_state_snapshot rest = Ok ps ∧ Forall (payload_valid mp) ps ∧
    redistributed mp t (gs ++ (ps ≫= groups_in)) buckets' ∧ w' = foldl Z.min w (watermark_in <$> ps).
Proof.
  intros Ht. revert gs w buckets. induction rest as [|a rest IH]; intros gs w buckets Hb Hf.
  - injection Hf as <- <-. exists []. cbn. by rewrite app_nil_r.
  - cbn [foldM] in Hf. apply bind_Ok_inv in Hf as ([w1 b1] & Hone & Hf). unfold repartition_one in Hone.
    apply bind_Ok_inv in Hone as (p & Hp & Hone). apply bind_Ok_inv in Hone as (m & Hm & Hone).
    apply bind_Ok_inv in Hone as (? & Hreq & Hone). apply require_Ok_inv, Z.eqb_eq in Hreq. subst m.
    pose proof (decode_valid _ _ _ Hp Hm) as Hv.
    rewrite (pv_watermark _ _ Hv), bind_Ok, (redistribute_payload mp t p buckets Hv) in Hone.
    apply bind_Ok_inv in Hone as (b2 & Hred & [= <- <-]).
    pose proof (redistribute_inv mp t Ht gs _ _ _ Hb (pv_range _ _ Hv) Hred) as Hb2.
    destruct (IH _ _ _ Hb2 Hf) as (ps & Hps & Hvs & Hb' & ->). exists (p :: ps). cbn [mapM_outcome].
    rewrite Hp. cbn [mbind outcome_bind]. rewrite Hps. split_and!; [done|by constructor|by rewrite bind_cons, app_assoc|done].
Qed.

Lemma repartition_fold_Ok mp t gs w buckets rest ps :
  1 <= t <= mp → redistributed mp t gs buckets → mapM_outcome decode_managed_state_snapshot rest = Ok ps →
  Forall (payload_valid mp) ps → consistent (gs ++ (ps ≫= groups_in)) →
  ∃ acc, foldM (repartition_one mp t) (w, buckets) rest = Ok acc.
Proof.
  intros Ht. revert gs w buckets ps. induction rest as [|a rest IH]; intros gs w buckets ps Hb Hps Hvs Hc; [by eexists|].
  cbn [mapM_outcome] in Hps. apply bind_Ok_inv in Hps as (p & Hp & Hps). apply bind_Ok_inv in Hps as (ps' & Hps' & [= <-]).
  apply Forall_cons in Hvs as [Hv Hvs]. rewrite bind_cons, app_assoc in Hc.
  destruct (redistribute_spec mp t Ht gs (groups_in p) buckets Hb (pv_range _ _ Hv)) as (b1 & Hred & Hb1).
  { eapply consistent_subset; [|exact Hc]. set_solver. }
  cbn [foldM]. unfold repartition_one at 1. rewrite Hp, bind_Ok, (payload_valid_max _ _ Hv), bind_Ok, Z.eqb_refl. cbn [require].
  rewrite bind_Ok, (pv_watermark _ _ Hv), bind_Ok, (redistribute_payload mp t p buckets Hv), Hred. by eapply IH.
Qed.

Lemma elem_of_sorted_items e (m : gmap Z bytes) : e ∈ sorted_items m ↔ m !! e.1 = Some e.2.
Proof. unfold sorted_items. rewrite merge_sort_Permutation. destruct e. apply elem_of_map_to_list. Qed.

Lemma target_groups mp t gs buckets j bucket r :
  1 <= t <= mp → (∀ e, e ∈ gs → 0 <= e.1 < mp) → redistributed mp t gs buckets → buckets !! j = Some bucket →
  assign_key_group_range (AInt mp) (AInt t) (AInt (Z.of_nat j)) = Ok r →
  ∀ e, e ∈ sorted_items bucket ↔ e ∈ gs ∧ KeyGroupRange_contains r e.1 = true.
Proof.
  intros Ht Hr [Hlen Hb] Hj Hassign [kg s]. rewrite elem_of_sorted_items, (Hb _ _ Hj kg s), list_elem_of_filter. cbn.
  apply lookup_lt_Some in Hj. rewrite assign_key_group_range_Ok in Hassign by lia. injection Hassign as <-.
  unfold owned_by. cbn [fst]. split; intros [H1 H2]; (split; [|]); try done.
  - apply range_contains_owner; [done|apply (Hr _ H2)|lia|done].
  - apply range_contains_owner in H2; [done|done|apply (Hr _ H1)|lia].
Qed.

Lemma encode_target mp t gs buckets w j bucket :
  1 <= t <= mp → (∀ e, e ∈ gs → 0 <= e.1 < mp) → redistributed mp t gs buckets → buckets !! j = Some bucket →
  ∃ r b, assign_key_group_range (AInt mp) (AInt t) (AInt (Z.of_nat j)) = Ok r ∧
    encode_managed_state_snapshot mp r (sorted_items bucket) w = Ok b.
Proof.
  intros Ht Hr Hred Hj. pose proof (proj1 Hred) as Hlen. pose proof (lookup_lt_Some _ _ _ Hj) as Hlt.
  pose proof (assign_key_group_range_Ok mp t (Z.of_nat j) Ht ltac:(lia)) as Ha. eexists _, _. split; [exact Ha|].
  unfold encode_managed_state_snapshot. rewrite validate_payload_of; [done|lia| | |].
  - cbn. pose proof (range_bound_step mp t (Z.of_nat j) Ht). pose proof (range_bound_nonneg mp t (Z.of_nat j) Ht ltac:(lia)).
    assert (1 <= mp / t) by (apply Z.div_le_lower_bound; lia). lia.
  - cbn. pose proof (range_bound_mono mp t (Z.of_nat j + 1) t Ht ltac:(lia)) as Hm. rewrite range_bound_p in Hm by lia. lia.
  - intros e He. by apply (target_groups mp t gs buckets j bucket _ Ht Hr Hred Hj Ha).
Qed.

Lemma groups_range mp ps : Forall (payload_valid mp) ps → ∀ e, e ∈ ps ≫= groups_in → 0 <= e.1 < mp.
Proof.
  intros Hvs e (p & He & Hp)%list_elem_of_bind. rewrite Forall_forall in Hvs. by apply (pv_range _ _ (Hvs _ Hp)).
Qed.

Lemma validate_target_parallelism_Ok t : 1 <= t → validate_target_parallelism (AInt t) = Ok t.
Proof. intros ?. unfold validate_target_parallelism. cbn. by rewrite (proj2 (Z.ltb_ge _ _)) by lia. Qed.

Lemma validate_target_parallelism_inv a t : validate_target_parallelism a = Ok t → a = AInt t ∧ 1 <= t.
Proof.
  unfold validate_target_parallelism. destruct (arg_int a) as [z|] eqn:E; [|done]. destruct (Z.ltb_spec z 1); [done|].
  intros [= <-]. by rewrite (arg_int_Some_inv _ _ E).
Qed.

(** What one target gets: the envelope of its range, with the groups of the range and
    the least watermark. *)
Definition target_snapshot mp t (ps : list managed_payload) (j : nat) (b : bytes) : Prop :=
  ∃ r gs, assign_key_group_range (AInt mp) (AInt t) (AInt (Z.of_nat j)) = Ok r ∧
    decode_managed_state_snapshot (SBytes b) = Ok (managed_payload_of mp r gs (min_watermark (watermark_in <$> ps))) ∧
    ∀ e, e ∈ gs ↔ e ∈ ps ≫= groups_in ∧ KeyGroupRange_contains r e.1 = true.

Lemma repartition_inv snapshots target targets :
  repartition_managed_state_snapshots snapshots target = Ok targets →
  ∃ t mp ps, target = AInt t ∧ 1 <= t <= mp ∧ snapshots ≠ [] ∧ mapM_outcome decode_managed_state_snapshot snapshots = Ok ps ∧
    Forall (payload_valid mp) ps ∧ consistent (ps ≫= groups_in) ∧ length targets = Z.to_nat t ∧
    ∀ j b, targets !! j = Some b → target_snapshot mp t ps j b.
Proof.
  unfold repartition_managed_state_snapshots. intros (t & [-> Ht]%validate_target_parallelism_inv & Hx)%bind_Ok_inv.
  destruct snapshots as [|a rest]; [done|].
  apply bind_Ok_inv in Hx as (p & Hp & Hx). apply bind_Ok_inv in Hx as (mp & Hmp & Hx).
  apply bind_Ok_inv in Hx as (r0 & Hr0 & Hx). apply bind_Ok_inv in Hx as (w & Hw & Hx).
  apply bind_Ok_inv in Hx as (b0 & Hb0 & Hx). apply bind_Ok_inv in Hx as ([w' buckets] & Hf & Hx).
  assert (t <= mp) as Htm.
  { apply assign_key_group_range_Ok_inv in Hr0 as (? & ? & ? & [= <-] & [= <-] & _ & ? & _). lia. }
  pose proof (decode_valid _ _ _ Hp Hmp) as Hv.
  rewrite (redistribute_payload mp t p _ Hv) in Hb0.
  pose proof (redistribute_inv mp t ltac:(lia) [] _ _ _ (redistributed_empty mp t) (pv_range _ _ Hv) Hb0) as Hred0.
  destruct (repartition_fold_inv mp t _ _ _ _ _ _ ltac:(lia) Hred0 Hf) as (ps & Hps & Hvs & Hred & ->).
  assert (Forall (payload_valid mp) (p :: ps)) as Hall by (by constructor).
  exists t, mp, (p :: ps). split_and!; try done.
  - cbn [mapM_outcome]. by rewrite Hp, Hps.
  - by eapply redistributed_consistent; [|exact Hred|apply (groups_range mp (p :: ps))].
  - apply mapM_outcome_Ok, Forall2_length in Hx. rewrite <-Hx, length_imap. apply (proj1 Hred).
  - intros j b Hj. apply mapM_outcome_Ok in Hx. destruct (Forall2_lookup_r _ _ _ _ _ Hx Hj) as ([i bucket] & Hi & He).
    rewrite list_lookup_imap in Hi. apply fmap_Some in Hi as (bucket' & Hbj & [= -> ->]). cbn in He.
    apply bind_Ok_inv in He as (r & Hr & He). exists r, (sorted_items bucket'). split; [done|].
    pose proof (pv_watermark _ _ Hv) as Hw'. rewrite Hw in Hw'. injection Hw' as ->.
    split; [by apply decode_encode in He|].
    apply (target_groups mp t _ buckets j); [lia|apply (groups_range mp (p :: ps) Hall)|done|done|done].
Qed.

Lemma repartition_Ok snapshots t mp ps :
  1 <= t <= mp → snapshots ≠ [] → mapM_outcome decode_managed_state_snapshot snapshots = Ok ps →
  Forall (payload_valid mp) ps → consistent (ps ≫= groups_in) →
  ∃ targets, repartition_managed_state_snapshots snapshots (AInt t) = Ok targets.
Proof.
  intros Ht Hne Hps Hvs Hc. unfold repartition_managed_state_snapshots.
  rewrite validate_target_parallelism_Ok, bind_Ok by lia. destruct snapshots as [|a rest]; [done|].
  cbn [mapM_outcome] in Hps. apply bind_Ok_inv in Hps as (p & Hp & Hps). apply bind_Ok_inv in Hps as (ps' & Hps' & [= <-]).
  pose proof (groups_range _ _ Hvs) as Hrange. apply Forall_cons in Hvs as [Hv Hvs].
  rewrite Hp, bind_Ok, (payload_valid_max _ _ Hv), bind_Ok, assign_key_group_range_Ok, bind_Ok by lia.
  rewrite (pv_watermark _ _ Hv), bind_Ok, (redistribute_payload mp t p _ Hv).
  destruct (redistribute_spec mp t Ht [] (groups_in p) _ (redistributed_empty mp t) (pv_range _ _ Hv)) as (b0 & Hb0 & Hred0).
  { eapply consistent_subset; [|exact Hc]. set_solver. }
  rewrite Hb0, bind_Ok.
  destruct (repartition_fold_Ok mp t _ (watermark_in p) b0 rest ps' Ht Hred0 Hps' Hvs Hc) as ([w buckets] & Hf).
  rewrite Hf, bind_Ok.
  destruct (repartition_fold_inv mp t _ _ _ _ _ _ Ht Hred0 Hf) as (ps2 & Hps2 & _ & Hred & ->).
  rewrite Hps' in Hps2. injection Hps2 as <-.
  apply mapM_outcome_exists. intros [j bucket] (i & bucket' & [= -> ->] & Hj)%elem_of_lookup_imap_1.
  destruct (encode_target mp t _ buckets (foldl Z.min (watermark_in p) (watermark_in <$> ps')) i bucket' Ht Hrange Hred Hj)
    as (r & b & Hr & Hb). exists b. cbn [fst snd]. rewrite Hr. exact Hb.
Qed.
End repartitioning.

(** ** Lemmas: restoring *)

Section restoring.
Context {K R : Type} `{!Serializer pickled, !Serializer managed_object} (cfg : operator_config).

Lemma validate_key_group_payload_Ok p : payload_valid (oc_max_parallelism cfg) p → validate_key_group_payload cfg p = Ok ().
Proof. intros Hv. unfold validate_key_group_payload. rewrite (pv_max _ _ Hv). by rewrite bool_decide_true. Qed.

Lemma restore_payloads_fold gs m ws ps :
  holds (filter (in_range cfg) gs) m → Forall (payload_valid (oc_max_parallelism cfg)) ps →
  consistent (gs ++ (ps ≫= groups_in)) →
  ∃ m', foldM (restore_payload cfg) (m, ws) ps = Ok (m', ws ++ (watermark_in <$> ps)) ∧
    holds (filter (in_range cfg) (gs ++ (ps ≫= groups_in))) m'.
Proof.
  revert gs m ws. induction ps as [|p ps IH]; intros gs m ws Hm Hvs Hc; [exists m; cbn; by rewrite !app_nil_r|].
  apply Forall_cons in Hvs as [Hv Hvs]. rewrite bind_cons, app_assoc in Hc |- *. cbn [foldM restore_payload].
  rewrite (validate_key_group_payload_Ok p Hv), bind_Ok, (pv_watermark _ _ Hv), bind_Ok, (pv_groups _ _ Hv), bind_Ok.
  destruct (select_owned_spec cfg gs (groups_in p) m Hm) as (m1 & -> & Hm1).
  { eapply consistent_subset; [|exact Hc]. intros e [_ He]%list_elem_of_filter. set_solver. }
  rewrite bind_Ok. destruct (IH _ _ (ws ++ [watermark_in p]) Hm1 Hvs Hc) as (m' & -> & Hm').
  exists m'. by rewrite <-app_assoc.
Qed.

(** Restoring valid fragments: the selected groups are all that matters. *)
Lemma restore_fragments_eq (snapshots : list snapshot_arg) ps :
  mapM_outcome decode_managed_state_snapshot snapshots = Ok ps → ps ≠ [] → Forall (payload_valid (oc_max_parallelism cfg)) ps →
  consistent (ps ≫= groups_in) →
  ∃ selected, holds (filter (in_range cfg) (ps ≫= groups_in)) selected ∧
    ∀ s, restore_state_fragments (K := K) (R := R) cfg snapshots s =
      (_ ← on_backend (backend_restore_key_groups (map_to_list selected).*2);
       restore_watermark (min_watermark (watermark_in <$> ps))) s.
Proof.
  intros Hps Hne Hvs Hc.
  destruct (restore_payloads_fold [] ∅ [] ps) as (selected & Hf & Hsel); [apply holds_empty|done|done|].
  exists selected. split; [done|]. intros s. unfold restore_state_fragments. rewrite Hps.
  destruct ps as [|p ps]; [done|]. unfold mbind at 1, op_bind at 1, lift at 1. unfold restore_key_group_payloads. by rewrite Hf.
Qed.
End restoring.

Lemma repartition_restore_eq {K R : Type} `{!Serializer pickled, !Serializer managed_object}
    (cfg : operator_config) snapshots t targets j b r (s : op_state (backend K) R) :
  repartition_managed_state_snapshots snapshots (AInt t) = Ok targets → targets !! j = Some b →
  assign_key_group_range (AInt (oc_max_parallelism cfg)) (AInt t) (AInt (Z.of_nat j)) = Ok r → oc_key_group_range cfg = r →
  (∀ a p, a ∈ snapshots → decode_managed_state_snapshot a = Ok p → max_parallelism_of p = Ok (oc_max_parallelism cfg)) →
  restore_state cfg (SBytes b) s = restore_state_fragments cfg snapshots s.
Proof.
  intros (t' & mp & ps & [= <-] & Ht & Hne & Hps & Hvs & Hc & _ & Htgt)%repartition_inv Hj Hr Hcfg Hmax.
  destruct (Htgt j b Hj) as (r' & gs & Hr' & Hdec & Hgs).
  assert (ps ≠ []) as Hps0 by (intros ->; apply mapM_outcome_Ok, Forall2_nil_inv_r in Hps; done).
  assert (mp = oc_max_parallelism cfg) as ->.
  { pose proof (proj1 (mapM_outcome_Ok _ _ _) Hps) as Hall. destruct ps as [|p ps]; [done|].
    destruct (Forall2_elem_of_r _ _ _ p Hall) as (a & Ha & Hp); [by left|].
    specialize (Hmax a p Ha Hp). apply Forall_cons in Hvs as [Hv _]. rewrite (payload_valid_max _ _ Hv) in Hmax. by injection Hmax. }
  rewrite Hr in Hr'. injection Hr' as <-.
  destruct (restore_fragments_eq (K := K) (R := R) cfg snapshots ps Hps Hps0 Hvs Hc) as (sel & Hsel & Hall). rewrite Hall.
  assert (1 <= oc_max_parallelism cfg) as Hpos by lia.
  set (p := managed_payload_of _ _ _ _) in Hdec. pose proof (decode_valid _ _ _ Hdec (max_parallelism_of_Ok p _ eq_refl Hpos)) as Hv.
  assert (groups_in p = gs) as Hgp by (unfold groups_in, p; by rewrite key_groups_of_payload_of).
  assert (watermark_in p = min_watermark (watermark_in <$> ps)) as Hwp by done.
  assert (consistent gs) as Hcg.
  { eapply consistent_subset; [|exact Hc]. intros e He. by apply Hgs in He as [? _]. }
  destruct (restore_fragments_eq (K := K) (R := R) cfg [SBytes b] [p]) as (sel' & Hsel' & Heq).
  { cbn [mapM_outcome]. by rewrite Hdec. }
  { done. }
  { apply Forall_singleton. exact Hv. }
  { cbn. by rewrite app_nil_r, Hgp. }
  unfold restore_state. rewrite Heq. cbn [fmap list_fmap min_watermark foldl]. rewrite Hwp.
  assert (sel' = sel) as ->; [|done].
  cbn [mbind list_bind] in Hsel'. rewrite app_nil_r, Hgp in Hsel'. eapply holds_eq; [|exact Hsel'|exact Hsel].
  intros e. rewrite !list_elem_of_filter, Hgs. unfold in_range. rewrite Hcfg. tauto.
Qed.

(** ** Properties *)

(** C32. Repartitioning is defined exactly when it should be: for an integer number of
    targets between one and the maximum parallelism, at least one snapshot, each of
    which decodes, all for the same maximum parallelism, and no key group with two
    different contents.  Otherwise it raises.  Target [j] of the result is an envelope
    of range [j] with exactly the groups of that range and the least watermark. *)
Theorem repartition_defined `{Serializer managed_object} snapshots target :
  ((∃ targets, repartition_managed_state_snapshots snapshots target = Ok targets) ↔
   ∃ t mp ps, target = AInt t ∧ 1 <= t <= mp ∧ snapshots ≠ [] ∧ mapM_outcome decode_managed_state_snapshot snapshots = Ok ps ∧
     (∀ p, p ∈ ps → max_parallelism_of p = Ok mp) ∧ consistent (ps ≫= groups_in)) ∧
  (∀ targets, repartition_managed_state_snapshots snapshots target = Ok targets →
   ∃ t mp ps, target = AInt t ∧ mapM_outcome decode_managed_state_snapshot snapshots = Ok ps ∧
     (∀ p, p ∈ ps → max_parallelism_of p = Ok mp) ∧ length targets = Z.to_nat t ∧
     ∀ j b, targets !! j = Some b → target_snapshot mp t ps j b).
Proof.
  assert (Hmax : ∀ mp ps, Forall (payload_valid mp) ps → ∀ p, p ∈ ps → max_parallelism_of p = Ok mp).
  { intros mp ps Hvs p Hp. rewrite Forall_forall in Hvs. by apply payload_valid_max, Hvs. }
  split; [split|].
  - intros [targets (t & mp & ps & -> & Ht & Hne & Hps & Hvs & Hc & _)%repartition_inv]. exists t, mp, ps. split_and!; eauto; lia.
  - intros (t & mp & ps & -> & Ht & Hne & Hps & Hmp & Hc). apply (repartition_Ok snapshots t mp ps); try done.
    apply Forall_forall. intros p Hp. apply mapM_outcome_Ok in Hps.
    destruct (Forall2_elem_of_r _ _ _ _ Hps Hp) as (a & _ & Ha). eapply decode_valid; [exact Ha|by apply Hmp].
  - intros targets (t & mp & ps & -> & _ & _ & Hps & Hvs & _ & Hlen & Htgt)%repartition_inv. exists t, mp, ps. split_and!; eauto.
Qed.

(** C33. Repartitioning on the coordinator is transparent: an operator that restores its
    target of the redistribution does exactly what it would do if it were given all
    the old snapshots, whatever its state and whether or not the backend raises. *)
Theorem repartition_transparent {K R : Type} `{!Serializer pickled, !Serializer managed_object}
    (cfg : operator_config) snapshots t targets j b r (s : op_state (backend K) R) :
  repartition_managed_state_snapshots snapshots (AInt t) = Ok targets → targets !! j = Some b →
  assign_key_group_range (AInt (oc_max_parallelism cfg)) (AInt t) (AInt (Z.of_nat j)) = Ok r → oc_key_group_range cfg = r →
  (∀ a p, a ∈ snapshots → decode_managed_state_snapshot a = Ok p → max_parallelism_of p = Ok (oc_max_parallelism cfg)) →
  restore_state cfg (SBytes b) s = restore_state_fragments cfg snapshots s.
Proof. apply repartition_restore_eq. Qed.

(** ** Examples *)

Section samples.

#[local] Instance range_value_eq_dec : EqDecision range_value.
Proof. solve_decision. Defined.
#[local] Instance range_value_countable : Countable range_value :=
  inj_countable' (λ v, match v with VRange a b => Some (a, b) | VNoRange => None end)
    (λ o, match o with Some (a, b) => VRange a b | None => VNoRange end) ltac:(by intros []).
#[local] Instance groups_value_eq_dec : EqDecision groups_value.
Proof. solve_decision. Defined.
#[local] Instance groups_value_countable : Countable groups_value :=
  inj_countable' (λ v, match v with VGroups l => Some l | VNotMapping => None end)
    (λ o, match o with Some l => VGroups l | None => VNotMapping end) ltac:(by intros []).
#[local] Instance managed_payload_eq_dec : EqDecision managed_payload.
Proof. solve_decision. Defined.
#[local] Instance managed_payload_countable : Countable managed_payload :=
  inj_countable'
    (λ p, (mp_format_version p, mp_key_encoding_version p, mp_max_parallelism p, mp_key_group_range p, mp_key_groups p, mp_watermark p))
    (λ t, let '(a, b, c, d, e, f) := t in mkManagedPayload a b c d e f) ltac:(by intros []).
#[local] Instance managed_object_eq_dec : EqDecision managed_object.
Proof. solve_decision. Defined.
#[local] Instance managed_object_countable : Countable managed_object :=
  inj_countable' (λ o, match o with MDict p => Some p | MNotDict => None end)
    (λ o, match o with Some p => MDict p | None => MNotDict end) ltac:(by intros []).

Definition sample_managed_pickle : Serializer managed_object := countable_serializer.

#[local] Existing Instance sample_managed_pickle.
#[local] Existing Instance sample_pickle.

(** One subtask's snapshot for four key groups, two of which have contents. *)
Definition sample_groups : list (Z * bytes) := [(0, [x01]); (3, [x02])].
Definition sample_payload : managed_payload := managed_payload_of 4 (mkKeyGroupRange 0 3) sample_groups 7.
Definition sample_snapshot : snapshot_arg := SBytes (ser_dumps (MDict sample_payload)).

Lemma sample_decodes : decode_managed_state_snapshot sample_snapshot = Ok sample_payload.
Proof. apply (decode_encode 4 (mkKeyGroupRange 0 3) sample_groups 7). reflexivity. Qed.

Lemma sample_consistent : consistent ([sample_payload] ≫= groups_in).
Proof.
  intros kg x x'. vm_compute.
  intros [E|[E|[]%not_elem_of_nil]%elem_of_cons]%elem_of_cons [E'|[E'|[]%not_elem_of_nil]%elem_of_cons]%elem_of_cons; congruence.
Qed.

Lemma repartition_defined_witness :
  ∃ targets, repartition_managed_state_snapshots [sample_snapshot] (AInt 2) = Ok targets ∧ length targets = 2%nat ∧
    repartition_managed_state_snapshots [sample_snapshot] (AInt 5) = Err ValueError.
Proof.
  destruct (proj2 (proj1 (repartition_defined [sample_snapshot] (AInt 2)))) as [targets Ht].
  - exists 2, 4, [sample_payload]. cbn [mapM_outcome]. rewrite sample_decodes.
    split_and!; try done; try lia; [|apply sample_consistent]. by intros p ->%list_elem_of_singleton.
  - exists targets. destruct (proj2 (repartition_defined [sample_snapshot] (AInt 2)) targets Ht) as (t & mp & ps & [= <-] & _ & _ & Hlen & _).
    split_and!; [exact Ht|by rewrite Hlen|]. unfold repartition_managed_state_snapshots. rewrite sample_decodes. reflexivity.
Defined.

Lemma repartition_transparent_witness :
  ∃ targets b, repartition_managed_state_snapshots [sample_snapshot] (AInt 2) = Ok targets ∧ targets !! 1%nat = Some b ∧
    ∀ s : op_state (backend Z) Z,
      restore_state (mkConfig 4 (mkKeyGroupRange 2 3) 10) (SBytes b) s =
      restore_state_fragments (mkConfig 4 (mkKeyGroupRange 2 3) 10) [sample_snapshot] s.
Proof.
  destruct (repartition_Ok [sample_snapshot] 2 4 [sample_payload]) as [targets Ht]; [lia|done|..].
  { cbn [mapM_outcome]. by rewrite sample_decodes. }
  { apply Forall_singleton. eapply decode_valid; [exact sample_decodes|reflexivity]. }
  { apply sample_consistent. }
  pose proof Ht as (t & mp & ps & [= <-] & _ & _ & _ & _ & _ & Hlen & _)%repartition_inv.
  destruct (lookup_lt_is_Some_2 targets 1) as [b Hb]; [rewrite Hlen; cbn; lia|].
  exists targets, b. split_and!; [exact Ht|exact Hb|]. intros s.
  apply (repartition_transparent (mkConfig 4 (mkKeyGroupRange 2 3) 10) [sample_snapshot] 2 targets 1 b (mkKeyGroupRange 2 3) s Ht Hb);
    [reflexivity|reflexivity|].
  intros a p ->%list_elem_of_singleton. rewrite sample_decodes. by intros [= <-].
Defined.
End samples.
