(* ===== verification/Rescaling.v ===== *)
(** * Keyed state across a change of parallelism

    The composition of three components: every old subtask takes a snapshot of its
    operator ([ManagedSnapshot.snapshot_state] over [StateSnapshot]), the coordinator
    redistributes the key groups ([ManagedSnapshot.repartition_managed_state_snapshots]
    over [KeyGroups]), every new subtask restores its part.  The theorem follows single
    values and timers from the old subtask that owns their key to the new one. *)
From S2P Require Import Prelude Concrete KeyGroups StateCodec StateBackend BackendContract ManagedState StateSnapshot ManagedSnapshot.
Open Scope Z_scope.

Section rescaling.
Context {K NS R : Type} `{KeyCodec K, KeyCodec NS, KeyCodec (K * NS), Serializer (K * NS), Sha256, Blake2b}
  `{!Serializer pickled, !Serializer managed_object}.
Abbreviation state := (op_state (backend K) R).
Abbreviation sgroup mp := (state_group (K := K) (NS := NS) (AInt mp)).
Abbreviation tgroup mp := (timer_group (K := K) (NS := NS) (AInt mp)).
Abbreviation contents_of mp b kg := (group_contents (K := K) (NS := NS) mp b kg).
Implicit Types (s : state) (b : backend K) (kg mp p t : Z).

(** ** Snapshots of the old subtasks *)

Lemma bucket_rounds_keys (requested : gset Z) (group : bytes → bytes → outcome Z) store (items : list (bytes * bytes)) buckets buckets' :
  (∀ kg, is_Some (buckets !! kg) → kg ∈ requested) → foldM (bucket_round requested group store) buckets items = Ok buckets' →
  ∀ kg, is_Some (buckets' !! kg) → kg ∈ requested.
Proof.
  intros Hb. apply (foldM_inv (λ m : gmap Z contents, ∀ kg, is_Some (m !! kg) → kg ∈ requested)); [|done].
  intros m item m' Hm _ Hr kg. unfold bucket_round in Hr. apply bind_Ok_inv in Hr as (g & _ & Hr). case_decide; [|by injection Hr as <-; apply Hm].
  injection Hr as <-. destruct (decide (g = kg)) as [<-|]; [done|]. rewrite lookup_insert_ne by done. apply Hm.
Qed.

Lemma snapshot_keys mp groups b snapshots kg :
  backend_snapshot_key_groups (NS := NS) (AInt mp) groups b = Ok snapshots → is_Some (snapshots !! kg) → kg ∈ groups.
Proof.
  unfold backend_snapshot_key_groups. intros (b1 & Hb1 & Hx)%bind_Ok_inv.
  apply bind_Ok_inv in Hx as (b2 & H2' & Hx). apply bind_Ok_inv in Hx as (b3 & H3' & [= <-]).
  rewrite lookup_fmap, fmap_is_Some. intros Hs. apply (elem_of_list_to_set (C := gset Z)).
  eapply (bucket_rounds_keys _ _ _ _ b2 b3); [|exact H3'|exact Hs].
  eapply bucket_rounds_keys; [|exact H2']. eapply bucket_rounds_keys; [|exact Hb1]. intros kg' [? Hk]. by rewrite lookup_empty in Hk.
Qed.

Definition pickle_contents (c : contents) : bytes := ser_dumps (PDict (payload_of c)).

(** The snapshot of subtask [i] carries its key groups' contents. *)
Definition carries mp p (i : nat) s (snap : bytes) : Prop :=
  ∃ r gs, assign_key_group_range (AInt mp) (AInt p) (AInt (Z.of_nat i)) = Ok r ∧
    decode_managed_state_snapshot (SBytes snap) = Ok (managed_payload_of mp r gs (os_watermark s)) ∧
    (∀ kg x, (kg, x) ∈ gs → KeyGroupRange_contains r kg = true ∧ x = pickle_contents (contents_of mp (os_backend s) kg)) ∧
    (∀ kg, KeyGroupRange_contains r kg = true →
       (kg, pickle_contents (contents_of mp (os_backend s) kg)) ∈ gs ∨ contents_of mp (os_backend s) kg = empty_contents).

Lemma assigned_range mp p (i : nat) :
  1 <= p <= mp → Z.of_nat i < p →
  ∃ r, assign_key_group_range (AInt mp) (AInt p) (AInt (Z.of_nat i)) = Ok r ∧ 0 <= kgr_start r <= kgr_end r ∧ kgr_end r < mp ∧
    (∀ kg, KeyGroupRange_contains r kg = true ↔ 0 <= kg < mp ∧ kg * p / mp = Z.of_nat i).
Proof.
  intros Hp Hi. eexists. split; [apply assign_key_group_range_Ok; lia|]. cbn.
  pose proof (range_bound_step mp p (Z.of_nat i) Hp). pose proof (range_bound_nonneg mp p (Z.of_nat i) Hp ltac:(lia)).
  pose proof (range_bound_mono mp p (Z.of_nat i + 1) p Hp ltac:(lia)) as Hm. rewrite range_bound_p in Hm by lia.
  assert (1 <= mp / p) by (apply Z.div_le_lower_bound; lia). split_and!; try lia.
  intros kg. split.
  - intros Hc. pose proof (proj1 (KeyGroupRange_contains_spec _ _) Hc) as Hb. cbn in Hb.
    assert (0 <= kg < mp) as Hkg by lia. split; [done|]. apply (range_contains_owner mp p (Z.of_nat i) kg); try done. lia.
  - intros [Hkg Ho]. apply range_contains_owner; try done. lia.
Qed.

Lemma subtask_snapshot mp p n i s :
  1 <= p <= mp → Z.of_nat i < p → backend_ok (NS := NS) (os_backend s) →
  ∃ snap : bytes, (r ← assign_key_group_range (AInt mp) (AInt p) (AInt (Z.of_nat i)); snapshot_state (NS := NS) (mkConfig mp r n) s) = Ok snap ∧
    carries mp p i s snap.
Proof.
  intros Hp Hi Hok. destruct (assigned_range mp p i Hp Hi) as (r & Hr & Hstart & Hend & Hin).
  destruct (snapshot_key_groups_ok mp (KeyGroupRange_iter r) (os_backend s) ltac:(lia) Hok) as (buckets & Hsnap & Hb).
  set (gs := map_to_list (pickle_contents <$> buckets)).
  assert (Hkeys : ∀ kg, is_Some (buckets !! kg) → kg ∈ KeyGroupRange_iter r).
  { intros kg Hs. eapply snapshot_keys; [exact Hsnap|]. by rewrite lookup_fmap, fmap_is_Some. }
  assert (Hgs : ∀ kg x, (kg, x) ∈ gs → KeyGroupRange_contains r kg = true ∧ x = pickle_contents (contents_of mp (os_backend s) kg)).
  { intros kg x Hx. apply elem_of_map_to_list in Hx. rewrite lookup_fmap in Hx. apply fmap_Some in Hx as (c & Hc & ->).
    assert (kg ∈ KeyGroupRange_iter r) as Hkg by (apply Hkeys; by eexists). split; [by apply KeyGroupRange_iter_spec|].
    specialize (Hb kg). unfold bucket_of in Hb. rewrite Hc, decide_True in Hb by done. cbn in Hb. by rewrite Hb. }
  assert (encode_managed_state_snapshot mp r gs (os_watermark s) = Ok (ser_dumps (MDict (managed_payload_of mp r gs (os_watermark s))))) as Henc.
  { unfold encode_managed_state_snapshot. rewrite validate_payload_of; [done|lia|done|done|].
    intros [kg x] Hx. by apply Hgs in Hx as [? _]. }
  eexists. split.
  { rewrite Hr, bind_Ok. unfold snapshot_state. cbn [oc_max_parallelism oc_key_group_range]. rewrite Hsnap, bind_Ok. exact Henc. }
  exists r, gs. split_and!; [done|by apply decode_encode|done|].
  intros kg Hkg. destruct (buckets !! kg) as [c|] eqn:Hc.
  - left. apply elem_of_map_to_list. rewrite lookup_fmap, Hc. cbn. do 2 f_equal. specialize (Hb kg).
    unfold bucket_of in Hb. rewrite Hc, decide_True in Hb; [done|by apply KeyGroupRange_iter_spec].
  - right. specialize (Hb kg). unfold bucket_of in Hb. rewrite Hc, decide_True in Hb; [done|by apply KeyGroupRange_iter_spec].
Qed.

(** ** The redistributed groups *)

Definition snapshot_subtask mp p n (e : nat * state) : outcome bytes :=
  r ← assign_key_group_range (AInt mp) (AInt p) (AInt (Z.of_nat e.1)); snapshot_state (NS := NS) (mkConfig mp r n) e.2.

(** Key group [kg] at its old owner. *)
Definition old_contents mp p (old : list state) kg : contents :=
  match old !! Z.to_nat (kg * p / mp) with Some s => contents_of mp (os_backend s) kg | None => empty_contents end.

Lemma snapshots_carry mp p n (old : list state) :
  1 <= p <= mp → length old = Z.to_nat p → (∀ s, s ∈ old → backend_ok (NS := NS) (os_backend s)) →
  ∃ snaps, mapM_outcome (snapshot_subtask mp p n) (imap pair old) = Ok snaps ∧
    Forall2 (λ e snap, carries mp p e.1 e.2 snap) (imap pair old) snaps.
Proof.
  intros Hp Hlen Hok.
  assert (Hone : ∀ e, e ∈ imap pair old → ∃ snap, snapshot_subtask mp p n e = Ok snap ∧ carries mp p e.1 e.2 snap).
  { intros e (i & s & -> & Hi)%elem_of_lookup_imap_1. pose proof (lookup_lt_Some _ _ _ Hi).
    apply subtask_snapshot; cbn [fst snd]; [done|lia|]. apply Hok. by eapply list_elem_of_lookup_2. }
  destruct (mapM_outcome_exists (snapshot_subtask mp p n) (imap pair old)) as [snaps Hs].
  { intros e He. destruct (Hone e He) as (snap & ? & _). by exists snap. }
  exists snaps. split; [done|]. apply mapM_outcome_Ok in Hs. apply Forall2_same_length_lookup. split; [by eapply Forall2_length|].
  intros i e snap He Hsnap. destruct (Hone e) as (snap' & Hs' & Hc); [by eapply list_elem_of_lookup_2|].
  pose proof (Forall2_lookup_lr _ _ _ _ _ _ Hs He Hsnap) as Hs2. cbv beta in Hs2. rewrite Hs' in Hs2. by injection Hs2 as ->.
Qed.

Record gathered mp p (old : list state) (ps : list managed_payload) : Prop := {
  ga_valid : Forall (payload_valid mp) ps;
  ga_sound kg x : (kg, x) ∈ ps ≫= groups_in → 0 <= kg < mp ∧ x = pickle_contents (old_contents mp p old kg);
  ga_complete kg : 0 <= kg < mp →
    (kg, pickle_contents (old_contents mp p old kg)) ∈ ps ≫= groups_in ∨ old_contents mp p old kg = empty_contents;
  ga_watermarks : watermark_in <$> ps = os_watermark <$> old
}.

Lemma groups_in_payload_of mp r gs w : groups_in (managed_payload_of mp r gs w) = gs.
Proof. unfold groups_in. by rewrite key_groups_of_payload_of. Qed.

Lemma imap_pair_snd {A} (l : list A) : (imap pair l).*2 = l.
Proof. rewrite fmap_imap. apply list_eq. intros i. rewrite list_lookup_imap. by destruct (l !! i). Qed.

(** What one snapshot decodes to. *)
Definition decodes_to mp p (e : nat * state) (q : managed_payload) : Prop :=
  ∃ r gs, assign_key_group_range (AInt mp) (AInt p) (AInt (Z.of_nat e.1)) = Ok r ∧ payload_valid mp q ∧ groups_in q = gs ∧
    watermark_in q = os_watermark e.2 ∧
    (∀ kg x, (kg, x) ∈ gs → KeyGroupRange_contains r kg = true ∧ x = pickle_contents (contents_of mp (os_backend e.2) kg)) ∧
    (∀ kg, KeyGroupRange_contains r kg = true →
       (kg, pickle_contents (contents_of mp (os_backend e.2) kg)) ∈ gs ∨ contents_of mp (os_backend e.2) kg = empty_contents).

Lemma snapshots_decode mp p es snaps :
  1 <= mp → Forall2 (λ e snap, carries mp p e.1 e.2 snap) es snaps →
  ∃ ps, mapM_outcome decode_managed_state_snapshot (SBytes <$> snaps) = Ok ps ∧ Forall2 (decodes_to mp p) es ps.
Proof.
  intros Hmp. induction 1 as [|e snap es snaps (r & gs & Hr & Hdec & Hgs & Hall) _ (ps & Hps & Hd)]; [exists []; split; [done|constructor]|].
  exists (managed_payload_of mp r gs (os_watermark e.2) :: ps). cbn [fmap list_fmap mapM_outcome]. rewrite Hdec, Hps. split; [done|].
  constructor; [|done]. exists r, gs. split_and!; try done; [|apply groups_in_payload_of].
  by eapply decode_valid, max_parallelism_of_Ok.
Qed.

Lemma gathered_intro mp p (old : list state) ps :
  1 <= p <= mp → length old = Z.to_nat p → Forall2 (decodes_to mp p) (imap pair old) ps → gathered mp p old ps.
Proof.
  intros Hp Hlen Hd.
  assert (Hat : ∀ i q, ps !! i = Some q → ∃ s, old !! i = Some s ∧ decodes_to mp p (i, s) q).
  { intros i q Hq. destruct (Forall2_lookup_r _ _ _ _ _ Hd Hq) as (e & He & Hdec). rewrite list_lookup_imap in He.
    apply fmap_Some in He as (s & Hs & ->). by exists s. }
  assert (Howner : ∀ i s r kg, old !! i = Some s → assign_key_group_range (AInt mp) (AInt p) (AInt (Z.of_nat i)) = Ok r →
    (KeyGroupRange_contains r kg = true ↔ 0 <= kg < mp ∧ Z.to_nat (kg * p / mp) = i)).
  { intros i s r kg Hs Hr. apply lookup_lt_Some in Hs. destruct (assigned_range mp p i Hp ltac:(lia)) as (r' & Hr' & _ & _ & Hin).
    rewrite Hr in Hr'. injection Hr' as <-. rewrite Hin. split; intros [Hkg Ho]; (split; [done|]);
      pose proof (key_group_owner_range mp p kg Hp Hkg); lia. }
  split.
  - apply Forall_lookup. intros i q Hq. destruct (Hat i q Hq) as (s & _ & r & gs & _ & Hv & _). done.
  - intros kg x (q & Hx & Hq)%list_elem_of_bind. apply list_elem_of_lookup in Hq as [i Hq].
    destruct (Hat i q Hq) as (s & Hs & r & gs & Hr & Hv & Hg & _ & Hgs & _). rewrite Hg in Hx.
    destruct (Hgs _ _ Hx) as [Hc ->]. apply (Howner i s r kg Hs Hr) in Hc as [Hkg Hi]. split; [done|].
    unfold old_contents. by rewrite Hi, Hs.
  - intros kg Hkg. unfold old_contents. pose proof (key_group_owner_range mp p kg Hp Hkg) as Ho.
    destruct (lookup_lt_is_Some_2 old (Z.to_nat (kg * p / mp))) as [s Hs]; [lia|]. rewrite Hs.
    destruct (Forall2_lookup_l _ _ _ (Z.to_nat (kg * p / mp)) (Z.to_nat (kg * p / mp), s) Hd) as (q & Hq & r & gs & Hr & _ & Hg & _ & _ & Hgs).
    { rewrite list_lookup_imap, Hs. done. }
    destruct (Hgs kg) as [Hin|He]; [by apply (Howner _ s r kg Hs Hr)| |by right].
    left. apply list_elem_of_bind. exists q. rewrite Hg. split; [exact Hin|]. by eapply list_elem_of_lookup_2.
  - rewrite <-(imap_pair_snd old) at 1. clear -Hd. induction Hd as [|e q es ps (r & gs & _ & _ & _ & Hw & _) _ IH]; [done|].
    cbn. by rewrite Hw, IH.
Qed.

(** ** Merging what a new subtask selected *)

(** Buckets that agree where they overlap are parts of one dictionary. *)
Lemma agreeing_bound (get : contents → gmap bytes bytes) (cs : list contents) :
  (∀ c1 c2 k v v', c1 ∈ cs → c2 ∈ cs → get c1 !! k = Some v → get c2 !! k = Some v' → v = v') →
  ∃ m, ∀ c, c ∈ cs → get c ⊆ m.
Proof.
  intros Hag. exists (foldr (λ c m, get c ∪ m) ∅ cs). intros c Hc. apply map_subseteq_spec. intros k v Hv.
  assert (Hgen : ∀ cs', (∀ c', c' ∈ cs' → c' ∈ cs) → (∀ v', foldr (λ c m, get c ∪ m) ∅ cs' !! k = Some v' → v' = v) ∧
    (c ∈ cs' → foldr (λ c m, get c ∪ m) ∅ cs' !! k = Some v)); [|by apply Hgen].
  intros cs'. induction cs' as [|c1 cs' IH]; intros Hsub; cbn [foldr]; [split; [done|by intros ?%not_elem_of_nil]|].
  destruct IH as [IH1 IH2]; [intros; apply Hsub; by right|].
  assert (Hc1 : ∀ v', get c1 !! k = Some v' → v' = v) by (intros v' Hv'; eapply Hag; [apply Hsub; by left|exact Hc|done|done]).
  split.
  - intros v' [Hv'|[_ Hv']]%lookup_union_Some_raw; auto.
  - intros Hin. apply lookup_union_Some_raw. destruct (get c1 !! k) as [v1|] eqn:E; [left; f_equal; by apply Hc1|right].
    split; [done|]. apply elem_of_cons in Hin as [->|Hin]; [congruence|by apply IH2].
Qed.

Lemma restore_contents (cs : list contents) b :
  ∃ c, backend_restore_key_groups (pickle_contents <$> cs) b =
      (Ok (), mkBackend (b_key b) (c_state c) (c_expiry c) (c_timers c)) ∧
    ∀ get : contents → gmap bytes bytes, get = c_state ∨ get = c_expiry ∨ get = c_timers →
      (∀ c1 c2 k v v', c1 ∈ cs → c2 ∈ cs → get c1 !! k = Some v → get c2 !! k = Some v' → v = v') →
      ∀ k v, get c !! k = Some v ↔ ∃ c', c' ∈ cs ∧ get c' !! k = Some v.
Proof.
  destruct (merge_payloads_ok cs empty_contents) as (c & Hrun & Hc). exists c. split.
  - unfold backend_restore_key_groups, pickle_contents. rewrite load_payloads, bind_Ok, Hrun. done.
  - intros get Hget Hag k v. destruct (agreeing_bound get cs Hag) as [m Hm].
    rewrite (Hc get m Hget); [|by destruct Hget as [->|[->| ->]]; apply map_empty_subseteq|done].
    assert (get empty_contents !! k = None) as -> by (by destruct Hget as [->|[->| ->]]). split; [by intros [?|?]|by right].
Qed.

(** The contents a new subtask with range [r] ends up with. *)
Lemma selected_contents mp p (old : list state) ps cfg selected b :
  gathered mp p old ps → oc_max_parallelism cfg = mp → holds (filter (in_range cfg) (ps ≫= groups_in)) selected →
  ∃ c, backend_restore_key_groups (map_to_list selected).*2 b =
      (Ok (), mkBackend (b_key b) (c_state c) (c_expiry c) (c_timers c)) ∧
    ∀ get : contents → gmap bytes bytes, get = c_state ∨ get = c_expiry ∨ get = c_timers →
      (∀ kg kg' k v v', get (old_contents mp p old kg) !! k = Some v → get (old_contents mp p old kg') !! k = Some v' → v = v') →
      ∀ k v, get c !! k = Some v ↔ ∃ kg, 0 <= kg < mp ∧ KeyGroupRange_contains (oc_key_group_range cfg) kg = true ∧
        get (old_contents mp p old kg) !! k = Some v.
Proof.
  intros Hg Hmp Hsel. set (cs := (λ kx : Z * bytes, old_contents mp p old kx.1) <$> map_to_list selected).
  assert ((map_to_list selected).*2 = pickle_contents <$> cs) as ->.
  { unfold cs. rewrite <-list_fmap_compose. apply list_fmap_ext. intros i [kg x] Hx. apply list_elem_of_lookup_2, elem_of_map_to_list in Hx.
    apply Hsel, list_elem_of_filter in Hx as [_ Hx]. by apply (ga_sound _ _ _ _ Hg) in Hx as [_ ->]. }
  destruct (restore_contents cs b) as (c & Hrun & Hc). exists c. split; [done|]. intros get Hget Hag k v.
  rewrite (Hc get Hget).
  2: { intros c1 c2 k' v1 v2 ([kg1 x1] & -> & _)%list_elem_of_fmap ([kg2 x2] & -> & _)%list_elem_of_fmap. apply Hag. }
  split.
  - intros (c' & ([kg x] & -> & Hx%elem_of_map_to_list)%list_elem_of_fmap & Hv). apply Hsel, list_elem_of_filter in Hx as [Hin Hx].
    apply (ga_sound _ _ _ _ Hg) in Hx as [Hkg _]. by exists kg.
  - intros (kg & Hkg & Hin & Hv). destruct (ga_complete _ _ _ _ Hg kg Hkg) as [Hx|He].
    + exists (old_contents mp p old kg). split; [|done]. apply list_elem_of_fmap. exists (kg, pickle_contents (old_contents mp p old kg)).
      split; [done|]. apply elem_of_map_to_list, Hsel, list_elem_of_filter. done.
    + rewrite He in Hv. by destruct Hget as [->|[->| ->]].
Qed.

(** ** Single values and timers *)

Lemma old_state_lookup mp p old kg sk v :
  c_state (old_contents mp p old kg) !! sk = Some v ↔
  ∃ s, old !! Z.to_nat (kg * p / mp) = Some s ∧ b_state (os_backend s) !! sk = Some v ∧ group_of (sgroup mp) (sk, v) = kg.
Proof.
  unfold old_contents. destruct (old !! Z.to_nat (kg * p / mp)) as [s|]; cbn.
  - rewrite map_lookup_filter_Some. split; [intros ?; by exists s|by intros (? & [= <-] & ?)].
  - rewrite lookup_empty. split; [done|by intros (? & ? & _)].
Qed.

Lemma old_timer_lookup mp p old kg tk v :
  c_timers (old_contents mp p old kg) !! tk = Some v ↔
  ∃ s, old !! Z.to_nat (kg * p / mp) = Some s ∧ b_timers (os_backend s) !! tk = Some v ∧ group_of (tgroup mp) (tk, v) = kg.
Proof.
  unfold old_contents. destruct (old !! Z.to_nat (kg * p / mp)) as [s|]; cbn.
  - rewrite map_lookup_filter_Some. split; [intros ?; by exists s|by intros (? & [= <-] & ?)].
  - rewrite lookup_empty. split; [done|by intros (? & ? & _)].
Qed.

(** The group of a state key does not depend on the value, so no two groups share one. *)
Lemma old_states_agree mp p old kg kg' sk v v' :
  c_state (old_contents mp p old kg) !! sk = Some v → c_state (old_contents mp p old kg') !! sk = Some v' → v = v'.
Proof.
  intros (s & Hs & Hv & Hkg)%old_state_lookup (s' & Hs' & Hv' & Hkg')%old_state_lookup.
  assert (kg = kg') as <-. { rewrite <-Hkg, <-Hkg'. done. }
  rewrite Hs in Hs'. injection Hs' as <-. congruence.
Qed.

Lemma group_of_state mp name (key : K) (namespace : NS) sk v kg :
  encode_state_key name key namespace = Ok sk → key_group_for_key key (AInt mp) = Ok kg → group_of (sgroup mp) (sk, v) = kg.
Proof.
  intros Hsk Hkg. unfold group_of, state_group. cbn [fst snd]. by rewrite (proj1 (decode_encode_state_key _ _ _ _ Hsk)), bind_Ok, Hkg.
Qed.

Lemma group_of_timer mp ts (key : K) (namespace : NS) d tk kg :
  encode_timer_key ts key namespace d = Ok tk → key_group_for_key key (AInt mp) = Ok kg →
  group_of (tgroup mp) (tk, encode_timer_value key namespace) = kg.
Proof.
  intros Htk Hkg. unfold group_of, timer_group. cbn [fst snd]. by rewrite (decode_encode_timer _ _ _ _ _ Htk), bind_Ok, Hkg.
Qed.
End rescaling.

(** ** Property *)

Lemma min_watermark_ge (ws : list Z) : (∀ w, w ∈ ws → -1 <= w) → -1 <= min_watermark ws.
Proof.
  destruct ws as [|w ws]; cbn; [lia|]. intros Hw.
  assert (∀ acc, -1 <= acc → (∀ w, w ∈ ws → -1 <= w) → -1 <= foldl Z.min acc ws) as Hf.
  { induction ws as [|w' ws IH]; intros acc Hacc Hall; [done|]. cbn. apply IH.
    - intros x Hx. apply Hw. set_solver.
    - pose proof (Hall w' ltac:(by left)). lia.
    - intros x Hx. apply Hall. by right. }
  apply Hf; [apply Hw; by left|intros x Hx; apply Hw; by right].
Qed.

(** A new subtask, from the fragments of all the old ones. *)
Lemma restored_subtask {K NS R : Type}
    `{KeyCodec K, KeyCodec NS, KeyCodec (K * NS), Serializer (K * NS), Sha256, Blake2b} `{!Serializer pickled, !Serializer managed_object}
    mp p n r (old : list (op_state (backend K) R)) (fresh : op_state (backend K) R) ps sel :
  gathered (NS := NS) mp p old ps → holds (filter (in_range (mkConfig mp r n)) (ps ≫= groups_in)) sel →
  (∀ s, s ∈ old → -1 <= os_watermark s) →
  (∀ s s' tk v v', s ∈ old → s' ∈ old → b_timers (os_backend s) !! tk = Some v → b_timers (os_backend s') !! tk = Some v' → v = v') →
  ∃ s', (_ ← on_backend (backend_restore_key_groups (map_to_list sel).*2);
         restore_watermark (min_watermark (watermark_in <$> ps))) fresh = (Ok (), s') ∧
    os_watermark s' = min_watermark (os_watermark <$> old) ∧
    (∀ name (key : K) (namespace : NS) sk kg, encode_state_key name key namespace = Ok sk → key_group_for_key key (AInt mp) = Ok kg →
       b_state (os_backend s') !! sk =
         if KeyGroupRange_contains r kg then (s ← old !! Z.to_nat (kg * p / mp); b_state (os_backend s) !! sk) else None) ∧
    (∀ ts (key : K) (namespace : NS) d tk kg, encode_timer_key ts key namespace d = Ok tk → key_group_for_key key (AInt mp) = Ok kg →
       b_timers (os_backend s') !! tk = Some (encode_timer_value key namespace) ↔
         KeyGroupRange_contains r kg = true ∧
         ∃ s, old !! Z.to_nat (kg * p / mp) = Some s ∧ b_timers (os_backend s) !! tk = Some (encode_timer_value key namespace)).
Proof.
  intros Hg Hsel Hold Htimers.
  destruct (selected_contents mp p old ps (mkConfig mp r n) sel (os_backend fresh) Hg eq_refl Hsel) as (c & Hrun & Hcont).
  rewrite (ga_watermarks _ _ _ _ Hg).
  assert (-1 <= min_watermark (os_watermark <$> old)) as Hw.
  { apply min_watermark_ge. intros w (s & -> & ?%Hold)%list_elem_of_fmap. done. }
  eexists. unfold mbind at 1, op_bind at 1, on_backend at 1. rewrite Hrun. unfold restore_watermark.
  rewrite (proj2 (Z.ltb_ge _ _)) by exact Hw. split; [reflexivity|]. cbn [os_watermark os_backend b_state b_timers].
  split; [done|]. split.
  - intros name key ns sk kg Hsk Hkg. pose proof (key_group_for_key_range _ _ _ Hkg) as Hrange. apply option_eq. intros v.
    rewrite (Hcont c_state); [|by left|apply old_states_agree]. setoid_rewrite old_state_lookup. cbn [oc_key_group_range].
    split.
    + intros (kg' & _ & Hin & s & Hs & Hv & Hgrp). rewrite (group_of_state mp _ _ _ _ _ _ Hsk Hkg) in Hgrp. subst kg'. by rewrite Hin, Hs.
    + destruct (KeyGroupRange_contains r kg) eqn:Hin; [|done]. intros (s & Hs & Hv)%bind_Some. exists kg. split_and!; [lia..|done|].
      exists s. split_and!; try done. by apply (group_of_state mp _ _ _ _ _ _ Hsk Hkg).
  - intros ts key ns d tk kg Htk Hkg. pose proof (key_group_for_key_range _ _ _ Hkg) as Hrange.
    rewrite (Hcont c_timers); [|by right; right|].
    2: { intros kg1 kg2 k v v' (s & Hs & Hv & _)%old_timer_lookup (s' & Hs' & Hv' & _)%old_timer_lookup.
         eapply (Htimers s s'); by eauto using list_elem_of_lookup_2. }
    setoid_rewrite old_timer_lookup. cbn [oc_key_group_range]. split.
    + intros (kg' & _ & Hin & s & Hs & Hv & Hgrp). rewrite (group_of_timer mp _ _ _ _ _ _ Htk Hkg) in Hgrp. subst kg'. split; [done|]. by exists s.
    + intros (Hin & s & Hs & Hv). exists kg. split_and!; [lia..|done|]. exists s. split_and!; try done.
      by apply (group_of_timer mp _ _ _ _ _ _ Htk Hkg).
Qed.

(** C34. Keyed state survives a change of parallelism: from the operators of [p]
    subtasks, each with a well-formed backend, every snapshot succeeds, the
    redistribution over [t] subtasks succeeds, and the new subtask [j] restores without
    error to a backend in which each state key of its range has the value it has at its
    old owner, and every other none; each timer of its range is there exactly when its
    old owner has it; the watermark is the least of the old ones. *)
Theorem rescale_keeps_state {K NS R : Type}
    `{KeyCodec K, KeyCodec NS, KeyCodec (K * NS), Serializer (K * NS), Sha256, Blake2b} `{!Serializer pickled, !Serializer managed_object}
    mp p t n (old : list (op_state (backend K) R)) (fresh : op_state (backend K) R) :
  1 <= p <= mp → 1 <= t <= mp → length old = Z.to_nat p →
  (∀ s, s ∈ old → backend_ok (NS := NS) (os_backend s) ∧ -1 <= os_watermark s) →
  (∀ s s' tk v v', s ∈ old → s' ∈ old → b_timers (os_backend s) !! tk = Some v → b_timers (os_backend s') !! tk = Some v' → v = v') →
  ∃ snapshots targets,
    mapM_outcome (snapshot_subtask (NS := NS) mp p n) (imap pair old) = Ok snapshots ∧
    repartition_managed_state_snapshots (SBytes <$> snapshots) (AInt t) = Ok targets ∧
    length targets = Z.to_nat t ∧
    ∀ j b r, targets !! j = Some b → assign_key_group_range (AInt mp) (AInt t) (AInt (Z.of_nat j)) = Ok r →
    ∃ s', restore_state (mkConfig mp r n) (SBytes b) fresh = (Ok (), s') ∧
      os_watermark s' = min_watermark (os_watermark <$> old) ∧
      (∀ name (key : K) (namespace : NS) sk kg, encode_state_key name key namespace = Ok sk → key_group_for_key key (AInt mp) = Ok kg →
         b_state (os_backend s') !! sk =
           if KeyGroupRange_contains r kg then (s ← old !! Z.to_nat (kg * p / mp); b_state (os_backend s) !! sk) else None) ∧
      (∀ ts (key : K) (namespace : NS) d tk kg, encode_timer_key ts key namespace d = Ok tk → key_group_for_key key (AInt mp) = Ok kg →
         b_timers (os_backend s') !! tk = Some (encode_timer_value key namespace) ↔
           KeyGroupRange_contains r kg = true ∧
           ∃ s, old !! Z.to_nat (kg * p / mp) = Some s ∧ b_timers (os_backend s) !! tk = Some (encode_timer_value key namespace)).
Proof.
  intros Hp Ht Hlen Hold Htimers.
  destruct (snapshots_carry mp p n old Hp Hlen) as (snaps & Hsnaps & Hcarry); [by intros s [? _]%Hold|].
  destruct (snapshots_decode mp p _ _ ltac:(lia) Hcarry) as (ps & Hps & Hdec).
  pose proof (gathered_intro mp p old ps Hp Hlen Hdec) as Hg.
  assert (SBytes <$> snaps ≠ []) as Hne.
  { intros Hnil%fmap_nil_inv. subst snaps. apply Forall2_length in Hcarry. rewrite length_imap in Hcarry. cbn in Hcarry. lia. }
  assert (consistent (ps ≫= groups_in)) as Hc.
  { intros kg x x' [_ ->]%(ga_sound _ _ _ _ Hg) [_ ->]%(ga_sound _ _ _ _ Hg). done. }
  destruct (repartition_Ok (SBytes <$> snaps) t mp ps Ht Hne Hps (ga_valid _ _ _ _ Hg) Hc) as [targets Htargets].
  exists snaps, targets. pose proof Htargets as (t' & mp' & ps' & [= <-] & _ & _ & Hps' & Hvs' & _ & Htl & Htgt)%repartition_inv.
  rewrite Hps in Hps'. injection Hps' as <-.
  assert (ps ≠ []) as Hps0.
  { intros ->. apply Forall2_length in Hdec. rewrite length_imap in Hdec. cbn in Hdec. lia. }
  split_and!; [done..|]. intros j b r Hj Hr.
  assert (∀ q, q ∈ ps → max_parallelism_of q = Ok mp) as Hmax.
  { intros q Hq. pose proof (ga_valid _ _ _ _ Hg) as Hv. rewrite Forall_forall in Hv. by apply payload_valid_max, Hv. }
  rewrite (repartition_restore_eq (mkConfig mp r n) (SBytes <$> snaps) t targets j b r fresh Htargets Hj Hr eq_refl).
  2: { intros a q Ha Hq. apply Hmax. apply mapM_outcome_Ok in Hps. destruct (Forall2_elem_of_l _ _ _ _ Hps Ha) as (q' & Hq' & E).
       rewrite E in Hq. by injection Hq as <-. }
  destruct (restore_fragments_eq (K := K) (R := R) (mkConfig mp r n) _ ps Hps Hps0 (ga_valid _ _ _ _ Hg) Hc) as (sel & Hsel & ->).
  apply (restored_subtask mp p n r old fresh ps sel Hg Hsel); [by intros s [_ ?]%Hold|done].
Qed.

(** ** Example *)

Section samples.
Import Samples.
#[local] Existing Instance sample_managed_pickle.
#[local] Existing Instance sample_pickle.

(** Two subtasks, the first with a value for key 5, the second one idle, become three. *)
Definition sample_old : list (op_state (backend Z) Z) :=
  [mkOp sample_backend_1 5 None 0 [] 0 0 0; mkOp MemoryStateBackend_init 9 None 0 [] 0 0 0].

Lemma sample_backend_1_ok : backend_ok (K := Z) (NS := Z) sample_backend_1.
Proof.
  destruct (backend_put_ok (sample_descriptor ON_READ_AND_WRITE NEVER_RETURN_EXPIRED) 42 1 100 sample_backend sample_key)
    as (b' & enc & Hput & _ & _ & _ & _ & Hok); [apply sample_backend_ok|cbn; lia|vm_compute; reflexivity|].
  unfold sample_backend_1. by rewrite Hput.
Qed.

Lemma rescale_keeps_state_witness :
  ∃ snapshots targets b s',
    mapM_outcome (snapshot_subtask (NS := Z) 4 2 10) (imap pair sample_old) = Ok snapshots ∧
    repartition_managed_state_snapshots (SBytes <$> snapshots) (AInt 3) = Ok targets ∧ targets !! 0%nat = Some b ∧
    restore_state (mkConfig 4 (mkKeyGroupRange 0 1) 10) (SBytes b) (mkOp MemoryStateBackend_init (-1) None 0 [] 0 0 0 : op_state (backend Z) Z) = (Ok (), s') ∧
    os_watermark s' = 5 ∧
    b_state (os_backend s') !! sample_key = b_state sample_backend_1 !! sample_key ∧ is_Some (b_state sample_backend_1 !! sample_key).
Proof.
  destruct (rescale_keeps_state (NS := Z) 4 2 3 10 sample_old (mkOp MemoryStateBackend_init (-1) None 0 [] 0 0 0))
    as (snapshots & targets & Hs & Ht & Hlen & Hr).
  - lia.
  - lia.
  - reflexivity.
  - intros s [->|[->|[]%not_elem_of_nil]%elem_of_cons]%elem_of_cons; (split; [|cbn; lia]); [apply sample_backend_1_ok|apply backend_init_ok].
  - intros s s' tk v v' [->|[->|[]%not_elem_of_nil]%elem_of_cons]%elem_of_cons [->|[->|[]%not_elem_of_nil]%elem_of_cons]%elem_of_cons;
      cbn [os_backend b_timers MemoryStateBackend_init]; rewrite ?lookup_empty; congruence.
  - destruct (lookup_lt_is_Some_2 targets 0) as [b Hb]; [rewrite Hlen; cbn; lia|].
    destruct (Hr 0%nat b (mkKeyGroupRange 0 1) Hb eq_refl) as (s' & Hrun & Hw & Hstate & _).
    exists snapshots, targets, b, s'. split_and!; [exact Hs|exact Ht|exact Hb|exact Hrun|exact Hw| |vm_compute; by eexists].
    assert (encode_state_key ["s"%byte] (5 : Z) (1 : Z) = Ok sample_key) as Hsk by (vm_compute; reflexivity).
    assert (key_group_for_key (5 : Z) (AInt 4) = Ok 0) as Hkg by (vm_compute; reflexivity).
    rewrite (Hstate _ _ _ _ _ Hsk Hkg). reflexivity.
Defined.
End samples.
