(* ===== verification/AsyncRunner.v ===== *)
(** * The ordered window of an asynchronous operator

    Models [src/ray/klein/runtime/worker/async_ordered_runner.py]: computes run
    concurrently, at most [capacity] of them, and their results are put out in the
    order in which they were submitted, with control actions at their place.

    The event loop runs one coroutine at a time, so the code between two suspension
    points is atomic.  Every such segment is an action of a partial step function; a
    state holds the fields of the runner, the program counters of the coroutines that
    are suspended in its methods and the futures of the computes.  A coroutine may be
    suspended at an [await] that would not suspend in fact: the model has all the
    interleavings of the code and some more.

    What the futures do is not determined (they run user code): an action completes a
    future with any outcome.  The same holds for [on_result] and the control actions.
    Three fields are history: the submitted items, the executed ones and the calls of
    [on_fatal]. *)
From S2P Require Import Prelude Traces.
Open Scope nat_scope.

(** ** Data *)

(** [_Compute] with the index of its future, [_Control] with its action, the sentinel. *)
Inductive item (X : Type) :=
  | Compute (future : nat)
  | Control (action : X)
  | SHUTDOWN.
Arguments Compute {X} future.
Arguments Control {X} action.
Arguments SHUTDOWN {X}.

#[export] Instance item_eq_dec {X} `{EqDecision X} : EqDecision (item X).
Proof. solve_decision. Defined.

(** How an awaited coroutine ends. *)
Inductive settled (A : Type) :=
  | Returned (a : A)
  | Raised (e : exn)
  | WasCancelled.
Arguments Returned {A} a.
Arguments Raised {A} e.
Arguments WasCancelled {A}.

(** A future: [None] while pending. *)
Abbreviation future_state Rec := (option (settled (list Rec))).

(** What the runner executed, in order: [on_result] on records, a control action. *)
Inductive event (Rec X : Type) :=
  | Emitted (records : list Rec)
  | Acted (action : X).
Arguments Emitted {Rec X} records.
Arguments Acted {Rec X} action.

(** The task that waits for a slot on behalf of a [submit_compute] call. *)
Inductive waiter := WaiterPending | WaiterAcquired | WaiterCancelled.

(** Where a [submit_compute] call is suspended: in [asyncio.wait], in the settling of the
    pending waiters, in the settling of the exception handler; or how it ended. *)
Inductive submit_point :=
  | AtWait
  | AtSettle (acquired : bool)
  | AtCleanup (slot_state_known acquired : bool)
  | SubmitReturned
  | SubmitRaised.

Record submit := mkSubmit { sb_slot_waiter : waiter; sb_point : submit_point }.

(** Where the consumer task is suspended. *)
Inductive consumer :=
  | NotStarted
  | AtGet
  | AwaitFuture (future : nat)
  | AwaitResult
  | AwaitAction
  | Finished.

#[export] Instance consumer_eq_dec : EqDecision consumer.
Proof. solve_decision. Defined.

(** ** The runner *)

Section runner.
Context {Rec X : Type}.

Record runner := mkRunner {
  r_capacity : nat;
  r_slots : nat;
  r_queue : list (item X);
  r_unfinished : nat;
  r_consumer : consumer;
  r_accepting : bool;
  r_terminal_event : bool;
  r_shutdown_requested : bool;
  r_abort_requested : bool;
  r_fatal_error : option exn;
  r_cancelling_futures : gset nat;
  r_futures : list (future_state Rec);
  r_submits : list submit;
  r_submitted : list (item X);
  r_log : list (event Rec X);
  r_fatal_calls : list exn
}.

Local Definition with_slots (v : nat) (s : runner) : runner :=
  mkRunner (r_capacity s) v (r_queue s) (r_unfinished s) (r_consumer s) (r_accepting s) (r_terminal_event s) (r_shutdown_requested s) (r_abort_requested s) (r_fatal_error s) (r_cancelling_futures s) (r_futures s) (r_submits s) (r_submitted s) (r_log s) (r_fatal_calls s).
Local Definition with_queue (v : list (item X)) (s : runner) : runner :=
  mkRunner (r_capacity s) (r_slots s) v (r_unfinished s) (r_consumer s) (r_accepting s) (r_terminal_event s) (r_shutdown_requested s) (r_abort_requested s) (r_fatal_error s) (r_cancelling_futures s) (r_futures s) (r_submits s) (r_submitted s) (r_log s) (r_fatal_calls s).
Local Definition with_unfinished (v : nat) (s : runner) : runner :=
  mkRunner (r_capacity s) (r_slots s) (r_queue s) v (r_consumer s) (r_accepting s) (r_terminal_event s) (r_shutdown_requested s) (r_abort_requested s) (r_fatal_error s) (r_cancelling_futures s) (r_futures s) (r_submits s) (r_submitted s) (r_log s) (r_fatal_calls s).
Local Definition with_consumer (v : consumer) (s : runner) : runner :=
  mkRunner (r_capacity s) (r_slots s) (r_queue s) (r_unfinished s) v (r_accepting s) (r_terminal_event s) (r_shutdown_requested s) (r_abort_requested s) (r_fatal_error s) (r_cancelling_futures s) (r_futures s) (r_submits s) (r_submitted s) (r_log s) (r_fatal_calls s).
Local Definition with_accepting (v : bool) (s : runner) : runner :=
  mkRunner (r_capacity s) (r_slots s) (r_queue s) (r_unfinished s) (r_consumer s) v (r_terminal_event s) (r_shutdown_requested s) (r_abort_requested s) (r_fatal_error s) (r_cancelling_futures s) (r_futures s) (r_submits s) (r_submitted s) (r_log s) (r_fatal_calls s).
Local Definition with_terminal_event (v : bool) (s : runner) : runner :=
  mkRunner (r_capacity s) (r_slots s) (r_queue s) (r_unfinished s) (r_consumer s) (r_accepting s) v (r_shutdown_requested s) (r_abort_requested s) (r_fatal_error s) (r_cancelling_futures s) (r_futures s) (r_submits s) (r_submitted s) (r_log s) (r_fatal_calls s).
Local Definition with_shutdown_requested (v : bool) (s : runner) : runner :=
  mkRunner (r_capacity s) (r_slots s) (r_queue s) (r_unfinished s) (r_consumer s) (r_accepting s) (r_terminal_event s) v (r_abort_requested s) (r_fatal_error s) (r_cancelling_futures s) (r_futures s) (r_submits s) (r_submitted s) (r_log s) (r_fatal_calls s).
Local Definition with_abort_requested (v : bool) (s : runner) : runner :=
  mkRunner (r_capacity s) (r_slots s) (r_queue s) (r_unfinished s) (r_consumer s) (r_accepting s) (r_terminal_event s) (r_shutdown_requested s) v (r_fatal_error s) (r_cancelling_futures s) (r_futures s) (r_submits s) (r_submitted s) (r_log s) (r_fatal_calls s).
Local Definition with_fatal_error (v : option exn) (s : runner) : runner :=
  mkRunner (r_capacity s) (r_slots s) (r_queue s) (r_unfinished s) (r_consumer s) (r_accepting s) (r_terminal_event s) (r_shutdown_requested s) (r_abort_requested s) v (r_cancelling_futures s) (r_futures s) (r_submits s) (r_submitted s) (r_log s) (r_fatal_calls s).
Local Definition with_cancelling_futures (v : gset nat) (s : runner) : runner :=
  mkRunner (r_capacity s) (r_slots s) (r_queue s) (r_unfinished s) (r_consumer s) (r_accepting s) (r_terminal_event s) (r_shutdown_requested s) (r_abort_requested s) (r_fatal_error s) v (r_futures s) (r_submits s) (r_submitted s) (r_log s) (r_fatal_calls s).
Local Definition with_futures (v : list (future_state Rec)) (s : runner) : runner :=
  mkRunner (r_capacity s) (r_slots s) (r_queue s) (r_unfinished s) (r_consumer s) (r_accepting s) (r_terminal_event s) (r_shutdown_requested s) (r_abort_requested s) (r_fatal_error s) (r_cancelling_futures s) v (r_submits s) (r_submitted s) (r_log s) (r_fatal_calls s).
Local Definition with_submits (v : list submit) (s : runner) : runner :=
  mkRunner (r_capacity s) (r_slots s) (r_queue s) (r_unfinished s) (r_consumer s) (r_accepting s) (r_terminal_event s) (r_shutdown_requested s) (r_abort_requested s) (r_fatal_error s) (r_cancelling_futures s) (r_futures s) v (r_submitted s) (r_log s) (r_fatal_calls s).
Local Definition with_submitted (v : list (item X)) (s : runner) : runner :=
  mkRunner (r_capacity s) (r_slots s) (r_queue s) (r_unfinished s) (r_consumer s) (r_accepting s) (r_terminal_event s) (r_shutdown_requested s) (r_abort_requested s) (r_fatal_error s) (r_cancelling_futures s) (r_futures s) (r_submits s) v (r_log s) (r_fatal_calls s).
Local Definition with_log (v : list (event Rec X)) (s : runner) : runner :=
  mkRunner (r_capacity s) (r_slots s) (r_queue s) (r_unfinished s) (r_consumer s) (r_accepting s) (r_terminal_event s) (r_shutdown_requested s) (r_abort_requested s) (r_fatal_error s) (r_cancelling_futures s) (r_futures s) (r_submits s) (r_submitted s) v (r_fatal_calls s).
Local Definition with_fatal_calls (v : list exn) (s : runner) : runner :=
  mkRunner (r_capacity s) (r_slots s) (r_queue s) (r_unfinished s) (r_consumer s) (r_accepting s) (r_terminal_event s) (r_shutdown_requested s) (r_abort_requested s) (r_fatal_error s) (r_cancelling_futures s) (r_futures s) (r_submits s) (r_submitted s) (r_log s) v.

Definition AsyncOrderedRunner_init (capacity : Z) : runner :=
  let capacity := Z.to_nat (Z.max 1 capacity) in
  mkRunner capacity capacity [] 0 NotStarted true false false false None ∅ [] [] [] [] [].

(** [self._slots.release()]. *)
Definition release (s : runner) : runner := with_slots (S (r_slots s)) s.

Definition seal (s : runner) : runner := with_terminal_event true (with_accepting false s).

(** [self._queue.put_nowait]: the queue is unbounded. *)
Definition put_nowait (i : item X) (s : runner) : runner :=
  with_unfinished (S (r_unfinished s)) (with_queue (r_queue s ++ [i]) s).

Definition task_done (s : runner) : runner := with_unfinished (pred (r_unfinished s)) s.

(** The request to cancel takes effect when the future completes. *)
Definition cancel_future (future : nat) (s : runner) : runner :=
  with_cancelling_futures ({[future]} ∪ r_cancelling_futures s) s.

(** The loop of [_cancel_queued] over the items it finds; [true] when the sentinel has
    to be put back. *)
Fixpoint cancel_items (keep_shutdown : bool) (items : list (item X)) (s : runner) : bool * runner :=
  match items with
  | [] => (false, s)
  | i :: items =>
      let s := match i with Compute f => release (cancel_future f s) | _ => s end in
      let '(restore, s) := cancel_items keep_shutdown items (task_done s) in
      (match i with SHUTDOWN => keep_shutdown || restore | _ => restore end, s)
  end.

Definition cancel_queued (keep_shutdown : bool) (s : runner) : runner :=
  let '(restore, s) := cancel_items keep_shutdown (r_queue s) (with_queue [] s) in
  if restore then put_nowait SHUTDOWN s else s.

(** [_fail]: the first error is kept and reported. *)
Definition fail (e : exn) (s : runner) : runner :=
  match r_fatal_error s with
  | Some _ => s
  | None => with_fatal_calls (r_fatal_calls s ++ [e]) (seal (with_fatal_error (Some e) s))
  end.

(** The outer [finally] of [_consume]. *)
Definition finish (s : runner) : runner := with_consumer Finished (cancel_queued false (seal s)).

(** The inner [finally] of [_consume]. *)
Definition item_done (is_compute : bool) (s : runner) : runner :=
  task_done (if is_compute then release s else s).

(** The head of the loop: on to [queue.get], unless an abort was requested. *)
Definition next_item (s : runner) : runner :=
  if r_abort_requested s then finish s else with_consumer AtGet s.

(** The exception clauses of the loop. *)
Definition consume_raised (is_compute : bool) (e : exn) (s : runner) : runner := finish (item_done is_compute (fail e s)).

Definition consume_cancelled (is_compute : bool) (s : runner) : runner :=
  finish (item_done is_compute (if r_accepting s then fail RuntimeError s else s)).

(** [_consume_item] up to its first suspension. *)
Definition consume_item (i : item X) (s : runner) : runner :=
  match i with
  | SHUTDOWN => finish (item_done false s)
  | Compute f => with_consumer (AwaitFuture f) s
  | Control x => with_consumer AwaitAction (with_log (r_log s ++ [Acted x]) s)
  end.

(** What follows [await item.future]. *)
Definition future_settled (o : settled (list Rec)) (s : runner) : runner :=
  match o with
  | Returned records =>
      if r_abort_requested s then finish (item_done true s)
      else with_consumer AwaitResult (with_log (r_log s ++ [Emitted records]) s)
  | Raised e => consume_raised true e s
  | WasCancelled => consume_cancelled true s
  end.

(** What follows [await self._on_result(records)] and [await item.action()]. *)
Definition work_settled (is_compute : bool) (o : settled unit) (s : runner) : runner :=
  match o with
  | Returned _ =>
      if negb is_compute && r_abort_requested s then finish (item_done false s)
      else next_item (item_done is_compute s)
  | Raised e => consume_raised is_compute e s
  | WasCancelled => consume_cancelled is_compute s
  end.

(** [_consume]: the next segment of the consumer; [o] is how the work it awaits ends. *)
Definition consume (o : settled unit) (s : runner) : option runner :=
  match r_consumer s with
  | AtGet => match r_queue s with [] => None | i :: q => Some (consume_item i (with_queue q s)) end
  | AwaitFuture f => match r_futures s !! f with Some (Some o) => Some (future_settled o s) | _ => None end
  | AwaitResult => Some (work_settled true o s)
  | AwaitAction => Some (work_settled false o s)
  | NotStarted | Finished => None
  end.

(** The consumer's task is cancelled at [queue.get]. *)
Definition consume_get_cancelled (s : runner) : option runner :=
  if decide (r_consumer s = AtGet) then if r_abort_requested s then Some (finish s) else None else None.

Definition start (s : runner) : option runner :=
  if r_accepting s then if decide (r_consumer s = NotStarted) then Some (with_consumer AtGet s) else Some s else None.

(** [submit_compute] up to [asyncio.wait]; a call on a closed runner raises at once. *)
Definition submit_compute (s : runner) : runner :=
  with_submits (r_submits s ++ [if r_accepting s then mkSubmit WaiterPending AtWait else mkSubmit WaiterCancelled SubmitRaised]) s.

Definition set_submit (i : nat) (b : submit) (s : runner) : runner := with_submits (<[i := b]> (r_submits s)) s.

(** The semaphore grants a slot to a waiter; a waiter is pending only while its call is
    in [asyncio.wait]. *)
Definition slot_acquired (i : nat) (s : runner) : option runner :=
  match r_submits s !! i with
  | Some (mkSubmit WaiterPending AtWait) =>
      if decide (0 < r_slots s) then Some (set_submit i (mkSubmit WaiterAcquired AtWait) (with_slots (pred (r_slots s)) s)) else None
  | _ => None
  end.

(** [for waiter in pending: waiter.cancel()]: a waiter that holds a slot is done. *)
Definition cancel_waiter (w : waiter) : waiter := match w with WaiterPending => WaiterCancelled | _ => w end.

Definition is_acquired (w : waiter) : bool := match w with WaiterAcquired => true | _ => false end.

(** From [asyncio.wait] to the settling of the pending waiters. *)
Definition submit_woken (i : nat) (s : runner) : option runner :=
  match r_submits s !! i with
  | Some (mkSubmit w AtWait) =>
      if is_acquired w || r_terminal_event s
      then Some (set_submit i (mkSubmit (cancel_waiter w) (AtSettle (is_acquired w))) s) else None
  | _ => None
  end.

(** From there to the end of the [try] block: the compute is started and queued, or the
    slot is given back and the call raises. *)
Definition submit_settled (i : nat) (s : runner) : option runner :=
  match r_submits s !! i with
  | Some (mkSubmit w (AtSettle acquired)) =>
      if negb acquired || negb (r_accepting s)
      then Some (set_submit i (mkSubmit w (AtCleanup true false)) (if acquired then release s else s))
      else
        let f := length (r_futures s) in
        Some (set_submit i (mkSubmit w SubmitReturned)
          (with_submitted (r_submitted s ++ [Compute f]) (put_nowait (Compute f) (with_futures (r_futures s ++ [None]) s))))
  | _ => None
  end.

(** The call is cancelled at one of its suspension points; in the exception handler a
    second cancellation ends it. *)
Definition submit_cancelled (i : nat) (s : runner) : option runner :=
  match r_submits s !! i with
  | Some (mkSubmit w AtWait) => Some (set_submit i (mkSubmit (cancel_waiter w) (AtCleanup false false)) s)
  | Some (mkSubmit w (AtSettle acquired)) => Some (set_submit i (mkSubmit (cancel_waiter w) (AtCleanup true acquired)) s)
  | Some (mkSubmit w (AtCleanup _ _)) => Some (set_submit i (mkSubmit w SubmitRaised) s)
  | _ => None
  end.

(** The end of the exception handler. *)
Definition submit_cleaned (i : nat) (s : runner) : option runner :=
  match r_submits s !! i with
  | Some (mkSubmit w (AtCleanup slot_state_known acquired)) =>
      let acquired := if slot_state_known then acquired else is_acquired w in
      Some (set_submit i (mkSubmit w SubmitRaised) (if acquired then release s else s))
  | _ => None
  end.

Definition submit_control (x : X) (s : runner) : option runner :=
  if r_accepting s then Some (with_submitted (r_submitted s ++ [Control x]) (put_nowait (Control x) s)) else None.

(** User code: a compute completes; later its cancellation callback runs. *)
Definition future_done (f : nat) (o : settled (list Rec)) (s : runner) : option runner :=
  match r_futures s !! f with Some None => Some (with_futures (<[f := Some o]> (r_futures s)) s) | _ => None end.

Definition finish_cancelled_future (f : nat) (s : runner) : option runner :=
  match r_futures s !! f with
  | Some (Some _) => Some (with_cancelling_futures (r_cancelling_futures s ∖ {[f]}) s)
  | _ => None
  end.

(** [shutdown] up to the wait for the consumer. *)
Definition shutdown (s : runner) : runner :=
  let s := seal s in
  match r_consumer s with
  | NotStarted | Finished => cancel_queued false s
  | _ => if r_shutdown_requested s then s else put_nowait SHUTDOWN (with_shutdown_requested true s)
  end.

Definition is_finished (s : runner) : bool := bool_decide (r_consumer s = Finished).

(** The end of a [shutdown] that waited: the consumer ended, the time ran out, or the
    caller was cancelled while it waited.  All three drain the queue. *)
Definition shutdown_drained (s : runner) : option runner :=
  if is_finished s then Some (cancel_queued false s) else None.

Definition shutdown_timeout (s : runner) : option runner :=
  if r_shutdown_requested s
  then Some (cancel_queued (negb (is_finished s)) (with_abort_requested true s)) else None.

Definition shutdown_cancelled (s : runner) : option runner :=
  if r_shutdown_requested s then Some (cancel_queued false s) else None.

(** [barrier] waits for [queue.join], then raises when the runner has failed. *)
Definition barrier (s : runner) : option (outcome ()) :=
  if decide (r_unfinished s = 0)
  then Some (match r_fatal_error s with Some _ => Err RuntimeError | None => Ok () end) else None.

(** ** Steps *)

Inductive action :=
  | AStart
  | ASubmitCompute
  | ASlotAcquired (i : nat)
  | ASubmitWoken (i : nat)
  | ASubmitSettled (i : nat)
  | ASubmitCancelled (i : nat)
  | ASubmitCleaned (i : nat)
  | ASubmitControl (x : X)
  | AFutureDone (f : nat) (o : settled (list Rec))
  | AFutureCallback (f : nat)
  | AConsume (o : settled unit)
  | AConsumeGetCancelled
  | AShutdown
  | AShutdownDrained
  | AShutdownTimeout
  | AShutdownCancelled.

Definition step (a : action) (s : runner) : option runner :=
  match a with
  | AStart => start s
  | ASubmitCompute => Some (submit_compute s)
  | ASlotAcquired i => slot_acquired i s
  | ASubmitWoken i => submit_woken i s
  | ASubmitSettled i => submit_settled i s
  | ASubmitCancelled i => submit_cancelled i s
  | ASubmitCleaned i => submit_cleaned i s
  | ASubmitControl x => submit_control x s
  | AFutureDone f o => future_done f o s
  | AFutureCallback f => finish_cancelled_future f s
  | AConsume o => consume o s
  | AConsumeGetCancelled => consume_get_cancelled s
  | AShutdown => Some (shutdown s)
  | AShutdownDrained => shutdown_drained s
  | AShutdownTimeout => shutdown_timeout s
  | AShutdownCancelled => shutdown_cancelled s
  end.
End runner.
Arguments runner : clear implicits.
Arguments action : clear implicits.

(** ** Draining the queue *)

(** Equality of states field by field. *)
Local Ltac runner_eq :=
  match goal with s : runner _ _ |- _ => destruct s end;
  cbv [with_slots with_queue with_unfinished with_consumer with_accepting with_terminal_event with_shutdown_requested with_abort_requested with_fatal_error with_cancelling_futures with_futures with_submits with_submitted with_log with_fatal_calls
    r_capacity r_slots r_queue r_unfinished r_consumer r_accepting r_terminal_event r_shutdown_requested r_abort_requested r_fatal_error r_cancelling_futures r_futures r_submits r_submitted r_log r_fatal_calls
    release cancel_future task_done put_nowait seal]; cbn [length app existsb]; f_equal; cbn; done || lia.

Section runner_facts.
Context {Rec X : Type}.
Implicit Types (s : runner Rec X) (q : list (item X)).

Definition is_compute (i : item X) : bool := match i with Compute _ => true | _ => false end.
Definition is_shutdown (i : item X) : bool := match i with SHUTDOWN => true | _ => false end.

Definition computes q : list (item X) := filter (λ i, is_compute i = true) q.
Definition works q : list (item X) := filter (λ i, is_shutdown i = false) q.

Lemma computes_cons i q : length (computes (i :: q)) = (if is_compute i then 1 else 0) + length (computes q).
Proof. unfold computes. rewrite filter_cons. by destruct (is_compute i). Qed.

Lemma length_computes_snoc q i : length (computes (q ++ [i])) = length (computes q) + Nat.b2n (is_compute i).
Proof. unfold computes. rewrite filter_app, length_app. f_equal. by destruct i. Qed.

Lemma works_app q q' : works (q ++ q') = works q ++ works q'.
Proof. apply filter_app. Qed.

Lemma cancel_items_spec keep q s :
  ∃ c, cancel_items keep q s = (keep && existsb is_shutdown q,
    with_unfinished (r_unfinished s - length q) (with_slots (length (computes q) + r_slots s) (with_cancelling_futures c s))).
Proof.
  revert s. induction q as [|i q IH]; intros s.
  - exists (r_cancelling_futures s). cbn. rewrite Nat.sub_0_r, andb_false_r. by destruct s.
  - cbn [cancel_items]. set (s1 := match i with Compute f => _ | _ => _ end). destruct (IH (task_done s1)) as [c ->].
    exists c. f_equal.
    + destruct i, keep; reflexivity.
    + rewrite computes_cons. unfold s1. destruct i as [f|x|]; runner_eq.
Qed.

Definition restored keep q : list (item X) := if keep && existsb is_shutdown q then [SHUTDOWN] else [].

Lemma cancel_queued_spec keep s :
  ∃ c, cancel_queued keep s =
    with_queue (restored keep (r_queue s)) (with_unfinished (r_unfinished s - length (r_queue s) + length (restored keep (r_queue s)))
      (with_slots (length (computes (r_queue s)) + r_slots s) (with_cancelling_futures c s))).
Proof.
  unfold cancel_queued. destruct (cancel_items_spec keep (r_queue s) (with_queue [] s)) as [c ->]. exists c.
  unfold restored. destruct (keep && existsb is_shutdown (r_queue s)); unfold put_nowait; runner_eq.
Qed.

Lemma works_restored keep q : works (restored keep q) = [].
Proof. unfold restored. by destruct (keep && existsb is_shutdown q). Qed.

Lemma computes_restored keep q : computes (restored keep q) = [].
Proof. unfold restored. by destruct (keep && existsb is_shutdown q). Qed.

(** [finish]: closed, nothing queued. *)
Lemma finish_spec s :
  ∃ c, finish s = with_consumer Finished (with_queue [] (with_unfinished (r_unfinished s - length (r_queue s))
      (with_slots (length (computes (r_queue s)) + r_slots s) (with_cancelling_futures c (seal s))))).
Proof.
  unfold finish. destruct (cancel_queued_spec false (seal s)) as [c ->]. exists c. unfold restored; runner_eq.
Qed.

(** [fail] touches the error, the gate and the reports only. *)
Lemma fail_spec e s : ∃ err acc ter calls,
  fail e s = with_fatal_calls calls (with_terminal_event ter (with_accepting acc (with_fatal_error err s))) ∧ is_Some err ∧
  (acc = true → r_accepting s = true) ∧ (r_terminal_event s = negb (r_accepting s) → ter = negb acc) ∧
  (r_fatal_error s = None → acc = false).
Proof.
  unfold fail. destruct (r_fatal_error s) as [e'|] eqn:E.
  - exists (Some e'), (r_accepting s), (r_terminal_event s), (r_fatal_calls s). split_and!; try done. rewrite <-E. by destruct s.
  - exists (Some e), false, true, (r_fatal_calls s ++ [e]). split_and!; done.
Qed.
End runner_facts.
Arguments computes {X} q : simpl never.
Arguments works {X} q : simpl never.

(** ** The invariant *)

Section runner_invariant.
Context {Rec X : Type}.
Implicit Types (s : runner Rec X) (q : list (item X)).

(** An item and what its execution left in the log. *)
Definition executed (futures : list (future_state Rec)) (i : item X) (e : event Rec X) : Prop :=
  match i, e with
  | Compute f, Emitted records => futures !! f = Some (Some (Returned records))
  | Control x, Acted y => x = y
  | _, _ => False
  end.

Definition current s : list (item X) := match r_consumer s with AwaitFuture f => [Compute f] | _ => [] end.

Definition busy s : nat := match r_consumer s with AwaitFuture _ | AwaitResult | AwaitAction => 1 | _ => 0 end.

Definition alive s : Prop := r_consumer s ≠ NotStarted ∧ r_consumer s ≠ Finished.

(** The log executes a prefix of what was submitted. *)
Definition ordered s : Prop := ∃ done rest, r_submitted s = done ++ rest ∧ Forall2 (executed (r_futures s)) done (r_log s).

(** The rest is the item in work, the queue and what was dropped when the runner closed. *)
Definition ordered_rest s : Prop := ∃ done dropped,
  r_submitted s = done ++ current s ++ works (r_queue s) ++ dropped ∧ Forall2 (executed (r_futures s)) done (r_log s) ∧
  (r_accepting s = true → dropped = []).

(** What holds at every moment, in the middle of a segment too. *)
Record runner_base s : Prop := {
  rb_futures f : Compute f ∈ r_submitted s → f < length (r_futures s);
  rb_nodup : NoDup (computes (r_submitted s));
  rb_terminal : r_terminal_event s = negb (r_accepting s);
  rb_sentinel : existsb is_shutdown (r_queue s) = true → r_shutdown_requested s = true;
  rb_abort : r_abort_requested s = true → r_shutdown_requested s = true;
  rb_requested : r_shutdown_requested s = true → r_accepting s = false
}.

Definition closed_for_a_reason s : Prop := is_Some (r_fatal_error s) ∨ r_shutdown_requested s = true.

Record runner_inv s : Prop := {
  ri_base : runner_base s;
  ri_order : ordered_rest s;
  ri_finished : r_consumer s = Finished → r_queue s = [] ∧ r_accepting s = false;
  ri_unfinished : r_unfinished s = length (r_queue s) + busy s;
  ri_closed : r_accepting s = false → r_consumer s ≠ NotStarted → closed_for_a_reason s;
  ri_fatal : is_Some (r_fatal_error s) → r_consumer s = Finished
}.

Lemma ordered_rest_ordered s : ordered_rest s → ordered s.
Proof. intros (d & dr & E & He & _). by exists d, (current s ++ works (r_queue s) ++ dr). Qed.

Lemma executed_mono (fs fs' : list (future_state Rec)) i e :
  (∀ f o, fs !! f = Some (Some o) → fs' !! f = Some (Some o)) → executed fs i e → executed fs' i e.
Proof. intros Hm. destruct i, e; cbn; auto. Qed.

Lemma inv_init capacity : runner_inv (AsyncOrderedRunner_init capacity : runner Rec X).
Proof.
  split; try done.
  - split; try done; cbn; [set_solver|constructor].
  - by exists [], [].
  - by intros [? ?].
Qed.

(** The consumer ends: whatever was left is dropped. *)
Lemma inv_finish s :
  runner_base s → ordered s → r_unfinished s = length (r_queue s) → closed_for_a_reason s → runner_inv (finish s).
Proof.
  intros [Hf Hn Ht Hs Ha Hreq] (d & rest & E & He) Hu Hr. destruct (finish_spec s) as [c ->].
  split; cbn; try done.
  - by exists d, rest.
  - lia.
Qed.

(** The queue is drained while the runner is closed. *)
Lemma inv_cancel_queued keep s : runner_inv s → r_accepting s = false → runner_inv (cancel_queued keep s).
Proof.
  intros [[Hf Hn Ht Hs Ha Hreq] (d & dr & E & He & Hd) Hfin Hu Hc Hfa] Hacc.
  destruct (cancel_queued_spec keep s) as [c ->]. split; cbn; try done.
  - split; cbn; try done. unfold restored. intros Hin. apply Hs.
    destruct keep, (existsb is_shutdown (r_queue s)); cbn in Hin; try done.
  - exists d, (works (r_queue s) ++ dr). cbn -[works restored]. rewrite works_restored. split_and!; [exact E|exact He|]. by rewrite Hacc.
  - intros Hc'. destruct (Hfin Hc') as [Hq _]. rewrite Hq. unfold restored. cbn. by rewrite andb_false_r.
  - change (busy _) with (busy s). lia.
Qed.

Lemma base_fail e s : runner_base s → runner_base (fail e s).
Proof.
  intros [Hf Hn Ht Hs Ha Hreq]. destruct (fail_spec e s) as (err & acc & ter & calls & -> & _ & Hacc & Hter & _). split; cbn; auto.
  intros Hq. destruct acc; [|done]. rewrite Hacc in Hreq; naive_solver.
Qed.

Lemma base_item_done b s : runner_base s → runner_base (item_done b s).
Proof. intros [? ? ? ? ? ?]. destruct b; by split. Qed.

(** One item is done and the runner ends with it. *)
Lemma inv_finish_item b s :
  runner_inv s → busy s = 1 → closed_for_a_reason s → runner_inv (finish (item_done b s)).
Proof.
  intros Hi Hb Hr. apply inv_finish.
  - apply base_item_done, (ri_base _ Hi).
  - destruct (ordered_rest_ordered _ (ri_order _ Hi)) as (d & rest & ? & ?). exists d, rest. by destruct b.
  - pose proof (ri_unfinished _ Hi). destruct b; cbn; lia.
  - by destruct b.
Qed.

Lemma inv_consume_raised b e s : runner_inv s → busy s = 1 → runner_inv (consume_raised b e s).
Proof.
  intros Hi Hb. unfold consume_raised. pose proof (base_fail e s (ri_base _ Hi)) as Hbase.
  destruct (fail_spec e s) as (err & acc & ter & calls & E & Herr & _ & _ & _).
  apply inv_finish.
  - by apply base_item_done.
  - rewrite E. destruct (ordered_rest_ordered _ (ri_order _ Hi)) as (d & rest & ? & ?). exists d, rest. by destruct b.
  - pose proof (ri_unfinished _ Hi). rewrite E. destruct b; cbn; lia.
  - left. rewrite E. by destruct b.
Qed.

Lemma busy_started s : busy s = 1 → r_consumer s ≠ NotStarted.
Proof. unfold busy. by destruct (r_consumer s). Qed.

Lemma inv_consume_cancelled b s : runner_inv s → busy s = 1 → runner_inv (consume_cancelled b s).
Proof.
  intros Hi Hb. unfold consume_cancelled. destruct (r_accepting s) eqn:Ea; [by apply inv_consume_raised|].
  apply inv_finish_item; [done..|]. by apply (ri_closed _ Hi), busy_started.
Qed.

Lemma inv_next_item b s : runner_inv s → busy s = 1 → current s = [] → runner_inv (next_item (item_done b s)).
Proof.
  intros Hi Hb Hcur. unfold next_item. assert (r_abort_requested (item_done b s) = r_abort_requested s) as -> by by destruct b.
  destruct (r_abort_requested s) eqn:Eab.
  - apply inv_finish_item; [done..|]. right. by apply (rb_abort _ (ri_base _ Hi)).
  - destruct Hi as [[Hf Hn Ht Hs Ha Hreq] (d & dr & E & He & Hd) Hfin Hu Hc Hfa].
    assert (¬ is_Some (r_fatal_error s)) as Hnf by (intros Hf'%Hfa; unfold busy in Hb; by rewrite Hf' in Hb).
    split.
    + destruct b; by split.
    + exists d, dr. rewrite Hcur in E. destruct b; done.
    + by destruct b.
    + destruct b; cbn; lia.
    + pose proof (busy_started s Hb). destruct b; cbn; auto.
    + destruct b; cbn; tauto.
Qed.

Lemma inv_work_settled b o s : runner_inv s → busy s = 1 → current s = [] → runner_inv (work_settled b o s).
Proof.
  intros Hi Hb Hc. destruct o as [u|e|]; cbn [work_settled].
  - destruct (negb b && r_abort_requested s) eqn:E; [|by apply inv_next_item].
    apply andb_true_iff in E as [E Eab]. destruct b; [done|]. apply inv_finish_item; [done..|].
    right. by apply (rb_abort _ (ri_base _ Hi)).
  - by apply inv_consume_raised.
  - by apply inv_consume_cancelled.
Qed.

Lemma inv_future_settled f o s :
  runner_inv s → r_consumer s = AwaitFuture f → r_futures s !! f = Some (Some o) → runner_inv (future_settled o s).
Proof.
  intros Hi Hcon Ho. assert (busy s = 1) as Hb by (unfold busy; by rewrite Hcon).
  destruct o as [rs|e|]; cbn [future_settled]; [|by apply inv_consume_raised|by apply inv_consume_cancelled].
  destruct (r_abort_requested s) eqn:Eab.
  - apply inv_finish_item; [done..|]. right. by apply (rb_abort _ (ri_base _ Hi)).
  - destruct Hi as [[Hf Hn Ht Hs Ha Hreq] (d & dr & E & He & Hd) Hfin Hu Hc Hfa]. split; cbn; try done.
    + exists (d ++ [Compute f]), dr. unfold current in E. rewrite Hcon in E. cbn. rewrite <-app_assoc. split_and!; try done.
      apply Forall2_app; [done|]. by repeat constructor.
    + rewrite Hu, Hb. done.
    + intros Hacc _. apply Hc; [done|]. by rewrite Hcon.
    + intros Hx%Hfa. by rewrite Hcon in Hx.
Qed.
End runner_invariant.

Section runner_steps.
Context {Rec X : Type}.
Implicit Types (s : runner Rec X) (q : list (item X)) (a : action Rec X).

(** Slots, suspended calls and cancellation requests are not part of the invariant. *)
Lemma inv_with_slots n s : runner_inv s → runner_inv (with_slots n s).
Proof. intros [[] ? ? ? ? ?]. split; [split|..]; done. Qed.

Lemma inv_set_submit i b s : runner_inv s → runner_inv (set_submit i b s).
Proof. intros [[] ? ? ? ? ?]. split; [split|..]; done. Qed.

Lemma inv_release (b : bool) s : runner_inv s → runner_inv (if b then release s else s).
Proof. destruct b; [apply inv_with_slots|done]. Qed.

(** An item joins the queue; [fs] are the futures it needs. *)
Lemma inv_submitted i (fs : list (future_state Rec)) s :
  runner_inv s → r_accepting s = true → is_shutdown i = false → r_futures s `prefix_of` fs →
  (∀ f, i = Compute f → f = length (r_futures s) ∧ f < length fs) →
  runner_inv (with_submitted (r_submitted s ++ [i]) (put_nowait i (with_futures fs s))).
Proof.
  intros [[Hf Hn Ht Hs Ha Hreq] (d & dr & E & He & Hd) Hfin Hu Hc Hfa] Hacc Hi Hfs Hif.
  assert (r_consumer s ≠ Finished) as Hnf by (intros Hx%Hfin; destruct Hx; congruence).
  pose proof (prefix_length _ _ Hfs) as Hlen. split; cbn; try done.
  - split; cbn; try done.
    + intros f [Hin|Heq%list_elem_of_singleton]%elem_of_app; [specialize (Hf f Hin); lia|]. by apply Hif.
    + unfold computes in *. rewrite filter_app. apply NoDup_app. split_and!; [done| |].
      * intros j [Hj1 Hj2]%list_elem_of_filter Hj3. apply list_elem_of_filter in Hj3 as [_ Hj3%list_elem_of_singleton].
        subst j. destruct i as [f| |]; try done. destruct (Hif f eq_refl) as [-> _]. specialize (Hf _ Hj2). lia.
      * rewrite filter_cons, filter_nil. case_decide; repeat constructor; set_solver.
    + rewrite existsb_app. cbn. rewrite Hi, !orb_false_r. done.
  - exists d, dr. cbn. rewrite (Hd Hacc), app_nil_r in *. split_and!; try done.
    + rewrite E, works_app, <-!app_assoc. do 3 f_equal. unfold works. by rewrite filter_cons, filter_nil, decide_True.
    + eapply Forall2_impl; [exact He|]. intros j e. apply executed_mono. intros f o Hl. by eapply prefix_lookup_Some.
  - rewrite length_app. cbn. change (busy _) with (busy s). lia.
Qed.

Lemma inv_future_done f o s s' : runner_inv s → future_done f o s = Some s' → runner_inv s'.
Proof.
  unfold future_done. intros [[Hf Hn Ht Hs Ha Hreq] (d & dr & E & He & Hd) Hfin Hu Hc Hfa].
  destruct (r_futures s !! f) as [[o'|]|] eqn:Ef; try done. intros [= <-]. split; try done.
  - split; try done. cbn. by rewrite length_insert.
  - exists d, dr. cbn. split_and!; try done. eapply Forall2_impl; [exact He|]. intros j e. apply executed_mono.
    intros g o' Hl. destruct (decide (f = g)) as [<-|]; [congruence|]. by rewrite list_lookup_insert_ne.
Qed.

Lemma inv_seal s : runner_inv s → (alive s → closed_for_a_reason s) → runner_inv (seal s).
Proof.
  intros [[Hf Hn Ht Hs Ha Hreq] (d & dr & E & He & Hd) Hfin Hu Hc Hfa] Hal. split; cbn; try done.
  - by exists d, dr.
  - naive_solver.
  - intros _ Hns. destruct (decide (r_consumer s = Finished)) as [Hx|Hx]; [|by apply Hal].
    apply Hc; [by apply Hfin|done].
Qed.

Lemma inv_shutdown_requested s :
  runner_inv s → alive s → runner_inv (put_nowait SHUTDOWN (with_shutdown_requested true (seal s))).
Proof.
  intros [[Hf Hn Ht Hs Ha Hreq] (d & dr & E & He & Hd) Hfin Hu Hc Hfa] [Hal1 Hal2]. split; cbn; try done.
  - exists d, dr. cbn. rewrite works_app. by rewrite app_nil_r.
  - rewrite length_app. cbn. change (busy _) with (busy s). lia.
  - by right.
Qed.

Lemma inv_shutdown s : runner_inv s → runner_inv (shutdown s).
Proof.
  intros Hi. unfold shutdown. cbn.
  assert (r_consumer s = NotStarted ∨ r_consumer s = Finished ∨ alive s) as [Hns|[Hns|Hal]].
  { unfold alive. destruct (r_consumer s); auto; right; right; done. }
  1,2: rewrite Hns; apply inv_cancel_queued; [apply inv_seal; [done|unfold alive; rewrite Hns; tauto]|done].
  pose proof (inv_shutdown_requested s Hi Hal) as Hput.
  assert (r_shutdown_requested s = true → runner_inv (seal s)) as Hseal by (intros; apply inv_seal; [done|by right]).
  destruct Hal. destruct (r_consumer s); try done; destruct (r_shutdown_requested s); auto.
Qed.

Lemma inv_abort s keep :
  runner_inv s → r_shutdown_requested s = true → runner_inv (cancel_queued keep (with_abort_requested true s)).
Proof.
  intros [[Hf Hn Ht Hs Ha Hreq] Ho Hfin Hu Hc Hfa] Hr. apply inv_cancel_queued; [|by apply Hreq]. by split.
Qed.

Lemma inv_consume o s s' : runner_inv s → consume o s = Some s' → runner_inv s'.
Proof.
  intros Hi. unfold consume. destruct (r_consumer s) eqn:Ec; try done.
  - destruct (r_queue s) as [|i q] eqn:Eq; [done|]. intros [= <-].
    destruct Hi as [[Hf Hn Ht Hs Ha Hreq] (d & dr & E & He & Hd) Hfin Hu Hc Hfa].
    unfold current in E. unfold busy in Hu. rewrite Ec, Eq in *. cbn in Hs.
    assert (¬ is_Some (r_fatal_error s)) as Hnf by (by intros Hx%Hfa).
    destruct i as [f|x|]; cbn [consume_item].
    + split; cbn; try done; [exists d, dr; split_and!; try done; by rewrite E|cbn in Hu; lia|intros ? _; by apply Hc].
    + split; cbn; try done; [|cbn in Hu; lia|intros ? _; by apply Hc]. exists (d ++ [Control x]), dr. rewrite <-app_assoc.
      split_and!; try done. apply Forall2_app; [done|]. by repeat constructor.
    + apply inv_finish.
      * apply base_item_done. split; cbn; try done. intros Hx. by apply Hs.
      * exists d, (works q ++ dr). done.
      * cbn in Hu |- *. lia.
      * right. by apply Hs.
  - destruct (r_futures s !! future) as [[o'|]|] eqn:Ef; try done. intros [= <-]. by eapply inv_future_settled.
  - intros [= <-]. apply inv_work_settled; [done|by unfold busy; rewrite Ec|by unfold current; rewrite Ec].
  - intros [= <-]. apply inv_work_settled; [done|by unfold busy; rewrite Ec|by unfold current; rewrite Ec].
Qed.

Lemma inv_submit_settled i s s' : runner_inv s → submit_settled i s = Some s' → runner_inv s'.
Proof.
  intros Hi. unfold submit_settled. destruct (r_submits s !! i) as [[w []]|]; try done.
  destruct (negb acquired || negb (r_accepting s)) eqn:E; intros [= <-].
  - by apply inv_set_submit, inv_release.
  - apply orb_false_iff in E as [_ E%negb_false_iff]. apply inv_set_submit, inv_submitted; try done.
    + by apply prefix_app_r.
    + intros f [= <-]. rewrite length_app. cbn. lia.
Qed.

(** Every step keeps the invariant. *)
Lemma inv_step s a s' : runner_inv s → step a s = Some s' → runner_inv s'.
Proof.
  intros Hi. destruct a; cbn [step].
  - unfold start. destruct (r_accepting s) eqn:Ea; [|done]. case_decide as Ec; intros [= <-]; [|done].
    destruct Hi as [[Hf Hn Ht Hs Ha Hreq] (d & dr & E & He & Hd) Hfin Hu Hc Hfa]. unfold current in E. unfold busy in Hu.
    rewrite Ec in *. assert (¬ is_Some (r_fatal_error s)) as Hnf by (by intros Hx%Hfa).
    split; cbn; try done; [by exists d, dr|by rewrite Ea].
  - intros [= <-]. destruct Hi as [[] ? ? ? ? ?]. split; [split|..]; done.
  - unfold slot_acquired. destruct (r_submits s !! i) as [[[] []]|]; try done. case_decide; intros [= <-].
    by apply inv_set_submit, inv_with_slots.
  - unfold submit_woken. destruct (r_submits s !! i) as [[w []]|]; try done. destruct (is_acquired w || r_terminal_event s); intros [= <-].
    by apply inv_set_submit.
  - by apply inv_submit_settled.
  - unfold submit_cancelled. destruct (r_submits s !! i) as [[w []]|]; intros [= <-]; by apply inv_set_submit.
  - unfold submit_cleaned. destruct (r_submits s !! i) as [[w []]|]; intros [= <-]. by apply inv_set_submit, inv_release.
  - unfold submit_control. destruct (r_accepting s) eqn:Ea; [|done]. intros [= <-].
    pose proof (inv_submitted (Control x) (r_futures s) s Hi Ea eq_refl (reflexivity _) ltac:(done)) as [[] ? ? ? ? ?].
    split; [split|..]; done.
  - by apply inv_future_done.
  - unfold finish_cancelled_future. destruct (r_futures s !! f) as [[]|]; intros [= <-].
    destruct Hi as [[] ? ? ? ? ?]. split; [split|..]; done.
  - by apply inv_consume.
  - unfold consume_get_cancelled. case_decide as Ec; [|done]. destruct (r_abort_requested s) eqn:Eab; intros [= <-].
    pose proof (ri_unfinished _ Hi) as Hu. unfold busy in Hu. rewrite Ec in Hu.
    apply inv_finish; [apply (ri_base _ Hi)|apply ordered_rest_ordered, (ri_order _ Hi)|lia|].
    right. by apply (rb_abort _ (ri_base _ Hi)).
  - intros [= <-]. by apply inv_shutdown.
  - unfold shutdown_drained, is_finished. case_bool_decide as Ec; intros [= <-]. apply inv_cancel_queued; [done|by apply (ri_finished _ Hi)].
  - unfold shutdown_timeout. destruct (r_shutdown_requested s) eqn:Er; intros [= <-]. by apply inv_abort.
  - unfold shutdown_cancelled. destruct (r_shutdown_requested s) eqn:Er; intros [= <-].
    apply inv_cancel_queued; [done|by apply (rb_requested _ (ri_base _ Hi))].
Qed.

Lemma inv_reachable capacity s : reachable step (AsyncOrderedRunner_init capacity) s → runner_inv s.
Proof. apply reachable_invariant; [apply inv_init|]. intros ???. apply inv_step. Qed.
End runner_steps.

(** ** Slots *)

Section runner_slots.
Context {Rec X : Type}.
Implicit Types (s : runner Rec X) (q : list (item X)) (a : action Rec X).

(** A suspended call that owns a slot. *)
Definition holds_slot (b : submit) : nat :=
  Nat.b2n match sb_point b with
  | AtWait => is_acquired (sb_slot_waiter b)
  | AtSettle acquired => acquired
  | AtCleanup slot_state_known acquired => if slot_state_known then acquired else is_acquired (sb_slot_waiter b)
  | SubmitReturned | SubmitRaised => false
  end.

(** The computes that were started and whose results were not put out yet. *)
Definition in_flight s : nat :=
  length (computes (r_queue s)) + match r_consumer s with AwaitFuture _ | AwaitResult => 1 | _ => 0 end.

Definition slots_in_use s : nat := in_flight s + sum_list_with holds_slot (r_submits s).

(** A second cancellation of a call, while its handler waits, loses its slot. *)
Definition lost_slots a s : nat :=
  match a with
  | ASubmitCancelled i =>
      match r_submits s !! i with Some (mkSubmit w (AtCleanup k q) as b) => holds_slot b | _ => 0 end
  | _ => 0
  end.

Lemma sum_list_with_insert {A} (f : A → nat) l i x y :
  l !! i = Some x → sum_list_with f (<[i := y]> l) + f x = sum_list_with f l + f y.
Proof.
  revert i. induction l as [|z l IH]; intros [|i]; cbn; try done; [intros [= ->]; lia|].
  intros Hi. specialize (IH i Hi).
  transitivity (f z + (sum_list_with f (<[i := y]> l) + f x)); [symmetry; apply Nat.add_assoc|]. rewrite IH. lia.
Qed.

Lemma slots_finish s b :
  match r_consumer s with AwaitFuture _ | AwaitResult => b = true | _ => b = false end →
  r_slots (finish (item_done b s)) + slots_in_use (finish (item_done b s)) = r_slots s + slots_in_use s.
Proof.
  intros Hb. destruct (finish_spec (item_done b s)) as [c ->]. unfold slots_in_use, in_flight. cbn.
  change (computes (X := X) []) with (@nil (item X)). destruct (r_consumer s); subst b; cbn; lia.
Qed.

Lemma slots_cancel_queued keep s :
  r_slots (cancel_queued keep s) + slots_in_use (cancel_queued keep s) = r_slots s + slots_in_use s.
Proof.
  destruct (cancel_queued_spec keep s) as [c ->]. unfold slots_in_use, in_flight. cbn -[restored].
  rewrite computes_restored. cbn. lia.
Qed.

Lemma slots_consume_raised s b e :
  match r_consumer s with AwaitFuture _ | AwaitResult => b = true | _ => b = false end →
  r_slots (consume_raised b e s) + slots_in_use (consume_raised b e s) = r_slots s + slots_in_use s.
Proof.
  intros Hb. unfold consume_raised. destruct (fail_spec e s) as (err & acc & ter & calls & E & _).
  rewrite slots_finish; rewrite E; done.
Qed.

Lemma slots_consume_cancelled s b :
  match r_consumer s with AwaitFuture _ | AwaitResult => b = true | _ => b = false end →
  r_slots (consume_cancelled b s) + slots_in_use (consume_cancelled b s) = r_slots s + slots_in_use s.
Proof.
  intros Hb. unfold consume_cancelled. destruct (r_accepting s); [by apply slots_consume_raised|by apply slots_finish].
Qed.

Lemma slots_work_settled s b o :
  (r_consumer s = AwaitResult ∧ b = true) ∨ (r_consumer s = AwaitAction ∧ b = false) →
  r_slots (work_settled b o s) + slots_in_use (work_settled b o s) = r_slots s + slots_in_use s.
Proof.
  intros Hb. assert (match r_consumer s with AwaitFuture _ | AwaitResult => b = true | _ => b = false end) as Hb'
    by (by destruct Hb as [[-> ->]|[-> ->]]).
  destruct o as [u|e|]; cbn [work_settled]; [|by apply slots_consume_raised|by apply slots_consume_cancelled].
  destruct (negb b && r_abort_requested s) eqn:E.
  - apply andb_true_iff in E as [E _]. destruct b; [done|]. by apply slots_finish.
  - unfold next_item. destruct (r_abort_requested (item_done b s)); [by apply slots_finish|].
    destruct Hb as [[Hc ->]|[Hc ->]]; unfold slots_in_use, in_flight; rewrite Hc; cbn; lia.
Qed.

Lemma slots_consume o s s' : consume o s = Some s' → r_slots s' + slots_in_use s' = r_slots s + slots_in_use s.
Proof.
  unfold consume. destruct (r_consumer s) eqn:Ec; try done.
  - destruct (r_queue s) as [|i q] eqn:Eq; [done|]. intros [= <-].
    assert (r_slots s + slots_in_use s = r_slots s + (Nat.b2n (is_compute i) + slots_in_use (with_queue q s))) as ->.
    { unfold slots_in_use, in_flight. cbn. rewrite Eq, computes_cons, Ec. destruct i; cbn; lia. }
    destruct i as [f|x|]; cbn [consume_item].
    + unfold slots_in_use, in_flight. cbn. rewrite Ec. lia.
    + unfold slots_in_use, in_flight. cbn. rewrite Ec. lia.
    + rewrite slots_finish; [done|]. cbn. by rewrite Ec.
  - destruct (r_futures s !! future) as [[[rs|e|]|]|]; try done; intros [= <-]; cbn [future_settled].
    + destruct (r_abort_requested s); [apply slots_finish; by rewrite Ec|].
      unfold slots_in_use, in_flight. cbn. rewrite Ec. lia.
    + apply slots_consume_raised. by rewrite Ec.
    + apply slots_consume_cancelled. by rewrite Ec.
  - intros [= <-]. apply slots_work_settled. auto.
  - intros [= <-]. apply slots_work_settled. auto.
Qed.

(** A call moves on while [n] slots become free. *)
Lemma slots_set_submit i b b' s n :
  r_submits s !! i = Some b →
  r_slots (set_submit i b' (with_slots n s)) + slots_in_use (set_submit i b' (with_slots n s)) + holds_slot b + r_slots s
    = r_slots s + slots_in_use s + holds_slot b' + n.
Proof.
  intros Hi. unfold slots_in_use, in_flight. cbn.
  pose proof (sum_list_with_insert holds_slot (r_submits s) i b b' Hi). lia.
Qed.

Lemma holds_cancel_waiter w : is_acquired (cancel_waiter w) = is_acquired w.
Proof. by destruct w. Qed.

Lemma with_slots_id s : with_slots (r_slots s) s = s.
Proof. by destruct s. Qed.

Lemma slots_submit_step i b b' s n :
  r_submits s !! i = Some b → holds_slot b' + n = holds_slot b + r_slots s →
  r_slots (set_submit i b' (with_slots n s)) + slots_in_use (set_submit i b' (with_slots n s)) = r_slots s + slots_in_use s.
Proof. intros Hi Hb. pose proof (slots_set_submit i b b' s n Hi). lia. Qed.

Lemma slots_submit_settled i s s' :
  submit_settled i s = Some s' → r_slots s' + slots_in_use s' = r_slots s + slots_in_use s.
Proof.
  unfold submit_settled. destruct (r_submits s !! i) as [[w [|acq| | |]]|] eqn:Eb; try done.
  destruct (negb acq || negb (r_accepting s)) eqn:E; intros [= <-].
  - destruct acq; [apply (slots_submit_step i _ _ s (S (r_slots s)) Eb); cbn; lia|].
    rewrite <-(with_slots_id s) at 1 2. by apply (slots_submit_step i _ _ s (r_slots s) Eb).
  - apply orb_false_iff in E as [E%negb_false_iff _]. subst acq.
    unfold slots_in_use, in_flight. cbn. rewrite length_computes_snoc. cbn.
    pose proof (sum_list_with_insert holds_slot (r_submits s) i _ (mkSubmit w SubmitReturned) Eb) as Hs. cbn in Hs.
    lia.
Qed.

(** Slots are only lost by a second cancellation. *)
Lemma slots_step a s s' :
  step a s = Some s' → lost_slots a s + (r_slots s' + slots_in_use s') = r_slots s + slots_in_use s.
Proof.
  destruct a; cbn [step lost_slots plus].
  - unfold start. destruct (r_accepting s); [|done]. case_decide as Ec; intros [= <-]; [|done].
    unfold slots_in_use, in_flight. cbn. by rewrite Ec.
  - intros [= <-]. unfold slots_in_use, in_flight. cbn. rewrite sum_list_with_app. destruct (r_accepting s); cbn; lia.
  - unfold slot_acquired. destruct (r_submits s !! i) as [[[] []]|] eqn:Eb; try done. case_decide; intros [= <-].
    apply (slots_submit_step i _ _ s _ Eb). cbn. lia.
  - unfold submit_woken. destruct (r_submits s !! i) as [[w []]|] eqn:Eb; try done.
    destruct (is_acquired w || r_terminal_event s); intros [= <-].
    rewrite <-(with_slots_id s) at 1 2. by apply (slots_submit_step i _ _ s _ Eb).
  - apply slots_submit_settled.
  - unfold submit_cancelled. destruct (r_submits s !! i) as [[w [|acq|k q| |]]|] eqn:Eb; intros [= <-].
    + rewrite <-(with_slots_id s) at 1 2. apply (slots_submit_step i _ _ s _ Eb). unfold holds_slot. cbn [sb_point sb_slot_waiter]. by rewrite holds_cancel_waiter.
    + rewrite <-(with_slots_id s) at 1 2. by apply (slots_submit_step i _ _ s _ Eb).
    + rewrite <-(with_slots_id s) at 1 2.
      pose proof (slots_set_submit i _ (mkSubmit w SubmitRaised) s (r_slots s) Eb) as Hs. cbn [holds_slot sb_point Nat.b2n] in Hs. lia.
  - unfold submit_cleaned. destruct (r_submits s !! i) as [[w [|acq|k q| |]]|] eqn:Eb; intros [= <-].
    destruct (if k then q else is_acquired w) eqn:Eh; [apply (slots_submit_step i _ _ s _ Eb)|
      rewrite <-(with_slots_id s) at 1 2; apply (slots_submit_step i _ _ s _ Eb)]; unfold holds_slot; cbn; rewrite Eh; cbn; lia.
  - unfold submit_control. destruct (r_accepting s); intros [= <-]. unfold slots_in_use, in_flight. cbn.
    rewrite length_computes_snoc. cbn. lia.
  - unfold future_done. destruct (r_futures s !! f) as [[]|]; by intros [= <-].
  - unfold finish_cancelled_future. destruct (r_futures s !! f) as [[]|]; by intros [= <-].
  - apply slots_consume.
  - unfold consume_get_cancelled. case_decide as Ec; [|done]. destruct (r_abort_requested s); intros [= <-].
    destruct (finish_spec s) as [c ->]. unfold slots_in_use, in_flight. cbn. rewrite Ec.
    change (computes (X := X) []) with (@nil (item X)). cbn. lia.
  - intros [= <-]. unfold shutdown. cbn.
    destruct (r_consumer s); try (rewrite slots_cancel_queued; done); destruct (r_shutdown_requested s); try done;
      unfold slots_in_use, in_flight; cbn; rewrite length_computes_snoc; cbn; lia.
  - unfold shutdown_drained. destruct (is_finished s); intros [= <-]. apply slots_cancel_queued.
  - unfold shutdown_timeout. destruct (r_shutdown_requested s); intros [= <-]. by rewrite slots_cancel_queued.
  - unfold shutdown_cancelled. destruct (r_shutdown_requested s); intros [= <-]. apply slots_cancel_queued.
Qed.

Lemma slots_bounded capacity s :
  reachable step (AsyncOrderedRunner_init capacity) s → r_slots s + slots_in_use s <= Z.to_nat (Z.max 1 capacity).
Proof.
  apply (reachable_invariant _ (λ s, r_slots s + slots_in_use s <= _)); [unfold slots_in_use, in_flight, computes; cbn; lia|].
  intros s1 a s2 Hle Hs%slots_step. lia.
Qed.

(** The steps that lose no slot. *)
Definition step_once_cancelled a s : option (runner Rec X) := if decide (lost_slots a s = 0) then step a s else None.

Lemma slots_conserved capacity s :
  reachable step_once_cancelled (AsyncOrderedRunner_init capacity) s → r_slots s + slots_in_use s = Z.to_nat (Z.max 1 capacity).
Proof.
  apply (reachable_invariant _ (λ s, r_slots s + slots_in_use s = _)); [unfold slots_in_use, in_flight, computes; cbn; lia|].
  intros s1 a s2 Heq. unfold step_once_cancelled. case_decide as Hl; [|done]. intros Hs%slots_step. lia.
Qed.
End runner_slots.

(** ** Progress *)

Section runner_progress.
Context {Rec X : Type}.
Implicit Types (s : runner Rec X) (q : list (item X)) (a : action Rec X).

(** The steps of an environment that never cancels a [shutdown] it waits for. *)
Definition step_patient a s : option (runner Rec X) :=
  match a with AShutdownCancelled => None | _ => step a s end.

(** What has to be scheduled: the consumer, the compute of each future. *)
Definition scheduled (k : option nat) a : Prop :=
  match k with None => ∃ o, a = AConsume o | Some f => ∃ o, a = AFutureDone f o end.

(** A closed runner that still runs finds the sentinel. *)
Definition has_sentinel s : Prop :=
  r_shutdown_requested s = true → alive s → existsb is_shutdown (r_queue s) = true.

(** What a step that is not the consumer's leaves alone. *)
Record same_work a s s' : Prop := {
  sw_consumer : r_consumer s' = r_consumer s;
  sw_log : r_log s' = r_log s;
  sw_submitted : length (r_submitted s) <= length (r_submitted s');
  sw_futures f o : r_futures s !! f = Some o → r_futures s' !! f = Some o ∨ scheduled (Some f) a
}.

Lemma same_work_refl a s s' :
  r_consumer s' = r_consumer s → r_log s' = r_log s → r_submitted s' = r_submitted s →
  r_futures s' = r_futures s → same_work a s s'.
Proof. intros Hc Hl Hs Hf. split; [done..|by rewrite Hs|]. rewrite Hf. by left. Qed.

Lemma same_work_cancel_queued a keep s s' : same_work a s s' → same_work a s (cancel_queued keep s').
Proof. intros []. destruct (cancel_queued_spec keep s') as [c ->]. by split. Qed.

Lemma other_steps s a s' :
  alive s → ¬ scheduled None a → step a s = Some s' → r_consumer s' = Finished ∨ same_work a s s'.
Proof.
  intros [Hns Hnf] Hno. destruct a; cbn [step].
  - unfold start. destruct (r_accepting s); [|done]. case_decide; intros [= <-]; [done|]. right. by apply same_work_refl.
  - intros [= <-]. right. by apply same_work_refl.
  - unfold slot_acquired. destruct (r_submits s !! i) as [[[] []]|]; try done. case_decide; intros [= <-]. right. by apply same_work_refl.
  - unfold submit_woken. destruct (r_submits s !! i) as [[w []]|]; try done.
    destruct (is_acquired w || r_terminal_event s); intros [= <-]. right. by apply same_work_refl.
  - unfold submit_settled. destruct (r_submits s !! i) as [[w [|acq| | |]]|]; try done.
    destruct (negb acq || negb (r_accepting s)); intros [= <-]; right.
    + destruct acq; by apply same_work_refl.
    + split; try done; cbn; [rewrite length_app; lia|]. intros f o Hf. left. by apply lookup_app_l_Some.
  - unfold submit_cancelled. destruct (r_submits s !! i) as [[w []]|]; intros [= <-]; right; by apply same_work_refl.
  - unfold submit_cleaned. destruct (r_submits s !! i) as [[w [|acq|k q| |]]|]; intros [= <-]. right.
    destruct (if k then q else is_acquired w); by apply same_work_refl.
  - unfold submit_control. destruct (r_accepting s); intros [= <-]. right.
    split; try done; cbn; [rewrite length_app; lia|by left].
  - unfold future_done. destruct (r_futures s !! f) as [[]|]; intros [= <-]. right. split; try done. cbn.
    intros g o' Hg. destruct (decide (f = g)) as [<-|]; [right; by eexists|left; by rewrite list_lookup_insert_ne].
  - unfold finish_cancelled_future. destruct (r_futures s !! f) as [[]|]; intros [= <-]. right. by apply same_work_refl.
  - destruct Hno. by eexists.
  - unfold consume_get_cancelled. case_decide; [|done]. destruct (r_abort_requested s); intros [= <-]. left.
    by destruct (finish_spec s) as [c ->].
  - intros [= <-]. right. unfold shutdown. cbn. destruct (r_consumer s) eqn:Ec; try done.
    all: destruct (r_shutdown_requested s); by apply same_work_refl.
  - unfold shutdown_drained. destruct (is_finished s); intros [= <-]. right. by apply same_work_cancel_queued, same_work_refl.
  - unfold shutdown_timeout. destruct (r_shutdown_requested s); intros [= <-]. right. by apply same_work_cancel_queued, same_work_refl.
  - unfold shutdown_cancelled. destruct (r_shutdown_requested s); intros [= <-]. right. by apply same_work_cancel_queued, same_work_refl.
Qed.


Lemma sentinel_cancel_queued s : existsb is_shutdown (r_queue s) = true →
  existsb is_shutdown (r_queue (cancel_queued true s)) = true.
Proof. intros Hq. destruct (cancel_queued_spec true s) as [c ->]. cbn. unfold restored. by rewrite Hq. Qed.

(** How far the item in work is: the fewer the closer. *)
Definition phase s : nat :=
  match r_consumer s with
  | AtGet => 2
  | AwaitFuture f => match r_futures s !! f with Some (Some _) => 0 | _ => 1 end
  | AwaitResult | AwaitAction => 3
  | NotStarted | Finished => 0
  end.

Record worked s s' : Prop := {
  wk_started : r_consumer s' ≠ NotStarted;
  wk_requested : r_shutdown_requested s' = r_shutdown_requested s;
  wk_submitted : r_submitted s' = r_submitted s;
  wk_queue : existsb is_shutdown (r_queue s') = existsb is_shutdown (r_queue s);
  wk_phase : phase s' + 4 * length (r_log s) < phase s + 4 * length (r_log s')
}.

Lemma finish_finished s : r_consumer (finish s) = Finished.
Proof. by destruct (finish_spec s) as [c ->]. Qed.

Lemma work_settled_steps b o s :
  (r_consumer s = AwaitResult ∨ r_consumer s = AwaitAction) →
  r_consumer (work_settled b o s) = Finished ∨ worked s (work_settled b o s).
Proof.
  intros Hc. destruct o as [u|e|]; cbn [work_settled]; [|left; apply finish_finished..].
  destruct (negb b && r_abort_requested s); [left; apply finish_finished|]. unfold next_item.
  destruct (r_abort_requested (item_done b s)); [left; apply finish_finished|]. right.
  destruct b; split; try done; unfold phase; cbn; destruct Hc as [-> | ->]; lia.
Qed.

Lemma consume_steps o s s' : consume o s = Some s' → r_consumer s' = Finished ∨ worked s s'.
Proof.
  unfold consume. destruct (r_consumer s) eqn:Ec; try done.
  - destruct (r_queue s) as [|i q] eqn:Eq; [done|]. intros [= <-]. destruct i as [f|x|]; cbn [consume_item].
    + right. split; try done; cbn; [by rewrite Eq|]. unfold phase. cbn. rewrite Ec. repeat case_match; lia.
    + right. split; try done; cbn; [by rewrite Eq|]. unfold phase. cbn. rewrite Ec, length_app. cbn. lia.
    + left. apply finish_finished.
  - destruct (r_futures s !! future) as [[o'|]|] eqn:Ef; try done. intros [= <-].
    destruct o' as [rs|e|]; cbn [future_settled]; [|left; apply finish_finished..].
    destruct (r_abort_requested s); [left; apply finish_finished|]. right. split; try done.
    unfold phase. cbn. rewrite Ec, Ef, length_app. cbn. lia.
  - intros [= <-]. apply work_settled_steps. by left.
  - intros [= <-]. apply work_settled_steps. by right.
Qed.

Lemma sentinel_step s a s' : runner_inv s → has_sentinel s → step_patient a s = Some s' → has_sentinel s'.
Proof.
  intros Hi Hsen. unfold has_sentinel in *.
  destruct a; cbn [step_patient step]; try done.
  - unfold start. destruct (r_accepting s) eqn:Ea; [|done]. case_decide; intros [= <-]; [|done]. cbn. intros Hr.
    pose proof (rb_requested _ (ri_base _ Hi) Hr). congruence.
  - by intros [= <-].
  - unfold slot_acquired. destruct (r_submits s !! i) as [[[] []]|]; try done. case_decide; by intros [= <-].
  - unfold submit_woken. destruct (r_submits s !! i) as [[w []]|]; try done. destruct (is_acquired w || r_terminal_event s); by intros [= <-].
  - unfold submit_settled. destruct (r_submits s !! i) as [[w [|acq| | |]]|]; try done.
    destruct (negb acq || negb (r_accepting s)); intros [= <-]; [by destruct acq|]. cbn. intros Hr Ha.
    by rewrite existsb_app, (Hsen Hr Ha).
  - unfold submit_cancelled. destruct (r_submits s !! i) as [[w []]|]; by intros [= <-].
  - unfold submit_cleaned. destruct (r_submits s !! i) as [[w [|acq|k q| |]]|]; intros [= <-].
    by destruct (if k then q else is_acquired w).
  - unfold submit_control. destruct (r_accepting s); intros [= <-]. cbn. intros Hr Ha. by rewrite existsb_app, (Hsen Hr Ha).
  - unfold future_done. destruct (r_futures s !! f) as [[]|]; by intros [= <-].
  - unfold finish_cancelled_future. destruct (r_futures s !! f) as [[]|]; by intros [= <-].
  - intros Hc. assert (alive s) as Hal by (unfold consume in Hc; split; intros E; by rewrite E in Hc).
    destruct (consume_steps _ _ _ Hc) as [Hfin|[? Hreq _ Hq _]]; [intros _ [_ Hx]; by rewrite Hfin in Hx|].
    rewrite Hq, Hreq. intros Hr _. by apply Hsen.
  - unfold consume_get_cancelled. case_decide; [|done]. destruct (r_abort_requested s); intros [= <-] _ [_ Hx].
    by rewrite finish_finished in Hx.
  - intros [= <-]. unfold shutdown. cbn. destruct (r_consumer s) eqn:Ec.
    2-5: destruct (r_shutdown_requested s) eqn:Er; [cbn; intros _ Ha; apply Hsen; [done|exact Ha]|]; cbn; intros _ _;
      rewrite existsb_app; apply orb_true_r.
    all: destruct (cancel_queued_spec false (seal s)) as [c ->]; unfold alive; cbn; rewrite Ec; tauto.
  - unfold shutdown_drained, is_finished. case_bool_decide as Ec; intros [= <-].
    destruct (cancel_queued_spec false s) as [c ->]; unfold alive; cbn; rewrite Ec; tauto.
  - unfold shutdown_timeout, is_finished. destruct (r_shutdown_requested s) eqn:Er; intros [= <-].
    case_bool_decide as Ec; intros Hr Ha.
    + destruct Ha as [_ Ha]. destruct (cancel_queued_spec (negb true) (with_abort_requested true s)) as [c Eq]. by rewrite Eq in Ha.
    + apply sentinel_cancel_queued. apply Hsen; [done|].
      destruct (cancel_queued_spec (negb false) (with_abort_requested true s)) as [c Eq]. by rewrite Eq in Ha.
Qed.

Lemma step_patient_step a s s' : step_patient a s = Some s' → step a s = Some s'.
Proof. by destruct a. Qed.

(** While item [i] waits, the consumer or the future it awaits can move. *)
Record waits_for (i : nat) s : Prop := {
  wf_inv : runner_inv s;
  wf_sentinel : has_sentinel s;
  wf_alive : alive s;
  wf_item : i < length (r_submitted s);
  wf_log : length (r_log s) <= i
}.

Definition helper s : option nat :=
  match r_consumer s with
  | AwaitFuture f => match r_futures s !! f with Some (Some _) => None | _ => Some f end
  | _ => None
  end.

Lemma waits_enabled i s : waits_for i s → enabled step_patient (scheduled (helper s)) s.
Proof.
  intros [Hi Hsen [Hns Hnf] Hlen Hlog]. unfold helper. destruct (ri_order _ Hi) as (d & dr & E & He & Hd).
  destruct (r_consumer s) eqn:Ec; try done.
  - assert (r_queue s ≠ []) as Hq.
    { intros Hq. apply Forall2_length in He. unfold current in E. rewrite Ec, Hq in E. change (works (X := X) []) with (@nil (item X)) in E. cbn in E.
      rewrite E, length_app in Hlen. assert (dr ≠ []) as Hdr by (intros ->; cbn in Hlen; lia).
      destruct (r_accepting s) eqn:Ea; [by rewrite Hd in Hdr|].
      destruct (ri_closed _ Hi Ea) as [Hf|Hr]; [by rewrite Ec| |].
      - apply (ri_fatal _ Hi) in Hf. congruence.
      - unfold has_sentinel, alive in Hsen. rewrite Hq, Ec in Hsen. by specialize (Hsen Hr ltac:(done)). }
    destruct (r_queue s) as [|j q] eqn:Eq; [done|]. eexists (AConsume (Returned ())), _. split; [by eexists|]. cbn. unfold consume.
    by rewrite Ec, Eq.
  - assert (future < length (r_futures s)) as Hf.
    { apply (rb_futures _ (ri_base _ Hi)). rewrite E. unfold current. rewrite Ec. set_solver. }
    destruct (r_futures s !! future) as [[o|]|] eqn:Ef.
    + eexists (AConsume (Returned ())), _. split; [by eexists|]. cbn. unfold consume. by rewrite Ec, Ef.
    + eexists (AFutureDone future WasCancelled), _. split; [by eexists|]. cbn. unfold future_done. by rewrite Ef.
    + apply lookup_ge_None in Ef. lia.
  - eexists (AConsume (Returned ())), _. split; [by eexists|]. cbn. unfold consume. by rewrite Ec.
  - eexists (AConsume (Returned ())), _. split; [by eexists|]. cbn. unfold consume. by rewrite Ec.
Qed.

Definition remaining (i : nat) s : nat := 4 * (i - length (r_log s)) + phase s.

Lemma waits_step i s a s' :
  waits_for i s → step_patient a s = Some s' →
  (i < length (r_log s') ∨ r_consumer s' = Finished) ∨
  (waits_for i s' ∧ (remaining i s' < remaining i s ∨
    (remaining i s' = remaining i s ∧ helper s' = helper s ∧ ¬ scheduled (helper s) a))).
Proof.
  intros [Hi Hsen Hal Hlen Hlog] Hp. pose proof (step_patient_step _ _ _ Hp) as Hs.
  pose proof (inv_step _ _ _ Hi Hs) as Hi'. pose proof (sentinel_step _ _ _ Hi Hsen Hp) as Hsen'.
  destruct (decide (i < length (r_log s'))) as [|Hlog']; [by left; left|].
  destruct (decide (r_consumer s' = Finished)) as [|Hnf]; [by left; right|]. right.
  assert (scheduled None a ∨ ¬ scheduled None a) as [[o ->]|Hno].
  { destruct a; try (right; by intros [? ?]). left. by eexists. }
  - destruct (consume_steps _ _ _ Hs) as [?|[? _ Hsub _ Hph]]; [done|]. split.
    + split; try done; [by rewrite Hsub|lia].
    + left. unfold remaining. lia.
  - destruct (other_steps _ _ _ Hal Hno Hs) as [?|[Hc Hl Hsub Hf]]; [done|]. split.
    + split; try done; [unfold alive; by rewrite Hc|lia|lia].
    + unfold remaining, phase, helper. rewrite Hc, Hl. destruct (r_consumer s) eqn:Ec; try (right; split_and!; done).
      assert (future < length (r_futures s)) as Hfut.
      { destruct (ri_order _ Hi) as (d & dr & E & _). apply (rb_futures _ (ri_base _ Hi)). rewrite E. unfold current. rewrite Ec. set_solver. }
      destruct (r_futures s !! future) as [[o|]|] eqn:Ef.
      * right. destruct (Hf _ _ Ef) as [->|[o' ->]]; [done|]. cbn in Hs. unfold future_done in Hs. by rewrite Ef in Hs.
      * destruct (r_futures s' !! future) as [[o|]|] eqn:Ef'.
        -- left. cbn. lia.
        -- right. split_and!; try done. intros [o' ->]. cbn in Hs. unfold future_done in Hs. rewrite Ef in Hs.
           injection Hs as <-. cbn in Ef'. by rewrite list_lookup_insert_eq in Ef'.
        -- destruct (Hf _ _ Ef) as [Ef2|[o' ->]]; [congruence|]. cbn in Hs. unfold future_done in Hs. rewrite Ef in Hs.
           injection Hs as <-. cbn in Ef'. by rewrite list_lookup_insert_eq in Ef'.
      * apply lookup_ge_None in Ef. lia.
Qed.
End runner_progress.

(** ** The contract of the runner *)

Section runner_contract.
Context {Rec X : Type}.

(** C30. In every interleaving of submissions, completions, the consumer, cancellations
    and shutdowns: what was put out and acted on is, in order and exactly once, the
    results of a prefix of what was submitted; never more than [capacity] computes are
    started and not yet put out; when the consumer has ended nothing is queued, so no
    [barrier] blocks; and unless a cancelled call is cancelled again in its handler,
    every slot is free or in use. *)
Theorem async_runner_ordered capacity (s : runner Rec X) :
  reachable step (AsyncOrderedRunner_init capacity) s →
  (∃ done rest, r_submitted s = done ++ rest ∧ Forall2 (executed (r_futures s)) done (r_log s)) ∧
  NoDup (computes (r_submitted s)) ∧
  in_flight s <= Z.to_nat (Z.max 1 capacity) ∧
  (r_consumer s = Finished → r_queue s = [] ∧ is_Some (barrier s)) ∧
  (reachable step_once_cancelled (AsyncOrderedRunner_init capacity) s →
     r_slots s + in_flight s + sum_list_with holds_slot (r_submits s) = Z.to_nat (Z.max 1 capacity)).
Proof.
  intros Hr. pose proof (inv_reachable _ _ Hr) as Hi. split_and!.
  - apply ordered_rest_ordered, (ri_order _ Hi).
  - apply (rb_nodup _ (ri_base _ Hi)).
  - pose proof (slots_bounded _ _ Hr) as Hb. unfold slots_in_use in Hb. lia.
  - intros Hf. destruct (ri_finished _ Hi Hf) as [Hq _]. split; [done|]. unfold barrier.
    rewrite decide_True; [by eexists|]. rewrite (ri_unfinished _ Hi), Hq. unfold busy. by rewrite Hf.
  - intros Hc. pose proof (slots_conserved _ _ Hc) as Hb. unfold slots_in_use in Hb. lia.
Qed.

(** C31. If the event loop is fair to the consumer and to the computes, and no call of
    [shutdown] is cancelled while it waits, every item submitted to a started runner is
    executed, or the runner ends because of an error or a shutdown.  A cancelled call of
    [shutdown] may stop it from ending ([cancelled_shutdown_drops_the_sentinel]). *)
Theorem async_runner_progress capacity (σ : nat → runner Rec X) α n i :
  is_run step_patient σ α → σ 0 = AsyncOrderedRunner_init capacity →
  (∀ k, weakly_fair step_patient (scheduled k) σ α) →
  r_consumer (σ n) ≠ NotStarted → i < length (r_submitted (σ n)) →
  ∃ m, n <= m ∧ (i < length (r_log (σ m)) ∨ (r_consumer (σ m) = Finished ∧ closed_for_a_reason (σ m))).
Proof.
  intros Hrun H0 Hfair Hns Hlen.
  assert (∀ m, runner_inv (σ m) ∧ has_sentinel (σ m)) as Hinv.
  { intros m. apply (run_invariant step_patient (λ s, runner_inv s ∧ has_sentinel s) σ α 0 m Hrun); [|lia|].
    - intros s a s' [Hi Hsen] Hs. split; [|by eapply sentinel_step]. eapply inv_step; [done|by apply step_patient_step].
    - rewrite H0. split; [apply inv_init|done]. }
  assert (∃ m, n <= m ∧ (i < length (r_log (σ m)) ∨ r_consumer (σ m) = Finished)) as (m & Hle & Hm).
  { destruct (Hinv n) as [Hi Hsen].
    destruct (decide (i < length (r_log (σ n)))) as [|Hlog]; [exists n; auto|].
    destruct (decide (r_consumer (σ n) = Finished)) as [|Hnf]; [exists n; auto|].
    apply (fair_progress step_patient scheduled (waits_for i) (λ s, i < length (r_log s) ∨ r_consumer s = Finished)
      (remaining i) helper σ α n Hrun Hfair).
    - apply waits_enabled.
    - intros s a s'. apply waits_step.
    - split; try done. lia. }
  exists m. split; [done|]. destruct Hm as [Hm|Hm]; [by left|right]. split; [done|].
  destruct (Hinv m) as [Hi _]. apply (ri_closed _ Hi); [by apply (ri_finished _ Hi)|by rewrite Hm].
Qed.
End runner_contract.

(** ** Examples *)

(** Two computes of a runner with two slots complete in the reverse order, with a control
    action between them. *)
Definition sample_actions : list (action nat nat) :=
  [AStart; ASubmitCompute; ASlotAcquired 0; ASubmitWoken 0; ASubmitSettled 0; ASubmitControl 9;
   ASubmitCompute; ASlotAcquired 1; ASubmitWoken 1; ASubmitSettled 1; AFutureDone 1 (Returned [2]); AConsume (Returned ());
   AFutureDone 0 (Returned [1]); AConsume (Returned ()); AConsume (Returned ()); AConsume (Returned ()); AConsume (Returned ());
   AConsume (Returned ()); AConsume (Returned ()); AConsume (Returned ())].

Definition sample_end : runner nat nat :=
  default (AsyncOrderedRunner_init 2) (run_steps step sample_actions (AsyncOrderedRunner_init 2)).

(** A runner with one slot and nothing in work, whose only call was cancelled twice,
    never grants a slot again. *)
Example cancelled_twice_loses_the_slot :
  let s := run_steps (step (Rec := nat) (X := nat))
    [AStart; ASubmitCompute; ASlotAcquired 0; ASubmitCancelled 0; ASubmitCancelled 0; ASubmitCompute] (AsyncOrderedRunner_init 1) in
  r_slots <$> s = Some 0 ∧ in_flight <$> s = Some 0 ∧ r_accepting <$> s = Some true.
Proof. by vm_compute. Qed.

(** A [shutdown] cancelled while it waits takes the sentinel with it: the next one finds
    the consumer waiting on an empty queue until its time runs out. *)
Example cancelled_shutdown_drops_the_sentinel :
  let s := run_steps (step (Rec := nat) (X := nat)) [AStart; AShutdown; AShutdownCancelled; AShutdown] (AsyncOrderedRunner_init 1) in
  r_consumer <$> s = Some AtGet ∧ r_queue <$> s = Some [] ∧ r_accepting <$> s = Some false.
Proof. by vm_compute. Qed.

Lemma async_runner_ordered_witness :
  r_log sample_end = [Emitted [1]; Acted 9; Emitted [2]] ∧ r_submitted sample_end = [Compute 0; Control 9; Compute 1] ∧
  in_flight sample_end <= 2.
Proof.
  split; [by vm_compute|]. split; [by vm_compute|].
  apply (async_runner_ordered 2). apply (run_steps_reachable step sample_actions _ (AsyncOrderedRunner_init 2)); [constructor|].
  by vm_compute.
Defined.

(** Action 9 is submitted after five steps and executed. *)
Lemma async_runner_progress_witness :
  ∃ m, 6 <= m ∧ 1 < length (r_log (trace_of step_patient (AsyncOrderedRunner_init 2) sample_actions m)).
Proof.
  assert (run_steps step_patient sample_actions (AsyncOrderedRunner_init 2) = Some sample_end) as Hend by by vm_compute.
  assert (∀ k, ¬ enabled step_patient (scheduled k) sample_end) as Hstill.
  { intros [f|] (a & s & [o ->] & Hs); [|by vm_compute in Hs].
    destruct f as [|[|f]]; vm_compute in Hs; done. }
  destruct (async_runner_progress 2 (trace_of step_patient (AsyncOrderedRunner_init 2) sample_actions) (λ n, sample_actions !! n)
    6 1) as (m & Hle & Hm).
  - apply trace_of_run. by eexists.
  - by vm_compute.
  - intros k. by apply (trace_of_fair _ _ _ _ _ Hend).
  - by vm_compute.
  - vm_compute. lia.
  - exists m. split; [done|]. destruct Hm as [Hm|[_ Hreason]]; [done|]. exfalso.
    assert (∀ n, closed_for_a_reason (trace_of step_patient (AsyncOrderedRunner_init 2) sample_actions n) → False) as Hno; [|by apply (Hno m)].
    intros n. destruct (decide (n < 21)) as [Hn|Hn].
    + assert (n ∈ seq 0 21) as Hin by (apply elem_of_seq; lia). clear Hn. revert n Hin.
      refine (proj1 (Forall_forall (λ n, closed_for_a_reason _ → False) _) _).
      repeat constructor; vm_compute; by intros [[? ?]|?].
    + unfold trace_of. rewrite take_ge, Hend by (cbn; lia). vm_compute. by intros [[? ?]|?].
Defined.
